(* ===== verification/_CoqProject ===== *)
-Q . S2P
Prelude.v
Chainfee.v
Shachain.v
Tlv.v
TlvProps.v
TlvStreams.v
Features.v
Amp.v
Invoices.v
InvoiceToy.v
InvoiceProps.v
InvoicePaid.v
InvoiceFinal.v
InteractiveTx.v
TxToy.v
TxBuild.v
TxAgreement.v
TxProtocol.v
Payments.v
PaymentsProps.v
PaymentsFinal.v
UpdateLog.v
Channel.v
ChannelToy.v
ChannelLog.v
ChannelView.v
ChannelInv.v
ChannelCommit.v
ChannelAfter.v
ChannelSteps.v
ChannelRun.v
ChannelStill.v
ChannelDb.v
ChannelHist.v
ChannelPast.v
ChannelCompact.v
ChannelClosed.v
ChannelPastSteps.v
ChannelRestore.v
ChannelKept.v
ChannelKeptSteps.v
ChannelReadLogs.v
ChannelRestart.v
ChannelRestored.v
ChannelRestarts.v
ChannelPeers.v
ChannelSystem.v
ChannelAgreement.v
ChannelSync.v
ChannelSyncToy.v
ChannelHeld.v
ChannelReestablish.v
CircuitMap.v
CircuitSpec.v
CircuitRefine.v
CircuitRestart.v
Circuits.v
Quiescer.v
Link.v
LinkProtocol.v
LinkRefine.v
Links.v
Forwarding.v
Packet.v
Mailbox.v
MailboxProps.v
Switch.v
SwitchMail.v
Node.v
NodeInv.v
NodeSwitch.v
NodeLinks.v
NodeRestart.v
NodeSafe.v
NodeToy.v
