(* ===== verification/Prelude.v ===== *)
(** * lightning-fork: a verification development for the daemon's core logic

    Lightning Fork is a fork of lnd, a Lightning Network node. This library
    models parts of it as executable functions on the code's own data and
    proves what makes those parts correct. Names under [src/] are given with
    each definition's comment where they differ.

    ** The parts

    - [Chainfee]: the fee rates of lnwallet/chainfee/rates.go and the fees they
      give, on 64-bit integers.
    - [InteractiveTx]: the session of lnwallet/interactivetx in which two peers
      build a splice transaction: [session.go] (the messages in and out, the
      turns, [Build] and its accounting), [order.go] (who signs first) and
      [verify.go] (the peer's witnesses). [TxToy] runs it on a sample;
      [TxBuild], [TxAgreement] and [TxProtocol] hold its theorems. It uses
      [Chainfee].
    - [Shachain]: the per-commitment secrets of package shachain: derivation,
      producer, compact store, the store and producer of independent secrets,
      and their encodings.
    - [Tlv]: package tlv: variable-length and truncated integers, records and
      their codecs, streams. [TlvProps] has the codecs' laws and the reference
      decoder, [TlvStreams] the theorems.
    - [Features]: lnwire/features.go and feature/deps.go: the bits, the vectors
      and their encodings, the dependencies and [SetBit].
    - [Amp]: package amp: the shares of an atomic multi-path payment, the
      derivation of its preimages, the sender's shard tracker.
    - [Invoices]: package invoices: the decision on an arriving HTLC
      ([update.go]), the application of an update ([update_invoice.go]) and the
      registry's operations on an invoice ([invoiceregistry.go]). It uses
      [Features] (the kind of an invoice) and [Amp] (the preimages of a set).
      [InvoiceProps] holds the effects of the operations, [InvoicePaid] and
      [InvoiceFinal] the theorems, [InvoiceToy] a sample.
    - [Payments]: outgoing payments: payments/db (a payment, its status, the
      key-value store) and the decisions of routing/payment_lifecycle.go.
      [PaymentsProps] has the invariant of the store, [PaymentsFinal] the
      theorems.
    - [UpdateLog]: the logs of a channel's updates (lnwallet/update_log.go and
      payment_descriptor.go), with their pointers and index maps.
    - [Channel]: the channel state machine of lnwallet/channel.go, with the
      commitments of commitment.go, the chains of commitment_chain.go and the
      record of channeldb/channel.go. It uses [UpdateLog], [Chainfee] (fees)
      and [Shachain] (the secrets of revocations). [ChannelLog] has the
      invariant of a pair of logs, [ChannelView] the evaluation of a view in
      closed form, [ChannelInv] the invariant [chan_ok] of a channel and the
      writes that keep it, [ChannelCommit] the making of a commitment,
      [ChannelAfter] what a log never forgets, [ChannelSteps] the methods,
      [ChannelRun] and [ChannelDb] runs of a channel and their theorems,
      [ChannelStill] what no call but the four of the dance changes,
      [ChannelToy] a sample.
    - [ChannelRestore]: the channel read back from its record in the database
      ([NewLightningChannel], [restoreCommitState], [restoreStateLogs]).
      [ChannelKept] is what the record keeps of a channel, an invariant of its
      own, and [ChannelKeptSteps] the methods; [ChannelReadLogs] the loops of
      [restoreStateLogs], [ChannelRestart] the logs that they make,
      [ChannelRestored] the invariants of the channel that is read back, and
      [ChannelRestarts] the theorems on runs with restarts.
    - The two ends of a channel: [ChannelHist] the histories of updates that
      the logs are windows of, kept by each write ([ChannelPast],
      [ChannelCompact]) and method ([ChannelPastSteps]); [ChannelClosed] each
      commitment in closed form over them; [ChannelPeers] the system of two
      nodes and the messages between them, and what is in flight;
      [ChannelSystem] its steps, [ChannelAgreement] the theorem. [ChannelSync]
      is what the nodes tell each other when they are connected again
      ([ChanSyncMsg]) and what they send again ([ProcessChanSyncMsg]), with
      samples in [ChannelSyncToy]. [ChannelHeld] is what each holds of the other's
      secrets and what the record says of the messages on their way;
      [ChannelReestablish] has the theorem.
    - [CircuitMap]: the circuits of forwarded HTLCs (htlcswitch/circuit_map.go
      and circuit.go), with their objects in a heap and their buckets on disk.
      [CircuitSpec] is the same as one map, and what callers keep to;
      [CircuitRefine] and [CircuitRestart] show that each operation, a restart
      included, implements it; [Circuits] has the theorems on runs. An operation
      runs to its end: its interleaving with another between two locks is not
      modelled.
    - [Quiescer]: the negotiation of quiescence (htlcswitch/quiescer.go).
    - [Link]: the handlers of htlcswitch/link.go that drive a [Channel] and a
      [Quiescer] by what the peer, the switch, the invoice registry and the
      timers send, with their effects as a list; [htlc_manager] is one round of
      its event loop. [LinkProtocol] is what they come to, one call at a time,
      for two nodes; [LinkRefine] shows that each handler is steps of it;
      [Links] runs two links, with the theorems.
    - [Forwarding]: whether a link takes an HTLC to forward (the policies, fees
      and bandwidth of htlcswitch/link.go), with its theorem. [Packet]: the
      packets between switch and links (packet.go). [Mailbox]: the queues in
      which they wait (mailbox.go); [MailboxProps] has their theorems.
    - [Switch]: htlcswitch/switch.go and switch_splice.go: the indexes of links,
      the batches of a link ([forward_packets]), the forwarder with its
      handlers of adds, settles and failures, our own payments, resolutions of
      the chain, and what is sent again after a restart. It uses [CircuitMap],
      [Forwarding] and [Mailbox]; [SwitchMail] says what its mailboxes hold.
    - [Node]: a switch with its links, as far as forwarding goes: a link takes
      packets from its mailbox, opens circuits, signs, completes responses,
      restarts, as does the node. [NodeInv] is the invariant of a node: where
      each HTLC is between its two channels. [NodeSwitch], [NodeLinks] and
      [NodeRestart] show that the steps keep it; [NodeSafe] has the theorems and
      [NodeToy] a sample.

    ** How the code is modelled

    - A function that returns an error is a function into [result]; the errors
      of a component are one inductive type, and a run-time panic of the source
      is one of its constructors, so that a theorem on [Ok] results also says
      that no panic happened.
    - A method that mutates its receiver is a function from the state to the
      new state. Loops are folds that stop at the first error; [range] over a
      map is a fold over some order of its keys, any order where the result can
      depend on it ([MapOrder]).
    - Integers have the source's width: [u64], [i64] and the like after each
      operation that can leave it.
    - Code that is not under [src/] is a class of parameters: [HashPrims] and
      [Sha256] for hashes and curve operations, [TlvPrims] for public keys, [TxPrims] for btcd's
      transactions and scripts, [ChannelPrims] for signatures, nonces, the outputs
      of a commitment and btcd's check and weight of it, [MusigPrims] for signing
      it again, [LinkPrims] for the onions, [OnionPrims] for the
      encryption of failures, [CircuitPrims] for keys and the secrets that the
      onion processor derives, [Updater] for the invoice database. What a
      theorem needs of it is a class of laws ([HashLaws], [TxLaws],
      [ChannelLaws]) or a hypothesis, and a sample instance satisfies it.
    - The methods of a channel are in a monad of state and errors ([M]): an
      error keeps what was written before it, as in the source. The theorems
      are about runs ([run_ops]): any sequence of calls, with any messages of
      the peer, up to the first error of the commitment dance, where a link
      gives the channel up.

    ** What the theorems show

    - A finished construction spends the old funding output once, pays the new
      channel exactly what it should hold, and shares the fee
      ([build_accounts]); two nodes that talk to each other agree on the
      transaction ([sessions_agree]) and finish ([exchange_ends],
      [rounds_bounded]); no input is spent twice ([inputs_spend_once]); one of
      the two signs first ([one_signs_first]) and the peer's witnesses are the
      agreed ones ([peer_witnesses_checked]).
    - The store of secrets gives back every secret it accepted
      ([accepted_secrets_look_up]), accepts what a producer makes
      ([producer_feeds_store]) and survives its encoding.
    - Two nodes that run a channel with each other agree on every commitment,
      however their messages cross ([peers_agree]).
    - A node can stop between any two methods: the channel is read back without
      an error, with the commitments that were saved and every HTLC and
      resolution that is needed ([restart_restores]), and the funds stay whole
      over any number of restarts ([restarts_keep_funds]). Changes of the fee
      rate are the exception: two of them can change places
      ([restored_fees_swap]), and the first of a channel can be lost
      ([first_fee_is_lost]), so that the opener refuses a good signature. Two
      nodes that are cut off at any moment and restart are in sync: each sends
      again what the other has not got of the commitment dance
      ([reestablish_in_sync]).
    - Two links are two such nodes ([links_refine]), until one of them gives up
      the channel. When both are quiescent, the channel is at rest and they
      agree on who asked for it ([quiescence_agreed]); neither fails the other
      for a violation of quiescence ([no_stfu_violation]) unless an invoice that
      was held is resolved meanwhile, which the link does not look at: then the
      peer always fails the channel ([hodl_breaks_quiescence]).
    - The circuit map is one map of circuits over any sequence of operations
      and restarts that keeps to the contract of its callers ([op_contract] in
      [CircuitSpec]; [circuit_map_refines]): an HTLC is answered once between
      deletions and restarts ([one_response]) and forwarded once over restarts
      too, but for closed channels ([one_forward]); a circuit survives its
      encoding, its encrypter rederived ([circuit_survives_encoding]). Two slips:
      a trimmed key stays in the index by payment hash
      ([trimmed_key_stays_indexed]), and a trimming whose write fails is not
      undone in memory ([failed_trim_splits]; the contract excludes it).
    - A node that forwards does not lose by it ([forwarding_safe]): whatever
      its links, the chain and restarts make of it within [op_keeps], of an
      incoming HTLC there is at most one outgoing HTLC, the incoming one is
      failed only when the outgoing one is failed or never signed, and settled
      with its preimage; the circuit of an HTLC that is not answered is there. An
      answer that the forwarder handles, and whose circuit no other has claimed,
      waits for the link it is for ([response_returns]), and a
      mailbox delivers again what was not acknowledged ([mailbox_redelivers]),
      within its budgets ([wire_queue_bounded]). What a link forwards pays the
      fees of both channels ([forwards_pay]). [op_keeps] excludes failed writes
      of a forwarded batch's circuits, which do lose an HTLC
      ([failed_write_loses]), and channels that are closed at a restart.
    - A channel's money is conserved on every commitment that a node or its
      peer can broadcast ([funds_conserved]), and these commitments list what
      the logs say ([commitments_reflect_logs]); an HTLC is resolved once
      between two restarts ([resolved_once]), with its amount and preimage
      ([resolutions_are_sound]); a valid revocation is accepted
      ([valid_revocation_accepted]), the secrets given away are those of dead
      commitments ([revoked_secrets_are_old]), and the record in the database
      is the state in memory ([record_mirrors_chains]).
    - An invoice is settled only when it is paid, over any sequence of
      operations ([settled_means_paid]); what a link is told is what is
      recorded, with the right preimage ([resolution_recorded]); final states
      are final ([final_states_stay]).
    - The shares of a payment reconstruct its root and preimages
      ([shards_reconstruct]).
    - Feature vectors survive their encodings, the dependency check is exact
      and ends, and [SetBit] sets exactly the closure of a bit
      ([vector_survives_encoding], [deps_checked], [set_bit_closed]);
      [overlay_bits_unpaired] shows one pair of bits that is not a pair.
    - A TLV stream has one cut into records and one reading
      ([decode_is_reference]), a stream is read back ([stream_round_trip]), the
      primitive codecs are typed ([primitive_records_typed]) and integers are
      minimal ([integers_canonical]); [big_size_length_ignored] and
      [nil_decoder_panics] are the exceptions.
    - A payment never sends more than its amount ([never_overpays]), an attempt
      is resolved once and kept while it can take money
      ([attempt_life_cycle]), a hash is paid once ([paid_once]), and the loop
      never waits in vain ([lifecycle_decisions]).
    - The roundings of fees are within one satoshi ([fee_roundings]).

    ** Bounds and fuel

    The recursions on feature dependencies take [deps_depth] calls of fuel,
    one more than the depth of the table ([rank]); running out is an error of
    its own that [deps_checked] excludes. The loops that search (trailing
    zeros, independent secrets) are bounded as the source's are. The amounts
    of an invoice's HTLCs must fit a [uint64] ([amounts_fit]); weights and
    sums of a construction are bounded by its limits on items. A run of a
    channel has fewer than 2^64 calls, so that log indexes do not wrap; sums of
    a commitment are equal modulo 2^64 always, and exactly when it is [modest]
    (a fee rate and dust limit of 32 bits, at most 2^20 HTLCs, where BOLT 2
    allows 966). The loop of a TLV stream has one round of fuel per byte, and
    each round reads one. The amounts of payments are below 2^63
    millisatoshi.

    ** What is not modelled

    Of the channel: breaches, closes, pending splices and auxiliary components,
    the scripts and the order of a commitment's outputs, and what of an HTLC
    only matters for these (its script, its output index, its onion) in the
    record. Of payments: the SQL store, the encodings on disk, pathfinding and
    the subscribers. Of links: the reestablishment, splices and batches, the
    hooks on flushes, failures of the connection and the database, debugging
    modes, and what the onion and the registry make of an HTLC, which is an
    argument. Of the switch: the interceptor of forwards, the closing of links,
    the flush of forwarding events and the subscriptions to results. The runs of
    a node ([op_keeps]) restart a link in one step, write the circuits of a
    batch and of a trimming without failure, restart with no channel closed
    meanwhile, and hear from a channel
    or the chain only the answer that an outgoing HTLC got. On-chain resolution,
    the wire messages and BOLT 11 and 12 are not modelled yet. Databases, the network, cryptography, scripts, RPC servers,
    the wallet and generated code are not modelled at all: the parts above
    take what they need of them as parameters. *)

From stdpp Require Export base gmap list strings sorting.
From Stdlib Require Export ZArith Lia.
From coqutil Require Export Byte.
From coqutil Require Import Word.LittleEndianList.

#[global] Open Scope Z_scope.

Declare Scope lnd_scope.
Delimit Scope lnd_scope with lnd.
#[global] Open Scope lnd_scope.

(** ** Outcomes

    A Go function that returns [(T, error)] becomes a function into
    [result E T], where [E] lists the errors of the component.  A run-time
    panic is an error of that type too, with a constructor of its own. *)

Inductive result (E A : Type) : Type :=
| Ok (a : A)
| Err (e : E).
Arguments Ok {E A} a.
Arguments Err {E A} e.

Definition rbind {E A B} (r : result E A) (k : A → result E B) : result E B :=
  match r with
  | Ok a => k a
  | Err e => Err e
  end.

Notation "'let*' x ':=' c 'in' k" := (rbind c (λ x, k))
  (at level 10, x pattern, c at level 100, k at level 200) : lnd_scope.
Notation "'ensure' b 'else' e ';' k" := (if b then k else Err e)
  (at level 10, b at level 100, e at level 100, k at level 200) : lnd_scope.

Definition is_ok {E A} (r : result E A) : bool :=
  match r with Ok _ => true | Err _ => false end.

Lemma rbind_Ok {E A B} (r : result E A) (k : A → result E B) b :
  rbind r k = Ok b ↔ ∃ a, r = Ok a ∧ k a = Ok b.
Proof. destruct r; simpl; naive_solver. Qed.

Lemma rbind_Err {E A B} (r : result E A) (k : A → result E B) e :
  rbind r k = Err e ↔ r = Err e ∨ ∃ a, r = Ok a ∧ k a = Err e.
Proof. destruct r; simpl; naive_solver. Qed.

(** [fold_result f l s] runs [f] over [l] from state [s], stopping at the
    first error, as a Go loop whose body returns on an error. *)
Fixpoint fold_result {E S X} (f : S → X → result E S) (l : list X) (s : S) : result E S :=
  match l with
  | [] => Ok s
  | x :: l' => let* s' := f s x in fold_result f l' s'
  end.

Lemma fold_result_app {E S X} (f : S → X → result E S) l1 l2 s :
  fold_result f (l1 ++ l2) s = rbind (fold_result f l1 s) (fold_result f l2).
Proof.
  revert s. induction l1 as [|x l1 IH]; intros s; simpl; [done|].
  destruct (f s x); simpl; [apply IH | done].
Qed.

(** An invariant that every successful step keeps holds at the end. *)
Lemma fold_result_inv {E S X} (P : S → Prop) (f : S → X → result E S) l s s' :
  (∀ s x s', P s → f s x = Ok s' → P s') →
  P s → fold_result f l s = Ok s' → P s'.
Proof.
  intros Hf. revert s. induction l as [|x l IH]; intros s HP H; simpl in H.
  - by injection H as <-.
  - apply rbind_Ok in H as (s1 & H1 & H2). eauto.
Qed.

(** ** Machine integers

    An unsigned integer of [w] bits is a [Z] in [0, 2^w); every operation of
    the source that can leave that range is followed by the wrap-around. *)

Definition u8 (x : Z) : Z := x mod 2 ^ 8.
Definition u16 (x : Z) : Z := x mod 2 ^ 16.
Definition u32 (x : Z) : Z := x mod 2 ^ 32.
Definition u64 (x : Z) : Z := x mod 2 ^ 64.

(** The conversion to a signed integer of 64 (32) bits. *)
Definition i64 (x : Z) : Z := (x + 2 ^ 63) mod 2 ^ 64 - 2 ^ 63.
Definition i32 (x : Z) : Z := (x + 2 ^ 31) mod 2 ^ 32 - 2 ^ 31.

Definition in_u8 (x : Z) : Prop := 0 ≤ x < 2 ^ 8.
Definition in_u16 (x : Z) : Prop := 0 ≤ x < 2 ^ 16.
Definition in_u32 (x : Z) : Prop := 0 ≤ x < 2 ^ 32.
Definition in_u64 (x : Z) : Prop := 0 ≤ x < 2 ^ 64.
Definition in_i64 (x : Z) : Prop := - 2 ^ 63 ≤ x < 2 ^ 63.

Lemma u8_small x : in_u8 x → u8 x = x.
Proof. apply Z.mod_small. Qed.
Lemma u16_small x : in_u16 x → u16 x = x.
Proof. apply Z.mod_small. Qed.
Lemma u32_small x : in_u32 x → u32 x = x.
Proof. apply Z.mod_small. Qed.
Lemma u64_small x : in_u64 x → u64 x = x.
Proof. apply Z.mod_small. Qed.
Lemma u64_range x : in_u64 (u64 x).
Proof. apply Z.mod_pos_bound. lia. Qed.
Lemma u32_range x : in_u32 (u32 x).
Proof. apply Z.mod_pos_bound. lia. Qed.
Lemma i64_small x : in_i64 x → i64 x = x.
Proof. unfold in_i64, i64. intros H. rewrite Z.mod_small; lia. Qed.
Lemma i64_range x : in_i64 (i64 x).
Proof. unfold in_i64, i64. pose proof (Z.mod_pos_bound (x + 2 ^ 63) (2 ^ 64)). lia. Qed.

Create HintDb widths.
#[global] Hint Unfold in_u8 in_u16 in_u32 in_u64 in_i64 : widths.

(** [widths] removes the wrap-around where the argument is in range. *)
Ltac in_range := autounfold with widths in *; lia.

Ltac widths :=
  repeat match goal with
    | |- context [u64 ?x] => rewrite (u64_small x) by in_range
    | |- context [u32 ?x] => rewrite (u32_small x) by in_range
    | |- context [u16 ?x] => rewrite (u16_small x) by in_range
    | |- context [u8 ?x] => rewrite (u8_small x) by in_range
    | |- context [i64 ?x] => rewrite (i64_small x) by in_range
    end.

(** ** Bytes *)

Abbreviation byte := Init.Byte.byte.
Abbreviation bytes := (list byte).

#[global] Instance byte_eq_decision : EqDecision byte := Byte.byte_eq_dec.

#[global] Program Instance byte_countable : Countable byte :=
  inj_countable Byte.to_N Byte.of_N _.
Next Obligation. intros b. apply Byte.of_to_N. Qed.

(** [binary.BigEndian.PutUintN] and [UintN] for an [n]-byte integer. *)
Definition be_encode (n : nat) (v : Z) : bytes := rev (le_split n v).
Definition be_decode (b : bytes) : Z := le_combine (rev b).

Lemma be_encode_length n v : length (be_encode n v) = n.
Proof. unfold be_encode. by rewrite length_rev, length_le_split. Qed.

Lemma be_decode_encode n v :
  0 ≤ v < 2 ^ (8 * Z.of_nat n) → be_decode (be_encode n v) = v.
Proof.
  intros Hv. unfold be_decode, be_encode. rewrite rev_involutive, le_combine_split.
  apply Z.mod_small. by rewrite Z.mul_comm.
Qed.

Lemma be_encode_decode b n : length b = n → be_encode n (be_decode b) = b.
Proof.
  intros <-. unfold be_decode, be_encode.
  by rewrite <-(length_rev b), split_le_combine, rev_involutive.
Qed.

Lemma be_decode_range b : 0 ≤ be_decode b < 2 ^ (8 * Z.of_nat (length b)).
Proof. unfold be_decode. rewrite <-(length_rev b). apply le_combine_bound. Qed.

Lemma be_decode_zeros k b : be_decode (replicate k Byte.x00 ++ b) = be_decode b.
Proof.
  induction k as [|k IH]; simpl; [done|]. rewrite <-IH. unfold be_decode. simpl.
  apply (le_combine_snoc_0 (rev (replicate k Byte.x00 ++ b))).
Qed.

Lemma be_encode_zeros n k v :
  (k ≤ n)%nat → 0 ≤ v < 2 ^ (8 * Z.of_nat (n - k)) →
  be_encode n v = replicate k Byte.x00 ++ be_encode (n - k) v.
Proof.
  intros Hk Hv.
  rewrite <-(be_encode_decode (replicate k Byte.x00 ++ be_encode (n - k) v) n).
  - by rewrite be_decode_zeros, be_decode_encode.
  - rewrite length_app, length_replicate, be_encode_length. lia.
Qed.

(** [read_n n b] is [io.ReadFull] of [n] bytes: what was read and what is
    left, or nothing when the input ends first. *)
Definition read_n (n : nat) (b : bytes) : option (bytes * bytes) :=
  if decide (n ≤ length b)%nat then Some (take n b, drop n b) else None.

Lemma read_n_app n b r : length b = n → read_n n (b ++ r) = Some (b, r).
Proof.
  intros <-. unfold read_n. rewrite decide_True by (rewrite length_app; lia).
  by rewrite take_app_length, drop_app_length.
Qed.

Lemma read_n_Some n b x r : read_n n b = Some (x, r) → b = x ++ r ∧ length x = n.
Proof.
  unfold read_n. case_decide; intros [= <- <-].
  rewrite take_drop, length_take. split; [done | lia].
Qed.

Lemma read_n_None n b : read_n n b = None ↔ (length b < n)%nat.
Proof. unfold read_n. case_decide; split; intros; try done; lia. Qed.

Create Rewrite HintDb lengths.
#[global] Hint Rewrite be_encode_length @length_app @length_take @length_drop
  @length_replicate @length_insert : lengths.
#[global] Opaque be_encode be_decode read_n.

(** ** Sums *)

Definition zsum (l : list Z) : Z := foldr Z.add 0 l.

Lemma zsum_app l k : zsum (l ++ k) = zsum l + zsum k.
Proof. induction l; simpl; lia. Qed.

Lemma zsum_bounds lo hi l :
  Forall (λ x, lo ≤ x ≤ hi) l →
  Z.of_nat (length l) * lo ≤ zsum l ≤ Z.of_nat (length l) * hi.
Proof. induction 1; simpl; lia. Qed.

#[export] Instance zsum_perm : Proper ((≡ₚ) ==> eq) zsum.
Proof. induction 1; simpl; lia. Qed.

(** A loop that adds the chosen items to an [int64] does not overflow while
    the items and their number are small. *)
Lemma fold_i64_sum {A} (p : A → bool) (f : A → Z) (b acc : Z) (l : list A) :
  Forall (λ x, Z.abs (f x) ≤ b) l → 0 ≤ b →
  Z.abs acc + Z.of_nat (length l) * b < 2 ^ 63 →
  foldl (λ a x, if p x then i64 (a + f x) else a) acc l =
  acc + zsum (map f (List.filter p l)).
Proof.
  intros H Hb. revert acc. induction H as [|x l Hx H IH]; intros acc Ha; simpl; [lia|].
  cbn [length] in Ha. destruct (p x); simpl.
  - rewrite i64_small by in_range. rewrite IH by lia. lia.
  - apply IH. lia.
Qed.

Lemma foldl_pointwise {A B} (f g : A → B → A) a l :
  (∀ a b, f a b = g a b) → foldl f a l = foldl g a l.
Proof. intros E. revert a. induction l as [|b l IH]; intros a; simpl; [done|]. by rewrite E, IH. Qed.

(** The same for a loop on [uint64] amounts. *)
Lemma fold_u64_sum {A} (p : A → bool) (f : A → Z) (acc : Z) (l : list A) :
  Forall (λ x, p x = true → 0 ≤ f x) l → 0 ≤ acc →
  acc + zsum (map f (List.filter p l)) < 2 ^ 64 →
  foldl (λ a x, if p x then u64 (a + f x) else a) acc l =
  acc + zsum (map f (List.filter p l)).
Proof.
  intros H. revert acc. induction H as [|x l Hx H IH]; intros acc Ha Hs; simpl in *; [lia|].
  assert (0 ≤ zsum (map f (List.filter p l))) as Hz.
  { clear -H. induction H as [|y l Hy H IH]; simpl; [lia|]. destruct (p y); simpl; [|done].
    specialize (Hy eq_refl). lia. }
  destruct (p x); simpl in *.
  - specialize (Hx eq_refl). rewrite u64_small by in_range. rewrite IH by lia. lia.
  - by apply IH.
Qed.

(** The sum of a weight over the entries of a map. *)
Definition msum `{Countable K} {A} (f : K → A → Z) (m : gmap K A) : Z :=
  zsum (map (uncurry f) (map_to_list m)).

Section Msum.
Context `{Countable K} {A : Type}.
Implicit Types (m : gmap K A) (f g : K → A → Z).

Lemma msum_empty f : msum f ∅ = 0.
Proof. unfold msum. by rewrite map_to_list_empty. Qed.

Lemma msum_insert f k x m : m !! k = None → msum f (<[k := x]> m) = f k x + msum f m.
Proof.
  intros Hk. unfold msum. by rewrite (map_to_list_insert m k x Hk).
Qed.

Lemma msum_delete f k x m : m !! k = Some x → msum f m = f k x + msum f (delete k m).
Proof.
  intros Hk. rewrite <-(insert_delete_id m k x Hk) at 1. apply msum_insert, lookup_delete_eq.
Qed.

Lemma msum_replace f k x y m :
  m !! k = Some x → msum f (<[k := y]> m) = f k y - f k x + msum f m.
Proof.
  intros Hk. rewrite <-insert_delete_eq, msum_insert by apply lookup_delete_eq.
  rewrite (msum_delete f k x m Hk). lia.
Qed.

Lemma msum_ext f g m : (∀ k x, m !! k = Some x → f k x = g k x) → msum f m = msum g m.
Proof.
  induction m as [|k x m Hk IH] using map_ind; intros Hfg; [by rewrite !msum_empty|].
  rewrite !msum_insert by done. f_equal.
  - apply Hfg, lookup_insert_eq.
  - apply IH. intros j y Hj. apply Hfg. rewrite lookup_insert_ne; [done | congruence].
Qed.

Lemma msum_filter (P : K * A → Prop) `{∀ x, Decision (P x)} f m :
  msum f (filter P m) = msum (λ k x, if bool_decide (P (k, x)) then f k x else 0) m.
Proof.
  induction m as [|k x m Hk IH] using map_ind.
  { by rewrite map_filter_empty, !msum_empty. }
  rewrite msum_insert by done. case_bool_decide as HP.
  - rewrite map_filter_insert_True, msum_insert; [by rewrite IH | | done].
    by apply map_lookup_filter_None_2; left.
  - rewrite map_filter_insert_False, delete_id by done. by rewrite IH.
Qed.

Lemma msum_le f g m : (∀ k x, m !! k = Some x → f k x ≤ g k x) → msum f m ≤ msum g m.
Proof.
  induction m as [|k x m Hk IH] using map_ind; intros Hf; [by rewrite !msum_empty|].
  rewrite !msum_insert by done. apply Z.add_le_mono.
  - apply Hf, lookup_insert_eq.
  - apply IH. intros j y Hj. apply Hf. rewrite lookup_insert_ne; [done | congruence].
Qed.

Lemma msum_zero f m : (∀ k x, m !! k = Some x → f k x = 0) → msum f m = 0.
Proof.
  induction m as [|k x m Hk IH] using map_ind; intros Hf; [by rewrite msum_empty|].
  rewrite msum_insert, Hf, IH; [done | | apply lookup_insert_eq | done].
  intros j y Hj. apply Hf. rewrite lookup_insert_ne; [done | congruence].
Qed.

Lemma msum_nonneg f m : (∀ k x, m !! k = Some x → 0 ≤ f k x) → 0 ≤ msum f m.
Proof.
  induction m as [|k x m Hk IH] using map_ind; intros Hf; [by rewrite msum_empty|].
  rewrite msum_insert by done. apply Z.add_nonneg_nonneg.
  - apply Hf, lookup_insert_eq.
  - apply IH. intros j y Hj. apply Hf. rewrite lookup_insert_ne; [done | congruence].
Qed.

(** The sum in whatever order the entries come. *)
Lemma msum_list f m l :
  l ≡ₚ map_to_list m → zsum (map (uncurry f) l) = msum f m.
Proof. intros Hl. unfold msum. by rewrite Hl. Qed.
End Msum.

Lemma msum_imap `{Countable K} {A B} (g : K → B → A) (f : K → A → Z) (m : gmap K B) :
  msum f (map_imap (λ k x, Some (g k x)) m) = msum (λ k x, f k (g k x)) m.
Proof.
  induction m as [|k x m Hk IH] using map_ind.
  { by rewrite map_imap_empty, !msum_empty. }
  rewrite (map_imap_insert_Some _ k x m (g k x)) by done.
  rewrite !msum_insert; [by rewrite IH | done | by rewrite map_lookup_imap, Hk].
Qed.

Lemma zsum_filter {A} (p : A → bool) (f : A → Z) l :
  zsum (map f (List.filter p l)) = zsum (map (λ x, if p x then f x else 0) l).
Proof. induction l as [|x l IH]; simpl; [done|]. destruct (p x); simpl; lia. Qed.

(** ** Filters and pairs *)

Lemma elem_of_bfilter {A} (p : A → bool) (l : list A) x : x ∈ List.filter p l ↔ x ∈ l ∧ p x = true.
Proof. rewrite !list_elem_of_In. apply filter_In. Qed.

Lemma bfilter_ext {A} (p q : A → bool) (l : list A) :
  (∀ x, x ∈ l → p x = q x) → List.filter p l = List.filter q l.
Proof. intros H. apply filter_ext_in. intros x Hx. by apply H, list_elem_of_In. Qed.

Lemma bfilter_map {A B} (f : A → B) (p : B → bool) (l : list A) :
  List.filter p (map f l) = map f (List.filter (λ x, p (f x)) l).
Proof. induction l as [|x l IH]; simpl; [done|]. destruct (p (f x)); simpl; by rewrite IH. Qed.

Lemma bfilter_bfilter {A} (p q : A → bool) (l : list A) :
  List.filter p (List.filter q l) = List.filter (λ x, q x && p x) l.
Proof.
  induction l as [|x l IH]; simpl; [done|]. destruct (q x); simpl; [|done].
  destruct (p x); by rewrite IH.
Qed.

Lemma bfilter_all {A} (p : A → bool) (l : list A) : (∀ x, x ∈ l → p x = true) → List.filter p l = l.
Proof.
  induction l as [|x l IH]; simpl; intros H; [done|]. rewrite H by (left).
  rewrite IH; [done|]. intros y Hy. apply H. by right.
Qed.

Lemma bfilter_none {A} (p : A → bool) (l : list A) : (∀ x, x ∈ l → p x = false) → List.filter p l = [].
Proof.
  induction l as [|x l IH]; simpl; intros H; [done|]. rewrite H by (left).
  apply IH. intros y Hy. apply H. by right.
Qed.

(** ** Equality of 64-bit integers *)

(** Sums of amounts are equal as 64-bit integers before bounds make them
    equal: this is the equivalence to rewrite with. *)
Definition eq64 (a b : Z) : Prop := u64 a = u64 b.
Infix "≡₆₄" := eq64 (at level 70) : lnd_scope.

#[export] Instance eq64_equivalence : Equivalence eq64.
Proof. split; repeat intro; unfold eq64 in *; congruence. Qed.
#[export] Instance eq64_add : Proper (eq64 ==> eq64 ==> eq64) Z.add.
Proof.
  intros a a' Ha b b' Hb. unfold eq64, u64 in *. by rewrite Z.add_mod, Ha, Hb, <-Z.add_mod by lia.
Qed.
#[export] Instance eq64_sub : Proper (eq64 ==> eq64 ==> eq64) Z.sub.
Proof.
  intros a a' Ha b b' Hb. unfold eq64, u64 in *. by rewrite Zminus_mod, Ha, Hb, <-Zminus_mod.
Qed.
#[export] Instance eq64_mul : Proper (eq64 ==> eq64 ==> eq64) Z.mul.
Proof.
  intros a a' Ha b b' Hb. unfold eq64, u64 in *. by rewrite Z.mul_mod, Ha, Hb, <-Z.mul_mod by lia.
Qed.
#[export] Instance u64_proper : Proper (eq64 ==> eq) u64.
Proof. by intros a b. Qed.

Lemma u64_eq64 a : u64 a ≡₆₄ a.
Proof. unfold eq64, u64. by rewrite Z.mod_mod by lia. Qed.
Lemma i64_eq64 a : i64 a ≡₆₄ a.
Proof.
  unfold eq64, u64, i64. rewrite Zminus_mod, Z.mod_mod, <-Zminus_mod by lia. f_equal. lia.
Qed.
Lemma eq64_small a b : in_u64 a → in_u64 b → a ≡₆₄ b → a = b.
Proof. intros Ha Hb H. unfold eq64 in H. by rewrite !u64_small in H. Qed.
Lemma eq64_close a b : - 2 ^ 64 < a - b < 2 ^ 64 → a ≡₆₄ b → a = b.
Proof.
  intros Hab H. unfold eq64, u64 in H.
  assert ((a - b) mod 2 ^ 64 = 0) as Hm by (rewrite Zminus_mod, H, Z.sub_diag; done).
  apply Z.mod_divide in Hm as [k Hk]; [|lia]. nia.
Qed.

(** Two sums with the same terms. *)
Ltac eq64_lia := unfold eq64; f_equal; lia.
