(* ===== verification/Chainfee.v ===== *)
(** * Fee rates (lnwallet/chainfee/rates.go, lntypes/txsize.go)

    A fee rate is a [btcutil.Amount], a signed 64-bit number of satoshis per
    1000 weight units, per virtual byte or per 1000 virtual bytes; weights and
    sizes are unsigned 64-bit.  Products wrap around as the source's do. *)

From S2P Require Import Prelude.

(** [blockchain.WitnessScaleFactor] of btcd: weight units per virtual byte. *)
Definition witness_scale_factor : Z := 4.

Definition fee_per_kw_floor : Z := 253.
Definition absolute_fee_per_kw_floor : Z := 250.
Definition fee_per_kw_ceiling : Z := 2500000.

(** [SatPerVByte] *)
Definition vbyte_fee_per_kweight (s : Z) : Z :=
  Z.quot (i64 (s * 1000)) witness_scale_factor.
Definition vbyte_fee_per_kvbyte (s : Z) : Z := i64 (s * 1000).

(** [SatPerKVByte] *)
Definition fee_for_vsize (s vbytes : Z) : Z := Z.quot (i64 (s * i64 vbytes)) 1000.
Definition kvbyte_fee_per_kweight (s : Z) : Z := Z.quot s witness_scale_factor.

(** [SatPerKWeight] *)
Definition fee_for_weight (s wu : Z) : Z := Z.quot (i64 (s * i64 wu)) 1000.
Definition fee_for_weight_round_up (s wu : Z) : Z :=
  Z.quot (i64 (i64 (s * i64 wu) + 999)) 1000.
Definition kweight_fee_per_kvbyte (s : Z) : Z := i64 (s * witness_scale_factor).
Definition kweight_fee_per_vbyte (s : Z) : Z :=
  Z.quot (i64 (s * witness_scale_factor)) 1000.
Definition fee_for_vbyte (s vb : Z) : Z := fee_for_vsize (kweight_fee_per_kvbyte s) vb.

(** ** Facts *)

(** The amounts for which a product cannot wrap: a fee rate up to the ceiling
    of 2,500,000 sat/kw and any weight below [2^41]. *)
Definition fee_args_ok (s wu : Z) : Prop := 0 ≤ s ∧ 0 ≤ wu ∧ s * wu + 999 < 2 ^ 63 ∧ wu < 2 ^ 63.

Lemma fee_for_weight_eq s wu : fee_args_ok s wu → fee_for_weight s wu = s * wu / 1000.
Proof.
  intros (Hs & Hw & Hp & Hw2). unfold fee_for_weight. rewrite (i64_small wu) by in_range.
  assert (0 ≤ s * wu) by nia. rewrite i64_small by in_range.
  by rewrite Z.quot_div_nonneg by lia.
Qed.

Lemma fee_for_weight_round_up_eq s wu :
  fee_args_ok s wu → fee_for_weight_round_up s wu = (s * wu + 999) / 1000.
Proof.
  intros (Hs & Hw & Hp & Hw2). unfold fee_for_weight_round_up. rewrite (i64_small wu) by in_range.
  assert (0 ≤ s * wu) by nia. rewrite (i64_small (s * wu)) by in_range.
  rewrite i64_small by in_range. by rewrite Z.quot_div_nonneg by lia.
Qed.

Lemma fee_for_weight_nonneg s wu : fee_args_ok s wu → 0 ≤ fee_for_weight s wu.
Proof.
  intros H. rewrite fee_for_weight_eq by done. destruct H as (? & ? & _).
  apply Z.div_pos; nia.
Qed.

Lemma fee_for_weight_mono s wu wu' :
  fee_args_ok s wu' → 0 ≤ wu ≤ wu' → fee_for_weight s wu ≤ fee_for_weight s wu'.
Proof.
  intros H Hle. assert (fee_args_ok s wu) by (destruct H as (? & ? & ? & ?); repeat split; nia).
  rewrite !fee_for_weight_eq by done. apply Z.div_le_mono; [lia|].
  destruct H as (? & _). nia.
Qed.

(** Paying for two parts separately never costs more than paying for both at
    once, and at most one satoshi less. *)
Lemma fee_for_weight_split s a b :
  fee_args_ok s (a + b) → 0 ≤ a → 0 ≤ b →
  fee_for_weight s a + fee_for_weight s b ≤ fee_for_weight s (a + b)
    ≤ fee_for_weight s a + fee_for_weight s b + 1.
Proof.
  intros H Ha Hb. pose proof H as (Hs & _ & Hp & Hw).
  assert (fee_args_ok s a) by (repeat split; nia).
  assert (fee_args_ok s b) by (repeat split; nia).
  rewrite !fee_for_weight_eq by done.
  pose proof (Z.div_mod (s * a) 1000). pose proof (Z.div_mod (s * b) 1000).
  pose proof (Z.div_mod (s * (a + b)) 1000).
  pose proof (Z.mod_pos_bound (s * a) 1000). pose proof (Z.mod_pos_bound (s * b) 1000).
  pose proof (Z.mod_pos_bound (s * (a + b)) 1000). lia.
Qed.

(** C30: the two roundings of a fee agree up to one satoshi: the rounded-up
    fee is the smallest number of satoshis that pays the rate in full, the
    rounded-down one is at most one less. *)
Theorem fee_roundings (s wu : Z) :
  fee_args_ok s wu →
  fee_for_weight s wu ≤ fee_for_weight_round_up s wu ≤ fee_for_weight s wu + 1 ∧
  s * wu ≤ 1000 * fee_for_weight_round_up s wu ∧
  1000 * fee_for_weight s wu ≤ s * wu ∧
  (fee_for_weight_round_up s wu = fee_for_weight s wu ↔ (1000 | s * wu)).
Proof.
  intros H. rewrite fee_for_weight_eq, fee_for_weight_round_up_eq by done.
  pose proof (Z.div_mod (s * wu) 1000 ltac:(lia)) as E1.
  pose proof (Z.mod_pos_bound (s * wu) 1000 ltac:(lia)).
  pose proof (Z.div_mod (s * wu + 999) 1000 ltac:(lia)) as E2.
  pose proof (Z.mod_pos_bound (s * wu + 999) 1000 ltac:(lia)).
  split_and!; try lia. rewrite <-Z.mod_divide by lia. lia.
Qed.

Lemma fee_roundings_witness :
  fee_for_weight 253 561 = 141 ∧ fee_for_weight_round_up 253 561 = 142 ∧
  fee_for_weight 253 561 ≤ fee_for_weight_round_up 253 561 ≤ fee_for_weight 253 561 + 1.
Proof.
  split; [reflexivity|]. split; [reflexivity|].
  apply (fee_roundings 253 561). repeat split; lia.
Defined.
