(* ===== verification/Shachain.v ===== *)
(** * Revocation secrets (package shachain)

    The per-commitment secrets of a channel: the pseudo-random function that
    derives them from a root ([element.go], [utils.go], [producer.go]), the
    compact store of the peer's secrets ([store.go]), and the store and
    producer of channels with independent secrets ([independent_store.go],
    [independent_producer.go]).

    SHA-256, HMAC, the curve's scalar test and btcd's hash type are the fields
    of the class [HashPrims]; what the code relies on is [HashLaws]. *)

From S2P Require Import Prelude.
From coqutil Require Import Word.LittleEndianList.

Inductive shachain_error : Type :=
| ErrNotDerivable          (* prefixes are different *)
| ErrBadHashLength         (* chainhash.NewHash refused the bytes *)
| ErrUnableToDerive        (* no bucket derives the index *)
| ErrHashNotDerivable      (* hash isn't derivable from previous ones *)
| ErrEOF                   (* the reader ended *)
| ErrIndexPanic            (* run-time panic: index out of range *)
| ErrSecretNotRetained
| ErrNoSuchEntry
| ErrBadIndependentStore
| ErrNilSecret
| ErrNoValidSecret
| ErrProducerEncoding.

(** The functions of other modules the package calls. *)
Class HashPrims := {
  sha256 : bytes → bytes;                           (* crypto/sha256.Sum256 *)
  new_hash : bytes → result shachain_error bytes;   (* chainhash.NewHash *)
  hash_is_equal : bytes → bytes → bool;             (* chainhash.Hash.IsEqual *)
  hmac_sha256 : bytes → bytes → bytes;              (* key, message *)
  scalar_overflow : bytes → bool;                   (* ModNScalar.SetByteSlice *)
  scalar_is_zero : bytes → bool;                    (* ModNScalar.IsZero *)
}.

(** Their documented behaviour: a digest has 32 bytes, [NewHash] takes
    exactly 32 bytes, [IsEqual] is equality. *)
Class HashLaws (P : HashPrims) : Prop := {
  sha256_length b : length (sha256 b) = 32%nat;
  new_hash_ok b : length b = 32%nat → new_hash b = Ok b;
  new_hash_bad b : length b ≠ 32%nat → new_hash b = Err ErrBadHashLength;
  hash_is_equal_spec a b : hash_is_equal a b = bool_decide (a = b);
}.

(** ** Indexes and bits ([utils.go], [element.go]) *)

Definition max_height : Z := 48.
Definition root_index : Z := 0.
Definition start_index : Z := 2 ^ max_height - 1.

Definition new_index (v : Z) : Z := u64 (start_index - v).

Definition get_bit (index position : Z) : Z := u8 (Z.land (Z.shiftr index position) 1).

Definition get_prefix (index position : Z) : Z :=
  let zero := 0 in
  let mask := u64 (u64 (zero - 1) - u64 (u64 (Z.shiftl 1 position) - 1)) in
  Z.land index mask.

(** The loop of [countTrailingZeros]; [fuel] bounds its iterations, of which
    there are at most [max_height]. *)
Fixpoint ctz_loop (fuel : nat) (index zeros : Z) : Z :=
  match fuel with
  | O => zeros
  | S fuel' =>
      if zeros <? max_height then
        if negb (get_bit index zeros =? 0) then zeros
        else ctz_loop fuel' index (zeros + 1)
      else zeros
  end.

Definition count_trailing_zeros (index : Z) : Z :=
  ctz_loop (Z.to_nat max_height) index 0.

(** The loop [for position := zeros - 1; ; position--] down to 0. *)
Fixpoint positions_from (to : Z) (position : nat) : list nat :=
  (if get_bit to (Z.of_nat position) =? 1 then [position] else []) ++
  match position with
  | O => []
  | S p => positions_from to p
  end.

Definition derive_bit_transformations (from to : Z) : result shachain_error (list nat) :=
  if from =? to then Ok []
  else
    let zeros := count_trailing_zeros from in
    ensure (from =? get_prefix to zeros) else ErrNotDerivable;
    Ok (positions_from to (Z.to_nat (u8 (zeros - 1)))).

(** ** Elements ([element.go]) *)

Record element := Element { el_index : Z; el_hash : bytes }.

#[global] Instance element_eq_decision : EqDecision element.
Proof. solve_decision. Defined.

(** [buf[byteNumber] ^= (1 << bitNumber)] *)
Definition flip_bit (buf : bytes) (position : nat) : bytes :=
  let byte_number := (position / 8)%nat in
  let bit_number := (position mod 8)%nat in
  match buf !! byte_number with
  | Some b =>
      <[byte_number := byte.of_Z (Z.lxor (byte.unsigned b)
                                    (Z.shiftl 1 (Z.of_nat bit_number)))]> buf
  | None => buf
  end.

Section Derive.
Context `{P : HashPrims}.

Definition flip_and_hash (buf : bytes) (position : nat) : bytes :=
  sha256 (flip_bit buf position).

Definition derive (e : element) (to_index : Z) : result shachain_error element :=
  let* positions := derive_bit_transformations (el_index e) to_index in
  let buf := foldl flip_and_hash (el_hash e) positions in
  let* hash := new_hash buf in
  Ok (Element to_index hash).

Definition is_equal (e e2 : element) : bool :=
  (el_index e =? el_index e2) && hash_is_equal (el_hash e) (el_hash e2).
End Derive.

(** ** The producer ([producer.go]) *)

Record revocation_producer := RevocationProducer { rp_root : element }.

Definition new_revocation_producer (root : bytes) : revocation_producer :=
  RevocationProducer (Element root_index root).

Section Producer.
Context `{P : HashPrims}.

Definition new_revocation_producer_from_bytes (data : bytes) :
    result shachain_error revocation_producer :=
  let* root := new_hash data in
  Ok (RevocationProducer (Element root_index root)).

Definition at_index (p : revocation_producer) (v : Z) : result shachain_error bytes :=
  let ind := new_index v in
  let* element := derive (rp_root p) ind in
  Ok (el_hash element).
End Producer.

Definition encode_producer (p : revocation_producer) : bytes := el_hash (rp_root p).

(** ** The compact store ([store.go]) *)

Record revocation_store := RevocationStore {
  len_buckets : Z;
  buckets : list element;
  st_index : Z;
}.

(** The zero value of [element] and of the array of [maxHeight] buckets. *)
Definition zero_hash : bytes := replicate 32 Byte.x00.
Definition zero_buckets : list element := replicate 48 (Element 0 zero_hash).

Definition new_revocation_store : revocation_store :=
  RevocationStore 0 zero_buckets start_index.

(** The indices [0 .. n-1] of a [for i := uint8(0); i < n; i++] loop. *)
Definition loop_indices (n : Z) : list nat := seq 0 (Z.to_nat n).

Section Store.
Context `{P : HashPrims}.

Fixpoint look_up_loop (bs : list element) (ind : Z) (ids : list nat) :
    result shachain_error bytes :=
  match ids with
  | [] => Err ErrUnableToDerive
  | i :: ids' =>
      match bs !! i with
      | None => Err ErrIndexPanic
      | Some e =>
          match derive e ind with
          | Err _ => look_up_loop bs ind ids'
          | Ok element => Ok (el_hash element)
          end
      end
  end.

Definition look_up (store : revocation_store) (v : Z) : result shachain_error bytes :=
  let ind := new_index v in
  look_up_loop (buckets store) ind (loop_indices (len_buckets store)).

(** One turn of the checking loop of [AddNextEntry]. *)
Definition check_bucket (bs : list element) (new_element : element) (_ : unit) (i : nat) :
    result shachain_error unit :=
  match bs !! i with
  | None => Err ErrIndexPanic
  | Some b =>
      let* e := derive new_element (el_index b) in
      ensure (is_equal e b) else ErrHashNotDerivable; Ok tt
  end.

Definition add_next_entry (store : revocation_store) (hash : bytes) :
    result shachain_error revocation_store :=
  let new_element := Element (st_index store) hash in
  let bucket := count_trailing_zeros (el_index new_element) in
  let* _ := fold_result (check_bucket (buckets store) new_element)
              (loop_indices bucket) tt in
  match buckets store !! Z.to_nat bucket with
  | None => Err ErrIndexPanic
  | Some _ =>
      Ok {| len_buckets := if u8 (bucket + 1) >? len_buckets store then u8 (bucket + 1)
                           else len_buckets store;
            buckets := <[Z.to_nat bucket := new_element]> (buckets store);
            st_index := u64 (st_index store - 1) |}
  end.
End Store.

(** *** Serialization *)

Fixpoint encode_buckets (bs : list element) (ids : list nat) : result shachain_error bytes :=
  match ids with
  | [] => Ok []
  | i :: ids' =>
      match bs !! i with
      | None => Err ErrIndexPanic
      | Some e =>
          let* rest := encode_buckets bs ids' in
          Ok (be_encode 8 (el_index e) ++ el_hash e ++ rest)
      end
  end.

Definition encode_store (store : revocation_store) : result shachain_error bytes :=
  let* body := encode_buckets (buckets store) (loop_indices (len_buckets store)) in
  Ok (be_encode 1 (len_buckets store) ++ body ++ be_encode 8 (st_index store)).

(** [binary.Read] of a big-endian integer of [n] bytes. *)
Definition read_uint (n : nat) (r : bytes) : result shachain_error (Z * bytes) :=
  match read_n n r with
  | Some (x, r') => Ok (be_decode x, r')
  | None => Err ErrEOF
  end.

Definition read_full (n : nat) (r : bytes) : result shachain_error (bytes * bytes) :=
  match read_n n r with
  | Some (x, r') => Ok (x, r')
  | None => Err ErrEOF
  end.

Definition decode_bucket (s : list element * bytes) (i : nat) :
    result shachain_error (list element * bytes) :=
  let '(bs, r) := s in
  let* (hash_index, r) := read_uint 8 r in
  let* (next_hash, r) := read_full 32 r in
  match bs !! i with
  | None => Err ErrIndexPanic
  | Some _ => Ok (<[i := Element hash_index next_hash]> bs, r)
  end.

(** The decoder returns the store and what is left of the reader. *)
Definition new_revocation_store_from_bytes (r : bytes) :
    result shachain_error (revocation_store * bytes) :=
  let* (len, r) := read_uint 1 r in
  let* (bs, r) := fold_result decode_bucket (loop_indices len) (zero_buckets, r) in
  let* (index, r) := read_uint 8 r in
  Ok (RevocationStore len bs index, r).

(** ** The store of independent secrets ([independent_store.go]) *)

Definition independent_store_marker : byte := Byte.xff.
Definition independent_store_version : byte := Byte.x01.

Record independent_store := IndependentStore {
  num_entries : Z;
  latest : bytes;
  previous : bytes;
}.

Definition new_independent_store : independent_store :=
  IndependentStore 0 zero_hash zero_hash.

Definition ind_look_up (s : independent_store) (v : Z) : result shachain_error bytes :=
  if (num_entries s =? 0) || (v >=? num_entries s) then Err ErrNoSuchEntry
  else if v =? u64 (num_entries s - 1) then Ok (latest s)
  else if v =? u64 (num_entries s - 2) then Ok (previous s)
  else Err ErrSecretNotRetained.

(** The argument is a pointer: [None] is nil. *)
Definition ind_add_next_entry (s : independent_store) (hash : option bytes) :
    result shachain_error independent_store :=
  match hash with
  | None => Err ErrNilSecret
  | Some h => Ok (IndependentStore (u64 (num_entries s + 1)) h (latest s))
  end.

Definition ind_encode (s : independent_store) : bytes :=
  [independent_store_marker; independent_store_version] ++ be_encode 8 (num_entries s) ++
  if num_entries s =? 0 then []
  else latest s ++ (if num_entries s =? 1 then [] else previous s).

Definition decode_independent_store (r : bytes) :
    result shachain_error (independent_store * bytes) :=
  let* (version, r) := read_full 1 r in
  ensure (bool_decide (version = [independent_store_version])) else ErrBadIndependentStore;
  let* (n, r) := read_uint 8 r in
  if n =? 0 then Ok (IndependentStore n zero_hash zero_hash, r)
  else
    let* (l, r) := read_full 32 r in
    if n =? 1 then Ok (IndependentStore n l zero_hash, r)
    else
      let* (p, r) := read_full 32 r in
      Ok (IndependentStore n l p, r).

(** The interface [Store] and its two implementations. *)
Inductive store : Type :=
| StRevocation (s : revocation_store)
| StIndependent (s : independent_store).

Definition encode (s : store) : result shachain_error bytes :=
  match s with
  | StRevocation s => encode_store s
  | StIndependent s => Ok (ind_encode s)
  end.

Definition new_store_from_bytes (r : bytes) : result shachain_error (store * bytes) :=
  let* (first, r) := read_full 1 r in
  if bool_decide (first = [independent_store_marker]) then
    let* (s, r) := decode_independent_store r in Ok (StIndependent s, r)
  else
    let* (s, r) := new_revocation_store_from_bytes (first ++ r) in
    Ok (StRevocation s, r).

(** ** The producer of independent secrets ([independent_producer.go]) *)

Definition bytes_of_string (s : string) : bytes := map Ascii.byte_of_ascii (String.list_ascii_of_string s).

Definition independent_secret_tag : bytes :=
  bytes_of_string "independent-per-commitment-secret".

Record independent_producer := IndependentProducer { ip_root : bytes }.

(** The interface [Producer]. *)
Inductive producer : Type :=
| PrRevocation (p : revocation_producer)
| PrIndependent (p : independent_producer).

Definition ind_encode_producer (p : independent_producer) : bytes := ip_root p.

Definition producer_encode (p : producer) : bytes :=
  match p with
  | PrRevocation p => encode_producer p
  | PrIndependent p => ind_encode_producer p
  end.

Definition new_independent_producer_from (p : producer) :
    result shachain_error independent_producer :=
  let b := producer_encode p in
  ensure (bool_decide (length b = 32%nat)) else ErrProducerEncoding;
  Ok (IndependentProducer b).

Section IndependentProducer.
Context `{P : HashPrims}.

(** [tag || index || counter]. *)
Definition secret_msg (v : Z) (counter : nat) : bytes :=
  independent_secret_tag ++ be_encode 8 v ++ [byte.of_Z (Z.of_nat counter)].

Definition secret_candidate (p : independent_producer) (v : Z) (counter : nat) : bytes :=
  hmac_sha256 (ip_root p) (secret_msg v counter).

Fixpoint secret_loop (p : independent_producer) (v : Z) (counters : list nat) :
    result shachain_error bytes :=
  match counters with
  | [] => Err ErrNoValidSecret
  | c :: cs =>
      let secret := secret_candidate p v c in
      if negb (scalar_overflow secret) && negb (scalar_is_zero secret) then Ok secret
      else secret_loop p v cs
  end.

Definition ind_at_index (p : independent_producer) (v : Z) : result shachain_error bytes :=
  secret_loop p v (seq 0 256).
End IndependentProducer.

(** * Arithmetic of the indexes *)

(** [floor_to b x] clears the [b] low bits of [x]: the prefix of [x]. *)
Definition floor_to (b x : Z) : Z := Z.shiftl (Z.shiftr x b) b.

Lemma floor_to_mod b x : 0 ≤ b → floor_to b x = x - x mod 2 ^ b.
Proof.
  intros Hb. unfold floor_to. rewrite Z.shiftl_mul_pow2, Z.shiftr_div_pow2 by done.
  pose proof (Z.div_mod x (2 ^ b)). lia.
Qed.

Lemma floor_to_testbit b x i :
  0 ≤ b → 0 ≤ i → Z.testbit (floor_to b x) i = if i <? b then false else Z.testbit x i.
Proof.
  intros Hb Hi. unfold floor_to. destruct (Z.ltb_spec i b).
  - by rewrite Z.shiftl_spec_low.
  - rewrite Z.shiftl_spec, Z.shiftr_spec by lia. f_equal. lia.
Qed.

Lemma floor_to_nested a b x : 0 ≤ a ≤ b → floor_to b (floor_to a x) = floor_to b x.
Proof.
  intros H. apply Z.bits_inj'. intros i Hi. rewrite !floor_to_testbit by lia.
  destruct (Z.ltb_spec i b), (Z.ltb_spec i a); done || lia.
Qed.

Lemma floor_to_nested_ge a b x : 0 ≤ a ≤ b → floor_to a (floor_to b x) = floor_to b x.
Proof.
  intros H. apply Z.bits_inj'. intros i Hi. rewrite !floor_to_testbit by lia.
  destruct (Z.ltb_spec i b), (Z.ltb_spec i a); done || lia.
Qed.

Lemma floor_to_bounds b x : 0 ≤ b → floor_to b x ≤ x < floor_to b x + 2 ^ b.
Proof.
  intros Hb. rewrite floor_to_mod by done.
  pose proof (Z.mod_pos_bound x (2 ^ b)). lia.
Qed.

Lemma floor_to_mono b x y : 0 ≤ b → x ≤ y → floor_to b x ≤ floor_to b y.
Proof.
  intros Hb Hxy. unfold floor_to. rewrite !Z.shiftl_mul_pow2, !Z.shiftr_div_pow2 by done.
  apply Z.mul_le_mono_nonneg_r; [lia|]. apply Z.div_le_mono; lia.
Qed.

Lemma floor_to_pow b n : 0 ≤ b ≤ n → floor_to b (2 ^ n) = 2 ^ n.
Proof.
  intros H. rewrite floor_to_mod by lia.
  replace (2 ^ n) with (2 ^ (n - b) * 2 ^ b) by (rewrite <-Z.pow_add_r by lia; f_equal; lia).
  rewrite Z_mod_mult. lia.
Qed.

Lemma floor_to_nonneg b x : 0 ≤ b → 0 ≤ x → 0 ≤ floor_to b x.
Proof.
  intros Hb Hx. rewrite floor_to_mod by done.
  pose proof (Z.mod_le x (2 ^ b)). lia.
Qed.

Lemma get_bit_testbit x p : 0 ≤ p → get_bit x p = Z.b2z (Z.testbit x p).
Proof.
  intros Hp. unfold get_bit. change 1 with (Z.ones 1) at 1.
  rewrite Z.land_ones, Z.shiftr_div_pow2, Z.testbit_spec' by lia.
  change (2 ^ 1) with 2. apply u8_small. unfold in_u8.
  pose proof (Z.mod_pos_bound (x / 2 ^ p) 2). lia.
Qed.

Lemma get_bit_eqb x p : 0 ≤ p → (get_bit x p =? 1) = Z.testbit x p.
Proof. intros. rewrite get_bit_testbit by done. by destruct (Z.testbit x p). Qed.

Lemma get_bit_nonzero x p : 0 ≤ p → negb (get_bit x p =? 0) = Z.testbit x p.
Proof. intros. rewrite get_bit_testbit by done. by destruct (Z.testbit x p). Qed.

Lemma get_prefix_floor x p : in_u64 x → 0 ≤ p ≤ 63 → get_prefix x p = floor_to p x.
Proof.
  intros Hx Hp. unfold get_prefix. rewrite Z.shiftl_1_l.
  assert (1 ≤ 2 ^ p ≤ 2 ^ 63) by (split; [| apply Z.pow_le_mono_r]; lia).
  change (u64 (0 - 1)) with (2 ^ 64 - 1). widths.
  replace (2 ^ 64 - 1 - (2 ^ p - 1)) with (Z.shiftl (Z.ones (64 - p)) p).
  2: { rewrite Z.shiftl_mul_pow2, Z.ones_equiv, Z.mul_pred_l, <-Z.pow_add_r by lia.
       replace (64 - p + p) with 64 by lia. lia. }
  apply Z.bits_inj'. intros i Hi. rewrite Z.land_spec, floor_to_testbit by lia.
  destruct (Z.ltb_spec i p).
  - rewrite Z.shiftl_spec_low by lia. apply andb_false_r.
  - rewrite Z.shiftl_spec by lia. destruct (Z.ltb_spec (i - p) (64 - p)).
    + rewrite Z.ones_spec_low by lia. apply andb_true_r.
    + rewrite Z.ones_spec_high, andb_false_r by lia. symmetry.
      rewrite <-(Z.mod_small x (2 ^ 64)) by done. apply Z.mod_pow2_bits_high. lia.
Qed.

(** ** The trailing zeros of an index *)

Lemma ctz_loop_spec fuel x z :
  0 ≤ z → Z.of_nat fuel + z = max_height → floor_to z x = x →
  let r := ctz_loop fuel x z in
  z ≤ r ≤ max_height ∧ floor_to r x = x ∧ (r < max_height → Z.testbit x r = true).
Proof.
  revert z. induction fuel as [|fuel IH]; intros z Hz Hf Hx; simpl.
  { split_and!; auto with lia. }
  rewrite (proj2 (Z.ltb_lt z max_height)), get_bit_nonzero by lia.
  destruct (Z.testbit x z) eqn:E; [split_and!; auto with lia |].
  destruct (IH (z + 1)) as (? & ? & ?); [lia.. | | split_and!; auto with lia].
  rewrite <-Hx at 2. apply Z.bits_inj'. intros i Hi. rewrite !floor_to_testbit by lia.
  destruct (Z.ltb_spec i (z + 1)), (Z.ltb_spec i z); try done; try lia.
  by replace i with z by lia.
Qed.

Lemma floor_to_0 x : floor_to 0 x = x.
Proof. unfold floor_to. by rewrite Z.shiftr_0_r, Z.shiftl_0_r. Qed.

Lemma ctz_spec x :
  0 ≤ count_trailing_zeros x ≤ max_height ∧
  floor_to (count_trailing_zeros x) x = x ∧
  (count_trailing_zeros x < max_height → Z.testbit x (count_trailing_zeros x) = true).
Proof. apply ctz_loop_spec; [done | done | apply floor_to_0]. Qed.

(** The trailing zeros are the only level an index sits at. *)
Lemma ctz_unique x b :
  0 ≤ b < max_height → floor_to b x = x → Z.testbit x b = true →
  count_trailing_zeros x = b.
Proof.
  intros Hb Hf Ht. destruct (ctz_spec x) as (Hr & Hfr & Htr).
  set (r := count_trailing_zeros x) in *. clearbody r.
  destruct (Z.lt_trichotomy r b) as [Hlt | [? | Hlt]]; [exfalso | done | exfalso].
  - specialize (Htr ltac:(lia)). rewrite <-Hf, floor_to_testbit in Htr by lia.
    by rewrite (proj2 (Z.ltb_lt r b)) in Htr by lia.
  - rewrite <-Hfr, floor_to_testbit, (proj2 (Z.ltb_lt b r)) in Ht by lia. done.
Qed.

Lemma ctz_0 : count_trailing_zeros 0 = max_height.
Proof. reflexivity. Qed.

(** An index below [2^48] with 48 trailing zeros is 0. *)
Lemma ctz_max x : 0 ≤ x < 2 ^ max_height → count_trailing_zeros x = max_height → x = 0.
Proof.
  intros Hx Hc. destruct (ctz_spec x) as (_ & Hf & _). rewrite Hc in Hf.
  rewrite floor_to_mod, Z.mod_small in Hf by (unfold max_height in *; lia). lia.
Qed.

(** ** The positions to flip *)

(** The set bits of [to] below [n], highest first. *)
Fixpoint bits_below (to : Z) (n : nat) : list nat :=
  match n with
  | O => []
  | S p => (if Z.testbit to (Z.of_nat p) then [p] else []) ++ bits_below to p
  end.

Lemma positions_from_bits to p : positions_from to p = bits_below to (S p).
Proof.
  induction p as [|p IH].
  - simpl. by rewrite get_bit_eqb.
  - change (positions_from to (S p)) with
      ((if get_bit to (Z.of_nat (S p)) =? 1 then [S p] else []) ++ positions_from to p).
    rewrite IH, get_bit_eqb by lia. done.
Qed.

Lemma bits_below_floor_nil to n : bits_below (floor_to (Z.of_nat n) to) n = [].
Proof.
  assert (∀ m, (m ≤ n)%nat → bits_below (floor_to (Z.of_nat n) to) m = []) as H.
  { induction m as [|m IH]; intros Hm; [done|]. simpl.
    rewrite floor_to_testbit, (proj2 (Z.ltb_lt _ _)), IH by lia. done. }
  by apply H.
Qed.

(** Flipping towards [to] passes through every prefix of [to]. *)
Lemma bits_below_split to m n :
  (m ≤ n)%nat →
  bits_below to n = bits_below (floor_to (Z.of_nat m) to) n ++ bits_below to m.
Proof.
  induction 1 as [|n Hmn IH].
  - by rewrite bits_below_floor_nil.
  - simpl. rewrite floor_to_testbit, (proj2 (Z.ltb_ge _ _)), IH by lia.
    by rewrite (assoc_L (++)).
Qed.

(** ** Derivation *)

Section DeriveFacts.
Context `{L : HashLaws}.

Definition flip_all (buf : bytes) (ps : list nat) : bytes := foldl flip_and_hash buf ps.

Lemma flip_all_length buf ps : length buf = 32%nat → length (flip_all buf ps) = 32%nat.
Proof.
  revert buf. induction ps as [|q ps IH]; intros buf H; [done|]. apply IH, sha256_length.
Qed.

Lemma derive_bits_spec from to :
  0 ≤ from < 2 ^ max_height → in_u64 to →
  derive_bit_transformations from to =
    if from =? floor_to (count_trailing_zeros from) to
    then Ok (bits_below to (Z.to_nat (count_trailing_zeros from)))
    else Err ErrNotDerivable.
Proof.
  intros Hf Ht. unfold derive_bit_transformations.
  destruct (ctz_spec from) as (Hz & Hfl & _).
  set (z := count_trailing_zeros from) in *. clearbody z. unfold max_height in *.
  destruct (Z.eqb_spec from to) as [<- | Hne].
  - rewrite Hfl, Z.eqb_refl. f_equal. rewrite <-Hfl, <-(Z2Nat.id z) by lia.
    by rewrite Nat2Z.id, bits_below_floor_nil.
  - rewrite get_prefix_floor by (done || lia).
    destruct (Z.eqb_spec from (floor_to z to)) as [E|]; [|done].
    assert (z ≠ 0) by (intros ->; rewrite floor_to_0 in E; lia).
    rewrite u8_small by (unfold in_u8; lia). rewrite positions_from_bits.
    do 2 f_equal. lia.
Qed.

(** What [derive] computes: an index derives exactly those it is a prefix
    of, and the hash goes through the set bits below its trailing zeros. *)
Lemma derive_spec e to :
  0 ≤ el_index e < 2 ^ max_height → in_u64 to → length (el_hash e) = 32%nat →
  derive e to =
    if el_index e =? floor_to (count_trailing_zeros (el_index e)) to
    then Ok (Element to (flip_all (el_hash e)
               (bits_below to (Z.to_nat (count_trailing_zeros (el_index e))))))
    else Err ErrNotDerivable.
Proof.
  intros Hi Ht Hl. unfold derive. rewrite derive_bits_spec by done.
  destruct (_ =? _); [|done]. simpl.
  by rewrite new_hash_ok by (by apply (flip_all_length _ _)).
Qed.

(** An index is derivable from [e]. *)
Definition derivable (e : element) (to : Z) : Prop :=
  el_index e = floor_to (count_trailing_zeros (el_index e)) to.

Lemma derive_self e :
  0 ≤ el_index e < 2 ^ max_height → length (el_hash e) = 32%nat →
  derive e (el_index e) = Ok e.
Proof.
  intros Hi Hl. unfold max_height in *.
  rewrite derive_spec by (done || unfold in_u64; lia).
  destruct (ctz_spec (el_index e)) as (Hz & Hf & _).
  rewrite Hf, Z.eqb_refl. f_equal. destruct e as [i h]; simpl in *. f_equal.
  set (z := count_trailing_zeros i) in *. clearbody z.
  rewrite <-Hf, <-(Z2Nat.id z), Nat2Z.id, bits_below_floor_nil by lia. done.
Qed.

(** Deriving in two steps is deriving in one: the tree's consistency. *)
Lemma derive_trans a b to :
  0 ≤ el_index a < 2 ^ max_height → 0 ≤ el_index b < 2 ^ max_height →
  in_u64 to → length (el_hash a) = 32%nat →
  count_trailing_zeros (el_index b) ≤ count_trailing_zeros (el_index a) →
  derive a (el_index b) = Ok b → derivable b to → derive a to = derive b to.
Proof.
  intros Ha Hb Ht Hla Hz Hab Hd. unfold derivable in Hd.
  destruct (ctz_spec (el_index a)) as (Hza & _ & _).
  destruct (ctz_spec (el_index b)) as (Hzb & _ & _).
  rewrite derive_spec in Hab by (done || unfold in_u64, max_height in *; lia).
  set (za := count_trailing_zeros (el_index a)) in *.
  set (zb := count_trailing_zeros (el_index b)) in *.
  destruct (Z.eqb_spec (el_index a) (floor_to za (el_index b))) as [Hp | ]; [| done].
  injection Hab as Hab.
  assert (length (el_hash b) = 32%nat) as Hlb by (rewrite <-Hab; by apply flip_all_length).
  rewrite !derive_spec by done. fold za zb. rewrite <-Hd, Z.eqb_refl.
  rewrite Hd, floor_to_nested in Hp by lia. rewrite <-Hp, Z.eqb_refl.
  f_equal. f_equal. rewrite <-Hab. simpl. unfold flip_all. rewrite <-foldl_app. f_equal.
  rewrite (bits_below_split to (Z.to_nat zb) (Z.to_nat za)) by lia.
  rewrite (Z2Nat.id zb) by lia. by rewrite <-Hd.
Qed.
End DeriveFacts.

(** ** Levels of the tree

    An index with [b] trailing zeros is an odd multiple of [2^b]. *)

Definition at_level (b x : Z) : Prop := floor_to b x = x ∧ Z.testbit x b = true.

Lemma at_level_odd b x : 0 ≤ b → at_level b x ↔ ∃ k, x = 2 ^ b * (2 * k + 1).
Proof.
  intros Hb. assert (0 < 2 ^ b) by lia. split.
  - intros [Hf Ht]. rewrite <-Hf. unfold floor_to.
    rewrite Z.testbit_true in Ht by done.
    rewrite Z.shiftl_mul_pow2, Z.shiftr_div_pow2 by done.
    exists (x / 2 ^ b / 2). pose proof (Z.div_mod (x / 2 ^ b) 2). nia.
  - intros [k ->]. split.
    + rewrite floor_to_mod by done. rewrite Z.mul_comm, Z_mod_mult. lia.
    + rewrite Z.testbit_true, Z.mul_comm, Z.div_mul by lia.
      rewrite Z.add_comm, Z.mul_comm, Z_mod_plus_full. done.
Qed.

Lemma ctz_at_level x : count_trailing_zeros x < max_height → at_level (count_trailing_zeros x) x.
Proof. intros H. destruct (ctz_spec x) as (? & ? & ?). split; auto. Qed.

Lemma at_level_ctz b x : 0 ≤ b < max_height → at_level b x → count_trailing_zeros x = b.
Proof. intros ? []. by apply ctz_unique. Qed.

(** Two indexes of a level less than a period apart are equal. *)
Lemma at_level_close b x y :
  0 ≤ b → at_level b x → at_level b y → Z.abs (x - y) < 2 ^ (b + 1) → x = y.
Proof.
  intros Hb (k & ->)%at_level_odd (l & ->)%at_level_odd Hd; [|done..].
  rewrite Z.pow_add_r in Hd by lia. assert (0 < 2 ^ b) by lia.
  assert (k = l) as -> by nia. done.
Qed.

Lemma floor_to_eq b m x : 0 ≤ b → floor_to b m = m → m ≤ x < m + 2 ^ b → floor_to b x = m.
Proof.
  intros Hb Hm Hx. rewrite floor_to_mod in Hm |- * by done.
  assert (0 < 2 ^ b) by lia. pose proof (Z.div_mod m (2 ^ b)). pose proof (Z.div_mod x (2 ^ b)).
  pose proof (Z.mod_pos_bound x (2 ^ b)).
  assert (x / 2 ^ b = m / 2 ^ b) by nia. nia.
Qed.

Lemma floor_to_add b x : 0 ≤ b → floor_to b x = x → floor_to b (x + 2 ^ b) = x + 2 ^ b.
Proof.
  intros Hb Hf. rewrite floor_to_mod in Hf |- * by done.
  rewrite <-(Z.mul_1_l (2 ^ b)) at 2. rewrite Z_mod_plus_full. lia.
Qed.

Lemma at_level_not_multiple b b0 x : 0 ≤ b < b0 → at_level b x → floor_to b0 x ≠ x.
Proof.
  intros Hb [_ Ht] E. rewrite <-E, floor_to_testbit, (proj2 (Z.ltb_lt b b0)) in Ht by lia. done.
Qed.

(** A multiple of [2^b] below [2^48] leaves room for [2^b] more. *)
Lemma floor_to_room b x :
  0 ≤ b ≤ max_height → floor_to b x = x → x < 2 ^ max_height → x ≤ 2 ^ max_height - 2 ^ b.
Proof.
  intros Hb Hf Hx. rewrite floor_to_mod in Hf by lia. assert (0 < 2 ^ b) by lia.
  pose proof (Z.div_mod x (2 ^ b)).
  replace (2 ^ max_height) with (2 ^ b * 2 ^ (max_height - b)) in *
    by (rewrite <-Z.pow_add_r by lia; f_equal; lia).
  assert (x = 2 ^ b * (x / 2 ^ b)) as Hq by lia. rewrite Hq in Hx |- *.
  assert (x / 2 ^ b < 2 ^ (max_height - b)) by nia. nia.
Qed.

Lemma top_of_level b : 0 ≤ b < max_height → at_level b (2 ^ max_height - 2 ^ b).
Proof.
  intros Hb. apply at_level_odd; [lia|]. exists (2 ^ (max_height - b - 1) - 1).
  replace (2 ^ max_height) with (2 ^ b * (2 * 2 ^ (max_height - b - 1))); [lia|].
  rewrite <-Z.pow_succ_r, <-Z.pow_add_r by lia. f_equal. lia.
Qed.

(** Going up from [i], some prefix is the last above [m]. *)
Lemma last_prefix_above m i n :
  m < i → floor_to (Z.of_nat n) i ≤ m →
  ∃ b, 0 ≤ b < Z.of_nat n ∧ m < floor_to b i ∧ floor_to (b + 1) i ≤ m.
Proof.
  intros Hi. induction n as [|n IH]; intros Hn.
  - rewrite floor_to_0 in Hn. lia.
  - destruct (Z.le_gt_cases (floor_to (Z.of_nat n) i) m) as [Hle|Hgt].
    + destruct (IH Hle) as (b & ? & ? & ?). exists b. auto with lia.
    + exists (Z.of_nat n). rewrite Nat2Z.inj_succ in Hn. auto with lia.
Qed.

(** That prefix sits at its own level, just above [m]. *)
Lemma prefix_above_level m b i :
  0 ≤ b → m < floor_to b i → floor_to (b + 1) i ≤ m →
  at_level b (floor_to b i) ∧ floor_to b i ≤ m + 2 ^ b.
Proof.
  intros Hb Hlo Hhi.
  assert (Z.testbit i b = true) as Ht.
  { destruct (Z.testbit i b) eqn:E; [done|]. exfalso.
    assert (floor_to (b + 1) i = floor_to b i); [|lia].
    apply Z.bits_inj'. intros j Hj. rewrite !floor_to_testbit by lia.
    destruct (Z.ltb_spec j (b + 1)), (Z.ltb_spec j b); try done; try lia.
    by replace j with b by lia. }
  assert (at_level b (floor_to b i)) as Hl.
  { split; [by apply floor_to_nested_ge|].
    rewrite floor_to_testbit by lia. by rewrite Z.ltb_irrefl. }
  split; [done|]. destruct (proj1 (at_level_odd b _ Hb) Hl) as [k Hk].
  pose proof (floor_to_bounds (b + 1) i ltac:(lia)) as Hb1.
  pose proof (floor_to_nested b (b + 1) i ltac:(lia)) as Hn.
  rewrite <-Hn, Hk in Hhi.
  rewrite (floor_to_eq (b + 1) (2 ^ b * (2 * k))) in Hhi; rewrite ?Z.pow_add_r; try nia.
  rewrite floor_to_mod, Z.pow_add_r by lia.
  replace (2 ^ b * (2 * k)) with (k * (2 ^ b * 2 ^ 1)) by lia. rewrite Z_mod_mult. lia.
Qed.

(** * The compact store *)

Section StoreFacts.
Context `{L : HashLaws}.

Definition add_all (hashes : list bytes) (st : revocation_store) :
    result shachain_error revocation_store :=
  fold_result add_next_entry hashes st.

(** The secret that was added for the tree index [i]. *)
Definition secret_at (hashes : list bytes) (i : Z) : option bytes :=
  hashes !! Z.to_nat (start_index - i).

Definition bucket_at (st : revocation_store) (b : Z) : option element :=
  buckets st !! Z.to_nat b.

(** A bucket's element: the last index added at that level. *)
Record bucket_ok (st : revocation_store) (b : Z) (e : element) : Prop := {
  bk_level : at_level b (el_index e);
  bk_above : st_index st < el_index e ≤ st_index st + 2 ^ (b + 1);
  bk_below : el_index e < 2 ^ max_height;
  bk_hash : length (el_hash e) = 32%nat;
}.

(** After adding [hashes]: what the store holds and what it derives. *)
Record store_inv (hashes : list bytes) (st : revocation_store) : Prop := {
  inv_index : st_index st = start_index - Z.of_nat (length hashes);
  inv_nonneg : 0 ≤ st_index st;
  inv_len_range : 0 ≤ len_buckets st ≤ max_height;
  inv_array : length (buckets st) = 48%nat;
  inv_len b : 0 ≤ b < max_height →
    b < len_buckets st ↔ st_index st < 2 ^ max_height - 2 ^ b;
  inv_bucket b : 0 ≤ b < len_buckets st →
    ∃ e, bucket_at st b = Some e ∧ bucket_ok st b e;
  inv_secret b e i : 0 ≤ b < len_buckets st → bucket_at st b = Some e →
    st_index st < i < 2 ^ max_height → derivable e i →
    ∃ h, derive e i = Ok (Element i h) ∧ secret_at hashes i = Some h;
}.

Lemma new_store_inv : store_inv [] new_revocation_store.
Proof.
  split; simpl; try lia; try done.
  - intros b Hb. unfold start_index.
    pose proof (floor_to_room 0 (2 ^ max_height - 1)).
    assert (1 ≤ 2 ^ b) by (apply (Z.pow_le_mono_r 2 0); lia). lia.
Qed.

Lemma derivable_level b e i :
  0 ≤ b < max_height → at_level b (el_index e) → derivable e i ↔ floor_to b i = el_index e.
Proof. intros Hb Hl. unfold derivable. rewrite (at_level_ctz b) by done. naive_solver. Qed.

(** Every index above the next one is derivable from some bucket; within
    [2^n] of an index at level [n], from a bucket below [n]. *)
Lemma bucket_covers hashes st i n :
  store_inv hashes st → (n ≤ 48)%nat → st_index st < i < 2 ^ max_height →
  floor_to (Z.of_nat n) i ≤ st_index st →
  ∃ b e, 0 ≤ b < Z.of_nat n ∧ b < len_buckets st ∧ bucket_at st b = Some e ∧
         bucket_ok st b e ∧ floor_to b i = el_index e.
Proof.
  intros I Hn Hi Hf.
  destruct (last_prefix_above (st_index st) i n) as (b & Hb & Hlo & Hhi); [lia | done |].
  destruct (prefix_above_level (st_index st) b i) as [Hl Hle]; [lia | done | done |].
  pose proof (floor_to_bounds b i ltac:(lia)).
  assert (0 ≤ b < max_height) as Hb' by (unfold max_height; lia).
  assert (b < len_buckets st) as Hlen.
  { apply (inv_len _ _ I); [done|].
    pose proof (floor_to_room b (floor_to b i) ltac:(lia) (proj1 Hl) ltac:(lia)). lia. }
  destruct (inv_bucket _ _ I b) as (e & He & Hok); [lia|].
  exists b, e. split_and!; try lia; [done..|].
  apply (at_level_close b); [lia | done | apply Hok |].
  pose proof (bk_above _ _ _ Hok). rewrite Z.pow_add_r in * by lia.
  assert (0 < 2 ^ b) by lia. lia.
Qed.

(** ** Adding an entry *)

Lemma check_all_Ok bs new ids :
  fold_result (check_bucket bs new) ids tt = Ok tt ↔
  ∀ i, i ∈ ids → ∃ e, bs !! i = Some e ∧ derive new (el_index e) = Ok e.
Proof.
  induction ids as [|i ids IH]; simpl.
  - split; [intros _ i Hi; by apply elem_of_nil in Hi | done].
  - rewrite rbind_Ok. setoid_rewrite elem_of_cons. split.
    + intros ([] & Hc & Hr) j [-> | Hj]; [|by apply IH].
      unfold check_bucket in Hc. destruct (bs !! i) as [e|]; [|done].
      apply rbind_Ok in Hc as (e' & Hd & Heq). exists e. split; [done|].
      unfold is_equal in Heq. rewrite hash_is_equal_spec in Heq.
      destruct (Z.eqb_spec (el_index e') (el_index e)); [|done].
      case_bool_decide; [|done]. rewrite Hd. f_equal. destruct e, e'; simpl in *; congruence.
    + intros H. exists tt. split; [|apply IH; auto].
      destruct (H i (or_introl eq_refl)) as (e & Hi & Hd).
      unfold check_bucket. rewrite Hi, Hd. simpl. unfold is_equal.
      by rewrite Z.eqb_refl, hash_is_equal_spec, bool_decide_true.
Qed.

Lemma elem_of_loop_indices i n : i ∈ loop_indices n ↔ Z.of_nat i < n.
Proof. unfold loop_indices. rewrite elem_of_seq. lia. Qed.

(** The three outcomes of [add_next_entry] on a store in its invariant. *)
Lemma add_next_entry_Ok hashes st h st' :
  store_inv hashes st →
  add_next_entry st h = Ok st' ↔
  let m := st_index st in
  let b0 := count_trailing_zeros m in
  b0 < max_height ∧
  (∀ b, 0 ≤ b < b0 → ∃ e, bucket_at st b = Some e ∧
     derive (Element m h) (el_index e) = Ok e) ∧
  st' = RevocationStore (Z.max (len_buckets st) (b0 + 1))
          (<[Z.to_nat b0 := Element m h]> (buckets st)) (u64 (m - 1)).
Proof.
  intros I. cbv zeta. unfold add_next_entry. simpl.
  set (b0 := count_trailing_zeros (st_index st)).
  assert (0 ≤ b0 ≤ max_height) as Hb0 by apply ctz_spec.
  rewrite rbind_Ok. split.
  - intros ([] & Hc & H). rewrite check_all_Ok in Hc.
    destruct (buckets st !! Z.to_nat b0) eqn:E; [|done].
    apply lookup_lt_Some in E. rewrite (inv_array _ _ I) in E.
    split_and!; [unfold max_height; lia | |].
    + intros b Hb. apply Hc. apply elem_of_loop_indices. lia.
    + injection H as <-. unfold max_height in *. widths. f_equal.
      destruct (Z.gtb_spec (b0 + 1) (len_buckets st)); lia.
  - intros (Hlt & Hc & ->). exists tt. unfold max_height in *. split.
    + apply check_all_Ok. intros i Hi. apply elem_of_loop_indices in Hi.
      destruct (Hc (Z.of_nat i)) as (e & He & Hd); [lia|]. unfold bucket_at in He.
      rewrite Nat2Z.id in He. by exists e.
    + destruct (buckets st !! Z.to_nat b0) eqn:E.
      * widths. do 2 f_equal. destruct (Z.gtb_spec (b0 + 1) (len_buckets st)); lia.
      * apply lookup_ge_None in E. rewrite (inv_array _ _ I) in E. lia.
Qed.
Lemma secret_at_snoc hashes h i :
  0 ≤ i ≤ start_index →
  secret_at (hashes ++ [h]) i =
    if i =? start_index - Z.of_nat (length hashes) then Some h
    else if i <? start_index - Z.of_nat (length hashes) then None
    else secret_at hashes i.
Proof.
  intros Hi. unfold secret_at. destruct (Z.eqb_spec i (start_index - Z.of_nat (length hashes))) as [->|].
  - replace (Z.to_nat _) with (length hashes) by lia. by apply list_lookup_middle.
  - destruct (Z.ltb_spec i (start_index - Z.of_nat (length hashes))).
    + apply lookup_ge_None. rewrite length_app. simpl. lia.
    + apply lookup_app_l. lia.
Qed.

(** The bucket counts after an index of level [b0] is added. *)
Lemma len_after m b0 len b :
  0 ≤ m < 2 ^ max_height → 0 ≤ b0 < max_height → at_level b0 m → 0 ≤ b < max_height →
  (∀ b, 0 ≤ b < max_height → b < len ↔ m < 2 ^ max_height - 2 ^ b) →
  b < Z.max len (b0 + 1) ↔ m - 1 < 2 ^ max_height - 2 ^ b.
Proof.
  intros Hm Hb0 Hl Hb Hlen. specialize (Hlen b Hb).
  pose proof (floor_to_room b0 m ltac:(lia) (proj1 Hl) ltac:(lia)) as Hroom.
  assert (0 < 2 ^ b) by lia.
  destruct (Z.lt_trichotomy b b0) as [Hlt | [-> | Hlt]]; [|lia|].
  - assert (2 ^ b < 2 ^ b0) by (apply Z.pow_lt_mono_r; lia). lia.
  - assert (m ≠ 2 ^ max_height - 2 ^ b); [|lia].
    intros ->. pose proof (at_level_ctz b _ Hb (top_of_level b Hb)).
    rewrite (at_level_ctz b0) in * by done. lia.
Qed.

Lemma bucket_ok_after st st' b e b0 :
  0 ≤ b < max_height → 0 ≤ b0 < max_height → b ≠ b0 → at_level b0 (st_index st) →
  st_index st' = st_index st - 1 → bucket_ok st b e → bucket_ok st' b e.
Proof.
  intros Hb Hb0 Hne Hm Hi [Hl Ha Hx Hh]. split; [done | | done | done]. rewrite Hi.
  assert (el_index e ≠ st_index st + 2 ^ (b + 1)); [|lia]. intros E.
  assert (at_level b (st_index st)) as Hlm.
  { apply at_level_odd in Hl as [k Hk]; [|lia]. apply at_level_odd; [lia|].
    exists (k - 1). rewrite E, Z.pow_add_r in Hk by lia. lia. }
  apply at_level_ctz in Hlm, Hm; try done. congruence.
Qed.

(** A new element that passed the checks derives, below its own index, what
    the lower buckets derive. *)
Lemma new_element_derives hashes st h i :
  let m := st_index st in
  store_inv hashes st → length h = 32%nat → count_trailing_zeros m < max_height →
  (∀ b, 0 ≤ b < count_trailing_zeros m → ∃ e, bucket_at st b = Some e ∧
     derive (Element m h) (el_index e) = Ok e) →
  m < i < 2 ^ max_height → floor_to (count_trailing_zeros m) i = m →
  ∃ s, derive (Element m h) i = Ok (Element i s) ∧ secret_at hashes i = Some s.
Proof.
  intros m I Hh Hb0 Hc Hi Hf. pose proof (inv_nonneg _ _ I).
  pose proof (proj1 (ctz_spec m)) as Hr. set (b0 := count_trailing_zeros m) in *.
  destruct (bucket_covers hashes st i (Z.to_nat b0)) as (b & e & Hb & Hlen & He & Hok & Hfe);
    [done | unfold max_height in *; lia | done | rewrite Z2Nat.id by lia; fold m; lia |].
  destruct (Hc b) as (e' & He' & Hd); [lia|]. rewrite He in He'. injection He' as <-.
  assert (derivable e i) as Hde by (by apply (derivable_level b); [lia | apply Hok |]).
  rewrite (derive_trans (Element m h) e i); simpl; try done.
  - apply (inv_secret _ _ I b); try done. lia.
  - unfold max_height, m in *; lia.
  - pose proof (bk_above _ _ _ Hok). pose proof (bk_below _ _ _ Hok). fold m in H0. lia.
  - unfold in_u64, max_height in *. lia.
  - rewrite (at_level_ctz b) by (apply Hok || lia). fold b0. lia.
Qed.

(** The step: an accepted secret extends what the store derives. *)
Lemma add_next_entry_inv hashes st h st' :
  store_inv hashes st → length h = 32%nat → add_next_entry st h = Ok st' →
  store_inv (hashes ++ [h]) st'.
Proof.
  intros I Hh Hadd.
  apply (add_next_entry_Ok hashes) in Hadd as (Hb0 & Hc & ->); [|done].
  pose proof (inv_nonneg _ _ I) as Hm0. pose proof (inv_index _ _ I) as Hidx.
  set (m := st_index st) in *. set (b0 := count_trailing_zeros m) in *.
  assert (0 ≤ b0) as Hb0' by apply ctz_spec.
  assert (at_level b0 m) as Hlm by (by apply ctz_at_level).
  assert (m < 2 ^ max_height) as Hm by (unfold start_index in *; lia).
  assert (m ≠ 0) as Hmne by (intros E; unfold b0 in Hb0; rewrite E, ctz_0 in Hb0; lia).
  assert (u64 (m - 1) = m - 1) as Hu by (unfold max_height in *; apply u64_small; in_range).
  rewrite Hu.
  assert (∀ b, 0 ≤ b < Z.max (len_buckets st) (b0 + 1) → b ≠ b0 → b < len_buckets st) as Hold.
  { intros b Hb Hne. destruct (Z.lt_ge_cases b (len_buckets st)); [done|]. exfalso.
    assert (b < b0) as Hbb by lia. destruct (Hc b) as (e & He & _); [lia|].
    pose proof (inv_len _ _ I b ltac:(lia)).
    pose proof (floor_to_room b0 m ltac:(lia) (proj1 Hlm) Hm).
    assert (2 ^ b < 2 ^ b0) by (apply Z.pow_lt_mono_r; lia). fold m in H0. lia. }
  pose proof (inv_len_range _ _ I) as Hlr. pose proof (inv_array _ _ I) as Harr.
  split; simpl.
  - rewrite length_app. simpl. lia.
  - lia.
  - unfold max_height in *. lia.
  - by rewrite length_insert.
  - intros b Hb. apply (len_after m b0); auto with lia. apply (inv_len _ _ I).
  - intros b Hb. unfold bucket_at. simpl. destruct (Z.eq_dec b b0) as [-> | Hne].
    + exists (Element m h). split; [apply list_lookup_insert_eq; unfold max_height in *; lia|].
      split; simpl; try done. split; [lia|].
      rewrite Z.pow_add_r by lia. assert (0 < 2 ^ b0) by lia. lia.
    + destruct (inv_bucket _ _ I b) as (e & He & Hok); [auto with lia|].
      exists e. rewrite list_lookup_insert_ne by lia. split; [done|].
      eapply bucket_ok_after; [ | | done | done | | done]; simpl; auto with lia.
  - intros b e i Hb He Hi Hd. unfold bucket_at in He. simpl in He.
    assert (i ≤ start_index) by (unfold start_index; lia).
    rewrite secret_at_snoc, <-Hidx by lia.
    destruct (Z.eq_dec b b0) as [-> | Hne].
    + rewrite list_lookup_insert_eq in He by (unfold max_height in *; lia).
      injection He as <-. apply (derivable_level b0) in Hd; [|lia|done]. simpl in Hd.
      destruct (Z.eqb_spec i m) as [->|].
      * exists h. rewrite (derive_self (Element m h)) by done. done.
      * rewrite (proj2 (Z.ltb_ge i m)) by lia. apply (new_element_derives hashes st); auto with lia.
    + rewrite list_lookup_insert_ne in He by lia.
      assert (b < len_buckets st) as Hbl by auto.
      destruct (inv_bucket _ _ I b) as (e' & He' & Hok); [lia|].
      assert (e' = e) as -> by (unfold bucket_at in He'; congruence).
      assert (i ≠ m).
      { intros ->. apply (derivable_level b) in Hd; [|lia|apply Hok].
        pose proof (floor_to_bounds b m ltac:(lia)). pose proof (bk_above _ _ _ Hok). lia. }
      rewrite (proj2 (Z.eqb_neq i m)), (proj2 (Z.ltb_ge i m)) by lia.
      apply (inv_secret _ _ I b); auto with lia.
Qed.
(** ** Looking up *)

Lemma look_up_loop_Ok bs ind h ids :
  (∀ i, i ∈ ids → ∃ e, bs !! i = Some e ∧
     ((∃ x, derive e ind = Err x) ∨ derive e ind = Ok (Element ind h))) →
  (∃ i e, i ∈ ids ∧ bs !! i = Some e ∧ is_ok (derive e ind) = true) →
  look_up_loop bs ind ids = Ok h.
Proof.
  induction ids as [|i ids IH]; intros Hall (j & e & Hj & He & Hok); simpl.
  { by apply elem_of_nil in Hj. }
  destruct (Hall i) as (e' & He' & Hd); [by left|]. rewrite He'.
  destruct Hd as [[x Hx] | ->]; [rewrite Hx | done].
  apply IH; [intros k Hk; apply Hall; by right|].
  apply elem_of_cons in Hj as [-> | Hj]; [|by eauto].
  rewrite He in He'. injection He' as <-. by rewrite Hx in Hok.
Qed.

Lemma look_up_loop_Err bs ind ids :
  (∀ i, i ∈ ids → ∃ e x, bs !! i = Some e ∧ derive e ind = Err x) →
  look_up_loop bs ind ids = Err ErrUnableToDerive.
Proof.
  induction ids as [|i ids IH]; intros H; simpl; [done|].
  destruct (H i) as (e & x & He & Hx); [by left|]. rewrite He, Hx.
  apply IH. intros j Hj. apply H. by right.
Qed.

Lemma derive_not_derivable st b e to :
  0 ≤ st_index st → 0 ≤ b < max_height → bucket_ok st b e → in_u64 to →
  floor_to b to ≠ el_index e → derive e to = Err ErrNotDerivable.
Proof.
  intros Hs Hb Hok Ht Hne. pose proof (bk_above _ _ _ Hok). pose proof (bk_below _ _ _ Hok).
  rewrite derive_spec by (apply Hok || done || lia).
  rewrite (at_level_ctz b) by (apply Hok || done). by destruct (Z.eqb_spec (el_index e) (floor_to b to)).
Qed.

Lemma new_index_range v : in_u64 v →
  in_u64 (new_index v) ∧
  (v ≤ start_index → new_index v = start_index - v) ∧
  (start_index < v → 2 ^ max_height ≤ new_index v).
Proof.
  unfold new_index, start_index, max_height, u64, in_u64. intros Hv.
  assert (v ≤ 2 ^ 48 - 1 ∨ 2 ^ 48 - 1 < v) as [H|H] by lia.
  - rewrite Z.mod_small by lia. lia.
  - replace ((2 ^ 48 - 1 - v) mod 2 ^ 64) with (2 ^ 48 - 1 - v + 2 ^ 64); [lia|].
    apply Z.mod_unique with (-1); lia.
Qed.

Lemma look_up_found hashes st v h :
  store_inv hashes st → 0 ≤ v → hashes !! Z.to_nat v = Some h → look_up st v = Ok h.
Proof.
  intros I Hv E. unfold look_up. pose proof (inv_nonneg _ _ I). pose proof (inv_index _ _ I).
  pose proof (inv_len_range _ _ I). apply lookup_lt_Some in E as Hlt.
  assert (in_u64 v ∧ v ≤ start_index) as [Hv64 Hvs]
    by (unfold in_u64, start_index, max_height in *; lia).
  destruct (new_index_range v Hv64) as (_ & Hlo & _). rewrite Hlo in * by done.
  set (i := start_index - v) in *.
  assert (secret_at hashes i = Some h) as Hsec by (unfold secret_at; rewrite <-E; f_equal; lia).
  assert (st_index st < i < 2 ^ max_height) as Hi by (unfold start_index in *; lia).
  apply look_up_loop_Ok.
  - intros j Hj%elem_of_loop_indices. set (b := Z.of_nat j) in *.
    destruct (inv_bucket _ _ I b) as (e & He & Hok); [lia|].
    exists e. pose proof He as He'. unfold bucket_at, b in He'. rewrite Nat2Z.id in He'.
    split; [done|]. destruct (decide (floor_to b i = el_index e)) as [Hf|Hf].
    + right. destruct (inv_secret _ _ I b e i) as (h' & -> & Hs');
        [lia | done | done | apply (derivable_level b); [lia | apply Hok | done] |]. congruence.
    + left. eexists. apply (derive_not_derivable st b); unfold in_u64, max_height in *; auto with lia.
  - destruct (bucket_covers hashes st i 48) as (b & e & Hb & Hlen & He & Hok & Hf);
      [done | lia | done | |].
    { rewrite floor_to_mod, Z.mod_small; unfold max_height in *; lia. }
    exists (Z.to_nat b), e. rewrite elem_of_loop_indices. split_and!; [lia | done |].
    destruct (inv_secret _ _ I b e i) as (h' & -> & _); try done; try lia.
    apply (derivable_level b); [unfold max_height in *; lia | apply Hok | done].
Qed.

Lemma look_up_missing hashes st v :
  store_inv hashes st → in_u64 v → hashes !! Z.to_nat v = None →
  look_up st v = Err ErrUnableToDerive.
Proof.
  intros I Hv E. unfold look_up. pose proof (inv_nonneg _ _ I). pose proof (inv_index _ _ I).
  pose proof (inv_len_range _ _ I). destruct (new_index_range v Hv) as (Hr & Hlo & Hhi).
  apply lookup_ge_None in E. apply look_up_loop_Err. intros j Hj%elem_of_loop_indices.
  set (b := Z.of_nat j) in *. destruct (inv_bucket _ _ I b) as (e & He & Hok); [lia|].
  exists e. eexists. unfold bucket_at, b in He. rewrite Nat2Z.id in He. split; [done|].
  apply (derive_not_derivable st b); auto with lia. intros Hf.
  pose proof (bk_above _ _ _ Hok). pose proof (bk_below _ _ _ Hok).
  destruct (Z.le_gt_cases v start_index) as [Hle|Hgt].
  - rewrite Hlo in Hf by done. pose proof (floor_to_bounds b (start_index - v) ltac:(lia)).
    unfold in_u64 in *. lia.
  - pose proof (floor_to_mono b (2 ^ max_height) (new_index v) ltac:(lia) ltac:(lia)) as Hm.
    rewrite (floor_to_pow b max_height) in Hm by lia. lia.
Qed.

Lemma look_up_spec hashes st v :
  store_inv hashes st → in_u64 v →
  look_up st v = match hashes !! Z.to_nat v with
                 | Some h => Ok h
                 | None => Err ErrUnableToDerive
                 end.
Proof.
  intros I Hv. destruct (hashes !! Z.to_nat v) eqn:E.
  - apply (look_up_found hashes); try done. apply Hv.
  - by apply (look_up_missing hashes).
Qed.

Lemma add_all_inv hashes st :
  Forall (λ h, length h = 32%nat) hashes → add_all hashes new_revocation_store = Ok st →
  store_inv hashes st.
Proof.
  intros Hl. revert st. induction hashes as [|h hashes IH] using rev_ind; intros st H.
  - injection H as <-. apply new_store_inv.
  - apply Forall_app in Hl as [Hl Hh]. unfold add_all in H. rewrite fold_result_app in H.
    apply rbind_Ok in H as (st1 & H1 & H2). simpl in H2.
    apply rbind_Ok in H2 as (st2 & H2 & [= <-]).
    apply (add_next_entry_inv _ st1); [auto | by inversion Hh | done].
Qed.

(** ** The producer's secrets *)

Definition produced_by (p : revocation_producer) (hashes : list bytes) : Prop :=
  ∀ v h, hashes !! v = Some h → at_index p (Z.of_nat v) = Ok h.

Definition root_secret (root : bytes) (i : Z) : bytes := flip_all root (bits_below i 48).

Lemma derive_root root i :
  length root = 32%nat → 0 ≤ i < 2 ^ max_height →
  derive (Element root_index root) i = Ok (Element i (root_secret root i)).
Proof.
  intros Hl Hi. rewrite derive_spec; cbn [el_index el_hash]; [ | done | unfold in_u64, max_height in *; lia | done].
  change (count_trailing_zeros root_index) with max_height.
  rewrite floor_to_mod, Z.mod_small, Z.sub_diag by (unfold max_height in *; lia). done.
Qed.

Lemma at_index_derive root v :
  length root = 32%nat → 0 ≤ v ≤ start_index →
  at_index (new_revocation_producer root) v = Ok (root_secret root (start_index - v)).
Proof.
  intros Hl Hv. unfold at_index. destruct (new_index_range v) as (Hr & Hlo & _);
    [unfold in_u64, start_index, max_height in *; lia|].
  rewrite Hlo by lia. cbn [rp_root new_revocation_producer].
  rewrite derive_root by (done || unfold start_index in *; lia). done.
Qed.

Lemma root_secret_length root i : length root = 32%nat → length (root_secret root i) = 32%nat.
Proof. apply flip_all_length. Qed.

(** The producer's element at [m] derives the lower buckets' elements. *)
Lemma produced_check root hashes st b :
  let m := st_index st in
  length root = 32%nat → store_inv hashes st →
  (∀ i s, secret_at hashes i = Some s → 0 ≤ i ≤ start_index → s = root_secret root i) →
  count_trailing_zeros m < max_height → 0 ≤ b < count_trailing_zeros m →
  ∃ e, bucket_at st b = Some e ∧
       derive (Element m (root_secret root m)) (el_index e) = Ok e.
Proof.
  intros m Hroot I Hsec Hb0 Hb. pose proof (inv_nonneg _ _ I) as Hm0.
  pose proof (inv_index _ _ I) as Hidx. fold m in Hm0, Hidx.
  assert (m < 2 ^ max_height) as Hm by (unfold start_index in *; lia).
  pose proof (ctz_at_level m Hb0) as Hlm. set (b0 := count_trailing_zeros m) in *.
  assert (b < len_buckets st) as Hlen.
  { apply (inv_len _ _ I); [lia|]. fold m.
    pose proof (floor_to_room b0 m ltac:(lia) (proj1 Hlm) Hm).
    assert (2 ^ b < 2 ^ b0) by (apply Z.pow_lt_mono_r; lia). lia. }
  destruct (inv_bucket _ _ I b) as (e & He & Hok); [lia|]. exists e. split; [done|].
  pose proof (bk_above _ _ _ Hok) as Ha. pose proof (bk_below _ _ _ Hok) as Hbl. fold m in Ha.
  assert (derive e (el_index e) = Ok e) as Hself by (apply derive_self; [lia | apply Hok]).
  assert (el_hash e = root_secret root (el_index e)) as Hhash.
  { destruct (inv_secret _ _ I b e (el_index e)) as (s & Hs & Hat); try done; try (fold m; lia).
    - apply (derivable_level b); [lia | apply Hok | apply Hok].
    - rewrite Hself in Hs. injection Hs as Hs. apply Hsec in Hat; [|unfold start_index; lia].
      destruct e; simpl in *; congruence. }
  assert (derive (Element root_index root) (el_index e) = Ok e) as Hroot_e.
  { rewrite derive_root by (done || lia). rewrite <-Hhash. by destruct e. }
  rewrite <-Hroot_e. symmetry. apply derive_trans; cbn [el_index el_hash].
  - unfold root_index, max_height; lia.
  - lia.
  - unfold in_u64, max_height in *; lia.
  - done.
  - change (count_trailing_zeros root_index) with max_height. fold b0. lia.
  - by apply derive_root.
  - apply (derivable_level b0); cbn [el_index]; [lia | done |].
    apply floor_to_eq; [lia | apply Hlm |].
    assert (2 ^ (b + 1) ≤ 2 ^ b0) by (apply Z.pow_le_mono_r; lia).
    assert (el_index e ≠ m + 2 ^ b0); [|lia]. intros E.
    apply (at_level_not_multiple b b0 (el_index e)); [lia | apply Hok |].
    rewrite E. apply floor_to_add; [lia | apply Hlm].
Qed.

Lemma produced_accepted root hashes st :
  let m := st_index st in
  length root = 32%nat → store_inv hashes st → m ≠ 0 →
  (∀ i s, secret_at hashes i = Some s → 0 ≤ i ≤ start_index → s = root_secret root i) →
  ∃ st', add_next_entry st (root_secret root m) = Ok st'.
Proof.
  intros m Hroot I Hne Hsec. pose proof (inv_nonneg _ _ I). pose proof (inv_index _ _ I).
  assert (count_trailing_zeros m < max_height) as Hb0.
  { pose proof (proj1 (ctz_spec m)).
    assert (count_trailing_zeros m ≠ max_height); [|lia]. intros E.
    apply ctz_max in E; unfold start_index in *; fold m in H, H0; lia. }
  eexists. apply (add_next_entry_Ok hashes); [done|]. cbv zeta. fold m.
  split_and!; [done | | reflexivity]. intros b Hb. by apply (produced_check root hashes).
Qed.

(** The state after the producer's first [n] secrets. *)
Lemma add_produced root n hashes :
  length root = 32%nat → Z.of_nat n ≤ start_index → length hashes = n →
  produced_by (new_revocation_producer root) hashes →
  Forall (λ h, length h = 32%nat) hashes ∧
  ∃ st, add_all hashes new_revocation_store = Ok st.
Proof.
  intros Hroot Hn Hlen Hp. revert hashes Hlen Hp.
  induction n as [|n IH]; intros hashes Hlen Hp.
  { destruct hashes; [|done]. split; [done|]. by eexists. }
  destruct hashes as [|h hashes _] using rev_ind; [done|].
  rewrite length_app in Hlen. simpl in Hlen.
  destruct (IH ltac:(lia) hashes) as (Hl & st & Hst); [lia | |].
  { intros v s Hv. apply Hp. by apply lookup_app_l_Some. }
  pose proof (add_all_inv _ _ Hl Hst) as I. pose proof (inv_index _ _ I) as Hidx.
  assert (h = root_secret root (st_index st)) as ->.
  { specialize (Hp (length hashes) h). rewrite list_lookup_middle in Hp by done.
    specialize (Hp eq_refl). rewrite at_index_derive in Hp by (done || lia). congruence. }
  split.
  { apply Forall_app. split; [done|]. constructor; [|done]. by apply root_secret_length. }
  destruct (produced_accepted root hashes st) as [st' Hst']; [done | done | lia | |].
  { intros i s Hs Hi. unfold secret_at in Hs.
    specialize (Hp (Z.to_nat (start_index - i)) s). rewrite Z2Nat.id in Hp by lia.
    rewrite at_index_derive in Hp by (done || lia).
    replace (start_index - (start_index - i)) with i in Hp by lia.
    specialize (Hp ltac:(by apply lookup_app_l_Some)). congruence. }
  exists st'. unfold add_all in *. rewrite fold_result_app, Hst. simpl. by rewrite Hst'.
Qed.
End StoreFacts.

(** * Serialization *)

Lemma read_uint_app n v r :
  0 ≤ v < 2 ^ (8 * Z.of_nat n) → read_uint n (be_encode n v ++ r) = Ok (v, r).
Proof.
  intros Hv. unfold read_uint. rewrite read_n_app by apply be_encode_length.
  by rewrite be_decode_encode.
Qed.

Lemma read_full_app n x r : length x = n → read_full n (x ++ r) = Ok (x, r).
Proof. intros. unfold read_full. by rewrite read_n_app. Qed.

(** The stores an encoder sees: the buckets in use hold 64-bit indexes and
    32-byte hashes, the others are zero. *)
Definition revocation_store_wf (s : revocation_store) : Prop :=
  0 ≤ len_buckets s ≤ max_height ∧ length (buckets s) = 48%nat ∧ in_u64 (st_index s) ∧
  (∀ i e, buckets s !! i = Some e → in_u64 (el_index e) ∧ length (el_hash e) = 32%nat) ∧
  (∀ i e, buckets s !! i = Some e → len_buckets s ≤ Z.of_nat i → e = Element 0 zero_hash).

Definition independent_store_wf (s : independent_store) : Prop :=
  in_u64 (num_entries s) ∧ length (latest s) = 32%nat ∧ length (previous s) = 32%nat ∧
  (num_entries s = 0 → latest s = zero_hash) ∧ (num_entries s ≤ 1 → previous s = zero_hash).

Definition store_wf (s : store) : Prop :=
  match s with
  | StRevocation s => revocation_store_wf s
  | StIndependent s => independent_store_wf s
  end.

Lemma encode_decode_buckets src acc k n rest :
  (k + n ≤ length src)%nat → length acc = length src →
  (∀ i e, src !! i = Some e → in_u64 (el_index e) ∧ length (el_hash e) = 32%nat) →
  (∀ i, (i < k ∨ k + n ≤ i)%nat → acc !! i = src !! i) →
  ∃ body, encode_buckets src (seq k n) = Ok body ∧
          fold_result decode_bucket (seq k n) (acc, body ++ rest) = Ok (src, rest).
Proof.
  revert acc k. induction n as [|n IH]; intros acc k Hk Hlen Hwf Hacc; simpl.
  { exists []. split; [done|]. do 2 f_equal. apply list_eq. intros i. apply Hacc. lia. }
  destruct (lookup_lt_is_Some_2 src k) as [e He]; [lia|]. rewrite He.
  destruct (Hwf _ _ He) as [Hi Hh].
  destruct (IH (<[k := e]> acc) (S k)) as (body & Hb & Hf); [lia | by rewrite length_insert | done | |].
  { intros i Hi'. destruct (decide (i = k)) as [-> | Hne].
    - rewrite list_lookup_insert_eq by lia. done.
    - rewrite list_lookup_insert_ne by done. apply Hacc. lia. }
  rewrite Hb. simpl. eexists. split; [done|].
  rewrite <-!(assoc_L (++)), read_uint_app by done. simpl. rewrite read_full_app by done. simpl.
  destruct (lookup_lt_is_Some_2 acc k) as [e' ->]; [lia|]. simpl. by destruct e.
Qed.

Lemma revocation_store_round_trip s rest :
  revocation_store_wf s →
  ∃ b, encode_store s = Ok b ∧
       new_revocation_store_from_bytes (b ++ rest) = Ok (s, rest) ∧
       ∃ b', b = be_encode 1 (len_buckets s) ++ b'.
Proof.
  intros (Hl & Hbs & Hidx & Hwf & Hz). unfold encode_store, new_revocation_store_from_bytes.
  destruct (encode_decode_buckets (buckets s) zero_buckets 0 (Z.to_nat (len_buckets s))
              (be_encode 8 (st_index s) ++ rest)) as (body & Hb & Hf).
  - unfold max_height in *. lia.
  - rewrite Hbs. reflexivity.
  - done.
  - intros i Hi. destruct (buckets s !! i) as [e|] eqn:E.
    + rewrite (Hz _ _ E) by lia. apply lookup_lt_Some in E. rewrite Hbs in E.
      unfold zero_buckets. by rewrite lookup_replicate_2.
    + apply lookup_ge_None in E. apply lookup_ge_None. rewrite Hbs in E. done.
  - unfold loop_indices. rewrite Hb. simpl. eexists. split_and!; [done | | by eexists].
    rewrite <-!(assoc_L (++)), read_uint_app by (unfold max_height in *; lia). simpl.
    rewrite Hf. simpl. rewrite read_uint_app by done. simpl. by destruct s.
Qed.

Lemma decode_independent_store_encode s rest :
  independent_store_wf s →
  decode_independent_store (tail (ind_encode s) ++ rest) = Ok (s, rest).
Proof.
  intros (Hn & Hl & Hp & Hz & Ho). unfold decode_independent_store, ind_encode. simpl tail.
  pose proof (λ r, read_full_app 1 [independent_store_version] r eq_refl) as Hr.
  cbn [app] in Hr |- *. rewrite Hr. simpl.
  rewrite <-(assoc_L (++)), read_uint_app by done. simpl.
  destruct s as [n l p]. simpl in *. destruct (Z.eqb_spec n 0) as [-> | H0]; simpl.
  { rewrite Hz, Ho by lia. done. }
  rewrite <-(assoc_L (++)), read_full_app by done. simpl.
  destruct (Z.eqb_spec n 1) as [-> | H1]; simpl; [by rewrite Ho|].
  by rewrite read_full_app.
Qed.

Lemma store_round_trip s rest :
  store_wf s →
  ∃ b, encode s = Ok b ∧ new_store_from_bytes (b ++ rest) = Ok (s, rest).
Proof.
  destruct s as [s|s]; simpl; intros Hwf.
  - destruct (revocation_store_round_trip s rest Hwf) as (b & -> & Hd & b' & ->).
    eexists. split; [done|]. unfold new_store_from_bytes.
    rewrite <-(assoc_L (++)) in Hd |- *. rewrite read_full_app by apply be_encode_length. simpl.
    rewrite bool_decide_false, Hd; [done|]. intros E.
    apply (f_equal be_decode) in E. destruct Hwf as (Hl & _).
    rewrite be_decode_encode in E by (unfold max_height in *; lia).
    assert (be_decode [independent_store_marker] = 255) as E' by (vm_compute; done).
    unfold max_height in *. lia.
  - eexists. split; [done|]. unfold new_store_from_bytes.
    change (ind_encode s ++ rest) with ([independent_store_marker] ++ (tail (ind_encode s) ++ rest)).
    rewrite read_full_app by done. cbn [rbind]. rewrite bool_decide_true by done.
    by rewrite (decode_independent_store_encode s rest Hwf).
Qed.

(** ** Which stores are encodable *)

Section Reachable.
Context `{P : HashPrims}.

Lemma new_revocation_store_wf : revocation_store_wf new_revocation_store.
Proof.
  assert (∀ i e, zero_buckets !! i = Some e → e = Element 0 zero_hash) as Hz
    by (intros i e H; by apply lookup_replicate in H as [-> _]).
  split_and!; simpl; try done.
  - intros i e ->%Hz. done.
  - intros i e H _. by apply (Hz i).
Qed.

Lemma add_next_entry_wf s h s' :
  revocation_store_wf s → length h = 32%nat → add_next_entry s h = Ok s' →
  revocation_store_wf s'.
Proof.
  intros (Hl & Hbs & Hidx & Hwf & Hz) Hh H. unfold add_next_entry in H.
  apply rbind_Ok in H as (_ & _ & H). cbn [el_index] in H.
  pose proof (proj1 (ctz_spec (st_index s))) as Hr.
  set (b0 := count_trailing_zeros (st_index s)) in *.
  destruct (buckets s !! Z.to_nat b0) as [e0|] eqn:E; [|done].
  apply lookup_lt_Some in E. rewrite Hbs in E. unfold max_height in *.
  rewrite u8_small in H by in_range. injection H as <-.
  split_and!; cbn [len_buckets buckets st_index].
  - destruct (Z.gtb_spec (b0 + 1) (len_buckets s)); lia.
  - destruct (Z.gtb_spec (b0 + 1) (len_buckets s)); unfold max_height; lia.
  - by rewrite length_insert.
  - apply u64_range.
  - intros i e [(<- & <- & _) | (_ & Hi)]%list_lookup_insert_Some; [done | by apply (Hwf i)].
  - intros i e [(<- & <- & _) | (_ & Hi)]%list_lookup_insert_Some Hge.
    + destruct (Z.gtb_spec (b0 + 1) (len_buckets s)); lia.
    + apply (Hz i); [done|]. destruct (Z.gtb_spec (b0 + 1) (len_buckets s)); lia.
Qed.

Lemma add_all_wf hashes s :
  Forall (λ h, length h = 32%nat) hashes → fold_result add_next_entry hashes new_revocation_store = Ok s →
  revocation_store_wf s.
Proof.
  intros Hl. revert s. induction hashes as [|h hashes IH] using rev_ind; intros s H.
  - injection H as <-. apply new_revocation_store_wf.
  - apply Forall_app in Hl as [Hl Hh]. rewrite fold_result_app in H.
    apply rbind_Ok in H as (s1 & H1 & H2). simpl in H2.
    apply rbind_Ok in H2 as (s2 & H2 & [= <-]). inversion Hh; subst.
    by apply (add_next_entry_wf s1 h); [apply IH | |].
Qed.
End Reachable.

(** ** The independent store *)

Definition ind_add_all (hashes : list bytes) : result shachain_error independent_store :=
  fold_result (λ s h, ind_add_next_entry s (Some h)) hashes new_independent_store.

Lemma ind_add_all_spec hashes :
  Z.of_nat (length hashes) < 2 ^ 64 →
  ∃ s, ind_add_all hashes = Ok s ∧ num_entries s = Z.of_nat (length hashes) ∧
    (∀ h, hashes !! (length hashes - 1)%nat = Some h → latest s = h) ∧
    (hashes = [] → latest s = zero_hash) ∧
    (∀ h, hashes !! (length hashes - 2)%nat = Some h → (2 ≤ length hashes)%nat → previous s = h) ∧
    ((length hashes ≤ 1)%nat → previous s = zero_hash).
Proof.
  induction hashes as [|h hashes IH] using rev_ind; intros Hn.
  { eexists. split; [done|]. split_and!; done. }
  rewrite length_app in *. simpl in *. destruct IH as (s & Hs & Hc & Hl & Hl0 & Hp & Hp0); [lia|].
  unfold ind_add_all in *. rewrite fold_result_app, Hs. simpl. eexists. split; [done|]. simpl.
  rewrite u64_small by in_range. split_and!; [lia | | by destruct hashes | |].
  - intros x. replace (length hashes + 1 - 1)%nat with (length hashes) by lia.
    rewrite list_lookup_middle by done. congruence.
  - intros x Hx H2. replace (length hashes + 1 - 2)%nat with (length hashes - 1)%nat in Hx by lia.
    rewrite lookup_app_l in Hx by lia. auto.
  - intros H1. destruct hashes; [auto | simpl in *; lia].
Qed.

(** * Properties *)

(** A stand-in for the functions of other modules: a digest that mixes its
    input into 32 bytes. *)
#[export] Instance toy_prims : HashPrims := {|
  sha256 b := be_encode 32 (be_decode b * 31 + 7);
  new_hash b := if decide (length b = 32%nat) then Ok b else Err ErrBadHashLength;
  hash_is_equal a b := bool_decide (a = b);
  hmac_sha256 k m := be_encode 32 (be_decode k + be_decode m);
  scalar_overflow _ := false;
  scalar_is_zero s := be_decode s =? 0;
|}.

#[export] Instance toy_laws : HashLaws toy_prims.
Proof.
  split; simpl; intros.
  - apply be_encode_length.
  - by rewrite decide_True.
  - by rewrite decide_False.
  - done.
Qed.

Definition toy_root : bytes := be_encode 32 12345.

Definition toy_secrets : list bytes :=
  map (root_secret toy_root) (map (λ v, start_index - v) [0; 1; 2; 3; 4]).

Lemma toy_secrets_produced : produced_by (new_revocation_producer toy_root) toy_secrets.
Proof.
  intros v h Hv.
  do 5 (destruct v as [|v]; [injection Hv as <-; by vm_compute |]). done.
Qed.

Section Properties.
Context `{L : HashLaws}.

(** C27: the compact store never loses and never changes a secret it accepted:
    whatever 32-byte hashes a peer sends, once [AddNextEntry] has accepted
    them all, [LookUp] of an index gives back exactly the hash that was added
    at it, and an error for an index not added yet (also beyond [2^48]). *)
Theorem accepted_secrets_look_up (hashes : list bytes) (st : revocation_store) (v : Z) :
  Forall (λ h, length h = 32%nat) hashes →
  fold_result add_next_entry hashes new_revocation_store = Ok st →
  in_u64 v →
  look_up st v = match hashes !! Z.to_nat v with
                 | Some h => Ok h
                 | None => Err ErrUnableToDerive
                 end.
Proof. intros Hl Hst. apply look_up_spec. by apply add_all_inv. Qed.

(** C26: the store accepts what a producer makes, for every root and any
    number of secrets up to [2^48 - 1], and then answers every index as the
    producer does, from at most 48 elements. *)
Theorem producer_feeds_store (root : bytes) (hashes : list bytes) :
  length root = 32%nat →
  Z.of_nat (length hashes) ≤ start_index →
  produced_by (new_revocation_producer root) hashes →
  ∃ st, fold_result add_next_entry hashes new_revocation_store = Ok st ∧
    len_buckets st ≤ max_height ∧
    ∀ v, 0 ≤ v < Z.of_nat (length hashes) →
      look_up st v = at_index (new_revocation_producer root) v.
Proof.
  intros Hroot Hn Hp.
  destruct (add_produced root (length hashes) hashes) as (Hl & st & Hst); try done.
  pose proof (add_all_inv _ _ Hl Hst) as I.
  exists st. split_and!; [done | apply (inv_len_range _ _ I) |]. intros v Hv.
  destruct (lookup_lt_is_Some_2 hashes (Z.to_nat v)) as [h Hh]; [lia|].
  rewrite (look_up_found hashes st v h) by (done || lia).
  specialize (Hp _ _ Hh). by rewrite Z2Nat.id in Hp by lia.
Qed.

(** C29: a store written with [Encode] is read back unchanged by
    [NewStoreFromBytes], which tells the two encodings apart and leaves the
    bytes after it, for every compact store built by [AddNextEntry] and every
    store of independent secrets built by its [AddNextEntry]. *)
Theorem store_survives_encoding (hashes : list bytes) (rest : bytes) :
  Forall (λ h, length h = 32%nat) hashes →
  Z.of_nat (length hashes) < 2 ^ 64 →
  (∀ st, fold_result add_next_entry hashes new_revocation_store = Ok st →
     ∃ b, encode (StRevocation st) = Ok b ∧
          new_store_from_bytes (b ++ rest) = Ok (StRevocation st, rest)) ∧
  (∃ s b, ind_add_all hashes = Ok s ∧ encode (StIndependent s) = Ok b ∧
          new_store_from_bytes (b ++ rest) = Ok (StIndependent s, rest)).
Proof.
  intros Hl Hn. split.
  - intros st Hst. apply store_round_trip. by apply (add_all_wf hashes).
  - destruct (ind_add_all_spec hashes Hn) as (s & Hs & Hc & Hla & Hl0 & Hp & Hp0).
    exists s. destruct (store_round_trip (StIndependent s) rest) as (b & Hb & Hd); [|by exists b].
    rewrite Forall_lookup in Hl. simpl. unfold independent_store_wf, in_u64. rewrite Hc.
    split_and!; try lia.
    + destruct (hashes !! (length hashes - 1)%nat) as [h|] eqn:E.
      * rewrite (Hla h) by done. by apply (Hl (length hashes - 1)%nat).
      * apply lookup_ge_None in E. rewrite Hl0; [done | by destruct hashes as [|? []]; simpl in *; try lia].
    + destruct (hashes !! (length hashes - 2)%nat) as [h|] eqn:E.
      * destruct (decide (2 ≤ length hashes)%nat).
        -- rewrite (Hp h) by done. by apply (Hl (length hashes - 2)%nat).
        -- rewrite Hp0 by lia. done.
      * apply lookup_ge_None in E. rewrite Hp0 by lia. done.
    + intros H0. apply Hl0. destruct hashes; [done | simpl in *; lia].
    + intros H1. apply Hp0. lia.
Qed.
End Properties.

(** the store of independent secrets answers for the last two secrets and
    refuses every other index, telling a secret it dropped from one it never
    had. *)
Theorem independent_store_look_up (hashes : list bytes) (v : Z) :
  Z.of_nat (length hashes) < 2 ^ 64 →
  in_u64 v →
  ∃ s, ind_add_all hashes = Ok s ∧
    ind_look_up s v =
      match hashes !! Z.to_nat v with
      | None => Err ErrNoSuchEntry
      | Some h => if v + 2 >=? Z.of_nat (length hashes) then Ok h
                  else Err ErrSecretNotRetained
      end.
Proof.
  intros Hn Hv. destruct (ind_add_all_spec hashes Hn) as (s & Hs & Hc & Hl & _ & Hp & _).
  exists s. split; [done|]. unfold ind_look_up. rewrite Hc. set (n := Z.of_nat (length hashes)) in *.
  destruct (hashes !! Z.to_nat v) as [h|] eqn:E.
  - apply lookup_lt_Some in E as Hlt. unfold in_u64 in Hv.
    rewrite (proj2 (Z.eqb_neq n 0)), Z.geb_leb, (proj2 (Z.leb_gt _ _)) by lia. simpl.
    widths. destruct (Z.eqb_spec v (n - 1)) as [->|].
    + rewrite Z.geb_leb, (proj2 (Z.leb_le _ _)) by lia. f_equal. apply Hl.
      rewrite <-E. f_equal. lia.
    + widths. destruct (Z.eqb_spec v (n - 2)) as [->|].
      * rewrite Z.geb_leb, (proj2 (Z.leb_le _ _)) by lia. f_equal. apply Hp; [|lia].
        rewrite <-E. f_equal. lia.
      * by rewrite Z.geb_leb, (proj2 (Z.leb_gt _ _)) by lia.
  - apply lookup_ge_None in E. unfold in_u64 in Hv.
    rewrite (Z.geb_leb v n), (proj2 (Z.leb_le n v)), orb_true_r by lia. done.
Qed.

(** The producer of independent secrets returns the first candidate that is a
    valid private key, and fails only when none of the 256 is. *)
Definition secret_valid `{P : HashPrims} (p : independent_producer) (v : Z) (c : nat) : bool :=
  negb (scalar_overflow (secret_candidate p v c)) && negb (scalar_is_zero (secret_candidate p v c)).

Lemma secret_loop_spec `{P : HashPrims} p v cs :
  secret_loop p v cs =
    match list_find (λ c, secret_valid p v c = true) cs with
    | Some (_, c) => Ok (secret_candidate p v c)
    | None => Err ErrNoValidSecret
    end.
Proof.
  induction cs as [|c cs IH]; simpl; [done|]. fold (secret_valid p v c). rewrite IH.
  case_decide as E; [by rewrite E|]. apply not_true_is_false in E. rewrite E.
  by destruct (list_find _ cs) as [[]|].
Qed.

(** The [2^48]th secret (tree index 0, the root itself) has no bucket: storing
    it runs past the array. *)
Lemma last_secret_panics `{L : HashLaws} hashes st h :
  store_inv hashes st → st_index st = 0 →
  ¬ ∃ st', add_next_entry st h = Ok st'.
Proof.
  intros I H0 [st' H]. apply (add_next_entry_Ok hashes) in H as (Hlt & _); [|done].
  rewrite H0, ctz_0 in Hlt. lia.
Qed.

(** ** Witnesses *)

Definition toy_store : revocation_store :=
  match fold_result add_next_entry toy_secrets new_revocation_store with
  | Ok st => st
  | Err _ => new_revocation_store
  end.

Lemma toy_secrets_lengths : Forall (λ h : bytes, length h = 32%nat) toy_secrets.
Proof. repeat constructor. Qed.

Lemma accepted_secrets_look_up_witness :
  look_up toy_store 3 = Ok (root_secret toy_root (start_index - 3)) ∧
  look_up toy_store 5 = Err ErrUnableToDerive.
Proof.
  split.
  - rewrite (accepted_secrets_look_up toy_secrets toy_store 3); [vm_compute; reflexivity | | |].
    + apply toy_secrets_lengths.
    + vm_compute; reflexivity.
    + unfold in_u64; lia.
  - rewrite (accepted_secrets_look_up toy_secrets toy_store 5); [vm_compute; reflexivity | | |].
    + apply toy_secrets_lengths.
    + vm_compute; reflexivity.
    + unfold in_u64; lia.
Defined.

Lemma producer_feeds_store_witness :
  ∃ st, fold_result add_next_entry toy_secrets new_revocation_store = Ok st ∧
    len_buckets st ≤ max_height ∧
    ∀ v, 0 ≤ v < Z.of_nat (length toy_secrets) →
      look_up st v = at_index (new_revocation_producer toy_root) v.
Proof.
  apply (producer_feeds_store toy_root toy_secrets).
  - vm_compute; reflexivity.
  - vm_compute; discriminate.
  - apply toy_secrets_produced.
Defined.

Lemma store_survives_encoding_witness :
  ∃ b, encode (StRevocation toy_store) = Ok b ∧
       new_store_from_bytes (b ++ [Byte.x01]) = Ok (StRevocation toy_store, [Byte.x01]).
Proof.
  apply (store_survives_encoding toy_secrets [Byte.x01]).
  - apply toy_secrets_lengths.
  - vm_compute; reflexivity.
  - vm_compute; reflexivity.
Defined.

Lemma independent_store_look_up_witness :
  ∃ s, ind_add_all toy_secrets = Ok s ∧
    ind_look_up s 4 = Ok (root_secret toy_root (start_index - 4)) ∧
    ind_look_up s 2 = Err ErrSecretNotRetained.
Proof.
  destruct (independent_store_look_up toy_secrets 4) as (s & Hs & H4);
    [vm_compute; reflexivity | unfold in_u64; lia |].
  destruct (independent_store_look_up toy_secrets 2) as (s' & Hs' & H2);
    [vm_compute; reflexivity | unfold in_u64; lia |].
  exists s. split; [exact Hs|]. split; [exact H4|].
  assert (s' = s) as -> by congruence. exact H2.
Defined.
