(* ===== verification/Tlv.v ===== *)
(** * TLV streams (package tlv)

    Variable-length integers (varint.go), truncated integers (truncated.go),
    records and the codecs of their values (primitive.go, record.go), and the
    streams of records (stream.go).

    A reader is the list of the bytes it has left, and a writer the bytes
    written to it, which cannot fail. A record's value is a pointer of the
    source; here the record holds what it points to, and decoding gives the new
    value, that of a failed decoding too. [TlvProps] holds the theorems. *)

From S2P Require Import Prelude.

Inductive tlv_error :=
| EOF
| ErrUnexpectedEOF
| ErrVarIntNotCanonical
| ErrStreamNotCanonical
| ErrRecordTooLarge
| ErrTUintNotMinimal
| ErrTypeForEncoding
| ErrTypeForDecoding
| ErrCorruptedData
| ErrPubKey
| PanicNilCodec
| OutOfFuel.

#[export] Instance tlv_error_eq_decision : EqDecision tlv_error.
Proof. solve_decision. Defined.

(** [io.ReadFull] of [n] bytes: what was read and what is left. *)
Definition read_full (n : nat) (r : bytes) : result tlv_error (bytes * bytes) :=
  match read_n n r with
  | Some p => Ok p
  | None => Err (match r with [] => EOF | _ => ErrUnexpectedEOF end)
  end.

(** [io.CopyN] of [l] bytes. *)
Definition copy_n (l : Z) (r : bytes) : result tlv_error (bytes * bytes) :=
  if l <=? Z.of_nat (length r) then Ok (take (Z.to_nat l) r, drop (Z.to_nat l) r) else Err EOF.

(** The callers' conversion of an [io.EOF] inside a record. *)
Definition unexpected_eof (e : tlv_error) : tlv_error :=
  match e with EOF => ErrUnexpectedEOF | _ => e end.

Definition map_err {E E' A} (f : E → E') (x : result E A) : result E' A :=
  match x with Ok a => Ok a | Err e => Err (f e) end.

(** ** Variable-length integers (varint.go) *)

(** [n] more bytes, of a value that needs them. *)
Definition read_var_bytes (n : nat) (least : Z) (r : bytes) : result tlv_error (Z * bytes) :=
  let* p := map_err unexpected_eof (read_full n r) in
  let rv := be_decode p.1 in
  ensure (negb (rv <? least)) else ErrVarIntNotCanonical;
  Ok (rv, p.2).

Definition read_var_int (r : bytes) : result tlv_error (Z * bytes) :=
  let* p := read_full 1 r in
  let discriminant := be_decode p.1 in
  if discriminant <? 0xfd then Ok (discriminant, p.2)
  else if discriminant =? 0xfd then read_var_bytes 2 0xfd p.2
  else if discriminant =? 0xfe then read_var_bytes 4 0x10000 p.2
  else read_var_bytes 8 0x100000000 p.2.

Definition write_var_int (val : Z) : bytes :=
  if val <? 0xfd then be_encode 1 val
  else if val <=? 0xffff then be_encode 1 0xfd ++ be_encode 2 val
  else if val <=? 0xffffffff then be_encode 1 0xfe ++ be_encode 4 val
  else be_encode 1 0xff ++ be_encode 8 val.

(** ** What the package takes from btcd *)

(** Public keys (btcec) and [wire.VarIntSerializeSize]. *)
Class TlvPrims := {
  pubkey : Type;
  parse_pub_key : bytes → option pubkey;
  serialize_compressed : pubkey → bytes;
  var_int_serialize_size : Z → Z }.

(** What their documentation says of them. *)
Class TlvLaws `{TlvPrims} : Prop := {
  parse_serialize pk : parse_pub_key (serialize_compressed pk) = Some pk;
  serialize_length pk : length (serialize_compressed pk) = 33%nat;
  parse_length b pk : parse_pub_key b = Some pk → length b = 33%nat → serialize_compressed pk = b;
  var_int_size v : in_u64 v → var_int_serialize_size v =
    if v <? 0xfd then 1 else if v <=? 0xffff then 3 else if v <=? 0xffffffff then 5 else 9 }.

Section Tlv.
Context `{P : TlvPrims}.

Definition var_int_size_ (val : Z) : Z := var_int_serialize_size val.

(** ** Values *)

(** What the [value] of a record points to. *)
Inductive value :=
| VNil
| VBool (b : bool)
| VUint8 (i : Z)
| VUint16 (i : Z)
| VUint32 (i : Z)
| VUint64 (i : Z)
| VBytes32 (b : bytes)
| VBytes33 (b : bytes)
| VBytes64 (b : bytes)
| VPubKey (pk : pubkey)
| VVarBytes (b : bytes).

Definition encoder_ : Type := value → result tlv_error bytes.
(** The value after the call, and what is left to read. *)
Definition decoder_ : Type := bytes → value → Z → value * result tlv_error bytes.

Definition enop : encoder_ := λ _, Ok [].
Definition dnop : decoder_ := λ r val _, (val, Ok r).

(** *** Encoders (primitive.go) *)

Definition e_uint8 : encoder_ := λ val,
  match val with VUint8 i => Ok (be_encode 1 i) | _ => Err ErrTypeForEncoding end.
Definition e_uint16 : encoder_ := λ val,
  match val with VUint16 i => Ok (be_encode 2 i) | _ => Err ErrTypeForEncoding end.
Definition e_uint32 : encoder_ := λ val,
  match val with VUint32 i => Ok (be_encode 4 i) | _ => Err ErrTypeForEncoding end.
Definition e_uint64 : encoder_ := λ val,
  match val with VUint64 i => Ok (be_encode 8 i) | _ => Err ErrTypeForEncoding end.
Definition e_bool : encoder_ := λ val,
  match val with VBool b => Ok (be_encode 1 (if b then 1 else 0)) | _ => Err ErrTypeForEncoding end.
Definition e_bytes32 : encoder_ := λ val,
  match val with VBytes32 b => Ok b | _ => Err ErrTypeForEncoding end.
Definition e_bytes33 : encoder_ := λ val,
  match val with VBytes33 b => Ok b | _ => Err ErrTypeForEncoding end.
Definition e_bytes64 : encoder_ := λ val,
  match val with VBytes64 b => Ok b | _ => Err ErrTypeForEncoding end.
Definition e_pub_key : encoder_ := λ val,
  match val with VPubKey pk => Ok (serialize_compressed pk) | _ => Err ErrTypeForEncoding end.
Definition e_var_bytes : encoder_ := λ val,
  match val with VVarBytes b => Ok b | _ => Err ErrTypeForEncoding end.
Definition e_big_size : encoder_ := λ val,
  match val with
  | VUint32 i | VUint64 i => Ok (write_var_int i)
  | _ => Err ErrTypeForEncoding
  end.

(** *** Decoders (primitive.go) *)

(** An integer of [n] bytes into a variable. *)
Definition read_int (n : nat) (r : bytes) (val : value) (mk : Z → value) :
    value * result tlv_error bytes :=
  match read_full n r with
  | Ok (b, r') => (mk (be_decode b), Ok r')
  | Err e => (val, Err e)
  end.

(** [io.ReadFull] into an array: a short read leaves its bytes in it. *)
Definition read_array (n : nat) (r b : bytes) (mk : bytes → value) :
    value * result tlv_error bytes :=
  match read_full n r with
  | Ok (b', r') => (mk b', Ok r')
  | Err e => (mk (r ++ drop (length r) b), Err e)
  end.

Definition d_uint8 : decoder_ := λ r val l,
  match val with
  | VUint8 _ => if l =? 1 then read_int 1 r val VUint8 else (val, Err ErrTypeForDecoding)
  | _ => (val, Err ErrTypeForDecoding)
  end.
Definition d_uint16 : decoder_ := λ r val l,
  match val with
  | VUint16 _ => if l =? 2 then read_int 2 r val VUint16 else (val, Err ErrTypeForDecoding)
  | _ => (val, Err ErrTypeForDecoding)
  end.
Definition d_uint32 : decoder_ := λ r val l,
  match val with
  | VUint32 _ => if l =? 4 then read_int 4 r val VUint32 else (val, Err ErrTypeForDecoding)
  | _ => (val, Err ErrTypeForDecoding)
  end.
Definition d_uint64 : decoder_ := λ r val l,
  match val with
  | VUint64 _ => if l =? 8 then read_int 8 r val VUint64 else (val, Err ErrTypeForDecoding)
  | _ => (val, Err ErrTypeForDecoding)
  end.
Definition d_bool : decoder_ := λ r val l,
  match val with
  | VBool _ =>
      if l =? 1 then
        match read_full 1 r with
        | Ok (b, r') =>
            let v := be_decode b in
            if negb (v =? 0) && negb (v =? 1) then (val, Err ErrCorruptedData)
            else (VBool (negb (v =? 0)), Ok r')
        | Err e => (val, Err e)
        end
      else (val, Err ErrTypeForDecoding)
  | _ => (val, Err ErrTypeForDecoding)
  end.
Definition d_bytes32 : decoder_ := λ r val l,
  match val with
  | VBytes32 b => if l =? 32 then read_array 32 r b VBytes32 else (val, Err ErrTypeForDecoding)
  | _ => (val, Err ErrTypeForDecoding)
  end.
Definition d_bytes33 : decoder_ := λ r val l,
  match val with
  | VBytes33 b => if l =? 33 then read_array 33 r b VBytes33 else (val, Err ErrTypeForDecoding)
  | _ => (val, Err ErrTypeForDecoding)
  end.
Definition d_bytes64 : decoder_ := λ r val l,
  match val with
  | VBytes64 b => if l =? 64 then read_array 64 r b VBytes64 else (val, Err ErrTypeForDecoding)
  | _ => (val, Err ErrTypeForDecoding)
  end.
Definition d_pub_key : decoder_ := λ r val l,
  match val with
  | VPubKey _ =>
      if l =? 33 then
        match read_full 33 r with
        | Ok (b, r') =>
            match parse_pub_key b with
            | Some p => (VPubKey p, Ok r')
            | None => (val, Err ErrPubKey)
            end
        | Err e => (val, Err e)
        end
      else (val, Err ErrTypeForDecoding)
  | _ => (val, Err ErrTypeForDecoding)
  end.
Definition d_var_bytes : decoder_ := λ r val l,
  match val with
  | VVarBytes _ =>
      if 2 ^ 63 - 1 <? l then (val, Err ErrRecordTooLarge)
      else
        match copy_n l r with
        | Ok (b, r') => (VVarBytes b, Ok r')
        | Err e => (val, Err (match r with [] => e | _ => ErrUnexpectedEOF end))
        end
  | _ => (val, Err ErrTypeForDecoding)
  end.
Definition d_big_size : decoder_ := λ r val l,
  match val with
  | VUint32 _ =>
      match read_var_int r with
      | Ok (v, r') => (VUint32 (u32 v), Ok r')
      | Err e => (val, Err e)
      end
  | VUint64 _ =>
      match read_var_int r with
      | Ok (v, r') => (VUint64 v, Ok r')
      | Err e => (val, Err e)
      end
  | _ => (val, Err ErrTypeForDecoding)
  end.

(** *** Truncated integers (truncated.go) *)

Definition num_leading_zero_bytes16 (v : Z) : Z :=
  if v =? 0 then 2
  else if Z.land v 0xff00 =? 0 then 1
  else 0.
Definition num_leading_zero_bytes32 (v : Z) : Z :=
  if v =? 0 then 4
  else if Z.land v 0xffffff00 =? 0 then 3
  else if Z.land v 0xffff0000 =? 0 then 2
  else if Z.land v 0xff000000 =? 0 then 1
  else 0.
Definition num_leading_zero_bytes64 (v : Z) : Z :=
  if v =? 0 then 8
  else if Z.land v 0xffffffffffffff00 =? 0 then 7
  else if Z.land v 0xffffffffffff0000 =? 0 then 6
  else if Z.land v 0xffffffffff000000 =? 0 then 5
  else if Z.land v 0xffffffff00000000 =? 0 then 4
  else if Z.land v 0xffffff0000000000 =? 0 then 3
  else if Z.land v 0xffff000000000000 =? 0 then 2
  else if Z.land v 0xff00000000000000 =? 0 then 1
  else 0.

Definition size_tuint16 (v : Z) : Z := u64 (2 - num_leading_zero_bytes16 v).
Definition size_tuint32 (v : Z) : Z := u64 (4 - num_leading_zero_bytes32 v).
Definition size_tuint64 (v : Z) : Z := u64 (8 - num_leading_zero_bytes64 v).

Definition e_tuint16 : encoder_ := λ val,
  match val with
  | VUint16 v => Ok (drop (Z.to_nat (num_leading_zero_bytes16 v)) (be_encode 2 v))
  | _ => Err ErrTypeForEncoding
  end.
Definition e_tuint32 : encoder_ := λ val,
  match val with
  | VUint32 v => Ok (drop (Z.to_nat (num_leading_zero_bytes32 v)) (be_encode 4 v))
  | _ => Err ErrTypeForEncoding
  end.
Definition e_tuint64 : encoder_ := λ val,
  match val with
  | VUint64 v => Ok (drop (Z.to_nat (num_leading_zero_bytes64 v)) (be_encode 8 v))
  | _ => Err ErrTypeForEncoding
  end.

(** The [l] low bytes of an [n]-byte buffer are read, the others cleared; the
    variable is set before the check. *)
Definition read_tuint (n : nat) (size : Z → Z) (r : bytes) (val : value) (l : Z)
    (mk : Z → value) : value * result tlv_error bytes :=
  match read_full (Z.to_nat l) r with
  | Ok (b, r') =>
      let v := be_decode (replicate (n - Z.to_nat l) Byte.x00 ++ b) in
      (mk v, if size v =? l then Ok r' else Err ErrTUintNotMinimal)
  | Err e => (val, Err e)
  end.

Definition d_tuint16 : decoder_ := λ r val l,
  match val with
  | VUint16 _ => if l <=? 2 then read_tuint 2 size_tuint16 r val l VUint16
                 else (val, Err ErrTypeForDecoding)
  | _ => (val, Err ErrTypeForDecoding)
  end.
Definition d_tuint32 : decoder_ := λ r val l,
  match val with
  | VUint32 _ => if l <=? 4 then read_tuint 4 size_tuint32 r val l VUint32
                 else (val, Err ErrTypeForDecoding)
  | _ => (val, Err ErrTypeForDecoding)
  end.
Definition d_tuint64 : decoder_ := λ r val l,
  match val with
  | VUint64 _ => if l <=? 8 then read_tuint 8 size_tuint64 r val l VUint64
                 else (val, Err ErrTypeForDecoding)
  | _ => (val, Err ErrTypeForDecoding)
  end.

(** ** Records (record.go) *)

(** A size function reads the variable when it is called; [encoder] and
    [decoder] may be nil. *)
Record record := mk_record {
  rec_value : value;
  rec_typ : Z;
  rec_static_size : Z;
  rec_size_func : option (value → Z);
  rec_encoder : option encoder_;
  rec_decoder : option decoder_ }.

Definition size_var_bytes : value → Z := λ v,
  match v with VVarBytes b => u64 (Z.of_nat (length b)) | _ => 0 end.

(** The size is computed once, from the value at this time. *)
Definition size_big_size (val : value) : value → Z :=
  let size := match val with VUint32 i | VUint64 i => var_int_size_ i | _ => 0 end in
  λ _, size.

Definition size (f : record) : Z :=
  match rec_size_func f with
  | None => rec_static_size f
  | Some g => g (rec_value f)
  end.

(** A call of a codec that is nil panics. *)
Definition run_encoder (f : record) : result tlv_error bytes :=
  match rec_encoder f with Some e => e (rec_value f) | None => Err PanicNilCodec end.
Definition run_decoder (f : record) (r : bytes) (l : Z) : value * result tlv_error bytes :=
  match rec_decoder f with
  | Some d => d r (rec_value f) l
  | None => (rec_value f, Err PanicNilCodec)
  end.

(** Nothing for the types that make the source panic. *)
Definition make_primitive_record (typ : Z) (val : value) : option record :=
  let static sz e d := Some (mk_record val typ sz None (Some e) (Some d)) in
  match val with
  | VBool _ => static 1 e_bool d_bool
  | VUint8 _ => static 1 e_uint8 d_uint8
  | VUint16 _ => static 2 e_uint16 d_uint16
  | VUint32 _ => static 4 e_uint32 d_uint32
  | VUint64 _ => static 8 e_uint64 d_uint64
  | VBytes32 _ => static 32 e_bytes32 d_bytes32
  | VBytes33 _ => static 33 e_bytes33 d_bytes33
  | VPubKey _ => static 33 e_pub_key d_pub_key
  | VBytes64 _ => static 64 e_bytes64 d_bytes64
  | VVarBytes _ => Some (mk_record val typ 0 (Some size_var_bytes) (Some e_var_bytes) (Some d_var_bytes))
  | VNil => None
  end.

Definition make_static_record (typ : Z) (val : value) (sz : Z)
    (e : option encoder_) (d : option decoder_) : record :=
  mk_record val typ sz None e d.
Definition make_dynamic_record (typ : Z) (val : value) (f : value → Z)
    (e : option encoder_) (d : option decoder_) : record :=
  mk_record val typ 0 (Some f) e d.
Definition make_big_size_record (typ : Z) (val : value) : record :=
  mk_record val typ 0 (Some (size_big_size val)) (Some e_big_size) (Some d_big_size).

Definition stub_encoder (v : bytes) : encoder_ := λ _, Ok v.

(** [sort.Slice] by type. *)
Definition type_le (a b : record) : Prop := rec_typ a ≤ rec_typ b.
#[global] Instance type_le_dec a b : Decision (type_le a b).
Proof. unfold type_le. apply _. Defined.
Definition sort_records (records : list record) : list record := merge_sort type_le records.

Definition map_to_records (m : gmap Z bytes) : list record :=
  sort_records (map (λ kv : Z * bytes,
    make_static_record kv.1 VNil (u64 (Z.of_nat (length kv.2))) (Some (stub_encoder kv.2)) None)
    (map_to_list m)).

Definition records_to_map (records : list record) : result tlv_error (gmap Z bytes) :=
  fold_result (λ m f, let* b := run_encoder f in Ok (<[rec_typ f := b]> m)) records ∅.

(** ** Streams (stream.go) *)

Definition max_record_size : Z := 65535.
Definition max_type : Z := 2 ^ 64 - 1.

(** [TypeMap]: [None] is the nil slice of a type that was parsed. *)
Definition type_map : Type := gmap Z (option bytes).

(** The state of the loops that check the order of types. *)
Record type_order := mk_type_order { to_min : Z; to_overflow : bool }.
Definition type_order_start : type_order := mk_type_order 0 false.
Definition type_order_bad (o : type_order) (typ : Z) : bool := to_overflow o || (typ <? to_min o).
Definition type_order_next (o : type_order) (typ : Z) : type_order :=
  mk_type_order (u64 (typ + 1)) (to_overflow o || (typ =? max_type)).

(** The codecs that are nil are replaced in the loop's copies of the records
    only; the stream keeps the records as they are. *)
Definition new_stream (records : list record) : result tlv_error (list record) :=
  let* _ := fold_result (λ o f,
    ensure (negb (type_order_bad o (rec_typ f))) else ErrStreamNotCanonical;
    Ok (type_order_next o (rec_typ f))) records type_order_start in
  Ok records.

Definition encode (s : list record) : result tlv_error bytes :=
  fold_result (λ w f,
    let w1 := w ++ write_var_int (rec_typ f) in
    let w2 := w1 ++ write_var_int (size f) in
    let* b := run_encoder f in
    Ok (w2 ++ b)) s [].

(** The index of the record of a type, if any, and where to go on. *)
Fixpoint get_record_from (l : list record) (typ : Z) (idx : nat) : option record * nat :=
  match l with
  | [] => (None, idx)
  | f :: l' =>
      if rec_typ f =? typ then (Some f, S idx)
      else if rec_typ f <? typ then get_record_from l' typ (S idx)
      else (None, idx)
  end.
Definition get_record (s : list record) (typ : Z) (idx : nat) : option record * nat :=
  get_record_from (drop idx s) typ idx.

(** The variable of a record after a call of its decoder. *)
Definition set_value (f : record) (v : value) : record :=
  mk_record v (rec_typ f) (rec_static_size f) (rec_size_func f) (rec_encoder f) (rec_decoder f).

(** One record of the stream, after its type was read: the records with their
    variables, and what is left to read with the types parsed. *)
Definition decode_record (s : list record) (idx : nat) (typ : Z) (r : bytes)
    (parsed_types : option type_map) (p2p : bool) :
    list record * result tlv_error (bytes * option type_map * nat) :=
  match map_err unexpected_eof (read_var_int r) with
  | Err e => (s, Err e)
  | Ok (len, r1) =>
      if p2p && (max_record_size <? len) then (s, Err ErrRecordTooLarge)
      else if 2 ^ 63 - 1 <? len then (s, Err ErrRecordTooLarge)
      else
        match get_record s typ idx with
        | (Some f, new_idx) =>
            let '(v, res) := run_decoder f r1 len in
            let s' := <[(new_idx - 1)%nat := set_value f v]> s in
            match map_err unexpected_eof res with
            | Err e => (s', Err e)
            | Ok r2 => (s', Ok (r2, (λ m, <[typ := None]> m) <$> parsed_types, new_idx))
            end
        | (None, new_idx) =>
            match map_err unexpected_eof (copy_n len r1) with
            | Err e => (s, Err e)
            | Ok (b, r2) => (s, Ok (r2, (λ m, <[typ := Some b]> m) <$> parsed_types, new_idx))
            end
        end
  end.

Fixpoint decode_loop (fuel : nat) (s : list record) (idx : nat) (o : type_order) (r : bytes)
    (parsed_types : option type_map) (p2p : bool) :
    list record * result tlv_error (option type_map) :=
  match fuel with
  | O => (s, Err OutOfFuel)
  | S fuel' =>
      match read_var_int r with
      | Err EOF => (s, Ok parsed_types)
      | Err e => (s, Err e)
      | Ok (typ, r1) =>
          if type_order_bad o typ then (s, Err ErrStreamNotCanonical)
          else
            match decode_record s idx typ r1 parsed_types p2p with
            | (s', Err e) => (s', Err e)
            | (s', Ok (r2, parsed', idx')) =>
                decode_loop fuel' s' idx' (type_order_next o typ) r2 parsed' p2p
            end
      end
  end.

Definition decode_ (s : list record) (r : bytes) (parsed_types : option type_map) (p2p : bool) :
    list record * result tlv_error (option type_map) :=
  decode_loop (S (length r)) s 0 type_order_start r parsed_types p2p.

Definition decode (s : list record) (r : bytes) : list record * result tlv_error unit :=
  let '(s', res) := decode_ s r None false in (s', let* _ := res in Ok tt).
Definition decode_p2p (s : list record) (r : bytes) : list record * result tlv_error unit :=
  let '(s', res) := decode_ s r None true in (s', let* _ := res in Ok tt).
Definition decode_with_parsed_types (s : list record) (r : bytes) :
    list record * result tlv_error (option type_map) := decode_ s r (Some ∅) false.
Definition decode_with_parsed_types_p2p (s : list record) (r : bytes) :
    list record * result tlv_error (option type_map) := decode_ s r (Some ∅) true.
End Tlv.
