(* ===== verification/TlvProps.v ===== *)
(** * Theorems of the TLV streams

    [write_var_int] and [read_var_int] are inverse to each other, as are the
    codecs of a class [Codec], which the primitive types and the truncated
    integers satisfy. The decoder of a stream is equal to a reference that
    first cuts the bytes into records and then looks each one up. *)

From S2P Require Import Prelude Tlv.

(** ** Readers *)

Lemma read_full_Ok n r b r' : read_full n r = Ok (b, r') ↔ r = b ++ r' ∧ length b = n.
Proof.
  unfold read_full. split.
  - destruct (read_n n r) as [p|] eqn:E; [|done]. intros [= ->]. by apply read_n_Some.
  - intros [-> <-]. by rewrite read_n_app.
Qed.

Lemma take_full_app n b r : length b = n → read_full n (b ++ r) = Ok (b, r).
Proof. intros. by apply read_full_Ok. Qed.

Lemma read_full_EOF n r : n ≠ 0%nat → read_full n r = Err EOF ↔ r = [].
Proof.
  intros Hn. unfold read_full. destruct (read_n n r) as [p|] eqn:E.
  - split; [done|]. intros ->. destruct p. apply read_n_Some in E as [E <-].
    by apply eq_sym, app_eq_nil in E as [-> _].
  - destruct r; naive_solver.
Qed.

Lemma copy_n_Ok l r b r' :
  0 ≤ l → copy_n l r = Ok (b, r') ↔ r = b ++ r' ∧ Z.of_nat (length b) = l.
Proof.
  intros Hl. unfold copy_n. destruct (Z.leb_spec l (Z.of_nat (length r))) as [H|H].
  - split.
    + intros [= <- <-]. rewrite take_drop, length_take. split; [done | lia].
    + intros [-> <-]. by rewrite Nat2Z.id, take_app_length, drop_app_length.
  - split; [done|]. intros [-> <-]. rewrite length_app in H. lia.
Qed.

Lemma map_err_Ok {E E' A} (f : E → E') (x : result E A) a : map_err f x = Ok a ↔ x = Ok a.
Proof. destruct x; simpl; naive_solver. Qed.

(** ** Variable-length integers *)

Lemma read_var_bytes_Ok n least r v r' :
  read_var_bytes n least r = Ok (v, r') ↔
  r = be_encode n v ++ r' ∧ least ≤ v ∧ 0 ≤ v < 2 ^ (8 * Z.of_nat n).
Proof.
  unfold read_var_bytes. rewrite rbind_Ok. split.
  - intros ([b r1] & Hb & H). apply map_err_Ok, read_full_Ok in Hb as [-> Hn]. simpl in H.
    destruct (Z.ltb_spec (be_decode b) least) as [|Hv]; [done|]. simpl in H.
    injection H as <- <-. rewrite be_encode_decode by done.
    pose proof (be_decode_range b). rewrite Hn in *. done.
  - intros (-> & Hl & Hv). exists (be_encode n v, r').
    rewrite take_full_app by apply be_encode_length. split; [done|]. simpl.
    rewrite be_decode_encode by done. destruct (Z.ltb_spec v least); [lia | done].
Qed.

(** The four forms, by the first byte. *)
Lemma read_var_int_forms r v r' :
  read_var_int r = Ok (v, r') ↔
  ∃ d r1, 0 ≤ d < 2 ^ 8 ∧ r = be_encode 1 d ++ r1 ∧
  (if d <? 0xfd then v = d ∧ r' = r1
   else let '(n, least) := if d =? 0xfd then (2%nat, 0xfd)
          else if d =? 0xfe then (4%nat, 0x10000) else (8%nat, 0x100000000) in
        r1 = be_encode n v ++ r' ∧ least ≤ v ∧ 0 ≤ v < 2 ^ (8 * Z.of_nat n)).
Proof.
  unfold read_var_int. rewrite rbind_Ok. split.
  - intros ([b r1] & Hb & H). apply read_full_Ok in Hb as [-> Hn]. cbn [fst snd] in H.
    pose proof (be_decode_range b) as Hr. rewrite Hn in Hr.
    exists (be_decode b), r1. rewrite be_encode_decode by done.
    split; [done|]. split; [done|].
    destruct (be_decode b <? 0xfd); [by injection H as <- <-|].
    by repeat case_match; simplify_eq; apply read_var_bytes_Ok in H.
  - intros (d & r1 & Hd & -> & H). exists (be_encode 1 d, r1).
    rewrite take_full_app by apply be_encode_length. split; [done|].
    cbn [fst snd]. rewrite be_decode_encode by done.
    destruct (d <? 0xfd); [by destruct H as [-> ->]|].
    by repeat case_match; simplify_eq; apply read_var_bytes_Ok.
Qed.

Lemma read_var_int_Ok r v r' :
  read_var_int r = Ok (v, r') ↔ in_u64 v ∧ r = write_var_int v ++ r'.
Proof.
  rewrite read_var_int_forms. unfold write_var_int. split.
  - intros (d & r1 & Hd & -> & H). destruct (Z.ltb_spec d 0xfd).
    { destruct H as [-> ->]. split; [in_range|]. by rewrite (proj2 (Z.ltb_lt d _)). }
    destruct (Z.eqb_spec d 0xfd) as [->|]; [|destruct (Z.eqb_spec d 0xfe) as [->|]];
      destruct H as (-> & Hl & Hv); (split; [in_range|]).
    + destruct (Z.ltb_spec v 0xfd); [lia|]. destruct (Z.leb_spec v 0xffff); [|lia].
      by rewrite (assoc_L (++)).
    + destruct (Z.ltb_spec v 0xfd); [lia|]. destruct (Z.leb_spec v 0xffff); [lia|].
      destruct (Z.leb_spec v 0xffffffff); [|lia]. by rewrite (assoc_L (++)).
    + replace d with 0xff by lia.
      destruct (Z.ltb_spec v 0xfd); [lia|]. destruct (Z.leb_spec v 0xffff); [lia|].
      destruct (Z.leb_spec v 0xffffffff); [lia|]. by rewrite (assoc_L (++)).
  - intros [Hv ->]. unfold in_u64 in Hv.
    destruct (Z.ltb_spec v 0xfd).
    { exists v, r'. split; [lia|]. split; [done|]. by rewrite (proj2 (Z.ltb_lt v _)). }
    destruct (Z.leb_spec v 0xffff);
      [exists 0xfd | destruct (Z.leb_spec v 0xffffffff); [exists 0xfe | exists 0xff]];
      (eexists; split; [lia|]; rewrite <-(assoc_L (++)); split; [reflexivity|]; simpl;
       split; [done | lia]).
Qed.

Lemma read_write_var_int v r : in_u64 v → read_var_int (write_var_int v ++ r) = Ok (v, r).
Proof. intros. by apply read_var_int_Ok. Qed.

Lemma read_var_int_EOF r : read_var_int r = Err EOF ↔ r = [].
Proof.
  unfold read_var_int. rewrite rbind_Err. rewrite read_full_EOF by done. split; [|tauto].
  intros [H|([b r1] & _ & H)]; [done|]. exfalso. cbn [fst snd] in H. revert H.
  unfold read_var_bytes. case_match; [done|].
  repeat case_match; rewrite rbind_Err; intros [H'|(p & _ & H')];
    try (by destruct (negb _) in H');
    (destruct (read_full _ _) as [|e]; [done|]; destruct e; done).
Qed.

Lemma write_var_int_nonempty v : (0 < length (write_var_int v))%nat.
Proof. unfold write_var_int. repeat case_match; rewrite ?length_app, ?be_encode_length; lia. Qed.

(** ** Truncated integers *)

(** [sized v j]: [v] needs exactly [j] bytes. *)
Definition sized (v j : Z) : Prop := 0 ≤ j ∧ 0 ≤ v < 2 ^ (8 * j) ∧ (0 < j → 2 ^ (8 * (j - 1)) ≤ v).

Lemma sized_unique v i j : sized v i → sized v j → i = j.
Proof.
  intros (Hi & Hvi & Li) (Hj & Hvj & Lj).
  destruct (Z.lt_trichotomy i j) as [H|[H|H]]; [exfalso | done | exfalso].
  - assert (2 ^ (8 * i) ≤ 2 ^ (8 * (j - 1))) by (apply Z.pow_le_mono_r; lia). lia.
  - assert (2 ^ (8 * j) ≤ 2 ^ (8 * (i - 1))) by (apply Z.pow_le_mono_r; lia). lia.
Qed.

(** The masks of the source test the high bytes. *)
Lemma land_high v n m :
  0 ≤ m ≤ n → 0 ≤ v < 2 ^ n → (Z.land v (2 ^ n - 2 ^ m) =? 0) = (v <? 2 ^ m).
Proof.
  intros Hm Hv.
  assert (2 ^ n - 2 ^ m = Z.shiftl (Z.ones (n - m)) m) as ->.
  { rewrite Z.shiftl_mul_pow2, Z.ones_equiv by lia. rewrite <-Z.sub_1_r, Z.mul_sub_distr_r.
    rewrite <-Z.pow_add_r by lia. rewrite Z.mul_1_l. do 2 f_equal. lia. }
  assert (Z.land v (Z.shiftl (Z.ones (n - m)) m) = Z.shiftl (Z.shiftr v m) m) as ->.
  { apply Z.bits_inj'. intros k Hk. rewrite Z.land_spec, !Z.shiftl_spec by lia.
    destruct (decide (k < m)).
    - rewrite !(Z.testbit_neg_r _ (k - m)) by lia. by rewrite andb_false_r.
    - rewrite Z.shiftr_spec by lia. replace (k - m + m) with k by lia.
      destruct (decide (k < n)).
      + rewrite Z.ones_spec_low by lia. by rewrite andb_true_r.
      + rewrite Z.ones_spec_high by lia.
        destruct (decide (v = 0)) as [->|]; [by rewrite Z.bits_0|].
        rewrite (Z.bits_above_log2 v k); [done | lia |]. apply Z.log2_lt_pow2; [lia|].
        assert (2 ^ n ≤ 2 ^ k) by (apply Z.pow_le_mono_r; lia). lia. }
  rewrite Z.shiftl_mul_pow2, Z.shiftr_div_pow2 by lia.
  assert (0 < 2 ^ m) by (apply Z.pow_pos_nonneg; lia).
  destruct (Z.ltb_spec v (2 ^ m)).
  - rewrite Z.div_small by lia. done.
  - apply Z.eqb_neq. assert (1 ≤ v / 2 ^ m) by (apply Z.div_le_lower_bound; lia). nia.
Qed.

Ltac masks n :=
  repeat match goal with
    | |- context [Z.land ?v ?c =? 0] =>
        let m := eval vm_compute in (Z.log2 (2 ^ n - c)) in
        replace c with (2 ^ n - 2 ^ m) by reflexivity; rewrite (land_high v n m) by lia
    end.

Ltac sized_cases :=
  repeat match goal with
    | |- context [?v =? ?c] => destruct (Z.eqb_spec v c); [vm_compute; subst; naive_solver lia|]
    | |- context [?v <? ?c] => destruct (Z.ltb_spec v c)
    end; unfold sized; widths; repeat split; lia.

Lemma size_tuint16_sized v : 0 ≤ v < 2 ^ 16 → sized v (size_tuint16 v) ∧ size_tuint16 v ≤ 2.
Proof. intros H. unfold size_tuint16, num_leading_zero_bytes16. masks 16. sized_cases. Qed.
Lemma size_tuint32_sized v : 0 ≤ v < 2 ^ 32 → sized v (size_tuint32 v) ∧ size_tuint32 v ≤ 4.
Proof. intros H. unfold size_tuint32, num_leading_zero_bytes32. masks 32. sized_cases. Qed.
Lemma size_tuint64_sized v : 0 ≤ v < 2 ^ 64 → sized v (size_tuint64 v) ∧ size_tuint64 v ≤ 8.
Proof. intros H. unfold size_tuint64, num_leading_zero_bytes64. masks 64. sized_cases. Qed.

Section TlvProps.
Context `{P : TlvPrims}.

(** [read_tuint] reads back the [l] bytes of a value that needs [l] bytes. *)
Lemma read_tuint_Ok n size r val l mk x r' :
  (∀ v, 0 ≤ v < 2 ^ (8 * Z.of_nat n) → sized v (size v)) → 0 ≤ l ≤ Z.of_nat n →
  read_tuint n size r val l mk = (x, Ok r') ↔
  ∃ v, x = mk v ∧ sized v l ∧ r = be_encode (Z.to_nat l) v ++ r'.
Proof.
  intros Hsize Hl. unfold read_tuint. split.
  - destruct (read_full _ r) as [[b r1]|e] eqn:Hb; [|done].
    apply read_full_Ok in Hb as [-> Hn]. rewrite be_decode_zeros.
    destruct (Z.eqb_spec (size (be_decode b)) l) as [E|]; [|done]. intros [= <- <-].
    exists (be_decode b). split; [done|]. rewrite be_encode_decode by done. split; [|done].
    rewrite <-E. apply Hsize. pose proof (be_decode_range b).
    assert (2 ^ (8 * Z.of_nat (length b)) ≤ 2 ^ (8 * Z.of_nat n)) by (apply Z.pow_le_mono_r; lia).
    lia.
  - intros (v & -> & Hs & ->). rewrite take_full_app by apply be_encode_length.
    pose proof Hs as (_ & Hv & _).
    rewrite be_decode_zeros, be_decode_encode by (rewrite Z2Nat.id; lia).
    assert (size v = l) as ->.
    { apply (sized_unique v); [|done]. apply Hsize.
      assert (2 ^ (8 * l) ≤ 2 ^ (8 * Z.of_nat n)) by (apply Z.pow_le_mono_r; lia). lia. }
    by rewrite Z.eqb_refl.
Qed.

(** The bytes that are written are those of the size. *)
Lemma drop_zeros n j v :
  0 ≤ j ≤ Z.of_nat n → sized v j → drop (Z.to_nat (Z.of_nat n - j)) (be_encode n v) = be_encode (Z.to_nat j) v.
Proof.
  intros Hj (_ & Hv & _). rewrite (be_encode_zeros n (Z.to_nat (Z.of_nat n - j)) v).
  - rewrite drop_app_length' by (by rewrite length_replicate). f_equal. lia.
  - lia.
  - by replace (Z.of_nat (n - Z.to_nat (Z.of_nat n - j))) with j by lia.
Qed.

(** ** Codecs *)

(** No nil function was called and no loop was cut short. *)
Definition no_panic {A} (x : result tlv_error A) : Prop :=
  match x with Err PanicNilCodec | Err OutOfFuel => False | _ => True end.

Lemma no_panic_bind {A B} (x : result tlv_error A) (k : A → result tlv_error B) :
  no_panic x → (∀ a, no_panic (k a)) → no_panic (rbind x k).
Proof. destruct x as [a|[]]; simpl; auto. Qed.
Lemma no_panic_eof {A} (x : result tlv_error A) : no_panic x → no_panic (map_err unexpected_eof x).
Proof. destruct x as [|[]]; done. Qed.
Lemma no_panic_ensure {A} (b : bool) (k : result tlv_error A) e :
  no_panic k → no_panic (@Err _ A e) → no_panic (ensure b else e; k).
Proof. by destruct b. Qed.

Lemma read_full_no_panic n r : no_panic (read_full n r).
Proof. unfold read_full. destruct (read_n n r), r; done. Qed.
Lemma copy_n_no_panic l r : no_panic (copy_n l r).
Proof. unfold copy_n. by destruct (l <=? _). Qed.
Lemma read_var_bytes_no_panic n k r : no_panic (read_var_bytes n k r).
Proof.
  apply no_panic_bind; [apply no_panic_eof, read_full_no_panic|].
  intros p. by apply no_panic_ensure.
Qed.
Lemma read_var_int_no_panic r : no_panic (read_var_int r).
Proof.
  apply no_panic_bind; [apply read_full_no_panic|]. intros p. cbv beta zeta.
  destruct (be_decode p.1 <? 0xfd); [done|].
  destruct (be_decode p.1 =? 0xfd); [apply read_var_bytes_no_panic|].
  destruct (be_decode p.1 =? 0xfe); apply read_var_bytes_no_panic.
Qed.

(** A decoder's only other errors are its reader's. *)
Ltac decoder_no_panic :=
  intros w r l; destruct w; try exact I; cbn; unfold read_int, read_array, read_tuint;
  repeat match goal with
    | |- context [if ?b then _ else _] => destruct b
    | |- context [match ?r with [] => _ | _ => _ end] => is_var r; destruct r
    | |- context [read_full ?n ?r] =>
        pose proof (read_full_no_panic n r); destruct (read_full n r) as [[]|]
    | |- context [copy_n ?n ?r] =>
        pose proof (copy_n_no_panic n r); destruct (copy_n n r) as [[]|]
    | |- context [read_var_int ?r] =>
        pose proof (read_var_int_no_panic r); destruct (read_var_int r) as [[]|]
    | |- context [parse_pub_key ?b] => destruct (parse_pub_key b)
    end; first [exact I | assumption].

(** What a pair of an encoder and a decoder promises on the values [dom] of its
    type: the encoder never fails, and the decoder accepts exactly what it
    writes, with its exact length, and returns the value. *)
Class Codec (dom : value → Prop) (e : encoder_) (d : decoder_) : Prop := {
  codec_total v : dom v → ∃ b, e v = Ok b;
  codec_exact w v r r' l : dom w → 0 ≤ l →
    d r w l = (v, Ok r') ↔ dom v ∧ ∃ b, e v = Ok b ∧ r = b ++ r' ∧ Z.of_nat (length b) = l;
  codec_error w r l : no_panic (d r w l).2 }.

Definition uint_dom (n : nat) (mk : Z → value) (v : value) : Prop :=
  ∃ i, v = mk i ∧ 0 ≤ i < 2 ^ (8 * Z.of_nat n).
Definition array_dom (n : nat) (mk : bytes → value) (v : value) : Prop :=
  ∃ b, v = mk b ∧ length b = n.
Definition bool_dom (v : value) : Prop := ∃ b, v = VBool b.
Definition pub_key_dom (v : value) : Prop := ∃ pk, v = VPubKey pk.
Definition var_bytes_dom (v : value) : Prop :=
  ∃ b, v = VVarBytes b ∧ Z.of_nat (length b) < 2 ^ 63.

Lemma read_int_Ok n r val mk x r' :
  read_int n r val mk = (x, Ok r') ↔
  ∃ i, x = mk i ∧ 0 ≤ i < 2 ^ (8 * Z.of_nat n) ∧ r = be_encode n i ++ r'.
Proof.
  unfold read_int. split.
  - destruct (read_full n r) as [[b r1]|e] eqn:Hb; [|done].
    apply read_full_Ok in Hb as [-> <-]. intros [= <- <-]. exists (be_decode b).
    split; [done|]. split; [apply be_decode_range|]. by rewrite be_encode_decode.
  - intros (i & -> & Hi & ->). rewrite take_full_app by apply be_encode_length.
    by rewrite be_decode_encode.
Qed.

Lemma read_array_Ok n r b mk x r' :
  read_array n r b mk = (x, Ok r') ↔ ∃ b', x = mk b' ∧ length b' = n ∧ r = b' ++ r'.
Proof.
  unfold read_array. split.
  - destruct (read_full n r) as [[b1 r1]|e] eqn:Hb; [|done].
    apply read_full_Ok in Hb as [-> <-]. intros [= <- <-]. by exists b1.
  - intros (b' & -> & Hn & ->). by rewrite take_full_app.
Qed.

(** A decoder of a fixed length [n] first compares it with the record's. *)
Lemma fixed_codec {X} (n : nat) (mk : X → value) (ok : X → Prop) (enc : X → bytes)
    (e : encoder_) (d : decoder_) (rd : bytes → X → value * result tlv_error bytes) :
  Inj (=) (=) mk →
  (∀ x, e (mk x) = Ok (enc x)) → (∀ x, ok x → length (enc x) = n) →
  (∀ x r l, d r (mk x) l = if l =? Z.of_nat n then rd r x else (mk x, Err ErrTypeForDecoding)) →
  (∀ r x v r', rd r x = (v, Ok r') ↔ ∃ y, v = mk y ∧ ok y ∧ r = enc y ++ r') →
  (∀ w r l, no_panic (d r w l).2) →
  Codec (λ v, ∃ x, v = mk x ∧ ok x) e d.
Proof.
  intros Hmk He Hlen Hd Hrd Herr. constructor; [| |done].
  - intros v (x & -> & _). by exists (enc x).
  - intros w v r r' l (x & -> & _) Hl. rewrite Hd.
    destruct (Z.eqb_spec l (Z.of_nat n)) as [->|Hne].
    + rewrite Hrd. split.
      * intros (y & -> & Hy & ->). split; [by exists y|]. exists (enc y). by rewrite Hlen.
      * intros ((y & -> & Hy) & b & Hb & -> & _). rewrite He in Hb. injection Hb as <-. by exists y.
    + split; [done|]. intros ((y & -> & Hy) & b & Hb & -> & Hlb). rewrite He in Hb.
      injection Hb as <-. rewrite Hlen in Hlb by done. congruence.
Qed.

Ltac fixed_codec_by n mk ok enc rd rule :=
  apply (fixed_codec n mk ok enc _ _ rd);
  [congruence | done | intros; by rewrite ?be_encode_length | done | intros; apply rule
  | decoder_no_panic].
Ltac uint_codec n mk :=
  fixed_codec_by n mk (λ i, 0 ≤ i < 2 ^ (8 * Z.of_nat n)) (be_encode n)
    (λ r i, read_int n r (mk i) mk) read_int_Ok.
Ltac array_codec n mk :=
  fixed_codec_by n mk (λ b : bytes, length b = n) (λ b : bytes, b)
    (λ r b, read_array n r b mk) read_array_Ok.

#[export] Instance uint8_codec : Codec (uint_dom 1 VUint8) e_uint8 d_uint8.
Proof. uint_codec 1%nat VUint8. Qed.
#[export] Instance uint16_codec : Codec (uint_dom 2 VUint16) e_uint16 d_uint16.
Proof. uint_codec 2%nat VUint16. Qed.
#[export] Instance uint32_codec : Codec (uint_dom 4 VUint32) e_uint32 d_uint32.
Proof. uint_codec 4%nat VUint32. Qed.
#[export] Instance uint64_codec : Codec (uint_dom 8 VUint64) e_uint64 d_uint64.
Proof. uint_codec 8%nat VUint64. Qed.
#[export] Instance bytes32_codec : Codec (array_dom 32 VBytes32) e_bytes32 d_bytes32.
Proof. array_codec 32%nat VBytes32. Qed.
#[export] Instance bytes33_codec : Codec (array_dom 33 VBytes33) e_bytes33 d_bytes33.
Proof. array_codec 33%nat VBytes33. Qed.
#[export] Instance bytes64_codec : Codec (array_dom 64 VBytes64) e_bytes64 d_bytes64.
Proof. array_codec 64%nat VBytes64. Qed.

#[export] Instance bool_codec : Codec bool_dom e_bool d_bool.
Proof.
  cut (Codec (λ v, ∃ b, v = VBool b ∧ True) e_bool d_bool).
  { intros [T E Hp]. constructor; [intros v [b ->]; apply T; by exists b| |done].
    intros w v r r' l [b ->] Hl. rewrite E by eauto. unfold bool_dom. naive_solver. }
  apply (fixed_codec 1 VBool (λ _, True) (λ b : bool, be_encode 1 (if b then 1 else 0)) _ _
    (λ r i, d_bool r (VBool i) 1)); [congruence | done | intros; apply be_encode_length | | |decoder_no_panic].
  { intros x r l. change (Z.of_nat 1) with 1. simpl. destruct (Z.eqb_spec l 1) as [->|]; done. }
  intros r x v r'. simpl. split.
  - destruct (read_full 1 r) as [[b r1]|] eqn:Hb; [|done].
    apply read_full_Ok in Hb as [-> Hn].
    destruct (Z.eqb_spec (be_decode b) 0) as [E|E]; simpl.
    { intros [= <- <-]. exists false. rewrite <-E, be_encode_decode by done. done. }
    destruct (Z.eqb_spec (be_decode b) 1) as [E1|E1]; simpl; [|done].
    intros [= <- <-]. exists true. rewrite <-E1, be_encode_decode by done. done.
  - intros (b & -> & _ & ->). rewrite take_full_app by apply be_encode_length.
    rewrite be_decode_encode by (by destruct b). by destruct b.
Qed.

#[export] Instance pub_key_codec `{!TlvLaws} : Codec pub_key_dom e_pub_key d_pub_key.
Proof.
  cut (Codec (λ v, ∃ b, v = VPubKey b ∧ True) e_pub_key d_pub_key).
  { intros [T E Hp]. constructor; [intros v [b ->]; apply T; by exists b| |done].
    intros w v r r' l [b ->] Hl. rewrite E by eauto. unfold pub_key_dom. naive_solver. }
  apply (fixed_codec 33 VPubKey (λ _, True) serialize_compressed _ _
    (λ r i, d_pub_key r (VPubKey i) 33)); [congruence | done | intros; apply serialize_length | | |decoder_no_panic].
  { intros x r l. change (Z.of_nat 33) with 33. simpl. destruct (Z.eqb_spec l 33) as [->|]; done. }
  intros r x v r'. simpl. split.
  - destruct (read_full 33 r) as [[b r1]|] eqn:Hb; [|done].
    apply read_full_Ok in Hb as [-> Hn].
    destruct (parse_pub_key b) as [pk|] eqn:Hp; [|done].
    intros [= <- <-]. exists pk. by rewrite (parse_length b pk).
  - intros (b & -> & _ & ->). rewrite take_full_app by apply serialize_length.
    by rewrite parse_serialize.
Qed.

#[export] Instance var_bytes_codec : Codec var_bytes_dom e_var_bytes d_var_bytes.
Proof.
  constructor; [intros v (b & -> & _); by exists b| |decoder_no_panic].
  intros w v r r' l (b0 & -> & _) Hl. simpl. split.
  - destruct (Z.ltb_spec (2 ^ 63 - 1) l); [done|].
    destruct (copy_n l r) as [[b r1]|] eqn:Hb; [|done]. apply copy_n_Ok in Hb as [-> Hb]; [|done].
    intros [= <- <-]. split; [|by exists b]. exists b. split; [done | lia].
  - intros ((b & -> & Hb) & b' & [= <-] & -> & <-).
    destruct (Z.ltb_spec (2 ^ 63 - 1) (Z.of_nat (length b))); [lia|].
    by rewrite (proj2 (copy_n_Ok _ _ b r' Hl)).
Qed.

(** The codec of a truncated integer. *)
Lemma tuint_codec (n : nat) (mk : Z → value) (nlz size : Z → Z) (e : encoder_) (d : decoder_) :
  Inj (=) (=) mk → (n ≤ 8)%nat →
  (∀ v, 0 ≤ v < 2 ^ (8 * Z.of_nat n) → sized v (size v) ∧ size v ≤ Z.of_nat n) →
  (∀ v, size v = u64 (Z.of_nat n - nlz v) ∧ 0 ≤ nlz v ≤ Z.of_nat n) →
  (∀ i, e (mk i) = Ok (drop (Z.to_nat (nlz i)) (be_encode n i))) →
  (∀ r i l, d r (mk i) l = if l <=? Z.of_nat n then read_tuint n size r (mk i) l mk
                           else (mk i, Err ErrTypeForDecoding)) →
  (∀ w r l, no_panic (d r w l).2) →
  Codec (uint_dom n mk) e d.
Proof.
  intros Hmk Hn8 Hs Hz He Hd Herr.
  assert (∀ i, 0 ≤ i < 2 ^ (8 * Z.of_nat n) → e (mk i) = Ok (be_encode (Z.to_nat (size i)) i)) as He'.
  { intros i Hi. destruct (Hs i Hi) as [Hsz Hle], (Hz i) as [Hu Hr]. rewrite He. f_equal.
    assert (0 ≤ size i) by apply Hsz.
    rewrite <-(drop_zeros n (size i)) by done. do 2 f_equal.
    rewrite Hu. rewrite u64_small by in_range. lia. }
  constructor; [intros v (i & -> & _); eauto| |done].
  intros w v r r' l (i0 & -> & _) Hl. rewrite Hd. split.
  - destruct (Z.leb_spec l (Z.of_nat n)); [|done].
    intros (i & -> & Hsi & ->)%read_tuint_Ok; [|by intros; apply Hs | lia].
    assert (0 ≤ i < 2 ^ (8 * Z.of_nat n)) as Hi.
    { destruct Hsi as (_ & Hi & _).
      assert (2 ^ (8 * l) ≤ 2 ^ (8 * Z.of_nat n)) by (apply Z.pow_le_mono_r; lia). lia. }
    split; [by exists i|]. rewrite He' by done.
    rewrite (sized_unique i (size i) l) by (done || apply Hs, Hi).
    eexists. split; [done|]. rewrite be_encode_length. split; [done | lia].
  - intros ((i & -> & Hi) & b & Hb & -> & <-). rewrite He' in Hb by done. injection Hb as <-.
    destruct (Hs i Hi) as [Hsz Hle]. assert (0 ≤ size i) by apply Hsz.
    rewrite be_encode_length, Z2Nat.id by done. rewrite (proj2 (Z.leb_le _ _)) by done.
    apply read_tuint_Ok; [by intros; apply Hs | lia |]. exists i. done.
Qed.

Ltac tuint_codec_by nlz size sized_lemma :=
  apply (tuint_codec _ _ nlz size);
  [congruence | lia | intros; by apply sized_lemma
  | intros v; split; [done|]; unfold nlz; repeat case_match; simpl; lia | done | done
  | decoder_no_panic].

#[export] Instance tuint16_codec : Codec (uint_dom 2 VUint16) e_tuint16 d_tuint16.
Proof. tuint_codec_by num_leading_zero_bytes16 size_tuint16 size_tuint16_sized. Qed.
#[export] Instance tuint32_codec : Codec (uint_dom 4 VUint32) e_tuint32 d_tuint32.
Proof. tuint_codec_by num_leading_zero_bytes32 size_tuint32 size_tuint32_sized. Qed.
#[export] Instance tuint64_codec : Codec (uint_dom 8 VUint64) e_tuint64 d_tuint64.
Proof. tuint_codec_by num_leading_zero_bytes64 size_tuint64 size_tuint64_sized. Qed.

(** ** The stream as a list of records *)

(** A record's type and the bytes of its value. *)
Definition raw_record : Type := Z * bytes.
Definition raw_length (tv : raw_record) : Z := Z.of_nat (length tv.2).

Definition emit (tv : raw_record) : bytes :=
  write_var_int tv.1 ++ write_var_int (raw_length tv) ++ tv.2.
Definition stream_of (l : list raw_record) : bytes := concat (map emit l).

Definition record_limit (p2p : bool) : Z := if p2p then max_record_size else 2 ^ 63 - 1.

(** Each type is above the last, and no value is too long. *)
Fixpoint canonical_from (lim lb : Z) (l : list raw_record) : Prop :=
  match l with
  | [] => True
  | tv :: l' => lb ≤ tv.1 < 2 ^ 64 ∧ raw_length tv ≤ lim ∧ canonical_from lim (tv.1 + 1) l'
  end.

(** What a record does to the variables and to the types parsed. *)
Definition apply_raw (s : list record) (m : option type_map) (tv : raw_record) :
    option (list record * option type_map) :=
  match list_find (λ f, rec_typ f = tv.1) s with
  | Some (i, f) =>
      match run_decoder f tv.2 (raw_length tv) with
      | (x, Ok []) => Some (<[i := set_value f x]> s, (λ m, <[tv.1 := None]> m) <$> m)
      | _ => None
      end
  | None => Some (s, (λ m, <[tv.1 := Some tv.2]> m) <$> m)
  end.

Fixpoint apply_all (s : list record) (m : option type_map) (l : list raw_record) :
    option (list record * option type_map) :=
  match l with
  | [] => Some (s, m)
  | tv :: l' => match apply_raw s m tv with Some (s', m') => apply_all s' m' l' | None => None end
  end.

Definition ascending (s : list record) : Prop :=
  StronglySorted (λ f g, rec_typ f < rec_typ g) s.

(** The decoder of a record reads its value and nothing else. *)
Definition splits (f : record) : Prop := ∀ r l v r', 0 ≤ l →
  run_decoder f r l = (v, Ok r') ↔
  ∃ b, r = b ++ r' ∧ Z.of_nat (length b) = l ∧ run_decoder f b l = (v, Ok []).

Lemma get_record_from_spec s typ l pre :
  s = pre ++ l → ascending s → Forall (λ f, rec_typ f < typ) pre →
  (∀ j f, (j < (get_record_from l typ (length pre)).2)%nat → s !! j = Some f → rec_typ f ≤ typ) ∧
  match list_find (λ f, rec_typ f = typ) s with
  | Some (i, f) => get_record_from l typ (length pre) = (Some f, S i)
  | None => (get_record_from l typ (length pre)).1 = None
  end.
Proof.
  revert pre. induction l as [|f l IH]; intros pre -> Hs Hpre; simpl.
  - rewrite app_nil_r. split.
    + intros j f _ Hj. apply Z.lt_le_incl, (Forall_lookup_1 _ _ _ _ Hpre Hj).
    + rewrite (proj2 (list_find_None _ _)); [done|]. eapply Forall_impl; [done|]. simpl. lia.
  - destruct (Z.eqb_spec (rec_typ f) typ) as [E|E]; [|destruct (Z.ltb_spec (rec_typ f) typ)].
    + split.
      * intros j g Hj Hg. simpl in Hj. destruct (decide (j < length pre)%nat).
        { rewrite lookup_app_l in Hg by done. apply Z.lt_le_incl, (Forall_lookup_1 _ _ _ _ Hpre Hg). }
        rewrite list_lookup_middle in Hg by lia. injection Hg as <-. lia.
      * rewrite (proj2 (list_find_Some _ _ (length pre) f)); [done|].
        rewrite list_lookup_middle by done. split; [done|]. split; [done|].
        intros j y Hy Hj. rewrite lookup_app_l in Hy by done.
        pose proof (Forall_lookup_1 _ _ _ _ Hpre Hy). simpl in *. lia.
    + replace (S (length pre)) with (length (pre ++ [f])) by (rewrite length_app; simpl; lia).
      apply (IH (pre ++ [f])); [by rewrite <-(assoc_L (++)) | done |].
      apply Forall_app; split; [done|]. by constructor.
    + split.
      * intros j g Hj Hg. simpl in Hj. rewrite lookup_app_l in Hg by done.
        apply Z.lt_le_incl, (Forall_lookup_1 _ _ _ _ Hpre Hg).
      * rewrite (proj2 (list_find_None _ _)); [done|]. apply Forall_app. split.
        { eapply Forall_impl; [done|]. simpl. lia. }
        apply StronglySorted_app_1_r in Hs. apply StronglySorted_inv in Hs as [_ Hl].
        constructor; [lia|]. eapply Forall_impl; [done|]. simpl. lia.
Qed.

Lemma get_record_spec s typ idx :
  ascending s → (∀ j f, (j < idx)%nat → s !! j = Some f → rec_typ f < typ) →
  (∀ j f, (j < (get_record s typ idx).2)%nat → s !! j = Some f → rec_typ f ≤ typ) ∧
  match list_find (λ f, rec_typ f = typ) s with
  | Some (i, f) => get_record s typ idx = (Some f, S i)
  | None => (get_record s typ idx).1 = None
  end.
Proof.
  intros Hs Hlt. unfold get_record. destruct (decide (idx ≤ length s)%nat) as [Hlen|Hlen].
  - assert (length (take idx s) = idx) as Hidx by (rewrite length_take; lia).
    pose proof (get_record_from_spec s typ (drop idx s) (take idx s)) as H. rewrite Hidx in H.
    apply H; [by rewrite take_drop | done |].
    apply Forall_lookup. intros j f [Hj Hlj]%lookup_take_Some. eauto.
  - rewrite drop_ge by lia. simpl. split; [intros; apply Z.lt_le_incl; eauto|].
    rewrite (proj2 (list_find_None _ _)); [done|]. apply Forall_lookup. intros j f Hj.
    pose proof (lookup_lt_Some _ _ _ Hj). specialize (Hlt j f ltac:(lia) Hj).
    simpl. lia.
Qed.

Lemma decode_record_Ok s idx typ r m p2p s1 r2 m1 idx1 :
  ascending s → (∀ j f, (j < idx)%nat → s !! j = Some f → rec_typ f < typ) →
  (∀ f, f ∈ s → typ ≤ rec_typ f → splits f) →
  decode_record s idx typ r m p2p = (s1, Ok (r2, m1, idx1)) ↔
  ∃ v, raw_length (typ, v) ≤ record_limit p2p ∧
    r = write_var_int (raw_length (typ, v)) ++ v ++ r2 ∧
    apply_raw s m (typ, v) = Some (s1, m1) ∧ idx1 = (get_record s typ idx).2.
Proof.
  intros Hs Hlt Hsplit. pose proof (get_record_spec s typ idx Hs Hlt) as [_ Hget].
  unfold decode_record, apply_raw, raw_length. cbn [fst snd].
  assert (∀ x : Z, 0 ≤ x → (p2p && (max_record_size <? x)) = false → (2 ^ 63 - 1 <? x) = false →
    x ≤ record_limit p2p) as Hlim1.
  { intros x Hx. unfold record_limit. destruct p2p; simpl; lia. }
  assert (∀ x : Z, x ≤ record_limit p2p →
    (p2p && (max_record_size <? x)) = false ∧ (2 ^ 63 - 1 <? x) = false) as Hlim2.
  { intros x. unfold record_limit, max_record_size. destruct p2p; simpl; lia. }
  split.
  - destruct (map_err _ (read_var_int r)) as [[len r1]|] eqn:Hr; [|done].
    apply map_err_Ok, read_var_int_Ok in Hr as [Hlen ->].
    destruct (p2p && _) eqn:E1; [done|]. destruct (2 ^ 63 - 1 <? len) eqn:E2; [done|].
    destruct Hlen as [Hlen _]. specialize (Hlim1 len Hlen E1 E2).
    destruct (list_find _ s) as [[i f]|] eqn:Hf.
    + rewrite Hget. apply list_find_Some in Hf as (Hi & Hft & _). simpl in Hft.
      destruct (run_decoder f r1 len) as [x res] eqn:Hd.
      destruct res as [r3|]; simpl; [|done]. intros [= <- <- <- <-].
      apply (Hsplit f) in Hd as (v & -> & Hv & Hd); [|by eapply list_elem_of_lookup_2|lia|done].
      exists v. rewrite Hv, Hd. by rewrite Nat.sub_0_r.
    + destruct (get_record s typ idx) as [g new]. simpl in Hget. subst g.
      destruct (copy_n len r1) as [[b r3]|] eqn:Hc; simpl; [|done].
      apply copy_n_Ok in Hc as [-> Hb]; [|done]. intros [= <- <- <- <-].
      exists b. by rewrite Hb.
  - intros (v & Hv & -> & Ha & ->). rewrite (proj2 (read_var_int_Ok _ (Z.of_nat (length v)) (v ++ r2))).
    2: { split; [|done]. unfold record_limit, max_record_size in Hv. destruct p2p; in_range. }
    cbn [map_err]. destruct (Hlim2 _ Hv) as [-> ->].
    destruct (list_find _ s) as [[i f]|] eqn:Hf.
    + rewrite Hget. apply list_find_Some in Hf as (Hi & Hft & _). simpl in Hft. cbn [snd].
      destruct (run_decoder f v _) as [x [[|]|]] eqn:Hd; [|done..]. injection Ha as <- <-.
      assert (run_decoder f (v ++ r2) (Z.of_nat (length v)) = (x, Ok r2)) as ->.
      { apply Hsplit; [by eapply list_elem_of_lookup_2 | lia | lia | by exists v]. }
      simpl. by rewrite Nat.sub_0_r.
    + destruct (get_record s typ idx) as [g new]. simpl in Hget. subst g.
      rewrite (proj2 (copy_n_Ok (Z.of_nat (length v)) _ v r2 ltac:(lia))) by done. by injection Ha as <- <-.
Qed.

(** The loop's state before a type of at least [lb]. *)
Definition order_at (lb : Z) : type_order := mk_type_order (u64 lb) (lb =? 2 ^ 64).

Lemma order_at_bad lb typ :
  0 ≤ lb ≤ 2 ^ 64 → in_u64 typ → type_order_bad (order_at lb) typ = (typ <? lb).
Proof.
  intros Hlb Ht. unfold type_order_bad, order_at. simpl.
  destruct (Z.eqb_spec lb (2 ^ 64)) as [->|]; simpl.
  - symmetry. apply Z.ltb_lt. in_range.
  - by rewrite u64_small by in_range.
Qed.

Lemma order_at_next lb typ :
  0 ≤ lb ≤ typ → typ < 2 ^ 64 → type_order_next (order_at lb) typ = order_at (typ + 1).
Proof.
  intros Hlb Ht. unfold type_order_next, order_at, max_type. simpl. f_equal.
  destruct (Z.eqb_spec lb (2 ^ 64)); [lia|]. simpl.
  destruct (Z.eqb_spec typ (2 ^ 64 - 1)), (Z.eqb_spec (typ + 1) (2 ^ 64)); lia.
Qed.

(** The values change, the types stay. *)
Definition same_types (s s' : list record) : Prop := map rec_typ s = map rec_typ s'.

Lemma same_types_lookup s s' j f' :
  same_types s s' → s' !! j = Some f' → ∃ f, s !! j = Some f ∧ rec_typ f = rec_typ f'.
Proof.
  intros H Hf. assert (map rec_typ s !! j = Some (rec_typ f')) as E.
  { rewrite H, list_lookup_fmap, Hf. done. }
  rewrite list_lookup_fmap in E. destruct (s !! j) as [f|]; [|done]. exists f. naive_solver.
Qed.

Lemma same_types_ascending s s' : same_types s s' → ascending s → ascending s'.
Proof.
  unfold same_types, ascending. revert s'.
  induction s as [|f s IH]; intros [|g s'] H; try done.
  injection H as Hfg H. intros [Hs Hf]%StronglySorted_inv. constructor; [by apply IH|].
  apply Forall_lookup. intros j h Hj. destruct (same_types_lookup _ _ _ _ H Hj) as (h' & Hj' & E).
  pose proof (Forall_lookup_1 _ _ _ _ Hf Hj'). simpl in *. lia.
Qed.

Lemma apply_raw_types s m tv s' m' : apply_raw s m tv = Some (s', m') → same_types s s'.
Proof.
  unfold apply_raw, same_types. destruct (list_find _ s) as [[i f]|] eqn:Hf; [|by intros [= <- <-]].
  apply list_find_Some in Hf as (Hi & _). destruct (run_decoder _ _ _) as [x [[|]|]]; [|done..].
  intros [= <- <-]. rewrite list_fmap_insert. simpl.
  symmetry. apply list_insert_id. by rewrite list_lookup_fmap, Hi.
Qed.

(** A step leaves the records of other types as they are. *)
Lemma apply_raw_other s m tv s' m' f :
  apply_raw s m tv = Some (s', m') → f ∈ s' → rec_typ f ≠ tv.1 → f ∈ s.
Proof.
  unfold apply_raw. destruct (list_find _ s) as [[i g]|] eqn:Hf; [|by intros [= <- <-]].
  apply list_find_Some in Hf as (Hi & Hg & _). simpl in Hg.
  destruct (run_decoder _ _ _) as [x [[|]|]]; [|done..].
  intros [= <- <-] [j Hj]%list_elem_of_lookup_1 Hne.
  destruct (decide (j = i)) as [->|].
  - rewrite list_lookup_insert_eq in Hj by (by eapply lookup_lt_Some). injection Hj as <-.
    simpl in Hne. congruence.
  - rewrite list_lookup_insert_ne in Hj by done. by eapply list_elem_of_lookup_2.
Qed.

Lemma stream_of_cons tv l :
  stream_of (tv :: l) = write_var_int tv.1 ++ write_var_int (raw_length tv) ++ tv.2 ++ stream_of l.
Proof. unfold stream_of. simpl. unfold emit. by rewrite <-!(assoc_L (++)). Qed.

Lemma read_stream_cons tv l :
  in_u64 tv.1 →
  read_var_int (stream_of (tv :: l)) =
  Ok (tv.1, write_var_int (raw_length tv) ++ tv.2 ++ stream_of l).
Proof.
  intros Htv. apply read_var_int_Ok. split; [done|]. apply stream_of_cons.
Qed.

(** The conditions of the loop at the next type. *)
Lemma apply_raw_next s m tv s1 m1 idx :
  ascending s → (∀ j f, (j < idx)%nat → s !! j = Some f → rec_typ f < tv.1) →
  (∀ f, f ∈ s → tv.1 ≤ rec_typ f → splits f) → apply_raw s m tv = Some (s1, m1) →
  ascending s1 ∧
  (∀ j f, (j < (get_record s tv.1 idx).2)%nat → s1 !! j = Some f → rec_typ f < tv.1 + 1) ∧
  (∀ f, f ∈ s1 → tv.1 + 1 ≤ rec_typ f → splits f).
Proof.
  intros Hs Hidx Hsplit Ha. pose proof (apply_raw_types _ _ _ _ _ Ha) as Hty.
  split; [by eapply same_types_ascending|]. split.
  - intros j f Hj Hf. destruct (same_types_lookup _ _ _ _ Hty Hf) as (g & Hg & <-).
    destruct (get_record_spec s tv.1 idx Hs Hidx) as [Hle _]. specialize (Hle j g Hj Hg). lia.
  - intros f Hf Hge. apply Hsplit; [|lia]. eapply apply_raw_other; [done..|lia].
Qed.

Lemma decode_loop_Ok p2p s' m' fuel : ∀ s idx lb r m,
  (length r < fuel)%nat → ascending s → 0 ≤ lb ≤ 2 ^ 64 →
  (∀ j f, (j < idx)%nat → s !! j = Some f → rec_typ f < lb) →
  (∀ f, f ∈ s → lb ≤ rec_typ f → splits f) →
  decode_loop fuel s idx (order_at lb) r m p2p = (s', Ok m') ↔
  ∃ l, canonical_from (record_limit p2p) lb l ∧ r = stream_of l ∧ apply_all s m l = Some (s', m').
Proof.
  induction fuel as [|fuel IH]; intros s idx lb r m Hfuel Hs Hlb Hidx Hsplit; [lia|]. simpl.
  assert (∀ typ, lb ≤ typ → (∀ j f, (j < idx)%nat → s !! j = Some f → rec_typ f < typ) ∧
    (∀ f, f ∈ s → typ ≤ rec_typ f → splits f)) as Hbound.
  { intros typ Ht. split; [intros j f Hj Hf; specialize (Hidx j f Hj Hf); lia|].
    intros f Hf Hge. apply Hsplit; [done | lia]. }
  split.
  - destruct (read_var_int r) as [[typ r1]|e] eqn:Hr.
    2: { destruct e; try done. intros [= <- <-]. apply read_var_int_EOF in Hr as ->. by exists []. }
    apply read_var_int_Ok in Hr as [Ht ->]. rewrite order_at_bad by done.
    destruct (Z.ltb_spec typ lb) as [Hlt|Hge]; [done|]. rewrite order_at_next by in_range.
    destruct (Hbound typ Hge) as [Hidx' Hsplit'].
    destruct (decode_record s idx typ r1 m p2p) as [s1 [[[r2 m1] idx1]|]] eqn:Hd; [|done]. intros Hl.
    apply (decode_record_Ok s idx typ r1 m p2p s1 r2 m1 idx1 Hs Hidx' Hsplit') in Hd
      as (v & Hv & -> & Ha & ->).
    destruct (apply_raw_next s m (typ, v) s1 m1 idx Hs Hidx' Hsplit' Ha)
      as (Hs1 & Hidx1 & Hsplit1).
    pose proof (write_var_int_nonempty typ). rewrite !length_app in Hfuel.
    apply IH in Hl as (l & Hc & -> & Hl); [|lia|done|in_range|done|done].
    exists ((typ, v) :: l). simpl. rewrite Ha. split; [split; [in_range | done]|].
    split; [|done]. by rewrite stream_of_cons.
  - intros ([|tv l] & Hc & -> & Ha).
    { simpl in *. by injection Ha as <- <-. }
    destruct Hc as (Ht & Hv & Hc). rewrite read_stream_cons by in_range.
    rewrite order_at_bad by in_range. rewrite (proj2 (Z.ltb_ge _ _)) by lia.
    rewrite order_at_next by in_range. simpl in Ha.
    destruct (apply_raw s m tv) as [[s1 m1]|] eqn:Hraw; [|done].
    destruct (Hbound tv.1) as [Hidx' Hsplit']; [lia|].
    destruct (apply_raw_next _ _ _ _ _ idx Hs Hidx' Hsplit' Hraw)
      as (Hs1 & Hidx1 & Hsplit1).
    rewrite (proj2 (decode_record_Ok s idx tv.1 _ m p2p s1 (stream_of l) m1 (get_record s tv.1 idx).2
      Hs Hidx' Hsplit')).
    2: { exists tv.2. destruct tv. done. }
    apply IH; [|done|lia|done|done|by exists l].
    rewrite stream_of_cons, !length_app in Hfuel.
    pose proof (write_var_int_nonempty tv.1). lia.
Qed.

(** ** Well-formed records *)

(** A record whose codecs keep their promise on its value, and whose size is
    that of its encoding. *)
Definition record_ok (f : record) : Prop :=
  in_u64 (rec_typ f) ∧
  ∃ dom e d, Codec dom e d ∧ rec_encoder f = Some e ∧ rec_decoder f = Some d ∧
    dom (rec_value f) ∧ ∀ b, e (rec_value f) = Ok b → Z.of_nat (length b) = size f.

Lemma record_ok_splits f : record_ok f → splits f.
Proof.
  intros (_ & dom & e & d & C & He & Hd & Hdom & _) r l v r' Hl. unfold run_decoder. rewrite Hd.
  rewrite codec_exact by done. split.
  - intros (Hv & b & Hb & -> & Hlb). exists b. split; [done|]. split; [done|].
    apply codec_exact; [done..|]. split; [done|]. exists b. by rewrite app_nil_r.
  - intros (b & -> & Hlb & Hb). apply codec_exact in Hb as (Hv & b' & Hb' & -> & Hlb'); [|done..].
    split; [done|]. exists b'. by rewrite app_nil_r.
Qed.

Lemma new_stream_from s : Forall (λ f, in_u64 (rec_typ f)) s → ∀ lb o, 0 ≤ lb ≤ 2 ^ 64 →
  fold_result (λ o f, ensure (negb (type_order_bad o (rec_typ f))) else ErrStreamNotCanonical;
    Ok (type_order_next o (rec_typ f))) s (order_at lb) = Ok o →
  ascending s ∧ Forall (λ f, lb ≤ rec_typ f) s.
Proof.
  induction 1 as [|f s Hf Hs IH]; intros lb o Hlb Ho; [by split; constructor|]. simpl in Ho.
  rewrite order_at_bad in Ho by done. destruct (Z.ltb_spec (rec_typ f) lb) as [|Hge]; [done|].
  simpl in Ho. rewrite order_at_next in Ho by in_range.
  apply IH in Ho as [Ha Hmin]; [|in_range].
  split; (constructor; [first [done | simpl; lia]|]); (eapply Forall_impl; [done|]; simpl; lia).
Qed.

Lemma new_stream_ascending s s' :
  Forall (λ f, in_u64 (rec_typ f)) s → new_stream s = Ok s' → s' = s ∧ ascending s.
Proof.
  intros Hs H. unfold new_stream in H. apply rbind_Ok in H as (o & Ho & [= <-]). split; [done|].
  by apply (new_stream_from s Hs 0 o).
Qed.

(** The loop ends before its fuel, and calls no nil decoder. *)
Definition decoder_safe (f : record) : Prop := ∀ r l, no_panic (run_decoder f r l).2.

Lemma record_ok_safe f : record_ok f → decoder_safe f.
Proof.
  intros (_ & dom & e & d & C & _ & Hd & _) r l. unfold run_decoder. rewrite Hd.
  by eapply codec_error.
Qed.

Lemma decode_loop_safe p2p fuel : ∀ s idx lb r m,
  (length r < fuel)%nat → ascending s → 0 ≤ lb ≤ 2 ^ 64 →
  (∀ j f, (j < idx)%nat → s !! j = Some f → rec_typ f < lb) →
  (∀ f, f ∈ s → lb ≤ rec_typ f → splits f ∧ decoder_safe f) →
  no_panic (decode_loop fuel s idx (order_at lb) r m p2p).2.
Proof.
  induction fuel as [|fuel IH]; intros s idx lb r m Hfuel Hs Hlb Hidx Hok; [lia|]. simpl.
  pose proof (read_var_int_no_panic r) as Hnp.
  destruct (read_var_int r) as [[typ r1]|e] eqn:Hr; [|by destruct e].
  apply read_var_int_Ok in Hr as [Ht ->]. rewrite order_at_bad by done.
  destruct (Z.ltb_spec typ lb) as [Hlt|Hge]; [done|]. rewrite order_at_next by in_range.
  assert (∀ j f, (j < idx)%nat → s !! j = Some f → rec_typ f < typ) as Hidx'.
  { intros j f Hj Hf. specialize (Hidx j f Hj Hf). lia. }
  assert (∀ f, f ∈ s → typ ≤ rec_typ f → splits f) as Hsplit'.
  { intros f Hf Hle. apply Hok; [done | lia]. }
  destruct (decode_record s idx typ r1 m p2p) as [s1 [[[r2 m1] idx1]|e]] eqn:Hd.
  - apply (decode_record_Ok s idx typ r1 m p2p s1 r2 m1 idx1 Hs Hidx' Hsplit') in Hd
      as (v & Hv & -> & Ha & ->).
    destruct (apply_raw_next s m (typ, v) s1 m1 idx Hs Hidx' Hsplit' Ha) as (Hs1 & Hidx1 & Hsplit1).
    pose proof (write_var_int_nonempty typ). rewrite !length_app in Hfuel.
    apply IH; [lia | done | in_range | done |]. intros f Hf Hle. split; [by apply Hsplit1|].
    simpl in Hle. apply Hok; [|lia]. eapply apply_raw_other; [done..|simpl; lia].
  - simpl. change (no_panic (@Err _ unit e)). unfold decode_record in Hd.
    pose proof (read_var_int_no_panic r1) as Hnp1. apply no_panic_eof in Hnp1.
    destruct (map_err _ (read_var_int r1)) as [[len r2]|e1]; [|injection Hd as _ <-; by destruct e1].
    destruct (p2p && _); [by injection Hd as _ <-|]. destruct (2 ^ 63 - 1 <? len); [by injection Hd as _ <-|].
    destruct (get_record_spec s typ idx Hs Hidx') as [_ Hget].
    destruct (list_find _ s) as [[i f]|] eqn:Hf.
    + rewrite Hget in Hd. apply list_find_Some in Hf as (Hi & Hft & _). simpl in Hft.
      destruct (Hok f) as [_ Hsafe]; [by eapply list_elem_of_lookup_2 | lia |].
      specialize (Hsafe r2 len). destruct (run_decoder f r2 len) as [x res].
      apply no_panic_eof in Hsafe. simpl in Hsafe. destruct (map_err _ res) as [|e1]; [done|].
      injection Hd as _ <-. by destruct e1.
    + destruct (get_record s typ idx) as [g new]. simpl in Hget. subst g.
      pose proof (copy_n_no_panic len r2) as Hc. apply no_panic_eof in Hc.
      destruct (map_err _ (copy_n len r2)) as [[]|e1]; [done|]. injection Hd as _ <-. by destruct e1.
Qed.

(** The order of types is that of the initial loop. *)
Lemma decode_Ok s r m p2p s' m' :
  ascending s → Forall record_ok s →
  decode_ s r m p2p = (s', Ok m') ↔
  ∃ l, canonical_from (record_limit p2p) 0 l ∧ r = stream_of l ∧ apply_all s m l = Some (s', m').
Proof.
  intros Hs Hok. unfold decode_. change type_order_start with (order_at 0).
  apply decode_loop_Ok; [lia | done | lia | lia |].
  intros f Hf _. apply record_ok_splits. by eapply Forall_forall in Hok.
Qed.

End TlvProps.
