(* ===== verification/TlvStreams.v ===== *)
(** * What the TLV package promises

    Variable-length and truncated integers are minimal and read back; the codecs
    of the primitive types are typed; the decoder of a stream is its reference;
    a stream is read back from its encoding. [DBigSize], which does not look at
    a record's length, and codecs that are nil are the exceptions. *)

From S2P Require Import Prelude Tlv TlvProps.

(** The documented values, and one public key. *)
Definition toy_key : bytes := replicate 33 Byte.x02.

#[export] Instance toy_tlv_prims : TlvPrims := {|
  pubkey := unit;
  parse_pub_key b := if be_decode b =? be_decode toy_key then Some tt else None;
  serialize_compressed _ := toy_key;
  var_int_serialize_size v :=
    if v <? 0xfd then 1 else if v <=? 0xffff then 3 else if v <=? 0xffffffff then 5 else 9 |}.

#[export] Instance toy_tlv_laws : TlvLaws.
Proof.
  split; [intros []; simpl; by rewrite Z.eqb_refl | done | | done].
  intros b [] H Hb. simpl in H. destruct (Z.eqb_spec (be_decode b) (be_decode toy_key)) as [E|]; [|done].
  rewrite <-(be_encode_decode b 33), E by done. symmetry. by apply be_encode_decode.
Qed.

Section Streams.
Context `{P : TlvPrims}.

(** ** The primitive types *)

(** A value of the source's type: an integer in its range, an array of its
    length. *)
Definition value_ok (v : value) : Prop :=
  match v with
  | VNil => False
  | VBool _ | VPubKey _ => True
  | VUint8 i => in_u8 i
  | VUint16 i => in_u16 i
  | VUint32 i => in_u32 i
  | VUint64 i => in_u64 i
  | VBytes32 b => length b = 32%nat
  | VBytes33 b => length b = 33%nat
  | VBytes64 b => length b = 64%nat
  | VVarBytes b => Z.of_nat (length b) < 2 ^ 63
  end.

Definition same_kind (v w : value) : Prop :=
  match v, w with
  | VBool _, VBool _ | VUint8 _, VUint8 _ | VUint16 _, VUint16 _ | VUint32 _, VUint32 _
  | VUint64 _, VUint64 _ | VBytes32 _, VBytes32 _ | VBytes33 _, VBytes33 _
  | VBytes64 _, VBytes64 _ | VPubKey _, VPubKey _ | VVarBytes _, VVarBytes _ => True
  | _, _ => False
  end.

Lemma primitive_codec `{!TlvLaws} typ val f :
  value_ok val → make_primitive_record typ val = Some f →
  rec_typ f = typ ∧ rec_value f = val ∧
  ∃ dom e d, rec_encoder f = Some e ∧ rec_decoder f = Some d ∧ Codec dom e d ∧
    (∀ v, dom v ↔ value_ok v ∧ same_kind val v) ∧
    ∀ b, e val = Ok b → Z.of_nat (length b) = size f.
Proof.
  intros Hv Hf.
  destruct val; simpl in Hf; try done; injection Hf as <-; (do 2 (split; [done|]));
    do 3 eexists; (do 2 (split; [reflexivity|])); (split; [apply _|]);
    (split; [intros w; unfold bool_dom, pub_key_dom, var_bytes_dom, uint_dom, array_dom;
       split; [intros Hx; destruct w; first [by destruct Hx | by destruct Hx as (x & Hx & ?)
               |split; [destruct Hx as (x & [= ->] & ?); assumption | done] | done]
              |intros [Hw Hk]; destruct w; try done; simpl in *; by eauto]
    |intros b' [= <-]; unfold size; simpl in *;
     rewrite ?be_encode_length, ?serialize_length, ?Hv; try done]).
  unfold size_var_bytes. by rewrite u64_small by in_range.
Qed.

Lemma primitive_record_ok `{!TlvLaws} typ val f :
  in_u64 typ → value_ok val → make_primitive_record typ val = Some f → record_ok f.
Proof.
  intros Ht Hv Hf. unfold record_ok.
  destruct (primitive_codec typ val f Hv Hf) as (-> & Hval & dom & e & d & He & Hd & C & Hdom & Hsz).
  split; [done|]. exists dom, e, d. rewrite Hval. split; [done|]. split; [done|]. split; [done|].
  split; [|done]. apply Hdom. split; [done|]. by destruct val.
Qed.

Lemma canonical_from_types lim lb tv l : 0 ≤ lb → canonical_from lim lb (tv :: l) → in_u64 tv.1.
Proof. intros H ((H1 & H2) & _). in_range. Qed.

Lemma stream_of_inj p2p l : ∀ lb l', 0 ≤ lb →
  canonical_from (record_limit p2p) lb l → canonical_from (record_limit p2p) lb l' →
  stream_of l = stream_of l' → l = l'.
Proof.
  assert (∀ tv l, stream_of (tv :: l) ≠ []) as Hne.
  { intros tv l0 E. apply (f_equal length) in E. rewrite stream_of_cons, length_app in E.
    pose proof (write_var_int_nonempty tv.1). simpl in E. lia. }
  assert (record_limit p2p < 2 ^ 64) as Hlim by (destruct p2p; done).
  induction l as [|tv l IH]; intros lb [|tv' l'] Hlb Hc Hc' E; [done|by exfalso; eapply Hne..|].
  pose proof (f_equal read_var_int E) as R.
  rewrite !read_stream_cons in R by (by eapply canonical_from_types).
  destruct Hc as (Ht & Hv & Hc), Hc' as (Ht' & Hv' & Hc').
  injection R as Ety R.
  assert (in_u64 (raw_length tv) ∧ in_u64 (raw_length tv')) as [Hl Hl'].
  { unfold raw_length in *. split; in_range. }
  pose proof (f_equal read_var_int R) as R1.
  rewrite !read_write_var_int in R1 by done.
  injection R1 as El R1. apply app_inj_1 in R1 as [E2 R1]; [|unfold raw_length in El; lia].
  rewrite (IH (tv'.1 + 1) l'); [|lia|by rewrite <-Ety|done|done].
  f_equal. destruct tv, tv'. simpl in *. congruence.
Qed.

(** ** Encoding and decoding back *)

(** [g] receives what [f] sends: one codec, other variables. *)
Definition receives (f g : record) : Prop :=
  rec_typ g = rec_typ f ∧
  ∃ dom e d, Codec dom e d ∧ rec_encoder f = Some e ∧ rec_decoder g = Some d ∧
    dom (rec_value f) ∧ dom (rec_value g) ∧
    ∀ b, e (rec_value f) = Ok b → Z.of_nat (length b) = size f.

(** The record on the wire. *)
Definition raw_of (f : record) : raw_record :=
  (rec_typ f, match run_encoder f with Ok b => b | Err _ => [] end).

Lemma receives_raw f g :
  receives f g → ∃ b, run_encoder f = Ok b ∧ Z.of_nat (length b) = size f ∧
    run_decoder g b (Z.of_nat (length b)) = (rec_value f, Ok []).
Proof.
  intros (_ & dom & e & d & C & He & Hd & Hf & Hg & Hsz). unfold run_encoder, run_decoder.
  rewrite He, Hd. destruct (codec_total _ Hf) as [b Hb]. exists b. split; [done|].
  split; [by apply Hsz|]. apply codec_exact; [done | lia|]. split; [done|]. exists b.
  by rewrite app_nil_r.
Qed.

Lemma encode_stream s t b :
  Forall2 receives s t → encode s = Ok b →
  b = stream_of (map raw_of s) ∧ Forall (λ f, raw_length (raw_of f) = size f) s.
Proof.
  intros Hst. unfold encode. change (stream_of (map raw_of s)) with ([] ++ stream_of (map raw_of s)).
  generalize (@nil byte) as w. induction Hst as [|f g s t Hfg Hst IH]; intros w; simpl.
  - intros [= <-]. by rewrite app_nil_r.
  - destruct (receives_raw f g Hfg) as (bf & Hb & Hlen & _).
    assert (raw_of f = (rec_typ f, bf)) as Hraw by (unfold raw_of; by rewrite Hb).
    rewrite Hb. simpl. intros H. apply IH in H as [-> Hall]. split.
    + rewrite stream_of_cons, Hraw. unfold raw_length. simpl. rewrite Hlen.
      by rewrite <-!(assoc_L (++)).
    + constructor; [|done]. unfold raw_length. by rewrite Hraw.
Qed.

Lemma apply_raw_skip g t m tv :
  rec_typ g ≠ tv.1 →
  apply_raw (g :: t) m tv = (λ p, (g :: p.1, p.2)) <$> apply_raw t m tv.
Proof.
  intros Hne. unfold apply_raw. simpl. rewrite decide_False by done.
  destruct (list_find _ t) as [[i f]|]; simpl; [|done].
  by destruct (run_decoder f tv.2 (raw_length tv)) as [x [[|]|]].
Qed.

Lemma apply_all_skip g t m l :
  Forall (λ tv, rec_typ g ≠ tv.1) l →
  apply_all (g :: t) m l = (λ p, (g :: p.1, p.2)) <$> apply_all t m l.
Proof.
  intros Hl. revert t m. induction Hl as [|tv l Htv Hl IH]; intros t m; simpl; [done|].
  rewrite apply_raw_skip by done. destruct (apply_raw t m tv) as [[t1 m1]|]; simpl; [|done].
  apply IH.
Qed.

Lemma raw_of_canonical lim s : ascending s → Forall (λ f, in_u64 (rec_typ f)) s →
  Forall (λ f, raw_length (raw_of f) ≤ lim) s →
  ∀ lb, Forall (λ f, lb ≤ rec_typ f) s → canonical_from lim lb (map raw_of s).
Proof.
  induction 1 as [|f s Ha IH Hf]; intros Ht Hl lb Hlb; simpl; [done|].
  apply Forall_cons in Ht as [Ht Hts]. apply Forall_cons in Hl as [Hl Hls].
  apply Forall_cons in Hlb as [Hlb Hlbs]. split; [in_range|]. split; [done|]. apply IH; [done..|].
  eapply Forall_impl; [exact Hf|]. unfold raw_of. simpl. lia.
Qed.

(** The types that were parsed. *)
Definition parsed (s : list record) (m : type_map) : type_map :=
  foldl (λ m f, <[rec_typ f := None]> m) m s.

Lemma apply_all_receives s t m :
  Forall2 receives s t → ascending s →
  ∃ t', apply_all t (Some m) (map raw_of s) = Some (t', Some (parsed s m)) ∧
    map rec_value t' = map rec_value s.
Proof.
  intros Hst. revert m. induction Hst as [|f g s t Hfg Hst IH]; intros m Ha; simpl; [by exists []|].
  apply StronglySorted_inv in Ha as [Ha Hf].
  destruct (receives_raw f g Hfg) as (b & Hb & _ & Hd).
  assert (raw_of f = (rec_typ f, b)) as -> by (unfold raw_of; by rewrite Hb).
  unfold apply_raw. simpl. destruct Hfg as [Hty _]. rewrite decide_True by done. simpl.
  change (raw_length (rec_typ f, b)) with (Z.of_nat (length b)). rewrite Hd. simpl.
  rewrite apply_all_skip.
  - destruct (IH (<[rec_typ f := None]> m) Ha) as (t' & -> & Hv). eexists. split; [reflexivity|].
    simpl. by rewrite Hv.
  - apply Forall_map. eapply Forall_impl; [done|]. intros h Hh. simpl in *. lia.
Qed.

(** The records of a map. *)
Definition map_record (kv : Z * bytes) : record :=
  make_static_record kv.1 VNil (u64 (Z.of_nat (length kv.2))) (Some (stub_encoder kv.2)) None.

Lemma map_to_records_spec m f :
  f ∈ map_to_records m ↔ ∃ k x, m !! k = Some x ∧ f = map_record (k, x).
Proof.
  unfold map_to_records, sort_records. rewrite (merge_sort_Permutation _ _).
  rewrite list_elem_of_fmap. split.
  - intros ([k x] & -> & Hkx). apply elem_of_map_to_list in Hkx. by exists k, x.
  - intros (k & x & Hk & ->). exists (k, x). by rewrite elem_of_map_to_list.
Qed.

(** ** Theorems *)

(** C39: A primitive record is typed: its encoder never fails and writes as many
    bytes as the record's size says; what its decoder returns is a value of the
    same type, and the bytes it read are exactly that value's encoding. *)
Theorem primitive_records_typed `{!TlvLaws} typ val f :
  value_ok val → make_primitive_record typ val = Some f →
  (∃ b, run_encoder f = Ok b ∧ Z.of_nat (length b) = size f) ∧
  ∀ r l v r', 0 ≤ l → run_decoder f r l = (v, Ok r') →
    value_ok v ∧ same_kind val v ∧
    ∃ g b, make_primitive_record typ v = Some g ∧ run_encoder g = Ok b ∧
      r = b ++ r' ∧ Z.of_nat (length b) = l.
Proof.
  intros Hv Hf.
  destruct (primitive_codec typ val f Hv Hf) as (_ & Hval & dom & e & d & He & Hd & C & Hdom & Hsz).
  assert (dom val) as Hdv by (apply Hdom; split; [done | by destruct val]).
  unfold run_encoder, run_decoder. rewrite He, Hd, Hval. split.
  - destruct (codec_total val Hdv) as [b Hb]. eauto.
  - intros r l v r' Hl Hdec. apply codec_exact in Hdec as (Hdom' & b & Hb & -> & Hlb); [|done..].
    apply Hdom in Hdom' as [Hv' Hk]. split; [done|]. split; [done|].
    assert (∃ g, make_primitive_record typ v = Some g ∧ rec_value g = v ∧ rec_encoder g = Some e)
      as (g & Hg & Hgv & Hge).
    { destruct val, v; try done; simpl in *; simplify_eq/=; eauto. }
    exists g, b. by rewrite Hge, Hgv.
Qed.

(** A truncated integer is decoded exactly from the shortest bytes that hold
    it, at the length its size function gives. *)
Lemma tuint64_minimal r l w v r' :
  0 ≤ l → in_u64 w →
  d_tuint64 r (VUint64 w) l = (VUint64 v, Ok r') ↔
  in_u64 v ∧ l = size_tuint64 v ∧
  ∃ b, e_tuint64 (VUint64 v) = Ok b ∧ r = b ++ r' ∧ Z.of_nat (length b) = l ∧
    be_decode b = v ∧ ∀ b', be_decode b' = v → (length b ≤ length b')%nat.
Proof.
  intros Hl Hw.
  assert (∀ v b, in_u64 v → e_tuint64 (VUint64 v) = Ok b →
    Z.of_nat (length b) = size_tuint64 v ∧ be_decode b = v ∧
    ∀ b', be_decode b' = v → (length b ≤ length b')%nat) as Hmin.
  { clear. intros v b Hv [= <-]. destruct (size_tuint64_sized v) as [Hs Hle]; [in_range|].
    assert (num_leading_zero_bytes64 v = 8 - size_tuint64 v) as ->.
    { unfold size_tuint64. rewrite u64_small; [lia|].
      unfold num_leading_zero_bytes64. repeat case_match; in_range. }
    change 8 with (Z.of_nat 8). rewrite drop_zeros by (done || (destruct Hs; simpl in *; lia)).
    destruct Hs as (H0 & Hv' & Hmin). rewrite be_encode_length, Z2Nat.id by done.
    split; [done|]. split; [apply be_decode_encode; by rewrite Z2Nat.id|].
    intros b' Hb'. pose proof (be_decode_range b') as Hr. rewrite Hb' in Hr.
    destruct (decide (0 < size_tuint64 v)); [|lia]. specialize (Hmin ltac:(lia)).
    destruct (decide (Z.of_nat (length b') ≤ size_tuint64 v - 1)); [|lia].
    assert (2 ^ (8 * Z.of_nat (length b')) ≤ 2 ^ (8 * (size_tuint64 v - 1)))
      by (apply Z.pow_le_mono_r; lia). lia. }
  rewrite (codec_exact (Codec := tuint64_codec)) by (done || by exists w). split.
  - intros ((i & [= <-] & Hi) & b & Hb & -> & Hlb). destruct (Hmin v b Hi Hb) as (Hsz & Hd & Hmb).
    split; [done|]. split; [congruence|]. by exists b.
  - intros (Hv & -> & b & Hb & -> & Hlb & _). split; [by exists v|]. by exists b.
Qed.

(** A variable-length integer is read exactly where its encoding stands, so
    that no integer has two encodings, and a clean end is reported only at the
    end of the input; a truncated integer is decoded exactly from the shortest
    bytes that hold it, at the length its size function gives. *)
Theorem integers_canonical r :
  (∀ v r', read_var_int r = Ok (v, r') ↔ in_u64 v ∧ r = write_var_int v ++ r') ∧
  (read_var_int r = Err EOF ↔ r = []) ∧
  (∀ l w v r', 0 ≤ l → in_u64 w →
    d_tuint64 r (VUint64 w) l = (VUint64 v, Ok r') ↔
    in_u64 v ∧ l = size_tuint64 v ∧
    ∃ b, e_tuint64 (VUint64 v) = Ok b ∧ r = b ++ r' ∧ Z.of_nat (length b) = l ∧
      be_decode b = v ∧ ∀ b', be_decode b' = v → (length b ≤ length b')%nat).
Proof.
  split; [apply read_var_int_Ok|]. split; [apply read_var_int_EOF|].
  intros l w v r'. apply tuint64_minimal.
Qed.

(** C37: For a stream whose records have 64-bit types and lawful codecs
    ([record_ok]: the decoder takes what the encoder of the type makes, of the
    length that it was given, and nothing else, and the record's variable is a
    value of the type), the decoder is equivalent to its
    reference: the bytes are those of a list of records with ascending types and
    lengths within the limit, and each known record's codec takes its value; there
    is at most one such list. The decoder never panics and never runs on. The
    primitive records of [primitive_records_typed] are lawful; big-size records
    and records without codecs are not ([big_size_length_ignored],
    [nil_decoder_panics]). *)
Theorem decode_is_reference s0 s r m p2p :
  Forall record_ok s0 → new_stream s0 = Ok s →
  (∀ s' m', decode_ s r m p2p = (s', Ok m') ↔
    ∃ l, canonical_from (record_limit p2p) 0 l ∧ r = stream_of l ∧ apply_all s m l = Some (s', m')) ∧
  (∀ l l', canonical_from (record_limit p2p) 0 l → canonical_from (record_limit p2p) 0 l' →
    stream_of l = stream_of l' → l = l') ∧
  no_panic (decode_ s r m p2p).2.
Proof.
  intros Hok Hs. apply new_stream_ascending in Hs as [-> Ha].
  2: { eapply Forall_impl; [done|]. by intros f [Hf _]. }
  split; [intros; by apply decode_Ok|]. split; [intros; by eapply stream_of_inj|].
  unfold decode_. change type_order_start with (order_at 0).
  apply decode_loop_safe; [lia | done | lia | lia |].
  intros f Hf _. rewrite Forall_forall in Hok. split; [apply record_ok_splits | apply record_ok_safe]; auto.
Qed.

(** C38: What one side encodes the other decodes: the variables of its records
    get the values of the sender's, and every type is reported as parsed. *)
Theorem stream_round_trip s0 s t0 t b p2p :
  Forall record_ok s0 → new_stream s0 = Ok s → Forall record_ok t0 → new_stream t0 = Ok t →
  Forall2 receives s t → Forall (λ f, size f ≤ record_limit p2p) s → encode s = Ok b →
  ∃ t', decode_ t b (Some ∅) p2p = (t', Ok (Some (parsed s ∅))) ∧ map rec_value t' = map rec_value s.
Proof.
  intros Hs0 Hs Ht0 Ht Hst Hsz Hb.
  assert (Forall (λ f, in_u64 (rec_typ f)) s0) as Htys.
  { eapply Forall_impl; [done|]. by intros f [Hf _]. }
  apply new_stream_ascending in Hs as [-> Ha]; [|done].
  apply new_stream_ascending in Ht as [-> Hat].
  2: { eapply Forall_impl; [done|]. by intros f [Hf _]. }
  destruct (encode_stream s0 t0 b Hst Hb) as [-> Hlen].
  destruct (apply_all_receives s0 t0 ∅ Hst Ha) as (t' & Happ & Hv).
  exists t'. split; [|done]. apply decode_Ok; [done..|]. eexists. split; [|by split].
  apply raw_of_canonical; [done..| |eapply Forall_impl; [exact Htys|]; by intros f [Hf _]].
  eapply Forall_impl; [apply Forall_and; split; [exact Hlen | exact Hsz]|].
  simpl. by intros f [-> H].
Qed.

(** The length of a record whose decoder is [DBigSize] is not compared with
    what is read: whatever the length field says, the stream is accepted. *)
Theorem big_size_length_ignored typ v len :
  in_u64 typ → in_u64 v → 0 ≤ len ≤ max_record_size →
  decode_p2p [make_big_size_record typ (VUint64 0)]
    (write_var_int typ ++ write_var_int len ++ write_var_int v) =
  ([set_value (make_big_size_record typ (VUint64 0)) (VUint64 v)], Ok tt).
Proof.
  intros Ht Hv Hlen. unfold decode_p2p, decode_. unfold max_record_size in Hlen.
  change type_order_start with (order_at 0).
  pose proof (write_var_int_nonempty typ) as Hne.
  destruct (length (write_var_int typ ++ _)) as [|n] eqn:En; [rewrite length_app in En; lia|].
  set (m := S n). cbn [decode_loop]. rewrite read_write_var_int by done.
  rewrite order_at_bad by (done || lia). rewrite (proj2 (Z.ltb_ge _ _)) by apply Ht.
  unfold decode_record. rewrite read_write_var_int by in_range. cbn [map_err].
  unfold max_record_size. rewrite !(proj2 (Z.ltb_ge _ len)) by lia.
  unfold get_record. simpl. rewrite Z.eqb_refl. unfold run_decoder. simpl.
  rewrite <-(app_nil_r (write_var_int v)), read_write_var_int by done. done.
Qed.

(** [NewStream] leaves a nil codec as it is: a stream of records that
    [MapToRecords] made panics when it decodes one of their types. *)
Theorem nil_decoder_panics m typ s p2p parsed_types v :
  is_Some (m !! typ) → map_Forall (λ k _, in_u64 k) m →
  new_stream (map_to_records m) = Ok s → raw_length (typ, v) ≤ record_limit p2p →
  ∃ s', decode_ s (stream_of [(typ, v)]) parsed_types p2p = (s', Err PanicNilCodec).
Proof.
  intros [b Hb] Hm Hs Hlen. pose proof (Hm _ _ Hb) as Ht. simpl in Ht.
  apply new_stream_ascending in Hs as [-> Ha].
  2: { apply Forall_forall. intros f Hf. apply map_to_records_spec in Hf as (k & x & Hk & ->).
       by apply (Hm k x). }
  unfold decode_. change type_order_start with (order_at 0). cbn [decode_loop].
  rewrite read_stream_cons by done. rewrite order_at_bad by (done || lia).
  rewrite (proj2 (Z.ltb_ge _ _)) by apply Ht. unfold decode_record. cbn [fst snd].
  assert (in_u64 (raw_length (typ, v))) as Hl64.
  { unfold raw_length, record_limit, max_record_size in *. destruct p2p; in_range. }
  rewrite read_write_var_int by done. cbn [map_err].
  assert ((p2p && (max_record_size <? raw_length (typ, v))) = false ∧
    (2 ^ 63 - 1 <? raw_length (typ, v)) = false) as [-> ->].
  { unfold record_limit, max_record_size in *. destruct p2p; simpl; lia. }
  destruct (get_record_spec (map_to_records m) typ 0 Ha) as [_ Hget]; [lia|].
  destruct (list_find _ (map_to_records m)) as [[i f]|] eqn:Hf.
  - rewrite Hget. apply list_find_Some in Hf as (Hi & _).
    apply list_elem_of_lookup_2, map_to_records_spec in Hi as (k & x & _ & ->).
    simpl. eauto.
  - apply list_find_None in Hf. rewrite Forall_forall in Hf.
    edestruct (Hf (map_record (typ, b))); [apply map_to_records_spec; eauto | done].
Qed.
End Streams.

(** ** Witnesses *)

Definition sample_records (i : Z) (b : bytes) : list record :=
  omap id [make_primitive_record 1 (VUint16 i); make_primitive_record 4 (VVarBytes b)].

Lemma sample_records_ok i b :
  in_u16 i → Z.of_nat (length b) < 2 ^ 63 → Forall record_ok (sample_records i b).
Proof.
  intros Hi Hb. constructor; [|constructor; [|constructor]].
  - by apply (primitive_record_ok 1 (VUint16 i)); [in_range| |].
  - by apply (primitive_record_ok 4 (VVarBytes b)); [in_range| |].
Qed.

Lemma sample_receives i j b c :
  in_u16 i → in_u16 j → Z.of_nat (length b) < 2 ^ 63 → Z.of_nat (length c) < 2 ^ 63 →
  Forall2 receives (sample_records i b) (sample_records j c).
Proof.
  intros Hi Hj Hb Hc. constructor; [|constructor; [|constructor]]; (split; [done|]).
  - exists (uint_dom 2 VUint16), e_uint16, d_uint16. split; [apply _|]. do 2 (split; [done|]).
    split; [by exists i|]. split; [by exists j|]. intros b' [= <-]. by rewrite be_encode_length.
  - exists var_bytes_dom, e_var_bytes, d_var_bytes. split; [apply _|]. do 2 (split; [done|]).
    split; [by exists b|]. split; [by exists c|]. intros b' [= <-].
    unfold size. simpl. by rewrite u64_small by in_range.
Qed.

Lemma primitive_records_typed_witness :
  ∃ f, make_primitive_record 1 (VUint16 515) = Some f ∧
    (∃ b, run_encoder f = Ok b ∧ Z.of_nat (length b) = size f) ∧
    ∀ r l v r', 0 ≤ l → run_decoder f r l = (v, Ok r') →
      value_ok v ∧ same_kind (VUint16 515) v ∧
      ∃ g b, make_primitive_record 1 v = Some g ∧ run_encoder g = Ok b ∧
        r = b ++ r' ∧ Z.of_nat (length b) = l.
Proof.
  eexists. split; [reflexivity|].
  apply (primitive_records_typed 1 (VUint16 515)); [simpl; in_range | reflexivity].
Defined.

Lemma integers_canonical_witness :
  d_tuint64 [Byte.x02; Byte.x03; Byte.xff] (VUint64 0) 2 = (VUint64 515, Ok [Byte.xff]).
Proof.
  apply (integers_canonical [Byte.x02; Byte.x03; Byte.xff]); [lia | in_range|].
  split; [in_range|]. split; [reflexivity|]. exists [Byte.x02; Byte.x03].
  split; [reflexivity|]. split; [reflexivity|]. split; [reflexivity|]. split; [reflexivity|].
  intros [|x [|y b']] H; [done| |simpl; lia].
  pose proof (be_decode_range [x]) as Hr. rewrite H in Hr. simpl in Hr. lia.
Defined.

Definition sample_raw : list raw_record := [(1, [Byte.x02; Byte.x03]); (3, [Byte.x09])].
Definition sample_types : type_map := {[1 := None; 3 := Some [Byte.x09]]}.

Lemma decode_is_reference_witness :
  ∃ s', decode_ (sample_records 0 []) (stream_of sample_raw) (Some ∅) true =
      (s', Ok (Some sample_types)) ∧
    map rec_value s' = [VUint16 515; VVarBytes []].
Proof.
  assert (match apply_all (sample_records 0 []) (Some ∅) sample_raw with
    | Some (s', Some m') => bool_decide (m' = sample_types) &&
        match map rec_value s' with [VUint16 i; VVarBytes []] => i =? 515 | _ => false end
    | _ => false
    end = true) as H by (vm_compute; reflexivity).
  destruct (apply_all _ _ _) as [[s' [m'|]]|] eqn:Ha; [|done..].
  apply andb_prop in H as [Hm Hv]. apply bool_decide_eq_true in Hm as ->. exists s'.
  split; [|repeat case_match; try done; apply Z.eqb_eq in Hv; by subst].
  refine (proj2 (proj1 (decode_is_reference (sample_records 0 []) (sample_records 0 [])
    (stream_of sample_raw) (Some ∅) true _ _) _ _) _).
  - apply sample_records_ok; [in_range | done].
  - reflexivity.
  - exists sample_raw. split; [repeat split; vm_compute; congruence|]. split; [reflexivity|].
    exact Ha.
Defined.

Lemma stream_round_trip_witness :
  ∃ b t', encode (sample_records 515 [Byte.x07]) = Ok b ∧
    decode_ (sample_records 0 []) b (Some ∅) true =
      (t', Ok (Some (parsed (sample_records 515 [Byte.x07]) ∅))) ∧
    map rec_value t' = [VUint16 515; VVarBytes [Byte.x07]].
Proof.
  destruct (stream_round_trip (sample_records 515 [Byte.x07]) (sample_records 515 [Byte.x07])
    (sample_records 0 []) (sample_records 0 [])
    [Byte.x01; Byte.x02; Byte.x02; Byte.x03; Byte.x04; Byte.x01; Byte.x07] true) as (t' & H & Hv).
  - apply sample_records_ok; [in_range | done].
  - reflexivity.
  - apply sample_records_ok; [in_range | done].
  - reflexivity.
  - apply sample_receives; [in_range | in_range | done | done].
  - repeat constructor; vm_compute; congruence.
  - reflexivity.
  - exists [Byte.x01; Byte.x02; Byte.x02; Byte.x03; Byte.x04; Byte.x01; Byte.x07], t'.
    split; [reflexivity|]. split; [exact H | exact Hv].
Defined.

Lemma big_size_length_ignored_witness :
  decode_p2p [make_big_size_record 1 (VUint64 0)]
    (write_var_int 1 ++ write_var_int 200 ++ write_var_int 7) =
  ([set_value (make_big_size_record 1 (VUint64 0)) (VUint64 7)], Ok tt).
Proof. apply (big_size_length_ignored 1 7 200); [in_range | in_range | vm_compute; split; congruence]. Defined.

Lemma nil_decoder_panics_witness :
  ∃ s', decode_ (map_to_records {[7 := [Byte.x01]]}) (stream_of [(7, [Byte.x01])]) None false =
    (s', Err PanicNilCodec).
Proof.
  apply (nil_decoder_panics {[7 := [Byte.x01]]} 7 (map_to_records {[7 := [Byte.x01]]}) false None [Byte.x01]).
  - by eexists.
  - apply map_Forall_singleton. in_range.
  - reflexivity.
  - vm_compute. congruence.
Defined.
