(* ===== verification/Features.v ===== *)
(** * Feature vectors (lnwire/features.go, feature/deps.go)

    A feature vector is a set of bits, [uint16] each; an even bit is required,
    the odd bit after it optional. Here are the bits this node knows, the
    operations on vectors, their encodings, the check of a vector's
    dependencies and [SetBit], which sets a bit with all it depends on.

    A [range] over a Go map visits the keys in no fixed order; here it is the
    order of [elements], and what a loop returns on success does not depend on
    it. *)

From S2P Require Import Prelude.

(** ** The assigned bits *)

Definition data_loss_protect_required : Z := 0.
Definition data_loss_protect_optional : Z := 1.
Definition initial_routing_sync : Z := 3.
Definition upfront_shutdown_script_required : Z := 4.
Definition upfront_shutdown_script_optional : Z := 5.
Definition gossip_queries_required : Z := 6.
Definition gossip_queries_optional : Z := 7.
Definition tlv_onion_payload_required : Z := 8.
Definition tlv_onion_payload_optional : Z := 9.
Definition static_remote_key_required : Z := 12.
Definition static_remote_key_optional : Z := 13.
Definition payment_addr_required : Z := 14.
Definition payment_addr_optional : Z := 15.
Definition mpp_required : Z := 16.
Definition mpp_optional : Z := 17.
Definition wumbo_channels_required : Z := 18.
Definition wumbo_channels_optional : Z := 19.
Definition anchors_required : Z := 20.
Definition anchors_optional : Z := 21.
Definition anchors_zero_fee_htlc_tx_required : Z := 22.
Definition anchors_zero_fee_htlc_tx_optional : Z := 23.
Definition route_blinding_required : Z := 24.
Definition route_blinding_optional : Z := 25.
Definition shutdown_any_segwit_required : Z := 26.
Definition shutdown_any_segwit_optional : Z := 27.
Definition amp_required : Z := 30.
Definition amp_optional : Z := 31.
Definition quiescence_required : Z := 34.
Definition quiescence_optional : Z := 35.
Definition explicit_channel_type_required : Z := 44.
Definition explicit_channel_type_optional : Z := 45.
Definition scid_alias_required : Z := 46.
Definition scid_alias_optional : Z := 47.
Definition payment_metadata_required : Z := 48.
Definition payment_metadata_optional : Z := 49.
Definition zero_conf_required : Z := 50.
Definition zero_conf_optional : Z := 51.
Definition keysend_required : Z := 54.
Definition keysend_optional : Z := 55.
Definition rbf_coop_close_required : Z := 60.
Definition rbf_coop_close_optional : Z := 61.
Definition splice_required : Z := 62.
Definition splice_optional : Z := 63.
Definition rbf_coop_close_required_staging : Z := 160.
Definition rbf_coop_close_optional_staging : Z := 161.
Definition script_enforced_lease_required : Z := 2022.
Definition script_enforced_lease_optional : Z := 2023.
Definition simple_taproot_channels_required_final : Z := 80.
Definition simple_taproot_channels_optional_final : Z := 81.
Definition simple_taproot_channels_required_staging : Z := 180.
Definition simple_taproot_channels_optional_staging : Z := 181.
Definition blake2b_required : Z := 512.
Definition blake2b_optional : Z := 513.
Definition unified_sigs_required : Z := 514.
Definition unified_sigs_optional : Z := 515.
Definition independent_secrets_required : Z := 266.
Definition independent_secrets_optional : Z := 267.
Definition experimental_accountability_required : Z := 260.
Definition experimental_accountability_optional : Z := 261.
Definition bolt11_blinded_paths_required : Z := 262.
Definition bolt11_blinded_paths_optional : Z := 263.
Definition simple_taproot_overlay_chans_optional : Z := 2025.
Definition simple_taproot_overlay_chans_required : Z := 2026.
Definition onion_messages_required : Z := 38.
Definition onion_messages_optional : Z := 39.
Definition max_bolt11_feature : Z := 5114.

(** [Features]: the known bits and their names. *)
Definition features : gmap Z string := list_to_map [
  (data_loss_protect_required, "data-loss-protect");
  (data_loss_protect_optional, "data-loss-protect");
  (initial_routing_sync, "initial-routing-sync");
  (upfront_shutdown_script_required, "upfront-shutdown-script");
  (upfront_shutdown_script_optional, "upfront-shutdown-script");
  (gossip_queries_required, "gossip-queries");
  (gossip_queries_optional, "gossip-queries");
  (tlv_onion_payload_required, "tlv-onion");
  (tlv_onion_payload_optional, "tlv-onion");
  (static_remote_key_optional, "static-remote-key");
  (static_remote_key_required, "static-remote-key");
  (payment_addr_optional, "payment-addr");
  (payment_addr_required, "payment-addr");
  (mpp_optional, "multi-path-payments");
  (mpp_required, "multi-path-payments");
  (anchors_required, "anchor-commitments");
  (anchors_optional, "anchor-commitments");
  (anchors_zero_fee_htlc_tx_required, "anchors-zero-fee-htlc-tx");
  (anchors_zero_fee_htlc_tx_optional, "anchors-zero-fee-htlc-tx");
  (wumbo_channels_required, "wumbo-channels");
  (wumbo_channels_optional, "wumbo-channels");
  (amp_required, "amp");
  (amp_optional, "amp");
  (quiescence_required, "quiescence");
  (quiescence_optional, "quiescence");
  (payment_metadata_optional, "payment-metadata");
  (payment_metadata_required, "payment-metadata");
  (explicit_channel_type_optional, "explicit-commitment-type");
  (explicit_channel_type_required, "explicit-commitment-type");
  (keysend_optional, "keysend");
  (keysend_required, "keysend");
  (script_enforced_lease_required, "script-enforced-lease");
  (script_enforced_lease_optional, "script-enforced-lease");
  (scid_alias_required, "scid-alias");
  (scid_alias_optional, "scid-alias");
  (zero_conf_required, "zero-conf");
  (zero_conf_optional, "zero-conf");
  (route_blinding_required, "route-blinding");
  (route_blinding_optional, "route-blinding");
  (shutdown_any_segwit_required, "shutdown-any-segwit");
  (shutdown_any_segwit_optional, "shutdown-any-segwit");
  (simple_taproot_channels_required_final, "simple-taproot-chans");
  (simple_taproot_channels_optional_final, "simple-taproot-chans");
  (simple_taproot_channels_required_staging, "simple-taproot-chans-x");
  (simple_taproot_channels_optional_staging, "simple-taproot-chans-x");
  (simple_taproot_overlay_chans_optional, "taproot-overlay-chans");
  (simple_taproot_overlay_chans_required, "taproot-overlay-chans");
  (blake2b_required, "blake2b");
  (blake2b_optional, "blake2b");
  (unified_sigs_required, "unified-sigs");
  (unified_sigs_optional, "unified-sigs");
  (independent_secrets_required, "independent-secrets");
  (independent_secrets_optional, "independent-secrets");
  (experimental_accountability_required, "accountable-x");
  (experimental_accountability_optional, "accountable-x");
  (bolt11_blinded_paths_optional, "bolt-11-blinded-paths");
  (bolt11_blinded_paths_required, "bolt-11-blinded-paths");
  (rbf_coop_close_optional, "rbf-coop-close");
  (splice_required, "splice");
  (splice_optional, "splice");
  (rbf_coop_close_required, "rbf-coop-close");
  (rbf_coop_close_optional_staging, "rbf-coop-close-x");
  (rbf_coop_close_required_staging, "rbf-coop-close-x");
  (onion_messages_optional, "onion-messages");
  (onion_messages_required, "onion-messages")].

(** ** Raw vectors *)

Inductive feature_error :=
| ErrFeaturePairExists
| ErrFeatureStandard (bit : Z)
| ErrFeatureBitMaximum (bit : Z)
| ErrFeatureEOF.

Definition raw_feature_vector : Type := gset Z.

Definition is_required (b : Z) : bool := Z.land b 1 =? 0.

Definition is_set (fv : raw_feature_vector) (feature : Z) : bool := bool_decide (feature ∈ fv).
Definition set_ (fv : raw_feature_vector) (feature : Z) : raw_feature_vector := {[feature]} ∪ fv.
Definition unset (fv : raw_feature_vector) (feature : Z) : raw_feature_vector := fv ∖ {[feature]}.
Definition safe_set (fv : raw_feature_vector) (feature : Z) : result feature_error raw_feature_vector :=
  if is_set fv (Z.lxor feature 1) then Err ErrFeaturePairExists else Ok (set_ fv feature).

Definition new_raw_feature_vector (bits : list Z) : raw_feature_vector := foldl set_ ∅ bits.
Definition clone (fv : raw_feature_vector) : raw_feature_vector := foldl set_ ∅ (elements fv).
Definition is_empty (fv : raw_feature_vector) : bool := Z.of_nat (size fv) =? 0.
Definition num_features (fv : raw_feature_vector) : Z := Z.of_nat (size fv).

Definition only_contains (fv : raw_feature_vector) (bits : list Z) : bool :=
  if negb (Z.of_nat (length bits) =? Z.of_nat (size fv)) then false
  else forallb (is_set fv) bits.

Definition equals (fv other : raw_feature_vector) : bool :=
  if negb (Z.of_nat (size fv) =? Z.of_nat (size other)) then false
  else forallb (is_set other) (elements fv).

Definition merge (fv other : raw_feature_vector) : result feature_error raw_feature_vector :=
  fold_result safe_set (elements other) fv.

Definition validate_pairs (fv : raw_feature_vector) : result feature_error unit :=
  fold_result (λ _ feature, ensure (negb (is_set fv (Z.lxor feature 1))) else ErrFeaturePairExists; Ok tt)
    (elements fv) tt.

(** The two loops of [ValidateUpdate]. *)
Definition check_added (fv : raw_feature_vector) (maximum : Z) (_ : unit) (feature : Z) :
    result feature_error unit :=
  if is_set fv feature then Ok tt
  else if feature >? maximum then Err (ErrFeatureBitMaximum feature)
  else match features !! feature with Some _ => Err (ErrFeatureStandard feature) | None => Ok tt end.

Definition check_removed (other : raw_feature_vector) (_ : unit) (feature : Z) :
    result feature_error unit :=
  if is_set other feature then Ok tt
  else match features !! feature with Some _ => Err (ErrFeatureStandard feature) | None => Ok tt end.

Definition validate_update (fv other : raw_feature_vector) (maximum : Z) :
    result feature_error unit :=
  let* _ := fold_result (check_added fv maximum) (elements other) tt in
  fold_result (check_removed other) (elements fv) tt.

(** ** Encodings *)

Definition serialize_size_width (fv : raw_feature_vector) (width : Z) : Z :=
  let max := foldl (λ max feature, if feature >? max then feature else max) (-1) (elements fv) in
  if max =? -1 then 0 else max / width + 1.

Definition serialize_size (fv : raw_feature_vector) : Z := serialize_size_width fv 8.
Definition serialize_size32 (fv : raw_feature_vector) : Z := serialize_size_width fv 5.

(** [data[length-byteIndex-1] |= 1 << bitIndex] *)
Definition put_bit (length width : Z) (data : bytes) (feature : Z) : bytes :=
  alter (λ x, byte.of_Z (Z.lor (byte.unsigned x) (Z.shiftl 1 (feature mod width))))
    (Z.to_nat (length - feature / width - 1)) data.

Definition encode_width (fv : raw_feature_vector) (length width : Z) : bytes :=
  foldl (put_bit length width) (replicate (Z.to_nat length) Byte.x00) (elements fv).

Definition encode (fv : raw_feature_vector) : bytes :=
  let length := serialize_size fv in
  be_encode 2 (u16 length) ++ encode_width fv length 8.
Definition encode_base256 (fv : raw_feature_vector) : bytes := encode_width fv (serialize_size fv) 8.
Definition encode_base32 (fv : raw_feature_vector) : bytes := encode_width fv (serialize_size32 fv) 5.

(** The loop of [decode] over the bit numbers. *)
Definition get_data_bit (length width : Z) (data : bytes) (fv : raw_feature_vector) (i : nat) :
    raw_feature_vector :=
  let byte_index := Z.of_nat i / width in
  let bit_index := Z.of_nat i mod width in
  match data !! Z.to_nat (length - byte_index - 1) with
  | Some x => if Z.land (Z.shiftr (byte.unsigned x) bit_index) 1 =? 1 then set_ fv (Z.of_nat i) else fv
  | None => fv
  end.

(** [decode] adds the bits it reads to the receiver; the reader is the bytes
    left. *)
Definition decode_width (fv : raw_feature_vector) (r : bytes) (length width : Z) :
    result feature_error (raw_feature_vector * bytes) :=
  match read_n (Z.to_nat length) r with
  | None => Err ErrFeatureEOF
  | Some (data, r) =>
      Ok (foldl (get_data_bit length width data) fv (seq 0 (Z.to_nat (length * width))), r)
  end.

Definition decode (fv : raw_feature_vector) (r : bytes) :
    result feature_error (raw_feature_vector * bytes) :=
  match read_n 2 r with
  | None => Err ErrFeatureEOF
  | Some (l, r) => decode_width fv r (be_decode l) 8
  end.
Definition decode_base256 (fv : raw_feature_vector) (r : bytes) (length : Z) :=
  decode_width fv r length 8.
Definition decode_base32 (fv : raw_feature_vector) (r : bytes) (length : Z) :=
  decode_width fv r length 5.

(** ** Vectors with names *)

Record feature_vector := FeatureVector {
  fv_raw : raw_feature_vector;
  feature_names : gmap Z string;
}.

Definition is_known (fv : feature_vector) (bit : Z) : bool :=
  match feature_names fv !! bit with Some _ => true | None => false end.

Definition is_feature_bit_pair (fv : feature_vector) (bit : Z) : bool :=
  match feature_names fv !! bit, feature_names fv !! Z.lxor bit 1 with
  | Some name1, Some name2 => bool_decide (name1 = name2)
  | _, _ => false
  end.

Definition has_feature (fv : feature_vector) (feature : Z) : bool :=
  is_set (fv_raw fv) feature ||
  (is_feature_bit_pair fv feature && is_set (fv_raw fv) (Z.lxor feature 1)).

Definition requires_feature (fv : feature_vector) (feature : Z) : bool :=
  let feature := if negb (is_required feature) then Z.lxor feature 1 else feature in
  is_set (fv_raw fv) feature.

Definition unknown_required_features (fv : feature_vector) : list Z :=
  List.filter (λ feature, (feature mod 2 =? 0) && negb (is_known fv feature)) (elements (fv_raw fv)).

Definition unknown_features (fv : feature_vector) : bool :=
  existsb (λ feature, negb (is_known fv feature)) (elements (fv_raw fv)).

Definition name (fv : feature_vector) (bit : Z) : string :=
  match feature_names fv !! bit with Some n => n | None => "unknown"%string end.

Definition clone_vector (fv : feature_vector) : feature_vector :=
  FeatureVector (clone (fv_raw fv)) (feature_names fv).

(** ** Dependencies (feature/deps.go) *)

Definition map_to_optional (bit : Z) : Z := if is_required bit then Z.lxor bit 1 else bit.
Definition map_to_required (bit : Z) : Z := if is_required bit then bit else Z.lxor bit 1.

Definition deps : gmap Z (list Z) := list_to_map [
  (payment_addr_optional, [tlv_onion_payload_optional]);
  (mpp_optional, [payment_addr_optional]);
  (anchors_optional, [static_remote_key_optional]);
  (anchors_zero_fee_htlc_tx_optional, [static_remote_key_optional]);
  (amp_optional, [payment_addr_optional]);
  (explicit_channel_type_optional, []);
  (script_enforced_lease_optional, [explicit_channel_type_optional; anchors_zero_fee_htlc_tx_optional]);
  (keysend_optional, [tlv_onion_payload_optional]);
  (zero_conf_optional, [scid_alias_optional]);
  (simple_taproot_channels_optional_staging, [anchors_zero_fee_htlc_tx_optional; explicit_channel_type_optional]);
  (simple_taproot_channels_optional_final, [anchors_zero_fee_htlc_tx_optional; explicit_channel_type_optional]);
  (simple_taproot_overlay_chans_optional,
     [simple_taproot_channels_optional_staging; tlv_onion_payload_optional; scid_alias_optional]);
  (route_blinding_optional, [tlv_onion_payload_optional]);
  (bolt11_blinded_paths_optional, [route_blinding_optional]);
  (unified_sigs_optional, [blake2b_optional]);
  (independent_secrets_optional, [explicit_channel_type_optional])].

(** [deps[bit]]: the empty set for a bit that is not in the map. *)
Definition deps_of (bit : Z) : list Z := default [] (deps !! bit).

Definition init_supported (fs : raw_feature_vector) : gmap Z bool :=
  foldl (λ m bit, <[map_to_optional bit := false]> m) ∅ (elements fs).

Inductive deps_error := ErrMissingFeatureDep (dep : Z) | DepsOutOfFuel.

(** [validateDeps]: the fuel bounds the depth of the recursion. *)
Fixpoint validate_deps_rec (fuel : nat) (fs : list Z) (supported : gmap Z bool) :
    result deps_error (gmap Z bool) :=
  match fuel with
  | O => Err DepsOutOfFuel
  | S fuel =>
      fold_result (λ supported bit,
        let bit := map_to_optional bit in
        match supported !! bit with
        | None => Err (ErrMissingFeatureDep bit)
        | Some true => Ok supported
        | Some false =>
            let* supported := validate_deps_rec fuel (deps_of bit) supported in
            Ok (<[bit := true]> supported)
        end) fs supported
  end.

(** The depth of the dependency table, and one call more. *)
Definition deps_depth : nat := 5.

Definition validate_deps (fv : feature_vector) : result deps_error unit :=
  let* _ := validate_deps_rec deps_depth (elements (fv_raw fv)) (init_supported (fv_raw fv)) in
  Ok tt.

(** [SetBit], on the bits of the vector. *)
Fixpoint set_bit_rec (fuel : nat) (fv : raw_feature_vector) (bit : Z) : raw_feature_vector :=
  match fuel with
  | O => fv
  | S fuel =>
      let opt_bit := map_to_optional bit in
      if negb (is_required bit) then
        let fv := match safe_set fv bit with Ok fv => fv | Err _ => fv end in
        foldl (set_bit_rec fuel) fv (deps_of opt_bit)
      else
        let fv := set_ (unset fv opt_bit) bit in
        foldl (λ fv dep_bit, set_bit_rec fuel (unset fv dep_bit) (map_to_required dep_bit))
          fv (deps_of opt_bit)
  end.

Definition set_bit (vector : feature_vector) (bit : Z) : feature_vector :=
  FeatureVector (set_bit_rec deps_depth (clone (fv_raw vector)) bit) (feature_names vector).

(** * The encodings *)

Definition vector_ok (fv : raw_feature_vector) : Prop := ∀ f, f ∈ fv → 0 ≤ f < 2 ^ 16.

Section Bits.
Variables (len width : Z).
Hypothesis Hw : 0 < width ≤ 8.
Hypothesis Hlen : 0 ≤ len.

(** Bit [f] of the data, as [decode] reads it. *)
Definition bit_at (data : bytes) (f : Z) : bool :=
  match data !! Z.to_nat (len - f / width - 1) with
  | Some x => Z.testbit (byte.unsigned x) (f mod width)
  | None => false
  end.

Lemma put_bit_length data f : length (put_bit len width data f) = length data.
Proof. apply length_alter. Qed.

Lemma testbit_or_byte x m n :
  0 ≤ m < 8 → 0 ≤ n < 8 →
  Z.testbit (byte.unsigned (byte.of_Z (Z.lor (byte.unsigned x) (Z.shiftl 1 m)))) n =
  Z.testbit (byte.unsigned x) n || (m =? n).
Proof.
  intros Hm Hn. rewrite byte.unsigned_of_Z. unfold byte.wrap.
  rewrite Z.mod_pow2_bits_low by lia. rewrite Z.lor_spec. f_equal.
  rewrite Z.shiftl_1_l, Z.pow2_bits_eqb by lia. done.
Qed.

Lemma bit_at_put data f g :
  length data = Z.to_nat len → 0 ≤ f → 0 ≤ g → f / width < len → g / width < len →
  bit_at (put_bit len width data f) g = bit_at data g || (f =? g).
Proof.
  intros Hd Hf Hg Hfl Hgl. unfold bit_at, put_bit.
  pose proof (Z.mod_pos_bound f width). pose proof (Z.mod_pos_bound g width).
  pose proof (Z.div_mod f width). pose proof (Z.div_mod g width).
  pose proof (Z.div_pos f width). pose proof (Z.div_pos g width).
  destruct (decide (f / width = g / width)) as [E | E].
  - rewrite E, list_lookup_alter_eq.
    destruct (data !! Z.to_nat (len - g / width - 1)) as [x|] eqn:Hx; cbn.
    + rewrite testbit_or_byte by lia. f_equal. destruct (f =? g) eqn:Efg; [|lia].
      apply Z.eqb_eq in Efg as ->. lia.
    + apply lookup_ge_None in Hx. lia.
  - rewrite list_lookup_alter_ne by lia. destruct (f =? g) eqn:Efg; [|by rewrite orb_false_r].
    apply Z.eqb_eq in Efg as ->. done.
Qed.

Definition fits (l : list Z) : Prop := ∀ f, f ∈ l → 0 ≤ f ∧ f / width < len.

Lemma bit_at_fold l data g :
  fits l → length data = Z.to_nat len → 0 ≤ g → g / width < len →
  bit_at (foldl (put_bit len width) data l) g = bit_at data g || bool_decide (g ∈ l).
Proof.
  revert data. induction l as [|f l IH]; intros data Hl Hd Hg Hgl; cbn [foldl].
  - rewrite bool_decide_false by apply not_elem_of_nil. by rewrite orb_false_r.
  - destruct (Hl f) as [Hf Hfl]; [by left|].
    rewrite IH; [|intros h Hh; apply Hl; by right | by rewrite put_bit_length | done | done].
    rewrite bit_at_put by done. rewrite <-orb_assoc. f_equal.
    destruct (f =? g) eqn:E.
    + apply Z.eqb_eq in E as ->. by rewrite (bool_decide_true (g ∈ g :: l)) by (by left).
    + cbn. apply bool_decide_ext. rewrite elem_of_cons. split; [by right | intros [-> | ?]; [lia | done]].
Qed.

Lemma encode_width_bit fv g :
  fits (elements fv) → 0 ≤ g → g / width < len →
  bit_at (encode_width fv len width) g = bool_decide (g ∈ fv).
Proof.
  intros Hf Hg Hgl. unfold encode_width.
  rewrite bit_at_fold by (done || by rewrite length_replicate).
  assert (bit_at (replicate (Z.to_nat len) Byte.x00) g = false) as ->.
  { unfold bit_at. destruct (_ !! _) eqn:E; [|done]. apply lookup_replicate in E as [-> _].
    apply Z.testbit_0_l. }
  cbn. apply bool_decide_ext. set_solver.
Qed.

Lemma encode_width_length fv : length (encode_width fv len width) = Z.to_nat len.
Proof.
  unfold encode_width.
  assert (∀ l data, length (foldl (put_bit len width) data l) = length data) as H.
  { induction l as [|f l IH]; intros data; [done|]. cbn. by rewrite IH, put_bit_length. }
  by rewrite H, length_replicate.
Qed.

Lemma get_data_bit_spec data fv i :
  get_data_bit len width data fv i = if bit_at data (Z.of_nat i) then set_ fv (Z.of_nat i) else fv.
Proof.
  unfold get_data_bit, bit_at. destruct (_ !! _) as [x|]; [|done].
  pose proof (Z.mod_pos_bound (Z.of_nat i) width).
  assert (Z.land (Z.shiftr (byte.unsigned x) (Z.of_nat i mod width)) 1 =
          Z.b2z (Z.testbit (byte.unsigned x) (Z.of_nat i mod width))) as ->.
  { change 1 with (Z.ones 1) at 1. rewrite Z.land_ones by lia.
    rewrite Z.shiftr_div_pow2 by lia. rewrite Z.testbit_spec' by lia. done. }
  by destruct (Z.testbit _ _).
Qed.

Lemma decode_fold data fv l g :
  g ∈ foldl (get_data_bit len width data) fv l ↔
  g ∈ fv ∨ ∃ i, i ∈ l ∧ g = Z.of_nat i ∧ bit_at data g = true.
Proof.
  revert fv. induction l as [|i l IH]; intros fv; cbn [foldl].
  - split; [by left | intros [? | (i & Hi & _)]; [done | by apply elem_of_nil in Hi]].
  - rewrite IH, get_data_bit_spec. unfold set_. split.
    + intros [H | (j & Hj & H)]; [|right; exists j; split; [by right | done]].
      destruct (bit_at data (Z.of_nat i)) eqn:E; [|by left].
      apply elem_of_union in H as [H | H]; [|by left]. apply elem_of_singleton in H as ->.
      right. exists i. split; [by left | done].
    + intros [H | (j & Hj & -> & Hb)].
      * left. destruct (bit_at data (Z.of_nat i)); [apply elem_of_union; by right | done].
      * apply elem_of_cons in Hj as [-> | Hj]; [left | right; by eauto].
        rewrite Hb. apply elem_of_union. left. by apply elem_of_singleton.
Qed.

Lemma decode_encode_width fv rest :
  fits (elements fv) →
  decode_width ∅ (encode_width fv len width ++ rest) len width = Ok (fv, rest).
Proof.
  intros Hf. unfold decode_width. rewrite read_n_app by apply encode_width_length.
  do 2 f_equal. apply set_eq. intros g. rewrite decode_fold. split.
  - intros [H | (i & Hi & -> & H)]; [by apply not_elem_of_empty in H|].
    apply elem_of_seq in Hi. rewrite encode_width_bit in H; [by apply bool_decide_eq_true in H | done | lia |].
    apply Z.div_lt_upper_bound; lia.
  - intros Hg. destruct (Hf g) as [Hg0 Hgl]; [set_solver|]. right. exists (Z.to_nat g).
    rewrite Z2Nat.id by done. split_and!; [|done|by rewrite encode_width_bit, bool_decide_true].
    apply elem_of_seq. pose proof (Z.div_mod g width). pose proof (Z.mod_pos_bound g width). nia.
Qed.
End Bits.

(** The size is that of the largest bit. *)
Lemma fold_max l m :
  let r := foldl (λ max feature, if feature >? max then feature else max) m l in
  m ≤ r ∧ (∀ f, f ∈ l → f ≤ r) ∧ (r = m ∨ r ∈ l).
Proof.
  revert m. induction l as [|f l IH]; intros m; cbn [foldl].
  - split_and!; [lia | intros f Hf; by apply elem_of_nil in Hf | by left].
  - specialize (IH (if f >? m then f else m)). rewrite Z.gtb_ltb in *.
    destruct (m <? f) eqn:E; destruct IH as (H1 & H2 & H3); split_and!; try lia.
    + intros g [-> | Hg]%elem_of_cons; [done | by apply H2].
    + right. destruct H3 as [-> | H3]; [by left | by right].
    + intros g [-> | Hg]%elem_of_cons; [lia | by apply H2].
    + destruct H3 as [-> | H3]; [by left | right; by right].
Qed.

Lemma serialize_size_spec fv width :
  vector_ok fv → 0 < width →
  (∀ f, f ∈ fv → f / width < serialize_size_width fv width) ∧
  0 ≤ serialize_size_width fv width ∧
  (serialize_size_width fv width = 0 ∨ ∃ f, f ∈ fv ∧ serialize_size_width fv width = f / width + 1).
Proof.
  intros Hok Hw. unfold serialize_size_width.
  destruct (fold_max (elements fv) (-1)) as (H1 & H2 & H3).
  set (m := foldl _ _ _) in *. destruct (m =? -1) eqn:E.
  - apply Z.eqb_eq in E. split_and!; [|lia | by left]. intros f Hf. pose proof (Hok f Hf).
    pose proof (H2 f ltac:(set_solver)). lia.
  - pose proof (Z.div_pos m width). split_and!.
    + intros f Hf. pose proof (H2 f ltac:(set_solver)). pose proof (Z.div_le_mono f m width). lia.
    + lia.
    + right. exists m. split; [|done]. destruct H3 as [H3 | H3]; [lia | set_solver].
Qed.

Lemma serialize_size_fits fv width :
  vector_ok fv → 0 < width → fits (serialize_size_width fv width) width (elements fv).
Proof.
  intros Hok Hw f Hf. destruct (serialize_size_spec fv width Hok Hw) as (H & _).
  assert (f ∈ fv) as Hf' by set_solver. split; [apply (Hok f Hf') | by apply H].
Qed.

(** C32: Every feature vector is read back from its encoding, with the length
    prefix or in base 256 or base 32, whatever follows it; and the encoding has
    the least number of bytes: its first byte is not zero. *)
Theorem vector_survives_encoding fv rest :
  vector_ok fv →
  decode ∅ (encode fv ++ rest) = Ok (fv, rest) ∧
  decode_base256 ∅ (encode_base256 fv ++ rest) (serialize_size fv) = Ok (fv, rest) ∧
  decode_base32 ∅ (encode_base32 fv ++ rest) (serialize_size32 fv) = Ok (fv, rest) ∧
  (encode_base256 fv = [] ∨ ∃ x data, encode_base256 fv = x :: data ∧ x ≠ Byte.x00).
Proof.
  intros Hok.
  destruct (serialize_size_spec fv 8 Hok ltac:(done)) as (Hs & H0 & Hm).
  destruct (serialize_size_spec fv 5 Hok ltac:(done)) as (Hs5 & H05 & _).
  pose proof (serialize_size_fits fv 8 Hok ltac:(done)) as F8.
  pose proof (serialize_size_fits fv 5 Hok ltac:(done)) as F5.
  unfold decode_base256, decode_base32, encode_base256, encode_base32, serialize_size, serialize_size32.
  split_and!.
  - assert (in_u16 (serialize_size_width fv 8)).
    { destruct Hm as [-> | (f & Hf & ->)]; [in_range|]. pose proof (Hok f Hf).
      assert (0 ≤ f / 8 < 2 ^ 13) by (split; [apply Z.div_pos; lia | apply Z.div_lt_upper_bound; lia]).
      in_range. }
    unfold decode, encode, serialize_size. rewrite u16_small by done.
    rewrite <-app_assoc, read_n_app by apply be_encode_length.
    rewrite be_decode_encode by in_range. by apply decode_encode_width.
  - by apply decode_encode_width.
  - by apply decode_encode_width.
  - set (L := serialize_size_width fv 8) in *.
    destruct (encode_width fv L 8) as [|x data] eqn:E; [by left|]. right. exists x, data. split; [done|].
    intros ->. destruct Hm as [Hm | (f & Hf & Hm)].
    + pose proof (encode_width_length L 8 fv) as Hl. rewrite E, Hm in Hl. done.
    + pose proof (Hok f Hf). pose proof (encode_width_bit L 8 ltac:(done) H0 fv f F8 ltac:(lia) (Hs f Hf)) as Hb.
      rewrite bool_decide_true in Hb by done. unfold bit_at in Hb. rewrite E in Hb.
      replace (L - f / 8 - 1) with 0 in Hb by lia.
      change (Z.testbit 0 (f mod 8) = true) in Hb. by rewrite Z.testbit_0_l in Hb.
Qed.

Lemma vector_survives_encoding_witness :
  decode ∅ (encode {[0; 15; 2025]} ++ [Byte.x07]) = Ok ({[0; 15; 2025]}, [Byte.x07]).
Proof.
  apply (vector_survives_encoding {[0; 15; 2025]}). intros f Hf.
  assert (f = 0 ∨ f = 15 ∨ f = 2025) as H by set_solver. lia.
Defined.

(** * The dependencies *)

(** The bit after the even one, or the odd bit itself: a feature, required or
    optional. *)
Definition has_either (fv : raw_feature_vector) (b : Z) : Prop := ∃ f, f ∈ fv ∧ map_to_optional f = b.

Definition depends (b d : Z) : Prop := ∃ e, e ∈ deps_of b ∧ map_to_optional e = d.

(** Every feature's direct dependencies are there, and so all of them. *)
Definition deps_closed (fv : raw_feature_vector) : Prop :=
  ∀ b d, has_either fv b → depends b d → has_either fv d.

(** The length of the longest chain of dependencies of a bit. *)
Fixpoint rank_rec (n : nat) (b : Z) : nat :=
  match n with
  | O => 0
  | S n => foldr Nat.max 0%nat (map (λ d, S (rank_rec n (map_to_optional d))) (deps_of b))
  end.
Definition rank (b : Z) : nat := rank_rec 4 b.

Definition table_ranked (kv : Z * list Z) : bool :=
  forallb (λ d, Nat.ltb (rank (map_to_optional d)) (rank kv.1) && Nat.leb (rank kv.1) 3 &&
                negb (is_required d)) kv.2.

Lemma table_ranked_all : forallb table_ranked (map_to_list deps) = true.
Proof. vm_compute. reflexivity. Qed.

Lemma deps_ranked b d :
  d ∈ deps_of b →
  (rank (map_to_optional d) < rank b)%nat ∧ (rank b ≤ 3)%nat ∧ is_required d = false.
Proof.
  unfold deps_of. destruct (deps !! b) as [ds|] eqn:E; cbn; [|intros H; by apply elem_of_nil in H].
  intros Hd. apply elem_of_map_to_list, list_elem_of_In in E.
  pose proof table_ranked_all as T. rewrite forallb_forall in T. specialize (T _ E).
  unfold table_ranked in T. rewrite forallb_forall in T. cbn in T.
  specialize (T d (proj1 (list_elem_of_In _ _) Hd)).
  apply andb_prop in T as [[T1%Nat.ltb_lt T2%Nat.leb_le]%andb_prop T3]. split_and!; try done.
  by destruct (is_required d).
Qed.

Lemma rank_small b : (rank b ≤ 3)%nat.
Proof.
  destruct (deps_of b) as [|d ds] eqn:E; [unfold rank; cbn; rewrite E; cbn; lia|].
  apply (deps_ranked b d). rewrite E. by left.
Qed.

(** What the recursion keeps of the memo: a bit is marked checked only with
    all its dependencies. *)
Definition memo_ok (sup : gmap Z bool) : Prop :=
  ∀ b d, sup !! b = Some true → depends b d → sup !! d = Some true.

Definition memo_le (sup sup' : gmap Z bool) : Prop :=
  (∀ b, sup' !! b = None ↔ sup !! b = None) ∧
  (∀ b, sup !! b = Some true → sup' !! b = Some true).

Lemma memo_le_refl sup : memo_le sup sup.
Proof. done. Qed.
Lemma memo_le_trans a b c : memo_le a b → memo_le b c → memo_le a c.
Proof.
  intros [H1 H2] [H3 H4]. split; [|by eauto]. intros x. by rewrite H3, H1.
Qed.

Definition deps_outcome (fs : list Z) (sup : gmap Z bool) (r : result deps_error (gmap Z bool)) : Prop :=
  match r with
  | Ok sup' => memo_ok sup' ∧ memo_le sup sup' ∧
               ∀ b, b ∈ fs → sup' !! map_to_optional b = Some true
  | Err (ErrMissingFeatureDep d) =>
      sup !! d = None ∧ ∃ b, b ∈ fs ∧ rtc depends (map_to_optional b) d
  | Err DepsOutOfFuel => False
  end.

Lemma validate_deps_rec_spec fuel fs sup :
  (∀ b, b ∈ fs → (rank (map_to_optional b) + 2 ≤ fuel)%nat) → (1 ≤ fuel)%nat → memo_ok sup →
  deps_outcome fs sup (validate_deps_rec fuel fs sup).
Proof.
  revert fs sup. induction fuel as [|fuel IHf]; [lia|].
  intros fs. induction fs as [|b fs IH]; intros sup Hr _ M.
  { cbn. split_and!; [done | apply memo_le_refl | intros b Hb; by apply elem_of_nil in Hb]. }
  assert (Hr' : ∀ c, c ∈ fs → (rank (map_to_optional c) + 2 ≤ S fuel)%nat)
    by (intros c Hc; apply Hr; by right).
  assert (Hb : (rank (map_to_optional b) + 2 ≤ S fuel)%nat) by (apply Hr; by left).
  (* the rest of the loop, from a memo that covers [b] *)
  assert (Hrest : ∀ sup1, memo_ok sup1 → memo_le sup sup1 →
    sup1 !! map_to_optional b = Some true →
    deps_outcome (b :: fs) sup (validate_deps_rec (S fuel) fs sup1)).
  { intros sup1 M1 L1 B1. specialize (IH sup1 Hr' ltac:(lia) M1).
    destruct (validate_deps_rec (S fuel) fs sup1) as [sup2|[d|]]; [| |done].
    - destruct IH as (M2 & L2 & H2). split_and!; [done | by eapply memo_le_trans |].
      intros c [-> | Hc]%elem_of_cons; [by apply L2 | by apply H2].
    - destruct IH as (Hd & c & Hc & Hp). split; [by apply L1|]. exists c. split; [by right | done]. }
  cbn [validate_deps_rec fold_result]. cbv zeta.
  destruct (sup !! map_to_optional b) as [[]|] eqn:E.
  - by apply Hrest; [| apply memo_le_refl |].
  - specialize (IHf (deps_of (map_to_optional b)) sup). destruct (decide (fuel = 0%nat)) as [->|Hf]; [lia|].
    assert (deps_outcome (deps_of (map_to_optional b)) sup
              (validate_deps_rec fuel (deps_of (map_to_optional b)) sup)) as H1.
    { apply IHf; [|lia | done]. intros d Hd. pose proof (proj1 (deps_ranked _ _ Hd)). lia. }
    destruct (validate_deps_rec fuel _ sup) as [sup1|[d|]]; cbn [rbind]; [| |done].
    + destruct H1 as (M1 & L1 & D1).
      assert (sup1 !! map_to_optional b ≠ None) as Hn by (intros Hn; apply L1 in Hn; congruence).
      apply Hrest.
      * intros x d Hx (e & He & <-). apply lookup_insert_Some.
        destruct (decide (map_to_optional b = map_to_optional e)) as [Heq|Heq]; [by left | right; split; [done|]].
        apply lookup_insert_Some in Hx as [[<- _] | [_ Hx]]; [by apply D1 | by eapply M1; [|exists e]].
      * split.
        -- intros x. destruct (decide (map_to_optional b = x)) as [<-|Hx].
           ++ rewrite lookup_insert_eq, E. done.
           ++ rewrite lookup_insert_ne by done. apply L1.
        -- intros x Hx. apply lookup_insert_Some. destruct (decide (map_to_optional b = x)); [by left|].
           right. split; [done | by apply L1].
      * apply lookup_insert_eq.
    + destruct H1 as (Hd & c & Hc & Hp). split; [done|]. exists b. split; [by left|].
      eapply rtc_l; [|exact Hp]. by exists c.
  - split; [done|]. exists b. split; [by left | done].
Qed.

Lemma init_supported_lookup fv b x :
  init_supported fv !! b = x ↔ (has_either fv b ∧ x = Some false) ∨ (¬ has_either fv b ∧ x = None).
Proof.
  unfold init_supported.
  assert (∀ l m, (foldl (λ m bit, <[map_to_optional bit := false]> m) m l : gmap Z bool) !! b =
    if decide (b ∈ map_to_optional <$> l) then Some false else m !! b) as H.
  { induction l as [|f l IH]; intros m; cbn [foldl fmap list_fmap]; [done|].
    rewrite IH. destruct (decide (b ∈ map_to_optional <$> l)) as [Hb|Hb].
    - rewrite decide_True by (by right). done.
    - destruct (decide (map_to_optional f = b)) as [<-|Hne].
      + rewrite lookup_insert_eq, decide_True by (by left). done.
      + rewrite lookup_insert_ne by done. rewrite decide_False; [done|].
        intros [->|?]%elem_of_cons; done. }
  rewrite H, lookup_empty.
  assert (b ∈ map_to_optional <$> elements fv ↔ has_either fv b) as Hi.
  { rewrite list_elem_of_fmap. unfold has_either. split; intros (f & H1 & H2); exists f; rewrite ?elem_of_elements in *; done. }
  destruct (decide _) as [Hd|Hd]; rewrite Hi in Hd; split; naive_solver.
Qed.

(** C30: [ValidateDeps] accepts a vector exactly when every feature's
    dependencies are set, required or optional, and so with them theirs. When
    it refuses, the bit it names is missing and a feature of the vector needs
    it, through any number of dependencies. It always decides: the recursion
    is as deep as the table of dependencies at most. *)
Theorem deps_checked fv :
  (validate_deps fv = Ok tt ↔ deps_closed (fv_raw fv)) ∧
  match validate_deps fv with
  | Ok _ => True
  | Err (ErrMissingFeatureDep d) =>
      ¬ has_either (fv_raw fv) d ∧ ∃ f, f ∈ fv_raw fv ∧ rtc depends (map_to_optional f) d
  | Err DepsOutOfFuel => False
  end.
Proof.
  unfold validate_deps. set (v := fv_raw fv).
  assert (memo_ok (init_supported v)) as M.
  { intros b d Hb. by apply init_supported_lookup in Hb as [[_ ?] | [_ ?]]. }
  assert (Hr : ∀ b, b ∈ elements v → (rank (map_to_optional b) + 2 ≤ deps_depth)%nat).
  { intros b _. pose proof (rank_small (map_to_optional b)). unfold deps_depth. lia. }
  pose proof (validate_deps_rec_spec deps_depth (elements v) (init_supported v) Hr
                ltac:(unfold deps_depth; lia) M) as H.
  destruct (validate_deps_rec _ _ _) as [sup|[d|]]; cbn [rbind deps_outcome] in *; [| |done].
  - destruct H as (M' & [L _] & H). split; [|done]. split; [intros _ | done].
    intros b d (f & Hf & <-) Hd. pose proof (H f (proj2 (elem_of_elements v f) Hf)) as Hb.
    pose proof (M' _ _ Hb Hd) as Hsd. destruct (init_supported v !! d) eqn:E.
    + by apply init_supported_lookup in E as [[? _] | [_ ?]].
    + apply L in E. congruence.
  - destruct H as (Hd & f & Hf & Hp).
    assert (¬ has_either v d) as Hnd by (by apply init_supported_lookup in Hd as [[_ ?] | [? _]]).
    apply elem_of_elements in Hf. split; [|split; [done | by exists f]].
    split; [done|]. intros Hc. exfalso. apply Hnd. revert Hp.
    assert (has_either v (map_to_optional f)) as Hh by (by exists f).
    revert Hh. generalize (map_to_optional f) as b. intros b Hh Hp.
    induction Hp as [|b c d Hbc _ IH]; [done|]. apply IH; [done..|]. by eapply Hc.
Qed.


(** ** [SetBit] *)

Lemma is_required_even b : is_required b = Z.even b.
Proof.
  unfold is_required. change 1 with (Z.ones 1). rewrite Z.land_ones by lia. change (2 ^ 1) with 2.
  rewrite Zmod_even. by destruct (Z.even b).
Qed.

Lemma lxor_even b : Z.even b = true → Z.lxor b 1 = b + 1.
Proof.
  intros H. symmetry. apply Z.add_nocarry_lxor.
  pose proof (is_required_even b) as E. rewrite H in E. unfold is_required in E. lia.
Qed.
Lemma lxor_odd b : Z.even b = false → Z.lxor b 1 = b - 1.
Proof.
  intros H. assert (Z.even (b - 1) = true) as H' by (rewrite Z.even_sub, H; done).
  replace b with (Z.lxor (b - 1) 1) at 1 by (rewrite lxor_even by done; lia).
  rewrite Z.lxor_assoc. by rewrite Z.lxor_nilpotent, Z.lxor_0_r.
Qed.

Lemma opt_odd b : Z.even (map_to_optional b) = false.
Proof.
  unfold map_to_optional. rewrite is_required_even. destruct (Z.even b) eqn:E; [|done].
  rewrite lxor_even by done. by rewrite Z.even_add, E.
Qed.
Lemma opt_of_odd b : Z.even b = false → map_to_optional b = b.
Proof. intros H. unfold map_to_optional. by rewrite is_required_even, H. Qed.
Lemma opt_of_even b : Z.even b = true → map_to_optional b = b + 1.
Proof. intros H. unfold map_to_optional. rewrite is_required_even, H. by apply lxor_even. Qed.
Lemma req_even b : Z.even (map_to_required b) = true.
Proof.
  unfold map_to_required. rewrite is_required_even. destruct (Z.even b) eqn:E; [done|].
  rewrite lxor_odd by done. by rewrite Z.even_sub, E.
Qed.
Lemma opt_req b : map_to_optional (map_to_required b) = map_to_optional b.
Proof.
  rewrite (opt_of_even (map_to_required b)) by apply req_even. unfold map_to_required.
  rewrite is_required_even. destruct (Z.even b) eqn:E.
  - by rewrite opt_of_even.
  - rewrite lxor_odd, opt_of_odd by done. lia.
Qed.
Lemma req_opt b : map_to_required (map_to_optional b) = map_to_required b.
Proof.
  unfold map_to_required at 1. rewrite is_required_even, opt_odd, lxor_odd by apply opt_odd.
  unfold map_to_required. rewrite is_required_even. destruct (Z.even b) eqn:E.
  - rewrite opt_of_even by done. lia.
  - by rewrite opt_of_odd, lxor_odd.
Qed.

(** What setting [bits], in this order, makes of a vector. *)
Record set_spec (reach : Z → Prop) (required : bool) (fv fv' : raw_feature_vector) : Prop := {
  set_keeps b : has_either fv b → has_either fv' b;
  set_adds d : reach d → has_either fv' d ∧ (required = true → map_to_required d ∈ fv');
  set_only b : has_either fv' b → has_either fv b ∨ reach b;
  set_required f : f ∈ fv → Z.even f = true → f ∈ fv';
}.

Definition reaches (bit : Z) : Z → Prop := rtc depends (map_to_optional bit).

Lemma set_spec_fold (f : raw_feature_vector → Z → raw_feature_vector) (required : bool) ds fv :
  (∀ fv d, d ∈ ds → set_spec (reaches d) required fv (f fv d)) →
  set_spec (λ x, ∃ d, d ∈ ds ∧ reaches d x) required fv (foldl f fv ds).
Proof.
  revert fv. induction ds as [|d ds IH]; intros fv H; cbn [foldl].
  - split; [done | | by left | done]. intros x (d & Hd & _). by apply elem_of_nil in Hd.
  - destruct (H fv d) as [K A O Q]; [by left|].
    destruct (IH (f fv d)) as [K' A' O' Q']; [intros ? ? ?; apply H; by right|]. split.
    + intros b Hb. by apply K', K.
    + intros x (e & [-> | He]%elem_of_cons & Hr); [|by apply A'; exists e].
      destruct (A x Hr) as [A1 A2]. split; [by apply K'|]. intros Hq. apply Q'; [by apply A2 | apply req_even].
    + intros b Hb. destruct (O' b Hb) as [Hb' | (e & He & Hr)].
      * destruct (O b Hb') as [? | Hr]; [by left | right; exists d; split; [by left | done]].
      * right. exists e. split; [by right | done].
    + intros g Hg He. apply Q'; [by apply Q | done].
Qed.

(** Setting the bit itself and then its dependencies. *)
Lemma set_spec_step bit required fv fv1 fv2 :
  set_spec (λ x, x = map_to_optional bit) required fv fv1 →
  set_spec (λ x, ∃ d, d ∈ deps_of (map_to_optional bit) ∧ reaches d x) required fv1 fv2 →
  set_spec (reaches bit) required fv fv2.
Proof.
  intros [K A O Q] [K' A' O' Q']. split.
  - intros b Hb. by apply K', K.
  - intros x Hx. unfold reaches in Hx. apply rtc_inv in Hx as [<- | (y & (d & Hd & <-) & Hr)].
    + destruct (A _ eq_refl) as [A1 A2]. split; [by apply K'|]. intros Hq. apply Q'; [by apply A2 | apply req_even].
    + apply A'. by exists d.
  - intros b Hb. destruct (O' b Hb) as [Hb' | (d & Hd & Hr)].
    + destruct (O b Hb') as [? | ->]; [by left | right; constructor].
    + right. eapply rtc_l; [|exact Hr]. by exists d.
  - intros f Hf He. apply Q'; [by apply Q | done].
Qed.

Lemma elem_set fv b f : f ∈ set_ fv b ↔ f = b ∨ f ∈ fv.
Proof. unfold set_. by rewrite elem_of_union, elem_of_singleton. Qed.
Lemma elem_unset fv b f : f ∈ unset fv b ↔ f ∈ fv ∧ f ≠ b.
Proof. unfold unset. by rewrite elem_of_difference, elem_of_singleton. Qed.

(** Setting a required bit in place of its optional form. *)
Lemma set_spec_required fv bit :
  Z.even bit = true →
  set_spec (λ x, x = map_to_optional bit) true fv (set_ (unset fv (map_to_optional bit)) bit).
Proof.
  intros E. split.
  - intros b (f & Hf & <-). destruct (decide (f = map_to_optional bit)) as [->|Hne].
    + exists bit. split; [apply elem_set; by left|].
      by rewrite (opt_of_odd (map_to_optional bit)) by apply opt_odd.
    + exists f. split; [apply elem_set; right; by apply elem_unset | done].
  - intros x ->. split; [exists bit; split; [apply elem_set; by left | done]|]. intros _.
    rewrite req_opt. unfold map_to_required. rewrite is_required_even, E. apply elem_set. by left.
  - intros b (f & [-> | [Hf _]%elem_unset]%elem_set & <-); [by right | left; by exists f].
  - intros f Hf He. apply elem_set. right. apply elem_unset. split; [done|].
    intros ->. by rewrite opt_odd in He.
Qed.

(** Setting an optional bit, unless it is set as required. *)
Lemma set_spec_optional fv bit :
  Z.even bit = false →
  set_spec (λ x, x = map_to_optional bit) false fv
    (match safe_set fv bit with Ok fv => fv | Err _ => fv end).
Proof.
  intros E. unfold safe_set, is_set. case_bool_decide as Hin.
  - split; [done | | by left | done]. intros x ->. split; [|done]. exists (Z.lxor bit 1). split; [done|].
    rewrite lxor_odd by done. rewrite opt_of_even by (by rewrite Z.even_sub, E).
    rewrite opt_of_odd by done. lia.
  - split.
    + intros b (f & Hf & <-). exists f. split; [apply elem_set; by right | done].
    + intros x ->. split; [exists bit; split; [apply elem_set; by left | done] | done].
    + intros b (f & [-> | Hf]%elem_set & <-); [by right | left; by exists f].
    + intros f Hf _. apply elem_set. by right.
Qed.

Lemma set_bit_rec_spec fuel fv bit :
  (rank (map_to_optional bit) + 1 ≤ fuel)%nat →
  set_spec (reaches bit) (is_required bit) fv (set_bit_rec fuel fv bit).
Proof.
  revert fv bit. induction fuel as [|fuel IH]; intros fv bit Hr; [lia|].
  cbn [set_bit_rec]. rewrite is_required_even. destruct (Z.even bit) eqn:E; cbn [negb].
  - eapply set_spec_step; [by apply set_spec_required|].
    apply set_spec_fold. intros fv1 d Hd. destruct (deps_ranked _ _ Hd) as (Hrk & _ & Ho).
    rewrite is_required_even in Ho.
    destruct (IH (unset fv1 d) (map_to_required d)) as [K A O Q]; [rewrite opt_req; lia|].
    rewrite is_required_even, req_even in A. unfold reaches in *. rewrite opt_req in *. split.
    + intros b (f & Hf & <-). destruct (decide (f = d)) as [->|Hne].
      * apply A. constructor.
      * apply K. exists f. split; [by apply elem_unset | done].
    + done.
    + intros b Hb. destruct (O b Hb) as [(f & [Hf _]%elem_unset & <-) | ?]; [left; by exists f | by right].
    + intros f Hf He. apply Q; [|done]. apply elem_unset. split; [done|]. intros ->. congruence.
  - eapply set_spec_step; [by apply set_spec_optional|]. apply set_spec_fold. intros fv1 d Hd.
    destruct (deps_ranked _ _ Hd) as (Hrk & _ & Ho). specialize (IH fv1 d ltac:(lia)). by rewrite Ho in IH.
Qed.

Lemma clone_eq fv : clone fv = fv.
Proof.
  unfold clone. assert (∀ l v, foldl set_ v l = v ∪ list_to_set l) as H.
  { induction l as [|f l IH]; intros v; cbn [foldl list_to_set].
    - by rewrite (right_id_L ∅ (∪)).
    - rewrite IH. unfold set_. by rewrite (comm_L (∪) {[f]} v), (assoc_L (∪)). }
  rewrite H, (left_id_L ∅ (∪)). apply list_to_set_elements_L.
Qed.

(** [SetBit] sets the bit with everything it depends on and nothing else:
    a vector whose dependencies are in order stays so; what was set is still
    set; a required bit is never turned into an optional one; and when the bit
    is required, it and all its dependencies end up required. *)
Theorem set_bit_closed fv bit :
  let fv' := set_bit fv bit in
  (deps_closed (fv_raw fv) → deps_closed (fv_raw fv')) ∧
  (∀ b, has_either (fv_raw fv') b ↔ has_either (fv_raw fv) b ∨ rtc depends (map_to_optional bit) b) ∧
  (∀ f, f ∈ fv_raw fv → Z.even f = true → f ∈ fv_raw fv') ∧
  (Z.even bit = true → ∀ b, rtc depends (map_to_optional bit) b → map_to_required b ∈ fv_raw fv').
Proof.
  intros fv'. unfold fv', set_bit. cbn [fv_raw]. rewrite clone_eq.
  destruct (set_bit_rec_spec deps_depth (fv_raw fv) bit) as [K A O Q].
  { pose proof (rank_small (map_to_optional bit)). unfold deps_depth. lia. }
  rewrite is_required_even in A. split_and!.
  - intros Hc b d Hb Hd. destruct (O b Hb) as [Hb' | Hr].
    + apply K. by eapply Hc.
    + apply A. unfold reaches. by eapply rtc_r.
  - intros b. split; [apply O|]. intros [Hb | Hr]; [by apply K | by apply A].
  - apply Q.
  - intros He b Hr. by apply A.
Qed.

Lemma set_bit_closed_witness :
  deps_closed (fv_raw (set_bit (FeatureVector ∅ features) script_enforced_lease_required)).
Proof.
  apply (set_bit_closed (FeatureVector ∅ features)). intros b d (f & Hf & _).
  by apply elem_of_empty in Hf.
Defined.

(** C31: The two bits of the taproot overlay channels, 2025 and 2026, are not
    a pair, as every other known feature's are: for the required bit nothing
    is checked, and setting it sets nothing else, where the optional bit needs
    the staging taproot channels and what they need. *)
Theorem overlay_bits_unpaired :
  Z.lxor simple_taproot_overlay_chans_required 1 ≠ simple_taproot_overlay_chans_optional ∧
  validate_deps (FeatureVector {[simple_taproot_overlay_chans_required]} features) = Ok tt ∧
  validate_deps (FeatureVector {[simple_taproot_overlay_chans_optional]} features) =
    Err (ErrMissingFeatureDep simple_taproot_channels_optional_staging) ∧
  fv_raw (set_bit (FeatureVector ∅ features) simple_taproot_overlay_chans_required) =
    {[simple_taproot_overlay_chans_required]} ∧
  (∀ b n, features !! b = Some n → b ≠ initial_routing_sync →
     b ≠ simple_taproot_overlay_chans_required → b ≠ simple_taproot_overlay_chans_optional →
     features !! Z.lxor b 1 = Some n).
Proof.
  split; [done|]. split; [by vm_compute|]. split; [by vm_compute|]. split; [by vm_compute|].
  assert (forallb (λ '(b, n),
    bool_decide (b = initial_routing_sync) || bool_decide (b = simple_taproot_overlay_chans_required) ||
    bool_decide (b = simple_taproot_overlay_chans_optional) ||
    bool_decide (features !! Z.lxor b 1 = Some n)) (map_to_list features) = true) as H by by vm_compute.
  intros b n Hb H1 H2 H3. rewrite forallb_forall in H.
  apply elem_of_map_to_list, list_elem_of_In in Hb. specialize (H _ Hb). cbn beta iota in H.
  rewrite !(bool_decide_false (b = _)) in H by done. by apply bool_decide_eq_true in H.
Qed.
