(* ===== verification/Amp.v ===== *)
(** * Atomic multi-path payments (package amp)

    The sharing of a payment's root seed by XOR ([sharer.go]), the derivation
    of an HTLC's preimage and hash from it ([child.go]) and the sender's
    tracker of the shards of a payment ([shard_tracker.go]).

    SHA-256 of the Go library is the class [Sha256]. What [crypto/rand] reads
    is an argument, [None] when it fails. *)

From S2P Require Import Prelude.

Class Sha256 := sha256 : bytes → bytes.

Inductive amp_error := ErrRand | ErrZeroSharer | ErrPidNotFound.

(** ** Shares and children ([child.go]) *)

Definition share : Type := bytes.

(** [z.Xor(x, y)] *)
Definition xor (x y : share) : share :=
  zip_with (λ a b, byte.of_Z (Z.lxor (byte.unsigned a) (byte.unsigned b))) x y.

Record child_desc := ChildDesc { cd_share : share; cd_index : Z }.

Record child := Child { ch_desc : child_desc; ch_preimage : bytes; ch_hash : bytes }.

Definition zero_share : share := replicate 32 Byte.x00.

Section Derive.
Context `{Sha256}.

Definition derive_child (root : share) (desc : child_desc) : child :=
  let index_bytes := be_encode 4 (cd_index desc) in
  let preimage := sha256 (root ++ cd_share desc ++ index_bytes) in
  Child desc preimage (sha256 preimage).
End Derive.

(** ** The sharer ([sharer.go]) *)

Record seed_sharer := SeedSharer { ss_root : share; ss_curr : share }.

Definition init_seed_sharer (root curr : share) : seed_sharer := SeedSharer root curr.
Definition seed_sharer_from_root (root : share) : seed_sharer := init_seed_sharer root root.
Definition new_seed_sharer (rnd : option share) : result amp_error seed_sharer :=
  match rnd with None => Err ErrRand | Some root => Ok (seed_sharer_from_root root) end.
Definition sharer_root (s : seed_sharer) : share := ss_root s.

Definition split_share (parent : share) (rnd : option share) : result amp_error (share * share) :=
  match rnd with None => Err ErrRand | Some l => Ok (l, xor parent l) end.

Definition split (s : seed_sharer) (rnd : option share) :
    result amp_error (seed_sharer * seed_sharer) :=
  if bool_decide (ss_curr s = zero_share) then Err ErrZeroSharer
  else
    let* (share_left, share_right) := split_share (ss_curr s) rnd in
    Ok (init_seed_sharer (ss_root s) share_left, init_seed_sharer (ss_root s) share_right).

Definition merge (s : seed_sharer) (c : child) : seed_sharer :=
  init_seed_sharer (ss_root s) (xor (ss_curr s) (cd_share (ch_desc c))).

Definition zero (s : seed_sharer) : seed_sharer := init_seed_sharer (ss_root s) zero_share.

Section Sharer.
Context `{Sha256}.

Definition sharer_child (s : seed_sharer) (index : Z) : child :=
  derive_child (ss_root s) (ChildDesc (ss_curr s) index).

Definition reconstruct_children (descs : list child_desc) : list child :=
  let root := foldl (λ root desc, xor root (cd_share desc)) zero_share descs in
  map (derive_child root) descs.
End Sharer.

(** ** The shard tracker ([shard_tracker.go])

    The records of a shard (record/mpp.go, record/amp.go) by their fields. *)

Record shard := Shard {
  sh_child : child;
  sh_total_amt : Z; sh_payment_addr : bytes;                    (* record.NewMPP *)
  sh_root_share : share; sh_set_id : bytes; sh_child_index : Z; (* record.NewAMP *)
}.

Record shard_tracker := ShardTracker {
  tr_set_id : bytes;
  tr_payment_addr : bytes;
  tr_total_amt : Z;
  tr_sharer : seed_sharer;
  tr_shards : gmap Z child;
}.

Definition new_shard_tracker (root set_id pay_addr : bytes) (total_amt : Z) : shard_tracker :=
  ShardTracker set_id pay_addr total_amt (seed_sharer_from_root root) ∅.

Definition set_sharer (s : shard_tracker) (sharer : seed_sharer) (shards : gmap Z child) : shard_tracker :=
  ShardTracker (tr_set_id s) (tr_payment_addr s) (tr_total_amt s) sharer shards.

Section Tracker.
Context `{Sha256}.

Definition new_shard (s : shard_tracker) (pid : Z) (is_last : bool)
    (rnd_index : option bytes) (rnd_share : option share) : result amp_error (shard_tracker * shard) :=
  match rnd_index with
  | None => Err ErrRand
  | Some child_index =>
      let idx := be_decode child_index in
      let* (sharer, child) :=
        (if is_last
         then Ok (zero (tr_sharer s), sharer_child (tr_sharer s) idx)
         else
           let* (l, sharer) := split (tr_sharer s) rnd_share in
           Ok (sharer, sharer_child l idx)) in
      Ok (set_sharer s sharer (<[pid := child]> (tr_shards s)),
          Shard child (tr_total_amt s) (tr_payment_addr s)
            (cd_share (ch_desc child)) (tr_set_id s) (cd_index (ch_desc child)))
  end.

Definition cancel_shard (s : shard_tracker) (pid : Z) : result amp_error shard_tracker :=
  match tr_shards s !! pid with
  | None => Err ErrPidNotFound
  | Some c => Ok (set_sharer s (merge (tr_sharer s) c) (delete pid (tr_shards s)))
  end.

Definition get_hash (s : shard_tracker) (pid : Z) : result amp_error bytes :=
  match tr_shards s !! pid with
  | None => Err ErrPidNotFound
  | Some c => Ok (ch_hash c)
  end.
End Tracker.

(** * XOR of shares *)

Definition share_ok (x : share) : Prop := length x = 32%nat.

Definition xor_byte (a b : byte) : byte := byte.of_Z (Z.lxor (byte.unsigned a) (byte.unsigned b)).

Lemma unsigned_xor a b : byte.unsigned (xor_byte a b) = Z.lxor (byte.unsigned a) (byte.unsigned b).
Proof.
  unfold xor_byte. rewrite byte.unsigned_of_Z. unfold byte.wrap. apply Z.mod_small.
  pose proof (byte.unsigned_range a). pose proof (byte.unsigned_range b). split.
  - apply Z.lxor_nonneg. lia.
  - destruct (Z.eq_dec (Z.lxor (byte.unsigned a) (byte.unsigned b)) 0) as [->|Hne]; [done|].
    apply Z.log2_lt_pow2; [|eapply Z.le_lt_trans; [by apply Z.log2_lxor; lia|]].
    + pose proof (proj2 (Z.lxor_nonneg (byte.unsigned a) (byte.unsigned b))). lia.
    + assert (∀ x, 0 ≤ x < 2 ^ 8 → Z.log2 x < 8) as Hl.
      { intros x Hx. destruct (Z.eq_dec x 0) as [->|]; [done|]. apply Z.log2_lt_pow2; lia. }
      apply Z.max_lub_lt; apply Hl; lia.
Qed.

Lemma xor_byte_inj a b : byte.unsigned a = byte.unsigned b → a = b.
Proof. intros E. rewrite <-(byte.of_Z_unsigned a), <-(byte.of_Z_unsigned b). by rewrite E. Qed.

Lemma xor_length x y : share_ok x → share_ok y → share_ok (xor x y).
Proof. unfold share_ok, xor. intros Hx Hy. rewrite length_zip_with, Hx, Hy. done. Qed.

Lemma xor_comm x y : xor x y = xor y x.
Proof.
  unfold xor. revert y. induction x as [|a x IH]; intros [|b y]; try done. cbn. f_equal; [|apply IH].
  by rewrite Z.lxor_comm.
Qed.

Lemma xor_assoc x y z : xor (xor x y) z = xor x (xor y z).
Proof.
  unfold xor. revert y z. induction x as [|a x IH]; intros [|b y] [|c z]; try done. cbn. f_equal; [|apply IH].
  fold (xor_byte a b) (xor_byte b c). apply xor_byte_inj.
  change (byte.unsigned (xor_byte (xor_byte a b) c) = byte.unsigned (xor_byte a (xor_byte b c))).
  rewrite !unsigned_xor. apply Z.lxor_assoc.
Qed.

Lemma xor_nilpotent x : share_ok x → xor x x = zero_share.
Proof.
  unfold share_ok, zero_share. intros <-. unfold xor. induction x as [|a x IH]; [done|]. cbn. f_equal; [|apply IH].
  by rewrite Z.lxor_nilpotent.
Qed.

Lemma xor_zero_l x : share_ok x → xor zero_share x = x.
Proof.
  unfold share_ok, zero_share. intros <-. unfold xor. induction x as [|a x IH]; [done|]. cbn. f_equal; [|apply IH].
  rewrite Z.lxor_0_l. apply byte.of_Z_unsigned.
Qed.

Lemma xor_zero_r x : share_ok x → xor x zero_share = x.
Proof. intros H. rewrite xor_comm. by apply xor_zero_l. Qed.

Lemma zero_share_ok : share_ok zero_share.
Proof. done. Qed.

(** The XOR of a list of shares. *)
Definition xor_all (l : list share) : share := foldl xor zero_share l.

Lemma xor_all_acc l acc : share_ok acc → Forall share_ok l → foldl xor acc l = xor acc (xor_all l).
Proof.
  intros Ha Hl. unfold xor_all. revert acc Ha. induction Hl as [|x l Hx Hl IH]; intros acc Ha; cbn [foldl].
  - by rewrite xor_zero_r.
  - rewrite (IH (xor acc x)), (IH (xor zero_share x)) by by apply xor_length.
    rewrite xor_zero_l by done. apply xor_assoc.
Qed.

Lemma xor_all_ok l : Forall share_ok l → share_ok (xor_all l).
Proof.
  unfold xor_all. generalize zero_share_ok. generalize zero_share. induction l as [|x l IH]; intros acc Ha Hl; [done|].
  inversion Hl; subst. apply IH; [by apply xor_length | done].
Qed.

Lemma xor_all_cons x l : share_ok x → Forall share_ok l → xor_all (x :: l) = xor x (xor_all l).
Proof.
  intros Hx Hl. unfold xor_all at 1. cbn [foldl]. rewrite xor_zero_l by done. by apply xor_all_acc.
Qed.

#[export] Instance xor_all_perm : Proper ((≡ₚ) ==> eq) xor_all.
Proof.
  intros l k H. unfold xor_all. generalize zero_share. induction H as [|x l k _ IH|x y l|l1 l2 l3 _ IH1 _ IH2];
    intros acc; cbn [foldl]; [done | apply IH | | by rewrite IH1].
  f_equal. by rewrite !xor_assoc, (xor_comm x y).
Qed.

(** * The tracker's shares *)

Section Payment.
Context `{Sha256}.

Definition shares_of (m : gmap Z child) : list share := (λ c, cd_share (ch_desc c)) <$> (map_to_list m).*2.

Record tracker_ok (root : share) (s : shard_tracker) : Prop := {
  tk_root : ss_root (tr_sharer s) = root;
  tk_root_ok : share_ok root;
  tk_curr : share_ok (ss_curr (tr_sharer s));
  tk_shares : Forall share_ok (shares_of (tr_shards s));
  tk_child pid c : tr_shards s !! pid = Some c → c = derive_child root (ch_desc c);
  tk_xor : xor (ss_curr (tr_sharer s)) (xor_all (shares_of (tr_shards s))) = root;
}.

(** The moves of a sender: a shard of a fresh attempt, and giving one back. *)
Inductive track : shard_tracker → shard_tracker → Prop :=
| track_new s pid is_last rnd_index rnd_share s' sh :
    tr_shards s !! pid = None → (∀ x, rnd_share = Some x → share_ok x) →
    new_shard s pid is_last rnd_index rnd_share = Ok (s', sh) → track s s'
| track_cancel s pid s' : cancel_shard s pid = Ok s' → track s s'.

Lemma shares_of_insert m pid c :
  m !! pid = None → shares_of (<[pid := c]> m) ≡ₚ cd_share (ch_desc c) :: shares_of m.
Proof. intros E. unfold shares_of. rewrite map_to_list_insert by done. done. Qed.

Lemma shares_of_delete m pid c :
  m !! pid = Some c → shares_of m ≡ₚ cd_share (ch_desc c) :: shares_of (delete pid m).
Proof. intros E. unfold shares_of. rewrite <-(map_to_list_delete m pid c E). done. Qed.

Lemma track_ok root s s' : tracker_ok root s → track s s' → tracker_ok root s'.
Proof.
  intros [Er Hr Hc Hs Hch Hx] Hm. inversion Hm as [? pid is_last [ix|] rs ? sh Hf Hrs Hn | ? pid ? Hn]; subst; [|done|].
  - unfold new_shard in Hn. destruct is_last.
    + cbn [rbind] in Hn. injection Hn as <- <-.
      assert (shares_of (<[pid := sharer_child (tr_sharer s) (be_decode ix)]> (tr_shards s)) ≡ₚ
                ss_curr (tr_sharer s) :: shares_of (tr_shards s)) as Ep by by apply shares_of_insert.
      split; cbn; [done | done | done | by rewrite Ep; constructor | |].
      * intros p c [[<- <-] | [_ Hp]]%lookup_insert_Some; [done | by eapply Hch].
      * rewrite Ep, xor_all_cons by done. rewrite Hx. by apply xor_zero_l.
    + unfold split in Hn. case_bool_decide as Hz; [done|]. unfold split_share in Hn.
      destruct rs as [lft|]; [|done]. cbn [rbind] in Hn. injection Hn as <- <-.
      assert (share_ok lft) as Hl by by apply Hrs.
      set (c := sharer_child _ _).
      assert (shares_of (<[pid := c]> (tr_shards s)) ≡ₚ lft :: shares_of (tr_shards s)) as Ep
        by by apply shares_of_insert.
      split; cbn; [done | done | by apply xor_length | by rewrite Ep; constructor | |].
      * intros p d [[<- <-] | [_ Hp]]%lookup_insert_Some; [done | by eapply Hch].
      * rewrite Ep, xor_all_cons by done.
        rewrite <-xor_assoc, (xor_assoc _ lft lft), (xor_nilpotent lft) by done.
        by rewrite xor_zero_r.
  - unfold cancel_shard in Hn. destruct (tr_shards s !! pid) as [c|] eqn:E; [|done]. injection Hn as <-.
    pose proof (shares_of_delete _ _ _ E) as Ep. rewrite Ep in Hs, Hx.
    inversion Hs as [|? ? Hs1 Hs2]; subst.
    split; cbn; [done | done | by apply xor_length | done | |].
    * intros p d [_ Hp]%lookup_delete_Some. by eapply Hch.
    * rewrite xor_assoc, <-xor_all_cons by done. done.
Qed.

Lemma tracks_ok root s s' : tracker_ok root s → rtc track s s' → tracker_ok root s'.
Proof. intros Hs. induction 1 as [|s s1 s2 Hs1 _ IH]; [done|]. apply IH. by eapply track_ok. Qed.

Lemma new_tracker_ok root set_id pay_addr amt :
  share_ok root → tracker_ok root (new_shard_tracker root set_id pay_addr amt).
Proof.
  intros Hr. split; cbn; [done | done | done | constructor | done |].
  change (shares_of ∅) with (@nil share). by apply xor_zero_r.
Qed.

(** C29: What a sender hands out suffices to settle: at any time the shares of the shards in flight and the tracker's own XOR to
    the payment's root, through any order of new shards and cancelled ones;
    so once the last shard is out, a receiver that has all of them
    reconstructs exactly the preimage and hash of every shard, in whatever
    order they come. *)
Theorem shards_reconstruct root set_id pay_addr amt s :
  share_ok root → rtc track (new_shard_tracker root set_id pay_addr amt) s →
  xor (ss_curr (tr_sharer s)) (xor_all (shares_of (tr_shards s))) = root ∧
  (ss_curr (tr_sharer s) = zero_share →
   ∀ l, l ≡ₚ (map_to_list (tr_shards s)).*2 → reconstruct_children (ch_desc <$> l) = l).
Proof.
  intros Hr Ht. pose proof (tracks_ok root _ _ (new_tracker_ok root set_id pay_addr amt Hr) Ht) as [_ _ _ Hs Hc Hx].
  split; [done|]. intros Hz l Hl. rewrite Hz in Hx. rewrite xor_zero_l in Hx by by apply xor_all_ok.
  unfold reconstruct_children.
  assert (foldl (λ root desc, xor root (cd_share desc)) zero_share (ch_desc <$> l) = root) as ->.
  { rewrite <-Hx. unfold shares_of. rewrite <-Hl. unfold xor_all. generalize zero_share.
    clear. induction l as [|c l IH]; intros acc; [done | apply IH]. }
  assert (∀ c, c ∈ l → derive_child root (ch_desc c) = c) as Hd.
  { intros c Hin. rewrite Hl in Hin. apply list_elem_of_fmap in Hin as ([pid c'] & -> & Hin).
    apply elem_of_map_to_list in Hin. symmetry. by eapply Hc. }
  clear -Hd. induction l as [|c l IH]; [done|]. cbn. f_equal; [apply Hd; by left|].
  apply IH. intros d Hin. apply Hd. by right.
Qed.
End Payment.

(** A payment of two shards, the first of them cancelled and replaced. *)
Lemma shards_reconstruct_witness :
  let sha : Sha256 := λ b, take 32 (rev b) in
  ∃ s, size (tr_shards s) = 2%nat ∧ ss_curr (tr_sharer s) = zero_share ∧
    reconstruct_children (ch_desc <$> (map_to_list (tr_shards s)).*2) = (map_to_list (tr_shards s)).*2.
Proof.
  intros sha. set (t0 := new_shard_tracker (be_encode 32 99) (be_encode 32 1) (be_encode 32 2) 5000).
  destruct (new_shard t0 1 false (Some (be_encode 4 7)) (Some (be_encode 32 11))) as [[t1 s1]|] eqn:E1;
    [|by vm_compute in E1].
  destruct (cancel_shard t1 1) as [t2|] eqn:E2; [|by vm_compute in E1; injection E1 as <- <-; vm_compute in E2].
  destruct (new_shard t2 2 false (Some (be_encode 4 8)) (Some (be_encode 32 13))) as [[t3 s3]|] eqn:E3;
    [|by vm_compute in E1; injection E1 as <- <-; vm_compute in E2; injection E2 as <-; vm_compute in E3].
  destruct (new_shard t3 3 true (Some (be_encode 4 9)) None) as [[t4 s4]|] eqn:E4; [|done].
  assert (rtc track t0 t4) as Ht.
  { eapply rtc_l; [eapply track_new; [| |exact E1]; [done|]; intros x [= <-]; apply be_encode_length|].
    eapply rtc_l; [eapply track_cancel; exact E2|].
    vm_compute in E1; injection E1 as <- <-; vm_compute in E2; injection E2 as <-.
    eapply rtc_l; [eapply track_new; [| |exact E3]; [done|]; intros x [= <-]; apply be_encode_length|].
    vm_compute in E3; injection E3 as <- <-.
    eapply rtc_l; [eapply track_new; [| |exact E4]; [done | done]|]. apply rtc_refl. }
  exists t4. pose proof (shards_reconstruct (be_encode 32 99) (be_encode 32 1) (be_encode 32 2) 5000 t4
    (be_encode_length 32 99) Ht) as [_ H].
  vm_compute in E1; injection E1 as <- <-; vm_compute in E2; injection E2 as <-;
    vm_compute in E3; injection E3 as <- <-; vm_compute in E4; injection E4 as <- <-.
  split; [reflexivity|]. split; [reflexivity|]. by apply H.
Defined.
