(* ===== verification/Invoices.v ===== *)
(** * Invoices (package invoices)

    An invoice and the HTLCs that pay it ([invoices.go]); the registry's
    decision on an arriving HTLC ([update.go]); the application of an update to
    the invoice ([update_invoice.go]); and the registry's operations that
    compose them ([invoiceregistry.go]).

    The database behind [InvoiceUpdater] is the class [Updater]: any of its
    calls may fail, depending on the calls before it. A [range] over a map
    visits the keys in the order of the class [MapOrder], which is any. *)

From S2P Require Import Prelude Features Amp.

Definition circuit_key : Type := Z * Z.
Definition custom_records : Type := gmap Z bytes.

(** ** States and errors *)

Inductive contract_state := ContractOpen | ContractSettled | ContractCanceled | ContractAccepted.
#[export] Instance contract_state_eq_decision : EqDecision contract_state.
Proof. solve_decision. Defined.

Definition is_final (c : contract_state) : bool :=
  bool_decide (c = ContractSettled) || bool_decide (c = ContractCanceled).

Inductive htlc_state := HtlcStateAccepted | HtlcStateCanceled | HtlcStateSettled.
#[export] Instance htlc_state_eq_decision : EqDecision htlc_state.
Proof. solve_decision. Defined.

Inductive inv_error :=
| ErrInvoiceAlreadySettled | ErrInvoiceAlreadyCanceled | ErrInvoiceStillOpen
| ErrInvoiceCannotOpen | ErrInvoiceCannotAccept | ErrInvoicePreimageMismatch
| ErrHTLCPreimageMissing | ErrHTLCPreimageMismatch | ErrHTLCAlreadySettled
| ErrEmptyHTLCSet | ErrUnexpectedInvoicePreimage | ErrHTLCPreimageAlreadyExists
| ErrSettledMissingPreimage | ErrUnknownPreimage | ErrAMPSetWithPreimage
| ErrCancelNonExistent | ErrHtlcCanceledInState | ErrDuplicateAdd | ErrNilCustomRecords
| ErrNoAMPData | ErrAMPState | ErrNotHodl | ErrHodlDesc | ErrCancelDesc
| ErrHtlcNotFound | ErrAcceptedNotPresent | ErrUnknownUpdateType
| ErrInvoiceNotFound | ErrInvRefEquivocation | ErrDuplicateSetID
| ErrDatabase (e : string)       (* another error of the database *)
| InvPanic.                      (* run-time panic: nil pointer *)

(** ** The records of an HTLC's payload (package record) *)

Record mpp := Mpp { mpp_payment_addr : bytes; mpp_total_msat : Z }.
Record amp := AmpRec { amp_root_share : bytes; amp_set_id : bytes; amp_child_index : Z }.

(** [record.KeySendType] *)
Definition key_send_type : Z := 5482373484.
Definition preimage_size : Z := 32.
Definition blank_pay_addr : bytes := replicate 32 Byte.x00.

(** ** Invoices ([invoices.go]) *)

Record invoice_htlc_amp := InvoiceHtlcAMP {
  ia_record : amp; ia_hash : bytes; ia_preimage : option bytes }.

Record invoice_htlc := InvoiceHTLC {
  h_amt : Z;
  h_mpp_total_amt : Z;
  h_accept_height : Z;
  h_accept_time : Z;
  h_resolve_time : Z;
  h_expiry : Z;
  h_state : htlc_state;
  h_custom_records : custom_records;
  h_amp : option invoice_htlc_amp;
}.

Record contract_term := ContractTerm {
  t_final_cltv_delta : Z;
  t_expiry : Z;
  t_payment_preimage : option bytes;
  t_value : Z;
  t_payment_addr : bytes;
  t_features : option feature_vector;
}.

Record invoice_state_amp := InvoiceStateAMP {
  as_state : htlc_state;
  as_invoice_keys : gset circuit_key;
  as_amt_paid : Z;
}.

Record invoice := Invoice {
  i_memo : bytes;
  i_payment_request : bytes;
  i_terms : contract_term;
  i_add_index : Z;
  i_state : contract_state;
  i_amt_paid : Z;
  i_htlcs : gmap circuit_key invoice_htlc;
  i_amp_state : gmap bytes invoice_state_amp;
  i_hodl_invoice : bool;
}.

(** Assignments to fields. *)
Definition set_h_state (st : htlc_state) (time : Z) (h : invoice_htlc) : invoice_htlc :=
  InvoiceHTLC (h_amt h) (h_mpp_total_amt h) (h_accept_height h) (h_accept_time h) time (h_expiry h)
    st (h_custom_records h) (h_amp h).
Definition set_h_amp (a : option invoice_htlc_amp) (h : invoice_htlc) : invoice_htlc :=
  InvoiceHTLC (h_amt h) (h_mpp_total_amt h) (h_accept_height h) (h_accept_time h) (h_resolve_time h)
    (h_expiry h) (h_state h) (h_custom_records h) a.
Definition set_i_state (st : contract_state) (i : invoice) : invoice :=
  Invoice (i_memo i) (i_payment_request i) (i_terms i) (i_add_index i) st (i_amt_paid i) (i_htlcs i)
    (i_amp_state i) (i_hodl_invoice i).
Definition set_i_amt_paid (a : Z) (i : invoice) : invoice :=
  Invoice (i_memo i) (i_payment_request i) (i_terms i) (i_add_index i) (i_state i) a (i_htlcs i)
    (i_amp_state i) (i_hodl_invoice i).
Definition set_i_htlcs (m : gmap circuit_key invoice_htlc) (i : invoice) : invoice :=
  Invoice (i_memo i) (i_payment_request i) (i_terms i) (i_add_index i) (i_state i) (i_amt_paid i) m
    (i_amp_state i) (i_hodl_invoice i).
Definition set_i_amp_state (m : gmap bytes invoice_state_amp) (i : invoice) : invoice :=
  Invoice (i_memo i) (i_payment_request i) (i_terms i) (i_add_index i) (i_state i) (i_amt_paid i)
    (i_htlcs i) m (i_hodl_invoice i).
Definition set_i_preimage (p : option bytes) (i : invoice) : invoice :=
  let t := i_terms i in
  Invoice (i_memo i) (i_payment_request i)
    (ContractTerm (t_final_cltv_delta t) (t_expiry t) p (t_value t) (t_payment_addr t) (t_features t))
    (i_add_index i) (i_state i) (i_amt_paid i) (i_htlcs i) (i_amp_state i) (i_hodl_invoice i).

Definition is_in_htlc_set (h : invoice_htlc) (set_id : option bytes) : bool :=
  match set_id, h_amp h with
  | None, None => true
  | Some id, Some a => bool_decide (id = amp_set_id (ia_record a))
  | _, _ => false
  end.

Definition htlc_set (i : invoice) (set_id : option bytes) (st : htlc_state) :
    gmap circuit_key invoice_htlc :=
  filter (λ kh, (bool_decide (h_state kh.2 = st) && is_in_htlc_set kh.2 set_id) = true) (i_htlcs i).

Definition htlc_set_compliment (i : invoice) (set_id : option bytes) (st : htlc_state) :
    gmap circuit_key invoice_htlc :=
  filter (λ kh, (bool_decide (h_state kh.2 = st) && negb (is_in_htlc_set kh.2 set_id)) = true) (i_htlcs i).

Definition is_amp (i : invoice) : bool :=
  match t_features (i_terms i) with
  | None => false
  | Some fv => has_feature fv amp_required
  end.

Definition is_keysend (i : invoice) : bool :=
  bool_decide (i_payment_request i = []) && negb (is_amp i).

Definition requires_preimage (i : invoice) : bool := negb (i_hodl_invoice i || is_amp i).
Definition is_pending (i : invoice) : bool :=
  bool_decide (i_state i = ContractOpen) || bool_decide (i_state i = ContractAccepted).

(** ** Update descriptions *)

Record htlc_accept_desc := HtlcAcceptDesc {
  ad_accept_height : Z;
  ad_amt : Z;
  ad_mpp_total_amt : Z;
  ad_expiry : Z;
  ad_custom_records : option custom_records;      (* None is nil *)
  ad_amp : option invoice_htlc_amp;
}.

Inductive update_type :=
| UnknownUpdate | CancelHTLCsUpdate | AddHTLCsUpdate | SettleHodlInvoiceUpdate | CancelInvoiceUpdate.

Record invoice_state_update_desc := InvoiceStateUpdateDesc {
  su_new_state : contract_state;
  su_preimage : option bytes;
  su_htlc_preimages : gmap circuit_key bytes;
  su_set_id : option bytes;
}.

Record invoice_update_desc := InvoiceUpdateDesc {
  iu_state : option invoice_state_update_desc;
  iu_cancel_htlcs : gset circuit_key;
  iu_add_htlcs : gmap circuit_key htlc_accept_desc;
  iu_set_id : option bytes;
  iu_type : update_type;
}.

(** ** Resolutions ([resolution.go], [resolution_result.go]) *)

Inductive accept_result :=
| resultReplayToAccepted | resultDuplicateToAccepted | resultAccepted | resultPartialAccepted.

Inductive fail_result :=
| ResultReplayToCanceled | ResultInvoiceAlreadyCanceled | ResultInvoiceAlreadySettled
| ResultAmountTooLow | ResultExpiryTooSoon | ResultCanceled | ResultInvoiceNotOpen
| ResultMppTimeout | ResultAddressMismatch | ResultHtlcSetTotalMismatch
| ResultHtlcSetTotalTooLow | ResultHtlcSetOverpayment | ResultInvoiceNotFound
| ResultKeySendError | ResultMppInProgress | ResultHtlcInvoiceTypeMismatch
| ResultAmpError | ResultAmpReconstruction | ExternalValidationFailed
| ResultInvoiceInterceptorError.

Inductive settle_result := ResultSettled | ResultReplayToSettled | ResultDuplicateToSettled.

Inductive resolution :=
| HtlcFail (key : circuit_key) (accept_height : Z) (outcome : fail_result)
| HtlcSettle (preimage : bytes) (key : circuit_key) (accept_height : Z) (outcome : settle_result)
| HtlcAccept (key : circuit_key) (outcome : accept_result).

Definition is_set_failure (f : fail_result) : bool :=
  match f with
  | ResultAmpReconstruction | ResultHtlcSetTotalTooLow | ResultHtlcSetTotalMismatch
  | ResultHtlcSetOverpayment | ExternalValidationFailed => true
  | _ => false
  end.

(** ** The arriving HTLC ([invoiceUpdateCtx]) *)

Record update_ctx := UpdateCtx {
  c_hash : bytes;
  c_circuit_key : circuit_key;
  c_amt_paid : Z;
  c_expiry : Z;
  c_current_height : Z;
  c_final_cltv_reject_delta : Z;
  c_wire_custom_records : custom_records;
  c_custom_records : custom_records;
  c_mpp : option mpp;
  c_amp : option amp;
  c_path_id : option bytes;
  c_total_amt_msat : Z;
}.

Definition set_c_amt_paid (a : Z) (c : update_ctx) : update_ctx :=
  UpdateCtx (c_hash c) (c_circuit_key c) a (c_expiry c) (c_current_height c)
    (c_final_cltv_reject_delta c) (c_wire_custom_records c) (c_custom_records c) (c_mpp c) (c_amp c)
    (c_path_id c) (c_total_amt_msat c).

(** [InvoiceRef]: by hash, by hash and address, or by address alone. *)
Record invoice_ref := InvoiceRef { r_pay_hash : option bytes; r_pay_addr : option bytes }.

Definition ctx_invoice_ref (c : update_ctx) : invoice_ref :=
  match c_path_id c, c_amp c, c_mpp c with
  | Some p, _, _ => InvoiceRef (Some (c_hash c)) (Some p)
  | None, Some _, Some m => InvoiceRef None (Some (mpp_payment_addr m))
  | None, _, Some m => InvoiceRef (Some (c_hash c)) (Some (mpp_payment_addr m))
  | None, _, None => InvoiceRef (Some (c_hash c)) None
  end.

Definition ctx_set_id (c : update_ctx) : option bytes := amp_set_id <$> c_amp c.

Definition fail_res (c : update_ctx) (outcome : fail_result) : resolution :=
  HtlcFail (c_circuit_key c) (c_current_height c) outcome.
Definition settle_res (c : update_ctx) (preimage : bytes) (outcome : settle_result) : resolution :=
  HtlcSettle preimage (c_circuit_key c) (c_current_height c) outcome.
Definition accept_res (c : update_ctx) (outcome : accept_result) : resolution :=
  HtlcAccept (c_circuit_key c) outcome.

(** [records.MergedCopy(wire)]: the wire's records win. *)
Definition merged_copy (c other : custom_records) : custom_records := other ∪ c.

(** The order in which a [range] visits a map. *)
Class MapOrder := {
  order {A} : gmap circuit_key A → list (circuit_key * A);
  order_perm {A} (m : gmap circuit_key A) : order m ≡ₚ map_to_list m;
}.

(** * The decision on an HTLC ([update.go]) *)

Section Update.
Context `{S : Sha256} `{O : MapOrder}.

(** [preimage.Hash()], [preimage.Matches(hash)] (lntypes/preimage.go). *)
Definition preimage_hash (p : bytes) : bytes := sha256 p.
Definition matches (p hash : bytes) : bool := bool_decide (hash = preimage_hash p).

Definition make_preimage (b : bytes) : option bytes :=
  if negb (Z.of_nat (length b) =? preimage_size) then None else Some b.

(** [None]: not a replay. *)
Definition resolve_replayed_htlc (c : update_ctx) (inv : invoice) :
    result inv_error (option resolution) :=
  match i_htlcs inv !! c_circuit_key c with
  | None => Ok None
  | Some htlc =>
      match h_state htlc with
      | HtlcStateCanceled => Ok (Some (fail_res c ResultReplayToCanceled))
      | HtlcStateAccepted => Ok (Some (accept_res c resultReplayToAccepted))
      | HtlcStateSettled =>
          let* preimage :=
            (if is_amp inv then
               match h_amp htlc with
               | Some (InvoiceHtlcAMP _ hash (Some preimage)) =>
                   ensure (negb (negb (bool_decide (hash = c_hash c)) || negb (matches preimage hash)))
                     else ErrHTLCPreimageMismatch;
                   Ok preimage
               | _ => Err ErrHTLCPreimageMissing
               end
             else
               match t_payment_preimage (i_terms inv) with
               | None => Err ErrSettledMissingPreimage
               | Some preimage =>
                   ensure (matches preimage (c_hash c)) else ErrInvoicePreimageMismatch;
                   Ok preimage
               end) in
          Ok (Some (settle_res c preimage ResultReplayToSettled))
      end
  end.

Definition requires_amp (inv : invoice) : result inv_error bool :=
  match t_features (i_terms inv) with
  | None => Err InvPanic
  | Some fv => Ok (requires_feature fv amp_required)
  end.

(** The total of the HTLCs that wait, if they all carry [total_amt]. *)
Fixpoint set_total (total_amt acc : Z) (l : list (circuit_key * invoice_htlc)) : option Z :=
  match l with
  | [] => Some acc
  | (_, htlc) :: l =>
      if negb (total_amt =? h_mpp_total_amt htlc) then None
      else set_total total_amt (u64 (acc + h_amt htlc)) l
  end.

(** [ctx.expiry < uint32(ctx.currentHeight+delta)] *)
Definition expires_too_soon (c : update_ctx) (delta : Z) : bool :=
  c_expiry c <? u32 (i32 (c_current_height c + delta)).

(** The children of the set: the new HTLC's first, then the waiting ones. *)
Fixpoint set_descs (l : list (circuit_key * invoice_htlc)) : result inv_error (list child_desc) :=
  match l with
  | [] => Ok []
  | (_, htlc) :: l =>
      match h_amp htlc with
      | None => Err InvPanic
      | Some a =>
          let* descs := set_descs l in
          Ok (ChildDesc (amp_root_share (ia_record a)) (amp_child_index (ia_record a)) :: descs)
      end
  end.

Definition child_matches (kx : (circuit_key * invoice_htlc) * child) : bool :=
  match h_amp kx.1.2 with
  | Some a => bool_decide (ia_hash a = ch_hash kx.2)
  | None => false
  end.

(** [None]: the reconstruction failed. *)
Definition reconstruct_amp_preimages (c : update_ctx) (a : amp)
    (set : gmap circuit_key invoice_htlc) : result inv_error (option (gmap circuit_key bytes)) :=
  let htlcs := order set in
  let* descs := set_descs htlcs in
  match reconstruct_children (ChildDesc (amp_root_share a) (amp_child_index a) :: descs) with
  | [] => Err InvPanic
  | child0 :: children =>
      if negb (bool_decide (c_hash c = ch_hash child0)) then Ok None
      else if negb (forallb child_matches (zip htlcs children)) then Ok None
      else Ok (Some (foldl (λ m kx, <[kx.1.1 := ch_preimage kx.2]> m)
                       {[c_circuit_key c := ch_preimage child0]} (zip htlcs children)))
  end.

Definition add_update (st : option invoice_state_update_desc) (c : update_ctx)
    (d : htlc_accept_desc) : invoice_update_desc :=
  InvoiceUpdateDesc st ∅ {[c_circuit_key c := d]} None AddHTLCsUpdate.

Definition refuse (c : update_ctx) (f : fail_result) :
    result inv_error (option invoice_update_desc * resolution) := Ok (None, fail_res c f).

(** The last part of [updateMpp]: the set is complete. *)
Definition settle_mpp (c : update_ctx) (inv : invoice) (set_id : option bytes)
    (set : gmap circuit_key invoice_htlc) (accept_desc : htlc_accept_desc) :
    result inv_error (option invoice_update_desc * resolution) :=
  if i_hodl_invoice inv then
    Ok (Some (add_update (Some (InvoiceStateUpdateDesc ContractAccepted None ∅ None)) c accept_desc),
        accept_res c resultAccepted)
  else
    match c_amp c with
    | Some a =>
        let* preimages := reconstruct_amp_preimages c a set in
        match preimages with
        | None =>
            Ok (Some (InvoiceUpdateDesc None (dom set) ∅ set_id CancelHTLCsUpdate),
                fail_res c ResultAmpReconstruction)
        | Some preimages =>
            Ok (Some (add_update (Some (InvoiceStateUpdateDesc ContractSettled
                        (t_payment_preimage (i_terms inv)) preimages set_id)) c accept_desc),
                settle_res c (default (replicate 32 Byte.x00) (preimages !! c_circuit_key c)) ResultSettled)
        end
    | None =>
        match t_payment_preimage (i_terms inv) with
        | None => Err InvPanic
        | Some preimage =>
            Ok (Some (add_update (Some (InvoiceStateUpdateDesc ContractSettled (Some preimage) ∅ set_id))
                        c accept_desc),
                settle_res c preimage ResultSettled)
        end
    end.

Definition update_mpp (c : update_ctx) (inv : invoice) :
    result inv_error (option invoice_update_desc * resolution) :=
  let* amp_required := requires_amp inv in
  if amp_required && negb (bool_decide (is_Some (c_amp c))) then refuse c ResultHtlcInvoiceTypeMismatch
  else if negb amp_required && bool_decide (is_Some (c_amp c)) then
    refuse c ResultHtlcInvoiceTypeMismatch
  else
    let set_id := ctx_set_id c in
    let* (total_amt, payment_addr) :=
      match c_mpp c, c_path_id c with
      | Some m, _ => Ok (mpp_total_msat m, mpp_payment_addr m)
      | None, Some p => Ok (c_total_amt_msat c, p)
      | None, None => Err InvPanic
      end in
    let accept_desc :=
      HtlcAcceptDesc (c_current_height c) (c_amt_paid c) total_amt (c_expiry c)
        (Some (merged_copy (c_custom_records c) (c_wire_custom_records c)))
        ((λ a, InvoiceHtlcAMP a (c_hash c) None) <$> c_amp c) in
    if negb (bool_decide (i_state inv = ContractOpen)) then refuse c ResultInvoiceNotOpen
    else if negb (bool_decide (payment_addr = t_payment_addr (i_terms inv))) then
      refuse c ResultAddressMismatch
    else if total_amt =? 0 then refuse c ResultHtlcSetTotalTooLow
    else if total_amt <? t_value (i_terms inv) then refuse c ResultHtlcSetTotalTooLow
    else
      let set := htlc_set inv set_id HtlcStateAccepted in
      match set_total total_amt 0 (order set) with
      | None => refuse c ResultHtlcSetTotalMismatch
      | Some waiting =>
          let new_set_total := u64 (waiting + c_amt_paid c) in
          if expires_too_soon c (c_final_cltv_reject_delta c) then refuse c ResultExpiryTooSoon
          else if expires_too_soon c (t_final_cltv_delta (i_terms inv)) then refuse c ResultExpiryTooSoon
          else if bool_decide (set_id = Some blank_pay_addr) then refuse c ResultAmpError
          else if negb (new_set_total >=? total_amt) then
            Ok (Some (add_update None c accept_desc), accept_res c resultPartialAccepted)
          else settle_mpp c inv set_id set accept_desc
      end.

Definition is_valid_keysend (c : update_ctx) : bool :=
  match c_custom_records c !! key_send_type with
  | None => false
  | Some b =>
      match make_preimage b with
      | None => false
      | Some preimage => bool_decide (preimage_hash preimage = c_hash c)
      end
  end.

(** The last part of [updateLegacy], by the state of the invoice. *)
Definition settle_legacy (c : update_ctx) (inv : invoice) (accept_desc : htlc_accept_desc) :
    result inv_error (option invoice_update_desc * resolution) :=
  match i_state inv with
  | ContractAccepted => Ok (Some (add_update None c accept_desc), accept_res c resultDuplicateToAccepted)
  | ContractSettled =>
      match t_payment_preimage (i_terms inv) with
      | None => refuse c ResultHtlcInvoiceTypeMismatch
      | Some preimage =>
          Ok (Some (add_update None c accept_desc), settle_res c preimage ResultDuplicateToSettled)
      end
  | _ =>
      if i_hodl_invoice inv then
        Ok (Some (add_update (Some (InvoiceStateUpdateDesc ContractAccepted None ∅ None)) c accept_desc),
            accept_res c resultAccepted)
      else
        match t_payment_preimage (i_terms inv) with
        | None => refuse c ResultHtlcInvoiceTypeMismatch
        | Some preimage =>
            Ok (Some (add_update (Some (InvoiceStateUpdateDesc ContractSettled (Some preimage) ∅ None))
                        c accept_desc),
                settle_res c preimage ResultSettled)
        end
  end.

Definition update_legacy (c : update_ctx) (inv : invoice) :
    result inv_error (option invoice_update_desc * resolution) :=
  if is_amp inv then refuse c ResultHtlcInvoiceTypeMismatch
  else if bool_decide (i_state inv = ContractCanceled) then refuse c ResultInvoiceAlreadyCanceled
  else if c_amt_paid c <? t_value (i_terms inv) then refuse c ResultAmountTooLow
  else
    match t_features (i_terms inv) with
    | None => Err InvPanic
    | Some fv =>
        if negb (is_valid_keysend c) && requires_feature fv payment_addr_required then
          refuse c ResultAddressMismatch
        else if existsb (λ kh, h_mpp_total_amt kh.2 >? 0) (order (htlc_set inv None HtlcStateAccepted)) then
          refuse c ResultMppInProgress
        else if expires_too_soon c (c_final_cltv_reject_delta c) then refuse c ResultExpiryTooSoon
        else if expires_too_soon c (t_final_cltv_delta (i_terms inv)) then refuse c ResultExpiryTooSoon
        else
          settle_legacy c inv
            (HtlcAcceptDesc (c_current_height c) (c_amt_paid c) 0 (c_expiry c)
               (Some (merged_copy (c_custom_records c) (c_wire_custom_records c))) None)
    end.

Definition update_invoice (c : update_ctx) (inv : invoice) :
    result inv_error (option invoice_update_desc * resolution) :=
  if bool_decide (is_Some (c_amp c)) && negb (bool_decide (is_Some (c_mpp c))) then refuse c ResultAmpError
  else if negb (bool_decide (is_Some (c_mpp c))) && negb (bool_decide (is_Some (c_path_id c))) then
    update_legacy c inv
  else update_mpp c inv.
End Update.

(** * The application of an update ([update_invoice.go]) *)

(** The calls of [InvoiceUpdater]. *)
Inductive updater_call :=
| UAddHtlc (key : circuit_key) (htlc : invoice_htlc)
| UResolveHtlc (key : circuit_key) (st : htlc_state) (time : Z)
| UAddAmpHtlcPreimage (set_id : bytes) (key : circuit_key) (preimage : bytes)
| UUpdateInvoiceState (st : contract_state) (preimage : option bytes)
| UUpdateInvoiceAmtPaid (amt : Z)
| UUpdateAmpState (set_id : bytes) (st : invoice_state_amp) (key : circuit_key)
| UFinalize (t : update_type).

(** The updater's answer to a call, after the calls before it. *)
Class Updater := updater : list updater_call → updater_call → option inv_error.

(** The invoice being updated, and the calls made for it. *)
Record upd_state := UpdState { u_inv : invoice; u_calls : list updater_call }.

Definition with_inv (f : invoice → invoice) (s : upd_state) : upd_state :=
  UpdState (f (u_inv s)) (u_calls s).

(** [resolveHtlc] and the loops write through the pointers of [invoice.Htlcs]. *)
Definition put_htlc (key : circuit_key) (h : invoice_htlc) (s : upd_state) : upd_state :=
  with_inv (λ i, set_i_htlcs (<[key := h]> (i_htlcs i)) i) s.

Definition put_amp_state (set_id : bytes) (a : invoice_state_amp) (s : upd_state) : upd_state :=
  with_inv (λ i, set_i_amp_state (<[set_id := a]> (i_amp_state i)) i) s.

Section Apply.
Context `{S : Sha256} `{O : MapOrder} `{U : Updater}.

Definition call (op : updater_call) (s : upd_state) : result inv_error upd_state :=
  match updater (u_calls s) op with
  | Some e => Err e
  | None => Ok (UpdState (u_inv s) (u_calls s ++ [op]))
  end.

Definition get_updated_invoice_amp_state (inv : invoice) (set_id : bytes) (key : circuit_key)
    (st : htlc_state) (amt : Z) : result inv_error invoice_state_amp :=
  let entry := i_amp_state inv !! set_id in
  if negb (bool_decide (is_Some entry)) && negb (bool_decide (st = HtlcStateAccepted)) then Err ErrAMPState
  else
    let a := default (InvoiceStateAMP HtlcStateAccepted ∅ 0) entry in
    let a :=
      match st with
      | HtlcStateAccepted => InvoiceStateAMP (as_state a) (as_invoice_keys a) (u64 (as_amt_paid a + amt))
      | HtlcStateCanceled => InvoiceStateAMP HtlcStateCanceled (as_invoice_keys a) (u64 (as_amt_paid a - amt))
      | HtlcStateSettled => InvoiceStateAMP HtlcStateSettled (as_invoice_keys a) (as_amt_paid a)
      end in
    Ok (InvoiceStateAMP (as_state a) ({[key]} ∪ as_invoice_keys a) (as_amt_paid a)).

Definition update_invoice_amt_paid (amt : Z) (s : upd_state) : result inv_error upd_state :=
  let* s := call (UUpdateInvoiceAmtPaid amt) s in
  Ok (with_inv (set_i_amt_paid amt) s).

(** The new AMP state, in memory and in the database. *)
Definition write_amp_state (set_id : bytes) (key : circuit_key) (st : htlc_state) (amt : Z)
    (s : upd_state) : result inv_error upd_state :=
  let* a := get_updated_invoice_amp_state (u_inv s) set_id key st amt in
  call (UUpdateAmpState set_id a key) (put_amp_state set_id a s).

Definition accept_htlcs_amp (set_id : bytes) (key : circuit_key) (h : invoice_htlc) (s : upd_state) :
    result inv_error upd_state := write_amp_state set_id key HtlcStateAccepted (h_amt h) s.

Definition cancel_htlcs_amp (key : circuit_key) (h : invoice_htlc) (s : upd_state) :
    result inv_error upd_state :=
  match h_amp h with
  | None => Err InvPanic
  | Some a =>
      let* s := write_amp_state (amp_set_id (ia_record a)) key HtlcStateCanceled (h_amt h) s in
      if negb (i_amt_paid (u_inv s) =? 0)
      then update_invoice_amt_paid (u64 (i_amt_paid (u_inv s) - h_amt h)) s
      else Ok s
  end.

Definition settle_htlcs_amp (key : circuit_key) (h : invoice_htlc) (s : upd_state) :
    result inv_error upd_state :=
  match h_amp h with
  | None => Err InvPanic
  | Some a => write_amp_state (amp_set_id (ia_record a)) key HtlcStateSettled 0 s
  end.

Definition resolve_htlc (key : circuit_key) (h : invoice_htlc) (st : htlc_state) (time : Z)
    (s : upd_state) : result inv_error (upd_state * invoice_htlc) :=
  let* s := call (UResolveHtlc key st time) s in
  let h := set_h_state st time h in
  Ok (put_htlc key h s, h).

Definition can_cancel_single_htlc (h : invoice_htlc) (st : contract_state) : result inv_error unit :=
  ensure (bool_decide (st = ContractOpen)) else ErrHtlcCanceledInState;
  ensure (bool_decide (h_state h = HtlcStateAccepted)) else ErrHtlcCanceledInState;
  Ok tt.

(** The closure [trySettle] of [getUpdatedHtlcState]. *)
Definition try_settle (h : invoice_htlc) (set_id : option bytes) (persist : bool) :
    result inv_error (bool * htlc_state) :=
  if negb (bool_decide (h_state h = HtlcStateAccepted)) then Ok (false, h_state h)
  else if is_in_htlc_set h set_id then
    match set_id, h_amp h with
    | None, _ => Ok (persist, HtlcStateSettled)
    | Some _, None => Err InvPanic
    | Some _, Some a =>
        match ia_preimage a with
        | None => Err ErrHTLCPreimageMissing
        | Some preimage =>
            ensure (matches preimage (ia_hash a)) else ErrHTLCPreimageMismatch;
            Ok (persist, HtlcStateSettled)
        end
    end
  else Ok (false, h_state h).

Definition get_updated_htlc_state (h : invoice_htlc) (st : contract_state) (set_id : option bytes) :
    result inv_error (bool * htlc_state) :=
  if bool_decide (st = ContractSettled) then try_settle h set_id true
  else if bool_decide (h_state h = HtlcStateSettled) then Err ErrHTLCAlreadySettled
  else
    match st with
    | ContractCanceled => Ok (negb (bool_decide (h_state h = HtlcStateCanceled)), HtlcStateCanceled)
    | ContractAccepted => try_settle h set_id false
    | _ => Ok (false, h_state h)
    end.

(** The hash is nil when the invoice is not referred to by it. *)
Definition get_updated_invoice_state (inv : invoice) (hash : option bytes)
    (update : invoice_state_update_desc) : result inv_error contract_state :=
  let new_state := su_new_state update in
  if bool_decide (new_state = ContractOpen) then Err ErrInvoiceCannotOpen
  else
    let open_checks :=
      if bool_decide (new_state = ContractCanceled) then Ok new_state
      else if bool_decide (htlc_set inv (su_set_id update) HtlcStateAccepted = ∅) then Err ErrEmptyHTLCSet
      else if bool_decide (is_Some (su_set_id update)) then
        if bool_decide (is_Some (su_preimage update)) then Err ErrAMPSetWithPreimage else Ok new_state
      else
        match su_preimage update, hash with
        | Some _, None => Err ErrUnexpectedInvoicePreimage
        | Some p, Some hash =>
            ensure (bool_decide (preimage_hash p = hash)) else ErrInvoicePreimageMismatch; Ok new_state
        | None, _ =>
            if bool_decide (new_state = ContractAccepted) then Ok new_state
            else if bool_decide (new_state = ContractSettled) &&
                    negb (bool_decide (is_Some (t_payment_preimage (i_terms inv))))
            then Err ErrUnknownPreimage
            else Ok new_state
        end in
    match i_state inv with
    | ContractAccepted =>
        if bool_decide (new_state = ContractAccepted) then Err ErrInvoiceCannotAccept else open_checks
    | ContractOpen => open_checks
    | ContractSettled => Err ErrInvoiceAlreadySettled
    | ContractCanceled => Err ErrInvoiceAlreadyCanceled
    end.

(** ** Cancelling HTLCs *)

Definition cancel_htlc (time : Z) (s : upd_state) (kx : circuit_key * unit) :
    result inv_error upd_state :=
  let key := kx.1 in
  match i_htlcs (u_inv s) !! key with
  | None => Err ErrCancelNonExistent
  | Some htlc =>
      let* _ := can_cancel_single_htlc htlc (i_state (u_inv s)) in
      let* (s, htlc) := resolve_htlc key htlc HtlcStateCanceled time s in
      if is_amp (u_inv s) then cancel_htlcs_amp key htlc s else Ok s
  end.

(** A Go set is a map to empty structures. *)
Definition set_order (X : gset circuit_key) : list (circuit_key * unit) := order (gset_to_gmap tt X).

Definition cancel_htlcs (time : Z) (update : invoice_update_desc) (s : upd_state) :
    result inv_error upd_state :=
  fold_result (cancel_htlc time) (set_order (iu_cancel_htlcs update)) s.

(** ** Adding HTLCs *)

Definition add_htlc (time : Z) (invoice_is_amp : bool) (s : upd_state)
    (kx : circuit_key * htlc_accept_desc) : result inv_error upd_state :=
  let '(key, d) := kx in
  match i_htlcs (u_inv s) !! key, ad_custom_records d with
  | Some _, _ => Err ErrDuplicateAdd
  | None, None => Err ErrNilCustomRecords
  | None, Some records =>
      let* amp_data :=
        (if invoice_is_amp then
           match ad_amp d with None => Err ErrNoAMPData | Some a => Ok (Some a) end
         else Ok None) in
      let htlc := InvoiceHTLC (ad_amt d) (ad_mpp_total_amt d) (u32 (ad_accept_height d)) time 0
                    (ad_expiry d) HtlcStateAccepted records amp_data in
      let* s := call (UAddHtlc key htlc) s in
      let s := put_htlc key htlc s in
      match amp_data with
      | Some a => accept_htlcs_amp (amp_set_id (ia_record a)) key htlc s
      | None => Ok s
      end
  end.

Definition update_state (hash : option bytes) (invoice_is_amp : bool) (update : invoice_update_desc)
    (s : upd_state) : result inv_error upd_state :=
  match iu_state update with
  | None => Ok s
  | Some st =>
      let* new_state := get_updated_invoice_state (u_inv s) hash st in
      if negb invoice_is_amp || bool_decide (new_state = ContractCanceled) then
        let* s := call (UUpdateInvoiceState new_state None) s in
        Ok (with_inv (set_i_state new_state) s)
      else Ok s
  end.

(** The HTLC's preimage, if the update brings one. *)
Definition set_htlc_preimage (set_id : option bytes) (update : invoice_update_desc)
    (key : circuit_key) (h : invoice_htlc) (s : upd_state) :
    result inv_error (upd_state * invoice_htlc) :=
  match set_id, iu_state update with
  | Some _, Some st =>
      match su_htlc_preimages st !! key with
      | None => Ok (s, h)
      | Some preimage =>
          match h_amp h with
          | None => Err InvPanic
          | Some a =>
              match ia_preimage a with
              | None =>
                  let* s := call (UAddAmpHtlcPreimage (amp_set_id (ia_record a)) key preimage) s in
                  let h := set_h_amp (Some (InvoiceHtlcAMP (ia_record a) (ia_hash a) (Some preimage))) h in
                  Ok (put_htlc key h s, h)
              | Some p => ensure (bool_decide (p = preimage)) else ErrHTLCPreimageAlreadyExists; Ok (s, h)
              end
          end
      end
  | _, _ => Ok (s, h)
  end.

(** One turn of the loop that aligns the HTLCs, with the running amount. *)
Definition align_htlc (time : Z) (invoice_is_amp : bool) (set_id : option bytes)
    (settle_eligible_amp : bool) (update : invoice_update_desc) (acc : upd_state * Z)
    (kh : circuit_key * invoice_htlc) : result inv_error (upd_state * Z) :=
  let '(s, amt_paid) := acc in
  let '(key, htlc) := kh in
  let* (s, htlc) := set_htlc_preimage set_id update key htlc s in
  let context_state := if settle_eligible_amp then ContractSettled else i_state (u_inv s) in
  let* (changed, st) := get_updated_htlc_state htlc context_state set_id in
  let* (s, htlc) := (if changed : bool then resolve_htlc key htlc st time s else Ok (s, htlc)) in
  let* s := (if changed && bool_decide (st = HtlcStateSettled) && invoice_is_amp
             then settle_htlcs_amp key htlc s else Ok s) in
  let ready := bool_decide (h_state htlc = HtlcStateAccepted) ||
               bool_decide (h_state htlc = HtlcStateSettled) in
  let counts :=
    if negb invoice_is_amp then negb (bool_decide (i_state (u_inv s) = ContractOpen)) && ready
    else bool_decide (is_Some (iu_add_htlcs update !! key)) &&
         (bool_decide (i_state (u_inv s) = ContractOpen) && ready) in
  Ok (s, if counts then u64 (amt_paid + h_amt htlc) else amt_paid).

Definition add_htlcs (hash : option bytes) (time : Z) (update : invoice_update_desc)
    (s : upd_state) : result inv_error upd_state :=
  let invoice_is_amp := is_amp (u_inv s) in
  let set_id := if invoice_is_amp then iu_state update ≫= su_set_id else None in
  let* s := fold_result (add_htlc time invoice_is_amp) (order (iu_add_htlcs update)) s in
  let* s := update_state hash invoice_is_amp update s in
  let settle_eligible_amp :=
    match iu_state update with
    | None => false
    | Some st => negb (bool_decide (su_htlc_preimages st = ∅))
    end in
  let* (s, amt_paid) :=
    fold_result (align_htlc time invoice_is_amp set_id settle_eligible_amp update)
      (order (i_htlcs (u_inv s))) (s, 0) in
  let amt_paid := if invoice_is_amp then u64 (amt_paid + i_amt_paid (u_inv s)) else amt_paid in
  update_invoice_amt_paid amt_paid s.

(** ** Settling and cancelling the invoice *)

Definition settle_one (time : Z) (acc : upd_state * Z) (kh : circuit_key * invoice_htlc) :
    result inv_error (upd_state * Z) :=
  let '(s, amt_paid) := acc in
  let '(key, htlc) := kh in
  let* (settled, _) := get_updated_htlc_state htlc ContractSettled None in
  if settled : bool then
    let* (s, htlc) := resolve_htlc key htlc HtlcStateSettled time s in
    Ok (s, u64 (amt_paid + h_amt htlc))
  else Ok (s, amt_paid).

Definition settle_hodl_invoice (hash : option bytes) (time : Z)
    (update : option invoice_state_update_desc) (s : upd_state) : result inv_error upd_state :=
  if negb (i_hodl_invoice (u_inv s)) then Err ErrNotHodl
  else
    match update with
    | None => Err ErrHodlDesc
    | Some st =>
        ensure (bool_decide (su_new_state st = ContractSettled)) else ErrHodlDesc;
        ensure (bool_decide (is_Some (su_preimage st))) else ErrHodlDesc;
        let* new_state := get_updated_invoice_state (u_inv s) hash st in
        ensure (bool_decide (new_state = ContractSettled)) else ErrHodlDesc;
        let* s := call (UUpdateInvoiceState ContractSettled (su_preimage st)) s in
        let s := with_inv (λ i, set_i_preimage (su_preimage st) (set_i_state ContractSettled i)) s in
        let* (s, amt_paid) := fold_result (settle_one time) (order (i_htlcs (u_inv s))) (s, 0) in
        update_invoice_amt_paid amt_paid s
    end.

Definition cancel_one (time : Z) (set_id : option bytes) (s : upd_state)
    (kh : circuit_key * invoice_htlc) : result inv_error upd_state :=
  let '(key, htlc) := kh in
  let* (canceled, _) := get_updated_htlc_state htlc ContractCanceled set_id in
  if canceled : bool then
    let* (s, htlc) := resolve_htlc key htlc HtlcStateCanceled time s in
    if bool_decide (is_Some (h_amp htlc)) then cancel_htlcs_amp key htlc s else Ok s
  else Ok s.

Definition cancel_invoice (hash : option bytes) (time : Z)
    (update : option invoice_state_update_desc) (s : upd_state) : result inv_error upd_state :=
  match update with
  | None => Err ErrCancelDesc
  | Some st =>
      ensure (bool_decide (su_new_state st = ContractCanceled)) else ErrCancelDesc;
      let set_id := if is_amp (u_inv s) then su_set_id st else None in
      let* new_state := get_updated_invoice_state (u_inv s) hash st in
      ensure (bool_decide (new_state = ContractCanceled)) else ErrCancelDesc;
      let* s := call (UUpdateInvoiceState ContractCanceled None) s in
      let s := with_inv (set_i_state ContractCanceled) s in
      fold_result (cancel_one time set_id) (order (i_htlcs (u_inv s))) s
  end.

(** [UpdateInvoice]. The callback gets a deep copy, which is the value. *)
Definition db_update_invoice {R} (hash : option bytes) (time : Z)
    (callback : invoice → result inv_error (option invoice_update_desc * R)) (inv : invoice) :
    result inv_error (invoice * list updater_call * R) :=
  let* (update, res) := callback inv in
  match update with
  | None => Ok (inv, [], res)
  | Some update =>
      let s := UpdState inv [] in
      let* s :=
        match iu_type update with
        | CancelHTLCsUpdate => cancel_htlcs time update s
        | AddHTLCsUpdate => add_htlcs hash time update s
        | SettleHodlInvoiceUpdate => settle_hodl_invoice hash time (iu_state update) s
        | CancelInvoiceUpdate => cancel_invoice hash time (iu_state update) s
        | UnknownUpdate => Err ErrUnknownUpdateType
        end in
      let* s := call (UFinalize (iu_type update)) s in
      Ok (u_inv s, u_calls s, res)
  end.

(** * The registry ([invoiceregistry.go]) *)

(** The interceptor's answer: an amount other than zero replaces the HTLC's;
    [CancelSet] cancels the set. *)
Record modify_response := ModifyResponse { mr_amount_paid : Z; mr_cancel_set : bool }.

(** The callback of [notifyExitHopHtlcLocked]. *)
Definition exit_hop_callback (c : update_ctx) (cancel_set : bool) (inv : invoice) :
    result inv_error (option invoice_update_desc * resolution) :=
  let* replay := resolve_replayed_htlc c inv in
  match replay with
  | Some res => Ok (None, res)
  | None =>
      if cancel_set then
        if negb (bool_decide (i_state inv = ContractOpen)) then refuse c ResultInvoiceNotOpen
        else
          Ok (Some (InvoiceUpdateDesc None (dom (htlc_set inv (ctx_set_id c) HtlcStateAccepted)) ∅
                      (ctx_set_id c) CancelHTLCsUpdate),
              fail_res c ExternalValidationFailed)
      else update_invoice c inv
  end.

(** What the subscribers of other HTLCs are told, and the final resolution. *)
Definition exit_hop_outcome (c : update_ctx) (inv : invoice) (res : resolution) :
    result inv_error (resolution * list resolution) :=
  match res with
  | HtlcFail key height outcome =>
      let height := match i_htlcs inv !! c_circuit_key c with
                    | Some h => i32 (h_accept_height h) | None => height end in
      Ok (HtlcFail key height outcome,
          if is_set_failure outcome then
            map (λ kh, HtlcFail kh.1 (i32 (h_accept_height kh.2)) outcome)
              (order (htlc_set inv (ctx_set_id c) HtlcStateCanceled))
          else [])
  | HtlcSettle preimage key height outcome =>
      Ok (res,
          map (λ kh, HtlcSettle (default preimage (h_amp kh.2 ≫= ia_preimage)) kh.1
                       (i32 (h_accept_height kh.2)) outcome)
            (order (htlc_set inv (ctx_set_id c) HtlcStateSettled)) ++
          map (λ kh, HtlcFail kh.1 (i32 (h_accept_height kh.2)) ResultInvoiceAlreadySettled)
            (order (htlc_set_compliment inv (ctx_set_id c) HtlcStateCanceled)))
  | HtlcAccept _ _ =>
      match i_htlcs inv !! c_circuit_key c with
      | None => Err ErrAcceptedNotPresent
      | Some _ => Ok (res, [])
      end
  end.

(** [notifyExitHopHtlcLocked]: [looked_up] is the invoice of the lookup, [inv]
    the one in the database when the update runs; [None] is not found. The
    invoice after it, its resolution and what others are told. *)
Definition notify_exit_hop_htlc (c : update_ctx) (hash : option bytes) (time : Z)
    (looked_up inv : option invoice) (interceptor : invoice → option (option modify_response)) :
    result inv_error (option invoice * resolution * list resolution) :=
  match looked_up with
  | None => Ok (inv, HtlcFail (c_circuit_key c) (c_current_height c) ResultInvoiceNotFound, [])
  | Some existing =>
      let* replay := resolve_replayed_htlc c existing in
      match replay with
      | Some res =>
          let* (res, others) := exit_hop_outcome c existing res in
          Ok (inv, res, others)
      | None =>
          match interceptor existing with
          | None => Ok (inv, fail_res c ResultInvoiceInterceptorError, [])
          | Some resp =>
              let amt := match resp with
                         | Some r => if negb (mr_amount_paid r =? 0) then mr_amount_paid r else c_amt_paid c
                         | None => c_amt_paid c
                         end in
              let c := set_c_amt_paid amt c in
              let cancel_set := match resp with Some r => mr_cancel_set r | None => false end in
              match inv with
              | None => Ok (None, fail_res c ResultInvoiceNotFound, [])
              | Some inv =>
                  match db_update_invoice hash time (exit_hop_callback c cancel_set) inv with
                  | Err ErrDuplicateSetID | Err ErrInvoiceNotFound | Err ErrInvRefEquivocation =>
                      Ok (Some inv, fail_res c ResultInvoiceNotFound, [])
                  | Err e => Err e
                  | Ok (inv, _, res) =>
                      let* (res, others) := exit_hop_outcome c inv res in
                      Ok (Some inv, res, others)
                  end
              end
          end
      end
  end.

(** The callback of [cancelSingleHtlc]. *)
Definition cancel_single_callback (key : circuit_key) (set_id : option bytes) (inv : invoice) :
    result inv_error (option invoice_update_desc * unit) :=
  if negb (bool_decide (i_state inv = ContractOpen)) then Ok (None, tt)
  else
    match i_htlcs inv !! key with
    | None => Err ErrHtlcNotFound
    | Some htlc =>
        if negb (bool_decide (h_state htlc = HtlcStateAccepted)) then Ok (None, tt)
        else Ok (Some (InvoiceUpdateDesc None {[key]} ∅ set_id CancelHTLCsUpdate), tt)
    end.

(** The callback of [SettleHodlInvoice]. *)
Definition settle_hodl_callback (preimage : bytes) (inv : invoice) :
    result inv_error (option invoice_update_desc * unit) :=
  match i_state inv with
  | ContractOpen => Err ErrInvoiceStillOpen
  | ContractCanceled => Err ErrInvoiceAlreadyCanceled
  | ContractSettled => Err ErrInvoiceAlreadySettled
  | ContractAccepted =>
      Ok (Some (InvoiceUpdateDesc (Some (InvoiceStateUpdateDesc ContractSettled (Some preimage) ∅ None))
                  ∅ ∅ None SettleHodlInvoiceUpdate), tt)
  end.

Definition should_cancel (st : contract_state) (cancel_accepted : bool) : bool :=
  if negb (bool_decide (st = ContractAccepted)) then true else cancel_accepted.

(** The callback of [cancelInvoiceImpl]; [same]: the invoice is the one the
    caller names. *)
Definition cancel_invoice_callback (same cancel_accepted : bool) (inv : invoice) :
    result inv_error (option invoice_update_desc * unit) :=
  if negb same then Ok (None, tt)
  else if negb (should_cancel (i_state inv) cancel_accepted) then Ok (None, tt)
  else
    Ok (Some (InvoiceUpdateDesc (Some (InvoiceStateUpdateDesc ContractCanceled None ∅ None))
                ∅ ∅ None CancelInvoiceUpdate), tt).
End Apply.
