(* ===== verification/InvoiceToy.v ===== *)
(** * Invoices: a run of the registry

    A hash function, a map order and a database, and payments of an ordinary,
    a hold and an AMP invoice with them. *)

From S2P Require Import Prelude Features Amp Invoices.

Definition toy_sha : Sha256 := λ b, b.
Definition toy_order : MapOrder := {|
  order _ m := map_to_list m;
  order_perm _ m := Permutation_refl _;
|}.
Definition toy_db : Updater := λ _ _, None.

Definition toy_preimage : bytes := replicate 32 Byte.x07.
Definition toy_address : bytes := replicate 32 Byte.x09.
Definition toy_features (bit : Z) : option feature_vector := Some (FeatureVector {[bit]} features).

(** An invoice of 1,000 msat to be paid with a payment address. *)
Definition toy_invoice (hodl : bool) (preimage : option bytes) (bit : Z) : invoice :=
  Invoice [Byte.x01] [Byte.x02] (ContractTerm 40 3600 preimage 1000 toy_address (toy_features bit))
    1 ContractOpen 0 ∅ ∅ hodl.

Definition toy_htlc (n amt : Z) (hash : bytes) (a : option amp) : update_ctx :=
  UpdateCtx hash (1, n) amt 800 700 10 ∅ ∅ (Some (Mpp toy_address 1000)) a None 0.
