(* ===== verification/InvoiceProps.v ===== *)
(** * Invoices: the effect of each operation

    What the operations of update_invoice.go make of an invoice: the terms and
    the states they keep, the HTLCs after each loop over them, whatever its
    order, and the amount a loop adds up. *)

From S2P Require Import Prelude Features Amp Invoices.

Section Props.
Context `{S : Sha256} `{O : MapOrder} `{U : Updater}.

(** ** What an operation leaves alone *)

(** The terms and the state stay. *)
Record keeps (i j : invoice) : Prop := {
  keeps_terms : i_terms j = i_terms i;
  keeps_state : i_state j = i_state i;
  keeps_hodl : i_hodl_invoice j = i_hodl_invoice i;
}.

#[local] Instance keeps_preorder : PreOrder keeps.
Proof.
  split; [by intros i | intros i j k [T1 S1 H1] [T2 S2 H2]; split; congruence].
Qed.

Lemma keeps_is_amp i j : keeps i j → is_amp j = is_amp i.
Proof. intros [E _ _]. unfold is_amp. by rewrite E. Qed.

(** ** Effects of the updater's calls *)

Lemma call_Ok op s s' : call op s = Ok s' → u_inv s' = u_inv s.
Proof. unfold call. destruct (updater _ _); [done|]. by intros [= <-]. Qed.

Lemma update_invoice_amt_paid_Ok amt s s' :
  update_invoice_amt_paid amt s = Ok s' → u_inv s' = set_i_amt_paid amt (u_inv s).
Proof.
  unfold update_invoice_amt_paid. intros H. apply rbind_Ok in H as (s1 & H1 & [= <-]).
  apply call_Ok in H1. cbn. by rewrite H1.
Qed.

Lemma write_amp_state_Ok set_id key st amt s s' :
  write_amp_state set_id key st amt s = Ok s' →
  keeps (u_inv s) (u_inv s') ∧ i_htlcs (u_inv s') = i_htlcs (u_inv s).
Proof.
  unfold write_amp_state. intros H. apply rbind_Ok in H as (a & _ & H). apply call_Ok in H.
  rewrite H. cbn. by destruct (u_inv s).
Qed.

Lemma settle_htlcs_amp_Ok key h s s' :
  settle_htlcs_amp key h s = Ok s' →
  keeps (u_inv s) (u_inv s') ∧ i_htlcs (u_inv s') = i_htlcs (u_inv s).
Proof. unfold settle_htlcs_amp. destruct (h_amp h); [apply write_amp_state_Ok | done]. Qed.

Lemma resolve_htlc_Ok key h st time s s' h' :
  resolve_htlc key h st time s = Ok (s', h') →
  h' = set_h_state st time h ∧ u_inv s' = set_i_htlcs (<[key := h']> (i_htlcs (u_inv s))) (u_inv s).
Proof.
  unfold resolve_htlc. intros H. apply rbind_Ok in H as (s1 & H1 & H). apply call_Ok in H1.
  injection H as <- <-. cbn. by rewrite H1.
Qed.

(** ** A loop over the HTLCs

    Each turn puts another HTLC for the one it visits and adds to an amount. *)

Section Loop.
Context {St : Type} (inv_of : St → invoice) (amt_of : St → Z).
Variables (step : St → circuit_key * invoice_htlc → result inv_error St)
          (i0 : invoice)
          (g : circuit_key → invoice_htlc → invoice_htlc)
          (upd : Z → circuit_key * invoice_htlc → Z)
          (Q : circuit_key → invoice_htlc → Prop).

Definition turn_ok : Prop := ∀ s k h s',
  keeps i0 (inv_of s) → i_htlcs (inv_of s) !! k = Some h → step s (k, h) = Ok s' →
  keeps (inv_of s) (inv_of s') ∧ i_htlcs (inv_of s') = <[k := g k h]> (i_htlcs (inv_of s)) ∧
  Q k h ∧ amt_of s' = upd (amt_of s) (k, h).

Lemma loop_list l s s' :
  turn_ok → keeps i0 (inv_of s) → fold_result step l s = Ok s' →
  NoDup l.*1 → (∀ k h, (k, h) ∈ l → i_htlcs (inv_of s) !! k = Some h) →
  keeps (inv_of s) (inv_of s') ∧
  (∀ k, k ∉ l.*1 → i_htlcs (inv_of s') !! k = i_htlcs (inv_of s) !! k) ∧
  (∀ k h, (k, h) ∈ l → i_htlcs (inv_of s') !! k = Some (g k h) ∧ Q k h) ∧
  amt_of s' = foldl upd (amt_of s) l.
Proof.
  intros Hturn. revert s. induction l as [|[k h] l IH]; intros s F0 H Hd Hl.
  - injection H as <-. split_and!; [done | done | | done]. intros k h Hk. by apply elem_of_nil in Hk.
  - cbn [fold_result] in H. apply rbind_Ok in H as (s1 & H1 & H).
    cbn [fmap list_fmap fst] in Hd. apply NoDup_cons in Hd as [Hk Hd].
    apply Hturn in H1 as (F1 & M1 & K1 & E1); [|done | apply Hl; by left].
    destruct (IH s1) as (F & Mo & Ml & Ea); [by etrans | done | done | |].
    { intros k2 h2 Hin. rewrite M1, lookup_insert_ne; [apply Hl; by right|].
      intros ->. apply Hk. by apply (list_elem_of_fmap_2 fst l (k2, h2)). }
    split_and!.
    + by etrans.
    + intros j Hj. cbn [fmap list_fmap fst] in Hj. apply not_elem_of_cons in Hj as [Hj1 Hj2].
      rewrite Mo by done. rewrite M1. by apply lookup_insert_ne.
    + intros j x [[= -> ->] | Hin]%elem_of_cons; [|by apply Ml].
      rewrite Mo by done. rewrite M1. split; [apply lookup_insert_eq | done].
    + by rewrite Ea, E1.
Qed.

(** Over all the HTLCs, in the order of the map. *)
Lemma map_loop s s' :
  turn_ok → i0 = inv_of s → fold_result step (order (i_htlcs (inv_of s))) s = Ok s' →
  keeps (inv_of s) (inv_of s') ∧
  i_htlcs (inv_of s') = map_imap (λ k h, Some (g k h)) (i_htlcs (inv_of s)) ∧
  (∀ k h, i_htlcs (inv_of s) !! k = Some h → Q k h) ∧
  amt_of s' = foldl upd (amt_of s) (order (i_htlcs (inv_of s))).
Proof.
  intros Hturn Hi H. set (m := i_htlcs (inv_of s)) in *.
  assert (∀ k h, (k, h) ∈ order m ↔ m !! k = Some h) as Hin.
  { intros k h. rewrite (order_perm m). apply elem_of_map_to_list. }
  destruct (loop_list (order m) s s') as (F & Mo & Ml & Ea); [done | by rewrite Hi | done | | |].
  { rewrite (order_perm m). apply NoDup_fst_map_to_list. }
  { intros k h. apply Hin. }
  split_and!; [done | | | done].
  - apply map_eq. intros k. rewrite map_lookup_imap. fold m. destruct (m !! k) as [h|] eqn:Hk.
    + apply (Ml k h), Hin, Hk.
    + rewrite Mo; [done|]. intros ([k2 h] & -> & Hk2)%list_elem_of_fmap. by apply Hin in Hk2 as [= ?]%(eq_trans (eq_sym Hk)).
  - intros k h Hk. apply (Ml k h), Hin, Hk.
Qed.
End Loop.

(** The amount of a loop that adds the HTLCs of a kind. *)
Definition amount (f : circuit_key → invoice_htlc → bool) (m : gmap circuit_key invoice_htlc) : Z :=
  msum (λ k h, if f k h then h_amt h else 0) m.

Lemma order_amount f m acc :
  (∀ k h, m !! k = Some h → 0 ≤ h_amt h) → 0 ≤ acc → acc + amount f m < 2 ^ 64 →
  foldl (λ a (kh : circuit_key * invoice_htlc), if f kh.1 kh.2 then u64 (a + h_amt kh.2) else a)
    acc (order m) = acc + amount f m.
Proof.
  intros Hm Ha Hb.
  assert (zsum (map (λ kh, h_amt kh.2) (List.filter (λ kh, f kh.1 kh.2) (order m))) = amount f m) as E.
  { unfold amount. rewrite zsum_filter, <-(msum_list _ m (order m)) by apply order_perm.
    f_equal. apply map_ext. by intros [k h]. }
  rewrite (fold_u64_sum (λ kh, f kh.1 kh.2) (λ kh, h_amt kh.2)); [by rewrite E | | done | by rewrite E].
  apply Forall_forall. intros [k h] Hin _. apply (Hm k). apply elem_of_map_to_list.
  by rewrite <-(order_perm m).
Qed.

(** ** The loop that aligns the HTLCs *)

Section Align.
Variables (time : Z) (amp_inv : bool) (set_id : option bytes) (eligible : bool)
          (update : invoice_update_desc).

(** The HTLC with the preimage the update brings for it. *)
Definition preimage_put (k : circuit_key) (h : invoice_htlc) : invoice_htlc :=
  match set_id, iu_state update with
  | Some _, Some st =>
      match su_htlc_preimages st !! k, h_amp h with
      | Some p, Some (InvoiceHtlcAMP r hash None) => set_h_amp (Some (InvoiceHtlcAMP r hash (Some p))) h
      | _, _ => h
      end
  | _, _ => h
  end.

Definition context_state (st : contract_state) : contract_state :=
  if eligible then ContractSettled else st.

(** What the loop makes of an HTLC. *)
Definition aligned (st : contract_state) (k : circuit_key) (h : invoice_htlc) : invoice_htlc :=
  let h := preimage_put k h in
  match get_updated_htlc_state h (context_state st) set_id with
  | Ok (true, x) => set_h_state x time h
  | _ => h
  end.

Definition is_ready (h : invoice_htlc) : bool :=
  bool_decide (h_state h = HtlcStateAccepted) || bool_decide (h_state h = HtlcStateSettled).

Definition counts (st : contract_state) (k : circuit_key) (h : invoice_htlc) : bool :=
  if negb amp_inv then negb (bool_decide (st = ContractOpen)) && is_ready h
  else bool_decide (is_Some (iu_add_htlcs update !! k)) && (bool_decide (st = ContractOpen) && is_ready h).

Lemma set_htlc_preimage_Ok k h s s' h' :
  i_htlcs (u_inv s) !! k = Some h →
  set_htlc_preimage set_id update k h s = Ok (s', h') →
  h' = preimage_put k h ∧ keeps (u_inv s) (u_inv s') ∧
  i_htlcs (u_inv s') = <[k := h']> (i_htlcs (u_inv s)).
Proof.
  intros Hk. unfold set_htlc_preimage, preimage_put.
  assert (∀ s' h', @Ok inv_error _ (s, h) = Ok (s', h') → h' = h ∧ keeps (u_inv s) (u_inv s') ∧
    i_htlcs (u_inv s') = <[k := h']> (i_htlcs (u_inv s))) as Hid.
  { intros ? ? [= <- <-]. rewrite insert_id by done. done. }
  destruct set_id; [|apply Hid]. destruct (iu_state update) as [st|]; [|apply Hid].
  destruct (su_htlc_preimages st !! k) as [p|]; [|by apply Hid].
  destruct (h_amp h) as [[r hash [q|]]|]; [| |done]; cbn.
  - destruct (bool_decide _); [by apply Hid | done].
  - intros H. apply rbind_Ok in H as (s1 & H1 & H). apply call_Ok in H1. injection H as <- <-.
    cbn. rewrite H1. split_and!; [done | by destruct (u_inv s) | done].
Qed.

Lemma align_htlc_Ok s a k h s' a' :
  i_htlcs (u_inv s) !! k = Some h →
  align_htlc time amp_inv set_id eligible update (s, a) (k, h) = Ok (s', a') →
  let h' := aligned (i_state (u_inv s)) k h in
  keeps (u_inv s) (u_inv s') ∧ i_htlcs (u_inv s') = <[k := h']> (i_htlcs (u_inv s)) ∧
  is_ok (get_updated_htlc_state (preimage_put k h) (context_state (i_state (u_inv s))) set_id) = true ∧
  a' = (if counts (i_state (u_inv s)) k h' then u64 (a + h_amt h) else a).
Proof.
  intros Hk H h'. unfold align_htlc in H. apply rbind_Ok in H as ([s1 h1] & H1 & H).
  apply set_htlc_preimage_Ok in H1 as (-> & F1 & M1); [|done].
  pose proof (keeps_state _ _ F1) as Est.
  apply rbind_Ok in H as ([changed st] & H2 & H). apply rbind_Ok in H as ([s3 h3] & H3 & H).
  apply rbind_Ok in H as (s4 & H4 & [= <- <-]).
  rewrite Est in H2. fold (context_state (i_state (u_inv s))) in H2.
  assert (h_amt (preimage_put k h) = h_amt h) as Eamt.
  { unfold preimage_put. by repeat case_match. }
  assert (h3 = h' ∧ keeps (u_inv s) (u_inv s3) ∧
          i_htlcs (u_inv s3) = <[k := h']> (i_htlcs (u_inv s))) as (-> & F3 & M3).
  { unfold h', aligned. rewrite H2. destruct changed.
    - apply resolve_htlc_Ok in H3 as (-> & H3). split; [done|]. rewrite H3. cbn. rewrite M1, insert_insert_eq.
      split; [by etrans; [exact F1|] | done].
    - injection H3 as <- <-. done. }
  assert (keeps (u_inv s3) (u_inv s4) ∧ i_htlcs (u_inv s4) = i_htlcs (u_inv s3)) as [F4 M4].
  { destruct (_ && _); [by apply settle_htlcs_amp_Ok in H4|]. injection H4 as <-.
    done. }
  split_and!.
  - by etrans.
  - by rewrite M4.
  - by rewrite H2.
  - rewrite (keeps_state _ _ F4), (keeps_state _ _ F3).
    assert (h_amt h' = h_amt h) as ->; [|done].
    unfold h', aligned. destruct (get_updated_htlc_state _ _ _) as [[[] ?]|]; done.
Qed.

(** The whole loop. *)
Lemma align_loop s a s' a' :
  fold_result (align_htlc time amp_inv set_id eligible update) (order (i_htlcs (u_inv s))) (s, a) =
    Ok (s', a') →
  let st := i_state (u_inv s) in
  keeps (u_inv s) (u_inv s') ∧
  i_htlcs (u_inv s') = map_imap (λ k h, Some (aligned st k h)) (i_htlcs (u_inv s)) ∧
  (∀ k h, i_htlcs (u_inv s) !! k = Some h →
     is_ok (get_updated_htlc_state (preimage_put k h) (context_state st) set_id) = true) ∧
  a' = foldl (λ a kh, if counts st kh.1 (aligned st kh.1 kh.2) then u64 (a + h_amt kh.2) else a) a
         (order (i_htlcs (u_inv s))).
Proof.
  intros H st.
  apply (map_loop (λ s, u_inv s.1) snd (align_htlc time amp_inv set_id eligible update) (u_inv s) (aligned st)
    (λ a kh, if counts st kh.1 (aligned st kh.1 kh.2) then u64 (a + h_amt kh.2) else a)
    (λ k h, is_ok (get_updated_htlc_state (preimage_put k h) (context_state st) set_id) = true)
    (s, a) (s', a')); [|done | done].
  intros [s1 a1] k h [s2 a2] F Hk H1. cbn [fst snd] in *.
  unfold st. rewrite <-(keeps_state _ _ F). intros. by apply align_htlc_Ok.
Qed.
End Align.

(** ** The operations *)

Lemma add_htlc_Ok time isamp s key d s' :
  add_htlc time isamp s (key, d) = Ok s' →
  ∃ h, i_htlcs (u_inv s) !! key = None ∧ keeps (u_inv s) (u_inv s') ∧
    i_htlcs (u_inv s') = <[key := h]> (i_htlcs (u_inv s)) ∧
    h_amt h = ad_amt d ∧ h_mpp_total_amt h = ad_mpp_total_amt d ∧ h_state h = HtlcStateAccepted ∧
    h_amp h = (if isamp : bool then ad_amp d else None) ∧ (isamp = true → is_Some (ad_amp d)).
Proof.
  unfold add_htlc. destruct (i_htlcs (u_inv s) !! key) eqn:Hk; [done|].
  destruct (ad_custom_records d); [|done]. intros H.
  apply rbind_Ok in H as (amp_data & Ha & H). apply rbind_Ok in H as (s1 & H1 & H). apply call_Ok in H1.
  set (h := InvoiceHTLC (ad_amt d) (ad_mpp_total_amt d) (u32 (ad_accept_height d)) time 0 (ad_expiry d)
              HtlcStateAccepted c amp_data) in H.
  exists h.
  assert (amp_data = (if isamp then ad_amp d else None) ∧ (isamp = true → is_Some (ad_amp d))) as [Eamp Hdata].
  { destruct isamp; [|by injection Ha]. destruct (ad_amp d); [|done]. injection Ha as <-. split; [done | by eexists]. }
  assert (keeps (u_inv s) (u_inv (put_htlc key h s1)) ∧
          i_htlcs (u_inv (put_htlc key h s1)) = <[key := h]> (i_htlcs (u_inv s))) as [F M].
  { cbn. by rewrite H1. }
  assert (keeps (u_inv (put_htlc key h s1)) (u_inv s') ∧
          i_htlcs (u_inv s') = i_htlcs (u_inv (put_htlc key h s1))) as [F2 M2].
  { destruct amp_data; [by apply write_amp_state_Ok in H | by injection H as <-]. }
  rewrite M2. split_and!; [done | by etrans | done..].
Qed.

Lemma get_updated_invoice_state_Ok inv hash d st :
  get_updated_invoice_state inv hash d = Ok st →
  st = su_new_state d ∧ st ≠ ContractOpen ∧ is_final (i_state inv) = false ∧
  (i_state inv = ContractAccepted → st ≠ ContractAccepted) ∧
  (st ≠ ContractCanceled → su_set_id d = None → ∀ p, su_preimage d = Some p → hash = Some (preimage_hash p)).
Proof.
  unfold get_updated_invoice_state. intros H.
  repeat case_match; repeat case_bool_decide; simplify_eq/=; split_and!; try done; naive_solver.
Qed.

Lemma update_state_Ok hash isamp update s s' :
  update_state hash isamp update s = Ok s' →
  u_inv s' = set_i_state (i_state (u_inv s')) (u_inv s) ∧
  match iu_state update with
  | None => i_state (u_inv s') = i_state (u_inv s)
  | Some d =>
      get_updated_invoice_state (u_inv s) hash d = Ok (su_new_state d) ∧
      i_state (u_inv s') = if negb isamp || bool_decide (su_new_state d = ContractCanceled)
                           then su_new_state d else i_state (u_inv s)
  end.
Proof.
  unfold update_state. destruct (iu_state update) as [d|]; [|intros [= <-]; by destruct (u_inv s)].
  intros H. apply rbind_Ok in H as (st & H1 & H).
  assert (st = su_new_state d) as -> by apply (get_updated_invoice_state_Ok _ _ _ _ H1).
  destruct (negb isamp || _).
  - apply rbind_Ok in H as (s1 & H2 & [= <-]). apply call_Ok in H2. cbn. by rewrite H2.
  - injection H as <-. by destruct (u_inv s).
Qed.

(** [addHTLCs] with one new HTLC: [m] are the HTLCs with it. *)
Record added (hash : option bytes) (time : Z) (update : invoice_update_desc) (key : circuit_key)
    (d : htlc_accept_desc) (inv inv' : invoice) (h : invoice_htlc) : Prop := {
  added_fresh : i_htlcs inv !! key = None;
  added_amt : h_amt h = ad_amt d;
  added_total : h_mpp_total_amt h = ad_mpp_total_amt d;
  added_state : h_state h = HtlcStateAccepted;
  added_amp : h_amp h = if is_amp inv then ad_amp d else None;
  added_amp_data : is_amp inv = true → is_Some (ad_amp d);
  added_terms : i_terms inv' = i_terms inv;
  added_hodl : i_hodl_invoice inv' = i_hodl_invoice inv;
  added_new_state :
    match iu_state update with
    | None => i_state inv' = i_state inv
    | Some d =>
        (∃ inv1, keeps inv inv1 ∧ i_htlcs inv1 = <[key := h]> (i_htlcs inv) ∧
         get_updated_invoice_state inv1 hash d = Ok (su_new_state d)) ∧
        i_state inv' = if negb (is_amp inv) || bool_decide (su_new_state d = ContractCanceled)
                       then su_new_state d else i_state inv
    end;
}.

Definition update_set_id (inv : invoice) (update : invoice_update_desc) : option bytes :=
  if is_amp inv then iu_state update ≫= su_set_id else None.
Definition update_eligible (update : invoice_update_desc) : bool :=
  match iu_state update with
  | None => false
  | Some st => negb (bool_decide (su_htlc_preimages st = ∅))
  end.

Lemma order_singleton {A} k (x : A) : order ({[k := x]} : gmap circuit_key A) = [(k, x)].
Proof.
  pose proof (order_perm {[k := x]}) as H. rewrite map_to_list_singleton in H.
  by apply Permutation_singleton_r in H.
Qed.

Lemma add_htlcs_one hash time update key d s s' :
  iu_add_htlcs update = {[key := d]} → add_htlcs hash time update s = Ok s' →
  let inv := u_inv s in let inv' := u_inv s' in
  let set_id := update_set_id inv update in
  let eligible := update_eligible update in
  ∃ h, added hash time update key d inv inv' h ∧
    let m := <[key := h]> (i_htlcs inv) in
    let g := aligned time set_id eligible update (i_state inv') in
    i_htlcs inv' = map_imap (λ k h, Some (g k h)) m ∧
    (∀ k h, m !! k = Some h → is_ok (get_updated_htlc_state (preimage_put set_id update k h)
       (context_state eligible (i_state inv')) set_id) = true) ∧
    (is_amp inv = false →
     i_amt_paid inv' = foldl (λ a kh, if counts false update (i_state inv') kh.1 (g kh.1 kh.2)
                                      then u64 (a + h_amt kh.2) else a) 0 (order m)).
Proof.
  intros Hadd H inv inv' set_id eligible. unfold add_htlcs in H. rewrite Hadd, order_singleton in H.
  apply rbind_Ok in H as (s1 & H1 & H). cbn [fold_result] in H1.
  apply rbind_Ok in H1 as (s1' & H1 & [= ->]).
  apply add_htlc_Ok in H1 as (h & Hk & F1 & M1 & Ha & Ht & Hs & Hp & Hd).
  apply rbind_Ok in H as (s2 & H2 & H). apply update_state_Ok in H2 as [E2 N2].
  apply rbind_Ok in H as ([s3 amt] & H3 & H). apply align_loop in H3 as (F3 & M3 & K3 & A3).
  apply update_invoice_amt_paid_Ok in H.
  exists h. rewrite E2 in M3, K3, A3. cbn in M3, K3, A3. rewrite M1 in M3, K3, A3.
  subst inv inv'. rewrite H. clear H. cbn. rewrite (keeps_state _ _ F3).
  split; [split; try done; cbn|].
  - by rewrite (keeps_terms _ _ F3), E2, <-(keeps_terms _ _ F1).
  - by rewrite (keeps_hodl _ _ F3), E2, <-(keeps_hodl _ _ F1).
  - rewrite (keeps_state _ _ F3). destruct (iu_state update); [|by rewrite N2, (keeps_state _ _ F1)].
    destruct N2 as [G2 N2]. split; [by exists (u_inv s1)|]. by rewrite N2, (keeps_state _ _ F1).
  - split_and!; [exact M3 | exact K3 |].
    intros Hamp. unfold set_id, update_set_id. rewrite Hamp in A3 |- *. exact A3.
Qed.

Lemma settle_loop time s a s' a' :
  fold_result (settle_one time) (order (i_htlcs (u_inv s))) (s, a) = Ok (s', a') →
  let g (h : invoice_htlc) :=
    match get_updated_htlc_state h ContractSettled None with
    | Ok (true, _) => set_h_state HtlcStateSettled time h
    | _ => h
    end in
  keeps (u_inv s) (u_inv s') ∧
  i_htlcs (u_inv s') = map_imap (λ k h, Some (g h)) (i_htlcs (u_inv s)) ∧
  (∀ k h, i_htlcs (u_inv s) !! k = Some h → is_ok (get_updated_htlc_state h ContractSettled None) = true) ∧
  a' = foldl (λ a kh, match get_updated_htlc_state kh.2 ContractSettled None with
                      | Ok (true, _) => u64 (a + h_amt kh.2)
                      | _ => a
                      end) a (order (i_htlcs (u_inv s))).
Proof.
  intros H g.
  apply (map_loop (λ s, u_inv s.1) snd (settle_one time) (u_inv s) (λ _, g)
    (λ a kh, match get_updated_htlc_state kh.2 ContractSettled None with
             | Ok (true, _) => u64 (a + h_amt kh.2)
             | _ => a
             end)
    (λ _ h, is_ok (get_updated_htlc_state h ContractSettled None) = true) (s, a) (s', a')); [|done | done].
  intros [s1 a1] k h [s2 a2] _ Hk H1. cbn [fst snd] in *. unfold settle_one in H1. unfold g.
  apply rbind_Ok in H1 as ([settled st] & H2 & H1). rewrite H2. destruct settled.
  - apply rbind_Ok in H1 as ([s3 h3] & H3 & [= <- <-]). apply resolve_htlc_Ok in H3 as (-> & ->).
    by destruct (u_inv s1).
  - injection H1 as <- <-. by rewrite insert_id by done.
Qed.

Lemma cancel_htlcs_amp_Ok key h s s' :
  cancel_htlcs_amp key h s = Ok s' →
  keeps (u_inv s) (u_inv s') ∧ i_htlcs (u_inv s') = i_htlcs (u_inv s).
Proof.
  unfold cancel_htlcs_amp. destruct (h_amp h); [|done]. intros H.
  apply rbind_Ok in H as (s1 & H1 & H). apply write_amp_state_Ok in H1 as [F <-].
  destruct (negb _).
  - apply update_invoice_amt_paid_Ok in H as ->. destruct F. done.
  - by injection H as <-.
Qed.

Lemma cancel_loop time set_id s s' :
  fold_result (cancel_one time set_id) (order (i_htlcs (u_inv s))) s = Ok s' →
  let g (h : invoice_htlc) :=
    if bool_decide (h_state h = HtlcStateCanceled) then h else set_h_state HtlcStateCanceled time h in
  keeps (u_inv s) (u_inv s') ∧
  i_htlcs (u_inv s') = map_imap (λ k h, Some (g h)) (i_htlcs (u_inv s)) ∧
  (∀ k h, i_htlcs (u_inv s) !! k = Some h → h_state h ≠ HtlcStateSettled).
Proof.
  intros H g.
  destruct (map_loop u_inv (λ _, 0) (cancel_one time set_id) (u_inv s) (λ _, g) (λ a _, a)
    (λ _ h, h_state h ≠ HtlcStateSettled) s s') as (F & M & K & _); [|done..].
  intros s1 k h s2 _ Hk H1. unfold cancel_one in H1.
  apply rbind_Ok in H1 as ([canceled st] & H2 & H1).
  unfold get_updated_htlc_state in H2. rewrite bool_decide_eq_false_2 in H2 by done.
  case_bool_decide as Hst; [done|]. injection H2 as <- <-. unfold g. case_bool_decide; cbn in H1.
  - injection H1 as <-. by rewrite insert_id by done.
  - apply rbind_Ok in H1 as ([s3 h3] & H3 & H1). apply resolve_htlc_Ok in H3 as (-> & H3).
    assert (keeps (u_inv s3) (u_inv s2) ∧ i_htlcs (u_inv s2) = i_htlcs (u_inv s3)) as [F M].
    { case_bool_decide; [by apply cancel_htlcs_amp_Ok in H1 | by injection H1 as <-]. }
    rewrite M, H3. split_and!; try done. etrans; [|exact F]. by rewrite H3.
Qed.

Definition canceled_in (time : Z) (X : list circuit_key) (k : circuit_key) (h : invoice_htlc) : invoice_htlc :=
  if bool_decide (k ∈ X) then set_h_state HtlcStateCanceled time h else h.

Lemma cancel_htlc_Ok time s k s' :
  cancel_htlc time s (k, tt) = Ok s' →
  ∃ h, i_htlcs (u_inv s) !! k = Some h ∧ i_state (u_inv s) = ContractOpen ∧
    h_state h = HtlcStateAccepted ∧ keeps (u_inv s) (u_inv s') ∧
    i_htlcs (u_inv s') = <[k := set_h_state HtlcStateCanceled time h]> (i_htlcs (u_inv s)) ∧
    (is_amp (u_inv s) = false → i_amt_paid (u_inv s') = i_amt_paid (u_inv s)).
Proof.
  unfold cancel_htlc. cbn [fst]. destruct (i_htlcs (u_inv s) !! k) as [h|] eqn:Hk; [|done]. intros H.
  apply rbind_Ok in H as (u & H1 & H). unfold can_cancel_single_htlc in H1.
  destruct (bool_decide_reflect (i_state (u_inv s) = ContractOpen)); [|done].
  destruct (bool_decide_reflect (h_state h = HtlcStateAccepted)); [|done].
  apply rbind_Ok in H as ([s1 h1] & H2 & H). apply resolve_htlc_Ok in H2 as (-> & H2).
  exists h. assert (keeps (u_inv s) (u_inv s1)) as F by (by rewrite H2).
  rewrite (keeps_is_amp _ _ F) in H. destruct (is_amp (u_inv s)).
  - apply cancel_htlcs_amp_Ok in H as [F2 M]. rewrite M, H2. split_and!; try done. by etrans.
  - injection H as <-. by rewrite H2.
Qed.

Lemma cancel_list time l s s' :
  fold_result (cancel_htlc time) l s = Ok s' → NoDup l.*1 →
  keeps (u_inv s) (u_inv s') ∧
  i_htlcs (u_inv s') = map_imap (λ k h, Some (canceled_in time l.*1 k h)) (i_htlcs (u_inv s)) ∧
  (∀ k, k ∈ l.*1 → ∃ h, i_htlcs (u_inv s) !! k = Some h ∧ h_state h = HtlcStateAccepted) ∧
  (l ≠ [] → i_state (u_inv s) = ContractOpen) ∧
  (is_amp (u_inv s) = false → i_amt_paid (u_inv s') = i_amt_paid (u_inv s)).
Proof.
  revert s. induction l as [|[k []] l IH]; intros s H Hd; cbn [fold_result] in H.
  - injection H as <-. split_and!; try done.
    + apply map_eq. intros k. rewrite map_lookup_imap. by destruct (_ !! k).
    + intros k Hk. by apply elem_of_nil in Hk.
  - apply rbind_Ok in H as (s1 & H1 & H). cbn [fmap list_fmap fst] in Hd.
    apply NoDup_cons in Hd as [Hk Hd].
    apply cancel_htlc_Ok in H1 as (h & Hkh & Ho & Hs & F1 & M1 & A1).
    destruct (IH s1 H Hd) as (F & M & K & _ & A). rewrite (keeps_is_amp _ _ F1) in A. split_and!.
    + by etrans.
    + rewrite M, M1. apply map_eq. intros j. rewrite !map_lookup_imap. cbn [fmap list_fmap fst].
      destruct (decide (j = k)) as [->|Hj].
      * rewrite lookup_insert_eq, Hkh. cbn. unfold canceled_in.
        rewrite bool_decide_eq_false_2 by done. by rewrite bool_decide_eq_true_2 by by left.
      * rewrite lookup_insert_ne by done. destruct (_ !! j); [|done]. cbn. unfold canceled_in.
        by rewrite (bool_decide_ext (j ∈ k :: l.*1) (j ∈ l.*1)) by (rewrite elem_of_cons; naive_solver).
    + intros j [->|Hj]%elem_of_cons; [by exists h|]. destruct (K j Hj) as (x & Hx & Hsx).
      rewrite M1, lookup_insert_ne in Hx; [by exists x | by intros <-].
    + done.
    + intros Hamp. by rewrite A, A1.
Qed.

Lemma cancel_htlcs_Ok time update s s' :
  cancel_htlcs time update s = Ok s' →
  ∃ X, (∀ k, k ∈ X ↔ k ∈ iu_cancel_htlcs update) ∧
  keeps (u_inv s) (u_inv s') ∧
  i_htlcs (u_inv s') = map_imap (λ k h, Some (canceled_in time X k h)) (i_htlcs (u_inv s)) ∧
  (∀ k, k ∈ X → ∃ h, i_htlcs (u_inv s) !! k = Some h ∧ h_state h = HtlcStateAccepted) ∧
  (X ≠ [] → i_state (u_inv s) = ContractOpen) ∧
  (is_amp (u_inv s) = false → i_amt_paid (u_inv s') = i_amt_paid (u_inv s)).
Proof.
  intros H. apply cancel_list in H as (F & M & K & Ho & A).
  - eexists. split; [|split_and!; [done | exact M | done | | done]].
    + intros k. unfold set_order. rewrite (order_perm _), list_elem_of_fmap. split.
      * intros ([j []] & -> & Hj). apply elem_of_map_to_list, lookup_gset_to_gmap_Some in Hj as [Hj _]. done.
      * intros Hk. exists (k, tt). split; [done|]. apply elem_of_map_to_list.
        by apply lookup_gset_to_gmap_Some.
    + intros Hne. apply Ho. by intros E; rewrite E in Hne.
  - unfold set_order. rewrite (order_perm _). apply NoDup_fst_map_to_list.
Qed.
End Props.
