(* ===== verification/InvoicePaid.v ===== *)
(** * Invoices: an invoice that is settled is paid

    Invoices that are not AMP. Whatever the registry's operations do to one,
    in any order, the amount paid is that of its HTLCs, an invoice is accepted
    or settled only with its value in HTLCs, and its HTLCs follow its state. *)

From S2P Require Import Prelude Features Amp Invoices InvoiceToy InvoiceProps.

Section Paid.
Context `{S : Sha256} `{O : MapOrder} `{U : Updater}.

Definition not_canceled (_ : circuit_key) (h : invoice_htlc) : bool :=
  negb (bool_decide (h_state h = HtlcStateCanceled)).

(** The amount of the HTLCs that are not canceled. *)
Definition live (inv : invoice) : Z := amount not_canceled (i_htlcs inv).

(** What the states of an invoice promise. *)
Definition state_ok (inv : invoice) : Prop :=
  match i_state inv with
  | ContractOpen =>
      i_amt_paid inv = 0 ∧ ∀ k h, i_htlcs inv !! k = Some h → h_state h ≠ HtlcStateSettled
  | ContractAccepted =>
      i_hodl_invoice inv = true ∧ i_amt_paid inv = live inv ∧ t_value (i_terms inv) ≤ live inv ∧
      ∀ k h, i_htlcs inv !! k = Some h → h_state h ≠ HtlcStateSettled
  | ContractSettled =>
      is_Some (t_payment_preimage (i_terms inv)) ∧
      i_amt_paid inv = live inv ∧ t_value (i_terms inv) ≤ live inv ∧
      ∀ k h, i_htlcs inv !! k = Some h → h_state h ≠ HtlcStateAccepted
  | ContractCanceled => ∀ k h, i_htlcs inv !! k = Some h → h_state h = HtlcStateCanceled
  end.

(** An invoice for the payment hash [hash]. *)
Record inv_ok (hash : bytes) (inv : invoice) : Prop := {
  ok_kind : is_amp inv = false;
  ok_preimage p : t_payment_preimage (i_terms inv) = Some p → preimage_hash p = hash;
  ok_htlc k h : i_htlcs inv !! k = Some h → h_amp h = None ∧ 0 ≤ h_amt h;
  ok_live : live inv < 2 ^ 64;
  ok_state : state_ok inv;
}.

(** ** What the registry decides *)

Inductive plan (c : update_ctx) (inv : invoice) :
    option invoice_state_update_desc → resolution → Prop :=
| plan_partial :
    i_state inv = ContractOpen → plan c inv None (accept_res c resultPartialAccepted)
| plan_again :
    i_state inv = ContractAccepted → plan c inv None (accept_res c resultDuplicateToAccepted)
| plan_settle_again p :
    i_state inv = ContractSettled → t_payment_preimage (i_terms inv) = Some p →
    plan c inv None (settle_res c p ResultDuplicateToSettled)
| plan_hold :
    i_state inv = ContractOpen → i_hodl_invoice inv = true →
    t_value (i_terms inv) ≤ live inv + c_amt_paid c →
    plan c inv (Some (InvoiceStateUpdateDesc ContractAccepted None ∅ None)) (accept_res c resultAccepted)
| plan_settle p :
    i_state inv = ContractOpen → i_hodl_invoice inv = false →
    t_value (i_terms inv) ≤ live inv + c_amt_paid c → t_payment_preimage (i_terms inv) = Some p →
    plan c inv (Some (InvoiceStateUpdateDesc ContractSettled (Some p) ∅ None)) (settle_res c p ResultSettled).

Lemma set_total_Some total acc l w :
  set_total total acc l = Some w → w = foldl (λ a (kh : circuit_key * invoice_htlc), u64 (a + h_amt kh.2)) acc l.
Proof.
  revert acc. induction l as [|[k h] l IH]; intros acc; cbn [set_total]; [by intros [= <-]|].
  destruct (negb _); [done|]. apply IH.
Qed.

Lemma amount_nonneg (f : circuit_key → invoice_htlc → bool) (m : gmap circuit_key invoice_htlc) :
  (∀ k h, m !! k = Some h → 0 ≤ h_amt h) → 0 ≤ amount f m.
Proof. intros Hm. apply msum_nonneg. intros k h Hk. destruct (f k h); [by eapply Hm | done]. Qed.

(** The set's total is what waits, of what the invoice has. *)
Lemma waiting_total hash inv set_id total w :
  inv_ok hash inv → set_total total 0 (order (htlc_set inv set_id HtlcStateAccepted)) = Some w →
  0 ≤ w ≤ live inv.
Proof.
  intros Hok Hw. apply set_total_Some in Hw. set (m := htlc_set inv set_id HtlcStateAccepted) in *.
  assert (∀ k h, m !! k = Some h → i_htlcs inv !! k = Some h ∧ h_state h = HtlcStateAccepted) as Hm.
  { intros k h [Hk Hc]%map_lookup_filter_Some. split; [done|]. cbn in Hc.
    apply andb_prop in Hc as [Hc _]. by apply bool_decide_eq_true in Hc. }
  assert (∀ k h, m !! k = Some h → 0 ≤ h_amt h) as Hpos.
  { intros k h [Hk _]%Hm. by apply (ok_htlc _ _ Hok k h). }
  assert (amount (λ _ _, true) m ≤ live inv) as Hle.
  { unfold amount, live, m, htlc_set. rewrite msum_filter. apply msum_le. intros k h Hk.
    pose proof (proj2 (ok_htlc _ _ Hok k h Hk)). unfold not_canceled.
    case_bool_decide as Hc; cbn in Hc; [|by case_match].
    apply andb_prop in Hc as [Hc _]. apply bool_decide_eq_true in Hc. by rewrite Hc. }
  pose proof (amount_nonneg (λ _ _, true) m Hpos). pose proof (ok_live _ _ Hok).
  pose proof (order_amount (λ _ _, true) m 0 Hpos) as E. cbn in E. rewrite E in Hw; lia.
Qed.

Lemma update_mpp_plan hash c inv u res :
  inv_ok hash inv → 0 ≤ c_amt_paid c → live inv + c_amt_paid c < 2 ^ 64 →
  update_mpp c inv = Ok (Some u, res) →
  ∃ st d, u = add_update st c d ∧ ad_amt d = c_amt_paid c ∧ plan c inv st res.
Proof.
  intros Hok Hpos Hmax. unfold update_mpp. intros H. apply rbind_Ok in H as (req & Hreq & H).
  assert (req = false) as ->.
  { unfold requires_amp in Hreq. pose proof (ok_kind _ _ Hok) as Hk. unfold is_amp in Hk.
    destruct (t_features (i_terms inv)) as [fv|]; [|done]. injection Hreq as <-.
    unfold has_feature in Hk. apply orb_false_iff in Hk as [Hk _]. exact Hk. }
  cbn [andb negb] in H. destruct (bool_decide_reflect (is_Some (c_amp c))) as [|Hamp]; [done|].
  assert (c_amp c = None) as Ec by (destruct (c_amp c); [exfalso; apply Hamp; by eexists | done]).
  assert (ctx_set_id c = None) as Eid by (unfold ctx_set_id; by rewrite Ec).
  rewrite Eid, Ec in H. apply rbind_Ok in H as ([total addr] & _ & H).
  case_bool_decide as Ho; [|done]. cbn [negb] in H. case_match; [done|]. case_match; [done|].
  destruct (Z.ltb_spec total (t_value (i_terms inv))) as [|Hval]; [done|].
  destruct (set_total _ _ _) as [w|] eqn:Hw; [|done].
  pose proof (waiting_total _ _ _ _ _ Hok Hw) as [Hw1 Hw2].
  case_match; [done|]. case_match; [done|]. rewrite bool_decide_eq_false_2 in H by done.
  rewrite u64_small in H by in_range. rewrite Z.geb_leb in H. destruct (Z.leb_spec total (w + c_amt_paid c)) as [Hge|]; cbn [negb] in H.
  2: { injection H as <- <-. do 2 eexists. split_and!; [done | done | by constructor]. }
  unfold settle_mpp in H. rewrite Ec in H. destruct (i_hodl_invoice inv) eqn:Hh.
  - injection H as <- <-. do 2 eexists. split_and!; [done | done | constructor; try done; lia].
  - destruct (t_payment_preimage (i_terms inv)) eqn:Hp; [|done]. injection H as <- <-.
    do 2 eexists. split_and!; [done | done | constructor; try done; lia].
Qed.

Lemma update_legacy_plan hash c inv u res :
  inv_ok hash inv → update_legacy c inv = Ok (Some u, res) →
  ∃ st d, u = add_update st c d ∧ ad_amt d = c_amt_paid c ∧ plan c inv st res.
Proof.
  intros Hok. assert (0 ≤ live inv) as Hl.
  { apply amount_nonneg. intros k h Hk. by apply (ok_htlc _ _ Hok k h). }
  unfold update_legacy. destruct (is_amp inv); [done|]. case_bool_decide; [done|].
  destruct (Z.ltb_spec (c_amt_paid c) (t_value (i_terms inv))) as [|Hv]; [done|].
  destruct (t_features (i_terms inv)); [|done]. do 4 (case_match; [done|]).
  unfold settle_legacy. intros H4.
  destruct (i_state inv) eqn:Hst; [| | done |].
  - destruct (i_hodl_invoice inv) eqn:Hh.
    + injection H4 as <- <-. do 2 eexists. split_and!; [done | done | constructor; try done; lia].
    + destruct (t_payment_preimage (i_terms inv)) eqn:Hp; [|done]. injection H4 as <- <-.
      do 2 eexists. split_and!; [done | done | constructor; try done; lia].
  - destruct (t_payment_preimage (i_terms inv)) eqn:Hp; [|done]. injection H4 as <- <-.
    do 2 eexists. split_and!; [done | done | by constructor].
  - injection H4 as <- <-. do 2 eexists. split_and!; [done | done | by constructor].
Qed.

Lemma update_invoice_plan hash c inv u res :
  inv_ok hash inv → 0 ≤ c_amt_paid c → live inv + c_amt_paid c < 2 ^ 64 →
  update_invoice c inv = Ok (Some u, res) →
  ∃ st d, u = add_update st c d ∧ ad_amt d = c_amt_paid c ∧ plan c inv st res.
Proof.
  intros ???. unfold update_invoice. destruct (_ && _); [done|]. destruct (_ && _).
  - by apply (update_legacy_plan hash).
  - by apply (update_mpp_plan hash).
Qed.

(** ** Adding an HTLC *)

Definition settled_by (time : Z) (st : contract_state) (h : invoice_htlc) : invoice_htlc :=
  if bool_decide (st = ContractSettled) && bool_decide (h_state h = HtlcStateAccepted)
  then set_h_state HtlcStateSettled time h else h.

Lemma aligned_plain time update st k h :
  h_amp h = None → st ≠ ContractCanceled →
  aligned time None false update st k h = settled_by time st h ∧
  (is_ok (get_updated_htlc_state (preimage_put None update k h) (context_state false st) None) = true →
   st = ContractSettled ∨ h_state h ≠ HtlcStateSettled).
Proof.
  intros Ha Hst. unfold aligned, settled_by. cbn [preimage_put context_state].
  unfold get_updated_htlc_state, try_settle, is_in_htlc_set. rewrite Ha.
  destruct st; [ | | done | ]; destruct (h_state h) eqn:Hs; cbn; rewrite ?Hs; cbn; split; naive_solver.
Qed.

Lemma settled_by_fields time st h :
  h_amt (settled_by time st h) = h_amt h ∧ h_amp (settled_by time st h) = h_amp h ∧
  (h_state (settled_by time st h) = HtlcStateCanceled ↔ h_state h = HtlcStateCanceled).
Proof.
  unfold settled_by. destruct (_ && _) eqn:E; [|done]. split_and!; [done..|].
  apply andb_prop in E as [_ E]. apply bool_decide_eq_true in E. rewrite E. done.
Qed.

(** Live amounts do not depend on whether an HTLC is accepted or settled. *)
Lemma live_settled_by time st m :
  amount not_canceled (map_imap (λ k h, Some (settled_by time st h)) m) = amount not_canceled m.
Proof.
  unfold amount. rewrite msum_imap. apply msum_ext. intros k h _. unfold not_canceled.
  destruct (settled_by_fields time st h) as (-> & _ & E). by rewrite (bool_decide_ext _ _ E).
Qed.

(** What the loop of [addHTLCs] counts. *)
Lemma counted_plain time update st m :
  (∀ k h, m !! k = Some h → h_amp h = None) → st ≠ ContractCanceled →
  amount (λ k h, counts false update st k (aligned time None false update st k h)) m =
  if bool_decide (st = ContractOpen) then 0 else amount not_canceled m.
Proof.
  intros Hm Hst. case_bool_decide as Ho.
  - subst st. by apply msum_zero.
  - apply msum_ext. intros k h Hk.
    destruct (aligned_plain time update st k h) as [-> _]; [by eapply Hm | done|].
    assert (counts false update st k (settled_by time st h) = not_canceled k h) as ->; [|done].
    unfold counts, is_ready, not_canceled, settled_by. rewrite (bool_decide_eq_false_2 _ Ho).
    by destruct st, h as [? ? ? ? ? ? [] ? ?].
Qed.

Record add_effect (time : Z) (c : update_ctx) (new : option invoice_state_update_desc)
    (inv inv' : invoice) (h : invoice_htlc) : Prop := {
  ae_fresh : i_htlcs inv !! c_circuit_key c = None;
  ae_amt : h_amt h = c_amt_paid c;
  ae_state : h_state h = HtlcStateAccepted;
  ae_amp : h_amp h = None;
  ae_terms : i_terms inv' = i_terms inv;
  ae_hodl : i_hodl_invoice inv' = i_hodl_invoice inv;
  ae_new : i_state inv' = match new with Some d => su_new_state d | None => i_state inv end;
  ae_htlcs : i_htlcs inv' = map_imap (λ _ h, Some (settled_by time (i_state inv') h))
                              (<[c_circuit_key c := h]> (i_htlcs inv));
  ae_live : live inv' = live inv + c_amt_paid c;
  ae_paid : i_amt_paid inv' = if bool_decide (i_state inv' = ContractOpen) then 0 else live inv';
  ae_settled : i_state inv' = ContractSettled ∨
    ∀ k h, i_htlcs inv' !! k = Some h → h_state h ≠ HtlcStateSettled;
}.

Lemma plan_state c inv new res :
  plan c inv new res →
  let st := match new with Some d => su_new_state d | None => i_state inv end in
  update_eligible (add_update new c (HtlcAcceptDesc 0 0 0 0 None None)) = false ∧ st ≠ ContractCanceled.
Proof. destruct 1; (split; [done | cbn; congruence]). Qed.

Lemma add_effective hash0 hash time c inv new d res s' :
  inv_ok hash inv → 0 ≤ c_amt_paid c → live inv + c_amt_paid c < 2 ^ 64 →
  ad_amt d = c_amt_paid c → plan c inv new res →
  add_htlcs hash0 time (add_update new c d) (UpdState inv []) = Ok s' →
  ∃ h, add_effect time c new inv (u_inv s') h.
Proof.
  intros Hok Hpos Hmax Had Hplan H. apply (add_htlcs_one _ _ _ (c_circuit_key c) d) in H; [|done].
  cbn [u_inv] in H. destruct H as (h & Hadd & M & K & A).
  pose proof (ok_kind _ _ Hok) as Hamp. specialize (A Hamp). destruct Hadd.
  unfold update_set_id in *. rewrite Hamp in *. destruct (plan_state _ _ _ _ Hplan) as [Hel Hst].
  assert (i_state (u_inv s') = match new with Some d => su_new_state d | None => i_state inv end) as Est.
  { cbn in added_new_state. destruct new; [by destruct added_new_state as [_ ->]|done]. }
  rewrite Est in *. set (st := match new with Some d => _ | None => _ end) in *.
  change (update_eligible (add_update new c d) = false) in Hel. rewrite Hel in *.
  set (m := <[c_circuit_key c := h]> (i_htlcs inv)) in *.
  assert (∀ k x, m !! k = Some x → h_amp x = None ∧ 0 ≤ h_amt x) as Hm.
  { intros k x [[<- <-] | [_ Hk]]%lookup_insert_Some; [by rewrite added_amt, Had | by eapply ok_htlc]. }
  assert (map_imap (λ k h, Some (aligned time None false (add_update new c d) st k h)) m =
          map_imap (λ _ h, Some (settled_by time st h)) m) as Em.
  { apply map_eq. intros k. rewrite !map_lookup_imap. destruct (m !! k) as [x|] eqn:Hk; [cbn|done].
    f_equal. by apply aligned_plain; [eapply Hm|]. }
  assert (amount not_canceled m = live inv + c_amt_paid c) as Hlive.
  { unfold amount, m. rewrite msum_insert by done.
    assert (not_canceled (c_circuit_key c) h = true) as -> by (unfold not_canceled; by rewrite added_state).
    rewrite added_amt, Had. unfold live, amount. lia. }
  assert (live (u_inv s') = live inv + c_amt_paid c) as Elive by (unfold live; by rewrite M, Em, live_settled_by).
  set (f k x := counts false (add_update new c d) st k (aligned time None false (add_update new c d) st k x)) in *.
  assert (amount f m = if bool_decide (st = ContractOpen) then 0 else live inv + c_amt_paid c) as Ef.
  { unfold f. rewrite counted_plain; [by rewrite Hlive | intros k x Hk; by apply (Hm k) | done]. }
  assert (0 + amount f m < 2 ^ 64) as Hf by (rewrite Ef; case_bool_decide; lia).
  pose proof (order_amount f m 0 (λ k x Hk, proj2 (Hm k x Hk)) ltac:(done) Hf) as Ea.
  exists h. split; try done.
  - by rewrite added_amt.
  - rewrite Est, M. exact Em.
  - rewrite Est, Elive. etrans; [exact A|]. etrans; [exact Ea|]. by rewrite Ef.
  - destruct (decide (st = ContractSettled)) as [|Hns]; [by left; rewrite Est|right].
    intros k x. rewrite M, Em, map_lookup_imap. destruct (m !! k) as [y|] eqn:Hk; [cbn|done].
    intros [= <-]. unfold settled_by. rewrite (bool_decide_eq_false_2 _ Hns). cbn.
    destruct (aligned_plain time (add_update new c d) st k y) as [_ Hy]; [by eapply Hm | done|].
    destruct (Hy (K k y Hk)); done.
Qed.

Lemma add_kept hash time c new res inv inv' h :
  inv_ok hash inv → 0 ≤ c_amt_paid c → live inv + c_amt_paid c < 2 ^ 64 →
  plan c inv new res → add_effect time c new inv inv' h → inv_ok hash inv'.
Proof.
  intros Hok Hpos Hmax Hplan []. split.
  - unfold is_amp. rewrite ae_terms0. apply (ok_kind _ _ Hok).
  - rewrite ae_terms0. apply (ok_preimage _ _ Hok).
  - intros k x. rewrite ae_htlcs0, map_lookup_imap.
    destruct (<[_:=h]> _ !! k) as [y|] eqn:Hk; [cbn|done]. intros [= <-].
    destruct (settled_by_fields time (i_state inv') y) as (-> & -> & _).
    apply lookup_insert_Some in Hk as [[<- <-] | [_ Hk]]; [by rewrite ae_amt0 | by eapply ok_htlc].
  - lia.
  - assert (i_state inv' = ContractSettled → ∀ k x, i_htlcs inv' !! k = Some x → h_state x ≠ HtlcStateAccepted) as Hacc.
    { intros Hs k x. rewrite ae_htlcs0, map_lookup_imap, Hs.
      destruct (<[_:=h]> _ !! k) as [y|]; [cbn|done]. intros [= <-]. unfold settled_by. cbn.
      by destruct (bool_decide_reflect (h_state y = HtlcStateAccepted)). }
    pose proof (ok_state _ _ Hok) as Hst. unfold state_ok in Hst |- *. rewrite ae_terms0, ae_hodl0.
    destruct Hplan as [Ho | Ho | p Ho Hp | Ho Hh Hv | p Ho Hh Hv Hp]; cbn in ae_new0; rewrite Ho in *;
      rewrite ae_new0 in *; (destruct ae_settled0 as [?|Hns]; [try done|]); cbn in ae_paid0.
    all: try (split_and!; try done; lia).
    + destruct Hst as (? & ? & ? & ?). split_and!; try done; lia.
    + destruct Hst as (? & ? & ? & ?). split_and!; try done; try lia. by apply Hacc.
    + destruct Hst as (? & ? & ? & ?). split_and!; try done; try lia. by apply Hacc.
    + split_and!; try done; try lia. by apply Hacc.
    + split_and!; try done; try lia. by apply Hacc.
Qed.

(** ** The other operations *)

Definition settles (_ : circuit_key) (h : invoice_htlc) : bool :=
  bool_decide (h_state h = HtlcStateAccepted) && is_in_htlc_set h None.

Lemma try_settle_plain h :
  get_updated_htlc_state h ContractSettled None =
  Ok (if bool_decide (h_state h = HtlcStateAccepted) && is_in_htlc_set h None
      then (true, HtlcStateSettled) else (false, h_state h)).
Proof.
  unfold get_updated_htlc_state, try_settle. rewrite bool_decide_eq_true_2 by done.
  destruct (bool_decide (h_state h = _)); cbn; [|done].
  unfold is_in_htlc_set. by destruct (h_amp h).
Qed.

Lemma settle_hodl_kept hash hash0 time p inv s' :
  inv_ok hash inv → i_state inv = ContractAccepted → preimage_hash p = hash →
  settle_hodl_invoice hash0 time (Some (InvoiceStateUpdateDesc ContractSettled (Some p) ∅ None))
    (UpdState inv []) = Ok s' →
  inv_ok hash (u_inv s') ∧ i_state (u_inv s') = ContractSettled ∧
  t_payment_preimage (i_terms (u_inv s')) = Some p.
Proof.
  intros Hok Hst Hp H. unfold settle_hodl_invoice in H. destruct (negb _); [done|]. cbn in H.
  apply rbind_Ok in H as (st & _ & H). case_match; [|done]. apply rbind_Ok in H as (s1 & H1 & H).
  apply call_Ok in H1. apply rbind_Ok in H as ([s2 amt] & H2 & H). apply (settle_loop time
    (with_inv (λ i, set_i_preimage (Some p) (set_i_state ContractSettled i)) s1)) in H2 as (F & M & _ & A).
  apply update_invoice_amt_paid_Ok in H. cbn in F, M, A. rewrite H1 in F, M, A. cbn in F, M, A.
  pose proof (ok_state _ _ Hok) as Hs. unfold state_ok in Hs. rewrite Hst in Hs.
  destruct Hs as (Hh & Hpaid & Hval & Hns).
  assert (amt = live inv) as ->.
  { assert (amount settles (i_htlcs inv) = live inv) as E.
    { apply msum_ext. intros k h Hk. unfold settles, not_canceled, is_in_htlc_set.
      rewrite (proj1 (ok_htlc _ _ Hok k h Hk)). specialize (Hns k h Hk). by destruct (h_state h). }
    rewrite A, (foldl_pointwise _ (λ a kh, if settles kh.1 kh.2 then u64 (a + h_amt kh.2) else a)).
    - rewrite order_amount; [by rewrite E | | done | rewrite E; apply (ok_live _ _ Hok)].
      intros k h Hk. by apply (ok_htlc _ _ Hok k h).
    - intros a [k h]. cbn. rewrite try_settle_plain. unfold settles. by destruct (_ && _). }
  assert (i_htlcs (u_inv s2) = map_imap (λ _ h, Some (settled_by time ContractSettled h)) (i_htlcs inv)) as E.
  { rewrite M. apply map_eq. intros k. rewrite !map_lookup_imap. destruct (i_htlcs inv !! k) as [h|] eqn:Hk; [cbn|done].
    f_equal. rewrite try_settle_plain. unfold settled_by, is_in_htlc_set.
    rewrite (proj1 (ok_htlc _ _ Hok k h Hk)). by destruct (h_state h). }
  assert (live (u_inv s') = live inv) as El by (unfold live; rewrite H; cbn; by rewrite E, live_settled_by).
  assert (i_terms (u_inv s') = i_terms (set_i_preimage (Some p) inv)) as Et by (rewrite H; apply (keeps_terms _ _ F)).
  assert (i_state (u_inv s') = ContractSettled) as Es by (rewrite H; apply (keeps_state _ _ F)).
  assert (i_htlcs (u_inv s') = i_htlcs (u_inv s2)) as Em by (by rewrite H).
  split_and!; [split | done | by rewrite Et].
  - rewrite <-(ok_kind _ _ Hok). unfold is_amp. by rewrite Et.
  - rewrite Et. by intros q [= <-].
  - rewrite Em, E. intros k x. rewrite map_lookup_imap. destruct (i_htlcs inv !! k) as [h|] eqn:Hk; [cbn|done].
    intros [= <-]. destruct (settled_by_fields time ContractSettled h) as (-> & -> & _). by eapply ok_htlc.
  - rewrite El. apply (ok_live _ _ Hok).
  - unfold state_ok. rewrite Es, Et, Em, E, El. split_and!; [by eexists | by rewrite H | done |].
    intros k x. rewrite map_lookup_imap. destruct (i_htlcs inv !! k) as [h|]; [cbn|done].
    intros [= <-]. unfold settled_by. cbn. by destruct (bool_decide_reflect (h_state h = HtlcStateAccepted)).
Qed.

Lemma canceled_in_fields time X k h :
  h_amt (canceled_in time X k h) = h_amt h ∧ h_amp (canceled_in time X k h) = h_amp h ∧
  (h_state h = HtlcStateCanceled → h_state (canceled_in time X k h) = HtlcStateCanceled) ∧
  (h_state (canceled_in time X k h) = HtlcStateSettled → h_state h = HtlcStateSettled).
Proof. unfold canceled_in. by case_bool_decide. Qed.

Lemma cancel_htlcs_kept hash time update inv s' :
  inv_ok hash inv → cancel_htlcs time update (UpdState inv []) = Ok s' → inv_ok hash (u_inv s').
Proof.
  intros Hok H. apply cancel_htlcs_Ok in H as (X & _ & F & M & K & Ho & A). cbn in *.
  specialize (A (ok_kind _ _ Hok)).
  assert (live (u_inv s') ≤ live inv) as Hle.
  { unfold live, amount. rewrite M, msum_imap. apply msum_le. intros k h Hk. unfold not_canceled.
    pose proof (proj2 (ok_htlc _ _ Hok k h Hk)).
    destruct (canceled_in_fields time X k h) as (-> & _ & Hc & _).
    destruct (bool_decide_reflect (h_state h = HtlcStateCanceled)) as [E|E]; [by rewrite Hc|].
    by case_bool_decide. }
  split.
  - rewrite (keeps_is_amp _ _ F). apply (ok_kind _ _ Hok).
  - rewrite (keeps_terms _ _ F). apply (ok_preimage _ _ Hok).
  - intros k x. rewrite M, map_lookup_imap. destruct (i_htlcs inv !! k) as [h|] eqn:Hk; [cbn|done].
    intros [= <-]. destruct (canceled_in_fields time X k h) as (-> & -> & _). by eapply ok_htlc.
  - pose proof (ok_live _ _ Hok). lia.
  - destruct (decide (X = [])) as [->|HX].
    + assert (i_htlcs (u_inv s') = i_htlcs inv) as Em.
      { rewrite M. apply map_eq. intros k. rewrite map_lookup_imap. destruct (_ !! k); [cbn|done].
        unfold canceled_in. by rewrite bool_decide_eq_false_2 by (by intros ?%elem_of_nil). }
      pose proof (ok_state _ _ Hok) as Hs. unfold state_ok, live in *.
      by rewrite (keeps_state _ _ F), (keeps_terms _ _ F), (keeps_hodl _ _ F), Em, A.
    + pose proof (ok_state _ _ Hok) as Hs. unfold state_ok in *. rewrite (keeps_state _ _ F), A.
      rewrite (Ho HX) in *. destruct Hs as [? Hns]. split; [done|].
      intros k x. rewrite M, map_lookup_imap. destruct (i_htlcs inv !! k) as [h|] eqn:Hk; [cbn|done].
      intros [= <-] Hx. by apply canceled_in_fields in Hx; eapply Hns.
Qed.

Lemma cancel_invoice_kept hash hash0 time inv s' :
  inv_ok hash inv →
  cancel_invoice hash0 time (Some (InvoiceStateUpdateDesc ContractCanceled None ∅ None))
    (UpdState inv []) = Ok s' →
  inv_ok hash (u_inv s') ∧ i_state (u_inv s') = ContractCanceled.
Proof.
  intros Hok H. unfold cancel_invoice in H. cbn [su_new_state] in H. rewrite bool_decide_eq_true_2 in H by done.
  apply rbind_Ok in H as (st & _ & H). case_match; [|done]. apply rbind_Ok in H as (s1 & H1 & H).
  apply call_Ok in H1. apply (cancel_loop time _ (with_inv (set_i_state ContractCanceled) s1)) in H as (F & M & K).
  cbn in F, M, K. rewrite H1 in F, M, K. cbn in F, M, K.
  assert (live (u_inv s') = 0) as El.
  { unfold live, amount. rewrite M, msum_imap. apply msum_zero. intros k h _. unfold not_canceled.
    destruct (bool_decide_reflect (h_state h = HtlcStateCanceled)) as [E|]; [|done].
    by rewrite bool_decide_eq_true_2. }
  split; [split|by rewrite (keeps_state _ _ F)].
  - rewrite (keeps_is_amp _ _ F). apply (ok_kind _ _ Hok).
  - rewrite (keeps_terms _ _ F). apply (ok_preimage _ _ Hok).
  - intros k x. rewrite M, map_lookup_imap. destruct (i_htlcs inv !! k) as [h|] eqn:Hk; [cbn|done].
    intros [= <-]. pose proof (ok_htlc _ _ Hok k h Hk) as Hx.
    destruct (bool_decide (h_state h = _)); exact Hx.
  - rewrite El. lia.
  - unfold state_ok. rewrite (keeps_state _ _ F). cbn. intros k x. rewrite M, map_lookup_imap.
    destruct (i_htlcs inv !! k) as [h|]; [cbn|done]. intros [= <-].
    by destruct (bool_decide_reflect (h_state h = HtlcStateCanceled)).
Qed.
End Paid.

(** * An invoice over the registry's operations

    Each with its own answers of the database and its own map orders. *)

Inductive registry_op :=
| ExitHop (c : update_ctx) (cancel_set : bool)
| CancelHtlc (ref_hash : option bytes) (key : circuit_key) (set_id : option bytes)
| SettleHodl (preimage : bytes)
| CancelInvoice (same cancel_accepted : bool).

Section Registry.
Context `{S : Sha256}.
Variable hash : bytes.     (* the invoice's payment hash *)

(** The operation's update of the invoice. *)
Definition run_op `{MapOrder} `{Updater} (op : registry_op) (time : Z) (inv : invoice) :
    result inv_error invoice :=
  match op with
  | ExitHop c cancel_set =>
      let* (inv, _, _) :=
        db_update_invoice (r_pay_hash (ctx_invoice_ref c)) time (exit_hop_callback c cancel_set) inv in
      Ok inv
  | CancelHtlc ref_hash key set_id =>
      let* (inv, _, _) := db_update_invoice ref_hash time (cancel_single_callback key set_id) inv in
      Ok inv
  | SettleHodl preimage =>
      let* (inv, _, _) :=
        db_update_invoice (Some (preimage_hash preimage)) time (settle_hodl_callback preimage) inv in
      Ok inv
  | CancelInvoice same cancel_accepted =>
      let* (inv, _, _) :=
        db_update_invoice (Some hash) time (cancel_invoice_callback same cancel_accepted) inv in
      Ok inv
  end.

(** The invoice that an operation looks up by its hash is of that hash. *)
Definition looks_up (op : registry_op) : Prop :=
  match op with
  | SettleHodl preimage => preimage_hash preimage = hash
  | _ => True
  end.

Inductive registry_step (op : registry_op) : invoice → invoice → Prop :=
| Step `{MapOrder} `{Updater} time inv inv' :
    looks_up op → run_op op time inv = Ok inv' → registry_step op inv inv'.

(** The HTLC's amount, and with it the invoice's, is a [uint64]. *)
Definition amounts_fit (inv : invoice) (op : registry_op) : Prop :=
  match op with
  | ExitHop c _ => 0 ≤ c_amt_paid c ∧ live inv + c_amt_paid c < 2 ^ 64
  | _ => True
  end.

(** What [db_update_invoice] does with an update. *)
Lemma db_update_Ok `{MapOrder} `{Updater} {R} hash0 time
    (callback : invoice → result inv_error (option invoice_update_desc * R)) inv inv' calls res :
  db_update_invoice hash0 time callback inv = Ok (inv', calls, res) →
  (callback inv = Ok (None, res) ∧ inv' = inv) ∨
  ∃ u s', callback inv = Ok (Some u, res) ∧ inv' = u_inv s' ∧
    match iu_type u with
    | CancelHTLCsUpdate => cancel_htlcs time u (UpdState inv [])
    | AddHTLCsUpdate => add_htlcs hash0 time u (UpdState inv [])
    | SettleHodlInvoiceUpdate => settle_hodl_invoice hash0 time (iu_state u) (UpdState inv [])
    | CancelInvoiceUpdate => cancel_invoice hash0 time (iu_state u) (UpdState inv [])
    | UnknownUpdate => Err ErrUnknownUpdateType
    end = Ok s'.
Proof.
  unfold db_update_invoice. intros Hd. apply rbind_Ok in Hd as ([[u|] r] & Hc & Hd).
  - apply rbind_Ok in Hd as (s1 & Hu & Hd). apply rbind_Ok in Hd as (s2 & Hf & [= <- <- <-]).
    apply call_Ok in Hf. right. exists u, s1. by rewrite Hf.
  - injection Hd as <- _ <-. by left.
Qed.

Lemma exit_hop_cases `{MapOrder} c cancel_set inv u res :
  exit_hop_callback c cancel_set inv = Ok (u, res) →
  (resolve_replayed_htlc c inv = Ok (Some res) ∧ u = None) ∨
  resolve_replayed_htlc c inv = Ok None ∧
  ((∃ f, u = None ∧ res = fail_res c f ∧ cancel_set = true) ∨
   (∃ X, u = Some (InvoiceUpdateDesc None X ∅ (ctx_set_id c) CancelHTLCsUpdate) ∧
         res = fail_res c ExternalValidationFailed) ∨
   update_invoice c inv = Ok (u, res)).
Proof.
  unfold exit_hop_callback. intros E. apply rbind_Ok in E as ([r|] & Hr & E).
  - injection E as <- <-. by left.
  - right. split; [done|]. destruct cancel_set; [|by right; right]. destruct (negb _).
    + injection E as <- <-. left. by exists ResultInvoiceNotOpen.
    + injection E as <- <-. right; left. by eexists.
Qed.

Lemma run_db_update {R} (r : result inv_error (invoice * list updater_call * R)) inv' :
  (let* (inv, _, _) := r in Ok inv) = Ok inv' → ∃ calls res, r = Ok (inv', calls, res).
Proof. destruct r as [[[i calls] res]|]; [|done]. intros [= <-]. by eexists _, _. Qed.

Lemma step_kept op inv inv' :
  registry_step op inv inv' → amounts_fit inv op → inv_ok hash inv → inv_ok hash inv'.
Proof.
  destruct 1 as [O U time inv inv' Hlook Hrun]. intros Hfit Hok.
  destruct op as [c cancel_set | ref_hash key set_id | p | same ca]; cbn in Hlook, Hfit, Hrun;
    apply run_db_update in Hrun as (calls & res & H);
    apply db_update_Ok in H as [[_ ->] | (u & s' & Hc & -> & Hu)]; try done.
  - apply exit_hop_cases in Hc as [[_ ?]|[_ [(f & ? & _) | [(X & [= ->] & _) | Hc]]]]; try done.
    + eapply cancel_htlcs_kept; [done | exact Hu].
    + destruct Hfit. apply (update_invoice_plan hash) in Hc as (st & d & -> & Had & Hplan); [|done..].
      cbn [iu_type add_update] in Hu. eapply add_effective in Hu as (h & Heff); [|done..].
      by eapply add_kept.
  - unfold cancel_single_callback in Hc. repeat case_match; simplify_eq.
    eapply cancel_htlcs_kept; [done | exact Hu].
  - unfold settle_hodl_callback in Hc. destruct (i_state inv) eqn:Hst; try done. injection Hc as <-.
    by eapply (settle_hodl_kept hash) in Hu as (? & _).
  - unfold cancel_invoice_callback in Hc. repeat case_match; simplify_eq.
    by eapply (cancel_invoice_kept hash) in Hu as [? _].
Qed.

(** An invoice as it is added (ValidateInvoice has checked the preimage). *)
Definition new_invoice (inv : invoice) : Prop :=
  is_amp inv = false ∧ (∀ p, t_payment_preimage (i_terms inv) = Some p → preimage_hash p = hash) ∧
  i_htlcs inv = ∅ ∧ i_amt_paid inv = 0 ∧ i_state inv = ContractOpen.

Lemma new_invoice_ok inv : new_invoice inv → inv_ok hash inv.
Proof.
  intros (Ha & Hp & Hm & Hpaid & Hs). split; try done.
  - by rewrite Hm.
  - unfold live. rewrite Hm. unfold amount. rewrite msum_empty. lia.
  - unfold state_ok. by rewrite Hs, Hm.
Qed.

(** C18: Whatever the registry does with an invoice that is not AMP, in any
    order: the HTLCs and the amount paid follow the invoice's state
    ([state_ok]): an accepted or settled invoice has its value in HTLCs that
    are not canceled and records exactly their amount as paid; a settled one
    has a preimage of its hash and no HTLC left waiting; an open or accepted
    one has no HTLC settled; a canceled one has every HTLC canceled. *)
Theorem settled_means_paid inv inv' :
  new_invoice inv →
  rtc (λ i j, ∃ op, amounts_fit i op ∧ registry_step op i j) inv inv' →
  inv_ok hash inv'.
Proof.
  intros Hnew%new_invoice_ok Hsteps.
  induction Hsteps as [|i j k (op & Hfit & Hij) _ IH]; [done|]. by apply IH, (step_kept op i j).
Qed.
End Registry.

(** ** A run *)

#[export] Instance amounts_fit_decision inv op : Decision (amounts_fit inv op).
Proof. destruct op; simpl; apply _. Defined.
#[export] Instance looks_up_decision `{Sha256} hash op : Decision (looks_up hash op).
Proof. destruct op; simpl; apply _. Defined.

(** The operations in turn, while the amounts fit. *)
Definition run_ops `{Sha256} `{MapOrder} `{Updater} (hash : bytes) (ops : list registry_op)
    (inv : invoice) : result inv_error invoice :=
  fold_result (λ inv op,
    ensure (bool_decide (amounts_fit inv op) && bool_decide (looks_up hash op)) else InvPanic;
    run_op hash op 0 inv) ops inv.

Lemma run_ops_steps `{Sha256} `{MapOrder} `{Updater} hash ops inv inv' :
  run_ops hash ops inv = Ok inv' →
  rtc (λ i j, ∃ op, amounts_fit i op ∧ registry_step hash op i j) inv inv'.
Proof.
  unfold run_ops. revert inv. induction ops as [|op ops IH]; intros inv Hr; cbn [fold_result] in Hr.
  - injection Hr as <-. done.
  - apply rbind_Ok in Hr as (i & Hi & Hr). destruct (_ && _) eqn:E; [|done].
    apply andb_prop in E as [E1%bool_decide_eq_true E2%bool_decide_eq_true].
    eapply rtc_l; [|by apply IH]. exists op. split; [done|]. by econstructor.
Qed.

(** A hold invoice paid by two HTLCs, then settled. *)
Lemma settled_means_paid_witness :
  let _ := toy_sha in let _ := toy_order in let _ := toy_db in
  let inv0 := toy_invoice true None payment_addr_required in
  let ops := [ExitHop (toy_htlc 1 400 toy_preimage None) false; ExitHop (toy_htlc 2 700 toy_preimage None) false;
              SettleHodl toy_preimage] in
  ∃ inv, run_ops toy_preimage ops inv0 = Ok inv ∧
    i_state inv = ContractSettled ∧ i_amt_paid inv = 1100 ∧ inv_ok toy_preimage inv.
Proof.
  intros sha ord db inv0 ops.
  destruct (run_ops toy_preimage ops inv0) as [inv|e] eqn:E; [|by vm_compute in E].
  exists inv. split; [reflexivity|].
  assert (i_state inv = ContractSettled ∧ i_amt_paid inv = 1100) as [Hs Ha].
  { enough (match run_ops toy_preimage ops inv0 with
            | Ok i => bool_decide (i_state i = ContractSettled) && (i_amt_paid i =? 1100)
            | Err _ => false end = true) as H by
      (rewrite E in H; apply andb_prop in H as [H1%bool_decide_eq_true H2%Z.eqb_eq]; exact (conj H1 H2)).
    by vm_compute. }
  split; [exact Hs|]. split; [exact Ha|].
  apply (settled_means_paid toy_preimage inv0); [|exact (run_ops_steps _ ops _ _ E)].
  clear. split_and!; [by vm_compute | done..].
Defined.
