(* ===== verification/InvoiceFinal.v ===== *)
(** * Invoices: resolutions are recorded and final

    The resolution the registry gives a link for an HTLC is the state the
    invoice records for it, with the preimage of the HTLC's hash; and a final
    state, of an invoice or of an HTLC, never changes again. Invoices of every
    kind. *)

From S2P Require Import Prelude Features Amp Invoices InvoiceToy InvoiceProps InvoicePaid.

Section Decision.
Context `{S : Sha256} `{O : MapOrder}.

(** ** What the registry decides, on any invoice *)

Inductive decision (c : update_ctx) (inv : invoice) :
    option invoice_update_desc → resolution → Prop :=
| dec_refuse f : decision c inv None (fail_res c f)
| dec_accept st d r :
    (st = None ∧ i_state inv ≠ ContractSettled ∧ i_state inv ≠ ContractCanceled) ∨
    (st = Some (InvoiceStateUpdateDesc ContractAccepted None ∅ None) ∧ i_state inv = ContractOpen) →
    decision c inv (Some (add_update st c d)) (accept_res c r)
| dec_settle st d p r :
    ad_amp d = None → t_payment_preimage (i_terms inv) = Some p →
    (st = None ∧ i_state inv = ContractSettled ∧ is_amp inv = false ∧
     r_pay_hash (ctx_invoice_ref c) = Some (c_hash c)) ∨
    st = Some (InvoiceStateUpdateDesc ContractSettled (Some p) ∅ None) →
    decision c inv (Some (add_update st c d)) (settle_res c p r)
| dec_amp a d preimages :
    c_amp c = Some a → i_state inv = ContractOpen →
    reconstruct_amp_preimages c a (htlc_set inv (Some (amp_set_id a)) HtlcStateAccepted) = Ok (Some preimages) →
    ad_amp d = Some (InvoiceHtlcAMP a (c_hash c) None) →
    is_amp inv = true →
    decision c inv
      (Some (add_update (Some (InvoiceStateUpdateDesc ContractSettled (t_payment_preimage (i_terms inv))
               preimages (Some (amp_set_id a)))) c d))
      (settle_res c (default (replicate 32 Byte.x00) (preimages !! c_circuit_key c)) ResultSettled)
| dec_amp_fail X set_id :
    decision c inv (Some (InvoiceUpdateDesc None X ∅ set_id CancelHTLCsUpdate))
      (fail_res c ResultAmpReconstruction).

Lemma update_mpp_decision c inv u res :
  update_mpp c inv = Ok (u, res) → decision c inv u res.
Proof.
  unfold update_mpp. intros H. apply rbind_Ok in H as (req & Hreq & H).
  assert (req = true → is_amp inv = true) as Hr.
  { unfold requires_amp in Hreq. unfold is_amp, has_feature. destruct (t_features (i_terms inv)); [|done].
    injection Hreq as <-. intros Hq. apply orb_true_iff. by left. }
  destruct (req && _); [injection H as <- <-; constructor|].
  destruct (negb req && bool_decide (is_Some (c_amp c))) eqn:E2; [injection H as <- <-; constructor|].
  apply rbind_Ok in H as ([total addr] & _ & H).
  destruct (bool_decide_reflect (i_state inv = ContractOpen)) as [Ho|]; cbn [negb] in H;
    [|injection H as <- <-; constructor].
  do 3 (case_match; [injection H as <- <-; constructor|]).
  case_match; [|injection H as <- <-; constructor].
  do 3 (case_match; [injection H as <- <-; constructor|]).
  case_match. { injection H as <- <-. constructor. left. rewrite Ho. done. }
  unfold settle_mpp in H. destruct (i_hodl_invoice inv).
  { injection H as <- <-. constructor. by right. }
  destruct (c_amp c) as [a|] eqn:Ha.
  - cbn [ctx_set_id] in H. apply rbind_Ok in H as ([preimages|] & Hp & H).
    + injection H as <- <-. unfold ctx_set_id. rewrite Ha. cbn.
      eapply (dec_amp c inv a); try done.
      * unfold ctx_set_id in Hp. rewrite Ha in Hp. exact Hp.
      * apply Hr. destruct req; [done|]. rewrite bool_decide_eq_true_2 in E2; [done | by eexists].
    + injection H as <- <-. constructor.
  - destruct (t_payment_preimage (i_terms inv)) as [p|] eqn:Hp; [|done]. injection H as <- <-.
    unfold ctx_set_id. rewrite Ha. cbn. constructor; [done | done | by right].
Qed.

Lemma update_legacy_decision c inv u res :
  c_mpp c = None → c_path_id c = None → c_amp c = None →
  update_legacy c inv = Ok (u, res) → decision c inv u res.
Proof.
  intros Hm Hpid Hamp. unfold update_legacy. destruct (is_amp inv) eqn:Hkind; [intros [= <- <-]; constructor|].
  destruct (bool_decide_reflect (i_state inv = ContractCanceled)); [intros [= <- <-]; constructor|].
  destruct (_ <? _); [intros [= <- <-]; constructor|].
  destruct (t_features (i_terms inv)); [|done].
  do 4 (case_match; [intros [= <- <-]; constructor|]).
  unfold settle_legacy. destruct (i_state inv) eqn:Hst; try done.
  - destruct (i_hodl_invoice inv); [intros [= <- <-]; constructor; by right|].
    destruct (t_payment_preimage (i_terms inv)) eqn:Hp; [|intros [= <- <-]; constructor].
    intros [= <- <-]. constructor; [done | done | by right].
  - destruct (t_payment_preimage (i_terms inv)) eqn:Hp; [|intros [= <- <-]; constructor].
    intros [= <- <-]. constructor; [done | done |]. left. split_and!; try done.
    unfold ctx_invoice_ref. by rewrite Hpid, Hm, Hamp.
  - intros [= <- <-]. constructor. left. by rewrite Hst.
Qed.

Lemma update_invoice_decision c inv u res :
  update_invoice c inv = Ok (u, res) → decision c inv u res.
Proof.
  unfold update_invoice.
  destruct (bool_decide_reflect (is_Some (c_amp c))) as [|Ha], (bool_decide_reflect (is_Some (c_mpp c))) as [|Hm];
    cbn [negb andb].
  2: { intros [= <- <-]. constructor. }
  1, 2: apply update_mpp_decision.
  destruct (bool_decide_reflect (is_Some (c_path_id c))) as [|Hp]; [apply update_mpp_decision|].
  apply update_legacy_decision; by apply eq_None_not_Some.
Qed.
End Decision.

(** ** Final states *)

(** What may happen to an HTLC. *)
Definition evolves (h h' : invoice_htlc) : Prop :=
  h_amt h' = h_amt h ∧
  (h_state h ≠ HtlcStateAccepted → h_state h' = h_state h ∧ h_resolve_time h' = h_resolve_time h).

Definition htlcs_evolve (m m' : gmap circuit_key invoice_htlc) : Prop :=
  ∀ k h, m !! k = Some h → ∃ h', m' !! k = Some h' ∧ evolves h h'.

(** What an operation may do to an invoice. *)
Definition effect (inv inv' : invoice) : Prop :=
  (is_final (i_state inv) = true → i_state inv' = i_state inv) ∧
  htlcs_evolve (i_htlcs inv) (i_htlcs inv').

#[export] Instance evolves_preorder : PreOrder evolves.
Proof.
  split; [by intros h|]. intros a b c [E1 F1] [E2 F2]. split; [congruence|].
  intros Ha. destruct (F1 Ha) as [Hs Ht]. destruct F2 as [Hs2 Ht2]; [by rewrite Hs|]. split; congruence.
Qed.

#[export] Instance effect_preorder : PreOrder effect.
Proof.
  split.
  - intros i. split; [done|]. intros k h Hk. by exists h.
  - intros i j l [F1 M1] [F2 M2]. split.
    + intros Hf. rewrite F2; [by apply F1 | by rewrite F1].
    + intros k h Hk. destruct (M1 k h Hk) as (h1 & Hk1 & E1). destruct (M2 k h1 Hk1) as (h2 & Hk2 & E2).
      exists h2. split; [done | by etrans].
Qed.

Lemma imap_evolves (g : circuit_key → invoice_htlc → invoice_htlc) m :
  (∀ k h, m !! k = Some h → evolves h (g k h)) → htlcs_evolve m (map_imap (λ k h, Some (g k h)) m).
Proof.
  intros Hg k h Hk. exists (g k h). rewrite map_lookup_imap, Hk. split; [done | by apply Hg].
Qed.

Section Final.
Context `{S : Sha256} `{O : MapOrder} `{U : Updater}.

Lemma changed_accepted h st set_id x :
  get_updated_htlc_state h st set_id = Ok (true, x) → h_state h = HtlcStateAccepted.
Proof.
  unfold get_updated_htlc_state, try_settle.
  by destruct (h_state h), st; cbn; repeat case_match.
Qed.

Lemma aligned_evolves time set_id eligible update st k h :
  evolves h (aligned time set_id eligible update st k h).
Proof.
  unfold aligned. set (h1 := preimage_put set_id update k h).
  assert (h_amt h1 = h_amt h ∧ h_state h1 = h_state h ∧ h_resolve_time h1 = h_resolve_time h) as (Ea & Es & Et).
  { unfold h1, preimage_put. by repeat case_match. }
  destruct (get_updated_htlc_state _ _ _) as [[[] x]|] eqn:H; [|done..].
  split; [done|]. intros Hs. apply changed_accepted in H. congruence.
Qed.

Lemma add_effect_any hash time c new d s s' :
  add_htlcs hash time (add_update new c d) s = Ok s' → effect (u_inv s) (u_inv s').
Proof.
  intros H. apply (add_htlcs_one _ _ _ (c_circuit_key c) d) in H as (h & [] & M & _); [|done]. split.
  - intros Hf. destruct (iu_state _) as [desc|]; [|done].
    destruct added_new_state as [(i1 & F & _ & G) _].
    apply get_updated_invoice_state_Ok in G as (_ & _ & G & _).
    by rewrite (keeps_state _ _ F), Hf in G.
  - intros k x Hk. rewrite M. apply (imap_evolves (aligned time _ _ _ _)).
    + intros. apply aligned_evolves.
    + rewrite lookup_insert_ne; [done|]. intros <-. by rewrite added_fresh in Hk.
Qed.

Lemma cancel_htlcs_effect time update s s' :
  cancel_htlcs time update s = Ok s' → effect (u_inv s) (u_inv s').
Proof.
  intros H. apply cancel_htlcs_Ok in H as (X & _ & F & M & K & _). split.
  - intros _. apply (keeps_state _ _ F).
  - rewrite M. apply imap_evolves. intros k h Hk. unfold canceled_in.
    destruct (bool_decide_reflect (k ∈ X)) as [HX|]; [|done].
    destruct (K k HX) as (x & Hx & Ha). rewrite Hk in Hx. injection Hx as <-. by split.
Qed.

Lemma settle_hodl_effect hash time update s s' :
  settle_hodl_invoice hash time update s = Ok s' → effect (u_inv s) (u_inv s').
Proof.
  unfold settle_hodl_invoice. destruct (negb _); [done|]. destruct update as [d|]; [|done].
  do 2 (case_match; [|done]). intros Hop. apply rbind_Ok in Hop as (st & G & Hop).
  apply get_updated_invoice_state_Ok in G as (_ & _ & G & _). case_match; [|done].
  apply rbind_Ok in Hop as (s1 & Hc1 & Hop). apply call_Ok in Hc1.
  apply rbind_Ok in Hop as ([s2 amt] & Hc2 & Hop).
  apply (settle_loop time (with_inv (λ i, set_i_preimage (su_preimage d) (set_i_state ContractSettled i)) s1))
    in Hc2 as (F & M & _).
  apply update_invoice_amt_paid_Ok in Hop. rewrite Hop. split; [by rewrite G|]. cbn in *. rewrite M, Hc1.
  apply imap_evolves. intros k h _.
  destruct (get_updated_htlc_state h ContractSettled None) as [[[] x]|] eqn:E; [|done..].
  split; [done|]. intros Hs. by apply changed_accepted in E.
Qed.

Lemma cancel_invoice_effect hash time update s s' :
  cancel_invoice hash time update s = Ok s' → effect (u_inv s) (u_inv s').
Proof.
  unfold cancel_invoice. destruct update as [d|]; [|done]. case_match; [|done]. intros Hop.
  apply rbind_Ok in Hop as (st & G & Hop). apply get_updated_invoice_state_Ok in G as (_ & _ & G & _).
  case_match; [|done]. apply rbind_Ok in Hop as (s1 & Hc1 & Hop). apply call_Ok in Hc1.
  apply (cancel_loop time _ (with_inv (set_i_state ContractCanceled) s1)) in Hop as (F & M & K).
  cbn in *. split; [by rewrite G|]. rewrite Hc1 in M, K. rewrite M. apply imap_evolves. intros k h Hk.
  destruct (bool_decide_reflect (h_state h = HtlcStateCanceled)); [done|].
  split; [done|]. intros Ha. specialize (K k h Hk). by destruct (h_state h).
Qed.
End Final.

Section Steps.
Context `{S : Sha256}.

Lemma step_effect hash op inv inv' : registry_step hash op inv inv' → effect inv inv'.
Proof.
  destruct 1 as [O U time inv inv' _ Hrun].
  destruct op as [c cancel_set | ref_hash key set_id | p | same ca]; cbn in Hrun;
    apply run_db_update in Hrun as (calls & res & H);
    apply db_update_Ok in H as [[_ ->] | (u & s' & Hc & -> & Hu)]; try done.
  - apply exit_hop_cases in Hc as [[_ ?]|[_ [(f & ? & _) | [(X & [= ->] & _) | Hc]]]]; try done.
    + by apply cancel_htlcs_effect in Hu.
    + apply update_invoice_decision in Hc. inversion Hc; subst u;
        [by apply add_effect_any in Hu.. | by apply cancel_htlcs_effect in Hu].
  - unfold cancel_single_callback in Hc. repeat case_match; simplify_eq. by apply cancel_htlcs_effect in Hu.
  - unfold settle_hodl_callback in Hc. destruct (i_state inv) eqn:Hst; try done. injection Hc as <-.
    by apply settle_hodl_effect in Hu.
  - unfold cancel_invoice_callback in Hc. repeat case_match; simplify_eq.
    by apply cancel_invoice_effect in Hu.
Qed.

(** C28: Final states are final. Whatever the registry does afterwards, a settled
    or canceled invoice stays so; an HTLC of an invoice stays on it with its
    amount, and once settled or canceled keeps that state and its time. *)
Theorem final_states_stay hash inv inv' :
  rtc (λ i j, ∃ op, registry_step hash op i j) inv inv' → effect inv inv'.
Proof.
  induction 1 as [|i j k (op & Hij%step_effect) _ IH]; [done | by etrans].
Qed.

End Steps.

Lemma final_states_stay_witness :
  let _ := toy_sha in let _ := toy_order in let _ := toy_db in
  let inv0 := toy_invoice false (Some toy_preimage) payment_addr_required in
  let ops := [ExitHop (toy_htlc 1 1000 toy_preimage None) false; CancelHtlc None (1, 1) None;
              ExitHop (toy_htlc 2 1000 toy_preimage None) false] in
  ∃ inv, run_ops toy_preimage ops inv0 = Ok inv ∧ effect inv0 inv.
Proof.
  intros sha ord db inv0 ops.
  destruct (run_ops toy_preimage ops inv0) as [inv|e] eqn:E; [|by vm_compute in E].
  exists inv. split; [reflexivity|]. apply run_ops_steps in E.
  apply (final_states_stay toy_preimage). eapply rtc_subrel; [|exact E].
  intros i j (op & _ & H). by exists op.
Defined.

(** ** Resolutions *)

Section Resolution.
Context `{S : Sha256} `{O : MapOrder} `{U : Updater}.

(** The invoice records what the resolution says of the HTLC. *)
Definition recorded (c : update_ctx) (inv : invoice) (res : resolution) : Prop :=
  match res with
  | HtlcSettle preimage key _ _ =>
      key = c_circuit_key c ∧ preimage_hash preimage = c_hash c ∧
      ∃ h, i_htlcs inv !! key = Some h ∧ h_state h = HtlcStateSettled
  | HtlcAccept key _ =>
      key = c_circuit_key c ∧ ∃ h, i_htlcs inv !! key = Some h ∧ h_state h = HtlcStateAccepted
  | HtlcFail key _ _ =>
      key = c_circuit_key c ∧ ∀ h, i_htlcs inv !! key = Some h → h_state h = HtlcStateCanceled
  end.

Lemma replay_recorded c inv res :
  resolve_replayed_htlc c inv = Ok (Some res) → recorded c inv res.
Proof.
  unfold resolve_replayed_htlc. destruct (i_htlcs inv !! c_circuit_key c) as [h|] eqn:Hk; [|done].
  destruct (h_state h) eqn:Hs.
  - intros [= <-]. cbn. split; [done|]. by exists h.
  - intros [= <-]. cbn. split; [done|]. rewrite Hk. by intros x [= <-].
  - intros H. apply rbind_Ok in H as (p & Hp & [= <-]). cbn. split; [done|]. split; [|by exists h].
    destruct (is_amp inv).
    + destruct (h_amp h) as [[r hash [q|]]|]; try done.
      destruct (bool_decide_reflect (hash = c_hash c)) as [->|]; [|done]. cbn in Hp.
      destruct (matches q (c_hash c)) eqn:Hm; [|done]. injection Hp as <-.
      unfold matches in Hm. by apply bool_decide_eq_true in Hm.
    + destruct (t_payment_preimage (i_terms inv)) as [q|]; [|done].
      destruct (matches q (c_hash c)) eqn:Hm; [|done]. injection Hp as <-.
      unfold matches in Hm. by apply bool_decide_eq_true in Hm.
Qed.

Lemma no_replay c inv : resolve_replayed_htlc c inv = Ok None → i_htlcs inv !! c_circuit_key c = None.
Proof.
  unfold resolve_replayed_htlc. destruct (i_htlcs inv !! c_circuit_key c) as [h|]; [|done].
  destruct (h_state h); [done..|]. intros H. by apply rbind_Ok in H as (p & _ & ?).
Qed.

(** An HTLC that is neither settled nor moved by its invoice stays as it is. *)
Lemma aligned_waiting time update st k h :
  st = ContractOpen ∨ st = ContractAccepted → aligned time None false update st k h = h.
Proof.
  intros Hst. unfold aligned. cbn [preimage_put context_state].
  unfold get_updated_htlc_state, try_settle.
  destruct Hst as [-> | ->]; cbn; repeat case_bool_decide; cbn; repeat case_match; naive_solver.
Qed.

(** The HTLC of an AMP set whose preimages are known. *)
Lemma aligned_amp time preimages st0 c a d st k h :
  let update := add_update (Some (InvoiceStateUpdateDesc ContractSettled st0 preimages
                                    (Some (amp_set_id a)))) c d in
  preimages ≠ ∅ → h_amp h = Some (InvoiceHtlcAMP a (c_hash c) None) → h_state h = HtlcStateAccepted →
  is_Some (preimages !! k) →
  is_ok (get_updated_htlc_state (preimage_put (Some (amp_set_id a)) update k h)
    (context_state (update_eligible update) st) (Some (amp_set_id a))) = true →
  h_state (aligned time (Some (amp_set_id a)) (update_eligible update) update st k h) = HtlcStateSettled ∧
  ∃ p, preimages !! k = Some p ∧ preimage_hash p = c_hash c.
Proof.
  intros update Hne Ha Hs [p Hp]. unfold aligned.
  assert (preimage_put (Some (amp_set_id a)) update k h =
          set_h_amp (Some (InvoiceHtlcAMP a (c_hash c) (Some p))) h) as ->.
  { unfold preimage_put. cbn. by rewrite Hp, Ha. }
  assert (update_eligible update = true) as ->.
  { unfold update_eligible. cbn. by rewrite bool_decide_eq_false_2. }
  cbn [context_state]. unfold get_updated_htlc_state, try_settle, is_in_htlc_set.
  rewrite bool_decide_eq_true_2 by done. cbn [h_state set_h_amp h_amp ia_record ia_preimage ia_hash].
  rewrite Hs. cbn [bool_decide negb]. rewrite !bool_decide_eq_true_2 by done. cbn [negb].
  destruct (matches p (c_hash c)) eqn:Hm; [|done]. intros _. cbn. split; [done|]. exists p. split; [done|].
  unfold matches in Hm. by apply bool_decide_eq_true in Hm.
Qed.

Lemma reconstruct_has_key c a set preimages :
  reconstruct_amp_preimages c a set = Ok (Some preimages) → is_Some (preimages !! c_circuit_key c).
Proof.
  unfold reconstruct_amp_preimages. intros H. apply rbind_Ok in H as (descs & _ & H).
  destruct (reconstruct_children _) as [|child0 children]; [done|].
  do 2 (case_match; [done|]). injection H as <-.
  set (l := zip (order set) children). clearbody l.
  assert (is_Some (({[c_circuit_key c := ch_preimage child0]} : gmap circuit_key bytes) !! c_circuit_key c)) as Hm
    by (rewrite lookup_singleton_eq; by eexists).
  revert Hm. generalize ({[c_circuit_key c := ch_preimage child0]} : gmap circuit_key bytes).
  induction l as [|kx l IH]; intros m Hm; [done|]. cbn. apply IH.
  destruct (decide (kx.1.1 = c_circuit_key c)) as [->|]; [rewrite lookup_insert_eq; by eexists|].
  by rewrite lookup_insert_ne.
Qed.

Lemma added_accepted hash0 time c inv st d s' :
  ((st = None ∧ i_state inv ≠ ContractSettled ∧ i_state inv ≠ ContractCanceled) ∨
   (st = Some (InvoiceStateUpdateDesc ContractAccepted None ∅ None) ∧ i_state inv = ContractOpen)) →
  add_htlcs hash0 time (add_update st c d) (UpdState inv []) = Ok s' →
  ∃ h, i_htlcs (u_inv s') !! c_circuit_key c = Some h ∧ h_state h = HtlcStateAccepted.
Proof.
  intros Hst H. apply (add_htlcs_one _ _ _ (c_circuit_key c) d) in H as (h & [] & M & _); [|done].
  cbn [u_inv iu_state add_update] in *.
  assert (update_set_id inv (add_update st c d) = None) as Eid.
  { unfold update_set_id. cbn. by destruct (is_amp inv), Hst as [[-> _] | [-> _]]. }
  assert (update_eligible (add_update st c d) = false) as Eel by (by destruct Hst as [[-> _] | [-> _]]).
  assert (i_state (u_inv s') = ContractOpen ∨ i_state (u_inv s') = ContractAccepted) as Hs.
  { destruct Hst as [(-> & H1 & H2) | [-> Ho]].
    - rewrite added_new_state. destruct (i_state inv); naive_solver.
    - destruct added_new_state as [_ ->]. cbn. rewrite Ho. destruct (is_amp inv); cbn; auto. }
  exists h. rewrite M, map_lookup_imap, lookup_insert_eq, Eid, Eel. cbn.
  by rewrite aligned_waiting.
Qed.

Lemma added_settled hash0 time c inv st d p s' :
  ad_amp d = None →
  ((st = None ∧ i_state inv = ContractSettled ∧ is_amp inv = false) ∨
   st = Some (InvoiceStateUpdateDesc ContractSettled (Some p) ∅ None)) →
  add_htlcs hash0 time (add_update st c d) (UpdState inv []) = Ok s' →
  (st = None ∨ hash0 = Some (preimage_hash p)) ∧
  ∃ h, i_htlcs (u_inv s') !! c_circuit_key c = Some h ∧ h_state h = HtlcStateSettled.
Proof.
  intros Hd Hst H. apply (add_htlcs_one _ _ _ (c_circuit_key c) d) in H as (h & [] & M & _); [|done].
  cbn [u_inv iu_state add_update] in *.
  destruct (is_amp inv) eqn:Hamp; [by rewrite Hd in added_amp_data; destruct (added_amp_data eq_refl)|].
  assert (update_set_id inv (add_update st c d) = None) as Eid by (unfold update_set_id; by rewrite Hamp).
  assert (update_eligible (add_update st c d) = false) as Eel by (by destruct Hst as [[-> _] | ->]).
  assert (i_state (u_inv s') = ContractSettled ∧ (st = None ∨ hash0 = Some (preimage_hash p))) as [Hs Hp].
  { destruct Hst as [(-> & H1 & _) | ->].
    - rewrite added_new_state. auto.
    - destruct added_new_state as [(i1 & _ & _ & G) ->]. split; [done|]. right.
      apply get_updated_invoice_state_Ok in G as (_ & _ & _ & _ & G). by apply G. }
  split; [done|]. eexists. rewrite M, map_lookup_imap, lookup_insert_eq, Eid, Eel, Hs. split; [reflexivity|].
  destruct (aligned_plain time (add_update st c d) ContractSettled (c_circuit_key c) h) as [-> _]; [done..|].
  unfold settled_by. by rewrite added_state.
Qed.

Lemma added_amp_settled hash0 time c a d st0 preimages inv s' :
  is_amp inv = true → ad_amp d = Some (InvoiceHtlcAMP a (c_hash c) None) →
  is_Some (preimages !! c_circuit_key c) →
  add_htlcs hash0 time
    (add_update (Some (InvoiceStateUpdateDesc ContractSettled st0 preimages (Some (amp_set_id a)))) c d)
    (UpdState inv []) = Ok s' →
  ∃ p h, preimages !! c_circuit_key c = Some p ∧ preimage_hash p = c_hash c ∧
    i_htlcs (u_inv s') !! c_circuit_key c = Some h ∧ h_state h = HtlcStateSettled.
Proof.
  intros Hamp Had Hp H. apply (add_htlcs_one _ _ _ (c_circuit_key c) d) in H as (h & [] & M & K & _); [|done].
  cbn [u_inv] in *. unfold update_set_id in M, K. rewrite Hamp in M, K, added_amp. cbn in M, K.
  rewrite <-added_amp in Had.
  specialize (K (c_circuit_key c) h (lookup_insert_eq _ _ _)).
  apply (aligned_amp time preimages st0 c a d (i_state (u_inv s'))) in K as (Hs & p & Hkp & Hm);
    [ | | exact Had | exact added_state | exact Hp].
  - exists p. eexists. rewrite M, map_lookup_imap, lookup_insert_eq. cbn. split_and!; try done.
  - intros ->. destruct Hp as [? Hp]. by rewrite lookup_empty in Hp.
Qed.

Lemma ref_hash c h : r_pay_hash (ctx_invoice_ref c) = Some h → h = c_hash c.
Proof. unfold ctx_invoice_ref. repeat case_match; cbn; by intros [= <-]. Qed.

(** The invoice found under a hash has its preimage. *)
Definition found_by (c : update_ctx) (inv : invoice) : Prop :=
  ∀ p h, t_payment_preimage (i_terms inv) = Some p →
    r_pay_hash (ctx_invoice_ref c) = Some h → preimage_hash p = h.

Lemma absent_recorded c inv f :
  i_htlcs inv !! c_circuit_key c = None → recorded c inv (fail_res c f).
Proof. intros Hk. split; [done|]. cbn. by rewrite Hk. Qed.

Lemma update_recorded c cancel_set time inv inv' calls res :
  found_by c inv →
  db_update_invoice (r_pay_hash (ctx_invoice_ref c)) time (exit_hop_callback c cancel_set) inv =
    Ok (inv', calls, res) →
  recorded c inv' res.
Proof.
  intros Hfound H. apply db_update_Ok in H as [[Hc ->] | (u & s' & Hc & -> & Hu)].
  - apply exit_hop_cases in Hc as [[Hr _]|[Hr%no_replay [(f & _ & -> & _) | [(X & ? & _) | Hc]]]]; try done.
    + by apply replay_recorded.
    + by apply absent_recorded.
    + apply update_invoice_decision in Hc. inversion Hc; subst. by apply absent_recorded.
  - assert (∀ X time s', cancel_htlcs time X (UpdState inv []) = Ok s' →
      i_htlcs inv !! c_circuit_key c = None → i_htlcs (u_inv s') !! c_circuit_key c = None) as Hcancel.
    { intros X t s2 Hx Hk. apply cancel_htlcs_Ok in Hx as (Y & _ & _ & M & _).
      cbn [u_inv] in M. by rewrite M, map_lookup_imap, Hk. }
    apply exit_hop_cases in Hc as [[_ ?]|[Hr%no_replay [(f & ? & _) | [(X & [= ->] & ->) | Hc]]]]; try done.
    + apply absent_recorded. eapply Hcancel; [exact Hu | done].
    + apply update_invoice_decision in Hc. inversion Hc; subst; cbn [iu_type add_update] in Hu.
      * split; [done|]. by eapply added_accepted.
      * eapply (added_settled _ _ _ _ _ _ p) in Hu as [Hp Hh]; [ | done | by intuition].
        split; [done|]. split; [|done]. naive_solver eauto using ref_hash.
      * pose proof (reconstruct_has_key _ _ _ _ H2) as Hkey.
        eapply added_amp_settled in Hu as (p & h & Hp & Hm & Hh); [|done..].
        rewrite Hp. split; [done|]. split; [done|]. by exists h.
      * apply absent_recorded. eapply Hcancel; [exact Hu | done].
Qed.

(** What the links of other HTLCs are told is in the invoice. *)
Definition told (inv : invoice) (res : resolution) : Prop :=
  match res with
  | HtlcSettle _ key _ _ => ∃ h, i_htlcs inv !! key = Some h ∧ h_state h = HtlcStateSettled
  | HtlcFail key _ _ => ∃ h, i_htlcs inv !! key = Some h ∧ h_state h = HtlcStateCanceled
  | HtlcAccept _ _ => False
  end.

Lemma elem_of_order {A} (m : gmap circuit_key A) kx : kx ∈ order m → m !! kx.1 = Some kx.2.
Proof. rewrite (order_perm m). destruct kx. apply elem_of_map_to_list. Qed.

Lemma htlc_set_state inv set_id st k h :
  htlc_set inv set_id st !! k = Some h ∨ htlc_set_compliment inv set_id st !! k = Some h →
  i_htlcs inv !! k = Some h ∧ h_state h = st.
Proof.
  intros [H|H]; apply map_lookup_filter_Some in H as [Hk Hc]; cbn in Hc;
    apply andb_prop in Hc as [Hc%bool_decide_eq_true _]; done.
Qed.

Lemma outcome_recorded c inv res res' others :
  recorded c inv res → exit_hop_outcome c inv res = Ok (res', others) →
  recorded c inv res' ∧ Forall (told inv) others.
Proof.
  intros Hrec. unfold exit_hop_outcome. destruct res as [key height f | p key height r | key r].
  - intros [= <- <-]. split; [done|]. destruct (is_set_failure f); [|done].
    apply Forall_fmap, Forall_forall. intros [k h] Hin%elem_of_order. exists h. eauto using htlc_set_state.
  - intros [= <- <-]. split; [done|]. apply Forall_app; split;
      apply Forall_fmap, Forall_forall; intros [k h] Hin%elem_of_order; exists h; eauto using htlc_set_state.
  - destruct (i_htlcs inv !! c_circuit_key c); [|done]. by intros [= <- <-].
Qed.

(** An HTLC that is on the invoice already changes nothing. *)
Lemma update_replays c cancel_set hash time inv inv' calls res :
  db_update_invoice hash time (exit_hop_callback c cancel_set) inv = Ok (inv', calls, res) →
  is_Some (i_htlcs inv !! c_circuit_key c) → inv' = inv.
Proof.
  intros H [h Hh]. apply db_update_Ok in H as [[_ ->] | (u & s' & Hc & _ & _)]; [done|].
  apply exit_hop_cases in Hc as [[_ ?]|[Hr%no_replay _]]; [done|]. by rewrite Hh in Hr.
Qed.

(** C19: The registry's answer to a link is what the invoice records. The invoice
    may have changed between the lookup and the update: an HTLC that the lookup
    shows gets the answer that is recorded there, and any other one that of the
    invoice after the update - if the HTLC came in between, of the invoice as it
    is, which is left alone - but for the
    failures that the registry gives when the interceptor fails or the database
    refuses the update, which leave the invoice alone. The answer settles an HTLC
    only with a preimage of the HTLC's hash, and then the HTLC is recorded as
    settled; one it holds is recorded as accepted; one it fails is not on the
    invoice or recorded as canceled. Links of other HTLCs are told to settle only
    settled ones, and to fail only canceled ones. The database finds by a hash an
    invoice whose preimage, if it has one, has that hash. *)
Theorem resolution_recorded c time looked_up inv interceptor inv2 res others :
  found_by c inv →
  notify_exit_hop_htlc c (r_pay_hash (ctx_invoice_ref c)) time (Some looked_up) (Some inv) interceptor =
    Ok (inv2, res, others) →
  match i_htlcs looked_up !! c_circuit_key c with
  | Some _ => inv2 = Some inv ∧ recorded c looked_up res ∧ Forall (told looked_up) others
  | None =>
      (inv2 = Some inv ∧ others = [] ∧
         (interceptor looked_up = None ∧ res = fail_res c ResultInvoiceInterceptorError ∨
          is_Some (interceptor looked_up) ∧ res = fail_res c ResultInvoiceNotFound)) ∨
      ∃ inv', inv2 = Some inv' ∧ recorded c inv' res ∧ Forall (told inv') others ∧
        (is_Some (i_htlcs inv !! c_circuit_key c) → inv' = inv)
  end.
Proof.
  intros Hfound. unfold notify_exit_hop_htlc. intros H. apply rbind_Ok in H as ([r|] & Hr & H).
  - apply rbind_Ok in H as ([r' o] & Ho & [= <- <- <-]). pose proof (replay_recorded _ _ _ Hr) as Hrec.
    destruct (i_htlcs looked_up !! c_circuit_key c) eqn:Hk; [|unfold resolve_replayed_htlc in Hr; by rewrite Hk in Hr].
    split; [done|]. by eapply outcome_recorded.
  - apply no_replay in Hr. rewrite Hr.
    destruct (interceptor looked_up) as [resp|]; [|left; injection H as <- <- <-; by auto].
    set (amt := match resp with Some r => _ | None => _ end) in H.
    set (c' := set_c_amt_paid amt c) in H.
    change (ctx_invoice_ref c) with (ctx_invoice_ref c') in H.
    destruct (db_update_invoice _ time _ inv) as [[[inv' calls] r]|e] eqn:Hu.
    + right. pose proof (update_replays c' _ _ _ _ _ _ _ Hu) as Hk. apply (update_recorded c') in Hu; [|done].
      apply rbind_Ok in H as ([r' o] & Ho & [= <- <- <-]). exists inv'. split; [done|].
      apply (outcome_recorded c') in Ho as [Hrec Htold]; [|done]. by split_and!.
    + left. destruct e; try done; injection H as <- <- <-; eauto.
Qed.
End Resolution.

(** An HTLC that came between the lookup and the update, which rechecks: it is
    held, and the answer is to hold it. *)
Lemma resolution_recorded_witness :
  let _ := toy_sha in let _ := toy_order in let _ := toy_db in
  let c := toy_htlc 1 500 toy_preimage None in
  let inv := toy_invoice false (Some toy_preimage) payment_addr_required in
  ∃ inv1 inv2 res, run_ops toy_preimage [ExitHop c false] inv = Ok inv1 ∧
    notify_exit_hop_htlc c (r_pay_hash (ctx_invoice_ref c)) 0 (Some inv) (Some inv1) (λ _, Some None) = Ok (inv2, res, []) ∧
    ∃ inv', inv2 = Some inv' ∧ recorded c inv' res.
Proof.
  intros sha ord db c inv.
  destruct (run_ops toy_preimage [ExitHop c false] inv) as [inv1|e] eqn:E1; [|by vm_compute in E1].
  destruct (notify_exit_hop_htlc c (r_pay_hash (ctx_invoice_ref c)) 0 (Some inv) (Some inv1) (λ _, Some None))
    as [[[inv2 res] others]|e] eqn:E; [|vm_compute in E1; injection E1 as <-; by vm_compute in E].
  exists inv1, inv2, res. split; [reflexivity|].
  assert (others = [] ∧ inv2 = Some inv1 ∧ res ≠ fail_res c ResultInvoiceNotFound) as (-> & -> & Hne).
  { vm_compute in E1. injection E1 as <-. vm_compute in E. injection E as <- <- <-. split_and!; [done | done | by vm_compute]. }
  split; [exact E|].
  assert (found_by c inv1) as Hf by (vm_compute in E1; injection E1 as <-; intros p h [= <-] [= <-]; reflexivity).
  destruct (resolution_recorded c 0 inv inv1 (λ _, Some None) (Some inv1) res [] Hf E)
    as [(_ & _ & [[Hx _]|[_ Hx]])|(inv' & E' & Hrec & _)]; [discriminate Hx | by destruct (Hne Hx) | by exists inv'].
Defined.
