(* ===== verification/InteractiveTx.v ===== *)
(** * Interactive transaction construction (package lnwallet/interactivetx)

    The session in which two peers build a splice transaction
    ([session.go]), the order of their signatures ([order.go]) and the checks
    of the peer's witnesses ([verify.go]).

    btcd's transaction and script code is the class [TxPrims]; the functions
    of [Config] are the record [hooks]. *)

From S2P Require Import Prelude Chainfee.

(** ** Roles *)

Inductive role := Initiator | Acceptor.
#[export] Instance role_eq_decision : EqDecision role.
Proof. solve_decision. Defined.

Definition role_string (r : role) : string :=
  if decide (r = Initiator) then "initiator" else "acceptor".
Definition other (r : role) : role :=
  if decide (r = Initiator) then Acceptor else Initiator.
Definition parity (r : role) : Z := if decide (r = Initiator) then 0 else 1.

(** ** Limits *)

Definition max_inputs_or_outputs : Z := 252.
Definition max_standard_weight : Z := 400000.
Definition spec_max_add_messages : Z := 4096.
Definition default_max_peer_add_messages : Z := 64.
Definition max_excess_fee : Z := 1000.
Definition peer_witness_slack : Z := 2.
Definition max_sequence : Z := 0xfffffffd.
Definition max_money : Z := 21000000 * 100000000.

(** Constants of btcd's package wire (BIP 68 and the null outpoint). *)
Definition sequence_lock_time_disabled : Z := 2 ^ 31.
Definition sequence_lock_time_mask : Z := 0xffff.
Definition max_prev_out_index : Z := 0xffffffff.

(** ** Data *)

Record out_point := OutPoint { op_hash : bytes; op_index : Z }.
#[export] Instance out_point_eq_decision : EqDecision out_point.
Proof. solve_decision. Defined.
#[export] Program Instance out_point_countable : Countable out_point :=
  inj_countable' (λ o, (op_hash o, op_index o)) (λ '(h, i), OutPoint h i) _.
Next Obligation. by intros []. Qed.

(** [wire.MsgTx], as far as the package builds and reads it. *)
Record tx_in := TxIn { prev_out : out_point; ti_sequence : Z; ti_witness : list bytes }.
Record tx_out := TxOut { to_value : Z; to_script : bytes }.
Record msg_tx := MsgTx {
  tx_version : Z; tx_ins : list tx_in; tx_outs : list tx_out; tx_lock_time : Z }.

Record shared_input := SharedInput {
  si_out_point : out_point;
  si_value : Z;
  si_script : bytes;
  si_witness_weight : Z;
}.

Record input := Input {
  in_serial : Z;
  in_out_point : out_point;
  in_value : Z;
  in_script : bytes;
  in_sequence : Z;
  in_shared : bool;
  in_max_witness_weight : Z;
  in_prev_tx : option msg_tx;
}.

Record output := Output {
  out_serial : Z;
  out_value : Z;
  out_script : bytes;
  out_funding : bool;
}.

Definition added_by (serial_id : Z) : role :=
  if serial_id mod 2 =? 0 then Initiator else Acceptor.

(** ** Messages (lnwire/interactive_tx.go) *)

Inductive message :=
| TxAddInput (chan_id : bytes) (serial : Z) (prev_tx : bytes) (vout sequence : Z)
             (shared_txid : option bytes)
| TxAddOutput (chan_id : bytes) (serial amount : Z) (script : bytes)
| TxRemoveInput (chan_id : bytes) (serial : Z)
| TxRemoveOutput (chan_id : bytes) (serial : Z)
| TxComplete (chan_id : bytes)
| OtherMessage (msg_type : Z).

(** ** Errors: an [AbortError] by its reason, and the other errors. *)

Inductive abort_reason :=
| ARefused (reason : string)               (* RefusePeerItems *)
| AOutOfTurn (m : message)
| AUnexpected (msg_type : Z)
| AAlreadyAdded (op : out_point) (prev : Z)
| AWrongParity (serial : Z) (r : role)
| ASerialUsed (serial : Z)
| ATooManyAddInput (max : Z)
| ATooManyAddOutput (max : Z)
| ATooManyInputs
| ATooManyOutputs
| ASequenceFinal (sequence : Z)
| ASequenceRelativeLock (sequence : Z)
| AAcceptorShared
| ASharedPrevTx
| ASharedNotFunding (op funding : out_point)
| APrevTxParse
| AVoutRange (vout : Z)
| ANonSegwit
| AInputValueRange (v : Z)
| ACoinbase
| AInputType (e : string)
| AFundingPlain
| ASecondShared
| AInputPolicy (op : out_point) (e : string)
| AOutputRange (v : Z)
| AOutputDust (v : Z)
| AAcceptorFunding
| AOutputPolicy (e : string)
| ANotPeers (serial : Z)
| ANoInput (serial : Z)
| ANoOutput (serial : Z)
| ATooManyItems (ins outs : Z)
| ASpentTwice (op : out_point)
| ASharedCount (n : Z)
| AFundingCount (n : Z)
| AFundingValue (got want : Z)
| AFundingDust (v : Z)
| ACommitmentShape
| AWeight (w : Z)
| AFeeUncovered (r : role) (ins outs contribution fee : Z)
| AFeeExcess (r : role) (paid fee : Z)
| ANegativeBalance (r : role)
| AReserve (r : role) (balance reserve : Z)
| AInputsBelowOutputs (ins outs : Z)
| AFeeRate (fee weight : Z).

Inductive it_error :=
| AbortError (r : abort_reason)
| ErrNotOurTurn
| ErrWitnessWeightRequired
| ErrReserveRequired
| ErrCallbacksRequired
| ErrAmountRange (a : Z)
| ErrContributionRange (a : Z)
| ErrFundingScriptRequired
| ErrOnlyInitiator
| ErrNotComplete
| ErrSerialize
| ErrNilPanic.           (* run-time panic: nil pointer *)

Definition abortf {A} (r : abort_reason) : result it_error A := Err (AbortError r).

(** ** Configuration *)

(** The callbacks of [Config]; an error is its text. *)
Record hooks := Hooks {
  check_peer_input : input → option string;
  check_peer_output : output → option string;
  dust_limit : bytes → Z;
  witness_weight : bytes → result string Z;
  reserve : Z → Z;
}.

(** The callbacks as a caller passes them: [None] is nil. *)
Record hook_args := HookArgs {
  ha_check_peer_input : option (input → option string);
  ha_check_peer_output : option (output → option string);
  ha_dust_limit : option (bytes → Z);
  ha_witness_weight : option (bytes → result string Z);
  ha_reserve : option (Z → Z);
}.

Record config (H : Type) := Config {
  cfg_role : role;
  cfg_channel_id : bytes;
  cfg_shared : shared_input;
  cfg_funding_script : bytes;
  cfg_initiator_contribution : Z;
  cfg_acceptor_contribution : Z;
  cfg_fee_rate : Z;
  cfg_lock_time : Z;
  cfg_max_peer_add_messages : Z;
  cfg_initiator_balance : Z;
  cfg_acceptor_balance : Z;
  cfg_hooks : H;
}.
Arguments Config {H}.
Arguments cfg_role {H}. Arguments cfg_channel_id {H}. Arguments cfg_shared {H}.
Arguments cfg_funding_script {H}. Arguments cfg_initiator_contribution {H}.
Arguments cfg_acceptor_contribution {H}. Arguments cfg_fee_rate {H}.
Arguments cfg_lock_time {H}. Arguments cfg_max_peer_add_messages {H}.
Arguments cfg_initiator_balance {H}. Arguments cfg_acceptor_balance {H}.
Arguments cfg_hooks {H}.

(** [c] with another message limit and other callbacks. *)
Definition with_hooks {H K} (c : config H) (max : Z) (hk : K) : config K :=
  Config (cfg_role c) (cfg_channel_id c) (cfg_shared c) (cfg_funding_script c)
    (cfg_initiator_contribution c) (cfg_acceptor_contribution c) (cfg_fee_rate c)
    (cfg_lock_time c) max (cfg_initiator_balance c) (cfg_acceptor_balance c) hk.

(** ** The session *)

Record session := Session {
  s_cfg : config hooks;
  s_own_reserve_waived : bool;
  s_inputs : gmap Z input;
  s_outputs : gmap Z output;
  s_spent : gmap out_point Z;
  s_pending_inputs : list input;
  s_pending_outputs : list output;
  s_next_serial : Z;
  s_peer_add_inputs : Z;
  s_peer_add_outputs : Z;
  s_our_turn : bool;
  s_sent_complete : bool;
  s_recv_complete : bool;
  s_failed : option it_error;
}.

(** Assignments to the session's fields. *)
Definition set_cfg (v : config hooks) (s : session) : session :=
  Session v (s_own_reserve_waived s) (s_inputs s) (s_outputs s) (s_spent s)
    (s_pending_inputs s) (s_pending_outputs s) (s_next_serial s) (s_peer_add_inputs s)
    (s_peer_add_outputs s) (s_our_turn s) (s_sent_complete s) (s_recv_complete s)
    (s_failed s).
Definition set_own_reserve_waived (v : bool) (s : session) : session :=
  Session (s_cfg s) v (s_inputs s) (s_outputs s) (s_spent s) (s_pending_inputs s)
    (s_pending_outputs s) (s_next_serial s) (s_peer_add_inputs s) (s_peer_add_outputs s)
    (s_our_turn s) (s_sent_complete s) (s_recv_complete s) (s_failed s).
Definition set_inputs (v : gmap Z input) (s : session) : session :=
  Session (s_cfg s) (s_own_reserve_waived s) v (s_outputs s) (s_spent s)
    (s_pending_inputs s) (s_pending_outputs s) (s_next_serial s) (s_peer_add_inputs s)
    (s_peer_add_outputs s) (s_our_turn s) (s_sent_complete s) (s_recv_complete s)
    (s_failed s).
Definition set_outputs (v : gmap Z output) (s : session) : session :=
  Session (s_cfg s) (s_own_reserve_waived s) (s_inputs s) v (s_spent s) (s_pending_inputs s)
    (s_pending_outputs s) (s_next_serial s) (s_peer_add_inputs s) (s_peer_add_outputs s)
    (s_our_turn s) (s_sent_complete s) (s_recv_complete s) (s_failed s).
Definition set_spent (v : gmap out_point Z) (s : session) : session :=
  Session (s_cfg s) (s_own_reserve_waived s) (s_inputs s) (s_outputs s) v
    (s_pending_inputs s) (s_pending_outputs s) (s_next_serial s) (s_peer_add_inputs s)
    (s_peer_add_outputs s) (s_our_turn s) (s_sent_complete s) (s_recv_complete s)
    (s_failed s).
Definition set_pending_inputs (v : list input) (s : session) : session :=
  Session (s_cfg s) (s_own_reserve_waived s) (s_inputs s) (s_outputs s) (s_spent s) v
    (s_pending_outputs s) (s_next_serial s) (s_peer_add_inputs s) (s_peer_add_outputs s)
    (s_our_turn s) (s_sent_complete s) (s_recv_complete s) (s_failed s).
Definition set_pending_outputs (v : list output) (s : session) : session :=
  Session (s_cfg s) (s_own_reserve_waived s) (s_inputs s) (s_outputs s) (s_spent s)
    (s_pending_inputs s) v (s_next_serial s) (s_peer_add_inputs s) (s_peer_add_outputs s)
    (s_our_turn s) (s_sent_complete s) (s_recv_complete s) (s_failed s).
Definition set_next_serial (v : Z) (s : session) : session :=
  Session (s_cfg s) (s_own_reserve_waived s) (s_inputs s) (s_outputs s) (s_spent s)
    (s_pending_inputs s) (s_pending_outputs s) v (s_peer_add_inputs s)
    (s_peer_add_outputs s) (s_our_turn s) (s_sent_complete s) (s_recv_complete s)
    (s_failed s).
Definition set_peer_add_inputs (v : Z) (s : session) : session :=
  Session (s_cfg s) (s_own_reserve_waived s) (s_inputs s) (s_outputs s) (s_spent s)
    (s_pending_inputs s) (s_pending_outputs s) (s_next_serial s) v (s_peer_add_outputs s)
    (s_our_turn s) (s_sent_complete s) (s_recv_complete s) (s_failed s).
Definition set_peer_add_outputs (v : Z) (s : session) : session :=
  Session (s_cfg s) (s_own_reserve_waived s) (s_inputs s) (s_outputs s) (s_spent s)
    (s_pending_inputs s) (s_pending_outputs s) (s_next_serial s) (s_peer_add_inputs s) v
    (s_our_turn s) (s_sent_complete s) (s_recv_complete s) (s_failed s).
Definition set_our_turn (v : bool) (s : session) : session :=
  Session (s_cfg s) (s_own_reserve_waived s) (s_inputs s) (s_outputs s) (s_spent s)
    (s_pending_inputs s) (s_pending_outputs s) (s_next_serial s) (s_peer_add_inputs s)
    (s_peer_add_outputs s) v (s_sent_complete s) (s_recv_complete s) (s_failed s).
Definition set_sent_complete (v : bool) (s : session) : session :=
  Session (s_cfg s) (s_own_reserve_waived s) (s_inputs s) (s_outputs s) (s_spent s)
    (s_pending_inputs s) (s_pending_outputs s) (s_next_serial s) (s_peer_add_inputs s)
    (s_peer_add_outputs s) (s_our_turn s) v (s_recv_complete s) (s_failed s).
Definition set_recv_complete (v : bool) (s : session) : session :=
  Session (s_cfg s) (s_own_reserve_waived s) (s_inputs s) (s_outputs s) (s_spent s)
    (s_pending_inputs s) (s_pending_outputs s) (s_next_serial s) (s_peer_add_inputs s)
    (s_peer_add_outputs s) (s_our_turn s) (s_sent_complete s) v (s_failed s).
Definition set_failed (v : option it_error) (s : session) : session :=
  Session (s_cfg s) (s_own_reserve_waived s) (s_inputs s) (s_outputs s) (s_spent s)
    (s_pending_inputs s) (s_pending_outputs s) (s_next_serial s) (s_peer_add_inputs s)
    (s_peer_add_outputs s) (s_our_turn s) (s_sent_complete s) (s_recv_complete s) v.

(** ** Code of btcd the package calls *)

Class TxPrims := {
  deserialize_tx : bytes → option msg_tx;          (* MsgTx.Deserialize *)
  serialize_no_witness : msg_tx → option bytes;    (* MsgTx.SerializeNoWitness *)
  tx_hash : msg_tx → bytes;                        (* MsgTx.TxHash *)
  is_witness_program : bytes → bool;               (* txscript.IsWitnessProgram *)
  is_p2wpkh : bytes → bool;                        (* IsPayToWitnessPubKeyHash *)
  is_p2tr : bytes → bool;                          (* IsPayToTaproot *)
  var_int_size : Z → Z;                            (* wire.VarIntSerializeSize *)
  read_var_int : bytes → option (Z * bytes);       (* wire.ReadVarInt *)
  witness_sig_hash : gmap out_point tx_out → bytes → Z → msg_tx → nat → Z → option bytes;
                                                   (* CalcWitnessSigHash *)
  verify_sig : bytes → bytes → bytes → bool;       (* signature, digest, key *)
  engine_execute : gmap out_point tx_out → bytes → msg_tx → nat → Z → bool;
                                                   (* NewEngine and Execute *)
}.

(** ** Starting a session *)

Definition refuse_peer_items (reason : string) (s : session) : session :=
  let hk := cfg_hooks (s_cfg s) in
  set_cfg (with_hooks (s_cfg s) (cfg_max_peer_add_messages (s_cfg s))
             (Hooks (λ _, Some reason) (λ _, Some reason) (dust_limit hk)
                (witness_weight hk) (reserve hk))) s.

Definition check_amount (_ : unit) (amt : Z) : result it_error unit :=
  ensure (negb ((amt <? 0) || (amt >? max_money))) else ErrAmountRange amt; Ok tt.

Definition check_contribution (_ : unit) (c : Z) : result it_error unit :=
  ensure (negb ((c <? - max_money) || (c >? max_money))) else ErrContributionRange c; Ok tt.

Definition new_session (cfg : config hook_args) : result it_error session :=
  let ha := cfg_hooks cfg in
  match ha_witness_weight ha with None => Err ErrWitnessWeightRequired | Some ww =>
  match ha_reserve ha with None => Err ErrReserveRequired | Some rv =>
  match ha_check_peer_input ha, ha_check_peer_output ha, ha_dust_limit ha with
  | Some ci, Some co, Some dl =>
      let* _ := fold_result check_amount
                  [si_value (cfg_shared cfg); cfg_initiator_balance cfg;
                   cfg_acceptor_balance cfg] tt in
      let* _ := fold_result check_contribution
                  [cfg_initiator_contribution cfg; cfg_acceptor_contribution cfg] tt in
      ensure (negb (bool_decide (cfg_funding_script cfg = []))) else ErrFundingScriptRequired;
      let max := cfg_max_peer_add_messages cfg in
      let max := if max <=? 0 then default_max_peer_add_messages else max in
      let max := if max >? spec_max_add_messages then spec_max_add_messages else max in
      Ok {| s_cfg := with_hooks cfg max (Hooks ci co dl ww rv);
            s_own_reserve_waived := false;
            s_inputs := ∅; s_outputs := ∅; s_spent := ∅;
            s_pending_inputs := []; s_pending_outputs := [];
            s_next_serial := parity (cfg_role cfg);
            s_peer_add_inputs := 0; s_peer_add_outputs := 0;
            s_our_turn := bool_decide (cfg_role cfg = Initiator);
            s_sent_complete := false; s_recv_complete := false;
            s_failed := None |}
  | _, _, _ => Err ErrCallbacksRequired
  end end end.

(** ** Queueing our items *)

Definition serial (s : session) : Z * session :=
  let id := s_next_serial s in (id, set_next_serial (u64 (id + 2)) s).

Definition with_in_serial (i : input) (id : Z) : input :=
  Input id (in_out_point i) (in_value i) (in_script i) (in_sequence i) (in_shared i)
    (in_max_witness_weight i) (in_prev_tx i).

Definition with_out_serial (o : output) (id : Z) : output :=
  Output id (out_value o) (out_script o) (out_funding o).

Definition add_local_input (i : input) (s : session) : session :=
  let '(id, s) := serial s in
  set_pending_inputs (s_pending_inputs s ++ [with_in_serial i id]) s.

Definition add_local_output (o : output) (s : session) : session :=
  let '(id, s) := serial s in
  set_pending_outputs (s_pending_outputs s ++ [with_out_serial o id]) s.

Definition funding_value (s : session) : Z :=
  i64 (i64 (si_value (cfg_shared (s_cfg s)) + cfg_initiator_contribution (s_cfg s)) +
       cfg_acceptor_contribution (s_cfg s)).

Definition add_shared_input_and_funding (s : session) : result it_error session :=
  if negb (bool_decide (cfg_role (s_cfg s) = Initiator)) then Err ErrOnlyInitiator
  else
    let sh := cfg_shared (s_cfg s) in
    let '(id1, s) := serial s in
    let s := set_pending_inputs
      (Input id1 (si_out_point sh) (si_value sh) (si_script sh) max_sequence true
         (si_witness_weight sh) None :: s_pending_inputs s) s in
    let '(id2, s) := serial s in
    Ok (set_pending_outputs
      (Output id2 (funding_value s) (cfg_funding_script (s_cfg s)) true
         :: s_pending_outputs s) s).

Definition waive_own_reserve (s : session) : session := set_own_reserve_waived true s.

(** ** Turns *)

Definition is_none {A} (o : option A) : bool := match o with None => true | Some _ => false end.

Definition done_ (s : session) : bool :=
  is_none (s_failed s) && s_sent_complete s && s_recv_complete s.

Definition our_turn (s : session) : bool :=
  s_our_turn s && negb (done_ s) && is_none (s_failed s).

Definition fail (err : it_error) (s : session) : session := set_failed (Some err) s.

(** *** Sending *)

Section Send.
Context `{T : TxPrims}.

Definition send_input (i : input) (s : session) : session * result it_error message :=
  match s_spent s !! in_out_point i with
  | Some prev =>
      let err := AbortError (AAlreadyAdded (in_out_point i) prev) in
      (fail err s, Err err)
  | None =>
      let s := set_inputs (<[in_serial i := i]> (s_inputs s)) s in
      let s := set_spent (<[in_out_point i := in_serial i]> (s_spent s)) s in
      let msg prev_tx txid :=
        TxAddInput (cfg_channel_id (s_cfg s)) (in_serial i) prev_tx
          (op_index (in_out_point i)) (in_sequence i) txid in
      if in_shared i then (s, Ok (msg [] (Some (op_hash (in_out_point i)))))
      else
        match in_prev_tx i with
        | None => (s, Err ErrNilPanic)
        | Some tx =>
            match serialize_no_witness tx with
            | None => (s, Err ErrSerialize)
            | Some b => (s, Ok (msg b None))
            end
        end
  end.

Definition next (s : session) : session * result it_error message :=
  match s_failed s with
  | Some err => (s, Err err)
  | None =>
      if negb (our_turn s) then (s, Err ErrNotOurTurn)
      else
        let s := set_our_turn false s in
        match s_pending_inputs s with
        | i :: rest =>
            let s := set_sent_complete false (set_pending_inputs rest s) in
            send_input i s
        | [] =>
            match s_pending_outputs s with
            | o :: rest =>
                let s := set_sent_complete false (set_pending_outputs rest s) in
                let s := set_outputs (<[out_serial o := o]> (s_outputs s)) s in
                (s, Ok (TxAddOutput (cfg_channel_id (s_cfg s)) (out_serial o)
                          (out_value o) (out_script o)))
            | [] =>
                (set_sent_complete true s, Ok (TxComplete (cfg_channel_id (s_cfg s))))
            end
        end
  end.
End Send.

(** *** Receiving *)

Definition check_peer_serial (s : session) (serial_id : Z) : result it_error unit :=
  let peer := other (cfg_role (s_cfg s)) in
  ensure (bool_decide (added_by serial_id = peer)) else AbortError (AWrongParity serial_id peer);
  ensure (is_none (s_inputs s !! serial_id)) else AbortError (ASerialUsed serial_id);
  ensure (is_none (s_outputs s !! serial_id)) else AbortError (ASerialUsed serial_id);
  Ok tt.

Definition is_coin_base (tx : msg_tx) : bool :=
  match tx_ins tx with
  | [i] => (op_index (prev_out i) =? max_prev_out_index) &&
           bool_decide (op_hash (prev_out i) = replicate 32 Byte.x00)
  | _ => false
  end.

(** [keepsReserve]: a role's balance, changed by its contribution, against
    the reserve on the new capacity. *)
Definition balance_after (s : session) (r : role) : Z :=
  if decide (r = Acceptor)
  then i64 (cfg_acceptor_balance (s_cfg s) + cfg_acceptor_contribution (s_cfg s))
  else i64 (cfg_initiator_balance (s_cfg s) + cfg_initiator_contribution (s_cfg s)).

Definition keeps_reserve (s : session) (r : role) : result it_error unit :=
  let balance := balance_after s r in
  ensure (negb (balance <? 0)) else AbortError (ANegativeBalance r);
  let rv := reserve (cfg_hooks (s_cfg s)) (funding_value s) in
  ensure (negb (balance <? rv)) else AbortError (AReserve r balance rv);
  Ok tt.

(** *** The counts of a serialized transaction ([checkTxCounts])

    The reader is the list of bytes left; [None] is any of its errors. *)

Section TxCounts.
Context `{T : TxPrims}.

Definition skip (n : Z) (r : bytes) : option bytes :=
  if n >? Z.of_nat (length r) then None else Some (drop (Z.to_nat n) r).

Definition count (size : Z) (r : bytes) : option (Z * bytes) :=
  match read_var_int r with
  | None => None
  | Some (n, r) => if n >? Z.of_nat (length r) / size then None else Some (n, r)
  end.

Definition script (r : bytes) : option bytes :=
  match read_var_int r with
  | None => None
  | Some (n, r) => skip n r
  end.

Fixpoint times (n : nat) (f : bytes → option bytes) (r : bytes) : option bytes :=
  match n with
  | O => Some r
  | S n' => f r ≫= times n' f
  end.

Definition skip_input (r : bytes) : option bytes := r ← skip 36 r; r ← script r; skip 4 r.
Definition skip_output (r : bytes) : option bytes := r ← skip 8 r; script r.
Definition skip_witness (r : bytes) : option bytes :=
  '(items, r) ← count 1 r; times (Z.to_nat items) script r.

Definition check_tx_counts (b : bytes) : option unit :=
  r ← skip 4 b;
  let witness := (5 <? Z.of_nat (length b)) &&
                 bool_decide (b !! 4%nat = Some Byte.x00) &&
                 negb (bool_decide (b !! 5%nat = Some Byte.x00)) in
  r ← (if witness then skip 2 r else Some r);
  '(inputs, r) ← count 41 r;
  r ← times (Z.to_nat inputs) skip_input r;
  '(outputs, r) ← count 9 r;
  r ← times (Z.to_nat outputs) skip_output r;
  r ← (if witness then times (Z.to_nat inputs) skip_witness r else Some r);
  _ ← skip 4 r;
  Some tt.
End TxCounts.

(** *** Inputs and outputs the peer adds *)

Section Receive.
Context `{T : TxPrims}.

(** The branch of [receiveInput] for the shared input. *)
Definition peer_shared_input (s : session) (serial_id : Z) (prev_tx : bytes)
    (vout sequence : Z) (txid : bytes) : result it_error input :=
  let sh := cfg_shared (s_cfg s) in
  ensure (negb (negb (bool_decide (added_by serial_id = Initiator)))) else AbortError AAcceptorShared;
  ensure (bool_decide (prev_tx = [])) else AbortError ASharedPrevTx;
  let op := OutPoint txid vout in
  ensure (bool_decide (op = si_out_point sh)) else AbortError (ASharedNotFunding op (si_out_point sh));
  Ok (Input serial_id op (si_value sh) (si_script sh) sequence true (si_witness_weight sh) None).

(** The other branch: an input spending an output of [prev_tx]. *)
Definition peer_plain_input (s : session) (serial_id : Z) (prev_tx : bytes)
    (vout sequence : Z) : result it_error input :=
  match check_tx_counts prev_tx with None => abortf APrevTxParse | Some _ =>
  match deserialize_tx prev_tx with None => abortf APrevTxParse | Some tx =>
  match tx_outs tx !! Z.to_nat vout with None => abortf (AVoutRange vout) | Some out =>
    ensure (is_witness_program (to_script out)) else AbortError ANonSegwit;
    ensure (negb ((to_value out <? 0) || (to_value out >? max_money)))
      else AbortError (AInputValueRange (to_value out));
    ensure (negb (is_coin_base tx)) else AbortError ACoinbase;
    match witness_weight (cfg_hooks (s_cfg s)) (to_script out) with
    | Err e => abortf (AInputType e)
    | Ok weight =>
        let op := OutPoint (tx_hash tx) vout in
        ensure (negb (bool_decide (op = si_out_point (cfg_shared (s_cfg s)))))
          else AbortError AFundingPlain;
        Ok (Input serial_id op (to_value out) (to_script out) sequence false weight None)
    end
  end end end.

Definition has_shared (s : session) : bool :=
  existsb (λ '(_, i), in_shared i) (map_to_list (s_inputs s)).

(** Every check of [receiveInput] after the message count. *)
Definition peer_input (s : session) (serial_id : Z) (prev_tx : bytes)
    (vout sequence : Z) (shared_txid : option bytes) : result it_error input :=
  let* _ := check_peer_serial s serial_id in
  ensure (negb (Z.of_nat (size (s_inputs s)) >=? max_inputs_or_outputs)) else AbortError ATooManyInputs;
  ensure (negb (sequence >? max_sequence)) else AbortError (ASequenceFinal sequence);
  ensure (negb ((Z.land sequence sequence_lock_time_disabled =? 0) &&
                negb (Z.land sequence sequence_lock_time_mask =? 0)))
    else AbortError (ASequenceRelativeLock sequence);
  let* i := match shared_txid with
            | Some txid => peer_shared_input s serial_id prev_tx vout sequence txid
            | None => peer_plain_input s serial_id prev_tx vout sequence
            end in
  match s_spent s !! in_out_point i with
  | Some prev => abortf (AAlreadyAdded (in_out_point i) prev)
  | None =>
      ensure (negb (in_shared i && has_shared s)) else AbortError ASecondShared;
      match (if in_shared i then None else check_peer_input (cfg_hooks (s_cfg s)) i) with
      | Some e => abortf (AInputPolicy (in_out_point i) e)
      | None => Ok i
      end
  end.

Definition receive_input (s : session) (serial_id : Z) (prev_tx : bytes)
    (vout sequence : Z) (shared_txid : option bytes) : session * option it_error :=
  let s := set_peer_add_inputs (s_peer_add_inputs s + 1) s in
  if s_peer_add_inputs s >? cfg_max_peer_add_messages (s_cfg s)
  then (s, Some (AbortError (ATooManyAddInput (cfg_max_peer_add_messages (s_cfg s)))))
  else
    match peer_input s serial_id prev_tx vout sequence shared_txid with
    | Err e => (s, Some e)
    | Ok i =>
        let s := set_inputs (<[in_serial i := i]> (s_inputs s)) s in
        (set_spent (<[in_out_point i := in_serial i]> (s_spent s)) s, None)
    end.

(** Every check of [receiveOutput] after the message count. *)
Definition peer_output (s : session) (serial_id amount : Z) (scr : bytes) : result it_error output :=
  let* _ := check_peer_serial s serial_id in
  ensure (negb (Z.of_nat (size (s_outputs s)) >=? max_inputs_or_outputs)) else AbortError ATooManyOutputs;
  ensure (negb ((amount <? 0) || (amount >? max_money))) else AbortError (AOutputRange amount);
  ensure (negb (amount <? dust_limit (cfg_hooks (s_cfg s)) scr)) else AbortError (AOutputDust amount);
  let out := Output serial_id amount scr (bool_decide (scr = cfg_funding_script (s_cfg s))) in
  if out_funding out then
    ensure (negb (negb (bool_decide (added_by serial_id = Initiator)))) else AbortError AAcceptorFunding;
    Ok out
  else
    match check_peer_output (cfg_hooks (s_cfg s)) out with
    | Some e => abortf (AOutputPolicy e)
    | None =>
        let* _ := keeps_reserve s (other (cfg_role (s_cfg s))) in
        Ok out
    end.

Definition receive_output (s : session) (serial_id amount : Z) (scr : bytes) :
    session * option it_error :=
  let s := set_peer_add_outputs (s_peer_add_outputs s + 1) s in
  if s_peer_add_outputs s >? cfg_max_peer_add_messages (s_cfg s)
  then (s, Some (AbortError (ATooManyAddOutput (cfg_max_peer_add_messages (s_cfg s)))))
  else
    match peer_output s serial_id amount scr with
    | Err e => (s, Some e)
    | Ok out => (set_outputs (<[out_serial out := out]> (s_outputs s)) s, None)
    end.

Definition receive_remove (s : session) (serial_id : Z) (is_input : bool) :
    session * option it_error :=
  if negb (bool_decide (added_by serial_id = other (cfg_role (s_cfg s))))
  then (s, Some (AbortError (ANotPeers serial_id)))
  else if is_input then
    match s_inputs s !! serial_id with
    | None => (s, Some (AbortError (ANoInput serial_id)))
    | Some i =>
        let s := set_inputs (delete serial_id (s_inputs s)) s in
        (set_spent (delete (in_out_point i) (s_spent s)) s, None)
    end
  else
    match s_outputs s !! serial_id with
    | None => (s, Some (AbortError (ANoOutput serial_id)))
    | Some _ => (set_outputs (delete serial_id (s_outputs s)) s, None)
    end.

(** The type switch of [Receive]: the state after the message and its error. *)
Definition dispatch (s : session) (msg : message) : session * option it_error :=
  match msg with
  | TxAddInput _ id prev_tx vout seq txid =>
      let '(s, err) := receive_input s id prev_tx vout seq txid in
      (set_recv_complete false s, err)
  | TxAddOutput _ id amount scr =>
      let '(s, err) := receive_output s id amount scr in
      (set_recv_complete false s, err)
  | TxRemoveInput _ id =>
      let '(s, err) := receive_remove s id true in
      (set_recv_complete false s, err)
  | TxRemoveOutput _ id =>
      let '(s, err) := receive_remove s id false in
      (set_recv_complete false s, err)
  | TxComplete _ => (set_recv_complete true s, None)
  | OtherMessage t => (s, Some (AbortError (AUnexpected t)))
  end.

Definition receive (s : session) (msg : message) : session * option it_error :=
  match s_failed s with
  | Some err => (s, Some err)
  | None =>
      if s_our_turn s || done_ s then
        let err := AbortError (AOutOfTurn msg) in (fail err s, Some err)
      else
        let '(s, err) := dispatch s msg in
        match err with
        | Some err => (fail err s, Some err)
        | None => (if negb (done_ s) then set_our_turn true s else s, None)
        end
  end.
End Receive.

(** ** Completing the construction *)

Record built := Built {
  res_tx : msg_tx;
  res_inputs : list input;
  res_outputs : list output;
  res_funding_index : Z;
  res_shared_index : Z;
  res_fee : Z;
  res_weight : Z;
}.

(** [sort.Slice] by serial id over the values of the map. *)
Definition in_serial_le (a b : input) : Prop := in_serial a ≤ in_serial b.
Definition out_serial_le (a b : output) : Prop := out_serial a ≤ out_serial b.
#[export] Instance in_serial_le_dec : RelDecision in_serial_le.
Proof. unfold RelDecision, in_serial_le. intros. apply _. Defined.
#[export] Instance out_serial_le_dec : RelDecision out_serial_le.
Proof. unfold RelDecision, out_serial_le. intros. apply _. Defined.

Definition sorted_inputs (s : session) : list input :=
  merge_sort in_serial_le (map_to_list (s_inputs s)).*2.
Definition sorted_outputs (s : session) : list output :=
  merge_sort out_serial_le (map_to_list (s_outputs s)).*2.

(** The loop over [res.Inputs] with the set [seen]. *)
Fixpoint check_spent_once (seen : gset out_point) (ins : list input) : result it_error unit :=
  match ins with
  | [] => Ok tt
  | i :: ins =>
      ensure (negb (bool_decide (in_out_point i ∈ seen))) else AbortError (ASpentTwice (in_out_point i));
      check_spent_once ({[in_out_point i]} ∪ seen) ins
  end.

(** How many items satisfy [p], and the index of the last of them. *)
Fixpoint scan {A} (p : A → bool) (l : list A) (i n idx : Z) : Z * Z :=
  match l with
  | [] => (n, idx)
  | x :: l => if p x then scan p l (i + 1) (n + 1) (u32 i) else scan p l (i + 1) n idx
  end.

(** *** Weights *)

Record side_weights := SideWeights { w_initiator : Z; w_acceptor : Z; w_total : Z }.

Section Weights.
Context `{T : TxPrims}.

Definition common_weight (num_inputs num_outputs : Z) : Z :=
  (4 + 4 + var_int_size num_inputs + var_int_size num_outputs) * 4 + 2.

Definition input_weight (max_witness_weight : Z) : Z :=
  i64 ((32 + 4 + 1 + 4) * 4 + max_witness_weight).

Definition output_weight (pk_script : bytes) : Z :=
  (8 + var_int_size (Z.of_nat (length pk_script)) + Z.of_nat (length pk_script)) * 4.

(** Adds [x] to the total and to one side's weight. *)
Definition charge (to_initiator : bool) (x : Z) (w : side_weights) : side_weights :=
  if to_initiator
  then SideWeights (i64 (w_initiator w + x)) (w_acceptor w) (i64 (w_total w + x))
  else SideWeights (w_initiator w) (i64 (w_acceptor w + x)) (i64 (w_total w + x)).

Definition weights (ins : list input) (outs : list output) : side_weights :=
  let common := common_weight (Z.of_nat (length ins)) (Z.of_nat (length outs)) in
  let w := charge true common (SideWeights 0 0 0) in
  let w := foldl (λ w i,
      charge (in_shared i || bool_decide (added_by (in_serial i) = Initiator))
        (input_weight (in_max_witness_weight i)) w) w ins in
  foldl (λ w o,
      charge (out_funding o || bool_decide (added_by (out_serial o) = Initiator))
        (output_weight (out_script o)) w) w outs.
End Weights.

Definition peer_slack (s : session) (ins : list input) : Z :=
  let n := foldl (λ n i,
    if negb (in_shared i) && bool_decide (added_by (in_serial i) = other (cfg_role (s_cfg s)))
    then n + 1 else n) 0 ins in
  n * peer_witness_slack.

(** *** Accounting *)

(** The value of a side's items: the loops of [checkAccounting]. *)
Definition side_inputs (r : role) (ins : list input) : Z :=
  foldl (λ a i, if negb (in_shared i) && bool_decide (added_by (in_serial i) = r)
                then i64 (a + in_value i) else a) 0 ins.

Definition side_outputs (r : role) (outs : list output) : Z :=
  foldl (λ a o, if negb (out_funding o) && bool_decide (added_by (out_serial o) = r)
                then i64 (a + out_value o) else a) 0 outs.

Definition check_side (s : session) (ins : list input) (r : role)
    (inv outv contribution weight : Z) : result it_error unit :=
  let weight := if negb (bool_decide (r = cfg_role (s_cfg s)))
                then i64 (weight - peer_slack s ins) else weight in
  let fee := fee_for_weight (cfg_fee_rate (s_cfg s)) (u64 weight) in
  let paid := i64 (i64 (inv - outv) - contribution) in
  ensure (negb (paid <? fee)) else AbortError (AFeeUncovered r inv outv contribution fee);
  ensure (negb (bool_decide (r = cfg_role (s_cfg s)) &&
                (paid >? i64 (i64 (2 * fee) + max_excess_fee))))
    else AbortError (AFeeExcess r paid fee);
  Ok tt.

Definition check_accounting (s : session) (ins : list input) (outs : list output)
    (w : side_weights) : result it_error unit :=
  let* _ := check_side s ins Initiator (side_inputs Initiator ins) (side_outputs Initiator outs)
              (cfg_initiator_contribution (s_cfg s)) (w_initiator w) in
  check_side s ins Acceptor (side_inputs Acceptor ins) (side_outputs Acceptor outs)
    (cfg_acceptor_contribution (s_cfg s)) (w_acceptor w).

(** *** Reserves *)

Definition added_output (s : session) (outs : list output) (r : role) : bool :=
  (if decide (r = Initiator) then cfg_initiator_contribution (s_cfg s) <? 0
   else cfg_acceptor_contribution (s_cfg s) <? 0)
  || existsb (λ o, negb (out_funding o) && bool_decide (added_by (out_serial o) = r)) outs.

Definition check_reserve (s : session) (outs : list output) (_ : unit) (r : role) :
    result it_error unit :=
  let rv := reserve (cfg_hooks (s_cfg s)) (funding_value s) in
  let balance := balance_after s r in
  ensure (negb (balance <? 0)) else AbortError (ANegativeBalance r);
  if bool_decide (r = cfg_role (s_cfg s)) && s_own_reserve_waived s then Ok tt
  else
    ensure (negb (added_output s outs r && (balance <? rv))) else AbortError (AReserve r balance rv);
    Ok tt.

Definition check_reserves (s : session) (outs : list output) : result it_error unit :=
  fold_result (check_reserve s outs) [Initiator; Acceptor] tt.

(** *** Build *)

Definition sum_inputs (ins : list input) : Z := foldl (λ a i, i64 (a + in_value i)) 0 ins.
Definition sum_outputs (outs : list output) : Z := foldl (λ a o, i64 (a + out_value o)) 0 outs.

Section Build.
Context `{T : TxPrims}.

Definition build_tx (s : session) (ins : list input) (outs : list output) : msg_tx :=
  MsgTx 2 (map (λ i, TxIn (in_out_point i) (in_sequence i) []) ins)
    (map (λ o, TxOut (out_value o) (out_script o)) outs) (cfg_lock_time (s_cfg s)).

Definition commitment_shaped (tx : msg_tx) : bool :=
  match tx_ins tx with
  | [i] => (Z.shiftr (ti_sequence i) 24 =? 0x80) && (Z.shiftr (tx_lock_time tx) 24 =? 0x20)
  | _ => false
  end.

(** Everything [Build] checks once both sides have sent tx_complete. *)
Definition build_checks (s : session) : result it_error built :=
  let ins := sorted_inputs s in
  let outs := sorted_outputs s in
  let n_in := Z.of_nat (length ins) in
  let n_out := Z.of_nat (length outs) in
  ensure (negb ((n_in >? max_inputs_or_outputs) || (n_out >? max_inputs_or_outputs)))
    else AbortError (ATooManyItems n_in n_out);
  let* _ := check_spent_once ∅ ins in
  let tx := build_tx s ins outs in
  let '(shared, shared_index) := scan in_shared ins 0 0 0 in
  let '(funding, funding_index) := scan out_funding outs 0 0 0 in
  ensure (shared =? 1) else AbortError (ASharedCount shared);
  ensure (funding =? 1) else AbortError (AFundingCount funding);
  match outs !! Z.to_nat funding_index with
  | None => Err ErrNilPanic
  | Some fo =>
      ensure (out_value fo =? funding_value s)
        else AbortError (AFundingValue (out_value fo) (funding_value s));
      ensure (negb (funding_value s <? dust_limit (cfg_hooks (s_cfg s)) (cfg_funding_script (s_cfg s))))
        else AbortError (AFundingDust (funding_value s));
      ensure (negb (commitment_shaped tx)) else AbortError ACommitmentShape;
      let w := weights ins outs in
      ensure (negb (w_total w >? max_standard_weight)) else AbortError (AWeight (w_total w));
      let* _ := check_accounting s ins outs w in
      let* _ := check_reserves s outs in
      let inv := sum_inputs ins in
      let outv := sum_outputs outs in
      ensure (negb ((inv >? max_money * max_inputs_or_outputs) || (inv <? outv)))
        else AbortError (AInputsBelowOutputs inv outv);
      let fee := i64 (inv - outv) in
      let min_weight := u64 (i64 (w_total w - peer_slack s ins)) in
      ensure (negb (fee <? fee_for_weight (cfg_fee_rate (s_cfg s)) min_weight))
        else AbortError (AFeeRate fee (w_total w));
      Ok (Built tx ins outs funding_index shared_index fee (w_total w))
  end.

Definition build (s : session) : session * result it_error built :=
  if negb (done_ s) then (s, Err ErrNotComplete)
  else
    match build_checks s with
    | Ok res => (s, Ok res)
    | Err e => (fail e s, Err e)
    end.
End Build.

(** ** Signing order ([order.go]) *)

Definition contributed (ins : list input) : Z * Z :=
  foldl (λ '(ini, acc) i,
    if in_shared i || bool_decide (added_by (in_serial i) = Initiator)
    then (i64 (ini + in_value i), acc) else (ini, i64 (acc + in_value i))) (0, 0) ins.

(** [bytes.Compare] *)
Fixpoint bytes_compare (a b : bytes) : comparison :=
  match a, b with
  | [], [] => Eq
  | [], _ => Lt
  | _, [] => Gt
  | x :: a, y :: b =>
      match byte.unsigned x ?= byte.unsigned y with
      | Eq => bytes_compare a b
      | c => c
      end
  end.

Definition signs_first (ins : list input) (us : role) (our_node_id their_node_id : bytes) : bool :=
  let '(ini, acc) := contributed ins in
  let '(ours, theirs) := if decide (us = Acceptor) then (acc, ini) else (ini, acc) in
  if ours <? theirs then true
  else if ours >? theirs then false
  else bool_decide (bytes_compare our_node_id their_node_id = Lt).

(** ** The peer's witnesses ([verify.go]) *)

Inductive verify_error :=
| VNoSharedInput
| VDigest
| VSharedSig
| VWitnessCount (n m : Z)
| VNotP2WPKH
| VNotKeyPath
| VNotKeyPathSig
| VInputType
| VHashType (h : Z)
| VExecution (i : Z).

(** txscript's hash types: SIGHASH_ALL, and the chain's SIGHASH_UNIFIED. *)
Definition sig_hash_all : Z := 1.
Definition sig_hash_unified : Z := 0x20.
Definition shared_input_hash_type : Z := Z.lor sig_hash_all sig_hash_unified.

Definition prev_out_fetcher (ins : list input) : gmap out_point tx_out :=
  foldl (λ m i, <[in_out_point i := TxOut (in_value i) (in_script i)]> m) ∅ ins.

Definition check_hash_type (hash_type : Z) (unified : bool) : result verify_error unit :=
  if hash_type =? sig_hash_all then Ok tt
  else if unified && (hash_type =? shared_input_hash_type) then Ok tt
  else Err (VHashType hash_type).

Section Verify.
Context `{T : TxPrims}.

Definition shared_input_sig_hash (res : built) (witness_script : bytes) (hash_type : Z) :
    result verify_error bytes :=
  match res_inputs res !! Z.to_nat (res_shared_index res) with
  | None => Err VNoSharedInput
  | Some i =>
      ensure (in_shared i) else VNoSharedInput;
      match witness_sig_hash (prev_out_fetcher (res_inputs res)) witness_script hash_type
              (res_tx res) (Z.to_nat (res_shared_index res)) (in_value i) with
      | None => Err VDigest
      | Some d => Ok d
      end
  end.

Definition verify_shared_input_sig (res : built) (witness_script sig peer_key : bytes)
    (hash_type : Z) : result verify_error unit :=
  let* digest := shared_input_sig_hash res witness_script hash_type in
  ensure (verify_sig sig digest peer_key) else VSharedSig;
  Ok tt.

Definition last_byte (b : bytes) : Z :=
  match last b with Some x => byte.unsigned x | None => 0 end.

Definition check_witness_template (pk_script : bytes) (witness : list bytes) (unified : bool) :
    result verify_error unit :=
  if is_p2wpkh pk_script then
    match witness with
    | [sig; key] =>
        ensure (negb ((Z.of_nat (length sig) =? 0) || (Z.of_nat (length sig) >? 73)
                      || negb (Z.of_nat (length key) =? 33))) else VNotP2WPKH;
        check_hash_type (last_byte sig) unified
    | _ => Err VNotP2WPKH
    end
  else if is_p2tr pk_script then
    match witness with
    | [sig] =>
        if Z.of_nat (length sig) =? 64 then Ok tt
        else if Z.of_nat (length sig) =? 65 then check_hash_type (last_byte sig) unified
        else Err VNotKeyPathSig
    | _ => Err VNotKeyPath
    end
  else Err VInputType.

(** The indexes of the inputs the peer added, and those inputs. *)
Fixpoint peer_inputs_from (k : nat) (ins : list input) (peer : role) : list (nat * input) :=
  match ins with
  | [] => []
  | i :: ins =>
      (if negb (in_shared i) && bool_decide (added_by (in_serial i) = peer) then [(k, i)] else [])
      ++ peer_inputs_from (S k) ins peer
  end.

Definition peer_inputs (ins : list input) (peer : role) : list (nat * input) :=
  peer_inputs_from 0 ins peer.

(** [tx.TxIn[i].Witness = w] *)
Definition set_witness (tx : msg_tx) (i : nat) (w : list bytes) : msg_tx :=
  MsgTx (tx_version tx)
    (alter (λ t, TxIn (prev_out t) (ti_sequence t) w) i (tx_ins tx))
    (tx_outs tx) (tx_lock_time tx).

Definition check_peer_witness (res : built) (tx : msg_tx) (unified : bool) (_ : unit)
    (x : (nat * input) * list bytes) : result verify_error unit :=
  let '((i, inp), witness) := x in
  let* _ := check_witness_template (in_script inp) witness unified in
  ensure (engine_execute (prev_out_fetcher (res_inputs res)) (in_script inp) tx i (in_value inp))
    else VExecution (Z.of_nat i);
  Ok tt.

Definition check_peer_witnesses (res : built) (peer : role) (witnesses : list (list bytes))
    (unified : bool) : result verify_error unit :=
  let pis := peer_inputs (res_inputs res) peer in
  ensure (Z.of_nat (length witnesses) =? Z.of_nat (length pis))
    else VWitnessCount (Z.of_nat (length witnesses)) (Z.of_nat (length pis));
  let tx := foldl (λ tx x, set_witness tx x.1.1 x.2) (res_tx res) (zip pis witnesses) in
  fold_result (check_peer_witness res tx unified) (zip pis witnesses) tt.
End Verify.

(** * The invariant of a session

    Stated over the parts of the state it speaks of, so that changes of the
    turn and of the flags do not touch it. *)

Section Items.
Variables (us : role) (sh : shared_input) (fscript : bytes).

Definition input_ok (i : input) : Prop :=
  0 ≤ in_value i ≤ max_money ∧
  (in_shared i = true → in_out_point i = si_out_point sh ∧ in_value i = si_value sh ∧
                        added_by (in_serial i) = Initiator).

Definition output_ok (o : output) : Prop :=
  - 2 * max_money ≤ out_value o ≤ 3 * max_money ∧
  (out_funding o = true → out_script o = fscript).

(** A serial id this node has handed out already. *)
Definition handed_out (next_id id : Z) : Prop := added_by id = us ∧ 0 ≤ id < next_id.

Record items_ok (ins : gmap Z input) (outs : gmap Z output) (spent : gmap out_point Z)
    (pin : list input) (pout : list output) (next_id : Z) : Prop := {
  it_in_key id i : ins !! id = Some i → in_serial i = id;
  it_out_key id o : outs !! id = Some o → out_serial o = id;
  it_spent op id : spent !! op = Some id ↔ ∃ i, ins !! id = Some i ∧ in_out_point i = op;
  it_in_ok id i : ins !! id = Some i → input_ok i;
  it_out_ok id o : outs !! id = Some o → output_ok o;
  it_own_in id i : ins !! id = Some i → added_by id = us → handed_out next_id id;
  it_own_out id o : outs !! id = Some o → added_by id = us → handed_out next_id id;
  it_next : added_by next_id = us ∧ 0 ≤ next_id;
  it_pin i : i ∈ pin → handed_out next_id (in_serial i) ∧ ins !! in_serial i = None ∧ input_ok i;
  it_pout o : o ∈ pout → handed_out next_id (out_serial o) ∧ outs !! out_serial o = None ∧ output_ok o;
  it_pin_nodup : NoDup (in_serial <$> pin);
  it_pout_nodup : NoDup (out_serial <$> pout);
}.

Lemma handed_out_mono n m id : n ≤ m → handed_out n id → handed_out m id.
Proof. unfold handed_out. intuition lia. Qed.

Lemma added_by_next n : added_by n = us → added_by (n + 2) = us.
Proof. unfold added_by. intros <-. by rewrite <-(Z_mod_plus_full n 1 2). Qed.

(** Handing out the next serial id. *)
Lemma items_ok_next ins outs spent pin pout n :
  items_ok ins outs spent pin pout n → items_ok ins outs spent pin pout (n + 2).
Proof.
  intros [Hk Ho Hs Hi Hq Hoi Hoo [Hn Hn0] Hp Hpo Hd Hdo]. split; try done.
  - intros id i H E. apply (handed_out_mono n); [lia|]. by eapply Hoi.
  - intros id o H E. apply (handed_out_mono n); [lia|]. by eapply Hoo.
  - split; [by apply added_by_next | lia].
  - intros i H. destruct (Hp i H) as (? & ? & ?). split_and!; try done.
    by apply (handed_out_mono n); [lia|].
  - intros o H. destruct (Hpo o H) as (? & ? & ?). split_and!; try done.
    by apply (handed_out_mono n); [lia|].
Qed.

Lemma items_ok_next_fresh ins outs spent pin pout n :
  items_ok ins outs spent pin pout n →
  ins !! n = None ∧ outs !! n = None ∧ n ∉ in_serial <$> pin ∧ n ∉ out_serial <$> pout.
Proof.
  intros I. destruct (it_next _ _ _ _ _ _ I) as [Hn _]. split_and!.
  - destruct (ins !! n) eqn:E; [|done]. destruct (it_own_in _ _ _ _ _ _ I _ _ E Hn). lia.
  - destruct (outs !! n) eqn:E; [|done]. destruct (it_own_out _ _ _ _ _ _ I _ _ E Hn). lia.
  - intros (i & -> & Hi)%list_elem_of_fmap.
    destruct (it_pin _ _ _ _ _ _ I i Hi) as ([_ ?] & _). lia.
  - intros (o & -> & Ho)%list_elem_of_fmap.
    destruct (it_pout _ _ _ _ _ _ I o Ho) as ([_ ?] & _). lia.
Qed.

(** Queueing an item under the next serial id, at either end. *)
Lemma items_ok_queue_in ins outs spent pin pin' pout n i :
  items_ok ins outs spent pin pout n → in_serial i = n → input_ok i → pin' ≡ₚ (i :: pin) →
  items_ok ins outs spent pin' pout (n + 2).
Proof.
  intros I Hi Hok Hp. pose proof (items_ok_next_fresh _ _ _ _ _ _ I) as (Hf & _ & Hfp & _).
  destruct (it_next _ _ _ _ _ _ I) as [Hn Hn0].
  apply items_ok_next in I. destruct I as [Hk Ho Hs Hio Hq Hoi Hoo Hnx Hpi Hpo Hd Hdo].
  split; try done.
  - intros j Hj. rewrite Hp in Hj. apply elem_of_cons in Hj as [-> | Hj]; [|by apply Hpi].
    rewrite Hi. split_and!; try done. split; [done | lia].
  - rewrite Hp. simpl. apply NoDup_cons. rewrite Hi. done.
Qed.

Lemma items_ok_queue_out ins outs spent pin pout pout' n o :
  items_ok ins outs spent pin pout n → out_serial o = n → output_ok o → pout' ≡ₚ (o :: pout) →
  items_ok ins outs spent pin pout' (n + 2).
Proof.
  intros I Hi Hok Hp. pose proof (items_ok_next_fresh _ _ _ _ _ _ I) as (_ & Hf & _ & Hfp).
  destruct (it_next _ _ _ _ _ _ I) as [Hn Hn0].
  apply items_ok_next in I. destruct I as [Hk Ho Hs Hio Hq Hoi Hoo Hnx Hpi Hpo Hd Hdo].
  split; try done.
  - intros j Hj. rewrite Hp in Hj. apply elem_of_cons in Hj as [-> | Hj]; [|by apply Hpo].
    rewrite Hi. split_and!; try done. split; [done | lia].
  - rewrite Hp. simpl. apply NoDup_cons. rewrite Hi. done.
Qed.

(** Recording an input whose outpoint nobody spends yet. *)
Lemma items_ok_insert_in ins outs spent pin pout n i :
  items_ok ins outs spent pin pout n →
  ins !! in_serial i = None → spent !! in_out_point i = None → input_ok i →
  (added_by (in_serial i) = us → handed_out n (in_serial i)) →
  in_serial i ∉ in_serial <$> pin →
  items_ok (<[in_serial i := i]> ins) outs (<[in_out_point i := in_serial i]> spent) pin pout n.
Proof.
  intros [Hk Ho Hs Hio Hq Hoi Hoo Hnx Hpi Hpo Hd Hdo] Hnew Hsp Hok Hown Hfresh. split; try done.
  - intros id j. rewrite lookup_insert_Some. naive_solver.
  - intros op id. rewrite lookup_insert_Some, Hs. split.
    + intros [[<- <-] | (Hne & j & Hj & Hop)].
      * exists i. by rewrite lookup_insert_eq.
      * exists j. rewrite lookup_insert_ne; [done|]. congruence.
    + intros (j & [(<- & <-) | (Hne & Hj)]%lookup_insert_Some & Hop); [by left|].
      right. split; [|by eauto]. intros E. rewrite <-Hop, <-E in *.
      assert (spent !! in_out_point i = Some id) by (apply Hs; eauto). congruence.
  - intros id j. rewrite lookup_insert_Some. naive_solver.
  - intros id j. rewrite lookup_insert_Some. naive_solver.
  - intros j Hj. destruct (Hpi j Hj) as (? & ? & ?). split_and!; try done.
    rewrite lookup_insert_ne; [done|]. intros E. apply Hfresh. rewrite E.
    by apply list_elem_of_fmap_2.
Qed.

Lemma items_ok_insert_out ins outs spent pin pout n o :
  items_ok ins outs spent pin pout n → output_ok o →
  (added_by (out_serial o) = us → handed_out n (out_serial o)) →
  out_serial o ∉ out_serial <$> pout →
  items_ok ins (<[out_serial o := o]> outs) spent pin pout n.
Proof.
  intros [Hk Ho Hs Hio Hq Hoi Hoo Hnx Hpi Hpo Hd Hdo] Hok Hown Hfresh. split; try done.
  - intros id j. rewrite lookup_insert_Some. naive_solver.
  - intros id j. rewrite lookup_insert_Some. naive_solver.
  - intros id j. rewrite lookup_insert_Some. naive_solver.
  - intros j Hj. destruct (Hpo j Hj) as (? & ? & ?). split_and!; try done.
    rewrite lookup_insert_ne; [done|]. intros E. apply Hfresh. rewrite E.
    by apply list_elem_of_fmap_2.
Qed.

Lemma items_ok_delete_in ins outs spent pin pout n id i :
  items_ok ins outs spent pin pout n → ins !! id = Some i →
  items_ok (delete id ins) outs (delete (in_out_point i) spent) pin pout n.
Proof.
  intros [Hk Ho Hs Hio Hq Hoi Hoo Hnx Hpi Hpo Hd Hdo] Hi. split; try done.
  - intros ? ? (_ & ?)%lookup_delete_Some. eauto.
  - intros op k. rewrite lookup_delete_Some, Hs. split.
    + intros (Hne & j & Hj & Hop). exists j. rewrite lookup_delete_Some. split; [|done].
      split; [|done]. congruence.
    + intros (j & (Hne & Hj)%lookup_delete_Some & Hop). split; [|by eauto].
      intros E. assert (spent !! op = Some k) as H1 by (apply Hs; eauto).
      assert (spent !! op = Some id) as H2 by (apply Hs; eauto). congruence.
  - intros ? ? (_ & ?)%lookup_delete_Some. eauto.
  - intros ? ? (_ & ?)%lookup_delete_Some. eauto.
  - intros j Hj. destruct (Hpi j Hj) as (? & ? & ?). split_and!; try done.
    apply lookup_delete_None. by right.
Qed.

Lemma items_ok_delete_out ins outs spent pin pout n id :
  items_ok ins outs spent pin pout n → items_ok ins (delete id outs) spent pin pout n.
Proof.
  intros [Hk Ho Hs Hio Hq Hoi Hoo Hnx Hpi Hpo Hd Hdo]. split; try done.
  - intros ? ? (_ & ?)%lookup_delete_Some. eauto.
  - intros ? ? (_ & ?)%lookup_delete_Some. eauto.
  - intros ? ? (_ & ?)%lookup_delete_Some. eauto.
  - intros j Hj. destruct (Hpo j Hj) as (? & ? & ?). split_and!; try done.
    apply lookup_delete_None. by right.
Qed.

(** Taking the first item off a queue. *)
Lemma items_ok_pop_in ins outs spent pin pout n i :
  items_ok ins outs spent (i :: pin) pout n →
  items_ok ins outs spent pin pout n ∧ handed_out n (in_serial i) ∧ input_ok i ∧
  ins !! in_serial i = None ∧ in_serial i ∉ in_serial <$> pin.
Proof.
  intros [Hk Ho Hs Hio Hq Hoi Hoo Hnx Hpi Hpo Hd Hdo].
  apply NoDup_cons in Hd as [Hd1 Hd2].
  destruct (Hpi i) as (? & ? & ?); [by left|]. split_and!; try done.
  split; try done. intros j Hj. apply Hpi. by right.
Qed.

Lemma items_ok_pop_out ins outs spent pin pout n o :
  items_ok ins outs spent pin (o :: pout) n →
  items_ok ins outs spent pin pout n ∧ handed_out n (out_serial o) ∧ output_ok o ∧
  outs !! out_serial o = None ∧ out_serial o ∉ out_serial <$> pout.
Proof.
  intros [Hk Ho Hs Hio Hq Hoi Hoo Hnx Hpi Hpo Hd Hdo].
  apply NoDup_cons in Hdo as [Hd1 Hd2].
  destruct (Hpo o) as (? & ? & ?); [by left|]. split_and!; try done.
  split; try done. intros j Hj. apply Hpo. by right.
Qed.
End Items.

Definition session_ok (s : session) : Prop :=
  items_ok (cfg_role (s_cfg s)) (cfg_shared (s_cfg s)) (cfg_funding_script (s_cfg s)) (s_inputs s) (s_outputs s) (s_spent s)
    (s_pending_inputs s) (s_pending_outputs s) (s_next_serial s).

(** The amounts [NewSession] checked. *)
Definition config_ok {H} (c : config H) : Prop :=
  0 ≤ si_value (cfg_shared c) ≤ max_money ∧
  0 ≤ cfg_initiator_balance c ≤ max_money ∧ 0 ≤ cfg_acceptor_balance c ≤ max_money ∧
  - max_money ≤ cfg_initiator_contribution c ≤ max_money ∧
  - max_money ≤ cfg_acceptor_contribution c ≤ max_money ∧
  cfg_funding_script c ≠ [].

Lemma new_session_ok cfg s : new_session cfg = Ok s → config_ok (s_cfg s) ∧ session_ok s.
Proof.
  unfold new_session. destruct (ha_witness_weight _); [|done]. destruct (ha_reserve _); [|done].
  destruct (ha_check_peer_input (cfg_hooks cfg)), (ha_check_peer_output (cfg_hooks cfg)),
    (ha_dust_limit (cfg_hooks cfg)); try done.
  intros H. apply rbind_Ok in H as ([] & Ha & H). apply rbind_Ok in H as ([] & Hc & H).
  case_bool_decide as Hf; [done|]. injection H as <-.
  cbn [fold_result rbind check_amount check_contribution] in Ha, Hc. unfold check_amount in Ha.
  unfold check_contribution in Hc. split.
  - unfold config_ok, with_hooks; simpl.
    repeat (destruct (orb _ _) eqn:? in Ha; [done|]; simpl in Ha).
    repeat (destruct (orb _ _) eqn:? in Hc; [done|]; simpl in Hc).
    split_and!; try done; lia.
  - split; simpl; try done.
    + intros op id. rewrite lookup_empty. split; [done|]. intros (i & Hi & _).
      by rewrite lookup_empty in Hi.
    + unfold parity, added_by. by destruct (cfg_role cfg).
    + intros x Hx. by apply elem_of_nil in Hx.
    + intros x Hx. by apply elem_of_nil in Hx.
    + apply NoDup_nil_2.
    + apply NoDup_nil_2.
Qed.

Lemma funding_value_eq s :
  config_ok (s_cfg s) →
  funding_value s = si_value (cfg_shared (s_cfg s)) + cfg_initiator_contribution (s_cfg s) +
                    cfg_acceptor_contribution (s_cfg s).
Proof.
  intros (Hv & _ & _ & Hi & Ha & _). unfold funding_value, max_money in *. by widths.
Qed.

(** ** The moves of a session

    Our own items are wallet inputs and outputs with values that exist; the
    64-bit serial counter is assumed not to run over, which takes [2^63]
    queued items. *)

Section Moves.
Context `{T : TxPrims}.

Definition serial_room (s : session) (n : Z) : Prop := s_next_serial s + 2 * n < 2 ^ 64.

Inductive step : session → session → Prop :=
| step_local_input i s :
    in_shared i = false → 0 ≤ in_value i ≤ max_money → serial_room s 1 →
    step s (add_local_input i s)
| step_local_output o s :
    out_funding o = false → 0 ≤ out_value o ≤ max_money → serial_room s 1 → step s (add_local_output o s)
| step_shared s s' :
    serial_room s 2 → add_shared_input_and_funding s = Ok s' → step s s'
| step_refuse reason s : step s (refuse_peer_items reason s)
| step_waive s : step s (waive_own_reserve s)
| step_next s s' r : next s = (s', r) → step s s'
| step_receive msg s s' e : receive s msg = (s', e) → step s s'
| step_build s s' r : build s = (s', r) → step s s'.

Inductive reachable : session → Prop :=
| reach_new cfg s : new_session cfg = Ok s → reachable s
| reach_step s s' : reachable s → step s s' → reachable s'.

Lemma send_input_ok i s s' r :
  session_ok s → s_inputs s !! in_serial i = None →
  input_ok (cfg_shared (s_cfg s)) i →
  handed_out (cfg_role (s_cfg s)) (s_next_serial s) (in_serial i) →
  in_serial i ∉ in_serial <$> s_pending_inputs s →
  send_input i s = (s', r) → session_ok s' ∧ s_cfg s' = s_cfg s.
Proof.
  intros I Hnew Hok Hown Hfresh H. unfold send_input in H.
  destruct (s_spent s !! in_out_point i) eqn:Es; [by injection H as <- <-|].
  assert (session_ok (set_spent (<[in_out_point i := in_serial i]> (s_spent s))
            (set_inputs (<[in_serial i := i]> (s_inputs s)) s))) as I'.
  { by apply (items_ok_insert_in _ _ _ _ _ _ _ _ _ i I). }
  destruct (in_shared i); [by injection H as <- <-|].
  destruct (in_prev_tx i) as [tx|]; [|by injection H as <- <-].
  destruct (serialize_no_witness tx); by injection H as <- <-.
Qed.

Lemma next_ok s s' r : session_ok s → next s = (s', r) → session_ok s' ∧ s_cfg s' = s_cfg s.
Proof.
  intros I H. unfold next in H. destruct (s_failed s); [by injection H as <- <-|].
  destruct (negb (our_turn s)); [by injection H as <- <-|].
  destruct s as [c w ins outs sp pin pout n pi po ot sc rc f]. unfold session_ok in *. simpl in *.
  destruct pin as [|i pin].
  - destruct pout as [|o pout]; injection H as <- <-; simpl; [done|]. split; [|done].
    apply items_ok_pop_out in I as (I & Hown & Hok & Hnew & Hfr).
    by apply items_ok_insert_out.
  - apply items_ok_pop_in in I as (I & Hown & Hok & Hnew & Hfr).
    apply send_input_ok in H as [HI HC]; done.
Qed.

Lemma check_peer_serial_Ok s id :
  check_peer_serial s id = Ok tt ↔
  added_by id = other (cfg_role (s_cfg s)) ∧ s_inputs s !! id = None ∧ s_outputs s !! id = None.
Proof.
  unfold check_peer_serial. case_bool_decide; [|naive_solver].
  destruct (s_inputs s !! id), (s_outputs s !! id); naive_solver.
Qed.

Lemma other_ne r : other r ≠ r.
Proof. by destruct r. Qed.

(** What an input the peer adds has passed. *)
Record peer_input_spec (s : session) (id vout sequence : Z) (txid : option bytes) (i : input) : Prop := {
  pi_serial : in_serial i = id;
  pi_parity : added_by id = other (cfg_role (s_cfg s));
  pi_unused : s_inputs s !! id = None;
  pi_unspent : s_spent s !! in_out_point i = None;
  pi_ok : input_ok (cfg_shared (s_cfg s)) i;
  pi_sequence : in_sequence i = sequence;
  pi_seq_max : sequence ≤ max_sequence;
  pi_room : Z.of_nat (size (s_inputs s)) < max_inputs_or_outputs;
  pi_shared : in_shared i = negb (is_none txid);
  pi_index : op_index (in_out_point i) = vout;
  pi_plain : in_shared i = false → in_out_point i ≠ si_out_point (cfg_shared (s_cfg s)) ∧
               check_peer_input (cfg_hooks (s_cfg s)) i = None;
}.

Lemma peer_input_Ok s id ptx vout sequence txid i :
  config_ok (s_cfg s) →
  peer_input s id ptx vout sequence txid = Ok i → peer_input_spec s id vout sequence txid i.
Proof.
  intros (Hsv & _) H. unfold peer_input in H. apply rbind_Ok in H as ([] & Hser & H).
  apply check_peer_serial_Ok in Hser as (Hpar & Hui & _).
  destruct (_ >=? _) eqn:Hroom in H; [done|]. destruct (sequence >? max_sequence) eqn:Hseq; [done|].
  cbn [negb] in H. destruct (negb (_ && _)) eqn:Hrel in H; [|done].
  apply rbind_Ok in H as (j & Hj & H).
  destruct (s_spent s !! in_out_point j) eqn:Esp; [done|].
  destruct (negb (in_shared j && has_shared s)) eqn:Esh; [|done].
  destruct (if in_shared j then _ else _) eqn:Epol; [done|]. injection H as <-.
  rewrite Z.geb_leb in Hroom. apply Z.leb_gt in Hroom. rewrite Z.gtb_ltb in Hseq.
  apply Z.ltb_ge in Hseq. destruct txid as [txid|].
  - unfold peer_shared_input in Hj. case_bool_decide as Hp; [|done]. simpl in Hj.
    case_bool_decide; [|done]. case_bool_decide as Hop; [|done]. injection Hj as <-.
    split; simpl in *; done.
  - unfold peer_plain_input in Hj. destruct (check_tx_counts ptx); [|done].
    destruct (deserialize_tx ptx) as [tx|]; [|done].
    destruct (tx_outs tx !! Z.to_nat vout) as [out|]; [|done].
    destruct (is_witness_program _); [|done].
    destruct (_ || _) eqn:Hval in Hj; [done|]. destruct (is_coin_base tx); [done|].
    destruct (witness_weight _ _); [|done]. cbn [negb] in Hj. case_bool_decide as Hop; [done|].
    injection Hj as <-. split; simpl in *; try done. split; simpl; [|done]. lia.
Qed.

(** What an output the peer adds has passed. *)
Record peer_output_spec (s : session) (id amount : Z) (scr : bytes) (o : output) : Prop := {
  po_eq : o = Output id amount scr (bool_decide (scr = cfg_funding_script (s_cfg s)));
  po_parity : added_by id = other (cfg_role (s_cfg s));
  po_unused : s_outputs s !! id = None;
  po_range : 0 ≤ amount ≤ max_money;
  po_dust : dust_limit (cfg_hooks (s_cfg s)) scr ≤ amount;
  po_room : Z.of_nat (size (s_outputs s)) < max_inputs_or_outputs;
  po_funding : out_funding o = true → added_by id = Initiator;
  po_policy : out_funding o = false →
    check_peer_output (cfg_hooks (s_cfg s)) o = None ∧
    keeps_reserve s (other (cfg_role (s_cfg s))) = Ok tt;
}.

Lemma peer_output_Ok s id amount scr o :
  peer_output s id amount scr = Ok o → peer_output_spec s id amount scr o.
Proof.
  intros H. unfold peer_output in H. apply rbind_Ok in H as ([] & Hser & H).
  apply check_peer_serial_Ok in Hser as (Hpar & _ & Huo).
  destruct (_ >=? _) eqn:Hroom in H; [done|]. rewrite Z.geb_leb in Hroom.
  apply Z.leb_gt in Hroom. cbn [negb] in H.
  destruct (_ || _) eqn:Hr in H; [done|]. cbn [negb] in H.
  destruct (amount <? _) eqn:Hd in H; [done|]. cbn [negb] in H.
  cbn [out_funding] in H. apply Z.ltb_ge in Hd.
  case_bool_decide as Hs; cbn [andb] in H.
  - case_bool_decide as Hi; [|done]. injection H as <-.
    split; try done; [by rewrite bool_decide_true | lia].
  - destruct (check_peer_output _ _) eqn:Hc in H; [done|].
    apply rbind_Ok in H as ([] & Hk & [= <-]).
    split; try done; [by rewrite bool_decide_false | lia].
Qed.

Lemma receive_input_ok s id ptx vout sequence txid s' e :
  config_ok (s_cfg s) → session_ok s →
  receive_input s id ptx vout sequence txid = (s', e) → session_ok s' ∧ s_cfg s' = s_cfg s.
Proof.
  intros C I H. unfold receive_input in H. destruct (_ >? _); [by injection H as <- <-|].
  destruct (peer_input _ id ptx vout sequence txid) as [i|] eqn:Hi; [|by injection H as <- <-].
  injection H as <- <-. split; [|done]. apply peer_input_Ok in Hi; [|done].
  destruct Hi as [<- Hpar Hun Hsp Hok _ _ _ _ _ _].
  assert (added_by (in_serial i) ≠ cfg_role (s_cfg s)) as Hne
    by (rewrite Hpar; apply other_ne).
  apply (items_ok_insert_in _ _ _ _ _ _ _ _ _ i I); try done.
  intros (j & Hj1 & Hj2)%list_elem_of_fmap. apply Hne. rewrite Hj1.
  apply (it_pin _ _ _ _ _ _ _ _ _ I j Hj2).
Qed.

Lemma receive_output_ok s id amount scr s' e :
  session_ok s → receive_output s id amount scr = (s', e) →
  session_ok s' ∧ s_cfg s' = s_cfg s.
Proof.
  intros I H. unfold receive_output in H. destruct (_ >? _); [by injection H as <- <-|].
  destruct (peer_output _ id amount scr) as [o|] eqn:Ho; [|by injection H as <- <-].
  injection H as <- <-. split; [|done]. apply peer_output_Ok in Ho.
  destruct Ho as [-> Hpar Hun Hr _ _ _ _].
  assert (added_by id ≠ cfg_role (s_cfg s)) as Hne by (rewrite Hpar; apply other_ne).
  refine (items_ok_insert_out _ _ _ _ _ _ _ _ _ (Output id amount scr _) I _ _ _); try done.
  - unfold output_ok, max_money in *. simpl. split; [lia|]. apply bool_decide_eq_true_1.
  - simpl. intros (j & Hj1 & Hj2)%list_elem_of_fmap. apply Hne. rewrite Hj1.
    apply (it_pout _ _ _ _ _ _ _ _ _ I j Hj2).
Qed.

Lemma receive_remove_ok s id b s' e :
  session_ok s → receive_remove s id b = (s', e) → session_ok s' ∧ s_cfg s' = s_cfg s.
Proof.
  intros I H. unfold receive_remove in H. destruct (negb _); [by injection H as <- <-|].
  destruct b.
  - destruct (s_inputs s !! id) as [i|] eqn:Ei; injection H as <- <-; [|done]. split; [|done].
    by apply (items_ok_delete_in _ _ _ _ _ _ _ _ _ id i I).
  - destruct (s_outputs s !! id) as [o|] eqn:Eo; injection H as <- <-; [|done]. split; [|done].
    by apply (items_ok_delete_out _ _ _ _ _ _ _ _ _ id I).
Qed.

Lemma dispatch_ok s msg s' e :
  config_ok (s_cfg s) → session_ok s → dispatch s msg = (s', e) →
  session_ok s' ∧ s_cfg s' = s_cfg s.
Proof.
  intros C I H. unfold dispatch in H. destruct msg; try (by injection H as <- <-).
  - destruct (receive_input _ _ _ _ _ _) as [s1 e1] eqn:E. injection H as <- <-.
    by apply (receive_input_ok _ _ _ _ _ _ _ _ C I) in E.
  - destruct (receive_output _ _ _ _) as [s1 e1] eqn:E. injection H as <- <-.
    by apply (receive_output_ok _ _ _ _ _ _ I) in E.
  - destruct (receive_remove _ _ _) as [s1 e1] eqn:E. injection H as <- <-.
    by apply (receive_remove_ok _ _ _ _ _ I) in E.
  - destruct (receive_remove _ _ _) as [s1 e1] eqn:E. injection H as <- <-.
    by apply (receive_remove_ok _ _ _ _ _ I) in E.
Qed.

Lemma receive_ok s msg s' e :
  config_ok (s_cfg s) → session_ok s → receive s msg = (s', e) →
  session_ok s' ∧ s_cfg s' = s_cfg s.
Proof.
  intros C I H. unfold receive in H. destruct (s_failed s); [by injection H as <- <-|].
  destruct (_ || _); [by injection H as <- <-|].
  destruct (dispatch s msg) as [s1 e1] eqn:E. apply (dispatch_ok _ _ _ _ C I) in E.
  destruct e1; injection H as <- <-; [done|]. by destruct (negb _).
Qed.

Lemma add_local_input_ok i s :
  session_ok s → in_shared i = false → 0 ≤ in_value i ≤ max_money → serial_room s 1 →
  session_ok (add_local_input i s) ∧ s_cfg (add_local_input i s) = s_cfg s.
Proof.
  intros I Hs Hv Hr. split; [|done]. unfold session_ok, add_local_input, serial. simpl.
  pose proof (proj2 (it_next _ _ _ _ _ _ _ _ _ I)). unfold serial_room in Hr. widths.
  eapply (items_ok_queue_in _ _ _ _ _ _ _ _ _ _ (with_in_serial i (s_next_serial s)) I); [done | |].
  - split; simpl; [done|]. by rewrite Hs.
  - symmetry. apply Permutation_cons_append.
Qed.

Lemma add_local_output_ok o s :
  session_ok s → out_funding o = false → 0 ≤ out_value o ≤ max_money → serial_room s 1 →
  session_ok (add_local_output o s) ∧ s_cfg (add_local_output o s) = s_cfg s.
Proof.
  intros I Hf Hv Hr. split; [|done]. unfold session_ok, add_local_output, serial. simpl.
  pose proof (proj2 (it_next _ _ _ _ _ _ _ _ _ I)). unfold serial_room in Hr. widths.
  eapply (items_ok_queue_out _ _ _ _ _ _ _ _ _ _ (with_out_serial o (s_next_serial s)) I); [done | |].
  - unfold output_ok, max_money in *. simpl. rewrite Hf. split; [lia | done].
  - symmetry. apply Permutation_cons_append.
Qed.

Lemma add_shared_ok s s' :
  config_ok (s_cfg s) → session_ok s → serial_room s 2 →
  add_shared_input_and_funding s = Ok s' → session_ok s' ∧ s_cfg s' = s_cfg s.
Proof.
  intros C I Hr H. unfold add_shared_input_and_funding in H.
  case_bool_decide as Hrole; [|done]. simpl in H. injection H as <-. split; [|done].
  unfold session_ok. simpl. pose proof (it_next _ _ _ _ _ _ _ _ _ I) as [Hn Hn0].
  unfold serial_room in Hr. widths.
  set (i := Input _ _ _ _ _ _ _ _). set (o := Output _ _ _ _).
  assert (items_ok (cfg_role (s_cfg s)) (cfg_shared (s_cfg s)) (cfg_funding_script (s_cfg s)) (s_inputs s) (s_outputs s)
            (s_spent s) (i :: s_pending_inputs s) (s_pending_outputs s)
            (s_next_serial s + 2)) as I1.
  { eapply (items_ok_queue_in _ _ _ _ _ _ _ _ _ _ i I); [done | | done].
    split; simpl; [apply C | by rewrite Hn]. }
  apply (items_ok_queue_out _ _ _ _ _ _ _ _ _ _ o I1); [done | | done].
  unfold output_ok. simpl. split; [|done]. change (funding_value _) with (funding_value s).
  rewrite (funding_value_eq s C). destruct C as (? & _ & _ & ? & ? & _). lia.
Qed.

Lemma build_cfg s s' r : build s = (s', r) →
  s_cfg s' = s_cfg s ∧ (session_ok s → session_ok s').
Proof.
  unfold build. intros H. destruct (negb _); [by injection H as <- <-|].
  destruct (build_checks s); by injection H as <- <-.
Qed.

Lemma step_ok s s' :
  config_ok (s_cfg s) ∧ session_ok s → step s s' → config_ok (s_cfg s') ∧ session_ok s'.
Proof.
  intros [C I] H. inversion H; subst.
  - destruct (add_local_input_ok i s) as [? ->]; done.
  - destruct (add_local_output_ok o s) as [? ->]; done.
  - edestruct add_shared_ok as [? ->]; done.
  - by split.
  - by split.
  - edestruct next_ok as [? ->]; done.
  - edestruct receive_ok as [? ->]; done.
  - edestruct build_cfg as [-> ?]; [done|]. split; auto.
Qed.

Lemma reachable_ok s : reachable s → config_ok (s_cfg s) ∧ session_ok s.
Proof.
  induction 1 as [cfg s H | s s' _ IH H]; [by apply (new_session_ok cfg) | by eapply step_ok].
Qed.
End Moves.
