(* ===== verification/TxToy.v ===== *)
(** * A sample splice

    Concrete code for the operations of btcd that [InteractiveTx] takes as
    parameters, on a table of one previous transaction, and a splice-in of one
    wallet input with change: the runs that show the theorems' hypotheses can
    hold. *)

From S2P Require Import Prelude Chainfee InteractiveTx.

#[export] Instance tx_in_eq_decision : EqDecision tx_in.
Proof. solve_decision. Defined.
#[export] Instance tx_out_eq_decision : EqDecision tx_out.
Proof. solve_decision. Defined.
#[export] Instance msg_tx_eq_decision : EqDecision msg_tx.
Proof. solve_decision. Defined.

#[export] Instance input_eq_decision : EqDecision input.
Proof. solve_decision. Defined.

Definition le8 (v : Z) : bytes := rev (be_encode 8 v).
Definition wpkh (n : Z) : bytes := Byte.x00 :: Byte.x14 :: be_encode 20 n.
Definition wsh (n : Z) : bytes := Byte.x00 :: Byte.x20 :: be_encode 32 n.

(** The transaction the wallet input spends, and its serialization. *)
Definition prev_sample : msg_tx :=
  MsgTx 2 [TxIn (OutPoint (be_encode 32 77) 0) 0xffffffff []] [TxOut 200000 (wpkh 5)] 0.
Definition prev_bytes : bytes :=
  [Byte.x02; Byte.x00; Byte.x00; Byte.x00; Byte.x01] ++ be_encode 32 77 ++ be_encode 4 0 ++
  [Byte.x00; Byte.xff; Byte.xff; Byte.xff; Byte.xff; Byte.x01] ++ le8 200000 ++
  [Byte.x16] ++ wpkh 5 ++ be_encode 4 0.

Definition sample_hash (tx : msg_tx) : bytes :=
  be_encode 32 (tx_version tx + zsum (map to_value (tx_outs tx)) + tx_lock_time tx).

#[export] Instance sample_prims : TxPrims := {
  deserialize_tx b := if bool_decide (b = prev_bytes) then Some prev_sample else None;
  serialize_no_witness tx := if bool_decide (tx = prev_sample) then Some prev_bytes else None;
  tx_hash := sample_hash;
  is_witness_program s := bool_decide (s !! 0%nat = Some Byte.x00) && (2 <? Z.of_nat (length s));
  is_p2wpkh s := Z.of_nat (length s) =? 22;
  is_p2tr s := false;
  var_int_size n := if n <? 253 then 1 else 3;
  read_var_int b := match b with
                    | x :: r => if byte.unsigned x <? 253 then Some (byte.unsigned x, r) else None
                    | [] => None
                    end;
  witness_sig_hash _ s _ tx _ _ := Some (s ++ sample_hash tx);
  verify_sig sig digest key := bool_decide (sig = digest ++ key);
  engine_execute _ s _ _ v := (0 <? v) && (Z.of_nat (length s) =? 22);
}.

Definition sample_hooks : hook_args :=
  HookArgs (Some (λ _, None)) (Some (λ _, None)) (Some (λ _, 330)) (Some (λ _, Ok 110))
    (Some (λ capacity, capacity / 100)).

Definition sample_config (r : role) : config hook_args :=
  Config r (be_encode 32 1) (SharedInput (OutPoint (be_encode 32 42) 1) 1000000 (wsh 8) 222)
    (wsh 9) 100000 0 253 800000 64 600000 400000 sample_hooks.

Definition wallet_input : input :=
  Input 0 (OutPoint (sample_hash prev_sample) 0) 200000 (wpkh 5) 0xfffffffd false 110
    (Some prev_sample).
Definition change_output : output := Output 0 99400 (wpkh 6) false.

(** The start of a session that [NewSession] returns. *)
Definition start (c : config hook_args) : session :=
  match new_session c with
  | Ok s => s
  | Err _ => Session (with_hooks c 0 (Hooks (λ _, None) (λ _, None) (λ _, 0) (λ _, Ok 0) (λ _, 0)))
               false ∅ ∅ ∅ [] [] 0 0 0 false false false None
  end.

Lemma start_ok r : new_session (sample_config r) = Ok (start (sample_config r)).
Proof. by destruct r. Qed.

(** Moves of one session; a move whose conditions fail is skipped. *)
Inductive move := QueueInput (i : input) | QueueOutput (o : output) | QueueShared
                | Say | Hear (m : message).

Section Run.
Context `{T : TxPrims}.

Definition room (s : session) : bool := s_next_serial s + 4 <? 2 ^ 64.
Definition spendable (v : Z) : bool := (0 <=? v) && (v <=? max_money).

Definition do_move (s : session) (mv : move) : session :=
  match mv with
  | QueueInput i =>
      if negb (in_shared i) && spendable (in_value i) && room s then add_local_input i s else s
  | QueueOutput o =>
      if negb (out_funding o) && spendable (out_value o) && room s then add_local_output o s else s
  | QueueShared =>
      if room s then match add_shared_input_and_funding s with Ok s => s | Err _ => s end else s
  | Say => fst (next s)
  | Hear m => fst (receive s m)
  end.

Lemma do_move_reachable s mv : reachable s → reachable (do_move s mv).
Proof.
  intros R. destruct mv as [i|o| | |m]; simpl.
  - destruct (_ && _) eqn:E; [|done]. unfold spendable, room in E.
    eapply reach_step; [done|]. apply step_local_input; unfold serial_room;
      [by destruct (in_shared i) | lia | lia].
  - destruct (_ && _) eqn:E; [|done]. unfold spendable, room in E.
    eapply reach_step; [done|]. apply step_local_output; unfold serial_room;
      [by destruct (out_funding o) | lia | lia].
  - destruct (room s) eqn:E; [|done]. unfold room in E.
    destruct (add_shared_input_and_funding s) eqn:Es; [|done].
    eapply reach_step; [done|]. apply step_shared; [unfold serial_room; lia | done].
  - destruct (next s) as [s' r] eqn:E. eapply reach_step; [done|]. by eapply step_next.
  - destruct (receive s m) as [s' r] eqn:E. eapply reach_step; [done|]. by eapply step_receive.
Qed.

Definition run (s : session) (mvs : list move) : session := foldl do_move s mvs.

Lemma run_reachable s mvs : reachable s → reachable (run s mvs).
Proof. revert s. induction mvs as [|mv mvs IH]; intros s R; [done|]. by apply IH, do_move_reachable. Qed.
End Run.

(** The whole construction seen by the node that splices in: the peer adds
    nothing of its own. *)
Definition sample_moves : list move :=
  [QueueShared; QueueInput wallet_input; QueueOutput change_output;
   Say; Hear (TxComplete []); Say; Hear (TxComplete []); Say; Hear (TxComplete []);
   Say; Hear (TxComplete []); Say].
Definition sample_session : session := run (start (sample_config Initiator)) sample_moves.

Lemma sample_reachable : reachable sample_session.
Proof. apply run_reachable. eapply reach_new, start_ok. Qed.
