(* ===== verification/TxBuild.v ===== *)
(** * What a completed construction guarantees

    Theorems about [Build] of lnwallet/interactivetx/session.go: the two
    halves of a session's accounting, for every session that its operations
    reach. *)

From S2P Require Import Prelude Chainfee InteractiveTx TxToy.

(** ** The items of a construction, in order *)

Lemma elem_of_sorted_inputs s i :
  i ∈ sorted_inputs s ↔ ∃ id, s_inputs s !! id = Some i.
Proof.
  unfold sorted_inputs. rewrite merge_sort_Permutation, list_elem_of_fmap. split.
  - intros ([id j] & -> & H%elem_of_map_to_list). eauto.
  - intros (id & H). exists (id, i). by rewrite elem_of_map_to_list.
Qed.

Lemma elem_of_sorted_outputs s o :
  o ∈ sorted_outputs s ↔ ∃ id, s_outputs s !! id = Some o.
Proof.
  unfold sorted_outputs. rewrite merge_sort_Permutation, list_elem_of_fmap. split.
  - intros ([id j] & -> & H%elem_of_map_to_list). eauto.
  - intros (id & H). exists (id, o). by rewrite elem_of_map_to_list.
Qed.

#[export] Instance in_serial_le_total : Total in_serial_le.
Proof. intros a b. unfold in_serial_le. lia. Qed.
#[export] Instance in_serial_le_trans : Transitive in_serial_le.
Proof. intros a b c. unfold in_serial_le. lia. Qed.
#[export] Instance out_serial_le_total : Total out_serial_le.
Proof. intros a b. unfold out_serial_le. lia. Qed.
#[export] Instance out_serial_le_trans : Transitive out_serial_le.
Proof. intros a b c. unfold out_serial_le. lia. Qed.

(** A list of values of a map, each under its own key, has distinct keys. *)
Lemma NoDup_keys {A} (key : A → Z) (m : gmap Z A) :
  (∀ id x, m !! id = Some x → key x = id) →
  NoDup (key <$> (map_to_list m).*2).
Proof.
  intros H. rewrite <-list_fmap_compose.
  assert (∀ l : list (Z * A), (∀ kx, kx ∈ l → key kx.2 = kx.1) → key ∘ snd <$> l = l.*1) as E.
  { induction l as [|[k x] l IH]; intros Hl; [done|]. simpl. f_equal.
    - apply (Hl (k, x)). by left.
    - apply IH. intros kx Hkx. apply Hl. by right. }
  rewrite E; [apply NoDup_fst_map_to_list|].
  intros [k x] Hx%elem_of_map_to_list. by apply H.
Qed.

Section Sorted.
Variable s : session.
Hypothesis I : session_ok s.

Lemma sorted_inputs_sorted : StronglySorted in_serial_le (sorted_inputs s).
Proof. apply (StronglySorted_merge_sort in_serial_le). Qed.
Lemma sorted_outputs_sorted : StronglySorted out_serial_le (sorted_outputs s).
Proof. apply (StronglySorted_merge_sort out_serial_le). Qed.

Lemma sorted_inputs_serials : NoDup (in_serial <$> sorted_inputs s).
Proof.
  unfold sorted_inputs. rewrite merge_sort_Permutation. apply NoDup_keys. apply I.
Qed.

Lemma sorted_outputs_serials : NoDup (out_serial <$> sorted_outputs s).
Proof.
  unfold sorted_outputs. rewrite merge_sort_Permutation. apply NoDup_keys. apply I.
Qed.

Lemma sorted_inputs_ok i : i ∈ sorted_inputs s → input_ok (cfg_shared (s_cfg s)) i.
Proof. intros (id & H)%elem_of_sorted_inputs. by eapply I. Qed.

Lemma sorted_outputs_ok o : o ∈ sorted_outputs s → output_ok (cfg_funding_script (s_cfg s)) o.
Proof. intros (id & H)%elem_of_sorted_outputs. by eapply I. Qed.

(** No two inputs of a session spend the same outpoint. *)
Lemma sorted_inputs_outpoints : NoDup (in_out_point <$> sorted_inputs s).
Proof.
  pose proof sorted_inputs_serials as Hd.
  assert (∀ i j, i ∈ sorted_inputs s → j ∈ sorted_inputs s →
            in_out_point i = in_out_point j → in_serial i = in_serial j) as Hinj.
  { intros i j (a & Ha)%elem_of_sorted_inputs (b & Hb)%elem_of_sorted_inputs E.
    rewrite (it_in_key _ _ _ _ _ _ _ _ _ I _ _ Ha), (it_in_key _ _ _ _ _ _ _ _ _ I _ _ Hb).
    assert (s_spent s !! in_out_point i = Some a) as H1 by (apply I; eauto).
    assert (s_spent s !! in_out_point i = Some b) as H2 by (apply I; eauto).
    congruence. }
  revert Hd Hinj. generalize (sorted_inputs s) as l. induction l as [|i l IH]; intros Hd Hinj;
    [by apply NoDup_nil_2|].
  simpl in *. apply NoDup_cons in Hd as [Hi Hd]. apply NoDup_cons. split.
  - intros (j & Hij & Hj)%list_elem_of_fmap. apply Hi.
    rewrite (Hinj i j) by (done || (by left) || by right). by apply list_elem_of_fmap_2.
  - apply IH; [done|]. intros a b Ha Hb. apply Hinj; by right.
Qed.
End Sorted.

Lemma check_spent_once_NoDup ins :
  NoDup (in_out_point <$> ins) → check_spent_once ∅ ins = Ok tt.
Proof.
  assert (∀ seen, NoDup (in_out_point <$> ins) → (∀ i, i ∈ ins → in_out_point i ∉ seen) →
            check_spent_once seen ins = Ok tt) as H; [|intros; apply H; set_solver].
  induction ins as [|i ins IH]; intros seen Hd Hs; [done|]. simpl in *.
  apply NoDup_cons in Hd as [Hi Hd].
  rewrite bool_decide_false by (apply Hs; by left). simpl. apply IH; [done|].
  intros j Hj. apply not_elem_of_union. split; [|apply Hs; by right].
  rewrite elem_of_singleton. intros E. apply Hi. rewrite <-E. by apply list_elem_of_fmap_2.
Qed.

(** ** The one item that satisfies a test *)

Lemma scan_spec {A} (p : A → bool) l i n idx :
  scan p l i n idx =
    (n + Z.of_nat (length (List.filter p l)),
     snd (scan p l i n idx)).
Proof.
  revert i n idx. induction l as [|x l IH]; intros; simpl; [f_equal; lia|].
  destruct (p x); simpl; rewrite IH; simpl; f_equal; lia.
Qed.

Lemma scan_none {A} (p : A → bool) l i n idx :
  length (List.filter p l) = 0%nat → snd (scan p l i n idx) = idx.
Proof.
  revert i n idx. induction l as [|x l IH]; intros i n idx H; [done|]. simpl in *.
  destruct (p x); [done|]. by apply IH.
Qed.

Lemma scan_one {A} (p : A → bool) l i n idx k :
  scan p l i n idx = (n + 1, k) → 0 ≤ i → i + Z.of_nat (length l) < 2 ^ 32 →
  ∃ l1 x l2, l = l1 ++ x :: l2 ∧ p x = true ∧ k = i + Z.of_nat (length l1) ∧
    List.filter p l1 = [] ∧ List.filter p l2 = [].
Proof.
  revert i. induction l as [|x l IH]; intros i H Hi Hl; simpl in *; [injection H; lia|].
  destruct (p x) eqn:E.
  - exists [], x, l. pose proof (scan_spec p l (i + 1) (n + 1) (u32 i)) as Hs.
    rewrite H in Hs. apply (f_equal fst) in Hs as Hn. simpl in Hn.
    assert (length (List.filter p l) = 0%nat) as H0 by lia.
    pose proof (scan_none p l (i + 1) (n + 1) (u32 i) H0) as Hk. rewrite H in Hk. simpl in Hk.
    rewrite u32_small in Hk by in_range. split_and!; try done; [simpl; lia|].
    by apply nil_length_inv.
  - destruct (IH (i + 1)) as (l1 & y & l2 & -> & Hy & -> & H1 & H2); [done | lia | lia |].
    exists (x :: l1), y, l2. simpl. rewrite E. split_and!; try done. lia.
Qed.

(** ** The sums of the accounting *)

Definition of_side_in (r : role) (i : input) : bool :=
  negb (in_shared i) && bool_decide (added_by (in_serial i) = r).
Definition of_side_out (r : role) (o : output) : bool :=
  negb (out_funding o) && bool_decide (added_by (out_serial o) = r).

(** What side [r] puts in and takes out, as integers without bounds. *)
Definition puts_in (r : role) (ins : list input) : Z :=
  zsum (map in_value (List.filter (of_side_in r) ins)).
Definition takes_out (r : role) (outs : list output) : Z :=
  zsum (map out_value (List.filter (of_side_out r) outs)).

(** A value is that of the marked item or of one of the two sides'. *)
Lemma zsum_sides {A} (f : A → Z) (mark : A → bool) (side : A → role) l1 x l2 :
  let own r y := negb (mark y) && bool_decide (side y = r) in
  mark x = true → List.filter mark l1 = [] → List.filter mark l2 = [] →
  zsum (map f (l1 ++ x :: l2)) =
    f x + zsum (map f (List.filter (own Initiator) (l1 ++ x :: l2)))
        + zsum (map f (List.filter (own Acceptor) (l1 ++ x :: l2))).
Proof.
  intros own Hx H1 H2.
  assert (∀ r y, own r y = negb (mark y) && bool_decide (side y = r)) as Eo by done.
  clearbody own.
  assert (∀ l, List.filter mark l = [] →
    zsum (map f l) = zsum (map f (List.filter (own Initiator) l)) +
                     zsum (map f (List.filter (own Acceptor) l))) as Hl.
  { induction l as [|y l IH]; simpl; [done|]. intros H. rewrite !Eo.
    destruct (mark y); [done|]. specialize (IH H).
    destruct (side y); repeat case_bool_decide; simplify_eq; simpl; lia. }
  assert (∀ r, List.filter (own r) [x] = []) as Ho by (intros r; simpl; by rewrite Eo, Hx).
  change (x :: l2) with ([x] ++ l2). rewrite !List.filter_app, !map_app, !zsum_app, !Ho. simpl.
  pose proof (Hl l1 H1). pose proof (Hl l2 H2). lia.
Qed.

Section InputSums.
Variable ins : list input.
Hypothesis Hin : ∀ i, i ∈ ins → 0 ≤ in_value i ≤ max_money.
Hypothesis Lin : Z.of_nat (length ins) ≤ max_inputs_or_outputs.

Lemma ins_abs : Forall (λ i, Z.abs (in_value i) ≤ max_money) ins.
Proof. clear Lin. apply Forall_forall. intros i Hi. specialize (Hin i Hi). lia. Qed.

Lemma side_inputs_eq r : side_inputs r ins = puts_in r ins.
Proof.
  unfold side_inputs, puts_in.
  rewrite (fold_i64_sum (of_side_in r) in_value max_money);
    [done | apply ins_abs | done | unfold max_money, max_inputs_or_outputs in *; lia].
Qed.

Lemma sum_inputs_eq : sum_inputs ins = zsum (map in_value ins).
Proof.
  unfold sum_inputs.
  rewrite (fold_i64_sum (λ _, true) in_value max_money);
    [|apply ins_abs | done | unfold max_money, max_inputs_or_outputs in *; lia].
  by rewrite forallb_filter_id by (by apply forallb_forall).
Qed.

Lemma puts_in_bounds r : 0 ≤ puts_in r ins ≤ 252 * max_money.
Proof.
  unfold puts_in.
  destruct (zsum_bounds 0 max_money (map in_value (List.filter (of_side_in r) ins))) as [H1 H2].
  { apply Forall_map, Forall_forall. intros i Hi. apply Hin.
    apply list_elem_of_In, List.filter_In in Hi as [Hi _]. by apply list_elem_of_In. }
  rewrite length_map in *. pose proof (List.filter_length_le (of_side_in r) ins).
  unfold max_money, max_inputs_or_outputs in *. nia.
Qed.
End InputSums.

Section OutputSums.
Variable outs : list output.
Hypothesis Hout : ∀ o, o ∈ outs → - 2 * max_money ≤ out_value o ≤ 3 * max_money.
Hypothesis Lout : Z.of_nat (length outs) ≤ max_inputs_or_outputs.

Lemma outs_abs : Forall (λ o, Z.abs (out_value o) ≤ 3 * max_money) outs.
Proof. clear Lout. apply Forall_forall. intros o Ho. specialize (Hout o Ho). lia. Qed.

Lemma side_outputs_eq r : side_outputs r outs = takes_out r outs.
Proof.
  unfold side_outputs, takes_out.
  rewrite (fold_i64_sum (of_side_out r) out_value (3 * max_money));
    [done | apply outs_abs | done | unfold max_money, max_inputs_or_outputs in *; lia].
Qed.

Lemma sum_outputs_eq : sum_outputs outs = zsum (map out_value outs).
Proof.
  unfold sum_outputs.
  rewrite (fold_i64_sum (λ _, true) out_value (3 * max_money));
    [|apply outs_abs | done | unfold max_money, max_inputs_or_outputs in *; lia].
  by rewrite forallb_filter_id by (by apply forallb_forall).
Qed.

Lemma takes_out_bounds r : Z.abs (takes_out r outs) ≤ 252 * (3 * max_money).
Proof.
  unfold takes_out.
  destruct (zsum_bounds (- 3 * max_money) (3 * max_money)
              (map out_value (List.filter (of_side_out r) outs))) as [H1 H2].
  { apply Forall_map, Forall_forall. intros o Ho.
    apply list_elem_of_In, List.filter_In in Ho as [Ho _]. apply list_elem_of_In in Ho.
    specialize (Hout o Ho). unfold max_money in *. lia. }
  rewrite length_map in *. pose proof (List.filter_length_le (of_side_out r) outs).
  unfold max_money, max_inputs_or_outputs in *. nia.
Qed.
End OutputSums.

(** ** The contract of [Build] *)

Definition contribution (s : session) (r : role) : Z :=
  if decide (r = Initiator) then cfg_initiator_contribution (s_cfg s)
  else cfg_acceptor_contribution (s_cfg s).
Definition balance (s : session) (r : role) : Z :=
  if decide (r = Initiator) then cfg_initiator_balance (s_cfg s)
  else cfg_acceptor_balance (s_cfg s).

(** What side [r] pays in fees: what it puts in beyond what it takes out and
    what it adds to its channel balance. *)
Definition pays (s : session) (r : role) (ins : list input) (outs : list output) : Z :=
  puts_in r ins - takes_out r outs - contribution s r.

Section Contract.
Context `{T : TxPrims}.

(** The fee of a side's share of the weight, as [checkAccounting] takes it. *)
Definition fee_share (s : session) (r : role) (ins : list input) (outs : list output) : Z :=
  let w := if decide (r = Initiator) then w_initiator (weights ins outs)
           else w_acceptor (weights ins outs) in
  fee_for_weight (cfg_fee_rate (s_cfg s))
    (u64 (if bool_decide (r = cfg_role (s_cfg s)) then w else i64 (w - peer_slack s ins))).

Record build_spec (s : session) (res : built) : Prop := {
  bs_tx : res_tx res = build_tx s (res_inputs res) (res_outputs res);
  (** the old funding output is spent once, by the shared input *)
  bs_shared : ∃ i, res_inputs res !! Z.to_nat (res_shared_index res) = Some i ∧
    in_shared i = true ∧ in_out_point i = si_out_point (cfg_shared (s_cfg s)) ∧
    in_value i = si_value (cfg_shared (s_cfg s));
  bs_plain : ∀ k i, res_inputs res !! k = Some i → k ≠ Z.to_nat (res_shared_index res) →
    in_shared i = false ∧ in_out_point i ≠ si_out_point (cfg_shared (s_cfg s));
  bs_once : NoDup (prev_out <$> tx_ins (res_tx res));
  (** the new funding output holds the old capacity and both contributions *)
  bs_funding : ∃ o, res_outputs res !! Z.to_nat (res_funding_index res) = Some o ∧
    out_funding o = true ∧ out_script o = cfg_funding_script (s_cfg s) ∧
    out_value o = si_value (cfg_shared (s_cfg s)) + contribution s Initiator +
                  contribution s Acceptor;
  (** the fee, and who pays it *)
  bs_fee : res_fee res = zsum (map in_value (res_inputs res)) -
                         zsum (map out_value (res_outputs res));
  bs_split : res_fee res = pays s Initiator (res_inputs res) (res_outputs res) +
                           pays s Acceptor (res_inputs res) (res_outputs res);
  bs_share r : fee_share s r (res_inputs res) (res_outputs res) ≤
               pays s r (res_inputs res) (res_outputs res);
  bs_own : let r := cfg_role (s_cfg s) in
    pays s r (res_inputs res) (res_outputs res) ≤
    i64 (i64 (2 * fee_share s r (res_inputs res) (res_outputs res)) + max_excess_fee);
  bs_rate : fee_for_weight (cfg_fee_rate (s_cfg s))
              (u64 (i64 (res_weight res - peer_slack s (res_inputs res)))) ≤ res_fee res;
  (** the balances of the new channel *)
  bs_balance r : 0 ≤ balance s r + contribution s r;
  bs_reserve r : (r = cfg_role (s_cfg s) → s_own_reserve_waived s = false) →
    contribution s r < 0 ∨ (∃ o, o ∈ res_outputs res ∧ of_side_out r o = true) →
    reserve (cfg_hooks (s_cfg s)) (funding_value s) ≤ balance s r + contribution s r;
  (** the bounds of the specification *)
  bs_counts : Z.of_nat (length (res_inputs res)) ≤ 252 ∧ Z.of_nat (length (res_outputs res)) ≤ 252;
  bs_weight : res_weight res ≤ max_standard_weight;
}.

Lemma check_side_Ok s ins r inv outv c w :
  check_side s ins r inv outv c w = Ok tt →
  let paid := i64 (i64 (inv - outv) - c) in
  let fee := fee_for_weight (cfg_fee_rate (s_cfg s))
    (u64 (if bool_decide (r = cfg_role (s_cfg s)) then w else i64 (w - peer_slack s ins))) in
  fee ≤ paid ∧ (r = cfg_role (s_cfg s) → paid ≤ i64 (i64 (2 * fee) + max_excess_fee)).
Proof.
  unfold check_side. intros H. simpl.
  destruct (bool_decide (r = cfg_role (s_cfg s))) eqn:E; cbn [negb] in H.
  - destruct (_ <? _) eqn:Hf in H; [done|]. cbn [negb andb] in H.
    destruct (_ >? _) eqn:He in H; [done|]. rewrite Z.gtb_ltb in He. split; lia.
  - destruct (_ <? _) eqn:Hf in H; [done|]. apply bool_decide_eq_false in E. split; [lia | done].
Qed.

Lemma check_reserve_Ok s outs u r :
  config_ok (s_cfg s) →
  check_reserve s outs u r = Ok tt →
  0 ≤ balance s r + contribution s r ∧
  ((r = cfg_role (s_cfg s) → s_own_reserve_waived s = false) → added_output s outs r = true →
   reserve (cfg_hooks (s_cfg s)) (funding_value s) ≤ balance s r + contribution s r).
Proof.
  intros (_ & Hib & Hab & Hic & Hac & _) H.
  assert (balance_after s r = balance s r + contribution s r) as E.
  { unfold balance_after, balance, contribution, max_money in *.
    by destruct r; simpl; rewrite i64_small by in_range. }
  unfold check_reserve in H. rewrite E in H.
  destruct (_ <? 0) eqn:Hneg in H; [done|]. cbn [negb] in H. split; [lia|].
  intros Hw Ha. case_bool_decide as Hr.
  - rewrite Hw in H by done. cbn [andb] in H. rewrite Ha in H. cbn [andb] in H.
    destruct (_ <? reserve _ _) eqn:Hl in H; [done | lia].
  - cbn [andb] in H. rewrite Ha in H. cbn [andb] in H.
    destruct (_ <? reserve _ _) eqn:Hl in H; [done | lia].
Qed.

Lemma added_output_iff s outs r :
  added_output s outs r = true ↔
  contribution s r < 0 ∨ ∃ o, o ∈ outs ∧ of_side_out r o = true.
Proof.
  unfold added_output, contribution. rewrite orb_true_iff, existsb_exists.
  setoid_rewrite list_elem_of_In. fold (of_side_out r). destruct r; simpl; by rewrite Z.ltb_lt.
Qed.

(** The steps of [Build] that succeeded. *)
Lemma build_checks_Ok s res :
  build_checks s = Ok res →
  let ins := sorted_inputs s in
  let outs := sorted_outputs s in
  let w := weights ins outs in
  res_tx res = build_tx s ins outs ∧ res_inputs res = ins ∧ res_outputs res = outs ∧
  res_weight res = w_total w ∧ res_fee res = i64 (sum_inputs ins - sum_outputs outs) ∧
  Z.of_nat (length ins) ≤ 252 ∧ Z.of_nat (length outs) ≤ 252 ∧
  scan in_shared ins 0 0 0 = (1, res_shared_index res) ∧
  scan out_funding outs 0 0 0 = (1, res_funding_index res) ∧
  (∃ fo, outs !! Z.to_nat (res_funding_index res) = Some fo ∧ out_value fo = funding_value s) ∧
  w_total w ≤ max_standard_weight ∧
  check_accounting s ins outs w = Ok tt ∧ check_reserves s outs = Ok tt ∧
  fee_for_weight (cfg_fee_rate (s_cfg s)) (u64 (i64 (w_total w - peer_slack s ins))) ≤ res_fee res.
Proof.
  intros H ins outs w. unfold build_checks in H. fold ins outs in H. fold w in H.
  destruct (_ || _) eqn:Hc in H; [done|]. cbn [negb] in H.
  apply rbind_Ok in H as ([] & _ & H).
  destruct (scan in_shared ins 0 0 0) as [ns si] eqn:Es.
  destruct (scan out_funding outs 0 0 0) as [nf fi] eqn:Ef.
  destruct (ns =? 1) eqn:En; [|done]. destruct (nf =? 1) eqn:Em; [|done].
  destruct (outs !! Z.to_nat fi) as [fo|] eqn:Efo; [|done].
  destruct (out_value fo =? funding_value s) eqn:Ev; [|done].
  destruct (negb _) in H; [|done]. destruct (negb _) in H; [|done].
  destruct (w_total w >? max_standard_weight) eqn:Ew; [done|]. cbn [negb] in H.
  apply rbind_Ok in H as ([] & Ha & H). apply rbind_Ok in H as ([] & Hr & H).
  destruct (negb _) in H; [|done].
  destruct (_ <? fee_for_weight _ _) eqn:Hfee in H; [done|]. cbn [negb] in H.
  injection H as <-. cbn [res_tx res_inputs res_outputs res_weight res_fee res_shared_index res_funding_index].
  unfold max_inputs_or_outputs in Hc. split_and!; try done; try lia; try (f_equal; lia).
  exists fo. split; [done | lia].
Qed.

(** The items [Build] has put in order. *)
Definition items_fit (s : session) (ins : list input) (outs : list output) : Prop :=
  (∀ i, i ∈ ins → input_ok (cfg_shared (s_cfg s)) i) ∧
  (∀ o, o ∈ outs → output_ok (cfg_funding_script (s_cfg s)) o) ∧
  Z.of_nat (length ins) ≤ 252 ∧ Z.of_nat (length outs) ≤ 252.

Lemma one_shared s ins outs k :
  items_fit s ins outs → NoDup (in_out_point <$> ins) →
  scan in_shared ins 0 0 0 = (1, k) →
  (∃ i, ins !! Z.to_nat k = Some i ∧ in_shared i = true ∧
    in_out_point i = si_out_point (cfg_shared (s_cfg s)) ∧
    in_value i = si_value (cfg_shared (s_cfg s))) ∧
  (∀ j i, ins !! j = Some i → j ≠ Z.to_nat k →
    in_shared i = false ∧ in_out_point i ≠ si_out_point (cfg_shared (s_cfg s))).
Proof.
  intros (Hi & _ & Hn & _) Hd H.
  apply scan_one in H as (l1 & x & l2 & E & Hx & -> & H1 & H2); [|lia|lia].
  assert (ins !! length l1 = Some x) as Hl by (rewrite E; by apply list_lookup_middle).
  destruct (Hi x) as (_ & Hs); [by eapply list_elem_of_lookup_2|]. destruct (Hs Hx) as (Hop & Hv & _).
  rewrite Z.add_0_l, Nat2Z.id. split; [by exists x|].
  intros j i Hj Hne.
  assert (in_out_point i ≠ si_out_point (cfg_shared (s_cfg s))) as Hop'.
  { intros Ei. apply Hne. apply (NoDup_lookup (in_out_point <$> ins) _ _ (in_out_point x)); [done| |];
      rewrite list_lookup_fmap, ?Hj, ?Hl; simpl; congruence. }
  split; [|done]. destruct (in_shared i) eqn:Hsh; [|done]. exfalso. apply Hop'.
  destruct (Hi i) as (_ & Hs'); [by eapply list_elem_of_lookup_2|]. by apply Hs'.
Qed.

Lemma pays_sum s ins outs k f fo :
  config_ok (s_cfg s) → items_fit s ins outs →
  scan in_shared ins 0 0 0 = (1, k) → scan out_funding outs 0 0 0 = (1, f) →
  outs !! Z.to_nat f = Some fo → out_value fo = funding_value s →
  zsum (map in_value ins) - zsum (map out_value outs) =
  pays s Initiator ins outs + pays s Acceptor ins outs.
Proof.
  intros C (Hi & Ho & Hn & Hm) Hk Hf Hfo Hv.
  apply scan_one in Hk as (l1 & x & l2 & -> & Hx & -> & H1 & H2); [|lia|lia].
  apply scan_one in Hf as (m1 & y & m2 & -> & Hy & -> & H3 & H4); [|lia|lia].
  rewrite Z.add_0_l, Nat2Z.id, list_lookup_middle in Hfo by done. injection Hfo as ->.
  rewrite (zsum_sides in_value in_shared (λ i, added_by (in_serial i)) l1 x l2 Hx H1 H2).
  rewrite (zsum_sides out_value out_funding (λ o, added_by (out_serial o)) m1 fo m2 Hy H3 H4).
  rewrite Hv, (funding_value_eq s C).
  destruct (Hi x) as (_ & Hs); [set_solver|]. destruct (Hs Hx) as (_ & -> & _).
  unfold pays, puts_in, takes_out, of_side_in, of_side_out, contribution. simpl. lia.
Qed.

Lemma items_fit_sums s ins outs :
  config_ok (s_cfg s) → items_fit s ins outs →
  (∀ r, side_inputs r ins = puts_in r ins) ∧ (∀ r, side_outputs r outs = takes_out r outs) ∧
  sum_inputs ins = zsum (map in_value ins) ∧ sum_outputs outs = zsum (map out_value outs) ∧
  (∀ r, i64 (i64 (puts_in r ins - takes_out r outs) - contribution s r) = pays s r ins outs) ∧
  (∀ r, Z.abs (pays s r ins outs) < 2 ^ 62).
Proof.
  intros (_ & _ & _ & Hic & Hac & _) (Hi & Ho & Hn & Hm).
  assert (∀ i, i ∈ ins → 0 ≤ in_value i ≤ max_money) as Hiv by (intros i H; apply (Hi i H)).
  assert (∀ o, o ∈ outs → - 2 * max_money ≤ out_value o ≤ 3 * max_money) as Hov
    by (intros o H; apply (Ho o H)).
  assert (∀ r, - max_money ≤ contribution s r ≤ max_money) as Hc.
  { intros r. unfold contribution. by destruct r; simpl. }
  split_and!.
  - intros r. by apply (side_inputs_eq ins).
  - intros r. by apply (side_outputs_eq outs).
  - by apply (sum_inputs_eq ins).
  - by apply (sum_outputs_eq outs).
  - intros r. pose proof (puts_in_bounds ins Hiv Hn r). pose proof (takes_out_bounds outs Hov Hm r).
    specialize (Hc r). unfold pays, max_money in *. rewrite (i64_small (puts_in _ _ - _)) by in_range.
    by rewrite i64_small by in_range.
  - intros r. pose proof (puts_in_bounds ins Hiv Hn r). pose proof (takes_out_bounds outs Hov Hm r).
    specialize (Hc r). unfold pays, max_money in *. lia.
Qed.

Lemma check_accounting_Ok s ins outs :
  config_ok (s_cfg s) → items_fit s ins outs →
  check_accounting s ins outs (weights ins outs) = Ok tt → ∀ r,
  fee_share s r ins outs ≤ pays s r ins outs ∧
  (r = cfg_role (s_cfg s) →
   pays s r ins outs ≤ i64 (i64 (2 * fee_share s r ins outs) + max_excess_fee)).
Proof.
  intros C F H r. destruct (items_fit_sums s ins outs C F) as (Ei & Eo & _ & _ & Ep & _).
  unfold check_accounting in H. apply rbind_Ok in H as ([] & H1 & H2).
  rewrite !Ei, !Eo in H1, H2. apply check_side_Ok in H1, H2.
  pose proof (Ep Initiator) as E1. pose proof (Ep Acceptor) as E2.
  unfold contribution in E1, E2. simpl in E1, E2. rewrite E1 in H1. rewrite E2 in H2.
  by destruct r.
Qed.

Lemma check_reserves_Ok s outs :
  check_reserves s outs = Ok tt → ∀ r, check_reserve s outs tt r = Ok tt.
Proof.
  unfold check_reserves. cbn [fold_result]. intros H r.
  apply rbind_Ok in H as ([] & H1 & H). apply rbind_Ok in H as ([] & H2 & _). by destruct r.
Qed.

Lemma one_funding s ins outs f fo :
  config_ok (s_cfg s) → items_fit s ins outs →
  scan out_funding outs 0 0 0 = (1, f) → outs !! Z.to_nat f = Some fo →
  out_value fo = funding_value s →
  outs !! Z.to_nat f = Some fo ∧ out_funding fo = true ∧
  out_script fo = cfg_funding_script (s_cfg s) ∧
  out_value fo = si_value (cfg_shared (s_cfg s)) + contribution s Initiator + contribution s Acceptor.
Proof.
  intros C (_ & Ho & _ & Hm) Hf Hfo Hv. split; [done|].
  apply scan_one in Hf as (m1 & y & m2 & E & Hy & -> & _ & _); [|lia|lia].
  rewrite E, Z.add_0_l, Nat2Z.id, list_lookup_middle in Hfo by done. injection Hfo as ->.
  split_and!; [done | |by rewrite Hv, (funding_value_eq s C)].
  apply Ho; [|done]. rewrite E. set_solver.
Qed.

(** C24: A construction that [Build] accepts is one the node may sign, in every
    session its operations reach: the transaction spends the old funding output
    exactly once, by the shared input, and no outpoint twice; the one new
    funding output pays the funding script the old capacity and both
    contributions exactly; the fee, which is the sum of what the two sides
    pay, splits so that each side pays at least the fee of its own weight and
    this node at most twice its share and 1000 sat; no balance goes below
    zero, and a side that takes value out of its inputs or its balance keeps
    its reserve. All sums are of unbounded integers: nothing the code adds in
    64 bits overflows. *)
Theorem build_accounts s s' res :
  reachable s → build s = (s', Ok res) → build_spec s res.
Proof.
  intros [C I]%reachable_ok H. unfold build in H. destruct (negb (done_ s)); [done|].
  destruct (build_checks s) as [res'|] eqn:E; [|done]. injection H as _ ->.
  apply build_checks_Ok in E as (Htx & Hins & Houts & Hw & Hfee & Hni & Hno & Hsi & Hfi &
    (fo & Hfo & Hfv) & Hmw & Hacc & Hres & Hrate).
  pose proof (sorted_inputs_outpoints s I) as Hnd.
  assert (items_fit s (sorted_inputs s) (sorted_outputs s)) as F.
  { split_and!; try done; intros ? ?; [by apply sorted_inputs_ok | by apply sorted_outputs_ok]. }
  rewrite <-Hins, <-Houts in *.
  destruct (one_shared _ _ _ _ F Hnd Hsi) as [Hsh Hpl].
  pose proof (pays_sum s _ _ _ _ fo C F Hsi Hfi Hfo Hfv) as Hsum.
  destruct (items_fit_sums s _ _ C F) as (_ & _ & Es1 & Es2 & _ & Hb).
  pose proof (check_accounting_Ok s _ _ C F Hacc) as Hr.
  assert (res_fee res = zsum (map in_value (res_inputs res)) - zsum (map out_value (res_outputs res)))
    as Hf.
  { rewrite Hfee, Es1, Es2, Hsum. pose proof (Hb Initiator). pose proof (Hb Acceptor).
    apply i64_small. in_range. }
  assert (∀ r, check_reserve s (res_outputs res) tt r = Ok tt) as Hrr by by apply check_reserves_Ok.
  split; try done.
  - rewrite Htx. simpl. by rewrite <-list_fmap_compose.
  - exists fo. apply (one_funding s) with (ins := res_inputs res) (outs := res_outputs res); done.
  - congruence.
  - intros r. apply Hr.
  - by apply Hr.
  - congruence.
  - intros r. by apply (check_reserve_Ok s (res_outputs res) tt r C).
  - intros r Hwv Ho%added_output_iff. by apply (check_reserve_Ok s (res_outputs res) tt r C).
  - congruence.
Qed.
End Contract.

Lemma build_accounts_witness :
  ∃ s' res, build sample_session = (s', Ok res) ∧ res_fee res = 600 ∧ build_spec sample_session res.
Proof.
  assert (match snd (build sample_session) with Ok r => res_fee r | Err _ => 0 end = 600) as H
    by (vm_compute; reflexivity).
  destruct (build sample_session) as [s' [res|e]] eqn:E; [|discriminate H].
  exists s', res. split; [reflexivity|]. split; [exact H|].
  apply (build_accounts sample_session s' res); [apply sample_reachable | exact E].
Defined.
