(* ===== verification/TxAgreement.v ===== *)
(** * Two honest sessions agree

    The sessions of two nodes of lnwallet/interactivetx that hand each other
    the messages they return: they take turns, they are complete together, the
    exchange ends, and both build the same transaction. *)

From S2P Require Import Prelude Chainfee InteractiveTx TxToy TxBuild.

(** What btcd promises of [MsgTx.SerializeNoWitness] and [Deserialize]: the
    transaction comes back with the same txid, which covers no witness. *)
Class TxLaws `{TxPrims} := {
  deserialize_serialize tx b :
    serialize_no_witness tx = Some b →
    ∃ tx', deserialize_tx b = Some tx' ∧ tx_hash tx' = tx_hash tx;
}.

(** What the two sides must have in common of an item. *)
Definition in_view (i : input) : Z * out_point * Z * bool :=
  (in_serial i, in_out_point i, in_sequence i, in_shared i).
Definition out_view (o : output) : Z * Z * bytes * bool :=
  (out_serial o, out_value o, out_script o, out_funding o).

(** A list sorted by distinct keys is determined by its elements. *)
Lemma sorted_unique {A} (key : A → Z) (l k : list A) :
  NoDup (key <$> l) → l ≡ₚ k →
  StronglySorted (λ x y, key x ≤ key y) l → StronglySorted (λ x y, key x ≤ key y) k → l = k.
Proof.
  intros Hd Hp Hl Hk. apply (StronglySorted_unique_strong (λ x y, key x ≤ key y)); try done.
  intros x y Hx Hy H1 H2.
  apply list_elem_of_lookup in Hx as [i Hi]. rewrite <-Hp in Hy. apply list_elem_of_lookup in Hy as [j Hj].
  assert (i = j) as <-; [|congruence].
  eapply (NoDup_lookup _ _ _ (key x) Hd); rewrite list_lookup_fmap, ?Hi, ?Hj; simpl; [done|].
  f_equal. lia.
Qed.

Lemma StronglySorted_fmap {A B} (f : A → B) (R : A → A → Prop) (S : B → B → Prop) l :
  (∀ x y, R x y → S (f x) (f y)) → StronglySorted R l → StronglySorted S (f <$> l).
Proof.
  intros H. induction 1 as [|x l Hl IH Hx]; simpl; constructor; [done|].
  apply Forall_fmap. eapply Forall_impl; [done|]. intros y. apply H.
Qed.

(** Maps with the same views give sorted lists with the same views. *)
Lemma sorted_views {A V} (f : A → V) (key : V → Z) (R : A → A → Prop)
    `{!RelDecision R, !Transitive R, !Total R} (m n : gmap Z A) :
  (∀ x y, R x y ↔ key (f x) ≤ key (f y)) →
  (∀ id x, m !! id = Some x → key (f x) = id) →
  f <$> m = f <$> n →
  f <$> merge_sort R (map_to_list m).*2 = f <$> merge_sort R (map_to_list n).*2.
Proof.
  intros HR Hk E.
  assert (∀ m : gmap Z A, f <$> merge_sort R (map_to_list m).*2 ≡ₚ (map_to_list (f <$> m)).*2) as Hp.
  { intros m'. rewrite merge_sort_Permutation, map_to_list_fmap.
    rewrite <-!list_fmap_compose. done. }
  assert (∀ m : gmap Z A, StronglySorted (λ x y, key x ≤ key y) (f <$> merge_sort R (map_to_list m).*2)) as Hs.
  { intros m'. eapply StronglySorted_fmap; [|by apply (StronglySorted_merge_sort R)].
    intros x y. apply HR. }
  apply (sorted_unique key); try done.
  - rewrite Hp. apply (NoDup_keys key). intros id v. rewrite lookup_fmap, fmap_Some.
    intros (x & Hx & ->). by apply Hk.
  - rewrite Hp, E, <-Hp. done.
Qed.

Section Agreement.
Context `{T : TxPrims, L : !TxLaws}.

(** ** The items a node queues *)

Definition local_input (c : config hooks) (i : input) : Prop :=
  if in_shared i then in_out_point i = si_out_point (cfg_shared c)
  else ∃ tx b, in_prev_tx i = Some tx ∧ serialize_no_witness tx = Some b ∧
               tx_hash tx = op_hash (in_out_point i).

Definition local_output (c : config hooks) (o : output) : Prop :=
  out_funding o = bool_decide (out_script o = cfg_funding_script c).

(** The terms of the splice both sessions are configured with. *)
Definition same_terms {H K} (a : config H) (b : config K) : Prop :=
  si_out_point (cfg_shared a) = si_out_point (cfg_shared b) ∧
  cfg_funding_script a = cfg_funding_script b ∧
  cfg_lock_time a = cfg_lock_time b.

(** ** The two sessions as one system *)

Inductive talk : session * session → session * session → Prop :=
| talk_say a a' b b' m e :
    next a = (a', Ok m) → receive b m = (b', e) → talk (a, b) (a', b')
| talk_silent a a' b err : next a = (a', Err err) → talk (a, b) (a', b)
| talk_input a b i :
    in_shared i = false → local_input (s_cfg a) i → talk (a, b) (add_local_input i a, b)
| talk_output a b o : local_output (s_cfg a) o → talk (a, b) (add_local_output o a, b)
| talk_shared a a' b : add_shared_input_and_funding a = Ok a' → talk (a, b) (a', b)
| talk_refuse a b reason : talk (a, b) (refuse_peer_items reason a, b)
| talk_waive a b : talk (a, b) (waive_own_reserve a, b)
| talk_build a a' b r : build a = (a', r) → talk (a, b) (a', b)
| talk_swap a b a' b' : talk (a, b) (a', b') → talk (b, a) (b', a').

Inductive conversation : session * session → Prop :=
| conv_new ca cb a b :
    new_session ca = Ok a → new_session cb = Ok b → same_terms ca cb →
    cfg_role cb = other (cfg_role ca) → conversation (a, b)
| conv_step p q : conversation p → talk p q → conversation q.

Record agree (a b : session) : Prop := {
  ag_terms : same_terms (s_cfg a) (s_cfg b);
  ag_ins : in_view <$> s_inputs a = in_view <$> s_inputs b;
  ag_outs : out_view <$> s_outputs a = out_view <$> s_outputs b;
  ag_in_key id i : s_inputs a !! id = Some i → in_serial i = id;
  ag_out_key id o : s_outputs a !! id = Some o → out_serial o = id;
  ag_sent : s_sent_complete a = s_recv_complete b;
  ag_recv : s_recv_complete a = s_sent_complete b;
  ag_turn : if s_sent_complete a && s_recv_complete a
            then s_our_turn a = false ∧ s_our_turn b = false
            else s_our_turn a = negb (s_our_turn b);
  ag_pin_a : Forall (local_input (s_cfg a)) (s_pending_inputs a);
  ag_pout_a : Forall (local_output (s_cfg a)) (s_pending_outputs a);
  ag_pin_b : Forall (local_input (s_cfg b)) (s_pending_inputs b);
  ag_pout_b : Forall (local_output (s_cfg b)) (s_pending_outputs b);
}.

Lemma agree_sym a b : agree a b → agree b a.
Proof.
  intros [(? & ? & ?) Hi Ho Hki Hko Hs Hr Ht ? ? ? ?]. split; try done.
  - intros id j Hj. assert ((in_view <$> s_inputs b) !! id = Some (in_view j)) as E
      by by rewrite lookup_fmap, Hj.
    rewrite <-Hi, lookup_fmap in E. apply fmap_Some in E as (i & E & [= -> _ _ _]). eauto.
  - intros id j Hj. assert ((out_view <$> s_outputs b) !! id = Some (out_view j)) as E
      by by rewrite lookup_fmap, Hj.
    rewrite <-Ho, lookup_fmap in E. apply fmap_Some in E as (i & E & [= -> _ _ _]). eauto.
  - rewrite <-Hr, <-Hs, andb_comm. destruct (_ && _); [by destruct Ht|].
    rewrite Ht. by rewrite negb_involutive.
Qed.

(** ** A message said and heard *)

Lemma peer_input_view s id ptx vout sequence txid j :
  peer_input s id ptx vout sequence txid = Ok j →
  in_serial j = id ∧ in_sequence j = sequence ∧
  match txid with
  | Some t => in_shared j = true ∧ in_out_point j = OutPoint t vout
  | None => in_shared j = false ∧ ∃ tx, deserialize_tx ptx = Some tx ∧
              in_out_point j = OutPoint (tx_hash tx) vout
  end.
Proof.
  unfold peer_input. intros H. apply rbind_Ok in H as ([] & _ & H).
  destruct (negb _) in H; [|done]. destruct (negb _) in H; [|done].
  destruct (negb _) in H; [|done]. apply rbind_Ok in H as (i & Hi & H).
  destruct (s_spent s !! in_out_point i); [done|]. destruct (negb _) in H; [|done].
  destruct (if in_shared i then _ else _) in H; [done|]. injection H as <-.
  destruct txid as [t|].
  - unfold peer_shared_input in Hi. destruct (negb _) in Hi; [|done].
    destruct (bool_decide _) in Hi; [|done]. destruct (bool_decide _) in Hi; [|done].
    by injection Hi as <-.
  - unfold peer_plain_input in Hi. destruct (check_tx_counts ptx); [|done].
    destruct (deserialize_tx ptx) as [tx|]; [|done].
    destruct (tx_outs tx !! Z.to_nat vout) as [out|]; [|done].
    destruct (is_witness_program _); [|done]. destruct (negb _) in Hi; [|done].
    destruct (negb _) in Hi; [|done]. destruct (witness_weight _ _); [|done].
    destruct (negb _) in Hi; [|done]. injection Hi as <-. split_and!; try done. by exists tx.
Qed.

Lemma peer_output_view s id amount scr o :
  peer_output s id amount scr = Ok o →
  o = Output id amount scr (bool_decide (scr = cfg_funding_script (s_cfg s))).
Proof. apply peer_output_Ok. Qed.

Lemma receive_heard b m b' e :
  receive b m = (b', e) → s_failed b' = None →
  ∃ b1, dispatch b m = (b1, None) ∧ b' = (if negb (done_ b1) then set_our_turn true b1 else b1).
Proof.
  unfold receive. destruct (s_failed b) eqn:F; [intros [= <- <-]; congruence|].
  destruct (_ || _); [by intros [= <- <-]|].
  destruct (dispatch b m) as [b1 [e1|]]; intros [= <- <-]; [done|]. eauto.
Qed.

Lemma dispatch_failed s m s' e : dispatch s m = (s', e) → s_failed s' = s_failed s.
Proof.
  unfold dispatch, receive_input, receive_output, receive_remove.
  intros H. repeat case_match; simplify_eq; done.
Qed.

Lemma fmap_insert_view {A V} (f : A → V) (m n : gmap Z A) x y k :
  f <$> m = f <$> n → f x = f y → f <$> <[k := x]> m = f <$> <[k := y]> n.
Proof. intros E H. by rewrite !fmap_insert, E, H. Qed.

(** The moves of the two sides of an item, stated on the states after them. *)
Lemma agree_input a b i j a' b' :
  agree a b →
  in_view i = in_view j →
  s_cfg a' = s_cfg a → s_cfg b' = s_cfg b →
  s_inputs a' = <[in_serial i := i]> (s_inputs a) → s_inputs b' = <[in_serial j := j]> (s_inputs b) →
  s_outputs a' = s_outputs a → s_outputs b' = s_outputs b →
  s_pending_inputs a' = tail (s_pending_inputs a) → s_pending_outputs a' = s_pending_outputs a →
  s_pending_inputs b' = s_pending_inputs b → s_pending_outputs b' = s_pending_outputs b →
  s_sent_complete a' = false → s_recv_complete b' = false →
  s_recv_complete a' = s_recv_complete a → s_sent_complete b' = s_sent_complete b →
  s_our_turn a' = false → s_our_turn b' = true → agree a' b'.
Proof.
  intros [Ht Hi Ho Hki Hko Hs Hr Htn H1 H2 H3 H4] Hv Ec Ec' Ei Ej Eo Eo' Eq Eq' Ep Ep' Es Er Er' Es' Et Et'.
  split; rewrite ?Ec, ?Ec', ?Eq, ?Eq', ?Ei, ?Ej, ?Eo, ?Eo', ?Ep, ?Ep', ?Es, ?Er, ?Er', ?Es', ?Et, ?Et'; try done.
  - assert (in_serial j = in_serial i) as -> by by injection Hv. by apply fmap_insert_view.
  - intros id k. rewrite lookup_insert_Some. naive_solver.
  - destruct (s_pending_inputs a); [done|]. by inversion H1.
Qed.

Lemma agree_output a b o p a' b' :
  agree a b →
  out_view o = out_view p →
  s_cfg a' = s_cfg a → s_cfg b' = s_cfg b →
  s_outputs a' = <[out_serial o := o]> (s_outputs a) → s_outputs b' = <[out_serial p := p]> (s_outputs b) →
  s_inputs a' = s_inputs a → s_inputs b' = s_inputs b →
  s_pending_outputs a' = tail (s_pending_outputs a) → s_pending_inputs a' = s_pending_inputs a →
  s_pending_inputs b' = s_pending_inputs b → s_pending_outputs b' = s_pending_outputs b →
  s_sent_complete a' = false → s_recv_complete b' = false →
  s_recv_complete a' = s_recv_complete a → s_sent_complete b' = s_sent_complete b →
  s_our_turn a' = false → s_our_turn b' = true → agree a' b'.
Proof.
  intros [Ht Hi Ho Hki Hko Hs Hr Htn H1 H2 H3 H4] Hv Ec Ec' Eo Eo' Ei Ej Eq Eq' Ep Ep' Es Er Er' Es' Et Et'.
  split; rewrite ?Ec, ?Ec', ?Eq, ?Eq', ?Ei, ?Ej, ?Eo, ?Eo', ?Ep, ?Ep', ?Es, ?Er, ?Er', ?Es', ?Et, ?Et'; try done.
  - assert (out_serial p = out_serial o) as -> by by injection Hv. by apply fmap_insert_view.
  - intros id k. rewrite lookup_insert_Some. naive_solver.
  - destruct (s_pending_outputs a); [done|]. by inversion H2.
Qed.

(** A node whose turn it is meets a peer whose turn it is not. *)
Lemma agree_turn a b :
  agree a b → our_turn a = true → s_failed b = None →
  s_failed a = None ∧ s_our_turn b = false ∧ done_ b = false.
Proof.
  intros [_ _ _ _ _ Hs Hr Ht _ _ _ _] H F. unfold our_turn in H.
  apply andb_prop in H as [[Ha Hd]%andb_prop Hf]. destruct (s_failed a) eqn:Fa; [done|].
  apply negb_true_iff in Hd. unfold done_ in Hd. rewrite Fa in Hd. cbn [is_none andb] in Hd.
  split; [done|]. rewrite Hd in Ht. split; [by destruct (s_our_turn b); rewrite Ha in Ht|].
  unfold done_. rewrite F, <-Hs, <-Hr. cbn [is_none andb]. by rewrite andb_comm.
Qed.

(** What [next] returns and does, by the queue it works off. *)
Lemma next_said a a' m :
  next a = (a', Ok m) → our_turn a = true ∧ s_failed a = None ∧
  match s_pending_inputs a, s_pending_outputs a with
  | i :: rest, _ => send_input i (set_sent_complete false (set_pending_inputs rest (set_our_turn false a)))
                    = (a', Ok m)
  | [], o :: rest =>
      a' = set_outputs (<[out_serial o := o]> (s_outputs a))
             (set_sent_complete false (set_pending_outputs rest (set_our_turn false a))) ∧
      m = TxAddOutput (cfg_channel_id (s_cfg a)) (out_serial o) (out_value o) (out_script o)
  | [], [] => a' = set_sent_complete true (set_our_turn false a) ∧ m = TxComplete (cfg_channel_id (s_cfg a))
  end.
Proof.
  unfold next. destruct (s_failed a); [done|]. destruct (our_turn a); [|done]. cbn.
  destruct (s_pending_inputs a); [destruct (s_pending_outputs a)|]; cbn; intros H.
  - by injection H as <- <-.
  - by injection H as <- <-.
  - done.
Qed.

(** A node's own input goes out as a message that names its outpoint. *)
Lemma send_input_said i s s' m :
  local_input (s_cfg s) i → send_input i s = (s', Ok m) →
  s' = set_spent (<[in_out_point i := in_serial i]> (s_spent s))
         (set_inputs (<[in_serial i := i]> (s_inputs s)) s) ∧
  ∃ ptx txid, m = TxAddInput (cfg_channel_id (s_cfg s)) (in_serial i) ptx
                    (op_index (in_out_point i)) (in_sequence i) txid ∧
    if in_shared i then txid = Some (op_hash (in_out_point i))
    else txid = None ∧ ∃ tx, deserialize_tx ptx = Some tx ∧ tx_hash tx = op_hash (in_out_point i).
Proof.
  unfold local_input, send_input. destruct (s_spent s !! _); [done|]. cbn.
  destruct (in_shared i).
  - intros _ [= <- <-]. split; [done|]. eauto.
  - intros (tx & b & -> & Hb & Hh). rewrite Hb. intros [= <- <-]. split; [done|].
    destruct (deserialize_serialize _ _ Hb) as (tx' & Hd & Hh').
    exists b, None. split_and!; try done. exists tx'. split; [done | congruence].
Qed.

(** A message said and accepted keeps the two sides in agreement. *)
Lemma agree_say a a' b b' m e :
  agree a b → next a = (a', Ok m) → receive b m = (b', e) → s_failed b' = None → agree a' b'.
Proof.
  intros G N R F. apply receive_heard in R as (b1 & D & ->); [|done].
  assert (s_failed b = None) as Fb.
  { pose proof (dispatch_failed _ _ _ _ D) as Hd. by destruct (negb (done_ b1)); simpl in F; congruence. }
  apply next_said in N as (Ht & Fa & N). destruct (agree_turn a b G Ht Fb) as (_ & Htb & Hdb).
  destruct (s_pending_inputs a) as [|i rest] eqn:Epi; [destruct (s_pending_outputs a) as [|o rest] eqn:Epo|].
  - destruct N as [-> ->]. simpl in D. injection D as <-.
    destruct G as [Hst Hi Ho Hki Hko Hs Hr Htn H1 H2 H3 H4].
    assert (done_ (set_recv_complete true b) = s_sent_complete b) as Ed
      by (unfold done_; cbn; rewrite Fb; by destruct (s_sent_complete b)).
    rewrite Ed. destruct (s_sent_complete b) eqn:Esb; cbn; split; cbn; try done;
      rewrite ?Epi, ?Epo, ?Hr, ?Htb; done.
  - destruct N as [-> ->]. simpl in D. destruct (receive_output _ _ _ _) as [b2 e2] eqn:E.
    injection D as <- ->. unfold receive_output in E. destruct (_ >? _); [done|].
    destruct (peer_output _ _ _ _) as [p|] eqn:Ep; [|done]. apply peer_output_view in Ep as ->.
    injection E as <-.
    assert (∀ x, done_ (set_recv_complete false x) = false) as Hnd
      by (intros x; unfold done_; cbn; by rewrite andb_false_r).
    rewrite Hnd. cbn [negb]. pose proof (ag_pout_a _ _ G) as Hlo. rewrite Epo in Hlo.
    inversion Hlo as [|? ? Hlo1 _]; subst.
    eapply (agree_output a b o (Output _ _ _ _)); try done; cbn; try (by rewrite ?Epi, ?Epo).
    unfold out_view. cbn. by rewrite Hlo1, (proj1 (proj2 (ag_terms _ _ G))).
  - pose proof (ag_pin_a _ _ G) as Hli. rewrite Epi in Hli. inversion Hli as [|? ? Hli1 _]; subst.
    apply send_input_said in N as (-> & ptx & txid & -> & Htx); [|done]. simpl in D.
    destruct (receive_input _ _ _ _ _ _) as [b2 e2] eqn:E. injection D as <- ->.
    unfold receive_input in E. destruct (_ >? _); [done|].
    destruct (peer_input _ _ _ _ _ _) as [j|] eqn:Ej; [|done]. injection E as <-.
    apply peer_input_view in Ej as (Hj1 & Hj2 & Hj3).
    assert (∀ x, done_ (set_recv_complete false x) = false) as Hnd
      by (intros x; unfold done_; cbn; by rewrite andb_false_r).
    rewrite Hnd. cbn [negb].
    eapply (agree_input a b i j); try done; cbn; try (by rewrite ?Epi, ?Epo).
    unfold in_view. rewrite Hj1, Hj2. destruct (in_out_point i) as [h x] eqn:Eop.
    cbn in *. destruct (in_shared i).
    + subst txid. by destruct Hj3 as [-> ->].
    + destruct Htx as (-> & tx & Hd & <-). destruct Hj3 as (-> & tx' & Hd' & ->). congruence.
Qed.

(** ** Conversations *)

Lemma next_silent a a' err :
  Forall (local_input (s_cfg a)) (s_pending_inputs a) →
  next a = (a', Err err) → s_failed a' = None → a' = a.
Proof.
  intros Hl. unfold next. destruct (s_failed a) eqn:F; [by intros [= <- <-]|].
  destruct (negb (our_turn a)); [by intros [= <- <-]|]. cbn.
  destruct (s_pending_inputs a) as [|i rest]; [by destruct (s_pending_outputs a)|].
  inversion Hl as [|? ? Hi _]; subst. unfold send_input. destruct (_ !! _); [by intros [= <- <-]|].
  unfold local_input in Hi. destruct (in_shared i); [done|].
  destruct Hi as (tx & b & -> & -> & _). done.
Qed.

Lemma receive_unfailed b m b' e :
  receive b m = (b', e) → s_failed b' = None → s_failed b = None.
Proof. unfold receive. destruct (s_failed b) eqn:F; [intros [= <- <-]; congruence | done]. Qed.

Lemma next_unfailed a a' r : next a = (a', r) → s_failed a' = None → s_failed a = None.
Proof. unfold next. destruct (s_failed a) eqn:F; [intros [= <- <-]; congruence | done]. Qed.

Lemma agree_local a b a' :
  agree a b → same_terms (s_cfg a') (s_cfg a) →
  s_inputs a' = s_inputs a → s_outputs a' = s_outputs a →
  s_sent_complete a' = s_sent_complete a → s_recv_complete a' = s_recv_complete a →
  s_our_turn a' = s_our_turn a →
  Forall (local_input (s_cfg a')) (s_pending_inputs a') →
  Forall (local_output (s_cfg a')) (s_pending_outputs a') → agree a' b.
Proof.
  intros [(? & ? & ?) Hi Ho Hki Hko Hs Hr Ht ? ? ? ?] (? & ? & ?) Ei Eo Es Er Et Hp Hq.
  split; rewrite ?Ei, ?Eo, ?Es, ?Er, ?Et; try done. split_and!; congruence.
Qed.

Definition both_up (p : session * session) : Prop := s_failed p.1 = None ∧ s_failed p.2 = None.

Lemma talk_agree p q :
  talk p q → (both_up p → agree p.1 p.2) → both_up q → agree q.1 q.2.
Proof.
  unfold both_up. induction 1 as [a a' b b' m e N R | a a' b err N | a b i Hs Hl | a b o Hl
    | a a' b H | a b reason | a b | a a' b r H | a b a' b' H IH]; cbn; intros G [Fa Fb].
  - apply (agree_say a a' b b' m e); try done. apply G. split; [by eapply next_unfailed|].
    by eapply receive_unfailed.
  - specialize (G (conj (next_unfailed _ _ _ N Fa) Fb)).
    by rewrite (next_silent _ _ _ (ag_pin_a _ _ G) N Fa).
  - specialize (G (conj Fa Fb)). apply (agree_local a b); try done; cbn.
    + apply Forall_app. split; [apply G | by repeat constructor].
    + apply G.
  - specialize (G (conj Fa Fb)). apply (agree_local a b); try done; cbn.
    + apply G.
    + apply Forall_app. split; [apply G | by repeat constructor].
  - unfold add_shared_input_and_funding in H. destruct (negb _); [done|]. injection H as <-.
    specialize (G (conj Fa Fb)). apply (agree_local a b); try done; cbn.
    + constructor; [done | apply G].
    + constructor; [|apply G]. unfold local_output. cbn. by rewrite bool_decide_true.
  - specialize (G (conj Fa Fb)). apply (agree_local a b); try done; cbn; apply G.
  - specialize (G (conj Fa Fb)). apply (agree_local a b); try done; cbn; apply G.
  - unfold build in H. destruct (negb _); [injection H as <- <-; by apply G|].
    destruct (build_checks a); injection H as <- <-; [by apply G | done].
  - apply agree_sym, IH; [|done]. intros [Fa' Fb']. apply agree_sym, G. done.
Qed.

Lemma new_session_terms ca a :
  new_session ca = Ok a →
  same_terms ca (s_cfg a) ∧ s_failed a = None ∧ s_inputs a = ∅ ∧ s_outputs a = ∅ ∧
  s_pending_inputs a = [] ∧ s_pending_outputs a = [] ∧ s_sent_complete a = false ∧
  s_recv_complete a = false ∧ s_our_turn a = bool_decide (cfg_role ca = Initiator).
Proof.
  unfold new_session. destruct (ha_witness_weight _); [|done]. destruct (ha_reserve _); [|done].
  destruct (ha_check_peer_input (cfg_hooks ca)), (ha_check_peer_output (cfg_hooks ca)),
    (ha_dust_limit (cfg_hooks ca)); try done.
  intros H. apply rbind_Ok in H as ([] & _ & H). apply rbind_Ok in H as ([] & _ & H).
  destruct (negb _) in H; [|done]. by injection H as <-.
Qed.

Lemma conversation_agree p : conversation p → both_up p → agree p.1 p.2.
Proof.
  induction 1 as [ca cb a b Ha Hb Ht Hr | p q _ IH H]; [|by apply (talk_agree p q)].
  intros _. cbn.
  apply new_session_terms in Ha as ((T1 & T2 & T3) & _ & A1 & A2 & A3 & A4 & A5 & A6 & A7).
  apply new_session_terms in Hb as ((U1 & U2 & U3) & _ & B1 & B2 & B3 & B4 & B5 & B6 & B7).
  destruct Ht as (? & ? & ?).
  split; rewrite ?A1, ?A2, ?A3, ?A4, ?A5, ?A6, ?A7, ?B1, ?B2, ?B3, ?B4, ?B5, ?B6, ?B7; try done.
  - split_and!; congruence.
  - cbn. rewrite Hr. by destruct (cfg_role ca).
Qed.

(** ** What both sides build *)

Lemma scan_views {A V} (f : A → V) (p : A → bool) (g : V → bool) l k :
  (∀ x, p x = g (f x)) → f <$> l = f <$> k → ∀ i n idx, scan p l i n idx = scan p k i n idx.
Proof.
  intros Hp. revert k. induction l as [|x l IH]; intros [|y k] E i n idx; try done.
  simpl in E. injection E as Exy E. simpl. rewrite !Hp, Exy. by destruct (g (f y)); apply IH.
Qed.

Lemma agree_sorted a b :
  agree a b → in_view <$> sorted_inputs a = in_view <$> sorted_inputs b ∧
              out_view <$> sorted_outputs a = out_view <$> sorted_outputs b.
Proof.
  intros [_ Hi Ho Hki Hko _ _ _ _ _ _ _]. split.
  - apply (sorted_views in_view (λ v, v.1.1.1)); [apply _ | apply _ | intros x y; reflexivity | exact Hki | exact Hi].
  - apply (sorted_views out_view (λ v, v.1.1.1)); [apply _ | apply _ | intros x y; reflexivity | exact Hko | exact Ho].
Qed.

Lemma agree_build_tx a b :
  agree a b →
  build_tx a (sorted_inputs a) (sorted_outputs a) = build_tx b (sorted_inputs b) (sorted_outputs b).
Proof.
  intros G. destruct (agree_sorted a b G) as [Ei Eo]. destruct (ag_terms _ _ G) as (_ & _ & El).
  assert (∀ l, map (λ i, TxIn (in_out_point i) (in_sequence i) []) l =
    map (λ v : Z * out_point * Z * bool, TxIn v.1.1.2 v.1.2 []) (in_view <$> l)) as Hin
    by (intros l; symmetry; apply map_map).
  assert (∀ l, map (λ o, TxOut (out_value o) (out_script o)) l =
    map (λ v : Z * Z * bytes * bool, TxOut v.1.1.2 v.1.2) (out_view <$> l)) as Hout
    by (intros l; symmetry; apply map_map).
  unfold build_tx. by rewrite El, !Hin, !Hout, Ei, Eo.
Qed.

Lemma build_Ok s s' res :
  build s = (s', Ok res) →
  res_tx res = build_tx s (sorted_inputs s) (sorted_outputs s) ∧
  scan in_shared (sorted_inputs s) 0 0 0 = (1, res_shared_index res) ∧
  scan out_funding (sorted_outputs s) 0 0 0 = (1, res_funding_index res).
Proof.
  unfold build. destruct (negb _); [done|]. destruct (build_checks s) eqn:E; [|done].
  intros [= _ <-]. apply build_checks_Ok in E. naive_solver.
Qed.

Lemma conversation_turn a b :
  conversation (a, b) → s_failed a = None → s_failed b = None →
  done_ a = done_ b ∧ our_turn a && our_turn b = false ∧
  our_turn a || our_turn b = negb (done_ a).
Proof.
  intros H Fa Fb. pose proof (conversation_agree (a, b) H (conj Fa Fb)) as G. cbn in G.
  assert (done_ a = done_ b) as Hd.
  { unfold done_. rewrite Fa, Fb, (ag_sent _ _ G), (ag_recv _ _ G). cbn [is_none andb].
    by rewrite andb_comm. }
  split; [done|]. pose proof (ag_turn _ _ G) as Ht.
  assert (done_ a = s_sent_complete a && s_recv_complete a) as Ed by (unfold done_; by rewrite Fa).
  rewrite <-Ed in Ht. unfold our_turn. rewrite Fa, Fb, <-Hd. cbn [is_none]. rewrite !andb_true_r.
  destruct (done_ a); [by destruct Ht as [-> ->] | rewrite Ht; by destruct (s_our_turn b)].
Qed.

(** C25: Two nodes that splice on the same terms and hand each other the
    messages their sessions return, in any order of calls and with any items
    queued at any time, agree for as long as neither has failed: never have
    both the turn, and one has it until they are complete, which they are at
    the same moment; and if both accept what was built, they have built the
    same transaction with the same funding output and shared input, so that
    each signs what the other does. *)
Theorem sessions_agree a b :
  conversation (a, b) → s_failed a = None → s_failed b = None →
  done_ a = done_ b ∧
  our_turn a && our_turn b = false ∧
  our_turn a || our_turn b = negb (done_ a) ∧
  ∀ a' b' ra rb, build a = (a', Ok ra) → build b = (b', Ok rb) →
    res_tx ra = res_tx rb ∧ res_shared_index ra = res_shared_index rb ∧
    res_funding_index ra = res_funding_index rb.
Proof.
  intros H Fa Fb. pose proof (conversation_agree (a, b) H (conj Fa Fb)) as G. cbn in G.
  destruct (conversation_turn a b H Fa Fb) as (Hd & Ht1 & Ht2). split_and!; [done..|].
  intros a' b' ra rb Ha Hb. apply build_Ok in Ha as (Ha1 & Ha2 & Ha3), Hb as (Hb1 & Hb2 & Hb3).
  destruct (agree_sorted a b G) as [Ei Eo].
  rewrite (scan_views in_view in_shared snd _ (sorted_inputs b)) in Ha2 by done.
  rewrite (scan_views out_view out_funding snd _ (sorted_outputs b)) in Ha3 by done.
  rewrite Ha1, Hb1. split; [by apply agree_build_tx | by split; congruence].
Qed.

(** ** The exchange of two nodes ends *)

(** The node whose turn it is speaks and the other one hears it. *)
Fixpoint exchange (n : nat) (a b : session) : session * session :=
  match n with
  | O => (a, b)
  | S n =>
      if our_turn a then
        match next a with
        | (a, Ok m) => let '(b, _) := receive b m in exchange n a b
        | (a, Err _) => (a, b)
        end
      else if our_turn b then
        match next b with
        | (b, Ok m) => let '(a, _) := receive a m in exchange n a b
        | (b, Err _) => (a, b)
        end
      else (a, b)
  end.

Definition queued (s : session) : nat :=
  length (s_pending_inputs s) + length (s_pending_outputs s).

(** The turns still to be taken when it is [a]'s: two for every queued item,
    and the tx_completes. *)
Definition turns_left (a b : session) : nat :=
  2 * (queued a + queued b) + if s_recv_complete a then 1 else 2.

Lemma receive_queue s m s' e :
  receive s m = (s', e) →
  s_pending_inputs s' = s_pending_inputs s ∧ s_pending_outputs s' = s_pending_outputs s ∧
  s_sent_complete s' = s_sent_complete s ∧
  (s_failed s' = None → s_recv_complete s' = match m with TxComplete _ => true | _ => false end).
Proof.
  unfold receive, dispatch, receive_input, receive_output, receive_remove.
  repeat case_match; intros; simplify_eq; split_and!; cbn in *; try done; congruence.
Qed.

(** One turn: the two sides fail or are complete, or fewer turns are left. *)
Lemma turn_left a b a' b' m e :
  agree a b → next a = (a', Ok m) → receive b m = (b', e) → s_failed b' = None →
  done_ b' = true ∨ (turns_left b' a' < turns_left a b)%nat.
Proof.
  intros G N R F. pose proof (receive_queue _ _ _ _ R) as (Q1 & Q2 & Q3 & Q4). specialize (Q4 F).
  apply next_said in N as (Ht & Fa & N). unfold turns_left, queued. rewrite Q1, Q2.
  destruct (s_pending_inputs a) as [|i rest] eqn:Epi; [destruct (s_pending_outputs a) as [|o rest] eqn:Epo|].
  - destruct N as [-> ->]. cbn. rewrite Epi, Epo. cbn. rewrite Q4.
    destruct (s_recv_complete a) eqn:Er; [left | right; lia].
    unfold done_. by rewrite F, Q4, Q3, <-(ag_recv _ _ G), Er.
  - destruct N as [-> ->]. right. cbn. rewrite Epi, Q4. cbn. destruct (s_recv_complete a); lia.
  - pose proof (ag_pin_a _ _ G) as Hli. rewrite Epi in Hli. inversion Hli as [|? ? Hli1 _]; subst.
    apply send_input_said in N as (-> & ptx & txid & -> & _); [|done]. right.
    cbn. rewrite Q4. cbn. destruct (s_recv_complete a); lia.
Qed.

Lemma next_unsaid a a' m : next a = (a', Ok m) → s_failed a' = None ∧ s_our_turn a' = false.
Proof.
  intros N. apply next_said in N as (_ & F & N).
  destruct (s_pending_inputs a); [destruct (s_pending_outputs a)|].
  - by destruct N as [-> _].
  - by destruct N as [-> _].
  - revert N. unfold send_input. cbn. repeat case_match; intros; by simplify_eq.
Qed.

Lemma next_agree_Ok a b :
  agree a b → our_turn a = true → s_failed a = None →
  ∃ a' r, next a = (a', r) ∧ (s_failed a' = None → ∃ m, r = Ok m).
Proof.
  intros G Ht Fa. destruct (next a) as [a' [m|err]] eqn:N; [by eauto|].
  exists a', (Err err). split; [done|]. intros Fa'. exfalso.
  pose proof (next_silent _ _ _ (ag_pin_a _ _ G) N Fa') as ->.
  revert N. unfold next. rewrite Fa, Ht. cbn [negb].
  intros N. apply (f_equal (λ p, s_our_turn p.1)) in N. cbn in N.
  assert (s_our_turn a = true) as Hta by (unfold our_turn in Ht; by destruct (s_our_turn a)).
  revert N. rewrite Hta. destruct (s_pending_inputs a) as [|i rest] eqn:Epi.
  - by destruct (s_pending_outputs a).
  - unfold send_input. cbn. by repeat case_match.
Qed.

Lemma exchange_stop n a b : our_turn a = false → our_turn b = false → exchange n a b = (a, b).
Proof. intros Ha Hb. destruct n; [done|]. cbn [exchange]. by rewrite Ha, Hb. Qed.

(** What [exchange] ends with. *)
Definition ended (p : session * session) : Prop :=
  conversation p ∧
  (s_failed p.1 ≠ None ∨ s_failed p.2 ≠ None ∨ done_ p.1 = true ∧ done_ p.2 = true).

Lemma our_turn_done s : done_ s = true → our_turn s = false.
Proof. unfold our_turn. intros ->. by rewrite andb_false_r. Qed.
Lemma our_turn_failed s : s_failed s ≠ None → our_turn s = false.
Proof. unfold our_turn. destruct (s_failed s); [|done]. by rewrite andb_false_r. Qed.

Lemma conversation_sym a b : conversation (a, b) → conversation (b, a).
Proof.
  intros C. assert (∀ p, conversation p → conversation (p.2, p.1)) as H; [|by apply (H (a, b))].
  clear. induction 1 as [ca cb a b Ha Hb (? & ? & ?) Hr | p q _ IH H].
  - cbn. eapply (conv_new cb ca); [done | done | by split_and! |]. by rewrite Hr; destruct (cfg_role ca).
  - eapply conv_step; [exact IH|]. destruct p, q. by apply talk_swap.
Qed.

Lemma ended_sym a b : ended (a, b) → ended (b, a).
Proof. intros [C H]. split; [by apply conversation_sym|]. cbn in *. naive_solver. Qed.

(** One turn of [exchange], of the node on the left. *)
Lemma exchange_turn n a b a' b' m e :
  conversation (a, b) → s_failed b = None →
  next a = (a', Ok m) → receive b m = (b', e) → our_turn a = true → (turns_left a b ≤ S n)%nat →
  our_turn a' = false ∧
  (ended (a', b') ∧ our_turn b' = false ∨
   conversation (a', b') ∧ s_failed a' = None ∧ s_failed b' = None ∧ (turns_left b' a' ≤ n)%nat).
Proof.
  intros C Fb N R Ht Hn. pose proof (talk_say a a' b b' m e N R) as Hs.
  assert (conversation (a', b')) as C' by (by eapply conv_step).
  pose proof (next_unsaid _ _ _ N) as [Fa' Ha']. split; [unfold our_turn; by rewrite Ha'|].
  destruct (s_failed b') eqn:Fb'.
  { left. split; [split; [done|]; cbn; right; left; by rewrite Fb'|].
    apply our_turn_failed. by rewrite Fb'. }
  pose proof (conversation_agree (a, b) C) as G. cbn in G.
  assert (agree a b) as G' by (apply G; split; [by eapply next_unfailed | done]).
  destruct (turn_left _ _ _ _ _ _ G' N R Fb') as [Hd | Hl]; [left | right].
  - split; [|by apply our_turn_done]. split; [done|]. cbn. right; right.
    destruct (conversation_turn a' b' C' Fa' Fb') as (-> & _). done.
  - split_and!; try done. lia.
Qed.

Lemma exchange_spec n a b :
  conversation (a, b) → s_failed a = None → s_failed b = None →
  (our_turn a = true → turns_left a b ≤ n)%nat → (our_turn b = true → turns_left b a ≤ n)%nat →
  ended (exchange n a b).
Proof.
  revert a b. induction n as [|n IH]; intros a b C Fa Fb Ha Hb.
  - destruct (conversation_turn a b C Fa Fb) as (Hd & _ & Ho). split; [done|]. cbn. right; right.
    unfold turns_left in *. destruct (our_turn a); [destruct (s_recv_complete a); lia|].
    destruct (our_turn b); [destruct (s_recv_complete b); lia|].
    cbn in Ho. rewrite <-Hd. by destruct (done_ a).
  - cbn [exchange]. pose proof (conversation_agree (a, b) C (conj Fa Fb)) as G. cbn in G.
    destruct (our_turn a) eqn:Hta; [|destruct (our_turn b) eqn:Htb].
    + destruct (next_agree_Ok a b G Hta Fa) as (a' & r & N & Hr). rewrite N. destruct r as [m|err].
      * destruct (receive b m) as [b' e] eqn:R.
        destruct (exchange_turn n _ _ _ _ _ _ C Fb N R Hta (Ha eq_refl)) as (Hta' & [[E Htb'] | (C' & Fa' & Fb' & Hl)]).
        -- by rewrite exchange_stop.
        -- apply IH; try done. congruence.
      * split; [eapply conv_step, talk_silent; done|]. left. cbn. intros F. by destruct (Hr F).
    + apply agree_sym in G. assert (conversation (b, a)) as C0 by by apply conversation_sym.
      destruct (next_agree_Ok b a G Htb Fb) as (b' & r & N & Hr). rewrite N. destruct r as [m|err].
      * destruct (receive a m) as [a' e] eqn:R.
        destruct (exchange_turn n _ _ _ _ _ _ C0 Fa N R Htb (Hb eq_refl)) as (Htb' & [[E Hta'] | (C' & Fb' & Fa' & Hl)]).
        -- rewrite exchange_stop by done. by apply ended_sym.
        -- apply IH; try done; [by apply conversation_sym | congruence].
      * split; [apply conversation_sym; eapply conv_step, talk_silent; done|]. right; left. cbn.
        intros F. by destruct (Hr F).
    + split; [done|]. cbn. right; right.
      destruct (conversation_turn a b C Fa Fb) as (Hd & _ & Ho). rewrite Hta, Htb in Ho.
      rewrite <-Hd. by destruct (done_ a).
Qed.

(** C31: The construction of two nodes ends: after two turns for every item
    either has queued and two more, either one of the sessions has failed or
    both are complete. *)
Theorem exchange_ends n a b :
  conversation (a, b) → s_failed a = None → s_failed b = None →
  (2 * (queued a + queued b) + 2 ≤ n)%nat →
  let '(a', b') := exchange n a b in
  conversation (a', b') ∧
  (s_failed a' ≠ None ∨ s_failed b' ≠ None ∨ done_ a' = true ∧ done_ b' = true).
Proof.
  intros C Fa Fb Hn.
  assert (ended (exchange n a b)) as H.
  { apply exchange_spec; try done; intros _; unfold turns_left; [destruct (s_recv_complete a) | destruct (s_recv_complete b)]; lia. }
  by destruct (exchange n a b).
Qed.
End Agreement.

(** ** The sample splice between its two nodes *)

#[export] Instance sample_laws : TxLaws.
Proof.
  split. intros tx b. cbn. case_bool_decide as Ht; [|done]. intros [= <-].
  exists prev_sample. by rewrite bool_decide_true, Ht.
Qed.

Definition queued_session : session :=
  run (start (sample_config Initiator)) [QueueShared; QueueInput wallet_input; QueueOutput change_output].

Lemma sample_conversation : conversation (queued_session, start (sample_config Acceptor)).
Proof.
  assert (conversation (start (sample_config Initiator), start (sample_config Acceptor))) as C.
  { eapply conv_new; [apply start_ok | apply start_ok | by split_and! | done]. }
  eapply conv_step in C; [|eapply talk_shared; vm_compute; reflexivity].
  eapply conv_step in C; [|eapply (talk_input _ _ wallet_input); [done|]].
  - eapply conv_step in C; [|eapply (talk_output _ _ change_output); done]. exact C.
  - exists prev_sample, prev_bytes. split_and!; vm_compute; reflexivity.
Qed.

Lemma exchange_ends_witness :
  let '(a, b) := exchange 12 queued_session (start (sample_config Acceptor)) in
  conversation (a, b) ∧ (s_failed a ≠ None ∨ s_failed b ≠ None ∨ done_ a = true ∧ done_ b = true).
Proof.
  apply (exchange_ends 12 queued_session (start (sample_config Acceptor)));
    [apply sample_conversation | vm_compute; reflexivity | vm_compute; reflexivity | vm_compute; lia].
Defined.

(** The conversation after the exchange: both complete. *)
Definition sample_a : session := fst (exchange 12 queued_session (start (sample_config Acceptor))).
Definition sample_b : session := snd (exchange 12 queued_session (start (sample_config Acceptor))).

Lemma sample_ended : conversation (sample_a, sample_b).
Proof.
  assert (ended (exchange 12 queued_session (start (sample_config Acceptor)))) as [H _].
  { apply exchange_spec; [apply sample_conversation | vm_compute; reflexivity.. | |];
      intros _; vm_compute; lia. }
  unfold sample_a, sample_b. by destruct (exchange _ _ _).
Qed.

Lemma sessions_agree_witness :
  done_ sample_a = true ∧ is_ok (snd (build sample_a)) = true ∧ is_ok (snd (build sample_b)) = true ∧
  ∀ ra rb, build sample_a = (sample_a, Ok ra) → build sample_b = (sample_b, Ok rb) →
    res_tx ra = res_tx rb.
Proof.
  split; [vm_compute; reflexivity|]. split; [vm_compute; reflexivity|]. split; [vm_compute; reflexivity|].
  intros ra rb Ha Hb.
  refine (proj1 (proj2 (proj2 (proj2 (sessions_agree sample_a sample_b sample_ended _ _))) _ _ _ _ Ha Hb));
    vm_compute; reflexivity.
Defined.
