(* ===== verification/TxProtocol.v ===== *)
(** * Two sessions talking to each other

    Theorems about the exchange of messages of lnwallet/interactivetx: what a
    session's inputs are at any time, that a peer cannot keep it open, that
    two sessions that exchange their messages end and end with the same
    transaction, and the order of the signatures and the checks of the
    witnesses that follow. *)

From S2P Require Import Prelude Chainfee InteractiveTx TxToy TxBuild.

(** ** The inputs of a session *)

Section Spending.
Context `{T : TxPrims}.

(** C26: In every session its operations reach, whatever the peer sent: no two
    inputs spend the same outpoint, so [Build]'s own check of it never fails;
    the table of spent outpoints is exact; only the shared input spends the
    funding output, and there is at most one. *)
Theorem inputs_spend_once s :
  reachable s →
  (∀ i j a b, s_inputs s !! i = Some a → s_inputs s !! j = Some b →
     in_out_point a = in_out_point b → i = j) ∧
  (∀ op id, s_spent s !! op = Some id ↔ ∃ a, s_inputs s !! id = Some a ∧ in_out_point a = op) ∧
  check_spent_once ∅ (sorted_inputs s) = Ok tt ∧
  (∀ i j a b, s_inputs s !! i = Some a → s_inputs s !! j = Some b →
     in_shared a = true → in_shared b = true → i = j).
Proof.
  intros [C I]%reachable_ok.
  assert (∀ i j a b, s_inputs s !! i = Some a → s_inputs s !! j = Some b →
     in_out_point a = in_out_point b → i = j) as Hinj.
  { intros i j a b Ha Hb E.
    assert (s_spent s !! in_out_point a = Some i) as H1 by (apply I; eauto).
    assert (s_spent s !! in_out_point a = Some j) as H2 by (apply I; eauto). congruence. }
  split_and!; [done | apply I | by apply check_spent_once_NoDup, sorted_inputs_outpoints |].
  intros i j a b Ha Hb Sa Sb. apply (Hinj i j a b Ha Hb).
  destruct (it_in_ok _ _ _ _ _ _ _ _ _ I _ _ Ha) as [_ [-> _]]; [done|].
  by destruct (it_in_ok _ _ _ _ _ _ _ _ _ I _ _ Hb) as [_ [-> _]].
Qed.

(** ** Failures *)

Lemma next_failed s s' r : next s = (s', r) → s_failed s' = None → s_failed s = None.
Proof. unfold next. destruct (s_failed s) eqn:F; [|done]. intros [= <- <-]. congruence. Qed.

Lemma receive_failed s m s' e :
  receive s m = (s', e) → s_failed s' = None → s_failed s = None ∧ e = None.
Proof.
  unfold receive. destruct (s_failed s) eqn:F; [intros [= <- <-]; congruence|].
  destruct (_ || _); [by intros [= <- <-]|].
  destruct (dispatch s m) as [s1 [e1|]]; by intros [= <- <-].
Qed.

(** ** A peer cannot keep a session open *)

Definition counters_ok (s : session) : Prop :=
  s_peer_add_inputs s ≤ cfg_max_peer_add_messages (s_cfg s) ∧
  s_peer_add_outputs s ≤ cfg_max_peer_add_messages (s_cfg s).

(** What is left to be said: the items the peer may still add, the items that
    may still be removed and our own queue. *)
Definition work_left (s : session) : Z :=
  2 * (2 * cfg_max_peer_add_messages (s_cfg s) - s_peer_add_inputs s - s_peer_add_outputs s)
  + Z.of_nat (size (s_inputs s)) + Z.of_nat (size (s_outputs s))
  + 2 * Z.of_nat (length (s_pending_inputs s)) + 2 * Z.of_nat (length (s_pending_outputs s)).

Lemma work_left_nonneg s : counters_ok s → 0 ≤ work_left s.
Proof. unfold counters_ok, work_left. lia. Qed.

Lemma size_insert_le {K A} `{Countable K} (k : K) (a : A) (m : gmap K A) :
  Z.of_nat (size (<[k := a]> m)) ≤ Z.of_nat (size m) + 1.
Proof.
  destruct (m !! k) eqn:E.
  - rewrite (map_size_insert_Some k a m) by eauto. lia.
  - rewrite map_size_insert_None by done. lia.
Qed.

Lemma size_delete_lt {K A} `{Countable K} (k : K) (a : A) (m : gmap K A) :
  m !! k = Some a → Z.of_nat (size (delete k m)) = Z.of_nat (size m) - 1.
Proof.
  intros E. rewrite <-(insert_delete_id m k a E) at 2.
  rewrite map_size_insert_None by apply lookup_delete_eq. lia.
Qed.

Definition is_complete (m : message) : bool :=
  match m with TxComplete _ => true | _ => false end.

Lemma dispatch_work s m s' :
  dispatch s m = (s', None) → counters_ok s →
  counters_ok s' ∧
  (if is_complete m then work_left s' = work_left s ∧ s_recv_complete s' = true
   else work_left s' < work_left s).
Proof.
  intros H [Ci Co]. destruct m; simpl in H.
  - destruct (receive_input _ _ _ _ _ _) as [s1 e1] eqn:E. injection H as <- ->.
    unfold receive_input in E. destruct (_ >? _) eqn:Hc in E; [done|].
    destruct (peer_input _ _ _ _ _ _) as [i|]; [|done]. injection E as <-.
    rewrite Z.gtb_ltb in Hc. cbn in Hc.
    pose proof (size_insert_le (in_serial i) i (s_inputs s)).
    unfold counters_ok, work_left. cbn. cbn in Ci, Co. lia.
  - destruct (receive_output _ _ _ _) as [s1 e1] eqn:E. injection H as <- ->.
    unfold receive_output in E. destruct (_ >? _) eqn:Hc in E; [done|].
    destruct (peer_output _ _ _ _) as [o|]; [|done]. injection E as <-.
    rewrite Z.gtb_ltb in Hc. cbn in Hc.
    pose proof (size_insert_le (out_serial o) o (s_outputs s)).
    unfold counters_ok, work_left. cbn. cbn in Ci, Co. lia.
  - destruct (receive_remove _ _ _) as [s1 e1] eqn:E. injection H as <- ->.
    unfold receive_remove in E. destruct (negb _); [done|].
    destruct (s_inputs s !! serial) as [i|] eqn:Ei; [|done]. injection E as <-.
    pose proof (size_delete_lt _ _ _ Ei).
    unfold counters_ok, work_left. cbn. cbn in Ci, Co. lia.
  - destruct (receive_remove _ _ _) as [s1 e1] eqn:E. injection H as <- ->.
    unfold receive_remove in E. destruct (negb _); [done|].
    destruct (s_outputs s !! serial) as [o|] eqn:Eo; [|done]. injection E as <-.
    pose proof (size_delete_lt _ _ _ Eo).
    unfold counters_ok, work_left. cbn. cbn in Ci, Co. lia.
  - injection H as <-. by unfold counters_ok, work_left.
  - done.
Qed.

Lemma receive_work s m s' :
  receive s m = (s', None) → counters_ok s →
  counters_ok s' ∧ s_failed s' = None ∧
  (if is_complete m then work_left s' = work_left s ∧ s_recv_complete s' = true
   else work_left s' < work_left s).
Proof.
  unfold receive. destruct (s_failed s) eqn:F; [done|]. destruct (_ || _); [done|].
  destruct (dispatch s m) as [s1 [e1|]] eqn:E; [done|]. intros [= <-] C.
  assert (s_failed s1 = None) as F1.
  { rewrite <-F. destruct m; simpl in E; try (by injection E as <-); revert E;
      unfold receive_input, receive_output, receive_remove;
      repeat case_match; simplify_eq; by intros [= <-]. }
  destruct (dispatch_work _ _ _ E C) as [C1 H]. by destruct (negb _).
Qed.

(** Our move: an item off the queue, or tx_complete. *)
Lemma next_work s s' m :
  next s = (s', Ok m) → counters_ok s →
  counters_ok s' ∧ s_failed s' = None ∧ s_recv_complete s' = s_recv_complete s ∧
  ((s_sent_complete s' = true ∧ work_left s' = work_left s) ∨ work_left s' < work_left s).
Proof.
  unfold next. destruct (s_failed s) eqn:F; [done|]. destruct (negb (our_turn s)); [done|].
  cbn [s_pending_inputs s_pending_outputs set_our_turn].
  destruct (s_pending_inputs s) as [|i pin] eqn:Ep; [destruct (s_pending_outputs s) as [|o po] eqn:Eo|].
  - intros [= <- <-] C. split_and!; [exact C | exact F | done |]. left. split; [done|].
    unfold work_left. cbn. by rewrite Ep, Eo.
  - intros [= <- <-] C. split_and!; [exact C | exact F | done |]. right.
    pose proof (size_insert_le (out_serial o) o (s_outputs s)).
    unfold work_left. cbn. rewrite Ep, Eo. simpl length. lia.
  - unfold send_input. cbn. intros H C. assert (counters_ok s' ∧ s_failed s' = None ∧
      s_recv_complete s' = s_recv_complete s ∧ s_inputs s' = <[in_serial i := i]> (s_inputs s) ∧
      s_outputs s' = s_outputs s ∧ s_pending_inputs s' = pin ∧
      s_pending_outputs s' = s_pending_outputs s ∧ s_cfg s' = s_cfg s ∧
      s_peer_add_inputs s' = s_peer_add_inputs s ∧ s_peer_add_outputs s' = s_peer_add_outputs s)
      as (? & ? & ? & E1 & E2 & E3 & E4 & E5 & E6 & E7).
    { repeat case_match; simplify_eq; split_and!; try done; exact C. }
    split_and!; try done. right. pose proof (size_insert_le (in_serial i) i (s_inputs s)).
    unfold work_left. rewrite E1, E2, E3, E4, E5, E6, E7, Ep. simpl length. lia.
Qed.

(** One exchange from our side: the peer's message and our answer. [None]
    when the session has ended, complete or with an error. *)
Definition round (s : session) (m : message) : option session :=
  match receive s m with
  | (s, Some _) => None
  | (s, None) =>
      if done_ s then None
      else match next s with
           | (s, Ok _) => if done_ s then None else Some s
           | (s, Err _) => None
           end
  end.

Definition rounds (s : session) (ms : list message) : option session :=
  foldl (λ os m, os ≫= λ s, round s m) (Some s) ms.

Lemma round_work s m s' :
  round s m = Some s' → counters_ok s → counters_ok s' ∧ work_left s' < work_left s.
Proof.
  unfold round. destruct (receive s m) as [s1 [e|]] eqn:E1; [done|].
  destruct (done_ s1) eqn:D1; [done|]. destruct (next s1) as [s2 [m2|e]] eqn:E2; [|done].
  destruct (done_ s2) eqn:D2; [done|]. intros [= <-] C.
  destruct (receive_work _ _ _ E1 C) as (C1 & F1 & H1).
  destruct (next_work _ _ _ E2 C1) as (C2 & F2 & R2 & [[S2 H2]|H2]); (split; [done|]).
  - destruct (is_complete m); [|lia]. destruct H1 as [_ H1]. exfalso. revert D2.
    unfold done_. by rewrite F2, R2, H1, S2.
  - destruct (is_complete m); lia.
Qed.

Lemma rounds_none ms : foldl (λ os m, os ≫= λ s, round s m) None ms = None.
Proof. by induction ms. Qed.

Lemma rounds_work ms s s' :
  rounds s ms = Some s' → counters_ok s →
  counters_ok s' ∧ work_left s' + Z.of_nat (length ms) ≤ work_left s.
Proof.
  revert s. induction ms as [|m ms IH]; intros s H C.
  - injection H as ->. simpl. split; [done | lia].
  - unfold rounds in H. cbn [foldl] in H. change (Some s ≫= _) with (round s m) in H.
    destruct (round s m) as [s1|] eqn:E; [|by rewrite rounds_none in H].
    destruct (round_work _ _ _ E C) as [C1 H1]. destruct (IH s1 H C1) as [C2 H2].
    split; [done|]. simpl length. lia.
Qed.

Lemma next_frame s s' r :
  next s = (s', r) →
  s_cfg s' = s_cfg s ∧ s_peer_add_inputs s' = s_peer_add_inputs s ∧
  s_peer_add_outputs s' = s_peer_add_outputs s.
Proof. unfold next, send_input. intros H. repeat case_match; simplify_eq; done. Qed.

Lemma dispatch_frame s m s' e :
  dispatch s m = (s', e) →
  s_cfg s' = s_cfg s ∧ s_peer_add_inputs s ≤ s_peer_add_inputs s' ∧
  s_peer_add_outputs s ≤ s_peer_add_outputs s' ∧ s_failed s' = s_failed s.
Proof.
  unfold dispatch, receive_input, receive_output, receive_remove.
  intros H. repeat case_match; simplify_eq; cbn; split_and!; done || lia.
Qed.

(** The counters of every session that has not failed are within its limit,
    and the limit is the specification's at most. *)
Lemma reachable_counters s :
  reachable s → cfg_max_peer_add_messages (s_cfg s) ≤ spec_max_add_messages ∧
  0 ≤ s_peer_add_inputs s ∧ 0 ≤ s_peer_add_outputs s ∧
  (s_failed s = None → counters_ok s).
Proof.
  induction 1 as [cfg s H | s s' _ IH H].
  - unfold new_session in H. destruct (ha_witness_weight _); [|done]. destruct (ha_reserve _); [|done].
    destruct (ha_check_peer_input (cfg_hooks cfg)), (ha_check_peer_output (cfg_hooks cfg)),
      (ha_dust_limit (cfg_hooks cfg)); try done.
    apply rbind_Ok in H as ([] & _ & H). apply rbind_Ok in H as ([] & _ & H).
    destruct (negb _) in H; [|done]. injection H as <-. unfold counters_ok. cbn.
    unfold default_max_peer_add_messages, spec_max_add_messages.
    destruct (_ <=? 0) eqn:E1, (_ >? _) eqn:E2; lia.
  - destruct IH as (Hm & Hi & Ho & Hc).
    inversion H as [| | ? ? ? Hsh | | | ? ? ? Hn | ? ? ? ? Hr | ? ? ? Hb]; subst; try by split_and!.
    + revert Hsh. unfold add_shared_input_and_funding. destruct (negb _); [done|].
      intros [= <-]. by split_and!.
    + destruct (next_frame _ _ _ Hn) as (Ec & Ei & Eo). unfold counters_ok in *.
      rewrite Ec, Ei, Eo. split_and!; try done. intros F. apply Hc. by eapply next_failed.
    + destruct (s_failed s) eqn:F.
      { unfold receive in Hr. rewrite F in Hr. injection Hr as <- <-. split_and!; try done. congruence. }
      specialize (Hc eq_refl). destruct e as [e|].
      * revert Hr. unfold receive. rewrite F. destruct (_ || _); [by intros [= <- <-]|].
        destruct (dispatch s msg) as [s1 [e1|]] eqn:E; intros [= <- <-].
        apply dispatch_frame in E as (Ec & Ei & Eo & _). cbn. rewrite Ec. split_and!; [done | lia | lia | done].
      * pose proof (receive_work _ _ _ Hr Hc) as (C1 & _).
        revert Hr. unfold receive. rewrite F. destruct (_ || _); [done|].
        destruct (dispatch s msg) as [s1 [e1|]] eqn:E; intros [= Es].
        apply dispatch_frame in E as (Ec & Ei & Eo & _).
        assert (s_cfg s' = s_cfg s1 ∧ s_peer_add_inputs s' = s_peer_add_inputs s1 ∧
                s_peer_add_outputs s' = s_peer_add_outputs s1) as (-> & -> & ->)
          by (rewrite <-Es; by destruct (negb _)).
        rewrite Ec. split_and!; [done | lia | lia | done].
    + revert Hb. unfold build. destruct (negb _); [by intros [= <- <-]|].
      destruct (build_checks s); intros [= <- <-]; by split_and!.
Qed.

(** A peer cannot keep a session open: whatever messages it sends, the
    session has ended, complete or with an error, after as many rounds as the
    items still allowed, present and queued admit, and the number of items the
    peer may send is the specification's at most. *)
Theorem rounds_bounded s ms :
  reachable s → s_failed s = None → Z.of_nat (length ms) > work_left s →
  rounds s ms = None ∧
  work_left s ≤ 4 * spec_max_add_messages
    + Z.of_nat (size (s_inputs s)) + Z.of_nat (size (s_outputs s))
    + 2 * Z.of_nat (length (s_pending_inputs s)) + 2 * Z.of_nat (length (s_pending_outputs s)).
Proof.
  intros R F Hl. destruct (reachable_counters s R) as (Hm & Hi & Ho & Hc). specialize (Hc F). split.
  - destruct (rounds s ms) as [s'|] eqn:E; [|done].
    destruct (rounds_work _ _ _ E Hc) as [C' H]. pose proof (work_left_nonneg _ C'). lia.
  - unfold work_left. lia.
Qed.
End Spending.

Lemma inputs_spend_once_witness :
  size (s_inputs sample_session) = 2%nat ∧ check_spent_once ∅ (sorted_inputs sample_session) = Ok tt.
Proof. split; [vm_compute; reflexivity | apply (inputs_spend_once sample_session sample_reachable)]. Defined.

(** A fresh session of the node that does not splice, and a peer that only
    ever says that an output should be removed. *)
Lemma rounds_bounded_witness :
  rounds (start (sample_config Acceptor)) (replicate 300 (TxRemoveOutput [] 0)) = None.
Proof.
  apply (rounds_bounded (start (sample_config Acceptor))).
  - eapply reach_new, start_ok.
  - vm_compute; reflexivity.
  - vm_compute; reflexivity.
Defined.

(** ** The order of the signatures *)

Lemma bytes_compare_antisym a b : bytes_compare b a = CompOpp (bytes_compare a b).
Proof.
  revert b. induction a as [|x a IH]; intros [|y b]; try done. cbn [bytes_compare].
  rewrite (Z.compare_antisym (byte.unsigned x) (byte.unsigned y)).
  destruct (byte.unsigned x ?= byte.unsigned y); [apply IH | done | done].
Qed.

Lemma bytes_compare_Eq a b : bytes_compare a b = Eq → a = b.
Proof.
  revert b. induction a as [|x a IH]; intros [|y b]; try done. cbn [bytes_compare].
  destruct (_ ?= _) eqn:E; try done. intros H. f_equal; [|by apply IH].
  apply Z.compare_eq in E. rewrite <-(byte.of_Z_unsigned x), <-(byte.of_Z_unsigned y). by f_equal.
Qed.

Lemma less_first ours theirs x y :
  ours ≠ theirs →
  (if x <? y then true else if x >? y then false
   else bool_decide (bytes_compare ours theirs = Lt)) =
  negb (if y <? x then true else if y >? x then false
        else bool_decide (bytes_compare theirs ours = Lt)).
Proof.
  intros Hne. rewrite !Z.gtb_ltb. destruct (x <? y) eqn:E1, (y <? x) eqn:E2; try done; [lia|].
  rewrite (bytes_compare_antisym ours theirs).
  destruct (bytes_compare ours theirs) eqn:E; [by apply bytes_compare_Eq in E | done | done].
Qed.

(** Of two nodes with different ids that built the same inputs, exactly one
    signs first: the one whose side put less in, and the lower id when both
    put in the same. *)
Theorem one_signs_first ins us ours theirs :
  ours ≠ theirs →
  signs_first ins us ours theirs = negb (signs_first ins (other us) theirs ours).
Proof.
  intros Hne. unfold signs_first. destruct (contributed ins) as [ini acc].
  by destruct us; apply less_first.
Qed.

Lemma one_signs_first_witness :
  signs_first (sorted_inputs sample_session) Acceptor [Byte.x02] [Byte.x03] = true ∧
  signs_first (sorted_inputs sample_session) Acceptor [Byte.x02] [Byte.x03] =
    negb (signs_first (sorted_inputs sample_session) Initiator [Byte.x03] [Byte.x02]).
Proof. split; [vm_compute; reflexivity | by apply (one_signs_first _ Acceptor)]. Defined.

(** ** The peer's witnesses *)

Section Witnesses.
Context `{T : TxPrims}.

(** [i] is an input the peer added, and [k] its index. *)
Lemma elem_of_peer_inputs_from n ins peer k i :
  (k, i) ∈ peer_inputs_from n ins peer ↔
  (n ≤ k)%nat ∧ ins !! (k - n)%nat = Some i ∧ in_shared i = false ∧ added_by (in_serial i) = peer.
Proof.
  revert n. induction ins as [|j ins IH]; intros n; simpl.
  { rewrite elem_of_nil. naive_solver. }
  rewrite elem_of_app, IH.
  assert ((k, i) ∈ (if negb (in_shared j) && bool_decide (added_by (in_serial j) = peer)
                    then [(n, j)] else []) ↔
          k = n ∧ i = j ∧ in_shared i = false ∧ added_by (in_serial i) = peer) as ->.
  { destruct (in_shared j) eqn:E; simpl; [|case_bool_decide as D].
    - rewrite elem_of_nil. split; [done | intros (_ & -> & F & _); congruence].
    - rewrite list_elem_of_singleton. split; [by intros [= -> ->] | by intros (-> & -> & _)].
    - rewrite elem_of_nil. split; [done | by intros (_ & -> & _ & F)]. }
  split.
  - intros [(-> & -> & ? & ?) | (Hk & Hl & ? & ?)].
    + by rewrite Nat.sub_diag.
    + split; [lia|]. by replace (k - n)%nat with (S (k - S n)) by lia.
  - intros (Hk & Hl & ? & ?). destruct (decide (k = n)) as [-> | Hne].
    + rewrite Nat.sub_diag in Hl. injection Hl as ->. by left.
    + right. split; [lia|]. by replace (k - n)%nat with (S (k - S n)) in Hl by lia.
Qed.

Lemma elem_of_peer_inputs ins peer k i :
  (k, i) ∈ peer_inputs ins peer ↔
  ins !! k = Some i ∧ in_shared i = false ∧ added_by (in_serial i) = peer.
Proof. unfold peer_inputs. rewrite elem_of_peer_inputs_from, Nat.sub_0_r. split; [by intros [_ ?] | by split; [lia|]]. Qed.

(** The witness of a final input: a signature whose hash type is the default
    of a key path or one this node has agreed to. *)
Definition hash_type_ok (unified : bool) (h : Z) : Prop :=
  h = sig_hash_all ∨ unified = true ∧ h = shared_input_hash_type.

Definition witness_ok (unified : bool) (scr : bytes) (w : list bytes) : Prop :=
  (∃ sig key, w = [sig; key] ∧ is_p2wpkh scr = true ∧ 0 < Z.of_nat (length sig) ≤ 73 ∧
     length key = 33%nat ∧ hash_type_ok unified (last_byte sig)) ∨
  (∃ sig, w = [sig] ∧ is_p2tr scr = true ∧
     (length sig = 64%nat ∨ length sig = 65%nat ∧ hash_type_ok unified (last_byte sig))).

Lemma check_hash_type_Ok h unified : check_hash_type h unified = Ok tt → hash_type_ok unified h.
Proof.
  unfold check_hash_type, hash_type_ok. destruct (h =? sig_hash_all) eqn:E; [left; lia|].
  destruct unified; [|done]. destruct (h =? shared_input_hash_type) eqn:F; [|done]. right. split; [done | lia].
Qed.

Lemma check_witness_template_Ok scr w unified :
  check_witness_template scr w unified = Ok tt → witness_ok unified scr w.
Proof.
  unfold check_witness_template. intros H.
  destruct (is_p2wpkh scr) eqn:Ep; [left | right; destruct (is_p2tr scr) eqn:Et; [|done]].
  - destruct w as [|sig [|key [|]]]; try done. destruct (negb _) eqn:E in H; [|done].
    apply check_hash_type_Ok in H. rewrite Z.gtb_ltb in E.
    assert (0 < Z.of_nat (length sig) ≤ 73 ∧ length key = 33%nat) as [Hs Hk].
    { destruct (Z.of_nat (length sig) =? 0) eqn:E1, (73 <? Z.of_nat (length sig)) eqn:E2,
        (Z.of_nat (length key) =? 33) eqn:E3; try done. lia. }
    by exists sig, key.
  - destruct w as [|sig [|]]; try done. exists sig. split_and!; try done.
    destruct (Z.of_nat (length sig) =? 64) eqn:E64; [left; lia|].
    destruct (Z.of_nat (length sig) =? 65) eqn:E65; [|done].
    right. split; [lia | by apply check_hash_type_Ok].
Qed.

(** The transaction with the peer's witnesses in their inputs. *)
Definition put_witnesses (tx : msg_tx) (xs : list ((nat * input) * list bytes)) : msg_tx :=
  foldl (λ tx x, set_witness tx x.1.1 x.2) tx xs.

(** Only witnesses change. *)
Lemma put_witnesses_frame tx xs :
  tx_version (put_witnesses tx xs) = tx_version tx ∧ tx_outs (put_witnesses tx xs) = tx_outs tx ∧
  tx_lock_time (put_witnesses tx xs) = tx_lock_time tx ∧
  prev_out <$> tx_ins (put_witnesses tx xs) = prev_out <$> tx_ins tx ∧
  ti_sequence <$> tx_ins (put_witnesses tx xs) = ti_sequence <$> tx_ins tx.
Proof.
  revert tx. induction xs as [|[[k i] w] xs IH]; intros tx; [done|].
  destruct (IH (set_witness tx k w)) as (H1 & H2 & H3 & H4 & H5). unfold put_witnesses in *.
  cbn [foldl fst snd]. rewrite H1, H2, H3, H4, H5. cbn. split_and!; try done.
  - apply list_eq. intros n. rewrite !list_lookup_fmap. destruct (decide (n = k)) as [-> | Hne].
    + rewrite list_lookup_alter_eq. by destruct (tx_ins tx !! k).
    + by rewrite list_lookup_alter_ne.
  - apply list_eq. intros n. rewrite !list_lookup_fmap. destruct (decide (n = k)) as [-> | Hne].
    + rewrite list_lookup_alter_eq. by destruct (tx_ins tx !! k).
    + by rewrite list_lookup_alter_ne.
Qed.

Lemma put_witnesses_other tx xs k :
  k ∉ xs.*1.*1 → tx_ins (put_witnesses tx xs) !! k = tx_ins tx !! k.
Proof.
  revert tx. induction xs as [|[[j i] w] xs IH]; intros tx Hk; [done|].
  unfold put_witnesses in *. cbn [foldl fst snd fmap list_fmap] in *.
  apply not_elem_of_cons in Hk as [Hne Hk]. rewrite IH by done. cbn.
  by rewrite list_lookup_alter_ne.
Qed.

Lemma put_witnesses_at tx xs k i w :
  NoDup xs.*1.*1 → ((k, i), w) ∈ xs → (k < length (tx_ins tx))%nat →
  ti_witness <$> tx_ins (put_witnesses tx xs) !! k = Some w.
Proof.
  revert tx. induction xs as [|[[j i'] w'] xs IH]; intros tx Hd Hx Hk; [by apply elem_of_nil in Hx|].
  cbn [fmap list_fmap fst] in Hd. apply NoDup_cons in Hd as [Hj Hd]. unfold put_witnesses in *. cbn [foldl fst snd].
  apply elem_of_cons in Hx as [[= <- <- <-] | Hx].
  - change (foldl _ _ _) with (put_witnesses (set_witness tx k w) xs).
    rewrite put_witnesses_other by done. cbn. rewrite list_lookup_alter_eq.
    destruct (tx_ins tx !! k) eqn:E; [done|]. apply lookup_ge_None in E. lia.
  - apply IH; [done | done |]. cbn. by rewrite length_alter.
Qed.

Lemma peer_inputs_from_NoDup n ins peer : NoDup (peer_inputs_from n ins peer).*1.
Proof.
  revert n. induction ins as [|j ins IH]; intros n; simpl; [by apply NoDup_nil_2|].
  rewrite fmap_app. apply NoDup_app. split_and!; [|intros k Hk | apply IH].
  - destruct (_ && _); cbn; [apply NoDup_singleton | by apply NoDup_nil_2].
  - destruct (_ && _); cbn in Hk; [|by apply elem_of_nil in Hk].
    apply list_elem_of_singleton in Hk as ->.
    intros ([k i] & -> & H)%list_elem_of_fmap. apply elem_of_peer_inputs_from in H. cbn in *. lia.
Qed.

(** A loop of checks that succeeds has made every one of them. *)
Lemma fold_result_all {E A} (f : unit → A → result E unit) (l : list A) :
  fold_result f l tt = Ok tt → ∀ x, x ∈ l → f tt x = Ok tt.
Proof.
  induction l as [|y l IH]; intros H x Hx; [by apply elem_of_nil in Hx|].
  cbn [fold_result] in H. apply rbind_Ok in H as ([] & Hy & H).
  apply elem_of_cons in Hx as [-> | Hx]; [done | by apply IH].
Qed.

(** C27: If the peer's witnesses are accepted, there is one for every input the
    peer added, and the transaction that carries them - it differs from the
    built one in witnesses only - spends each of those inputs by a P2WPKH
    spend or a taproot key-path spend, with no hash type but the agreed ones,
    which the script engine accepts. *)
Theorem peer_witnesses_checked res peer ws unified :
  check_peer_witnesses res peer ws unified = Ok tt →
  length (tx_ins (res_tx res)) = length (res_inputs res) →
  let tx := put_witnesses (res_tx res) (zip (peer_inputs (res_inputs res) peer) ws) in
  tx_version tx = tx_version (res_tx res) ∧ tx_lock_time tx = tx_lock_time (res_tx res) ∧
  tx_outs tx = tx_outs (res_tx res) ∧
  prev_out <$> tx_ins tx = prev_out <$> tx_ins (res_tx res) ∧
  ti_sequence <$> tx_ins tx = ti_sequence <$> tx_ins (res_tx res) ∧
  ∀ k i, res_inputs res !! k = Some i → in_shared i = false → added_by (in_serial i) = peer →
    ∃ w, w ∈ ws ∧ ti_witness <$> tx_ins tx !! k = Some w ∧ witness_ok unified (in_script i) w ∧
      engine_execute (prev_out_fetcher (res_inputs res)) (in_script i) tx k (in_value i) = true.
Proof.
  intros H Hl tx. destruct (put_witnesses_frame (res_tx res) (zip (peer_inputs (res_inputs res) peer) ws))
    as (H1 & H2 & H3 & H4 & H5). split_and!; try done.
  intros k i Hk Hs Ha. unfold check_peer_witnesses in H.
  destruct (Z.of_nat (length ws) =? _) eqn:E; [|done]. apply Z.eqb_eq in E.
  assert ((k, i) ∈ peer_inputs (res_inputs res) peer) as Hp by by apply elem_of_peer_inputs.
  apply list_elem_of_lookup in Hp as [n Hn].
  destruct (ws !! n) as [w|] eqn:Ew; [|apply lookup_ge_None in Ew; apply lookup_lt_Some in Hn; lia].
  assert (((k, i), w) ∈ zip (peer_inputs (res_inputs res) peer) ws) as Hz.
  { apply list_elem_of_lookup. exists n. by rewrite lookup_zip_with, Hn, Ew. }
  exists w. split; [by eapply list_elem_of_lookup_2|]. split.
  - eapply put_witnesses_at; [|done | rewrite Hl; by eapply lookup_lt_Some].
    rewrite fst_zip by lia. apply peer_inputs_from_NoDup.
  - pose proof (fold_result_all _ _ H _ Hz) as Hw.
    unfold check_peer_witness in Hw. apply rbind_Ok in Hw as ([] & Ht & Hw).
    split; [by apply check_witness_template_Ok|]. subst tx. unfold put_witnesses.
    by destruct (engine_execute _ _ _ _ _).
Qed.
End Witnesses.

(** The node that does not splice checks the witness of the wallet input. *)
Lemma peer_witnesses_checked_witness :
  ∃ res, snd (build sample_session) = Ok res ∧
    let sig := replicate 70 Byte.x30 ++ [Byte.x21] in
    ∃ w, w ∈ [[sig; replicate 33 Byte.x02]] ∧ witness_ok true (wpkh 5) w.
Proof.
  assert (match snd (build sample_session) with
          | Ok r => bool_decide (res_inputs r !! 1%nat = Some (with_in_serial wallet_input 4)) &&
                    (Z.of_nat (length (tx_ins (res_tx r))) =? Z.of_nat (length (res_inputs r))) &&
                    is_ok (check_peer_witnesses r Initiator
                             [[replicate 70 Byte.x30 ++ [Byte.x21]; replicate 33 Byte.x02]] true)
          | Err _ => false
          end = true) as H by (vm_compute; reflexivity).
  destruct (snd (build sample_session)) as [res|e]; [|discriminate H].
  apply andb_prop in H as [[Hi Hl]%andb_prop Hc]. apply bool_decide_eq_true in Hi.
  exists res. split; [reflexivity|]. intros sig.
  destruct (check_peer_witnesses res Initiator _ true) as [[]|] eqn:E; [|discriminate Hc].
  destruct (peer_witnesses_checked res Initiator _ true E) as (_ & _ & _ & _ & _ & H); [lia|].
  destruct (H 1%nat _ Hi) as (w & Hw & _ & Ho & _); [reflexivity | reflexivity |].
  exists w. split; [exact Hw | exact Ho].
Defined.
