(* ===== verification/Payments.v ===== *)
(** * Outgoing payments (payments/db, routing)

    A payment with its attempts and its status (payment.go,
    payment_status.go), the store of payments over a key-value database
    (kv_store.go), the amounts of a route (routing/route/route.go) and the
    decisions of the payment loop (routing/payment_lifecycle.go).

    A bucket of the database is a record with one field per key; a transaction
    that returns an error leaves the database as it was. What is stored is read
    back as it was written: the encodings are not modelled, nor the buckets of
    duplicate payments that old versions wrote. *)

From S2P Require Import Prelude.

Inductive payment_error :=
| ErrAlreadyPaid
| ErrPaymentInFlight
| ErrPaymentExists
| ErrPaymentInternal
| ErrPaymentNotInitiated
| ErrPaymentAlreadySucceeded
| ErrPaymentAlreadyFailed
| ErrAttemptAlreadySettled
| ErrAttemptAlreadyFailed
| ErrValueMismatch
| ErrValueExceedsAmt
| ErrNonMPPayment
| ErrMPPayment
| ErrMPPRecordInBlindedPayment
| ErrBlindedPaymentTotalAmountMismatch
| ErrMixedBlindedAndNonBlindedPayments
| ErrBlindedPaymentMissingTotalAmount
| ErrMPPPaymentAddrMismatch
| ErrMPPTotalAmountMismatch
| ErrPaymentPendingSettled
| ErrPaymentPendingFailed
| ErrSentExceedsTotal
| ErrNoAttemptInfo
| ErrPaymentRequestTooLarge
| ErrNoSequenceNumber
| ErrNoCreationInfo
| ErrNoHtlcsBucket
| ErrAttemptNotRegistered
| ErrNonBucketElement
| PanicNoHops.

#[export] Instance payment_error_eq_decision : EqDecision payment_error.
Proof. solve_decision. Defined.

(** ** Routes (routing/route/route.go) *)

Record mpp := mk_mpp { mpp_payment_addr : bytes; mpp_total_msat : Z }.

(** Of a hop, what the payment's checks look at. *)
Record hop := mk_hop {
  amt_to_forward : Z;
  hop_mpp : option mpp;
  encrypted_data : bytes;
  total_amt_msat : Z }.

Record route := mk_route { rt_total_amount : Z; rt_hops : list hop }.

Definition final_hop (r : route) : option hop := last (rt_hops r).

Definition receiver_amt (r : route) : Z :=
  match final_hop r with None => 0 | Some h => amt_to_forward h end.

Definition total_fees (r : route) : Z :=
  match rt_hops r with [] => 0 | _ => u64 (rt_total_amount r - receiver_amt r) end.

(** ** Payments (payment.go) *)

Inductive failure_reason :=
| FailureReasonTimeout
| FailureReasonNoRoute
| FailureReasonError
| FailureReasonPaymentDetails
| FailureReasonInsufficientBalance
| FailureReasonCanceled.

Inductive htlc_fail_reason :=
| HTLCFailUnknown
| HTLCFailUnreadable
| HTLCFailInternal
| HTLCFailMessage.

Definition max_payment_request_size : Z := 64 * 1024.

Record payment_creation_info := mk_creation_info {
  pi_identifier : bytes;
  pi_value : Z;
  pi_request : bytes }.

Definition check_size (p : payment_creation_info) : result payment_error unit :=
  ensure (negb (max_payment_request_size <? Z.of_nat (length (pi_request p))))
  else ErrPaymentRequestTooLarge;
  Ok tt.

Record htlc_attempt_info := mk_attempt_info {
  ai_attempt_id : Z;
  ai_route : route;
  ai_hash : option bytes }.

Definition htlc_settle_info : Type := bytes.
Definition htlc_fail_info : Type := htlc_fail_reason * Z.

Record htlc_attempt := mk_attempt {
  ha_info : htlc_attempt_info;
  ha_settle : option htlc_settle_info;
  ha_failure : option htlc_fail_info }.

(** *** Status (payment_status.go) *)

Inductive payment_status :=
| StatusInitiated
| StatusInFlight
| StatusSucceeded
| StatusFailed.

#[export] Instance payment_status_eq_decision : EqDecision payment_status.
Proof. solve_decision. Defined.

Definition initializable (ps : payment_status) : result payment_error unit :=
  match ps with
  | StatusInitiated => Err ErrPaymentExists
  | StatusInFlight => Err ErrPaymentInFlight
  | StatusSucceeded => Err ErrAlreadyPaid
  | StatusFailed => Ok tt
  end.

Definition removable (ps : payment_status) : result payment_error unit :=
  match ps with
  | StatusInFlight => Err ErrPaymentInFlight
  | StatusInitiated | StatusSucceeded | StatusFailed => Ok tt
  end.

Definition updatable (ps : payment_status) : result payment_error unit :=
  match ps with
  | StatusInitiated | StatusInFlight => Ok tt
  | StatusSucceeded => Err ErrPaymentAlreadySucceeded
  | StatusFailed => Err ErrPaymentAlreadyFailed
  end.

(** The flags of the loop over the attempts: in flight, settled, failed. *)
Record htlc_flags := mk_flags { fl_inflight : bool; fl_settled : bool; fl_failed : bool }.

Definition add_flags (f : htlc_flags) (h : htlc_attempt) : htlc_flags :=
  match ha_failure h, ha_settle h with
  | Some _, _ => mk_flags (fl_inflight f) (fl_settled f) true
  | None, Some _ => mk_flags (fl_inflight f) true (fl_failed f)
  | None, None => mk_flags true (fl_settled f) (fl_failed f)
  end.

Definition decide_payment_status (htlcs : list htlc_attempt) (reason : option failure_reason) :
    payment_status :=
  let payment_failed := match reason with Some _ => true | None => false end in
  let f := foldl add_flags (mk_flags false false false) htlcs in
  if fl_inflight f then StatusInFlight
  else if fl_settled f then StatusSucceeded
  else if payment_failed then StatusFailed
  else if fl_failed f then StatusInFlight
  else StatusInitiated.

(** *** The payment *)

Record mp_payment_state := mk_state {
  num_attempts_in_flight : Z;
  remaining_amt : Z;
  fees_paid : Z;
  has_settled_htlc : bool;
  payment_failed : bool }.

Record mp_payment := mk_payment {
  mp_sequence_num : Z;
  mp_info : payment_creation_info;
  mp_htlcs : list htlc_attempt;
  mp_failure_reason : option failure_reason;
  mp_status : payment_status;
  mp_state : mp_payment_state }.

Definition terminated (m : mp_payment) : bool := negb (is_ok (updatable (mp_status m))).

(** The first settled attempt, else the failure reason. *)
Fixpoint first_settled (htlcs : list htlc_attempt) : option htlc_attempt :=
  match htlcs with
  | [] => None
  | h :: l => match ha_settle h with Some _ => Some h | None => first_settled l end
  end.
Definition terminal_info_of (htlcs : list htlc_attempt) (reason : option failure_reason) :
    option htlc_attempt * option failure_reason :=
  match first_settled htlcs with Some h => (Some h, None) | None => (None, reason) end.
Definition terminal_info (m : mp_payment) : option htlc_attempt * option failure_reason :=
  terminal_info_of (mp_htlcs m) (mp_failure_reason m).

Definition sent_amt_of (htlcs : list htlc_attempt) : Z * Z :=
  foldl (λ (p : Z * Z) h,
    match ha_failure h with
    | Some _ => p
    | None => (u64 (p.1 + receiver_amt (ai_route (ha_info h))),
               u64 (p.2 + total_fees (ai_route (ha_info h))))
    end) (0, 0) htlcs.
Definition sent_amt (m : mp_payment) : Z * Z := sent_amt_of (mp_htlcs m).

Definition in_flight (h : htlc_attempt) : bool :=
  match ha_settle h, ha_failure h with None, None => true | _, _ => false end.
Definition in_flight_htlcs_of (htlcs : list htlc_attempt) : list htlc_attempt :=
  List.filter in_flight htlcs.
Definition in_flight_htlcs (m : mp_payment) : list htlc_attempt := in_flight_htlcs_of (mp_htlcs m).

Definition get_attempt (m : mp_payment) (id : Z) : option htlc_attempt :=
  List.find (λ h, ai_attempt_id (ha_info h) =? id) (mp_htlcs m).

Definition registrable (m : mp_payment) : result payment_error unit :=
  let* _ := updatable (mp_status m) in
  if negb (bool_decide (mp_status m = StatusInFlight)) then Ok tt
  else
    ensure (negb (has_settled_htlc (mp_state m))) else ErrPaymentPendingSettled;
    ensure (negb (payment_failed (mp_state m))) else ErrPaymentPendingFailed;
    Ok tt.

(** [setState] on the fields that are read from disk. *)
Definition set_state (seq : Z) (info : payment_creation_info) (htlcs : list htlc_attempt)
    (reason : option failure_reason) : result payment_error mp_payment :=
  let '(sent, fees) := sent_amt_of htlcs in
  let total := pi_value info in
  ensure (negb (total <? sent)) else ErrSentExceedsTotal;
  let '(settle, failure) := terminal_info_of htlcs reason in
  let status := decide_payment_status htlcs reason in
  Ok (mk_payment seq info htlcs reason status
    (mk_state (Z.of_nat (length (in_flight_htlcs_of htlcs))) (u64 (total - sent)) fees
      (match settle with Some _ => true | None => false end)
      (match failure with Some _ => true | None => false end))).

Definition need_wait_attempts (m : mp_payment) : result payment_error bool :=
  if negb (remaining_amt (mp_state m) =? 0) then
    match mp_status m with
    | StatusInitiated => Ok false
    | StatusInFlight =>
        if has_settled_htlc (mp_state m) then Ok true
        else if payment_failed (mp_state m) then Ok true
        else Ok false
    | StatusSucceeded => Err ErrPaymentInternal
    | StatusFailed => Ok false
    end
  else
    match mp_status m with
    | StatusInitiated => Err ErrPaymentInternal
    | StatusInFlight => Ok true
    | StatusSucceeded => Ok false
    | StatusFailed => Err ErrPaymentInternal
    end.

Definition allow_more_attempts (m : mp_payment) : result payment_error bool :=
  if remaining_amt (mp_state m) =? 0 then
    if bool_decide (mp_status m = StatusInitiated) then Err ErrPaymentInternal else Ok false
  else if bool_decide (mp_status m = StatusSucceeded) then Err ErrPaymentInternal
  else Ok (is_ok (registrable m)).

(** The comparison with one attempt in flight. *)
Definition verify_against (is_blinded : bool) (f : hop) (hf : hop) : result payment_error unit :=
  let h_blinded := negb (bool_decide (encrypted_data hf = [])) in
  ensure (negb (is_blinded && bool_decide (is_Some (hop_mpp hf)))) else ErrMPPRecordInBlindedPayment;
  ensure (Bool.eqb is_blinded h_blinded) else ErrMixedBlindedAndNonBlindedPayments;
  if is_blinded then
    ensure (total_amt_msat f =? total_amt_msat hf) else ErrBlindedPaymentTotalAmountMismatch;
    Ok tt
  else
    match hop_mpp f, hop_mpp hf with
    | None, Some _ => Err ErrMPPayment
    | Some _, None => Err ErrNonMPPayment
    | None, None => Ok tt
    | Some a, Some b =>
        ensure (bool_decide (mpp_payment_addr a = mpp_payment_addr b)) else ErrMPPPaymentAddrMismatch;
        ensure (mpp_total_msat a =? mpp_total_msat b) else ErrMPPTotalAmountMismatch;
        Ok tt
    end.

(** The final hop of an empty route is nil, and its use panics. *)
Definition get_final_hop (r : route) : result payment_error hop :=
  match final_hop r with Some h => Ok h | None => Err PanicNoHops end.

Definition verify_attempt (payment : mp_payment) (attempt : htlc_attempt_info) :
    result payment_error unit :=
  let* f := get_final_hop (ai_route attempt) in
  let is_blinded := negb (bool_decide (encrypted_data f = [])) in
  ensure (negb (is_blinded && (total_amt_msat f =? 0))) else ErrBlindedPaymentMissingTotalAmount;
  ensure (negb (is_blinded && bool_decide (is_Some (hop_mpp f)))) else ErrMPPRecordInBlindedPayment;
  let* _ := fold_result (λ _ h,
    let* hf := get_final_hop (ai_route (ha_info h)) in
    verify_against is_blinded f hf) (in_flight_htlcs payment) tt in
  let amt := receiver_amt (ai_route attempt) in
  ensure (negb (negb is_blinded && bool_decide (hop_mpp f = None) &&
    negb (amt =? pi_value (mp_info payment)))) else ErrValueMismatch;
  let sent := (sent_amt payment).1 in
  ensure (negb (pi_value (mp_info payment) <? u64 (sent + amt))) else ErrValueExceedsAmt;
  Ok tt.

(** ** The store (kv_store.go) *)

(** The bucket of a payment's attempts: the keys [ai<id>], [si<id>], [fi<id>]. *)
Record htlcs_bucket := mk_htlcs {
  hb_ai : gmap Z htlc_attempt_info;
  hb_si : gmap Z htlc_settle_info;
  hb_fi : gmap Z htlc_fail_info }.
Definition empty_htlcs : htlcs_bucket := mk_htlcs ∅ ∅ ∅.

(** The bucket of a payment: [None] where a key is absent. *)
Record payment_bucket := mk_bucket {
  pb_seq : option Z;
  pb_info : option payment_creation_info;
  pb_htlcs : option htlcs_bucket;
  pb_fail : option failure_reason }.
Definition empty_bucket : payment_bucket := mk_bucket None None None None.

(** The database: the payments by hash, with the sequence of their bucket, and
    the index of sequence numbers; and the store's cached sequence numbers. *)
Record kv_store := mk_store {
  ks_curr_seq : Z;
  ks_stored_seq : Z;
  ks_sequence : Z;
  ks_payments : gmap bytes payment_bucket;
  ks_index : gmap Z bytes }.

Definition new_kv_store : kv_store := mk_store 0 0 0 ∅ ∅.

(** A restart loses the cache. *)
Definition restart_store (p : kv_store) : kv_store :=
  mk_store 0 0 (ks_sequence p) (ks_payments p) (ks_index p).

Definition payment_seq_block_size : Z := 1000.

Definition next_payment_sequence (p : kv_store) : kv_store * Z :=
  let p1 :=
    if ks_curr_seq p =? ks_stored_seq p then
      let curr := ks_sequence p in
      let upper := u64 (curr + payment_seq_block_size) in
      mk_store (if ks_curr_seq p =? 0 then curr else ks_curr_seq p) upper upper
        (ks_payments p) (ks_index p)
    else p in
  let n := u64 (ks_curr_seq p1 + 1) in
  (mk_store n (ks_stored_seq p1) (ks_sequence p1) (ks_payments p1) (ks_index p1), n).

(** Every attempt has its info, or the bucket is refused; then they come in the
    order of their ids. *)
Definition fetch_htlc_attempts (b : htlcs_bucket) : result payment_error (list htlc_attempt) :=
  let ids : gset Z := dom (hb_ai b) ∪ dom (hb_si b) ∪ dom (hb_fi b) in
  ensure (size (dom (hb_ai b)) =? size ids)%nat else ErrNoAttemptInfo;
  Ok (omap (λ aid,
    (λ info, mk_attempt (mk_attempt_info aid (ai_route info) (ai_hash info))
      (hb_si b !! aid) (hb_fi b !! aid)) <$> hb_ai b !! aid)
    (merge_sort Z.le (elements ids))).

Definition fetch_payment_of (b : payment_bucket) : result payment_error mp_payment :=
  match pb_seq b, pb_info b with
  | None, _ => Err ErrNoSequenceNumber
  | Some _, None => Err ErrNoCreationInfo
  | Some seq, Some info =>
      let* htlcs := match pb_htlcs b with
        | Some hb => fetch_htlc_attempts hb
        | None => Ok []
        end in
      set_state seq info htlcs (pb_fail b)
  end.

Definition fetch_payment_status (b : payment_bucket) : result payment_error payment_status :=
  match pb_info b with
  | None => Err ErrPaymentNotInitiated
  | Some _ => let* m := fetch_payment_of b in Ok (mp_status m)
  end.

Definition put_bucket (p : kv_store) (hash : bytes) (b : payment_bucket) : kv_store :=
  mk_store (ks_curr_seq p) (ks_stored_seq p) (ks_sequence p) (<[hash := b]> (ks_payments p))
    (ks_index p).
Definition set_index (p : kv_store) (index : gmap Z bytes) : kv_store :=
  mk_store (ks_curr_seq p) (ks_stored_seq p) (ks_sequence p) (ks_payments p) index.

Definition fetch_payment_bucket (p : kv_store) (hash : bytes) : result payment_error payment_bucket :=
  match ks_payments p !! hash with Some b => Ok b | None => Err ErrPaymentNotInitiated end.

(** The store after a call, and what it returns. *)
Definition init_payment (p : kv_store) (hash : bytes) (info : payment_creation_info) :
    kv_store * result payment_error unit :=
  match check_size info with
  | Err e => (p, Err e)
  | Ok _ =>
      let '(p1, seq) := next_payment_sequence p in
      let b := default empty_bucket (ks_payments p1 !! hash) in
      let write :=
        let index := match pb_seq b with
          | Some old => delete old (ks_index p1)
          | None => ks_index p1
          end in
        set_index (put_bucket p1 hash (mk_bucket (Some seq) (Some info) None None))
          (<[seq := pi_identifier info]> index) in
      match fetch_payment_status b with
      | Ok status =>
          match initializable status with
          | Err e => (p1, Err e)
          | Ok _ => (write, Ok tt)
          end
      | Err ErrPaymentNotInitiated => (write, Ok tt)
      | Err e => (p1, Err e)
      end
  end.

Definition register_attempt (p : kv_store) (hash : bytes) (attempt : htlc_attempt_info) :
    kv_store * result payment_error mp_payment :=
  let r :=
    let* b := fetch_payment_bucket p hash in
    let* payment := fetch_payment_of b in
    let* _ := registrable payment in
    let* _ := verify_attempt payment attempt in
    let hb := default empty_htlcs (pb_htlcs b) in
    let hb' := mk_htlcs (<[ai_attempt_id attempt := attempt]> (hb_ai hb)) (hb_si hb) (hb_fi hb) in
    let b' := mk_bucket (pb_seq b) (pb_info b) (Some hb') (pb_fail b) in
    let* payment' := fetch_payment_of b' in
    Ok (b', payment') in
  match r with
  | Ok (b', payment') => (put_bucket p hash b', Ok payment')
  | Err e => (p, Err e)
  end.

(** The key that [updateHtlcKey] writes. *)
Inductive htlc_key_update :=
| SettleKey (preimage : htlc_settle_info)
| FailKey (info : htlc_fail_info).

Definition put_key (hb : htlcs_bucket) (aid : Z) (v : htlc_key_update) : htlcs_bucket :=
  match v with
  | SettleKey s => mk_htlcs (hb_ai hb) (<[aid := s]> (hb_si hb)) (hb_fi hb)
  | FailKey f => mk_htlcs (hb_ai hb) (hb_si hb) (<[aid := f]> (hb_fi hb))
  end.

Definition update_htlc_key (p : kv_store) (hash : bytes) (aid : Z) (v : htlc_key_update) :
    kv_store * result payment_error mp_payment :=
  let r :=
    let* b := fetch_payment_bucket p hash in
    let* payment := fetch_payment_of b in
    let* _ := updatable (mp_status payment) in
    let* hb := match pb_htlcs b with Some hb => Ok hb | None => Err ErrNoHtlcsBucket end in
    ensure (bool_decide (is_Some (hb_ai hb !! aid))) else ErrAttemptNotRegistered;
    ensure (bool_decide (hb_fi hb !! aid = None)) else ErrAttemptAlreadyFailed;
    ensure (bool_decide (hb_si hb !! aid = None)) else ErrAttemptAlreadySettled;
    let b' := mk_bucket (pb_seq b) (pb_info b) (Some (put_key hb aid v)) (pb_fail b) in
    let* payment' := fetch_payment_of b' in
    Ok (b', payment') in
  match r with
  | Ok (b', payment') => (put_bucket p hash b', Ok payment')
  | Err e => (p, Err e)
  end.

Definition settle_attempt (p : kv_store) (hash : bytes) (aid : Z) (s : htlc_settle_info) :
    kv_store * result payment_error mp_payment := update_htlc_key p hash aid (SettleKey s).
Definition fail_attempt (p : kv_store) (hash : bytes) (aid : Z) (f : htlc_fail_info) :
    kv_store * result payment_error mp_payment := update_htlc_key p hash aid (FailKey f).

Definition fail_payment (p : kv_store) (hash : bytes) (reason : failure_reason) :
    kv_store * result payment_error mp_payment :=
  let r :=
    let* b := fetch_payment_bucket p hash in
    let* _ := fetch_payment_status b in
    let b' := mk_bucket (pb_seq b) (pb_info b) (pb_htlcs b) (Some reason) in
    let* payment := fetch_payment_of b' in
    Ok (b', payment) in
  match r with
  | Ok (b', payment) => (put_bucket p hash b', Ok payment)
  | Err e => (p, Err e)
  end.

Definition fetch_payment (p : kv_store) (hash : bytes) : result payment_error mp_payment :=
  let* b := fetch_payment_bucket p hash in fetch_payment_of b.

Definition fetch_in_flight_payments (p : kv_store) : result payment_error (list mp_payment) :=
  fold_result (λ acc (kb : bytes * payment_bucket),
    let* m := fetch_payment_of kb.2 in
    Ok (if terminated m then acc else acc ++ [m])) (map_to_list (ks_payments p)) [].

Definition fetch_failed_htlc_keys (b : payment_bucket) : result payment_error (list Z) :=
  let* htlcs := match pb_htlcs b with Some hb => fetch_htlc_attempts hb | None => Ok [] end in
  Ok (omap (λ h, match ha_failure h with Some _ => Some (ai_attempt_id (ha_info h)) | None => None end)
    htlcs).

Definition delete_htlc_keys (b : payment_bucket) (ids : list Z) : payment_bucket :=
  mk_bucket (pb_seq b) (pb_info b)
    ((λ hb, foldl (λ hb aid, mk_htlcs (delete aid (hb_ai hb)) (delete aid (hb_si hb))
      (delete aid (hb_fi hb))) hb ids) <$> pb_htlcs b) (pb_fail b).

Definition fetch_sequence_numbers (b : payment_bucket) : result payment_error (list Z) :=
  match pb_seq b with Some s => Ok [s] | None => Err ErrNoSequenceNumber end.

Definition delete_payment_bucket (p : kv_store) (hash : bytes) : kv_store :=
  mk_store (ks_curr_seq p) (ks_stored_seq p) (ks_sequence p) (delete hash (ks_payments p)) (ks_index p).
Definition delete_indexes (p : kv_store) (seqs : list Z) : kv_store :=
  set_index p (foldl (λ m s, delete s m) (ks_index p) seqs).

Definition delete_payment (p : kv_store) (hash : bytes) (failed_htlcs_only : bool) :
    kv_store * result payment_error unit :=
  let r :=
    let* b := match ks_payments p !! hash with Some b => Ok b | None => Err ErrNonBucketElement end in
    let* status := fetch_payment_status b in
    let* _ := removable status in
    if failed_htlcs_only then
      let* ids := fetch_failed_htlc_keys b in
      Ok (put_bucket p hash (delete_htlc_keys b ids))
    else
      let* seqs := fetch_sequence_numbers b in
      Ok (delete_indexes (delete_payment_bucket p hash) seqs) in
  match r with
  | Ok p' => (p', Ok tt)
  | Err e => (p, Err e)
  end.

Definition delete_failed_attempts (p : kv_store) (hash : bytes) : kv_store * result payment_error unit :=
  delete_payment p hash true.

(** What a pass over the payments collects for deletion. *)
Record deletions := mk_deletions {
  del_buckets : list bytes;
  del_indexes : list Z;
  del_htlcs : list (bytes * list Z);
  del_num : Z }.

Definition collect_deletions (failed_only failed_htlcs_only : bool) (d : deletions)
    (kb : bytes * payment_bucket) : result payment_error deletions :=
  let* status := fetch_payment_status kb.2 in
  if negb (is_ok (removable status)) then Ok d
  else if failed_only && negb (bool_decide (status = StatusFailed)) then Ok d
  else if failed_htlcs_only then
    let* ids := fetch_failed_htlc_keys kb.2 in
    Ok (mk_deletions (del_buckets d) (del_indexes d) (del_htlcs d ++ [(kb.1, ids)]) (del_num d))
  else
    let* seqs := fetch_sequence_numbers kb.2 in
    Ok (mk_deletions (del_buckets d ++ [kb.1]) (del_indexes d ++ seqs) (del_htlcs d) (del_num d + 1)).

Definition delete_htlcs_of (p : kv_store) (kb : bytes * list Z) : kv_store :=
  match ks_payments p !! kb.1 with
  | Some b => put_bucket p kb.1 (delete_htlc_keys b kb.2)
  | None => p
  end.

Definition delete_payments (p : kv_store) (failed_only failed_htlcs_only : bool) :
    kv_store * result payment_error Z :=
  match fold_result (collect_deletions failed_only failed_htlcs_only)
          (map_to_list (ks_payments p)) (mk_deletions [] [] [] 0) with
  | Err e => (p, Err e)
  | Ok d =>
      let p1 := foldl delete_htlcs_of p (del_htlcs d) in
      let p2 := foldl delete_payment_bucket p1 (del_buckets d) in
      (delete_indexes p2 (del_indexes d), Ok (del_num d))
  end.

(** ** The payment loop (routing/payment_lifecycle.go) *)

Inductive state_step := StepSkip | StepProceed | StepExit.

#[export] Instance state_step_eq_decision : EqDecision state_step.
Proof. solve_decision. Defined.

Definition calc_fee_budget (fee_limit fees_paid_ : Z) : Z :=
  if fees_paid_ <=? fee_limit then fee_limit - fees_paid_ else 0.

(** [StepSkip]: the loop waits for the result of an attempt, which is handled
    elsewhere, and goes round again. *)
Definition decide_next_step (m : mp_payment) : result payment_error state_step :=
  let* allow := allow_more_attempts m in
  if allow then Ok StepProceed
  else
    let* wait := need_wait_attempts m in
    if negb wait then Ok StepExit else Ok StepSkip.

(** What the loop returns when it exits: the preimage and route of a settled
    attempt, else the failure reason; [None] is the panic of a nil reason. *)
Definition lifecycle_result (m : mp_payment) : option (htlc_attempt + failure_reason) :=
  match terminal_info m with
  | (Some h, _) => Some (inl h)
  | (None, Some r) => Some (inr r)
  | (None, None) => None
  end.
