(* ===== verification/PaymentsProps.v ===== *)
(** * Theorems of outgoing payments

    Runs of the store: any sequence of its operations, with attempts whose ids
    are new, as the id "is the unique ID used for this attempt", and amounts
    below 2^63 millisatoshi, four times the money there is. *)

From S2P Require Import Prelude Payments.

(** ** The attempts of a bucket *)

Definition sane_amount (x : Z) : Prop := 0 ≤ x < 2 ^ 63.

Definition attempt_amt (hb : htlcs_bucket) (id : Z) (a : htlc_attempt_info) : Z :=
  match hb_fi hb !! id with Some _ => 0 | None => receiver_amt (ai_route a) end.

(** What was sent and has not come back. *)
Definition sent_of (hb : htlcs_bucket) : Z := msum (attempt_amt hb) (hb_ai hb).

Record htlcs_ok (info : payment_creation_info) (hb : htlcs_bucket) : Prop := {
  ho_si : dom (hb_si hb) ⊆ dom (hb_ai hb);
  ho_fi : dom (hb_fi hb) ⊆ dom (hb_ai hb);
  ho_once id : hb_si hb !! id = None ∨ hb_fi hb !! id = None;
  ho_amt id a : hb_ai hb !! id = Some a → sane_amount (receiver_amt (ai_route a));
  ho_sent : sent_of hb ≤ pi_value info }.

Definition bucket_htlcs (b : payment_bucket) : htlcs_bucket := default empty_htlcs (pb_htlcs b).

Record bucket_ok (b : payment_bucket) (info : payment_creation_info) : Prop := {
  bo_seq : is_Some (pb_seq b);
  bo_info : pb_info b = Some info;
  bo_value : sane_amount (pi_value info);
  bo_htlcs : htlcs_ok info (bucket_htlcs b) }.

Definition store_ok (p : kv_store) : Prop :=
  map_Forall (λ _ b, ∃ info, bucket_ok b info) (ks_payments p).

(** The attempts as they are fetched. *)
Definition attempt_at (hb : htlcs_bucket) (id : Z) (a : htlc_attempt_info) : htlc_attempt :=
  mk_attempt (mk_attempt_info id (ai_route a) (ai_hash a)) (hb_si hb !! id) (hb_fi hb !! id).

Lemma omap_lookup_list {A} (m : gmap Z A) {B} (f : Z → A → B) :
  omap (λ k, f k <$> m !! k) (elements (dom m)) ≡ₚ map (uncurry f) (map_to_list m).
Proof.
  induction m as [|k x m Hk IH] using map_ind.
  { by rewrite dom_empty_L, elements_empty, map_to_list_empty. }
  rewrite dom_insert_L, map_to_list_insert by done.
  rewrite elements_union_singleton by (by apply not_elem_of_dom). simpl.
  rewrite lookup_insert_eq. simpl. rewrite <-IH. f_equiv.
  apply reflexive_eq, list_omap_ext. apply Forall2_same_length_lookup_2; [done|].
  intros i a b Ha Hb. simplify_eq. f_equiv.
  assert (a ∈ dom m) as Ham by (apply elem_of_elements; by eapply list_elem_of_lookup_2).
  rewrite lookup_insert_ne; [done|]. intros ->. apply elem_of_dom in Ham as [? Ha']. congruence.
Qed.

Lemma fetch_htlc_attempts_ok info hb :
  htlcs_ok info hb →
  ∃ l, fetch_htlc_attempts hb = Ok l ∧ l ≡ₚ map (uncurry (attempt_at hb)) (map_to_list (hb_ai hb)).
Proof.
  intros [Hsi Hfi _ _ _]. unfold fetch_htlc_attempts.
  replace (dom (hb_ai hb) ∪ dom (hb_si hb) ∪ dom (hb_fi hb) : gset Z) with (dom (hb_ai hb)) by set_solver.
  rewrite Nat.eqb_refl. eexists. split; [done|].
  rewrite (merge_sort_Permutation Z.le). apply (omap_lookup_list (hb_ai hb) (attempt_at hb)).
Qed.

Lemma elem_of_attempts hb h :
  h ∈ map (uncurry (attempt_at hb)) (map_to_list (hb_ai hb)) ↔
  ∃ id a, hb_ai hb !! id = Some a ∧ h = attempt_at hb id a.
Proof.
  rewrite list_elem_of_fmap. split.
  - intros ([id a] & -> & Hx). apply elem_of_map_to_list in Hx. by exists id, a.
  - intros (id & a & Ha & ->). exists (id, a). by rewrite elem_of_map_to_list.
Qed.

(** *** The loops over the attempts *)

Definition failed_htlc (h : htlc_attempt) : bool :=
  match ha_failure h with Some _ => true | None => false end.
Definition settled_htlc (h : htlc_attempt) : bool :=
  match ha_failure h, ha_settle h with None, Some _ => true | _, _ => false end.

Lemma add_flags_spec l f :
  foldl add_flags f l =
  mk_flags (fl_inflight f || existsb in_flight l) (fl_settled f || existsb settled_htlc l)
    (fl_failed f || existsb failed_htlc l).
Proof.
  revert f. induction l as [|h l IH]; intros [i s e]; simpl; [by rewrite !orb_false_r|].
  rewrite IH. unfold add_flags, in_flight, settled_htlc, failed_htlc. simpl.
  destruct (ha_failure h), (ha_settle h); simpl; by rewrite ?orb_true_r, ?orb_true_l.
Qed.

Lemma sent_amt_fold l :
  (sent_amt_of l).1 =
  foldl (λ a h, if negb (failed_htlc h) then u64 (a + receiver_amt (ai_route (ha_info h))) else a) 0 l.
Proof.
  cut (∀ p, (foldl (λ (p : Z * Z) h, match ha_failure h with
      | Some _ => p
      | None => (u64 (p.1 + receiver_amt (ai_route (ha_info h))),
                 u64 (p.2 + total_fees (ai_route (ha_info h))))
      end) p l).1 =
    foldl (λ a h, if negb (failed_htlc h) then u64 (a + receiver_amt (ai_route (ha_info h))) else a) p.1 l).
  { intros H. apply H. }
  induction l as [|h l IH]; intros p; simpl; [done|]. rewrite IH. f_equal.
  unfold failed_htlc. by destruct (ha_failure h).
Qed.

Lemma first_settled_spec l :
  match first_settled l with
  | Some h => h ∈ l ∧ is_Some (ha_settle h)
  | None => ∀ h, h ∈ l → ha_settle h = None
  end.
Proof.
  induction l as [|h l IH]; simpl; [intros h Hh; by apply elem_of_nil in Hh|].
  destruct (ha_settle h) as [s|] eqn:Hs; [split; [left | by rewrite Hs]|].
  destruct (first_settled l) as [h'|].
  - destruct IH as [Hl Hsl]. split; [by right | done].
  - intros h' [->|Hh]%elem_of_cons; auto.
Qed.

Lemma existsb_perm {A} (f : A → bool) l k : l ≡ₚ k → existsb f l = existsb f k.
Proof.
  induction 1 as [|x l k _ IH|x y l|l k m _ IH1 _ IH2]; simpl; [done|by rewrite IH| |congruence].
  destruct (f x), (f y); done.
Qed.

(** ** A payment as it is fetched *)

Definition is_in_flight (hb : htlcs_bucket) (id : Z) : Prop :=
  is_Some (hb_ai hb !! id) ∧ hb_si hb !! id = None ∧ hb_fi hb !! id = None.

(** The status in terms of the bucket. *)
Definition status_spec (b : payment_bucket) (st : payment_status) : Prop :=
  let hb := bucket_htlcs b in
  match st with
  | StatusInFlight => (∃ id, is_in_flight hb id) ∨
      (hb_ai hb ≠ ∅ ∧ hb_si hb = ∅ ∧ pb_fail b = None)
  | StatusSucceeded => (∀ id, ¬ is_in_flight hb id) ∧ hb_si hb ≠ ∅
  | StatusFailed => (∀ id, ¬ is_in_flight hb id) ∧ hb_si hb = ∅ ∧ is_Some (pb_fail b)
  | StatusInitiated => hb_ai hb = ∅ ∧ pb_fail b = None
  end.

Record fetched (b : payment_bucket) (info : payment_creation_info) (m : mp_payment) : Prop := {
  fe_info : mp_info m = info;
  fe_reason : mp_failure_reason m = pb_fail b;
  fe_htlcs h : h ∈ mp_htlcs m ↔ ∃ id a, hb_ai (bucket_htlcs b) !! id = Some a ∧
    h = attempt_at (bucket_htlcs b) id a;
  fe_sent : (sent_amt m).1 = sent_of (bucket_htlcs b);
  fe_remaining : remaining_amt (mp_state m) = pi_value info - sent_of (bucket_htlcs b);
  fe_num : 0 ≤ num_attempts_in_flight (mp_state m) ∧
    (0 < num_attempts_in_flight (mp_state m) ↔ ∃ id, is_in_flight (bucket_htlcs b) id);
  fe_settled : has_settled_htlc (mp_state m) = true ↔ hb_si (bucket_htlcs b) ≠ ∅;
  fe_failed : payment_failed (mp_state m) = true ↔ hb_si (bucket_htlcs b) = ∅ ∧ is_Some (pb_fail b);
  fe_status : status_spec b (mp_status m) }.

Lemma sent_of_nonneg info hb : htlcs_ok info hb → 0 ≤ sent_of hb.
Proof.
  intros H. apply msum_nonneg. intros id a Ha. unfold attempt_amt. pose proof (ho_amt _ _ H id a Ha) as Hs.
  unfold sane_amount in Hs. case_match; lia.
Qed.

Lemma sent_amt_attempts info hb l :
  htlcs_ok info hb → pi_value info < 2 ^ 64 →
  l ≡ₚ map (uncurry (attempt_at hb)) (map_to_list (hb_ai hb)) →
  (sent_amt_of l).1 = sent_of hb.
Proof.
  intros H Hv Hl. rewrite sent_amt_fold.
  assert (zsum (map (λ h, receiver_amt (ai_route (ha_info h)))
    (List.filter (λ h, negb (failed_htlc h)) l)) = sent_of hb) as Hsum.
  { rewrite zsum_filter, Hl, map_map. unfold sent_of, msum. f_equal.
    apply map_ext. intros [id a]. unfold attempt_amt, attempt_at, failed_htlc. simpl.
    by destruct (hb_fi hb !! id). }
  rewrite fold_u64_sum; [lia| |lia|].
  - apply Forall_forall. intros h Hh _. rewrite Hl in Hh. apply elem_of_attempts in Hh as (id & a & Ha & ->).
    apply (ho_amt _ _ H id a Ha).
  - rewrite Hsum. pose proof (ho_sent _ _ H). lia.
Qed.

Section Fetch.
Context (info : payment_creation_info) (hb : htlcs_bucket) (l : list htlc_attempt).
Context (H : htlcs_ok info hb).
Context (Hl : l ≡ₚ map (uncurry (attempt_at hb)) (map_to_list (hb_ai hb))).

Lemma elem_of_fetched h : h ∈ l ↔ ∃ id a, hb_ai hb !! id = Some a ∧ h = attempt_at hb id a.
Proof. rewrite Hl. apply elem_of_attempts. Qed.

Lemma exists_attempt (f : htlc_attempt → bool) :
  existsb f l = true ↔ ∃ id a, hb_ai hb !! id = Some a ∧ f (attempt_at hb id a) = true.
Proof.
  rewrite existsb_exists. split.
  - intros (h & Hh%list_elem_of_In%elem_of_fetched & Hf). destruct Hh as (id & a & Ha & ->). eauto.
  - intros (id & a & Ha & Hf). exists (attempt_at hb id a). split; [|done].
    apply list_elem_of_In, elem_of_fetched. eauto.
Qed.

Lemma exists_in_flight : existsb in_flight l = true ↔ ∃ id, is_in_flight hb id.
Proof.
  rewrite exists_attempt. unfold is_in_flight, in_flight, attempt_at. simpl. split.
  - intros (id & a & Ha & Hf). exists id. rewrite Ha. repeat case_match; done.
  - intros (id & [a Ha] & Hs & Hf). exists id, a. by rewrite Hs, Hf.
Qed.

Lemma exists_settled : existsb settled_htlc l = true ↔ hb_si hb ≠ ∅.
Proof.
  rewrite exists_attempt. unfold settled_htlc, attempt_at. simpl. split.
  - intros (id & a & Ha & Hf) He. rewrite He, lookup_empty in Hf. by destruct (hb_fi hb !! id).
  - intros (id & s & Hs)%map_choose. pose proof (ho_si _ _ H) as Hsi.
    assert (is_Some (hb_ai hb !! id)) as [a Ha].
    { apply elem_of_dom, Hsi, elem_of_dom. by exists s. }
    exists id, a. destruct (ho_once _ _ H id) as [|Hf]; [congruence|]. by rewrite Hf, Hs.
Qed.

Lemma exists_failed : existsb failed_htlc l = true ↔ hb_fi hb ≠ ∅.
Proof.
  rewrite exists_attempt. unfold failed_htlc, attempt_at. simpl. split.
  - intros (id & a & Ha & Hf) He. by rewrite He, lookup_empty in Hf.
  - intros (id & f & Hf)%map_choose. pose proof (ho_fi _ _ H) as Hfi.
    assert (is_Some (hb_ai hb !! id)) as [a Ha].
    { apply elem_of_dom, Hfi, elem_of_dom. by exists f. }
    exists id, a. by rewrite Hf.
Qed.

Lemma first_settled_fetched :
  match first_settled l with Some _ => hb_si hb ≠ ∅ | None => hb_si hb = ∅ end.
Proof.
  pose proof (first_settled_spec l) as Hs. destruct (first_settled l) as [h|].
  - destruct Hs as [Hh [s Hs]]. apply elem_of_fetched in Hh as (id & a & Ha & ->). simpl in Hs.
    intros He. by rewrite He, lookup_empty in Hs.
  - apply map_empty. intros id. destruct (hb_si hb !! id) as [s|] eqn:E; [|done].
    assert (is_Some (hb_ai hb !! id)) as [a Ha].
    { apply elem_of_dom, (ho_si _ _ H), elem_of_dom. by exists s. }
    specialize (Hs (attempt_at hb id a)). simpl in Hs. rewrite <-E. apply Hs, elem_of_fetched. eauto.
Qed.

(** An attempt that is not settled nor in flight has failed. *)
Lemma no_outcome_empty :
  (∀ id, ¬ is_in_flight hb id) → hb_si hb = ∅ → hb_fi hb = ∅ → hb_ai hb = ∅.
Proof.
  intros Hn Hs Hf. apply map_empty. intros id. destruct (hb_ai hb !! id) as [a|] eqn:Ha; [|done].
  exfalso. apply (Hn id). unfold is_in_flight. rewrite Ha, Hs, Hf, !lookup_empty. eauto.
Qed.

Lemma decide_status_spec b :
  bucket_htlcs b = hb → status_spec b (decide_payment_status l (pb_fail b)).
Proof.
  intros Hb. unfold decide_payment_status. rewrite add_flags_spec. simpl. unfold status_spec. rewrite Hb.
  pose proof exists_in_flight as Hi. pose proof exists_settled as Hs. pose proof exists_failed as Hf.
  destruct (existsb in_flight l); [left; by apply Hi|].
  assert (∀ id, ¬ is_in_flight hb id) as Hni.
  { intros id Hid. assert (false = true) by (apply Hi; by exists id). done. }
  destruct (existsb settled_htlc l); [split; [done|]; by apply Hs|].
  assert (hb_si hb = ∅) as Hsi.
  { destruct (decide (hb_si hb = ∅)); [done|]. by apply Hs in n. }
  destruct (pb_fail b) as [r|]; [by split; [|split]|].
  destruct (existsb failed_htlc l).
  - right. split; [|done]. intros He. assert (hb_fi hb ≠ ∅) as Hn by by apply Hf.
    apply Hn, map_empty. intros id. destruct (hb_fi hb !! id) as [f|] eqn:E; [|done].
    assert (id ∈ dom (hb_ai hb)) as Hd by (apply (ho_fi _ _ H), elem_of_dom; by exists f).
    rewrite He in Hd. set_solver.
  - split; [|done]. apply no_outcome_empty; [done..|].
    destruct (decide (hb_fi hb = ∅)); [done|]. by apply Hf in n.
Qed.
End Fetch.

Lemma fetch_htlcs_ok b info :
  bucket_ok b info →
  ∃ l, match pb_htlcs b with Some hb => fetch_htlc_attempts hb | None => Ok [] end = Ok l ∧
    l ≡ₚ map (uncurry (attempt_at (bucket_htlcs b))) (map_to_list (hb_ai (bucket_htlcs b))).
Proof.
  intros [_ _ _ H]. unfold bucket_htlcs in *. destruct (pb_htlcs b) as [hb|]; simpl in *.
  - by apply (fetch_htlc_attempts_ok info).
  - exists []. split; [done|]. by rewrite map_to_list_empty.
Qed.

Lemma fetch_payment_ok b info :
  bucket_ok b info → ∃ m, fetch_payment_of b = Ok m ∧ fetched b info m.
Proof.
  intros Hb. pose proof Hb as [[seq Hseq] Hinfo Hval H]. unfold fetch_payment_of. rewrite Hseq, Hinfo.
  destruct (fetch_htlcs_ok b info Hb) as (l & -> & Hl). simpl.
  pose proof (sent_amt_attempts info _ l H ltac:(unfold sane_amount in Hval; lia) Hl) as Hsent.
  pose proof (ho_sent _ _ H) as Hle. pose proof (sent_of_nonneg _ _ H) as H0.
  unfold set_state. destruct (sent_amt_of l) as [sent fees] eqn:Es. simpl in Hsent. subst sent.
  rewrite (proj2 (Z.ltb_ge _ _)) by lia. simpl.
  pose proof (first_settled_fetched info _ l H Hl) as Hfs. unfold terminal_info_of.
  pose proof (decide_status_spec info _ l H Hl b eq_refl) as Hst.
  assert (∀ x : list htlc_attempt, 0 < Z.of_nat (length (in_flight_htlcs_of x)) ↔ existsb in_flight x = true) as Hnum.
  { intros x. unfold in_flight_htlcs_of. induction x as [|h x IH]; simpl; [done|].
    destruct (in_flight h); simpl; [|done]. split; [done | lia]. }
  unfold sane_amount in Hval.
  destruct (first_settled l) as [h|]; (eexists; split; [reflexivity|]; split; simpl;
    [done | done | by apply (elem_of_fetched _ l Hl) | unfold sent_amt; simpl; by rewrite Es | by rewrite u64_small by in_range
    |split; [lia|]; rewrite Hnum; by apply exists_in_flight | | |done]).
  - done.
  - split; [done|]. by intros [? _].
  - done.
  - destruct (pb_fail b) as [r|]; simpl; [by split|]. split; [done|]. by intros [_ ?%is_Some_None].
Qed.

(** ** Runs of the store *)

Inductive payment_op :=
| OpInit (hash : bytes) (info : payment_creation_info)
| OpRegister (hash : bytes) (attempt : htlc_attempt_info)
| OpSettle (hash : bytes) (id : Z) (preimage : htlc_settle_info)
| OpFail (hash : bytes) (id : Z) (info : htlc_fail_info)
| OpFailPayment (hash : bytes) (reason : failure_reason)
| OpDelete (hash : bytes) (failed_htlcs_only : bool)
| OpDeleteMany (failed_only failed_htlcs_only : bool)
| OpRestart.

Definition run_op (p : kv_store) (op : payment_op) : kv_store :=
  match op with
  | OpInit h info => (init_payment p h info).1
  | OpRegister h a => (register_attempt p h a).1
  | OpSettle h id s => (settle_attempt p h id s).1
  | OpFail h id f => (fail_attempt p h id f).1
  | OpFailPayment h r => (fail_payment p h r).1
  | OpDelete h fo => (delete_payment p h fo).1
  | OpDeleteMany fo fho => (delete_payments p fo fho).1
  | OpRestart => restart_store p
  end.

(** The attempts of a payment, for a hash that has none. *)
Definition htlcs_at (p : kv_store) (hash : bytes) : htlcs_bucket :=
  match ks_payments p !! hash with Some b => bucket_htlcs b | None => empty_htlcs end.

(** What a caller provides: sane amounts, and an id that is new. *)
Definition op_ok (p : kv_store) (op : payment_op) : Prop :=
  match op with
  | OpInit h info => sane_amount (pi_value info)
  | OpRegister h a => sane_amount (receiver_amt (ai_route a)) ∧ hb_ai (htlcs_at p h) !! ai_attempt_id a = None
  | _ => True
  end.

Inductive runs : kv_store → list payment_op → kv_store → Prop :=
| runs_nil p : runs p [] p
| runs_cons p op ops p' : op_ok p op → runs (run_op p op) ops p' → runs p (op :: ops) p'.

(** ** What an operation does to a bucket *)

Inductive bucket_step (op : payment_op) (h : bytes) : option payment_bucket → option payment_bucket → Prop :=
| bs_same b : bucket_step op h b b
| bs_init old info seq :
    op = OpInit h info → (∀ b, old = Some b → status_spec b StatusFailed) →
    bucket_step op h old (Some (mk_bucket (Some seq) (Some info) None None))
| bs_register b a m :
    op = OpRegister h a → fetch_payment_of b = Ok m → registrable m = Ok tt → verify_attempt m a = Ok tt →
    bucket_step op h (Some b) (Some (mk_bucket (pb_seq b) (pb_info b)
      (Some (mk_htlcs (<[ai_attempt_id a := a]> (hb_ai (bucket_htlcs b))) (hb_si (bucket_htlcs b))
        (hb_fi (bucket_htlcs b)))) (pb_fail b)))
| bs_key b id v :
    op = match v with SettleKey s => OpSettle h id s | FailKey f => OpFail h id f end →
    is_in_flight (bucket_htlcs b) id →
    bucket_step op h (Some b)
      (Some (mk_bucket (pb_seq b) (pb_info b) (Some (put_key (bucket_htlcs b) id v)) (pb_fail b)))
| bs_fail b r :
    op = OpFailPayment h r →
    bucket_step op h (Some b) (Some (mk_bucket (pb_seq b) (pb_info b) (pb_htlcs b) (Some r)))
| bs_delete_failed b ids :
    (∀ id, id ∈ ids → is_Some (hb_fi (bucket_htlcs b) !! id)) →
    bucket_step op h (Some b) (Some (delete_htlc_keys b ids))
| bs_delete b st :
    op = OpDelete h false ∨ (∃ fo, op = OpDeleteMany fo false) →
    status_spec b st → st ≠ StatusInFlight →
    bucket_step op h (Some b) None.

Lemma fetch_status_ok b info :
  bucket_ok b info → ∃ st, fetch_payment_status b = Ok st ∧ status_spec b st.
Proof.
  intros Hb. unfold fetch_payment_status. rewrite (bo_info _ _ Hb).
  destruct (fetch_payment_ok b info Hb) as (m & -> & Hm). simpl. eexists. split; [done|].
  apply (fe_status _ _ _ Hm).
Qed.

Lemma next_sequence_payments p : ks_payments (next_payment_sequence p).1 = ks_payments p.
Proof. unfold next_payment_sequence. by destruct (_ =? _). Qed.

Lemma init_step p h info k :
  store_ok p → bucket_step (OpInit h info) k (ks_payments p !! k) (ks_payments (init_payment p h info).1 !! k).
Proof.
  intros Hp. unfold init_payment. destruct (check_size info); [|constructor].
  pose proof (next_sequence_payments p) as Hn. destruct (next_payment_sequence p) as [p1 seq]. simpl in Hn.
  rewrite Hn.
  assert (∀ index, (∀ b, ks_payments p !! h = Some b → status_spec b StatusFailed) →
    bucket_step (OpInit h info) k (ks_payments p !! k)
      (ks_payments (set_index (put_bucket p1 h (mk_bucket (Some seq) (Some info) None None)) index) !! k))
    as Hwrite.
  { intros index Hst. simpl. rewrite Hn. destruct (decide (k = h)) as [->|].
    - rewrite lookup_insert_eq. by eapply bs_init.
    - rewrite lookup_insert_ne by done. constructor. }
  destruct (ks_payments p !! h) as [b|] eqn:Hb; simpl.
  - destruct (Hp h b Hb) as [info0 Hok]. destruct (fetch_status_ok b info0 Hok) as (st & -> & Hst).
    destruct st; simpl; try (rewrite Hn; constructor).
    apply (Hwrite ∅). by intros b' [= <-].
  - by apply (Hwrite ∅).
Qed.

Lemma register_step p h a k :
  bucket_step (OpRegister h a) k (ks_payments p !! k) (ks_payments (register_attempt p h a).1 !! k).
Proof.
  unfold register_attempt, fetch_payment_bucket.
  destruct (ks_payments p !! h) as [b|] eqn:Hb; simpl; [|constructor].
  destruct (fetch_payment_of b) as [m|] eqn:Hm; simpl; [|constructor].
  destruct (registrable m) as [[]|] eqn:Hr; simpl; [|constructor].
  destruct (verify_attempt m a) as [[]|] eqn:Hv; simpl; [|constructor].
  destruct (fetch_payment_of (mk_bucket _ _ _ _)) as [m'|]; simpl; [|constructor].
  destruct (decide (k = h)) as [->|].
  - rewrite Hb, lookup_insert_eq. by eapply bs_register.
  - rewrite lookup_insert_ne by done. constructor.
Qed.

Lemma key_step p h id v k :
  bucket_step (match v with SettleKey s => OpSettle h id s | FailKey f => OpFail h id f end) k
    (ks_payments p !! k) (ks_payments (update_htlc_key p h id v).1 !! k).
Proof.
  unfold update_htlc_key, fetch_payment_bucket.
  destruct (ks_payments p !! h) as [b|] eqn:Hb; simpl; [|constructor].
  destruct (fetch_payment_of b) as [m|]; simpl; [|constructor].
  destruct (updatable _) as [[]|]; simpl; [|constructor].
  destruct (pb_htlcs b) as [hb|] eqn:Hhb; simpl; [|constructor].
  repeat (case_bool_decide; simpl; [|constructor]).
  destruct (fetch_payment_of (mk_bucket _ _ _ _)) as [m'|]; simpl; [|constructor].
  destruct (decide (k = h)) as [->|].
  - rewrite Hb, lookup_insert_eq.
    assert (bucket_htlcs b = hb) as <- by (unfold bucket_htlcs; by rewrite Hhb).
    eapply bs_key; [done|]. done.
  - rewrite lookup_insert_ne by done. constructor.
Qed.

Lemma fail_step p h r k :
  bucket_step (OpFailPayment h r) k (ks_payments p !! k) (ks_payments (fail_payment p h r).1 !! k).
Proof.
  unfold fail_payment, fetch_payment_bucket.
  destruct (ks_payments p !! h) as [b|] eqn:Hb; simpl; [|constructor].
  destruct (fetch_payment_status b); simpl; [|constructor].
  destruct (fetch_payment_of (mk_bucket _ _ _ _)) as [m'|]; simpl; [|constructor].
  destruct (decide (k = h)) as [->|].
  - rewrite Hb, lookup_insert_eq. by eapply bs_fail.
  - rewrite lookup_insert_ne by done. constructor.
Qed.

(** *** Deletions *)

Lemma delete_keys_htlcs b ids :
  bucket_htlcs (delete_htlc_keys b ids) =
  mk_htlcs (filter (λ kv, kv.1 ∉ ids) (hb_ai (bucket_htlcs b)))
    (filter (λ kv, kv.1 ∉ ids) (hb_si (bucket_htlcs b)))
    (filter (λ kv, kv.1 ∉ ids) (hb_fi (bucket_htlcs b))).
Proof.
  assert (∀ hb, foldl (λ hb aid, mk_htlcs (delete aid (hb_ai hb)) (delete aid (hb_si hb))
      (delete aid (hb_fi hb))) hb ids =
    mk_htlcs (filter (λ kv, kv.1 ∉ ids) (hb_ai hb)) (filter (λ kv, kv.1 ∉ ids) (hb_si hb))
      (filter (λ kv, kv.1 ∉ ids) (hb_fi hb))) as Hfold.
  { assert (∀ A aid l (m : gmap Z A), filter (λ kv, kv.1 ∉ l) (delete aid m) =
      filter (λ kv, kv.1 ∉ aid :: l) m) as Hf.
    { intros A aid l m. apply map_eq. intros i. apply option_eq. intros x.
      rewrite !map_lookup_filter_Some, lookup_delete_Some, not_elem_of_cons. naive_solver. }
    induction ids as [|aid l IH]; intros [a s f]; simpl.
    - f_equal; symmetry; apply map_filter_id; intros i x _; apply not_elem_of_nil.
    - rewrite IH. simpl. by rewrite !Hf. }
  unfold bucket_htlcs, delete_htlc_keys. simpl. destruct (pb_htlcs b) as [hb|]; simpl; [apply Hfold|].
  unfold empty_htlcs. by rewrite !map_filter_empty.
Qed.

Lemma failed_keys_ok b info ids :
  bucket_ok b info → fetch_failed_htlc_keys b = Ok ids →
  ∀ id, id ∈ ids → is_Some (hb_fi (bucket_htlcs b) !! id).
Proof.
  intros Hb. unfold fetch_failed_htlc_keys. destruct (fetch_htlcs_ok b info Hb) as (l & -> & Hl). simpl.
  intros [= <-] id. rewrite list_elem_of_omap. intros (h & Hh & Hid).
  apply (elem_of_fetched _ l Hl) in Hh as (id' & a & Ha & ->). unfold attempt_at in Hid. simpl in Hid.
  destruct (hb_fi (bucket_htlcs b) !! id') as [f|] eqn:E; [|done]. injection Hid as <-. by exists f.
Qed.

Lemma delete_step p h fo k :
  store_ok p → bucket_step (OpDelete h fo) k (ks_payments p !! k) (ks_payments (delete_payment p h fo).1 !! k).
Proof.
  intros Hp. unfold delete_payment.
  destruct (ks_payments p !! h) as [b|] eqn:Hb; simpl; [|constructor].
  destruct (Hp h b Hb) as [info Hok]. destruct (fetch_status_ok b info Hok) as (st & -> & Hst). simpl.
  destruct (removable st) eqn:Hr; simpl; [|constructor].
  assert (st ≠ StatusInFlight) as Hne by (by intros ->).
  destruct fo.
  - destruct (fetch_failed_htlc_keys b) as [ids|] eqn:Hids; simpl; [|constructor].
    destruct (decide (k = h)) as [->|].
    + rewrite Hb, lookup_insert_eq. apply bs_delete_failed. by eapply failed_keys_ok.
    + rewrite lookup_insert_ne by done. constructor.
  - destruct (fetch_sequence_numbers b) as [seqs|]; simpl; [|constructor].
    destruct (decide (k = h)) as [->|].
    + rewrite Hb, lookup_delete_eq. eapply bs_delete; eauto.
    + rewrite lookup_delete_ne by done. constructor.
Qed.

(** What a pass has collected. *)
Definition collected (p : kv_store) (fho : bool) (d : deletions) : Prop :=
  (∀ h, h ∈ del_buckets d → fho = false ∧
    ∃ b st, ks_payments p !! h = Some b ∧ status_spec b st ∧ st ≠ StatusInFlight) ∧
  (∀ h ids id, (h, ids) ∈ del_htlcs d → id ∈ ids → fho = true ∧
    ∃ b, ks_payments p !! h = Some b ∧ is_Some (hb_fi (bucket_htlcs b) !! id)).

Lemma collect_ok p fo fho d :
  store_ok p →
  fold_result (collect_deletions fo fho) (map_to_list (ks_payments p)) (mk_deletions [] [] [] 0) = Ok d →
  collected p fho d.
Proof.
  intros Hp.
  assert (∀ kb, kb ∈ map_to_list (ks_payments p) → ks_payments p !! kb.1 = Some kb.2) as Hin.
  { intros [k b] H. by apply elem_of_map_to_list in H. }
  assert (collected p fho (mk_deletions [] [] [] 0)) as H0.
  { split; simpl; [intros h H | intros h ids id H]; by apply elem_of_nil in H. }
  revert H0 Hin. generalize (mk_deletions [] [] [] 0) as d0. generalize (map_to_list (ks_payments p)) as l.
  induction l as [|[h b] l IH]; intros d0 [Hb Hh] Hin H; [by injection H as <-|]. simpl in H.
  apply rbind_Ok in H as (d1 & H1 & H). apply (IH d1); [|intros kb Hkb; apply Hin; by right|done].
  assert (ks_payments p !! h = Some b) as Hlk by (apply (Hin (h, b)); left).
  destruct (Hp h b Hlk) as [info Hok]. unfold collect_deletions in H1. simpl in H1.
  destruct (fetch_status_ok b info Hok) as (st & Est & Hst). rewrite Est in H1. simpl in H1.
  destruct (removable st) eqn:Hr; simpl in H1; [|by injection H1 as <-].
  destruct (fo && _); [by injection H1 as <-|].
  destruct fho.
  - apply rbind_Ok in H1 as (ids & Hids & [= <-]). split; simpl; [done|].
    intros h' ids' id [H'|H']%elem_of_app Hid; [by eapply Hh|].
    apply list_elem_of_singleton in H' as [= -> ->]. split; [done|]. exists b. split; [done|].
    by eapply failed_keys_ok.
  - apply rbind_Ok in H1 as (seqs & _ & [= <-]). split; simpl; [|done].
    intros h' [H'|H']%elem_of_app; [by apply Hb|]. apply list_elem_of_singleton in H' as ->.
    split; [done|]. exists b, st. split; [done|]. split; [done|]. by intros ->.
Qed.

Lemma delete_htlcs_lookup ds p k :
  ks_payments (foldl delete_htlcs_of p ds) !! k =
  (λ b, delete_htlc_keys b (concat (map snd (List.filter (λ d, bool_decide (d.1 = k)) ds)))) <$>
  ks_payments p !! k.
Proof.
  revert p. induction ds as [|[h ids] ds IH]; intros p; simpl.
  - destruct (ks_payments p !! k) as [[s i hb f]|]; simpl; [|done].
    unfold delete_htlc_keys. simpl. by destruct hb.
  - rewrite IH. unfold delete_htlcs_of. simpl. destruct (ks_payments p !! h) as [b|] eqn:Hb; simpl.
    + case_bool_decide as E; [subst|by rewrite lookup_insert_ne by done].
      rewrite lookup_insert_eq, Hb. simpl. f_equal. unfold delete_htlc_keys. simpl. f_equal.
      destruct (pb_htlcs b); simpl; [|done]. by rewrite foldl_app.
    + case_bool_decide as E; [subst|done]. by rewrite Hb.
Qed.

Lemma delete_buckets_lookup ks p k :
  ks_payments (foldl delete_payment_bucket p ks) !! k =
  if bool_decide (k ∈ ks) then None else ks_payments p !! k.
Proof.
  revert p. induction ks as [|h ks IH]; intros p; cbn [foldl].
  - by rewrite bool_decide_false by (by apply not_elem_of_nil).
  - rewrite IH. cbn [delete_payment_bucket ks_payments]. destruct (decide (k = h)) as [->|Hne].
    + rewrite lookup_delete_eq. rewrite (bool_decide_true (h ∈ h :: ks)) by left. by case_bool_decide.
    + rewrite lookup_delete_ne by done.
      rewrite (bool_decide_ext (k ∈ h :: ks) (k ∈ ks)); [done|]. rewrite elem_of_cons. naive_solver.
Qed.

Lemma delete_many_step p fo fho k :
  store_ok p →
  bucket_step (OpDeleteMany fo fho) k (ks_payments p !! k) (ks_payments (delete_payments p fo fho).1 !! k).
Proof.
  intros Hp. unfold delete_payments.
  destruct (fold_result _ _ _) as [d|] eqn:Hd; simpl; [|constructor].
  apply collect_ok in Hd as [Hb Hh]; [|done]. rewrite delete_buckets_lookup, delete_htlcs_lookup.
  case_bool_decide as Hk.
  - destruct (Hb k Hk) as (-> & b & st & Hlk & Hst & Hne). rewrite Hlk. eapply bs_delete; eauto.
  - destruct (ks_payments p !! k) as [b|] eqn:Hlk; simpl; [|constructor].
    apply bs_delete_failed. intros id Hid. apply list_elem_of_In, in_concat in Hid as (ids & Hids & Hid).
    apply in_map_iff in Hids as ([h ids'] & <- & Hf). apply list_elem_of_In, elem_of_bfilter in Hf as [Hf E].
    simpl in *. apply bool_decide_eq_true in E as ->.
    destruct (Hh k ids' id Hf) as (_ & b' & Hb' & Hs); [by apply list_elem_of_In|]. congruence.
Qed.

Lemma run_op_step p op k :
  store_ok p → bucket_step op k (ks_payments p !! k) (ks_payments (run_op p op) !! k).
Proof.
  intros Hp. destruct op; simpl.
  - by apply init_step.
  - apply register_step.
  - apply (key_step p hash id (SettleKey preimage)).
  - apply (key_step p hash id (FailKey info)).
  - apply fail_step.
  - by apply delete_step.
  - by apply delete_many_step.
  - constructor.
Qed.

(** ** The invariant *)

Lemma verify_attempt_amt m a :
  verify_attempt m a = Ok tt →
  u64 ((sent_amt m).1 + receiver_amt (ai_route a)) ≤ pi_value (mp_info m).
Proof.
  unfold verify_attempt. intros H. apply rbind_Ok in H as (f & _ & H).
  repeat match type of H with (if ?c then _ else _) = _ => destruct c; [|done] end.
  apply rbind_Ok in H as ([] & _ & H).
  match type of H with (if ?c then _ else _) = _ => destruct c; [|done] end.
  destruct (Z.ltb_spec (pi_value (mp_info m)) (u64 ((sent_amt m).1 + receiver_amt (ai_route a)))); [done | lia].
Qed.

Lemma htlcs_ok_register info hb a :
  htlcs_ok info hb → hb_ai hb !! ai_attempt_id a = None →
  sane_amount (receiver_amt (ai_route a)) → sane_amount (pi_value info) →
  u64 (sent_of hb + receiver_amt (ai_route a)) ≤ pi_value info →
  htlcs_ok info (mk_htlcs (<[ai_attempt_id a := a]> (hb_ai hb)) (hb_si hb) (hb_fi hb)).
Proof.
  intros H Hfresh Ha Hv Hle. pose proof (sent_of_nonneg _ _ H) as H0.
  destruct H as [Hsi Hfi Honce Hamt Hsent]. unfold sane_amount in *.
  rewrite u64_small in Hle by in_range.
  split; simpl; [set_solver | set_solver | done | |].
  - intros id a' [[<- <-]|[_ Ha']]%lookup_insert_Some; [done | by apply (Hamt id)].
  - unfold sent_of in *. simpl. rewrite msum_insert by done. unfold attempt_amt at 1. simpl.
    rewrite (not_elem_of_dom_1 (hb_fi hb)).
    + etransitivity; [|exact Hle]. rewrite Z.add_comm. apply Z.add_le_mono_r.
      apply Z.eq_le_incl, msum_ext. done.
    + intros Hin. apply Hfi, elem_of_dom in Hin as [? ?]. congruence.
Qed.

Lemma htlcs_ok_put_key info hb id v :
  htlcs_ok info hb → is_in_flight hb id → htlcs_ok info (put_key hb id v).
Proof.
  intros [Hsi Hfi Honce Hamt Hsent] (Ha & Hs & Hf). assert (id ∈ dom (hb_ai hb)) by by apply elem_of_dom.
  destruct v as [s|f]; split; simpl; try done; try set_solver.
  - intros i. destruct (decide (i = id)) as [->|]; [by right|].
    rewrite lookup_insert_ne by done. apply Honce.
  - intros i. destruct (decide (i = id)) as [->|]; [by left|].
    rewrite lookup_insert_ne by done. apply Honce.
  - etransitivity; [|exact Hsent]. apply msum_le. intros i a Hi. unfold attempt_amt. simpl.
    destruct (decide (i = id)) as [->|].
    + rewrite lookup_insert_eq, Hf. apply (Hamt _ _ Hi).
    + by rewrite lookup_insert_ne by done.
Qed.

Lemma htlcs_ok_delete info b ids :
  htlcs_ok info (bucket_htlcs b) → (∀ id, id ∈ ids → is_Some (hb_fi (bucket_htlcs b) !! id)) →
  htlcs_ok info (bucket_htlcs (delete_htlc_keys b ids)).
Proof.
  intros [Hsi Hfi Honce Hamt Hsent] Hids. rewrite delete_keys_htlcs. set (hb := bucket_htlcs b) in *.
  assert (∀ A (m : gmap Z A), dom m ⊆ dom (hb_ai hb) →
    dom (filter (λ kv, kv.1 ∉ ids) m) ⊆ dom (filter (λ kv, kv.1 ∉ ids) (hb_ai hb))) as Hdom.
  { intros A m Hm i. rewrite !elem_of_dom. intros [x [Hx Hi]%map_lookup_filter_Some].
    assert (is_Some (hb_ai hb !! i)) as [a Ha] by (apply elem_of_dom, Hm, elem_of_dom; by exists x).
    exists a. by apply map_lookup_filter_Some. }
  split; simpl; [by apply Hdom | by apply Hdom | | |].
  - intros id. destruct (Honce id) as [E|E]; [left|right]; apply map_lookup_filter_None; by left.
  - intros id a [Ha _]%map_lookup_filter_Some. eauto.
  - etransitivity; [|exact Hsent]. unfold sent_of. simpl. rewrite msum_filter. apply msum_le.
    intros id a Ha. simpl. case_bool_decide as Hin.
    + unfold attempt_amt. simpl. rewrite map_lookup_filter.
      destruct (hb_fi hb !! id) as [f|] eqn:E; simpl; [|done]. by rewrite option_guard_True.
    + unfold attempt_amt. case_match; [done|]. apply (Hamt _ _ Ha).
Qed.

Lemma bucket_step_ok p op k o' b' :
  store_ok p → op_ok p op → bucket_step op k (ks_payments p !! k) o' → o' = Some b' →
  ∃ info, bucket_ok b' info.
Proof.
  intros Hp Hop Hstep E. remember (ks_payments p !! k) as o eqn:Ho.
  assert (∀ b, o = Some b → ∃ info, bucket_ok b info) as Hok.
  { intros b ->. by apply (Hp k). }
  destruct Hstep as [o|o info seq -> Hst|b a m -> Hm _ Hv|b id v -> Hfl|b r ->|b ids Hids|]; simplify_eq.
  - auto.
  - exists info. split; simpl; [by eexists | done | done |].
    split; simpl; [done | done | by left | by intros | ].
    unfold sent_of. simpl. rewrite msum_empty. apply Hop.
  - destruct (Hok b eq_refl) as [info Hb]. exists info. pose proof Hb as [Hseq Hinfo Hval Hh].
    split; simpl; [done | done | done |]. destruct (fetch_payment_ok b info Hb) as (m' & Hm' & Hf).
    rewrite Hm in Hm'. injection Hm' as <-. apply verify_attempt_amt in Hv.
    rewrite (fe_sent _ _ _ Hf), (fe_info _ _ _ Hf) in Hv. destruct Hop as [Ha Hfresh].
    unfold htlcs_at in Hfresh. rewrite <-Ho in Hfresh. by apply htlcs_ok_register.
  - destruct (Hok b eq_refl) as [info [Hseq Hinfo Hval Hh]]. exists info. split; simpl; try done.
    by apply htlcs_ok_put_key.
  - destruct (Hok b eq_refl) as [info [Hseq Hinfo Hval Hh]]. exists info. by split.
  - destruct (Hok b eq_refl) as [info [Hseq Hinfo Hval Hh]]. exists info. split; simpl; try done.
    by apply htlcs_ok_delete.
Qed.

Lemma store_ok_step p op : store_ok p → op_ok p op → store_ok (run_op p op).
Proof.
  intros Hp Hop k b Hk. eapply bucket_step_ok; [done | done | by apply (run_op_step p op k) | done].
Qed.

Lemma store_ok_runs p ops p' : runs p ops p' → store_ok p → store_ok p'.
Proof. induction 1; intros Hp; [done|]. eauto using store_ok_step. Qed.

Lemma store_ok_new : store_ok new_kv_store.
Proof. apply map_Forall_empty. Qed.

(** ** An attempt's life *)

Inductive outcome :=
| InFlight
| Settled (preimage : htlc_settle_info)
| Failed (info : htlc_fail_info).

(** What the store knows of an attempt. *)
Definition attempt_state (p : kv_store) (h : bytes) (id : Z) : option (htlc_attempt_info * outcome) :=
  let hb := htlcs_at p h in
  (λ a, (a, match hb_si hb !! id, hb_fi hb !! id with
    | Some s, _ => Settled s
    | None, Some f => Failed f
    | None, None => InFlight
    end)) <$> hb_ai hb !! id.

Definition deletes (h : bytes) (op : payment_op) : Prop :=
  op = OpDelete h false ∨ ∃ fo, op = OpDeleteMany fo false.
