(* ===== verification/PaymentsFinal.v ===== *)
(** * What the payments database promises

    No payment sends more than its amount; an attempt is resolved once and never
    forgotten while it can still take money; a paid hash is not paid again; the
    payment loop waits only for results that will come. *)

From S2P Require Import Prelude Payments PaymentsProps.

Lemma attempt_state_step p op h id a o :
  store_ok p → op_ok p op → attempt_state p h id = Some (a, o) →
  attempt_state (run_op p op) h id = Some (a, o) ∨
  (o = InFlight ∧
    ((∃ s, op = OpSettle h id s ∧ attempt_state (run_op p op) h id = Some (a, Settled s)) ∨
     (∃ f, op = OpFail h id f ∧ attempt_state (run_op p op) h id = Some (a, Failed f)))) ∨
  (attempt_state (run_op p op) h id = None ∧
    ((∃ s, o = Settled s ∧ deletes h op ∧ ∀ i, ¬ is_in_flight (htlcs_at p h) i) ∨ ∃ f, o = Failed f)).
Proof.
  intros Hp Hop. pose proof (run_op_step p op h Hp) as Hstep. unfold attempt_state, htlcs_at.
  remember (ks_payments p !! h) as ob eqn:Hob. remember (ks_payments (run_op p op) !! h) as ob'.
  assert (∀ b, ob = Some b → ∃ info, bucket_ok b info) as Hok.
  { intros b ->. by apply (Hp h). }
  clear Heqob'.
  destruct Hstep as [ob|ob info seq -> Hst|b a' m -> Hm Hr Hv|b id' v -> Hfl|b r ->|b ids Hids|b st Hdel Hst Hne].
  - by left.
  - (* a failed payment starts again *)
    destruct ob as [b|]; simpl; [|by rewrite lookup_empty]. intros H. right. right.
    split; [by rewrite lookup_empty|]. destruct (Hst b eq_refl) as (Hni & Hsi & _). right.
    destruct (hb_ai (bucket_htlcs b) !! id) as [a0|] eqn:Ha; [|done]. injection H as -> <-.
    rewrite Hsi, lookup_empty. destruct (hb_fi (bucket_htlcs b) !! id) as [f|] eqn:Hf; [by exists f|].
    exfalso. apply (Hni id). unfold is_in_flight. rewrite Ha, Hsi, lookup_empty. eauto.
  - (* another attempt *)
    intros H. left. destruct Hop as [_ Hfresh]. unfold htlcs_at in Hfresh. rewrite <-Hob in Hfresh.
    simpl in *. rewrite lookup_insert_ne; [done|]. intros E. rewrite E in Hfresh. by rewrite Hfresh in H.
  - (* an outcome *)
    simpl. destruct Hfl as ([a0 Ha0] & Hs & Hf).
    destruct (decide (id' = id)) as [->|Hne].
    + rewrite Ha0, Hs, Hf. simpl. intros [= -> <-]. right. left. split; [done|].
      destruct v as [s|f]; simpl; [left; exists s|right; exists f]; (split; [done|]); rewrite Ha0; simpl.
      * by rewrite lookup_insert_eq.
      * by rewrite Hs, lookup_insert_eq.
    + intros H. left. destruct v as [s|f]; simpl; by rewrite lookup_insert_ne by done.
  - by left.
  - (* failed attempts deleted *)
    simpl. rewrite delete_keys_htlcs. simpl. rewrite !map_lookup_filter. intros H.
    destruct (hb_ai (bucket_htlcs b) !! id) as [a0|] eqn:Ha; [|done]. simpl in *.
    destruct (decide (id ∈ ids)) as [Hin|Hin].
    + right. right. rewrite option_guard_False by (simpl; tauto). simpl. split; [done|]. right.
      destruct (Hids id Hin) as [f Hf]. destruct (Hok b eq_refl) as [info Hb].
      destruct (ho_once _ _ (bo_htlcs _ _ Hb) id) as [E|E]; [|congruence].
      exists f. rewrite E, Hf in H. congruence.
    + left. rewrite option_guard_True by done. simpl.
      destruct (hb_si (bucket_htlcs b) !! id) as [s|]; simpl; [by rewrite option_guard_True by done|].
      destruct (hb_fi (bucket_htlcs b) !! id) as [f|]; simpl; [by rewrite option_guard_True by done | done].
  - (* the payment deleted *)
    simpl. intros H. right. right. split; [by rewrite lookup_empty|].
    destruct (hb_ai (bucket_htlcs b) !! id) as [a0|] eqn:Ha; [|done]. simpl in H. injection H as -> <-.
    destruct (hb_si (bucket_htlcs b) !! id) as [s|] eqn:Hs.
    + left. exists s. split; [done|]. split; [by destruct Hdel; [left|right]|].
      destruct st; simpl in Hst; [|done|tauto|tauto].
      destruct Hst as [Hst _]. by rewrite Hst, lookup_empty in Ha.
    + right. destruct (hb_fi (bucket_htlcs b) !! id) as [f|] eqn:Hf; [by exists f|]. exfalso.
      assert (is_in_flight (bucket_htlcs b) id) as Hi by (unfold is_in_flight; rewrite Ha; eauto).
      destruct st; simpl in Hst; [|done|naive_solver..].
      destruct Hst as [Hst _]. by rewrite Hst, lookup_empty in Ha.
Qed.

(** ** Theorems *)

(** C20: In every reachable store, what a payment has sent and not got back is at
    most its amount, counted without overflow; its remaining amount is the rest,
    and no attempt is both settled and failed. *)
Theorem never_overpays ops p h b :
  runs new_kv_store ops p → ks_payments p !! h = Some b →
  ∃ m, fetch_payment p h = Ok m ∧
    zsum (map (λ h, receiver_amt (ai_route (ha_info h)))
      (List.filter (λ h, negb (failed_htlc h)) (mp_htlcs m))) =
      pi_value (mp_info m) - remaining_amt (mp_state m) ∧
    0 ≤ remaining_amt (mp_state m) ∧
    ∀ x, x ∈ mp_htlcs m → ha_settle x = None ∨ ha_failure x = None.
Proof.
  intros Hr Hb. pose proof (store_ok_runs _ _ _ Hr store_ok_new) as Hp.
  destruct (Hp h b Hb) as [info Hok]. destruct (fetch_payment_ok b info Hok) as (m & Hm & Hf).
  unfold fetch_payment, fetch_payment_bucket. rewrite Hb. simpl. exists m. split; [done|].
  pose proof (bo_htlcs _ _ Hok) as H. pose proof (ho_sent _ _ H) as Hle.
  rewrite (fe_remaining _ _ _ Hf), (fe_info _ _ _ Hf). split; [|split; [lia|]].
  - assert (∃ l, mp_htlcs m = l ∧ l ≡ₚ map (uncurry (attempt_at (bucket_htlcs b)))
      (map_to_list (hb_ai (bucket_htlcs b)))) as (l & -> & Hl).
    { destruct (fetch_htlcs_ok b info Hok) as (l & El & Hl). exists l. split; [|done].
      unfold fetch_payment_of in Hm. destruct (pb_seq b), (pb_info b); try done. rewrite El in Hm. simpl in Hm.
      unfold set_state in Hm. destruct (sent_amt_of l), (terminal_info_of l (pb_fail b)).
      destruct (negb _) in Hm; [|done]. by injection Hm as <-. }
    rewrite zsum_filter, Hl, map_map. unfold sent_of.
    replace (pi_value info - _) with (msum (attempt_amt (bucket_htlcs b)) (hb_ai (bucket_htlcs b))) by (unfold sent_of; lia).
    unfold msum. f_equal. apply map_ext. intros [id a]. unfold attempt_amt, attempt_at, failed_htlc. simpl.
    by destruct (hb_fi (bucket_htlcs b) !! id).
  - intros x Hx. apply (fe_htlcs _ _ _ Hf) in Hx as (id & a & _ & ->). simpl. apply (ho_once _ _ H).
Qed.

(** C21: An attempt in flight stays as it is until its own result is recorded,
    whatever else is done to the payments; a settled attempt keeps its preimage
    until the payment is deleted, which is refused while another attempt is in
    flight; only failed attempts are dropped. *)
Theorem attempt_life_cycle ops p op h id a o :
  runs new_kv_store ops p → op_ok p op → attempt_state p h id = Some (a, o) →
  attempt_state (run_op p op) h id = Some (a, o) ∨
  (o = InFlight ∧
    ((∃ s, op = OpSettle h id s ∧ attempt_state (run_op p op) h id = Some (a, Settled s)) ∨
     (∃ f, op = OpFail h id f ∧ attempt_state (run_op p op) h id = Some (a, Failed f)))) ∨
  (attempt_state (run_op p op) h id = None ∧
    ((∃ s, o = Settled s ∧ deletes h op ∧ ∀ i, ¬ is_in_flight (htlcs_at p h) i) ∨ ∃ f, o = Failed f)).
Proof. intros Hr. apply attempt_state_step. by apply (store_ok_runs _ _ _ Hr store_ok_new). Qed.

(** C22: Once an attempt of a payment is settled, it stays settled with its
    preimage, and the payment cannot be initialised again, until it is deleted:
    a paid hash is not paid twice. *)
Theorem paid_once ops p ops' p' h id a s :
  runs new_kv_store ops p → attempt_state p h id = Some (a, Settled s) →
  runs p ops' p' → Forall (λ op, ¬ deletes h op) ops' →
  attempt_state p' h id = Some (a, Settled s) ∧
  ∀ info, ∃ e, (init_payment p' h info).2 = Err e ∧
    ks_payments (init_payment p' h info).1 !! h = ks_payments p' !! h.
Proof.
  intros Hr Hs Hr' Hnd. pose proof (store_ok_runs _ _ _ Hr store_ok_new) as Hp. clear Hr.
  induction Hr' as [p|p op ops' p' Hop Hr' IH].
  - split; [done|]. intros info. unfold init_payment. destruct (check_size info); [|by eexists].
    pose proof (next_sequence_payments p) as Hn. destruct (next_payment_sequence p) as [p1 seq].
    simpl in Hn. rewrite Hn. unfold attempt_state, htlcs_at in Hs.
    destruct (ks_payments p !! h) as [b|] eqn:Hb; simpl in *; [|by rewrite lookup_empty in Hs].
    destruct (Hp h b Hb) as [info0 Hok]. destruct (fetch_status_ok b info0 Hok) as (st & -> & Hst).
    destruct (hb_ai (bucket_htlcs b) !! id) as [ax|] eqn:Ha; [|done]. simpl in Hs.
    destruct (hb_si (bucket_htlcs b) !! id) as [s0|] eqn:Hsi; [|by destruct (hb_fi (bucket_htlcs b) !! id)].
    destruct st; simpl in *; [by destruct Hst as [Hst _]; rewrite Hst, lookup_empty in Ha|..].
    + rewrite Hn. eauto.
    + rewrite Hn. eauto.
    + destruct Hst as (_ & Hst & _). by rewrite Hst, lookup_empty in Hsi.
  - apply Forall_cons in Hnd as [Hd Hnd]. apply IH; [|done|by apply store_ok_step].
    destruct (attempt_state_step p op h id a (Settled s) Hp Hop Hs) as [H|[[H _]|[_ [(s' & _ & Hd' & _)|[f H]]]]];
      done.
Qed.

(** C23: The payment loop, on a payment of a reachable store with something to
    pay: it proceeds only where the store registers another attempt; it waits
    only while an attempt is in flight, so that a result comes; it exits without
    attempts in flight, with a preimage or a failure reason to return; and it
    fails only when the receiver settled less than the whole. *)
Theorem lifecycle_decisions ops p h b :
  runs new_kv_store ops p → ks_payments p !! h = Some b →
  ∃ m, fetch_payment p h = Ok m ∧ (0 < pi_value (mp_info m) →
    let st := mp_state m in
    match decide_next_step m with
    | Ok StepProceed => registrable m = Ok tt ∧ 0 < remaining_amt st
    | Ok StepSkip => 0 < num_attempts_in_flight st
    | Ok StepExit => num_attempts_in_flight st = 0 ∧ terminated m = true ∧
        is_Some (lifecycle_result m) ∧ (has_settled_htlc st = true → remaining_amt st = 0)
    | Err _ => num_attempts_in_flight st = 0 ∧ has_settled_htlc st = true ∧ 0 < remaining_amt st
    end).
Proof.
  intros Hr Hb. pose proof (store_ok_runs _ _ _ Hr store_ok_new) as Hp.
  destruct (Hp h b Hb) as [info Hok]. destruct (fetch_payment_ok b info Hok) as (m & Hm & Hf).
  unfold fetch_payment, fetch_payment_bucket. rewrite Hb. simpl. exists m. split; [done|].
  rewrite (fe_info _ _ _ Hf). intros Hv. set (hb := bucket_htlcs b) in *.
  pose proof (bo_htlcs _ _ Hok) as H. pose proof (ho_sent _ _ H) as Hle. fold hb in H, Hle.
  destruct (fe_num _ _ _ Hf) as [Hn0 Hn]. pose proof (fe_remaining _ _ _ Hf) as Hrem. fold hb in Hn, Hrem.
  pose proof (fe_settled _ _ _ Hf) as Hset. pose proof (fe_failed _ _ _ Hf) as Hfail. fold hb in Hset, Hfail.
  pose proof (fe_status _ _ _ Hf) as Hst. unfold status_spec in Hst. fold hb in Hst.
  (* an attempt that is in no list sends nothing *)
  assert ((∀ id, ¬ is_in_flight hb id) → hb_si hb = ∅ → sent_of hb = 0) as Hsent0.
  { intros Hni Hsi. apply msum_zero. intros id a Ha. unfold attempt_amt.
    destruct (hb_fi hb !! id) eqn:E; [done|]. exfalso. apply (Hni id). unfold is_in_flight.
    rewrite Ha, Hsi, lookup_empty. eauto. }
  assert ((∀ id, ¬ is_in_flight hb id) → num_attempts_in_flight (mp_state m) = 0) as Hnum0.
  { intros Hni. destruct (decide (0 < num_attempts_in_flight (mp_state m))) as [Hpos|]; [|lia].
    apply Hn in Hpos as [id Hid]. by apply Hni in Hid. }
  assert (hb_si hb ≠ ∅ → ∃ x, first_settled (mp_htlcs m) = Some x) as Hfirst.
  { intros Hsi. pose proof (first_settled_spec (mp_htlcs m)) as Hs.
    destruct (first_settled (mp_htlcs m)) as [x|]; [eauto|]. exfalso. apply Hsi, map_empty. intros id.
    destruct (hb_si hb !! id) as [s|] eqn:E; [|done].
    assert (is_Some (hb_ai hb !! id)) as [a Ha].
    { apply elem_of_dom, (ho_si _ _ H), elem_of_dom. by exists s. }
    rewrite <-E. apply (Hs (attempt_at hb id a)), (fe_htlcs _ _ _ Hf). eauto. }
  unfold decide_next_step, allow_more_attempts, need_wait_attempts, registrable, terminated, lifecycle_result,
    terminal_info, terminal_info_of.
  rewrite (fe_reason _ _ _ Hf), Hrem in *.
  destruct (mp_status m) eqn:Es; simpl.
  - (* initiated *)
    destruct Hst as [Hai _]. assert (sent_of hb = 0) as -> by (unfold sent_of; by rewrite Hai, msum_empty).
    rewrite (proj2 (Z.eqb_neq _ 0)) by lia. simpl. split; [done | lia].
  - (* in flight *)
    destruct (Z.eqb_spec (pi_value info - sent_of hb) 0) as [E|E]; simpl.
    + destruct (decide (0 < num_attempts_in_flight (mp_state m))) as [|Hz]; [done|]. exfalso.
      destruct Hst as [Hi|(_ & Hsi & _)]; [by apply Hn in Hi|].
      rewrite Hsent0 in E; [lia | by intros id Hid; apply Hz, Hn; exists id | done].
    + destruct (has_settled_htlc (mp_state m)) eqn:Eset; simpl.
      { apply Hn. destruct Hst as [|(_ & Hsi & _)]; [done|]. by apply Hset in Hsi. }
      destruct (payment_failed (mp_state m)) eqn:Efail; simpl; [|split; [done | lia]].
      apply Hn. destruct Hst as [|(_ & _ & Hre)]; [done|]. rewrite Hre in Hfail.
      by destruct (proj1 Hfail eq_refl) as [_ ?%is_Some_None].
  - (* succeeded *)
    destruct Hst as [Hni Hsi]. destruct (Z.eqb_spec (pi_value info - sent_of hb) 0) as [E|E]; simpl.
    + destruct (Hfirst Hsi) as [x ->]. split; [by apply Hnum0|]. split; [done|]. split; [by eexists | done].
    + split; [by apply Hnum0|]. split; [by apply Hset | lia].
  - (* failed *)
    destruct Hst as (Hni & Hsi & [r Hre]). rewrite Hsent0 by done.
    rewrite (proj2 (Z.eqb_neq _ 0)) by lia. simpl. split; [by apply Hnum0|]. split; [done|]. split.
    + rewrite Hre. destruct (first_settled (mp_htlcs m)); by eexists.
    + intros Hs. by apply Hset in Hs.
Qed.

(** ** Witnesses: a payment of 1000 in two parts *)

Definition sample_hash : bytes := [Byte.x01].
Definition sample_attempt (id amt : Z) : htlc_attempt_info :=
  mk_attempt_info id (mk_route amt [mk_hop amt (Some (mk_mpp [Byte.x02] 1000)) [] 0]) None.
Definition sample_ops : list payment_op :=
  [OpInit sample_hash (mk_creation_info sample_hash 1000 []);
   OpRegister sample_hash (sample_attempt 1 600);
   OpRegister sample_hash (sample_attempt 2 400)].
Definition sample_store : kv_store := foldl run_op new_kv_store sample_ops.
Definition settled_store : kv_store := run_op sample_store (OpSettle sample_hash 1 [Byte.x07]).

Lemma sample_runs : runs new_kv_store sample_ops sample_store.
Proof.
  unfold sample_store, sample_ops. cbn [foldl].
  apply runs_cons; [split; vm_compute; congruence|].
  apply runs_cons; [split; [split; vm_compute; congruence | vm_compute; reflexivity]|].
  apply runs_cons; [split; [split; vm_compute; congruence | vm_compute; reflexivity]|].
  constructor.
Qed.

Lemma settled_runs : runs new_kv_store (sample_ops ++ [OpSettle sample_hash 1 [Byte.x07]]) settled_store.
Proof.
  unfold settled_store, sample_store, sample_ops. cbn [foldl app].
  apply runs_cons; [split; vm_compute; congruence|].
  apply runs_cons; [split; [split; vm_compute; congruence | vm_compute; reflexivity]|].
  apply runs_cons; [split; [split; vm_compute; congruence | vm_compute; reflexivity]|].
  apply runs_cons; [done|]. constructor.
Qed.

Lemma sample_payment : is_Some (ks_payments sample_store !! sample_hash).
Proof. vm_compute. eexists. reflexivity. Qed.

Lemma never_overpays_witness :
  ∃ m, fetch_payment sample_store sample_hash = Ok m ∧
    zsum (map (λ h, receiver_amt (ai_route (ha_info h)))
      (List.filter (λ h, negb (failed_htlc h)) (mp_htlcs m))) =
      pi_value (mp_info m) - remaining_amt (mp_state m) ∧
    0 ≤ remaining_amt (mp_state m) ∧
    ∀ x, x ∈ mp_htlcs m → ha_settle x = None ∨ ha_failure x = None.
Proof.
  destruct sample_payment as [b Hb].
  apply (never_overpays sample_ops sample_store sample_hash b sample_runs Hb).
Defined.

Lemma attempt_life_cycle_witness :
  attempt_state sample_store sample_hash 1 = Some (sample_attempt 1 600, InFlight) ∧
  (attempt_state settled_store sample_hash 1 = Some (sample_attempt 1 600, InFlight) ∨
   (InFlight = InFlight ∧
    ((∃ s, OpSettle sample_hash 1 [Byte.x07] = OpSettle sample_hash 1 s ∧
      attempt_state settled_store sample_hash 1 = Some (sample_attempt 1 600, Settled s)) ∨
     (∃ f, OpSettle sample_hash 1 [Byte.x07] = OpFail sample_hash 1 f ∧
      attempt_state settled_store sample_hash 1 = Some (sample_attempt 1 600, Failed f)))) ∨
   (attempt_state settled_store sample_hash 1 = None ∧
    ((∃ s, InFlight = Settled s ∧ deletes sample_hash (OpSettle sample_hash 1 [Byte.x07]) ∧
      ∀ i, ¬ is_in_flight (htlcs_at sample_store sample_hash) i) ∨ ∃ f, InFlight = Failed f))).
Proof.
  assert (attempt_state sample_store sample_hash 1 = Some (sample_attempt 1 600, InFlight)) as H
    by (vm_compute; reflexivity).
  split; [exact H|].
  apply (attempt_life_cycle sample_ops sample_store (OpSettle sample_hash 1 [Byte.x07]) sample_hash 1
    (sample_attempt 1 600) InFlight sample_runs I H).
Defined.

Lemma paid_once_witness :
  attempt_state (run_op settled_store (OpFail sample_hash 2 (HTLCFailMessage, 1))) sample_hash 1 =
    Some (sample_attempt 1 600, Settled [Byte.x07]) ∧
  ∀ info, ∃ e,
    (init_payment (run_op settled_store (OpFail sample_hash 2 (HTLCFailMessage, 1))) sample_hash info).2 = Err e ∧
    ks_payments (init_payment (run_op settled_store (OpFail sample_hash 2 (HTLCFailMessage, 1))) sample_hash
      info).1 !! sample_hash =
    ks_payments (run_op settled_store (OpFail sample_hash 2 (HTLCFailMessage, 1))) !! sample_hash.
Proof.
  apply (paid_once (sample_ops ++ [OpSettle sample_hash 1 [Byte.x07]]) settled_store
    [OpFail sample_hash 2 (HTLCFailMessage, 1)] _ sample_hash 1 (sample_attempt 1 600) [Byte.x07] settled_runs).
  - vm_compute. reflexivity.
  - apply runs_cons; [exact I | apply runs_nil].
  - constructor; [intros [H|[fo H]]; discriminate | constructor].
Defined.

Lemma lifecycle_decisions_witness :
  ∃ m, fetch_payment sample_store sample_hash = Ok m ∧ (0 < pi_value (mp_info m) →
    let st := mp_state m in
    match decide_next_step m with
    | Ok StepProceed => registrable m = Ok tt ∧ 0 < remaining_amt st
    | Ok StepSkip => 0 < num_attempts_in_flight st
    | Ok StepExit => num_attempts_in_flight st = 0 ∧ terminated m = true ∧
        is_Some (lifecycle_result m) ∧ (has_settled_htlc st = true → remaining_amt st = 0)
    | Err _ => num_attempts_in_flight st = 0 ∧ has_settled_htlc st = true ∧ 0 < remaining_amt st
    end).
Proof.
  destruct sample_payment as [b Hb].
  apply (lifecycle_decisions sample_ops sample_store sample_hash b sample_runs Hb).
Defined.
