(* ===== verification/UpdateLog.v ===== *)
(** * Update logs (lnwallet)

    The log of a node's updates to a channel ([update_log.go]) and the entries
    it holds ([payment_descriptor.go]).

    The nodes of a log's list are pointers in the source, and both index maps
    point into the list; here a node is a number that the log hands out. *)

From S2P Require Import Prelude.

(** ** Parties (lntypes/channel_party.go) *)

Inductive channel_party := Local | Remote.
#[export] Instance channel_party_eq_decision : EqDecision channel_party.
Proof. solve_decision. Defined.

Definition counter_party (p : channel_party) : channel_party :=
  match p with Local => Remote | Remote => Local end.

Record dual (A : Type) := Dual { dual_local : A; dual_remote : A }.
Arguments Dual {A} _ _.
Arguments dual_local {A} _.
Arguments dual_remote {A} _.

Definition get_for_party {A} (d : dual A) (p : channel_party) : A :=
  match p with Local => dual_local d | Remote => dual_remote d end.
Definition set_for_party {A} (d : dual A) (p : channel_party) (v : A) : dual A :=
  match p with Local => Dual v (dual_remote d) | Remote => Dual (dual_local d) v end.
Definition modify_for_party {A} (d : dual A) (p : channel_party) (f : A → A) : dual A :=
  set_for_party d p (f (get_for_party d p)).

(** ** Entries *)

Inductive update_type := Add | Fail | MalformedFail | Settle | FeeUpdate | NoOpAdd.
#[export] Instance update_type_eq_decision : EqDecision update_type.
Proof. solve_decision. Defined.

(** The fields that the state machine reads. What it only carries to the
    database and the wire (the onion, references, scripts, output indexes and
    signatures) is left out. *)
Record payment_descriptor := PaymentDescriptor {
  pd_rhash : bytes;
  pd_rpreimage : bytes;
  pd_timeout : Z;
  pd_amount : Z;
  pd_log_index : Z;
  pd_htlc_index : Z;
  pd_parent_index : Z;
  pd_add_heights : dual Z;
  pd_remove_heights : dual Z;
  pd_entry_type : update_type;
  pd_noop_settle : bool;
  pd_is_forwarded : bool;
}.

Definition set_pd_amount (a : Z) (pd : payment_descriptor) : payment_descriptor :=
  PaymentDescriptor (pd_rhash pd) (pd_rpreimage pd) (pd_timeout pd) a (pd_log_index pd) (pd_htlc_index pd)
    (pd_parent_index pd) (pd_add_heights pd) (pd_remove_heights pd) (pd_entry_type pd)
    (pd_noop_settle pd) (pd_is_forwarded pd).
Definition set_pd_heights (a r : dual Z) (pd : payment_descriptor) : payment_descriptor :=
  PaymentDescriptor (pd_rhash pd) (pd_rpreimage pd) (pd_timeout pd) (pd_amount pd) (pd_log_index pd)
    (pd_htlc_index pd) (pd_parent_index pd) a r (pd_entry_type pd) (pd_noop_settle pd) (pd_is_forwarded pd).
Definition set_pd_noop_settle (b : bool) (pd : payment_descriptor) : payment_descriptor :=
  PaymentDescriptor (pd_rhash pd) (pd_rpreimage pd) (pd_timeout pd) (pd_amount pd) (pd_log_index pd)
    (pd_htlc_index pd) (pd_parent_index pd) (pd_add_heights pd) (pd_remove_heights pd)
    (pd_entry_type pd) b (pd_is_forwarded pd).
Definition set_pd_is_forwarded (b : bool) (pd : payment_descriptor) : payment_descriptor :=
  PaymentDescriptor (pd_rhash pd) (pd_rpreimage pd) (pd_timeout pd) (pd_amount pd) (pd_log_index pd)
    (pd_htlc_index pd) (pd_parent_index pd) (pd_add_heights pd) (pd_remove_heights pd)
    (pd_entry_type pd) (pd_noop_settle pd) b.

Definition is_add (pd : payment_descriptor) : bool :=
  bool_decide (pd_entry_type pd = Add) || bool_decide (pd_entry_type pd = NoOpAdd).

Definition is_resolution (pd : payment_descriptor) : bool :=
  match pd_entry_type pd with
  | Settle | Fail | MalformedFail => true
  | _ => false
  end.

Definition set_commit_height (whose : channel_party) (next_height : Z) (pd : payment_descriptor) :
    payment_descriptor :=
  match pd_entry_type pd with
  | Add | NoOpAdd =>
      set_pd_heights (set_for_party (pd_add_heights pd) whose next_height) (pd_remove_heights pd) pd
  | Settle | Fail | MalformedFail =>
      set_pd_heights (pd_add_heights pd) (set_for_party (pd_remove_heights pd) whose next_height) pd
  | FeeUpdate =>
      set_pd_heights (set_for_party (pd_add_heights pd) whose next_height)
        (set_for_party (pd_remove_heights pd) whose next_height) pd
  end.

(** ** The log *)

Definition node : Type := Z.

Record update_log := UpdateLog {
  ul_log_index : Z;
  ul_htlc_counter : Z;
  ul_list : list (node * payment_descriptor);
  ul_next_node : node;
  ul_update_index : gmap Z node;
  ul_htlc_index : gmap Z node;
  ul_modified_htlcs : gset Z;
}.

Inductive log_error := LogPanic.     (* [List.Remove] of a nil node *)

Definition new_update_log (log_index htlc_counter : Z) : update_log :=
  UpdateLog log_index htlc_counter [] 0 ∅ ∅ ∅.

Definition ul_values (u : update_log) : list payment_descriptor := (ul_list u).*2.

(** [PushBack]: the log with a new node, and the node. *)
Definition push_back (pd : payment_descriptor) (u : update_log) : update_log * node :=
  (UpdateLog (ul_log_index u) (ul_htlc_counter u) (ul_list u ++ [(ul_next_node u, pd)])
     (ul_next_node u + 1) (ul_update_index u) (ul_htlc_index u) (ul_modified_htlcs u),
   ul_next_node u).

Definition set_ul_indices (update_index htlc_index : gmap Z node) (u : update_log) : update_log :=
  UpdateLog (ul_log_index u) (ul_htlc_counter u) (ul_list u) (ul_next_node u) update_index htlc_index
    (ul_modified_htlcs u).
Definition set_ul_counters (log_index htlc_counter : Z) (u : update_log) : update_log :=
  UpdateLog log_index htlc_counter (ul_list u) (ul_next_node u) (ul_update_index u) (ul_htlc_index u)
    (ul_modified_htlcs u).
Definition set_ul_list (l : list (node * payment_descriptor)) (u : update_log) : update_log :=
  UpdateLog (ul_log_index u) (ul_htlc_counter u) l (ul_next_node u) (ul_update_index u) (ul_htlc_index u)
    (ul_modified_htlcs u).
Definition set_ul_modified (m : gset Z) (u : update_log) : update_log :=
  UpdateLog (ul_log_index u) (ul_htlc_counter u) (ul_list u) (ul_next_node u) (ul_update_index u)
    (ul_htlc_index u) m.

(** The value of a node: the entry its pointer leads to. *)
Fixpoint node_in (n : node) (l : list (node * payment_descriptor)) : option payment_descriptor :=
  match l with
  | [] => None
  | (m, pd) :: l => if m =? n then Some pd else node_in n l
  end.
Definition node_value (n : node) (u : update_log) : option payment_descriptor := node_in n (ul_list u).

(** A write through the pointers [ns]. *)
Definition write_node (ns : list node) (f : payment_descriptor → payment_descriptor)
    (x : node * payment_descriptor) : node * payment_descriptor :=
  if bool_decide (x.1 ∈ ns) then (x.1, f x.2) else x.

Definition modify_nodes (ns : list node) (f : payment_descriptor → payment_descriptor) (u : update_log) :
    update_log :=
  set_ul_list (map (write_node ns f) (ul_list u)) u.

Definition restore_htlc (pd : payment_descriptor) (u : update_log) : update_log :=
  match ul_htlc_index u !! pd_htlc_index pd with
  | Some _ => u
  | None =>
      let '(u, n) := push_back pd u in
      set_ul_indices (ul_update_index u) (<[pd_htlc_index pd := n]> (ul_htlc_index u)) u
  end.

Definition append_update (pd : payment_descriptor) (u : update_log) : update_log :=
  let '(u, n) := push_back pd u in
  let u := set_ul_indices (<[ul_log_index u := n]> (ul_update_index u)) (ul_htlc_index u) u in
  set_ul_counters (u64 (ul_log_index u + 1)) (ul_htlc_counter u) u.

Definition restore_update (pd : payment_descriptor) (u : update_log) : update_log :=
  let '(u, n) := push_back pd u in
  set_ul_indices (<[pd_log_index pd := n]> (ul_update_index u)) (ul_htlc_index u) u.

Definition append_htlc (pd : payment_descriptor) (u : update_log) : update_log :=
  let '(u, n) := push_back pd u in
  let u := set_ul_indices (ul_update_index u) (<[ul_htlc_counter u := n]> (ul_htlc_index u)) u in
  set_ul_counters (u64 (ul_log_index u + 1)) (u64 (ul_htlc_counter u + 1)) u.

(** The newest fee update, from the back of the list. *)
Fixpoint last_fee_update (l : list (node * payment_descriptor)) : option (node * payment_descriptor) :=
  match l with
  | [] => None
  | (n, pd) :: l =>
      match last_fee_update l with
      | Some x => Some x
      | None => if bool_decide (pd_entry_type pd = FeeUpdate) then Some (n, pd) else None
      end
  end.

Definition append_fee_update (pd : payment_descriptor) (u : update_log) : update_log :=
  match last_fee_update (ul_list u) with
  | Some (n, update) =>
      if (dual_local (pd_add_heights update) =? 0) && (dual_remote (pd_add_heights update) =? 0)
      then modify_nodes [n] (set_pd_amount (pd_amount pd)) u
      else append_update pd u
  | None => append_update pd u
  end.

Definition lookup_htlc (i : Z) (u : update_log) : option payment_descriptor :=
  ul_htlc_index u !! i ≫= λ n, node_value n u.

(** [List.Remove] *)
Definition remove_node (n : node) (u : update_log) : update_log :=
  set_ul_list (List.filter (λ x, negb (x.1 =? n)) (ul_list u)) u.

Definition remove_update (i : Z) (u : update_log) : result log_error update_log :=
  match ul_update_index u !! i with
  | None => Err LogPanic
  | Some n =>
      let u := remove_node n u in
      Ok (set_ul_indices (delete i (ul_update_index u)) (ul_htlc_index u) u)
  end.

Definition remove_htlc (i : Z) (u : update_log) : result log_error update_log :=
  match ul_htlc_index u !! i with
  | None => Err LogPanic
  | Some n =>
      let u := remove_node n u in
      let u := set_ul_indices (ul_update_index u) (delete i (ul_htlc_index u)) u in
      Ok (set_ul_modified (ul_modified_htlcs u ∖ {[i]}) u)
  end.

Definition htlc_has_modification (i : Z) (u : update_log) : bool := bool_decide (i ∈ ul_modified_htlcs u).
Definition mark_htlc_modified (i : Z) (u : update_log) : update_log :=
  set_ul_modified ({[i]} ∪ ul_modified_htlcs u) u.

(** One turn of the loop of [compactLog], over the first log's entries as
    they were when it began: only the entry of the turn leaves that log. *)
Definition compact_entry (local_tail remote_tail : Z) (logs : update_log * update_log)
    (x : node * payment_descriptor) : result log_error (update_log * update_log) :=
  let '(log_a, log_b) := logs in
  let htlc := x.2 in
  let rmv := pd_remove_heights htlc in
  if bool_decide (pd_entry_type htlc = Add) then Ok (log_a, log_b)
  else if (dual_remote rmv =? 0) || (dual_local rmv =? 0) then Ok (log_a, log_b)
  else if (remote_tail >=? dual_remote rmv) && (local_tail >=? dual_local rmv) then
    let* log_a := remove_update (pd_log_index htlc) log_a in
    if bool_decide (pd_entry_type htlc = FeeUpdate) then Ok (log_a, log_b)
    else let* log_b := remove_htlc (pd_parent_index htlc) log_b in Ok (log_a, log_b)
  else Ok (log_a, log_b).

Definition compact_log (local_tail remote_tail : Z) (log_a log_b : update_log) :
    result log_error (update_log * update_log) :=
  fold_result (compact_entry local_tail remote_tail) (ul_list log_a) (log_a, log_b).

Definition compact_logs (our_log their_log : update_log) (local_tail remote_tail : Z) :
    result log_error (update_log * update_log) :=
  let* (our_log, their_log) := compact_log local_tail remote_tail our_log their_log in
  let* (their_log, our_log) := compact_log local_tail remote_tail their_log our_log in
  Ok (our_log, their_log).
