(* ===== verification/Channel.v ===== *)
(** * The channel state machine (lnwallet/channel.go)

    Two nodes keep two chains of commitments, one for each of them, and a log
    of each one's updates. A node adds, settles and fails HTLCs and changes the
    fee rate in the logs; [SignNextCommitment] extends the peer's chain with a
    commitment that covers the logs so far, [ReceiveNewCommitment] checks the
    peer's extension of our chain, [RevokeCurrentCommitment] and
    [ReceiveRevocation] drop the oldest commitment of a chain and, where both
    chains have done with an update, compact the logs.

    Commitments are modelled with their amounts: the outputs of the transaction
    without their scripts, order and signatures. Making and checking
    signatures, and btcd's check and weight of a transaction, are the class
    [ChannelPrims]. A channel here has no pending splice and no auxiliary
    components (leaf store, signer, HTLC validator); writes to the database
    succeed. *)

From S2P Require Import Prelude Chainfee Shachain UpdateLog.

Inductive channel_error :=
| ErrParentNotFound
| ErrParentNotCommitted
| ErrBelowChanReserve
| ErrFeeBufferNotInitiator
| ErrFeeBelowFloor
| ErrFeeAboveBalance
| ErrInvalidHTLCAmt
| ErrBelowMinHTLC
| ErrMaxPendingAmount
| ErrMaxHTLCNumber
| ErrStateHint
| ErrTxSanity
| ErrAboveCapacity
| ErrEffectiveFee
| ErrNoWindow
| ErrNoNextRevocation
| ErrNoCommitDiff
| ErrUnexpectedRevocation
| ErrRevocationKeyMismatch
| ErrInvalidSecret
| ErrRevokedSecret                  (* the store and the chain are out of step *)
| ErrOutputIndexes
| ErrNoNonce
| ErrSign
| ErrInvalidCommitSig
| ErrUnexpectedHtlcID
| ErrUnknownHtlcIndex
| ErrHtlcIndexAlreadySettled
| ErrHtlcIndexAlreadyFailed
| ErrInvalidSettlePreimage
| ErrNotInitiator
| ErrInitiator
| ErrShachain (e : shachain_error)
| ErrPanic.                          (* a nil pointer *)

Definition map_err {E F A} (f : E → F) (r : result E A) : result F A :=
  match r with Ok a => Ok a | Err e => Err (f e) end.

(** ** Amounts (lnwire/msat.go) *)

Definition msat_of_sat (sat : Z) : Z := u64 (u64 sat * 1000).
Definition to_satoshis (m : Z) : Z := m / 1000.

(** ** Channel types (channeldb/channel.go) *)

Definition anchor_outputs_bit : Z := Z.shiftl 1 3.
Definition zero_htlc_tx_fee_bit : Z := Z.shiftl 1 5.
Definition simple_taproot_feature_bit : Z := Z.shiftl 1 10.
Definition tapscript_root_bit : Z := Z.shiftl 1 11.
Definition taproot_final_bit : Z := Z.shiftl 1 12.
Definition independent_secrets_bit : Z := Z.shiftl 1 40.

Definition has_bit (c bit : Z) : bool := Z.land c bit =? bit.
Definition has_anchors (c : Z) : bool := has_bit c anchor_outputs_bit.
Definition zero_htlc_tx_fee (c : Z) : bool := has_bit c zero_htlc_tx_fee_bit.
Definition is_taproot (c : Z) : bool := has_bit c simple_taproot_feature_bit.
Definition is_taproot_final (c : Z) : bool := has_bit c taproot_final_bit.
Definition has_tapscript_root (c : Z) : bool := has_bit c tapscript_root_bit.
Definition has_independent_secrets (c : Z) : bool := has_bit c independent_secrets_bit.

Definition new_remote_secret_store (c : Z) : store :=
  if has_independent_secrets c then StIndependent new_independent_store
  else StRevocation new_revocation_store.

(** ** Weights (input/size.go) and fees *)

Definition witness_commitment_tx_weight : Z := 224.
Definition taproot_key_path_witness_size : Z := 66.
Definition input_commit_weight : Z := 724.
Definition anchor_commit_weight : Z := 1124.
Definition taproot_commit_weight : Z := 968.
Definition htlc_weight : Z := 172.
Definition htlc_timeout_weight : Z := 663.
Definition htlc_success_weight : Z := 703.
Definition htlc_timeout_weight_confirmed : Z := 666.
Definition htlc_success_weight_confirmed : Z := 706.
Definition anchor_size : Z := 330.
Definition max_state_hint : Z := Z.shiftl 1 48 - 1.

Definition commit_weight (c : Z) : Z :=
  if is_taproot c then taproot_commit_weight
  else if has_anchors c then anchor_commit_weight
  else input_commit_weight.

Definition htlc_timeout_fee (c fee_per_kw : Z) : Z :=
  if zero_htlc_tx_fee c || is_taproot c then 0
  else if has_anchors c then fee_for_weight fee_per_kw htlc_timeout_weight_confirmed
  else fee_for_weight fee_per_kw htlc_timeout_weight.

Definition htlc_success_fee (c fee_per_kw : Z) : Z :=
  if zero_htlc_tx_fee c || is_taproot c then 0
  else if has_anchors c then fee_for_weight fee_per_kw htlc_success_weight_confirmed
  else fee_for_weight fee_per_kw htlc_success_weight.

Definition htlc_is_dust (c : Z) (incoming : bool) (whose : channel_party)
    (fee_per_kw amt dust_limit : Z) : bool :=
  let htlc_fee :=
    match incoming, whose with
    | true, Local => htlc_success_fee c fee_per_kw
    | true, Remote => htlc_timeout_fee c fee_per_kw
    | false, Local => htlc_timeout_fee c fee_per_kw
    | false, Remote => htlc_success_fee c fee_per_kw
    end in
  i64 (amt - htlc_fee) <? dust_limit.

Definition calc_fee_buffer (fee_per_kw weight : Z) : Z :=
  let buffer_fee_per_kw := i64 (2 * fee_per_kw) in
  msat_of_sat (fee_for_weight buffer_fee_per_kw (u64 (weight + htlc_weight))).

(** ** The state *)

(** An output of a commitment transaction, with its value. *)
Inductive tx_out :=
| ToLocal (value : Z)
| ToRemote (value : Z)
| LocalAnchor (value : Z)
| RemoteAnchor (value : Z)
| HtlcOut (incoming : bool) (timeout htlc_index value : Z).

Definition tx_value (o : tx_out) : Z :=
  match o with
  | ToLocal v | ToRemote v | LocalAnchor v | RemoteAnchor v => v
  | HtlcOut _ _ _ v => v
  end.

Record commitment := Commitment {
  cm_height : Z;
  cm_whose : channel_party;
  cm_message_indices : dual Z;
  cm_our_htlc_index : Z;
  cm_their_htlc_index : Z;
  cm_txn : list tx_out;
  cm_our_balance : Z;
  cm_their_balance : Z;
  cm_fee : Z;
  cm_fee_per_kw : Z;
  cm_dust_limit : Z;
  cm_outgoing : list payment_descriptor;
  cm_incoming : list payment_descriptor;
}.

(** A chain of unrevoked commitments ([commitment_chain.go]). The list of a
    channel in use is never empty: its front is the tail of the chain. *)
Record commitment_chain := Chain { tail : commitment; rest : list commitment }.

Definition add_commitment (c : commitment) (s : commitment_chain) : commitment_chain :=
  Chain (tail s) (rest s ++ [c]).
Definition advance_tail (s : commitment_chain) : option commitment_chain :=
  match rest s with
  | [] => None
  | c :: l => Some (Chain c l)
  end.
Definition tip (s : commitment_chain) : commitment := List.last (rest s) (tail s).
Definition has_unacked_commitment (s : commitment_chain) : bool :=
  match rest s with [] => false | _ => true end.
Definition chain_list (s : commitment_chain) : list commitment := tail s :: rest s.

Record channel_config := ChannelConfig {
  cfg_chan_reserve : Z;
  cfg_max_pending_amount : Z;
  cfg_min_htlc : Z;
  cfg_max_accepted_htlcs : Z;
  cfg_dust_limit : Z;
}.

(** What the opening of the channel fixed. *)
Record channel_params := ChannelParams {
  pr_chan_type : Z;
  pr_is_initiator : bool;
  pr_capacity : Z;
  pr_local_cfg : channel_config;
  pr_remote_cfg : channel_config;
  pr_funding_txid : bytes;
}.

Definition initiator (p : channel_params) : channel_party :=
  if pr_is_initiator p then Local else Remote.
Definition cfg_for (p : channel_params) (who : channel_party) : channel_config :=
  match who with Local => pr_local_cfg p | Remote => pr_remote_cfg p end.

Record commit_diff := CommitDiff {
  cd_commitment : commitment;
  cd_commit_sig : list bytes;
  cd_log_updates : list payment_descriptor;
}.

(** The channel's record in the database and its copy in memory, as far as
    the state machine reads and writes it. *)
Record open_channel := OpenChannel {
  oc_local_commitment : commitment;
  oc_remote_commitment : commitment;
  oc_total_msat_sent : Z;
  oc_total_msat_received : Z;
  oc_remote_current_revocation : bytes;
  oc_remote_next_revocation : option bytes;
  oc_revocation_store : store;
  oc_revocation_producer : producer;
  oc_commit_diff : option commit_diff;
  oc_unsigned_acked_updates : option (list payment_descriptor);
  oc_remote_unsigned_local_updates : option (list payment_descriptor);
  oc_last_was_revoke : bool;             (* on disk *)
}.

Record channel := LightningChannel {
  lc_params : channel_params;
  lc_channel_state : open_channel;
  lc_current_height : Z;
  lc_commit_chains : dual commitment_chain;
  lc_update_logs : dual update_log;
}.

Definition set_update_logs (l : dual update_log) (lc : channel) : channel :=
  LightningChannel (lc_params lc) (lc_channel_state lc) (lc_current_height lc) (lc_commit_chains lc) l.
Definition set_commit_chains (c : dual commitment_chain) (lc : channel) : channel :=
  LightningChannel (lc_params lc) (lc_channel_state lc) (lc_current_height lc) c (lc_update_logs lc).
Definition set_channel_state (s : open_channel) (lc : channel) : channel :=
  LightningChannel (lc_params lc) s (lc_current_height lc) (lc_commit_chains lc) (lc_update_logs lc).
Definition set_current_height (h : Z) (lc : channel) : channel :=
  LightningChannel (lc_params lc) (lc_channel_state lc) h (lc_commit_chains lc) (lc_update_logs lc).

Definition log_of (lc : channel) (p : channel_party) : update_log := get_for_party (lc_update_logs lc) p.
Definition chain_of (lc : channel) (p : channel_party) : commitment_chain :=
  get_for_party (lc_commit_chains lc) p.
Definition set_log (p : channel_party) (u : update_log) (lc : channel) : channel :=
  set_update_logs (set_for_party (lc_update_logs lc) p u) lc.
Definition set_chain (p : channel_party) (c : commitment_chain) (lc : channel) : channel :=
  set_commit_chains (set_for_party (lc_commit_chains lc) p c) lc.

(** Methods of the channel: they return an error and leave behind what they
    wrote before it. *)
Definition M (A : Type) : Type := channel → channel * result channel_error A.

#[export] Instance M_ret : MRet M := λ A a lc, (lc, Ok a).
#[export] Instance M_bind : MBind M := λ A B k m lc,
  match m lc with
  | (lc', Ok a) => k a lc'
  | (lc', Err e) => (lc', Err e)
  end.
Definition get : M channel := λ lc, (lc, Ok lc).
Definition fail {A} (e : channel_error) : M A := λ lc, (lc, Err e).
Definition check (b : bool) (e : channel_error) : M () := if b then mret () else fail e.
Definition modify (f : channel → channel) : M () := λ lc, (f lc, Ok ()).
Definition lift {A} (r : result channel_error A) : M A := λ lc, (lc, r).

(** ** Views of the logs *)

(** An entry of a view, with the pointer to it. *)
Definition entry : Type := node * payment_descriptor.

Record htlc_view := HtlcView {
  hv_next_height : Z;
  hv_updates : dual (list entry);
  hv_fee_per_kw : Z;
}.

Definition entries_below (i : Z) (u : update_log) : list entry :=
  List.filter (λ x, pd_log_index x.2 <? i) (ul_list u).

Definition fetch_htlc_view (their_log_index our_log_index : Z) (lc : channel) : htlc_view :=
  HtlcView 0 (Dual (entries_below our_log_index (log_of lc Local))
                   (entries_below their_log_index (log_of lc Remote))) 0.

Definition add_height (whose : channel_party) (pd : payment_descriptor) : Z :=
  get_for_party (pd_add_heights pd) whose.
Definition remove_height (whose : channel_party) (pd : payment_descriptor) : Z :=
  get_for_party (pd_remove_heights pd) whose.

Definition is_uncommitted (whose : channel_party) (pd : payment_descriptor) : bool :=
  match pd_entry_type pd with
  | Add | NoOpAdd | FeeUpdate => add_height whose pd =? 0
  | Settle | Fail | MalformedFail => remove_height whose pd =? 0
  end.

Definition fetch_parent (lc : channel) (pd : payment_descriptor) (whose_commit whose_log : channel_party) :
    result channel_error payment_descriptor :=
  match lookup_htlc (pd_parent_index pd) (log_of lc whose_log) with
  | None => Err ErrParentNotFound
  | Some add =>
      ensure (negb (add_height whose_commit add =? 0)) else ErrParentNotCommitted;
      Ok add
  end.

(** A balance moved by a signed delta. *)
Definition apply_delta (balance delta : Z) : Z :=
  if 0 <=? delta then u64 (balance + u64 delta) else u64 (balance - u64 (i64 (-1 * delta))).

Definition balance_above_reserve (party : channel_party) (delta : Z) (lc : channel) : bool :=
  let c := lc_channel_state lc in
  match party with
  | Local =>
      msat_of_sat (cfg_chan_reserve (pr_local_cfg (lc_params lc)))
        <? apply_delta (cm_our_balance (oc_local_commitment c)) delta
  | Remote =>
      msat_of_sat (cfg_chan_reserve (pr_remote_cfg (lc_params lc)))
        <? apply_delta (cm_their_balance (oc_remote_commitment c)) delta
  end.

(** What the first pass of [evaluateHTLCView] builds: the adds to skip, the
    changes of the balances, and the settles of effective no-op adds, which it
    marks. *)
Record eval_acc := EvalAcc {
  ea_skip : dual (gset Z);
  ea_deltas : dual Z;
  ea_noops : dual (list node);
}.

Definition add_delta (p : channel_party) (d : Z) (acc : eval_acc) : eval_acc :=
  EvalAcc (ea_skip acc) (modify_for_party (ea_deltas acc) p (λ a, i64 (a + d))) (ea_noops acc).
Definition add_skip (p : channel_party) (i : Z) (acc : eval_acc) : eval_acc :=
  EvalAcc (modify_for_party (ea_skip acc) p (λ s, {[i]} ∪ s)) (ea_deltas acc) (ea_noops acc).
Definition add_noop (p : channel_party) (n : node) (acc : eval_acc) : eval_acc :=
  EvalAcc (ea_skip acc) (ea_deltas acc) (modify_for_party (ea_noops acc) p (λ l, n :: l)).

Definition evaluate_noop_htlc (lc : channel) (x : entry) (party : channel_party) (acc : eval_acc) : eval_acc :=
  let d := i64 (pd_amount x.2) in
  if balance_above_reserve party (get_for_party (ea_deltas acc) party) lc then
    add_delta (counter_party party) d (add_noop party x.1 acc)
  else add_delta party d acc.

Definition resolve_entry (lc : channel) (whose party : channel_party) (acc : eval_acc) (x : entry) :
    result channel_error eval_acc :=
  let* add := fetch_parent lc x.2 whose (counter_party party) in
  let acc := add_skip (counter_party party) (pd_htlc_index add) acc in
  if negb (remove_height whose x.2 =? 0) then Ok acc
  else if bool_decide (pd_entry_type x.2 = Settle) && bool_decide (pd_entry_type add = NoOpAdd) then
    Ok (evaluate_noop_htlc lc x party acc)
  else if bool_decide (pd_entry_type x.2 = Settle) then
    Ok (add_delta party (i64 (pd_amount x.2)) acc)
  else Ok (add_delta (counter_party party) (i64 (pd_amount x.2)) acc).

Definition live_adds (skip : gset Z) (l : list entry) : list entry :=
  List.filter (λ x, is_add x.2 && negb (bool_decide (pd_htlc_index x.2 ∈ skip))) l.

Definition debit_adds (whose : channel_party) (l : list entry) (delta : Z) : Z :=
  foldl (λ a x, if add_height whose x.2 =? 0 then i64 (a - i64 (pd_amount x.2)) else a) delta l.

(** The fee rate of the newest update of the opener, or the view's. *)
Definition view_fee_rate (lc : channel) (view : htlc_view) : Z :=
  match last (List.filter (λ x, bool_decide (pd_entry_type x.2 = FeeUpdate))
                (get_for_party (hv_updates view) (initiator (lc_params lc)))) with
  | Some x => to_satoshis (pd_amount x.2)
  | None => hv_fee_per_kw view
  end.

(** The first pass over the resolutions of a party: an error ends it, what it
    marked before stays. *)
Fixpoint resolve_entries (lc : channel) (whose party : channel_party) (acc : eval_acc) (l : list entry) :
    eval_acc * result channel_error () :=
  match l with
  | [] => (acc, Ok ())
  | x :: l =>
      match resolve_entry lc whose party acc x with
      | Ok acc => resolve_entries lc whose party acc l
      | Err e => (acc, Err e)
      end
  end.

Definition resolutions (l : list entry) : list entry := List.filter (λ x, is_resolution x.2) l.

Definition resolve_view (lc : channel) (whose : channel_party) (view : htlc_view) :
    eval_acc * result channel_error () :=
  match resolve_entries lc whose Local (EvalAcc (Dual ∅ ∅) (Dual 0 0) (Dual [] []))
          (resolutions (dual_local (hv_updates view))) with
  | (acc, Ok _) => resolve_entries lc whose Remote acc (resolutions (dual_remote (hv_updates view)))
  | (acc, Err e) => (acc, Err e)
  end.

Record evaluation := Evaluation {
  ev_view : htlc_view;
  ev_uncommitted : dual (list entry);
  ev_deltas : dual Z;
}.

(** The settles that the evaluation marks, and its result. *)
Definition evaluate_htlc_view (lc : channel) (view : htlc_view) (whose : channel_party) (next_height : Z) :
    dual (list node) * result channel_error evaluation :=
  let '(acc, r) := resolve_view lc whose view in
  let live p := live_adds (get_for_party (ea_skip acc) p) (get_for_party (hv_updates view) p) in
  let delta p := debit_adds whose (live p) (get_for_party (ea_deltas acc) p) in
  let uncommitted p := List.filter (λ x, is_uncommitted whose x.2) (get_for_party (hv_updates view) p) in
  (ea_noops acc,
   let* _ := r in
   Ok (Evaluation (HtlcView next_height (Dual (live Local) (live Remote)) (view_fee_rate lc view))
         (Dual (uncommitted Local) (uncommitted Remote)) (Dual (delta Local) (delta Remote)))).

(** The number of HTLC outputs of a commitment. *)
Definition not_dust (p : channel_params) (whose : channel_party) (incoming : bool) (fee_per_kw : Z)
    (pd : payment_descriptor) : bool :=
  negb (htlc_is_dust (pr_chan_type p) incoming whose fee_per_kw (to_satoshis (pd_amount pd))
          (cfg_dust_limit (cfg_for p whose))).

Definition outputs_of (p : channel_params) (whose : channel_party) (incoming : bool) (fee_per_kw : Z)
    (l : list entry) : list entry :=
  List.filter (λ x, not_dust p whose incoming fee_per_kw x.2) l.

Definition num_htlcs (p : channel_params) (whose : channel_party) (fee_per_kw : Z) (view : htlc_view) : Z :=
  Z.of_nat (length (outputs_of p whose false fee_per_kw (dual_local (hv_updates view)))) +
  Z.of_nat (length (outputs_of p whose true fee_per_kw (dual_remote (hv_updates view)))).

(** The writes of [computeView] through the view's pointers. *)
Definition mark_noops (noops : dual (list node)) (lc : channel) : channel :=
  set_update_logs
    (Dual (modify_nodes (dual_local noops) (set_pd_noop_settle true) (log_of lc Local))
          (modify_nodes (dual_remote noops) (set_pd_noop_settle true) (log_of lc Remote))) lc.

Definition set_commit_heights (whose : channel_party) (next_height : Z) (uncommitted : dual (list entry))
    (lc : channel) : channel :=
  let set p := modify_nodes (get_for_party uncommitted p).*1 (set_commit_height whose next_height) (log_of lc p) in
  set_update_logs (Dual (set Local) (set Remote)) lc.

Definition record_settlement (redeemer : channel_party) (amt : Z) (lc : channel) : channel :=
  let s := lc_channel_state lc in
  let '(sent, received) :=
    match redeemer with
    | Local => (oc_total_msat_sent s, u64 (oc_total_msat_received s + amt))
    | Remote => (u64 (oc_total_msat_sent s + amt), oc_total_msat_received s)
    end in
  set_channel_state
    (OpenChannel (oc_local_commitment s) (oc_remote_commitment s) sent received
       (oc_remote_current_revocation s) (oc_remote_next_revocation s) (oc_revocation_store s)
       (oc_revocation_producer s) (oc_commit_diff s) (oc_unsigned_acked_updates s)
       (oc_remote_unsigned_local_updates s) (oc_last_was_revoke s)) lc.

(** The settles of the view that move money, with the mark read through the
    pointer: one that this evaluation marked counts as marked. *)
Definition effective_settles (noops : list node) (l : list entry) : list entry :=
  List.filter (λ x, bool_decide (pd_entry_type x.2 = Settle) &&
                    negb (pd_noop_settle x.2 || bool_decide (x.1 ∈ noops))) l.

Definition record_settlements (whose : channel_party) (noops : dual (list node))
    (uncommitted : dual (list entry)) (lc : channel) : channel :=
  match whose with
  | Remote => lc
  | Local =>
      let record p lc :=
        foldl (λ lc x, record_settlement p (pd_amount x.2) lc) lc
          (effective_settles (get_for_party noops p) (get_for_party uncommitted p)) in
      record Remote (record Local lc)
  end.

Record computed_view := ComputedView {
  cv_our_balance : Z;
  cv_their_balance : Z;
  cv_commit_weight : Z;
  cv_view : htlc_view;
}.

Definition compute_view (view : htlc_view) (whose : channel_party) (update_state : bool)
    (dry_run_fee : option Z) : M computed_view :=
  lc ← get;
  let commit := tip (chain_of lc whose) in
  let fee := msat_of_sat (cm_fee commit) in
  let our_balance := if pr_is_initiator (lc_params lc) then u64 (cm_our_balance commit + fee)
                     else cm_our_balance commit in
  let their_balance := if pr_is_initiator (lc_params lc) then cm_their_balance commit
                       else u64 (cm_their_balance commit + fee) in
  let next_height := u64 (cm_height commit + 1) in
  let view := HtlcView next_height (hv_updates view) (cm_fee_per_kw commit) in
  let '(noops, r) := evaluate_htlc_view lc view whose next_height in
  _ ← modify (mark_noops noops);
  e ← lift r;
  let our_balance := apply_delta our_balance (dual_local (ev_deltas e)) in
  let their_balance := apply_delta their_balance (dual_remote (ev_deltas e)) in
  _ ← modify (λ lc, if update_state
                    then record_settlements whose noops (ev_uncommitted e)
                           (set_commit_heights whose next_height (ev_uncommitted e) lc)
                    else lc);
  let fee_per_kw := hv_fee_per_kw (ev_view e) in
  let fee_per_kw := if update_state then fee_per_kw else default fee_per_kw dry_run_fee in
  _ ← check (0 <=? i64 our_balance) ErrBelowChanReserve;
  _ ← check (0 <=? i64 their_balance) ErrBelowChanReserve;
  let total_htlc_weight := u64 (htlc_weight * num_htlcs (lc_params lc) whose fee_per_kw (ev_view e)) in
  mret (ComputedView our_balance their_balance
          (u64 (commit_weight (pr_chan_type (lc_params lc)) + total_htlc_weight)) (ev_view e)).

(** ** The checks of a view *)

Inductive buffer_type := NoBuffer | FeeBuffer | AdditionalHtlc.

(** The new balance, the buffer without the fee, and the fee. *)
Definition apply_commit_fee (p : channel_params) (balance weight fee_per_kw : Z) (buffer : buffer_type) :
    result channel_error (Z * Z * Z) :=
  let commit_fee := msat_of_sat (fee_for_weight fee_per_kw weight) in
  match buffer with
  | FeeBuffer =>
      ensure pr_is_initiator p else ErrFeeBufferNotInitiator;
      let buffer_amt := calc_fee_buffer fee_per_kw weight in
      ensure (buffer_amt <? balance) else ErrBelowChanReserve;
      Ok (balance - buffer_amt, u64 (buffer_amt - commit_fee), commit_fee)
  | AdditionalHtlc =>
      let additional_htlc_fee := msat_of_sat (fee_for_weight fee_per_kw htlc_weight) in
      let buffer_amt := u64 (commit_fee + additional_htlc_fee) in
      ensure (buffer_amt <? balance) else ErrBelowChanReserve;
      Ok (balance - buffer_amt, additional_htlc_fee, commit_fee)
  | NoBuffer =>
      ensure (commit_fee <? balance) else ErrBelowChanReserve;
      Ok (balance - commit_fee, 0, commit_fee)
  end.

(** One update of the loop of [validateUpdates]: the number and the amount in
    flight so far. *)
Definition validate_update (cfg : channel_config) (acc : Z * Z) (x : entry) :
    result channel_error (Z * Z) :=
  let '(num, amt) := acc in
  if is_add x.2 then
    ensure (negb (pd_amount x.2 =? 0)) else ErrInvalidHTLCAmt;
    ensure (negb (pd_amount x.2 <? cfg_min_htlc cfg)) else ErrBelowMinHTLC;
    Ok (u16 (num + 1), u64 (amt + pd_amount x.2))
  else Ok acc.

Definition validate_updates (cfg : channel_config) (l : list entry) : result channel_error () :=
  let* (num, amt) := fold_result (validate_update cfg) l (0, 0) in
  ensure (negb (cfg_max_pending_amount cfg <? amt)) else ErrMaxPendingAmount;
  ensure (negb (cfg_max_accepted_htlcs cfg <? num)) else ErrMaxHTLCNumber;
  Ok ().

Definition append_predicted (add : option payment_descriptor) (u : update_log) (l : list entry) : list entry :=
  match add with
  | None => l
  | Some pd => l ++ [(ul_next_node u, pd)]
  end.

Definition predict_adds (our their : option payment_descriptor) (lc : channel) (view : htlc_view) : htlc_view :=
  HtlcView (hv_next_height view)
    (Dual (append_predicted our (log_of lc Local) (dual_local (hv_updates view)))
          (append_predicted their (log_of lc Remote) (dual_remote (hv_updates view))))
    (hv_fee_per_kw view).

Definition validate_commitment_sanity (their_log_counter our_log_counter : Z) (whose : channel_party)
    (buffer : buffer_type) (predict_our_add predict_their_add : option payment_descriptor) : M () :=
  lc ← get;
  let p := lc_params lc in
  let commit := tip (chain_of lc whose) in
  let view := predict_adds predict_our_add predict_their_add lc
                (fetch_htlc_view their_log_counter our_log_counter lc) in
  cv ← compute_view view whose false None;
  let fee_per_kw := hv_fee_per_kw (cv_view cv) in
  _ ← check (fee_per_kw_floor <=? fee_per_kw) ErrFeeBelowFloor;
  '(our_balance, their_balance) ←
    (if pr_is_initiator p then
       '(balance, _, _) ← lift (apply_commit_fee p (cv_our_balance cv) (cv_commit_weight cv) fee_per_kw buffer);
       mret (balance, cv_their_balance cv)
     else
       '(balance, _, _) ← lift (apply_commit_fee p (cv_their_balance cv) (cv_commit_weight cv) fee_per_kw NoBuffer);
       mret (cv_our_balance cv, balance));
  let our_reserve := msat_of_sat (cfg_chan_reserve (pr_local_cfg p)) in
  let their_reserve := msat_of_sat (cfg_chan_reserve (pr_remote_cfg p)) in
  _ ← check (negb ((our_balance <? cm_our_balance commit) && (our_balance <? our_reserve))) ErrBelowChanReserve;
  _ ← check (negb ((their_balance <? cm_their_balance commit) && (their_balance <? their_reserve)))
        ErrBelowChanReserve;
  _ ← lift (validate_updates (pr_remote_cfg p) (dual_remote (hv_updates (cv_view cv))));
  lift (validate_updates (pr_local_cfg p) (dual_local (hv_updates (cv_view cv)))).

(** ** Commitment transactions (lnwallet/commitment.go) *)

Class ChannelPrims := {
  compute_commitment_point : bytes → bytes;             (* the curve point of a secret *)
  check_transaction_sanity : list tx_out → bool;        (* blockchain.CheckTransactionSanity *)
  get_transaction_weight : list tx_out → Z;             (* blockchain.GetTransactionWeight *)
  sign_commitment : bytes → commitment → option (list bytes);
    (* the signatures on a commitment at the point and on its HTLCs *)
  verify_commitment : bytes → commitment → list bytes → bool;
  find_output_indexes : channel_params → commitment → bytes → option (Z * Z);
    (* findOutputIndexesFromRemote: our output and the peer's on its commitment
       with this secret, none where a script cannot be made *)
  gen_nonces : bytes → option bytes;                    (* musig2.GenNonces from this randomness *)
}.

Definition create_commit_tx (chan_type dust_limit amount_to_local amount_to_remote num : Z) : list tx_out :=
  let local_output := dust_limit <=? amount_to_local in
  let remote_output := dust_limit <=? amount_to_remote in
  (if local_output then [ToLocal amount_to_local] else []) ++
  (if remote_output then [ToRemote amount_to_remote] else []) ++
  (if has_anchors chan_type then
     (if local_output || (0 <? num) then [LocalAnchor anchor_size] else []) ++
     (if remote_output || (0 <? num) then [RemoteAnchor anchor_size] else [])
   else []).

(** [addHTLC] of commitment.go: the output of an HTLC. *)
Definition htlc_out (incoming : bool) (x : entry) : tx_out :=
  HtlcOut incoming (pd_timeout x.2) (pd_htlc_index x.2) (to_satoshis (pd_amount x.2)).

Definition total_out (txn : list tx_out) : Z := foldl (λ a o, i64 (a + tx_value o)) 0 txn.

Record unsigned_commitment_tx := UnsignedCommitmentTx {
  uc_txn : list tx_out;
  uc_fee : Z;
  uc_our_balance : Z;
  uc_their_balance : Z;
}.

Section Commitments.
Context {HP : HashPrims} {CP : ChannelPrims}.

Definition create_unsigned_commitment_tx (p : channel_params) (our_balance their_balance : Z)
    (whose : channel_party) (fee_per_kw height : Z) (view : htlc_view) :
    result channel_error unsigned_commitment_tx :=
  let dust_limit := cfg_dust_limit (cfg_for p whose) in
  let n := num_htlcs p whose fee_per_kw view in
  let total_commit_weight := u64 (commit_weight (pr_chan_type p) + u64 (i64 (htlc_weight * n))) in
  let commit_fee := fee_for_weight fee_per_kw total_commit_weight in
  let commit_fee_msat := msat_of_sat commit_fee in
  let our_balance :=
    if pr_is_initiator p then
      if to_satoshis our_balance <? commit_fee then 0 else u64 (our_balance - commit_fee_msat)
    else our_balance in
  let their_balance :=
    if pr_is_initiator p then their_balance
    else if to_satoshis their_balance <? commit_fee then 0 else u64 (their_balance - commit_fee_msat) in
  let commit_tx :=
    match whose with
    | Local => create_commit_tx (pr_chan_type p) dust_limit (to_satoshis our_balance) (to_satoshis their_balance) n
    | Remote => create_commit_tx (pr_chan_type p) dust_limit (to_satoshis their_balance) (to_satoshis our_balance) n
    end in
  let commit_tx :=
    commit_tx ++
    map (htlc_out false) (outputs_of p whose false fee_per_kw (dual_local (hv_updates view))) ++
    map (htlc_out true) (outputs_of p whose true fee_per_kw (dual_remote (hv_updates view))) in
  ensure (height <=? max_state_hint) else ErrStateHint;
  ensure check_transaction_sanity commit_tx else ErrTxSanity;
  ensure (i64 (total_out commit_tx + commit_fee) <=? pr_capacity p) else ErrAboveCapacity;
  Ok (UnsignedCommitmentTx commit_tx commit_fee our_balance their_balance).

Definition fetch_commitment_view (whose : channel_party) (our_log_index our_htlc_index their_log_index
    their_htlc_index : Z) : M commitment :=
  lc ← get;
  let p := lc_params lc in
  let next_height := u64 (cm_height (tip (chain_of lc whose)) + 1) in
  let view := fetch_htlc_view their_log_index our_log_index lc in
  cv ← compute_view view whose true None;
  let fee_per_kw := hv_fee_per_kw (cv_view cv) in
  tx ← lift (create_unsigned_commitment_tx p (cv_our_balance cv) (cv_their_balance cv) whose fee_per_kw
               next_height (cv_view cv));
  let fee := i64 (pr_capacity p - total_out (uc_txn tx)) in
  let witness_weight := if is_taproot (pr_chan_type p) then taproot_key_path_witness_size
                        else witness_commitment_tx_weight in
  let weight := get_transaction_weight (uc_txn tx) + witness_weight in
  _ ← check (absolute_fee_per_kw_floor <=? Z.quot (i64 (fee * 1000)) weight) ErrEffectiveFee;
  (* the HTLCs are copied through the view's pointers, after its writes *)
  lc' ← get;
  let copy p l := map (λ x, default x.2 (node_value x.1 (log_of lc' p))) l in
  mret (Commitment next_height whose (Dual our_log_index their_log_index) our_htlc_index their_htlc_index
          (uc_txn tx) (uc_our_balance tx) (uc_their_balance tx) (uc_fee tx) fee_per_kw
          (cfg_dust_limit (cfg_for p whose))
          (copy Local (dual_local (hv_updates (cv_view cv))))
          (copy Remote (dual_remote (hv_updates (cv_view cv))))).

(** ** The commitment dance *)

Definition owe_commitment (issuer : channel_party) (lc : channel) : bool :=
  let last_local := cm_message_indices (tip (chain_of lc Local)) in
  let last_remote := cm_message_indices (tip (chain_of lc Remote)) in
  match issuer with
  | Local =>
      negb (ul_log_index (log_of lc Local) =? dual_local last_remote) ||
      negb (dual_remote last_local =? dual_remote last_remote)
  | Remote =>
      negb (ul_log_index (log_of lc Remote) =? dual_remote last_local) ||
      negb (dual_local last_remote =? dual_local last_local)
  end.

Definition num_pending_updates (whose_updates whose_commit : channel_party) (lc : channel) : Z :=
  u64 (ul_log_index (log_of lc whose_updates) -
       get_for_party (cm_message_indices (tip (chain_of lc whose_commit))) whose_updates).

(** What [SignNextCommitment] sends again after a reconnection: the updates of
    ours that are new on the commitment. *)
Definition create_commit_diff (c : commitment) (sigs : list bytes) (lc : channel) : commit_diff :=
  CommitDiff c sigs (List.filter (λ pd, (add_height Remote pd =? cm_height c) || (remove_height Remote pd =? cm_height c))
                  (ul_values (log_of lc Local))).

Definition store_add_next_entry (s : store) (h : bytes) : result shachain_error store :=
  match s with
  | StRevocation s => let* s := add_next_entry s h in Ok (StRevocation s)
  | StIndependent s => let* s := ind_add_next_entry s (Some h) in Ok (StIndependent s)
  end.
Definition store_look_up (s : store) (v : Z) : result shachain_error bytes :=
  match s with StRevocation s => look_up s v | StIndependent s => ind_look_up s v end.
Definition producer_at_index (p : producer) (v : Z) : result shachain_error bytes :=
  match p with
  | PrRevocation p => at_index p v
  | PrIndependent p => ind_at_index p v
  end.
(** [UsesIndependentSecrets] of a channel of a type. *)
Definition state_uses_independent_secrets (ct : Z) (s : open_channel) : bool :=
  has_independent_secrets ct ||
  match oc_revocation_store s with StIndependent _ => true | StRevocation _ => false end.
Definition uses_independent_secrets (lc : channel) : bool :=
  state_uses_independent_secrets (pr_chan_type (lc_params lc)) (lc_channel_state lc).

(** *** The database (channeldb/channel.go) *)

(** [AppendRemoteCommitChain] *)
Definition append_remote_commit_chain (d : commit_diff) (s : open_channel) : open_channel :=
  OpenChannel (oc_local_commitment s) (oc_remote_commitment s) (oc_total_msat_sent s) (oc_total_msat_received s)
    (oc_remote_current_revocation s) (oc_remote_next_revocation s) (oc_revocation_store s)
    (oc_revocation_producer s) (Some d) (oc_unsigned_acked_updates s) (oc_remote_unsigned_local_updates s) false.

(** The final HTLCs that [UpdateCommitment] reports: of the updates that the
    peer's commitment had first, those that the new local commitment has. *)
Definition final_htlcs (updates : list payment_descriptor) (c : commitment) : list (Z * bool) :=
  map (λ pd, (pd_parent_index pd, bool_decide (pd_entry_type pd = Settle)))
    (List.filter (λ pd, is_resolution pd && (pd_log_index pd <? dual_local (cm_message_indices c))) updates).

(** [UpdateCommitment] *)
Definition update_commitment (c : commitment) (unsigned_acked : list payment_descriptor) (s : open_channel) :
    open_channel * list (Z * bool) :=
  let unsigned := option_map (List.filter (λ pd, pd_log_index pd >=? dual_local (cm_message_indices c)))
                    (oc_remote_unsigned_local_updates s) in
  (OpenChannel c (oc_remote_commitment s) (oc_total_msat_sent s) (oc_total_msat_received s)
     (oc_remote_current_revocation s) (oc_remote_next_revocation s) (oc_revocation_store s)
     (oc_revocation_producer s) (oc_commit_diff s) (Some unsigned_acked) unsigned true,
   match oc_remote_unsigned_local_updates s with
   | None => []
   | Some updates => final_htlcs updates c
   end).

(** [revokedCommitSecret]: the secret that goes into the revocation log. *)
Definition revoked_commit_secret (ct : Z) (s : open_channel) : result channel_error (option bytes) :=
  if state_uses_independent_secrets ct s then
    let height := cm_height (oc_remote_commitment s) in
    ensure (match oc_revocation_store s with
            | StIndependent st => num_entries st =? u64 (height + 1)
            | StRevocation _ => true
            end) else ErrRevokedSecret;
    let* secret := map_err (λ _, ErrRevokedSecret) (store_look_up (oc_revocation_store s) height) in
    Ok (Some secret)
  else Ok None.

(** [AdvanceCommitChainTail] on a channel of a type: an error when no commitment
    waits, or when the store has not the secret of the revoked one. *)
Definition advance_commit_chain_tail (ct : Z) (updates : list payment_descriptor) (s : open_channel) :
    result channel_error open_channel :=
  match oc_commit_diff s with
  | None => Err ErrNoCommitDiff
  | Some d =>
      let* _ := revoked_commit_secret ct s in
      let valid := option_map
        (List.filter (λ pd, pd_log_index pd >=? dual_remote (cm_message_indices (cd_commitment d))))
        (oc_unsigned_acked_updates s) in
      let unsigned := match oc_unsigned_acked_updates s with
                      | None => oc_remote_unsigned_local_updates s
                      | Some _ => Some updates
                      end in
      Ok (OpenChannel (oc_local_commitment s) (cd_commitment d) (oc_total_msat_sent s)
              (oc_total_msat_received s) (oc_remote_current_revocation s) (oc_remote_next_revocation s)
              (oc_revocation_store s) (oc_revocation_producer s) None valid unsigned
              (oc_last_was_revoke s))
  end.

Definition set_remote_revocations (current : bytes) (next : option bytes) (st : store) (s : open_channel) :
    open_channel :=
  OpenChannel (oc_local_commitment s) (oc_remote_commitment s) (oc_total_msat_sent s) (oc_total_msat_received s)
    current next st (oc_revocation_producer s) (oc_commit_diff s) (oc_unsigned_acked_updates s)
    (oc_remote_unsigned_local_updates s) (oc_last_was_revoke s).

Definition init_next_revocation (rev_key : bytes) (lc : channel) : channel :=
  let s := lc_channel_state lc in
  set_channel_state (set_remote_revocations (oc_remote_current_revocation s) (Some rev_key)
                       (oc_revocation_store s) s) lc.

(** *** Signing and receiving commitments *)

Definition sign_next_commitment : M (list bytes) :=
  lc ← get;
  _ ← check (negb (has_unacked_commitment (chain_of lc Remote))) ErrNoWindow;
  match oc_remote_next_revocation (lc_channel_state lc) with
  | None => fail ErrNoWindow
  | Some commit_point =>
      let remote_acked_index := dual_remote (cm_message_indices (tail (chain_of lc Local))) in
      let remote_htlc_index := cm_their_htlc_index (tail (chain_of lc Local)) in
      let our_log_index := ul_log_index (log_of lc Local) in
      _ ← validate_commitment_sanity remote_acked_index our_log_index Remote NoBuffer None None;
      view ← fetch_commitment_view Remote our_log_index (ul_htlc_counter (log_of lc Local))
               remote_acked_index remote_htlc_index;
      match sign_commitment commit_point view with
      | None => fail ErrSign
      | Some sigs =>
          _ ← modify (λ lc, set_channel_state
                (append_remote_commit_chain (create_commit_diff view sigs lc) (lc_channel_state lc)) lc);
          _ ← modify (λ lc, set_chain Remote (add_commitment view (chain_of lc Remote)) lc);
          mret sigs
      end
  end.

Definition receive_new_commitment (sigs : list bytes) : M () :=
  lc ← get;
  let local_acked_index := dual_local (cm_message_indices (tail (chain_of lc Remote))) in
  let local_htlc_index := cm_our_htlc_index (tail (chain_of lc Remote)) in
  let their_log_index := ul_log_index (log_of lc Remote) in
  _ ← validate_commitment_sanity their_log_index local_acked_index Local NoBuffer None None;
  let next_height := u64 (lc_current_height lc + 1) in
  commit_secret ← lift (map_err ErrShachain
    (producer_at_index (oc_revocation_producer (lc_channel_state lc)) next_height));
  view ← fetch_commitment_view Local local_acked_index local_htlc_index their_log_index
           (ul_htlc_counter (log_of lc Remote));
  _ ← check (verify_commitment (compute_commitment_point commit_secret) view sigs) ErrInvalidCommitSig;
  modify (λ lc, set_chain Local (add_commitment view (chain_of lc Local)) lc).

(** *** Revocations *)

Record revoke_and_ack := RevokeAndAck {
  ra_revocation : bytes;
  ra_next_revocation_key : bytes;
  ra_local_nonces : option (gmap bytes bytes);   (* by funding transaction *)
  ra_local_nonce : option bytes;
}.

(** [DeriveMusig2Shachain]: the producer of the nonces, from that of the
    secrets. A channel derives it when it is made. *)
Definition taproot_rev_root_key : bytes := bytes_of_string "taproot-rev-root".
Definition derive_musig2_shachain (p : producer) : result shachain_error producer :=
  let* p := new_revocation_producer_from_bytes
              (hmac_sha256 taproot_rev_root_key (sha256 (producer_encode p))) in
  Ok (PrRevocation p).

(** [NewMusigVerificationNonce], from the producer that is derived of [p]. *)
Definition new_musig_verification_nonce (target_height : Z) (p : producer) : result channel_error bytes :=
  let* preimage := map_err ErrShachain (let* p := derive_musig2_shachain p in producer_at_index p target_height) in
  match gen_nonces preimage with Some nonce => Ok nonce | None => Err ErrNoNonce end.

Definition generate_revocation (height : Z) (lc : channel) : result channel_error revoke_and_ack :=
  let p := oc_revocation_producer (lc_channel_state lc) in
  let* commit_secret := map_err ErrShachain (producer_at_index p height) in
  let rev_height := u64 (height + 2) in
  let* next_commit_secret := map_err ErrShachain (producer_at_index p rev_height) in
  let* nonces :=
    if is_taproot (pr_chan_type (lc_params lc)) then
      let* nonce := new_musig_verification_nonce rev_height p in
      Ok (if is_taproot_final (pr_chan_type (lc_params lc))
          then (Some {[pr_funding_txid (lc_params lc) := nonce]}, None) else (None, Some nonce))
    else Ok (None, None) in
  Ok (RevokeAndAck commit_secret (compute_commitment_point next_commit_secret) nonces.1 nonces.2).

(** The peer's updates that our commitment has and the peer's has not. *)
Definition get_unsigned_acked_updates (lc : channel) : list payment_descriptor :=
  let last_remote_committed := dual_remote (cm_message_indices (tail (chain_of lc Remote))) in
  let last_local_committed := dual_remote (cm_message_indices (tail (chain_of lc Local))) in
  List.filter (λ pd, negb (pd_log_index pd <? last_remote_committed) &&
                     negb (pd_log_index pd >=? last_local_committed))
    (ul_values (log_of lc Remote)).

Definition revoke_current_commitment : M (revoke_and_ack * commitment * list (Z * bool)) :=
  lc ← get;
  msg ← lift (generate_revocation (lc_current_height lc) lc);
  match advance_tail (chain_of lc Local) with
  | None => fail ErrPanic
  | Some local_chain =>
      _ ← modify (λ lc, set_current_height (u64 (lc_current_height lc + 1)) (set_chain Local local_chain lc));
      lc ← get;
      let chain_tail := tail (chain_of lc Local) in
      let '(s, final) := update_commitment chain_tail (get_unsigned_acked_updates lc) (lc_channel_state lc) in
      _ ← modify (set_channel_state s);
      mret (msg, chain_tail, final)
  end.

Definition unsigned_local_updates (remote_message_index local_message_index : Z) (lc : channel) :
    list payment_descriptor :=
  List.filter (λ pd, negb (is_add pd) && ((pd_log_index pd <? remote_message_index) &&
                                          (pd_log_index pd >=? local_message_index)))
    (ul_values (log_of lc Local)).

(** Whether an update is newly locked in on both chains, with these tails. *)
Definition should_forward (remote_tail local_tail : Z) (pd : payment_descriptor) : bool :=
  let fwd heights :=
    (0 <? dual_remote heights) && (0 <? dual_local heights) &&
    ((remote_tail =? dual_remote heights) && (local_tail >=? dual_local heights)) in
  negb (bool_decide (pd_entry_type pd = FeeUpdate)) && negb (pd_is_forwarded pd) &&
  (if is_add pd then fwd (pd_add_heights pd) else fwd (pd_remove_heights pd)).

Record fwd_pkg := FwdPkg {
  fp_height : Z;
  fp_adds : list payment_descriptor;
  fp_settle_fails : list payment_descriptor;
}.

(** [extractRevokeAndAckNonce] *)
Definition extract_revoke_and_ack_nonce (msg : revoke_and_ack) (funding_txid : bytes) : result channel_error bytes :=
  match ra_local_nonces msg with
  | Some nonces => match nonces !! funding_txid with Some nonce => Ok nonce | None => Err ErrNoNonce end
  | None => match ra_local_nonce msg with Some nonce => Ok nonce | None => Err ErrNoNonce end
  end.

Definition receive_revocation (msg : revoke_and_ack) : M (fwd_pkg * commitment) :=
  lc ← get;
  _ ← check (has_unacked_commitment (chain_of lc Remote)) ErrUnexpectedRevocation;
  match oc_remote_next_revocation (lc_channel_state lc) with
  | None => fail ErrNoNextRevocation
  | Some next_revocation =>
      _ ← check (bool_decide (compute_commitment_point (ra_revocation msg) =
                              oc_remote_current_revocation (lc_channel_state lc))) ErrRevocationKeyMismatch;
      _ ← check (negb (uses_independent_secrets lc) ||
                 negb (scalar_overflow (ra_revocation msg) || scalar_is_zero (ra_revocation msg)))
            ErrInvalidSecret;
      revocation ← lift (map_err ErrShachain (new_hash (ra_revocation msg)));
      st ← lift (map_err ErrShachain
             (store_add_next_entry (oc_revocation_store (lc_channel_state lc)) revocation));
      _ ← modify (λ lc, set_channel_state
            (set_remote_revocations next_revocation (Some (ra_next_revocation_key msg)) st (lc_channel_state lc)) lc);
      let remote_chain_tail := u64 (cm_height (tail (chain_of lc Remote)) + 1) in
      let local_chain_tail := cm_height (tail (chain_of lc Local)) in
      let forwarded := List.filter (λ x, should_forward remote_chain_tail local_chain_tail x.2)
                         (ul_list (log_of lc Remote)) in
      _ ← modify (λ lc, set_log Remote (modify_nodes forwarded.*1 (set_pd_is_forwarded true) (log_of lc Remote)) lc);
      let local_peer_updates := unsigned_local_updates
        (dual_local (cm_message_indices (tip (chain_of lc Remote))))
        (dual_local (cm_message_indices (tail (chain_of lc Local)))) lc in
      lc ← get;
      _ ← check (bool_decide (is_Some (find_output_indexes (lc_params lc) (oc_remote_commitment (lc_channel_state lc)) revocation)))
            ErrOutputIndexes;
      _ ← check (negb (is_taproot (pr_chan_type (lc_params lc))) ||
                 is_ok (extract_revoke_and_ack_nonce msg (pr_funding_txid (lc_params lc)))) ErrNoNonce;
      match advance_commit_chain_tail (pr_chan_type (lc_params lc)) local_peer_updates (lc_channel_state lc) with
      | Err e => fail e
      | Ok s =>
          _ ← modify (set_channel_state s);
          match advance_tail (chain_of lc Remote) with
          | None => fail ErrPanic
          | Some remote_chain =>
              _ ← modify (set_chain Remote remote_chain);
              lc ← get;
              '(our_log, their_log) ← lift (map_err (λ _, ErrPanic)
                (compact_logs (log_of lc Local) (log_of lc Remote) local_chain_tail remote_chain_tail));
              _ ← modify (set_update_logs (Dual our_log their_log));
              lc ← get;
              mret (FwdPkg remote_chain_tail
                      (map snd (List.filter (λ x, is_add x.2) forwarded))
                      (map snd (List.filter (λ x, negb (is_add x.2)) forwarded)),
                    oc_remote_commitment (lc_channel_state lc))
          end
      end
  end.

(** ** Adding, settling and failing HTLCs *)

Record update_add_htlc := UpdateAddHTLC {
  uah_id : Z;
  uah_amount : Z;
  uah_payment_hash : bytes;
  uah_expiry : Z;
  uah_noop : bool;                  (* the custom records have [NoOpHtlcTLVEntry] *)
}.

Definition entry_type_for_htlc (noop_flag : bool) (chan_type : Z) : update_type :=
  if noop_flag && has_tapscript_root chan_type then NoOpAdd else Add.

Definition zero_heights : dual Z := Dual 0 0.
Definition zero_hash : bytes := replicate 32 Byte.x00.

(** The entry of an HTLC in the log of the party that adds it. *)
Definition htlc_add_descriptor (htlc : update_add_htlc) (who : channel_party) (lc : channel) :
    payment_descriptor :=
  PaymentDescriptor (uah_payment_hash htlc) zero_hash (uah_expiry htlc) (uah_amount htlc)
    (ul_log_index (log_of lc who)) (ul_htlc_counter (log_of lc who)) 0 zero_heights zero_heights
    (entry_type_for_htlc (uah_noop htlc) (pr_chan_type (lc_params lc))) false false.

Definition validate_add_htlc (pd : payment_descriptor) (buffer : buffer_type) : M () :=
  lc ← get;
  let remote_acked_index := dual_remote (cm_message_indices (tail (chain_of lc Local))) in
  _ ← validate_commitment_sanity remote_acked_index (ul_log_index (log_of lc Local)) Remote buffer (Some pd) None;
  validate_commitment_sanity (ul_log_index (log_of lc Remote)) (ul_log_index (log_of lc Local)) Local buffer
    (Some pd) None.

(** [addHTLC] of channel.go; [AddHTLC] takes the fee buffer. *)
Definition add_htlc_buffer (htlc : update_add_htlc) (buffer : buffer_type) : M Z :=
  lc ← get;
  let pd := htlc_add_descriptor htlc Local lc in
  _ ← validate_add_htlc pd buffer;
  _ ← modify (λ lc, set_log Local (append_htlc pd (log_of lc Local)) lc);
  mret (pd_htlc_index pd).

Definition add_htlc (htlc : update_add_htlc) : M Z := add_htlc_buffer htlc FeeBuffer.

Definition may_add_outgoing_htlc (amt : Z) : M () :=
  lc ← get;
  let mock_htlc_amt :=
    if negb (amt =? 0) then amt
    else if negb (cfg_min_htlc (pr_local_cfg (lc_params lc)) =? 0) then cfg_min_htlc (pr_local_cfg (lc_params lc))
    else 1 in
  validate_add_htlc (htlc_add_descriptor (UpdateAddHTLC 0 mock_htlc_amt zero_hash 0 false) Local lc) FeeBuffer.

Definition receive_htlc (htlc : update_add_htlc) : M Z :=
  lc ← get;
  _ ← check (uah_id htlc =? ul_htlc_counter (log_of lc Remote)) ErrUnexpectedHtlcID;
  let pd := htlc_add_descriptor htlc Remote lc in
  let local_acked_index := dual_local (cm_message_indices (tail (chain_of lc Remote))) in
  _ ← validate_commitment_sanity (ul_log_index (log_of lc Remote)) local_acked_index Local NoBuffer
        None (Some pd);
  _ ← modify (λ lc, set_log Remote (append_htlc pd (log_of lc Remote)) lc);
  mret (pd_htlc_index pd).

(** The entry of a resolution in the log of the party that resolves. *)
Definition resolution_descriptor (entry_type : update_type) (rhash preimage : bytes) (amount parent : Z)
    (who : channel_party) (lc : channel) : payment_descriptor :=
  PaymentDescriptor rhash preimage 0 amount (ul_log_index (log_of lc who)) 0 parent zero_heights zero_heights
    entry_type false false.

(** The end of every resolution by [who]: the entry is appended, and the HTLC
    of the other party marked. *)
Definition append_resolution (who : channel_party) (pd : payment_descriptor) (htlc_index : Z) : M () :=
  _ ← modify (λ lc, set_log who (append_update pd (log_of lc who)) lc);
  modify (λ lc, set_log (counter_party who) (mark_htlc_modified htlc_index (log_of lc (counter_party who))) lc).

Definition settle_htlc (preimage : bytes) (htlc_index : Z) : M () :=
  lc ← get;
  match lookup_htlc htlc_index (log_of lc Remote) with
  | None => fail ErrUnknownHtlcIndex
  | Some htlc =>
      _ ← check (negb (htlc_has_modification htlc_index (log_of lc Remote))) ErrHtlcIndexAlreadySettled;
      _ ← check (bool_decide (pd_rhash htlc = sha256 preimage)) ErrInvalidSettlePreimage;
      append_resolution Local
        (resolution_descriptor Settle zero_hash preimage (pd_amount htlc) htlc_index Local lc) htlc_index
  end.

Definition receive_htlc_settle (preimage : bytes) (htlc_index : Z) : M () :=
  lc ← get;
  match lookup_htlc htlc_index (log_of lc Local) with
  | None => fail ErrUnknownHtlcIndex
  | Some htlc =>
      _ ← check (negb (htlc_has_modification htlc_index (log_of lc Local))) ErrHtlcIndexAlreadySettled;
      _ ← check (bool_decide (pd_rhash htlc = sha256 preimage)) ErrInvalidSettlePreimage;
      append_resolution Remote
        (resolution_descriptor Settle (pd_rhash htlc) preimage (pd_amount htlc) (pd_htlc_index htlc) Remote lc)
        htlc_index
  end.

Definition fail_htlc_as (entry_type : update_type) (htlc_index : Z) : M () :=
  lc ← get;
  match lookup_htlc htlc_index (log_of lc Remote) with
  | None => fail ErrUnknownHtlcIndex
  | Some htlc =>
      _ ← check (negb (htlc_has_modification htlc_index (log_of lc Remote))) ErrHtlcIndexAlreadyFailed;
      append_resolution Local
        (resolution_descriptor entry_type (pd_rhash htlc) zero_hash (pd_amount htlc) htlc_index Local lc) htlc_index
  end.

Definition fail_htlc : Z → M () := fail_htlc_as Fail.
Definition malformed_fail_htlc : Z → M () := fail_htlc_as MalformedFail.

Definition receive_fail_htlc (htlc_index : Z) : M () :=
  lc ← get;
  match lookup_htlc htlc_index (log_of lc Local) with
  | None => fail ErrUnknownHtlcIndex
  | Some htlc =>
      _ ← check (negb (htlc_has_modification htlc_index (log_of lc Local))) ErrHtlcIndexAlreadyFailed;
      append_resolution Remote
        (resolution_descriptor Fail (pd_rhash htlc) zero_hash (pd_amount htlc) (pd_htlc_index htlc) Remote lc)
        htlc_index
  end.

(** ** Balances and fee rates *)

(** The balance to spend on a chain, and the weight of its next commitment:
    nothing when the view or the fee cannot be afforded. *)
Definition available_commitment_balance (view : htlc_view) (whose : channel_party) (buffer : buffer_type) :
    M (Z * Z) := λ lc,
  let p := lc_params lc in
  match compute_view view whose false None lc with
  | (lc, Err _) => (lc, Ok (0, 0))
  | (lc, Ok cv) =>
      let our_reserve := msat_of_sat (cfg_chan_reserve (pr_local_cfg p)) in
      let our_balance := if our_reserve <=? cv_our_balance cv then cv_our_balance cv - our_reserve else 0 in
      let fee_per_kw := hv_fee_per_kw (cv_view cv) in
      let additional_htlc_fee := msat_of_sat (fee_for_weight fee_per_kw htlc_weight) in
      let commit_fee := msat_of_sat (fee_for_weight fee_per_kw (cv_commit_weight cv)) in
      if pr_is_initiator p then
        let future_commit_weight :=
          match buffer with
          | FeeBuffer => u64 (cv_commit_weight cv + htlc_weight)
          | _ => cv_commit_weight cv
          end in
        match apply_commit_fee p our_balance future_commit_weight fee_per_kw buffer with
        | Ok (balance, _, _) => (lc, Ok (balance, cv_commit_weight cv))
        | Err _ => (lc, Ok (0, cv_commit_weight cv))
        end
      else
        let their_reserve := msat_of_sat (cfg_chan_reserve (pr_remote_cfg p)) in
        let their_balance :=
          if their_reserve <=? cv_their_balance cv then cv_their_balance cv - their_reserve else 0 in
        let dust_limit := msat_of_sat (cfg_dust_limit (cfg_for p whose)) in
        let htlc_fee := msat_of_sat
          (match whose with
           | Local => htlc_timeout_fee (pr_chan_type p) fee_per_kw
           | Remote => htlc_success_fee (pr_chan_type p) fee_per_kw
           end) in
        let non_dust_htlc_amt := u64 (dust_limit + htlc_fee) in
        let commit_fee_with_htlc := u64 (commit_fee + additional_htlc_fee) in
        if (their_balance <? commit_fee_with_htlc) && (non_dust_htlc_amt <=? our_balance)
        then (lc, Ok (u64 (non_dust_htlc_amt - 1), cv_commit_weight cv))
        else (lc, Ok (our_balance, cv_commit_weight cv))
  end.

Definition available_balance (buffer : buffer_type) : M (Z * Z) :=
  lc ← get;
  let view := fetch_htlc_view (dual_remote (cm_message_indices (tip (chain_of lc Local))))
                (ul_log_index (log_of lc Local)) lc in
  '(our_local, commit_weight) ← available_commitment_balance view Local buffer;
  '(our_remote, _) ← available_commitment_balance view Remote buffer;
  mret (if our_remote <? our_local then our_remote else our_local, commit_weight).

(** [validateFeeRateFloor] and [validateFeeRate] *)
Definition validate_fee_rate_floor (fee_per_kw : Z) : result channel_error () :=
  ensure (fee_per_kw_floor <=? fee_per_kw) else ErrFeeBelowFloor; Ok ().

Definition validate_fee_rate (fee_per_kw : Z) : M () :=
  _ ← lift (validate_fee_rate_floor fee_per_kw);
  '(available, tx_weight) ← available_balance AdditionalHtlc;
  lc ← get;
  let old_fee := msat_of_sat (fee_for_weight (cm_fee_per_kw (tip (chain_of lc Local))) tx_weight) in
  let base_balance := u64 (available + old_fee) in
  let new_fee := msat_of_sat (fee_for_weight fee_per_kw tx_weight) in
  check (new_fee <=? base_balance) ErrFeeAboveBalance.

Definition fee_descriptor (fee_per_kw : Z) (who : channel_party) (lc : channel) : payment_descriptor :=
  PaymentDescriptor zero_hash zero_hash 0 (msat_of_sat fee_per_kw) (ul_log_index (log_of lc who)) 0 0
    zero_heights zero_heights FeeUpdate false false.

Definition update_fee (fee_per_kw : Z) : M () :=
  lc ← get;
  _ ← check (pr_is_initiator (lc_params lc)) ErrNotInitiator;
  _ ← validate_fee_rate fee_per_kw;
  modify (λ lc', set_log Local (append_fee_update (fee_descriptor fee_per_kw Local lc) (log_of lc' Local)) lc').

Definition receive_update_fee (fee_per_kw : Z) : M () :=
  lc ← get;
  _ ← check (negb (pr_is_initiator (lc_params lc))) ErrInitiator;
  _ ← lift (validate_fee_rate_floor fee_per_kw);
  modify (λ lc', set_log Remote (append_fee_update (fee_descriptor fee_per_kw Remote lc) (log_of lc' Remote)) lc').

Definition commit_fee_total_at (fee_per_kw : Z) : M (Z * Z) :=
  lc ← get;
  let view lc := fetch_htlc_view (ul_log_index (log_of lc Remote)) (ul_log_index (log_of lc Local)) lc in
  local ← compute_view (view lc) Local false (Some fee_per_kw);
  lc ← get;
  remote ← compute_view (view lc) Remote false (Some fee_per_kw);
  mret (fee_for_weight fee_per_kw (cv_commit_weight local), fee_for_weight fee_per_kw (cv_commit_weight remote)).

(** The HTLCs of the logs that are dust on a commitment. *)
Definition get_dust_sum (whose : channel_party) (dry_run_fee : option Z) (lc : channel) : Z :=
  let p := lc_params lc in
  let commit := match whose with
                | Local => oc_local_commitment (lc_channel_state lc)
                | Remote => oc_remote_commitment (lc_channel_state lc)
                end in
  let fee_rate := default (cm_fee_per_kw commit) dry_run_fee in
  let add incoming sum x :=
    if is_add x.2 && negb (not_dust p whose incoming fee_rate x.2) then u64 (sum + pd_amount x.2) else sum in
  let sum := foldl (add false) 0 (ul_list (log_of lc Local)) in
  foldl (add true) sum (ul_list (log_of lc Remote)).
End Commitments.
