(* ===== verification/ChannelToy.v ===== *)
(** * A sample channel

    The primitives of [Channel] made concrete, and a channel that goes
    through an HTLC from its addition to its settlement. *)

From S2P Require Import Prelude Chainfee Shachain UpdateLog Channel.

(** A digest that keeps the bytes, and an independent store's scalars. *)
#[export] Instance toy_hash_prims : HashPrims := {|
  sha256 b := take 32 (b ++ replicate 32 Byte.x00);
  new_hash b := if decide (length b = 32%nat) then Ok b else Err ErrBadHashLength;
  hash_is_equal a b := bool_decide (a = b);
  hmac_sha256 k m := take 32 (drop 33 m ++ replicate 32 Byte.x01);
  scalar_overflow _ := false;
  scalar_is_zero _ := false;
|}.

#[export] Instance toy_channel_prims : ChannelPrims := {|
  compute_commitment_point s := s;
  check_transaction_sanity outs :=
    forallb (λ o, (0 <=? tx_value o) && (tx_value o <=? 2100000000000000)) outs &&
    (zsum (map tx_value outs) <=? 2100000000000000);
  get_transaction_weight outs := 4 * (53 + 43 * Z.of_nat (length outs));
  sign_commitment _ c := Some [be_encode 8 (cm_our_balance c); be_encode 8 (cm_their_balance c)];
  verify_commitment _ c sigs :=
    bool_decide (sigs = [be_encode 8 (cm_their_balance c); be_encode 8 (cm_our_balance c)]);
  find_output_indexes _ _ _ := Some (0, 1);
  gen_nonces r := Some (r ++ r);
|}.

Definition toy_cfg : channel_config := ChannelConfig 10000 400000000 1000 30 354.
(** Anchors, tweakless, zero-fee HTLC transactions, independent secrets. *)
Definition toy_chan_type : Z := 2 + 8 + 32 + 2 ^ 40.

Definition toy_commitment (whose : channel_party) (ours theirs : Z) : commitment :=
  Commitment 0 whose (Dual 0 0) 0 0 [] ours theirs 284 253 354 [] [].

(** Each side of a channel of 0.01 BTC, 0.003 BTC of it the acceptor's. *)
Definition toy_channel (opener : bool) : channel :=
  let ours := if opener then 1000 * (1000000 - 300000 - 660 - 284) else 300000000 in
  let theirs := if opener then 300000000 else 1000 * (1000000 - 300000 - 660 - 284) in
  let local := toy_commitment Local ours theirs in
  let remote := toy_commitment Remote ours theirs in
  let root := replicate 32 Byte.x05 in
  let secret i := take 32 (be_encode 8 i ++ [Byte.x00] ++ replicate 32 Byte.x01) in
  LightningChannel (ChannelParams toy_chan_type opener 1000000 toy_cfg toy_cfg zero_hash)
    (OpenChannel local remote 0 0 (secret 0) (Some (secret 1)) (new_remote_secret_store toy_chan_type)
       (PrIndependent (IndependentProducer root)) None None None false)
    0 (Dual (Chain local []) (Chain remote [])) (Dual (new_update_log 0 0) (new_update_log 0 0)).

(** The secrets of the peer's commitments, and an HTLC. *)
Definition toy_secret (height : Z) : bytes := take 32 (be_encode 8 height ++ [Byte.x00] ++ replicate 32 Byte.x01).
Definition toy_htlc_preimage : bytes := replicate 32 Byte.x07.
Definition toy_add : update_add_htlc := UpdateAddHTLC 0 5000000 (sha256 toy_htlc_preimage) 500 false.
(** What the peer signs when the opener has added that HTLC. *)
Definition toy_sigs : list bytes := [be_encode 8 300000000; be_encode 8 694013000].
