(* ===== verification/ChannelLog.v ===== *)
(** * Facts about update logs

    The invariant of a log - its two index maps lead to the entries they
    should, and to all of them - and of a pair of logs: every resolution has
    its HTLC in the other log, with its amount, at most one resolution each.
    Every operation of [UpdateLog] keeps them, and compaction does not panic. *)

From S2P Require Import Prelude Shachain UpdateLog.

Implicit Types (u v : update_log) (pd : payment_descriptor) (n : node).

(** ** Nodes *)

Lemma node_in_elem n pd l : node_in n l = Some pd → (n, pd) ∈ l.
Proof.
  induction l as [|[m pd'] l IH]; simpl; [done|]. destruct (m =? n) eqn:E.
  - intros [= ->]. apply Z.eqb_eq in E as ->. left.
  - intros H. right. auto.
Qed.

Lemma node_in_intro n pd (l : list (node * payment_descriptor)) :
  NoDup l.*1 → (n, pd) ∈ l → node_in n l = Some pd.
Proof.
  induction l as [|[m pd'] l IH]; simpl; [by rewrite elem_of_nil|].
  intros [Hm Hnd]%NoDup_cons Hin. destruct (m =? n) eqn:E.
  - apply Z.eqb_eq in E as ->. apply elem_of_cons in Hin as [[= ->]|Hin]; [done|].
    exfalso. apply Hm. apply list_elem_of_fmap. by exists (n, pd).
  - apply elem_of_cons in Hin as [[= -> ->]|Hin]; [by rewrite Z.eqb_refl in E|]. auto.
Qed.

Lemma nodup_fst_inj {A B} (l : list (A * B)) a b b' :
  NoDup l.*1 → (a, b) ∈ l → (a, b') ∈ l → b = b'.
Proof.
  induction l as [|[x y] l IH]; simpl; [by rewrite elem_of_nil|].
  intros [Hx Hnd]%NoDup_cons H1 H2.
  apply elem_of_cons in H1 as [[= <- <-]|H1]; apply elem_of_cons in H2 as [[= <-]|H2]; auto.
  - destruct Hx. apply list_elem_of_fmap. by exists (a, b').
  - simplify_eq. destruct Hx. apply list_elem_of_fmap. by exists (a, b).
Qed.

Lemma nodup_fst_filter {A B} (p : A * B → bool) (l : list (A * B)) :
  NoDup l.*1 → NoDup (List.filter p l).*1.
Proof.
  induction l as [|[a b] l IH]; simpl; [done|]. intros [Ha Hnd]%NoDup_cons.
  destruct (p (a, b)); simpl; [|auto]. apply NoDup_cons. split; [|auto].
  contradict Ha. apply list_elem_of_fmap in Ha as (y & -> & Hy). apply elem_of_bfilter in Hy as [Hy _].
  apply list_elem_of_fmap. by exists y.
Qed.

(** The entries after a write through pointers. *)
Lemma modify_nodes_elem ns f u n pd :
  (n, pd) ∈ ul_list (modify_nodes ns f u) ↔
  ∃ pd0, (n, pd0) ∈ ul_list u ∧ pd = if bool_decide (n ∈ ns) then f pd0 else pd0.
Proof.
  unfold modify_nodes. simpl. rewrite list_elem_of_fmap. split.
  - intros ([m pd0] & Hx & Hin). unfold write_node in Hx. simpl in Hx. exists pd0.
    case_bool_decide; simplify_eq; split; try done; by case_bool_decide.
  - intros (pd0 & Hin & ->). exists (n, pd0). split; [|done]. unfold write_node. simpl. by case_bool_decide.
Qed.

Lemma modify_nodes_fst ns f u : (ul_list (modify_nodes ns f u)).*1 = (ul_list u).*1.
Proof.
  unfold modify_nodes. simpl. rewrite <-list_fmap_compose. apply list_fmap_ext.
  intros i [m pd0] _. unfold write_node. simpl. by case_bool_decide.
Qed.

(** ** The invariant of a log *)

(** Two entries that differ in their heights, their flags and the amount of a
    fee update at most. *)
Record same_content (a b : payment_descriptor) : Prop := {
  sc_type : pd_entry_type a = pd_entry_type b;
  sc_log : pd_log_index a = pd_log_index b;
  sc_htlc : pd_htlc_index a = pd_htlc_index b;
  sc_parent : pd_parent_index a = pd_parent_index b;
  sc_rhash : pd_rhash a = pd_rhash b;
  sc_preimage : pd_rpreimage a = pd_rpreimage b;
  sc_amount : pd_entry_type b ≠ FeeUpdate → pd_amount a = pd_amount b;
}.

Lemma same_content_refl a : same_content a a.
Proof. done. Qed.
#[export] Hint Resolve same_content_refl : core.

Lemma same_content_is_add a b : same_content a b → is_add a = is_add b.
Proof. intros H. unfold is_add. by rewrite (sc_type _ _ H). Qed.

Record log_ok (u : update_log) : Prop := {
  lo_nodes : NoDup (ul_list u).*1;
  lo_fresh n pd : (n, pd) ∈ ul_list u → n < ul_next_node u;
  lo_update i n : ul_update_index u !! i = Some n ↔
    ∃ pd, (n, pd) ∈ ul_list u ∧ is_add pd = false ∧ pd_log_index pd = i;
  lo_htlc i n : ul_htlc_index u !! i = Some n ↔
    ∃ pd, (n, pd) ∈ ul_list u ∧ is_add pd = true ∧ pd_htlc_index pd = i;
  lo_log_bound n pd : (n, pd) ∈ ul_list u → 0 ≤ pd_log_index pd < ul_log_index u;
  lo_htlc_bound n pd : (n, pd) ∈ ul_list u → is_add pd = true → 0 ≤ pd_htlc_index pd < ul_htlc_counter u;
  lo_counters : 0 ≤ ul_log_index u ∧ 0 ≤ ul_htlc_counter u;
}.

Lemma new_log_ok i c : 0 ≤ i → 0 ≤ c → log_ok (new_update_log i c).
Proof.
  intros Hi Hc. split; simpl; try done; try (by intros ?? ?%elem_of_nil).
  - constructor.
  - intros j n. rewrite lookup_empty. split; [done|]. intros (pd & ?%elem_of_nil & _). done.
  - intros j n. rewrite lookup_empty. split; [done|]. intros (pd & ?%elem_of_nil & _). done.
Qed.

Lemma node_value_elem u n pd : log_ok u → node_value n u = Some pd ↔ (n, pd) ∈ ul_list u.
Proof.
  intros H. split; [apply node_in_elem|]. apply node_in_intro, (lo_nodes _ H).
Qed.

Lemma lookup_htlc_Some u i pd :
  log_ok u → lookup_htlc i u = Some pd ↔ ∃ n, (n, pd) ∈ ul_list u ∧ is_add pd = true ∧ pd_htlc_index pd = i.
Proof.
  intros H. unfold lookup_htlc. destruct (ul_htlc_index u !! i) as [m|] eqn:E; simpl.
  - apply (lo_htlc u H) in E as (pd' & Hin & Ha & Hi). rewrite node_value_elem by done. split.
    + intros Hpd. pose proof (nodup_fst_inj _ _ _ _ (lo_nodes _ H) Hin Hpd) as <-. eauto.
    + intros (n & Hn & Han & Hin'). assert (ul_htlc_index u !! i = Some n) as E1.
      { apply (lo_htlc u H). eauto. }
      assert (ul_htlc_index u !! i = Some m) as E2 by (apply (lo_htlc u H); eauto). congruence.
  - split; [done|]. intros (n & Hn & Ha & Hi).
    assert (ul_htlc_index u !! i = Some n) by (apply (lo_htlc u H); eauto). congruence.
Qed.

(** The HTLC index of an add names it. *)
Lemma add_unique u n m a b :
  log_ok u → (n, a) ∈ ul_list u → (m, b) ∈ ul_list u → is_add a = true → is_add b = true →
  pd_htlc_index a = pd_htlc_index b → n = m ∧ a = b.
Proof.
  intros H Ha Hb Haa Hbb Hi.
  assert (ul_htlc_index u !! pd_htlc_index a = Some n) as E1 by (apply (lo_htlc u H); eauto).
  assert (ul_htlc_index u !! pd_htlc_index a = Some m) as E2 by (apply (lo_htlc u H); eauto).
  assert (n = m) as -> by congruence. split; [done|]. by apply (nodup_fst_inj _ _ _ _ (lo_nodes _ H) Ha).
Qed.

Section Modify.
Context (ns : list node) (f : payment_descriptor → payment_descriptor) (u : update_log).
Hypothesis Hf : ∀ n pd, n ∈ ns → (n, pd) ∈ ul_list u → same_content (f pd) pd.

Lemma modify_back n pd :
  (n, pd) ∈ ul_list (modify_nodes ns f u) → ∃ pd0, (n, pd0) ∈ ul_list u ∧ same_content pd pd0.
Proof.
  intros (pd0 & Hin & ->)%modify_nodes_elem. exists pd0. split; [done|].
  case_bool_decide; eauto.
Qed.

Lemma modify_forth n pd0 :
  (n, pd0) ∈ ul_list u → ∃ pd, (n, pd) ∈ ul_list (modify_nodes ns f u) ∧ same_content pd pd0.
Proof.
  intros Hin. eexists. split; [apply modify_nodes_elem; by exists pd0|].
  case_bool_decide; eauto.
Qed.

Lemma modify_nodes_ok : log_ok u → log_ok (modify_nodes ns f u).
Proof.
  intros H. split.
  - rewrite modify_nodes_fst. apply (lo_nodes u H).
  - intros n pd (pd0 & Hin & _)%modify_back. by apply (lo_fresh u H) in Hin.
  - intros i n. change (ul_update_index (modify_nodes ns f u)) with (ul_update_index u).
    rewrite (lo_update u H). split.
    + intros (pd0 & Hin & Ha & Hi). destruct (modify_forth _ _ Hin) as (pd & Hpd & Hs). exists pd.
      by rewrite (same_content_is_add _ _ Hs), (sc_log _ _ Hs).
    + intros (pd & Hin & Ha & Hi). destruct (modify_back _ _ Hin) as (pd0 & Hpd & Hs). exists pd0.
      by rewrite <-(same_content_is_add _ _ Hs), <-(sc_log _ _ Hs).
  - intros i n. change (ul_htlc_index (modify_nodes ns f u)) with (ul_htlc_index u).
    rewrite (lo_htlc u H). split.
    + intros (pd0 & Hin & Ha & Hi). destruct (modify_forth _ _ Hin) as (pd & Hpd & Hs). exists pd.
      by rewrite (same_content_is_add _ _ Hs), (sc_htlc _ _ Hs).
    + intros (pd & Hin & Ha & Hi). destruct (modify_back _ _ Hin) as (pd0 & Hpd & Hs). exists pd0.
      by rewrite <-(same_content_is_add _ _ Hs), <-(sc_htlc _ _ Hs).
  - intros n pd (pd0 & Hin & Hs)%modify_back. rewrite (sc_log _ _ Hs). by apply (lo_log_bound u H) in Hin.
  - intros n pd (pd0 & Hin & Hs)%modify_back. rewrite (same_content_is_add _ _ Hs), (sc_htlc _ _ Hs).
    by apply (lo_htlc_bound u H n pd0).
  - apply (lo_counters u H).
Qed.
End Modify.

(** *** Appending *)

Lemma append_htlc_list pd u : ul_list (append_htlc pd u) = ul_list u ++ [(ul_next_node u, pd)].
Proof. done. Qed.
Lemma append_update_list pd u : ul_list (append_update pd u) = ul_list u ++ [(ul_next_node u, pd)].
Proof. done. Qed.

Lemma fresh_not_elem u pd : log_ok u → (ul_next_node u, pd) ∉ ul_list u.
Proof. intros H Hin. apply (lo_fresh u H) in Hin. lia. Qed.

Lemma push_nodes_nodup u pd : log_ok u → NoDup (ul_list u ++ [(ul_next_node u, pd)]).*1.
Proof.
  intros H. rewrite fmap_app. apply NoDup_app. split_and!; [apply (lo_nodes u H)| |apply NoDup_singleton].
  intros n (x & -> & Hx)%list_elem_of_fmap Hn%list_elem_of_singleton. destruct x as [n pd'].
  apply (lo_fresh u H) in Hx. simpl in Hn. lia.
Qed.

(** The entries with a property do not change when one without it comes. *)
Lemma push_members (P : payment_descriptor → Prop) pd u n :
  ¬ P pd →
  (∃ pd', (n, pd') ∈ ul_list u ∧ P pd') ↔ (∃ pd', (n, pd') ∈ ul_list u ++ [(ul_next_node u, pd)] ∧ P pd').
Proof.
  intros HP. split; intros (pd' & Hin & Hp); exists pd'.
  - split; [|done]. apply elem_of_app. by left.
  - apply elem_of_app in Hin as [Hin|[= -> ->]%list_elem_of_singleton]; [done|]. by destruct HP.
Qed.

Lemma append_htlc_ok pd u :
  log_ok u → is_add pd = true → pd_log_index pd = ul_log_index u → pd_htlc_index pd = ul_htlc_counter u →
  ul_log_index u + 1 < 2 ^ 64 → ul_htlc_counter u + 1 < 2 ^ 64 →
  log_ok (append_htlc pd u).
Proof.
  intros H Ha Hl Hh Hb1 Hb2. pose proof (lo_counters u H) as [Hc1 Hc2].
  assert (ul_log_index (append_htlc pd u) = ul_log_index u + 1) as E1 by (apply u64_small; in_range).
  assert (ul_htlc_counter (append_htlc pd u) = ul_htlc_counter u + 1) as E2 by (apply u64_small; in_range).
  assert (ul_htlc_index u !! ul_htlc_counter u = None) as Hnone.
  { destruct (_ !! _) as [m|] eqn:E; [|done]. apply (lo_htlc u H) in E as (pd' & Hin & Ha' & Hi).
    pose proof (lo_htlc_bound u H _ _ Hin ltac:(done)); lia. }
  split; rewrite ?append_htlc_list.
  - by apply push_nodes_nodup.
  - intros n pd' [Hin|[= -> ->]%list_elem_of_singleton]%elem_of_app;
      [apply (lo_fresh u H) in Hin|]; simpl; lia.
  - intros i n. change (ul_update_index (append_htlc pd u)) with (ul_update_index u).
    rewrite (lo_update u H). apply push_members. rewrite Ha. by intros [? _].
  - intros i n. change (ul_htlc_index (append_htlc pd u))
      with (<[ul_htlc_counter u := ul_next_node u]> (ul_htlc_index u)).
    rewrite lookup_insert_Some, (lo_htlc u H). setoid_rewrite elem_of_app. setoid_rewrite list_elem_of_singleton.
    split.
    + intros [[<- <-]|(Hne & pd' & Hin & Ha' & Hi)]; [exists pd | exists pd']; naive_solver.
    + intros (pd' & [Hin|[= -> ->]] & Ha' & Hi); [right | left; split; congruence].
      split; [|by eauto]. intros Heq. pose proof (lo_htlc_bound u H _ _ Hin ltac:(done)); lia.
  - rewrite E1. intros n pd' [Hin|[= -> ->]%list_elem_of_singleton]%elem_of_app; [|lia].
    apply (lo_log_bound u H) in Hin. lia.
  - rewrite E2. intros n pd' [Hin|[= -> ->]%list_elem_of_singleton]%elem_of_app Ha'; [|lia].
    pose proof (lo_htlc_bound u H _ _ Hin ltac:(done)); lia.
  - rewrite E1, E2. lia.
Qed.

Lemma append_update_ok pd u :
  log_ok u → is_add pd = false → pd_log_index pd = ul_log_index u → ul_log_index u + 1 < 2 ^ 64 →
  log_ok (append_update pd u).
Proof.
  intros H Ha Hl Hb. pose proof (lo_counters u H) as [Hc1 Hc2].
  assert (ul_log_index (append_update pd u) = ul_log_index u + 1) as E1 by (apply u64_small; in_range).
  split; rewrite ?append_update_list.
  - by apply push_nodes_nodup.
  - intros n pd' [Hin|[= -> ->]%list_elem_of_singleton]%elem_of_app;
      [apply (lo_fresh u H) in Hin|]; simpl; lia.
  - intros i n. change (ul_update_index (append_update pd u))
      with (<[ul_log_index u := ul_next_node u]> (ul_update_index u)).
    rewrite lookup_insert_Some, (lo_update u H). setoid_rewrite elem_of_app. setoid_rewrite list_elem_of_singleton.
    split.
    + intros [[<- <-]|(Hne & pd' & Hin & Ha' & Hi)]; [exists pd | exists pd']; naive_solver.
    + intros (pd' & [Hin|[= -> ->]] & Ha' & Hi); [right | left; split; congruence].
      split; [|by eauto]. intros Heq. apply (lo_log_bound u H) in Hin. lia.
  - intros i n. change (ul_htlc_index (append_update pd u)) with (ul_htlc_index u).
    rewrite (lo_htlc u H). apply push_members. rewrite Ha. by intros [? _].
  - rewrite E1. intros n pd' [Hin|[= -> ->]%list_elem_of_singleton]%elem_of_app; [|lia].
    apply (lo_log_bound u H) in Hin. lia.
  - intros n pd' [Hin|[= -> ->]%list_elem_of_singleton]%elem_of_app Ha'; [|congruence].
    by apply (lo_htlc_bound u H n pd').
  - rewrite E1. simpl. lia.
Qed.

(** *** Fee updates *)

Lemma last_fee_update_Some l n pd :
  last_fee_update l = Some (n, pd) → (n, pd) ∈ l ∧ pd_entry_type pd = FeeUpdate.
Proof.
  induction l as [|[m pd'] l IH]; simpl; [done|]. destruct (last_fee_update l) as [[m' pd'']|] eqn:E.
  - intros [= -> ->]. destruct IH; [done|]. split; [by right | done].
  - case_bool_decide as Ht; [|done]. intros [= -> ->]. split; [by left | done].
Qed.

(** [append_fee_update] writes through one pointer or appends. *)
Lemma append_fee_update_cases pd u :
  log_ok u →
  append_fee_update pd u = append_update pd u ∨
  ∃ n, append_fee_update pd u = modify_nodes [n] (set_pd_amount (pd_amount pd)) u ∧
    ∀ m pd0, m ∈ [n] → (m, pd0) ∈ ul_list u → pd_entry_type pd0 = FeeUpdate.
Proof.
  intros H. unfold append_fee_update. destruct (last_fee_update (ul_list u)) as [[n pd']|] eqn:E; [|by left].
  apply last_fee_update_Some in E as [Hin Ht]. destruct (_ && _) eqn:Eh; [|by left]. right. exists n.
  split; [done|]. intros m pd0 ->%list_elem_of_singleton Hm.
  by rewrite (nodup_fst_inj _ _ _ _ (lo_nodes _ H) Hm Hin).
Qed.

Lemma set_pd_amount_content a pd : pd_entry_type pd = FeeUpdate → same_content (set_pd_amount a pd) pd.
Proof. intros Ht. split; try done. Qed.

Lemma append_fee_update_ok pd u :
  log_ok u → pd_entry_type pd = FeeUpdate → pd_log_index pd = ul_log_index u → ul_log_index u + 1 < 2 ^ 64 →
  log_ok (append_fee_update pd u).
Proof.
  intros H Ht Hl Hb. destruct (append_fee_update_cases pd u H) as [->|(n & -> & Hn)].
  - apply append_update_ok; try done. unfold is_add. by rewrite Ht.
  - apply modify_nodes_ok; [|done]. intros m pd0 Hm Hin. apply set_pd_amount_content. eauto.
Qed.

(** *** Removing *)

Lemma remove_elem m u n pd : (n, pd) ∈ ul_list (remove_node m u) ↔ (n, pd) ∈ ul_list u ∧ n ≠ m.
Proof.
  unfold remove_node. simpl. rewrite elem_of_bfilter. simpl.
  rewrite negb_true_iff, Z.eqb_neq. done.
Qed.

(** What is left of a log without one node. *)
Lemma remove_node_ok m u (update_index htlc_index : gmap Z node) :
  log_ok u →
  (∀ i n, update_index !! i = Some n ↔ ul_update_index u !! i = Some n ∧ n ≠ m) →
  (∀ i n, htlc_index !! i = Some n ↔ ul_htlc_index u !! i = Some n ∧ n ≠ m) →
  log_ok (set_ul_indices update_index htlc_index (remove_node m u)).
Proof.
  intros H Hu Hh. split; simpl.
  - by apply nodup_fst_filter, (lo_nodes u H).
  - intros n pd [Hin _]%remove_elem. by apply (lo_fresh u H) in Hin.
  - intros i n. rewrite Hu, (lo_update u H). setoid_rewrite remove_elem. naive_solver.
  - intros i n. rewrite Hh, (lo_htlc u H). setoid_rewrite remove_elem. naive_solver.
  - intros n pd [Hin _]%remove_elem. by apply (lo_log_bound u H) in Hin.
  - intros n pd [Hin _]%remove_elem. by apply (lo_htlc_bound u H n pd).
  - apply (lo_counters u H).
Qed.

Lemma remove_update_Ok u n pd :
  log_ok u → (n, pd) ∈ ul_list u → is_add pd = false →
  ∃ u', remove_update (pd_log_index pd) u = Ok u' ∧ log_ok u' ∧
    ul_list u' = ul_list (remove_node n u) ∧ ul_modified_htlcs u' = ul_modified_htlcs u ∧
    ul_log_index u' = ul_log_index u ∧ ul_htlc_counter u' = ul_htlc_counter u.
Proof.
  intros H Hin Ha. unfold remove_update.
  assert (ul_update_index u !! pd_log_index pd = Some n) as Hn by (apply (lo_update u H); eauto).
  rewrite Hn. eexists. split_and!; [done | | done..].
  apply remove_node_ok; [done| |].
  - intros i m. simpl. rewrite lookup_delete_Some. split.
    + intros [Hi Hm]. split; [done|]. intros ->.
      apply (lo_update u H) in Hm as (pd' & Hpd' & _ & Hi').
      rewrite (nodup_fst_inj _ _ _ _ (lo_nodes _ H) Hpd' Hin) in Hi'. done.
    + intros [Hm Hne]. split; [|done]. intros <-. congruence.
  - intros i m. simpl. split; [|by intros [? _]]. intros Hm. split; [done|]. intros ->.
    apply (lo_htlc u H) in Hm as (pd' & Hpd' & Ha' & _).
    rewrite (nodup_fst_inj _ _ _ _ (lo_nodes _ H) Hpd' Hin) in Ha'. congruence.
Qed.

Lemma remove_htlc_Ok u n pd :
  log_ok u → (n, pd) ∈ ul_list u → is_add pd = true →
  ∃ u', remove_htlc (pd_htlc_index pd) u = Ok u' ∧ log_ok u' ∧
    ul_list u' = ul_list (remove_node n u) ∧
    ul_modified_htlcs u' = ul_modified_htlcs u ∖ {[pd_htlc_index pd]} ∧
    ul_log_index u' = ul_log_index u ∧ ul_htlc_counter u' = ul_htlc_counter u.
Proof.
  intros H Hin Ha. unfold remove_htlc.
  assert (ul_htlc_index u !! pd_htlc_index pd = Some n) as Hn by (apply (lo_htlc u H); eauto).
  rewrite Hn. eexists. split_and!; [done | | done..].
  set (u' := set_ul_indices _ _ _). assert (log_ok u') as H'.
  { apply remove_node_ok; [done| |].
    - intros i m. simpl. split; [|by intros [? _]]. intros Hm. split; [done|]. intros ->.
      apply (lo_update u H) in Hm as (pd' & Hpd' & Ha' & _).
      rewrite (nodup_fst_inj _ _ _ _ (lo_nodes _ H) Hpd' Hin) in Ha'. congruence.
    - intros i m. simpl. rewrite lookup_delete_Some. split.
      + intros [Hi Hm]. split; [done|]. intros ->.
        apply (lo_htlc u H) in Hm as (pd' & Hpd' & _ & Hi').
        rewrite (nodup_fst_inj _ _ _ _ (lo_nodes _ H) Hpd' Hin) in Hi'. done.
      + intros [Hm Hne]. split; [|done]. intros <-. congruence. }
  destruct H'. by split.
Qed.

(** ** Pairs of logs *)

Section Pairs.
Context {HP : HashPrims}.

(** What a resolution owes the HTLC it resolves. *)
Definition resolves (r a : payment_descriptor) : Prop :=
  pd_amount a = pd_amount r ∧ (pd_entry_type r = Settle → pd_rhash a = sha256 (pd_rpreimage r)).

(** The resolutions of [u] against the HTLCs of [v]. *)
Record cross_ok (u v : update_log) : Prop := {
  co_parent n r : (n, r) ∈ ul_list u → is_resolution r = true →
    ∃ m a, (m, a) ∈ ul_list v ∧ is_add a = true ∧ pd_htlc_index a = pd_parent_index r ∧ resolves r a;
  co_modified n r : (n, r) ∈ ul_list u → is_resolution r = true → pd_parent_index r ∈ ul_modified_htlcs v;
  co_once n r n' r' : (n, r) ∈ ul_list u → (n', r') ∈ ul_list u → is_resolution r = true →
    is_resolution r' = true → pd_parent_index r = pd_parent_index r' → n = n';
}.

Record pair_ok (u v : update_log) : Prop := {
  po_left : log_ok u;
  po_right : log_ok v;
  po_cross : cross_ok u v;
  po_cross' : cross_ok v u;
}.

Lemma pair_ok_sym u v : pair_ok u v → pair_ok v u.
Proof. intros []. by split. Qed.

Lemma resolution_not_add pd : is_resolution pd = true → is_add pd = false.
Proof. unfold is_resolution, is_add. by destruct (pd_entry_type pd). Qed.
Lemma same_content_is_resolution a b : same_content a b → is_resolution a = is_resolution b.
Proof. intros H. unfold is_resolution. by rewrite (sc_type _ _ H). Qed.
Lemma add_not_fee pd : is_add pd = true → pd_entry_type pd ≠ FeeUpdate.
Proof. unfold is_add. by destruct (pd_entry_type pd). Qed.
Lemma resolution_not_fee pd : is_resolution pd = true → pd_entry_type pd ≠ FeeUpdate.
Proof. unfold is_resolution. by destruct (pd_entry_type pd). Qed.
Lemma entry_kinds pd : pd_entry_type pd ≠ FeeUpdate → is_add pd = false → is_resolution pd = true.
Proof. unfold is_add, is_resolution. by destruct (pd_entry_type pd). Qed.

Lemma resolves_content r r' a a' :
  same_content r' r → same_content a' a → is_resolution r = true → is_add a = true →
  resolves r a → resolves r' a'.
Proof.
  intros Hr Ha Hres Hadd [Hamt Hpre]. split.
  - rewrite (sc_amount _ _ Hr), (sc_amount _ _ Ha); auto using add_not_fee, resolution_not_fee.
  - rewrite (sc_type _ _ Hr), (sc_rhash _ _ Ha), (sc_preimage _ _ Hr). done.
Qed.

(** *** Entries come *)

(** The logs afterwards have at most the entries of before. *)
Definition content_below (u' u : update_log) : Prop :=
  ∀ n pd, (n, pd) ∈ ul_list u' → ∃ pd0, (n, pd0) ∈ ul_list u ∧ same_content pd pd0.

Lemma content_below_refl u : content_below u u.
Proof. intros n pd Hin. eauto. Qed.

Lemma cross_ok_grow u u' v v' :
  cross_ok u v → content_below u' u →
  (∀ m a, (m, a) ∈ ul_list v → is_add a = true → ∃ a', (m, a') ∈ ul_list v' ∧ same_content a' a) →
  ul_modified_htlcs v ⊆ ul_modified_htlcs v' →
  cross_ok u' v'.
Proof.
  intros H Hu Hv Hm. split.
  - intros n r (r0 & Hin & Hs)%Hu Hr. rewrite (same_content_is_resolution _ _ Hs) in Hr.
    destruct (co_parent _ _ H _ _ Hin Hr) as (m & a & Ha & Hadd & Hi & Hres).
    destruct (Hv _ _ Ha Hadd) as (a' & Ha' & Hsa). exists m, a'. split_and!; [done| | |].
    + by rewrite (same_content_is_add _ _ Hsa).
    + by rewrite (sc_htlc _ _ Hsa), (sc_parent _ _ Hs).
    + by apply (resolves_content r0 r a a').
  - intros n r (r0 & Hin & Hs)%Hu Hr. rewrite (same_content_is_resolution _ _ Hs) in Hr.
    rewrite (sc_parent _ _ Hs). apply Hm. by apply (co_modified _ _ H n).
  - intros n r n' r' (r0 & Hin & Hs)%Hu (r0' & Hin' & Hs')%Hu Hr Hr' Hp.
    rewrite (same_content_is_resolution _ _ Hs) in Hr. rewrite (same_content_is_resolution _ _ Hs') in Hr'.
    rewrite (sc_parent _ _ Hs), (sc_parent _ _ Hs') in Hp. by apply (co_once _ _ H n r0 n' r0').
Qed.

(** *** Compaction *)

(** Both chains' tails have removed it. *)
Definition locked (local_tail remote_tail : Z) (pd : payment_descriptor) : Prop :=
  let h := pd_remove_heights pd in
  dual_local h ≠ 0 ∧ dual_remote h ≠ 0 ∧ dual_local h ≤ local_tail ∧ dual_remote h ≤ remote_tail.

Record dropped (n : node) (u u' : update_log) : Prop := {
  dr_list : ul_list u' = ul_list (remove_node n u);
  dr_log : ul_log_index u' = ul_log_index u;
  dr_htlc : ul_htlc_counter u' = ul_htlc_counter u;
}.

(** One removal: a fee update, or a resolution with its HTLC. *)
Inductive compact_step (lt rt : Z) : update_log * update_log → update_log * update_log → Prop :=
| DropFee u u' v n pd :
    (n, pd) ∈ ul_list u → pd_entry_type pd = FeeUpdate → locked lt rt pd →
    log_ok u' → dropped n u u' → ul_modified_htlcs u' = ul_modified_htlcs u →
    compact_step lt rt (u, v) (u', v)
| DropPair u u' v v' n r m a :
    (n, r) ∈ ul_list u → is_resolution r = true → locked lt rt r →
    (m, a) ∈ ul_list v → is_add a = true → pd_htlc_index a = pd_parent_index r →
    log_ok u' → dropped n u u' → ul_modified_htlcs u' = ul_modified_htlcs u →
    log_ok v' → dropped m v v' → ul_modified_htlcs v' = ul_modified_htlcs v ∖ {[pd_parent_index r]} →
    compact_step lt rt (u, v) (u', v').

Lemma dropped_elem n u u' : dropped n u u' → ∀ m pd, (m, pd) ∈ ul_list u' ↔ (m, pd) ∈ ul_list u ∧ m ≠ n.
Proof. intros H m pd. rewrite (dr_list _ _ _ H). apply remove_elem. Qed.

Lemma dropped_below n u u' : dropped n u u' → content_below u' u.
Proof. intros H m pd [Hin _]%(dropped_elem _ _ _ H). eauto. Qed.

Lemma compact_step_ok lt rt u v u' v' :
  compact_step lt rt (u, v) (u', v') → pair_ok u v → pair_ok u' v'.
Proof.
  intros H. inversion H as [? ? ? n pd Hin Ht Hl Hok Hd Hm|? ? ? ? n r m a Hin Hr Hl Ha Hadd Hi Hok Hd Hm Hok' Hd' Hm'];
    subst; intros P; split; try done; try apply P.
  - eapply cross_ok_grow; [apply (po_cross _ _ P) | by eapply dropped_below | eauto | done].
  - eapply cross_ok_grow; [apply (po_cross' _ _ P) | apply content_below_refl | | by rewrite Hm].
    intros m a Ha Hadd. exists a. split; [|done]. apply (dropped_elem _ _ _ Hd). split; [done|].
    intros ->. rewrite (nodup_fst_inj _ _ _ _ (lo_nodes _ (po_left _ _ P)) Ha Hin) in Hadd.
    by apply add_not_fee in Hadd.
  - assert (∀ n' r', (n', r') ∈ ul_list u' → is_resolution r' = true → pd_parent_index r' ≠ pd_parent_index r) as Hne.
    { intros n' r' [Hin' Hn']%(dropped_elem _ _ _ Hd) Hr' Hp. apply Hn'.
      by apply (co_once _ _ (po_cross _ _ P) n' r' n r). }
    split.
    + intros n' r' Hin' Hr'. pose proof (Hne _ _ Hin' Hr') as Hp. apply (dropped_elem _ _ _ Hd) in Hin' as [Hin' _].
      destruct (co_parent _ _ (po_cross _ _ P) _ _ Hin' Hr') as (m' & a' & Ha' & Hadd' & Hi' & Hres).
      exists m', a'. split; [|done]. apply (dropped_elem _ _ _ Hd'). split; [done|]. intros ->.
      rewrite (nodup_fst_inj _ _ _ _ (lo_nodes _ (po_right _ _ P)) Ha' Ha) in Hi'. congruence.
    + intros n' r' Hin' Hr'. rewrite Hm'. apply elem_of_difference.
      split; [|apply not_elem_of_singleton; by eauto].
      apply (dropped_elem _ _ _ Hd) in Hin' as [Hin' _]. by apply (co_modified _ _ (po_cross _ _ P) n').
    + intros n' r' n'' r'' [H1 _]%(dropped_elem _ _ _ Hd) [H2 _]%(dropped_elem _ _ _ Hd).
      by apply (co_once _ _ (po_cross _ _ P)).
  - eapply cross_ok_grow; [apply (po_cross' _ _ P) | by eapply dropped_below | | by rewrite Hm].
    intros m' a' Ha' Hadd'. exists a'. split; [|done]. apply (dropped_elem _ _ _ Hd). split; [done|].
    intros ->. rewrite (nodup_fst_inj _ _ _ _ (lo_nodes _ (po_left _ _ P)) Ha' Hin) in Hadd'.
    by rewrite (resolution_not_add _ Hr) in Hadd'.
Qed.

(** Adds are never removed by themselves. *)
Definition adds_stay (u : update_log) : Prop :=
  ∀ n pd, (n, pd) ∈ ul_list u → is_add pd = true → pd_remove_heights pd = Dual 0 0.

(** A turn of the loop makes a step or none, and never panics. *)
Lemma compact_entry_step lt rt u v x :
  pair_ok u v → adds_stay u → x ∈ ul_list u →
  compact_entry lt rt (u, v) x = Ok (u, v) ∨
  ∃ u' v', compact_entry lt rt (u, v) x = Ok (u', v') ∧ compact_step lt rt (u, v) (u', v') ∧ dropped x.1 u u'.
Proof.
  intros P Hs Hin. destruct x as [n pd]. simpl. case_bool_decide as Ht; [by left|].
  destruct (_ || _) eqn:Ez; [by left|]. apply orb_false_iff in Ez as [Hz1%Z.eqb_neq Hz2%Z.eqb_neq].
  destruct (_ && _) eqn:Eh; [|by left]. apply andb_true_iff in Eh as [Hr Hl].
  assert (locked lt rt pd) as Hlock by (repeat split; simpl; lia).
  assert (is_add pd = false) as Ha.
  { destruct (is_add pd) eqn:Ha; [|done]. rewrite (Hs _ _ Hin Ha) in Hz1. done. }
  destruct (remove_update_Ok u n pd (po_left _ _ P) Hin Ha) as (u' & -> & Hok & Hlist & Hm & Hli & Hhc).
  simpl. assert (dropped n u u') as Hd by by split. right. case_bool_decide as Hfee.
  - exists u', v. split_and!; [done | by eapply DropFee | done].
  - pose proof (entry_kinds _ Hfee Ha) as Hres.
    destruct (co_parent _ _ (po_cross _ _ P) _ _ Hin Hres) as (m & a & Hma & Hadd & Hi & _).
    destruct (remove_htlc_Ok v m a (po_right _ _ P) Hma Hadd) as (v' & Hv' & Hok' & Hlist' & Hm' & Hli' & Hhc').
    rewrite <-Hi, Hv'. simpl. exists u', v'. split_and!; [done | | done].
    eapply DropPair; [done..| by split|]. by rewrite Hm', Hi.
Qed.

Lemma compact_log_steps lt rt l u v :
  pair_ok u v → adds_stay u → NoDup l.*1 → (∀ x, x ∈ l → x ∈ ul_list u) →
  ∃ u' v', fold_result (compact_entry lt rt) l (u, v) = Ok (u', v') ∧ rtc (compact_step lt rt) (u, v) (u', v').
Proof.
  revert u v. induction l as [|x l IH]; intros u v P Hs Hnd Hl.
  { exists u, v. split; [done | apply rtc_refl]. }
  apply NoDup_cons in Hnd as [Hx Hnd].
  change (fold_result (compact_entry lt rt) (x :: l) (u, v))
    with (rbind (compact_entry lt rt (u, v) x) (fold_result (compact_entry lt rt) l)).
  destruct (compact_entry_step lt rt u v x P Hs) as [->|(u1 & v1 & -> & Hst & Hd)];
    [apply Hl; by left | |]; cbn [rbind].
  - apply IH; try done. intros y Hy. apply Hl. by right.
  - destruct (IH u1 v1) as (u' & v' & E & Hr).
    + by eapply compact_step_ok.
    + intros n pd [Hin _]%(dropped_elem _ _ _ Hd). by apply (Hs n pd).
    + done.
    + intros [n pd] Hy. apply (dropped_elem _ _ _ Hd). split; [apply Hl; by right|].
      intros ->. apply Hx, list_elem_of_fmap. by exists (x.1, pd).
    + exists u', v'. split; [done|]. by eapply rtc_l.
Qed.

(** The steps of the second pass are those of the logs swapped. *)
Definition either_step lt rt (p q : update_log * update_log) : Prop :=
  compact_step lt rt p q ∨ compact_step lt rt (p.2, p.1) (q.2, q.1).

Lemma either_steps_ok lt rt p q : rtc (either_step lt rt) p q → pair_ok p.1 p.2 → pair_ok q.1 q.2.
Proof.
  induction 1 as [|[u v] [u1 v1] q [Hst|Hst] _ IH]; intros P; [done| |]; apply IH; simpl in *.
  - by eapply compact_step_ok.
  - apply pair_ok_sym. eapply compact_step_ok; [done|]. by apply pair_ok_sym.
Qed.

Lemma compact_step_sub lt rt u v u' v' :
  compact_step lt rt (u, v) (u', v') → ∀ x, (x ∈ ul_list u' → x ∈ ul_list u) ∧ (x ∈ ul_list v' → x ∈ ul_list v).
Proof.
  intros H [k pd]. inversion H as [? ? ? n pd' ? ? ? ? Hd|? ? ? ? n r m a ? ? ? ? ? ? ? Hd ? ? Hd']; subst.
  - by rewrite (dropped_elem _ _ _ Hd); split; [intros []|].
  - rewrite (dropped_elem _ _ _ Hd), (dropped_elem _ _ _ Hd'). by split; intros [].
Qed.

Lemma either_step_sub lt rt p q x :
  rtc (either_step lt rt) p q → (x ∈ ul_list q.1 → x ∈ ul_list p.1) ∧ (x ∈ ul_list q.2 → x ∈ ul_list p.2).
Proof.
  induction 1 as [|[u v] [u1 v1] q [Hst|Hst] _ IH]; simpl in *; [done| |];
    pose proof (compact_step_sub _ _ _ _ _ _ Hst x); naive_solver.
Qed.

(** Compaction ends without a panic. *)
Lemma compact_logs_steps lt rt u v :
  pair_ok u v → adds_stay u → adds_stay v →
  ∃ u' v', compact_logs u v lt rt = Ok (u', v') ∧ rtc (either_step lt rt) (u, v) (u', v').
Proof.
  intros P Hu Hv. unfold compact_logs, compact_log.
  destruct (compact_log_steps lt rt (ul_list u) u v P Hu) as (u1 & v1 & -> & H1);
    [apply P | done | ].
  assert (rtc (either_step lt rt) (u, v) (u1, v1)) as H1'.
  { eapply rtc_congruence with (f := id); [|exact H1]. by left. }
  pose proof (either_steps_ok _ _ _ _ H1' P) as P1. simpl in P1.
  cbn [rbind]. destruct (compact_log_steps lt rt (ul_list v1) v1 u1) as (v2 & u2 & -> & H2).
  - by apply pair_ok_sym.
  - intros n pd Hin. apply (either_step_sub _ _ _ _ (n, pd) H1') in Hin. by apply Hv in Hin.
  - apply (lo_nodes _ (po_right _ _ P1)).
  - done.
  - exists u2, v2. split; [done|]. etrans; [exact H1'|].
    change (rtc (either_step lt rt) (prod_swap (v1, u1)) (prod_swap (v2, u2))).
    eapply rtc_congruence; [|exact H2]. intros [] [] ?. by right.
Qed.
End Pairs.
