(* ===== verification/ChannelView.v ===== *)
(** * Facts about the evaluation of a view

    [evaluate_htlc_view] and [compute_view] in closed form: which HTLCs stay,
    what the balances become, and that the flags of the entries, which an
    evaluation can set, do not matter to it. *)

From S2P Require Import Prelude Chainfee Shachain UpdateLog Channel ChannelLog.

Arguments log_of : simpl never.
Arguments chain_of : simpl never.
Arguments chain_list : simpl never.

(** ** Channels that differ in the flags of their entries *)

Definition core (pd : payment_descriptor) : payment_descriptor :=
  set_pd_noop_settle false (set_pd_is_forwarded false pd).
Definition core_entry (x : entry) : entry := (x.1, core x.2).
Definition core_log (u : update_log) : update_log := set_ul_list (map core_entry (ul_list u)) u.
Definition core_chan (lc : channel) : channel :=
  set_update_logs (Dual (core_log (log_of lc Local)) (core_log (log_of lc Remote))) lc.
Definition core_view (v : htlc_view) : htlc_view :=
  HtlcView (hv_next_height v)
    (Dual (map core_entry (dual_local (hv_updates v))) (map core_entry (dual_remote (hv_updates v))))
    (hv_fee_per_kw v).

Definition same_core (lc lc' : channel) : Prop := core_chan lc = core_chan lc'.
#[export] Instance same_core_equivalence : Equivalence same_core.
Proof. split; repeat intro; unfold same_core in *; congruence. Qed.

Lemma core_content pd : same_content (core pd) pd.
Proof. done. Qed.
Lemma core_is_add pd : is_add (core pd) = is_add pd.
Proof. done. Qed.
Lemma core_uncommitted w pd : is_uncommitted w (core pd) = is_uncommitted w pd.
Proof. done. Qed.

Lemma node_in_core n l : node_in n (map core_entry l) = core <$> node_in n l.
Proof. induction l as [|[m pd] l IH]; simpl; [done|]. by destruct (m =? n). Qed.

Lemma log_of_core lc p : log_of (core_chan lc) p = core_log (log_of lc p).
Proof. by destruct p. Qed.

Lemma entries_below_core i u : entries_below i (core_log u) = map core_entry (entries_below i u).
Proof. unfold entries_below. simpl. by rewrite bfilter_map. Qed.

Lemma fetch_view_core t o lc : fetch_htlc_view t o (core_chan lc) = core_view (fetch_htlc_view t o lc).
Proof. unfold fetch_htlc_view, core_view. simpl. by rewrite !log_of_core, !entries_below_core. Qed.

Lemma fetch_parent_core lc pd w q :
  fetch_parent (core_chan lc) (core pd) w q =
  match fetch_parent lc pd w q with Ok a => Ok (core a) | Err e => Err e end.
Proof.
  unfold fetch_parent, lookup_htlc, node_value. rewrite log_of_core. simpl.
  destruct (ul_htlc_index (log_of lc q) !! pd_parent_index pd) as [n|]; simpl; [|done].
  rewrite node_in_core. destruct (node_in n _) as [a|]; simpl; [|done].
  unfold add_height. simpl. by destruct (_ =? 0).
Qed.

Lemma resolve_entry_core lc w p acc x :
  resolve_entry (core_chan lc) w p acc (core_entry x) = resolve_entry lc w p acc x.
Proof.
  unfold resolve_entry. simpl. rewrite fetch_parent_core. by destruct (fetch_parent _ _ _ _).
Qed.

Lemma resolve_entries_core lc w p acc l :
  resolve_entries (core_chan lc) w p acc (map core_entry l) = resolve_entries lc w p acc l.
Proof.
  revert acc. induction l as [|x l IH]; intros acc; simpl; [done|].
  rewrite resolve_entry_core. destruct (resolve_entry lc w p acc x); [apply IH | done].
Qed.

Lemma resolutions_core l : resolutions (map core_entry l) = map core_entry (resolutions l).
Proof. unfold resolutions. by rewrite bfilter_map. Qed.

Lemma resolve_view_core lc w v : resolve_view (core_chan lc) w (core_view v) = resolve_view lc w v.
Proof.
  unfold resolve_view. simpl. rewrite !resolutions_core, resolve_entries_core.
  destruct (resolve_entries lc w Local _ _) as [acc [|]]; [|done]. apply resolve_entries_core.
Qed.

Lemma live_adds_core skip l : live_adds skip (map core_entry l) = map core_entry (live_adds skip l).
Proof. unfold live_adds. by rewrite bfilter_map. Qed.

Lemma debit_adds_core w l d : debit_adds w (map core_entry l) d = debit_adds w l d.
Proof. unfold debit_adds. revert d. induction l as [|x l IH]; intros d; simpl; [done|]. apply IH. Qed.

Lemma view_fee_rate_core lc v : view_fee_rate (core_chan lc) (core_view v) = view_fee_rate lc v.
Proof.
  unfold view_fee_rate. change (lc_params (core_chan lc)) with (lc_params lc).
  destruct (initiator _); simpl; rewrite bfilter_map; simpl; rewrite fmap_last; by destruct (last _).
Qed.

Lemma num_htlcs_core p w f v : num_htlcs p w f (core_view v) = num_htlcs p w f v.
Proof. unfold num_htlcs, outputs_of. simpl. by rewrite !bfilter_map, !length_map. Qed.

(** ** The evaluation in closed form *)

Section Eval.
Context (lc : channel) (w : channel_party).

Definition eval_live (acc : eval_acc) (v : htlc_view) (p : channel_party) : list entry :=
  live_adds (get_for_party (ea_skip acc) p) (get_for_party (hv_updates v) p).
Definition eval_delta (acc : eval_acc) (v : htlc_view) (p : channel_party) : Z :=
  debit_adds w (eval_live acc v p) (get_for_party (ea_deltas acc) p).

Definition next_height : Z := u64 (cm_height (tip (chain_of lc w)) + 1).

(** The view that is evaluated, with the fee rate of the chain's tip. *)
Definition tip_view (v : htlc_view) : htlc_view :=
  HtlcView next_height (hv_updates v) (cm_fee_per_kw (tip (chain_of lc w))).

Definition eval_view (acc : eval_acc) (v : htlc_view) : htlc_view :=
  HtlcView next_height (Dual (eval_live acc v Local) (eval_live acc v Remote)) (view_fee_rate lc (tip_view v)).

Definition our_after (acc : eval_acc) (v : htlc_view) : Z :=
  let c := tip (chain_of lc w) in
  apply_delta (if pr_is_initiator (lc_params lc) then u64 (cm_our_balance c + msat_of_sat (cm_fee c))
               else cm_our_balance c) (eval_delta acc v Local).
Definition their_after (acc : eval_acc) (v : htlc_view) : Z :=
  let c := tip (chain_of lc w) in
  apply_delta (if pr_is_initiator (lc_params lc) then cm_their_balance c
               else u64 (cm_their_balance c + msat_of_sat (cm_fee c))) (eval_delta acc v Remote).

Definition view_result (acc : eval_acc) (v : htlc_view) : computed_view :=
  ComputedView (our_after acc v) (their_after acc v)
    (u64 (commit_weight (pr_chan_type (lc_params lc)) +
          u64 (htlc_weight * num_htlcs (lc_params lc) w (view_fee_rate lc (tip_view v)) (eval_view acc v))))
    (eval_view acc v).

Definition eval_uncommitted (v : htlc_view) : dual (list entry) :=
  let f p := List.filter (λ x, is_uncommitted w x.2) (get_for_party (hv_updates v) p) in
  Dual (f Local) (f Remote).
End Eval.

(** Running a method one step. *)
Ltac run := unfold mbind, M_bind, mret, M_ret, get, lift, modify, check, fail; cbv beta iota.

(** [compute_view] without a dry run, when it only looks. *)
Lemma compute_view_false lc w v lc' r :
  compute_view v w false None lc = (lc', r) →
  ∃ acc ok, resolve_view lc w v = (acc, ok) ∧ lc' = mark_noops (ea_noops acc) lc ∧
    ∀ cv, r = Ok cv → ok = Ok () ∧ cv = view_result lc w acc v ∧
      0 ≤ i64 (our_after lc w acc v) ∧ 0 ≤ i64 (their_after lc w acc v).
Proof.
  unfold compute_view, evaluate_htlc_view. run.
  change (resolve_view lc w (HtlcView _ (hv_updates v) _)) with (resolve_view lc w v).
  destruct (resolve_view lc w v) as [acc ok] eqn:E. intros H. exists acc, ok. split; [done|].
  cbv zeta in H. destruct ok as [[]|e]; cbn [rbind] in H.
  2: { by injection H as <- <-. }
  change (0 <=? i64 (apply_delta _ (dual_local _))) with (0 <=? i64 (our_after lc w acc v)) in H.
  change (0 <=? i64 (apply_delta _ (dual_remote _))) with (0 <=? i64 (their_after lc w acc v)) in H.
  destruct (0 <=? i64 (our_after lc w acc v)) eqn:E1; cbn [mret M_ret] in H; [|by injection H as <- <-].
  destruct (0 <=? i64 (their_after lc w acc v)) eqn:E2; cbn [mret M_ret] in H; [|by injection H as <- <-].
  injection H as <- <-. split; [done|]. intros cv [= <-]. apply Z.leb_le in E1, E2. done.
Qed.

(** ... and when it commits the view's updates. *)
Lemma compute_view_true lc w v lc' cv :
  compute_view v w true None lc = (lc', Ok cv) →
  ∃ acc, resolve_view lc w v = (acc, Ok ()) ∧ cv = view_result lc w acc v ∧
    0 ≤ i64 (our_after lc w acc v) ∧ 0 ≤ i64 (their_after lc w acc v) ∧
    lc' = record_settlements w (ea_noops acc) (eval_uncommitted w v)
            (set_commit_heights w (next_height lc w) (eval_uncommitted w v) (mark_noops (ea_noops acc) lc)).
Proof.
  unfold compute_view, evaluate_htlc_view. run.
  change (resolve_view lc w (HtlcView _ (hv_updates v) _)) with (resolve_view lc w v).
  destruct (resolve_view lc w v) as [acc ok] eqn:E. intros H. exists acc.
  cbv zeta in H. destruct ok as [[]|e]; cbn [rbind] in H; [|done]. split; [done|].
  change (0 <=? i64 (apply_delta _ (dual_local _))) with (0 <=? i64 (our_after lc w acc v)) in H.
  change (0 <=? i64 (apply_delta _ (dual_remote _))) with (0 <=? i64 (their_after lc w acc v)) in H.
  destruct (0 <=? i64 (our_after lc w acc v)) eqn:E1; cbn [mret M_ret] in H; [|done].
  destruct (0 <=? i64 (their_after lc w acc v)) eqn:E2; cbn [mret M_ret] in H; [|done].
  injection H as <- <-. apply Z.leb_le in E1, E2. done.
Qed.

Lemma our_after_core lc w acc v : our_after (core_chan lc) w acc (core_view v) = our_after lc w acc v.
Proof.
  unfold our_after, eval_delta, eval_live. cbn [core_view hv_updates get_for_party dual_local].
  by rewrite live_adds_core, debit_adds_core.
Qed.
Lemma their_after_core lc w acc v : their_after (core_chan lc) w acc (core_view v) = their_after lc w acc v.
Proof.
  unfold their_after, eval_delta, eval_live. cbn [core_view hv_updates get_for_party dual_remote].
  by rewrite live_adds_core, debit_adds_core.
Qed.

Lemma fee_rate_core lc w v :
  view_fee_rate (core_chan lc) (tip_view (core_chan lc) w (core_view v)) = view_fee_rate lc (tip_view lc w v).
Proof. exact (view_fee_rate_core lc (tip_view lc w v)). Qed.

Lemma eval_view_core lc w acc v : eval_view (core_chan lc) w acc (core_view v) = core_view (eval_view lc w acc v).
Proof.
  unfold eval_view. rewrite fee_rate_core. unfold eval_live.
  cbn [core_view hv_updates get_for_party dual_remote dual_local]. by rewrite !live_adds_core.
Qed.

Lemma view_result_core lc w acc v :
  view_result (core_chan lc) w acc (core_view v) =
  let cv := view_result lc w acc v in
  ComputedView (cv_our_balance cv) (cv_their_balance cv) (cv_commit_weight cv) (core_view (cv_view cv)).
Proof.
  unfold view_result. cbn [cv_our_balance cv_their_balance cv_commit_weight cv_view].
  rewrite our_after_core, their_after_core, eval_view_core, fee_rate_core.
  change (lc_params (core_chan lc)) with (lc_params lc). by rewrite num_htlcs_core.
Qed.

(** Two looks at channels that differ in flags see the same. *)
Lemma view_same_core lc lc' w t o acc ok :
  same_core lc lc' → resolve_view lc w (fetch_htlc_view t o lc) = (acc, ok) →
  resolve_view lc' w (fetch_htlc_view t o lc') = (acc, ok) ∧
  let cv := view_result lc w acc (fetch_htlc_view t o lc) in
  let cv' := view_result lc' w acc (fetch_htlc_view t o lc') in
  cv_our_balance cv = cv_our_balance cv' ∧ cv_their_balance cv = cv_their_balance cv' ∧
  cv_commit_weight cv = cv_commit_weight cv' ∧ core_view (cv_view cv) = core_view (cv_view cv').
Proof.
  intros Hs Hr. split.
  - by rewrite <-resolve_view_core, <-fetch_view_core, <-Hs, fetch_view_core, resolve_view_core.
  - pose proof (view_result_core lc w acc (fetch_htlc_view t o lc)) as E.
    pose proof (view_result_core lc' w acc (fetch_htlc_view t o lc')) as E'.
    rewrite <-fetch_view_core in E, E'. rewrite <-Hs, E in E'. cbv zeta in E' |- *.
    split_and!; [apply (f_equal cv_our_balance E') | apply (f_equal cv_their_balance E')
      | apply (f_equal cv_commit_weight E') | apply (f_equal cv_view E')].
Qed.

(** ** What the methods write *)

Lemma modify_flags_core ns f u :
  (∀ pd, core (f pd) = core pd) → core_log (modify_nodes ns f u) = core_log u.
Proof.
  intros Hf. unfold core_log at 1. cbn [modify_nodes set_ul_list ul_list]. rewrite map_map.
  change (set_ul_list ?l (modify_nodes ns f u)) with (set_ul_list l u). unfold core_log. f_equal. apply map_ext.
  intros [n pd]. unfold core_entry, write_node. simpl. case_bool_decide; simpl; by rewrite ?Hf.
Qed.

Lemma set_logs_core l r u lc :
  core_log l = core_log (log_of lc Local) → core_log r = core_log (log_of lc Remote) →
  u = Dual l r → same_core (set_update_logs u lc) lc.
Proof. intros Hl Hr ->. unfold same_core, core_chan. unfold log_of at 1 2. simpl. by rewrite Hl, Hr. Qed.

Lemma mark_noops_core ns lc : same_core (mark_noops ns lc) lc.
Proof.
  eapply (set_logs_core (modify_nodes (dual_local ns) (set_pd_noop_settle true) (log_of lc Local))
            (modify_nodes (dual_remote ns) (set_pd_noop_settle true) (log_of lc Remote)));
    [by apply modify_flags_core | by apply modify_flags_core | done].
Qed.

(** Only the channel's record in the database changes. *)
Definition state_only (lc lc' : channel) : Prop := lc' = set_channel_state (lc_channel_state lc') lc.

Lemma state_only_refl lc : state_only lc lc.
Proof. by destruct lc. Qed.
Lemma state_only_trans lc lc1 lc2 : state_only lc lc1 → state_only lc1 lc2 → state_only lc lc2.
Proof. unfold state_only. intros -> ->. done. Qed.

Lemma record_settlements_state w ns l lc : state_only lc (record_settlements w ns l lc).
Proof.
  assert (∀ p (l : list entry) lc,
    state_only lc (foldl (λ lc x, record_settlement p (pd_amount x.2) lc) lc l)) as Hf.
  { clear. intros p l. induction l as [|x l IH]; intros lc; simpl; [apply state_only_refl|].
    eapply state_only_trans; [|apply IH]. unfold record_settlement. by destruct p. }
  destruct w; simpl; [|apply state_only_refl]. eapply state_only_trans; apply Hf.
Qed.

(** ** What the first pass finds *)

Lemma counter_party_involutive p : counter_party (counter_party p) = p.
Proof. by destruct p. Qed.
Lemma get_set_same {A} (d : dual A) p v : get_for_party (set_for_party d p v) p = v.
Proof. by destruct p. Qed.
Lemma get_set_other {A} (d : dual A) p v : get_for_party (set_for_party d (counter_party p) v) p = get_for_party d p.
Proof. by destruct p. Qed.

Definition total (d : dual Z) : Z := dual_local d + dual_remote d.
Definition amounts (l : list entry) : Z := zsum (map (λ x, pd_amount x.2) l).

Lemma total_modify d p k : total (modify_for_party d p (λ a, i64 (a + i64 k))) ≡₆₄ total d + k.
Proof.
  unfold total. destruct p; simpl; rewrite !i64_eq64; eq64_lia.
Qed.

(** The HTLC that a resolution of the other party's log refers to, committed. *)
Definition has_parent (lc : channel) (w q : channel_party) (x : entry) : Prop :=
  ∃ m a, (m, a) ∈ ul_list (log_of lc q) ∧ is_add a = true ∧ pd_htlc_index a = pd_parent_index x.2 ∧
    add_height w a ≠ 0.

Definition unremoved (w : channel_party) (l : list entry) : list entry :=
  List.filter (λ x, remove_height w x.2 =? 0) l.

Definition parents (l : list entry) : gset Z := list_to_set (map (λ x, pd_parent_index x.2) l).

Lemma fetch_parent_Ok lc pd w q a :
  log_ok (log_of lc q) → fetch_parent lc pd w q = Ok a →
  pd_htlc_index a = pd_parent_index pd ∧ add_height w a ≠ 0 ∧
  ∃ m, (m, a) ∈ ul_list (log_of lc q) ∧ is_add a = true.
Proof.
  intros H. unfold fetch_parent. destruct (lookup_htlc _ _) as [a'|] eqn:E; [|done].
  destruct (add_height w a' =? 0) eqn:Ez; [done|]. simpl. intros [= ->].
  apply (lookup_htlc_Some _ _ _ H) in E as (m & Hin & Ha & Hi).
  split_and!; [done | by apply Z.eqb_neq | eauto].
Qed.

Lemma resolve_entry_Ok lc w p acc x acc' :
  log_ok (log_of lc (counter_party p)) → resolve_entry lc w p acc x = Ok acc' →
  has_parent lc w (counter_party p) x ∧
  ea_skip acc' = modify_for_party (ea_skip acc) (counter_party p) (λ s, {[pd_parent_index x.2]} ∪ s) ∧
  total (ea_deltas acc') ≡₆₄ total (ea_deltas acc) + amounts (unremoved w [x]).
Proof.
  intros H. unfold resolve_entry. destruct (fetch_parent _ _ _ _) as [a|] eqn:E; [|done].
  apply fetch_parent_Ok in E as (Hi & Hh & m & Hin & Ha); [|done]. cbn [rbind]. rewrite Hi.
  assert (has_parent lc w (counter_party p) x) as Hp by by exists m, a.
  unfold unremoved, amounts. simpl. destruct (remove_height w x.2 =? 0); simpl.
  2: { intros [= <-]. split_and!; [done..|]. simpl. by rewrite Z.add_0_r. }
  rewrite Z.add_0_r. unfold evaluate_noop_htlc.
  repeat case_match; intros [= <-]; (split_and!; [done | by destruct p | apply total_modify]).
Qed.

Lemma resolve_entries_Ok lc w p l acc acc' :
  log_ok (log_of lc (counter_party p)) → resolve_entries lc w p acc l = (acc', Ok ()) →
  Forall (has_parent lc w (counter_party p)) l ∧
  get_for_party (ea_skip acc') p = get_for_party (ea_skip acc) p ∧
  get_for_party (ea_skip acc') (counter_party p) = parents l ∪ get_for_party (ea_skip acc) (counter_party p) ∧
  total (ea_deltas acc') ≡₆₄ total (ea_deltas acc) + amounts (unremoved w l).
Proof.
  intros H. revert acc. induction l as [|x l IH]; intros acc; simpl.
  - intros [= <-]. split_and!; [done | done | set_solver | by rewrite Z.add_0_r].
  - destruct (resolve_entry lc w p acc x) as [acc1|] eqn:E; [|done].
    apply resolve_entry_Ok in E as (Hp & Hs & Hd); [|done].
    intros (HF & H1 & H2 & H3)%IH. split_and!.
    + by constructor.
    + rewrite H1, Hs. by destruct p.
    + rewrite H2, Hs. unfold parents. destruct p; simpl; set_solver.
    + rewrite H3, Hd. unfold amounts, unremoved. simpl.
      destruct (remove_height w x.2 =? 0); simpl; eq64_lia.
Qed.

(** The whole first pass: every resolution in the view has its HTLC, the HTLCs
    to skip are theirs, and the balances gain what they resolve. *)
Lemma resolve_view_Ok lc w v acc :
  log_ok (log_of lc Local) → log_ok (log_of lc Remote) → resolve_view lc w v = (acc, Ok ()) →
  let res p := resolutions (get_for_party (hv_updates v) p) in
  (∀ p, Forall (has_parent lc w (counter_party p)) (res p)) ∧
  (∀ p, get_for_party (ea_skip acc) p = parents (res (counter_party p))) ∧
  total (ea_deltas acc) ≡₆₄ amounts (unremoved w (res Local)) + amounts (unremoved w (res Remote)).
Proof.
  intros Hl Hr. unfold resolve_view.
  destruct (resolve_entries lc w Local _ _) as [acc1 [[]|]] eqn:E1; [|done]. intros E2.
  apply resolve_entries_Ok in E1 as (F1 & A1 & B1 & C1); [|done].
  apply resolve_entries_Ok in E2 as (F2 & A2 & B2 & C2); [|done].
  simpl in *. split_and!.
  - by intros [].
  - intros []; simpl; [rewrite B2, A1; set_solver | rewrite A2, B1; set_solver].
  - rewrite C2, C1. unfold total. simpl. eq64_lia.
Qed.

(** The second pass debits what is new. *)
Lemma debit_adds_eq64 w l d :
  debit_adds w l d ≡₆₄ d - amounts (List.filter (λ x, add_height w x.2 =? 0) l).
Proof.
  unfold debit_adds, amounts. revert d. induction l as [|x l IH]; intros d; simpl; [by rewrite Z.sub_0_r|].
  rewrite IH. destruct (add_height w x.2 =? 0); simpl; [|done].
  rewrite !i64_eq64. eq64_lia.
Qed.

Lemma apply_delta_eq64 b d : apply_delta b d ≡₆₄ b + d.
Proof.
  unfold apply_delta. destruct (0 <=? d); rewrite ?u64_eq64, ?i64_eq64; eq64_lia.
Qed.

Lemma msat_of_sat_eq64 s : msat_of_sat s ≡₆₄ 1000 * s.
Proof. unfold msat_of_sat. rewrite !u64_eq64. eq64_lia. Qed.

(** Together: the balances before the fee of the next commitment. *)
Lemma balances_after lc w v acc :
  log_ok (log_of lc Local) → log_ok (log_of lc Remote) → resolve_view lc w v = (acc, Ok ()) →
  let c := tip (chain_of lc w) in
  let new p := List.filter (λ x, add_height w x.2 =? 0) (eval_live acc v p) in
  let res p := unremoved w (resolutions (get_for_party (hv_updates v) p)) in
  our_after lc w acc v + their_after lc w acc v ≡₆₄
    cm_our_balance c + cm_their_balance c + 1000 * cm_fee c
    + (amounts (res Local) + amounts (res Remote)) - (amounts (new Local) + amounts (new Remote)).
Proof.
  intros Hl Hr Hv. destruct (resolve_view_Ok _ _ _ _ Hl Hr Hv) as (_ & _ & Hd). cbv zeta in *.
  unfold our_after, their_after. rewrite !apply_delta_eq64. unfold eval_delta. rewrite !debit_adds_eq64.
  set (nl := amounts _). set (nr := amounts _).
  transitivity (cm_our_balance (tip (chain_of lc w)) + cm_their_balance (tip (chain_of lc w)) +
    1000 * cm_fee (tip (chain_of lc w)) + total (ea_deltas acc) - (nl + nr)).
  - destruct (pr_is_initiator (lc_params lc)); rewrite u64_eq64, msat_of_sat_eq64; unfold total; simpl; eq64_lia.
  - by rewrite Hd.
Qed.
