(* ===== verification/ChannelInv.v ===== *)
(** * The invariant of a channel

    Every unrevoked commitment lists the HTLCs that the logs leave open at its
    indexes, and shares the same funds among the two balances, the fee and
    these HTLCs. This file states the invariant and shows that the writes of
    the methods keep it; [ChannelSteps] has the methods. *)

From S2P Require Import Prelude Chainfee Shachain UpdateLog Channel ChannelLog ChannelView.

(** ** Open HTLCs *)

(** The HTLCs of the log [u] that are open at index [i] of it and index [j] of
    the other log [v]. *)
Definition parents_below (j : Z) (v : update_log) : gset Z := parents (resolutions (entries_below j v)).

Definition open_htlcs (u v : update_log) (i j : Z) : list entry :=
  List.filter (λ x, (pd_log_index x.2 <? i) &&
                    (is_add x.2 && negb (bool_decide (pd_htlc_index x.2 ∈ parents_below j v)))) (ul_list u).

Lemma live_adds_open u v i j : live_adds (parents_below j v) (entries_below i u) = open_htlcs u v i j.
Proof. unfold live_adds, entries_below, open_htlcs. by rewrite bfilter_bfilter. Qed.

(** What a commitment shows of its HTLCs: their index and amount. *)
Definition keys (l : list payment_descriptor) : list (Z * Z) := map (λ pd, (pd_htlc_index pd, pd_amount pd)) l.

Lemma keys_snd (l : list entry) : keys l.*2 = map (λ x, (pd_htlc_index x.2, pd_amount x.2)) l.
Proof. unfold keys. induction l as [|x l IH]; simpl; by f_equal. Qed.

Lemma keys_amounts (l : list entry) : amounts l = zsum (keys l.*2).*2.
Proof. rewrite keys_snd. unfold amounts. induction l as [|x l IH]; simpl; by f_equal. Qed.

Definition idx (c : commitment) (p : channel_party) : Z := get_for_party (cm_message_indices c) p.

Record reflects (u v : update_log) (c : commitment) : Prop := {
  rf_outgoing : keys (cm_outgoing c) = keys (open_htlcs u v (idx c Local) (idx c Remote)).*2;
  rf_incoming : keys (cm_incoming c) = keys (open_htlcs v u (idx c Remote) (idx c Local)).*2;
}.

(** *** Writes that keep the content of the entries *)

Section Content.
Context (ns : list node) (f : payment_descriptor → payment_descriptor) (u : update_log).
Hypothesis Hf : ∀ n pd, n ∈ ns → (n, pd) ∈ ul_list u → same_content (f pd) pd.

Let g := write_node ns f.

Lemma write_content x : x ∈ ul_list u → same_content (g x).2 x.2.
Proof using Hf.
  destruct x as [n pd]. intros Hin. unfold g, write_node. simpl. case_bool_decide; [by apply Hf with n | done].
Qed.

Lemma entries_below_modify i : entries_below i (modify_nodes ns f u) = map g (entries_below i u).
Proof using Hf.
  unfold entries_below, modify_nodes. simpl. fold g. rewrite bfilter_map. f_equal. apply bfilter_ext.
  intros x Hx. cbv beta. by rewrite (sc_log _ _ (write_content x Hx)).
Qed.

Lemma parents_below_modify j : parents_below j (modify_nodes ns f u) = parents_below j u.
Proof using Hf.
  unfold parents_below, parents, resolutions. rewrite entries_below_modify, bfilter_map, map_map. f_equal.
  rewrite (bfilter_ext (λ x, is_resolution (g x).2) (λ x, is_resolution x.2)).
  - apply map_ext_in. intros x [[Hx _]%elem_of_bfilter _]%list_elem_of_In%elem_of_bfilter.
    apply (sc_parent _ _ (write_content x Hx)).
  - intros x [Hx _]%elem_of_bfilter. apply (same_content_is_resolution _ _ (write_content x Hx)).
Qed.

Lemma open_htlcs_modify v i j : keys (open_htlcs (modify_nodes ns f u) v i j).*2 = keys (open_htlcs u v i j).*2.
Proof using Hf.
  rewrite !keys_snd. unfold open_htlcs, modify_nodes. simpl. fold g. rewrite bfilter_map, map_map.
  rewrite (bfilter_ext _ (λ x, (pd_log_index x.2 <? i) &&
    (is_add x.2 && negb (bool_decide (pd_htlc_index x.2 ∈ parents_below j v))))).
  - apply map_ext_in. intros x [Hx Hp]%list_elem_of_In%elem_of_bfilter. simpl.
    pose proof (write_content x Hx) as Hc. rewrite (sc_htlc _ _ Hc), (sc_amount _ _ Hc); [done|].
    apply add_not_fee. by apply andb_true_iff in Hp as [_ [Ha _]%andb_true_iff].
  - intros x Hx. pose proof (write_content x Hx) as Hc.
    by rewrite (sc_log _ _ Hc), (sc_htlc _ _ Hc), (same_content_is_add _ _ Hc).
Qed.
End Content.

(** *** New entries *)

Lemma entries_below_push i u u' n pd :
  ul_list u' = ul_list u ++ [(n, pd)] → i ≤ pd_log_index pd → entries_below i u' = entries_below i u.
Proof.
  intros Hu Hi. unfold entries_below. rewrite Hu, List.filter_app. simpl.
  destruct (_ <? i) eqn:E; [apply Z.ltb_lt in E; lia|]. apply app_nil_r.
Qed.

Lemma open_htlcs_push i j u u' v v' n pd :
  ul_list u' = ul_list u ++ [(n, pd)] → i ≤ pd_log_index pd → ul_list v' = ul_list v →
  open_htlcs u' v' i j = open_htlcs u v i j ∧ open_htlcs v' u' j i = open_htlcs v u j i.
Proof.
  intros Hu Hi Hv. split.
  - rewrite <-!live_adds_open. unfold parents_below. rewrite (entries_below_push i u u' n pd) by done.
    unfold entries_below. by rewrite Hv.
  - rewrite <-!live_adds_open. unfold parents_below. rewrite (entries_below_push i u u' n pd) by done.
    unfold entries_below. by rewrite Hv.
Qed.

(** *** Compaction *)

Section Compaction.
Context {HP : HashPrims}.

Lemma filter_dropped (p q : entry → bool) n u u' :
  dropped n u u' → (∀ x, x ∈ ul_list u → x.1 ≠ n → p x = q x) →
  (∀ pd, (n, pd) ∈ ul_list u → q (n, pd) = false) →
  List.filter p (ul_list u') = List.filter q (ul_list u).
Proof.
  intros Hd Hpq Hn. rewrite (dr_list _ _ _ Hd). unfold remove_node. simpl. rewrite bfilter_bfilter.
  apply bfilter_ext. intros [m pd] Hin. simpl. destruct (m =? n) eqn:E; simpl.
  - apply Z.eqb_eq in E as ->. symmetry. by apply Hn.
  - apply Hpq; [done|]. simpl. by apply Z.eqb_neq in E.
Qed.

(** The parents of the resolutions do not change with an entry that is none. *)
Lemma parents_below_dropped j n u u' :
  dropped n u u' → (∀ pd, (n, pd) ∈ ul_list u → is_resolution pd = false) →
  parents_below j u' = parents_below j u.
Proof.
  intros Hd Hn. unfold parents_below, resolutions, entries_below. f_equal. rewrite !bfilter_bfilter.
  apply (filter_dropped _ _ n); [done | done|]. intros pd Hin. simpl. rewrite (Hn pd Hin). apply andb_false_r.
Qed.

Lemma parents_below_elem j u i :
  i ∈ parents_below j u ↔
  ∃ n r, (n, r) ∈ ul_list u ∧ is_resolution r = true ∧ pd_log_index r < j ∧ pd_parent_index r = i.
Proof.
  unfold parents_below, parents. rewrite elem_of_list_to_set, list_elem_of_fmap. split.
  - intros ([n r] & -> & Hin). apply elem_of_bfilter in Hin as [[Hin Hj]%elem_of_bfilter Hr].
    exists n, r. split_and!; try done. by apply Z.ltb_lt.
  - intros (n & r & Hin & Hr & Hj & <-). exists (n, r). split; [done|]. apply elem_of_bfilter.
    split; [|done]. apply elem_of_bfilter. split; [done|]. by apply Z.ltb_lt.
Qed.

Lemma compact_step_open lt rt u v u' v' i j :
  pair_ok u v → compact_step lt rt (u, v) (u', v') →
  (∀ n r, (n, r) ∈ ul_list u → is_resolution r = true → locked lt rt r → pd_log_index r < i) →
  open_htlcs u' v' i j = open_htlcs u v i j ∧ open_htlcs v' u' j i = open_htlcs v u j i.
Proof.
  intros P Hst Hi.
  inversion Hst as [? ? ? n pd Hin Ht Hl Hok Hd Hm|? ? ? ? n r m a Hin Hr Hl Ha Hadd Hp Hok Hd Hm Hok' Hd' Hm'];
    subst; unfold open_htlcs.
  - assert (∀ pd', (n, pd') ∈ ul_list u → pd' = pd) as Heq.
    { intros pd' Hin'. by apply (nodup_fst_inj _ _ _ _ (lo_nodes _ (po_left _ _ P)) Hin' Hin). }
    rewrite (parents_below_dropped i n u u'); [|done|].
    + split; [|done]. apply (filter_dropped _ _ n); [done | done|]. intros pd' ->%Heq. simpl.
      destruct (is_add pd) eqn:E; [by apply add_not_fee in E|]. apply andb_false_r.
    + intros pd' ->%Heq. destruct (is_resolution pd) eqn:E; [|done]. by apply resolution_not_fee in E.
  - assert (∀ pd', (n, pd') ∈ ul_list u → pd' = r) as Heq.
    { intros pd' Hin'. by apply (nodup_fst_inj _ _ _ _ (lo_nodes _ (po_left _ _ P)) Hin' Hin). }
    assert (∀ pd', (m, pd') ∈ ul_list v → pd' = a) as Heq'.
    { intros pd' Hin'. by apply (nodup_fst_inj _ _ _ _ (lo_nodes _ (po_right _ _ P)) Hin' Ha). }
    split.
    + rewrite (parents_below_dropped j m v v'); [|done|].
      * apply (filter_dropped _ _ n); [done | done|]. intros pd' ->%Heq. simpl.
        rewrite (resolution_not_add _ Hr). apply andb_false_r.
      * intros pd' ->%Heq'. destruct (is_resolution a) eqn:E; [|done].
        apply resolution_not_add in E. congruence.
    + apply (filter_dropped _ _ m); [done| |].
      * intros [k b] Hb Hk. simpl in *. f_equal. destruct (is_add b) eqn:Eb; [|done]. simpl. f_equal.
        apply bool_decide_ext. rewrite !parents_below_elem. split.
        -- intros (n' & r' & [Hin' _]%(dropped_elem _ _ _ Hd) & Hr'). by exists n', r'.
        -- intros (n' & r' & Hin' & Hr' & Hj' & Hp'). exists n', r'. split; [|done].
           apply (dropped_elem _ _ _ Hd). split; [done|]. intros ->. apply Heq in Hin' as ->.
           apply Hk. eapply (add_unique v k m b a); [apply P | done..|]. congruence.
      * intros pd' ->%Heq'. simpl. rewrite (bool_decide_true (pd_htlc_index a ∈ _)).
        { by rewrite !andb_false_r. }
        apply parents_below_elem. exists n, r. split_and!; try done. by apply (Hi n).
Qed.

Lemma either_steps_open lt rt p q i j :
  pair_ok p.1 p.2 → rtc (either_step lt rt) p q →
  (∀ n r, (n, r) ∈ ul_list p.1 → is_resolution r = true → locked lt rt r → pd_log_index r < i) →
  (∀ n r, (n, r) ∈ ul_list p.2 → is_resolution r = true → locked lt rt r → pd_log_index r < j) →
  open_htlcs q.1 q.2 i j = open_htlcs p.1 p.2 i j ∧ open_htlcs q.2 q.1 j i = open_htlcs p.2 p.1 j i.
Proof.
  intros P Hr. induction Hr as [|[u v] [u1 v1] q Hst Hr IH]; intros Hi Hj; [done|].
  assert (pair_ok u1 v1) as P1.
  { apply (either_steps_ok lt rt (u, v) (u1, v1)); [by apply rtc_once | done]. }
  assert (∀ x, (x ∈ ul_list u1 → x ∈ ul_list u) ∧ (x ∈ ul_list v1 → x ∈ ul_list v)) as Hsub.
  { intros x. apply (either_step_sub lt rt (u, v) (u1, v1) x). by apply rtc_once. }
  simpl in *. destruct IH as [-> ->].
  - done.
  - intros n r Hin. apply (Hi n r). by apply Hsub.
  - intros n r Hin. apply (Hj n r). by apply Hsub.
  - destruct Hst as [Hst|Hst]; simpl in Hst.
    + by apply (compact_step_open lt rt).
    + destruct (compact_step_open lt rt v u v1 u1 j i) as [? ?]; try done. by apply pair_ok_sym.
Qed.
End Compaction.

(** ** The money in open HTLCs *)

Lemma amounts_app l k : amounts (l ++ k) = amounts l + amounts k.
Proof. unfold amounts. by rewrite map_app, zsum_app. Qed.
Lemma amounts_cons x l : amounts (x :: l) = pd_amount x.2 + amounts l.
Proof. done. Qed.

Lemma amounts_split (p : entry → bool) l :
  amounts l = amounts (List.filter p l) + amounts (List.filter (λ x, negb (p x)) l).
Proof.
  induction l as [|x l IH]; [done|]. simpl. rewrite amounts_cons, IH.
  destruct (p x); simpl; rewrite amounts_cons; lia.
Qed.

Definition unskipped (k : gset Z) (l : list entry) : list entry :=
  List.filter (λ x, negb (bool_decide (pd_htlc_index x.2 ∈ k))) l.

(** Skipping one more HTLC of the list takes its amount away. *)
Lemma amounts_skip_one (k : gset Z) b l :
  NoDup (map (λ x : entry, pd_htlc_index x.2) l) → b ∈ l → pd_htlc_index b.2 ∉ k →
  amounts (unskipped ({[pd_htlc_index b.2]} ∪ k) l) = amounts (unskipped k l) - pd_amount b.2.
Proof.
  intros Hnd Hb Hk. induction l as [|x l IH]; [by apply elem_of_nil in Hb|].
  simpl in Hnd. apply NoDup_cons in Hnd as [Hx Hnd]. apply elem_of_cons in Hb as [<-|Hb].
  - simpl. rewrite (bool_decide_true (_ ∈ {[_]} ∪ k)) by set_solver.
    rewrite (bool_decide_false (_ ∈ k)) by done. simpl. rewrite amounts_cons.
    assert (unskipped ({[pd_htlc_index b.2]} ∪ k) l = unskipped k l) as ->; [|lia].
    apply bfilter_ext. intros y Hy. f_equal. apply bool_decide_ext.
    assert (pd_htlc_index y.2 ≠ pd_htlc_index b.2); [|set_solver]. intros E. apply Hx.
    rewrite <-E. apply list_elem_of_fmap. by exists y.
  - assert (pd_htlc_index x.2 ≠ pd_htlc_index b.2) as Hne.
    { intros E. apply Hx. rewrite E. apply list_elem_of_fmap. by exists b. }
    specialize (IH Hnd Hb). simpl. rewrite (bool_decide_ext (_ ∈ {[_]} ∪ k) (pd_htlc_index x.2 ∈ k)) by set_solver.
    case_bool_decide; simpl; [done|]. rewrite !amounts_cons. lia.
Qed.

Lemma amounts_skip (k : gset Z) (rs l : list entry) :
  NoDup (map (λ x : entry, pd_htlc_index x.2) l) → NoDup (map (λ x : entry, pd_parent_index x.2) rs) →
  (∀ r, r ∈ rs → pd_parent_index r.2 ∉ k ∧
     ∃ b, b ∈ l ∧ pd_htlc_index b.2 = pd_parent_index r.2 ∧ pd_amount b.2 = pd_amount r.2) →
  amounts (unskipped (parents rs ∪ k) l) = amounts (unskipped k l) - amounts rs.
Proof.
  intros Hnd. revert k. induction rs as [|r rs IH]; intros k Hrs Hp.
  - unfold parents. simpl. rewrite (left_id_L ∅ (∪)). unfold amounts at 3. simpl. lia.
  - simpl in Hrs. apply NoDup_cons in Hrs as [Hr Hrs].
    destruct (Hp r) as (Hk & b & Hb & Hi & Ha); [by left|].
    assert (parents (r :: rs) ∪ k = parents rs ∪ ({[pd_htlc_index b.2]} ∪ k)) as ->.
    { unfold parents. simpl. rewrite Hi. set_solver. }
    rewrite IH; [|done|].
    + rewrite amounts_skip_one; [rewrite amounts_cons; lia | done | done | by rewrite Hi].
    + intros r' Hr'. destruct (Hp r') as (Hk' & Hb'); [by right|]. split; [|done].
      assert (pd_parent_index r'.2 ≠ pd_htlc_index b.2); [|set_solver]. rewrite Hi. intros E. apply Hr.
      rewrite <-E. apply list_elem_of_fmap. by exists r'.
Qed.

Section Money.
Context {HP : HashPrims}.

Definition adds_below (i : Z) (u : update_log) : list entry :=
  List.filter (λ x, (pd_log_index x.2 <? i) && is_add x.2) (ul_list u).

Lemma open_unskipped u v i j : open_htlcs u v i j = unskipped (parents_below j v) (adds_below i u).
Proof.
  unfold open_htlcs, unskipped, adds_below. rewrite bfilter_bfilter. apply bfilter_ext. intros x _.
  by rewrite andb_assoc.
Qed.

Lemma adds_below_nodup i u : log_ok u → NoDup (map (λ x : entry, pd_htlc_index x.2) (adds_below i u)).
Proof.
  intros H. apply NoDup_fmap_2_strong.
  - intros [n a] [m b] [Ha Hpa]%elem_of_bfilter [Hb Hpb]%elem_of_bfilter E. simpl in *.
    apply andb_true_iff in Hpa as [_ Hpa]. apply andb_true_iff in Hpb as [_ Hpb].
    destruct (add_unique u n m a b) as [-> ->]; done.
  - eapply NoDup_fmap_1, (nodup_fst_filter _ _ (lo_nodes _ H)).
Qed.

Definition new_resolutions (j j' : Z) (v : update_log) : list entry :=
  List.filter (λ x, negb (pd_log_index x.2 <? j)) (resolutions (entries_below j' v)).

Lemma new_resolutions_elem j j' v n r :
  (n, r) ∈ new_resolutions j j' v ↔
  (n, r) ∈ ul_list v ∧ is_resolution r = true ∧ j ≤ pd_log_index r < j'.
Proof.
  unfold new_resolutions, resolutions, entries_below. rewrite !elem_of_bfilter. simpl.
  rewrite negb_true_iff, Z.ltb_lt, Z.ltb_ge. naive_solver.
Qed.

(** From the indexes of a commitment to later ones: the HTLCs that come are
    added, and what is resolved is taken away. *)
Lemma open_amounts u v i i' j j' :
  log_ok u → log_ok v → cross_ok v u → i ≤ i' → j ≤ j' →
  (∀ n r, (n, r) ∈ ul_list v → is_resolution r = true → pd_log_index r < j' →
    ∃ m a, (m, a) ∈ ul_list u ∧ is_add a = true ∧ pd_htlc_index a = pd_parent_index r ∧ pd_log_index a < i) →
  amounts (open_htlcs u v i' j') =
  amounts (open_htlcs u v i j)
  + amounts (List.filter (λ x : entry, negb (pd_log_index x.2 <? i)) (open_htlcs u v i' j'))
  - amounts (new_resolutions j j' v).
Proof.
  intros Hu Hv Hc Hi Hj Hp.
  rewrite (amounts_split (λ x : entry, pd_log_index x.2 <? i) (open_htlcs u v i' j')).
  assert (List.filter (λ x : entry, pd_log_index x.2 <? i) (open_htlcs u v i' j') = open_htlcs u v i j') as ->.
  { unfold open_htlcs. rewrite bfilter_bfilter. apply bfilter_ext. intros x _.
    destruct (pd_log_index x.2 <? i) eqn:E; [|by rewrite andb_false_r]. apply Z.ltb_lt in E.
    rewrite (proj2 (Z.ltb_lt _ i')) by lia. simpl. by rewrite andb_true_r. }
  enough (amounts (open_htlcs u v i j') = amounts (open_htlcs u v i j) - amounts (new_resolutions j j' v)) by lia.
  rewrite !open_unskipped.
  assert (parents_below j' v = parents (new_resolutions j j' v) ∪ parents_below j v) as ->.
  { apply set_eq. intros k. rewrite elem_of_union, !parents_below_elem.
    unfold parents. rewrite elem_of_list_to_set, list_elem_of_fmap. split.
    - intros (n & r & Hin & Hr & Hlt & Hk). destruct (decide (pd_log_index r < j)).
      + right. by exists n, r.
      + left. exists (n, r). split; [done|]. apply new_resolutions_elem. split_and!; [done..|lia|done].
    - intros [([n r] & -> & (Hin & Hr & Hlt)%new_resolutions_elem)|(n & r & Hin & Hr & Hlt & Hk)];
        exists n, r; split_and!; try done; lia. }
  apply amounts_skip; [by apply adds_below_nodup | |].
  - apply NoDup_fmap_2_strong.
    + intros [n r] [m s] (Hr & Hrr & _)%new_resolutions_elem (Hs & Hss & _)%new_resolutions_elem E.
      assert (n = m) as -> by by apply (co_once _ _ Hc n r m s).
      by rewrite (nodup_fst_inj _ _ _ _ (lo_nodes _ Hv) Hr Hs).
    + eapply NoDup_fmap_1. apply nodup_fst_filter, nodup_fst_filter, nodup_fst_filter, (lo_nodes _ Hv).
  - intros [n r] (Hin & Hr & Hge & Hlt)%new_resolutions_elem. simpl. split.
    + intros (m & s & Hs & Hss & Hsj & Es)%parents_below_elem.
      assert (n = m) as -> by by apply (co_once _ _ Hc n r m s).
      rewrite (nodup_fst_inj _ _ _ _ (lo_nodes _ Hv) Hin Hs) in Hge. lia.
    + destruct (Hp n r) as (m & a & Ha & Hadd & Hidx & Hlog); [done..|]. exists (m, a). split_and!; [|done|].
      * apply elem_of_bfilter. split; [done|]. simpl. apply Z.ltb_lt in Hlog. by rewrite Hlog.
      * destruct (co_parent _ _ Hc n r Hin Hr) as (m' & a' & Ha' & Hadd' & Hidx' & [Hamt _]).
        destruct (add_unique u m m' a a') as [_ ->]; try done. congruence.
Qed.
End Money.

(** ** Chains *)

Record chain_ok (s : commitment_chain) : Prop := {
  cn_heights i c : chain_list s !! i = Some c → cm_height c = cm_height (tail s) + Z.of_nat i;
  cn_range c : c ∈ chain_list s → 0 ≤ cm_height c ≤ max_state_hint;
  cn_sorted : StronglySorted (λ a b, ∀ p, idx a p ≤ idx b p) (chain_list s);
}.

Lemma chain_list_add c s : chain_list (add_commitment c s) = chain_list s ++ [c].
Proof. done. Qed.
Lemma tip_add c s : tip (add_commitment c s) = c.
Proof. unfold tip, add_commitment. simpl. apply last_last. Qed.
Lemma tail_elem s : tail s ∈ chain_list s.
Proof. by left. Qed.

Lemma chain_list_tip s : ∃ l, chain_list s = l ++ [tip s].
Proof.
  unfold chain_list, tip. destruct s as [t l]. simpl. destruct (exists_last (l := t :: l)) as (k & x & E); [done|].
  exists k. rewrite E. do 2 f_equal. destruct l as [|y l] using rev_ind.
  - by destruct k as [|? [|??]]; simplify_eq/=.
  - rewrite last_last. rewrite app_comm_cons in E. apply app_inj_tail in E. by destruct E.
Qed.
Lemma tip_elem s : tip s ∈ chain_list s.
Proof. destruct (chain_list_tip s) as [l ->]. apply elem_of_app. right. by left. Qed.

Lemma chain_idx s c p : chain_ok s → c ∈ chain_list s → idx (tail s) p ≤ idx c p ≤ idx (tip s) p.
Proof.
  intros H Hc. pose proof (cn_sorted s H) as Hs. split.
  - unfold chain_list in *. apply elem_of_cons in Hc as [->|Hc]; [done|].
    apply StronglySorted_inv in Hs as [_ Hs]. rewrite Forall_forall in Hs. by apply Hs.
  - destruct (chain_list_tip s) as [l E]. rewrite E in *.
    apply elem_of_app in Hc as [Hc| ->%list_elem_of_singleton]; [|done].
    clear E. induction l as [|x l IH]; [by apply elem_of_nil in Hc|]. simpl in Hs.
    apply StronglySorted_inv in Hs as [Hs Hx]. apply elem_of_cons in Hc as [->|Hc]; [|by auto].
    rewrite Forall_forall in Hx. apply Hx. apply elem_of_app. right. by left.
Qed.

Lemma chain_height_tip s c : chain_ok s → c ∈ chain_list s → cm_height c ≤ cm_height (tip s).
Proof.
  intros H Hc. destruct (chain_list_tip s) as [l E]. apply list_elem_of_lookup in Hc as [i Hi].
  assert (chain_list s !! length l = Some (tip s)) as Ht by (rewrite E; apply list_lookup_middle; done).
  rewrite (cn_heights s H _ _ Hi), (cn_heights s H _ _ Ht).
  apply lookup_lt_Some in Hi. rewrite E, length_app in Hi. simpl in Hi. lia.
Qed.

Lemma chain_ok_add c s :
  chain_ok s → cm_height c = cm_height (tip s) + 1 → cm_height c ≤ max_state_hint →
  (∀ p, idx (tip s) p ≤ idx c p) → chain_ok (add_commitment c s).
Proof.
  intros H Hh Hm Hi. split; rewrite ?chain_list_add.
  - intros i c' [Hl|[Hl Hc]]%lookup_app_Some; [by apply (cn_heights s H)|].
    assert (i = length (chain_list s)) as ->.
    { apply lookup_lt_Some in Hc. cbn [length] in Hc. lia. }
    rewrite Nat.sub_diag in Hc. injection Hc as <-. rewrite Hh.
    destruct (chain_list_tip s) as [l E].
    assert (chain_list s !! length l = Some (tip s)) as Ht by (rewrite E; apply list_lookup_middle; done).
    rewrite (cn_heights s H _ _ Ht), E, length_app. simpl. lia.
  - intros c' [Hc| ->%list_elem_of_singleton]%elem_of_app; [by apply (cn_range s H)|].
    pose proof (cn_range s H _ (tip_elem s)). lia.
  - assert (∀ a, a ∈ chain_list s → ∀ p, idx a p ≤ idx c p) as Ha.
    { intros a Hin p. pose proof (chain_idx s a p H Hin). specialize (Hi p). lia. }
    pose proof (cn_sorted s H) as Hs. induction (chain_list s) as [|x l IH]; simpl.
    + repeat constructor.
    + apply StronglySorted_inv in Hs as [Hs Hx]. constructor.
      * apply IH; [|done]. intros a Hin. apply Ha. by right.
      * apply Forall_app. split; [done|]. constructor; [|done]. apply Ha. by left.
Qed.

Lemma chain_ok_advance s s' : chain_ok s → advance_tail s = Some s' →
  chain_ok s' ∧ tip s' = tip s ∧ (∀ c, c ∈ chain_list s' → c ∈ chain_list s) ∧
  cm_height (tail s') = cm_height (tail s) + 1 ∧ ∀ p, idx (tail s) p ≤ idx (tail s') p.
Proof.
  intros H. unfold advance_tail. destruct s as [t [|c l]]; simpl; [done|]. intros [= <-].
  assert (cm_height c = cm_height t + 1) as Hc by apply (cn_heights _ H 1%nat c eq_refl).
  pose proof (cn_sorted _ H) as Hs. apply StronglySorted_inv in Hs as [Hs Ht]. split_and!.
  - split; simpl.
    + intros i c' Hi. unfold chain_list in *. simpl in *.
      rewrite (cn_heights _ H (S i) c' Hi). simpl. lia.
    + intros c' Hin. apply (cn_range _ H). by right.
    + done.
  - unfold tip. cbn [tail rest]. destruct l as [|x l _] using rev_ind; [done|].
    by rewrite app_comm_cons, !last_last.
  - intros c' Hin. by right.
  - done.
  - by inversion Ht.
Qed.

(** ** The invariant *)

(** All that a commitment shares out. *)
Definition shared (c : commitment) : Z :=
  cm_our_balance c + cm_their_balance c + 1000 * cm_fee c +
  zsum (keys (cm_outgoing c)).*2 + zsum (keys (cm_incoming c)).*2.

(** A fee rate and a dust limit of 32 bits and at most 2^20 HTLCs. *)
Definition modest (c : commitment) : Prop :=
  in_u32 (cm_fee_per_kw c) ∧ in_u32 (cm_dust_limit c) ∧
  Z.of_nat (length (cm_outgoing c)) + Z.of_nat (length (cm_incoming c)) ≤ 2 ^ 20.

Record funds (total_msat : Z) (c : commitment) : Prop := {
  fu_ours : 0 ≤ cm_our_balance c < 2 ^ 63;
  fu_theirs : 0 ≤ cm_their_balance c < 2 ^ 63;
  fu_fee : 0 ≤ cm_fee c ∧ 1000 * cm_fee c < 2 ^ 63;
  fu_sum : shared c ≡₆₄ total_msat;
  fu_exact : modest c → shared c = total_msat;
}.

Section Invariant.
Context {HP : HashPrims}.

(** [n] bounds the counters of the logs. *)
Record chan_ok (total_msat n : Z) (lc : channel) : Prop := {
  ck_logs : pair_ok (log_of lc Local) (log_of lc Remote);
  ck_stay p : adds_stay (log_of lc p);
  ck_amount p k pd : (k, pd) ∈ ul_list (log_of lc p) → is_add pd = true → in_u64 (pd_amount pd);
  ck_bound p : ul_log_index (log_of lc p) ≤ n ∧ ul_htlc_counter (log_of lc p) ≤ n;
  ck_chain w : chain_ok (chain_of lc w);
  ck_commit w p k pd : (k, pd) ∈ ul_list (log_of lc p) →
    is_uncommitted w pd = false ↔ pd_log_index pd < idx (tip (chain_of lc w)) p;
  ck_height w p k pd c : (k, pd) ∈ ul_list (log_of lc p) → is_resolution pd = true →
    c ∈ chain_list (chain_of lc w) → remove_height w pd ≠ 0 → remove_height w pd ≤ cm_height c →
    pd_log_index pd < idx c p;
  ck_order : idx (tip (chain_of lc Local)) Local ≤ idx (tail (chain_of lc Remote)) Local ∧
             idx (tip (chain_of lc Remote)) Remote ≤ idx (tail (chain_of lc Local)) Remote;
  ck_own w p : idx (tip (chain_of lc w)) p ≤ ul_log_index (log_of lc p);
  ck_live w c : c ∈ chain_list (chain_of lc w) → reflects (log_of lc Local) (log_of lc Remote) c;
  ck_funds w c : c ∈ chain_list (chain_of lc w) → funds total_msat c;
}.

Lemma pair_log_ok lc p : pair_ok (log_of lc Local) (log_of lc Remote) → log_ok (log_of lc p).
Proof. intros []. by destruct p. Qed.

Lemma chan_ok_state t n lc lc' : chan_ok t n lc → state_only lc lc' → chan_ok t n lc'.
Proof. intros H ->. destruct H. by split. Qed.

Lemma chan_ok_weaken t n m lc : chan_ok t n lc → n ≤ m → chan_ok t m lc.
Proof. intros H Hm. destruct H as [? ? ? Hb]. split; try done. intros p. specialize (Hb p). lia. Qed.

Definition same_heights (a b : payment_descriptor) : Prop :=
  pd_add_heights a = pd_add_heights b ∧ pd_remove_heights a = pd_remove_heights b.

Lemma same_heights_refl a : same_heights a a.
Proof. done. Qed.
#[local] Hint Resolve same_heights_refl : core.

(** The logs may lose entries, and change what neither content nor heights
    are, as long as the commitments still reflect them. *)
Lemma chan_ok_back t n lc lc' :
  chan_ok t n lc → lc_commit_chains lc' = lc_commit_chains lc →
  pair_ok (log_of lc' Local) (log_of lc' Remote) →
  (∀ p k pd', (k, pd') ∈ ul_list (log_of lc' p) →
     ∃ pd, (k, pd) ∈ ul_list (log_of lc p) ∧ same_content pd' pd ∧ same_heights pd' pd) →
  (∀ p, ul_log_index (log_of lc' p) = ul_log_index (log_of lc p) ∧
        ul_htlc_counter (log_of lc' p) = ul_htlc_counter (log_of lc p)) →
  (∀ w c, c ∈ chain_list (chain_of lc w) → reflects (log_of lc' Local) (log_of lc' Remote) c) →
  chan_ok t n lc'.
Proof.
  intros H Hch Hp Hb Hi Hr.
  assert (∀ w, chain_of lc' w = chain_of lc w) as Hc by (intros w; unfold chain_of; by rewrite Hch).
  assert (∀ w a b, same_content a b → same_heights a b → is_uncommitted w a = is_uncommitted w b) as Hu.
  { intros w a b [Ht _ _ _ _ _ _] [Ha Hrm]. unfold is_uncommitted, add_height, remove_height. by rewrite Ht, Ha, Hrm. }
  split; try done.
  - intros p k pd' (pd & Hin & Hs & Hh)%Hb. rewrite (same_content_is_add _ _ Hs), (proj2 Hh). by apply (ck_stay _ _ _ H p k).
  - intros p k pd' (pd & Hin & Hs & Hh)%Hb Ha. rewrite (same_content_is_add _ _ Hs) in Ha.
    rewrite (sc_amount _ _ Hs) by by apply add_not_fee. by apply (ck_amount _ _ _ H p k).
  - intros p. destruct (Hi p) as [-> ->]. apply (ck_bound _ _ _ H).
  - intros w. rewrite Hc. apply (ck_chain _ _ _ H).
  - intros w p k pd' (pd & Hin & Hs & Hh)%Hb. rewrite Hc, (Hu w _ _ Hs Hh), (sc_log _ _ Hs). by apply (ck_commit _ _ _ H w p k).
  - intros w p k pd' c (pd & Hin & Hs & Hh)%Hb. unfold remove_height.
    rewrite Hc, (same_content_is_resolution _ _ Hs), (sc_log _ _ Hs), (proj2 Hh). by apply (ck_height _ _ _ H w p k).
  - rewrite !Hc. apply (ck_order _ _ _ H).
  - intros w p. destruct (Hi p) as [-> _]. rewrite Hc. apply (ck_own _ _ _ H).
  - intros w c. rewrite Hc. apply Hr.
  - intros w c. rewrite Hc. apply (ck_funds _ _ _ H).
Qed.

(** *** Writes through pointers *)

Lemma log_of_set_same lc p u : log_of (set_log p u lc) p = u.
Proof. by destruct p. Qed.
Lemma log_of_set_other lc p u : log_of (set_log p u lc) (counter_party p) = log_of lc (counter_party p).
Proof. by destruct p. Qed.
Lemma party_cases p q : q = p ∨ q = counter_party p.
Proof. destruct p, q; auto. Qed.

Lemma pair_ok_party lc p :
  pair_ok (log_of lc Local) (log_of lc Remote) ↔ pair_ok (log_of lc p) (log_of lc (counter_party p)).
Proof. destruct p; simpl; [done|]. split; apply pair_ok_sym. Qed.

(** What a commitment lists of a party's HTLCs. *)
Definition htlcs_of (c : commitment) (p : channel_party) : list payment_descriptor :=
  match p with Local => cm_outgoing c | Remote => cm_incoming c end.

Lemma reflects_party lc c p :
  reflects (log_of lc Local) (log_of lc Remote) c ↔
  keys (htlcs_of c p) =
    keys (open_htlcs (log_of lc p) (log_of lc (counter_party p)) (idx c p) (idx c (counter_party p))).*2 ∧
  keys (htlcs_of c (counter_party p)) =
    keys (open_htlcs (log_of lc (counter_party p)) (log_of lc p) (idx c (counter_party p)) (idx c p)).*2.
Proof. destruct p; simpl; split; [by intros []|by intros []; split|by intros []|by intros []; split]. Qed.

Section Write.
Context (ns : list node) (f : payment_descriptor → payment_descriptor) (u v : update_log).
Hypothesis Hf : ∀ n pd, n ∈ ns → (n, pd) ∈ ul_list u → same_content (f pd) pd.

Lemma pair_ok_modify : pair_ok u v → pair_ok (modify_nodes ns f u) v.
Proof using Hf.
  intros [Hu Hv Hc Hc']. split.
  - by apply modify_nodes_ok.
  - done.
  - eapply cross_ok_grow; [exact Hc | | eauto | done]. intros n pd. by apply modify_back.
  - eapply cross_ok_grow; [exact Hc' | apply content_below_refl | | done].
    intros m a Hin _. by apply modify_forth.
Qed.

Lemma open_htlcs_modify_right i j : open_htlcs v (modify_nodes ns f u) i j = open_htlcs v u i j.
Proof using Hf. unfold open_htlcs. by rewrite parents_below_modify. Qed.
End Write.

Lemma chan_ok_write t n lc p ns f :
  (∀ k pd, k ∈ ns → (k, pd) ∈ ul_list (log_of lc p) → same_content (f pd) pd) →
  (∀ pd, same_heights (f pd) pd) →
  chan_ok t n lc → chan_ok t n (set_log p (modify_nodes ns f (log_of lc p)) lc).
Proof.
  intros Hf Hh H. pose proof (ck_logs _ _ _ H) as Hp.
  eapply chan_ok_back; [exact H | done | | | |].
  - apply (pair_ok_party _ p). rewrite log_of_set_same, log_of_set_other.
    apply pair_ok_modify; [done|]. by apply pair_ok_party.
  - intros q k pd' Hin. destruct (party_cases p q) as [-> | ->];
      [rewrite log_of_set_same in Hin | rewrite log_of_set_other in Hin; by eauto].
    apply modify_nodes_elem in Hin as (pd & Hin & ->). exists pd. split; [done|].
    case_bool_decide; eauto.
  - intros q. destruct (party_cases p q) as [-> | ->]; [by rewrite log_of_set_same | by rewrite log_of_set_other].
  - intros w c Hc. apply (ck_live _ _ _ H), (reflects_party _ _ p) in Hc as [Ho Hi].
    apply (reflects_party _ _ p). rewrite log_of_set_same, log_of_set_other.
    by rewrite open_htlcs_modify, open_htlcs_modify_right.
Qed.

Lemma mark_noops_ok t n ns lc : chan_ok t n lc → chan_ok t n (mark_noops ns lc).
Proof.
  intros H. change (mark_noops ns lc) with
    (let lc1 := set_log Local (modify_nodes (dual_local ns) (set_pd_noop_settle true) (log_of lc Local)) lc in
     set_log Remote (modify_nodes (dual_remote ns) (set_pd_noop_settle true) (log_of lc1 Remote)) lc1).
  cbv zeta. apply chan_ok_write; [by intros | by intros |]. apply chan_ok_write; [by intros | by intros | done].
Qed.

(** *** New entries *)

Lemma cross_ok_push u u' v k pd :
  cross_ok u v → ul_list u' = ul_list u ++ [(k, pd)] → is_resolution pd = false → cross_ok u' v.
Proof.
  intros H Hu Hr.
  assert (∀ n r, (n, r) ∈ ul_list u' → is_resolution r = true → (n, r) ∈ ul_list u) as Hin.
  { intros n r. rewrite Hu. intros [?|[= -> ->]%list_elem_of_singleton]%elem_of_app; [done | congruence]. }
  split.
  - intros n r ? ?. eapply co_parent; eauto.
  - intros n r ? ?. eapply co_modified; eauto.
  - intros n r n' r' ? ? ? ? ?. eapply co_once; eauto.
Qed.

Lemma cross_ok_resolve u u' v k pd m a :
  cross_ok u v → ul_list u' = ul_list u ++ [(k, pd)] →
  (m, a) ∈ ul_list v → is_add a = true → pd_htlc_index a = pd_parent_index pd → resolves pd a →
  pd_parent_index pd ∉ ul_modified_htlcs v →
  cross_ok u' (mark_htlc_modified (pd_parent_index pd) v).
Proof.
  intros H Hu Ha Hadd Hi Hres Hm.
  assert (∀ n r, (n, r) ∈ ul_list u' → (n, r) ∈ ul_list u ∨ n = k ∧ r = pd) as Hin.
  { intros n r. rewrite Hu. intros [?|[= -> ->]%list_elem_of_singleton]%elem_of_app; auto. }
  split.
  - intros n r [Hn|[-> ->]]%Hin Hr; [by apply (co_parent _ _ H n) | by exists m, a].
  - intros n r [Hn|[-> ->]]%Hin Hr; simpl; [|set_solver].
    apply elem_of_union_r. by apply (co_modified _ _ H n).
  - intros n r n' r' [Hn|[-> ->]]%Hin [Hn'|[-> ->]]%Hin Hr Hr' E; [by apply (co_once _ _ H n r n' r')| | |done].
    + exfalso. apply Hm. rewrite <-E. by apply (co_modified _ _ H n).
    + exfalso. apply Hm. rewrite E. by apply (co_modified _ _ H n').
Qed.

Lemma mark_modified_ok i v : log_ok v → log_ok (mark_htlc_modified i v).
Proof. intros []. by split. Qed.

(** A new entry of party [p]: no commitment has it. *)
Lemma chan_ok_push t n lc p u v pd :
  chan_ok t n lc →
  pair_ok u v →
  ul_list u = ul_list (log_of lc p) ++ [(ul_next_node (log_of lc p), pd)] →
  ul_list v = ul_list (log_of lc (counter_party p)) →
  ul_log_index u = ul_log_index (log_of lc p) + 1 → ul_htlc_counter u ≤ ul_htlc_counter (log_of lc p) + 1 →
  ul_log_index v = ul_log_index (log_of lc (counter_party p)) →
  ul_htlc_counter v = ul_htlc_counter (log_of lc (counter_party p)) →
  pd_log_index pd = ul_log_index (log_of lc p) →
  pd_add_heights pd = zero_heights → pd_remove_heights pd = zero_heights →
  (is_add pd = true → in_u64 (pd_amount pd)) →
  chan_ok t (n + 1) (set_log (counter_party p) v (set_log p u lc)).
Proof.
  intros H P Hu Hv Hui Huc Hvi Hvc Hl Hah Hrh Hamt. set (lc' := set_log _ _ _).
  assert (log_of lc' p = u) as Elp by by destruct p.
  assert (log_of lc' (counter_party p) = v) as Elq by by destruct p.
  assert (∀ w, chain_of lc' w = chain_of lc w) as Ec by by destruct p.
  assert (∀ q k r, (k, r) ∈ ul_list (log_of lc' q) →
    (k, r) ∈ ul_list (log_of lc q) ∨ q = p ∧ r = pd) as Hin.
  { intros q k r. destruct (party_cases p q) as [-> | ->]; [rewrite Elp, Hu | rewrite Elq, Hv; auto].
    intros [?|[= -> ->]%list_elem_of_singleton]%elem_of_app; auto. }
  assert (∀ w q, idx (tip (chain_of lc w)) q ≤ ul_log_index (log_of lc q)) as Hown by apply (ck_own _ _ _ H).
  split.
  - apply (pair_ok_party _ p). by rewrite Elp, Elq.
  - intros q k r [Hr|[-> ->]]%Hin Ha; [by apply (ck_stay _ _ _ H q k) | done].
  - intros q k r [Hr|[-> ->]]%Hin Ha; [by apply (ck_amount _ _ _ H q k) | by apply Hamt].
  - intros q. destruct (party_cases p q) as [-> | ->]; [rewrite Elp | rewrite Elq, Hvi, Hvc].
    + pose proof (ck_bound _ _ _ H p). lia.
    + pose proof (ck_bound _ _ _ H (counter_party p)). lia.
  - intros w. rewrite Ec. apply (ck_chain _ _ _ H).
  - intros w q k r Hr. rewrite Ec. apply Hin in Hr as [Hr|[-> ->]]; [by apply (ck_commit _ _ _ H w q k)|].
    rewrite Hl. unfold is_uncommitted, add_height, remove_height. rewrite Hah, Hrh. specialize (Hown w p).
    destruct (pd_entry_type pd), w; simpl; (split; [done | lia]).
  - intros w q k r c Hr Hres Hc Hnz. rewrite Ec in Hc.
    apply Hin in Hr as [Hr|[-> ->]]; [by apply (ck_height _ _ _ H w q k)|].
    unfold remove_height in Hnz. rewrite Hrh in Hnz. by destruct w.
  - rewrite !Ec. apply (ck_order _ _ _ H).
  - intros w q. rewrite Ec. destruct (party_cases p q) as [-> | ->]; [rewrite Elp, Hui | rewrite Elq, Hvi; apply Hown].
    specialize (Hown w p). lia.
  - intros w c Hc. rewrite Ec in Hc. apply (reflects_party _ _ p). rewrite Elp, Elq.
    pose proof (chain_idx _ c p (ck_chain _ _ _ H w) Hc) as Hi. specialize (Hown w p).
    apply (ck_live _ _ _ H), (reflects_party _ _ p) in Hc as [Ho Hi'].
    destruct (open_htlcs_push (idx c p) (idx c (counter_party p)) (log_of lc p) u (log_of lc (counter_party p)) v
                (ul_next_node (log_of lc p)) pd) as [-> ->]; [done | lia | done | done].
  - intros w c Hc. rewrite Ec in Hc. by apply (ck_funds _ _ _ H w).
Qed.

(** *** A new commitment *)

Definition fresh_nodes (w : channel_party) (b : Z) (u : update_log) : list node :=
  (List.filter (λ x : entry, is_uncommitted w x.2) (entries_below b u)).*1.

Lemma fresh_nodes_elem w b u k :
  k ∈ fresh_nodes w b u ↔
  ∃ pd, (k, pd) ∈ ul_list u ∧ pd_log_index pd < b ∧ is_uncommitted w pd = true.
Proof.
  unfold fresh_nodes, entries_below. rewrite list_elem_of_fmap. setoid_rewrite elem_of_bfilter.
  setoid_rewrite elem_of_bfilter. split.
  - intros ([k' pd] & -> & [[Hin Hi] Hu]). simpl in *. exists pd. by apply Z.ltb_lt in Hi.
  - intros (pd & Hin & Hi & Hu). exists (k, pd). simpl. by apply Z.ltb_lt in Hi.
Qed.

Lemma commit_height_content w h pd : same_content (set_commit_height w h pd) pd.
Proof. unfold set_commit_height. by destruct (pd_entry_type pd). Qed.

Lemma commit_height_committed w h pd : h ≠ 0 → is_uncommitted w (set_commit_height w h pd) = false.
Proof.
  intros Hh%Z.eqb_neq. unfold set_commit_height, is_uncommitted, add_height, remove_height.
  destruct (pd_entry_type pd) eqn:E; simpl; rewrite E; by destruct w.
Qed.

Lemma commit_height_other w w' h pd :
  w ≠ w' → is_uncommitted w' (set_commit_height w h pd) = is_uncommitted w' pd ∧
           remove_height w' (set_commit_height w h pd) = remove_height w' pd.
Proof.
  intros Hw. unfold set_commit_height, is_uncommitted, add_height, remove_height.
  destruct (pd_entry_type pd) eqn:E; simpl; rewrite E; by destruct w, w'.
Qed.

Lemma commit_height_resolution w h pd :
  is_resolution pd = true → remove_height w (set_commit_height w h pd) = h.
Proof.
  unfold is_resolution, set_commit_height, remove_height.
  destruct (pd_entry_type pd); try done; by destruct w.
Qed.

Lemma commit_height_add w h pd :
  is_add pd = true → pd_remove_heights (set_commit_height w h pd) = pd_remove_heights pd.
Proof. unfold is_add, set_commit_height. by destruct (pd_entry_type pd). Qed.

Lemma resolution_uncommitted w pd :
  is_resolution pd = true → is_uncommitted w pd = (remove_height w pd =? 0).
Proof. unfold is_resolution, is_uncommitted. by destruct (pd_entry_type pd). Qed.

Definition commit_logs (w : channel_party) (h : Z) (b : dual Z) (lc : channel) : channel :=
  let f p := modify_nodes (fresh_nodes w (get_for_party b p) (log_of lc p)) (set_commit_height w h) (log_of lc p) in
  set_update_logs (Dual (f Local) (f Remote)) lc.

Section Commit.
Context (t n : Z) (lc : channel) (w : channel_party) (c : commitment).
Hypothesis H : chan_ok t n lc.
Hypothesis Hb : ∀ p, idx (tip (chain_of lc w)) p ≤ idx c p ≤ ul_log_index (log_of lc p).
Hypothesis Ho : match w with
                | Local => idx c Local ≤ idx (tail (chain_of lc Remote)) Local
                | Remote => idx c Remote ≤ idx (tail (chain_of lc Local)) Remote
                end.
Hypothesis Hh : cm_height c = cm_height (tip (chain_of lc w)) + 1.
Hypothesis Hm : cm_height c ≤ max_state_hint.
Hypothesis Hr : reflects (log_of lc Local) (log_of lc Remote) c.
Hypothesis Hfunds : funds t c.

Let lc' := set_chain w (add_commitment c (chain_of lc w)) (commit_logs w (cm_height c) (cm_message_indices c) lc).

Lemma commit_log_of p :
  log_of lc' p = modify_nodes (fresh_nodes w (idx c p) (log_of lc p)) (set_commit_height w (cm_height c)) (log_of lc p).
Proof. by destruct w, p. Qed.

Lemma commit_chain_same : chain_of lc' w = add_commitment c (chain_of lc w).
Proof. unfold lc'. by destruct w. Qed.
Lemma commit_chain_other w' : w ≠ w' → chain_of lc' w' = chain_of lc w'.
Proof. unfold lc'. by destruct w, w'. Qed.

Lemma commit_chain_elem w' c' :
  c' ∈ chain_list (chain_of lc' w') → c' ∈ chain_list (chain_of lc w') ∨ w' = w ∧ c' = c.
Proof.
  destruct (decide (w = w')) as [<-|Hne].
  - rewrite commit_chain_same, chain_list_add. intros [?| ->%list_elem_of_singleton]%elem_of_app; auto.
  - rewrite commit_chain_other by done. auto.
Qed.

Lemma commit_height_pos : cm_height c ≠ 0.
Proof.
  pose proof (cn_range _ (ck_chain _ _ _ H w) _ (tip_elem _)). lia.
Qed.

(** Where an entry comes from, and whether it was committed now. *)
Lemma commit_back p k pd' :
  (k, pd') ∈ ul_list (log_of lc' p) →
  ∃ pd, (k, pd) ∈ ul_list (log_of lc p) ∧ same_content pd' pd ∧
    (pd' = pd ∧ ¬ (pd_log_index pd < idx c p ∧ is_uncommitted w pd = true) ∨
     pd' = set_commit_height w (cm_height c) pd ∧ pd_log_index pd < idx c p ∧ is_uncommitted w pd = true).
Proof.
  rewrite commit_log_of. intros (pd & Hin & ->)%modify_nodes_elem. exists pd. split; [done|].
  case_bool_decide as Hk.
  - apply fresh_nodes_elem in Hk as (pd1 & Hin1 & Hlt & Hu).
    rewrite (nodup_fst_inj _ _ _ _ (lo_nodes _ (pair_log_ok lc p (ck_logs _ _ _ H))) Hin1 Hin) in *.
    split; [apply commit_height_content | by right].
  - split; [done|]. left. split; [done|]. intros [Hlt Hu]. apply Hk, fresh_nodes_elem. by exists pd.
Qed.

Lemma commit_pair_ok : pair_ok (log_of lc' Local) (log_of lc' Remote).
Proof.
  rewrite !commit_log_of.
  apply pair_ok_modify; [intros; apply commit_height_content|]. apply pair_ok_sym.
  apply pair_ok_modify; [intros; apply commit_height_content|]. apply pair_ok_sym, (ck_logs _ _ _ H).
Qed.

Lemma commit_reflects c' :
  reflects (log_of lc Local) (log_of lc Remote) c' → reflects (log_of lc' Local) (log_of lc' Remote) c'.
Proof.
  intros [Hl Hri]. rewrite !commit_log_of. split.
  - rewrite Hl, open_htlcs_modify_right by (intros; apply commit_height_content).
    by rewrite open_htlcs_modify by (intros; apply commit_height_content).
  - rewrite Hri, open_htlcs_modify_right by (intros; apply commit_height_content).
    by rewrite open_htlcs_modify by (intros; apply commit_height_content).
Qed.

Lemma chan_ok_commit : chan_ok t n lc'.
Proof.
  pose proof commit_height_pos as Hpos. split.
  - apply commit_pair_ok.
  - intros p k pd' Hin Ha. destruct (commit_back p k pd' Hin) as (pd & Hin0 & Hs & [[-> _]|[-> _]]).
    + by apply (ck_stay _ _ _ H p k).
    + rewrite (same_content_is_add _ _ Hs) in Ha. rewrite commit_height_add by done.
      by apply (ck_stay _ _ _ H p k).
  - intros p k pd' Hin Ha. destruct (commit_back p k pd' Hin) as (pd & Hin0 & Hs & _).
    rewrite (same_content_is_add _ _ Hs) in Ha. rewrite (sc_amount _ _ Hs) by by apply add_not_fee.
    by apply (ck_amount _ _ _ H p k).
  - intros p. rewrite commit_log_of. apply (ck_bound _ _ _ H).
  - intros w'. destruct (decide (w = w')) as [<-|Hne].
    + rewrite commit_chain_same. apply chain_ok_add; [apply (ck_chain _ _ _ H) | done | done | apply Hb].
    + rewrite commit_chain_other by done. apply (ck_chain _ _ _ H).
  - intros w' p k pd' Hin. destruct (commit_back p k pd' Hin) as (pd & Hin0 & Hs & Hc).
    pose proof (ck_commit _ _ _ H w' p k pd Hin0) as Hold. rewrite (sc_log _ _ Hs).
    destruct (decide (w = w')) as [<-|Hne].
    + rewrite commit_chain_same, tip_add. specialize (Hb p).
      destruct Hc as [[-> Hn]|(-> & Hlt & Hu)].
      * rewrite Hold. split; [lia|]. intros Hlt. apply Hold.
        destruct (is_uncommitted w pd) eqn:E; [|done]. by destruct Hn.
      * by rewrite commit_height_committed.
    + rewrite commit_chain_other by done. destruct Hc as [[-> _]|(-> & _)]; [done|].
      by rewrite (proj1 (commit_height_other w w' _ pd Hne)).
  - intros w' p k pd' c' Hin Hres Hc' Hnz Hle.
    destruct (commit_back p k pd' Hin) as (pd & Hin0 & Hs & Hc).
    rewrite (same_content_is_resolution _ _ Hs) in Hres. rewrite (sc_log _ _ Hs).
    destruct (decide (w = w')) as [<-|Hne].
    + apply commit_chain_elem in Hc' as [Hc'|[_ ->]].
      * destruct Hc as [[-> _]|(-> & _)]; [by apply (ck_height _ _ _ H w p k)|].
        rewrite commit_height_resolution in Hle by done.
        pose proof (chain_height_tip _ _ (ck_chain _ _ _ H w) Hc'). lia.
      * destruct Hc as [[-> Hn]|(_ & Hlt & _)]; [|done]. specialize (Hb p).
        enough (pd_log_index pd < idx (tip (chain_of lc w)) p) by lia.
        apply (ck_commit _ _ _ H w p k pd Hin0). rewrite resolution_uncommitted by done. by apply Z.eqb_neq.
    + rewrite commit_chain_other in Hc' by done.
      destruct Hc as [[-> _]|(-> & _)]; [by apply (ck_height _ _ _ H w' p k)|].
      rewrite (proj2 (commit_height_other w w' _ pd Hne)) in Hnz, Hle. by apply (ck_height _ _ _ H w' p k).
  - destruct (ck_order _ _ _ H) as [H1 H2]. pose proof commit_chain_same as Es.
    pose proof (commit_chain_other (counter_party w)) as Eo. pose proof Ho as Ho'.
    destruct (party_cases Local w) as [Ew|Ew]; rewrite Ew in Es, Eo, Ho'; simpl in Eo, Es, Ho';
      rewrite Es, Eo by done; by rewrite tip_add.
  - intros w' p. rewrite commit_log_of. destruct (decide (w = w')) as [<-|Hne].
    + rewrite commit_chain_same, tip_add. apply (Hb p).
    + rewrite commit_chain_other by done. apply (ck_own _ _ _ H).
  - intros w' c' Hc'. apply commit_reflects.
    apply commit_chain_elem in Hc' as [Hc'|[_ ->]]; [by apply (ck_live _ _ _ H w') | done].
  - intros w' c' Hc'. apply commit_chain_elem in Hc' as [Hc'|[_ ->]]; [by apply (ck_funds _ _ _ H w') | done].
Qed.
End Commit.

(** *** The tail of a chain goes *)

Lemma chan_ok_advance t n lc w s :
  chan_ok t n lc → advance_tail (chain_of lc w) = Some s → chan_ok t n (set_chain w s lc).
Proof.
  intros H Hs. destruct (chain_ok_advance _ _ (ck_chain _ _ _ H w) Hs) as (Hok & Htip & Hsub & Hht & Hidx).
  set (lc' := set_chain w s lc).
  assert (chain_of lc' w = s) as Ew by by destruct w.
  assert (chain_of lc' (counter_party w) = chain_of lc (counter_party w)) as Eq by by destruct w.
  assert (∀ p, log_of lc' p = log_of lc p) as El by by destruct w.
  assert (∀ w', tip (chain_of lc' w') = tip (chain_of lc w')) as Etip.
  { intros w'. destruct (party_cases w w') as [-> | ->]; congruence. }
  assert (∀ w' c, c ∈ chain_list (chain_of lc' w') → c ∈ chain_list (chain_of lc w')) as Hc.
  { intros w' c. destruct (party_cases w w') as [-> | ->]; [rewrite Ew; apply Hsub | by rewrite Eq]. }
  assert (∀ w' p, idx (tail (chain_of lc w')) p ≤ idx (tail (chain_of lc' w')) p) as Htl.
  { intros w' p. destruct (party_cases w w') as [-> | ->]; [rewrite Ew; apply Hidx | by rewrite Eq]. }
  split.
  - apply (ck_logs _ _ _ H).
  - apply (ck_stay _ _ _ H).
  - apply (ck_amount _ _ _ H).
  - apply (ck_bound _ _ _ H).
  - intros w'. destruct (party_cases w w') as [-> | ->]; [by rewrite Ew | rewrite Eq; apply (ck_chain _ _ _ H)].
  - intros w' p. rewrite Etip. apply (ck_commit _ _ _ H).
  - intros w' p k pd c Hin Hr Hin'%Hc. by apply (ck_height _ _ _ H w' p k).
  - rewrite !Etip. destruct (ck_order _ _ _ H) as [H1 H2].
    pose proof (Htl Remote Local). pose proof (Htl Local Remote). lia.
  - intros w' p. rewrite Etip. apply (ck_own _ _ _ H).
  - intros w' c Hin%Hc. by apply (ck_live _ _ _ H w').
  - intros w' c Hin%Hc. by apply (ck_funds _ _ _ H w').
Qed.

(** *** Compaction *)

Lemma either_steps_counters lt rt p q :
  rtc (either_step lt rt) p q →
  ul_log_index q.1 = ul_log_index p.1 ∧ ul_log_index q.2 = ul_log_index p.2 ∧
  ul_htlc_counter q.1 = ul_htlc_counter p.1 ∧ ul_htlc_counter q.2 = ul_htlc_counter p.2.
Proof.
  assert (∀ u v u' v', compact_step lt rt (u, v) (u', v') →
    ul_log_index u' = ul_log_index u ∧ ul_log_index v' = ul_log_index v ∧
    ul_htlc_counter u' = ul_htlc_counter u ∧ ul_htlc_counter v' = ul_htlc_counter v) as Hs.
  { intros u v u' v' Hst. inversion Hst as [? ? ? ? ? ? ? ? ? []|? ? ? ? ? ? ? ? ? ? ? ? ? ? ? [] ? ? []]; by subst. }
  induction 1 as [|[u v] [u1 v1] q [Hst|Hst] _ IH]; [done| |];
    apply Hs in Hst; simpl in *; destruct Hst as (? & ? & ? & ?), IH as (? & ? & ? & ?);
    split_and!; congruence.
Qed.

Lemma chan_ok_compact t n lc :
  chan_ok t n lc →
  ∃ u v, compact_logs (log_of lc Local) (log_of lc Remote)
           (cm_height (tail (chain_of lc Local))) (cm_height (tail (chain_of lc Remote))) = Ok (u, v) ∧
    chan_ok t n (set_update_logs (Dual u v) lc).
Proof.
  intros H. set (lt := cm_height (tail (chain_of lc Local))). set (rt := cm_height (tail (chain_of lc Remote))).
  destruct (compact_logs_steps lt rt (log_of lc Local) (log_of lc Remote)) as (u & v & Hok & Hst);
    [apply (ck_logs _ _ _ H) | apply (ck_stay _ _ _ H Local) | apply (ck_stay _ _ _ H Remote) |].
  exists u, v. split; [done|].
  pose proof (either_steps_counters _ _ _ _ Hst) as (Hc1 & Hc2 & Hc3 & Hc4). simpl in *.
  eapply chan_ok_back; [exact H | done | | | |].
  - apply (either_steps_ok _ _ _ _ Hst), (ck_logs _ _ _ H).
  - intros p k pd Hin. exists pd. split_and!; [|done|done].
    apply (either_step_sub _ _ _ _ (k, pd)) in Hst as [H1 H2]. destruct p; [by apply H1 | by apply H2].
  - intros []; [exact (conj Hc1 Hc3) | exact (conj Hc2 Hc4)].
  - intros w c Hin. pose proof (ck_live _ _ _ H w c Hin) as [Hl Hr].
    assert (∀ p k r, (k, r) ∈ ul_list (log_of lc p) → is_resolution r = true → locked lt rt r →
      pd_log_index r < idx c p) as Hlocked.
    { intros p k r Hk Hres (Hz1 & Hz2 & Hle1 & Hle2).
      assert (cm_height (tail (chain_of lc w)) ≤ cm_height c) as Hcw.
      { apply list_elem_of_lookup in Hin as [i Hi]. rewrite (cn_heights _ (ck_chain _ _ _ H w) _ _ Hi). lia. }
      apply (ck_height _ _ _ H w p k r c); try done; destruct w; simpl in *; unfold remove_height; simpl; lia. }
    destruct (either_steps_open lt rt (log_of lc Local, log_of lc Remote) (u, v) (idx c Local) (idx c Remote) (ck_logs _ _ _ H) Hst
                (Hlocked Local) (Hlocked Remote)) as [E1 E2]. cbn [fst snd] in E1, E2.
    split; [by rewrite Hl, <-E1 | by rewrite Hr, <-E2].
Qed.
End Invariant.
