(* ===== verification/ChannelCommit.v ===== *)
(** * New commitments

    What [validate_commitment_sanity] and [fetch_commitment_view] return, and
    that the commitment they make together extends its chain: it reflects the
    logs and shares the channel's funds. *)

From S2P Require Import Prelude Chainfee Shachain UpdateLog Channel ChannelLog ChannelView ChannelInv.

(** ** Rules for methods *)

Lemma bind_Ok {A B} (m : M A) (k : A → M B) lc lc' b :
  (m ≫= k) lc = (lc', Ok b) → ∃ lc1 a, m lc = (lc1, Ok a) ∧ k a lc1 = (lc', Ok b).
Proof. unfold mbind, M_bind. destruct (m lc) as [lc1 [a|e]]; [eauto | done]. Qed.

Lemma check_Ok b e lc lc' u : check b e lc = (lc', Ok u) → b = true ∧ lc' = lc.
Proof. destruct b; unfold check, fail; [|done]. by intros [= <- _]. Qed.
Lemma lift_Ok {A} (r : result channel_error A) lc lc' a : lift r lc = (lc', Ok a) → r = Ok a ∧ lc' = lc.
Proof. unfold lift. by intros [= <- ->]. Qed.
Lemma get_Ok lc lc' a : get lc = (lc', Ok a) → a = lc ∧ lc' = lc.
Proof. unfold get. by intros [= <- <-]. Qed.
Lemma modify_Ok f lc lc' u : modify f lc = (lc', Ok u) → lc' = f lc.
Proof. unfold modify. by intros [= <-]. Qed.
Lemma ret_Ok {A} (a b : A) lc lc' : (mret a : M A) lc = (lc', Ok b) → b = a ∧ lc' = lc.
Proof. unfold mret, M_ret. by intros [= <- <-]. Qed.

(** A triple: what a method makes of a state with [P], on success and on an
    error. *)
Definition triple {A} (P : channel → Prop) (m : M A) (Q : A → channel → Prop)
    (R : channel_error → channel → Prop) : Prop :=
  ∀ lc, P lc → match m lc with (lc', Ok a) => Q a lc' | (lc', Err e) => R e lc' end.

Section Triples.
Context {A B : Type} (P : channel → Prop) (R : channel_error → channel → Prop).

Lemma triple_bind (m : M A) (k : A → M B) Q S :
  triple P m Q R → (∀ a, triple (Q a) (k a) S R) → triple P (m ≫= k) S R.
Proof.
  intros Hm Hk lc HP. specialize (Hm lc HP). unfold mbind, M_bind.
  destruct (m lc) as [lc1 [a|e]]; [by apply Hk | done].
Qed.
Lemma triple_ret (a : A) (Q : A → channel → Prop) : (∀ lc, P lc → Q a lc) → triple P (mret a) Q R.
Proof. intros H lc HP. by apply H. Qed.
Lemma triple_fail e (Q : A → channel → Prop) : (∀ lc, P lc → R e lc) → triple P (fail e) Q R.
Proof. intros H lc HP. by apply H. Qed.
Lemma triple_lift (r : result channel_error A) :
  (∀ e lc, P lc → R e lc) → triple P (lift r) (λ a lc, r = Ok a ∧ P lc) R.
Proof. intros H lc HP. unfold lift. destruct r; [done | by apply H]. Qed.
End Triples.

Lemma triple_weaken {A} (P P' : channel → Prop) (m : M A) Q Q' R R' :
  triple P m Q R → (∀ lc, P' lc → P lc) → (∀ a lc, Q a lc → Q' a lc) → (∀ e lc, R e lc → R' e lc) →
  triple P' m Q' R'.
Proof.
  intros H HP HQ HR lc Hlc. specialize (H lc (HP lc Hlc)). destruct (m lc) as [lc' [a|e]]; auto.
Qed.

Lemma triple_get (P : channel → Prop) R : triple P get (λ a lc, a = lc ∧ P lc) R.
Proof. by intros lc HP. Qed.
Lemma triple_check (P : channel → Prop) b e R :
  (∀ lc, P lc → R e lc) → triple P (check b e) (λ _ lc, b = true ∧ P lc) R.
Proof. intros H lc HP. destruct b; [done | by apply H]. Qed.
Lemma triple_modify (P : channel → Prop) f (Q : channel → Prop) R :
  (∀ lc, P lc → Q (f lc)) → triple P (modify f) (λ _, Q) R.
Proof. intros H lc HP. by apply H. Qed.

(** Methods that change no more than flags. *)
Definition only_looks {A} (m : M A) : Prop :=
  ∀ lc, ∃ noops r, m lc = (foldr mark_noops lc noops, r).

Lemma looks_bind {A B} (m : M A) (k : A → M B) :
  only_looks m → (∀ a, only_looks (k a)) → only_looks (m ≫= k).
Proof.
  intros Hm Hk lc. destruct (Hm lc) as (ns & [a|e] & E); unfold mbind, M_bind; rewrite E; [|by eexists _, _].
  destruct (Hk a (foldr mark_noops lc ns)) as (ns' & r & ->). exists (ns' ++ ns), r. by rewrite foldr_app.
Qed.
Lemma looks_ret {A} (a : A) : only_looks (mret a).
Proof. intros lc. by exists [], (Ok a). Qed.
Lemma looks_get : only_looks get.
Proof. intros lc. by exists [], (Ok lc). Qed.
Lemma looks_lift {A} (r : result channel_error A) : only_looks (lift r).
Proof. intros lc. by exists [], r. Qed.
Lemma looks_check b e : only_looks (check b e).
Proof. intros lc. exists []. destruct b; by eexists. Qed.
Lemma looks_compute v w dry : only_looks (compute_view v w false dry).
Proof.
  intros lc. unfold compute_view, evaluate_htlc_view.
  unfold mbind, M_bind, get, modify, lift, check, fail. cbv beta iota zeta.
  destruct (resolve_view lc w _) as [acc [[]|e]]; cbn [rbind]; exists [ea_noops acc]; [|by eexists].
  repeat match goal with |- context [if 0 <=? ?z then _ else _] => destruct (0 <=? z) end; by eexists.
Qed.

Create HintDb looks.
#[export] Hint Resolve looks_ret looks_get looks_lift looks_check looks_compute : looks.

Lemma looks_validate t o w b our their : only_looks (validate_commitment_sanity t o w b our their).
Proof.
  unfold validate_commitment_sanity.
  repeat first [solve [auto with looks] | apply looks_bind; [|intros ?] | progress case_match].
Qed.
#[export] Hint Resolve looks_validate : looks.

(** What btcd's check of a transaction promises: no output is negative, and
    together they are no more than all bitcoin. *)
Definition max_satoshi : Z := 2100000000000000.
Class ChannelLaws {CP : ChannelPrims} := {
  sanity_outputs txn : check_transaction_sanity txn = true →
    Forall (λ o, 0 ≤ tx_value o) txn ∧ zsum (map tx_value txn) ≤ max_satoshi;
}.

Section Steps.
Context {HP : HashPrims} {CP : ChannelPrims} {CL : ChannelLaws}.

Lemma looks_keeps {A} (m : M A) t n lc lc' r :
  only_looks m → m lc = (lc', r) → same_core lc' lc ∧ (chan_ok t n lc → chan_ok t n lc').
Proof.
  intros Hm E. destruct (Hm lc) as (ns & r' & E'). rewrite E in E'. injection E' as -> _.
  clear E. induction ns as [|x ns IH]; simpl; [done|]. destruct IH as [IH1 IH2]. split.
  - etrans; [apply mark_noops_core | done].
  - intros H. by apply mark_noops_ok, IH2.
Qed.

(** ** What the checks of a view establish *)

(** The balance that pays the fee. *)
Definition payer_balance (p : channel_params) (cv : computed_view) : Z :=
  if pr_is_initiator p then cv_our_balance cv else cv_their_balance cv.
Definition view_fee (cv : computed_view) : Z :=
  fee_for_weight (hv_fee_per_kw (cv_view cv)) (cv_commit_weight cv).

Lemma validate_Ok t o w lc lc' :
  validate_commitment_sanity t o w NoBuffer None None lc = (lc', Ok ()) →
  ∃ acc, resolve_view lc w (fetch_htlc_view t o lc) = (acc, Ok ()) ∧
    let cv := view_result lc w acc (fetch_htlc_view t o lc) in
    0 ≤ i64 (cv_our_balance cv) ∧ 0 ≤ i64 (cv_their_balance cv) ∧
    msat_of_sat (view_fee cv) < payer_balance (lc_params lc) cv.
Proof.
  unfold validate_commitment_sanity. intros H.
  apply bind_Ok in H as (lc1 & a & E & H). apply get_Ok in E as [-> ->].
  apply bind_Ok in H as (lc1 & cv & E & H).
  change (predict_adds None None lc (fetch_htlc_view t o lc)) with (fetch_htlc_view t o lc) in E.
  apply compute_view_false in E as (acc & ok & Hres & _ & Hcv).
  destruct (Hcv cv eq_refl) as (-> & -> & Ho & Ht). exists acc. split; [done|]. split; [done|]. split; [done|].
  apply bind_Ok in H as (lc2 & ? & E & H). apply bind_Ok in H as (lc3 & [ob tb] & E' & _). clear -E'.
  unfold payer_balance, view_fee. destruct (pr_is_initiator (lc_params lc));
    apply bind_Ok in E' as (lc4 & [[b x] y] & E' & _); apply lift_Ok in E' as [E' _];
    unfold apply_commit_fee in E'; destruct (_ <? _) eqn:Hlt; try done; by apply Z.ltb_lt in Hlt.
Qed.

(** ** Commitments *)

Lemma u64_i64 x : u64 (i64 x) = u64 x.
Proof. apply i64_eq64. Qed.

Lemma fee_for_weight_range s wu : - 2 ^ 63 ≤ 1000 * fee_for_weight s wu ≤ 2 ^ 63.
Proof.
  unfold fee_for_weight. pose proof (i64_range (s * i64 wu)) as Hr. unfold in_i64 in Hr.
  destruct (Z.le_ge_cases 0 (i64 (s * i64 wu))) as [Hs|Hs].
  - pose proof (Z.mul_quot_le _ 1000 Hs). lia.
  - pose proof (Z.mul_quot_ge _ 1000 Hs). lia.
Qed.

(** A fee below a balance is not negative, and is paid in full. *)
Lemma fee_paid fee balance :
  - 2 ^ 63 ≤ 1000 * fee ≤ 2 ^ 63 → 0 ≤ balance < 2 ^ 63 → msat_of_sat fee < balance →
  0 ≤ fee ∧ 1000 * fee < balance ∧ (to_satoshis balance <? fee) = false ∧
  u64 (balance - msat_of_sat fee) = balance - 1000 * fee.
Proof.
  intros Hf Hb Hlt.
  assert (0 ≤ fee) as Hpos.
  { destruct (decide (0 ≤ fee)) as [|Hneg]; [done|]. exfalso.
    assert (msat_of_sat fee = 2 ^ 64 + 1000 * fee); [|lia].
    apply eq64_small; [apply u64_range | in_range |]. rewrite msat_of_sat_eq64.
    symmetry. transitivity (0 + 1000 * fee); [|eq64_lia]. by apply eq64_add. }
  assert (msat_of_sat fee = 1000 * fee) as E.
  { apply eq64_small; [apply u64_range | in_range | apply msat_of_sat_eq64]. }
  rewrite E in *. split_and!; [done | done | |].
  - apply Z.ltb_ge. unfold to_satoshis. apply Z.div_le_lower_bound; lia.
  - apply u64_small. in_range.
Qed.

Lemma u64_balance b : in_u64 b → 0 ≤ i64 b → 0 ≤ b < 2 ^ 63.
Proof.
  unfold in_u64, i64. intros Hb Hi. destruct (decide (b < 2 ^ 63)) as [|Hge]; [lia|]. exfalso.
  assert ((b + 2 ^ 63) mod 2 ^ 64 = b - 2 ^ 63) as E; [|lia].
  symmetry. apply (Z.mod_unique _ _ 1); lia.
Qed.

Lemma apply_delta_range b d : in_u64 (apply_delta b d).
Proof. unfold apply_delta. case_match; apply u64_range. Qed.

(** The fee and the outputs of a commitment with the given view. *)
Definition view_commit_fee (p : channel_params) (w : channel_party) (rate : Z) (v : htlc_view) : Z :=
  fee_for_weight rate (u64 (commit_weight (pr_chan_type p) + u64 (htlc_weight * num_htlcs p w rate v))).

Definition view_outputs (p : channel_params) (w : channel_party) (rate : Z) (v : htlc_view) (ours theirs : Z) :
    list tx_out :=
  let '(a, b) := match w with Local => (ours, theirs) | Remote => (theirs, ours) end in
  create_commit_tx (pr_chan_type p) (cfg_dust_limit (cfg_for p w)) (to_satoshis a) (to_satoshis b)
    (num_htlcs p w rate v) ++
  map (htlc_out false) (outputs_of p w false rate (dual_local (hv_updates v))) ++
  map (htlc_out true) (outputs_of p w true rate (dual_remote (hv_updates v))).

(** The amounts of a new commitment's transaction, when the fee is paid. *)
Lemma create_unsigned_Ok p ours theirs w rate h v tx :
  create_unsigned_commitment_tx p ours theirs w rate h v = Ok tx →
  0 ≤ ours < 2 ^ 63 → 0 ≤ theirs < 2 ^ 63 →
  let fee := view_commit_fee p w rate v in
  msat_of_sat fee < (if pr_is_initiator p then ours else theirs) →
  uc_fee tx = fee ∧ 0 ≤ fee ∧ 1000 * fee < 2 ^ 63 ∧ h ≤ max_state_hint ∧
  0 ≤ uc_our_balance tx < 2 ^ 63 ∧ 0 ≤ uc_their_balance tx < 2 ^ 63 ∧
  uc_our_balance tx = (if pr_is_initiator p then ours - 1000 * fee else ours) ∧
  uc_their_balance tx = (if pr_is_initiator p then theirs else theirs - 1000 * fee) ∧
  uc_txn tx = view_outputs p w rate v (uc_our_balance tx) (uc_their_balance tx) ∧
  check_transaction_sanity (uc_txn tx) = true ∧ i64 (total_out (uc_txn tx) + fee) ≤ pr_capacity p.
Proof.
  unfold create_unsigned_commitment_tx. rewrite u64_i64. cbv zeta. fold (view_commit_fee p w rate v).
  intros E Ho Ht Hf.
  assert (0 ≤ (if pr_is_initiator p then ours else theirs) < 2 ^ 63) as Hb by by case_match.
  assert (- 2 ^ 63 ≤ 1000 * view_commit_fee p w rate v ≤ 2 ^ 63) as Hfr by apply fee_for_weight_range.
  set (fee := view_commit_fee p w rate v) in *.
  destruct (fee_paid _ _ Hfr Hb Hf) as (H1 & H2 & H3 & H4).
  destruct (h <=? max_state_hint) eqn:Eh; [|done].
  destruct (check_transaction_sanity _) eqn:Es; [|done].
  destruct (i64 _ <=? _) eqn:Ec; [|done]. apply Z.leb_le in Eh, Ec.
  injection E as <-. cbn [uc_txn uc_fee uc_our_balance uc_their_balance].
  split_and!; try done; try lia; [..|by destruct w]; destruct (pr_is_initiator p); rewrite ?H3, ?H4; lia.
Qed.

(** *** What the outputs leave out *)

Definition out_sum (txn : list tx_out) : Z := zsum (map tx_value txn).

Lemma out_sum_app l k : out_sum (l ++ k) = out_sum l + out_sum k.
Proof. unfold out_sum. by rewrite map_app, zsum_app. Qed.

Lemma create_commit_tx_covers ct dust a b num :
  0 ≤ dust → 0 ≤ a → 0 ≤ b → a + b ≤ out_sum (create_commit_tx ct dust a b num) + 2 * dust.
Proof.
  intros Hd Ha Hb. unfold create_commit_tx, out_sum. rewrite !map_app, !zsum_app.
  assert (∀ x o, tx_value o = x → x ≤ zsum (map tx_value (if dust <=? x then [o] else [])) + dust) as Hx.
  { intros x o Ho. destruct (dust <=? x) eqn:E; simpl; [apply Z.leb_le in E | apply Z.leb_gt in E]; lia. }
  pose proof (Hx a (ToLocal a) eq_refl). pose proof (Hx b (ToRemote b) eq_refl).
  assert (∀ (q : bool) o, 0 ≤ tx_value o → 0 ≤ zsum (map tx_value (if q then [o] else []))) as Hq.
  { intros [] o Ho; simpl; lia. }
  destruct (has_anchors ct); rewrite ?map_app, ?zsum_app; simpl; [|lia].
  pose proof (Hq ((dust <=? a) || (0 <? num)) (LocalAnchor anchor_size)).
  pose proof (Hq ((dust <=? b) || (0 <? num)) (RemoteAnchor anchor_size)).
  unfold anchor_size in *. simpl in *. lia.
Qed.

Lemma fee_for_weight_small rate wu :
  in_u32 rate → 0 ≤ wu ≤ 2 ^ 28 → 0 ≤ 1000 * fee_for_weight rate wu ≤ rate * wu.
Proof.
  intros Hr Hw. unfold fee_for_weight. unfold in_u32 in Hr.
  assert (0 ≤ rate * wu ≤ 2 ^ 60) as Hm.
  { split; [nia|]. change (2 ^ 60) with (2 ^ 32 * 2 ^ 28). apply Z.mul_le_mono_nonneg; lia. }
  rewrite (i64_small wu), i64_small by in_range.
  assert (0 ≤ rate * wu) as Hp by lia. pose proof (Z.mul_quot_le (rate * wu) 1000 Hp). lia.
Qed.

Lemma htlc_fee_small ct rate :
  in_u32 rate → 0 ≤ htlc_timeout_fee ct rate < 2 ^ 32 ∧ 0 ≤ htlc_success_fee ct rate < 2 ^ 32.
Proof.
  intros Hr. unfold htlc_timeout_fee, htlc_success_fee.
  assert (∀ wu, 0 ≤ wu ≤ 1000 → 0 ≤ fee_for_weight rate wu < 2 ^ 32) as Hf.
  { intros wu Hw. pose proof (fee_for_weight_small rate wu Hr). unfold in_u32 in Hr. nia. }
  by repeat case_match; split; try (by split); apply Hf.
Qed.

(** The HTLCs without an output are small. *)
Lemma dust_small p w incoming rate pd :
  in_u32 rate → in_u32 (cfg_dust_limit (cfg_for p w)) → in_u64 (pd_amount pd) →
  not_dust p w incoming rate pd = false → pd_amount pd ≤ 1000 * 2 ^ 33.
Proof.
  intros Hr Hd Ha. unfold not_dust. rewrite negb_false_iff. unfold htlc_is_dust.
  set (fee := match incoming with true => _ | false => _ end). intros Hlt%Z.ltb_lt.
  assert (0 ≤ fee < 2 ^ 32) as Hfee.
  { destruct (htlc_fee_small (pr_chan_type p) rate Hr). by destruct incoming, w. }
  unfold to_satoshis, in_u32, in_u64 in *.
  assert (0 ≤ pd_amount pd / 1000 < 2 ^ 55) as Hq.
  { split; [apply Z.div_pos; lia | apply Z.div_lt_upper_bound; lia]. }
  rewrite i64_small in Hlt by in_range.
  pose proof (Z.div_mod (pd_amount pd) 1000). pose proof (Z.mod_pos_bound (pd_amount pd) 1000). lia.
Qed.

Lemma htlc_outs_cover p w incoming rate (l : list entry) :
  in_u32 rate → in_u32 (cfg_dust_limit (cfg_for p w)) → Forall (λ x, in_u64 (pd_amount x.2)) l →
  0 ≤ amounts l ≤ 1000 * out_sum (map (htlc_out incoming) (outputs_of p w incoming rate l))
                 + Z.of_nat (length l) * (1000 * 2 ^ 33).
Proof.
  intros Hr Hd. induction 1 as [|x l Hx _ IH]; [done|]. rewrite amounts_cons. cbn [length].
  assert (in_u64 (pd_amount x.2)) as Hx' by done. unfold in_u64 in Hx'.
  unfold outputs_of in *. simpl. destruct (not_dust p w incoming rate x.2) eqn:E; simpl.
  - unfold out_sum in *. simpl. unfold to_satoshis.
    pose proof (Z.div_mod (pd_amount x.2) 1000). pose proof (Z.mod_pos_bound (pd_amount x.2) 1000). lia.
  - pose proof (dust_small p w incoming rate x.2 Hr Hd Hx E). lia.
Qed.

Lemma view_outputs_cover p w rate v ours theirs :
  in_u32 (cfg_dust_limit (cfg_for p w)) → 0 ≤ ours < 2 ^ 63 → 0 ≤ theirs < 2 ^ 63 →
  ours + theirs + 1000 * out_sum (map (htlc_out false) (outputs_of p w false rate (dual_local (hv_updates v)))) +
    1000 * out_sum (map (htlc_out true) (outputs_of p w true rate (dual_remote (hv_updates v))))
  ≤ 1000 * out_sum (view_outputs p w rate v ours theirs) + 2000 * (2 ^ 32 + 1).
Proof.
  intros Hd Ho Ht. unfold in_u32 in Hd. unfold view_outputs.
  assert (∀ x, 0 ≤ x → 0 ≤ to_satoshis x ∧ x ≤ 1000 * to_satoshis x + 999) as Hs.
  { intros x Hx. unfold to_satoshis. pose proof (Z.div_mod x 1000).
    pose proof (Z.mod_pos_bound x 1000). lia. }
  destruct (Hs ours), (Hs theirs); try lia.
  destruct w; rewrite !out_sum_app;
    match goal with |- context [create_commit_tx ?ct ?d ?a ?b ?num] =>
      pose proof (create_commit_tx_covers ct d a b num) end; lia.
Qed.

(** *** The view of a new commitment *)

Section View.
Context (t n : Z) (lc : channel) (w : channel_party) (b : dual Z) (acc : eval_acc).
Hypothesis H : chan_ok t n lc.
Hypothesis Hv : resolve_view lc w (fetch_htlc_view (dual_remote b) (dual_local b) lc) = (acc, Ok ()).
Hypothesis Hb : ∀ p, idx (tip (chain_of lc w)) p ≤ get_for_party b p.

Let v := fetch_htlc_view (dual_remote b) (dual_local b) lc.
Let open p :=
  open_htlcs (log_of lc p) (log_of lc (counter_party p)) (get_for_party b p) (get_for_party b (counter_party p)).

Lemma view_updates p : get_for_party (hv_updates v) p = entries_below (get_for_party b p) (log_of lc p).
Proof. by destruct p. Qed.

Lemma view_live p : eval_live acc v p = open p.
Proof.
  destruct (resolve_view_Ok lc w v acc) as (_ & Hskip & _); [by eapply pair_log_ok, ck_logs..|done|].
  unfold eval_live, open. cbv zeta in Hskip. rewrite Hskip, !view_updates. apply live_adds_open.
Qed.

(** What the commitment's party has not seen yet. *)
Lemma view_uncommitted p k pd :
  (k, pd) ∈ ul_list (log_of lc p) → is_uncommitted w pd = negb (pd_log_index pd <? idx (tip (chain_of lc w)) p).
Proof.
  intros Hin. pose proof (ck_commit _ _ _ H w p k pd Hin) as Hc. rewrite <-Z.ltb_lt in Hc.
  destruct (is_uncommitted w pd), (_ <? _); naive_solver.
Qed.

Lemma add_uncommitted pd : is_add pd = true → is_uncommitted w pd = (add_height w pd =? 0).
Proof. unfold is_add, is_uncommitted. by destruct (pd_entry_type pd). Qed.

Lemma view_new p :
  List.filter (λ x, add_height w x.2 =? 0) (eval_live acc v p) =
  List.filter (λ x : entry, negb (pd_log_index x.2 <? idx (tip (chain_of lc w)) p)) (open p).
Proof.
  rewrite view_live. apply bfilter_ext. intros [k pd] [Hin Hp]%elem_of_bfilter. simpl in *.
  rewrite <-(view_uncommitted p k pd Hin). symmetry. apply add_uncommitted.
  by apply andb_true_iff in Hp as [_ [Ha _]%andb_true_iff].
Qed.

Lemma view_resolved p :
  unremoved w (resolutions (get_for_party (hv_updates v) p)) =
  new_resolutions (idx (tip (chain_of lc w)) p) (get_for_party b p) (log_of lc p).
Proof.
  rewrite view_updates. unfold unremoved, new_resolutions. apply bfilter_ext.
  intros [k pd] [[Hin _]%elem_of_bfilter Hr]%elem_of_bfilter. simpl in *.
  rewrite <-(view_uncommitted p k pd Hin). symmetry. by apply resolution_uncommitted.
Qed.

Lemma view_amounts p :
  amounts (open p) =
  zsum (keys (htlcs_of (tip (chain_of lc w)) p)).*2
  + amounts (List.filter (λ x, add_height w x.2 =? 0) (eval_live acc v p))
  - amounts (unremoved w (resolutions (get_for_party (hv_updates v) (counter_party p)))).
Proof.
  rewrite view_new, view_resolved. unfold open. pose proof (pair_log_ok lc p (ck_logs _ _ _ H)) as Hl.
  pose proof (pair_log_ok lc (counter_party p) (ck_logs _ _ _ H)) as Hl'.
  rewrite (open_amounts _ _ (idx (tip (chain_of lc w)) p) _ (idx (tip (chain_of lc w)) (counter_party p))); try done.
  - destruct (reflects_party lc (tip (chain_of lc w)) p) as [Hr _].
    destruct (Hr (ck_live _ _ _ H w _ (tip_elem _))) as [E _]. by rewrite E, <-keys_amounts.
  - pose proof (ck_logs _ _ _ H) as P%(pair_ok_party _ p). apply P.
  - intros k r Hin Hr Hlt.
    destruct (resolve_view_Ok lc w v acc) as (Hp & _); [by eapply pair_log_ok, ck_logs..|done|].
    specialize (Hp (counter_party p)). rewrite Forall_forall in Hp.
    destruct (Hp (k, r)) as (m & a & Ha & Hadd & Hi & Hh).
    { unfold resolutions. rewrite view_updates. apply elem_of_bfilter. split; [|done].
      apply elem_of_bfilter. split; [done|]. by apply Z.ltb_lt. }
    rewrite counter_party_involutive in Ha. exists m, a. split_and!; [done..|].
    apply (ck_commit _ _ _ H w p m a Ha). rewrite add_uncommitted by done. by apply Z.eqb_neq.
Qed.

Lemma view_funds :
  our_after lc w acc v + their_after lc w acc v + amounts (open Local) + amounts (open Remote) ≡₆₄ t.
Proof.
  rewrite (balances_after lc w v acc) by (try done; by eapply pair_log_ok, ck_logs). cbv zeta.
  rewrite !view_amounts. cbn [counter_party htlcs_of].
  rewrite <-(fu_sum _ _ (ck_funds _ _ _ H w _ (tip_elem _))). unfold shared. eq64_lia.
Qed.
End View.

(** *** Flags do not matter to what a commitment reflects *)

Lemma keys_core (l : list entry) : keys (map core_entry l).*2 = keys l.*2.
Proof. rewrite !keys_snd, map_map. done. Qed.

Lemma open_htlcs_core u v i j : keys (open_htlcs (core_log u) (core_log v) i j).*2 = keys (open_htlcs u v i j).*2.
Proof.
  rewrite <-!live_adds_open. unfold parents_below. rewrite !entries_below_core, resolutions_core, live_adds_core.
  rewrite keys_core. unfold parents. by rewrite map_map.
Qed.

Lemma same_core_log lc lc' p : same_core lc lc' → core_log (log_of lc p) = core_log (log_of lc' p).
Proof. intros H. rewrite <-!log_of_core. by rewrite H. Qed.

Lemma reflects_core lc lc' c :
  same_core lc lc' → reflects (log_of lc Local) (log_of lc Remote) c → reflects (log_of lc' Local) (log_of lc' Remote) c.
Proof.
  intros Hs [Ho Hi]. split.
  - rewrite Ho, <-open_htlcs_core, !(same_core_log lc lc') by done. apply open_htlcs_core.
  - rewrite Hi, <-open_htlcs_core, !(same_core_log lc lc') by done. apply open_htlcs_core.
Qed.

Lemma fresh_nodes_core w b u : fresh_nodes w b (core_log u) = fresh_nodes w b u.
Proof.
  unfold fresh_nodes. rewrite entries_below_core, bfilter_map. rewrite <-list_fmap_compose. done.
Qed.

Lemma core_chan_chains lc lc' w : same_core lc lc' → chain_of lc w = chain_of lc' w.
Proof. intros H. apply (f_equal (λ c, chain_of c w)) in H. exact H. Qed.
Lemma core_chan_params lc lc' : same_core lc lc' → lc_params lc = lc_params lc'.
Proof. intros H. apply (f_equal lc_params) in H. exact H. Qed.

(** The heights that an evaluation sets are those of the new entries. *)
Lemma set_heights_fresh lc lc' w h b :
  same_core lc lc' →
  set_commit_heights w h (eval_uncommitted w (fetch_htlc_view (dual_remote b) (dual_local b) lc')) lc =
  commit_logs w h b lc.
Proof.
  intros Hs.
  assert (∀ p, (get_for_party (eval_uncommitted w (fetch_htlc_view (dual_remote b) (dual_local b) lc')) p).*1 =
    fresh_nodes w (get_for_party b p) (log_of lc p)) as E.
  { intros p. rewrite <-fresh_nodes_core, (same_core_log lc lc'), fresh_nodes_core by done. by destruct p. }
  unfold set_commit_heights, commit_logs. by rewrite !E.
Qed.

Lemma commit_logs_log w h b lc p :
  log_of (commit_logs w h b lc) p =
  modify_nodes (fresh_nodes w (get_for_party b p) (log_of lc p)) (set_commit_height w h) (log_of lc p).
Proof. by destruct p. Qed.

Lemma commit_logs_content w h b lc p k pd :
  (k, pd) ∈ ul_list (log_of lc p) →
  ∃ pd', (k, pd') ∈ ul_list (log_of (commit_logs w h b lc) p) ∧ same_content pd' pd.
Proof.
  intros Hin. rewrite commit_logs_log. eapply modify_forth; [|exact Hin]. intros; apply commit_height_content.
Qed.

Lemma same_content_trans a b c : same_content a b → same_content b c → same_content a c.
Proof.
  intros [Ht ? ? ? ? ? Ha] [Ht' ? ? ? ? ? Ha']. split; try congruence. intros Hf.
  rewrite Ha by congruence. by apply Ha'.
Qed.

(** The copies of the HTLCs, read through the view's pointers. *)
Lemma copy_keys u u' (l : list entry) :
  log_ok u' →
  (∀ k pd, (k, pd) ∈ l → is_add pd = true ∧ (k, pd) ∈ ul_list u) →
  (∀ k pd, (k, pd) ∈ ul_list u → ∃ pd', (k, pd') ∈ ul_list u' ∧ same_content pd' pd) →
  keys (map (λ x : entry, default x.2 (node_value x.1 u')) l) = keys l.*2.
Proof.
  intros Hu Hl Hc. unfold keys. rewrite !map_map. apply map_ext_in.
  intros [k pd] Hin%list_elem_of_In. destruct (Hl k pd Hin) as [Ha Hin'].
  destruct (Hc k pd Hin') as (pd' & Hpd' & Hs). simpl.
  rewrite (proj2 (node_value_elem u' k pd' Hu) Hpd'). simpl.
  rewrite (sc_htlc _ _ Hs), (sc_amount _ _ Hs); [done | by apply add_not_fee].
Qed.

(** *** The new commitment extends its chain *)

Lemma next_height_tip t n lc w : chan_ok t n lc → next_height lc w = cm_height (tip (chain_of lc w)) + 1.
Proof.
  intros H. apply u64_small. pose proof (cn_range _ (ck_chain _ _ _ H w) _ (tip_elem _)) as Hr.
  unfold in_u64. change max_state_hint with (2 ^ 48 - 1) in Hr. lia.
Qed.

Lemma view_after_range lc w acc v :
  0 ≤ i64 (our_after lc w acc v) → 0 ≤ i64 (their_after lc w acc v) →
  0 ≤ our_after lc w acc v < 2 ^ 63 ∧ 0 ≤ their_after lc w acc v < 2 ^ 63.
Proof. intros Ho Ht. split; apply u64_balance; try done; apply apply_delta_range. Qed.

(** What [fetch_commitment_view] returns when the fee of its view is paid. *)
Definition fee_is_paid (lc : channel) (w : channel_party) (b : dual Z) : Prop :=
  ∃ acc, let v := fetch_htlc_view (dual_remote b) (dual_local b) lc in
    resolve_view lc w v = (acc, Ok ()) ∧
    msat_of_sat (view_fee (view_result lc w acc v)) < payer_balance (lc_params lc) (view_result lc w acc v).

(** What a party has on a commitment, with the fee where it pays it. *)
Definition gross (p : channel_params) (c : commitment) (who : channel_party) : Z :=
  match who with
  | Local => cm_our_balance c + if pr_is_initiator p then 1000 * cm_fee c else 0
  | Remote => cm_their_balance c + if pr_is_initiator p then 0 else 1000 * cm_fee c
  end.

Lemma gross_sum p c : gross p c Local + gross p c Remote = cm_our_balance c + cm_their_balance c + 1000 * cm_fee c.
Proof. simpl. destruct (pr_is_initiator p); lia. Qed.

Record fetched (lc : channel) (w : channel_party) (b : dual Z) (acc : eval_acc) (c : commitment) (lc' : channel) :
    Prop := {
  fe_view : resolve_view lc w (fetch_htlc_view (dual_remote b) (dual_local b) lc) = (acc, Ok ());
  fe_height : cm_height c = next_height lc w;
  fe_indices : cm_message_indices c = b;
  fe_state : state_only (commit_logs w (cm_height c) b (mark_noops (ea_noops acc) lc)) lc';
  fe_outgoing : cm_outgoing c =
    map (λ x : entry, default x.2 (node_value x.1 (log_of lc' Local)))
      (eval_live acc (fetch_htlc_view (dual_remote b) (dual_local b) lc) Local);
  fe_incoming : cm_incoming c =
    map (λ x : entry, default x.2 (node_value x.1 (log_of lc' Remote)))
      (eval_live acc (fetch_htlc_view (dual_remote b) (dual_local b) lc) Remote);
  fe_small : cm_height c ≤ max_state_hint;
  fe_range : 0 ≤ cm_our_balance c < 2 ^ 63 ∧ 0 ≤ cm_their_balance c < 2 ^ 63 ∧ 0 ≤ cm_fee c ∧
    1000 * cm_fee c < 2 ^ 63;
  fe_balances : let v := fetch_htlc_view (dual_remote b) (dual_local b) lc in
    gross (lc_params lc) c Local = our_after lc w acc v ∧ gross (lc_params lc) c Remote = their_after lc w acc v;
  fe_dust : cm_dust_limit c = cfg_dust_limit (cfg_for (lc_params lc) w);
  fe_fee : let v := eval_view lc w acc (fetch_htlc_view (dual_remote b) (dual_local b) lc) in
    cm_fee_per_kw c = hv_fee_per_kw v ∧ cm_fee c = view_commit_fee (lc_params lc) w (cm_fee_per_kw c) v;
  fe_txn : cm_txn c =
    view_outputs (lc_params lc) w (cm_fee_per_kw c)
      (eval_view lc w acc (fetch_htlc_view (dual_remote b) (dual_local b) lc)) (cm_our_balance c) (cm_their_balance c);
  fe_sane : check_transaction_sanity (cm_txn c) = true ∧ i64 (total_out (cm_txn c) + cm_fee c) ≤ pr_capacity (lc_params lc);
}.

Lemma fe_sum lc w b acc c lc' :
  fetched lc w b acc c lc' → let v := fetch_htlc_view (dual_remote b) (dual_local b) lc in
  cm_our_balance c + cm_their_balance c + 1000 * cm_fee c = our_after lc w acc v + their_after lc w acc v.
Proof.
  intros H v. destruct (fe_balances _ _ _ _ _ _ H) as [E1 E2]. fold v in E1, E2.
  rewrite <-E1, <-E2. symmetry. apply gross_sum.
Qed.

Lemma fetch_Ok lc w b oh th lc' c :
  fee_is_paid lc w b →
  fetch_commitment_view w (dual_local b) oh (dual_remote b) th lc = (lc', Ok c) →
  ∃ acc, fetched lc w b acc c lc'.
Proof.
  intros (acc & Hv & Hfee) E. exists acc. set (v := fetch_htlc_view (dual_remote b) (dual_local b) lc) in *.
  unfold fetch_commitment_view in E.
  apply bind_Ok in E as (lc1 & a & E1 & E). apply get_Ok in E1 as [-> ->].
  apply bind_Ok in E as (lc1 & cv & E1 & E).
  apply compute_view_true in E1 as (acc' & Hv' & -> & Ho & Ht & Hlc1).
  fold v in Hv', Ho, Ht, Hlc1, E. rewrite Hv in Hv'. injection Hv' as <-.
  apply bind_Ok in E as (lc2 & tx & E1 & E). apply lift_Ok in E1 as [Etx ->].
  apply bind_Ok in E as (lc2 & [] & E1 & E). apply check_Ok in E1 as [_ ->].
  apply bind_Ok in E as (lc2 & a & E1 & E). apply get_Ok in E1 as [-> ->].
  apply ret_Ok in E as [-> ->].
  destruct (view_after_range lc w acc v Ho Ht) as [Hor Htr].
  apply create_unsigned_Ok in Etx; [|done|done|exact Hfee].
  destruct Etx as (Efee & Hf0 & Hfb & Hh & Hob & Htb & Ho' & Ht' & Htx & Hs & Hcap).
  rewrite <-Efee in Hf0, Hfb, Ho', Ht', Hcap.
  unfold v in Hlc1. rewrite (set_heights_fresh (mark_noops (ea_noops acc) lc) lc w) in Hlc1 by apply mark_noops_core.
  split; cbn [cm_height cm_message_indices cm_outgoing cm_incoming cm_our_balance cm_their_balance cm_fee cm_fee_per_kw cm_dust_limit cm_txn];
    try done.
  - by destruct b.
  - rewrite Hlc1. apply record_settlements_state.
  - fold v. unfold gross. cbn [cm_our_balance cm_their_balance cm_fee]. rewrite Ho', Ht'. unfold view_result.
    cbn [cv_our_balance cv_their_balance]. destruct (pr_is_initiator (lc_params lc)); split; lia.
Qed.

Lemma state_only_log lc lc' p : state_only lc lc' → log_of lc' p = log_of lc p.
Proof. intros ->. done. Qed.
Lemma state_only_chain lc lc' w : state_only lc lc' → chain_of lc' w = chain_of lc w.
Proof. intros ->. done. Qed.

Section Extend.
Context (t n : Z) (lc lc' : channel) (w : channel_party) (b : dual Z) (acc : eval_acc) (c : commitment).
Hypothesis H : chan_ok t n lc.
Hypothesis Hf : fetched lc w b acc c lc'.
Hypothesis Hb : ∀ p, idx (tip (chain_of lc w)) p ≤ get_for_party b p ≤ ul_log_index (log_of lc p).
Hypothesis Ho : match w with
                | Local => dual_local b ≤ idx (tail (chain_of lc Remote)) Local
                | Remote => dual_remote b ≤ idx (tail (chain_of lc Local)) Remote
                end.

Let lc1 := mark_noops (ea_noops acc) lc.
Let lc2 := commit_logs w (cm_height c) b lc1.
Let v := fetch_htlc_view (dual_remote b) (dual_local b) lc.

Lemma extend_keys p :
  keys (map (λ x : entry, default x.2 (node_value x.1 (log_of lc' p))) (eval_live acc v p)) =
  keys (open_htlcs (log_of lc p) (log_of lc (counter_party p)) (get_for_party b p)
          (get_for_party b (counter_party p))).*2.
Proof.
  pose proof (mark_noops_ok _ _ (ea_noops acc) _ H) as H1. fold lc1 in H1.
  rewrite (copy_keys (log_of lc p)).
  - by rewrite (view_live t n lc w b acc H (fe_view _ _ _ _ _ _ Hf)).
  - rewrite (state_only_log _ _ p (fe_state _ _ _ _ _ _ Hf)). fold lc1. rewrite commit_logs_log.
    apply modify_nodes_ok; [intros; apply commit_height_content|]. by eapply pair_log_ok, ck_logs.
  - intros k pd Hin. unfold eval_live, live_adds in Hin. apply elem_of_bfilter in Hin as [Hin Hp].
    apply andb_true_iff in Hp as [Ha _]. split; [done|].
    unfold v in Hin. rewrite view_updates in Hin. by apply elem_of_bfilter in Hin as [Hin _].
  - intros k pd Hin.
    assert (∃ pd1, (k, pd1) ∈ ul_list (log_of lc1 p) ∧ same_content pd1 pd) as (pd1 & Hin1 & Hs1).
    { unfold lc1. destruct p; (eapply modify_forth; [|exact Hin]; by intros). }
    destruct (commit_logs_content w (cm_height c) b lc1 p k pd1 Hin1) as (pd2 & Hin2 & Hs2).
    rewrite (state_only_log _ _ p (fe_state _ _ _ _ _ _ Hf)). exists pd2. split; [done|].
    by eapply same_content_trans.
Qed.
Lemma extend_reflects : reflects (log_of lc Local) (log_of lc Remote) c.
Proof.
  pose proof (fe_indices _ _ _ _ _ _ Hf) as Ei.
  split; unfold idx; rewrite Ei; [rewrite (fe_outgoing _ _ _ _ _ _ Hf) | rewrite (fe_incoming _ _ _ _ _ _ Hf)].
  - apply (extend_keys Local).
  - apply (extend_keys Remote).
Qed.

Lemma extend_shared :
  shared c = our_after lc w acc v + their_after lc w acc v +
    amounts (eval_live acc v Local) + amounts (eval_live acc v Remote).
Proof.
  destruct (reflects_party lc c Local) as [Hr _]. destruct (Hr extend_reflects) as [E1 E2].
  cbn [htlcs_of counter_party] in E1, E2. unfold shared. rewrite E1, E2, <-!keys_amounts.
  rewrite (fe_sum _ _ _ _ _ _ Hf). unfold idx. rewrite (fe_indices _ _ _ _ _ _ Hf).
  by rewrite !(view_live t n lc w b acc H (fe_view _ _ _ _ _ _ Hf)).
Qed.

Lemma extend_lengths :
  length (cm_outgoing c) = length (eval_live acc v Local) ∧ length (cm_incoming c) = length (eval_live acc v Remote).
Proof. by rewrite (fe_outgoing _ _ _ _ _ _ Hf), (fe_incoming _ _ _ _ _ _ Hf), !length_map. Qed.

Lemma live_amounts p : Forall (λ x, in_u64 (pd_amount x.2)) (eval_live acc v p).
Proof.
  apply Forall_forall. intros [k pd] Hin. unfold eval_live, live_adds in Hin.
  apply elem_of_bfilter in Hin as [Hin [Ha _]%andb_true_iff]. unfold v in Hin. rewrite view_updates in Hin.
  apply elem_of_bfilter in Hin as [Hin _]. by apply (ck_amount _ _ _ H p k).
Qed.

(** No sum of a modest commitment wraps. *)
Lemma extend_small : modest c → 0 ≤ shared c < 2 ^ 64.
Proof.
  intros (Hrate & Hdust & Hcount). rewrite (fe_dust _ _ _ _ _ _ Hf) in Hdust.
  rewrite (proj1 extend_lengths), (proj2 extend_lengths) in Hcount.
  destruct (fe_range _ _ _ _ _ _ Hf) as (Hour & Htheir & Hfee0 & _).
  pose proof (fe_sum _ _ _ _ _ _ Hf) as Hsum. fold v in Hsum. cbv zeta in Hsum.
  destruct (sanity_outputs _ (proj1 (fe_sane _ _ _ _ _ _ Hf))) as [_ Hout].
  rewrite (fe_txn _ _ _ _ _ _ Hf) in Hout. fold v in Hout.
  set (p := lc_params lc) in *. set (rate := cm_fee_per_kw c) in *.
  pose proof (htlc_outs_cover p w false rate _ Hrate Hdust (live_amounts Local)) as Hl.
  pose proof (htlc_outs_cover p w true rate _ Hrate Hdust (live_amounts Remote)) as Hr.
  rewrite extend_shared, <-Hsum.
  assert (0 ≤ num_htlcs p w rate (eval_view lc w acc v) ≤ 2 ^ 20) as Hnum.
  { unfold num_htlcs, outputs_of. cbn [eval_view hv_updates dual_local dual_remote].
    pose proof (List.filter_length_le (λ x, not_dust p w false rate x.2) (eval_live acc v Local)).
    pose proof (List.filter_length_le (λ x, not_dust p w true rate x.2) (eval_live acc v Remote)).
    unfold entry in *. lia. }
  assert (0 ≤ 1000 * cm_fee c < 2 ^ 61) as Hfee.
  { rewrite (proj2 (fe_fee _ _ _ _ _ _ Hf)). fold v p rate. unfold view_commit_fee.
    set (num := num_htlcs _ _ _ _) in *.
    assert (0 ≤ commit_weight (pr_chan_type p) ≤ 1124) as Hw by (unfold commit_weight; repeat case_match; done).
    unfold htlc_weight. rewrite (u64_small (172 * num)), u64_small by in_range.
    pose proof (fee_for_weight_small rate (commit_weight (pr_chan_type p) + 172 * num) Hrate) as Hs.
    unfold in_u32 in Hrate. nia. }
  fold (out_sum (view_outputs p w rate (eval_view lc w acc v) (cm_our_balance c) (cm_their_balance c))) in Hout.
  pose proof (view_outputs_cover p w rate (eval_view lc w acc v) _ _ Hdust Hour Htheir) as Hc.
  cbn [eval_view hv_updates dual_local dual_remote] in Hc. unfold max_satoshi in Hout. lia.
Qed.

Lemma extend_funds : in_u64 t → funds t c.
Proof.
  intros Ht. destruct (fe_range _ _ _ _ _ _ Hf) as (H1 & H2 & H3 & H4).
  assert (shared c ≡₆₄ t) as E.
  { rewrite extend_shared, !(view_live t n lc w b acc H (fe_view _ _ _ _ _ _ Hf)).
    rewrite <-(view_funds t n lc w b acc H (fe_view _ _ _ _ _ _ Hf)); [done | intros p; apply Hb]. }
  split; try done. intros Hm. apply eq64_small; [by apply extend_small | done..].
Qed.

Lemma chan_ok_extend : in_u64 t → chan_ok t n (set_chain w (add_commitment c (chain_of lc' w)) lc').
Proof.
  intros Ht. pose proof (mark_noops_ok _ _ (ea_noops acc) _ H) as H1. fold lc1 in H1.
  pose proof (fe_state _ _ _ _ _ _ Hf) as Es. fold lc1 in Es.
  assert (same_core lc1 lc) as Hc by apply mark_noops_core.
  assert (∀ w', chain_of lc1 w' = chain_of lc w') as Ech by (intros w'; by apply core_chan_chains).
  eapply (chan_ok_state t n (set_chain w (add_commitment c (chain_of lc1 w))
    (commit_logs w (cm_height c) (cm_message_indices c) lc1))).
  - apply chan_ok_commit; rewrite ?Ech; unfold idx; rewrite ?(fe_indices _ _ _ _ _ _ Hf).
    + done.
    + intros p. rewrite ?Ech. split; [apply Hb|].
      assert (ul_log_index (log_of lc1 p) = ul_log_index (log_of lc p)) as -> by by destruct p. apply Hb.
    + by destruct w; rewrite ?Ech.
    + rewrite (fe_height _ _ _ _ _ _ Hf). by eapply next_height_tip.
    + apply (fe_small _ _ _ _ _ _ Hf).
    + apply (reflects_core lc); [done | apply extend_reflects].
    + by apply extend_funds.
  - rewrite (fe_indices _ _ _ _ _ _ Hf), Es. done.
Qed.
End Extend.
End Steps.
