(* ===== verification/ChannelAfter.v ===== *)
(** * What becomes of an HTLC that is resolved

    An HTLC index is given out once, and its resolution is not forgotten: the
    log of the other party keeps its mark until compaction takes the HTLC
    itself out. [after] is what every write to a log respects. *)

From S2P Require Import Prelude Chainfee Shachain UpdateLog Channel ChannelLog ChannelView ChannelInv ChannelCommit.

(** An HTLC index that was given out, and that is marked or gone. *)
Definition spent (i : Z) (u : update_log) : Prop :=
  i < ul_htlc_counter u ∧
  ∀ n a, (n, a) ∈ ul_list u → is_add a = true → pd_htlc_index a = i → i ∈ ul_modified_htlcs u.

(** The log [u'] can come after [u]: indexes are not given out again, and of
    the HTLCs that were in [u] those that are left keep their marks. *)
Record after (u u' : update_log) : Prop := {
  af_counter : ul_htlc_counter u ≤ ul_htlc_counter u';
  af_old n' a' : (n', a') ∈ ul_list u' → is_add a' = true → pd_htlc_index a' < ul_htlc_counter u →
    (∃ n a, (n, a) ∈ ul_list u ∧ is_add a = true ∧ pd_htlc_index a = pd_htlc_index a') ∧
    (pd_htlc_index a' ∈ ul_modified_htlcs u → pd_htlc_index a' ∈ ul_modified_htlcs u');
}.

#[export] Instance after_preorder : PreOrder after.
Proof.
  split.
  - intros u. split; [done|]. intros n a Hin Ha _. split; [|done]. by exists n, a.
  - intros u1 u2 u3 [C1 O1] [C2 O2]. split; [lia|]. intros n3 a3 Hin Ha Hlt.
    destruct (O2 n3 a3 Hin Ha) as [(n2 & a2 & Hin2 & Ha2 & Hi2) Hm2]; [lia|].
    rewrite <-Hi2 in *. destruct (O1 n2 a2 Hin2 Ha2 Hlt) as [H1 Hm1]. eauto.
Qed.

Lemma spent_after i u u' : after u u' → spent i u → spent i u'.
Proof.
  intros [Hc Ho] [Hi Hs]. split; [lia|]. intros n a Hin Ha <-.
  destruct (Ho n a Hin Ha Hi) as [(n0 & a0 & Hin0 & Ha0 & Hi0) Hm]. apply Hm. by apply (Hs n0 a0).
Qed.

Lemma after_modify ns f u :
  (∀ k pd, k ∈ ns → (k, pd) ∈ ul_list u → same_content (f pd) pd) → after u (modify_nodes ns f u).
Proof.
  intros Hf. split; [done|]. intros n' a' Hin Ha _. split; [|done].
  destruct (modify_back ns f u Hf n' a' Hin) as (a & Ha' & Hs). exists n', a.
  by rewrite <-(same_content_is_add _ _ Hs), (sc_htlc _ _ Hs).
Qed.

Lemma after_push u u' k pd :
  ul_list u' = ul_list u ++ [(k, pd)] → ul_htlc_counter u ≤ ul_htlc_counter u' →
  ul_modified_htlcs u' = ul_modified_htlcs u → (is_add pd = true → ul_htlc_counter u ≤ pd_htlc_index pd) →
  after u u'.
Proof.
  intros Hl Hc Hm Hpd. split; [done|]. intros n' a' Hin Ha Hlt. rewrite Hm. split; [|done].
  rewrite Hl in Hin. apply elem_of_app in Hin as [Hin|[= -> ->]%list_elem_of_singleton]; [by exists n', a'|].
  apply Hpd in Ha. lia.
Qed.

Lemma after_mark i u : after u (mark_htlc_modified i u).
Proof. split; [done|]. intros n a Hin Ha _. split; [by exists n, a|]. simpl. set_solver. Qed.

Section After.
Context {HP : HashPrims}.

Lemma after_dropped n u u' :
  dropped n u u' → (∀ k a, (k, a) ∈ ul_list u' → is_add a = true → pd_htlc_index a ∈ ul_modified_htlcs u →
    pd_htlc_index a ∈ ul_modified_htlcs u') → after u u'.
Proof.
  intros Hd Hm. split; [by rewrite (dr_htlc _ _ _ Hd)|]. intros k a Hin Ha _.
  split; [|by apply (Hm k)]. apply (dropped_elem _ _ _ Hd) in Hin as [Hin _]. by exists k, a.
Qed.

Lemma compact_step_after lt rt u v u' v' :
  pair_ok u v → compact_step lt rt (u, v) (u', v') → after u u' ∧ after v v'.
Proof.
  intros P Hst.
  inversion Hst as [? ? ? n pd Hin Ht Hl Hok Hd Hm|? ? ? ? n r m a Hin Hr Hl Ha Hadd Hp Hok Hd Hm Hok' Hd' Hm']; subst.
  - split; [|done]. eapply after_dropped; [exact Hd|]. intros k a _ _. by rewrite Hm.
  - split.
    + eapply after_dropped; [exact Hd|]. intros k b _ _. by rewrite Hm.
    + eapply after_dropped; [exact Hd'|]. intros k b Hb Hbadd Hbm. rewrite Hm'.
      apply (dropped_elem _ _ _ Hd') in Hb as [Hb Hk]. apply elem_of_difference. split; [done|].
      intros E%elem_of_singleton. apply Hk. eapply (add_unique v k m b a); [apply P | done..|]. congruence.
Qed.

Lemma either_steps_after lt rt p q :
  pair_ok p.1 p.2 → rtc (either_step lt rt) p q → after p.1 q.1 ∧ after p.2 q.2.
Proof.
  intros P Hr. induction Hr as [|[u v] [u1 v1] q Hst Hr IH]; [done|].
  assert (pair_ok u1 v1) as P1.
  { apply (either_steps_ok lt rt (u, v) (u1, v1)); [by apply rtc_once | done]. }
  destruct (IH P1) as [H1 H2]. simpl in *.
  assert (after u u1 ∧ after v v1) as [H3 H4].
  { destruct Hst as [Hst|Hst]; simpl in Hst; [by eapply compact_step_after|].
    destruct (compact_step_after lt rt v u v1 u1); [by apply pair_ok_sym | done | done]. }
  split; [by rewrite H3 | by rewrite H4].
Qed.

(** ** Both logs of a channel *)

Definition moves (lc lc' : channel) : Prop := ∀ p, after (log_of lc p) (log_of lc' p).

#[export] Instance moves_preorder : PreOrder moves.
Proof.
  split; [by intros lc p|]. intros lc1 lc2 lc3 H1 H2 p. by rewrite (H1 p).
Qed.

Lemma moves_state lc lc' : state_only lc lc' → moves lc lc'.
Proof. intros ->. intros p. done. Qed.
Lemma moves_chain lc w s : moves lc (set_chain w s lc).
Proof. intros p. by destruct w. Qed.

Lemma moves_set_log lc p u : after (log_of lc p) u → moves lc (set_log p u lc).
Proof.
  intros H q. destruct (party_cases p q) as [-> | ->]; [by rewrite log_of_set_same | by rewrite log_of_set_other].
Qed.

Lemma moves_noops ns lc : moves lc (mark_noops ns lc).
Proof. intros []; by apply after_modify. Qed.

Lemma moves_commit w h b lc : moves lc (commit_logs w h b lc).
Proof. intros p. rewrite commit_logs_log. apply after_modify. intros; apply commit_height_content. Qed.

Lemma moves_compact t n lc lt rt u v :
  chan_ok t n lc → compact_logs (log_of lc Local) (log_of lc Remote) lt rt = Ok (u, v) →
  moves lc (set_update_logs (Dual u v) lc).
Proof.
  intros H E. pose proof (ck_logs _ _ _ H) as P.
  destruct (compact_logs_steps lt rt (log_of lc Local) (log_of lc Remote)) as (u' & v' & E' & Hst);
    [done | apply (ck_stay _ _ _ H Local) | apply (ck_stay _ _ _ H Remote) |].
  rewrite E in E'. injection E' as <- <-.
  destruct (either_steps_after lt rt (log_of lc Local, log_of lc Remote) (u, v) P Hst) as [H1 H2].
  intros []; [exact H1 | exact H2].
Qed.
End After.
