(* ===== verification/ChannelSteps.v ===== *)
(** * The methods keep the invariant

    Every method of the channel, on a channel that satisfies [chan_ok]. *)

From S2P Require Import Prelude Chainfee Shachain UpdateLog Channel ChannelLog ChannelView ChannelInv ChannelCommit.
From S2P Require Import ChannelAfter.

Section Methods.
Context {HP : HashPrims} {CP : ChannelPrims}.

(** ** Methods that append to the logs *)

(** Whatever a method does with a channel whose counters have room, it leaves
    the invariant, with counters that grew by one at most, and forgets no
    resolution. *)
Definition grows {A} (lc0 : channel) (m : M A) : Prop :=
  ∀ t n lc lc' r, same_core lc lc0 → chan_ok t n lc → n + 1 < 2 ^ 64 → m lc = (lc', r) →
    chan_ok t (n + 1) lc' ∧ moves lc lc'.

Lemma looks_moves {A} (m : M A) lc lc' r : only_looks m → m lc = (lc', r) → moves lc lc'.
Proof.
  intros Hm E. destruct (Hm lc) as (ns & r' & E'). rewrite E in E'. injection E' as -> _.
  clear E. induction ns as [|x ns IH]; simpl; [done|]. etrans; [exact IH | apply moves_noops].
Qed.

Lemma grows_looks {A} lc0 (m : M A) : only_looks m → grows lc0 m.
Proof.
  intros Hm t n lc lc' r _ H _ E. destruct (looks_keeps m t n lc lc' r Hm E) as [_ Hk].
  split; [|by eapply looks_moves]. apply chan_ok_weaken with n; [by apply Hk | lia].
Qed.

Lemma grows_bind {A B} lc0 (m : M A) (k : A → M B) :
  only_looks m → (∀ a, grows lc0 (k a)) → grows lc0 (m ≫= k).
Proof.
  intros Hm Hk t n lc lc' r Hs H Hn. unfold mbind, M_bind. destruct (m lc) as [lc1 r1] eqn:E.
  destruct (looks_keeps m t n lc lc1 r1 Hm E) as [Hs1 Hk1]. pose proof (looks_moves m lc lc1 r1 Hm E) as Hmv.
  destruct r1 as [a|e].
  - intros Hr. destruct (Hk a t n lc1 lc' r) as [H1 H2]; [by etrans | by apply Hk1 | done | done|].
    split; [done | by etrans].
  - intros [= <- <-]. split; [|done]. apply chan_ok_weaken with n; [by apply Hk1 | lia].
Qed.

Lemma grows_get {B} lc0 (k : channel → M B) :
  (∀ lc, same_core lc lc0 → grows lc (k lc)) → grows lc0 (get ≫= k).
Proof. intros Hk t n lc lc' r Hs H Hn E. by apply (Hk lc Hs t n lc lc' r). Qed.

Lemma grows_modify lc0 (f : channel → channel) :
  (∀ t n lc, same_core lc lc0 → chan_ok t n lc → n + 1 < 2 ^ 64 →
     chan_ok t (n + 1) (f lc) ∧ moves lc (f lc)) →
  grows lc0 (modify f).
Proof. intros Hf t n lc lc' r Hs H Hn [= <- _]. by apply Hf. Qed.

Lemma grows_modify_ret {A} lc0 (f : channel → channel) (a : A) :
  grows lc0 (modify f) → grows lc0 (_ ← modify f; mret a).
Proof. intros Hf t n lc lc' r Hs H Hn [= <- _]. by apply (Hf t n lc _ (Ok ())). Qed.

Lemma same_core_index lc lc0 p :
  same_core lc lc0 → ul_log_index (log_of lc p) = ul_log_index (log_of lc0 p) ∧
    ul_htlc_counter (log_of lc p) = ul_htlc_counter (log_of lc0 p).
Proof.
  intros Hs. pose proof (same_core_log lc lc0 p Hs) as E.
  split; [apply (f_equal ul_log_index E) | apply (f_equal ul_htlc_counter E)].
Qed.

Lemma set_log_twice lc p u : set_log (counter_party p) (log_of lc (counter_party p)) (set_log p u lc) = set_log p u lc.
Proof. destruct lc as [? ? ? ? []]. by destruct p. Qed.

(** *** New HTLCs *)

Lemma chan_ok_add t n lc p pd :
  chan_ok t n lc → n + 1 < 2 ^ 64 → is_add pd = true → in_u64 (pd_amount pd) →
  pd_log_index pd = ul_log_index (log_of lc p) → pd_htlc_index pd = ul_htlc_counter (log_of lc p) →
  pd_add_heights pd = zero_heights → pd_remove_heights pd = zero_heights →
  chan_ok t (n + 1) (set_log p (append_htlc pd (log_of lc p)) lc).
Proof.
  intros H Hn Ha Hamt Hl Hi Hah Hrh. rewrite <-set_log_twice.
  pose proof (ck_bound _ _ _ H p) as [B1 B2]. pose proof (ck_logs _ _ _ H) as P%(pair_ok_party _ p).
  pose proof (lo_counters _ (po_left _ _ P)) as [C1 C2].
  assert (is_resolution pd = false) as Hr.
  { destruct (is_resolution pd) eqn:E; [|done]. apply resolution_not_add in E. congruence. }
  apply (chan_ok_push t n lc p _ _ pd); try done.
  - split.
    + apply append_htlc_ok; try done; try lia. apply P.
    + apply P.
    + eapply cross_ok_push; [apply (po_cross _ _ P) | by apply append_htlc_list | done].
    + eapply cross_ok_grow; [apply (po_cross' _ _ P) | apply content_below_refl | | done].
      intros m a Hin _. exists a. split; [|done]. rewrite append_htlc_list. apply elem_of_app. by left.
  - apply u64_small. in_range.
  - unfold append_htlc. simpl. rewrite u64_small by in_range. lia.
Qed.

(** The descriptor of an HTLC that comes. *)
Lemma grows_add lc0 p htlc :
  in_u64 (uah_amount htlc) →
  grows lc0 (modify (λ lc, set_log p (append_htlc (htlc_add_descriptor htlc p lc0) (log_of lc p)) lc)).
Proof.
  intros Hamt. apply grows_modify. intros t n lc Hs H Hn. destruct (same_core_index lc lc0 p Hs) as [E1 E2].
  split.
  - apply chan_ok_add; try done. unfold is_add, htlc_add_descriptor, entry_type_for_htlc. simpl. by case_match.
  - apply moves_set_log. eapply after_push; [by apply append_htlc_list | | done | simpl; lia].
    pose proof (ck_bound _ _ _ H p) as [_ B]. pose proof (lo_counters _ (pair_log_ok lc p (ck_logs _ _ _ H))) as [_ C].
    unfold append_htlc. simpl. rewrite u64_small by in_range. lia.
Qed.

Lemma looks_validate_add pd buffer : only_looks (validate_add_htlc pd buffer).
Proof. apply looks_bind; [apply looks_get|]. intros lc. apply looks_bind; auto with looks. Qed.
#[local] Hint Resolve looks_validate_add : looks.

Lemma add_htlc_grows lc0 htlc : in_u64 (uah_amount htlc) → grows lc0 (add_htlc htlc).
Proof.
  intros Ha. apply grows_get. intros lc _. apply grows_bind; [auto with looks|]. intros _.
  by apply grows_modify_ret, grows_add.
Qed.

Lemma receive_htlc_grows lc0 htlc : in_u64 (uah_amount htlc) → grows lc0 (receive_htlc htlc).
Proof.
  intros Ha. apply grows_get. intros lc _. apply grows_bind; [auto with looks|]. intros _.
  apply grows_bind; [auto with looks|]. intros _. by apply grows_modify_ret, grows_add.
Qed.

Lemma may_add_looks amt : only_looks (may_add_outgoing_htlc amt).
Proof. apply looks_bind; [apply looks_get|]. intros lc. cbv zeta. auto with looks. Qed.

(** *** Fee updates *)

Lemma looks_available view w buffer : only_looks (available_commitment_balance view w buffer).
Proof.
  intros lc. unfold available_commitment_balance.
  destruct (looks_compute view w None lc) as (ns & r & ->). exists ns.
  repeat case_match; by eexists.
Qed.
#[local] Hint Resolve looks_available : looks.

Lemma looks_available_balance buffer : only_looks (available_balance buffer).
Proof.
  apply looks_bind; [apply looks_get|]. intros lc. cbv zeta.
  apply looks_bind; [auto with looks|]. intros [].
  apply looks_bind; [auto with looks|]. intros []. auto with looks.
Qed.
#[local] Hint Resolve looks_available_balance : looks.

Lemma commit_fee_total_looks rate : only_looks (commit_fee_total_at rate).
Proof.
  apply looks_bind; [auto with looks|]. intros lc. cbv zeta.
  apply looks_bind; [auto with looks|]. intros cv.
  apply looks_bind; [auto with looks|]. intros lc'.
  apply looks_bind; [auto with looks|]. auto with looks.
Qed.

Lemma looks_validate_fee rate : only_looks (validate_fee_rate rate).
Proof.
  apply looks_bind; [auto with looks|]. intros _. apply looks_bind; [auto with looks|]. intros [].
  apply looks_bind; auto with looks.
Qed.
#[local] Hint Resolve looks_validate_fee : looks.

Lemma chan_ok_append t n lc p u pd :
  chan_ok t n lc → n + 1 < 2 ^ 64 → u = append_update pd (log_of lc p) → is_add pd = false →
  is_resolution pd = false → pd_log_index pd = ul_log_index (log_of lc p) →
  pd_add_heights pd = zero_heights → pd_remove_heights pd = zero_heights →
  chan_ok t (n + 1) (set_log p u lc).
Proof.
  intros H Hn -> Ha Hr Hl Hah Hrh. rewrite <-set_log_twice.
  pose proof (ck_bound _ _ _ H p) as [B1 B2]. pose proof (ck_logs _ _ _ H) as P%(pair_ok_party _ p).
  pose proof (lo_counters _ (po_left _ _ P)) as [C1 C2].
  apply (chan_ok_push t n lc p _ _ pd); try done.
  - split.
    + apply append_update_ok; try done; try lia. apply P.
    + apply P.
    + eapply cross_ok_push; [apply (po_cross _ _ P) | by apply append_update_list | done].
    + eapply cross_ok_grow; [apply (po_cross' _ _ P) | apply content_below_refl | | done].
      intros m a Hin _. exists a. split; [|done]. rewrite append_update_list. apply elem_of_app. by left.
  - apply u64_small. in_range.
  - unfold append_update. simpl. lia.
  - congruence.
Qed.

Lemma grows_fee lc0 p rate :
  grows lc0 (modify (λ lc, set_log p (append_fee_update (fee_descriptor rate p lc0) (log_of lc p)) lc)).
Proof.
  apply grows_modify. intros t n lc Hs H Hn. destruct (same_core_index lc lc0 p Hs) as [E1 E2].
  destruct (append_fee_update_cases (fee_descriptor rate p lc0) (log_of lc p)) as [E|(k & -> & Hk)].
  - by eapply pair_log_ok, ck_logs.
  - split; [by eapply chan_ok_append|]. rewrite E. apply moves_set_log.
    by eapply after_push; [by apply append_update_list | done..|].
  - assert (∀ k' pd, k' ∈ [k] → (k', pd) ∈ ul_list (log_of lc p) →
      same_content (set_pd_amount (pd_amount (fee_descriptor rate p lc0)) pd) pd) as Hc.
    { intros k' pd Hk' Hin. apply set_pd_amount_content. by eapply Hk. }
    split; [|by apply moves_set_log, after_modify].
    apply chan_ok_weaken with n; [by apply chan_ok_write | lia].
Qed.

Lemma update_fee_grows lc0 rate : grows lc0 (update_fee rate).
Proof.
  apply grows_get. intros lc _. apply grows_bind; [auto with looks|]. intros _.
  apply grows_bind; [auto with looks|]. intros _. apply grows_fee.
Qed.

Lemma receive_update_fee_grows lc0 rate : grows lc0 (receive_update_fee rate).
Proof.
  apply grows_get. intros lc _. apply grows_bind; [auto with looks|]. intros _.
  apply grows_bind; [auto with looks|]. intros _. apply grows_fee.
Qed.

(** *** Resolutions *)

Lemma chan_ok_resolve t n lc lc' r p pd i a m :
  chan_ok t n lc → n + 1 < 2 ^ 64 →
  (m, a) ∈ ul_list (log_of lc (counter_party p)) → is_add a = true → pd_htlc_index a = i →
  htlc_has_modification i (log_of lc (counter_party p)) = false →
  resolves pd a → is_resolution pd = true → pd_parent_index pd = i →
  pd_log_index pd = ul_log_index (log_of lc p) →
  pd_add_heights pd = zero_heights → pd_remove_heights pd = zero_heights →
  append_resolution p pd i lc = (lc', r) → chan_ok t (n + 1) lc' ∧ moves lc lc'.
Proof.
  intros H Hn Hin Ha Hi Hm%bool_decide_eq_false Hres Hr Hp Hl Hah Hrh [= <- _].
  rewrite log_of_set_other. pose proof (resolution_not_add _ Hr) as Hna.
  pose proof (ck_bound _ _ _ H p) as [B1 B2]. pose proof (ck_logs _ _ _ H) as P%(pair_ok_party _ p).
  pose proof (lo_counters _ (po_left _ _ P)) as [C1 C2].
  split; cycle 1.
  { transitivity (set_log p (append_update pd (log_of lc p)) lc); apply moves_set_log.
    - eapply after_push; [by apply append_update_list | done | done | congruence].
    - rewrite log_of_set_other. apply after_mark. }
  apply (chan_ok_push t n lc p _ _ pd); try done.
  - split.
    + apply append_update_ok; try done; try lia. apply P.
    + apply mark_modified_ok, P.
    + rewrite <-Hp. eapply cross_ok_resolve; [apply (po_cross _ _ P) | by apply append_update_list | exact Hin|..];
        try done; congruence.
    + eapply cross_ok_grow; [apply (po_cross' _ _ P) | intros k b Hk; by exists b | | done].
      intros k b Hk _. exists b. split; [|done]. rewrite append_update_list. apply elem_of_app. by left.
  - apply u64_small. in_range.
  - unfold append_update. simpl. lia.
  - congruence.
Qed.

(** The shape of the five methods that resolve an HTLC of the other party. *)
Lemma resolution_grows (m : M ()) p i (ok : payment_descriptor → bool) e1 e2 e3 pd lc0 :
  (∀ lc, m lc = match lookup_htlc i (log_of lc (counter_party p)) with
                | None => (lc, Err e1)
                | Some a =>
                    if htlc_has_modification i (log_of lc (counter_party p)) then (lc, Err e2)
                    else if ok a then append_resolution p (pd a lc) i lc else (lc, Err e3)
                end) →
  (∀ a lc, pd_htlc_index a = i → ok a = true →
     resolves (pd a lc) a ∧ is_resolution (pd a lc) = true ∧ pd_parent_index (pd a lc) = i ∧
     pd_log_index (pd a lc) = ul_log_index (log_of lc p) ∧
     pd_add_heights (pd a lc) = zero_heights ∧ pd_remove_heights (pd a lc) = zero_heights) →
  grows lc0 m.
Proof.
  intros Hm Hpd t n lc lc' r _ H Hn. rewrite Hm.
  assert (chan_ok t (n + 1) lc ∧ moves lc lc) as Hw by (split; [apply chan_ok_weaken with n; [done | lia] | done]).
  destruct (lookup_htlc i _) as [a|] eqn:E; [|by intros [= <- _]].
  destruct (htlc_has_modification i _) eqn:Em; [by intros [= <- _]|].
  destruct (ok a) eqn:Eo; [|by intros [= <- _]].
  apply lookup_htlc_Some in E as (k & Hin & Ha & Hi); [|by eapply pair_log_ok, ck_logs].
  destruct (Hpd a lc Hi Eo) as (H1 & H2 & H3 & H4 & H5 & H6). by eapply chan_ok_resolve.
Qed.

Ltac resolution_shape :=
  intros lc; unfold mbind, M_bind, get; cbv beta iota; cbn [counter_party];
  destruct (lookup_htlc _ _); [|done];
  unfold check, fail, mret, M_ret; destruct (htlc_has_modification _ _); solve [done | simpl; by case_bool_decide].

Lemma settle_htlc_grows lc0 preimage i : grows lc0 (settle_htlc preimage i).
Proof.
  apply (resolution_grows _ Local i (λ a, bool_decide (pd_rhash a = sha256 preimage)) ErrUnknownHtlcIndex
    ErrHtlcIndexAlreadySettled ErrInvalidSettlePreimage
    (λ a lc, resolution_descriptor Settle zero_hash preimage (pd_amount a) i Local lc)); [unfold settle_htlc; resolution_shape|].
  intros a lc _ Hok%bool_decide_eq_true. by split_and!.
Qed.

Lemma receive_htlc_settle_grows lc0 preimage i : grows lc0 (receive_htlc_settle preimage i).
Proof.
  apply (resolution_grows _ Remote i (λ a, bool_decide (pd_rhash a = sha256 preimage)) ErrUnknownHtlcIndex
    ErrHtlcIndexAlreadySettled ErrInvalidSettlePreimage
    (λ a lc, resolution_descriptor Settle (pd_rhash a) preimage (pd_amount a) (pd_htlc_index a) Remote lc));
    [unfold receive_htlc_settle; resolution_shape|].
  intros a lc Hi Hok%bool_decide_eq_true. by split_and!.
Qed.

Lemma fail_htlc_as_grows lc0 ty i : ty = Fail ∨ ty = MalformedFail → grows lc0 (fail_htlc_as ty i).
Proof.
  intros Hty. apply (resolution_grows _ Local i (λ _, true) ErrUnknownHtlcIndex ErrHtlcIndexAlreadyFailed
    ErrHtlcIndexAlreadyFailed
    (λ a lc, resolution_descriptor ty (pd_rhash a) zero_hash (pd_amount a) i Local lc)); [unfold fail_htlc_as; resolution_shape|].
  intros a lc _ _. split_and!; try done; [split; [done|]; simpl; by destruct Hty as [-> | ->] |].
  unfold is_resolution. simpl. by destruct Hty as [-> | ->].
Qed.

Lemma receive_fail_htlc_grows lc0 i : grows lc0 (receive_fail_htlc i).
Proof.
  apply (resolution_grows _ Remote i (λ _, true) ErrUnknownHtlcIndex ErrHtlcIndexAlreadyFailed
    ErrHtlcIndexAlreadyFailed
    (λ a lc, resolution_descriptor Fail (pd_rhash a) zero_hash (pd_amount a) (pd_htlc_index a) Remote lc));
    [unfold receive_fail_htlc; resolution_shape|].
  intros a lc Hi _. by split_and!.
Qed.

(** ** The commitment dance *)

Section Dance.
Context {CL : ChannelLaws} (t n : Z).
Hypothesis Ht : in_u64 t.

(** The validated view pays its fee. *)
Lemma validate_fee_paid lc lc' w b :
  validate_commitment_sanity (dual_remote b) (dual_local b) w NoBuffer None None lc = (lc', Ok ()) →
  same_core lc' lc ∧ (chan_ok t n lc → chan_ok t n lc') ∧ fee_is_paid lc' w b.
Proof using HP CP t n.
  intros E. destruct (looks_keeps _ t n _ _ _ (looks_validate _ _ _ _ _ _) E) as [Hs Hk].
  split; [done|]. split; [done|]. destruct (validate_Ok _ _ _ _ _ E) as (acc & Hv & _ & _ & Hfee).
  exists acc. symmetry in Hs. destruct (view_same_core _ _ w _ _ _ _ Hs Hv) as [Hv' (E1 & E2 & E3 & E4)].
  split; [done|]. unfold payer_balance, view_fee in *. rewrite <-(core_chan_params _ _ Hs), <-E1, <-E2, <-E3.
  apply (f_equal hv_fee_per_kw) in E4. cbn [core_view hv_fee_per_kw] in E4. by rewrite <-E4.
Qed.

(** A commitment that is validated and fetched extends its chain. *)
Lemma chan_ok_next lc lc1 lc2 w b oh th c :
  chan_ok t n lc →
  (∀ p, idx (tip (chain_of lc w)) p ≤ get_for_party b p ≤ ul_log_index (log_of lc p)) →
  (match w with
   | Local => dual_local b ≤ idx (tail (chain_of lc Remote)) Local
   | Remote => dual_remote b ≤ idx (tail (chain_of lc Local)) Remote
   end) →
  validate_commitment_sanity (dual_remote b) (dual_local b) w NoBuffer None None lc = (lc1, Ok ()) →
  fetch_commitment_view w (dual_local b) oh (dual_remote b) th lc1 = (lc2, Ok c) →
  chan_ok t n (set_chain w (add_commitment c (chain_of lc2 w)) lc2) ∧
  moves lc (set_chain w (add_commitment c (chain_of lc2 w)) lc2).
Proof.
  intros H Hb Ho Ev Ef. destruct (validate_fee_paid _ _ _ _ Ev) as (Hs & Hk & Hp).
  destruct (fetch_Ok _ _ _ _ _ _ _ Hp Ef) as (acc & Hf). split; cycle 1.
  { etrans; [eapply looks_moves; [apply looks_validate | exact Ev]|].
    etrans; [|apply moves_chain]. etrans; [|eapply moves_state, (fe_state _ _ _ _ _ _ Hf)].
    etrans; [apply moves_noops | apply moves_commit]. }
  eapply (chan_ok_extend t n lc1); [by apply Hk | exact Hf | | | done].
  - intros p. rewrite (core_chan_chains lc1 lc) by done. destruct (same_core_index _ _ p Hs) as [-> _]. apply Hb.
  - by destruct w; rewrite (core_chan_chains lc1 lc).
Qed.

Lemma chan_ok_own lc p q : chan_ok t n lc → idx (tail (chain_of lc p)) q ≤ ul_log_index (log_of lc q).
Proof.
  intros H. pose proof (chain_idx _ _ q (ck_chain _ _ _ H p) (tail_elem _)). pose proof (ck_own _ _ _ H p q). lia.
Qed.

Lemma sign_next_commitment_keeps lc lc' sigs :
  chan_ok t n lc → sign_next_commitment lc = (lc', Ok sigs) →
  chan_ok t n lc' ∧ moves lc lc'.
Proof using HP CP CL t n Ht.
  intros H E. unfold sign_next_commitment in E.
  apply bind_Ok in E as (lc1 & a & E1 & E). apply get_Ok in E1 as [-> ->].
  apply bind_Ok in E as (lc1 & [] & E1 & E). apply check_Ok in E1 as [_ ->].
  destruct (oc_remote_next_revocation _) as [point|]; [|done].
  apply bind_Ok in E as (lc1 & [] & Ev & E). apply bind_Ok in E as (lc2 & c & Ef & E).
  destruct (sign_commitment point c) as [s|]; [|done].
  apply bind_Ok in E as (lc3 & [] & E3 & E). apply modify_Ok in E3 as ->.
  apply bind_Ok in E as (lc4 & [] & E4 & E). apply modify_Ok in E4 as ->.
  apply ret_Ok in E as [_ ->].
  set (b := Dual (ul_log_index (log_of lc Local)) (idx (tail (chain_of lc Local)) Remote)).
  assert (chan_ok t n (set_chain Remote (add_commitment c (chain_of lc2 Remote)) lc2) ∧
          moves lc (set_chain Remote (add_commitment c (chain_of lc2 Remote)) lc2)) as [Hn Hm]; cycle 1.
  { split; [by eapply chan_ok_state | etrans; [exact Hm | by apply moves_state]]. }
  eapply (chan_ok_next lc lc1 lc2 Remote b); [done| | |exact Ev|exact Ef].
  - intros []; unfold b; cbn [get_for_party dual_local dual_remote].
    + pose proof (ck_own _ _ _ H Remote Local). lia.
    + pose proof (proj2 (ck_order _ _ _ H)). pose proof (chan_ok_own lc Local Remote H). lia.
  - done.
Qed.

Lemma receive_new_commitment_keeps lc lc' sigs :
  chan_ok t n lc → receive_new_commitment sigs lc = (lc', Ok ()) →
  chan_ok t n lc' ∧ moves lc lc'.
Proof using HP CP CL t n Ht.
  intros H E. unfold receive_new_commitment in E.
  apply bind_Ok in E as (lc1 & a & E1 & E). apply get_Ok in E1 as [-> ->].
  apply bind_Ok in E as (lc1 & [] & Ev & E).
  apply bind_Ok in E as (lc2 & secret & E2 & E). apply lift_Ok in E2 as [_ ->].
  apply bind_Ok in E as (lc2 & c & Ef & E).
  apply bind_Ok in E as (lc3 & [] & E3 & E). apply check_Ok in E3 as [_ ->].
  apply modify_Ok in E as ->.
  set (b := Dual (idx (tail (chain_of lc Remote)) Local) (ul_log_index (log_of lc Remote))).
  eapply (chan_ok_next lc lc1 lc2 Local b); [done| | |exact Ev|exact Ef].
  - intros []; unfold b; cbn [get_for_party dual_local dual_remote].
    + pose proof (proj1 (ck_order _ _ _ H)). pose proof (chan_ok_own lc Remote Local H). lia.
    + pose proof (ck_own _ _ _ H Local Remote). lia.
  - done.
Qed.

Lemma revoke_current_commitment_keeps lc lc' r :
  chan_ok t n lc → revoke_current_commitment lc = (lc', Ok r) →
  chan_ok t n lc' ∧ moves lc lc'.
Proof using HP CP t n.
  intros H E. unfold revoke_current_commitment in E.
  apply bind_Ok in E as (lc1 & a & E1 & E). apply get_Ok in E1 as [-> ->].
  apply bind_Ok in E as (lc1 & msg & E1 & E). apply lift_Ok in E1 as [_ ->].
  destruct (advance_tail _) as [s|] eqn:Ea; [|done].
  apply bind_Ok in E as (lc1 & [] & E1 & E). apply modify_Ok in E1 as ->.
  apply bind_Ok in E as (lc1 & a & E1 & E). apply get_Ok in E1 as [-> ->].
  destruct (update_commitment _ _ _) as [st final].
  apply bind_Ok in E as (lc1 & [] & E1 & E). apply modify_Ok in E1 as ->. apply ret_Ok in E as [_ ->].
  pose proof (chan_ok_advance t n lc Local s H Ea) as []. split; [by split|]. by intros [].
Qed.

(** The writes of [receive_revocation] after its checks. *)
Lemma chan_ok_revocation lc s forwarded st1 st2 :
  chan_ok t n lc → advance_tail (chain_of lc Remote) = Some s →
  let lc1 := set_log Remote (modify_nodes forwarded (set_pd_is_forwarded true) (log_of lc Remote))
               (set_channel_state st1 lc) in
  let lc2 := set_chain Remote s (set_channel_state st2 lc1) in
  ∃ u v, compact_logs (log_of lc2 Local) (log_of lc2 Remote) (cm_height (tail (chain_of lc Local)))
           (u64 (cm_height (tail (chain_of lc Remote)) + 1)) = Ok (u, v) ∧
    chan_ok t n (set_update_logs (Dual u v) lc2) ∧ moves lc (set_update_logs (Dual u v) lc2).
Proof using HP CP t n.
  intros H Ea lc1 lc2.
  assert (chan_ok t n lc1) as H1.
  { apply (chan_ok_write t n (set_channel_state st1 lc) Remote); [done | done |].
    by apply (chan_ok_state t n lc). }
  assert (chan_ok t n lc2) as H2.
  { apply chan_ok_advance; [|done]. by apply (chan_ok_state t n lc1). }
  destruct (chain_ok_advance _ _ (ck_chain _ _ _ H Remote) Ea) as (_ & _ & _ & Hh & _).
  destruct (chan_ok_compact t n lc2 H2) as (u & v & E & H3). exists u, v.
  split_and!; [|done|etrans; [|by eapply moves_compact]]; cycle 1.
  { etrans; [|apply moves_chain]. etrans; [|by apply moves_state].
    etrans; [by apply (moves_state lc (set_channel_state st1 lc))|]. by apply moves_set_log, after_modify. }
  rewrite <-E. f_equal.
  change (chain_of lc2 Remote) with s. rewrite Hh. apply u64_small.
  pose proof (cn_range _ (ck_chain _ _ _ H Remote) _ (tail_elem _)) as Hr. unfold in_u64.
  change max_state_hint with (2 ^ 48 - 1) in Hr. lia.
Qed.

(** An accepted revocation: what was checked, and what is written. *)
Record accepts_revocation (lc : channel) (msg : revoke_and_ack) (lc' : channel) (r : fwd_pkg * commitment)
    (next rev : bytes) (st : store) (st' : open_channel) (s : commitment_chain) (u v : update_log) : Prop := {
  rv_next : oc_remote_next_revocation (lc_channel_state lc) = Some next;
  rv_point : compute_commitment_point (ra_revocation msg) = oc_remote_current_revocation (lc_channel_state lc);
  rv_scalar : uses_independent_secrets lc = true →
    scalar_overflow (ra_revocation msg) = false ∧ scalar_is_zero (ra_revocation msg) = false;
  rv_hash : new_hash (ra_revocation msg) = Ok rev;
  rv_store : store_add_next_entry (oc_revocation_store (lc_channel_state lc)) rev = Ok st;
  rv_indexes : is_Some (find_output_indexes (lc_params lc) (oc_remote_commitment (lc_channel_state lc)) rev);
  rv_nonce : is_taproot (pr_chan_type (lc_params lc)) = true →
    is_ok (extract_revoke_and_ack_nonce msg (pr_funding_txid (lc_params lc))) = true;
  rv_record : advance_commit_chain_tail (pr_chan_type (lc_params lc))
    (unsigned_local_updates (dual_local (cm_message_indices (tip (chain_of lc Remote))))
       (dual_local (cm_message_indices (tail (chain_of lc Local)))) lc)
    (set_remote_revocations next (Some (ra_next_revocation_key msg)) st (lc_channel_state lc)) = Ok st';
  rv_chain : advance_tail (chain_of lc Remote) = Some s;
  rv_logs : let fwd := (List.filter (λ x, should_forward (u64 (cm_height (tail (chain_of lc Remote)) + 1))
                          (cm_height (tail (chain_of lc Local))) x.2) (ul_list (log_of lc Remote))).*1 in
    let lc1 := set_log Remote (modify_nodes fwd (set_pd_is_forwarded true) (log_of lc Remote))
                 (set_channel_state (set_remote_revocations next (Some (ra_next_revocation_key msg)) st
                    (lc_channel_state lc)) lc) in
    let lc2 := set_chain Remote s (set_channel_state st' lc1) in
    compact_logs (log_of lc2 Local) (log_of lc2 Remote) (cm_height (tail (chain_of lc Local)))
      (u64 (cm_height (tail (chain_of lc Remote)) + 1)) = Ok (u, v) ∧ lc' = set_update_logs (Dual u v) lc2;
  rv_commitment : r.2 = oc_remote_commitment st';
}.

Lemma receive_revocation_inv lc lc' msg r :
  receive_revocation msg lc = (lc', Ok r) →
  ∃ next rev st st' s u v, accepts_revocation lc msg lc' r next rev st st' s u v.
Proof using HP CP.
  intros E. unfold receive_revocation in E.
  apply bind_Ok in E as (lc1 & a & E1 & E). apply get_Ok in E1 as [-> ->].
  apply bind_Ok in E as (lc1 & [] & E1 & E). apply check_Ok in E1 as [_ ->].
  destruct (oc_remote_next_revocation _) as [next|] eqn:En; [|done].
  apply bind_Ok in E as (lc1 & [] & E1 & E). apply check_Ok in E1 as [Hp%bool_decide_eq_true ->].
  apply bind_Ok in E as (lc1 & [] & E1 & E). apply check_Ok in E1 as [Hs ->].
  apply bind_Ok in E as (lc1 & rev & E1 & E). apply lift_Ok in E1 as [Er ->].
  apply bind_Ok in E as (lc1 & st & E1 & E). apply lift_Ok in E1 as [Est ->].
  apply bind_Ok in E as (lc1 & [] & E1 & E). apply modify_Ok in E1 as ->.
  apply bind_Ok in E as (lc1 & [] & E1 & E). apply modify_Ok in E1 as ->.
  apply bind_Ok in E as (lc1 & a & E1 & E). apply get_Ok in E1 as [-> ->].
  apply bind_Ok in E as (lc1 & [] & E1 & E). apply check_Ok in E1 as [Hi%bool_decide_eq_true ->].
  apply bind_Ok in E as (lc1 & [] & E1 & E). apply check_Ok in E1 as [Hn ->].
  destruct (advance_commit_chain_tail _ _ _) as [st'|] eqn:Eadv; [|done].
  apply bind_Ok in E as (lc1 & [] & E1 & E). apply modify_Ok in E1 as ->.
  destruct (advance_tail _) as [s|] eqn:Ea; [|done].
  apply bind_Ok in E as (lc1 & [] & E1 & E). apply modify_Ok in E1 as ->.
  apply bind_Ok in E as (lc1 & a & E1 & E). apply get_Ok in E1 as [-> ->].
  apply bind_Ok in E as (lc1 & [u v] & E1 & E). apply lift_Ok in E1 as [Ec ->].
  apply bind_Ok in E as (lc1 & [] & E1 & E). apply modify_Ok in E1 as ->.
  apply bind_Ok in E as (lc1 & a & E1 & E). apply get_Ok in E1 as [-> ->]. apply ret_Ok in E as [-> ->].
  exists next, rev, st, st', s, u, v. split; try done.
  - intros Hu. rewrite Hu in Hs. simpl in Hs. apply negb_true_iff in Hs. by apply orb_false_iff in Hs.
  - by destruct (new_hash _); simplify_eq/=.
  - by destruct (store_add_next_entry _ _); simplify_eq/=.
  - intros Htap. change (lc_params (set_log _ _ _)) with (lc_params lc) in Hn. rewrite Htap in Hn. exact Hn.
  - cbv zeta. split; [|done]. match type of Ec with map_err _ ?x = _ => destruct x as [[u' v']|] eqn:E end; [|done].
    injection Ec as -> ->. exact E.
Qed.

Lemma receive_revocation_keeps lc lc' msg r :
  chan_ok t n lc → receive_revocation msg lc = (lc', Ok r) →
  chan_ok t n lc' ∧ moves lc lc'.
Proof using HP CP t n.
  intros H (next & rev & st & st' & s & u & v & [_ _ _ _ _ _ _ _ Ea [Ec ->] _])%receive_revocation_inv.
  set (fwd := (List.filter _ _).*1) in *.
  destruct (chan_ok_revocation lc s fwd
    (set_remote_revocations next (Some (ra_next_revocation_key msg)) st (lc_channel_state lc)) st' H Ea)
    as (u' & v' & Ec' & H').
  assert (Ok (E := log_error) (u', v') = Ok (u, v)) as [= -> ->]; [|exact H']. rewrite <-Ec'. exact Ec.
Qed.
End Dance.
End Methods.
