(* ===== verification/ChannelRun.v ===== *)
(** * Runs of a channel

    A node calls the methods of its channel one after the other, with whatever
    the peer sent and the switch asked for. This file states what every run of
    a new channel keeps. *)

From S2P Require Import Prelude Chainfee Shachain UpdateLog Channel ChannelToy ChannelLog ChannelView ChannelInv.
From S2P Require Import ChannelCommit ChannelAfter ChannelSteps.

Section Run.
Context {HP : HashPrims} {CP : ChannelPrims}.

(** ** Runs *)

Inductive channel_op :=
| OpAddHTLC (htlc : update_add_htlc)
| OpReceiveHTLC (htlc : update_add_htlc)
| OpMayAddOutgoingHtlc (amt : Z)
| OpAvailableBalance
| OpCommitFeeTotalAt (fee_per_kw : Z)
| OpSettleHTLC (preimage : bytes) (htlc_index : Z)
| OpReceiveHTLCSettle (preimage : bytes) (htlc_index : Z)
| OpFailHTLC (htlc_index : Z)
| OpMalformedFailHTLC (htlc_index : Z)
| OpReceiveFailHTLC (htlc_index : Z)
| OpUpdateFee (fee_per_kw : Z)
| OpReceiveUpdateFee (fee_per_kw : Z)
| OpSignNextCommitment
| OpReceiveNewCommitment (sigs : list bytes)
| OpRevokeCurrentCommitment
| OpReceiveRevocation (msg : revoke_and_ack).

(** A link ends with the first error of the four methods of the commitment
    dance, and goes on after the errors of the others. *)
Definition on_success {A} (r : channel * result channel_error A) : option channel :=
  match r with
  | (lc, Ok _) => Some lc
  | (_, Err _) => None
  end.

Definition run_op (op : channel_op) (lc : channel) : option channel :=
  match op with
  | OpAddHTLC htlc => Some (add_htlc htlc lc).1
  | OpReceiveHTLC htlc => Some (receive_htlc htlc lc).1
  | OpMayAddOutgoingHtlc amt => Some (may_add_outgoing_htlc amt lc).1
  | OpAvailableBalance => Some (available_balance FeeBuffer lc).1
  | OpCommitFeeTotalAt rate => Some (commit_fee_total_at rate lc).1
  | OpSettleHTLC preimage i => Some (settle_htlc preimage i lc).1
  | OpReceiveHTLCSettle preimage i => Some (receive_htlc_settle preimage i lc).1
  | OpFailHTLC i => Some (fail_htlc i lc).1
  | OpMalformedFailHTLC i => Some (malformed_fail_htlc i lc).1
  | OpReceiveFailHTLC i => Some (receive_fail_htlc i lc).1
  | OpUpdateFee rate => Some (update_fee rate lc).1
  | OpReceiveUpdateFee rate => Some (receive_update_fee rate lc).1
  | OpSignNextCommitment => on_success (sign_next_commitment lc)
  | OpReceiveNewCommitment sigs => on_success (receive_new_commitment sigs lc)
  | OpRevokeCurrentCommitment => on_success (revoke_current_commitment lc)
  | OpReceiveRevocation msg => on_success (receive_revocation msg lc)
  end.

Fixpoint run_ops (ops : list channel_op) (lc : channel) : option channel :=
  match ops with
  | [] => Some lc
  | op :: ops => run_op op lc ≫= run_ops ops
  end.

(** Amounts are 64-bit integers. *)
Definition op_ok (op : channel_op) : Prop :=
  match op with
  | OpAddHTLC htlc | OpReceiveHTLC htlc => in_u64 (uah_amount htlc)
  | _ => True
  end.

(** A channel that was just opened. *)
Record fresh_commitment (t : Z) (c : commitment) : Prop := {
  fc_height : cm_height c = 0;
  fc_indices : cm_message_indices c = Dual 0 0;
  fc_htlcs : cm_outgoing c = [] ∧ cm_incoming c = [];
  fc_balances : 0 ≤ cm_our_balance c < 2 ^ 63 ∧ 0 ≤ cm_their_balance c < 2 ^ 63;
  fc_fee : 0 ≤ cm_fee c ∧ 1000 * cm_fee c < 2 ^ 63;
  fc_total : cm_our_balance c + cm_their_balance c + 1000 * cm_fee c = t;
}.

Record fresh_channel (t : Z) (lc : channel) : Prop := {
  fr_logs : lc_update_logs lc = Dual (new_update_log 0 0) (new_update_log 0 0);
  fr_chain w : rest (chain_of lc w) = [];
  fr_tail w : fresh_commitment t (tail (chain_of lc w));
  fr_height : lc_current_height lc = 0;
  fr_local : oc_local_commitment (lc_channel_state lc) = tail (chain_of lc Local);
  fr_remote : oc_remote_commitment (lc_channel_state lc) = tail (chain_of lc Remote);
  fr_diff : oc_commit_diff (lc_channel_state lc) = None;
}.

Lemma fresh_chan_ok t lc : fresh_channel t lc → chan_ok t 0 lc.
Proof.
  intros [Hlogs Hch Htl _ _ _ _].
  assert (∀ p, log_of lc p = new_update_log 0 0) as El by (intros p; unfold log_of; rewrite Hlogs; by destruct p).
  assert (∀ w, chain_list (chain_of lc w) = [tail (chain_of lc w)]) as Ec by (intros w; unfold chain_list; by rewrite Hch).
  assert (∀ w, tip (chain_of lc w) = tail (chain_of lc w)) as Et by (intros w; unfold tip; by rewrite Hch).
  assert (∀ w p, idx (tail (chain_of lc w)) p = 0) as Ei.
  { intros w p. unfold idx. rewrite (fc_indices _ _ (Htl w)). by destruct p. }
  split.
  - rewrite !El. split; try by apply new_log_ok. all: split; by intros * ?%elem_of_nil.
  - intros p k pd. rewrite El. by intros ?%elem_of_nil.
  - intros p k pd. rewrite El. by intros ?%elem_of_nil.
  - intros p. by rewrite El.
  - intros w. split; rewrite Ec.
    + intros i c Hi. destruct i as [|i]; [|by destruct i]. injection Hi as <-. lia.
    + intros c ->%list_elem_of_singleton. rewrite (fc_height _ _ (Htl w)). done.
    + repeat constructor.
  - intros w p k pd. rewrite El. by intros ?%elem_of_nil.
  - intros w p k pd c. rewrite El. by intros ?%elem_of_nil.
  - rewrite !Et, !Ei. done.
  - intros w p. by rewrite Et, Ei, El.
  - intros w c. rewrite Ec, !El. intros ->%list_elem_of_singleton. destruct (fc_htlcs _ _ (Htl w)) as [Ho Hi].
    by split; rewrite ?Ho, ?Hi.
  - intros w c. rewrite Ec. intros ->%list_elem_of_singleton. destruct (Htl w) as [_ _ [Ho Hi] [] [] <-].
    assert (shared (tail (chain_of lc w)) = cm_our_balance (tail (chain_of lc w)) +
      cm_their_balance (tail (chain_of lc w)) + 1000 * cm_fee (tail (chain_of lc w))) as E.
    { unfold shared. rewrite Ho, Hi. simpl. lia. }
    split; try done. by rewrite E.
Qed.

Lemma grows_run {A} (m : M A) t n lc :
  grows lc m → chan_ok t n lc → n + 1 < 2 ^ 64 → chan_ok t (n + 1) (m lc).1 ∧ moves lc (m lc).1.
Proof. intros Hg H Hn. destruct (m lc) as [lc' r] eqn:E. by apply (Hg t n lc lc' r). Qed.

Section Keeps.
Context {CL : ChannelLaws} (t : Z).
Hypothesis Ht : in_u64 t.

Lemma keeps_run {A} (m : M A) n lc lc' :
  (∀ a, m lc = (lc', Ok a) → chan_ok t n lc' ∧ moves lc lc') → on_success (m lc) = Some lc' →
  chan_ok t (n + 1) lc' ∧ moves lc lc'.
Proof.
  unfold on_success. destruct (m lc) as [lc1 [a|]] eqn:E; [|done]. intros H [= <-].
  destruct (H a eq_refl) as [H1 H2]. split; [apply chan_ok_weaken with n; [done | lia] | done].
Qed.

Lemma run_op_ok op n lc lc' :
  chan_ok t n lc → op_ok op → n + 1 < 2 ^ 64 → run_op op lc = Some lc' →
  chan_ok t (n + 1) lc' ∧ moves lc lc'.
Proof using HP CP CL t Ht.
  intros H Hop Hn.
  destruct op; simpl; try (intros [= <-]; apply grows_run; [|done|done]).
  - by apply add_htlc_grows.
  - by apply receive_htlc_grows.
  - apply grows_looks, may_add_looks.
  - apply grows_looks, looks_available_balance.
  - apply grows_looks, commit_fee_total_looks.
  - apply settle_htlc_grows.
  - apply receive_htlc_settle_grows.
  - apply fail_htlc_as_grows. by left.
  - apply fail_htlc_as_grows. by right.
  - apply receive_fail_htlc_grows.
  - apply update_fee_grows.
  - apply receive_update_fee_grows.
  - apply keeps_run. intros a. by apply sign_next_commitment_keeps.
  - apply keeps_run. intros []. by apply receive_new_commitment_keeps.
  - apply keeps_run. intros a. by apply revoke_current_commitment_keeps.
  - apply keeps_run. intros a. by apply receive_revocation_keeps.
Qed.

(** ** What every run keeps *)

(** The channels that a run of fewer than 2^64 operations reaches. *)
Definition reachable (lc0 lc : channel) : Prop :=
  ∃ ops, Forall op_ok ops ∧ Z.of_nat (length ops) < 2 ^ 64 ∧ run_ops ops lc0 = Some lc.

Lemma run_ops_ok ops n lc lc' :
  chan_ok t n lc → Forall op_ok ops → n + Z.of_nat (length ops) < 2 ^ 64 → run_ops ops lc = Some lc' →
  chan_ok t (n + Z.of_nat (length ops)) lc' ∧ moves lc lc'.
Proof using HP CP CL t Ht.
  intros H Hops. revert n lc H. induction Hops as [|op ops Hop Hops IH]; intros n lc H Hn; cbn [run_ops length].
  - intros [= <-]. split; [by rewrite Z.add_0_r | done].
  - intros (lc1 & E1 & E)%bind_Some. cbn [length] in Hn.
    replace (n + Z.of_nat (S (length ops))) with (n + 1 + Z.of_nat (length ops)) by lia.
    destruct (run_op_ok op n lc lc1) as [H1 M1]; [done | done | lia | done|].
    destruct (IH (n + 1) lc1 H1) as [H2 M2]; [lia | done|]. split; [done | by etrans].
Qed.

Lemma run_reachable_ok lc0 lc : fresh_channel t lc0 → reachable lc0 lc → ∃ n, chan_ok t n lc ∧ n < 2 ^ 64.
Proof using HP CP CL t Ht.
  intros H0%fresh_chan_ok (ops & Hops & Hlen & E). exists (0 + Z.of_nat (length ops)).
  split; [|lia]. by apply (run_ops_ok ops 0 lc0 lc).
Qed.

(** C2: In every channel that a run of a new channel reaches, each unrevoked
    commitment of either chain shares out exactly the channel's funds: the two
    balances, neither of them negative, the fee that the opener pays and the
    HTLCs add up to the total of the opening - as 64-bit integers always, and
    as numbers when the fee rate and the dust limit have 32 bits and there are
    at most 2^20 HTLCs. No order of additions, settlements, failures, fee
    changes, signatures and revocations, valid or not, makes or loses money. *)
Theorem funds_conserved lc0 lc w c :
  fresh_channel t lc0 → reachable lc0 lc → c ∈ chain_list (chain_of lc w) →
  0 ≤ cm_our_balance c ∧ 0 ≤ cm_their_balance c ∧ 0 ≤ cm_fee c ∧
  shared c ≡₆₄ t ∧ (modest c → shared c = t).
Proof using HP CP CL t Ht.
  intros H0 Hr Hc. destruct (run_reachable_ok lc0 lc H0 Hr) as (n & H & _).
  destruct (ck_funds _ _ _ H w c Hc) as [[] [] [] ? ?]. done.
Qed.

(** C33: In every reachable channel each unrevoked commitment lists, for
    either party, exactly the HTLCs that this party added to its log below the
    commitment's index of that log and that the other party has not settled
    or failed below the commitment's index of its own log, with their amounts
    and in the order of the log - also after the logs were compacted. *)
Theorem commitments_reflect_logs lc0 lc w c p :
  fresh_channel t lc0 → reachable lc0 lc → c ∈ chain_list (chain_of lc w) →
  keys (htlcs_of c p) =
  keys (open_htlcs (log_of lc p) (log_of lc (counter_party p)) (idx c p) (idx c (counter_party p))).*2.
Proof using HP CP CL t Ht.
  intros H0 Hr Hc. destruct (run_reachable_ok lc0 lc H0 Hr) as (n & H & _).
  pose proof (ck_live _ _ _ H w c Hc) as Hl. by apply (reflects_party lc c p) in Hl as [? _].
Qed.

(** In the logs of every reachable channel, each settlement and each
    failure refers to an HTLC that the other party added and has the same
    amount, a settlement carries a preimage of the HTLC's payment hash, and no
    HTLC has two of them. *)
Theorem resolutions_are_sound lc0 lc p k r :
  fresh_channel t lc0 → reachable lc0 lc → (k, r) ∈ ul_list (log_of lc p) → is_resolution r = true →
  (∃ a, lookup_htlc (pd_parent_index r) (log_of lc (counter_party p)) = Some a ∧ is_add a = true ∧
     pd_amount a = pd_amount r ∧ (pd_entry_type r = Settle → pd_rhash a = sha256 (pd_rpreimage r))) ∧
  (∀ k' r', (k', r') ∈ ul_list (log_of lc p) → is_resolution r' = true →
     pd_parent_index r' = pd_parent_index r → (k', r') = (k, r)).
Proof using HP CP CL t Ht.
  intros H0 Hr Hin Hres. destruct (run_reachable_ok lc0 lc H0 Hr) as (n & H & _).
  pose proof (ck_logs _ _ _ H) as P%(pair_ok_party _ p). split.
  - destruct (co_parent _ _ (po_cross _ _ P) _ _ Hin Hres) as (m & a & Ha & Hadd & Hi & Hamt & Hpre).
    exists a. split_and!; try done. apply lookup_htlc_Some; [apply P|]. by exists m.
  - intros k' r' Hin' Hres' Hp. pose proof (co_once _ _ (po_cross _ _ P) _ _ _ _ Hin' Hin Hres' Hres Hp) as ->.
    by rewrite (nodup_fst_inj _ _ _ _ (lo_nodes _ (po_left _ _ P)) Hin' Hin).
Qed.

(** The methods that resolve an HTLC: who resolves it, and which. *)
Definition resolution_of (op : channel_op) : option (channel_party * Z * M ()) :=
  match op with
  | OpSettleHTLC preimage i => Some (Local, i, settle_htlc preimage i)
  | OpFailHTLC i => Some (Local, i, fail_htlc i)
  | OpMalformedFailHTLC i => Some (Local, i, malformed_fail_htlc i)
  | OpReceiveHTLCSettle preimage i => Some (Remote, i, receive_htlc_settle preimage i)
  | OpReceiveFailHTLC i => Some (Remote, i, receive_fail_htlc i)
  | _ => None
  end.

Lemma resolution_run op p i m lc : resolution_of op = Some (p, i, m) → run_op op lc = Some (m lc).1.
Proof. destruct op; simpl; try done; by intros [= _ _ <-]. Qed.

(** The common shape of these methods, on both outcomes of their look-ups. *)
Lemma resolution_shapes op p i m lc :
  resolution_of op = Some (p, i, m) →
  (∀ lc', m lc = (lc', Ok ()) →
     is_Some (lookup_htlc i (log_of lc (counter_party p))) ∧
     ∃ pd, append_resolution p pd i lc = (lc', Ok ())) ∧
  (lookup_htlc i (log_of lc (counter_party p)) = None ∨ htlc_has_modification i (log_of lc (counter_party p)) = true →
     ∃ e, m lc = (lc, Err e)).
Proof.
  intros Hop. destruct op; simpl in Hop; try done; injection Hop as <- <- <-;
    unfold settle_htlc, fail_htlc, malformed_fail_htlc, fail_htlc_as, receive_htlc_settle, receive_fail_htlc;
    unfold mbind, M_bind, get; cbv beta iota; cbn [counter_party];
    (destruct (lookup_htlc _ _) as [a|]; [|by split; [|eexists]]);
    unfold check, fail, mret, M_ret; (destruct (htlc_has_modification _ _); [by split; [|eexists]|]);
    cbn [negb]; try case_bool_decide; (split; [|by intros []]); try done; eauto.
Qed.

(** C3: In a run of a channel's methods, between two restarts, an HTLC is
    resolved once: after a node, or its peer, has settled or failed an HTLC, every
    later attempt by the same party to settle or fail the HTLC with that index is
    refused and changes nothing, whatever happened in between - also when
    compaction has removed the HTLC, whose index is not given out again. (A restart
    forgets a settlement that was not signed for, which can then be made again.) *)
Theorem resolved_once lc0 lc lc1 lc2 ops ops' op1 op2 m1 m2 p i :
  fresh_channel t lc0 → Forall op_ok ops → Forall op_ok ops' →
  Z.of_nat (length ops) + Z.of_nat (length ops') + 1 < 2 ^ 64 →
  run_ops ops lc0 = Some lc → resolution_of op1 = Some (p, i, m1) → m1 lc = (lc1, Ok ()) →
  run_ops ops' lc1 = Some lc2 → resolution_of op2 = Some (p, i, m2) →
  ∃ e, m2 lc2 = (lc2, Err e).
Proof using HP CP CL t Ht.
  intros H0%fresh_chan_ok Hops Hops' Hlen E0 Hop1 Em1 E2 Hop2.
  destruct (run_ops_ok ops 0 lc0 lc) as [H _]; [done | done | lia | done|].
  assert (run_op op1 lc = Some lc1) as E1 by by rewrite (resolution_run op1 p i m1), Em1.
  destruct (run_op_ok op1 _ lc lc1 H) as [H1 _]; [by destruct op1 | lia | done|].
  destruct (run_ops_ok ops' _ lc1 lc2 H1) as [H2 M2]; [done | lia | done|].
  destruct (proj1 (resolution_shapes op1 p i m1 lc Hop1) lc1 Em1) as [[a Ha] [pd [= <-]]].
  assert (spent i (log_of lc2 (counter_party p))) as [_ Hs].
  { eapply spent_after; [apply M2|]. rewrite log_of_set_same, log_of_set_other.
    apply lookup_htlc_Some in Ha as (k & Hin & Hadd & Hi); [|by eapply pair_log_ok, ck_logs]. split.
    - rewrite <-Hi. by apply (lo_htlc_bound _ (pair_log_ok lc _ (ck_logs _ _ _ H)) k).
    - intros k' a' _ _ _. simpl. set_solver. }
  apply (proj2 (resolution_shapes op2 p i m2 lc2 Hop2)).
  destruct (lookup_htlc i (log_of lc2 _)) as [b|] eqn:E; [right | by left].
  apply lookup_htlc_Some in E as (k & Hin & Hadd & Hi); [|by eapply pair_log_ok, ck_logs].
  apply bool_decide_eq_true. exact (Hs k b Hin Hadd Hi).
Qed.
End Keeps.
End Run.

(** ** A run *)

#[export] Instance toy_channel_laws : ChannelLaws.
Proof.
  split. intros txn [Ho Hs%Z.leb_le]%andb_true_iff. split; [|exact Hs].
  pose proof (proj1 (forallb_forall _ _) Ho) as Hall. apply Forall_forall. intros o Hin%list_elem_of_In.
  apply Hall in Hin as [? _]%andb_true_iff. by apply Z.leb_le.
Defined.

Lemma toy_fresh opener : fresh_channel 999340000 (toy_channel opener).
Proof. split; try done; intros []; try done; by destruct opener. Defined.

Lemma toy_total : in_u64 999340000.
Proof. done. Defined.

Definition toy_ops : list channel_op :=
  [OpAddHTLC toy_add; OpSignNextCommitment; OpReceiveRevocation (RevokeAndAck (toy_secret 0) (toy_secret 2) None None);
   OpReceiveNewCommitment toy_sigs; OpRevokeCurrentCommitment; OpReceiveHTLCSettle toy_htlc_preimage 0].

Definition toy_after : channel := default (toy_channel true) (run_ops toy_ops (toy_channel true)).

Lemma toy_reachable : reachable (toy_channel true) toy_after.
Proof.
  exists toy_ops. split_and!; [repeat constructor; done | done |]. vm_compute. reflexivity.
Defined.

(** The peer takes the HTLC, and settles it. *)
Definition toy_take_ops : list channel_op := [OpReceiveHTLC toy_add].
Definition toy_taken : channel := default (toy_channel false) (run_ops toy_take_ops (toy_channel false)).
Definition toy_settled : channel :=
  default (toy_channel false) (run_ops [OpReceiveHTLC toy_add] (settle_htlc toy_htlc_preimage 0 toy_taken).1).

Definition toy_commit : commitment := tail (chain_of toy_after Remote).

Lemma funds_conserved_witness :
  reachable (toy_channel true) toy_after ∧ keys (cm_outgoing toy_commit) = [(0, 5000000)] ∧
  shared toy_commit = 999340000.
Proof.
  assert (modest toy_commit) as Hm by (vm_compute; repeat split; done).
  split_and!; [exact toy_reachable | vm_compute; reflexivity |].
  refine (proj2 (proj2 (proj2 (proj2 (funds_conserved 999340000 toy_total (toy_channel true) toy_after Remote toy_commit
    (toy_fresh true) toy_reachable _)))) Hm). by left.
Defined.

Lemma commitments_reflect_logs_witness :
  keys (htlcs_of toy_commit Local) = [(0, 5000000)] ∧
  keys (open_htlcs (log_of toy_after Local) (log_of toy_after Remote) 1 0).*2 = [(0, 5000000)].
Proof.
  split; [vm_compute; reflexivity|].
  pose proof (commitments_reflect_logs 999340000 toy_total (toy_channel true) toy_after Remote
    toy_commit Local (toy_fresh true) toy_reachable ltac:(by left)) as E.
  vm_compute in E |- *. exact E.
Defined.

Lemma resolutions_are_sound_witness :
  ∃ k r, (k, r) ∈ ul_list (log_of toy_after Remote) ∧ pd_entry_type r = Settle ∧
    ∃ a, lookup_htlc (pd_parent_index r) (log_of toy_after Local) = Some a ∧
      pd_rhash a = sha256 (pd_rpreimage r).
Proof.
  assert (∃ k r, ul_list (log_of toy_after Remote) = [(k, r)] ∧ pd_entry_type r = Settle) as (k & r & E & Hs)
    by (vm_compute; eexists _, _; done).
  exists k, r. assert ((k, r) ∈ ul_list (log_of toy_after Remote)) as Hin by (rewrite E; by left).
  assert (is_resolution r = true) as Hr by (unfold is_resolution; by rewrite Hs).
  pose proof (resolutions_are_sound 999340000 toy_total (toy_channel true) toy_after Remote k r
    (toy_fresh true) toy_reachable Hin Hr) as [(a & Ha & _ & _ & Hp) _].
  split_and!; [done | done |]. exists a. split; [exact Ha | by apply Hp].
Defined.

Lemma resolved_once_witness :
  (settle_htlc toy_htlc_preimage 0 toy_taken).2 = Ok () ∧
  ∃ e, fail_htlc 0 toy_settled = (toy_settled, Err e).
Proof.
  split; [vm_compute; reflexivity|].
  eapply (resolved_once 999340000 toy_total (toy_channel false) toy_taken
    (settle_htlc toy_htlc_preimage 0 toy_taken).1 toy_settled toy_take_ops [OpReceiveHTLC toy_add]
    (OpSettleHTLC toy_htlc_preimage 0) (OpFailHTLC 0) _ _ Local 0);
    [exact (toy_fresh false) | repeat constructor; done | repeat constructor; done | done | vm_compute; reflexivity
    | reflexivity | vm_compute; reflexivity | vm_compute; reflexivity | reflexivity].
Defined.
