(* ===== verification/ChannelStill.v ===== *)
(** * What the methods do besides the logs

    All of a channel but its logs and its totals, and what each method makes of
    it: most leave it alone, and the four methods of the commitment dance
    change the chains and the record as written here. *)

From S2P Require Import Prelude Chainfee Shachain UpdateLog Channel ChannelLog ChannelView ChannelInv.
From S2P Require Import ChannelCommit ChannelAfter ChannelSteps ChannelRun.

Section Still.
Context {HP : HashPrims} {CP : ChannelPrims}.

Definition zero_totals (s : open_channel) : open_channel :=
  OpenChannel (oc_local_commitment s) (oc_remote_commitment s) 0 0 (oc_remote_current_revocation s)
    (oc_remote_next_revocation s) (oc_revocation_store s) (oc_revocation_producer s) (oc_commit_diff s)
    (oc_unsigned_acked_updates s) (oc_remote_unsigned_local_updates s) (oc_last_was_revoke s).

Definition still (lc : channel) : channel_params * open_channel * Z * dual commitment_chain :=
  (lc_params lc, zero_totals (lc_channel_state lc), lc_current_height lc, lc_commit_chains lc).

(** What can be read off. *)
Lemma still_params lc lc' : still lc' = still lc → lc_params lc' = lc_params lc.
Proof. intros E. exact (f_equal (λ x, x.1.1.1) E). Qed.
Lemma still_chain lc lc' w : still lc' = still lc → chain_of lc' w = chain_of lc w.
Proof. intros E. unfold chain_of. by rewrite (f_equal snd E : lc_commit_chains lc' = lc_commit_chains lc). Qed.
Lemma still_state lc lc' : still lc' = still lc → zero_totals (lc_channel_state lc') = zero_totals (lc_channel_state lc).
Proof. intros E. exact (f_equal (λ x, x.1.1.2) E). Qed.

Lemma zero_append d s : zero_totals (append_remote_commit_chain d s) = append_remote_commit_chain d (zero_totals s).
Proof. done. Qed.

(** ** Methods that leave it alone *)

Definition steady {A} (m : M A) : Prop := ∀ lc, still (m lc).1 = still lc.

Lemma steady_bind {A B} (m : M A) (k : A → M B) : steady m → (∀ a, steady (k a)) → steady (m ≫= k).
Proof.
  intros Hm Hk lc. unfold mbind, M_bind. specialize (Hm lc). destruct (m lc) as [lc1 [a|e]]; [|done].
  by rewrite Hk.
Qed.
Lemma steady_modify f : (∀ lc, still (f lc) = still lc) → steady (modify f).
Proof. intros Hf lc. apply Hf. Qed.
Lemma steady_check b e : steady (check b e).
Proof. by destruct b. Qed.
Lemma steady_at {A} (m : M A) lc lc' r : steady m → m lc = (lc', r) → still lc' = still lc.
Proof. intros Hm E. specialize (Hm lc). by rewrite E in Hm. Qed.

Lemma still_settlements w ns l lc : still (record_settlements w ns l lc) = still lc.
Proof.
  assert (∀ p (l : list entry) lc,
    still (foldl (λ lc x, record_settlement p (pd_amount x.2) lc) lc l) = still lc) as Hf.
  { clear. intros p l. induction l as [|x l IH]; intros lc; simpl; [done|]. rewrite IH. by destruct p. }
  destruct w; [|done]. simpl. by rewrite !Hf.
Qed.

Lemma steady_compute v w b fee : steady (compute_view v w b fee).
Proof.
  apply steady_bind; [done|]. intros lc. cbv zeta. destruct (evaluate_htlc_view _ _ _ _) as [ns r].
  apply steady_bind; [by apply steady_modify|]. intros _. apply steady_bind; [done|]. intros e.
  apply steady_bind.
  - apply steady_modify. intros lc'. destruct b; [|done]. by rewrite still_settlements.
  - intros _. apply steady_bind; [apply steady_check|]. intros _. apply steady_bind; [apply steady_check|]. done.
Qed.

Create HintDb steady.
#[local] Hint Resolve steady_check steady_compute : steady.
#[local] Hint Extern 2 (steady _) => done : steady.
#[local] Hint Extern 3 (steady (modify _)) => (apply steady_modify; done) : steady.

Ltac steady_steps := repeat first [solve [auto with steady] | apply steady_bind; [|intros ?] | progress case_match].

Lemma steady_validate t o w b our their : steady (validate_commitment_sanity t o w b our their).
Proof. unfold validate_commitment_sanity. steady_steps. Qed.
Lemma steady_fetch w i j k l : steady (fetch_commitment_view w i j k l).
Proof. unfold fetch_commitment_view. steady_steps. Qed.
Lemma steady_available_commitment v w b : steady (available_commitment_balance v w b).
Proof.
  intros lc. unfold available_commitment_balance. pose proof (steady_compute v w false None lc) as Hq.
  destruct (compute_view v w false None lc) as [lc' [cv|e]]; [|done]. by repeat case_match.
Qed.
#[local] Hint Resolve steady_validate steady_fetch steady_available_commitment : steady.
Lemma steady_available b : steady (available_balance b).
Proof. unfold available_balance. steady_steps. Qed.
#[local] Hint Resolve steady_available : steady.

(** The methods of the commitment dance. *)
Definition dances (op : channel_op) : bool :=
  match op with
  | OpSignNextCommitment | OpReceiveNewCommitment _ | OpRevokeCurrentCommitment | OpReceiveRevocation _ => true
  | _ => false
  end.

Lemma still_run op lc lc' : dances op = false → run_op op lc = Some lc' → still lc' = still lc.
Proof.
  assert (∀ A (m : M A), steady m → Some (m lc).1 = Some lc' → still lc' = still lc) as Hg.
  { intros A m Hm [= <-]. apply Hm. }
  destruct (resolution_of op) as [[[p i] m]|] eqn:Eres.
  { rewrite (resolution_run op p i m lc Eres). intros _. apply Hg. destruct op; simpl in Eres; try done; injection Eres as <- <- <-;
      unfold settle_htlc, fail_htlc, malformed_fail_htlc, fail_htlc_as, receive_htlc_settle, receive_fail_htlc,
        append_resolution; steady_steps. }
  destruct op; simpl in Eres |- *; try done; intros _; apply Hg.
  - unfold add_htlc, add_htlc_buffer, validate_add_htlc. steady_steps.
  - unfold receive_htlc. steady_steps.
  - unfold may_add_outgoing_htlc, validate_add_htlc. steady_steps.
  - steady_steps.
  - unfold commit_fee_total_at. steady_steps.
  - unfold update_fee, validate_fee_rate. steady_steps.
  - unfold receive_update_fee. steady_steps.
Qed.

(** ** The dance *)

Lemma sign_still lc lc' sigs : sign_next_commitment lc = (lc', Ok sigs) →
  rest (chain_of lc Remote) = [] ∧ ∃ c l,
  still lc' = still (set_channel_state (append_remote_commit_chain (CommitDiff c sigs l) (lc_channel_state lc))
                       (set_chain Remote (add_commitment c (chain_of lc Remote)) lc)).
Proof.
  intros E. unfold sign_next_commitment in E.
  apply bind_Ok in E as (lc1 & a & E1 & E). apply get_Ok in E1 as [-> ->].
  apply bind_Ok in E as (lc1 & [] & E1 & E). apply check_Ok in E1 as [Hun ->].
  split; [unfold has_unacked_commitment in Hun; by destruct (rest _)|].
  destruct (oc_remote_next_revocation _) as [point|]; [|done].
  apply bind_Ok in E as (lc1 & [] & Ev & E). apply bind_Ok in E as (lc2 & c & Ef & E).
  destruct (sign_commitment point c) as [s|]; [|done].
  apply bind_Ok in E as (lc3 & [] & E3 & E). apply modify_Ok in E3 as ->.
  apply bind_Ok in E as (lc4 & [] & E4 & E). apply modify_Ok in E4 as ->.
  apply ret_Ok in E as [-> ->].
  assert (still lc2 = still lc) as Es.
  { rewrite (steady_at _ _ _ _ (steady_fetch _ _ _ _ _) Ef). exact (steady_at _ _ _ _ (steady_validate _ _ _ _ _ _) Ev). }
  exists c, (cd_log_updates (create_commit_diff c s lc2)).
  pose proof (still_state _ _ Es) as Est. pose proof (still_chain _ _ Remote Es) as Ec.
  pose proof (f_equal (λ x, x.1.1.1) Es) as Ep. pose proof (f_equal (λ x, x.1.2) Es) as Eh. pose proof (f_equal snd Es) as Ech.
  unfold still in Ep, Eh, Ech. cbn [fst snd] in Ep, Eh, Ech.
  unfold still. cbn [lc_params lc_channel_state lc_current_height lc_commit_chains set_chain set_commit_chains set_channel_state].
  change (chain_of (set_channel_state _ lc2) Remote) with (chain_of lc2 Remote).
  by rewrite Ep, Eh, Ech, Ec, !zero_append, Est.
Qed.

Lemma sign_fails_still lc lc' e : sign_next_commitment lc = (lc', Err e) → still lc' = still lc.
Proof.
  assert (∀ A B (m : M A) (k : A → M B) lc, steady m → (∀ a lc1, m lc = (lc1, Ok a) → ∀ lc' e, k a lc1 = (lc', Err e) → still lc' = still lc1) →
    ∀ lc' e, (m ≫= k) lc = (lc', Err e) → still lc' = still lc) as Hb.
  { clear. intros A B m k lc Hm Hk lc' e. unfold mbind, M_bind. pose proof (Hm lc) as Hs.
    destruct (m lc) as [lc1 [a|e1]] eqn:Em; [|by intros [= <- <-]]. intros E. rewrite (Hk a lc1 eq_refl lc' e E). exact Hs. }
  revert lc' e. unfold sign_next_commitment. apply Hb; [done|]. intros a lc1 [= <- <-].
  apply Hb; [apply steady_check|]. intros [] lc1 _. destruct (oc_remote_next_revocation _) as [point|]; [|by intros ? ? [= <- _]].
  apply Hb; [apply steady_validate|]. intros [] lc2 _. apply Hb; [apply steady_fetch|]. intros c lc3 _.
  destruct (sign_commitment point c); [done | by intros ? ? [= <- _]].
Qed.

Lemma receive_commitment_still lc lc' sigs : receive_new_commitment sigs lc = (lc', Ok ()) →
  ∃ c, still lc' = still (set_chain Local (add_commitment c (chain_of lc Local)) lc).
Proof.
  intros E. unfold receive_new_commitment in E.
  apply bind_Ok in E as (lc1 & a & E1 & E). apply get_Ok in E1 as [-> ->].
  apply bind_Ok in E as (lc1 & [] & Ev & E).
  apply bind_Ok in E as (lc2 & secret & E2 & E). apply lift_Ok in E2 as [_ ->].
  apply bind_Ok in E as (lc2 & c & Ef & E).
  apply bind_Ok in E as (lc3 & [] & E3 & E). apply check_Ok in E3 as [_ ->].
  apply modify_Ok in E as ->. exists c.
  assert (still lc2 = still lc) as Es.
  { rewrite (steady_at _ _ _ _ (steady_fetch _ _ _ _ _) Ef). exact (steady_at _ _ _ _ (steady_validate _ _ _ _ _ _) Ev). }
  rewrite (still_chain _ _ Local Es). unfold still in *.
  cbn [lc_params lc_channel_state lc_current_height lc_commit_chains set_chain set_commit_chains].
  pose proof (f_equal (λ x, x.1.1.1) Es) as Ep. pose proof (f_equal (λ x, x.1.1.2) Es) as Est.
  pose proof (f_equal (λ x, x.1.2) Es) as Eh. pose proof (f_equal snd Es) as Ech. cbn [fst snd] in *.
  by rewrite Ep, Est, Eh, Ech.
Qed.

Lemma revoke_still lc lc' r : revoke_current_commitment lc = (lc', Ok r) →
  generate_revocation (lc_current_height lc) lc = Ok r.1.1 ∧
  ∃ s l, advance_tail (chain_of lc Local) = Some s ∧
  still lc' = still (set_channel_state (update_commitment (tail s) l (lc_channel_state lc)).1
                (set_current_height (u64 (lc_current_height lc + 1)) (set_chain Local s lc))).
Proof.
  intros E. unfold revoke_current_commitment in E.
  apply bind_Ok in E as (lc1 & a & E1 & E). apply get_Ok in E1 as [-> ->].
  apply bind_Ok in E as (lc1 & msg & E1 & E). apply lift_Ok in E1 as [Eg ->].
  destruct (advance_tail _) as [s|] eqn:Ea; [|done].
  apply bind_Ok in E as (lc1 & [] & E1 & E). apply modify_Ok in E1 as ->.
  apply bind_Ok in E as (lc1 & a & E1 & E). apply get_Ok in E1 as [-> ->].
  destruct (update_commitment _ _ _) as [st final] eqn:Eu.
  apply bind_Ok in E as (lc1 & [] & E1 & E). apply modify_Ok in E1 as ->. apply ret_Ok in E as [-> ->].
  split; [done|]. exists s, (get_unsigned_acked_updates (set_current_height (u64 (lc_current_height lc + 1)) (set_chain Local s lc))).
  split; [done|]. unfold still. do 3 f_equal. simpl. change (lc_channel_state (set_current_height _ _)) with (lc_channel_state lc) in Eu.
  unfold update_commitment in *. simpl. by injection Eu as <- _.
Qed.

Lemma revocation_still lc lc' msg r : receive_revocation msg lc = (lc', Ok r) →
  ∃ next rev st s st', oc_remote_next_revocation (lc_channel_state lc) = Some next ∧
    compute_commitment_point (ra_revocation msg) = oc_remote_current_revocation (lc_channel_state lc) ∧
    new_hash (ra_revocation msg) = Ok rev ∧ store_add_next_entry (oc_revocation_store (lc_channel_state lc)) rev = Ok st ∧
    advance_tail (chain_of lc Remote) = Some s ∧
    still lc' = still (set_channel_state (set_remote_revocations next (Some (ra_next_revocation_key msg)) st st') (set_chain Remote s lc)) ∧
    oc_revocation_producer st' = oc_revocation_producer (lc_channel_state lc) ∧
    oc_last_was_revoke st' = oc_last_was_revoke (lc_channel_state lc) ∧ oc_commit_diff st' = None.
Proof.
  intros (next & rev & st & st' & s & u & v & [En Hp _ Eh Est _ _ Eadv Ea [_ ->] _])%receive_revocation_inv.
  unfold advance_commit_chain_tail in Eadv. cbn [set_remote_revocations oc_commit_diff] in Eadv.
  destruct (oc_commit_diff (lc_channel_state lc)) as [d|]; [|done].
  apply rbind_Ok in Eadv as (sec & _ & Eadv). injection Eadv as <-.
  eexists next, rev, st, s, _. split_and!; done.
Qed.
End Still.
