(* ===== verification/ChannelDb.v ===== *)
(** * The channel's record and its revocations

    The record in the database holds what the chains in memory hold, so a
    valid revocation is always accepted, and the secrets that a node reveals
    are those of commitments it has given up. *)

From S2P Require Import Prelude Chainfee Shachain UpdateLog Channel ChannelToy ChannelLog ChannelView ChannelInv.
From S2P Require Import ChannelCommit ChannelAfter ChannelSteps ChannelRun ChannelStill.

Section Db.
Context {HP : HashPrims} {CP : ChannelPrims}.

(** ** The record and the chains *)

Record db_ok (lc : channel) : Prop := {
  db_height : lc_current_height lc = cm_height (tail (chain_of lc Local));
  db_local : oc_local_commitment (lc_channel_state lc) = tail (chain_of lc Local);
  db_remote : oc_remote_commitment (lc_channel_state lc) = tail (chain_of lc Remote);
  db_pending : rest (chain_of lc Remote) =
    match oc_commit_diff (lc_channel_state lc) with None => [] | Some d => [cd_commitment d] end;
}.

(** A store that is no shachain has a secret for every revoked commitment of
    the peer. *)
Definition counted (lc : channel) : Prop :=
  uses_independent_secrets lc = true →
  ∃ st, oc_revocation_store (lc_channel_state lc) = StIndependent st ∧ num_entries st = cm_height (tail (chain_of lc Remote)).

Lemma db_ok_still lc lc' : still lc' = still lc → db_ok lc → db_ok lc'.
Proof.
  intros E [H1 H2 H3 H4]. pose proof (still_state _ _ E) as Es. pose proof (f_equal (λ x, x.1.2) E) as Eh.
  pose proof (f_equal oc_local_commitment Es) as El. pose proof (f_equal oc_remote_commitment Es) as Er.
  pose proof (f_equal oc_commit_diff Es) as Ed. unfold still in Eh. simpl in *.
  split; rewrite ?(still_chain _ _ _ E), ?El, ?Er, ?Ed; congruence.
Qed.

Lemma counted_same lc lc' : lc_params lc' = lc_params lc →
  oc_revocation_store (lc_channel_state lc') = oc_revocation_store (lc_channel_state lc) →
  cm_height (tail (chain_of lc' Remote)) = cm_height (tail (chain_of lc Remote)) → counted lc → counted lc'.
Proof. unfold counted, uses_independent_secrets, state_uses_independent_secrets. by intros -> -> ->. Qed.

Lemma counted_still lc lc' : still lc' = still lc → counted lc → counted lc'.
Proof.
  intros E. apply counted_same; [by apply still_params | | by rewrite (still_chain _ _ _ E)].
  exact (f_equal oc_revocation_store (still_state _ _ E)).
Qed.

Lemma sign_db lc lc' sigs : db_ok lc → sign_next_commitment lc = (lc', Ok sigs) → db_ok lc'.
Proof.
  intros [H1 H2 H3 H4] (Hr & c & l & E)%sign_still. apply (db_ok_still _ _ E).
  split; try done. change (rest (chain_of lc Remote) ++ [c] = [c]). by rewrite Hr.
Qed.

Lemma receive_commitment_db lc lc' sigs : db_ok lc → receive_new_commitment sigs lc = (lc', Ok ()) → db_ok lc'.
Proof. intros [H1 H2 H3 H4] (c & E)%receive_commitment_still. apply (db_ok_still _ _ E). by split. Qed.

(** What a revocation returns. *)
Lemma revoke_Ok lc lc' msg c final :
  revoke_current_commitment lc = (lc', Ok (msg, c, final)) →
  generate_revocation (lc_current_height lc) lc = Ok msg ∧
  ∃ s, advance_tail (chain_of lc Local) = Some s ∧ chain_of lc' Local = s ∧ c = tail s ∧
    chain_of lc' Remote = chain_of lc Remote ∧ lc_current_height lc' = u64 (lc_current_height lc + 1) ∧
    oc_local_commitment (lc_channel_state lc') = tail s ∧
    oc_remote_commitment (lc_channel_state lc') = oc_remote_commitment (lc_channel_state lc) ∧
    oc_commit_diff (lc_channel_state lc') = oc_commit_diff (lc_channel_state lc).
Proof.
  intros E. unfold revoke_current_commitment in E.
  apply bind_Ok in E as (lc1 & a & E1 & E). apply get_Ok in E1 as [-> ->].
  apply bind_Ok in E as (lc1 & msg' & E1 & E). apply lift_Ok in E1 as [Eg ->].
  destruct (advance_tail _) as [s|] eqn:Ea; [|done].
  apply bind_Ok in E as (lc1 & [] & E1 & E). apply modify_Ok in E1 as ->.
  apply bind_Ok in E as (lc1 & a & E1 & E). apply get_Ok in E1 as [-> ->].
  destruct (update_commitment _ _ _) as [st fin] eqn:Eu.
  apply bind_Ok in E as (lc1 & [] & E1 & E). apply modify_Ok in E1 as ->. apply ret_Ok in E as [[= -> -> ->] ->].
  split; [done|]. exists s. unfold update_commitment in Eu. by injection Eu as <- _.
Qed.

Lemma revoke_db t n lc lc' r :
  chan_ok t n lc → db_ok lc → revoke_current_commitment lc = (lc', Ok r) → db_ok lc'.
Proof.
  intros Hc [H1 H2 H3 H4] E. destruct r as [[msg c] final].
  apply revoke_Ok in E as (_ & s & Ea & Es & -> & Er & Eh & El & Ere & Ed).
  destruct (chain_ok_advance _ _ (ck_chain _ _ _ Hc Local) Ea) as (Hs & _ & _ & Hh & _).
  split; rewrite ?Es, ?Er, ?Ed; try congruence.
  rewrite Eh, H1, Hh. apply u64_small. pose proof (cn_range _ Hs _ (tail_elem _)) as Hr.
  rewrite Hh in Hr. change max_state_hint with (2 ^ 48 - 1) in Hr.
  pose proof (cn_range _ (ck_chain _ _ _ Hc Local) _ (tail_elem _)). unfold in_u64. lia.
Qed.

(** A revocation that passes the checks ends without an error. *)
Record good_revocation (msg : revoke_and_ack) (next : bytes) (st : store) (lc : channel) : Prop := {
  gr_next : oc_remote_next_revocation (lc_channel_state lc) = Some next;
  gr_point : compute_commitment_point (ra_revocation msg) = oc_remote_current_revocation (lc_channel_state lc);
  gr_scalar : uses_independent_secrets lc = true →
    scalar_overflow (ra_revocation msg) = false ∧ scalar_is_zero (ra_revocation msg) = false;
  gr_store : ∃ h, new_hash (ra_revocation msg) = Ok h ∧
    store_add_next_entry (oc_revocation_store (lc_channel_state lc)) h = Ok st ∧
    is_Some (find_output_indexes (lc_params lc) (oc_remote_commitment (lc_channel_state lc)) h);
  gr_nonce : is_taproot (pr_chan_type (lc_params lc)) = true →
    is_ok (extract_revoke_and_ack_nonce msg (pr_funding_txid (lc_params lc))) = true;
}.

Lemma check_true b e : b = true → check b e = mret ().
Proof. by intros ->. Qed.

(** Secrets do not change the kind of store. *)
Lemma added_secret_kind lc lc' h st :
  store_add_next_entry (oc_revocation_store (lc_channel_state lc)) h = Ok st →
  lc_params lc' = lc_params lc → oc_revocation_store (lc_channel_state lc') = st →
  uses_independent_secrets lc' = uses_independent_secrets lc.
Proof.
  unfold uses_independent_secrets, state_uses_independent_secrets. intros Ha -> ->. f_equal.
  destruct (oc_revocation_store (lc_channel_state lc)); simpl in Ha; [apply rbind_Ok in Ha as (s1 & _ & Ha)|]; by injection Ha as <-.
Qed.

(** The secret that was added last is the one to log. *)
Lemma added_secret_is_logged lc h st next key :
  counted lc → oc_remote_commitment (lc_channel_state lc) = tail (chain_of lc Remote) →
  0 ≤ cm_height (tail (chain_of lc Remote)) ≤ max_state_hint →
  store_add_next_entry (oc_revocation_store (lc_channel_state lc)) h = Ok st →
  ∃ x, revoked_commit_secret (pr_chan_type (lc_params lc)) (set_remote_revocations next key st (lc_channel_state lc)) = Ok x.
Proof.
  intros Hcnt Er Hh Ha. unfold revoked_commit_secret. change max_state_hint with (2 ^ 48 - 1) in Hh.
  destruct (uses_independent_secrets lc) eqn:Eu.
  - destruct (Hcnt Eu) as (st0 & Est & En). rewrite Est in Ha. injection Ha as <-.
    unfold state_uses_independent_secrets. cbn [set_remote_revocations oc_revocation_store oc_remote_commitment store_look_up].
    rewrite orb_true_r, Er. unfold ind_look_up. cbn [num_entries latest]. rewrite En.
    rewrite !u64_small, Z.add_simpl_r by in_range. rewrite Z.eqb_refl, Z.geb_leb.
    rewrite (proj2 (Z.eqb_neq _ 0)), (proj2 (Z.leb_gt _ _)) by lia. simpl. rewrite Z.eqb_refl. by eexists.
  - pose proof (added_secret_kind lc (set_channel_state (set_remote_revocations next key st (lc_channel_state lc)) lc) h st
      Ha eq_refl eq_refl) as E. rewrite Eu in E. unfold uses_independent_secrets in E. simpl in E. rewrite E.
    by eexists.
Qed.

Lemma receive_revocation_runs t n lc msg next st d :
  chan_ok t n lc → db_ok lc → counted lc → oc_commit_diff (lc_channel_state lc) = Some d → good_revocation msg next st lc →
  ∃ pkg lc', receive_revocation msg lc = (lc', Ok (pkg, cd_commitment d)) ∧ chain_of lc' Remote = Chain (cd_commitment d) [].
Proof.
  intros Hc H Hcnt Hd [Hn Hp Hi (h & Hh & Hst & Hidx) Hnonce].
  pose proof (db_pending _ H) as Hrest. rewrite Hd in Hrest.
  assert (advance_tail (chain_of lc Remote) = Some (Chain (cd_commitment d) [])) as Ea.
  { unfold advance_tail. by rewrite Hrest. }
  unfold receive_revocation, mbind, M_bind, get. cbv beta iota.
  rewrite (check_true (has_unacked_commitment _)) by (unfold has_unacked_commitment; by rewrite Hrest).
  cbv beta iota zeta delta [mret M_ret]. rewrite Hn.
  rewrite (check_true (bool_decide _)) by (by apply bool_decide_eq_true).
  cbv beta iota zeta delta [mret M_ret].
  rewrite check_true by (destruct (uses_independent_secrets lc); [|done]; by destruct Hi as [-> ->]).
  cbv beta iota zeta delta [mret M_ret lift modify]. rewrite Hh. cbn [map_err].
  rewrite Hst. cbn [map_err].
  set (st1 := set_remote_revocations _ _ _ _).
  set (fwd := (List.filter _ _).*1).
  change (lc_params (set_log Remote _ _)) with (lc_params lc).
  change (oc_remote_commitment (lc_channel_state (set_log Remote _ _))) with (oc_remote_commitment (lc_channel_state lc)).
  rewrite (check_true (bool_decide _)) by (by apply bool_decide_eq_true). cbv beta iota zeta delta [mret M_ret].
  rewrite check_true by (destruct (is_taproot _); [by apply Hnonce | done]). cbv beta iota zeta delta [mret M_ret].
  assert (∃ st2, advance_commit_chain_tail (pr_chan_type (lc_params lc))
    (unsigned_local_updates (dual_local (cm_message_indices (tip (chain_of lc Remote))))
       (dual_local (cm_message_indices (tail (chain_of lc Local)))) lc) st1 = Ok st2 ∧
    oc_remote_commitment st2 = cd_commitment d) as (st2 & Es & Er).
  { destruct (added_secret_is_logged lc h st next (Some (ra_next_revocation_key msg)) Hcnt (db_remote _ H)
      (cn_range _ (ck_chain _ _ _ Hc Remote) _ (tail_elem _)) Hst) as (x & Ex).
    unfold advance_commit_chain_tail. subst st1. rewrite Ex. cbn [set_remote_revocations oc_commit_diff]. rewrite Hd.
    by eexists. }
  destruct (chan_ok_revocation t n lc _ fwd st1 st2 Hc Ea) as (u & v & Ec & _).
  change (lc_channel_state (set_log Remote _ _)) with st1. rewrite Es.
  change (chain_of (set_log Remote _ _) Remote) with (chain_of lc Remote). rewrite Ea. cbv beta.
  set (cl := compact_logs _ _ _ _). assert (cl = Ok (u, v)) as -> by exact Ec. cbn [map_err].
  eexists _, _. split; [exact (f_equal (λ c, (_, Ok (_, c))) Er) | done].
Qed.

(** What an accepted revocation leaves. *)
Lemma receive_revocation_db t n lc lc' msg r :
  chan_ok t n lc → db_ok lc → receive_revocation msg lc = (lc', Ok r) → db_ok lc' ∧ (counted lc → counted lc').
Proof.
  intros Hc [H1 H2 H3 H4] (next & rev & st & st' & s & u & v & [_ _ _ _ Est _ _ Eadv Ea [_ ->] _])%receive_revocation_inv.
  unfold advance_commit_chain_tail in Eadv. cbn [set_remote_revocations oc_commit_diff] in Eadv.
  destruct (oc_commit_diff (lc_channel_state lc)) as [d|]; [|done].
  apply rbind_Ok in Eadv as (sec & Esec & Eadv). injection Eadv as <-.
  unfold advance_tail in Ea. rewrite H4 in Ea. injection Ea as <-.
  assert (cm_height (cd_commitment d) = cm_height (tail (chain_of lc Remote)) + 1) as Ehd.
  { apply (chain_ok_advance (chain_of lc Remote) (Chain (cd_commitment d) []) (ck_chain _ _ _ Hc Remote)).
    unfold advance_tail. by rewrite H4. }
  split; [by split|]. intros Hcnt Hu. erewrite (added_secret_kind lc) in Hu; [|exact Est | done | done].
  destruct (Hcnt Hu) as (st0 & Est0 & En). rewrite Est0 in Est. injection Est as <-.
  eexists. split; [done|]. change (cm_height (tail (chain_of _ Remote))) with (cm_height (cd_commitment d)). rewrite Ehd.
  simpl. rewrite En. apply u64_small. pose proof (cn_range _ (ck_chain _ _ _ Hc Remote) _ (tail_elem _)) as Hr.
  change max_state_hint with (2 ^ 48 - 1) in Hr. in_range.
Qed.

(** ** Runs *)

Section Runs.
Context {CL : ChannelLaws} (t : Z).
Hypothesis Ht : in_u64 t.

Lemma run_op_db op n lc lc' :
  chan_ok t n lc → db_ok lc → run_op op lc = Some lc' → db_ok lc' ∧ (counted lc → counted lc').
Proof using HP CP t.
  intros Hc H E. destruct (dances op) eqn:Ed; cycle 1.
  { pose proof (still_run op lc lc' Ed E) as Es. split; [by apply (db_ok_still lc) | by apply counted_still]. }
  destruct op; try done; cbn [run_op] in E; unfold on_success in E.
  - destruct (sign_next_commitment lc) as [lc1 [s|]] eqn:E1; [|done]. injection E as ->. split; [by eapply sign_db|].
    apply sign_still in E1 as (_ & c & l & E1). intros Hcnt. apply (counted_still _ _ E1). exact Hcnt.
  - destruct (receive_new_commitment sigs lc) as [lc1 [[]|]] eqn:E1; [|done]. injection E as ->.
    split; [by eapply receive_commitment_db|].
    apply receive_commitment_still in E1 as (c & E1). intros Hcnt. apply (counted_still _ _ E1). exact Hcnt.
  - destruct (revoke_current_commitment lc) as [lc1 [r|]] eqn:E1; [|done]. injection E as ->. split; [by eapply revoke_db|].
    apply revoke_still in E1 as (_ & s & l & _ & E1). intros Hcnt. apply (counted_still _ _ E1). exact Hcnt.
  - destruct (receive_revocation msg lc) as [lc1 [r|]] eqn:E1; [|done]. injection E as ->.
    by apply (receive_revocation_db t n lc lc' msg r).
Qed.

Lemma fresh_db lc : fresh_channel t lc → db_ok lc.
Proof.
  intros [_ Hch Htl Hh Hl Hr Hd]. split; try done.
  - by rewrite Hh, (fc_height _ _ (Htl Local)).
  - by rewrite Hd.
Qed.

(** The store that the opening of the channel makes. *)
Definition new_secrets (lc : channel) : Prop :=
  oc_revocation_store (lc_channel_state lc) = new_remote_secret_store (pr_chan_type (lc_params lc)).

Lemma fresh_counted lc : fresh_channel t lc → new_secrets lc → counted lc.
Proof.
  intros [_ _ Htl _ _ _ _] E. unfold counted, uses_independent_secrets, state_uses_independent_secrets. rewrite E.
  rewrite (fc_height _ _ (Htl Remote)). unfold new_remote_secret_store.
  destruct (has_independent_secrets _); [by eexists | done].
Qed.

Lemma reachable_db lc0 lc :
  fresh_channel t lc0 → reachable lc0 lc → db_ok lc ∧ (new_secrets lc0 → counted lc).
Proof using HP CP CL t Ht.
  intros H0 (ops & Hops & Hlen & E). pose proof (fresh_db _ H0) as Hd.
  assert (new_secrets lc0 → counted lc0) as Hs by by apply fresh_counted.
  revert Hs. generalize (new_secrets lc0). intros P Hs. apply fresh_chan_ok in H0.
  assert (0 + Z.of_nat (length ops) < 2 ^ 64) as Hn by lia. clear Hlen. revert lc0 H0 Hd Hs E Hn.
  generalize 0. induction Hops as [|op ops Hop Hops IH]; intros n lc0 H Hd Hs; cbn [run_ops length].
  - by intros [= <-].
  - intros (lc1 & E1 & E)%bind_Some Hn. destruct (run_op_db op n lc0 lc1 H Hd E1) as [Hd1 Hs1].
    apply (IH (n + 1) lc1); try done; [| |lia].
    + apply (run_op_ok t Ht op n lc0); try done. lia.
    + auto.
Qed.

(** In every channel that a run reaches, the record in the database and
    the chains in memory agree: the stored commitments are the oldest
    unrevoked ones, the current height is that of ours, and the commitment
    that waits to be sent again is the only one of the peer's chain that the
    peer has not acknowledged. A restart therefore finds the channel as it
    was left. *)
Theorem record_mirrors_chains lc0 lc :
  fresh_channel t lc0 → reachable lc0 lc →
  let s := lc_channel_state lc in
  lc_current_height lc = cm_height (tail (chain_of lc Local)) ∧
  oc_local_commitment s = tail (chain_of lc Local) ∧
  oc_remote_commitment s = tail (chain_of lc Remote) ∧
  rest (chain_of lc Remote) = match oc_commit_diff s with None => [] | Some d => [cd_commitment d] end.
Proof using HP CP CL t Ht. intros H0 Hr. by destruct (reachable_db lc0 lc H0 Hr) as [[] _]. Qed.

(** C34: The dance goes on: in a channel that started with an empty store of
    secrets, when the peer has a commitment to acknowledge, a revocation is
    accepted whose secret has the point of the peer's current commitment and
    fits the secrets seen so far, if the scripts of the revoked commitment can
    be made and, on a taproot channel, the message has the nonce for the
    funding transaction: compaction does not panic, the store has the secret
    for the revocation log, the new commitment becomes the peer's only one, and
    the window to sign the next is open. *)
Theorem valid_revocation_accepted lc0 lc msg next st :
  fresh_channel t lc0 → new_secrets lc0 → reachable lc0 lc →
  has_unacked_commitment (chain_of lc Remote) = true → good_revocation msg next st lc →
  ∃ pkg lc', receive_revocation msg lc = (lc', Ok (pkg, tip (chain_of lc Remote))) ∧
    tail (chain_of lc' Remote) = tip (chain_of lc Remote) ∧ has_unacked_commitment (chain_of lc' Remote) = false.
Proof using HP CP CL t Ht.
  intros H0 Hs Hr Hun Hg. destruct (reachable_db lc0 lc H0 Hr) as [Hd Hcnt].
  destruct (run_reachable_ok t Ht lc0 lc H0 Hr) as (n & Hc & _). pose proof (db_pending _ Hd) as Hp.
  unfold has_unacked_commitment in Hun.
  destruct (oc_commit_diff (lc_channel_state lc)) as [d|] eqn:Ed; [|by rewrite Hp in Hun].
  destruct (receive_revocation_runs t n lc msg next st d Hc Hd (Hcnt Hs) Ed Hg) as (pkg & lc' & E & Ec).
  exists pkg, lc'. rewrite Ec. unfold tip. rewrite Hp. done.
Qed.

(** C36: A revocation gives away the secret of the commitment that was the
    oldest, the next commitment is then the one that the node may broadcast,
    and every commitment left in its chain is of a greater height than the
    secret that was given away. *)
Theorem revoked_secrets_are_old lc0 lc lc' msg c final :
  fresh_channel t lc0 → reachable lc0 lc →
  revoke_current_commitment lc = (lc', Ok (msg, c, final)) →
  producer_at_index (oc_revocation_producer (lc_channel_state lc)) (cm_height (tail (chain_of lc Local))) =
    Ok (ra_revocation msg) ∧
  oc_local_commitment (lc_channel_state lc') = c ∧ c = tail (chain_of lc' Local) ∧
  ∀ c', c' ∈ chain_list (chain_of lc' Local) → cm_height (tail (chain_of lc Local)) < cm_height c'.
Proof using HP CP CL t Ht.
  intros H0 Hr E. destruct (reachable_db lc0 lc H0 Hr) as [[Hh _ _ _] _].
  destruct (run_reachable_ok t Ht lc0 lc H0 Hr) as (n & Hc & _).
  apply revoke_Ok in E as (Eg & s & Ea & Es & -> & _ & _ & El & _).
  destruct (chain_ok_advance _ _ (ck_chain _ _ _ Hc Local) Ea) as (Hs & _ & _ & Hht & _).
  split_and!; [|done | by rewrite Es|].
  - unfold generate_revocation in Eg. rewrite Hh in Eg. apply rbind_Ok in Eg as (secret & Esec & Eg).
    apply rbind_Ok in Eg as (next & _ & Eg). apply rbind_Ok in Eg as (nonces & _ & Eg). injection Eg as <-. cbn [ra_revocation].
    destruct (producer_at_index _ _); [by injection Esec as -> | done].
  - rewrite Es. intros c' [i Hi]%list_elem_of_lookup. rewrite (cn_heights _ Hs _ _ Hi). lia.
Qed.
End Runs.
End Db.

(** ** A run *)

(** The opener has signed a commitment with an HTLC. *)
Definition toy_signed : channel :=
  default (toy_channel true) (run_ops [OpAddHTLC toy_add; OpSignNextCommitment] (toy_channel true)).

Lemma toy_signed_reachable : reachable (toy_channel true) toy_signed.
Proof.
  exists [OpAddHTLC toy_add; OpSignNextCommitment].
  split_and!; [repeat constructor; done | done |]. vm_compute. reflexivity.
Defined.

Lemma record_mirrors_chains_witness :
  reachable (toy_channel true) toy_signed ∧
  ∃ d, oc_commit_diff (lc_channel_state toy_signed) = Some d ∧ rest (chain_of toy_signed Remote) = [cd_commitment d].
Proof.
  split; [exact toy_signed_reachable|].
  assert (∃ d, oc_commit_diff (lc_channel_state toy_signed) = Some d) as [d E] by (vm_compute; eexists; reflexivity).
  exists d. split; [exact E|].
  pose proof (record_mirrors_chains 999340000 toy_total (toy_channel true) toy_signed (toy_fresh true)
    toy_signed_reachable) as (_ & _ & _ & Hp).
  cbv zeta in Hp. rewrite E in Hp. exact Hp.
Defined.

Definition toy_revocation : revoke_and_ack := RevokeAndAck (toy_secret 0) (toy_secret 2) None None.

Lemma valid_revocation_accepted_witness :
  has_unacked_commitment (chain_of toy_signed Remote) = true ∧
  ∃ pkg lc', receive_revocation toy_revocation toy_signed = (lc', Ok (pkg, tip (chain_of toy_signed Remote))).
Proof.
  split; [vm_compute; reflexivity|].
  edestruct (valid_revocation_accepted 999340000 toy_total (toy_channel true) toy_signed toy_revocation
    (toy_secret 1)) as (pkg & lc' & E & _);
    [exact (toy_fresh true) | reflexivity | exact toy_signed_reachable | vm_compute; reflexivity | | by exists pkg, lc'].
  split; [vm_compute; reflexivity | vm_compute; reflexivity | intros _; split; reflexivity | | intros H; vm_compute in H; discriminate H].
  eexists. split; [vm_compute; reflexivity|]. split; [vm_compute; reflexivity | by eexists].
Defined.

Definition toy_held : channel :=
  default (toy_channel true) (run_ops (take 4 toy_ops) (toy_channel true)).

Lemma revoked_secrets_are_old_witness :
  ∃ lc' msg c final, revoke_current_commitment toy_held = (lc', Ok (msg, c, final)) ∧
    producer_at_index (oc_revocation_producer (lc_channel_state toy_held)) 0 = Ok (ra_revocation msg) ∧
    cm_height c = 1.
Proof.
  destruct (revoke_current_commitment toy_held) as [lc' [[[msg c] final]|e]] eqn:E; [|vm_compute in E; discriminate E].
  exists lc', msg, c, final. split; [reflexivity|].
  assert (reachable (toy_channel true) toy_held) as Hr.
  { exists (take 4 toy_ops). split_and!; [repeat constructor; done | done |]. vm_compute. reflexivity. }
  pose proof (revoked_secrets_are_old 999340000 toy_total (toy_channel true) toy_held lc' msg c final
    (toy_fresh true) Hr E) as (Hp & _ & Hc & _).
  split; [exact Hp|]. vm_compute in E. injection E as <- _ <- _. vm_compute. reflexivity.
Defined.
