(* ===== verification/ChannelHist.v ===== *)
(** * The history of a channel's logs

    Compaction removes updates from the logs. Here a log is compared with the
    list of all the updates its party ever made: what is left of them, and why
    the others are gone. *)

From S2P Require Import Prelude Chainfee Shachain UpdateLog Channel ChannelLog ChannelView ChannelInv ChannelCommit.

(** ** Updates *)

Inductive update :=
| UpAdd (rhash : bytes) (expiry amount htlc_index : Z)
| UpSettle (parent amount : Z)
| UpFail (parent amount : Z)
| UpFee (amount : Z).

#[export] Instance update_eq_decision : EqDecision update.
Proof. solve_decision. Defined.

Definition update_of (pd : payment_descriptor) : update :=
  match pd_entry_type pd with
  | Add | NoOpAdd => UpAdd (pd_rhash pd) (pd_timeout pd) (pd_amount pd) (pd_htlc_index pd)
  | Settle => UpSettle (pd_parent_index pd) (pd_amount pd)
  | Fail | MalformedFail => UpFail (pd_parent_index pd) (pd_amount pd)
  | FeeUpdate => UpFee (pd_amount pd)
  end.

Definition up_is_add (up : update) : bool := match up with UpAdd _ _ _ _ => true | _ => false end.
Definition up_is_fee (up : update) : bool := match up with UpFee _ => true | _ => false end.
Definition parent_of (up : update) : option Z :=
  match up with UpSettle i _ | UpFail i _ => Some i | _ => None end.

(** The updates below index [i]. *)
Definition upto (i : Z) (h : list update) : list update := take (Z.to_nat i) h.

Definition adds (h : list update) : nat := length (List.filter up_is_add h).
Definition resolved (h : list update) (i : Z) : bool := existsb (λ up, bool_decide (parent_of up = Some i)) h.

(** The HTLCs of the first history that the second leaves open. *)
Definition is_open (h : list update) (up : update) : bool :=
  match up with UpAdd _ _ _ i => negb (resolved h i) | _ => false end.
Definition open_updates (h h' : list update) : list update := List.filter (is_open h') h.

(** The rate of the last fee update, or a first one. *)
Fixpoint last_fee (h : list update) : option (nat * Z) :=
  match h with
  | [] => None
  | up :: h =>
      match last_fee h with
      | Some (k, a) => Some (S k, a)
      | None => match up with UpFee a => Some (0%nat, a) | _ => None end
      end
  end.
Definition fee_rate (rate : Z) (h : list update) : Z :=
  match last_fee h with Some (_, a) => to_satoshis a | None => rate end.

(** What an update does to the balance of its party, and of the other. *)
Definition own_delta (up : update) : Z :=
  match up with UpAdd _ _ a _ => - a | UpSettle _ a => a | _ => 0 end.
Definition peer_delta (up : update) : Z := match up with UpFail _ a => a | _ => 0 end.
Definition own_sum (h : list update) : Z := zsum (map own_delta h).
Definition peer_sum (h : list update) : Z := zsum (map peer_delta h).

(** A new update: a fee update replaces the last one where that is at index
    [s] or later. *)
Definition add_update (s : Z) (up : update) (h : list update) : list update :=
  match up, last_fee h with
  | UpFee _, Some (k, _) => if s <=? Z.of_nat k then <[k := up]> h else h ++ [up]
  | _, _ => h ++ [up]
  end.

(** An HTLC's index counts the HTLCs before it. *)
Definition indexed (h : list update) : Prop :=
  ∀ k rhash expiry amount i, h !! k = Some (UpAdd rhash expiry amount i) → i = Z.of_nat (adds (take k h)).

Lemma adds_app h h' : adds (h ++ h') = (adds h + adds h')%nat.
Proof. unfold adds. by rewrite List.filter_app, length_app. Qed.

Lemma adds_take_lt h k up : h !! k = Some up → up_is_add up = true → (adds (take k h) < adds h)%nat.
Proof.
  intros Hk Ha. rewrite <-(take_drop_middle h k up Hk) at 2. rewrite adds_app. unfold adds at 3. simpl.
  rewrite Ha. simpl. lia.
Qed.

Lemma adds_take_mono h k l : (k ≤ l)%nat → (adds (take k h) ≤ adds (take l h))%nat.
Proof. intros Hk. rewrite <-(take_drop k (take l h)), take_take, adds_app, Nat.min_l by done. lia. Qed.

(** The index names the HTLC. *)
Lemma indexed_inj h k l r e a i r' e' a' :
  indexed h → h !! k = Some (UpAdd r e a i) → h !! l = Some (UpAdd r' e' a' i) → k = l.
Proof.
  intros H Hk Hl. pose proof (H _ _ _ _ _ Hk) as E. pose proof (H _ _ _ _ _ Hl) as E'.
  assert (∀ k l up, h !! k = Some up → up_is_add up = true → (k < l)%nat →
    (adds (take k h) < adds (take l h))%nat) as Hlt.
  { clear. intros k l up Hk Ha Hlt. rewrite <-(Nat.min_l k l) at 1 by lia. rewrite <-take_take.
    apply adds_take_lt with up; [|done]. by rewrite lookup_take_lt. }
  destruct (Nat.lt_trichotomy k l) as [Hc|[->|Hc]]; [|done|].
  - specialize (Hlt _ _ _ Hk eq_refl Hc). lia.
  - specialize (Hlt _ _ _ Hl eq_refl Hc). lia.
Qed.

Lemma last_fee_Some h k a :
  last_fee h = Some (k, a) ↔
  h !! k = Some (UpFee a) ∧ ∀ l up, h !! l = Some up → up_is_fee up = true → (l ≤ k)%nat.
Proof.
  revert k a. induction h as [|up h IH]; intros k a; simpl.
  { split; [done|]. by intros [? _]. }
  destruct (last_fee h) as [[k' a']|] eqn:E.
  - destruct (IH k' a') as [[H1 H2] _]; [done|]. split.
    + intros [= <- <-]. split; [done|]. intros [|l] up' Hl Hf; [lia|]. apply H2 in Hl; [lia | done].
    + intros [H3 H4]. destruct k as [|k].
      { specialize (H4 (S k') _ H1 eq_refl). lia. }
      assert (Some (k', a') = Some (k, a)) as [= -> ->]; [|done]. apply (IH k a). split; [done|].
      intros l up' Hl Hf. specialize (H4 (S l) up' Hl Hf). lia.
  - assert (∀ l a0, h !! l ≠ Some (UpFee a0)) as Hno.
    { clear -E. revert E. induction h as [|up h IH]; simpl; [done|].
      destruct (last_fee h) as [[]|] eqn:E; [done|]. intros Hup [|l] a0; [|by apply IH].
      simpl. intros [= ->]. done. }
    destruct k as [|k]; simpl; cycle 1.
    { split; [by destruct up|]. by intros [?%Hno _]. }
    destruct up; (split; [|by intros [[= ->] _]]); [done..|]. intros [= ->]. split; [done|].
    intros [|l] up Hl Hf; [lia|]. destruct up; try done. by apply Hno in Hl.
Qed.

Lemma last_fee_None h : last_fee h = None ↔ ∀ l a, h !! l ≠ Some (UpFee a).
Proof.
  induction h as [|up h IH]; simpl; [done|].
  destruct (last_fee h) as [[k a]|] eqn:E.
  - split; [done|]. intros H. exfalso. apply last_fee_Some in E as [E _]. by apply (H (S k) a).
  - destruct IH as [IH _]. specialize (IH eq_refl).
    split.
    + intros Hup [|l] a; [|apply IH]. simpl. by intros [= ->].
    + intros H. destruct up; try done. by destruct (H 0%nat amount).
Qed.

(** *** New updates *)

Lemma add_update_cases s up h :
  add_update s up h = h ++ [up] ∨
  ∃ k a b, up = UpFee a ∧ last_fee h = Some (k, b) ∧ s ≤ Z.of_nat k ∧ add_update s up h = <[k := up]> h.
Proof.
  unfold add_update. destruct up; try by left. destruct (last_fee h) as [[k b]|] eqn:E; [|by left].
  destruct (s <=? Z.of_nat k) eqn:El; [|by left]. apply Z.leb_le in El. right. by exists k, amount, b.
Qed.

(** What is below [s], and what is no fee update, stays. *)
Lemma add_update_lookup s up h k x :
  h !! k = Some x → Z.of_nat k < s ∨ up_is_fee x = false → add_update s up h !! k = Some x.
Proof.
  intros Hk Hx. destruct (add_update_cases s up h) as [->|(l & a & b & -> & Hl & Hs & ->)].
  - by apply lookup_app_l_Some.
  - apply last_fee_Some in Hl as [Hl _]. assert (l ≠ k); [|by rewrite list_lookup_insert_ne].
    intros <-. destruct Hx as [Hx|Hx]; [lia|]. rewrite Hk in Hl. by injection Hl as ->.
Qed.

Lemma add_update_length s up h : (length h ≤ length (add_update s up h))%nat.
Proof.
  destruct (add_update_cases s up h) as [->|(l & a & b & -> & _ & _ & ->)].
  - rewrite length_app. lia.
  - by rewrite length_insert.
Qed.

Lemma add_update_upto s up h j :
  j ≤ s → j ≤ Z.of_nat (length h) → upto j (add_update s up h) = upto j h.
Proof.
  intros Hj Hl. unfold upto. destruct (add_update_cases s up h) as [->|(l & a & b & -> & _ & Hs & ->)].
  - rewrite take_app_le; [done | lia].
  - by rewrite take_insert_ge by lia.
Qed.

Lemma adds_insert_fee h k a b : h !! k = Some (UpFee a) → adds (<[k := UpFee b]> h) = adds h.
Proof.
  intros Hk. rewrite <-(take_drop_middle h k _ Hk) at 2. rewrite insert_take_drop by by eapply lookup_lt_Some.
  by rewrite !adds_app.
Qed.

Lemma add_update_adds s up h :
  adds (add_update s up h) = (adds h + if up_is_add up then 1 else 0)%nat.
Proof.
  destruct (add_update_cases s up h) as [->|(l & a & b & -> & Hl & Hs & ->)].
  - rewrite adds_app. unfold adds at 2. simpl. by destruct up.
  - apply last_fee_Some in Hl as [Hl _]. rewrite (adds_insert_fee _ _ _ _ Hl). simpl. lia.
Qed.

Lemma add_update_indexed s up h :
  indexed h → (∀ r e a i, up = UpAdd r e a i → i = Z.of_nat (adds h)) → indexed (add_update s up h).
Proof.
  intros H Hup k r e a i Hk. destruct (add_update_cases s up h) as [E|(l & x & b & -> & Hl & Hs & E)]; rewrite E in *.
  - apply lookup_app_Some in Hk as [Hk|[Hlen Hk]].
    + rewrite take_app_le by (apply lookup_lt_Some in Hk; lia). by eapply H.
    + apply list_lookup_singleton_Some in Hk as [Hz ->].
      rewrite take_app_le, take_ge by lia. by eapply Hup.
  - apply last_fee_Some in Hl as [Hl _].
    destruct (decide (k = l)) as [->|Hne].
    { rewrite list_lookup_insert_eq in Hk by by eapply lookup_lt_Some. done. }
    rewrite list_lookup_insert_ne in Hk by done. rewrite (H _ _ _ _ _ Hk). f_equal.
    destruct (decide (k ≤ l)%nat); [by rewrite take_insert_ge|].
    rewrite take_insert_lt by lia. symmetry. apply (adds_insert_fee _ _ b).
    by rewrite lookup_take_lt by lia.
Qed.

(** ** A log and its history *)

Definition key (x : entry) : Z := pd_log_index x.2.

Record log_hist (h : list update) (u : update_log) : Prop := {
  lh_index : ul_log_index u = Z.of_nat (length h);
  lh_counter : ul_htlc_counter u = Z.of_nat (adds h);
  lh_entry k pd : (k, pd) ∈ ul_list u →
    0 ≤ pd_log_index pd ∧ h !! Z.to_nat (pd_log_index pd) = Some (update_of pd) ∧ pd_entry_type pd ≠ NoOpAdd;
  lh_sorted : StronglySorted (λ x y, key x < key y) (ul_list u);
  lh_indexed : indexed h;
}.

(** The log has the update at [k] no more. *)
Definition gone (u : update_log) (k : nat) : Prop := ∀ m pd, (m, pd) ∈ ul_list u → pd_log_index pd ≠ Z.of_nat k.

Lemma sorted_filter_split (l : list entry) (q : entry → bool) i :
  StronglySorted (λ x y, key x < key y) l →
  List.filter (λ x, (key x <? i + 1) && q x) l =
  List.filter (λ x, (key x <? i) && q x) l ++ List.filter (λ x, (key x =? i) && q x) l.
Proof.
  induction 1 as [|x l Hs IH Hx]; [done|]. simpl. rewrite IH. destruct (Z.lt_trichotomy (key x) i) as [Hlt|[Heq|Hgt]].
  - rewrite (proj2 (Z.ltb_lt (key x) (i + 1))), (proj2 (Z.ltb_lt (key x) i)), (proj2 (Z.eqb_neq (key x) i)) by lia.
    simpl. by destruct (q x).
  - rewrite (proj2 (Z.ltb_lt (key x) (i + 1))), (proj2 (Z.ltb_ge (key x) i)), (proj2 (Z.eqb_eq (key x) i)) by lia.
    simpl. rewrite (bfilter_none (λ x, (key x <? i) && q x) l); [by destruct (q x)|].
    intros y Hy. rewrite Forall_forall in Hx. specialize (Hx y Hy). by rewrite (proj2 (Z.ltb_ge (key y) i)) by lia.
  - rewrite (proj2 (Z.ltb_ge (key x) (i + 1))), (proj2 (Z.ltb_ge (key x) i)), (proj2 (Z.eqb_neq (key x) i)) by lia.
    done.
Qed.

Lemma sorted_filter_one (l : list entry) x :
  StronglySorted (λ x y, key x < key y) l → x ∈ l → List.filter (λ y, key y =? key x) l = [x].
Proof.
  induction 1 as [|y l Hs IH Hy]; [by intros ?%elem_of_nil|]. rewrite Forall_forall in Hy.
  intros [->|Hin]%elem_of_cons; simpl.
  - rewrite Z.eqb_refl, bfilter_none; [done|]. intros z Hz. specialize (Hy z Hz). apply Z.eqb_neq. lia.
  - specialize (Hy x Hin). rewrite (proj2 (Z.eqb_neq (key y) (key x))) by lia. by apply IH.
Qed.

(** The updates of a kind [q] below [i] of the history, when the log has all
    of them. *)
Section Window.
Context (h : list update) (u : update_log) (q : Z → update → bool).
Hypothesis H : log_hist h u.

Lemma log_window (i : nat) :
  (i ≤ length h)%nat →
  (∀ k up, (k < i)%nat → h !! k = Some up → q (Z.of_nat k) up = true → ¬ gone u k) →
  map (λ x : entry, update_of x.2) (List.filter (λ x, (key x <? Z.of_nat i) && q (key x) (update_of x.2)) (ul_list u)) =
  map snd (List.filter (λ x, q (Z.of_nat x.1) x.2) (imap pair (take i h))).
Proof using H.
  induction i as [|i IH]; intros Hi Hq.
  { rewrite bfilter_none; [done|]. intros [k pd] Hin. apply (lh_entry _ _ H) in Hin as [Hge _].
    unfold key. simpl. by rewrite (proj2 (Z.ltb_ge _ 0)). }
  destruct (lookup_lt_is_Some_2 h i) as [up Hup]; [lia|].
  rewrite (take_S_r _ _ _ Hup), imap_app, List.filter_app, map_app, <-IH; [|lia|]; cycle 1.
  { intros k up' Hk. apply Hq. lia. }
  replace (Z.of_nat (S i)) with (Z.of_nat i + 1) by lia.
  rewrite (sorted_filter_split _ (λ x, q (key x) (update_of x.2))) by apply (lh_sorted _ _ H). rewrite map_app. f_equal.
  rewrite length_take, Nat.min_l by lia. simpl. rewrite Nat.add_0_r.
  assert (∀ x, x ∈ ul_list u → key x = Z.of_nat i → update_of x.2 = up) as Hx.
  { intros [k pd] Hin Hk. apply (lh_entry _ _ H) in Hin as (_ & Hpd & _). unfold key in Hk. simpl in *.
    rewrite Hk, Nat2Z.id, Hup in Hpd. by injection Hpd as <-. }
  destruct (q (Z.of_nat i) up) eqn:Eq; simpl.
  - destruct (decide (Exists (λ x, key x = Z.of_nat i) (ul_list u))) as [(x & Hin & Hk)%Exists_exists|Hno].
    + rewrite (bfilter_ext _ (λ y, key y =? key x)).
      * rewrite sorted_filter_one by (done || apply (lh_sorted _ _ H)). simpl. f_equal. by apply Hx.
      * intros y Hy. rewrite Hk. destruct (key y =? Z.of_nat i) eqn:Ey; [|done]. apply Z.eqb_eq in Ey.
        by rewrite (Hx y Hy Ey), Ey, Eq.
    + exfalso. apply (Hq i up); [lia | done | done |]. intros m pd Hin Hk. apply Hno, Exists_exists. by exists (m, pd).
  - rewrite bfilter_none; [done|]. intros y Hy. destruct (key y =? Z.of_nat i) eqn:Ey; [|done]. apply Z.eqb_eq in Ey.
    by rewrite (Hx y Hy Ey), Ey, Eq.
Qed.
End Window.

Lemma imap_filter_snd {A} (q : A → bool) (l : list A) :
  map snd (List.filter (λ x : nat * A, q x.2) (imap pair l)) = List.filter q l.
Proof.
  induction l as [|x l IH] using rev_ind; [done|]. rewrite imap_app, !List.filter_app, map_app, IH.
  simpl. by destruct (q x).
Qed.

Lemma imap_filter_drop {A} (j : nat) (l : list A) :
  map snd (List.filter (λ x : nat * A, Z.of_nat j <=? Z.of_nat x.1) (imap pair l)) = drop j l.
Proof.
  induction l as [|x l IH] using rev_ind; [by rewrite drop_nil|].
  rewrite imap_app, List.filter_app, map_app, IH. simpl. rewrite Nat.add_0_r.
  destruct (_ <=? _) eqn:E; simpl.
  - apply Z.leb_le in E. by rewrite drop_app_le by lia.
  - apply Z.leb_gt in E. rewrite app_nil_r, !drop_ge; [done | | lia]. rewrite length_app. simpl. lia.
Qed.

(** ** A channel and its history *)

Definition log_height (w : channel_party) (pd : payment_descriptor) : Z :=
  if is_add pd then add_height w pd else remove_height w pd.

(** Why an update has left the log of party [p]. *)
Definition gone_for (h : dual (list update)) (lc : channel) (p : channel_party) (k : nat) (up : update) : Prop :=
  match up with
  | UpAdd _ _ _ i => ∀ w,
      resolved (upto (idx (tail (chain_of lc w)) (counter_party p)) (get_for_party h (counter_party p))) i = true
  | UpSettle i _ | UpFail i _ =>
      ∀ m a, (m, a) ∈ ul_list (log_of lc (counter_party p)) → is_add a = true → pd_htlc_index a ≠ i
  | UpFee _ =>
      ∀ m pd, (m, pd) ∈ ul_list (log_of lc p) → pd_entry_type pd = FeeUpdate → Z.of_nat k < pd_log_index pd
  end.

Record chan_hist (h : dual (list update)) (lc : channel) : Prop := {
  ch_log p : log_hist (get_for_party h p) (log_of lc p);
  ch_known p k up i : get_for_party h p !! k = Some up → parent_of up = Some i →
    i < Z.of_nat (adds (get_for_party h (counter_party p)));
  ch_gone p k up : get_for_party h p !! k = Some up → gone (log_of lc p) k →
    (∀ w, Z.of_nat k < idx (tail (chain_of lc w)) p) ∧ gone_for h lc p k up;
  ch_fee w p k pd : (k, pd) ∈ ul_list (log_of lc p) → pd_entry_type pd = FeeUpdate →
    add_height w pd = remove_height w pd;
  ch_height w p k pd c : (k, pd) ∈ ul_list (log_of lc p) → c ∈ chain_list (chain_of lc w) →
    log_height w pd ≠ 0 → log_height w pd ≤ cm_height c ↔ pd_log_index pd < idx c p;
  ch_parent w p k r m a c : c ∈ chain_list (chain_of lc w) →
    (k, r) ∈ ul_list (log_of lc p) → is_resolution r = true → pd_log_index r < idx c p →
    (m, a) ∈ ul_list (log_of lc (counter_party p)) → is_add a = true → pd_htlc_index a = pd_parent_index r →
    pd_log_index a < idx c (counter_party p);
}.

Lemma resolved_app h h' i : resolved (h ++ h') i = resolved h i || resolved h' i.
Proof. apply existsb_app. Qed.

Lemma resolved_upto_mono h i j j' : j ≤ j' → resolved (upto j h) i = true → resolved (upto j' h) i = true.
Proof.
  intros Hj Hr. unfold upto in *. rewrite <-(take_drop (Z.to_nat j) (take (Z.to_nat j') h)), take_take.
  by rewrite Nat.min_l, resolved_app, Hr by lia.
Qed.

Lemma resolved_true h i : resolved h i = true ↔ ∃ k up, h !! k = Some up ∧ parent_of up = Some i.
Proof.
  unfold resolved. rewrite existsb_exists. setoid_rewrite bool_decide_eq_true. setoid_rewrite <-list_elem_of_In.
  setoid_rewrite list_elem_of_lookup. naive_solver.
Qed.

(** A flag more or less makes no difference. *)
Lemma core_back lc lc' p k pd :
  same_core lc' lc → (k, pd) ∈ ul_list (log_of lc' p) →
  ∃ pd0, (k, pd0) ∈ ul_list (log_of lc p) ∧ core pd = core pd0.
Proof.
  intros Hs Hin. pose proof (f_equal ul_list (same_core_log lc' lc p Hs)) as E. simpl in E.
  assert ((k, core pd) ∈ map core_entry (ul_list (log_of lc p))) as Hc.
  { rewrite <-E. apply list_elem_of_fmap. by exists (k, pd). }
  apply list_elem_of_fmap in Hc as ([k' pd0] & E0 & Hin0).
  pose proof (f_equal fst E0) as Ek. pose proof (f_equal snd E0) as E1. simpl in Ek. subst k'. by exists pd0.
Qed.

Record same_mark (a b : payment_descriptor) : Prop := {
  sm_type : pd_entry_type a = pd_entry_type b;
  sm_log : pd_log_index a = pd_log_index b;
  sm_update : update_of a = update_of b;
  sm_htlc : pd_htlc_index a = pd_htlc_index b;
  sm_parent : pd_parent_index a = pd_parent_index b;
  sm_heights : same_heights a b;
}.

Lemma core_same_mark a b : core a = core b → same_mark a b.
Proof.
  intros E. split; try split.
  - exact (f_equal pd_entry_type E).
  - exact (f_equal pd_log_index E).
  - exact (f_equal update_of E).
  - exact (f_equal pd_htlc_index E).
  - exact (f_equal pd_parent_index E).
  - exact (f_equal pd_add_heights E).
  - exact (f_equal pd_remove_heights E).
Qed.

Lemma same_mark_is_add a b : same_mark a b → is_add a = is_add b.
Proof. intros H. unfold is_add. by rewrite (sm_type _ _ H). Qed.
Lemma same_mark_is_resolution a b : same_mark a b → is_resolution a = is_resolution b.
Proof. intros H. unfold is_resolution. by rewrite (sm_type _ _ H). Qed.
Lemma same_mark_height w a b : same_mark a b → log_height w a = log_height w b.
Proof.
  intros H. unfold log_height, add_height, remove_height. rewrite (same_mark_is_add _ _ H).
  destruct (sm_heights _ _ H) as [-> ->]. done.
Qed.

Lemma core_log_hist h u u' : core_log u' = core_log u → log_hist h u → log_hist h u'.
Proof.
  intros E H. pose proof (f_equal ul_list E) as El. simpl in El. split.
  - rewrite <-(lh_index _ _ H). exact (f_equal ul_log_index E).
  - rewrite <-(lh_counter _ _ H). exact (f_equal ul_htlc_counter E).
  - intros k pd Hin. assert ((k, core pd) ∈ map core_entry (ul_list u)) as Hc.
    { rewrite <-El. apply list_elem_of_fmap. by exists (k, pd). }
    apply list_elem_of_fmap in Hc as ([k' pd0] & E0 & Hin0). pose proof (f_equal snd E0) as E1.
    pose proof (core_same_mark _ _ E1) as Hm. apply (lh_entry _ _ H) in Hin0.
    by rewrite (sm_type _ _ Hm), (sm_log _ _ Hm), (sm_update _ _ Hm).
  - assert (∀ l, StronglySorted (λ x y, key x < key y) (map core_entry l) ↔
      StronglySorted (λ x y, key x < key y) l) as Hm.
    { induction l as [|x l IH]; simpl; split; intros Hs; try constructor;
        apply StronglySorted_inv in Hs as [Hs Hx]; try (by apply IH);
        rewrite Forall_forall in Hx; apply Forall_forall.
      - intros y Hy. apply (Hx (core_entry y)). apply list_elem_of_fmap. by exists y.
      - intros y (z & -> & Hz)%list_elem_of_fmap. by apply (Hx z). }
    apply Hm. rewrite El. apply Hm, (lh_sorted _ _ H).
  - apply (lh_indexed _ _ H).
Qed.

Lemma chan_hist_core h lc lc' : same_core lc' lc → chan_hist h lc → chan_hist h lc'.
Proof.
  intros Hs H.
  assert (∀ w, chain_of lc' w = chain_of lc w) as Ec by (intros w; by apply core_chan_chains).
  assert (∀ p k pd, (k, pd) ∈ ul_list (log_of lc' p) →
    ∃ pd0, (k, pd0) ∈ ul_list (log_of lc p) ∧ same_mark pd pd0) as Hb.
  { intros p k pd (pd0 & Hin & E)%(core_back lc lc' p k pd Hs). exists pd0. split; [done|].
    by apply core_same_mark. }
  assert (∀ p k, gone (log_of lc' p) k → gone (log_of lc p) k) as Hg.
  { intros p k Hk m pd Hin. symmetry in Hs. apply (core_back lc' lc p m pd Hs) in Hin as (pd0 & Hin & E).
    rewrite (sm_log _ _ (core_same_mark _ _ E)). by apply (Hk m). }
  split.
  - intros p. eapply core_log_hist; [|apply (ch_log _ _ H)]. by apply same_core_log.
  - apply (ch_known _ _ H).
  - intros p k up Hk Hgone%Hg. destruct (ch_gone _ _ H p k up Hk Hgone) as [H1 H2].
    split; [by setoid_rewrite Ec|]. unfold gone_for in *.
    destruct up; [by setoid_rewrite Ec| | |]; intros m pd (pd0 & Hin & Hm)%Hb;
      rewrite ?(same_mark_is_add _ _ Hm), ?(sm_type _ _ Hm), ?(sm_log _ _ Hm), ?(sm_htlc _ _ Hm); by eapply H2.
  - intros w p k pd (pd0 & Hin & Hm)%Hb Ht. unfold add_height, remove_height.
    destruct (sm_heights _ _ Hm) as [-> ->]. rewrite (sm_type _ _ Hm) in Ht. by eapply (ch_fee _ _ H).
  - intros w p k pd c (pd0 & Hin & Hm)%Hb. rewrite Ec, (same_mark_height w _ _ Hm), (sm_log _ _ Hm).
    by apply (ch_height _ _ H w p k).
  - intros w p k r m a c Hc (r0 & Hin & Hm)%Hb Hr Hlt (a0 & Hin' & Hm')%Hb Ha Hi. rewrite Ec in *.
    rewrite (same_mark_is_resolution _ _ Hm) in Hr. rewrite (same_mark_is_add _ _ Hm') in Ha.
    rewrite (sm_log _ _ Hm') . rewrite (sm_log _ _ Hm) in Hlt. rewrite (sm_htlc _ _ Hm'), (sm_parent _ _ Hm) in Hi.
    by eapply (ch_parent _ _ H w p k r0 m a0 c).
Qed.

Lemma chan_hist_state h lc lc' : state_only lc lc' → chan_hist h lc → chan_hist h lc'.
Proof. intros -> H. destruct H. by split. Qed.
