(* ===== verification/ChannelPast.v ===== *)
(** * Histories through the writes of the methods

    Every write that the methods of a channel do keeps [chan_hist], with a
    history that grows where the logs grow. *)

From S2P Require Import Prelude Chainfee Shachain UpdateLog Channel ChannelLog ChannelView ChannelInv ChannelCommit.
From S2P Require Import ChannelAfter ChannelSteps ChannelHist.

Section Past.
Context {HP : HashPrims}.

(** ** The tail of a chain goes *)

Lemma chan_hist_advance t n h lc w s :
  chan_ok t n lc → chan_hist h lc → advance_tail (chain_of lc w) = Some s → chan_hist h (set_chain w s lc).
Proof.
  intros Hok H Hs. destruct (chain_ok_advance _ _ (ck_chain _ _ _ Hok w) Hs) as (_ & Htip & Hsub & _ & Hidx).
  set (lc' := set_chain w s lc).
  assert (chain_of lc' w = s) as Ew by by destruct w.
  assert (chain_of lc' (counter_party w) = chain_of lc (counter_party w)) as Eq by by destruct w.
  assert (∀ p, log_of lc' p = log_of lc p) as El by by destruct w.
  assert (∀ w', tip (chain_of lc' w') = tip (chain_of lc w')) as Etip.
  { intros w'. destruct (party_cases w w') as [-> | ->]; congruence. }
  assert (∀ w' p, idx (tail (chain_of lc w')) p ≤ idx (tail (chain_of lc' w')) p) as Htl.
  { intros w' p. destruct (party_cases w w') as [-> | ->]; [rewrite Ew; apply Hidx | by rewrite Eq]. }
  split.
  - apply (ch_log _ _ H).
  - apply (ch_known _ _ H).
  - intros p k up Hk Hg. destruct (ch_gone _ _ H p k up Hk Hg) as [H1 H2]. split.
    + intros w'. specialize (H1 w'). specialize (Htl w' p). lia.
    + unfold gone_for in *. destruct up; [|done..]. intros w'. eapply resolved_upto_mono; [apply Htl | apply H2].
  - apply (ch_fee _ _ H).
  - intros w' p k pd c Hin Hc. apply (ch_height _ _ H w' p k pd c Hin).
    destruct (party_cases w w') as [-> | ->]; [rewrite Ew in Hc; by apply Hsub | by rewrite Eq in Hc].
  - intros w' p k r m a c Hc. apply (ch_parent _ _ H w').
    destruct (party_cases w w') as [-> | ->]; [rewrite Ew in Hc; by apply Hsub | by rewrite Eq in Hc].
Qed.

(** ** New entries *)

(** The history with a new update of party [p], where the indexes of a tip are
    [s] and later. *)
Definition grown (h : dual (list update)) (p : channel_party) (s : Z) (up : update) : dual (list update) :=
  set_for_party h p (add_update s up (get_for_party h p)).

Lemma grown_same h p s up : get_for_party (grown h p s up) p = add_update s up (get_for_party h p).
Proof. by destruct p. Qed.
Lemma grown_other h p s up : get_for_party (grown h p s up) (counter_party p) = get_for_party h (counter_party p).
Proof. by destruct p. Qed.

Lemma grown_adds h p s up q : (adds (get_for_party h q) ≤ adds (get_for_party (grown h p s up) q))%nat.
Proof.
  destruct (party_cases p q) as [-> | ->]; [|by rewrite grown_other]. rewrite grown_same, add_update_adds. lia.
Qed.

Lemma own_length h lc p w t n :
  chan_ok t n lc → chan_hist h lc → idx (tip (chain_of lc w)) p ≤ Z.of_nat (length (get_for_party h p)).
Proof. intros Hok H. rewrite <-(lh_index _ _ (ch_log _ _ H p)). apply (ck_own _ _ _ Hok). Qed.

Lemma tail_tip t n lc w p : chan_ok t n lc → idx (tail (chain_of lc w)) p ≤ idx (tip (chain_of lc w)) p.
Proof. intros Hok. apply (chain_idx _ _ p (ck_chain _ _ _ Hok w)), tail_elem. Qed.

(** What the first of the history below a tip says does not change. *)
Lemma grown_upto t n h lc p s up q w :
  chan_ok t n lc → chan_hist h lc → (∀ w, idx (tip (chain_of lc w)) p ≤ s) →
  ∀ j, j ≤ idx (tip (chain_of lc w)) q → upto j (get_for_party (grown h p s up) q) = upto j (get_for_party h q).
Proof.
  intros Hok H Hs j Hj. destruct (party_cases p q) as [-> | ->]; [|by rewrite grown_other].
  rewrite grown_same. apply add_update_upto; [specialize (Hs w); lia|].
  pose proof (own_length h lc p w t n Hok H). lia.
Qed.

Section Push.
Context (t n : Z) (h : dual (list update)) (lc : channel) (p : channel_party) (u v : update_log)
  (pd : payment_descriptor) (s : Z).
Hypothesis Hok : chan_ok t n lc.
Hypothesis H : chan_hist h lc.
Hypothesis Hu : ul_list u = ul_list (log_of lc p) ++ [(ul_next_node (log_of lc p), pd)].
Hypothesis Hv : ul_list v = ul_list (log_of lc (counter_party p)).
Hypothesis Hui : ul_log_index u = ul_log_index (log_of lc p) + 1.
Hypothesis Huc : ul_htlc_counter u = ul_htlc_counter (log_of lc p) + if is_add pd then 1 else 0.
Hypothesis Hvi : ul_log_index v = ul_log_index (log_of lc (counter_party p)).
Hypothesis Hvc : ul_htlc_counter v = ul_htlc_counter (log_of lc (counter_party p)).
Hypothesis Hl : pd_log_index pd = ul_log_index (log_of lc p).
Hypothesis Ha : is_add pd = true → pd_htlc_index pd = ul_htlc_counter (log_of lc p).
Hypothesis Hno : pd_entry_type pd ≠ NoOpAdd.
Hypothesis Hah : pd_add_heights pd = zero_heights.
Hypothesis Hrh : pd_remove_heights pd = zero_heights.
Hypothesis Hpar : ∀ i, parent_of (update_of pd) = Some i → i < ul_htlc_counter (log_of lc (counter_party p)).
Hypothesis Hs : ∀ w, idx (tip (chain_of lc w)) p ≤ s.
Hypothesis Hnew : add_update s (update_of pd) (get_for_party h p) = get_for_party h p ++ [update_of pd].

Let lc' := set_log (counter_party p) v (set_log p u lc).
Let h' := grown h p s (update_of pd).

Lemma push_log_same : log_of lc' p = u.
Proof. unfold lc'. clear. by destruct p. Qed.
Lemma push_log_other : log_of lc' (counter_party p) = v.
Proof. unfold lc'. clear. by destruct p. Qed.
Lemma push_chain w : chain_of lc' w = chain_of lc w.
Proof. unfold lc'. clear. by destruct p. Qed.

Lemma push_hist_same : get_for_party h' p = get_for_party h p ++ [update_of pd].
Proof using Hnew. unfold h'. by rewrite grown_same, Hnew. Qed.

Lemma push_elem q k r :
  (k, r) ∈ ul_list (log_of lc' q) ↔
  (k, r) ∈ ul_list (log_of lc q) ∨ q = p ∧ k = ul_next_node (log_of lc p) ∧ r = pd.
Proof using Hu Hv.
  clear -Hu Hv. destruct (party_cases p q) as [-> | ->].
  - rewrite push_log_same, Hu, elem_of_app, list_elem_of_singleton. clear. naive_solver.
  - rewrite push_log_other, Hv. split; [by left|]. intros [?|[E _]]; [done|]. by destruct p.
Qed.

Lemma update_is_add r : up_is_add (update_of r) = is_add r.
Proof. unfold update_of, is_add. by destruct (pd_entry_type r). Qed.

Lemma push_log_hist : log_hist (get_for_party h p ++ [update_of pd]) u.
Proof using H Hu Hui Huc Hl Ha Hno Hnew.
  pose proof (ch_log _ _ H p) as [Hi Hc He Hso Hx]. split.
  - rewrite length_app. simpl. lia.
  - rewrite adds_app. unfold adds at 2. simpl. rewrite update_is_add. rewrite Huc, Hc. destruct (is_add pd); simpl; lia.
  - intros k r. rewrite Hu. intros [Hin|[= -> ->]%list_elem_of_singleton]%elem_of_app.
    + apply He in Hin as (H1 & H2 & H3). split_and!; [done | by apply lookup_app_l_Some | done].
    + rewrite Hl, Hi. split_and!; [lia | | done]. rewrite Nat2Z.id. by apply list_lookup_middle.
  - rewrite Hu. clear -Hso He Hl Hi. assert (∀ x, x ∈ ul_list (log_of lc p) → key x < pd_log_index pd) as Hlt.
    { intros [k r] Hin. apply He in Hin as (H1 & H2%lookup_lt_Some & _). unfold key. simpl. lia. }
    revert Hso Hlt. generalize (ul_list (log_of lc p)) as l. induction l as [|x l IH]; simpl; intros Hso Hlt.
    + repeat constructor.
    + apply StronglySorted_inv in Hso as [Hso Hx]. constructor.
      * apply IH; [done|]. intros y Hy. apply Hlt. by right.
      * apply Forall_app. split; [done|]. constructor; [|done]. apply Hlt. by left.
  - rewrite <-Hnew. apply add_update_indexed; [done|]. intros r e a i E.
    assert (is_add pd = true) as Hadd by (rewrite <-update_is_add, E; done).
    rewrite <-Hc, <-(Ha Hadd). unfold update_of in E. destruct (pd_entry_type pd); congruence.
Qed.

Lemma log_height_zero w r : pd_add_heights r = zero_heights → pd_remove_heights r = zero_heights → log_height w r = 0.
Proof. intros Ea Er. unfold log_height, add_height, remove_height. rewrite Ea, Er. by destruct (is_add r), w. Qed.

Lemma chan_hist_push : chan_hist h' lc'.
Proof using All.
  pose proof (fun q => grown_adds h p s (update_of pd) q) as Hadds.
  pose proof (fun q w => grown_upto t n h lc p s (update_of pd) q w Hok H Hs) as Hupto.
  split.
  - intros q. destruct (party_cases p q) as [-> | ->].
    + rewrite push_log_same, push_hist_same. apply push_log_hist.
    + unfold h'. rewrite push_log_other, grown_other. destruct (ch_log _ _ H (counter_party p)) as [Hi Hc He Hso Hx].
      split; rewrite ?Hv, ?Hvi, ?Hvc; done.
  - intros q k up i Hk Hi. apply Z.lt_le_trans with (Z.of_nat (adds (get_for_party h (counter_party q))));
      [|specialize (Hadds (counter_party q)); unfold h'; lia].
    destruct (party_cases p q) as [-> | ->].
    + rewrite push_hist_same in Hk. apply lookup_app_Some in Hk as [Hk|[_ Hk]]; [by eapply (ch_known _ _ H)|].
      apply list_lookup_singleton_Some in Hk as [_ <-]. rewrite <-(lh_counter _ _ (ch_log _ _ H _)). by apply Hpar.
    + unfold h' in Hk. rewrite grown_other in Hk. by eapply (ch_known _ _ H).
  - intros q k up Hk Hg.
    assert (gone (log_of lc q) k) as Hg0. { intros m r Hin. apply (Hg m). apply push_elem. by left. }
    assert (get_for_party h q !! k = Some up) as Hk0.
    { destruct (party_cases p q) as [-> | ->]; [|unfold h' in Hk; by rewrite grown_other in Hk].
      rewrite push_hist_same in Hk. apply lookup_app_Some in Hk as [Hk|[Hlen Hk]]; [done|].
      apply list_lookup_singleton_Some in Hk as [Hz _]. exfalso.
      apply (Hg (ul_next_node (log_of lc p)) pd); [apply push_elem; by right|].
      rewrite Hl, (lh_index _ _ (ch_log _ _ H p)). lia. }
    destruct (ch_gone _ _ H q k up Hk0 Hg0) as [H1 H2]. setoid_rewrite push_chain. split; [done|].
    unfold gone_for in *. destruct up as [r e x i|i x|i x|x].
    + intros w. rewrite push_chain, (Hupto _ w); [apply H2 | by apply (tail_tip t n)].
    + intros m a [Hin|(Eq & -> & ->)]%push_elem Hadd; [by apply (H2 m)|]. intros E.
      pose proof (ch_known _ _ H q k _ i Hk0 eq_refl) as Hlt. rewrite Eq in Hlt.
      rewrite (Ha Hadd), (lh_counter _ _ (ch_log _ _ H p)) in E. lia.
    + intros m a [Hin|(Eq & -> & ->)]%push_elem Hadd; [by apply (H2 m)|]. intros E.
      pose proof (ch_known _ _ H q k _ i Hk0 eq_refl) as Hlt. rewrite Eq in Hlt.
      rewrite (Ha Hadd), (lh_counter _ _ (ch_log _ _ H p)) in E. lia.
    + intros m a [Hin|(-> & -> & ->)]%push_elem Ht; [by apply (H2 m)|].
      rewrite Hl, (lh_index _ _ (ch_log _ _ H p)). apply lookup_lt_Some in Hk0. lia.
  - intros w q k r [Hin|(-> & -> & ->)]%push_elem Ht; [by eapply (ch_fee _ _ H)|].
    unfold add_height, remove_height. by rewrite Hah, Hrh.
  - intros w q k r c [Hin|(-> & -> & ->)]%push_elem Hc; rewrite push_chain in Hc; [by apply (ch_height _ _ H w q k)|].
    by rewrite log_height_zero.
  - intros w q k r m a c Hc [Hin|(-> & -> & ->)]%push_elem Hr Hlt; rewrite push_chain in *; cycle 1.
    { pose proof (ck_own _ _ _ Hok w p). pose proof (chain_idx _ _ p (ck_chain _ _ _ Hok w) Hc). lia. }
    intros [Hin'|(Eq & -> & ->)]%push_elem Hadd Hi; [by eapply (ch_parent _ _ H w q k r m a c)|]. exfalso.
    destruct (lh_entry _ _ (ch_log _ _ H q) k r Hin) as (_ & Hk & _).
    assert (parent_of (update_of r) = Some (pd_parent_index r)) as Ep.
    { revert Hr. unfold is_resolution, update_of. by destruct (pd_entry_type r). }
    pose proof (ch_known _ _ H q _ _ _ Hk Ep) as Hlt'. rewrite Eq, <-(lh_counter _ _ (ch_log _ _ H p)), <-(Ha Hadd) in Hlt'.
    lia.
Qed.
End Push.

(** ** Fee updates *)

Definition is_fee (x : entry) : bool := bool_decide (pd_entry_type x.2 = FeeUpdate).

Lemma last_fee_update_last l : last_fee_update l = last (List.filter is_fee l).
Proof.
  induction l as [|[n pd] l IH]; [done|]. simpl. rewrite IH. unfold is_fee at 2. simpl.
  case_bool_decide; [|by destruct (last _)]. rewrite last_cons. by destruct (last _).
Qed.

Lemma sorted_filter (p : entry → bool) l :
  StronglySorted (λ x y, key x < key y) l → StronglySorted (λ x y, key x < key y) (List.filter p l).
Proof.
  induction 1 as [|x l Hs IH Hx]; [constructor|]. simpl. destruct (p x); [|done]. constructor; [done|].
  rewrite Forall_forall in *. intros y [Hy _]%elem_of_bfilter. by apply Hx.
Qed.

Lemma sorted_last l x y :
  StronglySorted (λ x y, key x < key y) l → last l = Some x → y ∈ l → key y ≤ key x.
Proof.
  intros Hs (l' & ->)%last_Some Hy. apply elem_of_app in Hy as [Hy| ->%list_elem_of_singleton]; [|done].
  induction l' as [|z l' IH]; [by apply elem_of_nil in Hy|]. simpl in Hs.
  apply StronglySorted_inv in Hs as [Hs Hz]. apply elem_of_cons in Hy as [->|Hy]; [|by apply IH].
  rewrite Forall_forall in Hz. apply Z.lt_le_incl, Hz, elem_of_app. right. by left.
Qed.

Lemma sorted_key_inj l x y :
  StronglySorted (λ x y, key x < key y) l → x ∈ l → y ∈ l → key x = key y → x = y.
Proof.
  intros Hs Hx Hy E. pose proof (sorted_filter_one l x Hs Hx) as Ef.
  assert (y ∈ List.filter (λ y, key y =? key x) l) as Hin.
  { apply elem_of_bfilter. split; [done|]. by apply Z.eqb_eq. }
  rewrite Ef in Hin. by apply list_elem_of_singleton in Hin.
Qed.

Lemma update_of_fee pd a : update_of pd = UpFee a ↔ pd_entry_type pd = FeeUpdate ∧ pd_amount pd = a.
Proof. unfold update_of. destruct (pd_entry_type pd); naive_solver. Qed.

Lemma upto_lookup i h (k : nat) : (k < Z.to_nat i)%nat → upto i h !! k = h !! k.
Proof. intros Hk. unfold upto. by rewrite lookup_take_lt. Qed.
Lemma upto_lookup_Some i h (k : nat) x : upto i h !! k = Some x ↔ h !! k = Some x ∧ (k < Z.to_nat i)%nat.
Proof. apply lookup_take_Some. Qed.

(** The last fee update of a log is the last of the history, if it is there. *)
Lemma last_fee_below h lc p i :
  chan_hist h lc →
  match last (List.filter is_fee (entries_below i (log_of lc p))) with
  | Some x => last_fee (upto i (get_for_party h p)) = Some (Z.to_nat (key x), pd_amount x.2)
  | None => ∀ k a, last_fee (upto i (get_for_party h p)) = Some (k, a) → gone (log_of lc p) k
  end.
Proof.
  intros H. set (l := List.filter is_fee _).
  assert (∀ x, x ∈ l ↔ x ∈ ul_list (log_of lc p) ∧ pd_entry_type x.2 = FeeUpdate ∧ key x < i) as Hl.
  { intros x. unfold l, entries_below, is_fee. rewrite !elem_of_bfilter, bool_decide_eq_true, Z.ltb_lt.
    unfold key. naive_solver. }
  assert (StronglySorted (λ x y, key x < key y) l) as Hs by apply sorted_filter, sorted_filter, (lh_sorted _ _ (ch_log _ _ H p)).
  destruct (last l) as [x|] eqn:El.
  - assert (x ∈ l) as Hx. { apply last_Some in El as [l' ->]. apply elem_of_app. right. by left. }
    apply Hl in Hx as (Hin & Ht & Hlt). destruct x as [n pd]. unfold key in *. simpl in *.
    destruct (lh_entry _ _ (ch_log _ _ H p) n pd Hin) as (Hge & Hk & _).
    assert (update_of pd = UpFee (pd_amount pd)) as Eu by by apply update_of_fee.
    apply last_fee_Some. rewrite Eu in Hk. split; [apply upto_lookup_Some; split; [done | lia]|].
    intros k up [Hup Hki]%upto_lookup_Some Hf. destruct up; try done.
    destruct (decide (Exists (λ y, key y = Z.of_nat k) (ul_list (log_of lc p)))) as [(y & Hy & Ey)%Exists_exists|Hno].
    + destruct y as [m r]. destruct (lh_entry _ _ (ch_log _ _ H p) m r Hy) as (_ & Hr & _). unfold key in Ey. simpl in Ey.
      rewrite Ey, Nat2Z.id, Hup in Hr. injection Hr as Hr. symmetry in Hr. apply update_of_fee in Hr as [Ht' _].
      assert (key (m, r) ≤ key (n, pd)) as Hle.
      { apply (sorted_last l); [done..|]. apply Hl. unfold key. simpl. split_and!; [done | done | lia]. }
      unfold key in Hle. simpl in Hle. lia.
    + destruct (ch_gone _ _ H p k _ Hup) as [_ Hg].
      { intros m r Hr E. apply Hno, Exists_exists. by exists (m, r). }
      specialize (Hg n pd Hin Ht). lia.
  - intros k a [[Hk Hki]%upto_lookup_Some _]%last_fee_Some m pd Hin E.
    destruct (lh_entry _ _ (ch_log _ _ H p) m pd Hin) as (_ & Hpd & _).
    rewrite E, Nat2Z.id, Hk in Hpd. injection Hpd as Hpd. symmetry in Hpd. apply update_of_fee in Hpd as [Ht _].
    apply last_None in El. assert ((m, pd) ∈ l) as Hm. { apply Hl. unfold key. simpl. split_and!; [done | done | lia]. }
    rewrite El in Hm. by apply elem_of_nil in Hm.
Qed.

Lemma upto_all h i : Z.of_nat (length h) ≤ i → upto i h = h.
Proof. intros Hi. apply take_ge. lia. Qed.

Lemma entries_below_all h lc p :
  chan_hist h lc → entries_below (Z.of_nat (length (get_for_party h p))) (log_of lc p) = ul_list (log_of lc p).
Proof.
  intros H. apply bfilter_all. intros [k pd] Hin.
  destruct (lh_entry _ _ (ch_log _ _ H p) k pd Hin) as (Hge & Hk%lookup_lt_Some & _). apply Z.ltb_lt. simpl. lia.
Qed.

Section Fee.
Context (t n : Z) (h : dual (list update)) (lc : channel) (p : channel_party) (pd : payment_descriptor) (s : Z).
Hypothesis Hok : chan_ok t n lc.
Hypothesis H : chan_hist h lc.
Hypothesis Hn : n + 1 < 2 ^ 64.
Hypothesis Ht : pd_entry_type pd = FeeUpdate.
Hypothesis Hl : pd_log_index pd = ul_log_index (log_of lc p).
Hypothesis Hah : pd_add_heights pd = zero_heights.
Hypothesis Hrh : pd_remove_heights pd = zero_heights.
Hypothesis Hs : ∀ w, idx (tip (chain_of lc w)) p ≤ s.
Hypothesis Hs' : ∃ w, s = idx (tip (chain_of lc w)) p.

Lemma fee_uncommitted k r :
  (k, r) ∈ ul_list (log_of lc p) → pd_entry_type r = FeeUpdate →
  (dual_local (pd_add_heights r) =? 0) && (dual_remote (pd_add_heights r) =? 0) = (s <=? pd_log_index r).
Proof using Hok Hs Hs'.
  intros Hin Hr.
  assert (∀ w, (add_height w r =? 0) = true ↔ idx (tip (chain_of lc w)) p ≤ pd_log_index r) as Hw.
  { intros w. pose proof (ck_commit _ _ _ Hok w p k r Hin) as Hc.
    assert (is_uncommitted w r = (add_height w r =? 0)) as E by (unfold is_uncommitted; by rewrite Hr).
    rewrite E in Hc. rewrite <-not_false_iff_true, Hc. lia. }
  pose proof (Hw Local) as HL. pose proof (Hw Remote) as HR. unfold add_height in HL, HR. simpl in HL, HR.
  pose proof (Hs Local). pose proof (Hs Remote). destruct Hs' as [w Ew].
  apply eq_true_iff_eq. rewrite andb_true_iff, HL, HR, Z.leb_le. destruct w; lia.
Qed.

Lemma last_fee_log :
  match last_fee_update (ul_list (log_of lc p)) with
  | Some (k, r) => (k, r) ∈ ul_list (log_of lc p) ∧ pd_entry_type r = FeeUpdate ∧
      last_fee (get_for_party h p) = Some (Z.to_nat (pd_log_index r), pd_amount r)
  | None => ∀ k a, last_fee (get_for_party h p) = Some (k, a) → gone (log_of lc p) k
  end.
Proof using H.
  pose proof (last_fee_below h lc p (Z.of_nat (length (get_for_party h p))) H) as Hf. rewrite (entries_below_all h lc p H) in Hf.
  rewrite upto_all in Hf by lia. rewrite <-last_fee_update_last in Hf.
  destruct (last_fee_update _) as [[k r]|] eqn:E; [|done].
  apply last_fee_update_Some in E as [? ?]. done.
Qed.

Section Replace.
Context (k : node) (r : payment_descriptor) (b : Z).
Hypothesis Hin : (k, r) ∈ ul_list (log_of lc p).
Hypothesis Hr : pd_entry_type r = FeeUpdate.
Hypothesis Hlast : last_fee (get_for_party h p) = Some (Z.to_nat (pd_log_index r), b).
Hypothesis Hsr : s <= pd_log_index r.

Let lc' := set_log p (modify_nodes [k] (set_pd_amount (pd_amount pd)) (log_of lc p)) lc.
Let h' := grown h p s (UpFee (pd_amount pd)).

Lemma replace_hist : get_for_party h' p = <[Z.to_nat (pd_log_index r) := UpFee (pd_amount pd)]> (get_for_party h p).
Proof using H Hin Hlast Hsr.
  destruct (lh_entry _ _ (ch_log _ _ H p) k r Hin) as (Hge & _).
  unfold h'. rewrite grown_same. unfold add_update. rewrite Hlast, Z2Nat.id by done.
  by rewrite (proj2 (Z.leb_le _ _) Hsr).
Qed.

Lemma replace_elem q m a :
  (m, a) ∈ ul_list (log_of lc' q) →
  ∃ a0, (m, a0) ∈ ul_list (log_of lc q) ∧
    (a = a0 ∧ (q = p → pd_log_index a0 ≠ pd_log_index r) ∨
     q = p ∧ m = k ∧ a0 = r ∧ a = set_pd_amount (pd_amount pd) r).
Proof using Hok H Hin.
  destruct (party_cases p q) as [-> | ->].
  - unfold lc'. rewrite log_of_set_same. intros (a0 & Ha0 & ->)%modify_nodes_elem. exists a0. split; [done|].
    case_bool_decide as Hm.
    + apply list_elem_of_singleton in Hm as ->. right.
      by rewrite (nodup_fst_inj _ _ _ _ (lo_nodes _ (pair_log_ok lc p (ck_logs _ _ _ Hok))) Ha0 Hin).
    + left. split; [done|]. intros _ E. apply Hm, list_elem_of_singleton.
      assert ((m, a0) = (k, r)) as [= -> _]; [|done].
      apply (sorted_key_inj (ul_list (log_of lc p))); try done. apply (lh_sorted _ _ (ch_log _ _ H p)).
  - unfold lc'. rewrite log_of_set_other. intros Ha. exists a. split; [done|]. left. split; [done|].
    intros E. exfalso. clear -E. by destruct p.
Qed.

Lemma replace_mark q m a :
  (m, a) ∈ ul_list (log_of lc' q) →
  ∃ a0, (m, a0) ∈ ul_list (log_of lc q) ∧ pd_entry_type a = pd_entry_type a0 ∧ pd_log_index a = pd_log_index a0 ∧
    pd_htlc_index a = pd_htlc_index a0 ∧ pd_parent_index a = pd_parent_index a0 ∧ same_heights a a0.
Proof using Hok H Hin.
  intros (a0 & Ha0 & [[-> _]|(_ & _ & -> & ->)])%replace_elem; [by exists a0|]. by exists r.
Qed.

Lemma replace_chain w : chain_of lc' w = chain_of lc w.
Proof. unfold lc'. clear. by destruct p. Qed.

Lemma replace_gone q m : gone (log_of lc' q) m → gone (log_of lc q) m.
Proof using Type.
  intros Hg k' a Ha. unfold lc' in Hg. destruct (party_cases p q) as [-> | ->].
  - rewrite log_of_set_same in Hg. intros E. eapply (Hg k').
    + apply modify_nodes_elem. exists a. done.
    + by case_bool_decide.
  - rewrite log_of_set_other in Hg. by apply (Hg k').
Qed.

Lemma chan_hist_replace : chan_hist h' lc'.
Proof using All.
  pose proof (ch_log _ _ H p) as [Li Lc Le Ls Lx].
  destruct (Le k r Hin) as (Hge & Hk & _).
  assert (Z.to_nat (pd_log_index r) < length (get_for_party h p))%nat as Hlt by by eapply lookup_lt_Some.
  assert (adds (get_for_party h' p) = adds (get_for_party h p)) as Ea.
  { unfold h'. rewrite grown_same, add_update_adds. simpl. lia. }
  assert (∀ q, adds (get_for_party h' q) = adds (get_for_party h q)) as Eq.
  { intros q. destruct (party_cases p q) as [-> | ->]; [done|]. unfold h'. by rewrite grown_other. }
  assert (∀ q m up, get_for_party h' q !! m = Some up → get_for_party h q !! m = Some up ∨
    q = p ∧ m = Z.to_nat (pd_log_index r) ∧ up = UpFee (pd_amount pd)) as Hh.
  { intros q m up. destruct (party_cases p q) as [-> | ->]; [|unfold h'; rewrite grown_other; by left].
    rewrite replace_hist. intros [(<- & <- & _)|[_ ?]]%list_lookup_insert_Some; [by right | by left]. }
  split.
  - intros q. destruct (party_cases p q) as [-> | ->]; cycle 1.
    { unfold h', lc'. rewrite log_of_set_other, grown_other. apply (ch_log _ _ H). }
    split.
    + rewrite replace_hist, length_insert. unfold lc'. by rewrite log_of_set_same.
    + rewrite Ea. unfold lc'. by rewrite log_of_set_same.
    + intros m a (a0 & Ha0 & [[-> Hne]|(_ & -> & -> & ->)])%replace_elem.
      * destruct (Le m a0 Ha0) as (Hg0 & Hk0 & Ht0). split_and!; [done | | done].
        rewrite replace_hist, list_lookup_insert_ne; [done|]. specialize (Hne eq_refl). lia.
      * split_and!; [done | | simpl; by rewrite Hr]. rewrite replace_hist. simpl.
        rewrite list_lookup_insert_eq by done. unfold update_of. simpl. by rewrite Hr.
    + unfold lc'. rewrite log_of_set_same. unfold modify_nodes. simpl. clear -Ls. induction Ls as [|x l Hs IH Hx]; [constructor|].
      assert (∀ x, key (write_node [k] (set_pd_amount (pd_amount pd)) x) = key x) as Hkey.
      { intros y. unfold write_node. by case_bool_decide. }
      simpl. constructor; [done|]. rewrite Forall_forall in *. intros y (z & -> & Hz)%list_elem_of_fmap.
      rewrite !Hkey. by apply Hx.
    + unfold h'. rewrite grown_same. by apply add_update_indexed.
  - intros q m up i Hm Hi. rewrite Eq. apply Hh in Hm as [Hm|(-> & -> & ->)]; [by eapply (ch_known _ _ H) | done].
  - intros q m up Hm Hg%replace_gone.
    assert (get_for_party h q !! m = Some up) as Hm0.
    { apply Hh in Hm as [Hm|(-> & -> & ->)]; [done|]. exfalso. apply (Hg k r Hin). lia. }
    destruct (ch_gone _ _ H q m up Hm0 Hg) as [H1 H2]. setoid_rewrite replace_chain. split; [done|].
    unfold gone_for in *. destruct up as [? ? ? i|i ?|i ?|?].
    + intros w. rewrite replace_chain. unfold h'.
      rewrite (grown_upto t n h lc p s _ _ w Hok H Hs); [apply H2 | by apply (tail_tip t n)].
    + intros m' a (a0 & Ha0 & Et & _ & Eh & _)%replace_mark Hadd. rewrite Eh. apply (H2 m' a0 Ha0).
      unfold is_add in *. by rewrite <-Et.
    + intros m' a (a0 & Ha0 & Et & _ & Eh & _)%replace_mark Hadd. rewrite Eh. apply (H2 m' a0 Ha0).
      unfold is_add in *. by rewrite <-Et.
    + intros m' a (a0 & Ha0 & Et & El & _)%replace_mark Hf. rewrite El. apply (H2 m' a0 Ha0). by rewrite <-Et.
  - intros w q m a (a0 & Ha0 & Et & _ & _ & _ & [Eh1 Eh2])%replace_mark Hf.
    unfold add_height, remove_height. rewrite Eh1, Eh2. apply (ch_fee _ _ H w q m a0 Ha0). by rewrite <-Et.
  - intros w q m a c (a0 & Ha0 & Et & El & _ & _ & [Eh1 Eh2])%replace_mark. rewrite replace_chain.
    assert (log_height w a = log_height w a0) as ->.
    { unfold log_height, add_height, remove_height, is_add. by rewrite Et, Eh1, Eh2. }
    rewrite El. by apply (ch_height _ _ H w q m).
  - intros w q m x m' a c Hc (x0 & Hx0 & Et & El & _ & Ep & _)%replace_mark Hres Hidx
      (a0 & Ha0 & Et' & El' & Eh' & _)%replace_mark Hadd Hi. rewrite replace_chain in *.
    rewrite El'. eapply (ch_parent _ _ H w q m x0 m' a0 c); try done.
    + unfold is_resolution in *. by rewrite <-Et.
    + by rewrite <-El.
    + unfold is_add in *. by rewrite <-Et'.
    + congruence.
Qed.
End Replace.

Lemma chan_hist_fee :
  chan_hist (grown h p s (UpFee (pd_amount pd))) (set_log p (append_fee_update pd (log_of lc p)) lc).
Proof using All.
  unfold append_fee_update. pose proof last_fee_log as Hf.
  assert (update_of pd = UpFee (pd_amount pd)) as Eu by by apply update_of_fee.
  assert (is_add pd = false) as Ha by (unfold is_add; by rewrite Ht).
  pose proof (ck_bound _ _ _ Hok p) as [B1 B2]. pose proof (pair_log_ok lc p (ck_logs _ _ _ Hok)) as P.
  assert (add_update s (UpFee (pd_amount pd)) (get_for_party h p) = get_for_party h p ++ [UpFee (pd_amount pd)] →
    chan_hist (grown h p s (UpFee (pd_amount pd))) (set_log p (append_update pd (log_of lc p)) lc)) as Hpush.
  { rewrite <-Eu. intros Hnew. rewrite <-set_log_twice. apply (chan_hist_push t n); try done.
    - apply u64_small. pose proof (lo_counters _ P). in_range.
    - rewrite Ha. simpl. lia.
    - by rewrite Ha.
    - by rewrite Ht.
    - by rewrite Eu. }
  destruct (last_fee_update _) as [[k r]|]; cycle 1.
  { apply Hpush. unfold add_update. destruct (last_fee _) as [[l b]|] eqn:E; [|done].
    destruct (s <=? Z.of_nat l) eqn:El; [|done]. apply Z.leb_le in El. exfalso.
    pose proof (proj1 (last_fee_Some _ _ _) E) as [Hk _].
    destruct (ch_gone _ _ H p l _ Hk (Hf _ _ eq_refl)) as [Hg _]. destruct Hs' as [w Ew].
    specialize (Hg w). pose proof (tail_tip t n lc w p Hok). lia. }
  destruct Hf as (Hin & Hr & Hlast). rewrite (fee_uncommitted k r Hin Hr).
  destruct (s <=? pd_log_index r) eqn:El.
  - apply Z.leb_le in El. by apply (chan_hist_replace k r (pd_amount r)).
  - apply Hpush. unfold add_update. rewrite Hlast. destruct (lh_entry _ _ (ch_log _ _ H p) k r Hin) as (Hge & _).
    by rewrite Z2Nat.id, El.
Qed.
End Fee.

(** ** A new commitment *)

Lemma commit_height_mark w h pd :
  update_of (set_commit_height w h pd) = update_of pd ∧ log_height w (set_commit_height w h pd) = h ∧
  ∀ w', w ≠ w' → log_height w' (set_commit_height w h pd) = log_height w' pd.
Proof.
  unfold set_commit_height, log_height, update_of, is_add, add_height, remove_height.
  destruct (pd_entry_type pd) eqn:E; simpl; rewrite E; simpl; (split; [done|]); (split; [by destruct w|]);
    intros w' Hw; by destruct w, w'.
Qed.

Lemma uncommitted_height h lc w p k pd :
  chan_hist h lc → (k, pd) ∈ ul_list (log_of lc p) → is_uncommitted w pd = (log_height w pd =? 0).
Proof.
  intros H Hin. pose proof (ch_fee _ _ H w p k pd Hin) as Hf.
  unfold is_uncommitted, log_height, is_add. destruct (pd_entry_type pd); try done. by rewrite (Hf eq_refl).
Qed.

Section Commit.
Context (t n : Z) (h : dual (list update)) (lc : channel) (w : channel_party) (c : commitment).
Hypothesis Hok : chan_ok t n lc.
Hypothesis H : chan_hist h lc.
Hypothesis Hb : ∀ p, idx (tip (chain_of lc w)) p ≤ idx c p ≤ ul_log_index (log_of lc p).
Hypothesis Ho : match w with
                | Local => idx c Local ≤ idx (tail (chain_of lc Remote)) Local
                | Remote => idx c Remote ≤ idx (tail (chain_of lc Local)) Remote
                end.
Hypothesis Hh : cm_height c = cm_height (tip (chain_of lc w)) + 1.
Hypothesis Hpar : ∀ p k r m a, (k, r) ∈ ul_list (log_of lc p) → is_resolution r = true → pd_log_index r < idx c p →
  (m, a) ∈ ul_list (log_of lc (counter_party p)) → is_add a = true → pd_htlc_index a = pd_parent_index r →
  pd_log_index a < idx (tip (chain_of lc w)) (counter_party p).

Let lc' := set_chain w (add_commitment c (chain_of lc w)) (commit_logs w (cm_height c) (cm_message_indices c) lc).

Lemma commit_from p k pd' :
  (k, pd') ∈ ul_list (log_of lc' p) →
  ∃ pd, (k, pd) ∈ ul_list (log_of lc p) ∧ same_content pd' pd ∧ update_of pd' = update_of pd ∧
    (∀ w', w ≠ w' → log_height w' pd' = log_height w' pd) ∧
    (log_height w pd' = log_height w pd ∧ (log_height w pd ≠ 0 ∨ idx c p ≤ pd_log_index pd) ∨
     log_height w pd' = cm_height c ∧ log_height w pd = 0 ∧ pd_log_index pd < idx c p).
Proof using Hok H Hb Ho Hh.
  intros Hin. destruct (commit_back t n lc w c Hok Hb Ho Hh p k pd' Hin) as (pd & Hin0 & Hs & Hc).
  exists pd. split; [done|]. split; [done|]. rewrite (uncommitted_height h lc w p k pd H Hin0), Z.eqb_eq in Hc.
  destruct Hc as [[-> Hn]|(-> & Hlt & Hz)].
  - split_and!; [done | done|]. left. split; [done|]. lia.
  - destruct (commit_height_mark w (cm_height c) pd) as (Eu & Eh & Ew). split_and!; [done | done|]. by right.
Qed.

Lemma commit_gone p k : gone (log_of lc' p) k → gone (log_of lc p) k.
Proof using Hb Ho Hh.
  intros Hg m pd Hin. unfold lc' in Hg. rewrite (commit_log_of lc w c Hb Ho Hh) in Hg.
  destruct (modify_forth (fresh_nodes w (idx c p) (log_of lc p)) (set_commit_height w (cm_height c)) (log_of lc p))
    with (n := m) (pd0 := pd) as (pd' & Hin' & Hs); [intros; apply commit_height_content | done|].
  rewrite <-(sc_log _ _ Hs). by apply (Hg m).
Qed.

Lemma commit_tail w' : tail (chain_of lc' w') = tail (chain_of lc w').
Proof using Hb Ho Hh.
  destruct (decide (w = w')) as [<-|Hne].
  - unfold lc'. by rewrite (commit_chain_same lc w c Hb Ho Hh).
  - unfold lc'. by rewrite (commit_chain_other lc w c Hb Ho Hh).
Qed.

Lemma commit_log_hist p : log_hist (get_for_party h p) (log_of lc' p).
Proof using Hok H Hb Ho Hh.
  pose proof (ch_log _ _ H p) as [Li Lc Le Ls Lx]. split; try done.
  - rewrite <-Li. unfold lc'. by rewrite (commit_log_of lc w c Hb Ho Hh).
  - rewrite <-Lc. unfold lc'. by rewrite (commit_log_of lc w c Hb Ho Hh).
  - intros k pd' (pd & Hin & Hs & Hu & _)%commit_from. rewrite (sc_log _ _ Hs), (sc_type _ _ Hs), Hu. by apply (Le k).
  - unfold lc'. rewrite (commit_log_of lc w c Hb Ho Hh). unfold modify_nodes. simpl. clear -Ls.
    set (g := write_node _ _). assert (∀ x, key (g x) = key x) as Hkey.
    { intros y. unfold g, write_node. case_bool_decide; [|done]. apply (sc_log _ _ (commit_height_content w (cm_height c) y.2)). }
    induction Ls as [|x l Hs IH Hx]; [constructor|].
    simpl. constructor; [done|]. rewrite Forall_forall in *. intros y (z & -> & Hz)%list_elem_of_fmap.
    rewrite !Hkey. by apply Hx.
Qed.

Lemma chan_hist_commit : chan_hist h lc'.
Proof using Hok H Hb Ho Hh Hpar.
  split.
  - apply commit_log_hist.
  - apply (ch_known _ _ H).
  - intros p k up Hk Hg%commit_gone. destruct (ch_gone _ _ H p k up Hk Hg) as [H1 H2].
    split; [by setoid_rewrite commit_tail|]. unfold gone_for in *. destruct up as [? ? ? i|i ?|i ?|?].
    + by setoid_rewrite commit_tail.
    + intros m a (a0 & Ha0 & Hs & _)%commit_from. rewrite (same_content_is_add _ _ Hs), (sc_htlc _ _ Hs). by apply (H2 m).
    + intros m a (a0 & Ha0 & Hs & _)%commit_from. rewrite (same_content_is_add _ _ Hs), (sc_htlc _ _ Hs). by apply (H2 m).
    + intros m a (a0 & Ha0 & Hs & _)%commit_from. rewrite (sc_type _ _ Hs), (sc_log _ _ Hs). by apply (H2 m).
  - intros w' p k pd' Hin Ht.
    destruct (commit_back t n lc w c Hok Hb Ho Hh p k pd' Hin) as (pd & Hin0 & Hs & Hc).
    rewrite (sc_type _ _ Hs) in Ht. pose proof (ch_fee _ _ H w' p k pd Hin0 Ht) as Hf.
    destruct Hc as [[-> _]|(-> & _)]; [done|]. revert Hf. unfold set_commit_height, add_height, remove_height.
    rewrite Ht. simpl. by destruct w, w'.
  - intros w' p k pd' c' (pd & Hin & Hs & _ & Hw & Hc)%commit_from Hc'. rewrite (sc_log _ _ Hs).
    pose proof (uncommitted_height h lc w p k pd H Hin) as Hu. pose proof (ck_commit _ _ _ Hok w p k pd Hin) as Hcm.
    rewrite Hu, Z.eqb_neq in Hcm. pose proof (Hb p) as Hbp.
    destruct (decide (w = w')) as [<-|Hne]; cycle 1.
    { unfold lc' in Hc'. rewrite (commit_chain_other lc w c Hb Ho Hh) in Hc' by done. rewrite (Hw w') by done.
      by apply (ch_height _ _ H w' p k). }
    apply (commit_chain_elem lc w c Hb Ho Hh) in Hc' as [Hc'|[_ ->]].
    + destruct Hc as [[-> _]|(-> & Hz & Hlt)]; [by apply (ch_height _ _ H w p k)|]. intros _.
      pose proof (chain_height_tip _ _ (ck_chain _ _ _ Hok w) Hc').
      pose proof (chain_idx _ _ p (ck_chain _ _ _ Hok w) Hc'). lia.
    + destruct Hc as [[-> Hz]|(-> & Hz & Hlt)]; [|lia]. intros Hnz.
      pose proof (ch_height _ _ H w p k pd _ Hin (tip_elem _) Hnz). lia.
  - intros w' p k r' m a' c' Hc' (r & Hin & Hs & _)%commit_from Hr Hlt (a & Hin' & Hs' & _)%commit_from Ha Hi.
    rewrite (same_content_is_resolution _ _ Hs) in Hr. rewrite (same_content_is_add _ _ Hs') in Ha.
    rewrite (sc_log _ _ Hs) in Hlt. rewrite (sc_log _ _ Hs'). rewrite (sc_htlc _ _ Hs'), (sc_parent _ _ Hs) in Hi.
    apply (commit_chain_elem lc w c Hb Ho Hh) in Hc' as [Hc'|[-> ->]].
    + by apply (ch_parent _ _ H w' p k r m a).
    + pose proof (Hpar p k r m a Hin Hr Hlt Hin' Ha Hi). specialize (Hb (counter_party p)). lia.
Qed.
End Commit.
End Past.
