(* ===== verification/ChannelCompact.v ===== *)
(** * Histories through compaction

    What compaction removes has left both chains for good: an HTLC with the
    resolution that both tails have, and a fee update that both tails have and
    that no older one outlives. *)

From S2P Require Import Prelude Chainfee Shachain UpdateLog Channel ChannelLog ChannelView ChannelInv ChannelCommit.
From S2P Require Import ChannelAfter ChannelSteps ChannelHist ChannelPast.

Section Compact.
Context {HP : HashPrims}.

(** ** What is removed *)

(** Why an entry of the first log goes. *)
Definition removable (lt rt : Z) (v v' : update_log) (pd : payment_descriptor) : Prop :=
  (pd_entry_type pd = FeeUpdate ∧ locked lt rt pd) ∨
  (is_resolution pd = true ∧ locked lt rt pd ∧
     ∀ m a, (m, a) ∈ ul_list v' → is_add a = true → pd_htlc_index a ≠ pd_parent_index pd) ∨
  (is_add pd = true ∧ ∃ m r, (m, r) ∈ ul_list v ∧ is_resolution r = true ∧ locked lt rt r ∧
     pd_parent_index r = pd_htlc_index pd).

Lemma removable_from lt rt v1 v v' pd :
  (∀ x, x ∈ ul_list v1 → x ∈ ul_list v) → removable lt rt v1 v' pd → removable lt rt v v' pd.
Proof.
  intros Hs [?|[?|(Ha & m & r & Hin & ?)]]; [by left | right; by left |]. right. right.
  split; [done|]. exists m, r. split; [by apply Hs | done].
Qed.

Lemma either_steps_removed lt rt p q k pd :
  pair_ok p.1 p.2 → rtc (either_step lt rt) p q →
  (k, pd) ∈ ul_list p.1 → (k, pd) ∉ ul_list q.1 → removable lt rt p.2 q.2 pd.
Proof.
  intros P Hr. induction Hr as [p|[u v] [u1 v1] q Hst Hr IH]; [done|]. intros Hin Hout. simpl in *.
  assert (pair_ok u1 v1) as P1.
  { apply (either_steps_ok lt rt (u, v) (u1, v1)); [by apply rtc_once | done]. }
  assert (∀ x, (x ∈ ul_list u1 → x ∈ ul_list u) ∧ (x ∈ ul_list v1 → x ∈ ul_list v)) as Hsub.
  { intros x. apply (either_step_sub lt rt (u, v) (u1, v1) x). by apply rtc_once. }
  assert ((k, pd) ∈ ul_list u1 → removable lt rt v q.2 pd) as Hlater.
  { intros Hin1. eapply removable_from; [|by apply IH]. intros x. by apply Hsub. }
  destruct Hst as [Hst|Hst]; simpl in Hst;
    inversion Hst as [? ? ? n f Hf Ht Hl Hok Hd Hm|? ? ? ? n r m a Hrin Hres Hl Ha Hadd Hp Hok Hd Hm Hok' Hd' Hm']; subst.
  - destruct (decide (k = n)) as [->|Hne]; [|by apply Hlater, (dropped_elem _ _ _ Hd)]. left.
    by rewrite (nodup_fst_inj _ _ _ _ (lo_nodes _ (po_left _ _ P)) Hin Hf).
  - destruct (decide (k = n)) as [->|Hne]; [|by apply Hlater, (dropped_elem _ _ _ Hd)]. right. left.
    rewrite (nodup_fst_inj _ _ _ _ (lo_nodes _ (po_left _ _ P)) Hin Hrin). split; [done|]. split; [done|].
    intros m' a' Ha' Hadd' Hi. apply (either_step_sub _ _ _ _ (m', a') Hr) in Ha'. simpl in Ha'.
    apply (dropped_elem _ _ _ Hd') in Ha' as [Ha' Hne]. apply Hne.
    by eapply (add_unique v m' m a' a); [apply P | done..|]; rewrite Hi, Hp.
  - by apply Hlater.
  - destruct (decide (k = m)) as [->|Hne]; [|by apply Hlater, (dropped_elem _ _ _ Hd')]. right. right.
    rewrite (nodup_fst_inj _ _ _ _ (lo_nodes _ (po_left _ _ P)) Hin Ha). split; [done|]. by exists n, r.
Qed.

(** The same for the second log. *)
Lemma either_steps_swap lt rt p q : rtc (either_step lt rt) p q → rtc (either_step lt rt) (p.2, p.1) (q.2, q.1).
Proof.
  apply (rtc_congruence (λ p, (p.2, p.1))). intros [u0 v0] [u1 v1] [Hs|Hs]; [by right | by left].
Qed.

(** Every fee update that both tails have is removed. *)
Lemma compact_entry_fee lt rt u v x :
  pair_ok u v → adds_stay u → x ∈ ul_list u → pd_entry_type x.2 = FeeUpdate → locked lt rt x.2 →
  ∃ u' v', compact_entry lt rt (u, v) x = Ok (u', v') ∧ compact_step lt rt (u, v) (u', v') ∧ dropped x.1 u u'.
Proof.
  intros P Hs Hin Ht Hl. destruct (compact_entry_step lt rt u v x P Hs Hin) as [E|?]; [exfalso | done].
  destruct x as [n pd]. simpl in *.
  destruct (remove_update_Ok u n pd (po_left _ _ P) Hin) as (u' & Hu' & _ & Hlist & _).
  { unfold is_add. by rewrite Ht. }
  revert E. rewrite bool_decide_false by (by rewrite Ht). destruct Hl as (Hz1 & Hz2 & Hle1 & Hle2).
  rewrite (proj2 (Z.eqb_neq _ _) Hz1), (proj2 (Z.eqb_neq _ _) Hz2). simpl.
  rewrite (proj2 (Z.geb_le _ _) Hle1), (proj2 (Z.geb_le _ _) Hle2), Hu'. simpl.
  rewrite bool_decide_true by done. intros [= ->]. rewrite Hlist in Hin. by apply remove_elem in Hin as [_ ?].
Qed.

Lemma compact_fold_fees lt rt l u v u' v' :
  pair_ok u v → adds_stay u → NoDup l.*1 → (∀ x, x ∈ l → x ∈ ul_list u) →
  fold_result (compact_entry lt rt) l (u, v) = Ok (u', v') →
  ∀ x, x ∈ l → pd_entry_type x.2 = FeeUpdate → locked lt rt x.2 → x ∉ ul_list u'.
Proof.
  revert u v. induction l as [|y l IH]; intros u v P Hs Hnd Hl E x Hx Ht Hlk; [by apply elem_of_nil in Hx|].
  change (rbind (compact_entry lt rt (u, v) y) (fold_result (compact_entry lt rt) l) = Ok (u', v')) in E.
  apply NoDup_cons in Hnd as [Hy Hnd].
  assert (∀ u1 v1, compact_step lt rt (u, v) (u1, v1) → dropped y.1 u u1 →
    fold_result (compact_entry lt rt) l (u1, v1) = Ok (u', v') →
    pair_ok u1 v1 ∧ adds_stay u1 ∧ (∀ x, x ∈ l → x ∈ ul_list u1) ∧ (∀ x, x ∈ ul_list u' → x ∈ ul_list u1)) as Hnext.
  { intros u1 v1 Hst Hd E1. assert (pair_ok u1 v1) as P1 by by eapply compact_step_ok.
    assert (adds_stay u1) as Hs1. { intros n pd [Hin _]%(dropped_elem _ _ _ Hd). by apply (Hs n pd). }
    assert (∀ x, x ∈ l → x ∈ ul_list u1) as Hl1.
    { intros [n pd] Hz. apply (dropped_elem _ _ _ Hd). split; [apply Hl; by right|].
      intros ->. apply Hy, list_elem_of_fmap. by exists (y.1, pd). }
    split_and!; [done | done | done|]. intros z Hz.
    destruct (compact_log_steps lt rt l u1 v1 P1 Hs1 Hnd Hl1) as (u2 & v2 & E2 & Hr).
    rewrite E1 in E2. injection E2 as <- <-.
    assert (rtc (either_step lt rt) (u1, v1) (u', v')) as Hr'.
    { eapply rtc_congruence with (f := id); [|exact Hr]. by left. }
    apply (either_step_sub _ _ _ _ z) in Hr' as [Hr' _]. by apply Hr'. }
  apply elem_of_cons in Hx as [->|Hx].
  - destruct (compact_entry_fee lt rt u v y P Hs) as (u1 & v1 & E1 & Hst & Hd); [apply Hl; by left | done | done|].
    rewrite E1 in E. simpl in E. destruct (Hnext u1 v1 Hst Hd E) as (_ & _ & _ & Hsub).
    intros Hin%Hsub. destruct y as [n pd]. by apply (dropped_elem _ _ _ Hd) in Hin as [_ ?].
  - destruct (compact_entry_step lt rt u v y P Hs) as [E1|(u1 & v1 & E1 & Hst & Hd)]; [apply Hl; by left | |];
      rewrite E1 in E; simpl in E.
    + apply (IH u v); try done. intros z Hz. apply Hl. by right.
    + destruct (Hnext u1 v1 Hst Hd E) as (P1 & Hs1 & Hl1 & _). by apply (IH u1 v1).
Qed.

Lemma compact_logs_fees lt rt u v u' v' :
  pair_ok u v → adds_stay u → adds_stay v → compact_logs u v lt rt = Ok (u', v') →
  ∀ x, x ∈ ul_list u' ∨ x ∈ ul_list v' → pd_entry_type x.2 = FeeUpdate → ¬ locked lt rt x.2.
Proof.
  intros P Hu Hv. unfold compact_logs, compact_log.
  destruct (compact_log_steps lt rt (ul_list u) u v P Hu) as (u1 & v1 & E1 & H1); [apply P | done|].
  rewrite E1. cbn [rbind].
  assert (rtc (either_step lt rt) (u, v) (u1, v1)) as H1'.
  { eapply rtc_congruence with (f := id); [|exact H1]. by left. }
  pose proof (either_steps_ok _ _ _ _ H1' P) as P1. simpl in P1.
  assert (adds_stay v1) as Hv1. { intros n pd Hin. apply (either_step_sub _ _ _ _ (n, pd) H1') in Hin. by apply Hv in Hin. }
  destruct (compact_log_steps lt rt (ul_list v1) v1 u1) as (v2 & u2 & E2 & H2);
    [by apply pair_ok_sym | done | apply P1 | done|].
  rewrite E2. intros [= <- <-] x Hx Ht Hl.
  assert (rtc (either_step lt rt) (v1, u1) (v2, u2)) as H2'.
  { eapply rtc_congruence with (f := id); [|exact H2]. by left. }
  destruct Hx as [Hx|Hx].
  - apply (either_step_sub _ _ _ _ x H2') in Hx. simpl in Hx.
    pose proof (either_step_sub _ _ _ _ x H1') as [Hsub _]. simpl in Hsub.
    by eapply (compact_fold_fees lt rt (ul_list u) u v u1 v1); [done | done | apply P | done | exact E1 | by apply Hsub | | |].
  - pose proof (either_step_sub _ _ _ _ x H2') as [Hsub _]. simpl in Hsub.
    by eapply (compact_fold_fees lt rt (ul_list v1) v1 u1 v2 u2);
      [by apply pair_ok_sym | done | apply P1 | done | exact E2 | by apply Hsub | | |].
Qed.

Lemma either_steps_sorted lt rt p q :
  rtc (either_step lt rt) p q →
  StronglySorted (λ x y, key x < key y) (ul_list p.1) → StronglySorted (λ x y, key x < key y) (ul_list q.1).
Proof.
  assert (∀ n u u', dropped n u u' → StronglySorted (λ x y, key x < key y) (ul_list u) →
    StronglySorted (λ x y, key x < key y) (ul_list u')) as Hdrop.
  { intros n u u' Hd Hs. rewrite (dr_list _ _ _ Hd). by apply sorted_filter. }
  induction 1 as [|[u v] [u1 v1] q [Hst|Hst] _ IH]; [done| |]; intros Hs; apply IH; simpl in *;
    inversion Hst; subst; eauto.
Qed.

(** ** A compacted channel *)

Section Channel.
Context (t n : Z) (h : dual (list update)) (lc : channel) (u v : update_log).
Let lt := cm_height (tail (chain_of lc Local)).
Let rt := cm_height (tail (chain_of lc Remote)).
Hypothesis Hok : chan_ok t n lc.
Hypothesis H : chan_hist h lc.
Hypothesis Hc : compact_logs (log_of lc Local) (log_of lc Remote) lt rt = Ok (u, v).

Let lc' := set_update_logs (Dual u v) lc.

Lemma compact_steps p :
  rtc (either_step lt rt) (log_of lc p, log_of lc (counter_party p)) (log_of lc' p, log_of lc' (counter_party p)).
Proof using Hok Hc.
  destruct (compact_logs_steps lt rt (log_of lc Local) (log_of lc Remote)) as (u' & v' & E & Hr);
    [apply (ck_logs _ _ _ Hok) | apply (ck_stay _ _ _ Hok Local) | apply (ck_stay _ _ _ Hok Remote) |].
  rewrite Hc in E. injection E as <- <-. destruct p; [exact Hr|]. exact (either_steps_swap _ _ _ _ Hr).
Qed.

Lemma compact_sub p x : x ∈ ul_list (log_of lc' p) → x ∈ ul_list (log_of lc p).
Proof using Hok Hc. apply (either_step_sub _ _ _ _ x (compact_steps p)). Qed.

Lemma compact_removed p k pd :
  (k, pd) ∈ ul_list (log_of lc p) → (k, pd) ∉ ul_list (log_of lc' p) →
  removable lt rt (log_of lc (counter_party p)) (log_of lc' (counter_party p)) pd.
Proof using Hok Hc.
  assert (pair_ok (log_of lc p) (log_of lc (counter_party p))) as P by apply pair_ok_party, (ck_logs _ _ _ Hok).
  exact (either_steps_removed lt rt (_, _) _ k pd P (compact_steps p)).
Qed.

Lemma compact_unlocked p k pd :
  (k, pd) ∈ ul_list (log_of lc' p) → pd_entry_type pd = FeeUpdate → ¬ locked lt rt pd.
Proof using Hok Hc.
  intros Hin. apply (compact_logs_fees lt rt (log_of lc Local) (log_of lc Remote) u v) with (x := (k, pd)); try done.
  - apply (ck_logs _ _ _ Hok).
  - apply (ck_stay _ _ _ Hok Local).
  - apply (ck_stay _ _ _ Hok Remote).
  - destruct p; [by left | by right].
Qed.

(** What both tails have is what both tails have removed. *)
Lemma locked_tails p k pd :
  (k, pd) ∈ ul_list (log_of lc p) → is_add pd = false →
  locked lt rt pd ↔ ∀ w, pd_log_index pd < idx (tail (chain_of lc w)) p.
Proof using Hok H.
  intros Hin Ha.
  assert (∀ w, log_height w pd = remove_height w pd) as Eh by (intros w; unfold log_height; by rewrite Ha).
  assert (∀ w, remove_height w pd ≠ 0 ∧ remove_height w pd ≤ cm_height (tail (chain_of lc w)) ↔
    pd_log_index pd < idx (tail (chain_of lc w)) p) as Hw.
  { intros w. pose proof (ch_height _ _ H w p k pd _ Hin (tail_elem (chain_of lc w))) as Hh.
    pose proof (uncommitted_height h lc w p k pd H Hin) as Hu. pose proof (ck_commit _ _ _ Hok w p k pd Hin) as Hcm.
    pose proof (tail_tip t n lc w p Hok). rewrite Hu, Z.eqb_neq, Eh in Hcm. rewrite Eh in Hh. split.
    - intros [Hz Hle]. by apply Hh.
    - intros Hlt. assert (remove_height w pd ≠ 0) as Hz by (apply Hcm; lia). split; [done|]. by apply Hh. }
  pose proof (Hw Local) as HL. pose proof (Hw Remote) as HR. unfold remove_height in HL, HR. simpl in HL, HR.
  unfold locked. fold lt rt in HL, HR. cbv zeta. split.
  - intros (H1 & H2 & H3 & H4) []; tauto.
  - intros Ht. pose proof (Ht Local) as Ht1. pose proof (Ht Remote) as Ht2. apply HL in Ht1 as []. by apply HR in Ht2 as [].
Qed.

Lemma chan_hist_compact : chan_hist h lc'.
Proof using Hok H Hc.
  split.
  - intros p. destruct (ch_log _ _ H p) as [Li Lc Le Ls Lx].
    pose proof (either_steps_counters _ _ _ _ (compact_steps p)) as (E1 & _ & E2 & _). simpl in E1, E2. split.
    + by rewrite E1.
    + by rewrite E2.
    + intros k pd Hin%compact_sub. by apply (Le k).
    + by apply (either_steps_sorted _ _ _ _ (compact_steps p)).
    + done.
  - apply (ch_known _ _ H).
  - intros p k up Hk Hg.
    destruct (decide (Exists (λ x, key x = Z.of_nat k) (ul_list (log_of lc p)))) as [(x & Hin & Ex)%Exists_exists|Hno]; cycle 1.
    { destruct (ch_gone _ _ H p k up Hk) as [H1 H2].
      { intros m r Hr E. apply Hno, Exists_exists. by exists (m, r). }
      split; [done|]. unfold gone_for in *. destruct up as [? ? ? i|i ?|i ?|?]; [done| | |];
        intros m r Hr%compact_sub; by apply (H2 m). }
    destruct x as [m pd]. unfold key in Ex. simpl in Ex.
    destruct (lh_entry _ _ (ch_log _ _ H p) m pd Hin) as (_ & Hk' & _). rewrite Ex, Nat2Z.id, Hk in Hk'.
    injection Hk' as Eu.
    assert ((m, pd) ∉ ul_list (log_of lc' p)) as Hout. { intros Hin'. by apply (Hg m pd Hin'). }
    destruct (compact_removed p m pd Hin Hout) as [[Ht Hl]|[(Hr & Hl & Hpar)|(Ha & m' & r & Hr & Hres & Hl & Hpar)]].
    + assert (is_add pd = false) as Ha by (unfold is_add; by rewrite Ht).
      pose proof (proj1 (locked_tails p m pd Hin Ha) Hl) as Htl. rewrite Ex in Htl. split; [done|].
      assert (up = UpFee (pd_amount pd)) as -> by (rewrite Eu; by apply update_of_fee). simpl.
      intros m' pd' Hin' Ht'. pose proof (compact_unlocked p m' pd' Hin' Ht') as Hun.
      pose proof (Hg m' pd' Hin') as Hne. apply compact_sub in Hin'.
      rewrite (locked_tails p m' pd' Hin') in Hun by (unfold is_add; by rewrite Ht').
      destruct (Z.lt_trichotomy (Z.of_nat k) (pd_log_index pd')) as [|[?|?]]; [done | congruence |].
      exfalso. apply Hun. intros w. specialize (Htl w). lia.
    + pose proof (proj1 (locked_tails p m pd Hin (resolution_not_add _ Hr)) Hl) as Htl. rewrite Ex in Htl. split; [done|].
      unfold gone_for. rewrite Eu. revert Hr. unfold is_resolution, update_of. by destruct (pd_entry_type pd).
    + pose proof (proj1 (locked_tails _ m' r Hr (resolution_not_add _ Hres)) Hl) as Htl.
      assert (∀ w, pd_log_index pd < idx (tail (chain_of lc w)) p) as Htl'.
      { intros w. rewrite <-(counter_party_involutive p). eapply (ch_parent _ _ H w _ m' r m pd); try done.
        - apply tail_elem.
        - by rewrite counter_party_involutive. }
      rewrite Ex in Htl'. split; [done|].
      destruct (lh_entry _ _ (ch_log _ _ H _) m' r Hr) as (Hge & Hk'' & _).
      assert (∃ a b c, up = UpAdd a b c (pd_htlc_index pd)) as (a & b & c & ->).
      { rewrite Eu. revert Ha. unfold is_add, update_of. destruct (pd_entry_type pd); try done; by eauto. }
      simpl. intros w. change (chain_of lc' w) with (chain_of lc w). apply resolved_true. exists (Z.to_nat (pd_log_index r)), (update_of r). split.
      * apply upto_lookup_Some. split; [done|]. specialize (Htl w). lia.
      * rewrite <-Hpar. revert Hres. unfold is_resolution, update_of. by destruct (pd_entry_type r).
  - intros w p k pd Hin%compact_sub. by apply (ch_fee _ _ H w p k).
  - intros w p k pd c Hin%compact_sub. by apply (ch_height _ _ H w p k).
  - intros w p k r m a c Hcc Hin%compact_sub Hr Hlt Hin'%compact_sub. by apply (ch_parent _ _ H w p k r m a).
Qed.
End Channel.
End Compact.
