(* ===== verification/ChannelClosed.v ===== *)
(** * Commitments in closed form

    What a commitment holds, as a function of the two histories up to its
    indexes: the balances, the fee rate, the HTLCs and the outputs. *)

From S2P Require Import Prelude Chainfee Shachain UpdateLog Channel ChannelLog ChannelView ChannelInv ChannelCommit.
From S2P Require Import ChannelAfter ChannelSteps ChannelHist ChannelPast ChannelCompact.

(** ** A commitment and the histories *)

(** The output of an HTLC, and whether it has one. *)
Definition up_amount (up : update) : Z := match up with UpAdd _ _ a _ => a | _ => 0 end.
Definition out_of (incoming : bool) (up : update) : tx_out :=
  match up with
  | UpAdd _ e a i => HtlcOut incoming e i (to_satoshis a)
  | _ => HtlcOut incoming 0 0 0
  end.
Definition up_not_dust (p : channel_params) (w : channel_party) (incoming : bool) (rate : Z) (up : update) : bool :=
  negb (htlc_is_dust (pr_chan_type p) incoming w rate (to_satoshis (up_amount up)) (cfg_dust_limit (cfg_for p w))).
Definition up_outputs (p : channel_params) (w : channel_party) (incoming : bool) (rate : Z) (l : list update) :
    list update :=
  List.filter (up_not_dust p w incoming rate) l.

(** The HTLCs of a commitment. *)
Definition updates_of (c : commitment) (p : channel_party) : list update := map update_of (htlcs_of c p).

Definition num_outputs (p : channel_params) (w : channel_party) (c : commitment) : Z :=
  Z.of_nat (length (up_outputs p w false (cm_fee_per_kw c) (updates_of c Local))) +
  Z.of_nat (length (up_outputs p w true (cm_fee_per_kw c) (updates_of c Remote))).

(** The fee and the outputs follow from the rate, the balances and the HTLCs. *)
Record made (p : channel_params) (w : channel_party) (c : commitment) : Prop := {
  md_dust : cm_dust_limit c = cfg_dust_limit (cfg_for p w);
  md_fee : cm_fee c =
    fee_for_weight (cm_fee_per_kw c) (u64 (commit_weight (pr_chan_type p) + u64 (htlc_weight * num_outputs p w c)));
  md_txn : cm_txn c =
    (let '(a, b) := match w with
                    | Local => (cm_our_balance c, cm_their_balance c)
                    | Remote => (cm_their_balance c, cm_our_balance c)
                    end in
     create_commit_tx (pr_chan_type p) (cm_dust_limit c) (to_satoshis a) (to_satoshis b) (num_outputs p w c)) ++
    map (out_of false) (up_outputs p w false (cm_fee_per_kw c) (updates_of c Local)) ++
    map (out_of true) (up_outputs p w true (cm_fee_per_kw c) (updates_of c Remote));
}.

(** The commitment [c] on the chain that began with [c0]. *)
Record summed (c0 : commitment) (h : dual (list update)) (p : channel_params) (w : channel_party) (c : commitment) :
    Prop := {
  su_rate : let q := initiator p in
    cm_fee_per_kw c = fee_rate (cm_fee_per_kw c0) (upto (idx c q) (get_for_party h q));
  su_balance q :
    gross p c q ≡₆₄ gross p c0 q + own_sum (upto (idx c q) (get_for_party h q)) +
      peer_sum (upto (idx c (counter_party q)) (get_for_party h (counter_party q)));
  su_htlcs q : updates_of c q =
    open_updates (upto (idx c q) (get_for_party h q))
      (upto (idx c (counter_party q)) (get_for_party h (counter_party q)));
  su_made : c = c0 ∨ 0 < cm_height c ∧ made p w c;
}.

(** It depends on what is below its indexes. *)
Lemma summed_upto c0 h h' p w c :
  (∀ q, upto (idx c q) (get_for_party h' q) = upto (idx c q) (get_for_party h q)) →
  summed c0 h p w c → summed c0 h' p w c.
Proof.
  intros E [Hr Hb Hh Hm]. split; [|intros q|intros q|done]; cbv zeta; by rewrite !E.
Qed.

Section Closed.
Context {HP : HashPrims} {CP : ChannelPrims}.

Lemma map_snd {B} (f : payment_descriptor → B) (l : list entry) : map f l.*2 = map (λ x : entry, f x.2) l.
Proof. symmetry. exact (list_fmap_compose snd f l). Qed.

(** ** The view of a new commitment *)

Lemma all_adds_updates p w incoming rate (l : list entry) :
  Forall (λ x, is_add x.2 = true) l →
  map (htlc_out incoming) (outputs_of p w incoming rate l) =
    map (out_of incoming) (up_outputs p w incoming rate (map update_of l.*2)) ∧
  length (outputs_of p w incoming rate l) = length (up_outputs p w incoming rate (map update_of l.*2)).
Proof.
  induction 1 as [|x l Hx _ [IH1 IH2]]; [done|]. unfold outputs_of, up_outputs in *. simpl.
  assert (up_not_dust p w incoming rate (update_of x.2) = not_dust p w incoming rate x.2 ∧
    out_of incoming (update_of x.2) = htlc_out incoming x) as [-> E].
  { unfold up_not_dust, not_dust, htlc_out, update_of. unfold is_add in Hx. by destruct (pd_entry_type x.2). }
  destruct (not_dust p w incoming rate x.2); simpl; [|done]. by rewrite IH1, IH2, E.
Qed.

Section View.
Context (t n : Z) (h : dual (list update)) (lc : channel) (w : channel_party) (b : dual Z) (acc : eval_acc).
Hypothesis Hok : chan_ok t n lc.
Hypothesis H : chan_hist h lc.
Hypothesis Hb : ∀ p, idx (tip (chain_of lc w)) p ≤ get_for_party b p ≤ ul_log_index (log_of lc p).
Hypothesis Hv : resolve_view lc w (fetch_htlc_view (dual_remote b) (dual_local b) lc) = (acc, Ok ()).

Let v := fetch_htlc_view (dual_remote b) (dual_local b) lc.
Let past p := upto (get_for_party b p) (get_for_party h p).

(** *** The open HTLCs *)

Lemma open_entry p k pd j :
  (k, pd) ∈ ul_list (log_of lc p) → is_add pd = true →
  pd_htlc_index pd ∈ parents_below j (log_of lc (counter_party p)) ↔
  resolved (upto j (get_for_party h (counter_party p))) (pd_htlc_index pd) = true.
Proof using H.
  intros Hin Ha. rewrite parents_below_elem, resolved_true. split.
  - intros (m & r & Hr & Hres & Hlt & Hp). destruct (lh_entry _ _ (ch_log _ _ H _) m r Hr) as (Hge & Hk & _).
    exists (Z.to_nat (pd_log_index r)), (update_of r). split; [apply upto_lookup_Some; split; [done | lia]|].
    rewrite <-Hp. revert Hres. unfold is_resolution, update_of. by destruct (pd_entry_type r).
  - intros (l & up & [Hup Hl]%upto_lookup_Some & Hp).
    destruct (decide (Exists (λ x, key x = Z.of_nat l) (ul_list (log_of lc (counter_party p)))))
      as [([m r] & Hr & Er)%Exists_exists|Hno].
    + unfold key in Er. simpl in Er. destruct (lh_entry _ _ (ch_log _ _ H _) m r Hr) as (_ & Hk & _).
      rewrite Er, Nat2Z.id, Hup in Hk. injection Hk as ->. exists m, r.
      assert (is_resolution r = true ∧ pd_parent_index r = pd_htlc_index pd) as [? ?].
      { revert Hp. unfold is_resolution, update_of. destruct (pd_entry_type r); simpl; try done; by intros [= ->]. }
      split_and!; [done | done | lia | done].
    + destruct (ch_gone _ _ H _ l up Hup) as [_ Hg].
      { intros m r Hr Er. apply Hno, Exists_exists. by exists (m, r). }
      unfold gone_for in Hg. rewrite counter_party_involutive in Hg.
      destruct up; simpl in Hp; try done; injection Hp as Hp; exfalso; by apply (Hg k pd Hin Ha).
Qed.

Lemma log_length p : Z.of_nat (length (get_for_party h p)) = ul_log_index (log_of lc p).
Proof using H. symmetry. apply (lh_index _ _ (ch_log _ _ H p)). Qed.

Lemma below_nat p x i :
  x ∈ ul_list (log_of lc p) → (key x <? i) = (key x <? Z.of_nat (Z.to_nat i)).
Proof using H.
  destruct x as [k pd]. intros Hin. destruct (lh_entry _ _ (ch_log _ _ H p) k pd Hin) as (Hge & _).
  unfold key. simpl. apply eq_true_iff_eq. rewrite !Z.ltb_lt. lia.
Qed.

Lemma past_length p : (Z.to_nat (get_for_party b p) ≤ length (get_for_party h p))%nat.
Proof using H Hb. pose proof (Hb p). pose proof (log_length p). lia. Qed.

Lemma tail_below p w' : w' = w → idx (tail (chain_of lc w')) p ≤ get_for_party b p.
Proof using Hok Hb. intros ->. pose proof (Hb p). pose proof (tail_tip t n lc w p Hok). lia. Qed.

Lemma open_updates_eq p :
  map update_of (open_htlcs (log_of lc p) (log_of lc (counter_party p)) (get_for_party b p)
                   (get_for_party b (counter_party p))).*2 =
  open_updates (past p) (past (counter_party p)).
Proof using Hok H Hb.
  unfold open_updates, past, upto at 2.
  rewrite <-(imap_filter_snd (is_open (upto (get_for_party b (counter_party p)) (get_for_party h (counter_party p))))).
  rewrite <-(log_window _ _ (λ _ up, is_open (upto (get_for_party b (counter_party p)) (get_for_party h (counter_party p))) up)
               (ch_log _ _ H p)); [|apply past_length|].
  - rewrite map_snd. f_equal. unfold open_htlcs. apply bfilter_ext.
    intros [k pd] Hin. pose proof (below_nat p (k, pd) (get_for_party b p) Hin) as El. unfold key in *. simpl in *.
    rewrite El. f_equal. destruct (is_add pd) eqn:Ea; simpl; cycle 1.
    { revert Ea. unfold is_add, update_of. by destruct (pd_entry_type pd). }
    pose proof (open_entry p k pd (get_for_party b (counter_party p)) Hin Ea) as Ho.
    assert (is_open (upto (get_for_party b (counter_party p)) (get_for_party h (counter_party p))) (update_of pd) =
      negb (resolved (upto (get_for_party b (counter_party p)) (get_for_party h (counter_party p))) (pd_htlc_index pd))) as ->.
    { revert Ea. unfold is_add, update_of. by destruct (pd_entry_type pd). }
    f_equal. apply eq_true_iff_eq. by rewrite bool_decide_eq_true.
  - intros k up Hk Hup Ho Hg. destruct (ch_gone _ _ H p k up Hup Hg) as [_ Hgf].
    destruct up as [? ? ? i| | |]; try done. simpl in *. apply negb_true_iff in Ho.
    rewrite (resolved_upto_mono _ i (idx (tail (chain_of lc w)) (counter_party p))) in Ho; [done | | apply Hgf].
    by apply tail_below.
Qed.

(** *** What is new *)

(** The entries that the commitment's party sees for the first time. *)
Definition window p : list entry :=
  List.filter (λ x, (key x <? get_for_party b p) && (idx (tip (chain_of lc w)) p <=? key x)) (ul_list (log_of lc p)).

Lemma window_updates p :
  map update_of (window p).*2 = drop (Z.to_nat (idx (tip (chain_of lc w)) p)) (past p).
Proof using Hok H Hb.
  unfold past, upto. rewrite <-imap_filter_drop.
  rewrite <-(log_window _ _ (λ k _, Z.of_nat (Z.to_nat (idx (tip (chain_of lc w)) p)) <=? k) (ch_log _ _ H p));
    [|apply past_length|].
  - rewrite map_snd. f_equal. apply bfilter_ext. intros x Hin.
    rewrite (below_nat p x _ Hin). f_equal. destruct x as [k pd].
    destruct (lh_entry _ _ (ch_log _ _ H p) k pd Hin) as (Hge & _). unfold key. simpl.
    apply eq_true_iff_eq. rewrite !Z.leb_le. lia.
  - intros k up Hk Hup Hle%Z.leb_le Hg. destruct (ch_gone _ _ H p k up Hup Hg) as [Ht _].
    specialize (Ht w). pose proof (tail_tip t n lc w p Hok). lia.
Qed.

Definition own_total (l : list entry) : Z := own_sum (map update_of l.*2).
Definition peer_total (l : list entry) : Z := peer_sum (map update_of l.*2).

Lemma own_total_cons x l : own_total (x :: l) = own_delta (update_of x.2) + own_total l.
Proof. done. Qed.
Lemma peer_total_cons x l : peer_total (x :: l) = peer_delta (update_of x.2) + peer_total l.
Proof. done. Qed.

Lemma own_total_split l :
  own_total l = own_total (List.filter (λ x, is_resolution x.2) l) - amounts (List.filter (λ x, is_add x.2) l).
Proof.
  induction l as [|x l IH]; [done|]. rewrite own_total_cons, IH. cbn [List.filter].
  destruct (is_resolution x.2) eqn:Er, (is_add x.2) eqn:Ea; rewrite ?own_total_cons, ?amounts_cons;
    revert Er Ea; unfold is_resolution at 1, is_add at 1, update_of; destruct (pd_entry_type x.2); simpl; try done; lia.
Qed.

Lemma peer_total_split l : peer_total l = peer_total (List.filter (λ x, is_resolution x.2) l).
Proof.
  induction l as [|x l IH]; [done|]. rewrite peer_total_cons, IH. cbn [List.filter].
  destruct (is_resolution x.2) eqn:Er; rewrite ?peer_total_cons;
    revert Er; unfold is_resolution at 1, update_of; destruct (pd_entry_type x.2); simpl; try done; lia.
Qed.

(** The first pass credits the party that settles, and the one whose HTLC
    fails. *)
Lemma resolve_entries_deltas p l a a' :
  Forall (λ x, is_resolution x.2 = true) l → resolve_entries lc w p a l = (a', Ok ()) →
  get_for_party (ea_deltas a') p ≡₆₄ get_for_party (ea_deltas a) p + own_total (unremoved w l) ∧
  get_for_party (ea_deltas a') (counter_party p) ≡₆₄
    get_for_party (ea_deltas a) (counter_party p) + peer_total (unremoved w l).
Proof using Hok H.
  intros Hl. revert a. induction Hl as [|x l Hx Hl IH]; intros a; simpl.
  { intros [= <-]. unfold own_total, peer_total, own_sum, peer_sum. simpl. by rewrite !Z.add_0_r. }
  destruct (resolve_entry lc w p a x) as [a1|] eqn:E; [|done]. intros [IH1 IH2]%IH.
  unfold resolve_entry in E. destruct (fetch_parent _ _ _ _) as [add|] eqn:Ef; [|done].
  apply fetch_parent_Ok in Ef as (_ & _ & m & Hin & _); [|by eapply pair_log_ok, ck_logs].
  destruct (lh_entry _ _ (ch_log _ _ H _) m add Hin) as (_ & _ & Hno). cbn [rbind] in E.
  assert (own_delta (update_of x.2) = (if bool_decide (pd_entry_type x.2 = Settle) then pd_amount x.2 else 0) ∧
    peer_delta (update_of x.2) = (if bool_decide (pd_entry_type x.2 = Settle) then 0 else pd_amount x.2)) as [Eo Ep].
  { revert Hx. unfold is_resolution, update_of. by destruct (pd_entry_type x.2). }
  unfold unremoved in *. cbn [List.filter]. destruct (remove_height w x.2 =? 0); simpl in E; cycle 1.
  { injection E as <-. simpl in *. by destruct p. }
  rewrite (bool_decide_false (pd_entry_type add = NoOpAdd)) in E by done. rewrite andb_false_r in E.
  rewrite own_total_cons, peer_total_cons, Eo, Ep, IH1, IH2.
  destruct (bool_decide _); injection E as <-; destruct p; simpl; rewrite !i64_eq64; split; eq64_lia.
Qed.

Lemma window_resolutions p :
  unremoved w (resolutions (get_for_party (hv_updates v) p)) = List.filter (λ x, is_resolution x.2) (window p).
Proof using Hok Hb Hv.
  unfold v. rewrite (view_resolved t n lc w b Hok). unfold new_resolutions, resolutions, entries_below, window.
  rewrite !bfilter_bfilter. apply bfilter_ext. intros x _. unfold key.
  assert (negb (pd_log_index x.2 <? idx (tip (chain_of lc w)) p) = (idx (tip (chain_of lc w)) p <=? pd_log_index x.2)) as ->.
  { by rewrite Z.ltb_antisym, negb_involutive. }
  destruct (is_resolution x.2), (_ <=? _), (_ <? _); done.
Qed.

Lemma resolved_here p (x : entry) :
  x ∈ get_for_party (hv_updates v) (counter_party p) → is_resolution x.2 = true →
  has_parent lc w p x.
Proof using Hok Hv.
  intros Hx Hr. destruct (resolve_view_Ok lc w v acc) as (HF & _); [by eapply pair_log_ok, ck_logs..|done|].
  specialize (HF (counter_party p)). rewrite Forall_forall, counter_party_involutive in HF. apply HF.
  unfold resolutions. by apply elem_of_bfilter.
Qed.

(** An HTLC that is new is not resolved yet. *)
Lemma window_adds p :
  List.filter (λ x, add_height w x.2 =? 0) (eval_live acc v p) = List.filter (λ x, is_add x.2) (window p).
Proof using Hok Hb Hv.
  unfold v. rewrite (view_new t n lc w b acc Hok Hv). unfold open_htlcs, window. rewrite !bfilter_bfilter.
  apply bfilter_ext. intros [k pd] Hin. unfold key. simpl.
  assert (negb (pd_log_index pd <? idx (tip (chain_of lc w)) p) = (idx (tip (chain_of lc w)) p <=? pd_log_index pd)) as ->.
  { by rewrite Z.ltb_antisym, negb_involutive. }
  destruct (pd_log_index pd <? get_for_party b p); simpl; [|done].
  destruct (is_add pd) eqn:Ha; simpl; [|by rewrite andb_false_r].
  destruct (idx (tip (chain_of lc w)) p <=? pd_log_index pd) eqn:El; simpl; [|by rewrite andb_false_r].
  apply Z.leb_le in El. rewrite andb_true_r. apply negb_true_iff, bool_decide_eq_false.
  intros (m & r & Hr & Hres & Hlt & Hp)%parents_below_elem.
  destruct (resolved_here p (m, r)) as (m' & a & Ha' & Hadd & Hi & Hh); [|done|].
  { unfold v. rewrite view_updates. apply elem_of_bfilter. split; [done|]. by apply Z.ltb_lt. }
  simpl in Hi. destruct (add_unique (log_of lc p) k m' pd a) as [-> ->]; try done; [by eapply pair_log_ok, ck_logs | congruence|].
  pose proof (ck_commit _ _ _ Hok w p m' a Hin) as Hc. rewrite (add_uncommitted w a Ha) in Hc.
  apply Z.eqb_neq in Hh. apply Hc in Hh. lia.
Qed.

Lemma view_deltas p :
  get_for_party (ea_deltas acc) p ≡₆₄ own_total (unremoved w (resolutions (get_for_party (hv_updates v) p))) +
    peer_total (unremoved w (resolutions (get_for_party (hv_updates v) (counter_party p)))).
Proof using Hok H Hv.
  assert (∀ l, Forall (λ x : entry, is_resolution x.2 = true) (resolutions l)) as HF.
  { intros l. apply Forall_forall. by intros x [_ ?]%elem_of_bfilter. }
  pose proof Hv as E. unfold resolve_view in E. fold v in E.
  destruct (resolve_entries lc w Local _ _) as [a1 [[]|]] eqn:E1; [|done].
  apply resolve_entries_deltas in E1 as [A1 B1]; [|apply HF]. apply resolve_entries_deltas in E as [A2 B2]; [|apply HF].
  simpl in *. destruct p; simpl.
  - rewrite B2, A1. eq64_lia.
  - rewrite A2, B1. eq64_lia.
Qed.

(** The changes of the balances are what the new updates do to them. *)
Lemma eval_delta_window p :
  eval_delta w acc v p ≡₆₄ own_total (window p) + peer_total (window (counter_party p)).
Proof using Hok H Hb Hv.
  unfold eval_delta. rewrite debit_adds_eq64, view_deltas, window_adds, !window_resolutions.
  rewrite (own_total_split (window p)), (peer_total_split (window (counter_party p))). eq64_lia.
Qed.

Lemma own_sum_app l k : own_sum (l ++ k) = own_sum l + own_sum k.
Proof. unfold own_sum. by rewrite map_app, zsum_app. Qed.
Lemma peer_sum_app l k : peer_sum (l ++ k) = peer_sum l + peer_sum k.
Proof. unfold peer_sum. by rewrite map_app, zsum_app. Qed.

Lemma past_split p :
  past p = upto (idx (tip (chain_of lc w)) p) (get_for_party h p) ++ map update_of (window p).*2.
Proof using Hok H Hb.
  rewrite window_updates. unfold past, upto. pose proof (Hb p).
  rewrite <-(take_drop (Z.to_nat (idx (tip (chain_of lc w)) p)) (take (Z.to_nat (get_for_party b p)) (get_for_party h p))) at 1.
  f_equal. rewrite take_take. f_equal. lia.
Qed.

(** *** The fee rate *)

Lemma view_rate c0 :
  cm_fee_per_kw (tip (chain_of lc w)) =
    fee_rate (cm_fee_per_kw c0)
      (upto (idx (tip (chain_of lc w)) (initiator (lc_params lc))) (get_for_party h (initiator (lc_params lc)))) →
  view_fee_rate lc (tip_view lc w v) = fee_rate (cm_fee_per_kw c0) (past (initiator (lc_params lc))).
Proof using Hok H Hb.
  intros Htip. unfold view_fee_rate. set (q := initiator _) in *.
  pose proof (last_fee_below h lc q (get_for_party b q) H) as Hf.
  cbn [tip_view hv_updates hv_fee_per_kw]. unfold v. rewrite view_updates. unfold fee_rate, past.
  change (last (List.filter _ (entries_below (get_for_party b q) (log_of lc q))))
    with (last (List.filter is_fee (entries_below (get_for_party b q) (log_of lc q)))).
  destruct (last (List.filter is_fee _)) as [x|]; [by rewrite Hf|].
  rewrite Htip. unfold fee_rate. destruct (last_fee (upto (get_for_party b q) (get_for_party h q))) as [[k a]|] eqn:E.
  - pose proof (Hf k a eq_refl) as Hg. apply last_fee_Some in E as [[Hk Hki]%upto_lookup_Some Hmax].
    destruct (ch_gone _ _ H q k _ Hk Hg) as [Ht _]. specialize (Ht w). pose proof (tail_tip t n lc w q Hok). pose proof (Hb q).
    assert (last_fee (upto (idx (tip (chain_of lc w)) q) (get_for_party h q)) = Some (k, a)) as ->; [|done].
    apply last_fee_Some. split; [apply upto_lookup_Some; split; [done | lia]|].
    intros l up [Hup Hl]%upto_lookup_Some Hfee. apply (Hmax l up); [|done]. apply upto_lookup_Some. split; [done | lia].
  - destruct (last_fee (upto (idx _ q) _)) as [[k a]|] eqn:E'; [|done]. exfalso.
    apply last_fee_Some in E' as [[Hk Hki]%upto_lookup_Some _]. pose proof (Hb q).
    apply (proj1 (last_fee_None _) E k a). apply upto_lookup_Some. split; [done | lia].
Qed.
End View.

(** ** A new commitment *)

Section New.
Context (t n : Z) (c0 : commitment) (h : dual (list update)) (lc lc' : channel) (w : channel_party) (b : dual Z)
  (acc : eval_acc) (c : commitment).
Hypothesis Hok : chan_ok t n lc.
Hypothesis H : chan_hist h lc.
Hypothesis Hf : fetched lc w b acc c lc'.
Hypothesis Hb : ∀ p, idx (tip (chain_of lc w)) p ≤ get_for_party b p ≤ ul_log_index (log_of lc p).

Let lc1 := mark_noops (ea_noops acc) lc.
Let v := fetch_htlc_view (dual_remote b) (dual_local b) lc.

Lemma new_idx p : idx c p = get_for_party b p.
Proof using Hf. unfold idx. by rewrite (fe_indices _ _ _ _ _ _ Hf). Qed.

Lemma new_log p :
  log_of lc' p = modify_nodes (fresh_nodes w (get_for_party b p) (log_of lc1 p)) (set_commit_height w (cm_height c)) (log_of lc1 p).
Proof using Hf. rewrite (state_only_log _ _ p (fe_state _ _ _ _ _ _ Hf)). fold lc1. apply commit_logs_log. Qed.

Lemma new_entry p k pd :
  (k, pd) ∈ ul_list (log_of lc p) → ∃ pd', node_value k (log_of lc' p) = Some pd' ∧ update_of pd' = update_of pd.
Proof using Hok Hf Hb.
  intros Hin.
  assert (∃ pd1, (k, pd1) ∈ ul_list (log_of lc1 p) ∧ update_of pd1 = update_of pd) as (pd1 & Hin1 & E1).
  { unfold lc1. exists (if bool_decide (k ∈ get_for_party (ea_noops acc) p) then set_pd_noop_settle true pd else pd).
    split; [|by case_bool_decide]. destruct p; apply modify_nodes_elem; exists pd; done. }
  exists (if bool_decide (k ∈ fresh_nodes w (get_for_party b p) (log_of lc1 p))
          then set_commit_height w (cm_height c) pd1 else pd1). split.
  - apply node_value_elem.
    + rewrite new_log. apply modify_nodes_ok; [intros; apply commit_height_content|].
      eapply pair_log_ok, ck_logs, mark_noops_ok, Hok.
    + rewrite new_log. apply modify_nodes_elem. by exists pd1.
  - case_bool_decide; [|done]. by rewrite (proj1 (commit_height_mark w (cm_height c) pd1)).
Qed.

Lemma new_live p x : x ∈ eval_live acc v p → x ∈ ul_list (log_of lc p) ∧ is_add x.2 = true.
Proof using Type.
  intros [Hx [Ha _]%andb_true_iff]%elem_of_bfilter. split; [|done]. unfold v in Hx. rewrite view_updates in Hx.
  by apply elem_of_bfilter in Hx as [Hx _].
Qed.

Lemma new_updates p : updates_of c p = map update_of (eval_live acc v p).*2.
Proof using Hok Hf Hb.
  rewrite map_snd. unfold updates_of.
  assert (htlcs_of c p = map (λ x : entry, default x.2 (node_value x.1 (log_of lc' p))) (eval_live acc v p)) as ->.
  { destruct p; [apply (fe_outgoing _ _ _ _ _ _ Hf) | apply (fe_incoming _ _ _ _ _ _ Hf)]. }
  rewrite map_map. apply map_ext_in. intros [k pd] [Hin _]%list_elem_of_In%new_live.
  destruct (new_entry p k pd Hin) as (pd' & Hv & E). simpl. by rewrite Hv.
Qed.

Lemma new_made : made (lc_params lc) w c.
Proof using Hok Hf Hb.
  assert (∀ p, Forall (λ x : entry, is_add x.2 = true) (eval_live acc v p)) as Ha.
  { intros p. apply Forall_forall. by intros x [_ ?]%new_live. }
  set (pr := lc_params lc). set (rate := cm_fee_per_kw c).
  destruct (all_adds_updates pr w false rate _ (Ha Local)) as [EL NL].
  destruct (all_adds_updates pr w true rate _ (Ha Remote)) as [ER NR].
  rewrite <-new_updates in EL, NL. rewrite <-new_updates in ER, NR.
  assert (num_htlcs pr w rate (eval_view lc w acc v) = num_outputs pr w c) as En.
  { unfold num_htlcs, num_outputs. cbn [eval_view hv_updates dual_local dual_remote]. by rewrite NL, NR. }
  destruct (fe_fee _ _ _ _ _ _ Hf) as [_ Efee]. split.
  - apply (fe_dust _ _ _ _ _ _ Hf).
  - fold v pr rate in Efee. rewrite Efee. unfold view_commit_fee. by rewrite En.
  - rewrite (fe_txn _ _ _ _ _ _ Hf), (fe_dust _ _ _ _ _ _ Hf). fold v pr rate. unfold view_outputs. rewrite En.
    cbn [eval_view hv_updates dual_local dual_remote]. rewrite EL, ER. by destruct w.
Qed.

Lemma new_summed : summed c0 h (lc_params lc) w (tip (chain_of lc w)) → summed c0 h (lc_params lc) w c.
Proof using Hok H Hf Hb.
  intros [Sr Sb _ _]. pose proof (fe_view _ _ _ _ _ _ Hf) as Hv. split.
  - cbv zeta in *. rewrite (proj1 (fe_fee _ _ _ _ _ _ Hf)). cbn [eval_view hv_fee_per_kw]. rewrite new_idx.
    by apply (view_rate t n h lc w b).
  - intros q. rewrite !new_idx.
    rewrite !(past_split t n h lc w b Hok H Hb), own_sum_app, peer_sum_app.
    fold (own_total (window lc w b q)) (peer_total (window lc w b (counter_party q))).
    transitivity (gross (lc_params lc) (tip (chain_of lc w)) q + eval_delta w acc v q); cycle 1.
    { pose proof (eval_delta_window t n h lc w b acc Hok H Hb Hv q) as Ed. fold v in Ed.
      rewrite Sb, Ed. eq64_lia. }
    pose proof (fe_balances _ _ _ _ _ _ Hf) as [EL ER]. fold v in EL, ER.
    destruct q; [rewrite EL; unfold our_after | rewrite ER; unfold their_after]; rewrite apply_delta_eq64; simpl;
      destruct (pr_is_initiator (lc_params lc)); rewrite ?u64_eq64, ?msat_of_sat_eq64; eq64_lia.
  - intros q. rewrite new_updates, !new_idx. unfold v. rewrite (view_live t n lc w b acc Hok Hv).
    by apply (open_updates_eq t n h lc w b).
  - right. split; [|apply new_made]. rewrite (fe_height _ _ _ _ _ _ Hf), (next_height_tip t n lc w Hok).
    pose proof (cn_range _ (ck_chain _ _ _ Hok w) _ (tip_elem _)). lia.
Qed.
End New.
End Closed.
