(* ===== verification/ChannelPastSteps.v ===== *)
(** * The methods and the history

    What each method adds to the histories and to the chains. *)

From S2P Require Import Prelude Chainfee Shachain UpdateLog Channel ChannelLog ChannelView ChannelInv ChannelCommit.
From S2P Require Import ChannelAfter ChannelSteps ChannelRun ChannelHist ChannelPast ChannelCompact ChannelClosed.

Section Steps.
Context {HP : HashPrims} {CP : ChannelPrims}.

(** A channel, its histories, and the commitments that its chains began with. *)
Record chan_past (c0 : dual commitment) (h : dual (list update)) (lc : channel) : Prop := {
  cp_hist : chan_hist h lc;
  cp_sums w c : c ∈ chain_list (chain_of lc w) → summed (get_for_party c0 w) h (lc_params lc) w c;
}.

(** The updates of a party that the newest commitment of its peer covers. *)
Definition covered (lc : channel) (p : channel_party) : Z := idx (tip (chain_of lc (counter_party p))) p.

Lemma covered_max t n lc p w : chan_ok t n lc → idx (tip (chain_of lc w)) p ≤ covered lc p.
Proof.
  intros H. unfold covered. destruct (ck_order _ _ _ H) as [H1 H2].
  pose proof (tail_tip t n lc Remote Local H). pose proof (tail_tip t n lc Local Remote H).
  destruct p, w; cbn [counter_party]; lia.
Qed.

Definition chains_kept (lc lc' : channel) : Prop :=
  lc_params lc' = lc_params lc ∧ ∀ w, chain_of lc' w = chain_of lc w.

Lemma chains_kept_trans lc1 lc2 lc3 : chains_kept lc1 lc2 → chains_kept lc2 lc3 → chains_kept lc1 lc3.
Proof. intros [P1 C1] [P2 C2]. split; [congruence|]. intros w. by rewrite C2, C1. Qed.

Lemma core_chains_kept lc lc' : same_core lc' lc → chains_kept lc lc'.
Proof. intros H. split; [by apply core_chan_params | intros w; by apply core_chan_chains]. Qed.

Lemma chan_past_core c0 h lc lc' : same_core lc' lc → chan_past c0 h lc → chan_past c0 h lc'.
Proof.
  intros Hs [H1 H2]. split; [by eapply chan_hist_core|]. destruct (core_chains_kept lc lc' Hs) as [-> Hc].
  intros w c. rewrite Hc. apply H2.
Qed.

(** An update of party [p] comes to the histories. *)
Definition takes (lc : channel) (p : channel_party) (up : update) (lc' : channel) : Prop :=
  chains_kept lc lc' ∧
  ∀ c0 h, chan_past c0 h lc → chan_past c0 (grown h p (covered lc p) up) lc'.

Lemma takes_core lc lc1 p up lc' : same_core lc1 lc → takes lc1 p up lc' → takes lc p up lc'.
Proof.
  intros Hs [Hk Ht]. pose proof (core_chains_kept lc lc1 Hs) as Hk1. split; [by eapply chains_kept_trans|].
  intros c0 h Hp. assert (covered lc p = covered lc1 p) as -> by (unfold covered; by rewrite (proj2 Hk1)).
  apply Ht. by eapply chan_past_core.
Qed.

(** The commitments do not change with what comes after them. *)
Lemma takes_intro t n lc p up lc' :
  chan_ok t n lc → chains_kept lc lc' →
  (∀ h, chan_hist h lc → chan_hist (grown h p (covered lc p) up) lc') → takes lc p up lc'.
Proof.
  intros Hok Hk Hh. split; [done|]. intros c0 h [H1 H2]. split; [by apply Hh|]. destruct Hk as [-> Hc].
  intros w c Hin. rewrite Hc in Hin. eapply summed_upto; [|by apply H2].
  intros q. apply (grown_upto t n h lc p _ _ q w Hok H1); [intros; by eapply covered_max|].
  by apply (chain_idx _ _ q (ck_chain _ _ _ Hok w)).
Qed.

Lemma set_log_kept lc p u : chains_kept lc (set_log p u lc).
Proof. split; [done|]. intros w. by destruct p. Qed.

(** ** Updates *)

Section Updates.
Context (t n : Z) (lc : channel).
Hypothesis Hok : chan_ok t n lc.
Hypothesis Hn : n + 1 < 2 ^ 64.

Lemma counters_small p :
  u64 (ul_log_index (log_of lc p) + 1) = ul_log_index (log_of lc p) + 1 ∧
  u64 (ul_htlc_counter (log_of lc p) + 1) = ul_htlc_counter (log_of lc p) + 1.
Proof using Hok Hn.
  pose proof (ck_bound _ _ _ Hok p) as [B1 B2].
  pose proof (lo_counters _ (pair_log_ok lc p (ck_logs _ _ _ Hok))) as [C1 C2].
  split; apply u64_small; in_range.
Qed.

Lemma takes_add lc1 p htlc :
  same_core lc lc1 → has_tapscript_root (pr_chan_type (lc_params lc)) = false →
  takes lc p (UpAdd (uah_payment_hash htlc) (uah_expiry htlc) (uah_amount htlc) (ul_htlc_counter (log_of lc p)))
    (set_log p (append_htlc (htlc_add_descriptor htlc p lc1) (log_of lc p)) lc).
Proof using Hok Hn.
  intros Hs Ht. destruct (same_core_index lc lc1 p Hs) as [E1 E2].
  set (pd := htlc_add_descriptor htlc p lc1).
  assert (pd_entry_type pd = Add) as Ea.
  { unfold pd, htlc_add_descriptor, entry_type_for_htlc. simpl. rewrite <-(core_chan_params lc lc1 Hs), Ht.
    by rewrite andb_false_r. }
  assert (update_of pd = UpAdd (uah_payment_hash htlc) (uah_expiry htlc) (uah_amount htlc) (ul_htlc_counter (log_of lc p))) as Eu.
  { unfold update_of. rewrite Ea. simpl. by rewrite E2. }
  assert (is_add pd = true) as Hadd by (unfold is_add; by rewrite Ea).
  destruct (counters_small p) as [S1 S2].
  eapply (takes_intro t n); [done | apply set_log_kept|]. intros h H. rewrite <-Eu, <-set_log_twice.
  apply (chan_hist_push t n); try done.
  - by rewrite Hadd.
  - by rewrite Ea.
  - by rewrite Eu.
  - intros w. by eapply covered_max.
  - unfold add_update. by rewrite Eu.
Qed.

Lemma takes_fee lc1 p rate :
  same_core lc lc1 →
  takes lc p (UpFee (msat_of_sat rate)) (set_log p (append_fee_update (fee_descriptor rate p lc1) (log_of lc p)) lc).
Proof using Hok Hn.
  intros Hs. destruct (same_core_index lc lc1 p Hs) as [E1 E2].
  eapply (takes_intro t n); [done | apply set_log_kept|]. intros h H.
  apply (chan_hist_fee t n h lc p (fee_descriptor rate p lc1)); try done.
  - intros w. by eapply covered_max.
  - by eexists.
Qed.

Lemma takes_resolution p pd i lc' r m a :
  (m, a) ∈ ul_list (log_of lc (counter_party p)) → is_add a = true → pd_htlc_index a = i →
  is_resolution pd = true → pd_parent_index pd = i → pd_log_index pd = ul_log_index (log_of lc p) →
  pd_add_heights pd = zero_heights → pd_remove_heights pd = zero_heights →
  append_resolution p pd i lc = (lc', r) → takes lc p (update_of pd) lc'.
Proof using Hok Hn.
  intros Hin Ha Hi Hr Hp Hl Hah Hrh [= <- _]. destruct (counters_small p) as [S1 S2].
  pose proof (resolution_not_add _ Hr) as Hna.
  assert (parent_of (update_of pd) = Some i ∧ up_is_fee (update_of pd) = false) as [Eu Ef].
  { rewrite <-Hp. revert Hr. unfold is_resolution, update_of. by destruct (pd_entry_type pd). }
  eapply (takes_intro t n); [done | eapply chains_kept_trans; apply set_log_kept|]. intros h H.
  rewrite log_of_set_other. apply (chan_hist_push t n); try done.
  - rewrite Hna. simpl. lia.
  - by rewrite Hna.
  - unfold is_resolution in Hr. by destruct (pd_entry_type pd).
  - intros j. rewrite Eu. intros [= <-]. rewrite <-Hi.
    by apply (lo_htlc_bound _ (pair_log_ok lc _ (ck_logs _ _ _ Hok)) m).
  - intros w. by eapply covered_max.
  - unfold add_update. by destruct (update_of pd).
Qed.
End Updates.

(** *** What the methods issue and accept *)

Section Methods.
Context (t n : Z) (lc : channel).
Hypothesis Hok : chan_ok t n lc.
Hypothesis Hn : n + 1 < 2 ^ 64.

Lemma after_looks {A B} (m : M A) (k : A → M B) lc1 (Q : channel → result channel_error B → Prop) :
  only_looks m → same_core lc1 lc → chan_ok t n lc1 →
  (∀ a lc2, same_core lc2 lc → chan_ok t n lc2 → Q (k a lc2).1 (k a lc2).2) →
  (∀ e lc2, same_core lc2 lc → Q lc2 (Err e)) →
  Q ((m ≫= k) lc1).1 ((m ≫= k) lc1).2.
Proof using Type.
  intros Hm Hs H1 Hk He. unfold mbind, M_bind. destruct (m lc1) as [lc2 [a|e]] eqn:E;
    destruct (looks_keeps m t n lc1 lc2 _ Hm E) as [Hs2 Hk2]; [apply Hk | apply He]; auto; by etrans.
Qed.

(** On success the update comes; on an error flags change at most. *)
Definition outcome {A} (p : channel_party) (up : A → update) (P : A → Prop) (lc' : channel)
    (r : result channel_error A) : Prop :=
  match r with Ok a => takes lc p (up a) lc' ∧ P a | Err _ => same_core lc' lc end.

Hypothesis Ht : has_tapscript_root (pr_chan_type (lc_params lc)) = false.

Lemma tapscript_core lc1 : same_core lc1 lc → has_tapscript_root (pr_chan_type (lc_params lc1)) = false.
Proof using Ht. intros Hs. by rewrite (core_chan_params lc1 lc Hs). Qed.

Lemma add_htlc_outcome htlc :
  outcome Local (λ i, UpAdd (uah_payment_hash htlc) (uah_expiry htlc) (uah_amount htlc) i)
    (λ i, i = ul_htlc_counter (log_of lc Local)) (add_htlc htlc lc).1 (add_htlc htlc lc).2.
Proof using All.
  change (add_htlc htlc lc) with
    ((_ ← validate_add_htlc (htlc_add_descriptor htlc Local lc) FeeBuffer;
      _ ← modify (λ lc', set_log Local (append_htlc (htlc_add_descriptor htlc Local lc) (log_of lc' Local)) lc');
      mret (pd_htlc_index (htlc_add_descriptor htlc Local lc))) lc).
  apply (after_looks (validate_add_htlc _ _) _ lc (outcome _ _ _)); [apply looks_validate_add | done | done| |done].
  intros _ lc2 Hs H2. split; [|done]. eapply takes_core; [exact Hs|].
  pose proof (takes_add t n lc2 H2 Hn lc Local htlc Hs (tapscript_core lc2 Hs)) as Hta.
  rewrite (proj2 (same_core_index lc2 lc Local Hs)) in Hta. exact Hta.
Qed.

Lemma receive_htlc_outcome htlc :
  outcome Remote (λ i, UpAdd (uah_payment_hash htlc) (uah_expiry htlc) (uah_amount htlc) i)
    (λ i, i = uah_id htlc) (receive_htlc htlc lc).1 (receive_htlc htlc lc).2.
Proof using All.
  set (pd := htlc_add_descriptor htlc Remote lc).
  assert (receive_htlc htlc lc =
    if uah_id htlc =? ul_htlc_counter (log_of lc Remote) then
      (_ ← validate_commitment_sanity (ul_log_index (log_of lc Remote)) (idx (tail (chain_of lc Remote)) Local) Local
             NoBuffer None (Some pd);
       _ ← modify (λ lc, set_log Remote (append_htlc pd (log_of lc Remote)) lc);
       mret (pd_htlc_index pd)) lc
    else (lc, Err ErrUnexpectedHtlcID)) as ->.
  { unfold receive_htlc, mbind, M_bind, get, check. by destruct (_ =? _). }
  destruct (uah_id htlc =? ul_htlc_counter (log_of lc Remote)) eqn:Ei; [apply Z.eqb_eq in Ei | done].
  apply (after_looks (validate_commitment_sanity _ _ _ _ _ _) _ lc (outcome _ _ _)); [apply looks_validate | done | done| |done].
  intros _ lc2 Hs H2. split; [|done]. eapply takes_core; [exact Hs|].
  pose proof (takes_add t n lc2 H2 Hn lc Remote htlc Hs (tapscript_core lc2 Hs)) as Hta.
  rewrite (proj2 (same_core_index lc2 lc Remote Hs)) in Hta. exact Hta.
Qed.

Lemma update_fee_outcome rate :
  outcome Local (λ _, UpFee (msat_of_sat rate)) (λ _, True) (update_fee rate lc).1 (update_fee rate lc).2.
Proof using Hok Hn.
  change (update_fee rate lc) with
    ((_ ← check (pr_is_initiator (lc_params lc)) ErrNotInitiator; _ ← validate_fee_rate rate;
      modify (λ lc', set_log Local (append_fee_update (fee_descriptor rate Local lc) (log_of lc' Local)) lc')) lc).
  apply (after_looks (check _ _) _ lc (outcome _ _ _)); [apply looks_check | done | done | |done].
  intros _ lc1 Hs1 H1.
  apply (after_looks (validate_fee_rate rate) _ lc1 (outcome _ _ _)); [apply looks_validate_fee | done | done | |done].
  intros _ lc2 Hs H2. split; [|done]. eapply takes_core; [exact Hs|]. by apply (takes_fee t n lc2 H2 Hn lc Local).
Qed.

Lemma receive_update_fee_outcome rate :
  outcome Remote (λ _, UpFee (msat_of_sat rate)) (λ _, True) (receive_update_fee rate lc).1 (receive_update_fee rate lc).2.
Proof using Hok Hn.
  change (receive_update_fee rate lc) with
    ((_ ← check (negb (pr_is_initiator (lc_params lc))) ErrInitiator; _ ← lift (validate_fee_rate_floor rate);
      modify (λ lc', set_log Remote (append_fee_update (fee_descriptor rate Remote lc) (log_of lc' Remote)) lc')) lc).
  apply (after_looks (check _ _) _ lc (outcome _ _ _)); [apply looks_check | done | done | |done].
  intros _ lc1 Hs1 H1.
  apply (after_looks (lift _) _ lc1 (outcome _ _ _)); [apply looks_lift | done | done | |done].
  intros _ lc2 Hs H2. split; [|done]. eapply takes_core; [exact Hs|]. by apply (takes_fee t n lc2 H2 Hn lc Remote).
Qed.

(** The resolution of HTLC [i] by [p], where it succeeds. *)
Definition resolves_htlc (p : channel_party) (i : Z) (up : Z → update) (lc' : channel) (r : result channel_error ()) :
    Prop :=
  match r with
  | Ok _ => ∃ a, lookup_htlc i (log_of lc (counter_party p)) = Some a ∧ takes lc p (up (pd_amount a)) lc'
  | Err _ => lc' = lc
  end.

Lemma takes_lookup p pd i a lc' r :
  lookup_htlc i (log_of lc (counter_party p)) = Some a →
  is_resolution pd = true → pd_parent_index pd = i → pd_log_index pd = ul_log_index (log_of lc p) →
  pd_add_heights pd = zero_heights → pd_remove_heights pd = zero_heights →
  append_resolution p pd i lc = (lc', r) → takes lc p (update_of pd) lc'.
Proof using Hok Hn.
  intros (m & Hin & Ha & Hi)%lookup_htlc_Some; [|by eapply pair_log_ok, ck_logs].
  by apply (takes_resolution t n lc Hok Hn p pd i lc' r m a).
Qed.

Lemma lookup_index p i a : lookup_htlc i (log_of lc p) = Some a → pd_htlc_index a = i.
Proof using Hok. intros (m & _ & _ & Hi)%lookup_htlc_Some; [done | by eapply pair_log_ok, ck_logs]. Qed.

Ltac resolves p i pd :=
  unfold mbind, M_bind, get, fail, check, mret, M_ret; cbv beta iota;
  let Hi := fresh "Hi" in let a := fresh "a" in let E := fresh "E" in
  pose proof (lookup_index (counter_party p) i) as Hi; cbn [counter_party] in Hi;
  destruct (lookup_htlc i _) as [a|] eqn:E; [|done]; specialize (Hi a eq_refl);
  destruct (htlc_has_modification i _); [done|]; cbn [negb];
  try (case_bool_decide; [|done]);
  simpl; exists a; (split; [done|]);
  match goal with |- takes lc p ?up ?lc' => change (takes lc p up lc'); replace up with (update_of (pd a)) by (unfold update_of; simpl; congruence) end;
  eapply (takes_lookup _ (pd a)); [exact E | first [done | simpl; congruence]..].

Lemma settle_htlc_outcome preimage i :
  resolves_htlc Local i (UpSettle i) (settle_htlc preimage i lc).1 (settle_htlc preimage i lc).2.
Proof using Hok Hn. unfold settle_htlc. resolves Local i (λ a, resolution_descriptor Settle zero_hash preimage (pd_amount a) i Local lc). Qed.

Lemma fail_htlc_outcome i : resolves_htlc Local i (UpFail i) (fail_htlc i lc).1 (fail_htlc i lc).2.
Proof using Hok Hn.
  unfold fail_htlc, fail_htlc_as.
  resolves Local i (λ a, resolution_descriptor Fail (pd_rhash a) zero_hash (pd_amount a) i Local lc).
Qed.

Lemma malformed_fail_htlc_outcome i :
  resolves_htlc Local i (UpFail i) (malformed_fail_htlc i lc).1 (malformed_fail_htlc i lc).2.
Proof using Hok Hn.
  unfold malformed_fail_htlc, fail_htlc_as.
  resolves Local i (λ a, resolution_descriptor MalformedFail (pd_rhash a) zero_hash (pd_amount a) i Local lc).
Qed.

Lemma receive_htlc_settle_outcome preimage i :
  resolves_htlc Remote i (UpSettle i) (receive_htlc_settle preimage i lc).1 (receive_htlc_settle preimage i lc).2.
Proof using Hok Hn.
  unfold receive_htlc_settle.
  resolves Remote i (λ a, resolution_descriptor Settle (pd_rhash a) preimage (pd_amount a) (pd_htlc_index a) Remote lc).
Qed.

Lemma receive_fail_htlc_outcome i :
  resolves_htlc Remote i (UpFail i) (receive_fail_htlc i lc).1 (receive_fail_htlc i lc).2.
Proof using Hok Hn.
  unfold receive_fail_htlc.
  resolves Remote i (λ a, resolution_descriptor Fail (pd_rhash a) zero_hash (pd_amount a) (pd_htlc_index a) Remote lc).
Qed.
End Methods.

(** ** The dance *)

Section Dance.
Context {CL : ChannelLaws} (t n : Z) (c0 : dual commitment) (h : dual (list update)).
Hypothesis Ht : in_u64 t.

(** The HTLCs that a view resolves are on the tip. *)
Lemma view_parents lc w b acc :
  chan_ok t n lc → resolve_view lc w (fetch_htlc_view (dual_remote b) (dual_local b) lc) = (acc, Ok ()) →
  ∀ p k r m a, (k, r) ∈ ul_list (log_of lc p) → is_resolution r = true → pd_log_index r < get_for_party b p →
    (m, a) ∈ ul_list (log_of lc (counter_party p)) → is_add a = true → pd_htlc_index a = pd_parent_index r →
    pd_log_index a < idx (tip (chain_of lc w)) (counter_party p).
Proof using Type.
  intros Hok Hv p k r m a Hr Hres Hlt Ha Hadd Hi.
  destruct (resolved_here t n lc w b acc Hok Hv (counter_party p) (k, r)) as (m' & a' & Ha' & Hadd' & Hi' & Hh).
  - rewrite counter_party_involutive, view_updates. apply elem_of_bfilter. split; [done|]. by apply Z.ltb_lt.
  - done.
  - simpl in Hi'. destruct (add_unique (log_of lc (counter_party p)) m m' a a') as [-> ->]; try done;
      [by eapply pair_log_ok, ck_logs | congruence|].
    pose proof (ck_commit _ _ _ Hok w (counter_party p) m' a' Ha) as Hc. rewrite (add_uncommitted w a' Hadd) in Hc.
    apply Z.eqb_neq in Hh. by apply Hc in Hh.
Qed.

Record extends (lc lc' : channel) (w : channel_party) (b : dual Z) (c : commitment) : Prop := {
  ex_params : lc_params lc' = lc_params lc;
  ex_chain : chain_of lc' w = add_commitment c (chain_of lc w);
  ex_other : chain_of lc' (counter_party w) = chain_of lc (counter_party w);
  ex_height : cm_height c = cm_height (tip (chain_of lc w)) + 1;
  ex_indices : cm_message_indices c = b;
}.

Lemma past_next lc lc1 lc2 w b oh th c :
  chan_ok t n lc → chan_past c0 h lc →
  (∀ p, idx (tip (chain_of lc w)) p ≤ get_for_party b p ≤ ul_log_index (log_of lc p)) →
  (match w with
   | Local => dual_local b ≤ idx (tail (chain_of lc Remote)) Local
   | Remote => dual_remote b ≤ idx (tail (chain_of lc Local)) Remote
   end) →
  validate_commitment_sanity (dual_remote b) (dual_local b) w NoBuffer None None lc = (lc1, Ok ()) →
  fetch_commitment_view w (dual_local b) oh (dual_remote b) th lc1 = (lc2, Ok c) →
  let lc' := set_chain w (add_commitment c (chain_of lc2 w)) lc2 in
  chan_past c0 h lc' ∧ extends lc lc' w b c.
Proof using Type.
  intros Hok H Hb Ho Ev Ef lc'. destruct (validate_fee_paid t n _ _ _ _ Ev) as (Hs & Hk & Hp). specialize (Hk Hok).
  destruct (fetch_Ok _ _ _ _ _ _ _ Hp Ef) as (acc & Hf). pose proof (fe_state _ _ _ _ _ _ Hf) as Est.
  set (lcm := mark_noops (ea_noops acc) lc1) in *.
  assert (same_core lcm lc1) as Hsm by apply mark_noops_core.
  assert (same_core lcm lc) as Hsm' by (by etrans).
  destruct (core_chains_kept lc lc1 Hs) as [Hpar1 Hc1]. destruct (core_chains_kept lc lcm Hsm') as [Hparm Hcm].
  pose proof (chan_past_core c0 h lc lc1 Hs H) as H1.
  assert (∀ p, idx (tip (chain_of lc1 w)) p ≤ get_for_party b p ≤ ul_log_index (log_of lc1 p)) as Hb1.
  { intros p. rewrite Hc1. destruct (same_core_index lc1 lc p Hs) as [-> _]. apply Hb. }
  assert (∀ w', chain_of lc2 w' = chain_of lc w') as Hc2.
  { intros w'. rewrite (state_only_chain _ _ w' Est). change (chain_of lcm w' = chain_of lc w'). apply Hcm. }
  assert (lc_params lc2 = lc_params lc) as Hpar2. { rewrite Est. exact Hparm. }
  assert (cm_height c = cm_height (tip (chain_of lc w)) + 1) as Hh.
  { rewrite (fe_height _ _ _ _ _ _ Hf), (next_height_tip t n lc1 w Hk), Hc1. done. }
  assert (extends lc lc' w b c) as Hex.
  { split; [exact Hpar2 | | | done | apply (fe_indices _ _ _ _ _ _ Hf)].
    - rewrite <-Hc2. unfold lc'. by destruct w.
    - rewrite <-Hc2. unfold lc'. by destruct w. }
  split; [|done]. split.
  - eapply (chan_hist_state h (set_chain w (add_commitment c (chain_of lcm w))
      (commit_logs w (cm_height c) (cm_message_indices c) lcm))); cycle 1.
    + apply (chan_hist_commit t n).
      * by apply mark_noops_ok.
      * eapply chan_hist_core; [exact Hsm | apply H1].
      * intros p. unfold idx at 2 3. rewrite (fe_indices _ _ _ _ _ _ Hf), Hcm.
        destruct (same_core_index lcm lc p Hsm') as [-> _]. apply Hb.
      * unfold idx. rewrite (fe_indices _ _ _ _ _ _ Hf). rewrite !Hcm. by destruct w.
      * by rewrite Hcm.
      * intros p k r m a Hr Hres Hlt Ha Hadd Hi.
        apply (core_back lc1 lcm p k r Hsm) in Hr as (r1 & Hr & Er%core_same_mark).
        apply (core_back lc1 lcm _ m a Hsm) in Ha as (a1 & Ha & Ea%core_same_mark).
        rewrite (sm_log _ _ Ea), Hcm, <-Hc1.
        apply (view_parents lc1 w b acc Hk (fe_view _ _ _ _ _ _ Hf) p k r1 m a1); try done.
        -- by rewrite <-(same_mark_is_resolution _ _ Er).
        -- rewrite <-(sm_log _ _ Er). unfold idx in Hlt. by rewrite (fe_indices _ _ _ _ _ _ Hf) in Hlt.
        -- by rewrite <-(same_mark_is_add _ _ Ea).
        -- by rewrite <-(sm_htlc _ _ Ea), <-(sm_parent _ _ Er).
    + rewrite (fe_indices _ _ _ _ _ _ Hf). unfold lc'. rewrite Hc2, Hcm. unfold state_only in *. clear -Est. rewrite Est. by destruct w.
  - rewrite (ex_params _ _ _ _ _ Hex). intros w' c' Hc'.
    destruct (party_cases w w') as [-> | ->].
    + rewrite (ex_chain _ _ _ _ _ Hex), chain_list_add in Hc'.
      apply elem_of_app in Hc' as [Hc'| ->%list_elem_of_singleton]; [by apply (cp_sums _ _ _ H)|].
      rewrite <-Hpar1. apply (new_summed t n _ h lc1 lc2 w b acc c Hk (cp_hist _ _ _ H1) Hf Hb1).
      apply (cp_sums _ _ _ H1), tip_elem.
    + rewrite (ex_other _ _ _ _ _ Hex) in Hc'. by apply (cp_sums _ _ _ H).
Qed.

Lemma past_sign lc lc' sigs :
  chan_ok t n lc → chan_past c0 h lc → sign_next_commitment lc = (lc', Ok sigs) →
  chan_past c0 h lc' ∧ rest (chain_of lc Remote) = [] ∧
  ∃ c point, extends lc lc' Remote (Dual (ul_log_index (log_of lc Local)) (idx (tail (chain_of lc Local)) Remote)) c ∧
    oc_remote_next_revocation (lc_channel_state lc) = Some point ∧ sign_commitment point c = Some sigs.
Proof using Type.
  intros Hok H E. unfold sign_next_commitment in E.
  apply bind_Ok in E as (lc1 & a & E1 & E). apply get_Ok in E1 as [-> ->].
  apply bind_Ok in E as (lc1 & [] & E1 & E). apply check_Ok in E1 as [Hun ->].
  destruct (oc_remote_next_revocation _) as [point|]; [|done].
  apply bind_Ok in E as (lc1 & [] & Ev & E). apply bind_Ok in E as (lc2 & c & Ef & E).
  destruct (sign_commitment point c) as [s|] eqn:Es; [|done].
  apply bind_Ok in E as (lc3 & [] & E3 & E). apply modify_Ok in E3 as ->.
  apply bind_Ok in E as (lc4 & [] & E4 & E). apply modify_Ok in E4 as ->.
  apply ret_Ok in E as [-> ->].
  set (b := Dual (ul_log_index (log_of lc Local)) (idx (tail (chain_of lc Local)) Remote)) in *.
  edestruct (past_next lc lc1 lc2 Remote b) as [Hp Hex]; [exact Hok | exact H | | | exact Ev | exact Ef |].
  - intros []; unfold b; cbn [get_for_party dual_local dual_remote].
    + pose proof (ck_own _ _ _ Hok Remote Local). lia.
    + pose proof (proj2 (ck_order _ _ _ Hok)). pose proof (chan_ok_own t n lc Local Remote Hok). lia.
  - done.
  - split; [|split].
    + destruct Hp as [H1 H2]. split; [|exact H2]. by refine (chan_hist_state h _ _ _ H1).
    + unfold has_unacked_commitment in Hun. by destruct (rest _).
    + exists c, point. split; [|done]. by destruct Hex.
Qed.

Lemma past_receive lc lc' sigs :
  chan_ok t n lc → chan_past c0 h lc → receive_new_commitment sigs lc = (lc', Ok ()) →
  chan_past c0 h lc' ∧
  ∃ c, extends lc lc' Local (Dual (idx (tail (chain_of lc Remote)) Local) (ul_log_index (log_of lc Remote))) c.
Proof using Type.
  intros Hok H E. unfold receive_new_commitment in E.
  apply bind_Ok in E as (lc1 & a & E1 & E). apply get_Ok in E1 as [-> ->].
  apply bind_Ok in E as (lc1 & [] & Ev & E).
  apply bind_Ok in E as (lc2 & secret & E2 & E). apply lift_Ok in E2 as [_ ->].
  apply bind_Ok in E as (lc2 & c & Ef & E).
  apply bind_Ok in E as (lc3 & [] & E3 & E). apply check_Ok in E3 as [_ ->].
  apply modify_Ok in E as ->.
  set (b := Dual (idx (tail (chain_of lc Remote)) Local) (ul_log_index (log_of lc Remote))) in *.
  edestruct (past_next lc lc1 lc2 Local b) as [Hp Hex]; [exact Hok | exact H | | | exact Ev | exact Ef |].
  - intros []; unfold b; cbn [get_for_party dual_local dual_remote].
    + pose proof (proj1 (ck_order _ _ _ Hok)). pose proof (chan_ok_own t n lc Remote Local Hok). lia.
    + pose proof (ck_own _ _ _ Hok Local Remote). lia.
  - done.
  - split; [done|]. by exists c.
Qed.

(** The tail of chain [w] goes. *)
Definition advances (lc lc' : channel) (w : channel_party) : Prop :=
  lc_params lc' = lc_params lc ∧ advance_tail (chain_of lc w) = Some (chain_of lc' w) ∧
  chain_of lc' (counter_party w) = chain_of lc (counter_party w).

Lemma advanced_sums lc lc' w :
  advances lc lc' w → chan_past c0 h lc → chan_hist h lc' → chan_past c0 h lc'.
Proof using Type.
  intros (Hp & Ha & Ho) H Hh. split; [done|]. rewrite Hp. intros w' c Hc.
  destruct (party_cases w w') as [-> | ->]; [|rewrite Ho in Hc; by apply (cp_sums _ _ _ H)].
  apply (cp_sums _ _ _ H). revert Ha Hc. unfold advance_tail. destruct (chain_of lc w) as [tl [|x l]]; simpl; [done|].
  intros [= <-] Hc. by right.
Qed.

Lemma past_revoke lc lc' r :
  chan_ok t n lc → chan_past c0 h lc → revoke_current_commitment lc = (lc', Ok r) →
  chan_past c0 h lc' ∧ advances lc lc' Local.
Proof using Type.
  intros Hok H E. unfold revoke_current_commitment in E.
  apply bind_Ok in E as (lc1 & a & E1 & E). apply get_Ok in E1 as [-> ->].
  apply bind_Ok in E as (lc1 & msg & E1 & E). apply lift_Ok in E1 as [_ ->].
  destruct (advance_tail _) as [s|] eqn:Ea; [|done].
  apply bind_Ok in E as (lc1 & [] & E1 & E). apply modify_Ok in E1 as ->.
  apply bind_Ok in E as (lc1 & a & E1 & E). apply get_Ok in E1 as [-> ->].
  destruct (update_commitment _ _ _) as [st final].
  apply bind_Ok in E as (lc1 & [] & E1 & E). apply modify_Ok in E1 as ->. apply ret_Ok in E as [_ ->].
  match goal with |- chan_past _ _ ?l ∧ _ => set (lc' := l) end.
  assert (advances lc lc' Local) as Hadv by done. split; [|done].
  apply (advanced_sums lc lc' Local Hadv H).
  pose proof (chan_hist_advance t n h lc Local s Hok (cp_hist _ _ _ H) Ea) as []. by split.
Qed.

Lemma past_receive_revocation lc lc' msg r :
  chan_ok t n lc → chan_past c0 h lc → receive_revocation msg lc = (lc', Ok r) →
  chan_past c0 h lc' ∧ advances lc lc' Remote.
Proof using Type.
  intros Hok H (next & rev & st & st' & s & u & v & [_ _ _ _ _ _ _ _ Ea [Ec ->] _])%receive_revocation_inv.
  set (fwd := (List.filter _ _).*1) in *.
  set (st1 := set_remote_revocations next (Some (ra_next_revocation_key msg)) st (lc_channel_state lc)) in *.
  set (lc1 := set_log Remote (modify_nodes fwd (set_pd_is_forwarded true) (log_of lc Remote)) (set_channel_state st1 lc)).
  set (lc2 := set_chain Remote s (set_channel_state st' lc1)).
  change (chan_past c0 h (set_update_logs (Dual u v) lc2) ∧ advances lc (set_update_logs (Dual u v) lc2) Remote).
  assert (same_core lc1 (set_channel_state st1 lc)) as Hs1.
  { eapply (set_logs_core (log_of lc Local)); [done | | done]. by apply modify_flags_core. }
  assert (chan_ok t n lc1) as Hok1.
  { apply (chan_ok_write t n (set_channel_state st1 lc) Remote); [done | done |]. by apply (chan_ok_state t n lc). }
  assert (chan_hist h lc1) as Hh1.
  { eapply chan_hist_core; [exact Hs1|]. by refine (chan_hist_state h _ _ _ (cp_hist _ _ _ H)). }
  assert (chan_ok t n (set_channel_state st' lc1)) as Hok1' by by apply (chan_ok_state t n lc1).
  assert (chan_ok t n lc2) as Hok2 by by apply chan_ok_advance.
  assert (chan_hist h lc2) as Hh2.
  { apply (chan_hist_advance t n); [done | by refine (chan_hist_state h _ _ _ Hh1) | done]. }
  assert (advances lc (set_update_logs (Dual u v) lc2) Remote) as Hadv by done.
  split; [|done]. apply (advanced_sums lc _ Remote Hadv H). apply (chan_hist_compact t n h lc2 u v Hok2 Hh2).
  destruct (chain_ok_advance _ _ (ck_chain _ _ _ Hok Remote) Ea) as (_ & _ & _ & Hh & _).
  rewrite <-Ec. f_equal. change (chain_of lc2 Remote) with s. rewrite Hh. symmetry. apply u64_small.
  pose proof (cn_range _ (ck_chain _ _ _ Hok Remote) _ (tail_elem _)) as Hr. unfold in_u64.
  change max_state_hint with (2 ^ 48 - 1) in Hr. lia.
Qed.
End Dance.
End Steps.
