(* ===== verification/ChannelRestore.v ===== *)
(** * Channels read back from the database (lnwallet/channel.go)

    [NewLightningChannel]: the chains and the update logs of a channel, made
    from its record in the database. The heights of the entries are not in the
    record: the code gives an entry the height of a commitment that has it. The
    keys, scripts and output indexes, the nonces of taproot channels and pending
    splices are left out. *)

From S2P Require Import Prelude Chainfee Shachain UpdateLog Channel.

Inductive restore_error :=
| ErrOfChannel (e : channel_error)
| ErrUnsignedRemoteUpdate
| ErrUnknownMessage
| RestorePanic.                       (* a nil HTLC, or indexes that do not match *)

(** ** HTLCs and commitments on disk *)

Definition disk_htlc_to_pay_desc (htlc : payment_descriptor) : payment_descriptor :=
  PaymentDescriptor (pd_rhash htlc) zero_hash (pd_timeout htlc) (pd_amount htlc) (pd_log_index htlc)
    (pd_htlc_index htlc) 0 zero_heights zero_heights (pd_entry_type htlc) false false.

Definition disk_commit_to_mem_commit (p : channel_params) (whose : channel_party) (c : commitment) : commitment :=
  Commitment (cm_height c) whose (cm_message_indices c) (cm_our_htlc_index c) (cm_their_htlc_index c) (cm_txn c)
    (cm_our_balance c) (cm_their_balance c) (cm_fee c) (cm_fee_per_kw c) (cfg_dust_limit (cfg_for p whose))
    (map disk_htlc_to_pay_desc (cm_outgoing c)) (map disk_htlc_to_pay_desc (cm_incoming c)).

(** ** Updates on disk *)

(** The heights of an entry that is on the chain [w] from [height] on. *)
Definition at_height (w : channel_party) (height : Z) : dual Z := set_for_party zero_heights w height.

(** The entry of a resolution, from the HTLC that it resolves. *)
Definition resolution_pay_desc (w : channel_party) (height : Z) (og : payment_descriptor) (u : payment_descriptor) :
    payment_descriptor :=
  PaymentDescriptor (pd_rhash og) (match pd_entry_type u with Settle => pd_rpreimage u | _ => zero_hash end) 0
    (pd_amount og) (pd_log_index u) 0 (pd_htlc_index og) zero_heights (at_height w height) (pd_entry_type u) false false.

(** An update that is on the chain [w] from [height] on; [other] is the log of
    the HTLCs that it may resolve. *)
Definition update_to_pay_desc (w : channel_party) (other : update_log) (height : Z) (u : payment_descriptor) :
    result restore_error payment_descriptor :=
  match pd_entry_type u with
  | Add | NoOpAdd =>
      Ok (PaymentDescriptor (pd_rhash u) zero_hash (pd_timeout u) (pd_amount u) (pd_log_index u) (pd_htlc_index u) 0
            (at_height w height) zero_heights (pd_entry_type u) false false)
  | Settle | Fail | MalformedFail =>
      match lookup_htlc (pd_parent_index u) other with
      | None => Err RestorePanic
      | Some og => Ok (resolution_pay_desc w height og u)
      end
  | FeeUpdate =>
      (* the wire has the rate in 32 bits *)
      Ok (PaymentDescriptor [] [] 0 (msat_of_sat (u32 (to_satoshis (pd_amount u)))) (pd_log_index u) 0 0
            (at_height w height) (at_height w height) FeeUpdate false false)
  end.

Definition log_update_to_pay_desc : update_log → Z → payment_descriptor → result restore_error payment_descriptor :=
  update_to_pay_desc Remote.
Definition remote_log_update_to_pay_desc : update_log → Z → payment_descriptor → result restore_error payment_descriptor :=
  update_to_pay_desc Local.
(** Adds are not saved among the updates that the peer has to sign for. *)
Definition local_log_update_to_pay_desc (other : update_log) (height : Z) (u : payment_descriptor) :
    result restore_error payment_descriptor :=
  ensure (negb (is_add u)) else ErrUnknownMessage; update_to_pay_desc Remote other height u.

(** ** The logs *)

Definition set_log_index (i : Z) (pd : payment_descriptor) : payment_descriptor :=
  PaymentDescriptor (pd_rhash pd) (pd_rpreimage pd) (pd_timeout pd) (pd_amount pd) i (pd_htlc_index pd)
    (pd_parent_index pd) (pd_add_heights pd) (pd_remove_heights pd) (pd_entry_type pd) (pd_noop_settle pd)
    (pd_is_forwarded pd).

Definition mark_parent (p : channel_party) (pd : payment_descriptor) (logs : dual update_log) : dual update_log :=
  if is_resolution pd then modify_for_party logs p (mark_htlc_modified (pd_parent_index pd)) else logs.

Definition restore_pending_local_update (height : Z) (logs : dual update_log) (u : payment_descriptor) :
    result restore_error (dual update_log) :=
  let* pd := log_update_to_pay_desc (dual_remote logs) height u in
  let index := ul_log_index (dual_local logs) in
  (* older versions did not write the index of a fee update *)
  let pd := if bool_decide (pd_entry_type pd = FeeUpdate) && (pd_log_index pd =? 0) && (0 <? index)
            then set_log_index index pd else pd in
  ensure (pd_log_index pd =? index) else RestorePanic;
  if is_add pd then
    ensure (pd_htlc_index pd =? ul_htlc_counter (dual_local logs)) else RestorePanic;
    Ok (modify_for_party logs Local (append_htlc pd))
  else Ok (mark_parent Remote pd (modify_for_party logs Local (append_update pd))).

Definition restore_pending_local_updates (d : commit_diff) (logs : dual update_log) :
    result restore_error (dual update_log) :=
  fold_result (restore_pending_local_update (cm_height (cd_commitment d))) (cd_log_updates d) logs.

Definition restore_pending_remote_update (local_height : Z) (pending : option commitment) (logs : dual update_log)
    (u : payment_descriptor) : result restore_error (dual update_log) :=
  let* pd := remote_log_update_to_pay_desc (dual_local logs) local_height u in
  ensure (pd_log_index pd <? ul_log_index (dual_remote logs)) else ErrUnsignedRemoteUpdate;
  if is_add pd then Ok logs
  else
    let pd := match pending with
              | Some c => if pd_log_index pd <? dual_remote (cm_message_indices c)
                          then set_commit_height Remote (cm_height c) pd else pd
              | None => pd
              end in
    Ok (mark_parent Local pd (modify_for_party logs Remote (restore_update pd))).

Definition restore_pending_remote_updates (unsigned_acked : list payment_descriptor) (local_height : Z)
    (pending : option commitment) (logs : dual update_log) : result restore_error (dual update_log) :=
  fold_result (restore_pending_remote_update local_height pending) unsigned_acked logs.

Definition restore_peer_local_update (remote_height : Z) (logs : dual update_log) (u : payment_descriptor) :
    result restore_error (dual update_log) :=
  let* pd := local_log_update_to_pay_desc (dual_remote logs) remote_height u in
  Ok (mark_parent Remote pd (modify_for_party logs Local (restore_update pd))).

Definition restore_peer_local_updates (updates : list payment_descriptor) (remote_height : Z)
    (logs : dual update_log) : result restore_error (dual update_log) :=
  fold_result (restore_peer_local_update remote_height) updates logs.

(** The height at which an HTLC came to a chain, by its index: of all the writes
    for an index the last one stays. *)
Definition note_heights (height : Z) (l : list Z) (m : gmap Z Z) : gmap Z Z :=
  foldl (λ m i, <[i := height]> m) m l.
Definition resolved_ids (updates : list payment_descriptor) : list Z :=
  map pd_parent_index (List.filter is_resolution updates).

Definition incoming_remote_add_heights (remote : commitment) (pending : option commitment)
    (remote_unsigned : list payment_descriptor) : gmap Z Z :=
  let m := match pending with
           | Some c => note_heights (cm_height c) (map pd_htlc_index (cm_incoming c)) ∅
           | None => ∅
           end in
  let m := note_heights (cm_height remote) (map pd_htlc_index (cm_incoming remote)) m in
  note_heights (cm_height remote) (resolved_ids remote_unsigned) m.

Definition outgoing_local_add_heights (local : commitment) (unsigned_acked : list payment_descriptor) : gmap Z Z :=
  note_heights (cm_height local) (resolved_ids unsigned_acked)
    (note_heights (cm_height local) (map pd_htlc_index (cm_outgoing local)) ∅).

Definition restored_htlc (local_height remote_height : Z) (htlc : payment_descriptor) : payment_descriptor :=
  set_pd_heights (Dual local_height remote_height) (pd_remove_heights htlc) htlc.

(** Both HTLC passes of [restoreStateLogs]. *)
Definition restore_incoming (local remote : commitment) (pending : option commitment)
    (remote_unsigned : list payment_descriptor) (u : update_log) : update_log :=
  let heights := incoming_remote_add_heights remote pending remote_unsigned in
  foldl (λ u htlc, restore_htlc (restored_htlc (cm_height local) (default 0 (heights !! pd_htlc_index htlc)) htlc) u)
    u (cm_incoming local).

Definition restore_outgoing (local remote : commitment) (unsigned_acked : list payment_descriptor) (u : update_log) :
    update_log :=
  let heights := outgoing_local_add_heights local unsigned_acked in
  foldl (λ u htlc, restore_htlc (restored_htlc (default 0 (heights !! pd_htlc_index htlc)) (cm_height remote) htlc) u)
    u (cm_outgoing remote).

Definition restore_state_logs (local remote : commitment) (pending : option (commitment * commit_diff))
    (unsigned_acked remote_unsigned : list payment_descriptor) (logs : dual update_log) :
    result restore_error (dual update_log) :=
  let logs := Dual (restore_outgoing local remote unsigned_acked (dual_local logs))
                (restore_incoming local remote (fst <$> pending) remote_unsigned (dual_remote logs)) in
  let* logs := match pending with
               | Some (_, d) => restore_pending_local_updates d logs
               | None => Ok logs
               end in
  let* logs := restore_pending_remote_updates unsigned_acked (cm_height local) (fst <$> pending) logs in
  restore_peer_local_updates remote_unsigned (cm_height remote) logs.

(** ** The channel *)

Section Restore.
Context {HP : HashPrims}.

Definition restore_commit_state (p : channel_params) (s : open_channel) (logs : dual update_log) :
    result restore_error channel :=
  let height := cm_height (oc_local_commitment s) in
  let* _ := map_err (λ e, ErrOfChannel (ErrShachain e)) (producer_at_index (oc_revocation_producer s) height) in
  let local := disk_commit_to_mem_commit p Local (oc_local_commitment s) in
  let remote := disk_commit_to_mem_commit p Remote (oc_remote_commitment s) in
  let* pending := match oc_commit_diff s with
                  | None => Ok None
                  | Some d =>
                      ensure (bool_decide (is_Some (oc_remote_next_revocation s))) else ErrOfChannel ErrNoNextRevocation;
                      Ok (Some (disk_commit_to_mem_commit p Remote (cd_commitment d), d))
                  end in
  let* logs := restore_state_logs local remote pending (default [] (oc_unsigned_acked_updates s))
                 (default [] (oc_remote_unsigned_local_updates s)) logs in
  Ok (LightningChannel p s height
        (Dual (Chain local []) (Chain remote (match pending with Some (c, _) => [c] | None => [] end))) logs).

Definition new_lightning_channel (p : channel_params) (s : open_channel) : result restore_error channel :=
  let local_commit := oc_local_commitment s in
  let remote_commit := oc_remote_commitment s in
  restore_commit_state p s (Dual
    (new_update_log (dual_local (cm_message_indices remote_commit)) (cm_our_htlc_index remote_commit))
    (new_update_log (dual_remote (cm_message_indices local_commit)) (cm_their_htlc_index local_commit))).
End Restore.
