(* ===== verification/ChannelKept.v ===== *)
(** * What a channel's record is good for

    The invariant that lets a channel be read back: what the record in the
    database has of the logs, and how the commitments divide them. Entries are
    compared without the data that the record does not keep. *)

From S2P Require Import Prelude Chainfee Shachain UpdateLog Channel ChannelLog ChannelView ChannelInv ChannelCommit.
From S2P Require Import ChannelRestore.

(** ** Entries, as far as they are kept *)

Definition bare (pd : payment_descriptor) : payment_descriptor :=
  PaymentDescriptor (if is_add pd then pd_rhash pd else [])
    (if bool_decide (pd_entry_type pd = Settle) then pd_rpreimage pd else [])
    (if is_add pd then pd_timeout pd else 0)
    (if bool_decide (pd_entry_type pd = FeeUpdate) then 0 else pd_amount pd)
    (pd_log_index pd) (if is_add pd then pd_htlc_index pd else 0) (if is_resolution pd then pd_parent_index pd else 0)
    (pd_add_heights pd) (pd_remove_heights pd) (pd_entry_type pd) false false.
(** The same, without the heights. *)
Definition shape (pd : payment_descriptor) : payment_descriptor := set_pd_heights zero_heights zero_heights (bare pd).

Definition bares (lc : channel) (p : channel_party) : list payment_descriptor := map bare (ul_values (log_of lc p)).

Lemma bare_is_add pd : is_add (bare pd) = is_add pd.
Proof. done. Qed.
Lemma bare_is_resolution pd : is_resolution (bare pd) = is_resolution pd.
Proof. done. Qed.
Lemma bare_uncommitted w pd : is_uncommitted w (bare pd) = is_uncommitted w pd.
Proof. done. Qed.
Lemma shape_bare pd : shape (bare pd) = shape pd.
Proof. unfold shape, bare, is_add, is_resolution. simpl. by destruct (pd_entry_type pd). Qed.
Lemma bare_htlc pd : is_add pd = true → pd_htlc_index (bare pd) = pd_htlc_index pd.
Proof. intros H. unfold bare. by rewrite H. Qed.
Lemma bare_parent pd : is_resolution pd = true → pd_parent_index (bare pd) = pd_parent_index pd.
Proof. intros H. unfold bare. by rewrite H. Qed.
Lemma bare_amount pd : pd_entry_type pd ≠ FeeUpdate → pd_amount (bare pd) = pd_amount pd.
Proof. intros H. unfold bare. simpl. by rewrite bool_decide_eq_false_2. Qed.

Lemma elem_of_bares lc p b : b ∈ bares lc p ↔ ∃ k pd, (k, pd) ∈ ul_list (log_of lc p) ∧ b = bare pd.
Proof.
  unfold bares, ul_values. rewrite list_elem_of_fmap. setoid_rewrite list_elem_of_fmap. split.
  - intros (pd & -> & [k pd'] & -> & Hin). by exists k, pd'.
  - intros (k & pd & Hin & ->). exists pd. split; [done|]. by exists (k, pd).
Qed.

Lemma bares_intro lc p k pd : (k, pd) ∈ ul_list (log_of lc p) → bare pd ∈ bares lc p.
Proof. intros H. apply elem_of_bares. by exists k, pd. Qed.

(** What entries of the same shape share. *)
Lemma shape_log a b : shape a = shape b → pd_log_index a = pd_log_index b.
Proof. intros H. exact (f_equal pd_log_index H). Qed.
Lemma shape_type a b : shape a = shape b → pd_entry_type a = pd_entry_type b.
Proof. intros H. exact (f_equal pd_entry_type H). Qed.
Lemma shape_is_add a b : shape a = shape b → is_add a = is_add b.
Proof. intros H%shape_type. unfold is_add. by rewrite H. Qed.
Lemma shape_is_resolution a b : shape a = shape b → is_resolution a = is_resolution b.
Proof. intros H%shape_type. unfold is_resolution. by rewrite H. Qed.
Lemma shape_htlc a b : shape a = shape b → is_add b = true → pd_htlc_index a = pd_htlc_index b.
Proof.
  intros H Hb. pose proof (shape_is_add _ _ H) as Ha. pose proof (f_equal pd_htlc_index H) as E.
  unfold shape, bare in E. simpl in E. by rewrite Ha, Hb in E.
Qed.
Lemma shape_parent a b : shape a = shape b → is_resolution b = true → pd_parent_index a = pd_parent_index b.
Proof.
  intros H Hb. pose proof (shape_is_resolution _ _ H) as Ha. pose proof (f_equal pd_parent_index H) as E.
  unfold shape, bare in E. simpl in E. by rewrite Ha, Hb in E.
Qed.
Lemma shape_amount a b : shape a = shape b → pd_entry_type b ≠ FeeUpdate → pd_amount a = pd_amount b.
Proof.
  intros H Hb. pose proof (shape_type _ _ H) as Ha. pose proof (f_equal pd_amount H) as E.
  unfold shape, bare in E. simpl in E. by rewrite !bool_decide_eq_false_2 in E by congruence.
Qed.
Lemma shape_rhash a b : shape a = shape b → is_add b = true → pd_rhash a = pd_rhash b.
Proof.
  intros H Hb. pose proof (shape_is_add _ _ H) as Ha. pose proof (f_equal pd_rhash H) as E.
  unfold shape, bare in E. simpl in E. by rewrite Ha, Hb in E.
Qed.
Lemma shape_preimage a b : shape a = shape b → pd_entry_type b = Settle → pd_rpreimage a = pd_rpreimage b.
Proof.
  intros H Hb. pose proof (shape_type _ _ H) as Ha. pose proof (f_equal pd_rpreimage H) as E.
  unfold shape, bare in E. simpl in E. by rewrite !bool_decide_eq_true_2 in E by congruence.
Qed.

Lemma set_height_shape w h pd : shape (set_commit_height w h pd) = shape pd.
Proof. unfold shape, bare, is_add, is_resolution, set_commit_height. by destruct (pd_entry_type pd) eqn:E; simpl; rewrite E. Qed.
Lemma set_height_bare w h pd : bare (set_commit_height w h pd) = set_commit_height w h (bare pd).
Proof. unfold bare, is_add, is_resolution, set_commit_height. by destruct (pd_entry_type pd) eqn:E; simpl; rewrite ?E. Qed.

Definition is_fee (pd : payment_descriptor) : bool := bool_decide (pd_entry_type pd = FeeUpdate).

(** The heights of an entry on a chain: an add has one, of its addition, a
    resolution one of its removal, and a fee update twice the same. *)
Definition height_on (w : channel_party) (pd : payment_descriptor) : Z :=
  if is_add pd then add_height w pd else remove_height w pd.

Record heights_ok (pd : payment_descriptor) : Prop := {
  ho_add w : is_add pd = true → remove_height w pd = 0;
  ho_resolution w : is_resolution pd = true → add_height w pd = 0;
  ho_fee w : pd_entry_type pd = FeeUpdate → add_height w pd = remove_height w pd;
}.

Lemma height_uncommitted w pd : heights_ok pd → is_uncommitted w pd = (height_on w pd =? 0).
Proof.
  intros H. unfold is_uncommitted, height_on, is_add. destruct (pd_entry_type pd) eqn:E; simpl; try done.
  by rewrite (ho_fee _ H).
Qed.

Lemma set_height_on w h pd : height_on w (set_commit_height w h pd) = h.
Proof.
  unfold height_on, set_commit_height, add_height, remove_height, is_add.
  destruct (pd_entry_type pd) eqn:E; simpl; rewrite ?E; by destruct w.
Qed.
Lemma set_height_other w h pd w' : w ≠ w' → height_on w' (set_commit_height w h pd) = height_on w' pd.
Proof.
  intros Hw. unfold height_on, set_commit_height, add_height, remove_height, is_add.
  destruct (pd_entry_type pd) eqn:E; simpl; rewrite ?E; by destruct w, w'.
Qed.
Lemma set_height_ok w h pd : heights_ok pd → heights_ok (set_commit_height w h pd).
Proof.
  intros [H1 H2 H3]. unfold set_commit_height.
  split; intros w'; specialize (H1 w'); specialize (H2 w'); specialize (H3 w');
    unfold is_add, is_resolution, add_height, remove_height in *;
    destruct (pd_entry_type pd) eqn:E; simpl in *; rewrite ?E; simpl; try done; intros _;
    destruct w, w'; simpl; auto.
Qed.

(** ** The invariant *)

Definition count_of (c : commitment) (p : channel_party) : Z :=
  match p with Local => cm_our_htlc_index c | Remote => cm_their_htlc_index c end.

Definition above (i : Z) (l : list payment_descriptor) : list payment_descriptor :=
  List.filter (λ b, i <=? pd_log_index b) l.
Definition between (i j : Z) (l : list payment_descriptor) : list payment_descriptor :=
  List.filter (λ b, (i <=? pd_log_index b) && (pd_log_index b <? j)) l.
Definition not_add (b : payment_descriptor) : bool := negb (is_add b).

Record kept (lc : channel) : Prop := {
  kp_next : oc_commit_diff (lc_channel_state lc) ≠ None → oc_remote_next_revocation (lc_channel_state lc) ≠ None;
  kp_current : lc_current_height lc = cm_height (tail (chain_of lc Local));
  kp_local : disk_commit_to_mem_commit (lc_params lc) Local (oc_local_commitment (lc_channel_state lc)) =
    disk_commit_to_mem_commit (lc_params lc) Local (tail (chain_of lc Local));
  kp_remote : disk_commit_to_mem_commit (lc_params lc) Remote (oc_remote_commitment (lc_channel_state lc)) =
    disk_commit_to_mem_commit (lc_params lc) Remote (tail (chain_of lc Remote));
  kp_pending : map (disk_commit_to_mem_commit (lc_params lc) Remote) (rest (chain_of lc Remote)) =
    match oc_commit_diff (lc_channel_state lc) with
    | None => []
    | Some d => [disk_commit_to_mem_commit (lc_params lc) Remote (cd_commitment d)]
    end;
  kp_meta w c : c ∈ chain_list (chain_of lc w) → cm_dust_limit c = cfg_dust_limit (cfg_for (lc_params lc) w);
  kp_zero w c p : c ∈ chain_list (chain_of lc w) → 0 ≤ idx c p ∧ (cm_height c = 0 → idx c p = 0);
  kp_count p c : c ∈ chain_list (chain_of lc (counter_party p)) →
    0 ≤ count_of c p ≤ ul_htlc_counter (log_of lc p) ∧
    ∀ b, b ∈ bares lc p → is_add b = true → pd_log_index b < idx c p → pd_htlc_index b < count_of c p;
  kp_above c : c ∈ chain_list (chain_of lc Remote) →
    map pd_log_index (above (idx c Local) (bares lc Local)) =
      seqZ (idx c Local) (ul_log_index (log_of lc Local) - idx c Local) ∧
    map pd_htlc_index (List.filter is_add (above (idx c Local) (bares lc Local))) =
      seqZ (cm_our_htlc_index c) (ul_htlc_counter (log_of lc Local) - cm_our_htlc_index c);
  kp_like w c p pd b : c ∈ chain_list (chain_of lc w) → pd ∈ htlcs_of c p → b ∈ bares lc p → is_add b = true →
    pd_htlc_index pd = pd_htlc_index b → shape pd = shape b;
  kp_parent w c p r a : c ∈ chain_list (chain_of lc w) → r ∈ bares lc p → is_resolution r = true →
    pd_log_index r < idx c p → a ∈ bares lc (counter_party p) → is_add a = true →
    pd_htlc_index a = pd_parent_index r → pd_log_index a < idx c (counter_party p);
  kp_heights p b : b ∈ bares lc p → heights_ok b ∧ ∀ w, 0 ≤ height_on w b ≤ cm_height (tip (chain_of lc w));
  kp_height w p b c : b ∈ bares lc p → c ∈ chain_list (chain_of lc w) →
    height_on w b ≠ 0 → height_on w b ≤ cm_height c → pd_log_index b < idx c p;
  kp_diff d : oc_commit_diff (lc_channel_state lc) = Some d →
    map shape (cd_log_updates d) =
    map shape (between (idx (tail (chain_of lc Remote)) Local) (idx (tip (chain_of lc Remote)) Local) (bares lc Local));
  kp_before c p r a : c ∈ rest (chain_of lc Remote) → r ∈ bares lc p → is_resolution r = true →
    pd_log_index r < idx c p → a ∈ bares lc (counter_party p) → is_add a = true →
    pd_htlc_index a = pd_parent_index r → pd_log_index a < idx (tail (chain_of lc Remote)) (counter_party p);
  kp_sorted p : StronglySorted (λ a b, pd_log_index a < pd_log_index b) (List.filter is_add (bares lc p));
  kp_acked : map shape (List.filter not_add (default [] (oc_unsigned_acked_updates (lc_channel_state lc)))) =
    map shape (List.filter not_add
      (between (idx (tail (chain_of lc Remote)) Remote) (idx (tail (chain_of lc Local)) Remote) (bares lc Remote)));
  kp_bound u : u ∈ default [] (oc_unsigned_acked_updates (lc_channel_state lc)) →
    pd_log_index u < idx (tail (chain_of lc Local)) Remote;
  kp_never : oc_unsigned_acked_updates (lc_channel_state lc) = None → idx (tail (chain_of lc Local)) Remote = 0;
  kp_unsigned :
    map shape (default [] (oc_remote_unsigned_local_updates (lc_channel_state lc))) `sublist_of`
    map shape (List.filter not_add
      (between (idx (tail (chain_of lc Local)) Local) (idx (tail (chain_of lc Remote)) Local) (bares lc Local)));
  kp_resolutions :
    List.filter is_resolution (map shape (default [] (oc_remote_unsigned_local_updates (lc_channel_state lc)))) =
    List.filter is_resolution (map shape (List.filter not_add
      (between (idx (tail (chain_of lc Local)) Local) (idx (tail (chain_of lc Remote)) Local) (bares lc Local))));
}.

Ltac kept_field H :=
  first [exact (kp_next _ H) | exact (kp_current _ H) | exact (kp_local _ H) | exact (kp_remote _ H) |
         exact (kp_pending _ H) | apply (kp_meta _ H) | apply (kp_zero _ H) | apply (kp_count _ H) |
         apply (kp_above _ H) | apply (kp_like _ H) | apply (kp_parent _ H) | apply (kp_heights _ H) |
         apply (kp_height _ H) | apply (kp_diff _ H) | apply (kp_before _ H) | apply (kp_sorted _ H) |
         exact (kp_acked _ H) | apply (kp_bound _ H) | exact (kp_never _ H) |
         exact (kp_unsigned _ H) | exact (kp_resolutions _ H)].

Section Kept.
Context {HP : HashPrims}.

(** *** What the invariant reads *)

Definition stored (lc : channel) :=
  let s := lc_channel_state lc in
  (lc_params lc, lc_current_height lc, lc_commit_chains lc, oc_local_commitment s, oc_remote_commitment s,
   oc_commit_diff s, oc_remote_next_revocation s, oc_unsigned_acked_updates s, oc_remote_unsigned_local_updates s).

Definition counters (lc : channel) (p : channel_party) : Z * Z :=
  (ul_log_index (log_of lc p), ul_htlc_counter (log_of lc p)).

Lemma stored_chain lc lc' w : stored lc' = stored lc → chain_of lc' w = chain_of lc w.
Proof. unfold stored, chain_of. intros [=]. congruence. Qed.

Lemma kept_same lc lc' :
  stored lc' = stored lc → (∀ p, bares lc' p = bares lc p) → (∀ p, counters lc' p = counters lc p) →
  kept lc → kept lc'.
Proof.
  intros Es Eb Ec H. pose proof (λ w, stored_chain lc lc' w Es) as Ech. unfold stored in Es.
  injection Es as E1 E2 E3 E4 E5 E6 E7 E8 E9.
  assert (∀ p, ul_log_index (log_of lc' p) = ul_log_index (log_of lc p)) as Ei by (intros p; specialize (Ec p); by injection Ec).
  assert (∀ p, ul_htlc_counter (log_of lc' p) = ul_htlc_counter (log_of lc p)) as En by (intros p; specialize (Ec p); by injection Ec).
  split; intros *; try setoid_rewrite Ech; rewrite ?Eb, ?Ei, ?En, ?E1, ?E2, ?E4, ?E5, ?E6, ?E7, ?E8, ?E9; kept_field H.
Qed.

Lemma idx_tip_le lc w p c t n : chan_ok t n lc → c ∈ chain_list (chain_of lc w) → idx c p ≤ ul_log_index (log_of lc p).
Proof.
  intros H Hc. pose proof (chain_idx _ c p (ck_chain _ _ _ H w) Hc). pose proof (ck_own _ _ _ H w p). lia.
Qed.

(** The HTLCs of a commitment have been given out. *)
Lemma commit_htlc_bound t n lc w c p pd :
  chan_ok t n lc → c ∈ chain_list (chain_of lc w) → pd ∈ htlcs_of c p → pd_htlc_index pd < ul_htlc_counter (log_of lc p).
Proof.
  intros H Hc Hin. pose proof (ck_live _ _ _ H w c Hc) as Hl. apply (reflects_party lc c p) in Hl as [E _].
  assert ((pd_htlc_index pd, pd_amount pd) ∈ keys (htlcs_of c p)) as Hk.
  { apply list_elem_of_fmap. by exists pd. }
  change (get_for_party (cm_message_indices c)) with (idx c) in E.
  rewrite E in Hk. rewrite keys_snd in Hk. apply list_elem_of_fmap in Hk as ([k a] & Ek & Hin').
  injection Ek as -> _. unfold open_htlcs in Hin'. apply elem_of_bfilter in Hin' as [Hin' Hp]. simpl.
  apply andb_true_iff in Hp as [_ [Ha _]%andb_true_iff].
  destruct (lo_htlc_bound _ (pair_log_ok lc p (ck_logs _ _ _ H)) _ _ Hin' Ha). done.
Qed.

Lemma sorted_snoc {A} (R : A → A → Prop) l x : StronglySorted R l → (∀ a, a ∈ l → R a x) → StronglySorted R (l ++ [x]).
Proof.
  induction 1 as [|a l Hs IH Ha]; intros Hx; simpl; [by repeat constructor|]. constructor.
  - apply IH. intros y Hy. apply Hx. by right.
  - apply Forall_app. split; [done|]. constructor; [|done]. apply Hx. by left.
Qed.

Lemma sorted_sublist {A} (R : A → A → Prop) l k : l `sublist_of` k → StronglySorted R k → StronglySorted R l.
Proof.
  induction 1 as [|x l k Hs IH|x l k Hs IH]; [done| |]; intros Hk; apply StronglySorted_inv in Hk as [Hk Hx]; [|by apply IH].
  constructor; [by apply IH|]. rewrite Forall_forall in Hx |- *. intros y Hy. apply Hx. by eapply elem_of_sublist.
Qed.

Lemma sorted_map {A B} (R : A → A → Prop) (S : B → B → Prop) (f : A → B) l :
  (∀ a b, R a b → S (f a) (f b)) → StronglySorted R l → StronglySorted S (map f l).
Proof.
  intros Hf. induction 1 as [|a l Hs IH Ha]; simpl; constructor; [done|].
  apply Forall_map. eapply Forall_impl; [exact Ha|]. intros b. apply Hf.
Qed.

Lemma seqZ_snoc m n : 0 ≤ n → seqZ m (n + 1) = seqZ m n ++ [m + n].
Proof. intros Hn. rewrite seqZ_app by lia. done. Qed.

Lemma above_app i l k : above i (l ++ k) = above i l ++ above i k.
Proof. apply List.filter_app. Qed.
Lemma between_app i j l k : between i j (l ++ k) = between i j l ++ between i j k.
Proof. apply List.filter_app. Qed.
Lemma between_out i j b : j ≤ pd_log_index b → between i j [b] = [].
Proof. intros Hj. unfold between. simpl. by rewrite (proj2 (Z.ltb_ge _ _)), andb_false_r. Qed.
Lemma above_one i b : i ≤ pd_log_index b → above i [b] = [b].
Proof. intros Hi. unfold above. simpl. by rewrite (proj2 (Z.leb_le _ _)). Qed.

(** *** A new update *)

Section Push.
Context (t n : Z) (lc lc' : channel) (p : channel_party) (b : payment_descriptor).
Hypothesis Hok : chan_ok t n lc.
Hypothesis H : kept lc.
Hypothesis Es : stored lc' = stored lc.
Hypothesis Ep : bares lc' p = bares lc p ++ [b].
Hypothesis Eq : bares lc' (counter_party p) = bares lc (counter_party p).
Hypothesis Ei : ul_log_index (log_of lc' p) = ul_log_index (log_of lc p) + 1.
Hypothesis En : ul_htlc_counter (log_of lc' p) = ul_htlc_counter (log_of lc p) + if is_add b then 1 else 0.
Hypothesis Ec : counters lc' (counter_party p) = counters lc (counter_party p).
Hypothesis Hi : pd_log_index b = ul_log_index (log_of lc p).
Hypothesis Hn : is_add b = true → pd_htlc_index b = ul_htlc_counter (log_of lc p).
Hypothesis Hz : pd_add_heights b = zero_heights ∧ pd_remove_heights b = zero_heights.

Lemma push_bares q x : x ∈ bares lc' q → x ∈ bares lc q ∨ q = p ∧ x = b.
Proof using Ep Eq.
  destruct (party_cases p q) as [-> | ->]; rewrite ?Ep, ?Eq; [|by left].
  intros [Hin|Hin%list_elem_of_singleton]%elem_of_app; [by left | by right].
Qed.

Lemma push_above w c q : c ∈ chain_list (chain_of lc w) → idx c q ≤ ul_log_index (log_of lc q).
Proof using Hok. intros Hc. by apply (idx_tip_le lc w q c t n). Qed.

Lemma push_between w i c q :
  c ∈ chain_list (chain_of lc w) → between i (idx c q) (bares lc' q) = between i (idx c q) (bares lc q).
Proof using Hok Ep Eq Hi.
  intros Hc. pose proof (push_above w c q Hc) as Hle. destruct (party_cases p q) as [-> | ->]; [|by rewrite Eq].
  rewrite Ep, between_app, between_out by lia. apply app_nil_r.
Qed.

(** Nothing resolves it yet. *)
Lemma push_orphan q r : r ∈ bares lc q → is_resolution r = true → counter_party q = p → is_add b = true →
  pd_htlc_index b ≠ pd_parent_index r.
Proof using Hok Hn.
  intros Hr Hres Hq Hadd Hpar. apply elem_of_bares in Hr as (k & r0 & Hin & ->).
  pose proof (ck_logs _ _ _ Hok) as P%(pair_ok_party _ q). rewrite bare_is_resolution in Hres.
  destruct (co_parent _ _ (po_cross _ _ P) _ _ Hin Hres) as (m & a0 & Ha0 & Hadd0 & Hi0 & _).
  pose proof (lo_htlc_bound _ (po_right _ _ P) _ _ Ha0 Hadd0) as Hbd.
  rewrite bare_parent in Hpar by done. rewrite Hn, <-Hq in Hpar by done. lia.
Qed.

Lemma kept_push : kept lc'.
Proof using All.
  pose proof (λ w, stored_chain lc lc' w Es) as Ech. pose proof Es as Es'. unfold stored in Es'.
  injection Es' as E1 E2 E3 E4 E5 E6 E7 E8 E9.
  assert (∀ w, height_on w b = 0) as Hb0.
  { intros w. unfold height_on, add_height, remove_height. destruct Hz as [-> ->]. by destruct (is_add b), w. }
  assert (∀ w, tail (chain_of lc w) ∈ chain_list (chain_of lc w)) as Htl by (intros; apply tail_elem).
  assert (∀ q, ul_htlc_counter (log_of lc q) ≤ ul_htlc_counter (log_of lc' q)) as Hcn.
  { intros q. destruct (party_cases p q) as [-> | ->]; [destruct (is_add b); lia|]. injection Ec as _ ->. done. }
  split; intros *; try setoid_rewrite Ech; rewrite ?E1, ?E2, ?E4, ?E5, ?E6, ?E7, ?E8, ?E9; try kept_field H.
  - intros Hc. destruct (kp_count _ H p0 c Hc) as [H1 H2]. specialize (Hcn p0). split; [lia|].
    intros x [Hx|[-> ->]]%push_bares; [by apply H2|]. intros _ Hlt. pose proof (push_above _ c p Hc). lia.
  - intros Hc. destruct (kp_above _ H c Hc) as [H1 H2]. pose proof (push_above _ c Local Hc) as Hle.
    destruct (kp_count _ H Local c Hc) as [Hcc _]. simpl in Hcc.
    destruct (party_cases p Local) as [Hp|Hp].
    + rewrite Hp in *. rewrite Ep, above_app, above_one, List.filter_app, !map_app, H1, H2, Ei, En by lia. simpl. split.
      * replace (ul_log_index _ + 1 - idx c p) with (ul_log_index (log_of lc p) - idx c p + 1) by lia.
        rewrite seqZ_snoc by lia. do 2 f_equal. lia.
      * destruct (is_add b) eqn:Eb; simpl; [|by rewrite Z.add_0_r, app_nil_r].
        replace (ul_htlc_counter _ + 1 - _) with (ul_htlc_counter (log_of lc p) - cm_our_htlc_index c + 1) by lia.
        rewrite seqZ_snoc by lia. do 2 f_equal. rewrite Hn by done. lia.
    + rewrite <-Hp in Eq, Ec. rewrite Eq. injection Ec as -> ->. done.
  - intros Hc Hpd [Hb|[-> ->]]%push_bares Ha He; [by eapply (kp_like _ H)|]. exfalso.
    pose proof (commit_htlc_bound t n lc w c p pd Hok Hc Hpd). rewrite He, Hn in * by done. lia.
  - intros Hc [Hr|[-> ->]]%push_bares Hres Hlt; [|pose proof (push_above _ c p Hc); lia].
    intros [Ha|[Hq ->]]%push_bares Hadd Hpar; [by eapply (kp_parent _ H)|]. by destruct (push_orphan p0 r Hr Hres).
  - intros [Hb|[-> ->]]%push_bares; [by apply (kp_heights _ H p0)|]. split.
    + destruct Hz as [Hz1 Hz2]. split; intros w _; unfold add_height, remove_height; rewrite ?Hz1, ?Hz2; by destruct w.
    + intros w. rewrite Hb0. pose proof (cn_range _ (ck_chain _ _ _ Hok w) _ (tip_elem _)). lia.
  - intros [Hb|[-> ->]]%push_bares Hc; [by apply (kp_height _ H w p0)|]. by rewrite Hb0.
  - intros Hd. rewrite push_between with (w := Remote) by apply tip_elem. by apply (kp_diff _ H).
  - intros Hc. assert (c ∈ chain_list (chain_of lc Remote)) as Hc' by by right.
    intros [Hr|[-> ->]]%push_bares Hres Hlt; [|pose proof (push_above _ c p Hc'); lia].
    intros [Ha|[Hq ->]]%push_bares Hadd Hpar; [by eapply (kp_before _ H)|]. by destruct (push_orphan p0 r Hr Hres).
  - destruct (party_cases p p0) as [-> | ->]; [|rewrite Eq; apply (kp_sorted _ H)].
    rewrite Ep, List.filter_app. simpl. destruct (is_add b) eqn:Eb; [|rewrite app_nil_r; apply (kp_sorted _ H)].
    apply sorted_snoc; [apply (kp_sorted _ H)|]. intros a [Hin _]%elem_of_bfilter. rewrite Hi.
    apply elem_of_bares in Hin as (k & pd & Hin & ->).
    by apply (lo_log_bound _ (pair_log_ok lc p (ck_logs _ _ _ Hok)) _ _ Hin).
  - rewrite push_between with (w := Local) by apply tail_elem. apply (kp_acked _ H).
  - rewrite push_between with (w := Remote) by apply tail_elem. apply (kp_unsigned _ H).
  - rewrite push_between with (w := Remote) by apply tail_elem. apply (kp_resolutions _ H).
Qed.
End Push.

(** *** A new commitment *)

Definition commit_entry (w : channel_party) (h i : Z) (b : payment_descriptor) : payment_descriptor :=
  if is_uncommitted w b && (pd_log_index b <? i) then set_commit_height w h b else b.

Lemma commit_entry_shape w h i b : shape (commit_entry w h i b) = shape b.
Proof. unfold commit_entry. case_match; [apply set_height_shape | done]. Qed.

Lemma between_map (f : payment_descriptor → payment_descriptor) i j l :
  (∀ b, pd_log_index (f b) = pd_log_index b) → between i j (map f l) = map f (between i j l).
Proof. intros Hf. unfold between. rewrite bfilter_map. f_equal. apply bfilter_ext. intros b _. by rewrite Hf. Qed.
Lemma above_map (f : payment_descriptor → payment_descriptor) i l :
  (∀ b, pd_log_index (f b) = pd_log_index b) → above i (map f l) = map f (above i l).
Proof. intros Hf. unfold above. rewrite bfilter_map. f_equal. apply bfilter_ext. intros b _. by rewrite Hf. Qed.

Section CommitEntries.
Context (f : payment_descriptor → payment_descriptor) (l : list payment_descriptor).
Hypothesis Hf : ∀ b, shape (f b) = shape b.

Lemma map_shapes : map shape (map f l) = map shape l.
Proof using Hf. rewrite map_map. by apply map_ext. Qed.
Lemma map_indexes : map pd_log_index (map f l) = map pd_log_index l.
Proof using Hf. rewrite map_map. apply map_ext. intros b. apply shape_log, Hf. Qed.
Lemma map_htlcs : map pd_htlc_index (List.filter is_add (map f l)) = map pd_htlc_index (List.filter is_add l).
Proof using Hf.
  rewrite bfilter_map, map_map. rewrite (bfilter_ext _ is_add); [|intros b _; apply shape_is_add, Hf].
  apply map_ext_in. intros b [_ Hb]%list_elem_of_In%elem_of_bfilter. by apply shape_htlc.
Qed.
Lemma map_sorted :
  StronglySorted (λ a b, pd_log_index a < pd_log_index b) (List.filter is_add l) →
  StronglySorted (λ a b, pd_log_index a < pd_log_index b) (List.filter is_add (map f l)).
Proof using Hf.
  intros Hs. rewrite bfilter_map, (bfilter_ext _ is_add); [|intros b _; apply shape_is_add, Hf].
  eapply sorted_map; [|exact Hs]. intros a b. by rewrite !(shape_log _ _ (Hf _)).
Qed.
Lemma map_not_adds : map shape (List.filter not_add (map f l)) = map shape (List.filter not_add l).
Proof using Hf.
  rewrite bfilter_map, map_map. rewrite (bfilter_ext _ not_add); [|intros b _; unfold not_add; by rewrite (shape_is_add _ _ (Hf b))].
  apply map_ext. apply Hf.
Qed.
End CommitEntries.

Section Commit.
Context (t n : Z) (lc lc' : channel) (w : channel_party) (c : commitment).
Hypothesis Hok : chan_ok t n lc.
Hypothesis H : kept lc.
Hypothesis Ew : chain_of lc' w = add_commitment c (chain_of lc w).
Hypothesis Eo : chain_of lc' (counter_party w) = chain_of lc (counter_party w).
Hypothesis Eb : ∀ p, bares lc' p = map (commit_entry w (cm_height c) (idx c p)) (bares lc p).
Hypothesis Ec : ∀ p, counters lc' p = counters lc p.
Hypothesis Hh : cm_height c = cm_height (tip (chain_of lc w)) + 1.
Hypothesis Hb : ∀ p, idx (tip (chain_of lc w)) p ≤ idx c p ≤ ul_log_index (log_of lc p).
Hypothesis Hd : cm_dust_limit c = cfg_dust_limit (cfg_for (lc_params lc) w).
Hypothesis Hcount : idx c (counter_party w) = ul_log_index (log_of lc (counter_party w)) ∧
  count_of c (counter_party w) = ul_htlc_counter (log_of lc (counter_party w)).
Hypothesis Hlike : ∀ p pd b, pd ∈ htlcs_of c p → b ∈ bares lc p → is_add b = true →
  pd_htlc_index pd = pd_htlc_index b → shape pd = shape b.
Hypothesis Hparent : ∀ p r a, r ∈ bares lc p → is_resolution r = true → pd_log_index r < idx c p →
  a ∈ bares lc (counter_party p) → is_add a = true → pd_htlc_index a = pd_parent_index r →
  pd_log_index a < idx c (counter_party p).
Hypothesis Hbefore : w = Remote → ∀ p r a, r ∈ bares lc p → is_resolution r = true → pd_log_index r < idx c p →
  a ∈ bares lc (counter_party p) → is_add a = true → pd_htlc_index a = pd_parent_index r →
  pd_log_index a < idx (tip (chain_of lc w)) (counter_party p).
Hypothesis Ep : lc_params lc' = lc_params lc.
Hypothesis Ehgt : lc_current_height lc' = lc_current_height lc.

Let f p := commit_entry w (cm_height c) (idx c p).

Lemma commit_elem p b' : b' ∈ bares lc' p → ∃ b, b ∈ bares lc p ∧ b' = f p b.
Proof using Eb. rewrite Eb. intros (b & -> & Hin)%list_elem_of_fmap. by exists b. Qed.
Lemma commit_shape p b : shape (f p b) = shape b.
Proof using. apply commit_entry_shape. Qed.

Lemma bare_bound p b : b ∈ bares lc p →
  0 ≤ pd_log_index b < ul_log_index (log_of lc p) ∧
  (is_add b = true → 0 ≤ pd_htlc_index b < ul_htlc_counter (log_of lc p)) ∧
  (∀ w, is_uncommitted w b = false ↔ pd_log_index b < idx (tip (chain_of lc w)) p).
Proof using Hok.
  intros (k & pd & Hin & ->)%elem_of_bares. pose proof (pair_log_ok lc p (ck_logs _ _ _ Hok)) as Hl. split; [|split].
  - apply (lo_log_bound _ Hl _ _ Hin).
  - intros Ha. rewrite bare_is_add in Ha. rewrite bare_htlc by done. by apply (lo_htlc_bound _ Hl _ _ Hin).
  - intros w'. exact (ck_commit _ _ _ Hok w' p k pd Hin).
Qed.

Lemma commit_chains w' c' : c' ∈ chain_list (chain_of lc' w') → c' ∈ chain_list (chain_of lc w') ∨ w' = w ∧ c' = c.
Proof using Ew Eo.
  destruct (party_cases w w') as [-> | ->]; rewrite ?Ew, ?Eo; [|by left].
  rewrite chain_list_add. intros [Hin|Hin%list_elem_of_singleton]%elem_of_app; [by left | by right].
Qed.

Lemma commit_tails w' : tail (chain_of lc' w') = tail (chain_of lc w').
Proof using Ew Eo. destruct (party_cases w w') as [-> | ->]; by rewrite ?Ew, ?Eo. Qed.

Lemma commit_tips w' : cm_height (tip (chain_of lc w')) ≤ cm_height (tip (chain_of lc' w')).
Proof using Ew Eo Hh. destruct (party_cases w w') as [-> | ->]; rewrite ?Ew, ?Eo; [rewrite tip_add; lia | done]. Qed.

Lemma commit_between i j p : map shape (between i j (bares lc' p)) = map shape (between i j (bares lc p)).
Proof using Eb.
  rewrite Eb, between_map by (intros b; apply shape_log, commit_shape). apply map_shapes, commit_shape.
Qed.
Lemma commit_not_adds i j p :
  map shape (List.filter not_add (between i j (bares lc' p))) = map shape (List.filter not_add (between i j (bares lc p))).
Proof using Eb.
  rewrite Eb, between_map by (intros b; apply shape_log, commit_shape). apply map_not_adds, commit_shape.
Qed.

Lemma commit_above w' c' :
  c' ∈ chain_list (chain_of lc' w') → w' = Remote →
  map pd_log_index (above (idx c' Local) (bares lc' Local)) =
    seqZ (idx c' Local) (ul_log_index (log_of lc' Local) - idx c' Local) ∧
  map pd_htlc_index (List.filter is_add (above (idx c' Local) (bares lc' Local))) =
    seqZ (cm_our_htlc_index c') (ul_htlc_counter (log_of lc' Local) - cm_our_htlc_index c').
Proof using Hok H Ew Eo Eb Ec Hcount.
  intros Hc Ew'. pose proof (Ec Local) as [= -> ->]. rewrite Eb, above_map by (intros b; apply shape_log, commit_shape).
  rewrite map_indexes, map_htlcs by apply commit_shape.
  apply commit_chains in Hc as [Hc|[E ->]]; [subst; by apply (kp_above _ H)|]. rewrite Ew' in E.
  pose proof Hcount as [H1 H2]. rewrite <-E in H1, H2. cbn [counter_party count_of] in H1, H2. rewrite H1, H2, !Z.sub_diag.
  assert (above (ul_log_index (log_of lc Local)) (bares lc Local) = []) as ->; [|done].
  apply bfilter_none. intros b Hin. apply Z.leb_gt. by apply (bare_bound Local).
Qed.

Lemma commit_height p b' : b' ∈ bares lc' p →
  heights_ok b' ∧ (∀ w', 0 ≤ height_on w' b' ≤ cm_height (tip (chain_of lc' w'))) ∧
  ∀ w' c', c' ∈ chain_list (chain_of lc' w') → height_on w' b' ≠ 0 → height_on w' b' ≤ cm_height c' →
    pd_log_index b' < idx c' p.
Proof using Hok H Ew Eo Eb Hh Hb.
  intros (b & Hin & ->)%commit_elem. destruct (kp_heights _ H p b Hin) as [Hho Hr].
  assert (∀ w', height_on w' b ≠ 0 → pd_log_index b < idx (tip (chain_of lc w')) p) as Htip.
  { intros w' Hne. apply (kp_height _ H w' p b); [done | apply tip_elem | done | apply Hr]. }
  rewrite (shape_log _ _ (commit_shape p b)). unfold f, commit_entry.
  destruct (is_uncommitted w b && (pd_log_index b <? idx c p)) eqn:E.
  - apply andb_true_iff in E as [Eu El%Z.ltb_lt]. pose proof (cn_range _ (ck_chain _ _ _ Hok w) _ (tip_elem _)) as Hrg.
    split_and!.
    + by apply set_height_ok.
    + intros w'. destruct (decide (w = w')) as [<-|Hne].
      * rewrite set_height_on, Ew, tip_add. lia.
      * rewrite set_height_other by done. specialize (Hr w'). pose proof (commit_tips w'). lia.
    + intros w' c' Hc'. destruct (decide (w = w')) as [<-|Hne].
      * rewrite set_height_on. intros _ Hle. apply commit_chains in Hc' as [Hc'|[_ ->]]; [|done].
        pose proof (chain_height_tip _ c' (ck_chain _ _ _ Hok w) Hc'). lia.
      * rewrite set_height_other by done. apply commit_chains in Hc' as [Hc'|[-> _]]; [|done]. by apply (kp_height _ H w').
  - split_and!; [done| |].
    + intros w'. specialize (Hr w'). pose proof (commit_tips w'). lia.
    + intros w' c' [Hc'|[-> ->]]%commit_chains; [by apply (kp_height _ H w')|]. intros Hne _.
      specialize (Htip w Hne). specialize (Hb p). lia.
Qed.

(** The updates that a new commitment of the peer has first. *)
Lemma commit_window :
  w = Remote → rest (chain_of lc Remote) = [] →
  List.filter (λ b, (add_height Remote b =? cm_height c) || (remove_height Remote b =? cm_height c)) (bares lc' Local) =
  between (idx (tail (chain_of lc Remote)) Local) (idx c Local) (bares lc' Local).
Proof using Hok H Ew Eo Eb Hh Hb.
  intros Ew' Hrest. apply bfilter_ext. intros b' Hb'. destruct (commit_height Local b' Hb') as (Hho & _ & _).
  apply commit_elem in Hb' as (b & Hin & ->). rewrite (shape_log _ _ (commit_shape Local b)).
  destruct (bare_bound Local b Hin) as (_ & _ & Hu). specialize (Hu w).
  assert (tail (chain_of lc Remote) = tip (chain_of lc w)) as Et.
  { rewrite Ew'. unfold tip. by rewrite Hrest. }
  pose proof (cn_range _ (ck_chain _ _ _ Hok w) _ (tip_elem _)) as Hrg.
  assert ((add_height Remote (f Local b) =? cm_height c) || (remove_height Remote (f Local b) =? cm_height c) =
    (height_on w (f Local b) =? cm_height c)) as ->.
  { rewrite Ew'. unfold height_on. destruct (is_add (f Local b)) eqn:Ea.
    - rewrite (ho_add _ Hho) by done. rewrite (proj2 (Z.eqb_neq 0 _)) by lia. apply orb_false_r.
    - destruct (is_resolution (f Local b)) eqn:Er.
      + rewrite (ho_resolution _ Hho) by done. by rewrite (proj2 (Z.eqb_neq 0 _)) by lia.
      + rewrite (ho_fee _ Hho); [apply orb_diag|]. unfold is_add, is_resolution in *. by destruct (pd_entry_type _). }
  rewrite Et. unfold f, commit_entry. destruct (is_uncommitted w b) eqn:Eu; cbn [andb].
  - assert (¬ pd_log_index b < idx (tip (chain_of lc w)) Local) as Hge by (by rewrite <-Hu).
    destruct (pd_log_index b <? idx c Local) eqn:El; rewrite (proj2 (Z.leb_le _ _)) by lia; cbn [andb].
    + rewrite set_height_on. apply Z.eqb_refl.
    + apply Z.eqb_neq. destruct (kp_heights _ H Local b Hin) as [_ Hr]. specialize (Hr w). lia.
  - assert (pd_log_index b < idx (tip (chain_of lc w)) Local) as Hlt by (by rewrite <-Hu).
    rewrite (proj2 (Z.leb_gt _ _)) by lia. apply Z.eqb_neq.
    destruct (kp_heights _ H Local b Hin) as [_ Hr]. specialize (Hr w). lia.
Qed.

Definition record_rest (lc : channel) :=
  let s := lc_channel_state lc in
  (oc_local_commitment s, oc_remote_commitment s, oc_remote_next_revocation s, oc_unsigned_acked_updates s,
   oc_remote_unsigned_local_updates s).

Hypothesis Er : record_rest lc' = record_rest lc.
Hypothesis Ediff : oc_commit_diff (lc_channel_state lc') =
  match w with
  | Local => oc_commit_diff (lc_channel_state lc)
  | Remote => oc_commit_diff (lc_channel_state lc')
  end.
Hypothesis Hdiff : w = Remote → rest (chain_of lc Remote) = [] ∧
  oc_remote_next_revocation (lc_channel_state lc) ≠ None ∧
  ∃ d, oc_commit_diff (lc_channel_state lc') = Some d ∧ cd_commitment d = c ∧
    map bare (cd_log_updates d) =
    List.filter (λ b, (add_height Remote b =? cm_height c) || (remove_height Remote b =? cm_height c)) (bares lc' Local).

Lemma map_bare_shape l : map shape (map bare l) = map shape l.
Proof using. rewrite map_map. apply map_ext. apply shape_bare. Qed.

Lemma kept_commit : kept lc'.
Proof using All.
  unfold record_rest in Er. injection Er as E1 E2 E3 E4 E5. pose proof (cn_range _ (ck_chain _ _ _ Hok w) _ (tip_elem _)) as Hrg.
  assert (w = Remote ∨ w = Local ∧ chain_of lc' Remote = chain_of lc Remote ∧
    oc_commit_diff (lc_channel_state lc') = oc_commit_diff (lc_channel_state lc)) as Hw.
  { clear -Eo Ediff. destruct w; [right | left]; done. }
  split; intros *; rewrite ?commit_tails, ?commit_between, ?commit_not_adds, ?E1, ?E2, ?E3, ?E4, ?E5, ?Ep, ?Ehgt; try kept_field H.
  - intros Hne. destruct Hw as [Ew'|(_ & _ & Ed)]; [by apply Hdiff|]. rewrite Ed in Hne. by apply (kp_next _ H).
  - destruct Hw as [Ew'|(_ & -> & ->)]; [|apply (kp_pending _ H)].
    destruct Hdiff as (Hrest & _ & d & -> & -> & _); [done|]. rewrite <-Ew', Ew. simpl. by rewrite Ew', Hrest.
  - intros [Hc|[-> ->]]%commit_chains; [by apply (kp_meta _ H) | done].
  - intros [Hc|[-> ->]]%commit_chains; [by apply (kp_zero _ H w0)|].
    destruct (kp_zero _ H w _ p (tip_elem (chain_of lc w))). specialize (Hb p). lia.
  - pose proof (Ec p) as [= _ ->]. intros [Hc|[Ew' ->]]%commit_chains.
    + destruct (kp_count _ H p c0 Hc) as [Hc1 Hc2]. split; [done|]. intros b' (b & Hin & ->)%commit_elem Ha.
      rewrite (shape_is_add _ _ (commit_shape p b)) in Ha. rewrite (shape_log _ _ (commit_shape p b)).
      rewrite (shape_htlc _ _ (commit_shape p b)) by done. by apply Hc2.
    + assert (p = counter_party w) as -> by (rewrite <-Ew'; symmetry; apply counter_party_involutive).
      destruct Hcount as [Hc1 ->]. split.
      * pose proof (lo_counters _ (pair_log_ok lc (counter_party w) (ck_logs _ _ _ Hok))). lia.
      * intros b' (b & Hin & ->)%commit_elem Ha _. rewrite (shape_is_add _ _ (commit_shape _ b)) in Ha.
        rewrite (shape_htlc _ _ (commit_shape _ b)) by done. by apply bare_bound.
  - intros Hc. by apply (commit_above Remote).
  - intros Hc Hpd (b0 & Hin & ->)%commit_elem Ha He. rewrite (shape_is_add _ _ (commit_shape p b0)) in Ha.
    rewrite (shape_htlc _ _ (commit_shape p b0)) in He by done. rewrite commit_shape.
    apply commit_chains in Hc as [Hc|[-> ->]]; [by apply (kp_like _ H w0 c0 p) | by apply (Hlike p)].
  - intros Hc (r0 & Hr & ->)%commit_elem Hres Hlt (a0 & Ha & ->)%commit_elem Hadd Hpar.
    rewrite (shape_is_resolution _ _ (commit_shape _ r0)) in Hres. rewrite (shape_is_add _ _ (commit_shape _ a0)) in Hadd.
    rewrite (shape_htlc _ _ (commit_shape _ a0)), (shape_parent _ _ (commit_shape _ r0)) in Hpar by done.
    rewrite (shape_log _ _ (commit_shape _ r0)) in Hlt. rewrite (shape_log _ _ (commit_shape _ a0)).
    apply commit_chains in Hc as [Hc|[-> ->]]; [by apply (kp_parent _ H w0 c0 p r0) | by apply (Hparent p r0)].
  - intros Hin. by destruct (commit_height p b Hin) as (? & ? & _).
  - intros Hin. destruct (commit_height p b Hin) as (_ & _ & Hx). apply Hx.
  - intros Hd'. destruct Hw as [Ew'|(_ & -> & Ed)]; [|rewrite Ed in Hd'; by apply (kp_diff _ H)].
    destruct Hdiff as (Hrest & _ & d' & Ed & Edc & Ewin); [done|]. rewrite Ed in Hd'. injection Hd' as ->.
    rewrite <-commit_between. replace (tip (chain_of lc' Remote)) with c by (rewrite <-Ew', Ew; by rewrite tip_add).
    rewrite <-commit_window by done. by rewrite <-Ewin, map_bare_shape.
  - intros Hc (r0 & Hr & ->)%commit_elem Hres Hlt (a0 & Ha & ->)%commit_elem Hadd Hpar.
    rewrite (shape_is_resolution _ _ (commit_shape _ r0)) in Hres. rewrite (shape_is_add _ _ (commit_shape _ a0)) in Hadd.
    rewrite (shape_htlc _ _ (commit_shape _ a0)), (shape_parent _ _ (commit_shape _ r0)) in Hpar by done.
    rewrite (shape_log _ _ (commit_shape _ r0)) in Hlt. rewrite (shape_log _ _ (commit_shape _ a0)).
    destruct Hw as [Ew'|(_ & E & _)]; [|rewrite E in Hc; by apply (kp_before _ H c0 p r0)].
    destruct Hdiff as (Hrest & _); [done|].
    assert (chain_of lc' Remote = add_commitment c (chain_of lc Remote)) as E by (rewrite <-Ew'; exact Ew).
    rewrite E in Hc. simpl in Hc. rewrite Hrest in Hc. simpl in Hc. apply list_elem_of_singleton in Hc as ->.
    assert (tail (chain_of lc Remote) = tip (chain_of lc w)) as -> by (rewrite Ew'; unfold tip; by rewrite Hrest).
    by apply (Hbefore Ew' p r0).
  - rewrite Eb. apply map_sorted; [apply commit_shape | apply (kp_sorted _ H)].
Qed.
End Commit.

(** *** Tails that move on *)

Lemma bfilter_sublist {A} (q : A → bool) (l : list A) : List.filter q l `sublist_of` l.
Proof. induction l as [|x l IH]; simpl; [done|]. destruct (q x); [by apply sublist_skip | by apply sublist_cons]. Qed.

Lemma bfilter_sublist_mono {A} (q : A → bool) (l k : list A) :
  l `sublist_of` k → List.filter q l `sublist_of` List.filter q k.
Proof.
  induction 1 as [|x l k _ IH|x l k _ IH]; simpl; [done|..]; destruct (q x); try done.
  - by apply sublist_skip.
  - by apply sublist_cons.
Qed.

Lemma between_between_l i i' j l : i ≤ i' → List.filter (λ b, i' <=? pd_log_index b) (between i j l) = between i' j l.
Proof.
  intros Hi. unfold between. rewrite bfilter_bfilter. apply bfilter_ext. intros b _.
  destruct (Z.leb_spec i (pd_log_index b)), (Z.leb_spec i' (pd_log_index b)), (pd_log_index b <? j); try done; lia.
Qed.
Lemma between_between_r i j j' l : j ≤ j' → List.filter (λ b, pd_log_index b <? j) (between i j' l) = between i j l.
Proof.
  intros Hj. unfold between. rewrite bfilter_bfilter. apply bfilter_ext. intros b _.
  destruct (Z.ltb_spec (pd_log_index b) j), (Z.ltb_spec (pd_log_index b) j'), (i <=? pd_log_index b); try done; lia.
Qed.

Lemma bfilter_comm {A} (p q : A → bool) (l : list A) : List.filter p (List.filter q l) = List.filter q (List.filter p l).
Proof. rewrite !bfilter_bfilter. apply bfilter_ext. intros x _. apply andb_comm. Qed.

(** A filter that looks at the shape only. *)
Lemma bfilter_shape (q : payment_descriptor → bool) l :
  (∀ b, q (shape b) = q b) → List.filter q (map shape l) = map shape (List.filter q l).
Proof. intros Hq. rewrite bfilter_map. f_equal. apply bfilter_ext. intros b _. apply Hq. Qed.

Section Revoke.
Context (t n : Z) (lc lc' : channel) (s : commitment_chain).
Hypothesis Hok : chan_ok t n lc.
Hypothesis H : kept lc.
Hypothesis Ha : advance_tail (chain_of lc Local) = Some s.
Hypothesis El : chain_of lc' Local = s.
Hypothesis Er : chain_of lc' Remote = chain_of lc Remote.
Hypothesis Eb : ∀ p, bares lc' p = bares lc p.
Hypothesis Ec : ∀ p, counters lc' p = counters lc p.
Hypothesis Ep : lc_params lc' = lc_params lc.
Hypothesis Ehgt : lc_current_height lc' = cm_height (tail s).
Hypothesis Elocal : oc_local_commitment (lc_channel_state lc') = tail s.
Hypothesis Eremote : oc_remote_commitment (lc_channel_state lc') = oc_remote_commitment (lc_channel_state lc).
Hypothesis Ediff : oc_commit_diff (lc_channel_state lc') = oc_commit_diff (lc_channel_state lc).
Hypothesis Enext : oc_remote_next_revocation (lc_channel_state lc') = oc_remote_next_revocation (lc_channel_state lc).
Hypothesis Eacked : ∃ l, oc_unsigned_acked_updates (lc_channel_state lc') = Some l ∧
  map bare l = between (idx (tail (chain_of lc Remote)) Remote) (idx (tail s) Remote) (bares lc Remote).
Hypothesis Eunsigned : oc_remote_unsigned_local_updates (lc_channel_state lc') =
  option_map (List.filter (λ pd, pd_log_index pd >=? idx (tail s) Local))
    (oc_remote_unsigned_local_updates (lc_channel_state lc)).

Lemma unsigned_filtered :
  map shape (default [] (oc_remote_unsigned_local_updates (lc_channel_state lc'))) =
  List.filter (λ b, idx (tail s) Local <=? pd_log_index b)
    (map shape (default [] (oc_remote_unsigned_local_updates (lc_channel_state lc)))).
Proof using Eunsigned.
  rewrite Eunsigned, bfilter_shape by done. destruct (oc_remote_unsigned_local_updates (lc_channel_state lc)); [|done].
  simpl. f_equal. apply bfilter_ext. intros b _. apply Z.geb_leb.
Qed.

Lemma not_adds_advance (i i' j : Z) l :
  i ≤ i' → map shape (List.filter not_add (between i' j l)) =
  List.filter (λ b, i' <=? pd_log_index b) (map shape (List.filter not_add (between i j l))).
Proof using.
  intros Hi. rewrite bfilter_shape by done. f_equal. rewrite bfilter_comm, between_between_l by done. done.
Qed.

Lemma kept_revoke : kept lc'.
Proof using All.
  destruct (chain_ok_advance _ _ (ck_chain _ _ _ Hok Local) Ha) as (Hs & Htip & Hsub & Hh & Hi).
  assert (∀ w c, c ∈ chain_list (chain_of lc' w) → c ∈ chain_list (chain_of lc w)) as Hc.
  { intros [] c; rewrite ?El, ?Er; [apply Hsub | done]. }
  assert (∀ w, tip (chain_of lc' w) = tip (chain_of lc w)) as Ht by (intros []; by rewrite ?El, ?Er).
  assert (∀ p, ul_log_index (log_of lc' p) = ul_log_index (log_of lc p)) as Ei by (intros p; pose proof (Ec p) as E; by injection E).
  assert (∀ p, ul_htlc_counter (log_of lc' p) = ul_htlc_counter (log_of lc p)) as En by (intros p; pose proof (Ec p) as E; by injection E).
  split; intros *; rewrite ?Eb, ?Ei, ?En, ?Ep, ?Ehgt, ?Elocal, ?Eremote, ?Ediff, ?Enext, ?El;
    try setoid_rewrite Ht; rewrite ?Er; try kept_field H; try done.
  - intros Hin%Hc. by apply (kp_meta _ H).
  - intros Hin%Hc. by apply (kp_zero _ H w).
  - intros Hin%Hc. by apply (kp_count _ H).
  - intros Hin%Hc. by apply (kp_like _ H w c).
  - intros Hin%Hc. by apply (kp_parent _ H w c).
  - intros Hin Hin'%Hc. by apply (kp_height _ H w).
  - destruct Eacked as (l & -> & <-). cbn [default from_option id]. rewrite <-!bfilter_shape by done.
    by rewrite map_bare_shape.
  - destruct Eacked as (l & -> & El'). cbn [default from_option id]. intros Hu.
    assert (bare u ∈ map bare l) as Hb by (apply list_elem_of_fmap; by exists u). rewrite El' in Hb.
    by apply elem_of_bfilter in Hb as [_ [_ Hlt%Z.ltb_lt]%andb_true_iff].
  - destruct Eacked as (l & -> & _). done.
  - rewrite unsigned_filtered, (not_adds_advance (idx (tail (chain_of lc Local)) Local)) by done.
    apply bfilter_sublist_mono, (kp_unsigned _ H).
  - rewrite unsigned_filtered, (not_adds_advance (idx (tail (chain_of lc Local)) Local)) by done.
    rewrite !(bfilter_comm is_resolution). f_equal. apply (kp_resolutions _ H).
Qed.
End Revoke.

Section Advance.
Context (t n : Z) (lc lc' : channel) (s : commitment_chain) (d : commit_diff).
Hypothesis Hok : chan_ok t n lc.
Hypothesis H : kept lc.
Hypothesis Ha : advance_tail (chain_of lc Remote) = Some s.
Hypothesis El : chain_of lc' Local = chain_of lc Local.
Hypothesis Er : chain_of lc' Remote = s.
Hypothesis Hlist : ∀ p, bares lc' p `sublist_of` bares lc p.
Hypothesis Hfilter : ∀ p (P : payment_descriptor → bool),
  (∀ b, b ∈ bares lc p → P b = true → ∃ w, idx (tail (chain_of lc' w)) p ≤ pd_log_index b) →
  List.filter P (bares lc' p) = List.filter P (bares lc p).
Hypothesis Ec : ∀ p, counters lc' p = counters lc p.
Hypothesis Ep : lc_params lc' = lc_params lc.
Hypothesis Ehgt : lc_current_height lc' = lc_current_height lc.
Hypothesis Elocal : oc_local_commitment (lc_channel_state lc') = oc_local_commitment (lc_channel_state lc).
Hypothesis Edold : oc_commit_diff (lc_channel_state lc) = Some d.
Hypothesis Eremote : oc_remote_commitment (lc_channel_state lc') = cd_commitment d.
Hypothesis Ediff : oc_commit_diff (lc_channel_state lc') = None.
Hypothesis Eacked : oc_unsigned_acked_updates (lc_channel_state lc') =
  option_map (List.filter (λ pd, pd_log_index pd >=? idx (cd_commitment d) Remote))
    (oc_unsigned_acked_updates (lc_channel_state lc)).
Hypothesis Eunsigned :
  match oc_unsigned_acked_updates (lc_channel_state lc) with
  | None => oc_remote_unsigned_local_updates (lc_channel_state lc') = oc_remote_unsigned_local_updates (lc_channel_state lc)
  | Some _ => ∃ l, oc_remote_unsigned_local_updates (lc_channel_state lc') = Some l ∧
      map bare l = List.filter not_add (between (idx (tail (chain_of lc Local)) Local) (idx (tail s) Local) (bares lc Local))
  end.

Lemma advance_sub p b : b ∈ bares lc' p → b ∈ bares lc p.
Proof using Hlist. intros Hb. by eapply elem_of_sublist. Qed.

Lemma mem_idx p w c c' q : disk_commit_to_mem_commit p w c = disk_commit_to_mem_commit p w c' → idx c q = idx c' q.
Proof using. intros [=]. unfold idx. congruence. Qed.

Lemma advance_pending : disk_commit_to_mem_commit (lc_params lc) Remote (tail s) =
  disk_commit_to_mem_commit (lc_params lc) Remote (cd_commitment d) ∧ rest s = [].
Proof using All.
  pose proof (kp_pending _ H) as E. rewrite Edold in E. unfold advance_tail in Ha.
  destruct (rest (chain_of lc Remote)) as [|c l]; [done|]. injection Ha as <-. simpl in E |- *.
  destruct l; [|done]. split; [|done]. exact (f_equal (List.hd (cd_commitment d)) E).
Qed.

(** Before its first revocation a node has signed for no resolution. *)
Lemma no_resolutions j :
  oc_unsigned_acked_updates (lc_channel_state lc) = None →
  (∃ c, c ∈ chain_list (chain_of lc Remote) ∧ j = idx c Local) →
  List.filter is_resolution (map shape (List.filter not_add (between (idx (tail (chain_of lc Local)) Local) j (bares lc Local)))) = [].
Proof using Hok H.
  intros En (c & Hc & ->). rewrite bfilter_shape by done.
  rewrite bfilter_none; [done|]. intros b [[Hin Hbt]%elem_of_bfilter _]%elem_of_bfilter.
  destruct (is_resolution b) eqn:Hres; [|done]. exfalso. apply andb_true_iff in Hbt as [_ Hlt%Z.ltb_lt].
  pose proof Hin as (k & r & Hr & ->)%elem_of_bares.
  destruct (co_parent _ _ (po_cross _ _ (ck_logs _ _ _ Hok)) _ _ Hr Hres) as (m & a & Hina & Hadd & Hi & _).
  pose proof (kp_parent _ H Remote c Local (bare r) (bare a) Hc Hin Hres Hlt (bares_intro lc Remote m a Hina) Hadd) as Hp.
  rewrite bare_htlc, bare_parent in Hp by done. specialize (Hp Hi). simpl in Hp.
  pose proof (lo_log_bound _ (po_right _ _ (ck_logs _ _ _ Hok)) _ _ Hina) as Hb.
  pose proof (chain_idx _ c Remote (ck_chain _ _ _ Hok Remote) Hc) as Hx.
  pose proof (proj2 (ck_order _ _ _ Hok)) as Ho. pose proof (kp_never _ H En) as Hz. rewrite Hz in Ho.
  unfold idx in *. simpl in *. lia.
Qed.

Lemma kept_advance : kept lc'.
Proof using All.
  destruct (chain_ok_advance _ _ (ck_chain _ _ _ Hok Remote) Ha) as (Hs & Htip & Hsubc & Hh & Hi).
  destruct advance_pending as [Hmem Hrest]. pose proof advance_sub as Hsub.
  assert (∀ w c, c ∈ chain_list (chain_of lc' w) → c ∈ chain_list (chain_of lc w)) as Hc.
  { intros [] c; rewrite ?El, ?Er; [done | apply Hsubc]. }
  assert (∀ w, tip (chain_of lc' w) = tip (chain_of lc w)) as Ht by (intros []; by rewrite ?El, ?Er).
  assert (∀ p, ul_log_index (log_of lc' p) = ul_log_index (log_of lc p)) as Ei by (intros p; pose proof (Ec p) as E; by injection E).
  assert (∀ p, ul_htlc_counter (log_of lc' p) = ul_htlc_counter (log_of lc p)) as En by (intros p; pose proof (Ec p) as E; by injection E).
  assert (∀ c, c ∈ chain_list s → c = tail s) as Hone.
  { intros c. unfold chain_list. rewrite Hrest. apply list_elem_of_singleton. }
  assert (tail s ∈ chain_list (chain_of lc Remote)) as Hts by apply Hsubc, tail_elem.
  assert (∀ i j p, idx (tail s) p ≤ i ∨ idx (tail (chain_of lc Local)) p ≤ i →
    between i j (bares lc' p) = between i j (bares lc p)) as Hbt.
  { intros i j p Hij. apply Hfilter. intros b _ [Hle%Z.leb_le _]%andb_true_iff.
    destruct Hij; [exists Remote; rewrite Er | exists Local; rewrite El]; lia. }
  split; intros *; rewrite ?Ei, ?En, ?Ep, ?Ehgt, ?Elocal, ?Eremote, ?Ediff, ?El, ?Er;
    try setoid_rewrite Ht; try kept_field H; try done.
  - by rewrite Hrest.
  - intros Hin%Hc. by apply (kp_meta _ H).
  - intros Hin%Hc. by apply (kp_zero _ H w).
  - intros Hin%Hc. destruct (kp_count _ H p c Hin) as [Hc1 Hc2]. split; [done|]. intros b Hb%Hsub. by apply Hc2.
  - intros ->%Hone. unfold above. rewrite Hfilter; [by apply (kp_above _ H)|].
    intros b _ Hle%Z.leb_le. exists Remote. by rewrite Er.
  - intros Hin%Hc Hpd Hb%Hsub. by apply (kp_like _ H w c p).
  - intros Hin%Hc Hr%Hsub Hres Hlt Hadd%Hsub. by apply (kp_parent _ H w c p r a).
  - intros Hb%Hsub. exact (kp_heights _ H p b Hb).
  - intros Hb%Hsub Hin%Hc. by apply (kp_height _ H w p b).
  - rewrite Hrest. by intros ?%elem_of_nil.
  - eapply sorted_sublist; [|apply (kp_sorted _ H)]. apply bfilter_sublist_mono, Hlist.
  - rewrite Hbt by (by left). rewrite (not_adds_advance (idx (tail (chain_of lc Remote)) Remote)) by done.
    rewrite <-(kp_acked _ H), Eacked, bfilter_shape by done. rewrite (mem_idx _ _ _ _ Remote Hmem).
    destruct (oc_unsigned_acked_updates (lc_channel_state lc)); [|done].
    cbn [option_map default from_option id]. rewrite bfilter_comm. f_equal. apply bfilter_ext.
    intros b _. apply Z.geb_leb.
  - rewrite Eacked. intros Hu. apply (kp_bound _ H).
    destruct (oc_unsigned_acked_updates (lc_channel_state lc)); [|done]. by apply elem_of_bfilter in Hu as [Hu _].
  - rewrite Eacked. intros Hnone. apply (kp_never _ H). by destruct (oc_unsigned_acked_updates (lc_channel_state lc)).
  - rewrite Hbt by (by right). destruct (oc_unsigned_acked_updates (lc_channel_state lc)) eqn:Eu.
    + destruct Eunsigned as (l' & -> & <-). simpl. by rewrite map_bare_shape.
    + rewrite Eunsigned. etrans; [apply (kp_unsigned _ H)|].
      rewrite <-(between_between_r _ _ (idx (tail s) Local)) by apply Hi.
      apply fmap_sublist, bfilter_sublist_mono, bfilter_sublist.
  - rewrite Hbt by (by right). destruct (oc_unsigned_acked_updates (lc_channel_state lc)) eqn:Eu.
    + destruct Eunsigned as (l' & -> & <-). simpl. by rewrite map_bare_shape.
    + rewrite Eunsigned, (kp_resolutions _ H). rewrite !no_resolutions; [done | done | | done |].
      * by exists (tail s).
      * exists (tail (chain_of lc Remote)). split; [apply tail_elem | done].
Qed.
End Advance.
End Kept.
