(* ===== verification/ChannelKeptSteps.v ===== *)
(** * The methods keep what the record is good for

    Every method of the channel respects the invariant of [ChannelKept]. *)

From S2P Require Import Prelude Chainfee Shachain UpdateLog Channel ChannelLog ChannelView ChannelInv ChannelCommit.
From S2P Require Import ChannelAfter ChannelSteps ChannelRun ChannelDb ChannelHist ChannelCompact ChannelPastSteps.
From S2P Require Import ChannelRestore ChannelKept.

Section Methods.
Context {HP : HashPrims} {CP : ChannelPrims}.

(** ** Flags *)

Lemma bare_core pd : bare (core pd) = bare pd.
Proof. done. Qed.

Lemma core_bares u u' : core_log u' = core_log u → map bare (ul_values u') = map bare (ul_values u).
Proof.
  intros E. pose proof (f_equal ul_list E) as El. simpl in El. unfold ul_values.
  assert (∀ l : list entry, map bare l.*2 = map bare (map core_entry l).*2) as Hm.
  { intros l. induction l as [|x l IH]; [done|]. exact (f_equal (cons (bare x.2)) IH). }
  etrans; [exact (Hm (ul_list u'))|]. symmetry. etrans; [exact (Hm (ul_list u))|]. by rewrite El.
Qed.

Lemma core_stored lc lc' : same_core lc' lc → stored lc' = stored lc.
Proof. intros E. exact (f_equal stored E). Qed.

Lemma kept_core lc lc' : same_core lc' lc → kept lc → kept lc'.
Proof.
  intros E. apply kept_same; [by apply core_stored | intros p; by apply core_bares, same_core_log|].
  intros p. destruct (same_core_index lc' lc p E) as [E1 E2]. unfold counters. congruence.
Qed.

Lemma kept_state lc s :
  stored (set_channel_state s lc) = stored lc → kept lc → kept (set_channel_state s lc).
Proof. intros E. by apply kept_same. Qed.

(** ** Methods that append *)

Definition keeps_record {A} (lc0 : channel) (m : M A) : Prop :=
  ∀ t n lc lc' r, same_core lc lc0 → chan_ok t n lc → n + 1 < 2 ^ 64 → kept lc → m lc = (lc', r) → kept lc'.

Lemma record_looks {A} lc0 (m : M A) : only_looks m → keeps_record lc0 m.
Proof.
  intros Hm t n lc lc' r _ _ _ H E. destruct (looks_keeps m t n lc lc' r Hm E) as [Hs _]. by apply kept_core with lc.
Qed.

Lemma record_bind {A B} lc0 (m : M A) (k : A → M B) :
  only_looks m → (∀ a, keeps_record lc0 (k a)) → keeps_record lc0 (m ≫= k).
Proof.
  intros Hm Hk t n lc lc' r Hs Hok Hn H. unfold mbind, M_bind. destruct (m lc) as [lc1 r1] eqn:E.
  destruct (looks_keeps m t n lc lc1 r1 Hm E) as [Hs1 Hk1]. assert (kept lc1) as H1 by by apply kept_core with lc.
  destruct r1 as [a|e]; [|by intros [= <- <-]].
  apply (Hk a t n lc1 lc' r); [by etrans | by apply Hk1 | done | done].
Qed.

Lemma record_get {B} lc0 (k : channel → M B) :
  (∀ lc, same_core lc lc0 → keeps_record lc (k lc)) → keeps_record lc0 (get ≫= k).
Proof. intros Hk t n lc lc' r Hs Hok Hn H E. by apply (Hk lc Hs t n lc lc' r). Qed.

Lemma record_modify lc0 (f : channel → channel) :
  (∀ t n lc, same_core lc lc0 → chan_ok t n lc → n + 1 < 2 ^ 64 → kept lc → kept (f lc)) →
  keeps_record lc0 (modify f).
Proof. intros Hf t n lc lc' r Hs Hok Hn H [= <- _]. by apply (Hf t n). Qed.

Lemma record_modify_ret {A} lc0 (f : channel → channel) (a : A) :
  keeps_record lc0 (modify f) → keeps_record lc0 (_ ← modify f; mret a).
Proof. intros Hf t n lc lc' r Hs Hok Hn H [= <- _]. by apply (Hf t n lc _ (Ok ())). Qed.

Lemma set_log_stored p u lc : stored (set_log p u lc) = stored lc.
Proof. done. Qed.
Lemma set_log_bares_other p u lc : bares (set_log p u lc) (counter_party p) = bares lc (counter_party p).
Proof. unfold bares. by rewrite log_of_set_other. Qed.
Lemma set_log_counters_other p u lc : counters (set_log p u lc) (counter_party p) = counters lc (counter_party p).
Proof. unfold counters. by rewrite log_of_set_other. Qed.

(** An entry at the end of a log, and a change of the other log that its
    entries do not show. *)
Lemma kept_append t n lc lc' p u pd :
  chan_ok t n lc → n + 1 < 2 ^ 64 → kept lc →
  stored lc' = stored lc → log_of lc' p = u → bares lc' (counter_party p) = bares lc (counter_party p) →
  counters lc' (counter_party p) = counters lc (counter_party p) →
  (u = append_htlc pd (log_of lc p) ∧ is_add pd = true ∧ pd_htlc_index pd = ul_htlc_counter (log_of lc p) ∨
   u = append_update pd (log_of lc p) ∧ is_add pd = false) →
  pd_log_index pd = ul_log_index (log_of lc p) →
  pd_add_heights pd = zero_heights → pd_remove_heights pd = zero_heights → kept lc'.
Proof.
  intros Hok Hn H Es El Eb Ec Hu Hi Ha Hr.
  pose proof (ck_bound _ _ _ Hok p) as [B1 B2]. pose proof (lo_counters _ (pair_log_ok lc p (ck_logs _ _ _ Hok))) as [C1 C2].
  apply (kept_push t n lc lc' p (bare pd)); try done; try exact Hok.
  - unfold bares, ul_values. rewrite El.
    assert (ul_list u = ul_list (log_of lc p) ++ [(ul_next_node (log_of lc p), pd)]) as ->.
    { by destruct Hu as [(-> & _)|[-> _]]. }
    by rewrite fmap_app, map_app.
  - rewrite El. destruct Hu as [(-> & _)|[-> _]]; apply u64_small; in_range.
  - rewrite El, bare_is_add. destruct Hu as [(-> & -> & _)|[-> ->]]; simpl; [apply u64_small; in_range | lia].
  - intros Hadd. rewrite bare_is_add in Hadd. rewrite bare_htlc by done.
    destruct Hu as [(_ & _ & ?)|[_ ?]]; [done | congruence].
Qed.

Lemma record_add lc0 p htlc :
  keeps_record lc0 (modify (λ lc, set_log p (append_htlc (htlc_add_descriptor htlc p lc0) (log_of lc p)) lc)).
Proof.
  apply record_modify. intros t n lc Hs Hok Hn H. destruct (same_core_index lc lc0 p Hs) as [E1 E2].
  eapply (kept_append t n lc _ p (append_htlc _ _) (htlc_add_descriptor htlc p lc0)); try done.
  - apply log_of_set_same.
  - apply set_log_bares_other.
  - apply set_log_counters_other.
  - left. split_and!; [done | | done]. unfold is_add, htlc_add_descriptor, entry_type_for_htlc. simpl. by case_match.
Qed.

Lemma add_htlc_record lc0 htlc : keeps_record lc0 (add_htlc htlc).
Proof.
  apply record_get. intros lc _. apply record_bind; [apply looks_validate_add|]. intros _.
  by apply record_modify_ret, record_add.
Qed.

Lemma receive_htlc_record lc0 htlc : keeps_record lc0 (receive_htlc htlc).
Proof.
  apply record_get. intros lc _. apply record_bind; [apply looks_check|]. intros _.
  apply record_bind; [apply looks_validate|]. intros _. by apply record_modify_ret, record_add.
Qed.

Lemma record_fee lc0 p rate :
  keeps_record lc0 (modify (λ lc, set_log p (append_fee_update (fee_descriptor rate p lc0) (log_of lc p)) lc)).
Proof.
  apply record_modify. intros t n lc Hs Hok Hn H. destruct (same_core_index lc lc0 p Hs) as [E1 E2].
  destruct (append_fee_update_cases (fee_descriptor rate p lc0) (log_of lc p)) as [E|(k & -> & Hk)].
  - by eapply pair_log_ok, ck_logs.
  - eapply (kept_append t n lc _ p (append_fee_update _ _) (fee_descriptor rate p lc0)); try done.
    + apply log_of_set_same.
    + apply set_log_bares_other.
    + apply set_log_counters_other.
    + right. split; [exact E | done].
  - apply (kept_same lc); [done | | | done].
    + intros q. destruct (party_cases p q) as [-> | ->]; [|apply set_log_bares_other].
      unfold bares. rewrite log_of_set_same. unfold modify_nodes, ul_values. simpl.
      rewrite <-!list_fmap_compose. apply map_ext_in. intros [k' pd] Hin%list_elem_of_In.
      unfold write_node, compose. simpl. case_bool_decide as Hkk; [|done]. apply list_elem_of_singleton in Hkk as ->.
      specialize (Hk k pd (list_elem_of_here _ _) Hin). unfold bare, is_add, is_resolution, set_pd_amount. simpl. by rewrite Hk.
    + intros q. destruct (party_cases p q) as [-> | ->]; [|apply set_log_counters_other].
      unfold counters. by rewrite log_of_set_same.
Qed.

(** The shape of the methods that resolve an HTLC of the other party. *)
Lemma record_resolution (m : M ()) p i (ok : payment_descriptor → bool) e1 e2 e3 pd lc0 :
  (∀ lc, m lc = match lookup_htlc i (log_of lc (counter_party p)) with
                | None => (lc, Err e1)
                | Some a =>
                    if htlc_has_modification i (log_of lc (counter_party p)) then (lc, Err e2)
                    else if ok a then append_resolution p (pd a lc) i lc else (lc, Err e3)
                end) →
  (∀ a lc, is_resolution (pd a lc) = true ∧ pd_log_index (pd a lc) = ul_log_index (log_of lc p) ∧
     pd_add_heights (pd a lc) = zero_heights ∧ pd_remove_heights (pd a lc) = zero_heights) →
  keeps_record lc0 m.
Proof.
  intros Hm Hpd t n lc lc' r _ Hok Hn H. rewrite Hm.
  destruct (lookup_htlc i _) as [a|] eqn:E; [|by intros [= <- _]].
  destruct (htlc_has_modification i _) eqn:Em; [by intros [= <- _]|].
  destruct (ok a) eqn:Eo; [|by intros [= <- _]].
  destruct (Hpd a lc) as (H2 & H4 & H5 & H6). intros [= <- _].
  eapply (kept_append t n lc _ p (append_update _ _) (pd a lc)); try done.
  - by destruct p.
  - by destruct p.
  - by destruct p.
  - right. split; [done|]. by apply resolution_not_add.
Qed.

Ltac resolution_shape :=
  intros lc; unfold mbind, M_bind, get; cbv beta iota; cbn [counter_party];
  destruct (lookup_htlc _ _); [|done];
  unfold check, fail, mret, M_ret; destruct (htlc_has_modification _ _); solve [done | simpl; by case_bool_decide].

Lemma settle_htlc_record lc0 preimage i : keeps_record lc0 (settle_htlc preimage i).
Proof.
  apply (record_resolution _ Local i (λ a, bool_decide (pd_rhash a = sha256 preimage)) ErrUnknownHtlcIndex
    ErrHtlcIndexAlreadySettled ErrInvalidSettlePreimage
    (λ a lc, resolution_descriptor Settle zero_hash preimage (pd_amount a) i Local lc)); [unfold settle_htlc; resolution_shape | done].
Qed.

Lemma receive_htlc_settle_record lc0 preimage i : keeps_record lc0 (receive_htlc_settle preimage i).
Proof.
  apply (record_resolution _ Remote i (λ a, bool_decide (pd_rhash a = sha256 preimage)) ErrUnknownHtlcIndex
    ErrHtlcIndexAlreadySettled ErrInvalidSettlePreimage
    (λ a lc, resolution_descriptor Settle (pd_rhash a) preimage (pd_amount a) (pd_htlc_index a) Remote lc));
    [unfold receive_htlc_settle; resolution_shape | done].
Qed.

Lemma fail_htlc_as_record lc0 ty i : ty = Fail ∨ ty = MalformedFail → keeps_record lc0 (fail_htlc_as ty i).
Proof.
  intros Hty. apply (record_resolution _ Local i (λ _, true) ErrUnknownHtlcIndex ErrHtlcIndexAlreadyFailed
    ErrHtlcIndexAlreadyFailed
    (λ a lc, resolution_descriptor ty (pd_rhash a) zero_hash (pd_amount a) i Local lc)); [unfold fail_htlc_as; resolution_shape|].
  intros a lc. split_and!; try done. unfold is_resolution. simpl. by destruct Hty as [-> | ->].
Qed.

Lemma receive_fail_htlc_record lc0 i : keeps_record lc0 (receive_fail_htlc i).
Proof.
  apply (record_resolution _ Remote i (λ _, true) ErrUnknownHtlcIndex ErrHtlcIndexAlreadyFailed
    ErrHtlcIndexAlreadyFailed
    (λ a lc, resolution_descriptor Fail (pd_rhash a) zero_hash (pd_amount a) (pd_htlc_index a) Remote lc));
    [unfold receive_fail_htlc; resolution_shape | done].
Qed.

Lemma update_fee_record lc0 rate : keeps_record lc0 (update_fee rate).
Proof.
  apply record_get. intros lc _. apply record_bind; [apply looks_check|]. intros _.
  apply record_bind; [apply looks_validate_fee|]. intros _. apply record_fee.
Qed.

Lemma receive_update_fee_record lc0 rate : keeps_record lc0 (receive_update_fee rate).
Proof.
  apply record_get. intros lc _. apply record_bind; [apply looks_check|]. intros _.
  apply record_bind; [apply looks_lift|]. intros _. apply record_fee.
Qed.

(** ** Commitments *)

Lemma fetch_meta w i oh j th lc lc' c :
  fetch_commitment_view w i oh j th lc = (lc', Ok c) →
  cm_our_htlc_index c = oh ∧ cm_their_htlc_index c = th ∧ cm_dust_limit c = cfg_dust_limit (cfg_for (lc_params lc) w).
Proof.
  intros E. unfold fetch_commitment_view in E.
  apply bind_Ok in E as (lc1 & a & E1 & E). apply get_Ok in E1 as [-> ->].
  apply bind_Ok in E as (lc1 & cv & _ & E). apply bind_Ok in E as (lc2 & tx & _ & E).
  apply bind_Ok in E as (lc3 & u & _ & E). apply bind_Ok in E as (lc4 & a & _ & E).
  by apply ret_Ok in E as [-> _].
Qed.

Lemma set_chain_log w s lc p : log_of (set_chain w s lc) p = log_of lc p.
Proof. by destruct w, p. Qed.

(** What the record has of the logs does not change with a view. *)
Lemma stored_settlements w ns l lc : stored (record_settlements w ns l lc) = stored lc.
Proof.
  assert (∀ p (l : list entry) lc,
    stored (foldl (λ lc x, record_settlement p (pd_amount x.2) lc) lc l) = stored lc) as Hf.
  { clear. intros p l. induction l as [|x l IH]; intros lc; simpl; [done|]. rewrite IH. by destruct p. }
  destruct w; [|done]. simpl. by rewrite !Hf.
Qed.

Lemma compute_stored v w b fee lc : stored (compute_view v w b fee lc).1 = stored lc.
Proof.
  unfold compute_view, mbind, M_bind, get. cbv beta iota zeta.
  destruct (evaluate_htlc_view _ _ _ _) as [ns [e|e]]; [|done]. unfold lift, modify, check, mret, M_ret, fail. cbv beta iota.
  destruct b; repeat case_match; simplify_eq; cbn [fst]; rewrite ?stored_settlements; done.
Qed.

Lemma fetch_stored w i oh j th lc lc' c : fetch_commitment_view w i oh j th lc = (lc', Ok c) → stored lc' = stored lc.
Proof.
  intros E. unfold fetch_commitment_view in E.
  apply bind_Ok in E as (lc1 & a & E1 & E). apply get_Ok in E1 as [-> ->].
  apply bind_Ok in E as (lc1 & cv & E1 & E).
  apply bind_Ok in E as (lc2 & tx & E2 & E). apply lift_Ok in E2 as [_ ->].
  apply bind_Ok in E as (lc3 & u & E3 & E). apply check_Ok in E3 as [_ ->].
  apply bind_Ok in E as (lc4 & a & E4 & E). apply get_Ok in E4 as [_ ->].
  apply ret_Ok in E as [_ ->]. match type of E1 with compute_view ?v _ _ _ _ = _ => pose proof (compute_stored v w true None lc) as Hs end.
  by rewrite E1 in Hs.
Qed.

Section Next.
Context (t n : Z) (lc lc1 lc2 : channel) (w : channel_party) (b : dual Z) (oh th : Z) (c : commitment).
Hypothesis Hok : chan_ok t n lc.
Hypothesis H : kept lc.
Hypothesis Hb : ∀ p, idx (tip (chain_of lc w)) p ≤ get_for_party b p ≤ ul_log_index (log_of lc p).
Hypothesis Ho : match w with
   | Local => dual_local b ≤ idx (tail (chain_of lc Remote)) Local
   | Remote => dual_remote b ≤ idx (tail (chain_of lc Local)) Remote
   end.
Hypothesis Ev : validate_commitment_sanity (dual_remote b) (dual_local b) w NoBuffer None None lc = (lc1, Ok ()).
Hypothesis Ef : fetch_commitment_view w (dual_local b) oh (dual_remote b) th lc1 = (lc2, Ok c).
Hypothesis Hcount : get_for_party b (counter_party w) = ul_log_index (log_of lc (counter_party w)) ∧
  match w with Local => th | Remote => oh end = ul_htlc_counter (log_of lc (counter_party w)).

Let lc3 := set_chain w (add_commitment c (chain_of lc2 w)) lc2.

Lemma next_same : same_core lc1 lc ∧ chan_ok t n lc1 ∧ ∃ acc, fetched lc1 w b acc c lc2.
Proof using Hok Ev Ef.
  destruct (validate_fee_paid t n _ _ _ _ Ev) as (Hs & Hk & Hp). split; [done|]. split; [by apply Hk|]. by eapply fetch_Ok.
Qed.

Lemma next_idx p : idx c p = get_for_party b p.
Proof using Hok Ev Ef. destruct next_same as (_ & _ & acc & Hf). unfold idx. by rewrite (fe_indices _ _ _ _ _ _ Hf). Qed.

Lemma next_logs p : ∃ lc0, same_core lc0 lc ∧ chan_ok t n lc0 ∧
  log_of lc3 p = modify_nodes (fresh_nodes w (idx c p) (log_of lc0 p)) (set_commit_height w (cm_height c)) (log_of lc0 p) ∧
  log_of lc2 p = log_of lc3 p.
Proof using Hok Ev Ef.
  destruct next_same as (Hs & H1 & acc & Hf). exists (mark_noops (ea_noops acc) lc1). split_and!.
  - etrans; [apply mark_noops_core | done].
  - by apply mark_noops_ok.
  - rewrite next_idx. unfold lc3. rewrite set_chain_log.
    rewrite (state_only_log _ _ p (fe_state _ _ _ _ _ _ Hf)). apply commit_logs_log.
  - unfold lc3. symmetry. apply set_chain_log.
Qed.

Lemma next_bares p : bares lc3 p = map (commit_entry w (cm_height c) (idx c p)) (bares lc p).
Proof using Hok Hb Ev Ef.
  destruct (next_logs p) as (lc0 & Hs & H0 & El & _). unfold bares.
  rewrite <-(core_bares _ _ (same_core_log lc0 lc p Hs)), El. unfold modify_nodes, ul_values. simpl.
  rewrite map_map, <-!list_fmap_compose. apply map_ext_in. intros [k pd] Hin%list_elem_of_In.
  unfold write_node, compose, commit_entry. simpl. rewrite bare_uncommitted.
  case_bool_decide as Hk.
  - apply fresh_nodes_elem in Hk as (pd' & Hin' & Hlt & Hu).
    rewrite (nodup_fst_inj _ _ _ _ (lo_nodes _ (pair_log_ok lc0 p (ck_logs _ _ _ H0))) Hin' Hin) in Hu, Hlt.
    rewrite Hu, (proj2 (Z.ltb_lt _ _) Hlt). apply set_height_bare.
  - destruct (is_uncommitted w pd) eqn:Eu; [|done]. destruct (pd_log_index pd <? idx c p) eqn:El'; [|done].
    destruct Hk. apply fresh_nodes_elem. exists pd. by apply Z.ltb_lt in El'.
Qed.

Lemma next_counters p : counters lc3 p = counters lc p.
Proof using Hok Hb Ev Ef.
  destruct (next_logs p) as (lc0 & Hs & _ & El & _). destruct (same_core_index lc0 lc p Hs) as [E1 E2].
  unfold counters. rewrite El. simpl. congruence.
Qed.

Lemma next_shapes p k pd : (k, pd) ∈ ul_list (log_of lc3 p) → ∃ b0, b0 ∈ bares lc p ∧ shape pd = shape b0.
Proof using Hok Hb Ev Ef.
  intros Hin. pose proof (bares_intro lc3 p k pd Hin) as Hb0. rewrite next_bares in Hb0.
  apply list_elem_of_fmap in Hb0 as (b0 & E & Hb0). exists b0. split; [done|].
  rewrite <-(shape_bare pd), E. apply commit_entry_shape.
Qed.

Lemma next_htlc p pd : pd ∈ htlcs_of c p → is_add pd = true ∧ ∃ k, (k, pd) ∈ ul_list (log_of lc3 p).
Proof using Hok Hb Ev Ef.
  destruct next_same as (Hs & H1 & acc & Hf). intros Hin.
  assert (∃ x, x ∈ eval_live acc (fetch_htlc_view (dual_remote b) (dual_local b) lc1) p ∧
    pd = default x.2 (node_value x.1 (log_of lc2 p))) as ([k pd0] & Hx & ->).
  { destruct p; simpl in Hin; [rewrite (fe_outgoing _ _ _ _ _ _ Hf) in Hin | rewrite (fe_incoming _ _ _ _ _ _ Hf) in Hin];
      apply list_elem_of_fmap in Hin as (x & -> & Hx); by exists x. }
  apply elem_of_bfilter in Hx as [Hx [Ha _]%andb_true_iff]. rewrite view_updates in Hx. apply elem_of_bfilter in Hx as [Hx _].
  cbn [fst snd] in *.
  assert (∃ pd1, (k, pd1) ∈ ul_list (log_of (mark_noops (ea_noops acc) lc1) p) ∧ same_content pd1 pd0) as (pd1 & Hin1 & Hs1).
  { destruct p; (eapply modify_forth; [|exact Hx]; by intros). }
  destruct (commit_logs_content w (cm_height c) b _ p k pd1 Hin1) as (pd2 & Hin2 & Hs2).
  destruct (next_logs p) as (_ & _ & _ & _ & <-).
  assert (log_ok (log_of lc2 p)) as Hlo.
  { rewrite (state_only_log _ _ p (fe_state _ _ _ _ _ _ Hf)), commit_logs_log.
    apply modify_nodes_ok; [intros; apply commit_height_content|].
    eapply pair_log_ok, ck_logs. by apply mark_noops_ok. }
  rewrite <-(state_only_log _ _ p (fe_state _ _ _ _ _ _ Hf)) in Hin2.
  rewrite (proj2 (node_value_elem _ k pd2 Hlo) Hin2). simpl. split; [|by exists k].
  by rewrite (same_content_is_add _ _ Hs2), (same_content_is_add _ _ Hs1).
Qed.

Lemma next_like p pd x : pd ∈ htlcs_of c p → x ∈ bares lc p → is_add x = true → pd_htlc_index pd = pd_htlc_index x → shape pd = shape x.
Proof using Hok Hb Ev Ef.
  intros [Ha (k & Hin)]%next_htlc Hx Hxa Hi. apply next_shapes in Hin as (b0 & Hb0 & Es).
  pose proof (shape_is_add _ _ Es) as Ea. rewrite Ha in Ea. symmetry in Ea. rewrite (shape_htlc _ _ Es Ea) in Hi.
  apply elem_of_bares in Hx as (m & x0 & Hx & ->). apply elem_of_bares in Hb0 as (m' & x1 & Hx1 & ->).
  rewrite !bare_htlc in Hi by done.
  destruct (add_unique _ m' m x1 x0 (pair_log_ok lc p (ck_logs _ _ _ Hok)) Hx1 Hx) as [-> ->]; done.
Qed.

Lemma next_parent p r a : r ∈ bares lc p → is_resolution r = true → pd_log_index r < idx c p →
  a ∈ bares lc (counter_party p) → is_add a = true → pd_htlc_index a = pd_parent_index r →
  pd_log_index a < idx (tip (chain_of lc w)) (counter_party p).
Proof using Hok Hb Ev Ef.
  destruct next_same as (Hs & H1 & acc & Hf). rewrite next_idx. intros Hr Hres Hlt Ha Hadd Hi.
  apply elem_of_bares in Hr as (k & r0 & Hr & ->). apply elem_of_bares in Ha as (m & a0 & Ha & ->).
  rewrite bare_htlc, bare_parent in Hi by done. symmetry in Hs.
  apply (core_back _ _ p _ _ Hs) in Hr as (r1 & Hr1 & Er). apply (core_back _ _ _ _ _ Hs) in Ha as (a1 & Ha1 & Ea).
  apply core_same_mark in Er, Ea.
  pose proof (view_parents t n lc1 w b acc H1 (fe_view _ _ _ _ _ _ Hf) p k r1 m a1 Hr1) as Hv.
  rewrite <-(same_mark_is_resolution _ _ Er), <-(same_mark_is_add _ _ Ea), <-(sm_log _ _ Er), <-(sm_log _ _ Ea),
    <-(sm_htlc _ _ Ea), <-(sm_parent _ _ Er), <-(core_chan_chains _ _ w Hs) in Hv.
  by apply Hv.
Qed.

Lemma next_height_eq : cm_height c = cm_height (tip (chain_of lc w)) + 1.
Proof using Hok Hb Ev Ef.
  destruct next_same as (Hs & H1 & acc & Hf). rewrite (fe_height _ _ _ _ _ _ Hf).
  by rewrite (next_height_tip t n lc1 w H1), (core_chan_chains lc1 lc w Hs).
Qed.

(** The channel with the new commitment, and what the record becomes. *)
Lemma kept_next lc' :
  lc_commit_chains lc' = lc_commit_chains lc3 → lc_update_logs lc' = lc_update_logs lc3 →
  lc_params lc' = lc_params lc → lc_current_height lc' = lc_current_height lc →
  record_rest lc' = record_rest lc →
  (w = Local → oc_commit_diff (lc_channel_state lc') = oc_commit_diff (lc_channel_state lc)) →
  (w = Remote → rest (chain_of lc Remote) = [] ∧ oc_remote_next_revocation (lc_channel_state lc) ≠ None ∧
     oc_commit_diff (lc_channel_state lc') = Some (CommitDiff c (cd_commit_sig (default (CommitDiff c [] []) (oc_commit_diff (lc_channel_state lc'))))
       (List.filter (λ pd, (add_height Remote pd =? cm_height c) || (remove_height Remote pd =? cm_height c))
          (ul_values (log_of lc' Local))))) →
  kept lc'.
Proof using All.
  intros Ech El Ep Eh Er Hl Hr. destruct next_same as (Hs & H1 & acc & Hf).
  assert (∀ q, chain_of lc2 q = chain_of lc q) as Ec2.
  { intros q. rewrite (state_only_chain _ _ q (fe_state _ _ _ _ _ _ Hf)).
    transitivity (chain_of lc1 q); [done | by apply core_chan_chains]. }
  assert (∀ p, log_of lc' p = log_of lc3 p) as Elog by (intros p; unfold log_of; by rewrite El).
  assert (∀ q, chain_of lc' q = chain_of lc3 q) as Echn by (intros q; unfold chain_of; by rewrite Ech).
  assert (∀ p, bares lc' p = map (commit_entry w (cm_height c) (idx c p)) (bares lc p)) as Eb.
  { intros p. rewrite <-next_bares. unfold bares. by rewrite Elog. }
  destruct (fetch_meta _ _ _ _ _ _ _ _ Ef) as (Em1 & Em2 & Em3).
  apply (kept_commit t n lc lc' w c); try done.
  - rewrite Echn. unfold lc3. rewrite <-Ec2. by destruct w.
  - rewrite Echn. unfold lc3. rewrite <-Ec2. by destruct w.
  - intros p. rewrite <-next_counters. unfold counters. by rewrite Elog.
  - apply next_height_eq.
  - intros p. rewrite next_idx. apply Hb.
  - rewrite Em3. by rewrite (core_chan_params lc1 lc Hs).
  - rewrite next_idx. destruct Hcount as [-> Hc]. split; [done|]. rewrite <-Hc. by destruct w.
  - apply next_like.
  - intros p r a Hr0 Hres Hlt Ha Hadd Hi. pose proof (next_parent p r a Hr0 Hres Hlt Ha Hadd Hi).
    rewrite next_idx. specialize (Hb (counter_party p)). lia.
  - intros _. apply next_parent.
  - destruct w; [by apply Hl | done].
  - intros Ew. destruct (Hr Ew) as (Hr1 & Hr2 & Hr3). split_and!; [done | done|]. eexists. split; [exact Hr3|].
    split; [done|]. simpl. unfold bares. by rewrite bfilter_map.
Qed.
End Next.

(** ** Compaction *)

Lemma either_steps_filter lt rt p q :
  rtc (either_step lt rt) p q → ∃ f g : entry → bool,
    ul_list q.1 = List.filter f (ul_list p.1) ∧ ul_list q.2 = List.filter g (ul_list p.2) ∧
    ul_log_index q.1 = ul_log_index p.1 ∧ ul_htlc_counter q.1 = ul_htlc_counter p.1.
Proof.
  induction 1 as [p|p p1 q Hst _ IH].
  - exists (λ _, true), (λ _, true). rewrite !bfilter_all; done.
  - assert (∀ u v u' v', compact_step lt rt (u, v) (u', v') → ∃ f g : entry → bool,
      ul_list u' = List.filter f (ul_list u) ∧ ul_list v' = List.filter g (ul_list v) ∧
      ul_log_index u' = ul_log_index u ∧ ul_htlc_counter u' = ul_htlc_counter u ∧
      ul_log_index v' = ul_log_index v ∧ ul_htlc_counter v' = ul_htlc_counter v) as Hone.
    { clear. intros u v u' v' Hst.
      inversion Hst as [? ? ? n pd Hin Ht Hl Hok Hd Hm|? ? ? ? n r m a Hin Hr Hl Ha Hadd Hp Hok Hd Hm Hok' Hd' Hm']; subst.
      - exists (λ x, negb (x.1 =? n)), (λ _, true). rewrite (dr_list _ _ _ Hd), (bfilter_all (λ _, true)) by done.
        split_and!; try done; [apply (dr_log _ _ _ Hd) | apply (dr_htlc _ _ _ Hd)].
      - exists (λ x, negb (x.1 =? n)), (λ x, negb (x.1 =? m)). rewrite (dr_list _ _ _ Hd), (dr_list _ _ _ Hd').
        split_and!; try done; [apply (dr_log _ _ _ Hd) | apply (dr_htlc _ _ _ Hd) | apply (dr_log _ _ _ Hd') | apply (dr_htlc _ _ _ Hd')]. }
    destruct p as [u v], p1 as [u1 v1]. simpl in *.
    assert (∃ f g : entry → bool, ul_list u1 = List.filter f (ul_list u) ∧ ul_list v1 = List.filter g (ul_list v) ∧
      ul_log_index u1 = ul_log_index u ∧ ul_htlc_counter u1 = ul_htlc_counter u) as (f1 & g1 & E1 & E2 & E3 & E4).
    { destruct Hst as [Hst|Hst]; simpl in Hst; apply Hone in Hst as (f & g & H1 & H2 & H3 & H4 & H5 & H6).
      - by exists f, g.
      - by exists g, f. }
    destruct IH as (f & g & -> & -> & -> & ->). rewrite E1, E2, E3, E4, !bfilter_bfilter. eauto 10.
Qed.

Section Compact.
Context (t n : Z) (lc : channel) (u v : update_log).
Let lt := cm_height (tail (chain_of lc Local)).
Let rt := cm_height (tail (chain_of lc Remote)).
Hypothesis Hok : chan_ok t n lc.
Hypothesis Hc : compact_logs (log_of lc Local) (log_of lc Remote) lt rt = Ok (u, v).
Hypothesis Hheights : ∀ p b, b ∈ bares lc p → heights_ok b.
Hypothesis Hheight : ∀ w p b, b ∈ bares lc p → height_on w b ≠ 0 → height_on w b ≤ cm_height (tail (chain_of lc w)) →
  pd_log_index b < idx (tail (chain_of lc w)) p.
Hypothesis Hparent : ∀ w p r a, r ∈ bares lc p → is_resolution r = true → pd_log_index r < idx (tail (chain_of lc w)) p →
  a ∈ bares lc (counter_party p) → is_add a = true → pd_htlc_index a = pd_parent_index r →
  pd_log_index a < idx (tail (chain_of lc w)) (counter_party p).

Let lc' := set_update_logs (Dual u v) lc.

Lemma locked_below p k pd w :
  (k, pd) ∈ ul_list (log_of lc p) → is_add pd = false → locked lt rt pd → pd_log_index pd < idx (tail (chain_of lc w)) p.
Proof using Hheight.
  intros Hin Ha Hl. apply (Hheight w p (bare pd)); [by eapply bares_intro|..]; unfold height_on; rewrite bare_is_add, Ha;
    unfold locked, remove_height in *; destruct w; simpl; unfold lt, rt in Hl; lia.
Qed.

Lemma removed_below p k pd w :
  (k, pd) ∈ ul_list (log_of lc p) → (k, pd) ∉ ul_list (log_of lc' p) → pd_log_index pd < idx (tail (chain_of lc w)) p.
Proof using Hok Hc Hheight Hparent.
  intros Hin Hout. destruct (compact_removed t n lc u v Hok Hc p k pd Hin Hout) as [[Ht Hl]|[(Hr & Hl & _)|(Ha & m & r & Hr & Hres & Hl & Hp)]].
  - eapply locked_below; [done | | done]. unfold is_add. by rewrite Ht.
  - eapply locked_below; [done | by apply resolution_not_add | done].
  - pose proof (locked_below _ m r w Hr (resolution_not_add _ Hres) Hl) as Hlt.
    pose proof (Hparent w (counter_party p) (bare r) (bare pd) (bares_intro _ _ m r Hr) Hres Hlt) as Hpa.
    rewrite counter_party_involutive in Hpa. rewrite bare_htlc, bare_parent in Hpa by done.
    by apply Hpa; [eapply bares_intro | ..].
Qed.

Lemma compact_filter p : ∃ f, ul_list (log_of lc' p) = List.filter f (ul_list (log_of lc p)) ∧ counters lc' p = counters lc p.
Proof using Hok Hc.
  destruct (either_steps_filter _ _ _ _ (compact_steps t n lc u v Hok Hc p)) as (f & g & E & _ & E1 & E2).
  exists f. split; [exact E|]. unfold counters. simpl in *. unfold lc'. by rewrite E1, E2.
Qed.

Lemma compact_bares_sub p : bares lc' p `sublist_of` bares lc p.
Proof using Hok Hc.
  destruct (compact_filter p) as (f & E & _). unfold bares, ul_values. rewrite E.
  apply fmap_sublist, fmap_sublist, bfilter_sublist.
Qed.

Lemma compact_bares_filter p (P : payment_descriptor → bool) :
  (∀ b, b ∈ bares lc p → P b = true → ∃ w, idx (tail (chain_of lc w)) p ≤ pd_log_index b) →
  List.filter P (bares lc' p) = List.filter P (bares lc p).
Proof using Hok Hc Hheight Hparent.
  intros HP'. destruct (compact_filter p) as (f & E & _). unfold bares, ul_values. rewrite E.
  rewrite <-!list_fmap_compose, !bfilter_map, bfilter_bfilter. f_equal. apply bfilter_ext. intros [k pd] Hin. cbn [compose snd].
  destruct (P (bare pd)) eqn:Ep; [|apply andb_false_r]. destruct (f (k, pd)) eqn:Ef; [done|]. exfalso.
  destruct (HP' (bare pd) (bares_intro _ _ _ _ Hin) Ep) as [w Hw].
  assert ((k, pd) ∉ ul_list (log_of lc' p)) as Hout.
  { rewrite E. intros [_ Hf]%elem_of_bfilter. congruence. }
  pose proof (removed_below p k pd w Hin Hout). simpl in Hw. lia.
Qed.
End Compact.

Section Dance.
Context {CL : ChannelLaws} (t n : Z).
Hypothesis Ht : in_u64 t.

Lemma sign_kept lc lc' sigs :
  chan_ok t n lc → kept lc → sign_next_commitment lc = (lc', Ok sigs) → kept lc'.
Proof using HP CP t n.
  intros Hok H E. unfold sign_next_commitment in E.
  apply bind_Ok in E as (lc1 & a & E1 & E). apply get_Ok in E1 as [-> ->].
  apply bind_Ok in E as (lc1 & [] & E1 & E). apply check_Ok in E1 as [Hun ->].
  destruct (oc_remote_next_revocation _) as [point|] eqn:En; [|done].
  apply bind_Ok in E as (lc1 & [] & Ev & E). apply bind_Ok in E as (lc2 & c & Ef & E).
  destruct (sign_commitment point c) as [s|]; [|done].
  apply bind_Ok in E as (lc3 & [] & E3 & E). apply modify_Ok in E3 as ->.
  apply bind_Ok in E as (lc4 & [] & E4 & E). apply modify_Ok in E4 as ->.
  apply ret_Ok in E as [_ ->].
  set (b := Dual (ul_log_index (log_of lc Local)) (idx (tail (chain_of lc Local)) Remote)).
  assert (stored lc2 = stored lc) as Est.
  { rewrite (fetch_stored _ _ _ _ _ _ _ _ Ef). destruct (looks_keeps _ t n _ _ _ (looks_validate _ _ _ _ _ _) Ev) as [Hs _].
    by apply core_stored. }
  unfold stored in Est. injection Est as X1 X2 X3 X4 X5 X6 X7 X8 X9.
  eapply (kept_next t n lc lc1 lc2 Remote b); [exact Hok | exact H | | done | exact Ev | exact Ef | done | done | done | exact X1 | exact X2 | | done | ].
  - intros []; unfold b; cbn [get_for_party dual_local dual_remote].
    + pose proof (ck_own _ _ _ Hok Remote Local). lia.
    + pose proof (proj2 (ck_order _ _ _ Hok)). pose proof (chan_ok_own t n lc Local Remote Hok). lia.
  - unfold record_rest. simpl. by rewrite X4, X5, X7, X8, X9.
  - intros _. split_and!.
    + unfold has_unacked_commitment in Hun. by destruct (rest _).
    + by rewrite En.
    + done.
Qed.

Lemma receive_commitment_kept lc lc' sigs :
  chan_ok t n lc → kept lc → receive_new_commitment sigs lc = (lc', Ok ()) → kept lc'.
Proof using HP CP t n.
  intros Hok H E. unfold receive_new_commitment in E.
  apply bind_Ok in E as (lc1 & a & E1 & E). apply get_Ok in E1 as [-> ->].
  apply bind_Ok in E as (lc1 & [] & Ev & E).
  apply bind_Ok in E as (lc2 & secret & E2 & E). apply lift_Ok in E2 as [_ ->].
  apply bind_Ok in E as (lc2 & c & Ef & E).
  apply bind_Ok in E as (lc3 & [] & E3 & E). apply check_Ok in E3 as [_ ->].
  apply modify_Ok in E as ->.
  set (b := Dual (idx (tail (chain_of lc Remote)) Local) (ul_log_index (log_of lc Remote))).
  assert (stored lc2 = stored lc) as Est.
  { rewrite (fetch_stored _ _ _ _ _ _ _ _ Ef). destruct (looks_keeps _ t n _ _ _ (looks_validate _ _ _ _ _ _) Ev) as [Hs _].
    by apply core_stored. }
  unfold stored in Est. injection Est as X1 X2 X3 X4 X5 X6 X7 X8 X9.
  eapply (kept_next t n lc lc1 lc2 Local b); [exact Hok | exact H | | done | exact Ev | exact Ef | done | done | done | exact X1 | exact X2 | | by intros _ | done].
  - intros []; unfold b; cbn [get_for_party dual_local dual_remote].
    + pose proof (proj1 (ck_order _ _ _ Hok)). pose proof (chan_ok_own t n lc Remote Local Hok). lia.
    + pose proof (ck_own _ _ _ Hok Local Remote). lia.
  - unfold record_rest. simpl. by rewrite X4, X5, X7, X8, X9.
Qed.

Lemma revoke_kept lc lc' r :
  chan_ok t n lc → kept lc → revoke_current_commitment lc = (lc', Ok r) → kept lc'.
Proof using HP CP t n.
  intros Hok H E. unfold revoke_current_commitment in E.
  apply bind_Ok in E as (lc1 & a & E1 & E). apply get_Ok in E1 as [-> ->].
  apply bind_Ok in E as (lc1 & msg & E1 & E). apply lift_Ok in E1 as [_ ->].
  destruct (advance_tail _) as [s|] eqn:Ea; [|done].
  apply bind_Ok in E as (lc1 & [] & E1 & E). apply modify_Ok in E1 as ->.
  apply bind_Ok in E as (lc1 & a & E1 & E). apply get_Ok in E1 as [-> ->].
  destruct (update_commitment _ _ _) as [st final] eqn:Eu.
  apply bind_Ok in E as (lc1 & [] & E1 & E). apply modify_Ok in E1 as ->. apply ret_Ok in E as [_ ->].
  unfold update_commitment in Eu. injection Eu as <- _.
  destruct (chain_ok_advance _ _ (ck_chain _ _ _ Hok Local) Ea) as (Hs & _ & _ & Hh & _).
  eapply (kept_revoke t n lc _ s Hok H Ea); try done.
  - cbn [lc_current_height set_channel_state set_current_height]. rewrite (kp_current _ H), Hh. apply u64_small.
    pose proof (cn_range _ Hs _ (tail_elem _)) as Hr. rewrite Hh in Hr. change max_state_hint with (2 ^ 48 - 1) in Hr.
    pose proof (cn_range _ (ck_chain _ _ _ Hok Local) _ (tail_elem _)). unfold in_u64. lia.
  - eexists. split; [done|]. unfold get_unsigned_acked_updates, between, bares. rewrite bfilter_map. f_equal.
    apply bfilter_ext. intros b _. change (pd_log_index (bare b)) with (pd_log_index b).
    rewrite Z.geb_leb. cbn [chain_of tail]. f_equal; [by rewrite Z.ltb_antisym, negb_involutive|].
    by rewrite Z.ltb_antisym.
Qed.

(** The peer's revocation, after its checks. *)
Section Acked.
Context (lc : channel) (s : commitment_chain) (fwd : list node) (st1 st2 : open_channel) (u v : update_log) (d : commit_diff).
Hypothesis Hok : chan_ok t n lc.
Hypothesis H : kept lc.
Hypothesis Ha : advance_tail (chain_of lc Remote) = Some s.

Let lc1 := set_log Remote (modify_nodes fwd (set_pd_is_forwarded true) (log_of lc Remote)) (set_channel_state st1 lc).
Let lc2 := set_chain Remote s (set_channel_state st2 lc1).
Let lc' := set_update_logs (Dual u v) lc2.
Hypothesis Hc : compact_logs (log_of lc2 Local) (log_of lc2 Remote) (cm_height (tail (chain_of lc Local)))
  (u64 (cm_height (tail (chain_of lc Remote)) + 1)) = Ok (u, v).

Lemma acked_ok : chan_ok t n lc2 ∧
  compact_logs (log_of lc2 Local) (log_of lc2 Remote) (cm_height (tail (chain_of lc2 Local)))
    (cm_height (tail (chain_of lc2 Remote))) = Ok (u, v).
Proof using Hok Ha Hc.
  assert (chan_ok t n lc1) as H1.
  { apply (chan_ok_write t n (set_channel_state st1 lc) Remote); [done | done |]. by apply (chan_ok_state t n lc). }
  split.
  - apply chan_ok_advance; [|done]. by apply (chan_ok_state t n lc1).
  - rewrite <-Hc. f_equal. change (chain_of lc2 Remote) with s.
    destruct (chain_ok_advance _ _ (ck_chain _ _ _ Hok Remote) Ha) as (_ & _ & _ & -> & _). symmetry. apply u64_small.
    pose proof (cn_range _ (ck_chain _ _ _ Hok Remote) _ (tail_elem _)) as Hr. unfold in_u64.
    change max_state_hint with (2 ^ 48 - 1) in Hr. lia.
Qed.

Lemma acked_bares p : bares lc2 p = bares lc p.
Proof using.
  destruct p; [done|]. change (bares lc2 Remote) with
    (map bare (ul_values (modify_nodes fwd (set_pd_is_forwarded true) (log_of lc Remote)))).
  unfold bares, modify_nodes, ul_values. simpl. rewrite <-!list_fmap_compose. apply map_ext. intros [k pd].
  unfold compose, write_node. simpl. by case_bool_decide.
Qed.

Lemma acked_tail w : tail (chain_of lc2 w) ∈ chain_list (chain_of lc w).
Proof using Hok Ha.
  destruct w; [apply tail_elem|].
  destruct (chain_ok_advance _ _ (ck_chain _ _ _ Hok Remote) Ha) as (_ & _ & Hsub & _). apply Hsub, tail_elem.
Qed.

Hypothesis Hd : oc_commit_diff (lc_channel_state lc) = Some d.
Hypothesis Elocal : oc_local_commitment st2 = oc_local_commitment (lc_channel_state lc).
Hypothesis Eremote : oc_remote_commitment st2 = cd_commitment d.
Hypothesis Ediff : oc_commit_diff st2 = None.
Hypothesis Eacked : oc_unsigned_acked_updates st2 =
  option_map (List.filter (λ pd, pd_log_index pd >=? idx (cd_commitment d) Remote))
    (oc_unsigned_acked_updates (lc_channel_state lc)).
Hypothesis Eunsigned :
  match oc_unsigned_acked_updates (lc_channel_state lc) with
  | None => oc_remote_unsigned_local_updates st2 = oc_remote_unsigned_local_updates (lc_channel_state lc)
  | Some _ => ∃ l, oc_remote_unsigned_local_updates st2 = Some l ∧
      map bare l = List.filter not_add (between (idx (tail (chain_of lc Local)) Local) (idx (tail s) Local) (bares lc Local))
  end.

Lemma kept_acked : kept lc'.
Proof using All.
  destruct acked_ok as [H2 Hc2]. pose proof acked_bares as Eb.
  assert (∀ w p b, b ∈ bares lc2 p → height_on w b ≠ 0 → height_on w b ≤ cm_height (tail (chain_of lc2 w)) →
    pd_log_index b < idx (tail (chain_of lc2 w)) p) as Hh.
  { intros w p b Hb Hne Hle. rewrite Eb in Hb. apply (kp_height _ H w p b); [done | apply acked_tail | done | done]. }
  assert (∀ w p r a, r ∈ bares lc2 p → is_resolution r = true → pd_log_index r < idx (tail (chain_of lc2 w)) p →
    a ∈ bares lc2 (counter_party p) → is_add a = true → pd_htlc_index a = pd_parent_index r →
    pd_log_index a < idx (tail (chain_of lc2 w)) (counter_party p)) as Hp.
  { intros w p r a. rewrite !Eb. intros Hr Hres Hlt Hain Hadd Hi.
    apply (kp_parent _ H w (tail (chain_of lc2 w)) p r a); try done. apply acked_tail. }
  apply (kept_advance t n lc lc' s d Hok H Ha); try done.
  - intros p. rewrite <-Eb. apply (compact_bares_sub t n lc2 u v H2 Hc2).
  - intros p P HP'. rewrite <-Eb in HP' |- *. apply (compact_bares_filter t n lc2 u v H2 Hc2 Hh Hp).
    intros b Hb Hpb. destruct (HP' b Hb Hpb) as [w Hw]. by exists w.
  - intros p. destruct (compact_filter t n lc2 u v H2 Hc2 p) as (_ & _ & E). etrans; [exact E | by destruct p].
Qed.
End Acked.

Lemma receive_revocation_kept lc lc' msg r :
  chan_ok t n lc → kept lc → receive_revocation msg lc = (lc', Ok r) → kept lc'.
Proof using All.
  intros Hok H (next & rev & st & st' & s & u & v & [_ _ _ _ _ _ _ Eadv Ea [Ec ->] _])%receive_revocation_inv.
  set (fwd := (List.filter _ _).*1) in *.
  set (st1 := set_remote_revocations next (Some (ra_next_revocation_key msg)) st (lc_channel_state lc)) in *.
  unfold advance_commit_chain_tail in Eadv.
  change (oc_commit_diff st1) with (oc_commit_diff (lc_channel_state lc)) in Eadv.
  change (oc_unsigned_acked_updates st1) with (oc_unsigned_acked_updates (lc_channel_state lc)) in Eadv.
  change (oc_remote_unsigned_local_updates st1) with (oc_remote_unsigned_local_updates (lc_channel_state lc)) in Eadv.
  destruct (oc_commit_diff (lc_channel_state lc)) as [d|] eqn:Ed; [|done].
  apply rbind_Ok in Eadv as (sec & _ & Eadv). injection Eadv as <-.
  assert (tail s = tip (chain_of lc Remote)) as Etip.
  { pose proof (kp_pending _ H) as Hp. rewrite Ed in Hp. unfold advance_tail in Ea. unfold tip.
    destruct (rest (chain_of lc Remote)) as [|c [|]]; try done. by injection Ea as <-. }
  eapply (kept_acked lc s fwd st1 _ u v d Hok H Ea); try done.
  - cbn [oc_remote_unsigned_local_updates]. destruct (oc_unsigned_acked_updates (lc_channel_state lc)); [|done].
    eexists. split; [done|]. unfold unsigned_local_updates, between, bares. rewrite Etip, bfilter_bfilter, bfilter_map.
    f_equal. apply bfilter_ext. intros b _. unfold not_add. rewrite bare_is_add.
    change (pd_log_index (bare b)) with (pd_log_index b). rewrite Z.geb_leb, (andb_comm (negb _)). f_equal. apply andb_comm.
Qed.

(** ** Every method *)

Lemma run_op_kept op lc lc' :
  chan_ok t n lc → n + 1 < 2 ^ 64 → kept lc → run_op op lc = Some lc' → kept lc'.
Proof using All.
  intros Hok Hn H.
  assert (∀ A (m : M A), keeps_record lc m → Some (m lc).1 = Some lc' → kept lc') as Hg.
  { intros A m Hm [= <-]. by apply (Hm t n lc _ (m lc).2); [..|apply surjective_pairing]. }
  assert (∀ A (m : M A), (∀ a, m lc = (lc', Ok a) → kept lc') → on_success (m lc) = Some lc' → kept lc') as Hs.
  { intros A m Hm. unfold on_success. destruct (m lc) as [lc1 [a|]] eqn:E; [|done]. intros [= ->]. by apply (Hm a). }
  destruct op; simpl; try (apply Hg).
  - apply add_htlc_record.
  - apply receive_htlc_record.
  - apply record_looks, may_add_looks.
  - apply record_looks, looks_available_balance.
  - apply record_looks, commit_fee_total_looks.
  - apply settle_htlc_record.
  - apply receive_htlc_settle_record.
  - apply fail_htlc_as_record. by left.
  - apply fail_htlc_as_record. by right.
  - apply receive_fail_htlc_record.
  - apply update_fee_record.
  - apply receive_update_fee_record.
  - apply Hs. intros a. by apply sign_kept.
  - apply Hs. intros []. by apply receive_commitment_kept.
  - apply Hs. intros a. by apply revoke_kept.
  - apply Hs. intros a. by apply receive_revocation_kept.
Qed.
End Dance.
End Methods.
