(* ===== verification/ChannelReadLogs.v ===== *)
(** * Logs read back

    What the loops of [restoreStateLogs] make of a log, where their inputs are
    in order. *)

From S2P Require Import Prelude Chainfee Shachain UpdateLog Channel ChannelLog ChannelView ChannelInv ChannelCommit.
From S2P Require Import ChannelRestore ChannelKept.

(** ** The logs that restoring makes *)

Section Logs.
Context (u : update_log).
Hypothesis H : log_ok u.

Lemma restore_htlc_ok pd :
  is_add pd = true → (∀ k a, (k, a) ∈ ul_list u → is_add a = true → pd_htlc_index a ≠ pd_htlc_index pd) →
  0 ≤ pd_log_index pd < ul_log_index u → 0 ≤ pd_htlc_index pd < ul_htlc_counter u →
  let u' := restore_htlc pd u in
  log_ok u' ∧ ul_list u' = ul_list u ++ [(ul_next_node u, pd)] ∧ ul_log_index u' = ul_log_index u ∧
  ul_htlc_counter u' = ul_htlc_counter u ∧ ul_modified_htlcs u' = ul_modified_htlcs u.
Proof using H.
  intros Ha Hnew Hl Hh u'.
  assert (ul_htlc_index u !! pd_htlc_index pd = None) as Hnone.
  { destruct (_ !! _) as [k|] eqn:E; [|done]. apply (lo_htlc u H) in E as (a & Hin & Ha' & Hi). by destruct (Hnew k a). }
  assert (u' = set_ul_indices (ul_update_index u) (<[pd_htlc_index pd := ul_next_node u]> (ul_htlc_index u))
    (push_back pd u).1) as ->.
  { unfold u', restore_htlc. by rewrite Hnone. }
  split; [|done]. split; simpl.
  - by apply push_nodes_nodup.
  - intros n pd' [Hin|[= -> ->]%list_elem_of_singleton]%elem_of_app; [apply (lo_fresh u H) in Hin|]; lia.
  - intros i n. rewrite (lo_update u H). apply push_members. rewrite Ha. by intros [? _].
  - intros i n. rewrite lookup_insert_Some, (lo_htlc u H). setoid_rewrite elem_of_app. setoid_rewrite list_elem_of_singleton.
    split.
    + intros [[<- <-]|(Hne & pd' & Hin & Ha' & Hi)]; [exists pd | exists pd']; naive_solver.
    + intros (pd' & [Hin|[= -> ->]] & Ha' & Hi); [right | left; split; congruence].
      split; [|by eauto]. intros Heq. apply (Hnew n pd' Hin Ha'). congruence.
  - intros n pd' [Hin|[= -> ->]%list_elem_of_singleton]%elem_of_app; [by apply (lo_log_bound u H) in Hin | done].
  - intros n pd' [Hin|[= -> ->]%list_elem_of_singleton]%elem_of_app Ha'; [by apply (lo_htlc_bound u H n pd') | done].
  - apply (lo_counters u H).
Qed.

Lemma restore_update_ok pd :
  is_add pd = false → (∀ k a, (k, a) ∈ ul_list u → is_add a = false → pd_log_index a ≠ pd_log_index pd) →
  0 ≤ pd_log_index pd < ul_log_index u →
  let u' := restore_update pd u in
  log_ok u' ∧ ul_list u' = ul_list u ++ [(ul_next_node u, pd)] ∧ ul_log_index u' = ul_log_index u ∧
  ul_htlc_counter u' = ul_htlc_counter u ∧ ul_modified_htlcs u' = ul_modified_htlcs u.
Proof using H.
  intros Ha Hnew Hl u'. split; [|done]. split; simpl.
  - by apply push_nodes_nodup.
  - intros n pd' [Hin|[= -> ->]%list_elem_of_singleton]%elem_of_app; [apply (lo_fresh u H) in Hin|]; lia.
  - intros i n. rewrite lookup_insert_Some, (lo_update u H). setoid_rewrite elem_of_app. setoid_rewrite list_elem_of_singleton.
    split.
    + intros [[<- <-]|(Hne & pd' & Hin & Ha' & Hi)]; [exists pd | exists pd']; naive_solver.
    + intros (pd' & [Hin|[= -> ->]] & Ha' & Hi); [right | left; split; congruence].
      split; [|by eauto]. intros Heq. apply (Hnew n pd' Hin Ha'). congruence.
  - intros i n. rewrite (lo_htlc u H). apply push_members. rewrite Ha. by intros [? _].
  - intros n pd' [Hin|[= -> ->]%list_elem_of_singleton]%elem_of_app; [by apply (lo_log_bound u H) in Hin | done].
  - intros n pd' [Hin|[= -> ->]%list_elem_of_singleton]%elem_of_app Ha'; [by apply (lo_htlc_bound u H n pd') | congruence].
  - apply (lo_counters u H).
Qed.

Lemma mark_modified_log_ok i : log_ok (mark_htlc_modified i u).
Proof using H. destruct H. by split. Qed.
End Logs.

(** The log [u'] is [u] with more entries. *)
Record longer (u u' : update_log) (l : list payment_descriptor) : Prop := {
  lg_ok : log_ok u';
  lg_values : ul_values u' = ul_values u ++ l;
  lg_marks : ul_modified_htlcs u ⊆ ul_modified_htlcs u';
}.

Lemma values_push (u u' : update_log) k pd : ul_list u' = ul_list u ++ [(k, pd)] → ul_values u' = ul_values u ++ [pd].
Proof. intros E. unfold ul_values. by rewrite E, fmap_app. Qed.

Lemma elem_of_values (u : update_log) pd : pd ∈ ul_values u ↔ ∃ k, (k, pd) ∈ ul_list u.
Proof.
  unfold ul_values. rewrite list_elem_of_fmap. split.
  - intros ([k pd'] & -> & Hin). by exists k.
  - intros [k Hin]. by exists (k, pd).
Qed.

Lemma restore_htlcs_ok l u :
  log_ok u → Forall (λ pd, is_add pd = true ∧ 0 ≤ pd_log_index pd < ul_log_index u ∧ 0 ≤ pd_htlc_index pd < ul_htlc_counter u) l →
  NoDup (map pd_htlc_index l) →
  (∀ k a pd, (k, a) ∈ ul_list u → is_add a = true → pd ∈ l → pd_htlc_index a ≠ pd_htlc_index pd) →
  let u' := foldl (λ u pd, restore_htlc pd u) u l in
  longer u u' l ∧ ul_log_index u' = ul_log_index u ∧ ul_htlc_counter u' = ul_htlc_counter u.
Proof.
  revert u. induction l as [|pd l IH]; intros u H Hl Hnd Hnew; simpl.
  { split; [|done]. split; [done | by rewrite app_nil_r | done]. }
  apply Forall_cons in Hl as [(Ha & Hlog & Hhtlc) Hl]. simpl in Hnd. apply NoDup_cons in Hnd as [Hpd Hnd].
  destruct (restore_htlc_ok u H pd) as (H1 & E1 & E2 & E3 & E4); [done | | done | done|].
  { intros k a Hin Haa. apply (Hnew k); [done | done | by left]. }
  destruct (IH (restore_htlc pd u) H1) as (L & E5 & E6).
  - by rewrite E2, E3.
  - done.
  - intros k a pd' Hin Haa Hpd'. rewrite E1 in Hin. apply elem_of_app in Hin as [Hin|[= -> ->]%list_elem_of_singleton].
    + apply (Hnew k); [done | done | by right].
    + intros E. apply Hpd. rewrite E. apply list_elem_of_fmap. by exists pd'.
  - rewrite E5, E6. split; [|done]. destruct L as [L1 L2 L3]. split; [done| |].
    + rewrite L2, (values_push _ _ _ _ E1), <-app_assoc. done.
    + by rewrite E4 in L3.
Qed.

(** ** Updates that are read back *)

Record fresh_on (w : channel_party) (h : Z) (pd : payment_descriptor) : Prop := {
  fo_heights : heights_ok pd;
  fo_on : height_on w pd = h;
  fo_off : height_on (counter_party w) pd = 0;
}.

(** The log [v] has the HTLC that [b] resolves, if it resolves one. *)
Definition parent_in (v : update_log) (b : payment_descriptor) : Prop :=
  is_resolution b = true →
  ∃ og, lookup_htlc (pd_parent_index b) v = Some og ∧ pd_htlc_index og = pd_parent_index b ∧ pd_amount og = pd_amount b.

Lemma at_height_on w h : get_for_party (at_height w h) w = h ∧ get_for_party (at_height w h) (counter_party w) = 0.
Proof. by destruct w. Qed.
Lemma zero_height_on w : get_for_party zero_heights w = 0.
Proof. by destruct w. Qed.

(** Heights of the three kinds of entries. *)
Lemma fresh_add w h pd :
  is_add pd = true → pd_add_heights pd = at_height w h → pd_remove_heights pd = zero_heights → fresh_on w h pd.
Proof.
  intros Ha E1 E2. pose proof (at_height_on w h) as [A1 A2]. split; [split|..].
  - intros q _. unfold remove_height. rewrite E2. apply zero_height_on.
  - intros q Hr. apply resolution_not_add in Hr. congruence.
  - intros q Ht. unfold is_add in Ha. by rewrite Ht in Ha.
  - unfold height_on, add_height. by rewrite Ha, E1.
  - unfold height_on, add_height. by rewrite Ha, E1.
Qed.

Lemma fresh_resolution w h pd :
  is_resolution pd = true → pd_add_heights pd = zero_heights → pd_remove_heights pd = at_height w h → fresh_on w h pd.
Proof.
  intros Hr E1 E2. pose proof (at_height_on w h) as [A1 A2]. pose proof (resolution_not_add _ Hr) as Ha. split; [split|..].
  - intros q Hadd. congruence.
  - intros q _. unfold add_height. rewrite E1. apply zero_height_on.
  - intros q Ht. by apply resolution_not_fee in Hr.
  - unfold height_on, remove_height. by rewrite Ha, E2.
  - unfold height_on, remove_height. by rewrite Ha, E2.
Qed.

Lemma fresh_fee w h pd :
  pd_entry_type pd = FeeUpdate → pd_add_heights pd = at_height w h → pd_remove_heights pd = at_height w h → fresh_on w h pd.
Proof.
  intros Ht E1 E2. pose proof (at_height_on w h) as [A1 A2].
  assert (is_add pd = false) as Ha by (unfold is_add; by rewrite Ht). split; [split|..].
  - intros q Hadd. congruence.
  - intros q Hr. by apply resolution_not_fee in Hr.
  - intros q _. unfold add_height, remove_height. by rewrite E1, E2.
  - unfold height_on, remove_height. by rewrite Ha, E2.
  - unfold height_on, remove_height. by rewrite Ha, E2.
Qed.

Lemma update_to_pay_desc_ok w v h u b :
  shape u = shape b → parent_in v b →
  ∃ pd, update_to_pay_desc w v h u = Ok pd ∧ shape pd = shape b ∧ fresh_on w h pd.
Proof.
  intros Hs Hp. pose proof (shape_type _ _ Hs) as Ht. unfold update_to_pay_desc.
  destruct (is_resolution b) eqn:Er.
  - destruct (Hp Er) as (og & El & Ei & Ea). pose proof (shape_parent _ _ Hs Er) as Ep.
    assert (∃ pd, Ok (E := restore_error) (resolution_pay_desc w h og u) = Ok pd ∧ shape pd = shape b ∧ fresh_on w h pd) as Hd.
    { eexists. split; [done|]. pose proof (shape_is_resolution _ _ Hs) as Hru. rewrite Er in Hru. split.
      - rewrite <-Hs. pose proof (resolution_not_add _ Hru) as Hna. pose proof (resolution_not_fee _ Hru) as Hnf.
        unfold shape, bare. change (is_add (resolution_pay_desc w h og u)) with (is_add u).
        change (is_resolution (resolution_pay_desc w h og u)) with (is_resolution u). rewrite Hna, Hru. unfold resolution_pay_desc. simpl.
        rewrite !(bool_decide_eq_false_2 (_ = FeeUpdate)) by done.
        rewrite Ei, Ea, <-Ep, <-(shape_amount _ _ Hs) by by rewrite <-Ht. case_bool_decide as Hse; [by rewrite Hse | done].
      - apply fresh_resolution; [exact Hru | done | done]. }
    rewrite Ep, El. unfold is_resolution in Er. rewrite <-Ht in Er. destruct (pd_entry_type u); done.
  - assert (is_resolution u = false) as Hru by by rewrite (shape_is_resolution _ _ Hs).
    destruct (pd_entry_type u) eqn:Eu; try (unfold is_resolution in Hru; by rewrite Eu in Hru); eexists; (split; [done|]); split.
    + rewrite <-Hs. unfold shape, bare, is_add, is_resolution. simpl. by rewrite Eu.
    + by apply fresh_add.
    + rewrite <-Hs. unfold shape, bare, is_add, is_resolution. simpl. by rewrite Eu.
    + by apply fresh_fee.
    + rewrite <-Hs. unfold shape, bare, is_add, is_resolution. simpl. by rewrite Eu.
    + by apply fresh_add.
Qed.

(** A log that has more marks. *)
Record marked (v v' : update_log) (l : list payment_descriptor) : Prop := {
  mk_eq : v' = set_ul_modified (ul_modified_htlcs v') v;
  mk_old : ul_modified_htlcs v ⊆ ul_modified_htlcs v';
  mk_new b : b ∈ l → is_resolution b = true → pd_parent_index b ∈ ul_modified_htlcs v';
}.

Lemma marked_nil v : marked v v [].
Proof. split; [by destruct v | done | by intros b ?%elem_of_nil]. Qed.

Lemma marked_cons v v1 v' b l :
  v1 = (if is_resolution b then mark_htlc_modified (pd_parent_index b) v else v) → marked v1 v' l → marked v v' (b :: l).
Proof.
  intros E [H1 H2 H3]. split.
  - rewrite H1, E. by destruct (is_resolution b).
  - etrans; [|exact H2]. rewrite E. destruct (is_resolution b); [|done]. simpl. set_solver.
  - intros x [->|Hx]%elem_of_cons Hr; [|by apply H3]. apply H2. rewrite E, Hr. simpl. set_solver.
Qed.

Lemma parent_in_marked v v' l b : marked v v' l → parent_in v b → parent_in v' b.
Proof. intros [E _ _] Hp Hr. destruct (Hp Hr) as (og & El & H). exists og. split; [|done]. by rewrite E. Qed.

Lemma mark_parent_at p pd logs : mark_parent p pd logs =
  set_for_party logs p (if is_resolution pd then mark_htlc_modified (pd_parent_index pd) (get_for_party logs p)
                        else get_for_party logs p).
Proof. unfold mark_parent, modify_for_party. destruct (is_resolution pd); [done|]. by destruct logs, p. Qed.

(** *** Our updates on the commitment that the peer has to revoke for *)

Lemma restore_local_ok h u v x b :
  log_ok u → shape x = shape b → parent_in v b → pd_log_index b = ul_log_index u →
  (is_add b = true → pd_htlc_index b = ul_htlc_counter u) →
  ul_log_index u + 1 < 2 ^ 64 → (is_add b = true → ul_htlc_counter u + 1 < 2 ^ 64) →
  ∃ u1 pd, restore_pending_local_update h (Dual u v) x =
      Ok (Dual u1 (if is_resolution b then mark_htlc_modified (pd_parent_index b) v else v)) ∧
    shape pd = shape b ∧ fresh_on Remote h pd ∧
    log_ok u1 ∧ ul_list u1 = ul_list u ++ [(ul_next_node u, pd)] ∧ ul_modified_htlcs u1 = ul_modified_htlcs u ∧
    ul_log_index u1 = ul_log_index u + 1 ∧ ul_htlc_counter u1 = ul_htlc_counter u + if is_add b then 1 else 0.
Proof.
  intros Hu Hs Hp Hi Hh B1 B2. pose proof (lo_counters u Hu) as [C1 C2].
  destruct (update_to_pay_desc_ok Remote v h x b Hs Hp) as (pd & E & Es & Hf).
  pose proof (shape_log _ _ Es) as El. pose proof (shape_is_add _ _ Es) as Ea.
  pose proof (shape_is_resolution _ _ Es) as Er.
  unfold restore_pending_local_update, log_update_to_pay_desc. simpl. rewrite E. cbn [rbind].
  assert ((bool_decide (pd_entry_type pd = FeeUpdate) && (pd_log_index pd =? 0) && (0 <? ul_log_index u)) = false) as ->.
  { rewrite El, Hi. destruct (Z.eqb_spec (ul_log_index u) 0) as [->|]; [apply andb_false_r | by rewrite andb_false_r]. }
  rewrite El, Hi, Z.eqb_refl, Ea. destruct (is_add b) eqn:Eb.
  - specialize (B2 eq_refl). assert (is_resolution b = false) as Hnr.
    { destruct (is_resolution b) eqn:Hr; [|done]. apply resolution_not_add in Hr. congruence. }
    rewrite (shape_htlc _ _ Es Eb), Hh, Z.eqb_refl, Hnr by done. eexists _, pd. split; [done|].
    split; [done|]. split; [done|]. split; [|done || (split_and!; try done; apply u64_small; in_range)].
    apply append_htlc_ok; try done; rewrite ?El, ?(shape_htlc _ _ Es Eb), ?Hh; done.
  - rewrite mark_parent_at. eexists _, pd. simpl. split.
    + rewrite Er. destruct (is_resolution b) eqn:Hr; [|done]. by rewrite (shape_parent _ _ Es Hr).
    + split; [done|]. split; [done|]. split; [apply append_update_ok; try done; by rewrite El|].
      split_and!; try done; [apply u64_small; in_range | simpl; lia].
Qed.

Definition n_adds (l : list payment_descriptor) : Z := Z.of_nat (length (List.filter is_add l)).

Lemma n_adds_cons b l : n_adds (b :: l) = (if is_add b then 1 else 0) + n_adds l.
Proof. unfold n_adds. simpl. destruct (is_add b); simpl; lia. Qed.

Definition same_shape (x b : payment_descriptor) : Prop := shape x = shape b.

Lemma map_shape_Forall2 xs bs : map shape xs = map shape bs ↔ Forall2 same_shape xs bs.
Proof.
  split.
  - revert bs. induction xs as [|x xs IH]; intros [|b bs] E; try done. constructor.
    + exact (f_equal (List.hd (shape x)) E).
    + apply IH. exact (f_equal (List.tl (A := _)) E).
  - induction 1 as [|x b xs bs Hx _ IH]; [done|]. simpl. by rewrite Hx, IH.
Qed.

Lemma longer_trans u u1 u' l l' : longer u u1 l → longer u1 u' l' → longer u u' (l ++ l').
Proof. intros [A1 A2 A3] [B1 B2 B3]. split; [done | by rewrite B2, A2, app_assoc | by etrans]. Qed.

Lemma longer_push u u1 k pd :
  log_ok u1 → ul_list u1 = ul_list u ++ [(k, pd)] → ul_modified_htlcs u1 = ul_modified_htlcs u → longer u u1 [pd].
Proof. intros H E Em. split; [done | by eapply values_push | by rewrite Em]. Qed.

Lemma pending_fold h xs bs u v :
  Forall2 same_shape xs bs → log_ok u → (∀ b, b ∈ bs → parent_in v b) →
  map pd_log_index bs = seqZ (ul_log_index u) (Z.of_nat (length bs)) →
  map pd_htlc_index (List.filter is_add bs) = seqZ (ul_htlc_counter u) (n_adds bs) →
  ul_log_index u + Z.of_nat (length bs) < 2 ^ 64 → ul_htlc_counter u + n_adds bs < 2 ^ 64 →
  ∃ u' v' pds, fold_result (restore_pending_local_update h) xs (Dual u v) = Ok (Dual u' v') ∧
    longer u u' pds ∧ marked v v' bs ∧ Forall2 same_shape pds bs ∧ Forall (fresh_on Remote h) pds ∧
    ul_log_index u' = ul_log_index u + Z.of_nat (length bs) ∧ ul_htlc_counter u' = ul_htlc_counter u + n_adds bs.
Proof.
  intros Hxs. revert u v. induction Hxs as [|x b xs bs Hx Hxs IH]; intros u v Hu Hp Hi Hh B1 B2.
  { exists u, v, []. unfold n_adds. simpl. split_and!; try done; try lia.
    - split; [done | by rewrite app_nil_r | done].
    - apply marked_nil. }
  rewrite n_adds_cons in Hh, B2 |- *. cbn [length map] in Hi, B1 |- *.
  assert (0 ≤ n_adds bs) as Hna by (unfold n_adds; lia).
  rewrite Nat2Z.inj_succ in Hi, B1 |- *. rewrite seqZ_cons in Hi by lia. injection Hi as Hi0 Hi.
  assert (is_add b = true → pd_htlc_index b = ul_htlc_counter u) as Hh0.
  { intros Hb. cbn [List.filter] in Hh. rewrite Hb in Hh. cbn [map] in Hh. rewrite seqZ_cons in Hh by lia. by injection Hh. }
  destruct (restore_local_ok h u v x b) as (u1 & pd & E & Es & Hf & Hu1 & El & Em & Ei & Ec); try done; try lia.
  { apply Hp. by left. }
  { intros Hb. rewrite Hb in B2. lia. }
  assert (map pd_htlc_index (List.filter is_add bs) = seqZ (ul_htlc_counter u1) (n_adds bs)) as Hh1.
  { rewrite Ec. cbn [List.filter] in Hh. destruct (is_add b); cbn [map] in Hh.
    - rewrite seqZ_cons in Hh by lia. injection Hh as _ Hh. rewrite Hh. f_equal; lia.
    - rewrite Z.add_0_r. exact Hh. }
  set (v1 := if is_resolution b then mark_htlc_modified (pd_parent_index b) v else v) in *.
  destruct (IH u1 v1) as (u' & v' & pds & E' & Hl & Hm & Hpds & Hfr & Ei' & Ec'); try done.
  { intros b' Hb'. unfold v1. specialize (Hp b' ltac:(by right)). by destruct (is_resolution b). }
  { rewrite Ei, Hi. f_equal; lia. }
  { rewrite Ei. lia. }
  { rewrite Ec. destruct (is_add b); lia. }
  exists u', v', (pd :: pds). cbn [fold_result]. rewrite E. split; [exact E'|]. split.
  { apply (longer_trans u u1 u' [pd] pds); [|done]. by eapply longer_push. }
  split; [by eapply marked_cons|]. split; [by constructor|]. split; [by constructor|]. lia.
Qed.

(** *** The peer's updates that we have not signed for *)

Definition acked_height (pending : option commitment) (i : Z) : Z :=
  match pending with Some c => if i <? idx c Remote then cm_height c else 0 | None => 0 end.

Definition no_update_at (u : update_log) (i : Z) : Prop :=
  ∀ k a, (k, a) ∈ ul_list u → is_add a = false → pd_log_index a ≠ i.

Lemma no_update_push u u1 k pd i :
  ul_list u1 = ul_list u ++ [(k, pd)] → no_update_at u i → (is_add pd = false → pd_log_index pd ≠ i) → no_update_at u1 i.
Proof.
  intros E H Hpd k' a Hin Ha. rewrite E in Hin.
  apply elem_of_app in Hin as [Hin|[= -> ->]%list_elem_of_singleton]; [by apply (H k') | by apply Hpd].
Qed.

Lemma acked_fold lh pending xs u v :
  log_ok v → (∀ x, x ∈ xs → parent_in u x ∧ pd_log_index x < ul_log_index v ∧ (not_add x = true → 0 ≤ pd_log_index x)) →
  NoDup (map pd_log_index (List.filter not_add xs)) →
  (∀ x, x ∈ xs → not_add x = true → no_update_at v (pd_log_index x)) →
  ∃ u' v' pds, fold_result (restore_pending_remote_update lh pending) xs (Dual u v) = Ok (Dual u' v') ∧
    longer v v' pds ∧ marked u u' (List.filter not_add xs) ∧ Forall2 same_shape pds (List.filter not_add xs) ∧
    Forall (λ pd, heights_ok pd ∧ height_on Local pd = lh ∧ height_on Remote pd = acked_height pending (pd_log_index pd)) pds ∧
    ul_log_index v' = ul_log_index v ∧ ul_htlc_counter v' = ul_htlc_counter v.
Proof.
  revert u v. induction xs as [|x xs IH]; intros u v Hv Hx Hnd Hnew.
  { exists u, v, []. simpl. split_and!; try done.
    - split; [done | by rewrite app_nil_r | done].
    - apply marked_nil. }
  destruct (Hx x) as (Hpx & Hxl & Hx0); [by left|].
  destruct (update_to_pay_desc_ok Local u lh x x eq_refl Hpx) as (pd & E & Es & [Hh Hon Hoff]).
  pose proof (shape_log _ _ Es) as El. pose proof (shape_is_add _ _ Es) as Ea.
  cbn [fold_result]. unfold restore_pending_remote_update at 1, remote_log_update_to_pay_desc. cbn [dual_local dual_remote].
  rewrite E. cbn [rbind]. rewrite El, (proj2 (Z.ltb_lt _ _) Hxl), Ea. cbn [List.filter].
  destruct (is_add x) eqn:Hadd; [assert (not_add x = false) as -> by (unfold not_add; by rewrite Hadd)|
    assert (not_add x = true) as Hna by (unfold not_add; by rewrite Hadd); rewrite Hna].
  { cbn [rbind]. destruct (IH u v Hv) as (u' & v' & pds & Hr); [| | |by exists u', v', pds].
    - intros y Hy. apply Hx. by right.
    - cbn [List.filter] in Hnd. unfold not_add at 1 in Hnd. by rewrite Hadd in Hnd.
    - intros y Hy. apply Hnew. by right. }
  set (pd1 := match pending with
              | Some c => if pd_log_index x <? dual_remote (cm_message_indices c)
                          then set_commit_height Remote (cm_height c) pd else pd
              | None => pd
              end).
  assert (shape pd1 = shape x ∧ heights_ok pd1 ∧ height_on Local pd1 = lh ∧
    height_on Remote pd1 = acked_height pending (pd_log_index pd1)) as (Es1 & Hh1 & Hl1 & Hr1).
  { unfold acked_height. assert (shape pd1 = shape pd) as E1.
    { unfold pd1. destruct pending; [|done]. case_match; [apply set_height_shape | done]. }
    rewrite (shape_log _ _ E1), El. split; [by rewrite E1|]. unfold pd1. unfold idx. simpl.
    destruct pending as [c|]; [|done]. destruct (_ <? _); [|done].
    split; [by apply set_height_ok|]. by rewrite set_height_on, set_height_other. }
  pose proof (shape_log _ _ Es1) as El1. pose proof (shape_is_add _ _ Es1) as Ea1.
  specialize (Hx0 Hna).
  destruct (restore_update_ok v Hv pd1) as (Hv1 & Elist & Ei & Ec & Em); [by rewrite Ea1 | | by rewrite El1 |].
  { rewrite El1. apply Hnew; [by left | done]. }
  cbn [List.filter] in Hnd. rewrite Hna in Hnd. simpl in Hnd. apply NoDup_cons in Hnd as [Hnx Hnd].
  set (u1 := if is_resolution x then mark_htlc_modified (pd_parent_index x) u else u).
  assert (mark_parent Local pd1 (modify_for_party (Dual u v) Remote (restore_update pd1)) = Dual u1 (restore_update pd1 v)) as ->.
  { rewrite mark_parent_at. unfold u1. simpl. rewrite (shape_is_resolution _ _ Es1).
    destruct (is_resolution x) eqn:Hr; [|done]. by rewrite (shape_parent _ _ Es1 Hr). }
  cbn [rbind]. destruct (IH u1 (restore_update pd1 v) Hv1) as (u' & v' & pds & E' & Hl & Hm & Hpds & Hfr & Ei' & Ec').
  - intros y Hy. destruct (Hx y) as [Hp Hb]; [by right|]. rewrite Ei. split; [|done]. unfold u1. by destruct (is_resolution x).
  - done.
  - intros y Hy Hyn. eapply no_update_push; [exact Elist | apply Hnew; [by right | done] |].
    intros _ Heq. apply Hnx. rewrite <-El1, Heq. apply list_elem_of_fmap. exists y. split; [done|]. by apply elem_of_bfilter.
  - exists u', v', (pd1 :: pds). split; [exact E'|]. split.
    { apply (longer_trans v (restore_update pd1 v) v' [pd1] pds); [|done]. by eapply longer_push. }
    split; [by eapply marked_cons|]. split; [by constructor|]. split; [by constructor|]. by rewrite Ei', Ec'.
Qed.

(** *** Our updates that the peer has not signed for *)

Lemma unsigned_fold rh xs u v :
  log_ok u → (∀ x, x ∈ xs → parent_in v x ∧ not_add x = true ∧ 0 ≤ pd_log_index x < ul_log_index u) →
  NoDup (map pd_log_index xs) → (∀ x, x ∈ xs → no_update_at u (pd_log_index x)) →
  ∃ u' v' pds, fold_result (restore_peer_local_update rh) xs (Dual u v) = Ok (Dual u' v') ∧
    longer u u' pds ∧ marked v v' xs ∧ Forall2 same_shape pds xs ∧ Forall (fresh_on Remote rh) pds ∧
    ul_log_index u' = ul_log_index u ∧ ul_htlc_counter u' = ul_htlc_counter u.
Proof.
  revert u v. induction xs as [|x xs IH]; intros u v Hu Hx Hnd Hnew.
  { exists u, v, []. simpl. split_and!; try done.
    - split; [done | by rewrite app_nil_r | done].
    - apply marked_nil. }
  destruct (Hx x) as (Hpx & Hna & Hxl); [by left|].
  destruct (update_to_pay_desc_ok Remote v rh x x eq_refl Hpx) as (pd & E & Es & Hf).
  pose proof (shape_log _ _ Es) as El. pose proof (shape_is_add _ _ Es) as Ea.
  cbn [fold_result]. unfold restore_peer_local_update at 1, local_log_update_to_pay_desc. cbn [dual_local dual_remote].
  unfold not_add in Hna. rewrite Hna, E. cbn [rbind]. apply negb_true_iff in Hna.
  destruct (restore_update_ok u Hu pd) as (Hu1 & Elist & Ei & Ec & Em); [by rewrite Ea | | by rewrite El |].
  { rewrite El. apply Hnew. by left. }
  simpl in Hnd. apply NoDup_cons in Hnd as [Hnx Hnd].
  set (v1 := if is_resolution x then mark_htlc_modified (pd_parent_index x) v else v).
  assert (mark_parent Remote pd (modify_for_party (Dual u v) Local (restore_update pd)) = Dual (restore_update pd u) v1) as ->.
  { rewrite mark_parent_at. unfold v1. simpl. rewrite (shape_is_resolution _ _ Es).
    destruct (is_resolution x) eqn:Hr; [|done]. by rewrite (shape_parent _ _ Es Hr). }
  cbn [rbind]. destruct (IH (restore_update pd u) v1 Hu1) as (u' & v' & pds & E' & Hl & Hm & Hpds & Hfr & Ei' & Ec').
  - intros y Hy. destruct (Hx y) as (Hp & Hy1 & Hb); [by right|]. rewrite Ei. split; [|done]. unfold v1. by destruct (is_resolution x).
  - done.
  - intros y Hy. eapply no_update_push; [exact Elist | apply Hnew; by right |].
    intros _ Heq. apply Hnx. rewrite <-El, Heq. apply list_elem_of_fmap. by exists y.
  - exists u', v', (pd :: pds). split; [exact E'|]. split.
    { apply (longer_trans u (restore_update pd u) u' [pd] pds); [|done]. by eapply longer_push. }
    split; [by eapply marked_cons|]. split; [by constructor|]. split; [by constructor|]. by rewrite Ei', Ec'.
Qed.
