(* ===== verification/ChannelRestart.v ===== *)
(** * A channel read back

    The record of a channel always gives a channel back, with the commitments
    that were saved and the updates that are not done with, and the invariants
    hold of it. *)

From S2P Require Import Prelude Chainfee Shachain UpdateLog Channel ChannelLog ChannelView ChannelInv ChannelCommit.
From S2P Require Import ChannelRestore ChannelKept ChannelReadLogs.

(** ** The HTLCs of a commitment *)

Definition resolved_at (lc : channel) (p : channel_party) (c : commitment) (i : Z) : bool :=
  existsb (λ r, is_resolution r && (pd_log_index r <? idx c (counter_party p)) && (pd_parent_index r =? i))
    (bares lc (counter_party p)).
Definition open_at (lc : channel) (p : channel_party) (c : commitment) (b : payment_descriptor) : bool :=
  is_add b && (pd_log_index b <? idx c p) && negb (resolved_at lc p c (pd_htlc_index b)).

Lemma resolved_at_true lc p c i : resolved_at lc p c i = true ↔
  ∃ r, r ∈ bares lc (counter_party p) ∧ is_resolution r = true ∧ pd_log_index r < idx c (counter_party p) ∧ pd_parent_index r = i.
Proof.
  unfold resolved_at. rewrite existsb_exists. split.
  - intros (r & Hin & [[Hr Hlt%Z.ltb_lt]%andb_true_iff He%Z.eqb_eq]%andb_true_iff). exists r.
    split; [by apply list_elem_of_In | done].
  - intros (r & Hin & Hr & Hlt & He). exists r. split; [by apply list_elem_of_In|].
    by rewrite Hr, (proj2 (Z.ltb_lt _ _) Hlt), He, Z.eqb_refl.
Qed.

Lemma open_at_true lc p c b : open_at lc p c b = true ↔
  is_add b = true ∧ pd_log_index b < idx c p ∧ resolved_at lc p c (pd_htlc_index b) = false.
Proof. unfold open_at. rewrite !andb_true_iff, Z.ltb_lt, negb_true_iff. tauto. Qed.

Lemma keys_shapes (l k : list payment_descriptor) :
  keys l = keys k → (∀ x y, x ∈ l → y ∈ k → pd_htlc_index x = pd_htlc_index y → shape x = shape y) →
  map shape l = map shape k.
Proof.
  revert k. induction l as [|x l IH]; intros [|y k] E H; try done. simpl in E |- *. injection E as Ei _ E.
  f_equal; [apply H; [by left | by left | done]|]. apply IH; [done|]. intros a b Ha Hb. apply H; by right.
Qed.

Section Restart.
Context {HP : HashPrims} (t n : Z) (lc : channel).
Hypothesis Hok : chan_ok t n lc.
Hypothesis H : kept lc.

Lemma resolved_below p i j : 
  (∃ r, r ∈ bares lc p ∧ is_resolution r = true ∧ pd_log_index r < j ∧ pd_parent_index r = i) ↔
  i ∈ parents_below j (log_of lc p).
Proof using.
  rewrite parents_below_elem. split.
  - intros (r & (k & r0 & Hin & ->)%elem_of_bares & Hr & Hlt & He). rewrite bare_parent in He by done. by exists k, r0.
  - intros (k & r & Hin & Hr & Hlt & He). exists (bare r). split; [by eapply bares_intro|]. by rewrite bare_parent.
Qed.

Lemma open_bares c p :
  map bare (open_htlcs (log_of lc p) (log_of lc (counter_party p)) (idx c p) (idx c (counter_party p))).*2 =
  List.filter (open_at lc p c) (bares lc p).
Proof using.
  unfold open_htlcs, bares, ul_values. rewrite <-!list_fmap_compose, bfilter_map. f_equal. apply bfilter_ext.
  intros [k pd] _. cbn [compose snd]. unfold open_at. rewrite bare_is_add. change (pd_log_index (bare pd)) with (pd_log_index pd).
  destruct (is_add pd) eqn:Ha; [|by rewrite !andb_false_r]. rewrite bare_htlc by done.
  destruct (pd_log_index pd <? idx c p); [|done]. cbn [andb]. f_equal.
  apply eq_true_iff_eq. rewrite bool_decide_eq_true, resolved_at_true. symmetry. apply resolved_below.
Qed.

Lemma commit_shapes w c p :
  c ∈ chain_list (chain_of lc w) → map shape (htlcs_of c p) = map shape (List.filter (open_at lc p c) (bares lc p)).
Proof using Hok H.
  intros Hc. pose proof (ck_live _ _ _ Hok w c Hc) as Hl. apply (reflects_party lc c p) in Hl as [E _].
  rewrite <-open_bares, map_bare_shape. apply keys_shapes; [exact E|].
  intros x y Hx Hy He. rewrite <-(shape_bare y).
  assert (bare y ∈ List.filter (open_at lc p c) (bares lc p)) as [Hb Hop]%elem_of_bfilter.
  { rewrite <-open_bares. apply list_elem_of_fmap. by exists y. }
  apply open_at_true in Hop as (Ha & _). apply (kp_like _ H w c p); [done..|]. by rewrite bare_htlc.
Qed.

(** ** Entries, bare *)

Lemma bare_add_unique p a b :
  a ∈ bares lc p → b ∈ bares lc p → is_add a = true → is_add b = true → pd_htlc_index a = pd_htlc_index b → a = b.
Proof using Hok.
  intros (k & x & Hx & ->)%elem_of_bares (k' & y & Hy & ->)%elem_of_bares Ha Hb He.
  rewrite !bare_htlc in He by done.
  by destruct (add_unique _ k k' x y (pair_log_ok lc p (ck_logs _ _ _ Hok)) Hx Hy) as [_ ->].
Qed.

Lemma bare_resolution_unique p a b :
  a ∈ bares lc p → b ∈ bares lc p → is_resolution a = true → is_resolution b = true →
  pd_parent_index a = pd_parent_index b → a = b.
Proof using Hok.
  intros (k & x & Hx & ->)%elem_of_bares (k' & y & Hy & ->)%elem_of_bares Ha Hb He.
  rewrite !bare_parent in He by done. pose proof (ck_logs _ _ _ Hok) as P%(pair_ok_party _ p).
  pose proof (co_once _ _ (po_cross _ _ P) _ _ _ _ Hx Hy Ha Hb He) as ->.
  by rewrite (nodup_fst_inj _ _ _ _ (lo_nodes _ (po_left _ _ P)) Hx Hy).
Qed.

Lemma bare_resolves p r :
  r ∈ bares lc p → is_resolution r = true →
  ∃ a, a ∈ bares lc (counter_party p) ∧ is_add a = true ∧ pd_htlc_index a = pd_parent_index r ∧
    pd_amount a = pd_amount r ∧ (pd_entry_type r = Settle → pd_rhash a = sha256 (pd_rpreimage r)).
Proof using Hok.
  intros (k & x & Hx & ->)%elem_of_bares Hr. rewrite bare_is_resolution in Hr.
  pose proof (ck_logs _ _ _ Hok) as P%(pair_ok_party _ p).
  destruct (co_parent _ _ (po_cross _ _ P) _ _ Hx Hr) as (m & a & Ha & Hadd & Hi & Hamt & Hpre).
  exists (bare a). split; [by eapply bares_intro|]. rewrite bare_is_add, bare_htlc, bare_parent by done.
  rewrite (bare_amount a) by (by apply add_not_fee). rewrite (bare_amount x) by (by apply resolution_not_fee).
  split; [done|]. split; [done|]. split; [done|]. intros Ht. change (pd_entry_type (bare x)) with (pd_entry_type x) in Ht.
  unfold bare. simpl. rewrite Hadd, Ht. simpl. by apply Hpre.
Qed.

Lemma bare_log_bound p b : b ∈ bares lc p → 0 ≤ pd_log_index b < ul_log_index (log_of lc p).
Proof using Hok. intros Hb. by apply (bare_bound t n lc Hok p b Hb). Qed.

(** ** The chains that are left *)

Local Notation rt := (tail (chain_of lc Remote)).
Local Notation lt := (tail (chain_of lc Local)).

Lemma pending_cases :
  rest (chain_of lc Remote) = [] ∧ oc_commit_diff (lc_channel_state lc) = None ∧ tip (chain_of lc Remote) = rt ∨
  ∃ c d, rest (chain_of lc Remote) = [c] ∧ oc_commit_diff (lc_channel_state lc) = Some d ∧ tip (chain_of lc Remote) = c ∧
    disk_commit_to_mem_commit (lc_params lc) Remote c = disk_commit_to_mem_commit (lc_params lc) Remote (cd_commitment d).
Proof using H.
  pose proof (kp_pending _ H) as E. unfold tip.
  destruct (rest (chain_of lc Remote)) as [|c [|]], (oc_commit_diff (lc_channel_state lc)) as [d|]; try done; [by left|].
  right. exists c, d. split_and!; try done. exact (f_equal (List.hd (cd_commitment d)) E).
Qed.

(** The height of an entry at index [i] of the log of [p]. *)
Definition due (w p : channel_party) (i : Z) : Z :=
  match w with
  | Local => if i <? idx lt p then cm_height lt else 0
  | Remote =>
      if i <? idx rt p then cm_height rt
      else match rest (chain_of lc Remote) with
           | c :: _ => if i <? idx c p then cm_height c else 0
           | [] => 0
           end
  end.

Lemma in_order_local p : idx lt Local ≤ idx rt Local ∧ idx rt Remote ≤ idx lt Remote ∧ idx rt p ≤ idx (tip (chain_of lc Remote)) p ∧
  idx (tip (chain_of lc Remote)) Remote ≤ idx lt Remote.
Proof using Hok.
  destruct (ck_order _ _ _ Hok) as [O1 O2].
  pose proof (chain_idx _ _ Local (ck_chain _ _ _ Hok Local) (tail_elem _)).
  pose proof (chain_idx _ _ Remote (ck_chain _ _ _ Hok Remote) (tail_elem _)).
  pose proof (chain_idx _ _ p (ck_chain _ _ _ Hok Remote) (tail_elem _)). lia.
Qed.

(** *** What the record has of the resolutions *)

Lemma resolved_ids_elem l i :
  i ∈ resolved_ids l ↔ ∃ r, r ∈ List.filter is_resolution (map shape l) ∧ pd_parent_index r = i.
Proof using.
  unfold resolved_ids. rewrite bfilter_shape by done. rewrite list_elem_of_fmap. split.
  - intros (x & -> & Hx). exists (shape x). split; [by apply list_elem_of_fmap; exists x|].
    apply elem_of_bfilter in Hx as [_ Hx]. unfold shape, bare. simpl. by rewrite Hx.
  - intros (r & (x & -> & Hx)%list_elem_of_fmap & <-). exists x. split; [|done].
    apply elem_of_bfilter in Hx as [_ Hx]. unfold shape, bare. simpl. by rewrite Hx.
Qed.

Lemma resolutions_not_adds (l : list payment_descriptor) : List.filter is_resolution (List.filter not_add l) = List.filter is_resolution l.
Proof using.
  rewrite bfilter_bfilter. apply bfilter_ext. intros b _. unfold not_add. destruct (is_resolution b) eqn:Hr; [|apply andb_false_r].
  by rewrite (resolution_not_add _ Hr).
Qed.

Lemma between_resolutions i j l k :
  (∃ r, r ∈ List.filter is_resolution (map shape (List.filter not_add (between i j l))) ∧ pd_parent_index r = k) ↔
  ∃ r, r ∈ l ∧ is_resolution r = true ∧ i ≤ pd_log_index r < j ∧ pd_parent_index r = k.
Proof using.
  rewrite bfilter_shape, resolutions_not_adds by done. unfold between. rewrite bfilter_bfilter. split.
  - intros (r & (x & -> & Hx)%list_elem_of_fmap & <-). apply elem_of_bfilter in Hx as [Hin Hx].
    apply andb_true_iff in Hx as [[Hi%Z.leb_le Hj%Z.ltb_lt]%andb_true_iff Hr]. exists x.
    split; [done|]. split; [done|]. split; [lia|]. unfold shape, bare. simpl. by rewrite Hr.
  - intros (r & Hin & Hr & [Hi Hj] & <-). exists (shape r). split; [|unfold shape, bare; simpl; by rewrite Hr].
    apply list_elem_of_fmap. exists r. split; [done|]. apply elem_of_bfilter. split; [done|].
    by rewrite Hr, (proj2 (Z.leb_le _ _) Hi), (proj2 (Z.ltb_lt _ _) Hj).
Qed.

Lemma acked_resolutions i : i ∈ resolved_ids (default [] (oc_unsigned_acked_updates (lc_channel_state lc))) ↔
  ∃ r, r ∈ bares lc Remote ∧ is_resolution r = true ∧ idx rt Remote ≤ pd_log_index r < idx lt Remote ∧ pd_parent_index r = i.
Proof using H.
  rewrite resolved_ids_elem, <-between_resolutions. rewrite bfilter_shape, <-resolutions_not_adds, <-bfilter_shape by done.
  by rewrite (kp_acked _ H).
Qed.

Lemma unsigned_resolutions i : i ∈ resolved_ids (default [] (oc_remote_unsigned_local_updates (lc_channel_state lc))) ↔
  ∃ r, r ∈ bares lc Local ∧ is_resolution r = true ∧ idx lt Local ≤ pd_log_index r < idx rt Local ∧ pd_parent_index r = i.
Proof using H. rewrite resolved_ids_elem, <-between_resolutions. by rewrite (kp_resolutions _ H). Qed.

Lemma shapes_htlcs l k : map shape l = map shape k → (∀ b, b ∈ k → is_add b = true) →
  map pd_htlc_index l = map pd_htlc_index k ∧ ∀ x, x ∈ l → is_add x = true.
Proof using.
  rewrite map_shape_Forall2. induction 1 as [|x b l k Hx _ IH]; intros Hk; [by split; [|intros x ?%elem_of_nil]|].
  assert (is_add b = true) as Hb by (apply Hk; by left).
  destruct IH as [IH1 IH2]; [intros y Hy; apply Hk; by right|]. split.
  - simpl. by rewrite IH1, (shape_htlc _ _ Hx Hb).
  - intros y [->|Hy]%elem_of_cons; [by rewrite (shape_is_add _ _ Hx) | by apply IH2].
Qed.

Lemma commit_htlcs w c p : c ∈ chain_list (chain_of lc w) →
  map pd_htlc_index (htlcs_of c p) = map pd_htlc_index (List.filter (open_at lc p c) (bares lc p)) ∧
  ∀ x, x ∈ htlcs_of c p → is_add x = true.
Proof using Hok H.
  intros Hc. apply shapes_htlcs; [by apply (commit_shapes w)|]. by intros b [_ (Ha & _)%open_at_true]%elem_of_bfilter.
Qed.

Lemma commit_ids w c p i : c ∈ chain_list (chain_of lc w) →
  i ∈ map pd_htlc_index (htlcs_of c p) ↔ ∃ b, b ∈ bares lc p ∧ open_at lc p c b = true ∧ pd_htlc_index b = i.
Proof using Hok H.
  intros Hc. rewrite (proj1 (commit_htlcs w c p Hc)), list_elem_of_fmap. setoid_rewrite elem_of_bfilter. naive_solver.
Qed.

(** *** The heights of the HTLCs that are read back *)

Lemma note_heights_lookup h l m i : note_heights h l m !! i = if bool_decide (i ∈ l) then Some h else m !! i.
Proof using.
  unfold note_heights. revert m. induction l as [|x l IH]; intros m; simpl; [done|].
  rewrite IH. case_bool_decide as Hi; case_bool_decide as Hi'; try done.
  - destruct Hi'. by right.
  - apply elem_of_cons in Hi' as [->|]; [|done]. by rewrite lookup_insert_eq.
  - rewrite lookup_insert_ne; [done|]. intros ->. apply Hi'. by left.
Qed.

Lemma mem_fields w c c' : disk_commit_to_mem_commit (lc_params lc) w c = disk_commit_to_mem_commit (lc_params lc) w c' →
  cm_height c = cm_height c' ∧ (∀ q, idx c q = idx c' q) ∧ (∀ q, map pd_htlc_index (htlcs_of c q) = map pd_htlc_index (htlcs_of c' q)) ∧
  (∀ q, map disk_htlc_to_pay_desc (htlcs_of c q) = map disk_htlc_to_pay_desc (htlcs_of c' q)) ∧ (∀ q, count_of c q = count_of c' q).
Proof using.
  intros E. assert (∀ q, map disk_htlc_to_pay_desc (htlcs_of c q) = map disk_htlc_to_pay_desc (htlcs_of c' q)) as Eh.
  { intros []; [exact (f_equal cm_outgoing E) | exact (f_equal cm_incoming E)]. }
  split_and!; [exact (f_equal cm_height E) | | | done |].
  - intros q. unfold idx. pose proof (f_equal cm_message_indices E) as Ei. simpl in Ei. by rewrite Ei.
  - intros q. pose proof (f_equal (map pd_htlc_index) (Eh q)) as Ei. by rewrite !map_map in Ei.
  - intros []; [exact (f_equal cm_our_htlc_index E) | exact (f_equal cm_their_htlc_index E)].
Qed.

(** An HTLC of ours that is open on the peer's commitment: our commitment has
    or had it where it is below the index. *)
Lemma outgoing_heights b :
  b ∈ bares lc Local → open_at lc Local rt b = true →
  default 0 (outgoing_local_add_heights lt (default [] (oc_unsigned_acked_updates (lc_channel_state lc))) !! pd_htlc_index b) =
  due Local Local (pd_log_index b).
Proof using Hok H.
  intros Hb (Ha & Hlt & Hopen)%open_at_true. unfold outgoing_local_add_heights. rewrite !note_heights_lookup, lookup_empty.
  assert (lt ∈ chain_list (chain_of lc Local)) as Hl by apply tail_elem.
  pose proof (commit_ids Local lt Local (pd_htlc_index b) Hl) as Hids. cbn [htlcs_of] in Hids.
  destruct (pd_log_index b <? idx lt Local) eqn:Ei; unfold due; rewrite Ei; [apply Z.ltb_lt in Ei | apply Z.ltb_ge in Ei].
  - destruct (resolved_at lc Local lt (pd_htlc_index b)) eqn:Er.
    + rewrite bool_decide_eq_true_2; [done|]. apply acked_resolutions.
      apply resolved_at_true in Er as (r & Hr & Hres & Hrlt & Hp). exists r. split_and!; try done.
      destruct (decide (idx rt Remote ≤ pd_log_index r)) as [|Hn]; [done|]. exfalso.
      assert (resolved_at lc Local rt (pd_htlc_index b) = true) as Hbad; [|congruence].
      apply resolved_at_true. exists r. split_and!; try done. cbn [counter_party] in *. lia.
    + rewrite (bool_decide_eq_true_2 (_ ∈ map _ _)); [by case_bool_decide|]. apply Hids. exists b.
      split; [done|]. split; [|done]. by apply open_at_true.
  - rewrite !bool_decide_eq_false_2; [done| |].
    + intros (b' & Hb' & (Ha' & Hlt' & _)%open_at_true & He)%Hids.
      rewrite (bare_add_unique Local b' b Hb' Hb Ha' Ha He) in Hlt'. lia.
    + intros (r & Hr & Hres & [_ Hrlt] & Hp)%acked_resolutions.
      pose proof (kp_parent _ H Local lt Remote r b Hl Hr Hres Hrlt Hb Ha (eq_sym Hp)) as Hx. cbn [counter_party] in Hx. lia.
Qed.

Definition pending_commit : option commitment := List.hd_error (rest (chain_of lc Remote)).

Lemma incoming_heights b :
  b ∈ bares lc Remote → open_at lc Remote lt b = true →
  default 0 (incoming_remote_add_heights rt pending_commit (default [] (oc_remote_unsigned_local_updates (lc_channel_state lc)))
    !! pd_htlc_index b) = due Remote Remote (pd_log_index b).
Proof using Hok H.
  intros Hb (Ha & Hlt & Hopen)%open_at_true. unfold incoming_remote_add_heights. rewrite !note_heights_lookup.
  assert (rt ∈ chain_list (chain_of lc Remote)) as Hr' by apply tail_elem.
  pose proof (commit_ids Remote rt Remote (pd_htlc_index b) Hr') as Hids. cbn [htlcs_of] in Hids.
  destruct (pd_log_index b <? idx rt Remote) eqn:Ei; unfold due; rewrite Ei; [apply Z.ltb_lt in Ei | apply Z.ltb_ge in Ei].
  - destruct (resolved_at lc Remote rt (pd_htlc_index b)) eqn:Er.
    + rewrite bool_decide_eq_true_2; [done|]. apply unsigned_resolutions.
      apply resolved_at_true in Er as (r & Hr & Hres & Hrlt & Hp). exists r. split_and!; try done.
      destruct (decide (idx lt Local ≤ pd_log_index r)) as [|Hn]; [done|]. exfalso.
      assert (resolved_at lc Remote lt (pd_htlc_index b) = true) as Hbad; [|congruence].
      apply resolved_at_true. exists r. split_and!; try done. cbn [counter_party] in *. lia.
    + rewrite (bool_decide_eq_true_2 (_ ∈ map _ _)); [by case_bool_decide|]. apply Hids. exists b.
      split; [done|]. split; [|done]. by apply open_at_true.
  - rewrite !bool_decide_eq_false_2; cycle 1.
    + intros (b' & Hb' & (Ha' & Hlt' & _)%open_at_true & He)%Hids.
      rewrite (bare_add_unique Remote b' b Hb' Hb Ha' Ha He) in Hlt'. lia.
    + intros (r & Hr & Hres & [_ Hrlt] & Hp)%unsigned_resolutions.
      pose proof (kp_parent _ H Remote rt Local r b Hr' Hr Hres Hrlt Hb Ha (eq_sym Hp)) as Hx. cbn [counter_party] in Hx. lia.
    + unfold pending_commit. destruct (rest (chain_of lc Remote)) as [|c l] eqn:Erest; cbn [List.hd_error]; [by rewrite lookup_empty|].
      rewrite note_heights_lookup, lookup_empty.
      assert (c ∈ chain_list (chain_of lc Remote)) as Hc by (unfold chain_list; rewrite Erest; set_solver).
      pose proof (commit_ids Remote c Remote (pd_htlc_index b) Hc) as Hcids. cbn [htlcs_of] in Hcids.
      destruct (pd_log_index b <? idx c Remote) eqn:Ec; [apply Z.ltb_lt in Ec | apply Z.ltb_ge in Ec].
      * rewrite bool_decide_eq_true_2; [done|]. apply Hcids. exists b. split; [done|]. split; [|done]. apply open_at_true.
        split; [done|]. split; [done|]. destruct (resolved_at lc Remote c _) eqn:Er; [|done]. exfalso.
        apply resolved_at_true in Er as (r & Hr & Hres & Hrlt & Hp).
        assert (pd_log_index b < idx rt Remote); [|lia].
        apply (kp_before _ H c Local r b); try done. rewrite Erest. by left.
      * rewrite bool_decide_eq_false_2; [done|]. intros (b' & Hb' & (Ha' & Hlt' & _)%open_at_true & He)%Hcids.
        rewrite (bare_add_unique Remote b' b Hb' Hb Ha' Ha He) in Hlt'. lia.
Qed.

(** ** The HTLCs that are read back *)

Definition read_as (p : channel_party) (x b : payment_descriptor) : Prop :=
  shape x = shape b ∧ heights_ok x ∧ ∀ w, height_on w x = due w p (pd_log_index b).

Lemma Forall2_right {A B} (P Q : A → B → Prop) l k :
  (∀ x y, y ∈ k → P x y → Q x y) → Forall2 P l k → Forall2 Q l k.
Proof using.
  intros HPQ. induction 1 as [|x y l k Hx _ IH]; constructor; [apply HPQ; [by left | done]|].
  apply IH. intros a b Hb. apply HPQ. by right.
Qed.

Lemma Forall2_map_l {A B C} (P : C → B → Prop) (f : A → C) l k : Forall2 (λ x y, P (f x) y) l k → Forall2 P (map f l) k.
Proof using. induction 1; by constructor. Qed.

Definition restored_list (hl hr : Z → Z) (l : list payment_descriptor) : list payment_descriptor :=
  map (λ x, restored_htlc (hl (pd_htlc_index x)) (hr (pd_htlc_index x)) (disk_htlc_to_pay_desc x)) l.

Lemma restored_entry hl hr x :
  is_add x = true → let y := restored_htlc hl hr (disk_htlc_to_pay_desc x) in
  shape y = shape x ∧ heights_ok y ∧ height_on Local y = hl ∧ height_on Remote y = hr.
Proof using.
  intros Ha y. assert (is_add y = true) as Hy by exact Ha. assert (is_resolution y = false) as Hr.
  { destruct (is_resolution y) eqn:E; [|done]. apply resolution_not_add in E. congruence. }
  split_and!.
  - unfold shape, bare. rewrite Ha, Hy, Hr.
    assert (is_resolution x = false) as -> by exact Hr. change (pd_entry_type y) with (pd_entry_type x).
    pose proof (add_not_fee _ Ha) as Hf. rewrite !(bool_decide_eq_false_2 (pd_entry_type x = FeeUpdate)) by done.
    rewrite !(bool_decide_eq_false_2 (pd_entry_type x = Settle)); [done|].
    intros Hs. unfold is_add in Ha. by rewrite Hs in Ha.
  - split; intros w; [intros _; by destruct w | congruence | intros Ht; by apply add_not_fee in Hy].
  - unfold height_on. by rewrite Hy.
  - unfold height_on. by rewrite Hy.
Qed.

Lemma restored_read c w p hl hr :
  c ∈ chain_list (chain_of lc w) →
  (∀ b, b ∈ bares lc p → open_at lc p c b = true →
     hl (pd_htlc_index b) = due Local p (pd_log_index b) ∧ hr (pd_htlc_index b) = due Remote p (pd_log_index b)) →
  Forall2 (read_as p) (restored_list hl hr (htlcs_of c p)) (List.filter (open_at lc p c) (bares lc p)).
Proof using Hok H.
  intros Hc Hh. pose proof (commit_shapes w c p Hc) as E. apply map_shape_Forall2 in E.
  apply Forall2_map_l. eapply Forall2_right; [|exact E]. intros x b [Hb Hop]%elem_of_bfilter Hs.
  pose proof Hop as (Ha & _)%open_at_true. assert (is_add x = true) as Hx by (by rewrite (shape_is_add _ _ Hs)).
  rewrite (shape_htlc _ _ Hs Ha). destruct (Hh b Hb Hop) as [-> ->].
  destruct (restored_entry (due Local p (pd_log_index b)) (due Remote p (pd_log_index b)) x Hx) as (H1 & H2 & H3 & H4).
  split; [by rewrite H1|]. split; [done|]. by intros [].
Qed.

Lemma open_nodup c p : NoDup (map pd_htlc_index (List.filter (open_at lc p c) (bares lc p))).
Proof using Hok H.
  apply (NoDup_fmap_2_strong pd_htlc_index).
  - intros a b [Ha (Ha' & _)%open_at_true]%elem_of_bfilter [Hb (Hb' & _)%open_at_true]%elem_of_bfilter He.
    by apply (bare_add_unique p).
  - pose proof (kp_sorted _ H p) as Hs.
    assert (List.filter (open_at lc p c) (bares lc p) = List.filter (open_at lc p c) (List.filter is_add (bares lc p))) as ->.
    { rewrite bfilter_bfilter. apply bfilter_ext. intros b _. unfold open_at. by destruct (is_add b). }
    assert (StronglySorted (λ a b, pd_log_index a < pd_log_index b)
      (List.filter (open_at lc p c) (List.filter is_add (bares lc p)))) as Hs' by (eapply sorted_sublist; [apply bfilter_sublist | done]).
    induction Hs' as [|a l Hl IH Ha]; [by constructor|]. constructor; [|done].
    intros Hin. rewrite Forall_forall in Ha. specialize (Ha a Hin). lia.
Qed.

Lemma count_open c p : c ∈ chain_list (chain_of lc (counter_party p)) →
  Forall (λ b, is_add b = true ∧ 0 ≤ pd_log_index b < idx c p ∧ 0 ≤ pd_htlc_index b < count_of c p)
    (List.filter (open_at lc p c) (bares lc p)).
Proof using Hok H.
  intros Hc. apply Forall_forall. intros b [Hb (Ha & Hlt & _)%open_at_true]%elem_of_bfilter.
  destruct (bare_bound t n lc Hok p b Hb) as (B1 & B2 & _). destruct (kp_count _ H p c Hc) as [_ Hcnt].
  specialize (B2 Ha). specialize (Hcnt b Hb Ha Hlt). split; [done|]. split; lia.
Qed.

(** The log of [p] with the HTLCs of the commitment [c] of the other party. *)
Lemma restored_htlcs c p hl hr u :
  c ∈ chain_list (chain_of lc (counter_party p)) → u = new_update_log (idx c p) (count_of c p) →
  (∀ b, b ∈ bares lc p → open_at lc p c b = true →
     hl (pd_htlc_index b) = due Local p (pd_log_index b) ∧ hr (pd_htlc_index b) = due Remote p (pd_log_index b)) →
  let l := restored_list hl hr (htlcs_of c p) in
  let u' := foldl (λ u pd, restore_htlc pd u) u l in
  log_ok u' ∧ ul_values u' = l ∧ Forall2 (read_as p) l (List.filter (open_at lc p c) (bares lc p)) ∧
  ul_log_index u' = idx c p ∧ ul_htlc_counter u' = count_of c p.
Proof using Hok H.
  intros Hc -> Hh l u'. pose proof (restored_read c (counter_party p) p hl hr Hc Hh) as Hr. fold l in Hr.
  pose proof (count_open c p Hc) as Hcnt. destruct (kp_count _ H p c Hc) as [Hcn _].
  assert (map shape l = map shape (List.filter (open_at lc p c) (bares lc p))) as Es.
  { apply map_shape_Forall2. eapply Forall2_impl; [exact Hr|]. by intros x b [? _]. }
  destruct (shapes_htlcs _ _ Es) as [Ei Ea].
  { by intros b [_ (Ha & _)%open_at_true]%elem_of_bfilter. }
  destruct (kp_zero _ H (counter_party p) c p Hc) as [Hi0 _].
  destruct (restore_htlcs_ok l (new_update_log (idx c p) (count_of c p))) as (L & E1 & E2).
  - apply new_log_ok; lia.
  - simpl. clear -Hr Hcnt. induction Hr as [|x b l k [Hx _] _ IH]; [by constructor|].
    apply Forall_cons in Hcnt as [(Ha & Hl & Hh) Hcnt]. constructor; [|by apply IH].
    rewrite (shape_is_add _ _ Hx), (shape_log _ _ Hx), (shape_htlc _ _ Hx Ha). done.
  - rewrite Ei. apply open_nodup.
  - by intros k a pd ?%elem_of_nil.
  - split; [apply (lg_ok _ _ _ L)|]. split; [apply (lg_values _ _ _ L)|]. done.
Qed.

(** ** Windows *)

Lemma filter_seqZ i m j : i ≤ j ≤ i + m → List.filter (λ x, x <? j) (seqZ i m) = seqZ i (j - i).
Proof using.
  intros Hj. replace m with ((j - i) + (i + m - j)) by lia. rewrite seqZ_app, List.filter_app by lia.
  rewrite bfilter_all, bfilter_none; [by rewrite app_nil_r|..].
  - intros x Hx%elem_of_seqZ. apply Z.ltb_ge. lia.
  - intros x Hx%elem_of_seqZ. apply Z.ltb_lt. lia.
Qed.

Lemma split_seqZ (l : list payment_descriptor) i m j :
  map pd_log_index l = seqZ i m → i ≤ j →
  l = List.filter (λ b, pd_log_index b <? j) l ++ List.filter (λ b, j <=? pd_log_index b) l.
Proof using.
  revert i m. induction l as [|b l IH]; intros i m Hl Hj; [done|]. cbn [map List.filter] in Hl |- *.
  assert (0 < m) as Hm.
  { destruct (decide (0 < m)); [done|]. rewrite seqZ_nil in Hl by lia. done. }
  rewrite seqZ_cons in Hl by done. injection Hl as Hb Hl.
  destruct (Z.ltb_spec (pd_log_index b) j).
  - rewrite (proj2 (Z.leb_gt _ _)) by lia. simpl. f_equal. apply (IH (Z.succ i) (Z.pred m)); [done | lia].
  - rewrite (proj2 (Z.leb_le _ _)) by lia. rewrite bfilter_none; [simpl; f_equal; symmetry; apply bfilter_all|];
      intros x Hx; (assert (pd_log_index x ∈ map pd_log_index l) as Hin by (apply list_elem_of_fmap; by exists x));
      rewrite Hl in Hin; apply elem_of_seqZ in Hin; [apply Z.leb_le | apply Z.ltb_ge]; lia.
Qed.

Lemma above_filter i j l : i ≤ j → List.filter (λ b, pd_log_index b <? j) (above i l) = between i j l ∧
  List.filter (λ b, j <=? pd_log_index b) (above i l) = above j l.
Proof using.
  intros Hj. unfold above, between. rewrite !bfilter_bfilter. split; [done|]. apply bfilter_ext. intros b _.
  destruct (Z.leb_spec i (pd_log_index b)), (Z.leb_spec j (pd_log_index b)); try done; lia.
Qed.

Local Notation tp := (tip (chain_of lc Remote)).

(** Our updates that are on the peer's newest commitment only. *)
Definition pending_updates : list payment_descriptor := between (idx rt Local) (idx tp Local) (bares lc Local).

Lemma pending_window :
  map pd_log_index pending_updates = seqZ (idx rt Local) (Z.of_nat (length pending_updates)) ∧
  Z.of_nat (length pending_updates) = idx tp Local - idx rt Local ∧
  map pd_htlc_index (List.filter is_add pending_updates) = seqZ (count_of rt Local) (n_adds pending_updates) ∧
  n_adds pending_updates = count_of tp Local - count_of rt Local.
Proof using Hok H.
  assert (rt ∈ chain_list (chain_of lc Remote)) as Hrt by apply tail_elem.
  assert (tp ∈ chain_list (chain_of lc Remote)) as Htp by apply tip_elem.
  destruct (kp_above _ H rt Hrt) as [A1 A2]. destruct (kp_above _ H tp Htp) as [B1 B2].
  destruct (kp_count _ H Local rt Hrt) as [C1 _]. destruct (kp_count _ H Local tp Htp) as [C2 _]. cbn [count_of] in *.
  pose proof (chain_idx _ _ Local (ck_chain _ _ _ Hok Remote) Hrt) as [_ Hle].
  pose proof (ck_own _ _ _ Hok Remote Local) as Hown. 
  destruct (above_filter (idx rt Local) (idx tp Local) (bares lc Local) Hle) as [F1 F2]. fold pending_updates in F1.
  pose proof (split_seqZ _ _ _ (idx tp Local) A1 Hle) as Esplit. rewrite F1, F2 in Esplit.
  assert (map pd_log_index pending_updates = seqZ (idx rt Local) (idx tp Local - idx rt Local)) as E1.
  { rewrite <-F1. rewrite <-(filter_seqZ _ (ul_log_index (log_of lc Local) - idx rt Local)) by lia.
    rewrite <-A1. by rewrite bfilter_map. }
  assert (Z.of_nat (length pending_updates) = idx tp Local - idx rt Local) as E2.
  { rewrite <-(length_map pd_log_index), E1, length_seqZ. lia. }
  rewrite Esplit, List.filter_app, map_app, B2 in A2.
  assert (n_adds pending_updates = cm_our_htlc_index tp - cm_our_htlc_index rt) as E3.
  { pose proof (f_equal length A2) as El. rewrite length_app, length_map, !length_seqZ in El. unfold n_adds. lia. }
  split; [by rewrite E2|]. split; [done|]. split; [|done].
  rewrite E3. replace (ul_htlc_counter (log_of lc Local) - cm_our_htlc_index rt) with
    ((cm_our_htlc_index tp - cm_our_htlc_index rt) + (ul_htlc_counter (log_of lc Local) - cm_our_htlc_index tp)) in A2 by lia.
  assert (0 ≤ n_adds pending_updates) by (unfold n_adds; lia). rewrite seqZ_app in A2 by lia.
  apply app_inj_1 in A2 as [A2 _]; [done|]. rewrite length_map, length_seqZ. unfold n_adds in E3. lia.
Qed.

(** ** Parents *)

(** The HTLC of the peer that a resolution of ours is for, if our commitment
    does not have the resolution yet. *)
Lemma local_parent r :
  r ∈ bares lc Local → is_resolution r = true → idx lt Local ≤ pd_log_index r < idx tp Local →
  ∃ a, a ∈ bares lc Remote ∧ open_at lc Remote lt a = true ∧ pd_htlc_index a = pd_parent_index r ∧ pd_amount a = pd_amount r.
Proof using Hok H.
  intros Hr Hres [Hlo Hhi]. destruct (bare_resolves Local r Hr Hres) as (a & Ha & Hadd & Hi & Hamt & _). cbn [counter_party] in Ha.
  exists a. split_and!; try done. apply open_at_true. split; [done|].
  pose proof (kp_parent _ H Remote tp Local r a (tip_elem _) Hr Hres Hhi Ha Hadd Hi) as Hlt. cbn [counter_party] in Hlt.
  destruct (in_order_local Remote) as (_ & _ & _ & Hord). split; [lia|].
  destruct (resolved_at lc Remote lt (pd_htlc_index a)) eqn:E; [|done]. exfalso.
  apply resolved_at_true in E as (r' & Hr' & Hres' & Hlt' & Hp'). cbn [counter_party] in *.
  rewrite (bare_resolution_unique Local r' r Hr' Hr Hres' Hres) in Hlt' by congruence. lia.
Qed.

(** And the HTLC of ours, if the peer's commitment does not have it yet. *)
Lemma remote_parent r :
  r ∈ bares lc Remote → is_resolution r = true → idx rt Remote ≤ pd_log_index r < idx lt Remote →
  ∃ a, a ∈ bares lc Local ∧ open_at lc Local rt a = true ∧ pd_htlc_index a = pd_parent_index r ∧ pd_amount a = pd_amount r.
Proof using Hok H.
  intros Hr Hres [Hlo Hhi]. destruct (bare_resolves Remote r Hr Hres) as (a & Ha & Hadd & Hi & Hamt & _). cbn [counter_party] in Ha.
  exists a. split_and!; try done. apply open_at_true. split; [done|].
  pose proof (kp_parent _ H Local lt Remote r a (tail_elem _) Hr Hres Hhi Ha Hadd Hi) as Hlt. cbn [counter_party] in Hlt.
  destruct (in_order_local Remote) as (Hord & _). split; [lia|].
  destruct (resolved_at lc Local rt (pd_htlc_index a)) eqn:E; [|done]. exfalso.
  apply resolved_at_true in E as (r' & Hr' & Hres' & Hlt' & Hp'). cbn [counter_party] in *.
  rewrite (bare_resolution_unique Remote r' r Hr' Hr Hres' Hres) in Hlt' by congruence. lia.
Qed.

(** A log whose entries begin with the HTLCs that are open at [c]. *)
Lemma parent_in_restored p c u l k b x :
  log_ok u → ul_values u = l ++ k → Forall2 (read_as p) l (List.filter (open_at lc p c) (bares lc p)) →
  shape x = shape b →
  (is_resolution b = true → ∃ a, a ∈ bares lc p ∧ open_at lc p c a = true ∧ pd_htlc_index a = pd_parent_index b ∧ pd_amount a = pd_amount b) →
  parent_in u x.
Proof using.
  intros Hu Hv Hl Hs Hp Hr. pose proof (shape_is_resolution _ _ Hs) as Hr'. rewrite Hr in Hr'. symmetry in Hr'.
  destruct (Hp Hr') as (a & Ha & Hop & Hi & Hamt).
  assert (a ∈ List.filter (open_at lc p c) (bares lc p)) as Hin by by apply elem_of_bfilter.
  apply list_elem_of_lookup in Hin as [j Hj]. destruct (Forall2_lookup_r _ _ _ _ _ Hl Hj) as (y & Hy & [Hsy _]).
  apply open_at_true in Hop as (Hadd & _).
  assert (y ∈ ul_values u) as (m & Hm)%elem_of_values.
  { rewrite Hv. apply elem_of_app. left. by eapply list_elem_of_lookup_2. }
  exists y. rewrite (shape_parent _ _ Hs Hr'), (shape_htlc _ _ Hsy Hadd), Hi. split_and!; [|done|].
  - apply lookup_htlc_Some; [done|]. exists m. split; [done|].
    by rewrite (shape_is_add _ _ Hsy), (shape_htlc _ _ Hsy Hadd), Hi.
  - rewrite (shape_amount _ _ Hsy), Hamt, (shape_amount _ _ Hs); [done | by apply resolution_not_fee | by apply add_not_fee].
Qed.

Lemma not_adds_nodup p : NoDup (map pd_log_index (List.filter not_add (bares lc p))).
Proof using Hok.
  pose proof (pair_log_ok lc p (ck_logs _ _ _ Hok)) as Hl. unfold bares, ul_values.
  rewrite <-list_fmap_compose, bfilter_map, map_map.
  apply (NoDup_fmap_2_strong (λ x : entry, pd_log_index (bare x.2))).
  - intros [k x] [k' y] [Hx Hnx]%elem_of_bfilter [Hy Hny]%elem_of_bfilter He. simpl in He.
    unfold not_add in Hnx, Hny. apply negb_true_iff in Hnx, Hny.
    assert (ul_update_index (log_of lc p) !! pd_log_index x = Some k) as E1 by (apply (lo_update _ Hl); by exists x).
    assert (ul_update_index (log_of lc p) !! pd_log_index x = Some k') as E2 by (apply (lo_update _ Hl); by exists y).
    rewrite E1 in E2. injection E2 as ->. by rewrite (nodup_fst_inj _ _ _ _ (lo_nodes _ Hl) Hx Hy).
  - pose proof (lo_nodes _ Hl) as Hn. apply NoDup_fmap_1 in Hn. eapply sublist_NoDup; [exact Hn | apply bfilter_sublist].
Qed.

Lemma window_nodup p i j : NoDup (map pd_log_index (List.filter not_add (between i j (bares lc p)))).
Proof using Hok.
  eapply sublist_NoDup; [apply (not_adds_nodup p)|]. unfold between. rewrite bfilter_comm. apply fmap_sublist, bfilter_sublist.
Qed.

Lemma shapes_logs l k : map shape l = map shape k → map pd_log_index l = map pd_log_index k.
Proof using. intros E. pose proof (f_equal (map pd_log_index) E) as E'. by rewrite !map_map in E'. Qed.

(** ** The channel that is read back *)

Definition read_at (p : channel_party) (x : payment_descriptor) : Prop :=
  heights_ok x ∧ ∀ w, height_on w x = due w p (pd_log_index x).

Local Notation acked := (default [] (oc_unsigned_acked_updates (lc_channel_state lc))).
Local Notation unsigned := (default [] (oc_remote_unsigned_local_updates (lc_channel_state lc))).
Local Notation mem := (disk_commit_to_mem_commit (lc_params lc)).

(** Our log: the HTLCs of the peer's commitment, what is new on its pending
    one, and the other updates that it has not signed for. *)
Record read_local (u : update_log) : Prop := {
  rl_ok : log_ok u;
  rl_values : ∃ outs pend uns, ul_values u = outs ++ pend ++ uns ∧
    Forall2 (read_as Local) outs (List.filter (open_at lc Local rt) (bares lc Local)) ∧
    Forall2 (read_as Local) pend pending_updates ∧ Forall2 same_shape uns unsigned ∧ Forall (read_at Local) uns;
  rl_index : ul_log_index u = idx tp Local;
  rl_counter : ul_htlc_counter u = count_of tp Local;
}.

(** The peer's: the HTLCs of our commitment, and the other updates that we have
    not signed for. *)
Record read_remote (v : update_log) : Prop := {
  rm_ok : log_ok v;
  rm_values : ∃ ins acks, ul_values v = ins ++ acks ∧
    Forall2 (read_as Remote) ins (List.filter (open_at lc Remote lt) (bares lc Remote)) ∧
    Forall2 same_shape acks (List.filter not_add acked) ∧ Forall (read_at Remote) acks;
  rm_index : ul_log_index v = idx lt Remote;
  rm_counter : ul_htlc_counter v = count_of lt Remote;
}.

Record reread (lc' : channel) : Prop := {
  rr_params : lc_params lc' = lc_params lc;
  rr_state : lc_channel_state lc' = lc_channel_state lc;
  rr_height : lc_current_height lc' = cm_height lt;
  rr_local : chain_of lc' Local = Chain (mem Local lt) [];
  rr_remote : chain_of lc' Remote = Chain (mem Remote rt) (map (mem Remote) (rest (chain_of lc Remote)));
  rr_log_local : read_local (log_of lc' Local);
  rr_log_remote : read_remote (log_of lc' Remote);
  rr_marks p x : x ∈ ul_values (log_of lc' p) → is_resolution x = true →
    pd_parent_index x ∈ ul_modified_htlcs (log_of lc' (counter_party p));
}.

Lemma elem_acked x : x ∈ acked → not_add x = true →
  ∃ b, b ∈ bares lc Remote ∧ shape x = shape b ∧ idx rt Remote ≤ pd_log_index x < idx lt Remote.
Proof using H.
  intros Hx Hn. assert (shape x ∈ map shape (List.filter not_add acked)) as Hin.
  { apply list_elem_of_fmap. exists x. split; [done|]. by apply elem_of_bfilter. }
  rewrite (kp_acked _ H) in Hin. apply list_elem_of_fmap in Hin as (b & Es & Hb).
  apply elem_of_bfilter in Hb as [[Hb [H1%Z.leb_le H2%Z.ltb_lt]%andb_true_iff]%elem_of_bfilter _].
  exists b. rewrite (shape_log _ _ Es). done.
Qed.

Lemma elem_unsigned x : x ∈ unsigned →
  ∃ b, b ∈ bares lc Local ∧ shape x = shape b ∧ not_add x = true ∧ idx lt Local ≤ pd_log_index x < idx rt Local.
Proof using H.
  intros Hx. assert (shape x ∈ map shape unsigned) as Hin by (apply list_elem_of_fmap; by exists x).
  pose proof (elem_of_sublist _ _ _ Hin (kp_unsigned _ H)) as Hin'.
  apply list_elem_of_fmap in Hin' as (b & Es & Hb).
  apply elem_of_bfilter in Hb as [[Hb [H1%Z.leb_le H2%Z.ltb_lt]%andb_true_iff]%elem_of_bfilter Hn].
  exists b. rewrite (shape_log _ _ Es). split; [done|]. split; [done|]. split; [|done].
  unfold not_add in *. by rewrite (shape_is_add _ _ Es).
Qed.


(** ** The three passes *)

Lemma marked_log v v' l : marked v v' l → log_ok v → log_ok v' ∧ ul_values v' = ul_values v ∧ ul_list v' = ul_list v ∧
  ul_log_index v' = ul_log_index v ∧ ul_htlc_counter v' = ul_htlc_counter v.
Proof using. intros [E _ _] [? ? ? ? ? ? ?]. rewrite E. by split_and!. Qed.

Lemma elem_same_shape xs bs x : Forall2 same_shape xs bs → x ∈ xs → ∃ b, b ∈ bs ∧ shape x = shape b.
Proof using.
  intros Hf Hx. apply list_elem_of_lookup in Hx as [i Hi]. destruct (Forall2_lookup_l _ _ _ _ _ Hf Hi) as (b & Hb & Hs).
  exists b. split; [by eapply list_elem_of_lookup_2 | done].
Qed.

Lemma read_as_shapes p xs bs : Forall2 (read_as p) xs bs → Forall2 same_shape xs bs.
Proof using. intros Hf. eapply Forall2_impl; [exact Hf|]. by intros x b [? _]. Qed.

Lemma read_adds p c xs x : Forall2 (read_as p) xs (List.filter (open_at lc p c) (bares lc p)) → x ∈ xs → is_add x = true.
Proof using.
  intros Hf Hx. destruct (elem_same_shape _ _ _ (read_as_shapes _ _ _ Hf) Hx) as (b & [_ (Ha & _)%open_at_true]%elem_of_bfilter & Hs).
  by rewrite (shape_is_add _ _ Hs).
Qed.

Lemma pending_elem b : b ∈ pending_updates ↔ b ∈ bares lc Local ∧ idx rt Local ≤ pd_log_index b < idx tp Local.
Proof using. unfold pending_updates, between. by rewrite elem_of_bfilter, andb_true_iff, Z.leb_le, Z.ltb_lt. Qed.

(** A pending update is on the pending commitment, and on no commitment of ours. *)
Lemma pending_due c i :
  rest (chain_of lc Remote) = [c] → idx rt Local ≤ i < idx tp Local → due Remote Local i = cm_height c ∧ due Local Local i = 0.
Proof using Hok.
  intros Er [Hi Hi']. destruct (in_order_local Local) as (O & _). unfold due. rewrite Er.
  assert (tp = c) as Etp by (unfold tip; by rewrite Er). rewrite Etp in Hi'.
  rewrite (proj2 (Z.ltb_ge i (idx rt Local))), (proj2 (Z.ltb_lt i (idx c Local))), (proj2 (Z.ltb_ge i (idx lt Local))) by lia. done.
Qed.

Lemma pending_pass outs ins u v :
  log_ok u → ul_values u = outs → ul_log_index u = idx rt Local → ul_htlc_counter u = count_of rt Local →
  log_ok v → ul_values v = ins → Forall2 (read_as Remote) ins (List.filter (open_at lc Remote lt) (bares lc Remote)) →
  n < 2 ^ 64 →
  ∃ u1 v1 pend, match oc_commit_diff (lc_channel_state lc) with
    | Some d => restore_pending_local_updates d (Dual u v)
    | None => Ok (Dual u v)
    end = Ok (Dual u1 v1) ∧
    longer u u1 pend ∧ marked v v1 pending_updates ∧ Forall2 (read_as Local) pend pending_updates ∧
    ul_log_index u1 = idx tp Local ∧ ul_htlc_counter u1 = count_of tp Local.
Proof using Hok H.
  intros Hu Eu Ei Ec Hv Ev Hins Hn. destruct pending_window as (W1 & W2 & W3 & W4).
  destruct pending_cases as [(Er & Ed & Et)|(c & d & Er & Ed & Et & Em)].
  { exists u, v, []. rewrite Ed. unfold n_adds in W4. rewrite Et in W2, W4 |- *. rewrite Z.sub_diag in W2.
    destruct pending_updates; [|done]. split_and!; try done; [|apply marked_nil].
    split; [done | by rewrite app_nil_r | done]. }
  destruct (mem_fields _ _ _ Em) as (Eh & _). rewrite Ed.
  unfold restore_pending_local_updates. rewrite <-Eh.
  pose proof (kp_diff _ H d Ed) as Hd. fold pending_updates in Hd. apply map_shape_Forall2 in Hd.
  pose proof (ck_bound _ _ _ Hok Local) as [B1 B2].
  pose proof (ck_own _ _ _ Hok Remote Local) as Hown. destruct (kp_count _ H Local tp (tip_elem _)) as [Hcnt _].
  destruct (pending_fold (cm_height c) (cd_log_updates d) pending_updates u v) as (u1 & v1 & pds & E & Hl & Hm & Hs & Hf & E1 & E2).
  - done.
  - done.
  - intros b Hb%pending_elem. destruct Hb as [Hb Hi]. eapply (parent_in_restored Remote lt v ins []); try done.
    { by rewrite app_nil_r. }
    intros Hr. apply local_parent; [done..|]. destruct (in_order_local Local) as (O & _). lia.
  - by rewrite Ei.
  - by rewrite Ec.
  - rewrite Ei, W2. lia.
  - rewrite Ec, W4. cbn [count_of] in *. lia.
  - exists u1, v1, pds. split; [exact E|]. split; [done|]. split; [done|].
    split; [|rewrite E1, E2, Ei, Ec, W2, W4; cbn [count_of]; lia].
    assert (∀ b, b ∈ pending_updates → idx rt Local ≤ pd_log_index b < idx tp Local) as Hw by (intros b Hb; by apply pending_elem).
    clear -Hok H Hs Hf Hw Er. revert Hf. induction Hs as [|x b xs bs Hx _ IH]; intros Hf; [by constructor|].
    apply Forall_cons in Hf as [[F1 F2 F3] Hf]. constructor; [|apply IH; [|done]; intros y Hy; apply Hw; by right].
    destruct (pending_due c (pd_log_index b) Er) as [D1 D2]; [apply Hw; by left|].
    split; [exact Hx|]. split; [done|]. intros []; [by rewrite D2 | by rewrite D1].
Qed.

Lemma acked_bound x : x ∈ acked → pd_log_index x < idx lt Remote.
Proof using H. apply (kp_bound _ H). Qed.

Lemma acked_pass outs pend ins u v pc :
  log_ok u → ul_values u = outs ++ pend → Forall2 (read_as Local) outs (List.filter (open_at lc Local rt) (bares lc Local)) →
  log_ok v → ul_values v = ins → Forall2 (read_as Remote) ins (List.filter (open_at lc Remote lt) (bares lc Remote)) →
  ul_log_index v = idx lt Remote → ul_htlc_counter v = count_of lt Remote →
  (∀ i, idx rt Remote ≤ i → acked_height pc i = due Remote Remote i) →
  ∃ u' v' acks, restore_pending_remote_updates acked (cm_height lt) pc (Dual u v) = Ok (Dual u' v') ∧
    longer v v' acks ∧ marked u u' (List.filter not_add acked) ∧
    Forall2 same_shape acks (List.filter not_add acked) ∧ Forall (read_at Remote) acks ∧
    ul_log_index v' = idx lt Remote ∧ ul_htlc_counter v' = count_of lt Remote.
Proof using Hok H.
  intros Hu Eu Houts Hv Ev Hins Ei Ec Hpc.
  destruct (acked_fold (cm_height lt) pc acked u v) as (u' & v' & acks & E & Hl & Hm & Hs & Hf & E1 & E2).
  - done.
  - intros x Hx. split; [|split].
    + destruct (not_add x) eqn:Hn; cycle 1.
      { intros Hr%resolution_not_add. unfold not_add in Hn. by rewrite Hr in Hn. }
      destruct (elem_acked x Hx Hn) as (b & Hb & Hs & Hw).
      apply (parent_in_restored Local rt u outs pend x x); try done. intros Hr. rewrite (shape_is_resolution _ _ Hs) in Hr.
      rewrite (shape_log _ _ Hs) in Hw. destruct (remote_parent b Hb Hr Hw) as (a & Ha & Hop & Hi & Hamt). exists a.
      split; [done|]. split; [done|]. rewrite (shape_parent _ _ Hs Hr), (shape_amount _ _ Hs) by by apply resolution_not_fee. done.
    + rewrite Ei. by apply acked_bound.
    + intros Hn. destruct (elem_acked x Hx Hn) as (b & Hb & Hs & _). rewrite (shape_log _ _ Hs). by apply (bare_log_bound Remote).
  - rewrite (shapes_logs _ _ (kp_acked _ H)). apply window_nodup.
  - intros x _ _ k a Hin Ha. assert (a ∈ ins) as Hi by (rewrite <-Ev; apply elem_of_values; by exists k).
    apply (read_adds Remote lt _ _ Hins) in Hi. congruence.
  - exists u', v', acks. split; [exact E|]. split; [done|]. split; [done|]. split; [done|]. split; [|by rewrite E1, E2].
    apply Forall_forall. intros y Hy. rewrite Forall_forall in Hf. destruct (Hf y Hy) as (F1 & F2 & F3).
    destruct (elem_same_shape _ _ _ Hs Hy) as (x & [Hx Hn]%elem_of_bfilter & Hsy).
    destruct (elem_acked x Hx Hn) as (b & _ & _ & Hw). rewrite <-(shape_log _ _ Hsy) in Hw. split; [done|].
    intros []; [|by rewrite F3, Hpc by lia]. rewrite F2. unfold due. by rewrite (proj2 (Z.ltb_lt _ _)) by lia.
Qed.

Lemma unsigned_pass outs pend ins acks u v :
  log_ok u → ul_values u = outs ++ pend → Forall2 (read_as Local) outs (List.filter (open_at lc Local rt) (bares lc Local)) →
  Forall2 (read_as Local) pend pending_updates → ul_log_index u = idx tp Local → ul_htlc_counter u = count_of tp Local →
  log_ok v → ul_values v = ins ++ acks → Forall2 (read_as Remote) ins (List.filter (open_at lc Remote lt) (bares lc Remote)) →
  ∃ u' v' uns, restore_peer_local_updates unsigned (cm_height rt) (Dual u v) = Ok (Dual u' v') ∧
    longer u u' uns ∧ marked v v' unsigned ∧ Forall2 same_shape uns unsigned ∧ Forall (read_at Local) uns ∧
    ul_log_index u' = idx tp Local ∧ ul_htlc_counter u' = count_of tp Local.
Proof using Hok H.
  intros Hu Eu Houts Hpend Ei Ec Hv Ev Hins. destruct (in_order_local Local) as (_ & _ & O & _).
  destruct (unsigned_fold (cm_height rt) unsigned u v) as (u' & v' & uns & E & Hl & Hm & Hs & Hf & E1 & E2).
  - done.
  - intros x Hx. destruct (elem_unsigned x Hx) as (b & Hb & Hs & Hn & Hw).
    split; [|split; [done|]].
    + apply (parent_in_restored Remote lt v ins acks x x); try done. intros Hr. rewrite (shape_is_resolution _ _ Hs) in Hr.
      rewrite (shape_log _ _ Hs) in Hw. destruct (local_parent b Hb Hr) as (a & Ha & Hop & Hi & Hamt); [lia|]. exists a.
      split; [done|]. split; [done|]. rewrite (shape_parent _ _ Hs Hr), (shape_amount _ _ Hs) by by apply resolution_not_fee. done.
    + rewrite Ei. pose proof (bare_log_bound Local b Hb). rewrite <-(shape_log _ _ Hs) in *. lia.
  - pose proof (window_nodup Local (idx lt Local) (idx rt Local)) as Hnd.
    pose proof (fmap_sublist pd_log_index _ _ (kp_unsigned _ H)) as Hsub. eapply sublist_NoDup in Hsub.
    + exact (eq_ind _ NoDup Hsub _ (map_map _ _ _)).
    + exact (eq_ind_r NoDup Hnd (map_map _ _ _)).
  - intros x Hx k a Hin Ha Heq. destruct (elem_unsigned x Hx) as (b & _ & _ & _ & Hw).
    assert (a ∈ outs ++ pend) as [Hi|Hi]%elem_of_app by (rewrite <-Eu; apply elem_of_values; by exists k).
    + apply (read_adds Local rt _ _ Houts) in Hi. congruence.
    + destruct (elem_same_shape _ _ _ (read_as_shapes _ _ _ Hpend) Hi) as (b' & Hb' & Hs').
      apply pending_elem in Hb' as [_ Hb']. rewrite <-(shape_log _ _ Hs') in Hb'. lia.
  - exists u', v', uns. split; [exact E|]. split; [done|]. split; [done|]. split; [done|]. split; [|by rewrite E1, E2].
    apply Forall_forall. intros y Hy. rewrite Forall_forall in Hf. destruct (Hf y Hy) as [F1 F2 F3].
    destruct (elem_same_shape _ _ _ Hs Hy) as (x & Hx & Hsy).
    destruct (elem_unsigned x Hx) as (b & _ & _ & _ & Hw). rewrite <-(shape_log _ _ Hsy) in Hw. split; [done|].
    intros []; unfold due; [|by rewrite F2, (proj2 (Z.ltb_lt _ _)) by lia].
    simpl in F3. rewrite F3. by rewrite (proj2 (Z.ltb_ge _ _)) by lia.
Qed.

(** *** All of it *)

Lemma restore_map (hl hr : Z → Z) l u :
  foldl (λ u htlc, restore_htlc (restored_htlc (hl (pd_htlc_index htlc)) (hr (pd_htlc_index htlc)) htlc) u) u
    (map disk_htlc_to_pay_desc l) =
  foldl (λ u pd, restore_htlc pd u) u (restored_list hl hr l).
Proof using. revert u. induction l as [|x l IH]; intros u; [done|]. apply IH. Qed.

Lemma restored_outgoing :
  let u := restore_outgoing (mem Local lt) (mem Remote rt) acked (new_update_log (idx rt Local) (cm_our_htlc_index rt)) in
  log_ok u ∧ ul_log_index u = idx rt Local ∧ ul_htlc_counter u = count_of rt Local ∧
  Forall2 (read_as Local) (ul_values u) (List.filter (open_at lc Local rt) (bares lc Local)).
Proof using Hok H.
  intros u. pose (hl i := default 0 (outgoing_local_add_heights lt acked !! i)). pose (hr (_ : Z) := cm_height rt).
  destruct (restored_htlcs rt Local hl hr _ (tail_elem _) eq_refl) as (L1 & L2 & L3 & L4 & L5).
  { intros b Hb Hop. split; [by apply outgoing_heights|]. apply open_at_true in Hop as (_ & Hlt & _).
    unfold hr, due. by rewrite (proj2 (Z.ltb_lt _ _)) by lia. }
  assert (u = foldl (λ u pd, restore_htlc pd u) (new_update_log (idx rt Local) (count_of rt Local)) (restored_list hl hr (htlcs_of rt Local))) as ->.
  { rewrite <-restore_map. unfold u, restore_outgoing, outgoing_local_add_heights, hl, hr, outgoing_local_add_heights. simpl.
    by rewrite !map_map. }
  split; [done|]. split; [done|]. split; [done|]. by rewrite L2.
Qed.

Lemma restored_incoming :
  let u := restore_incoming (mem Local lt) (mem Remote rt) (mem Remote <$> pending_commit) unsigned
             (new_update_log (idx lt Remote) (cm_their_htlc_index lt)) in
  log_ok u ∧ ul_log_index u = idx lt Remote ∧ ul_htlc_counter u = count_of lt Remote ∧
  Forall2 (read_as Remote) (ul_values u) (List.filter (open_at lc Remote lt) (bares lc Remote)).
Proof using Hok H.
  intros u. pose (hr i := default 0 (incoming_remote_add_heights rt pending_commit unsigned !! i)). pose (hl (_ : Z) := cm_height lt).
  destruct (restored_htlcs lt Remote hl hr _ (tail_elem _) eq_refl) as (L1 & L2 & L3 & L4 & L5).
  { intros b Hb Hop. split; [|by apply incoming_heights]. apply open_at_true in Hop as (_ & Hlt & _).
    unfold hl, due. by rewrite (proj2 (Z.ltb_lt _ _)) by lia. }
  assert (u = foldl (λ u pd, restore_htlc pd u) (new_update_log (idx lt Remote) (count_of lt Remote)) (restored_list hl hr (htlcs_of lt Remote))) as ->.
  { rewrite <-restore_map. unfold u, restore_incoming, incoming_remote_add_heights, hl, hr, incoming_remote_add_heights. simpl.
    destruct pending_commit; simpl; by rewrite !map_map. }
  split; [done|]. split; [done|]. split; [done|]. by rewrite L2.
Qed.

Lemma pending_acked i : idx rt Remote ≤ i → acked_height (mem Remote <$> pending_commit) i = due Remote Remote i.
Proof using.
  intros Hi. unfold acked_height, pending_commit, due. rewrite (proj2 (Z.ltb_ge _ _)) by lia.
  by destruct (rest (chain_of lc Remote)).
Qed.

Lemma restart_reads :
  (∃ s, producer_at_index (oc_revocation_producer (lc_channel_state lc)) (cm_height lt) = Ok s) → n < 2 ^ 64 →
  ∃ lc', new_lightning_channel (lc_params lc) (lc_channel_state lc) = Ok lc' ∧ reread lc'.
Proof using Hok H.
  intros [s Hs] Hn. unfold new_lightning_channel, restore_commit_state.
  destruct (mem_fields _ _ _ (kp_local _ H)) as (Hlh & Hli & _ & _ & Hlc).
  destruct (mem_fields _ _ _ (kp_remote _ H)) as (Hrh & Hri & _ & _ & Hrc).
  rewrite Hlh, Hs, (kp_local _ H), (kp_remote _ H). cbn [map_err rbind].
  pose proof (Hri Local) as Hi1. unfold idx at 1 in Hi1. cbn [get_for_party] in Hi1. rewrite Hi1.
  pose proof (Hli Remote) as Hi2. unfold idx at 1 in Hi2. cbn [get_for_party] in Hi2. rewrite Hi2.
  pose proof (Hrc Local) as Hc1. cbn [count_of] in Hc1. rewrite Hc1.
  pose proof (Hlc Remote) as Hc2. cbn [count_of] in Hc2. rewrite Hc2.
  pose proof restored_outgoing as R1. pose proof restored_incoming as R2.
  set (u := restore_outgoing _ _ _ _) in R1. set (v := restore_incoming _ _ _ _ _) in R2.
  destruct R1 as (U1 & U2 & U3 & U4). destruct R2 as (V1 & V2 & V3 & V4).
  destruct (pending_pass _ _ u v U1 eq_refl U2 U3 V1 eq_refl V4 Hn) as (u1 & v1 & pend & E1 & L1 & M1 & P1 & I1 & C1).
  destruct (marked_log _ _ _ M1 V1) as (V1' & Ev1 & Ev1' & Ev2 & Ev3).
  destruct (acked_pass (ul_values u) pend (ul_values v) u1 v1 (mem Remote <$> pending_commit)) as
    (u2 & v2 & acks & E2 & L2 & M2 & P2 & A2 & I2 & C2);
    [apply L1 | apply L1 | done | done | done | done | congruence | congruence | apply pending_acked |].
  destruct (marked_log _ _ _ M2 (lg_ok _ _ _ L1)) as (U2' & Eu1 & Eu1' & Eu2 & Eu3).
  destruct (unsigned_pass (ul_values u) pend (ul_values v) acks u2 v2) as
    (u3 & v3 & uns & E3 & L3 & M3 & P3 & A3 & I3 & C3); try done.
  { rewrite Eu1. apply L1. } { congruence. } { congruence. } { apply L2. } { rewrite (lg_values _ _ _ L2). by rewrite Ev1. }
  destruct (marked_log _ _ _ M3 (lg_ok _ _ _ L2)) as (V3' & Ew1 & Ew1' & Ew2 & Ew3).
  exists (LightningChannel (lc_params lc) (lc_channel_state lc) (cm_height lt)
    (Dual (Chain (mem Local lt) []) (Chain (mem Remote rt) (map (mem Remote) (rest (chain_of lc Remote))))) (Dual u3 v3)).
  assert (match oc_commit_diff (lc_channel_state lc) with
          | None => Ok None
          | Some d => ensure (bool_decide (is_Some (oc_remote_next_revocation (lc_channel_state lc)))) else ErrOfChannel ErrNoNextRevocation;
                      Ok (Some (mem Remote (cd_commitment d), d))
          end = Ok ((λ d, (default (mem Remote rt) (mem Remote <$> pending_commit), d)) <$> oc_commit_diff (lc_channel_state lc)) ∧
    fst <$> ((λ d, (default (mem Remote rt) (mem Remote <$> pending_commit), d)) <$> oc_commit_diff (lc_channel_state lc)) =
      mem Remote <$> pending_commit ∧
    (match ((λ d, (default (mem Remote rt) (mem Remote <$> pending_commit), d)) <$> oc_commit_diff (lc_channel_state lc)) with
     | Some (c, _) => [c] | None => [] end) = map (mem Remote) (rest (chain_of lc Remote))) as (-> & Ef & Ec).
  { unfold pending_commit. pose proof (kp_next _ H) as Hnext.
    destruct pending_cases as [(Er & Ed & _)|(c & d & Er & Ed & _ & Em)]; rewrite Er, Ed in *; [done|]. simpl.
    rewrite <-Em, bool_decide_eq_true_2; [done|]. destruct (oc_remote_next_revocation _); [done | by destruct Hnext]. }
  cbn [rbind]. unfold restore_state_logs. cbn [dual_local dual_remote]. rewrite Ef. fold u v.
  change (cm_height (mem Local lt)) with (cm_height lt). change (cm_height (mem Remote rt)) with (cm_height rt).
  assert (∀ (A B : Type) (o : option A) (y : B) (r : result restore_error (dual update_log)) (f : A → result restore_error (dual update_log)),
    match (λ d, (y, d)) <$> o with Some (_, d) => f d | None => r end = match o with Some d => f d | None => r end) as Em.
  { by intros ? ? []. }
  rewrite Em, E1. cbn [rbind]. rewrite E2. cbn [rbind]. rewrite E3. cbn [rbind]. rewrite Ec. split; [done|].
  assert (ul_values u3 = ul_values u ++ pend ++ uns) as Hu3 by (by rewrite (lg_values _ _ _ L3), Eu1, (lg_values _ _ _ L1), app_assoc).
  assert (ul_values v3 = ul_values v ++ acks) as Hv3 by (by rewrite Ew1, (lg_values _ _ _ L2), Ev1).
  split; try done.
  - split; [apply L3 | by exists (ul_values u), pend, uns | done | done].
  - split; [done | by exists (ul_values v), acks | exact (eq_trans Ew2 I2) | exact (eq_trans Ew3 C2)].
  - intros p x Hx Hr. change (log_of _ p) with (get_for_party (Dual u3 v3) p) in Hx.
    change (log_of _ (counter_party p)) with (get_for_party (Dual u3 v3) (counter_party p)). destruct p; simpl in Hx |- *.
    + rewrite Hu3, !elem_of_app in Hx. destruct Hx as [Hx|[Hx|Hx]].
      * pose proof (read_adds Local rt _ _ U4 Hx) as Ha. by rewrite (resolution_not_add _ Hr) in Ha.
      * destruct (elem_same_shape _ _ _ (read_as_shapes _ _ _ P1) Hx) as (b & Hb & Hsb).
        pose proof (shape_is_resolution _ _ Hsb) as Hrb. rewrite Hr in Hrb.
        rewrite (shape_parent _ _ Hsb) by done. apply (mk_old _ _ _ M3), (lg_marks _ _ _ L2), (mk_new _ _ _ M1); done.
      * destruct (elem_same_shape _ _ _ P3 Hx) as (b & Hb & Hsb).
        pose proof (shape_is_resolution _ _ Hsb) as Hrb. rewrite Hr in Hrb.
        rewrite (shape_parent _ _ Hsb) by done. apply (mk_new _ _ _ M3); done.
    + rewrite Hv3, !elem_of_app in Hx. destruct Hx as [Hx|Hx].
      * pose proof (read_adds Remote lt _ _ V4 Hx) as Ha. by rewrite (resolution_not_add _ Hr) in Ha.
      * destruct (elem_same_shape _ _ _ P2 Hx) as (b & Hb & Hsb).
        pose proof (shape_is_resolution _ _ Hsb) as Hrb. rewrite Hr in Hrb.
        rewrite (shape_parent _ _ Hsb) by done. apply (lg_marks _ _ _ L3), (mk_new _ _ _ M2); done.
Qed.
End Restart.
