(* ===== verification/ChannelRestored.v ===== *)
(** * The invariants after a restart

    The channel that is read back keeps the invariants: its logs have the HTLCs
    that a commitment of either side lists, and the resolutions that one of
    the commitments does not have yet. *)

From S2P Require Import Prelude Chainfee Shachain UpdateLog Channel ChannelLog ChannelView ChannelInv ChannelCommit.
From S2P Require Import ChannelRestore ChannelKept ChannelReadLogs ChannelRestart.

(** A filter of a sorted list, cut at an index. *)
Lemma sorted_cut (q1 q2 : payment_descriptor → bool) j l :
  StronglySorted (λ a b, pd_log_index a < pd_log_index b) l →
  List.filter (λ b, (pd_log_index b <? j) && q1 b) l ++ List.filter (λ b, (j <=? pd_log_index b) && q2 b) l =
  List.filter (λ b, if pd_log_index b <? j then q1 b else q2 b) l.
Proof.
  induction 1 as [|a l Hs IH Ha]; [done|]. cbn [List.filter]. destruct (Z.ltb_spec (pd_log_index a) j) as [Hj|Hj].
  - rewrite (proj2 (Z.leb_gt _ _)) by lia. cbn [andb]. destruct (q1 a); [simpl; by rewrite IH | done].
  - rewrite (proj2 (Z.leb_le _ _)) by lia. cbn [andb]. rewrite <-IH.
    rewrite bfilter_none; [by destruct (q2 a)|]. intros b Hb. rewrite Forall_forall in Ha. specialize (Ha b Hb).
    simpl in Ha. by rewrite (proj2 (Z.ltb_ge _ _)) by lia.
Qed.

Section Restored.
Context {HP : HashPrims} (t n : Z) (lc lc' : channel).
Hypothesis Hok : chan_ok t n lc.
Hypothesis H : kept lc.
Hypothesis R : reread lc lc'.

Local Notation rt := (tail (chain_of lc Remote)).
Local Notation lt := (tail (chain_of lc Local)).
Local Notation tp := (tip (chain_of lc Remote)).
Local Notation mem := (disk_commit_to_mem_commit (lc_params lc)).

(** The peer's commitment has the HTLCs of ours, and ours the peer's. *)
Definition base (p : channel_party) : commitment := tail (chain_of lc (counter_party p)).
Definition top (p : channel_party) : Z := match p with Local => idx tp Local | Remote => idx lt Remote end.
Definition first (p : channel_party) : Z := idx (tail (chain_of lc p)) p.

Lemma party_order p : first p ≤ idx (base p) p ≤ top p.
Proof using Hok.
  destruct (in_order_local t n lc Hok p) as (O1 & O2 & O3 & O4). unfold first, base, top. destruct p; cbn [counter_party]; lia.
Qed.

Lemma top_index p : ul_log_index (log_of lc' p) = top p.
Proof using R. destruct p; [apply (rl_index _ _ (rr_log_local _ _ R)) | apply (rm_index _ _ (rr_log_remote _ _ R))]. Qed.

Definition kept_add (p : channel_party) (b : payment_descriptor) : bool :=
  is_add b && if pd_log_index b <? idx (base p) p then negb (resolved_at lc p (base p) (pd_htlc_index b))
              else pd_log_index b <? top p.

Lemma filter_adds (l : list payment_descriptor) q : List.filter (λ b, is_add b && q b) l = List.filter q (List.filter is_add l).
Proof using. by rewrite bfilter_bfilter. Qed.

Lemma kept_adds p : List.filter (kept_add p) (bares lc p) =
  List.filter (open_at lc p (base p)) (bares lc p) ++ List.filter is_add (between (idx (base p) p) (top p) (bares lc p)).
Proof using H.
  unfold kept_add. rewrite filter_adds, <-sorted_cut by apply (kp_sorted _ H). rewrite <-!filter_adds. f_equal.
  - apply bfilter_ext. intros b _. unfold open_at. by rewrite andb_assoc.
  - unfold between. rewrite bfilter_bfilter. apply bfilter_ext. intros b _. by rewrite andb_comm.
Qed.

Lemma same_shape_filter q xs bs : (∀ x b, shape x = shape b → q x = q b) →
  Forall2 same_shape xs bs → Forall2 same_shape (List.filter q xs) (List.filter q bs).
Proof using.
  intros Hq. induction 1 as [|x b xs bs Hx _ IH]; [constructor|]. cbn [List.filter]. rewrite (Hq x b Hx).
  destruct (q b); [by constructor | done].
Qed.

Lemma all_adds xs bs : Forall2 same_shape xs bs → (∀ b, b ∈ bs → is_add b = true) → List.filter is_add xs = xs.
Proof using.
  intros Hs Hb. apply bfilter_all. intros x Hx. destruct (elem_same_shape _ _ _ Hs Hx) as (b & Hin & E).
  rewrite (shape_is_add _ _ E). by apply Hb.
Qed.
Lemma no_adds xs bs : Forall2 same_shape xs bs → (∀ b, b ∈ bs → not_add b = true) → List.filter is_add xs = [].
Proof using.
  intros Hs Hb. apply bfilter_none. intros x Hx. destruct (elem_same_shape _ _ _ Hs Hx) as (b & Hin & E).
  rewrite (shape_is_add _ _ E). apply negb_true_iff. by apply Hb.
Qed.

Lemma open_adds p c b : b ∈ List.filter (open_at lc p c) (bares lc p) → is_add b = true.
Proof using. by intros [_ (Ha & _)%open_at_true]%elem_of_bfilter. Qed.

Lemma filtered_not_adds b (l : list payment_descriptor) : b ∈ List.filter not_add l → not_add b = true.
Proof using. by intros [_ Hb]%elem_of_bfilter. Qed.

Lemma between_empty i (l : list payment_descriptor) : between i i l = [].
Proof using.
  apply bfilter_none. intros b _. destruct (Z.leb_spec i (pd_log_index b)); [|done]. simpl. apply Z.ltb_ge. lia.
Qed.

(** The HTLCs of the logs, in their order. *)
Lemma restored_adds p :
  map shape (List.filter is_add (ul_values (log_of lc' p))) = map shape (List.filter (kept_add p) (bares lc p)).
Proof using H R.
  rewrite kept_adds. apply map_shape_Forall2. destruct p.
  - destruct (rl_values _ _ (rr_log_local _ _ R)) as (outs & pend & uns & -> & Ho & Hp & Hu & _).
    apply read_as_shapes in Ho, Hp. rewrite !List.filter_app. rewrite (all_adds _ _ Ho (open_adds _ _)).
    rewrite (no_adds _ _ Hu), app_nil_r by (intros x Hx; by destruct (elem_unsigned lc H x Hx) as (? & _ & _ & ? & _)).
    apply Forall2_app; [exact Ho|]. apply same_shape_filter; [apply shape_is_add | exact Hp].
  - destruct (rm_values _ _ (rr_log_remote _ _ R)) as (ins & acks & -> & Hi & Ha & _).
    apply read_as_shapes in Hi. rewrite !List.filter_app, (all_adds _ _ Hi (open_adds _ _)).
    rewrite (no_adds _ _ Ha) by (intros b; apply filtered_not_adds).
    change (top Remote) with (idx (base Remote) Remote). rewrite between_empty. apply Forall2_app; [exact Hi | constructor].
Qed.

Lemma restored_add p x : x ∈ ul_values (log_of lc' p) → is_add x = true →
  ∃ b, b ∈ bares lc p ∧ shape x = shape b ∧ kept_add p b = true.
Proof using H R.
  intros Hx Ha. pose proof (restored_adds p) as Hr. apply map_shape_Forall2 in Hr.
  destruct (elem_same_shape _ _ x Hr) as (b & [Hb Hk]%elem_of_bfilter & Hs); [by apply elem_of_bfilter | by exists b].
Qed.

Lemma same_shape_elem xs bs b : Forall2 same_shape xs bs → b ∈ bs → ∃ x, x ∈ xs ∧ shape x = shape b.
Proof using.
  intros Hf [i Hi]%list_elem_of_lookup. destruct (Forall2_lookup_r _ _ _ _ _ Hf Hi) as (x & Hx & Hs).
  exists x. split; [by eapply list_elem_of_lookup_2 | done].
Qed.

Lemma add_restored p b : b ∈ bares lc p → kept_add p b = true → ∃ x, x ∈ ul_values (log_of lc' p) ∧ shape x = shape b.
Proof using H R.
  intros Hb Hk. pose proof (restored_adds p) as Hr. apply map_shape_Forall2 in Hr.
  destruct (same_shape_elem _ _ b Hr) as (x & [Hx _]%elem_of_bfilter & Hs); [by apply elem_of_bfilter | by exists x].
Qed.

(** The other entries. *)
Lemma restored_not_add p x : x ∈ ul_values (log_of lc' p) → is_add x = false →
  ∃ b, b ∈ bares lc p ∧ shape x = shape b ∧ first p ≤ pd_log_index b < top p.
Proof using Hok H R.
  intros Hx Ha. destruct (party_order p) as [O1 O2]. destruct p.
  - destruct (rl_values _ _ (rr_log_local _ _ R)) as (outs & pend & uns & Ev & Ho & Hp & Hu & _).
    rewrite Ev, !elem_of_app in Hx. destruct Hx as [Hx|[Hx|Hx]].
    + apply (read_adds _ _ _ _ _ Ho) in Hx. congruence.
    + destruct (elem_same_shape _ _ _ (read_as_shapes _ _ _ _ Hp) Hx) as (b & [Hb Hw]%pending_elem & Hs).
      exists b. split; [done|]. split; [done|]. unfold base, top in *. cbn [counter_party] in *. lia.
    + destruct (elem_same_shape _ _ _ Hu Hx) as (y & Hy & Hs). destruct (elem_unsigned lc H y Hy) as (b & Hb & Hs' & _ & Hw).
      exists b. split; [done|]. split; [congruence|]. rewrite <-(shape_log _ _ Hs').
      unfold first, base, top in *. cbn [counter_party] in *. lia.
  - destruct (rm_values _ _ (rr_log_remote _ _ R)) as (ins & acks & Ev & Hi & Hk & _).
    rewrite Ev, !elem_of_app in Hx. destruct Hx as [Hx|Hx].
    + apply (read_adds _ _ _ _ _ Hi) in Hx. congruence.
    + destruct (elem_same_shape _ _ _ Hk Hx) as (y & [Hy Hn]%elem_of_bfilter & Hs).
      destruct (elem_acked lc H y Hy Hn) as (b & Hb & Hs' & Hw).
      exists b. split; [done|]. split; [congruence|]. rewrite <-(shape_log _ _ Hs').
      unfold first, base, top in *. cbn [counter_party] in *. lia.
Qed.

Lemma resolution_restored p b : b ∈ bares lc p → is_resolution b = true → first p ≤ pd_log_index b < top p →
  ∃ x, x ∈ ul_values (log_of lc' p) ∧ shape x = shape b.
Proof using Hok H R.
  intros Hb Hr Hw. pose proof (resolution_not_add _ Hr) as Ha.
  assert (∀ i j, i ≤ pd_log_index b < j → b ∈ List.filter not_add (between i j (bares lc p))) as Hin.
  { intros i j [Hi Hj]. apply elem_of_bfilter. split; [|unfold not_add; by rewrite Ha].
    apply elem_of_bfilter. by rewrite (proj2 (Z.leb_le _ _) Hi), (proj2 (Z.ltb_lt _ _) Hj). }
  destruct p.
  - destruct (rl_values _ _ (rr_log_local _ _ R)) as (outs & pend & uns & Ev & _ & Hp & Hu & _).
    setoid_rewrite Ev. destruct (Z.ltb_spec (pd_log_index b) (idx rt Local)) as [Hlt|Hge].
    + assert (shape b ∈ List.filter is_resolution (map shape (List.filter not_add (between (idx lt Local) (idx rt Local) (bares lc Local))))) as Hs.
      { apply elem_of_bfilter. split; [|exact Hr].
        apply list_elem_of_fmap. exists b. split; [done|]. apply Hin. unfold first in Hw. lia. }
      rewrite <-(kp_resolutions _ H) in Hs. apply elem_of_bfilter in Hs as [(y & Es & Hy)%list_elem_of_fmap _].
      destruct (same_shape_elem _ _ y Hu Hy) as (x & Hx & Hxy). exists x. rewrite !elem_of_app. split; [by right; right | congruence].
    + destruct (same_shape_elem _ _ b (read_as_shapes _ _ _ _ Hp)) as (x & Hx & Hs).
      { apply pending_elem. split; [done|]. unfold top in Hw. lia. }
      exists x. rewrite !elem_of_app. split; [by right; left | done].
  - destruct (rm_values _ _ (rr_log_remote _ _ R)) as (ins & acks & Ev & _ & Hk & _). setoid_rewrite Ev.
    assert (shape b ∈ map shape (List.filter not_add (between (idx rt Remote) (idx lt Remote) (bares lc Remote)))) as Hs.
    { apply list_elem_of_fmap. exists b. split; [done|]. by apply Hin. }
    rewrite <-(kp_acked _ H) in Hs. apply list_elem_of_fmap in Hs as (y & Es & Hy).
    destruct (same_shape_elem _ _ y Hk Hy) as (x & Hx & Hxy). exists x. rewrite elem_of_app. split; [by right | congruence].
Qed.

Lemma read_as_at p xs bs x : Forall2 (read_as lc p) xs bs → x ∈ xs → read_at lc p x.
Proof using.
  intros Hf [i Hi]%list_elem_of_lookup. destruct (Forall2_lookup_l _ _ _ _ _ Hf Hi) as (b & Hb & (Hs & Hh & Hd)).
  split; [done|]. intros w. by rewrite Hd, (shape_log _ _ Hs).
Qed.

Lemma restored_heights p x : x ∈ ul_values (log_of lc' p) → read_at lc p x.
Proof using R.
  intros Hx. destruct p.
  - destruct (rl_values _ _ (rr_log_local _ _ R)) as (outs & pend & uns & Ev & Ho & Hp & _ & Hr).
    rewrite Ev, !elem_of_app in Hx. rewrite Forall_forall in Hr. destruct Hx as [Hx|[Hx|Hx]];
      [exact (read_as_at _ _ _ _ Ho Hx) | exact (read_as_at _ _ _ _ Hp Hx) | by apply Hr].
  - destruct (rm_values _ _ (rr_log_remote _ _ R)) as (ins & acks & Ev & Hi & _ & Hr).
    rewrite Ev, !elem_of_app in Hx. rewrite Forall_forall in Hr. destruct Hx as [Hx|Hx]; [exact (read_as_at _ _ _ _ Hi Hx) | by apply Hr].
Qed.

Lemma restored_shape p x : x ∈ ul_values (log_of lc' p) → ∃ b, b ∈ bares lc p ∧ shape x = shape b ∧ pd_log_index b < top p.
Proof using Hok H R.
  intros Hx. destruct (is_add x) eqn:Ha.
  - destruct (restored_add p x Hx Ha) as (b & Hb & Hs & [_ Hk]%andb_true_iff). exists b. split; [done|]. split; [done|].
    destruct (party_order p) as [_ O]. destruct (Z.ltb_spec (pd_log_index b) (idx (base p) p)); [lia | by apply Z.ltb_lt in Hk].
  - destruct (restored_not_add p x Hx Ha) as (b & Hb & Hs & Hw). exists b. split; [done|]. split; [done | lia].
Qed.

Lemma elem_restored p b' : b' ∈ bares lc' p ↔ ∃ x, x ∈ ul_values (log_of lc' p) ∧ b' = bare x.
Proof using. unfold bares. rewrite list_elem_of_fmap. naive_solver. Qed.

Lemma restored_bare p b' : b' ∈ bares lc' p → ∃ b, b ∈ bares lc p ∧ shape b' = shape b ∧ pd_log_index b < top p.
Proof using Hok H R.
  intros (x & Hx & ->)%elem_restored. destruct (restored_shape p x Hx) as (b & Hb & Hs & Ht). exists b.
  by rewrite shape_bare.
Qed.

Lemma bare_restored p x b : x ∈ ul_values (log_of lc' p) → shape x = shape b → ∃ b', b' ∈ bares lc' p ∧ shape b' = shape b.
Proof using. intros Hx Hs. exists (bare x). split; [apply elem_restored; by exists x | by rewrite shape_bare]. Qed.

(** ** The commitments *)

Lemma restored_chain w c : c ∈ chain_list (chain_of lc' w) → ∃ c0, c0 ∈ chain_list (chain_of lc w) ∧ c = mem w c0 ∧ (w = Local → c0 = lt).
Proof using R.
  unfold chain_list. destruct w; [rewrite (rr_local _ _ R) | rewrite (rr_remote _ _ R)]; cbn [tail rest].
  - intros ->%list_elem_of_singleton. exists lt. split; [by left | done].
  - intros [->|(c0 & -> & Hc)%list_elem_of_fmap]%elem_of_cons; [exists rt; split; [by left | done]|].
    exists c0. split; [by right | done].
Qed.

Lemma mem_index w c p : idx (mem w c) p = idx c p.
Proof using. done. Qed.

Lemma restored_tail w : tail (chain_of lc' w) = mem w (tail (chain_of lc w)).
Proof using R. destruct w; [by rewrite (rr_local _ _ R) | by rewrite (rr_remote _ _ R)]. Qed.

Lemma last_map (l : list commitment) (f : commitment → commitment) x : List.last (map f l) (f x) = f (List.last l x).
Proof using. induction l as [|y [|z l] IH]; [done..|]. exact IH. Qed.

Lemma restored_tip w : tip (chain_of lc' w) = mem w (match w with Local => lt | Remote => tp end).
Proof using R.
  destruct w; [by rewrite (rr_local _ _ R)|]. rewrite (rr_remote _ _ R). unfold tip. cbn [tail rest]. apply last_map.
Qed.

(** A commitment is no older than the one that a party's HTLCs were read from. *)
Lemma base_first w c p : c ∈ chain_list (chain_of lc w) → (w = Local → c = lt) →
  idx (base p) (counter_party p) ≤ idx c (counter_party p) ∧ idx c p ≤ top p ∧ first p ≤ idx c p.
Proof using Hok.
  intros Hc Hl. destruct (in_order_local t n lc Hok p) as (O1 & O2 & O3 & O4).
  destruct (in_order_local t n lc Hok (counter_party p)) as (_ & _ & O5 & _).
  pose proof (chain_idx _ c p (ck_chain _ _ _ Hok w) Hc). pose proof (chain_idx _ c (counter_party p) (ck_chain _ _ _ Hok w) Hc).
  unfold base, first, top. destruct w; [rewrite Hl in * by done|]; destruct p; cbn [counter_party] in *; lia.
Qed.

Lemma resolved_restored w c p b : c ∈ chain_list (chain_of lc w) → (w = Local → c = lt) →
  b ∈ bares lc p → kept_add p b = true →
  resolved_at lc' p c (pd_htlc_index b) = resolved_at lc p c (pd_htlc_index b).
Proof using Hok H R.
  intros Hc Hl Hb [Ha Hk]%andb_true_iff. apply eq_true_iff_eq. rewrite !resolved_at_true. split.
  - intros (r' & (r & Hr & Hs & _)%restored_bare & Hres & Hlt & Hp). pose proof (shape_is_resolution _ _ Hs) as Hres'.
    rewrite Hres in Hres'. exists r. rewrite <-(shape_log _ _ Hs), <-(shape_parent _ _ Hs) by done. done.
  - intros (r & Hr & Hres & Hlt & Hp).
    destruct (base_first w c (counter_party p) Hc Hl) as (_ & Htop & _).
    destruct (Z.ltb_spec (pd_log_index r) (first (counter_party p))) as [Hf|Hf]; cycle 1.
    { destruct (resolution_restored (counter_party p) r Hr Hres) as (x & Hx & Hs); [lia|].
      destruct (bare_restored _ _ _ Hx Hs) as (r' & Hr' & Hs'). exists r'.
      rewrite (shape_is_resolution _ _ Hs'), (shape_log _ _ Hs'), (shape_parent _ _ Hs') by done. done. }
    exfalso. destruct (base_first w c p Hc Hl) as (Hbc & _ & _).
    assert (first (counter_party p) ≤ idx (base p) (counter_party p)) as Hfb.
    { destruct (in_order_local t n lc Hok p) as (O1 & O2 & O3 & O4). unfold first, base. lia. }
    pose proof (kp_parent _ H _ (base p) (counter_party p) r b (tail_elem _) Hr Hres) as Hpar.
    destruct p; cbn [counter_party] in *; specialize (Hpar ltac:(lia) Hb Ha (eq_sym Hp));
      rewrite (proj2 (Z.ltb_lt _ _) Hpar) in Hk; apply negb_true_iff in Hk;
      apply not_true_iff_false in Hk; apply Hk, resolved_at_true; exists r; split_and!; try done; cbn [counter_party]; lia.
Qed.

(** A commitment lists the same HTLCs with the new logs as with the old. *)
Lemma open_restored w c p : c ∈ chain_list (chain_of lc w) → (w = Local → c = lt) →
  map shape (List.filter (open_at lc' p c) (bares lc' p)) = map shape (List.filter (open_at lc p c) (bares lc p)).
Proof using Hok H R.
  intros Hc Hl.
  assert (∀ q l, List.filter (open_at q p c) l = List.filter (open_at q p c) (List.filter is_add l)) as Hadds.
  { intros q l. rewrite bfilter_bfilter. apply bfilter_ext. intros b _. unfold open_at. by destruct (is_add b). }
  rewrite Hadds. unfold bares at 1.
  assert (List.filter is_add (map bare (ul_values (log_of lc' p))) = map bare (List.filter is_add (ul_values (log_of lc' p)))) as ->.
  { by rewrite bfilter_map. }
  pose proof (restored_adds p) as Hr. rewrite <-(map_bare_shape (List.filter is_add _)) in Hr.
  apply map_shape_Forall2 in Hr. apply map_shape_Forall2.
  assert (List.filter (open_at lc p c) (bares lc p) = List.filter (open_at lc' p c) (List.filter (kept_add p) (bares lc p))) as ->.
  { rewrite bfilter_bfilter. apply bfilter_ext. intros b Hb. destruct (kept_add p b) eqn:Hk.
    - unfold open_at. by rewrite (resolved_restored w c p b Hc Hl Hb Hk).
    - cbn [andb]. apply not_true_iff_false. intros (Ha & Hlt & Hop)%open_at_true. apply not_true_iff_false in Hk. apply Hk.
      unfold kept_add. rewrite Ha. cbn [andb]. destruct (base_first w c p Hc Hl) as (Hbc & Htop & _).
      destruct (Z.ltb_spec (pd_log_index b) (idx (base p) p)); [|apply Z.ltb_lt; lia].
      apply negb_true_iff. apply not_true_iff_false. intros (r & Hr1 & Hr2 & Hr3 & Hr4)%resolved_at_true.
      apply not_true_iff_false in Hop. apply Hop, resolved_at_true. exists r. split_and!; try done. lia. }
  assert (∀ b, b ∈ List.filter (kept_add p) (bares lc p) → is_add b = true) as Hba by by intros b [_ [? _]%andb_true_iff]%elem_of_bfilter.
  revert Hr Hba. generalize (map bare (List.filter is_add (ul_values (log_of lc' p)))) (List.filter (kept_add p) (bares lc p)).
  intros xs bs Hr Hba. induction Hr as [|x b xs bs Hx _ IH]; [constructor|]. cbn [List.filter].
  assert (is_add b = true) as Hb by (apply Hba; by left).
  assert (open_at lc' p c x = open_at lc' p c b) as ->.
  { unfold open_at. by rewrite (shape_is_add _ _ Hx), (shape_log _ _ Hx), (shape_htlc _ _ Hx Hb). }
  destruct (open_at lc' p c b); [constructor; [done|]|]; (apply IH; intros y Hy; apply Hba; by right).
Qed.

Lemma keys_map_shape xs bs : map shape xs = map shape bs → (∀ b, b ∈ bs → is_add b = true) → keys xs = keys bs.
Proof using.
  rewrite map_shape_Forall2. induction 1 as [|x b xs bs Hx _ IH]; intros Hb; [done|]. cbn [keys map].
  pose proof (Hb b ltac:(by left)) as Ha. rewrite (shape_htlc _ _ Hx Ha), (shape_amount _ _ Hx) by by apply add_not_fee.
  f_equal. apply IH. intros y Hy. apply Hb. by right.
Qed.

Lemma keys_bare l : (∀ x, x ∈ l → is_add x = true) → keys (map bare l) = keys l.
Proof using.
  induction l as [|x l IH]; intros Hl; [done|]. cbn [keys map]. pose proof (Hl x ltac:(by left)) as Ha.
  rewrite bare_htlc, bare_amount by (done || by apply add_not_fee). f_equal. apply IH. intros y Hy. apply Hl. by right.
Qed.

Lemma open_htlcs_adds l c p x :
  x ∈ (open_htlcs (log_of l p) (log_of l (counter_party p)) (idx c p) (idx c (counter_party p))).*2 → is_add x = true.
Proof using.
  intros ([k y] & -> & Hy)%list_elem_of_fmap. unfold open_htlcs in Hy. apply elem_of_bfilter in Hy as [_ Hy].
  by apply andb_true_iff in Hy as [_ [Hy _]%andb_true_iff].
Qed.

Lemma keys_open l c p :
  keys (open_htlcs (log_of l p) (log_of l (counter_party p)) (idx c p) (idx c (counter_party p))).*2 =
  keys (List.filter (open_at l p c) (bares l p)).
Proof using. rewrite <-open_bares, keys_bare; [done|]. intros x. apply open_htlcs_adds. Qed.

Lemma restored_live w c : c ∈ chain_list (chain_of lc' w) → reflects (log_of lc' Local) (log_of lc' Remote) c.
Proof using Hok H R.
  intros (c0 & Hc & -> & Hl)%restored_chain. pose proof (ck_live _ _ _ Hok w c0 Hc) as Hlive.
  assert (∀ p, keys (htlcs_of (mem w c0) p) = keys (htlcs_of c0 p)) as Hm.
  { assert (∀ l, keys (map disk_htlc_to_pay_desc l) = keys l) as E by (intros l; unfold keys; by rewrite map_map).
    intros []; apply E. }
  assert (∀ p, keys (List.filter (open_at lc' p c0) (bares lc' p)) = keys (List.filter (open_at lc p c0) (bares lc p))) as Ho.
  { intros p. apply keys_map_shape; [by apply (open_restored w) | apply open_adds]. }
  apply (reflects_party lc' _ Local). apply (reflects_party lc _ Local) in Hlive as [E1 E2].
  rewrite !Hm, !(mem_index w). cbn [counter_party] in *.
  pose proof (keys_open lc' c0 Local) as K1. pose proof (keys_open lc' c0 Remote) as K2.
  pose proof (keys_open lc c0 Local) as L1. pose proof (keys_open lc c0 Remote) as L2. cbn [counter_party] in *.
  rewrite K1, K2, !Ho, <-L1, <-L2. done.
Qed.

(** ** Heights *)

Lemma height_zero w c p : c ∈ chain_list (chain_of lc w) → 0 ≤ pd_log_index p → ∀ q, pd_log_index p < idx c q → cm_height c ≠ 0.
Proof using H. intros Hc Hp q Hlt Hz. destruct (kp_zero _ H w c q Hc) as [_ Hq]. specialize (Hq Hz). lia. Qed.

Lemma restored_log_bound p x : x ∈ ul_values (log_of lc' p) → 0 ≤ pd_log_index x < top p.
Proof using Hok H R.
  intros Hx. destruct (restored_shape p x Hx) as (b & Hb & Hs & Ht). rewrite (shape_log _ _ Hs). split; [|done].
  by apply (bare_log_bound t n lc Hok p).
Qed.

Lemma rest_elem (c : commitment) l : rest (chain_of lc Remote) = c :: l → c ∈ chain_list (chain_of lc Remote).
Proof using. intros E. unfold chain_list. rewrite E. by right; left. Qed.

Lemma rest_tip c l : rest (chain_of lc Remote) = c :: l → tp = c ∧ l = [] ∧ cm_height c = cm_height rt + 1.
Proof using Hok H.
  intros E. destruct (pending_cases lc H) as [(E' & _)|(c' & d & E' & _ & Et & _)]; [congruence|].
  rewrite E' in E. injection E as -> <-. split; [done|]. split; [done|].
  apply (cn_heights _ (ck_chain _ _ _ Hok Remote) 1). unfold chain_list. by rewrite E'.
Qed.

(** The height of an entry is that of the oldest commitment that has it. *)
Lemma restored_height w p x c : x ∈ ul_values (log_of lc' p) → c ∈ chain_list (chain_of lc' w) →
  height_on w x ≠ 0 → height_on w x ≤ cm_height c → pd_log_index x < idx c p.
Proof using Hok H R.
  intros Hx (c0 & Hc & -> & Hl)%restored_chain. destruct (restored_heights p x Hx) as [_ ->]. rewrite mem_index.
  change (cm_height (mem w c0)) with (cm_height c0). pose proof (chain_idx _ c0 p (ck_chain _ _ _ Hok w) Hc) as Hi.
  unfold due. destruct w.
  - rewrite Hl by done. destruct (Z.ltb_spec (pd_log_index x) (idx lt p)); [by intros | done].
  - destruct (Z.ltb_spec (pd_log_index x) (idx rt p)); [intros; lia|].
    destruct (rest (chain_of lc Remote)) as [|c1 l] eqn:Er; [done|]. destruct (rest_tip _ _ Er) as (_ & -> & Hh).
    destruct (Z.ltb_spec (pd_log_index x) (idx c1 p)); [|done]. intros _ Hle.
    unfold chain_list in Hc. rewrite Er in Hc. apply elem_of_cons in Hc as [->| ->%list_elem_of_singleton]; [lia | done].
Qed.

Lemma tip_last : rest (chain_of lc Remote) = [] → tp = rt.
Proof using. unfold tip. by intros ->. Qed.

Lemma restored_committed w p x : x ∈ ul_values (log_of lc' p) →
  is_uncommitted w x = false ↔ pd_log_index x < idx (tip (chain_of lc' w)) p.
Proof using Hok H R.
  intros Hx. destruct (restored_heights p x Hx) as [Hh Hd]. rewrite (height_uncommitted w x Hh), Hd, restored_tip, mem_index, Z.eqb_neq.
  destruct (restored_log_bound p x Hx) as [H0 _]. unfold due.
  pose proof (chain_idx _ rt p (ck_chain _ _ _ Hok Remote) (tail_elem _)) as [_ Htp].
  destruct w.
  - destruct (Z.ltb_spec (pd_log_index x) (idx lt p)) as [Hlt|Hge]; [|split; [done | lia]].
    split; [done|]. intros _. by apply (height_zero Local lt x (tail_elem _) H0 p).
  - destruct (Z.ltb_spec (pd_log_index x) (idx rt p)) as [Hlt|Hge].
    { split; [lia|]. intros _. by apply (height_zero Remote rt x (tail_elem _) H0 p). }
    destruct (rest (chain_of lc Remote)) as [|c1 l] eqn:Er.
    { rewrite (tip_last Er). split; [done | lia]. }
    destruct (rest_tip _ _ Er) as (-> & _ & _). destruct (Z.ltb_spec (pd_log_index x) (idx c1 p)) as [Hlt'|]; [|split; [done | lia]].
    split; [done|]. intros _. by apply (height_zero Remote c1 x (rest_elem _ _ Er) H0 p).
Qed.

Lemma restored_height_range w p x : x ∈ ul_values (log_of lc' p) → 0 ≤ height_on w x ≤ cm_height (tip (chain_of lc' w)).
Proof using Hok H R.
  intros Hx. destruct (restored_heights p x Hx) as [_ ->]. rewrite restored_tip.
  pose proof (cn_range _ (ck_chain _ _ _ Hok Local) lt (tail_elem _)) as H1.
  pose proof (cn_range _ (ck_chain _ _ _ Hok Remote) rt (tail_elem _)) as H2. unfold due. destruct w.
  - change (cm_height (mem Local lt)) with (cm_height lt). destruct (_ <? _); lia.
  - change (cm_height (mem Remote tp)) with (cm_height tp). destruct (_ <? _).
    + pose proof (chain_height_tip _ rt (ck_chain _ _ _ Hok Remote) (tail_elem _)). lia.
    + destruct (rest (chain_of lc Remote)) as [|c1 l] eqn:Er; [rewrite (tip_last Er); lia|].
      destruct (rest_tip _ _ Er) as (-> & _ & ?). destruct (_ <? _); lia.
Qed.

(** ** The pair of logs *)

Lemma restored_log_ok p : log_ok (log_of lc' p).
Proof using R. destruct p; [apply (rl_ok _ _ (rr_log_local _ _ R)) | apply (rm_ok _ _ (rr_log_remote _ _ R))]. Qed.

Lemma restored_parent p x : x ∈ ul_values (log_of lc' p) → is_resolution x = true →
  ∃ y, y ∈ ul_values (log_of lc' (counter_party p)) ∧ is_add y = true ∧ pd_htlc_index y = pd_parent_index x ∧ resolves x y.
Proof using Hok H R.
  intros Hx Hr. destruct (restored_not_add p x Hx (resolution_not_add _ Hr)) as (b & Hb & Hs & Hw).
  pose proof (shape_is_resolution _ _ Hs) as Hrb. rewrite Hr in Hrb. symmetry in Hrb.
  assert (∃ a, a ∈ bares lc (counter_party p) ∧ open_at lc (counter_party p) (base (counter_party p)) a = true ∧
    pd_htlc_index a = pd_parent_index b ∧ pd_amount a = pd_amount b) as (a & Ha & Hop & Hi & Hamt).
  { unfold first, top in Hw. destruct p; [by apply (local_parent t n lc Hok H b Hb Hrb) | by apply (remote_parent t n lc Hok H b Hb Hrb)]. }
  apply open_at_true in Hop as (Hadd & Hlt & Hno).
  destruct (add_restored (counter_party p) a Ha) as (y & Hy & Hsy).
  { unfold kept_add. by rewrite Hadd, (proj2 (Z.ltb_lt _ _) Hlt), Hno. }
  exists y. split; [done|]. rewrite (shape_is_add _ _ Hsy), (shape_htlc _ _ Hsy Hadd), (shape_parent _ _ Hs Hrb).
  split; [done|]. split; [done|]. split.
  - rewrite (shape_amount _ _ Hsy), Hamt, (shape_amount _ _ Hs); [done | by apply resolution_not_fee | by apply add_not_fee].
  - intros Ht. rewrite (shape_type _ _ Hs) in Ht. rewrite (shape_rhash _ _ Hsy Hadd), (shape_preimage _ _ Hs Ht).
    destruct (bare_resolves t n lc Hok p b Hb Hrb) as (a' & Ha' & Hadd' & Hi' & _ & Hpre).
    rewrite (bare_add_unique t n lc Hok _ a a' Ha Ha' Hadd Hadd') by congruence. by apply Hpre.
Qed.

Lemma restored_cross p : cross_ok (log_of lc' p) (log_of lc' (counter_party p)).
Proof using Hok H R.
  assert (∀ k x, (k, x) ∈ ul_list (log_of lc' p) → x ∈ ul_values (log_of lc' p)) as Hv by (intros k x Hx; apply elem_of_values; by exists k).
  split.
  - intros k x Hx Hr. destruct (restored_parent p x (Hv _ _ Hx) Hr) as (y & [m Hy]%elem_of_values & Hyx). by exists m, y.
  - intros k x Hx Hr. apply (rr_marks _ _ R); [by apply (Hv k) | done].
  - intros k x k' x' Hx Hx' Hr Hr' He.
    destruct (restored_not_add p x (Hv _ _ Hx) (resolution_not_add _ Hr)) as (b & Hb & Hs & _).
    destruct (restored_not_add p x' (Hv _ _ Hx') (resolution_not_add _ Hr')) as (b' & Hb' & Hs' & _).
    pose proof (shape_is_resolution _ _ Hs) as Hrb. pose proof (shape_is_resolution _ _ Hs') as Hrb'. rewrite Hr in Hrb. rewrite Hr' in Hrb'.
    rewrite (shape_parent _ _ Hs), (shape_parent _ _ Hs') in He by done.
    pose proof (bare_resolution_unique t n lc Hok p b b' Hb Hb' (eq_sym Hrb) (eq_sym Hrb') He) as ->.
    pose proof (restored_log_ok p) as Hl.
    assert (ul_update_index (log_of lc' p) !! pd_log_index b' = Some k) as E1.
    { apply (lo_update _ Hl). exists x. split; [done|]. split; [by apply resolution_not_add | by apply shape_log]. }
    assert (ul_update_index (log_of lc' p) !! pd_log_index b' = Some k') as E2.
    { apply (lo_update _ Hl). exists x'. split; [done|]. split; [by apply resolution_not_add | by apply shape_log]. }
    rewrite E1 in E2. by injection E2.
Qed.

(** ** Both invariants *)

Lemma elem_value p k x : (k, x) ∈ ul_list (log_of lc' p) → x ∈ ul_values (log_of lc' p).
Proof using. intros Hx. apply elem_of_values. by exists k. Qed.

Lemma chain_ok_mem w l : chain_ok (Chain (tail (chain_of lc w)) l) → chain_ok (Chain (mem w (tail (chain_of lc w))) (map (mem w) l)).
Proof using.
  intros [C1 C2 C3]. set (t0 := tail (chain_of lc w)) in *. unfold chain_list in *. cbn [tail rest] in *.
  assert (chain_list (Chain (mem w t0) (map (mem w) l)) = map (mem w) (t0 :: l)) as E by done.
  split; setoid_rewrite E.
  - intros i c (c0 & -> & Hi)%list_lookup_fmap_Some. exact (C1 i c0 Hi).
  - intros c (c0 & -> & Hc)%list_elem_of_fmap. exact (C2 c0 Hc).
  - eapply sorted_map; [|exact C3]. intros a b Hab p. apply Hab.
Qed.

Lemma chain_ok_tail s : chain_ok s → chain_ok (Chain (tail s) []).
Proof using.
  intros [C1 C2 C3]. split.
  - intros [|i] c Hi; [|by destruct i]. exact (C1 0%nat c Hi).
  - intros c ->%list_elem_of_singleton. apply C2; by left.
  - repeat constructor.
Qed.

Lemma restored_chain_ok w : chain_ok (chain_of lc' w).
Proof using Hok R.
  destruct w; [rewrite (rr_local _ _ R); apply (chain_ok_mem Local []) | rewrite (rr_remote _ _ R); apply (chain_ok_mem Remote)].
  - apply chain_ok_tail, (ck_chain _ _ _ Hok).
  - pose proof (ck_chain _ _ _ Hok Remote) as Hc. by destruct (chain_of lc Remote).
Qed.

Lemma mem_funds w c : c ∈ chain_list (chain_of lc w) → funds t c → funds t (mem w c).
Proof using H.
  intros Hc [F1 F2 F3 F4 F5]. assert (∀ l, keys (map disk_htlc_to_pay_desc l) = keys l) as E by (intros l; unfold keys; by rewrite map_map).
  assert (shared (mem w c) = shared c) as Es by (unfold shared; simpl; by rewrite !E).
  split; rewrite ?Es; try done. intros (M1 & M2 & M3). apply F5. split; [done|]. split; [by rewrite (kp_meta _ H w c Hc)|].
  simpl in M3. by rewrite !length_map in M3.
Qed.

Lemma count_top p : ul_htlc_counter (log_of lc' p) = count_of (match p with Local => tp | Remote => lt end) p.
Proof using R. destruct p; [apply (rl_counter _ _ (rr_log_local _ _ R)) | apply (rm_counter _ _ (rr_log_remote _ _ R))]. Qed.

Lemma count_top_le p : ul_htlc_counter (log_of lc' p) ≤ ul_htlc_counter (log_of lc p).
Proof using H R.
  rewrite count_top. destruct p.
  - apply (kp_count _ H Local tp), tip_elem.
  - apply (kp_count _ H Remote lt), tail_elem.
Qed.

Lemma tip_index w p : idx (tip (chain_of lc' w)) p ≤ top p.
Proof using Hok R.
  rewrite restored_tip, mem_index. destruct (in_order_local t n lc Hok p) as (O1 & O2 & O3 & O4).
  destruct w, p; unfold top; lia.
Qed.

Lemma restored_chan_ok : chan_ok t n lc'.
Proof using Hok H R.
  pose proof restored_tail as Ht. pose proof restored_tip as Htp.
  destruct (in_order_local t n lc Hok Local) as (O1 & O2 & O3 & O4).
  split.
  - split; [apply restored_log_ok | apply restored_log_ok | apply (restored_cross Local) | apply (restored_cross Remote)].
  - intros p k x Hx%elem_value Ha. destruct (restored_heights p x Hx) as [Hh _].
    pose proof (ho_add _ Hh Local Ha) as E1. pose proof (ho_add _ Hh Remote Ha) as E2. unfold remove_height in *.
    destruct (pd_remove_heights x). by simplify_eq/=.
  - intros p k x Hx%elem_value Ha. destruct (restored_shape p x Hx) as (b & Hb & Hs & _).
    rewrite (shape_is_add _ _ Hs) in Ha. pose proof (add_not_fee _ Ha). rewrite (shape_amount _ _ Hs) by done.
    apply elem_of_bares in Hb as (m & a & Hin & ->). rewrite bare_amount by done. by apply (ck_amount _ _ _ Hok p m).
  - intros p. destruct (ck_bound _ _ _ Hok p) as [B1 B2]. pose proof (count_top_le p) as Hc. split; [|lia].
    rewrite top_index. pose proof (ck_own _ _ _ Hok Remote Local). pose proof (ck_own _ _ _ Hok Local Remote).
    pose proof (chain_idx _ _ Remote (ck_chain _ _ _ Hok Local) (tail_elem _)). destruct p; unfold top; lia.
  - apply restored_chain_ok.
  - intros w p k x Hx%elem_value. by apply restored_committed.
  - intros w p k x c Hx%elem_value Hr Hc. pose proof (restored_height w p x c Hx Hc) as Hh. unfold height_on in Hh.
    by rewrite (resolution_not_add _ Hr) in Hh.
  - rewrite !Ht, !Htp, !mem_index. split; [done | apply (ck_order _ _ _ Hok)].
  - intros w p. rewrite top_index. apply tip_index.
  - apply restored_live.
  - intros w c (c0 & Hc & -> & _)%restored_chain. apply mem_funds; [done|]. by apply (ck_funds _ _ _ Hok w).
Qed.

Lemma mem_mem w c : mem w (mem w c) = mem w c.
Proof using.
  unfold disk_commit_to_mem_commit. simpl.
  assert (∀ l, map disk_htlc_to_pay_desc (map disk_htlc_to_pay_desc l) = map disk_htlc_to_pay_desc l) as E.
  { intros l. rewrite map_map. by apply map_ext. }
  by rewrite !E.
Qed.

Lemma restored_rest : rest (chain_of lc' Remote) = map (mem Remote) (rest (chain_of lc Remote)).
Proof using R. by rewrite (rr_remote _ _ R). Qed.

Lemma count_mem p c : count_of (mem (counter_party p) c) p = count_of c p.
Proof using. by destruct p. Qed.

Lemma count_mono p c : c ∈ chain_list (chain_of lc' (counter_party p)) → count_of c p ≤ ul_htlc_counter (log_of lc' p).
Proof using Hok H R.
  intros (c0 & Hc & -> & Hl)%restored_chain. rewrite count_mem, count_top. destruct p; cbn [counter_party] in *; [|by rewrite Hl].
  destruct (pending_window t n lc Hok H) as (_ & _ & _ & W). unfold n_adds in W.
  unfold chain_list in Hc. apply elem_of_cons in Hc as [->|Hc]; [lia|].
  destruct (rest (chain_of lc Remote)) as [|c1 l] eqn:Er; [by apply elem_of_nil in Hc|].
  destruct (rest_tip _ _ Er) as (-> & -> & _). apply list_elem_of_singleton in Hc as ->. done.
Qed.

(** Windows of the new logs. *)
Lemma local_values : ∃ outs pend uns, bares lc' Local = map bare outs ++ map bare pend ++ map bare uns ∧
  Forall (λ x, is_add x = true ∧ pd_log_index x < idx rt Local) (map bare outs) ∧
  Forall2 same_shape (map bare pend) (pending_updates lc) ∧
  Forall (λ x, idx rt Local ≤ pd_log_index x < idx tp Local) (map bare pend) ∧
  map shape (map bare uns) = map shape (default [] (oc_remote_unsigned_local_updates (lc_channel_state lc))) ∧
  Forall (λ x, not_add x = true ∧ idx lt Local ≤ pd_log_index x < idx rt Local) (map bare uns).
Proof using H R.
  destruct (rl_values _ _ (rr_log_local _ _ R)) as (outs & pend & uns & Ev & Ho & Hp & Hu & _).
  exists outs, pend, uns. apply read_as_shapes in Ho, Hp. unfold bares. rewrite Ev, !map_app. split; [done|].
  assert (map shape (map bare pend) = map shape (pending_updates lc)) as Ep by (rewrite map_bare_shape; by apply map_shape_Forall2).
  split_and!.
  - apply Forall_map, Forall_forall. intros x Hx. destruct (elem_same_shape _ _ _ Ho Hx) as (b & [_ (Ha & Hlt & _)%open_at_true]%elem_of_bfilter & Hs).
    change (is_add x = true ∧ pd_log_index x < idx rt Local). by rewrite (shape_is_add _ _ Hs), (shape_log _ _ Hs).
  - by apply map_shape_Forall2.
  - apply Forall_map, Forall_forall. intros x Hx. destruct (elem_same_shape _ _ _ Hp Hx) as (b & [_ Hw]%pending_elem & Hs).
    simpl. by rewrite (shape_log _ _ Hs).
  - rewrite map_bare_shape. by apply map_shape_Forall2.
  - apply Forall_map, Forall_forall. intros x Hx. destruct (elem_same_shape _ _ _ Hu Hx) as (y & Hy & Hs).
    destruct (elem_unsigned lc H y Hy) as (b & _ & _ & Hn & Hw). change (not_add x = true ∧ idx lt Local ≤ pd_log_index x < idx rt Local).
    unfold not_add in *. by rewrite (shape_is_add _ _ Hs), (shape_log _ _ Hs).
Qed.

Lemma remote_values : ∃ ins acks, bares lc' Remote = map bare ins ++ map bare acks ∧
  Forall (λ x, is_add x = true) (map bare ins) ∧
  map shape (map bare acks) = map shape (List.filter not_add (default [] (oc_unsigned_acked_updates (lc_channel_state lc)))) ∧
  Forall (λ x, not_add x = true ∧ idx rt Remote ≤ pd_log_index x < idx lt Remote) (map bare acks).
Proof using H R.
  destruct (rm_values _ _ (rr_log_remote _ _ R)) as (ins & acks & Ev & Hi & Hk & _).
  exists ins, acks. apply read_as_shapes in Hi. unfold bares. rewrite Ev, !map_app. split; [done|]. split_and!.
  - apply Forall_map, Forall_forall. intros x Hx. destruct (elem_same_shape _ _ _ Hi Hx) as (b & Hb%open_adds & Hs).
    change (is_add x = true). by rewrite (shape_is_add _ _ Hs).
  - rewrite map_bare_shape. by apply map_shape_Forall2.
  - apply Forall_map, Forall_forall. intros x Hx. destruct (elem_same_shape _ _ _ Hk Hx) as (y & [Hy Hn]%elem_of_bfilter & Hs).
    destruct (elem_acked lc H y Hy Hn) as (b & _ & _ & Hw). change (not_add x = true ∧ idx rt Remote ≤ pd_log_index x < idx lt Remote).
    unfold not_add in *. by rewrite (shape_is_add _ _ Hs), (shape_log _ _ Hs).
Qed.

Lemma Forall_filter_none (P : payment_descriptor → Prop) q l : Forall P l → (∀ x, P x → q x = false) → List.filter q l = [].
Proof using. intros Hl Hq. apply bfilter_none. intros x Hx. apply Hq. rewrite Forall_forall in Hl. by apply Hl. Qed.
Lemma Forall_filter_all (P : payment_descriptor → Prop) q l : Forall P l → (∀ x, P x → q x = true) → List.filter q l = l.
Proof using. intros Hl Hq. apply bfilter_all. intros x Hx. apply Hq. rewrite Forall_forall in Hl. by apply Hl. Qed.

Lemma restored_above c : c ∈ chain_list (chain_of lc Remote) →
  map pd_log_index (above (idx c Local) (bares lc' Local)) = seqZ (idx c Local) (top Local - idx c Local) ∧
  map pd_htlc_index (List.filter is_add (above (idx c Local) (bares lc' Local))) =
    seqZ (cm_our_htlc_index c) (ul_htlc_counter (log_of lc' Local) - cm_our_htlc_index c).
Proof using Hok H R.
  intros Hc. rewrite count_top. cbn [count_of top].
  destruct local_values as (outs & pend & uns & -> & Ho & Hp & Hpw & _ & Hu).
  destruct (pending_window t n lc Hok H) as (W1 & W2 & W3 & W4).
  assert (c = rt ∨ c = tp) as [-> | ->].
  { unfold chain_list in Hc. apply elem_of_cons in Hc as [->|Hc]; [by left|]. right.
    destruct (rest (chain_of lc Remote)) as [|c1 l] eqn:Er; [by apply elem_of_nil in Hc|].
    destruct (rest_tip _ _ Er) as (-> & -> & _). by apply list_elem_of_singleton in Hc. }
  - rewrite !above_app. unfold above. rewrite (Forall_filter_none _ _ _ Ho), (Forall_filter_none _ _ _ Hu), (Forall_filter_all _ _ _ Hpw), app_nil_r;
      [|intros x Hx; apply Z.leb_le || apply Z.leb_gt; lia..]. cbn [app].
    apply map_shape_Forall2 in Hp. rewrite (shapes_logs _ _ Hp), W1, W2. split; [done|].
    assert (map pd_htlc_index (List.filter is_add (map bare pend)) = map pd_htlc_index (List.filter is_add (pending_updates lc))) as ->;
      [|by rewrite W3, W4].
    apply shapes_htlcs; [|by intros b [_ ?]%elem_of_bfilter]. apply map_shape_Forall2, same_shape_filter; [apply shape_is_add|].
    by apply map_shape_Forall2.
  - rewrite !above_app. unfold above.
    pose proof (chain_idx _ rt Local (ck_chain _ _ _ Hok Remote) (tail_elem _)) as [_ Htp].
    rewrite (Forall_filter_none _ _ _ Ho), (Forall_filter_none _ _ _ Hu), (Forall_filter_none _ _ _ Hpw);
      [|intros x Hx; apply Z.leb_gt; lia..]. by rewrite !Z.sub_diag.
Qed.

Lemma between_all i j (l : list payment_descriptor) : Forall (λ x, i ≤ pd_log_index x < j) l → between i j l = l.
Proof using.
  intros Hl. apply (Forall_filter_all _ _ _ Hl). intros x Hx. by rewrite (proj2 (Z.leb_le _ _)), (proj2 (Z.ltb_lt _ _)) by lia.
Qed.
Lemma between_none i j (l : list payment_descriptor) : Forall (λ x, pd_log_index x < i ∨ j ≤ pd_log_index x) l → between i j l = [].
Proof using.
  intros Hl. apply (Forall_filter_none _ _ _ Hl). intros x [Hx|Hx].
  - by rewrite (proj2 (Z.leb_gt _ _)) by lia.
  - by rewrite (proj2 (Z.ltb_ge _ _)), andb_false_r by lia.
Qed.

Lemma restored_diff : map shape (between (idx rt Local) (idx tp Local) (bares lc' Local)) = map shape (pending_updates lc).
Proof using H R.
  destruct local_values as (outs & pend & uns & -> & Ho & Hp & Hpw & _ & Hu). rewrite !between_app.
  rewrite (between_none _ _ (map bare outs)), (between_none _ _ (map bare uns)), (between_all _ _ (map bare pend)), app_nil_r.
  - by apply map_shape_Forall2.
  - done.
  - eapply Forall_impl; [exact Hu|]. intros x Hx. left. apply Hx.
  - eapply Forall_impl; [exact Ho|]. intros x Hx. left. apply Hx.
Qed.

Lemma restored_acked :
  map shape (List.filter not_add (between (idx rt Remote) (idx lt Remote) (bares lc' Remote))) =
  map shape (List.filter not_add (default [] (oc_unsigned_acked_updates (lc_channel_state lc)))).
Proof using H R.
  destruct remote_values as (ins & acks & -> & Hi & Ha & Hk). rewrite between_app, List.filter_app.
  unfold between at 1. rewrite bfilter_comm, (Forall_filter_none _ not_add _ Hi).
  - rewrite between_all, (Forall_filter_all _ not_add _ Hk); [done | by intros x [? _] |].
    eapply Forall_impl; [exact Hk|]. by intros x [_ ?].
  - intros x Hx. unfold not_add. by rewrite Hx.
Qed.

Lemma restored_unsigned :
  map shape (List.filter not_add (between (idx lt Local) (idx rt Local) (bares lc' Local))) =
  map shape (default [] (oc_remote_unsigned_local_updates (lc_channel_state lc))).
Proof using H R.
  destruct local_values as (outs & pend & uns & -> & Ho & Hp & Hpw & Hs & Hu). rewrite !between_app, !List.filter_app.
  rewrite (between_none _ _ (map bare pend)), (between_all _ _ (map bare uns)).
  - unfold between. rewrite bfilter_comm, (Forall_filter_none _ not_add _ Ho), (Forall_filter_all _ not_add _ Hu); [done | by intros x [? _] |].
    intros x [Hx _]. unfold not_add. by rewrite Hx.
  - eapply Forall_impl; [exact Hu|]. by intros x [_ ?].
  - eapply Forall_impl; [exact Hpw|]. intros x Hx. right. apply Hx.
Qed.

Lemma sorted_shapes (l k : list payment_descriptor) : map shape l = map shape k →
  StronglySorted (λ a b, pd_log_index a < pd_log_index b) k → StronglySorted (λ a b, pd_log_index a < pd_log_index b) l.
Proof using.
  intros E Hk. pose (P a b := pd_log_index a < pd_log_index b).
  pose proof (sorted_map P P shape k (λ a b Hab, Hab) Hk) as Hk'. clear Hk. rename Hk' into Hk.
  rewrite <-E in Hk. clear E. induction l as [|x l IH]; [constructor|]. cbn [map] in Hk. apply StronglySorted_inv in Hk as [Hk Hx].
  constructor; [by apply IH|]. apply (Forall_map shape) in Hx. exact Hx.
Qed.

Lemma restored_sorted p : StronglySorted (λ a b, pd_log_index a < pd_log_index b) (List.filter is_add (bares lc' p)).
Proof using H R.
  apply (sorted_shapes _ (List.filter (kept_add p) (bares lc p))).
  - rewrite <-restored_adds. unfold bares. by rewrite bfilter_map, map_bare_shape.
  - eapply sorted_sublist; [|apply (kp_sorted _ H p)]. unfold kept_add. rewrite filter_adds. apply bfilter_sublist.
Qed.

Lemma restored_parents w c p r a : c ∈ chain_list (chain_of lc w) → r ∈ bares lc' p → is_resolution r = true →
  pd_log_index r < idx c p → a ∈ bares lc' (counter_party p) → is_add a = true → pd_htlc_index a = pd_parent_index r →
  ∃ r0 a0, r0 ∈ bares lc p ∧ is_resolution r0 = true ∧ pd_log_index r0 < idx c p ∧ a0 ∈ bares lc (counter_party p) ∧
    is_add a0 = true ∧ pd_htlc_index a0 = pd_parent_index r0 ∧ pd_log_index a = pd_log_index a0.
Proof using Hok H R.
  intros Hc (r0 & Hr0 & Hs & _)%restored_bare Hr Hlt (a0 & Ha0 & Hsa & _)%restored_bare Ha He. exists r0, a0.
  rewrite (shape_is_resolution _ _ Hs) in Hr. rewrite (shape_is_add _ _ Hsa) in Ha.
  rewrite (shape_log _ _ Hs) in Hlt. rewrite (shape_log _ _ Hsa). rewrite (shape_htlc _ _ Hsa Ha), (shape_parent _ _ Hs Hr) in He.
  done.
Qed.

Lemma restored_kept : kept lc'.
Proof using Hok H R.
  pose proof restored_tail as Ht. pose proof restored_tip as Htp.
  split; rewrite ?(rr_params _ _ R), ?(rr_state _ _ R).
  - apply (kp_next _ H).
  - rewrite (rr_height _ _ R), Ht. done.
  - rewrite Ht, mem_mem. apply (kp_local _ H).
  - rewrite Ht, mem_mem. apply (kp_remote _ H).
  - rewrite restored_rest, map_map. rewrite <-(kp_pending _ H). apply map_ext. intros c. apply mem_mem.
  - intros w c (c0 & Hc & -> & _)%restored_chain. done.
  - intros w c p (c0 & Hc & -> & _)%restored_chain. exact (kp_zero _ H w c0 p Hc).
  - intros p c Hc. pose proof (count_mono p c Hc) as Hm. apply restored_chain in Hc as (c0 & Hc & -> & _).
    rewrite mem_index, count_mem in *. destruct (kp_count _ H p c0 Hc) as [C1 C2]. split; [lia|].
    intros b' (b & Hb & Hs & _)%restored_bare Ha Hlt. rewrite (shape_is_add _ _ Hs) in Ha. rewrite (shape_log _ _ Hs) in Hlt.
    rewrite (shape_htlc _ _ Hs Ha). by apply C2.
  - intros c (c0 & Hc & -> & _)%restored_chain. rewrite top_index, mem_index. exact (restored_above c0 Hc).
  - intros w c p pd b' (c0 & Hc & -> & _)%restored_chain Hpd (b & Hb & Hs & _)%restored_bare Ha He.
    rewrite (shape_is_add _ _ Hs) in Ha. rewrite (shape_htlc _ _ Hs Ha) in He. rewrite Hs.
    assert (∃ x, x ∈ htlcs_of c0 p ∧ pd = disk_htlc_to_pay_desc x) as (x & Hx & ->).
    { destruct p; apply list_elem_of_fmap in Hpd as (x & -> & Hx); by exists x. }
    destruct (commit_htlcs t n lc Hok H w c0 p Hc) as [_ Hadds].
    rewrite <-(kp_like _ H w c0 p x b Hc Hx Hb Ha He). apply (restored_entry 0 0 x). by apply Hadds.
  - intros w c p r a (c0 & Hc & -> & _)%restored_chain Hr Hres Hlt Ha Hadd He. rewrite mem_index in *.
    destruct (restored_parents w c0 p r a Hc Hr Hres Hlt Ha Hadd He) as (r0 & a0 & H1 & H2 & H3 & H4 & H5 & H6 & ->).
    by apply (kp_parent _ H w c0 p r0 a0).
  - intros p b' (x & Hx & ->)%elem_restored. destruct (restored_heights p x Hx) as [Hh _]. split.
    + destruct Hh as [H1 H2 H3]. by split.
    + intros w. exact (restored_height_range w p x Hx).
  - intros w p b' c (x & Hx & ->)%elem_restored Hc. exact (restored_height w p x c Hx Hc).
  - intros d Hd. rewrite Ht, Htp, !mem_index, restored_diff. by apply (kp_diff _ H).
  - intros c p r a Hc Hr Hres Hlt Ha Hadd He. rewrite restored_rest in Hc. apply list_elem_of_fmap in Hc as (c0 & -> & Hc).
    rewrite Ht, mem_index in *. assert (c0 ∈ chain_list (chain_of lc Remote)) as Hc' by (by right).
    destruct (restored_parents Remote c0 p r a Hc' Hr Hres Hlt Ha Hadd He) as (r0 & a0 & H1 & H2 & H3 & H4 & H5 & H6 & ->).
    by apply (kp_before _ H c0 p r0 a0).
  - apply restored_sorted.
  - rewrite !Ht, !mem_index. symmetry. apply restored_acked.
  - intros u. rewrite Ht, mem_index. apply (kp_bound _ H).
  - rewrite Ht, mem_index. apply (kp_never _ H).
  - rewrite !Ht, !mem_index, restored_unsigned. done.
  - rewrite !Ht, !mem_index, restored_unsigned. done.
Qed.
End Restored.
