(* ===== verification/ChannelRestarts.v ===== *)
(** * Runs with restarts

    A node stops at any moment between two methods of a channel and starts
    again from the record in the database. This file states that the restart
    succeeds, what is left of the commitments and of the logs, and that the
    channel's funds stay what they are over any number of restarts. *)

From S2P Require Import Prelude Chainfee Shachain UpdateLog Channel ChannelToy ChannelLog ChannelView ChannelInv.
From S2P Require Import ChannelCommit ChannelAfter ChannelSteps ChannelRun ChannelDb ChannelStill.
From S2P Require Import ChannelRestore ChannelKept ChannelKeptSteps ChannelReadLogs ChannelRestart ChannelRestored.

Section Restarts.
Context {HP : HashPrims} {CP : ChannelPrims}.

(** ** What the methods never change *)

Definition set_up (lc : channel) : channel_params * producer :=
  (lc_params lc, oc_revocation_producer (lc_channel_state lc)).

Lemma set_up_still lc lc' : still lc' = still lc → set_up lc' = set_up lc.
Proof.
  intros E. unfold set_up. f_equal; [by apply still_params|].
  exact (f_equal oc_revocation_producer (still_state _ _ E)).
Qed.

Lemma run_set_up op lc lc' : run_op op lc = Some lc' → set_up lc' = set_up lc.
Proof.
  assert (∀ lc1 lc2, still lc' = still lc1 → set_up lc1 = lc2 → set_up lc' = lc2) as Hst.
  { intros lc1 lc2 E <-. by apply set_up_still. }
  destruct (dances op) eqn:Ed; [|intros E; by apply set_up_still, (still_run op)].
  destruct op; try done; cbn [run_op]; unfold on_success.
  - destruct (sign_next_commitment lc) as [lc1 [r|]] eqn:E; [|done]. intros [= ->].
    apply sign_still in E as (_ & c & l & E). by apply (Hst _ _ E).
  - destruct (receive_new_commitment sigs lc) as [lc1 [[]|]] eqn:E; [|done]. intros [= ->].
    apply receive_commitment_still in E as (c & E). by apply (Hst _ _ E).
  - destruct (revoke_current_commitment lc) as [lc1 [r|]] eqn:E; [|done]. intros [= ->].
    apply revoke_still in E as (_ & s & l & _ & E). by apply (Hst _ _ E).
  - destruct (receive_revocation msg lc) as [lc1 [r|]] eqn:E; [|done]. intros [= ->].
    apply revocation_still in E as (nx & rev & st & s & st' & _ & _ & _ & _ & _ & E & Ep & _).
    apply (Hst _ _ E). unfold set_up. simpl. by rewrite Ep.
Qed.

(** ** Runs *)

Inductive node_event :=
| Method (op : channel_op)
| Restart.

Definition node_event_ok (e : node_event) : Prop := match e with Method op => op_ok op | Restart => True end.

(** The record on disk is what memory has of it: every method writes what it
    changes of the record, but for the totals of what was sent and received,
    which [ReceiveNewCommitment] counts and [RevokeCurrentCommitment] writes. *)
Definition restart (lc : channel) : result restore_error channel :=
  new_lightning_channel (lc_params lc) (lc_channel_state lc).

Definition run_event (e : node_event) (lc : channel) : option channel :=
  match e with
  | Method op => run_op op lc
  | Restart => match restart lc with Ok lc' => Some lc' | Err _ => None end
  end.

Fixpoint run_events (es : list node_event) (lc : channel) : option channel :=
  match es with
  | [] => Some lc
  | e :: es => run_event e lc ≫= run_events es
  end.

(** The channels that a run with restarts reaches. *)
Definition reachable_again (lc0 lc : channel) : Prop :=
  ∃ es, Forall node_event_ok es ∧ Z.of_nat (length es) < 2 ^ 64 ∧ run_events es lc0 = Some lc.

(** A new channel, with its record. The producer has a secret for every
    height. *)
Record fresh_record (t : Z) (lc : channel) : Prop := {
  fd_channel : fresh_channel t lc;
  fd_dust w : cm_dust_limit (tail (chain_of lc w)) = cfg_dust_limit (cfg_for (lc_params lc) w);
  fd_counts w p : count_of (tail (chain_of lc w)) p = 0;
  fd_updates : oc_unsigned_acked_updates (lc_channel_state lc) = None ∧
    oc_remote_unsigned_local_updates (lc_channel_state lc) = None;
  fd_secrets h : 0 ≤ h ≤ max_state_hint → ∃ s, producer_at_index (oc_revocation_producer (lc_channel_state lc)) h = Ok s;
}.

Lemma fresh_kept t lc : fresh_record t lc → kept lc.
Proof.
  intros [[Hlogs Hch Htl Hh Hl Hr Hd] Hdust Hcnt [Ha Hu] _].
  assert (∀ p, bares lc p = []) as Eb by (intros p; unfold bares, log_of; rewrite Hlogs; by destruct p).
  assert (∀ p, log_of lc p = new_update_log 0 0) as El by (intros p; unfold log_of; rewrite Hlogs; by destruct p).
  assert (∀ w c, c ∈ chain_list (chain_of lc w) → c = tail (chain_of lc w)) as Ec.
  { intros w c. unfold chain_list. rewrite Hch. by intros ->%list_elem_of_singleton. }
  assert (∀ w p, idx (tail (chain_of lc w)) p = 0) as Ei.
  { intros w p. unfold idx. rewrite (fc_indices _ _ (Htl w)). by destruct p. }
  split; rewrite ?Hd, ?Ha, ?Hu; try done.
  - by rewrite Hh, (fc_height _ _ (Htl Local)).
  - by rewrite Hl.
  - by rewrite Hr.
  - by rewrite Hch.
  - by intros w c ->%Ec.
  - intros w c p ->%Ec. by rewrite Ei.
  - intros p c ->%Ec. rewrite Hcnt, El, Eb. split; [done|]. by intros b ?%elem_of_nil.
  - intros c ->%Ec. rewrite El, Eb, Ei. pose proof (Hcnt Remote Local) as E. cbn [count_of] in E. by rewrite E.
  - intros w c p pd b _ _. rewrite Eb. by intros ?%elem_of_nil.
  - intros w c p r a _. rewrite Eb. by intros ?%elem_of_nil.
  - intros p b. rewrite Eb. by intros ?%elem_of_nil.
  - intros w p b c. rewrite Eb. by intros ?%elem_of_nil.
  - intros c p r a _. rewrite Eb. by intros ?%elem_of_nil.
  - intros p. rewrite Eb. constructor.
  - by rewrite Eb.
  - by intros u ?%elem_of_nil.
  - by rewrite Eb.
  - by rewrite Eb.
Qed.

Section Keeps.
Context {CL : ChannelLaws} (t : Z).
Hypothesis Ht : in_u64 t.

(** What holds at every moment. *)
Record sound (n : Z) (lc : channel) : Prop := {
  so_ok : chan_ok t n lc;
  so_kept : kept lc;
  so_secrets h : 0 ≤ h ≤ max_state_hint → ∃ s, producer_at_index (oc_revocation_producer (lc_channel_state lc)) h = Ok s;
}.

Lemma restart_sound n lc : sound n lc → n < 2 ^ 64 → ∃ lc', restart lc = Ok lc' ∧ reread lc lc' ∧ sound n lc'.
Proof using HP.
  intros [Hok H Hs] Hn. destruct (restart_reads t n lc Hok H) as (lc' & E & R); [|done|].
  - apply Hs, (cn_range _ (ck_chain _ _ _ Hok Local)), tail_elem.
  - exists lc'. split; [done|]. split; [done|]. split.
    + by apply (restored_chan_ok t n lc).
    + by apply (restored_kept t n lc).
    + by rewrite (rr_state _ _ R).
Qed.

Lemma run_event_sound e n lc lc' :
  sound n lc → node_event_ok e → n + 1 < 2 ^ 64 → run_event e lc = Some lc' → sound (n + 1) lc'.
Proof using HP CP CL t Ht.
  intros Hs He Hn E. destruct e as [op|]; simpl in He, E.
  - destruct Hs as [Hok H Hs]. pose proof (run_set_up op lc lc' E) as Eset. unfold set_up in Eset. injection Eset as _ Ep. split.
    + by apply (run_op_ok t Ht op n lc).
    + by apply (run_op_kept t n Ht op lc).
    + by rewrite Ep.
  - destruct (restart_sound n lc Hs) as (lc1 & E1 & _ & [Hok H Hs1]); [lia|]. rewrite E1 in E. injection E as <-.
    split; [|done..]. apply chan_ok_weaken with n; [done | lia].
Qed.

Lemma run_events_sound es n lc lc' :
  sound n lc → Forall node_event_ok es → n + Z.of_nat (length es) < 2 ^ 64 → run_events es lc = Some lc' →
  sound (n + Z.of_nat (length es)) lc'.
Proof using HP CP CL t Ht.
  intros Hs Hes. revert n lc Hs. induction Hes as [|e es He Hes IH]; intros n lc Hs Hn; cbn [run_events length].
  - intros [= <-]. by rewrite Z.add_0_r.
  - intros (lc1 & E1 & E)%bind_Some. cbn [length] in Hn.
    replace (n + Z.of_nat (S (length es))) with (n + 1 + Z.of_nat (length es)) by lia.
    apply (IH (n + 1) lc1); [|lia|done]. apply (run_event_sound e n lc); try done. lia.
Qed.

Lemma reachable_sound lc0 lc : fresh_record t lc0 → reachable_again lc0 lc → ∃ n, sound n lc ∧ n < 2 ^ 64.
Proof using HP CP CL t Ht.
  intros H0 (es & Hes & Hlen & E). exists (0 + Z.of_nat (length es)). split; [|lia].
  apply (run_events_sound es 0 lc0); try done. split; [by apply fresh_chan_ok, fd_channel | by eapply fresh_kept | apply (fd_secrets _ _ H0)].
Qed.

(** A commitment as the database has it. *)
Definition saved (lc : channel) (w : channel_party) (c : commitment) : commitment :=
  disk_commit_to_mem_commit (lc_params lc) w c.

(** The updates that have to be there after a restart: an HTLC that a
    commitment lists, and a settlement or failure that one commitment has and
    another does not. *)
Definition needed (chains : channel_party → commitment_chain) (p : channel_party) (x : payment_descriptor) : Prop :=
  (is_add x = true ∧ ∃ w c, c ∈ chain_list (chains w) ∧ pd_htlc_index x ∈ map pd_htlc_index (htlcs_of c p)) ∨
  (is_resolution x = true ∧ ∃ w c w' c', c ∈ chain_list (chains w) ∧ c' ∈ chain_list (chains w') ∧
     idx c' p ≤ pd_log_index x < idx c p).

Lemma needed_restored n lc lc' p x :
  chan_ok t n lc → kept lc → reread lc lc' → x ∈ ul_values (log_of lc p) → needed (chain_of lc') p x →
  ∃ y, y ∈ ul_values (log_of lc' p) ∧ shape y = shape x.
Proof using HP t.
  intros Hok H R Hx Hneed.
  assert (bare x ∈ bares lc p) as Hb by (apply list_elem_of_fmap; by exists x). rewrite <-(shape_bare x).
  destruct Hneed as [(Ha & w & c & Hc & Hi)|(Hr & w & c & w' & c' & Hc & Hc' & Hlo & Hhi)].
  - apply (restored_chain lc lc' R) in Hc as (c0 & Hc & -> & Hl).
    assert (pd_htlc_index x ∈ map pd_htlc_index (htlcs_of c0 p)) as Hi'.
    { assert (map pd_htlc_index (htlcs_of (disk_commit_to_mem_commit (lc_params lc) w c0) p) = map pd_htlc_index (htlcs_of c0 p)) as E
        by (destruct p; simpl; by rewrite map_map). by rewrite E in Hi. }
    apply (commit_ids t n lc Hok H w c0 p _ Hc) in Hi' as (b & Hb' & Hop & He).
    pose proof Hop as (Hadd & _)%open_at_true. rewrite <-(bare_htlc x Ha) in He.
    rewrite (bare_add_unique t n lc Hok p b (bare x) Hb' Hb Hadd Ha He) in Hop.
    pose proof (open_restored t n lc lc' Hok H R w c0 p Hc Hl) as Eo.
    assert (shape (bare x) ∈ map shape (List.filter (open_at lc p c0) (bares lc p))) as Hin.
    { apply list_elem_of_fmap. exists (bare x). split; [done|]. by apply elem_of_bfilter. }
    rewrite <-Eo in Hin. apply list_elem_of_fmap in Hin as (b' & Es & [Hb1 _]%elem_of_bfilter).
    apply elem_restored in Hb1 as (y & Hy & ->). exists y. split; [done|]. by rewrite Es, shape_bare.
  - apply (restored_chain lc lc' R) in Hc as (c0 & Hc & -> & Hl). apply (restored_chain lc lc' R) in Hc' as (c0' & Hc' & -> & Hl').
    destruct (base_first t n lc Hok w c0 p Hc Hl) as (_ & Htop & _).
    destruct (base_first t n lc Hok w' c0' p Hc' Hl') as (_ & _ & Hfst).
    apply (resolution_restored t n lc lc' Hok H R p (bare x) Hb Hr).
    change (pd_log_index (bare x)) with (pd_log_index x). rewrite (mem_index lc) in Hlo, Hhi. lia.
Qed.

(** C4: In any run of a new channel's methods, interrupted by restarts at any
    points between them, the next restart succeeds too: the channel is read
    back from its record without an error and without a panic, with our oldest
    unrevoked commitment and all of the peer's, as they are saved. Its logs
    have nothing new, and they have what is needed: every HTLC that one of these
    commitments lists and every settlement and failure that one of them has and
    another does not, each under the indexes that it had; and every commitment
    lists just the HTLCs that the logs leave open. (A change of the fee
    rate may get lost, or its place in the log.) *)
Theorem restart_restores lc0 lc :
  fresh_record t lc0 → reachable_again lc0 lc →
  ∃ lc', restart lc = Ok lc' ∧ lc_channel_state lc' = lc_channel_state lc ∧
    lc_current_height lc' = lc_current_height lc ∧
    chain_of lc' Local = Chain (saved lc Local (tail (chain_of lc Local))) [] ∧
    chain_of lc' Remote = Chain (saved lc Remote (tail (chain_of lc Remote))) (map (saved lc Remote) (rest (chain_of lc Remote))) ∧
    (∀ p y, y ∈ ul_values (log_of lc' p) → ∃ x, x ∈ ul_values (log_of lc p) ∧ shape y = shape x) ∧
    (∀ p x, x ∈ ul_values (log_of lc p) → needed (chain_of lc') p x →
       ∃ y, y ∈ ul_values (log_of lc' p) ∧ shape y = shape x) ∧
    ∀ w c p, c ∈ chain_list (chain_of lc' w) →
      keys (htlcs_of c p) = keys (open_htlcs (log_of lc' p) (log_of lc' (counter_party p)) (idx c p) (idx c (counter_party p))).*2.
Proof using HP CP CL t Ht.
  intros H0 Hr. destruct (reachable_sound lc0 lc H0 Hr) as (n & Hs & Hn).
  destruct (restart_sound n lc Hs Hn) as (lc' & E & R & [Hok' _ _]). destruct Hs as [Hok H _].
  exists lc'. split; [done|]. split; [apply (rr_state _ _ R)|]. split; [by rewrite (rr_height _ _ R), (kp_current _ H)|].
  split; [apply (rr_local _ _ R)|]. split; [apply (rr_remote _ _ R)|]. split; [|split].
  - intros p y Hy. destruct (restored_shape t n lc lc' Hok H R p y Hy) as (b & Hb & Hs & _).
    apply list_elem_of_fmap in Hb as (x & -> & Hx). exists x. by rewrite Hs, shape_bare.
  - intros p x. by apply (needed_restored n lc).
  - intros w c p Hc. pose proof (ck_live _ _ _ Hok' w c Hc) as Hl. by apply (reflects_party lc' c p) in Hl as [? _].
Qed.

(** C5: However often a node restarts, and at whatever points of the commitment
    dance, every unrevoked commitment of either chain shares out exactly the
    channel's funds, with no negative balance, and lists the HTLCs that the logs
    leave open at its indexes: the updates that restarts forget were on no
    commitment that counts. *)
Theorem restarts_keep_funds lc0 lc w c p :
  fresh_record t lc0 → reachable_again lc0 lc → c ∈ chain_list (chain_of lc w) →
  0 ≤ cm_our_balance c ∧ 0 ≤ cm_their_balance c ∧ 0 ≤ cm_fee c ∧ shared c ≡₆₄ t ∧ (modest c → shared c = t) ∧
  keys (htlcs_of c p) = keys (open_htlcs (log_of lc p) (log_of lc (counter_party p)) (idx c p) (idx c (counter_party p))).*2.
Proof using HP CP CL t Ht.
  intros H0 Hr Hc. destruct (reachable_sound lc0 lc H0 Hr) as (n & [Hok _ _] & _).
  destruct (ck_funds _ _ _ Hok w c Hc) as [[] [] [] ? ?]. pose proof (ck_live _ _ _ Hok w c Hc) as Hl.
  apply (reflects_party lc c p) in Hl as [? _]. done.
Qed.
End Keeps.
End Restarts.

(** ** A run *)

Lemma toy_secret_loop p h c cs : secret_loop p h (c :: cs) = Ok (secret_candidate p h c).
Proof. reflexivity. Qed.
Lemma toy_secret_made p h : producer_at_index (PrIndependent p) h = Ok (secret_candidate p h 0).
Proof. unfold producer_at_index, ind_at_index. rewrite <-(cons_seq 255 0). apply toy_secret_loop. Qed.

Lemma toy_fresh_record opener : fresh_record 999340000 (toy_channel opener).
Proof.
  split.
  - apply toy_fresh.
  - by intros [].
  - by intros [] [].
  - done.
  - intros h _. exists (secret_candidate (IndependentProducer (replicate 32 Byte.x05)) h 0). apply toy_secret_made.
Defined.

(** The opener signs for an HTLC, stops, and gets the peer's answer after it is
    up again. *)
Definition toy_life : list node_event :=
  [Method (OpAddHTLC toy_add); Method OpSignNextCommitment; Restart;
   Method (OpReceiveRevocation (RevokeAndAck (toy_secret 0) (toy_secret 2) None None));
   Method (OpReceiveNewCommitment toy_sigs)].
Definition toy_alive : channel := default (toy_channel true) (run_events toy_life (toy_channel true)).

Lemma toy_alive_reachable : reachable_again (toy_channel true) toy_alive.
Proof. exists toy_life. split_and!; [repeat constructor; done | done |]. vm_compute. reflexivity. Defined.

(** The HTLC is on the peer's commitment alone: ours is not revoked for yet. *)
Lemma restart_restores_witness :
  reachable_again (toy_channel true) toy_alive ∧
  ∃ lc' y, restart toy_alive = Ok lc' ∧ rest (chain_of toy_alive Local) ≠ [] ∧ rest (chain_of lc' Local) = [] ∧
    y ∈ ul_values (log_of lc' Local) ∧ pd_entry_type y = Add ∧ pd_amount y = 5000000.
Proof.
  split; [exact toy_alive_reachable|].
  destruct (restart_restores 999340000 toy_total (toy_channel true) toy_alive (toy_fresh_record true) toy_alive_reachable)
    as (lc' & E & _ & _ & El & Er & _ & Hneed & _).
  destruct (ul_values (log_of toy_alive Local)) as [|x [|]] eqn:Ev; [vm_compute in Ev; discriminate Ev | | vm_compute in Ev; discriminate Ev].
  destruct (Hneed Local x) as (y & Hy & Hs).
  - rewrite Ev. by left.
  - left. vm_compute in Ev. injection Ev as <-. split; [reflexivity|].
    exists Remote, (saved toy_alive Remote (tail (chain_of toy_alive Remote))). split; [rewrite Er; by left|].
    vm_compute. by left.
  - exists lc', y. split; [exact E|]. split; [vm_compute; discriminate|]. split; [rewrite El; reflexivity|]. split; [exact Hy|].
    vm_compute in Ev. injection Ev as <-. split; [rewrite (shape_type _ _ Hs); reflexivity|].
    rewrite (shape_amount _ _ Hs); [reflexivity | discriminate].
Defined.

Lemma restarts_keep_funds_witness :
  reachable_again (toy_channel true) toy_alive ∧ shared (tip (chain_of toy_alive Local)) = 999340000 ∧
  keys (htlcs_of (tip (chain_of toy_alive Local)) Local) = [(0, 5000000)].
Proof.
  assert (modest (tip (chain_of toy_alive Local))) as Hm by (vm_compute; repeat split; done).
  destruct (restarts_keep_funds 999340000 toy_total (toy_channel true) toy_alive Local (tip (chain_of toy_alive Local)) Local
    (toy_fresh_record true) toy_alive_reachable (tip_elem _)) as (_ & _ & _ & _ & Hs & _).
  split; [exact toy_alive_reachable|]. split; [by apply Hs | vm_compute; reflexivity].
Defined.
