(* ===== verification/ChannelPeers.v ===== *)
(** * Two channels that talk to each other

    The two ends of a channel and the messages between them, in order. The
    first part is the system: what a node sends after each method, and the
    method that each message calls (htlcswitch/link.go). The second part is
    what the messages in flight are the difference of. *)

From S2P Require Import Prelude Chainfee Shachain UpdateLog Channel ChannelLog ChannelView ChannelInv ChannelCommit.
From S2P Require Import ChannelAfter ChannelSteps ChannelRun ChannelHist ChannelPast ChannelCompact ChannelClosed.
From S2P Require Import ChannelPastSteps.

(** ** Messages *)

Inductive message :=
| MsgAdd (htlc : update_add_htlc)
| MsgSettle (preimage : bytes) (id : Z)
| MsgFail (id : Z)                  (* [UpdateFailHTLC] and [UpdateFailMalformedHTLC] *)
| MsgFee (fee_per_kw : Z)
| MsgCommitSig (sigs : list bytes)
| MsgRevoke (msg : revoke_and_ack).

Section System.
Context {HP : HashPrims} {CP : ChannelPrims}.

Definition set_uah_id (i : Z) (htlc : update_add_htlc) : update_add_htlc :=
  UpdateAddHTLC i (uah_amount htlc) (uah_payment_hash htlc) (uah_expiry htlc) (uah_noop htlc).

Definition when_ok {A} (r : result channel_error A) (f : A → message) : list message :=
  match r with Ok a => [f a] | Err _ => [] end.

(** What a node sends after a method of its own. *)
Definition sent (op : channel_op) (lc : channel) : list message :=
  match op with
  | OpAddHTLC htlc => when_ok (add_htlc htlc lc).2 (λ i, MsgAdd (set_uah_id i htlc))
  | OpSettleHTLC preimage i => when_ok (settle_htlc preimage i lc).2 (λ _, MsgSettle preimage i)
  | OpFailHTLC i => when_ok (fail_htlc i lc).2 (λ _, MsgFail i)
  | OpMalformedFailHTLC i => when_ok (malformed_fail_htlc i lc).2 (λ _, MsgFail i)
  | OpUpdateFee rate => when_ok (update_fee rate lc).2 (λ _, MsgFee rate)
  | OpSignNextCommitment => when_ok (sign_next_commitment lc).2 MsgCommitSig
  | OpRevokeCurrentCommitment => when_ok (revoke_current_commitment lc).2 (λ r, MsgRevoke r.1.1)
  | _ => []
  end.

(** The methods that a node calls by itself. *)
Definition own_op (op : channel_op) : bool :=
  match op with
  | OpReceiveHTLC _ | OpReceiveHTLCSettle _ _ | OpReceiveFailHTLC _ | OpReceiveUpdateFee _
  | OpReceiveNewCommitment _ | OpReceiveRevocation _ => false
  | _ => true
  end.

(** The method that a message calls. *)
Definition receive_op (m : message) : channel_op :=
  match m with
  | MsgAdd htlc => OpReceiveHTLC htlc
  | MsgSettle preimage i => OpReceiveHTLCSettle preimage i
  | MsgFail i => OpReceiveFailHTLC i
  | MsgFee rate => OpReceiveUpdateFee rate
  | MsgCommitSig sigs => OpReceiveNewCommitment sigs
  | MsgRevoke msg => OpReceiveRevocation msg
  end.

(** A link fails on a message that its channel does not accept. *)
Definition accepted (m : message) (lc : channel) : bool :=
  match m with
  | MsgAdd htlc => is_ok (receive_htlc htlc lc).2
  | MsgSettle preimage i => is_ok (receive_htlc_settle preimage i lc).2
  | MsgFail i => is_ok (receive_fail_htlc i lc).2
  | MsgFee rate => is_ok (receive_update_fee rate lc).2
  | MsgCommitSig sigs => is_ok (receive_new_commitment sigs lc).2
  | MsgRevoke msg => is_ok (receive_revocation msg lc).2
  end.

(** The nodes, and the messages that each has sent and the other has not
    received yet, oldest first. *)
Record peers := Peers { pe_node : channel_party → channel; pe_link : channel_party → list message }.

Definition update_at {A} (p : channel_party) (a : A) (f : channel_party → A) : channel_party → A :=
  λ q, if decide (q = p) then a else f q.

Inductive peers_step : peers → peers → Prop :=
| StepOwn s p op lc :
    own_op op = true → op_ok op → run_op op (pe_node s p) = Some lc →
    peers_step s (Peers (update_at p lc (pe_node s))
                        (update_at p (pe_link s p ++ sent op (pe_node s p)) (pe_link s)))
| StepDeliver s p m ms lc :
    pe_link s (counter_party p) = m :: ms → accepted m (pe_node s p) = true →
    run_op (receive_op m) (pe_node s p) = Some lc →
    peers_step s (Peers (update_at p lc (pe_node s)) (update_at (counter_party p) ms (pe_link s))).
End System.

(** ** What is in flight *)

Inductive event := EUpdate (up : update) | ESign | ERevoke.
#[export] Instance event_eq_decision : EqDecision event.
Proof. solve_decision. Defined.

(** The updates that a party made, and how many of them it has signed for. *)
Definition apply_event (x : list update * Z) (e : event) : list update * Z :=
  match e with
  | EUpdate up => (add_update x.2 up x.1, x.2)
  | ESign => (x.1, Z.of_nat (length x.1))
  | ERevoke => x
  end.

Definition count (e : event) (es : list event) : nat := length (List.filter (λ x, bool_decide (x = e)) es).

Lemma count_app e es es' : count e (es ++ es') = (count e es + count e es')%nat.
Proof. unfold count. by rewrite List.filter_app, length_app. Qed.
Lemma count_cons e x es : count e (x :: es) = ((if bool_decide (x = e) then 1 else 0) + count e es)%nat.
Proof. unfold count. simpl. by case_bool_decide. Qed.
Lemma count_zero e es : count e es = 0%nat → e ∉ es.
Proof.
  induction es as [|x es IH]; [intros _ ?%elem_of_nil; done|]. rewrite count_cons. case_bool_decide; [lia|].
  intros H' [->|Hin]%elem_of_cons; [done|]. by apply IH.
Qed.

Definition in_order (x : list update * Z) : Prop := x.2 ≤ Z.of_nat (length x.1).

Lemma apply_event_grows x e :
  in_order x → in_order (apply_event x e) ∧ x.2 ≤ (apply_event x e).2 ∧
  (∀ j, j ≤ x.2 → upto j (apply_event x e).1 = upto j x.1) ∧
  (∀ k up, x.1 !! k = Some up → up_is_fee up = false → (apply_event x e).1 !! k = Some up).
Proof.
  unfold in_order. intros Hx. destruct e as [up| |]; simpl; [|split_and!; done || lia..].
  pose proof (add_update_length x.2 up x.1). split_and!; [lia | done | |].
  - intros j Hj. apply add_update_upto; lia.
  - intros k up' Hk Hf. apply add_update_lookup; [done | by right].
Qed.

Lemma apply_events_grow es x :
  in_order x → let y := foldl apply_event x es in
  in_order y ∧ x.2 ≤ y.2 ∧ (∀ j, j ≤ x.2 → upto j y.1 = upto j x.1) ∧
  (∀ k up, x.1 !! k = Some up → up_is_fee up = false → y.1 !! k = Some up).
Proof.
  revert x. induction es as [|e es IH]; intros x Hx; simpl; [done|].
  destruct (apply_event_grows x e Hx) as (H1 & H2 & H3 & H4). destruct (IH _ H1) as (I1 & I2 & I3 & I4).
  split_and!; [done | lia | |].
  - intros j Hj. rewrite I3 by lia. by apply H3.
  - intros k up Hk Hf. apply I4; [by apply H4 | done].
Qed.

Lemma apply_events_unsigned es x : ESign ∉ es → (foldl apply_event x es).2 = x.2.
Proof.
  revert x. induction es as [|e es IH]; intros x Hn; simpl; [done|]. rewrite IH.
  - destruct e; try done. destruct Hn. by left.
  - intros Hin. apply Hn. by right.
Qed.

(** ** Flows *)

Section Flow.
Context {HP : HashPrims} {CP : ChannelPrims}.

(** From the node [a] with histories [ha] to the node [b] with [hb]: the
    messages in flight are what [a] is ahead. *)
Record flow (a : channel) (ha : dual (list update)) (b : channel) (hb : dual (list update)) (es : list event) :
    Prop := {
  fl_state : foldl apply_event (dual_remote hb, covered b Remote) es = (dual_local ha, covered a Local);
  fl_tip : cm_height (tip (chain_of a Remote)) = cm_height (tip (chain_of b Local)) + Z.of_nat (count ESign es);
  fl_tail : cm_height (tail (chain_of a Local)) = cm_height (tail (chain_of b Remote)) + Z.of_nat (count ERevoke es);
  fl_acked pre post : es = pre ++ ESign :: post →
    ∃ c, chain_list (chain_of b Remote) !! count ERevoke pre = Some c ∧
      idx (tip (chain_of a Remote)) Remote = idx c Local;
  fl_pairs c c' : c ∈ chain_list (chain_of a Remote) → c' ∈ chain_list (chain_of b Local) →
    cm_height c = cm_height c' → idx c Local = idx c' Remote ∧ idx c Remote = idx c' Local;
  fl_amounts i am : EUpdate (UpSettle i am) ∈ es ∨ EUpdate (UpFail i am) ∈ es →
    ∃ k r e, dual_remote ha !! k = Some (UpAdd r e am i);
  fl_window : (length (rest (chain_of a Remote)) ≤ 1)%nat;
}.

(** What one node does, to its histories and chains, with the event that it
    issues or takes. *)
Inductive move (lc : channel) (h : dual (list update)) :
    option event → option event → channel → dual (list update) → Prop :=
| MvQuiet lc' : chains_kept lc lc' → move lc h None None lc' h
| MvIssue up lc' :
    chains_kept lc lc' →
    (∀ i am, up = UpSettle i am ∨ up = UpFail i am → ∃ k r e, dual_remote h !! k = Some (UpAdd r e am i)) →
    move lc h (Some (EUpdate up)) None lc' (grown h Local (covered lc Local) up)
| MvTake up lc' :
    chains_kept lc lc' → move lc h None (Some (EUpdate up)) lc' (grown h Remote (covered lc Remote) up)
| MvSign c lc' :
    rest (chain_of lc Remote) = [] →
    extends lc lc' Remote (Dual (Z.of_nat (length (dual_local h))) (idx (tail (chain_of lc Local)) Remote)) c →
    move lc h (Some ESign) None lc' h
| MvReceive c lc' :
    extends lc lc' Local (Dual (idx (tail (chain_of lc Remote)) Local) (Z.of_nat (length (dual_remote h)))) c →
    move lc h None (Some ESign) lc' h
| MvRevoke lc' : advances lc lc' Local → move lc h (Some ERevoke) None lc' h
| MvAcked lc' : advances lc lc' Remote → move lc h None (Some ERevoke) lc' h.

Definition events (o : option event) : list event := match o with Some e => [e] | None => [] end.

(** Heights name the commitments of a chain. *)
Lemma chain_height_inj s c c' :
  chain_ok s → c ∈ chain_list s → c' ∈ chain_list s → cm_height c = cm_height c' → c = c'.
Proof.
  intros H [i Hi]%list_elem_of_lookup [j Hj]%list_elem_of_lookup E.
  rewrite (cn_heights s H _ _ Hi), (cn_heights s H _ _ Hj) in E. assert (i = j) as -> by lia. congruence.
Qed.

Lemma chain_length s : chain_ok s → cm_height (tip s) = cm_height (tail s) + Z.of_nat (length (rest s)).
Proof.
  intros H. destruct (chain_list_tip s) as [l E]. assert (chain_list s !! length l = Some (tip s)) as Ht.
  { rewrite E. by apply list_lookup_middle. }
  rewrite (cn_heights s H _ _ Ht). assert (length (chain_list s) = S (length l)) as El.
  { rewrite E, length_app. simpl. lia. }
  unfold chain_list in El. simpl in El. lia.
Qed.

Lemma advance_list s s' : advance_tail s = Some s' → chain_list s = tail s :: chain_list s'.
Proof. unfold advance_tail, chain_list. destruct (rest s); [done|]. by intros [= <-]. Qed.

Lemma advance_tip s s' : advance_tail s = Some s' → tip s' = tip s.
Proof.
  destruct s as [x [|y l]]; [done|]. intros [= <-]. unfold tip. cbn [tail rest].
  destruct l as [|z l _] using rev_ind; [done|]. by rewrite app_comm_cons, !last_last.
Qed.

Lemma advance_height s s' : chain_ok s → advance_tail s = Some s' → cm_height (tail s') = cm_height (tail s) + 1.
Proof. intros H Ha. by destruct (chain_ok_advance s s' H Ha) as (_ & _ & _ & ? & _). Qed.

Lemma grown_local h s up : grown h Local s up = Dual (add_update s up (dual_local h)) (dual_remote h).
Proof. done. Qed.
Lemma grown_remote h s up : grown h Remote s up = Dual (dual_local h) (add_update s up (dual_remote h)).
Proof. done. Qed.

Lemma kept_covered lc lc' p : chains_kept lc lc' → covered lc' p = covered lc p.
Proof. intros [_ H]. unfold covered. by rewrite H. Qed.

Section Out.
Context (a : channel) (ha : dual (list update)) (b : channel) (hb : dual (list update)) (es es' : list event).
Hypothesis Ha : ∀ w, chain_ok (chain_of a w).
Hypothesis Hb : ∀ w, chain_ok (chain_of b w).
Hypothesis Hf : flow a ha b hb es.
Hypothesis Hr : flow b hb a ha es'.

(** Where the node is ready to sign, it has nothing signed in flight. *)
Lemma signed_window : rest (chain_of a Remote) = [] → count ESign es = 0%nat.
Proof using Ha Hb Hf Hr.
  intros E. pose proof (chain_length _ (Ha Remote)) as H1. rewrite E in H1. simpl in H1.
  pose proof (chain_length _ (Hb Local)). pose proof (fl_tip _ _ _ _ _ Hf). pose proof (fl_tail _ _ _ _ _ Hr). lia.
Qed.

Lemma flow_sign c a' :
  rest (chain_of a Remote) = [] →
  extends a a' Remote (Dual (Z.of_nat (length (dual_local ha))) (idx (tail (chain_of a Local)) Remote)) c →
  flow a' ha b hb (es ++ [ESign]).
Proof using Ha Hb Hf Hr.
  intros Erest [_ Ec Eo Eh Ei]. pose proof (signed_window Erest) as Hz. pose proof (count_zero _ _ Hz) as Hno.
  assert (tip (chain_of a' Remote) = c) as Et by by rewrite Ec, tip_add.
  assert (chain_of a' Local = chain_of a Local) as El by exact Eo.
  split.
  - rewrite foldl_app, (fl_state _ _ _ _ _ Hf). simpl. unfold covered. simpl. rewrite Et. unfold idx. by rewrite Ei.
  - rewrite Et, Eh, count_app, (fl_tip _ _ _ _ _ Hf). unfold count at 3. simpl. lia.
  - rewrite El, count_app, (fl_tail _ _ _ _ _ Hf). unfold count at 3. simpl. lia.
  - intros pre post E.
    assert (pre = es) as ->.
    { destruct post as [|y post _] using rev_ind; [by apply app_inj_tail in E as [-> _]|].
      rewrite app_comm_cons, app_assoc in E. apply app_inj_tail in E as [E _]. destruct Hno. rewrite E.
      apply elem_of_app. right. by left. }
    pose proof (chain_length _ (Hb Remote)) as Hl. pose proof (fl_tail _ _ _ _ _ Hf) as Htl.
    pose proof (fl_tip _ _ _ _ _ Hr) as Htp. pose proof (chain_length _ (Ha Local)) as Hla.
    destruct (lookup_lt_is_Some_2 (chain_list (chain_of b Remote)) (count ERevoke es)) as [c' Hc'].
    { unfold chain_list. simpl. lia. }
    exists c'. split; [done|]. rewrite Et. unfold idx at 1. rewrite Ei. simpl.
    symmetry. apply (fl_pairs _ _ _ _ _ Hr); [by eapply list_elem_of_lookup_2 | apply tail_elem|].
    rewrite (cn_heights _ (Hb Remote) _ _ Hc'), Htl. done.
  - intros c1 c' Hc1 Hc' E. rewrite Ec, chain_list_add in Hc1.
    apply elem_of_app in Hc1 as [Hc1| ->%list_elem_of_singleton]; [by apply (fl_pairs _ _ _ _ _ Hf)|]. exfalso.
    pose proof (chain_height_tip _ _ (Hb Local) Hc'). pose proof (fl_tip _ _ _ _ _ Hf). lia.
  - intros i am [Hin|Hin]; apply elem_of_app in Hin as [Hin|Hin%list_elem_of_singleton]; try done;
      apply (fl_amounts _ _ _ _ _ Hf i am); [by left | by right].
  - rewrite Ec. unfold add_commitment. simpl. by rewrite Erest.
Qed.

(** What a node does, seen from the other end of what it sends. *)
Lemma flow_out i t a' ha' : move a ha i t a' ha' → flow a' ha' b hb (es ++ events i).
Proof using Ha Hb Hf Hr.
  pose proof flow_sign as Hsign. intros Hm.
  inversion Hm as [? Hk|up ? Hk Hpar|up ? Hk|c ? Erest Hex|c ? Hex|? Hadv|? Hadv]; subst; simpl; rewrite ?app_nil_r.
  - destruct Hf as [F1 F2 F3 F4 F5 F6 F7]. pose proof (proj2 Hk) as Ec. split; rewrite ?Ec, ?(kept_covered a a' _ Hk); done.
  - destruct Hf as [F1 F2 F3 F4 F5 F6 F7]. pose proof (proj2 Hk) as Ec.
    split; rewrite ?Ec, ?(kept_covered a a' _ Hk); try done.
    + by rewrite foldl_app, F1.
    + rewrite count_app, F2. unfold count at 3. simpl. lia.
    + rewrite count_app, F3. unfold count at 3. simpl. lia.
    + intros pre post E. destruct post as [|y post _] using rev_ind; [by apply app_inj_tail in E as [_ ?]|].
      rewrite app_comm_cons, app_assoc in E. apply app_inj_tail in E as [E _]. by eapply F4.
    + intros j am [Hin|Hin]; apply elem_of_app in Hin as [Hin|[= <-]%list_elem_of_singleton];
        try (apply (F6 j am); by auto); simpl; apply Hpar; by auto.
  - destruct Hf as [F1 F2 F3 F4 F5 F6 F7]. pose proof (proj2 Hk) as Ec.
    split; rewrite ?Ec, ?(kept_covered a a' _ Hk); try done.
    intros j am Hin. destruct (F6 j am Hin) as (k & r & e & Hkk). exists k, r, e. simpl.
    apply add_update_lookup; [done | by right].
  - by eapply Hsign.
  - destruct Hf as [F1 F2 F3 F4 F5 F6 F7]. destruct Hex as [_ Ec Eo Eh Ei]. cbn [counter_party] in Eo.
    assert (tail (chain_of a' Local) = tail (chain_of a Local)) as Et by by rewrite Ec.
    split; unfold covered in *; cbn [counter_party] in *; rewrite ?Eo, ?Et; done.
  - destruct Hf as [F1 F2 F3 F4 F5 F6 F7]. destruct Hadv as (_ & Hadv & Eo). cbn [counter_party] in Eo.
    split; unfold covered in *; cbn [counter_party] in *; rewrite ?Eo; try done.
    + by rewrite foldl_app, F1.
    + rewrite count_app, F2. unfold count at 3. simpl. lia.
    + rewrite (advance_height _ _ (Ha Local) Hadv), count_app, F3. unfold count at 3. simpl. lia.
    + intros pre post E. destruct post as [|y post _] using rev_ind; [by apply app_inj_tail in E as [_ ?]|].
      rewrite app_comm_cons, app_assoc in E. apply app_inj_tail in E as [E _]. by eapply F4.
    + intros j am [Hin|Hin]; apply elem_of_app in Hin as [Hin|Hin%list_elem_of_singleton]; try done; apply (F6 j am); auto.
  - destruct Hf as [F1 F2 F3 F4 F5 F6 F7]. destruct Hadv as (_ & Hadv & Eo). cbn [counter_party] in Eo.
    pose proof (advance_tip _ _ Hadv) as Et. pose proof (advance_list _ _ Hadv) as El.
    split; unfold covered in *; cbn [counter_party] in *; rewrite ?Eo, ?Et; try done.
    + intros c c' Hc. apply F5. rewrite El. by right.
    + pose proof (f_equal length El) as Elen. unfold chain_list in Elen. simpl in Elen. lia.
Qed.

(** The commitment that is received is the one that was signed. *)
Lemma flow_receive c a' es1 :
  extends a a' Local (Dual (idx (tail (chain_of a Remote)) Local) (Z.of_nat (length (dual_remote ha)))) c →
  es' = ESign :: es1 → flow b hb a' ha es1.
Proof using Ha Hb Hf Hr.
  intros [_ Ec Eo Eh Ei] ->. destruct Hr as [F1 F2 F3 F4 F5 F6 F7]. cbn [counter_party] in Eo.
  assert (tip (chain_of a' Local) = c) as Et by by rewrite Ec, tip_add.
  assert (idx c Local = idx (tail (chain_of a Remote)) Local ∧ idx c Remote = Z.of_nat (length (dual_remote ha))) as [Ex Ey].
  { unfold idx at 1 3. by rewrite Ei. }
  pose proof (chain_length _ (Hb Remote)) as Hlb. pose proof (chain_length _ (Ha Local)) as Hla.
  pose proof (fl_tail _ _ _ _ _ Hf) as Htl. rewrite count_cons, bool_decide_true in F2 by done.
  assert (count ESign es1 = 0%nat) as Hz by lia. simpl in F1.
  split; rewrite ?Eo, ?Et; try done.
  - unfold covered at 1. cbn [counter_party]. rewrite Et, Ey. done.
  - lia.
  - intros pre post ->. destruct (F4 (ESign :: pre) post eq_refl) as (c' & Hc' & E).
    rewrite count_cons, bool_decide_false in Hc' by done. by exists c'.
  - intros c1 c' Hc1 Hc' E. rewrite Ec, chain_list_add in Hc'.
    apply elem_of_app in Hc' as [Hc'| ->%list_elem_of_singleton]; [by apply F5|].
    assert (c1 = tip (chain_of b Remote)) as ->.
    { apply (chain_height_inj (chain_of b Remote)); [done | done | apply tip_elem | lia]. }
    destruct (F4 [] es1 eq_refl) as (c' & Hc' & E'). simpl in Hc'. injection Hc' as <-.
    split; [|by rewrite Ex].
    pose proof (apply_events_unsigned es1 (dual_remote ha, Z.of_nat (length (dual_remote ha))) (count_zero _ _ Hz)) as Hs.
    rewrite F1 in Hs. simpl in Hs. rewrite Ey, <-Hs. done.
  - intros j am Hin. apply (F6 j am). destruct Hin; [left | right]; by right.
Qed.

(** What a node does, seen from the other end of what it takes. *)
Lemma flow_in i t a' ha' es1 : move a ha i t a' ha' → es' = events t ++ es1 → flow b hb a' ha' es1.
Proof using Ha Hb Hf Hr.
  pose proof flow_receive as Hrec. destruct Hr as [F1 F2 F3 F4 F5 F6 F7]. intros Hm.
  inversion Hm as [? Hk|up ? Hk Hpar|up ? Hk|c ? Erest Hex|c ? Hex|? Hadv|? Hadv]; subst; simpl; intros E; subst es'.
  - pose proof (proj2 Hk) as Ec. split; rewrite ?Ec, ?(kept_covered a a' _ Hk); done.
  - pose proof (proj2 Hk) as Ec. split; rewrite ?Ec, ?(kept_covered a a' _ Hk); done.
  - pose proof (proj2 Hk) as Ec. split; rewrite ?Ec, ?(kept_covered a a' _ Hk); try done.
    + intros pre post ->. destruct (F4 (EUpdate up :: pre) post eq_refl) as (c' & Hc' & E).
      rewrite count_cons, bool_decide_false in Hc' by done. by exists c'.
    + intros j am Hin. apply (F6 j am). destruct Hin; [left | right]; by right.
  - destruct Hex as [_ Ec Eo Eh Ei]. cbn [counter_party] in Eo.
    assert (tail (chain_of a' Remote) = tail (chain_of a Remote)) as Et by by rewrite Ec.
    split; unfold covered in *; cbn [counter_party] in *; rewrite ?Eo, ?Et; try done.
    intros pre post ->. destruct (F4 pre post eq_refl) as (c' & Hc' & E). exists c'. split; [|done].
    rewrite Ec, chain_list_add. by apply lookup_app_l_Some.
  - by eapply Hrec.
  - destruct Hadv as (_ & Hadv & Eo). cbn [counter_party] in Eo.
    pose proof (advance_tip _ _ Hadv) as Et. pose proof (advance_list _ _ Hadv) as El.
    split; unfold covered in *; cbn [counter_party] in *; rewrite ?Eo, ?Et; try done.
    intros c c' Hc Hc'. apply F5; [done|]. rewrite El. by right.
  - destruct Hadv as (_ & Hadv & Eo). cbn [counter_party] in Eo. pose proof (advance_list _ _ Hadv) as El.
    split; unfold covered in *; cbn [counter_party] in *; rewrite ?Eo; try done.
    + rewrite (advance_height _ _ (Ha Remote) Hadv), F3, count_cons, bool_decide_true by done. lia.
    + intros pre post ->. destruct (F4 (ERevoke :: pre) post eq_refl) as (c' & Hc' & E).
      rewrite count_cons, bool_decide_true, El in Hc' by done. by exists c'.
    + intros j am Hin. apply (F6 j am). destruct Hin; [left | right]; by right.
Qed.
End Out.
End Flow.
