(* ===== verification/ChannelSystem.v ===== *)
(** * The invariant of two channels that talk to each other

    Each node's step is a move of [ChannelPeers]; the messages between the
    nodes carry the events of these moves. *)

From S2P Require Import Prelude Chainfee Shachain UpdateLog Channel ChannelLog ChannelView ChannelInv ChannelCommit.
From S2P Require Import ChannelAfter ChannelSteps ChannelRun ChannelHist ChannelPast ChannelCompact ChannelClosed.
From S2P Require Import ChannelPastSteps ChannelPeers.

Section Moves.
Context {HP : HashPrims} {CP : ChannelPrims}.

Inductive carries : message → event → Prop :=
| CarryAdd htlc :
    in_u64 (uah_amount htlc) →
    carries (MsgAdd htlc)
      (EUpdate (UpAdd (uah_payment_hash htlc) (uah_expiry htlc) (uah_amount htlc) (uah_id htlc)))
| CarrySettle preimage i am : carries (MsgSettle preimage i) (EUpdate (UpSettle i am))
| CarryFail i am : carries (MsgFail i) (EUpdate (UpFail i am))
| CarryFee rate : carries (MsgFee rate) (EUpdate (UpFee (msat_of_sat rate)))
| CarrySig sigs : carries (MsgCommitSig sigs) ESign
| CarryRevoke msg : carries (MsgRevoke msg) ERevoke.

Section Node.
Context {CL : ChannelLaws} (t n : Z) (c0 : dual commitment) (h : dual (list update)) (lc : channel).
Hypothesis Ht : in_u64 t.
Hypothesis Hok : chan_ok t n lc.
Hypothesis Hn : n + 1 < 2 ^ 64.
Hypothesis H : chan_past c0 h lc.
Hypothesis Hplain : has_tapscript_root (pr_chan_type (lc_params lc)) = false.

Lemma move_core lc' : same_core lc' lc → move lc h None None lc' h ∧ chan_past c0 h lc'.
Proof using H. intros Hs. split; [by apply MvQuiet, core_chains_kept | by eapply chan_past_core]. Qed.

(** The amount of an HTLC that is looked up is in the history. *)
Lemma lookup_past p i a :
  lookup_htlc i (log_of lc p) = Some a → ∃ k r e, get_for_party h p !! k = Some (UpAdd r e (pd_amount a) i).
Proof using Hok H.
  intros (m & Hin & Ha & <-)%lookup_htlc_Some; [|by eapply pair_log_ok, ck_logs].
  destruct (lh_entry _ _ (ch_log _ _ (cp_hist _ _ _ H) p) m a Hin) as (_ & Hk & _).
  exists (Z.to_nat (pd_log_index a)), (pd_rhash a), (pd_timeout a). rewrite Hk. f_equal.
  revert Ha. unfold is_add, update_of. by destruct (pd_entry_type a).
Qed.

(** What a method of the node's own does. *)
Definition own_move (lc' : channel) (ms : list message) : Prop :=
  ∃ i h', move lc h i None lc' h' ∧ chan_past c0 h' lc' ∧ Forall2 carries ms (events i).

Lemma own_quiet lc' : same_core lc' lc → own_move lc' [].
Proof using H. intros [? ?]%move_core. by exists None, h. Qed.

Lemma own_update {A} (m : M A) up (P : A → Prop) (f : A → message) :
  outcome lc Local up P (m lc).1 (m lc).2 →
  (∀ a, P a → carries (f a) (EUpdate (up a)) ∧ parent_of (up a) = None) →
  own_move (m lc).1 (when_ok (m lc).2 f).
Proof using H.
  unfold outcome. destruct (m lc) as [lc' [a|e]]; simpl; [|intros Hs _; by apply own_quiet].
  intros [[Hk Htk] HP'] Hf. destruct (Hf a HP') as [Hc Hp].
  exists (Some (EUpdate (up a))), (grown h Local (covered lc Local) (up a)). split_and!; [|by apply Htk | by repeat constructor].
  apply MvIssue; [done|]. intros i am [E|E]; by rewrite E in Hp.
Qed.

Lemma own_resolution (m : M ()) i up (f : () → message) :
  resolves_htlc lc Local i up (m lc).1 (m lc).2 →
  (∀ am, carries (f ()) (EUpdate (up am)) ∧ (up am = UpSettle i am ∨ up am = UpFail i am)) →
  own_move (m lc).1 (when_ok (m lc).2 f).
Proof using Hok H.
  unfold resolves_htlc. destruct (m lc) as [lc' [[]|e]]; simpl; [|intros -> _; by apply own_quiet].
  intros (a & Ha & Hk & Htk) Hf. destruct (Hf (pd_amount a)) as [Hc Hup].
  exists (Some (EUpdate (up (pd_amount a)))), (grown h Local (covered lc Local) (up (pd_amount a))).
  split_and!; [|by apply Htk | by repeat constructor].
  apply MvIssue; [done|]. intros j am E. destruct (lookup_past Remote i a Ha) as (k & r & e & Hk').
  exists k, r, e. destruct Hup as [Hup|Hup]; rewrite Hup in E; destruct E as [[= <- <-]|[= <- <-]]; done.
Qed.

Lemma local_length : ul_log_index (log_of lc Local) = Z.of_nat (length (dual_local h)).
Proof using H. apply (lh_index _ _ (ch_log _ _ (cp_hist _ _ _ H) Local)). Qed.
Lemma remote_length : ul_log_index (log_of lc Remote) = Z.of_nat (length (dual_remote h)).
Proof using H. apply (lh_index _ _ (ch_log _ _ (cp_hist _ _ _ H) Remote)). Qed.

Lemma own_move_run op lc' :
  own_op op = true → op_ok op → run_op op lc = Some lc' → own_move lc' (sent op lc).
Proof using All.
  intros Ho Hop. destruct op; simpl in Ho; try done; cbn [run_op sent].
  - intros [= <-]. apply (own_update (add_htlc htlc) _ _ _ (add_htlc_outcome t n lc Hok Hn Hplain htlc)).
    intros i ->. split; [|done]. apply (CarryAdd (set_uah_id _ htlc)). exact Hop.
  - intros [= <-]. apply own_quiet.
    destruct (may_add_outgoing_htlc amt lc) as [lc1 r] eqn:E. by destruct (looks_keeps _ t n lc lc1 r (may_add_looks amt) E).
  - intros [= <-]. apply own_quiet.
    destruct (available_balance FeeBuffer lc) as [lc1 r] eqn:E. by destruct (looks_keeps _ t n lc lc1 r (looks_available_balance FeeBuffer) E).
  - intros [= <-]. apply own_quiet.
    destruct (commit_fee_total_at fee_per_kw lc) as [lc1 r] eqn:E. by destruct (looks_keeps _ t n lc lc1 r (commit_fee_total_looks fee_per_kw) E).
  - intros [= <-]. apply (own_resolution (settle_htlc preimage htlc_index) _ _ _ (settle_htlc_outcome t n lc Hok Hn preimage htlc_index)).
    intros am. split; [constructor | by left].
  - intros [= <-]. apply (own_resolution (fail_htlc htlc_index) _ _ _ (fail_htlc_outcome t n lc Hok Hn htlc_index)).
    intros am. split; [constructor | by right].
  - intros [= <-].
    apply (own_resolution (malformed_fail_htlc htlc_index) _ _ _ (malformed_fail_htlc_outcome t n lc Hok Hn htlc_index)).
    intros am. split; [constructor | by right].
  - intros [= <-]. apply (own_update (update_fee fee_per_kw) _ _ _ (update_fee_outcome t n lc Hok Hn fee_per_kw)).
    intros []. split; [constructor | done].
  - destruct (sign_next_commitment lc) as [lc1 [sigs|]] eqn:E; simpl; [|done]. intros [= <-].
    destruct (past_sign t n c0 h lc lc1 sigs Hok H E) as (Hp & Hr & c & point & Hex & _).
    rewrite local_length in Hex. exists (Some ESign), h. split_and!; [by eapply MvSign | done | by repeat constructor].
  - destruct (revoke_current_commitment lc) as [lc1 [r|]] eqn:E; simpl; [|done]. intros [= <-].
    destruct (past_revoke t n c0 h lc lc1 r Hok H E) as (Hp & Hadv).
    exists (Some ERevoke), h. split_and!; [by apply MvRevoke | done | by repeat constructor].
Qed.

(** What a message does. *)
Definition take_move (e : event) (lc' : channel) : Prop := ∃ h', move lc h None (Some e) lc' h' ∧ chan_past c0 h' lc'.

Lemma take_update {A} (m : M A) up (P : A → Prop) up' :
  outcome lc Remote up P (m lc).1 (m lc).2 → is_ok (m lc).2 = true → (∀ a, P a → up a = up') →
  take_move (EUpdate up') (m lc).1.
Proof using H.
  unfold outcome. destruct (m lc) as [lc' [a|e]]; simpl; [|done].
  intros [[Hk Htk] HP'] _ <-%(λ f, f a HP'). eexists. split; [by apply MvTake | by apply Htk].
Qed.

Lemma take_resolution (m : M ()) i up am :
  resolves_htlc lc Remote i up (m lc).1 (m lc).2 → is_ok (m lc).2 = true →
  (∃ k r e, dual_local h !! k = Some (UpAdd r e am i)) → take_move (EUpdate (up am)) (m lc).1.
Proof using Hok H.
  unfold resolves_htlc. destruct (m lc) as [lc' [[]|e]]; simpl; [|done].
  intros (a & Ha & Hk & Htk) _ (k & r & e & Hk').
  destruct (lookup_past Local i a Ha) as (k1 & r1 & e1 & Hk1).
  pose proof (indexed_inj _ _ _ _ _ _ _ _ _ _ (lh_indexed _ _ (ch_log _ _ (cp_hist _ _ _ H) Local)) Hk' Hk1) as <-.
  simpl in Hk1. rewrite Hk' in Hk1. injection Hk1 as <- <- Eam. rewrite Eam in *.
  eexists. split; [by apply MvTake | by apply Htk].
Qed.

Lemma take_move_run m e lc' :
  carries m e → accepted m lc = true → run_op (receive_op m) lc = Some lc' →
  (∀ i am, e = EUpdate (UpSettle i am) ∨ e = EUpdate (UpFail i am) →
     ∃ k r x, dual_local h !! k = Some (UpAdd r x am i)) →
  take_move e lc'.
Proof using All.
  intros Hc. destruct Hc as [htlc Hamt|preimage i am|i am|rate|sigs|msg]; cbn [accepted receive_op run_op]; intros Hacc.
  - intros [= <-] _. apply (take_update (receive_htlc htlc) _ _ _ (receive_htlc_outcome t n lc Hok Hn Hplain htlc) Hacc).
    by intros i ->.
  - intros [= <-] Ham. apply (take_resolution (receive_htlc_settle preimage i) i (UpSettle i) am
      (receive_htlc_settle_outcome t n lc Hok Hn preimage i) Hacc). apply Ham. by left.
  - intros [= <-] Ham. apply (take_resolution (receive_fail_htlc i) i (UpFail i) am
      (receive_fail_htlc_outcome t n lc Hok Hn i) Hacc). apply Ham. by right.
  - intros [= <-] _. by apply (take_update (receive_update_fee rate) _ _ _ (receive_update_fee_outcome t n lc Hok Hn rate) Hacc).
  - destruct (receive_new_commitment sigs lc) as [lc1 [[]|]] eqn:E; simpl; [|done]. intros [= <-] _.
    destruct (past_receive t n c0 h lc lc1 sigs Hok H E) as (Hp & c & Hex).
    rewrite remote_length in Hex. exists h. split; [by eapply MvReceive | done].
  - destruct (receive_revocation msg lc) as [lc1 [r|]] eqn:E; simpl; [|done]. intros [= <-] _.
    destruct (past_receive_revocation t n c0 h lc lc1 msg r Hok H E) as (Hp & Hadv).
    exists h. split; [by apply MvAcked | done].
Qed.
End Node.
End Moves.
