(* ===== verification/ChannelAgreement.v ===== *)
(** * Two nodes agree on their commitments

    The commitment that a node signs and the one that its peer receives are
    the same, each from its node's side, whatever the two nodes do and however
    their messages cross. *)

From S2P Require Import Prelude Chainfee Shachain UpdateLog Channel ChannelToy ChannelLog ChannelView ChannelInv.
From S2P Require Import ChannelCommit ChannelAfter ChannelSteps ChannelRun ChannelHist ChannelPast ChannelCompact.
From S2P Require Import ChannelClosed ChannelPastSteps ChannelPeers ChannelSystem.

(** ** The other side *)

Record mirrored_params (p p' : channel_params) : Prop := {
  mp_type : pr_chan_type p = pr_chan_type p';
  mp_initiator : pr_is_initiator p = negb (pr_is_initiator p');
  mp_capacity : pr_capacity p = pr_capacity p';
  mp_cfg q : cfg_for p q = cfg_for p' (counter_party q);
}.

(** An output, from the other side: who added the HTLC. *)
Definition mirror_out (o : tx_out) : tx_out :=
  match o with
  | HtlcOut incoming timeout i v => HtlcOut (negb incoming) timeout i v
  | o => o
  end.

(** The same commitment in the eyes of the two nodes: its height, the updates
    it covers, its balances, fee, fee rate and dust limit, its HTLCs in order
    (hash, expiry, amount, index), and its outputs. *)
Record mirrored (c c' : commitment) : Prop := {
  mr_height : cm_height c = cm_height c';
  mr_indices q : idx c q = idx c' (counter_party q);
  mr_balances : cm_our_balance c = cm_their_balance c' ∧ cm_their_balance c = cm_our_balance c';
  mr_fee : cm_fee c = cm_fee c' ∧ cm_fee_per_kw c = cm_fee_per_kw c';
  mr_dust : cm_dust_limit c = cm_dust_limit c';
  mr_htlcs q : updates_of c q = updates_of c' (counter_party q);
  mr_outputs : map mirror_out (cm_txn c) ≡ₚ cm_txn c';
}.

Lemma initiator_mirrored p p' : mirrored_params p p' → initiator p = counter_party (initiator p').
Proof. intros H. unfold initiator. rewrite (mp_initiator _ _ H). by destruct (pr_is_initiator p'). Qed.

Lemma htlc_is_dust_mirrored ct incoming w rate amt dust :
  htlc_is_dust ct incoming w rate amt dust = htlc_is_dust ct (negb incoming) (counter_party w) rate amt dust.
Proof. unfold htlc_is_dust. by destruct incoming, w. Qed.

Lemma up_outputs_mirrored p p' w incoming rate l :
  mirrored_params p p' → up_outputs p w incoming rate l = up_outputs p' (counter_party w) (negb incoming) rate l.
Proof.
  intros H. unfold up_outputs. apply bfilter_ext. intros up _. unfold up_not_dust.
  by rewrite htlc_is_dust_mirrored, (mp_type _ _ H), (mp_cfg _ _ H).
Qed.

Lemma out_of_mirrored incoming l : map mirror_out (map (out_of incoming) l) = map (out_of (negb incoming)) l.
Proof. rewrite map_map. apply map_ext. by intros []. Qed.

Lemma create_commit_tx_mirrored ct dust a b num :
  map mirror_out (create_commit_tx ct dust a b num) = create_commit_tx ct dust a b num.
Proof. unfold create_commit_tx. by repeat case_match. Qed.

(** What the two sides compute from the same numbers is the same. *)
Lemma made_mirrored p p' c c' :
  mirrored_params p p' → made p Remote c → made p' Local c' → cm_fee_per_kw c = cm_fee_per_kw c' →
  (∀ q, updates_of c q = updates_of c' (counter_party q)) →
  cm_dust_limit c = cm_dust_limit c' ∧ cm_fee c = cm_fee c' ∧
  (cm_our_balance c = cm_their_balance c' → cm_their_balance c = cm_our_balance c' →
     map mirror_out (cm_txn c) ≡ₚ cm_txn c').
Proof.
  intros Hp [Hd Hf Ht] [Hd' Hf' Ht'] Er Eu.
  assert (num_outputs p Remote c = num_outputs p' Local c') as En.
  { unfold num_outputs. rewrite !(up_outputs_mirrored p p'), Er, !Eu by done. simpl. lia. }
  assert (cm_dust_limit c = cm_dust_limit c') as Ed by by rewrite Hd, Hd', (mp_cfg _ _ Hp).
  split_and!; [done | by rewrite Hf, Hf', En, Er, (mp_type _ _ Hp)|]. intros Eo Eb.
  rewrite Ht, Ht', !map_app, !out_of_mirrored, create_commit_tx_mirrored, En, Ed, Eo, Eb, (mp_type _ _ Hp).
  apply Permutation_app; [done|].
  rewrite !(up_outputs_mirrored p p'), Er, !Eu by done. simpl. apply Permutation_app_comm.
Qed.


(** In closed form over the same histories, the two sides are the same. *)
Lemma summed_mirrored p p' c0 c0' h h' c c' :
  mirrored_params p p' → mirrored c0 c0' → cm_height c0 = 0 →
  summed c0 h p Remote c → summed c0' h' p' Local c' →
  (∀ q, upto (idx c q) (get_for_party h q) = upto (idx c' (counter_party q)) (get_for_party h' (counter_party q))) →
  (∀ q, idx c q = idx c' (counter_party q)) → cm_height c = cm_height c' →
  (∀ x, x = c ∨ x = c' → 0 ≤ cm_our_balance x < 2 ^ 63 ∧ 0 ≤ cm_their_balance x < 2 ^ 63) →
  mirrored c c'.
Proof.
  intros Hp H0 Hz [Sr Sb Sh Sm] [Sr' Sb' Sh' Sm'] Eh Ei Ehh Hrange. cbv zeta in *.
  assert (cm_fee_per_kw c = cm_fee_per_kw c') as Er.
  { rewrite Sr, Sr', Eh, (initiator_mirrored p p') by done. rewrite counter_party_involutive.
    by rewrite (proj2 (mr_fee _ _ H0)). }
  assert (∀ q, updates_of c q = updates_of c' (counter_party q)) as Eu.
  { intros q. by rewrite Sh, Sh', !Eh, !counter_party_involutive. }
  destruct Sm as [->|[Hpos Hm]].
  { destruct Sm' as [->|[Hpos' _]]; [done|]. exfalso. rewrite Hz in Ehh. lia. }
  destruct Sm' as [->|[Hpos' Hm']]; [exfalso; rewrite <-(mr_height _ _ H0), Hz in Ehh; lia|].
  destruct (made_mirrored p p' c c') as (Ed & Ef & Et); [done..|].
  assert (∀ q, gross p c0 q = gross p' c0' (counter_party q)) as Eg0.
  { destruct (mr_balances _ _ H0) as [E1 E2]. destruct (mr_fee _ _ H0) as [E3 _].
    intros []; simpl; rewrite (mp_initiator _ _ Hp), ?E1, ?E2, E3; by destruct (pr_is_initiator p'). }
  assert (∀ q, gross p c q ≡₆₄ gross p' c' (counter_party q)) as Eg.
  { intros q. by rewrite Sb, Sb', Eg0, !Eh, !counter_party_involutive. }
  destruct (Hrange c) as [R1 R2]; [by left|]. destruct (Hrange c') as [R3 R4]; [by right|].
  assert (cm_our_balance c = cm_their_balance c' ∧ cm_their_balance c = cm_our_balance c') as [Eo Eb].
  { pose proof (Eg Local) as E1. pose proof (Eg Remote) as E2. simpl in E1, E2.
    rewrite (mp_initiator _ _ Hp), Ef in E1, E2.
    split; apply eq64_close; try lia; [clear E2 | clear E1]; destruct (pr_is_initiator p'); simpl in *;
      rewrite ?Z.add_0_r in *; try done;
      match goal with E : ?a + ?f ≡₆₄ ?b + ?f |- _ =>
        transitivity (a + f - f); [eq64_lia|]; transitivity (b + f - f); [by apply eq64_sub | eq64_lia] end. }
  split; try done. by apply Et.
Qed.

(** ** The nodes and their messages *)

Lemma update_at_same {A} p (x : A) f : update_at p x f p = x.
Proof. unfold update_at. by rewrite decide_True. Qed.
Lemma update_at_other {A} p (x : A) f : update_at p x f (counter_party p) = f (counter_party p).
Proof. unfold update_at. rewrite decide_False; [done|]. by destruct p. Qed.
Lemma update_at_cp {A} p (x : A) f : update_at (counter_party p) x f p = f p.
Proof. pose proof (update_at_other (counter_party p) x f) as E. by rewrite counter_party_involutive in E. Qed.

Section Agree.
Context {HP : HashPrims} {CP : ChannelPrims} {CL : ChannelLaws} (t : Z).
Hypothesis Ht : in_u64 t.

(** Two nodes that have just opened a channel without a tapscript root (the
    only kind of channel with HTLCs that pay nobody). *)
Record fresh_peers (s : peers) : Prop := {
  fp_fresh p : fresh_channel t (pe_node s p);
  fp_links p : pe_link s p = [];
  fp_params p : mirrored_params (lc_params (pe_node s p)) (lc_params (pe_node s (counter_party p)));
  fp_plain p : has_tapscript_root (pr_chan_type (lc_params (pe_node s p))) = false;
  fp_tails p : mirrored (tail (chain_of (pe_node s p) Remote)) (tail (chain_of (pe_node s (counter_party p)) Local));
}.

Definition first_commitments (lc : channel) : dual commitment :=
  Dual (tail (chain_of lc Local)) (tail (chain_of lc Remote)).

Record node_ok (n : Z) (lc0 lc : channel) (h : dual (list update)) : Prop := {
  no_ok : chan_ok t n lc;
  no_params : lc_params lc = lc_params lc0;
  no_past : chan_past (first_commitments lc0) h lc;
}.

Definition peers_ok (n : Z) (s0 s : peers) : Prop :=
  ∃ (h : channel_party → dual (list update)) (es : channel_party → list event),
    ∀ p, node_ok n (pe_node s0 p) (pe_node s p) (h p) ∧ Forall2 carries (pe_link s p) (es p) ∧
         flow (pe_node s p) (h p) (pe_node s (counter_party p)) (h (counter_party p)) (es p).

Lemma move_params lc h i e lc' h' : move lc h i e lc' h' → lc_params lc' = lc_params lc.
Proof. intros Hm. inversion Hm as [? [? _]|? ? [? _]|? ? [? _]|? ? ? []|? ? []|? [? _]|? [? _]]; by subst. Qed.

(** A node moves. *)
Lemma peers_move n s0 s p h es i e lc' h' links es1 :
  (∀ p, node_ok n (pe_node s0 p) (pe_node s p) (h p) ∧ Forall2 carries (pe_link s p) (es p) ∧
        flow (pe_node s p) (h p) (pe_node s (counter_party p)) (h (counter_party p)) (es p)) →
  move (pe_node s p) (h p) i e lc' h' → chan_past (first_commitments (pe_node s0 p)) h' lc' →
  chan_ok t (n + 1) lc' → es (counter_party p) = events e ++ es1 →
  Forall2 carries (links p) (es p ++ events i) → Forall2 carries (links (counter_party p)) es1 →
  peers_ok (n + 1) s0 (Peers (update_at p lc' (pe_node s)) links).
Proof using HP CP.
  intros H Hm Hp Hok Ee Hl Hl'. set (q := counter_party p).
  destruct (H p) as ([N1 N2 N3] & _ & Fp). destruct (H q) as ([N1' N2' N3'] & _ & Fq). unfold q in Fq.
  rewrite counter_party_involutive in Fq. fold q in Fp, Fq.
  pose proof (fun w => ck_chain _ _ _ N1 w) as Cp. pose proof (fun w => ck_chain _ _ _ N1' w) as Cq.
  exists (update_at p h' h), (update_at p (es p ++ events i) (update_at q es1 es)).
  intros r. destruct (party_cases p r) as [-> | ->]; cbn [pe_node pe_link].
  - unfold q. rewrite !update_at_same, !update_at_other. split_and!; [|done|].
    + split; [done | rewrite <-N2; by eapply move_params | done].
    + by apply (flow_out (pe_node s p) (h p) (pe_node s q) (h q) (es p) (es q) Cp Cq Fp Fq i e lc' h').
  - rewrite counter_party_involutive, !update_at_same, !update_at_other. fold q. rewrite update_at_same. split_and!; [|done|].
    + split; [eapply chan_ok_weaken; [exact N1' | lia] | done | done].
    + by apply (flow_in (pe_node s p) (h p) (pe_node s q) (h q) (es p) (es q) Cp Cq Fp Fq i e lc' h').
Qed.

(** What the invariant says of its histories and events. *)
Definition all_ok (n : Z) (s0 s : peers) (h : channel_party → dual (list update))
    (es : channel_party → list event) : Prop :=
  ∀ p, node_ok n (pe_node s0 p) (pe_node s p) (h p) ∧ Forall2 carries (pe_link s p) (es p) ∧
       flow (pe_node s p) (h p) (pe_node s (counter_party p)) (h (counter_party p)) (es p).

Lemma node_plain n s0 s h es p :
  fresh_peers s0 → all_ok n s0 s h es → has_tapscript_root (pr_chan_type (lc_params (pe_node s p))) = false.
Proof using Type. intros H0 H. destruct (H p) as ([_ N2 _] & _). rewrite N2. apply (fp_plain _ H0). Qed.

Lemma own_op_move n s0 s h es p op lc' :
  fresh_peers s0 → all_ok n s0 s h es → n + 1 < 2 ^ 64 →
  own_op op = true → op_ok op → run_op op (pe_node s p) = Some lc' →
  own_move (first_commitments (pe_node s0 p)) (h p) (pe_node s p) lc' (sent op (pe_node s p)).
Proof using HP CP CL Ht.
  intros H0 H Hn Hown Hop Hrun. destruct (H p) as ([N1 _ N3] & _).
  by apply (own_move_run t n _ _ _ Ht N1 Hn N3 (node_plain n s0 s h es p H0 H) op lc').
Qed.

Lemma deliver_move n s0 s h es p m ms lc' :
  fresh_peers s0 → all_ok n s0 s h es → n + 1 < 2 ^ 64 →
  pe_link s (counter_party p) = m :: ms → accepted m (pe_node s p) = true →
  run_op (receive_op m) (pe_node s p) = Some lc' →
  ∃ e es1, es (counter_party p) = e :: es1 ∧ carries m e ∧ Forall2 carries ms es1 ∧
    take_move (first_commitments (pe_node s0 p)) (h p) (pe_node s p) e lc'.
Proof using HP CP CL Ht.
  intros H0 H Hn Hlink Hacc Hrun. pose proof (node_plain n s0 s h es p H0 H) as Hplain.
  destruct (H p) as ([N1 N2 N3] & Hl & F). destruct (H (counter_party p)) as ([N1' N2' N3'] & Hl' & F').
  rewrite Hlink in Hl'. apply Forall2_cons_inv_l in Hl' as (e & es1 & Hc & Hl' & Ees).
  rewrite counter_party_involutive, Ees in F'. exists e, es1. split_and!; try done.
  apply (take_move_run t n (first_commitments (pe_node s0 p)) (h p) (pe_node s p) Ht N1 Hn N3 Hplain m e lc'); [done..|].
  intros i am Hi. destruct (fl_amounts _ _ _ _ _ F' i am) as (k & r & x & Hk).
  { destruct Hi as [-> | ->]; [left | right]; by left. }
  pose proof (fl_state _ _ _ _ _ F) as Es.
  destruct (apply_events_grow (es p) (dual_remote (h (counter_party p)), covered (pe_node s (counter_party p)) Remote))
    as (_ & _ & _ & Hgrow).
  { unfold in_order. simpl. unfold covered. simpl.
    apply (own_length (h (counter_party p)) (pe_node s (counter_party p)) Remote Local t n N1' (cp_hist _ _ _ N3')). }
  rewrite Es in Hgrow. exists k, r, x. by apply Hgrow.
Qed.

Lemma peers_step_ok n s0 s s' :
  fresh_peers s0 → peers_ok n s0 s → n + 1 < 2 ^ 64 → peers_step s s' → peers_ok (n + 1) s0 s'.
Proof using HP CP CL Ht.
  intros H0 (h & es & H) Hn Hst. inversion Hst as [? p op lc' Hown Hop Hrun|? p m ms lc' Hlink Hacc Hrun]; subst.
  - destruct (H p) as ([N1 _ _] & Hl & _).
    destruct (own_op_move n s0 s h es p op lc') as (i & h' & Hm & Hp & Hc); [done..|].
    eapply (peers_move n s0 s p h es i None lc' h'); [done | done | done | | done | |].
    + by eapply (run_op_ok t Ht op n (pe_node s p)).
    + rewrite update_at_same. by apply Forall2_app.
    + rewrite update_at_other. simpl. apply H.
  - destruct (H p) as ([N1 _ _] & Hl & _).
    destruct (deliver_move n s0 s h es p m ms lc') as (e & es1 & Ees & Hc & Hl' & h' & Hm & Hp); [done..|].
    eapply (peers_move n s0 s p h es None (Some e) lc' h'); [done | done | done | | exact Ees | |].
    + eapply (run_op_ok t Ht (receive_op m) n (pe_node s p)); [done | | done | done]. by destruct Hc.
    + rewrite update_at_cp. simpl. by rewrite app_nil_r.
    + by rewrite update_at_same.
Qed.

Lemma peers_ok_weaken n m s0 s : peers_ok n s0 s → n ≤ m → peers_ok m s0 s.
Proof using Type.
  intros (h & es & H) Hm. exists h, es. intros p. destruct (H p) as ([N1 N2 N3] & Hl & F).
  split_and!; [|done|done]. split; [by eapply chan_ok_weaken | done | done].
Qed.

(** *** The start *)

Lemma fresh_hist lc : fresh_channel t lc → chan_past (first_commitments lc) (Dual [] []) lc.
Proof using Type.
  intros [Hlogs Hch Htl _ _ _ _].
  assert (∀ p, log_of lc p = new_update_log 0 0) as El by (intros p; unfold log_of; rewrite Hlogs; by destruct p).
  assert (∀ p, get_for_party (Dual [] []) p = @nil update) as Eh by by intros [].
  split; [split|].
  - intros p. rewrite El, Eh. split; try done; [by intros ?? ?%elem_of_nil | constructor].
  - intros p k up i. by rewrite Eh.
  - intros p k up. by rewrite Eh.
  - intros w p k pd. rewrite El. by intros ?%elem_of_nil.
  - intros w p k pd c. rewrite El. by intros ?%elem_of_nil.
  - intros w p k r m a c _. rewrite El. by intros ?%elem_of_nil.
  - intros w c. unfold chain_list. rewrite Hch. intros ->%list_elem_of_singleton.
    assert (get_for_party (first_commitments lc) w = tail (chain_of lc w)) as -> by by destruct w.
    destruct (Htl w) as [_ _ [Ho Hi] _ _ _]. split.
    + cbv zeta. rewrite Eh. unfold upto. by rewrite take_nil.
    + intros q. rewrite !Eh. unfold upto. rewrite !take_nil. unfold own_sum, peer_sum. simpl. by rewrite !Z.add_0_r.
    + intros q. rewrite !Eh. unfold upto, open_updates, updates_of. rewrite !take_nil.
      destruct q; simpl; by rewrite ?Ho, ?Hi.
    + by left.
Qed.

Lemma fresh_peers_ok s0 : fresh_peers s0 → peers_ok 0 s0 s0.
Proof using Type.
  intros H. exists (λ _, Dual [] []), (λ _, []). intros p.
  assert (∀ q w, rest (chain_of (pe_node s0 q) w) = [] ∧ cm_height (tail (chain_of (pe_node s0 q) w)) = 0 ∧
    ∀ r, idx (tail (chain_of (pe_node s0 q) w)) r = 0) as Hq.
  { intros q w. pose proof (fp_fresh _ H q) as F. split_and!.
    - apply (fr_chain _ _ F).
    - apply (fc_height _ _ (fr_tail _ _ F w)).
    - intros r. unfold idx. rewrite (fc_indices _ _ (fr_tail _ _ F w)). by destruct r. }
  assert (∀ q w, tip (chain_of (pe_node s0 q) w) = tail (chain_of (pe_node s0 q) w)) as Et.
  { intros q w. unfold tip. by rewrite (proj1 (Hq q w)). }
  split; [split|split].
  - apply fresh_chan_ok, (fp_fresh _ H).
  - done.
  - apply fresh_hist, (fp_fresh _ H).
  - by rewrite (fp_links _ H).
  - split.
    + cbn [foldl dual_remote dual_local]. unfold covered. rewrite !Et. f_equal.
      transitivity 0; [apply Hq | symmetry; apply Hq].
    + rewrite !Et. by rewrite !(λ q w, proj1 (proj2 (Hq q w))).
    + by rewrite !(λ q w, proj1 (proj2 (Hq q w))).
    + intros [|] post E; discriminate E.
    + intros c c'. unfold chain_list. rewrite !(proj1 (Hq _ _)).
      intros ->%list_elem_of_singleton ->%list_elem_of_singleton _. by rewrite !(proj2 (proj2 (Hq _ _))).
    + by intros i am [?%elem_of_nil|?%elem_of_nil].
    + rewrite (proj1 (Hq _ _)). simpl. lia.
Qed.

Lemma peers_steps_ok n m s0 s s' :
  fresh_peers s0 → peers_ok n s0 s → nsteps peers_step m s s' → n + Z.of_nat m < 2 ^ 64 →
  peers_ok (n + Z.of_nat m) s0 s'.
Proof using CL Ht.
  intros H0 H Hst. revert n H. induction Hst as [s|m s s1 s' Hst Hsts IH]; intros n H Hn.
  - by rewrite Z.add_0_r.
  - replace (n + Z.of_nat (S m)) with (n + 1 + Z.of_nat m) by lia. apply IH; [|lia].
    apply (peers_step_ok n s0 s s1); [done | done | lia | done].
Qed.

(** *** Agreement *)

(** Below the index that the receiver has a signature for, it knows the
    history of the sender. *)
Lemma flow_past a ha b hb es m i :
  flow a ha b hb es → chan_ok t m b → chan_hist hb b → i ≤ covered b Remote →
  upto i (dual_local ha) = upto i (dual_remote hb).
Proof using Type.
  intros F Hok H Hi. pose proof (fl_state _ _ _ _ _ F) as Es.
  destruct (apply_events_grow es (dual_remote hb, covered b Remote)) as (_ & _ & Hup & _).
  { apply (own_length hb b Remote Local t m Hok H). }
  rewrite Es in Hup. by apply Hup.
Qed.

Lemma peers_ok_agree n s0 s p c c' :
  fresh_peers s0 → peers_ok n s0 s →
  c ∈ chain_list (chain_of (pe_node s p) Remote) → c' ∈ chain_list (chain_of (pe_node s (counter_party p)) Local) →
  cm_height c = cm_height c' → mirrored c c'.
Proof using Type.
  intros H0 (h & es & H) Hc Hc' E.
  destruct (H p) as ([N1 N2 N3] & _ & F). destruct (H (counter_party p)) as ([N1' N2' N3'] & _ & F').
  rewrite counter_party_involutive in F'.
  destruct (fl_pairs _ _ _ _ _ F c c' Hc Hc' E) as [EL ER].
  assert (∀ q, idx c q = idx c' (counter_party q)) as Ei by by intros [].
  eapply (summed_mirrored (lc_params (pe_node s p)) (lc_params (pe_node s (counter_party p)))
    (tail (chain_of (pe_node s0 p) Remote)) (tail (chain_of (pe_node s0 (counter_party p)) Local))
    (h p) (h (counter_party p))).
  - rewrite N2, N2'. apply (fp_params _ H0).
  - apply (fp_tails _ H0).
  - apply (fc_height _ _ (fr_tail _ _ (fp_fresh _ H0 p) Remote)).
  - exact (cp_sums _ _ _ N3 Remote c Hc).
  - exact (cp_sums _ _ _ N3' Local c' Hc').
  - intros []; cbn [counter_party get_for_party].
    + rewrite EL. apply (flow_past _ _ _ _ _ n _ F); [done | apply N3'|].
      apply (chain_idx _ _ Remote (ck_chain _ _ _ N1' Local) Hc').
    + rewrite ER. symmetry. apply (flow_past _ _ _ _ _ n _ F'); [done | apply N3|].
      rewrite <-ER. pose proof (chain_idx _ _ Remote (ck_chain _ _ _ N1 Remote) Hc).
      pose proof (covered_max t n (pe_node s p) Remote Remote N1). lia.
  - done.
  - done.
  - intros x [-> | ->].
    + destruct (ck_funds _ _ _ N1 Remote c Hc). done.
    + destruct (ck_funds _ _ _ N1' Local c' Hc'). done.
Qed.

(** C1: Two nodes that open a channel and then call its methods in any order,
    with their messages delivered in order and any number in flight, never
    disagree on a commitment: the commitment that one node keeps for its peer
    at some height, because it signed it, and the one that the peer keeps for
    itself at that height, because it accepted the signature, cover the same
    updates of both logs and have the same balances, fee, fee rate, dust limit,
    HTLCs and outputs, each from its node's side. *)
Theorem peers_agree s0 s n p c c' :
  fresh_peers s0 → nsteps peers_step n s0 s → Z.of_nat n < 2 ^ 64 →
  c ∈ chain_list (chain_of (pe_node s p) Remote) → c' ∈ chain_list (chain_of (pe_node s (counter_party p)) Local) →
  cm_height c = cm_height c' → mirrored c c'.
Proof using CL Ht.
  intros H0 Hst Hn. apply (peers_ok_agree (0 + Z.of_nat n) s0); [done|].
  apply (peers_steps_ok 0 n s0 s0); [done | by apply fresh_peers_ok | done | lia].
Qed.
End Agree.

(** ** A conversation *)

Section Actions.
Context {HP : HashPrims} {CP : ChannelPrims}.

Inductive action := Own (p : channel_party) (op : channel_op) | Deliver (p : channel_party).

Definition act (a : action) (s : peers) : option peers :=
  match a with
  | Own p op =>
      if own_op op then
        lc ← run_op op (pe_node s p);
        Some (Peers (update_at p lc (pe_node s)) (update_at p (pe_link s p ++ sent op (pe_node s p)) (pe_link s)))
      else None
  | Deliver p =>
      match pe_link s (counter_party p) with
      | m :: ms =>
          if accepted m (pe_node s p) then
            lc ← run_op (receive_op m) (pe_node s p);
            Some (Peers (update_at p lc (pe_node s)) (update_at (counter_party p) ms (pe_link s)))
          else None
      | [] => None
      end
  end.

Definition action_ok (a : action) : Prop := match a with Own _ op => op_ok op | Deliver _ => True end.

Fixpoint act_all (l : list action) (s : peers) : option peers :=
  match l with
  | [] => Some s
  | a :: l => act a s ≫= act_all l
  end.

Lemma act_step a s s' : action_ok a → act a s = Some s' → peers_step s s'.
Proof.
  destruct a as [p op|p]; simpl; intros Ha.
  - destruct (own_op op) eqn:E; [|done]. intros (lc & Hrun & [= <-])%bind_Some. by apply StepOwn.
  - destruct (pe_link s (counter_party p)) as [|m ms] eqn:El; [done|].
    destruct (accepted m (pe_node s p)) eqn:E; [|done]. intros (lc & Hrun & [= <-])%bind_Some. by eapply StepDeliver.
Qed.

Lemma act_all_steps l s s' : Forall action_ok l → act_all l s = Some s' → nsteps peers_step (length l) s s'.
Proof.
  intros Hl. revert s. induction Hl as [|a l Ha Hl IH]; intros s; simpl.
  - intros [= <-]. constructor.
  - intros (s1 & H1 & H2)%bind_Some. econstructor; [by eapply act_step | by apply IH].
Qed.
End Actions.

Definition toy_peers : peers :=
  Peers (λ p, match p with Local => toy_channel true | Remote => toy_channel false end) (λ _, []).

(** An HTLC is added and signed for, and a fee update crosses the answer. *)
Definition toy_talk : list action :=
  [Own Local (OpAddHTLC toy_add); Own Local OpSignNextCommitment; Own Local (OpUpdateFee 300);
   Deliver Remote; Deliver Remote; Own Remote OpRevokeCurrentCommitment; Own Remote OpSignNextCommitment;
   Deliver Local; Deliver Remote; Deliver Local; Own Local OpRevokeCurrentCommitment; Own Local OpSignNextCommitment;
   Deliver Remote; Deliver Remote].

Definition toy_talked : peers := default toy_peers (act_all toy_talk toy_peers).

Lemma toy_peers_fresh : fresh_peers 999340000 toy_peers.
Proof.
  split.
  - intros []; apply toy_fresh.
  - done.
  - intros []; by split; [..|intros []].
  - by intros [].
  - intros []; split; try done; by intros [].
Qed.

Lemma toy_talked_steps : nsteps peers_step (length toy_talk) toy_peers toy_talked.
Proof. apply act_all_steps; [by repeat constructor | by vm_compute]. Qed.

(** The second commitment, with a fee update on top of the HTLC, in the two
    nodes' chains. *)
Lemma peers_agree_witness :
  let c := tip (chain_of (pe_node toy_talked Local) Remote) in
  let c' := tip (chain_of (pe_node toy_talked Remote) Local) in
  cm_height c = 2 ∧ cm_our_balance c = 693952000 ∧ keys (htlcs_of c Local) = [(0, 5000000)] ∧ mirrored c c'.
Proof.
  intros c c'. split_and!; [by vm_compute..|].
  apply (peers_agree 999340000 toy_total toy_peers toy_talked (length toy_talk) Local);
    [exact toy_peers_fresh | exact toy_talked_steps | done | apply tip_elem | apply tip_elem | by vm_compute].
Defined.
