(* ===== verification/ChannelSync.v ===== *)
(** * Reestablishing a channel (lnwallet/channel.go, channeldb/channel.go)

    What the ends of a channel tell each other when they are connected again,
    and what each of them sends again. The circuits that go with a commitment,
    the sessions that a taproot channel makes from the nonces, and a commitment's
    signatures on other fundings are left out. *)

From S2P Require Import Prelude Chainfee Shachain UpdateLog Channel ChannelRestore ChannelPeers.

(** ** The message *)

Record channel_reestablish := ChannelReestablish {
  cr_next_local_commit_height : Z;
  cr_remote_commit_tail_height : Z;
  cr_last_remote_commit_secret : bytes;
  cr_local_unrevoked_commit_point : option bytes;
  cr_local_nonces : option (gmap bytes bytes);
  cr_local_nonce : option bytes;
}.

Inductive sync_error :=
| ErrInvalidLastCommitSecret
| ErrCannotSyncCommitChains
| ErrCommitSyncLocalDataLoss (commit_point : bytes)
| ErrCommitSyncRemoteDataLoss
| ErrInvalidLocalUnrevokedCommitPoint
| ErrNoPendingCommit
| ErrSync (e : channel_error).

Definition is_tweakless (c : Z) : bool := has_bit c (Z.shiftl 1 1).

(** A commitment's signatures with the new partial one, of a taproot channel's
    new session (resignMusigCommit). *)
Class MusigPrims := { resign_musig_commit : commitment → list bytes → option (list bytes) }.

Section Sync.
Context {HP : HashPrims} {CP : ChannelPrims} {MP : MusigPrims}.

(** [currentCommitSecret[0] ^= 1] *)
Definition flip_first (b : bytes) : bytes :=
  match b with [] => [] | x :: b => byte.of_Z (Z.lxor (byte.unsigned x) 1) :: b end.

(** The nonce of the next commitment, in the field for the channel's type. *)
Definition sync_nonces (next : Z) (p : channel_params) (s : open_channel) :
    result channel_error (option (gmap bytes bytes) * option bytes) :=
  if is_taproot (pr_chan_type p) then
    let* nonce := new_musig_verification_nonce next (oc_revocation_producer s) in
    Ok (if is_taproot_final (pr_chan_type p) then (Some {[pr_funding_txid p := nonce]}, None) else (None, Some nonce))
  else Ok (None, None).

(** [ChanSyncMsg]. [restored] is a channel of a backup; [logged] is the secret
    that the revocation log has for a height. *)
Definition chan_sync_msg (restored : bool) (logged : Z → result shachain_error bytes) (p : channel_params)
    (s : open_channel) : result channel_error channel_reestablish :=
  let local_height := cm_height (oc_local_commitment s) in
  let remote_height := cm_height (oc_remote_commitment s) in
  let* last_secret := map_err ErrShachain
    (if remote_height =? 0 then Ok zero_hash
     else
       match store_look_up (oc_revocation_store s) (remote_height - 1) with
       | Err ErrSecretNotRetained => logged (remote_height - 1)
       | r => r
       end) in
  let* secret := map_err ErrShachain (producer_at_index (oc_revocation_producer s) local_height) in
  let secret := if restored : bool then flip_first secret else secret in
  let next := if restored && is_tweakless (pr_chan_type p) then 0 else u64 (local_height + 1) in
  let* nonces := sync_nonces next p s in
  Ok (ChannelReestablish next remote_height last_secret (Some (compute_commitment_point secret)) nonces.1 nonces.2).

(** ** What is sent again *)

(** The message of an update in the database. *)
Definition update_message (u : payment_descriptor) : message :=
  match pd_entry_type u with
  | Add | NoOpAdd =>
      MsgAdd (UpdateAddHTLC (pd_htlc_index u) (pd_amount u) (pd_rhash u) (pd_timeout u)
                (bool_decide (pd_entry_type u = NoOpAdd)))
  | Settle => MsgSettle (pd_rpreimage u) (pd_parent_index u)
  | Fail | MalformedFail => MsgFail (pd_parent_index u)
  | FeeUpdate => MsgFee (u32 (to_satoshis (pd_amount u)))
  end.

(** The checks that the peer did not make up its message. *)
Definition check_last_secret (msg : channel_reestablish) (s : open_channel) : result sync_error () :=
  match cr_local_unrevoked_commit_point msg with
  | None => Ok ()
  | Some _ =>
      if cr_remote_commit_tail_height msg =? 0 then Ok ()
      else
        let* secret := map_err (λ e, ErrSync (ErrShachain e))
          (producer_at_index (oc_revocation_producer s) (cr_remote_commit_tail_height msg - 1)) in
        ensure (bool_decide (secret = cr_last_remote_commit_secret msg)) else ErrInvalidLastCommitSecret; Ok ()
  end.

(** A taproot channel needs the peer's next nonce. *)
Definition check_nonce (msg : channel_reestablish) (p : channel_params) : result sync_error () :=
  if is_taproot (pr_chan_type p) then
    match cr_local_nonces msg with
    | Some nonces => ensure (bool_decide (is_Some (nonces !! pr_funding_txid p))) else (ErrSync ErrNoNonce); Ok ()
    | None => ensure (bool_decide (is_Some (cr_local_nonce msg))) else (ErrSync ErrNoNonce); Ok ()
    end
  else Ok ().

Definition check_commit_point (msg : channel_reestablish) (remote_tail : Z) (p : channel_params) (s : open_channel) :
    result sync_error () :=
  match cr_local_unrevoked_commit_point msg with
  | None => Ok ()
  | Some point =>
      let next := cr_next_local_commit_height msg in
      let commit_point :=
        if next =? u64 (remote_tail + 1) then Some (oc_remote_current_revocation s)
        else if next =? u64 (remote_tail + 2) then oc_remote_next_revocation s else None in
      let mismatch := match commit_point with Some q => negb (bool_decide (q = point)) | None => false end in
      ensure (negb (negb (is_tweakless (pr_chan_type p)) && mismatch)) else ErrInvalidLocalUnrevokedCommitPoint; Ok ()
  end.

(** What the peer's view of our chain asks for: our last revocation, and then
    a signature if we owe one. *)
Definition resend_revocation (restored : bool) (msg : channel_reestablish) (lc : channel) :
    channel * result sync_error (list message) :=
  let tail_height := cm_height (tail (chain_of lc Local)) in
  let theirs := cr_remote_commit_tail_height msg in
  if (tail_height <? theirs) || restored then
    (lc, Err (match cr_local_unrevoked_commit_point msg with
              | None => ErrCannotSyncCommitChains
              | Some point => ErrCommitSyncLocalDataLoss point
              end))
  else if u64 (theirs + 1) <? tail_height then (lc, Err ErrCommitSyncRemoteDataLoss)
  else if theirs =? tail_height then (lc, Ok [])
  else if u64 (theirs + 1) =? tail_height then
    match generate_revocation (tail_height - 1) lc with
    | Err e => (lc, Err (ErrSync e))
    | Ok rev =>
        if owe_commitment Local lc then
          match sign_next_commitment lc with
          | (lc, Ok sigs) => (lc, Ok [MsgRevoke rev; MsgCommitSig sigs])
          | (lc, Err ErrNoWindow) => (lc, Ok [MsgRevoke rev])
          | (lc, Err e) => (lc, Err (ErrSync e))
          end
        else (lc, Ok [MsgRevoke rev])
    end
  else (lc, Err ErrCannotSyncCommitChains).

(** What its view of its own chain asks for, after [updates]: the last signature
    with its updates. The heights are those of before. *)
Definition resend_commitment (msg : channel_reestablish) (remote_tail remote_tip : Z) (updates : list message)
    (lc : channel) : result sync_error (list message) :=
  let next := cr_next_local_commit_height msg in
  if u64 (remote_tip + 1) <? next then Err ErrCannotSyncCommitChains
  else if next <=? remote_tail then Err ErrCommitSyncRemoteDataLoss
  else if next =? u64 (remote_tip + 1) then Ok updates
  else if next =? remote_tip then
    match oc_commit_diff (lc_channel_state lc) with
    | None => Err ErrNoPendingCommit
    | Some d =>
        let* sigs :=
          if is_taproot (pr_chan_type (lc_params lc)) then
            match resign_musig_commit (cd_commitment d) (cd_commit_sig d) with
            | Some sigs => Ok sigs
            | None => Err (ErrSync ErrSign)
            end
          else Ok (cd_commit_sig d) in
        let commit_updates := map update_message (cd_log_updates d) ++ [MsgCommitSig sigs] in
        Ok (if oc_last_was_revoke (lc_channel_state lc) then commit_updates ++ updates else updates ++ commit_updates)
    end
  else Err ErrCannotSyncCommitChains.

(** [ProcessChanSyncMsg] *)
Definition process_chan_sync_msg (restored : bool) (msg : channel_reestablish) (lc : channel) :
    channel * result sync_error (list message) :=
  let remote_tail := cm_height (tail (chain_of lc Remote)) in
  let remote_tip := cm_height (tip (chain_of lc Remote)) in
  match (let* _ := check_last_secret msg (lc_channel_state lc) in check_nonce msg (lc_params lc)) with
  | Err e => (lc, Err e)
  | Ok _ =>
      match resend_revocation restored msg lc with
      | (lc, Err e) => (lc, Err e)
      | (lc, Ok updates) =>
          (lc,
           let* updates := resend_commitment msg remote_tail remote_tip updates lc in
           let* _ := check_commit_point msg remote_tail (lc_params lc) (lc_channel_state lc) in
           Ok updates)
      end
  end.
End Sync.
