(* ===== verification/ChannelSyncToy.v ===== *)
(** * Samples of channels that are connected again

    Both nodes stop, with messages lost, read their channels back and tell each
    other where they are. Two samples show what restarting does to changes of
    the fee rate. *)

From S2P Require Import Prelude Chainfee Shachain UpdateLog Channel ChannelToy ChannelRun ChannelPeers.
From S2P Require Import ChannelRestore ChannelRestarts ChannelSync.

(** A message to [b]. *)
Definition deliver (m : message) (b : channel) : option channel :=
  if accepted m b then run_op (receive_op m) b else None.
Definition deliver_all (ms : list message) (b : channel) : option channel :=
  foldl (λ b m, b ≫= deliver m) (Some b) ms.

(** What the nodes do, in order: a method of the opener or of the acceptor,
    whose messages arrive at once, or are lost. *)
Record toy_step := ToyStep { ts_opener : bool; ts_op : channel_op; ts_lost : bool }.
Definition opener_does (op : channel_op) : toy_step := ToyStep true op false.
Definition acceptor_does (op : channel_op) : toy_step := ToyStep false op false.

Definition toy_run_step (s : channel * channel) (t : toy_step) : option (channel * channel) :=
  let '(a, b) := if ts_opener t then s else (s.2, s.1) in
  a' ← run_op (ts_op t) a;
  b' ← deliver_all (if ts_lost t then [] else sent (ts_op t) a) b;
  Some (if ts_opener t then (a', b') else (b', a')).
Definition toy_run (l : list toy_step) (s : channel * channel) : option (channel * channel) :=
  foldl (λ s t, s ≫= λ s, toy_run_step s t) (Some s) l.

#[export] Instance toy_musig : MusigPrims := {| resign_musig_commit _ sigs := Some sigs |}.

(** No secret is looked up in the revocation log. *)
Definition no_log (_ : Z) : result shachain_error bytes := Err ErrSecretNotRetained.
Definition opt {E A} (r : result E A) : option A := match r with Ok a => Some a | Err _ => None end.

(** What [a] sends again once [b] has told it where it is. *)
Definition toy_sync (a b : channel) : option (channel * list message) :=
  msg ← opt (chan_sync_msg false no_log (lc_params b) (lc_channel_state b));
  let '(a', r) := process_chan_sync_msg false msg a in
  ms ← opt r;
  Some (a', ms).

(** Both nodes restart, and the messages that are sent again arrive. *)
Definition toy_reconnect (s : channel * channel) : option (channel * channel) :=
  a ← opt (restart s.1);
  b ← opt (restart s.2);
  '(a', ms) ← toy_sync a b;
  '(b', ms') ← toy_sync b a;
  b' ← deliver_all ms b';
  a' ← deliver_all ms' a';
  Some (a', b').

(** What the opener says to the acceptor's next signature. *)
Definition acceptor_signs (s : channel * channel) : option (result channel_error ()) :=
  match sign_next_commitment s.2 with
  | (_, Ok sigs) => Some (receive_new_commitment sigs s.1).2
  | (_, Err _) => None
  end.

Definition toy_pair : channel * channel := (toy_channel true, toy_channel false).
Definition fee_round (rate : Z) : list toy_step :=
  [opener_does (OpUpdateFee rate); opener_does OpSignNextCommitment; acceptor_does OpRevokeCurrentCommitment;
   acceptor_does OpSignNextCommitment; opener_does OpRevokeCurrentCommitment].

(** The acceptor has revoked for a fee rate of 300 but not signed for it when
    the opener signs for 400, the signature is lost, and both restart.
    [restoreStateLogs] puts the pending update, 400, into the opener's log before
    the older one, 300, so that the opener takes 300 for the last word and does
    not accept the acceptor's signature. Without the restart it does. *)
Lemma restored_fees_swap :
  let run := toy_run (fee_round 260 ++ [opener_does (OpUpdateFee 300); opener_does OpSignNextCommitment;
    acceptor_does OpRevokeCurrentCommitment; opener_does (OpUpdateFee 400)]) toy_pair in
  (s ← run; s ← toy_run [ToyStep true OpSignNextCommitment true] s; s ← toy_reconnect s;
   s ← toy_run [acceptor_does OpRevokeCurrentCommitment] s; acceptor_signs s) = Some (Err ErrInvalidCommitSig) ∧
  (s ← run; s ← toy_run [opener_does OpSignNextCommitment; acceptor_does OpRevokeCurrentCommitment] s;
   acceptor_signs s) = Some (Ok ()).
Proof. split; vm_compute; reflexivity. Qed.

(** The acceptor has revoked for the first change of the fee rate of a channel
    on whose own commitment nothing was ever changed, and its signature is lost.
    [AdvanceCommitChainTail] returned before it saved the change, so that the
    opener does not know it after a restart and refuses the signature that is
    sent again. In any later round it is saved. *)
Definition loses_signature (before : list toy_step) : option (channel * channel) :=
  toy_run (before ++ [opener_does (OpUpdateFee 300); opener_does OpSignNextCommitment;
    acceptor_does OpRevokeCurrentCommitment; ToyStep false OpSignNextCommitment true]) toy_pair.

(** The signature that the acceptor sends again, as the opener takes it. *)
Definition signature_again (s : channel * channel) : option (result channel_error ()) :=
  a ← opt (restart s.1);
  b ← opt (restart s.2);
  '(_, ms) ← toy_sync b a;
  match ms with
  | MsgCommitSig sigs :: _ => Some (receive_new_commitment sigs a).2
  | _ => None
  end.

Lemma first_fee_is_lost :
  (loses_signature [] ≫= signature_again) = Some (Err ErrInvalidCommitSig) ∧
  (loses_signature (fee_round 260) ≫= signature_again) = Some (Ok ()).
Proof. split; vm_compute; reflexivity. Qed.
