(* ===== verification/ChannelHeld.v ===== *)
(** * What a node holds of its peer's secrets

    The commitment points and the secrets that a node got from its peer, the
    revocations and the signature in flight, and what the record says of
    them, while two nodes talk to each other. *)

From S2P Require Import Prelude Chainfee Shachain UpdateLog Channel ChannelLog ChannelView ChannelInv ChannelCommit.
From S2P Require Import ChannelAfter ChannelSteps ChannelRun ChannelStill ChannelHist ChannelPast ChannelPastSteps.
From S2P Require Import ChannelKept ChannelKeptSteps ChannelRestarts ChannelPeers ChannelSystem ChannelAgreement ChannelSync.

(** ** The secrets in a store *)

Section Stores.
Context {HP : HashPrims} {HL : HashLaws HP}.

(** The store has taken these secrets, in this order. *)
Definition stores (hashes : list bytes) (st : store) : Prop :=
  match st with
  | StRevocation st =>
      Forall (λ h, length h = 32%nat) hashes ∧ fold_result add_next_entry hashes new_revocation_store = Ok st
  | StIndependent st => ind_add_all hashes = Ok st
  end.

Lemma stores_next hashes st x h st' :
  stores hashes st → new_hash x = Ok h → store_add_next_entry st h = Ok st' → h = x ∧ stores (hashes ++ [h]) st'.
Proof.
  intros H Hh Ha. assert (h = x ∧ length h = 32%nat) as [-> Hl].
  { destruct (decide (length x = 32%nat)) as [E|E]; [rewrite (new_hash_ok x E) in Hh | rewrite (new_hash_bad x E) in Hh]; [|done].
    by injection Hh as <-. }
  split; [done|]. destruct st as [st|st]; simpl in Ha.
  - apply rbind_Ok in Ha as (st1 & Ha & [= <-]). destruct H as [Hf Hst]. split.
    + apply Forall_app. split; [done|]. by constructor.
    + rewrite fold_result_app, Hst. simpl. by rewrite Ha.
  - injection Ha as <-. unfold stores, ind_add_all in *. rewrite fold_result_app, H. done.
Qed.

Lemma stores_last hashes h st :
  stores (hashes ++ [h]) st → Z.of_nat (length hashes) + 1 < 2 ^ 64 →
  store_look_up st (Z.of_nat (length hashes)) = Ok h.
Proof.
  intros H Hn. destruct st as [st|st]; simpl in H |- *.
  - destruct H as [Hf Hst]. rewrite (look_up_spec (hashes ++ [h])); [|by apply add_all_inv | in_range].
    by rewrite Nat2Z.id, list_lookup_middle.
  - destruct (ind_add_all_spec (hashes ++ [h])) as (st' & Hst & Hc & Hl & _); [rewrite length_app; simpl; lia|].
    rewrite H in Hst. injection Hst as <-. rewrite length_app in Hc, Hl. simpl in Hc, Hl.
    unfold ind_look_up. rewrite Hc. rewrite (proj2 (Z.eqb_neq _ 0)) by lia. rewrite Z.geb_leb, (proj2 (Z.leb_gt _ _)) by lia.
    cbn [orb]. rewrite u64_small by in_range. rewrite (proj2 (Z.eqb_eq _ _)) by lia. f_equal. apply Hl.
    replace (length hashes + 1 - 1)%nat with (length hashes) by lia. by rewrite list_lookup_middle.
Qed.
End Stores.

(** ** Messages of the dance *)

Definition revocation_in (m : message) : option revoke_and_ack := match m with MsgRevoke r => Some r | _ => None end.
Definition signature_in (m : message) : option (list bytes) := match m with MsgCommitSig s => Some s | _ => None end.
(** Whether a message of the dance is a revocation. *)
Definition dance_in (m : message) : option bool :=
  match m with MsgRevoke _ => Some true | MsgCommitSig _ => Some false | _ => None end.

Definition revocations (ms : list message) : list revoke_and_ack := omap revocation_in ms.
Definition signatures (ms : list message) : list (list bytes) := omap signature_in ms.
Definition dance (ms : list message) : list bool := omap dance_in ms.

Lemma carries_count ms es : Forall2 carries ms es →
  length (revocations ms) = count ERevoke es ∧ length (signatures ms) = count ESign es.
Proof.
  induction 1 as [|m e ms es Hc _ [IH1 IH2]]; [done|]. rewrite !count_cons. unfold revocations, signatures in *.
  destruct Hc; split; repeat case_bool_decide; simplify_eq/=; congruence.
Qed.

Section Held.
Context {HP : HashPrims} {CP : ChannelPrims}.

Definition secret_of (lc : channel) (h : Z) : result shachain_error bytes :=
  producer_at_index (oc_revocation_producer (lc_channel_state lc)) h.

(** [b] has the points of the two next commitments of [a] and the secrets of
    those before; what [a] sent and [b] has not taken follows them. *)
Record held (a b : channel) (ms : list message) : Prop := {
  hd_current : ∃ s, secret_of a (cm_height (tail (chain_of b Remote))) = Ok s ∧
    oc_remote_current_revocation (lc_channel_state b) = compute_commitment_point s;
  hd_next : ∃ s, secret_of a (cm_height (tail (chain_of b Remote)) + 1) = Ok s ∧
    oc_remote_next_revocation (lc_channel_state b) = Some (compute_commitment_point s);
  hd_store : ∃ hashes, Z.of_nat (length hashes) = cm_height (tail (chain_of b Remote)) ∧
    stores hashes (oc_revocation_store (lc_channel_state b)) ∧
    ∀ i h, hashes !! i = Some h → secret_of a (Z.of_nat i) = Ok h;
  hd_revoked j m : revocations ms !! j = Some m →
    generate_revocation (cm_height (tail (chain_of b Remote)) + Z.of_nat j) a = Ok m;
  hd_last r : last (dance ms) = Some r → oc_last_was_revoke (lc_channel_state a) = r;
  hd_signed sigs : sigs ∈ signatures ms →
    ∃ d, oc_commit_diff (lc_channel_state a) = Some d ∧ cd_commit_sig d = sigs;
}.

(** *** What the methods do to it *)

Definition holds (lc : channel) : bytes * option bytes * store * Z :=
  let s := lc_channel_state lc in
  (oc_remote_current_revocation s, oc_remote_next_revocation s, oc_revocation_store s, cm_height (tail (chain_of lc Remote))).
Definition owes (lc : channel) : bool * option commit_diff :=
  (oc_last_was_revoke (lc_channel_state lc), oc_commit_diff (lc_channel_state lc)).

Lemma still_holds lc lc' : still lc' = still lc → holds lc' = holds lc.
Proof.
  intros E. pose proof (still_state _ _ E) as Es. unfold holds. rewrite (still_chain _ _ Remote E).
  pose proof (f_equal oc_remote_current_revocation Es) as E1. pose proof (f_equal oc_remote_next_revocation Es) as E2.
  pose proof (f_equal oc_revocation_store Es) as E3. simpl in *. by rewrite E1, E2, E3.
Qed.

Lemma still_owes lc lc' : still lc' = still lc → owes lc' = owes lc.
Proof.
  intros E. pose proof (still_state _ _ E) as Es. unfold owes.
  pose proof (f_equal oc_last_was_revoke Es) as E1. pose proof (f_equal oc_commit_diff Es) as E2. simpl in *. by rewrite E1, E2.
Qed.

Lemma update_commitment_holds c l s : oc_remote_current_revocation (update_commitment c l s).1 = oc_remote_current_revocation s ∧
  oc_remote_next_revocation (update_commitment c l s).1 = oc_remote_next_revocation s ∧
  oc_revocation_store (update_commitment c l s).1 = oc_revocation_store s ∧
  oc_commit_diff (update_commitment c l s).1 = oc_commit_diff s ∧ oc_last_was_revoke (update_commitment c l s).1 = true.
Proof. done. Qed.

Lemma run_holds op lc lc' : (∀ msg, op ≠ OpReceiveRevocation msg) → run_op op lc = Some lc' → holds lc' = holds lc.
Proof.
  intros Hop Hrun. destruct (dances op) eqn:Ed; [|by apply still_holds, (still_run op)].
  destruct op; try done; cbn [run_op] in Hrun; unfold on_success in Hrun.
  - destruct (sign_next_commitment lc) as [lc1 [r|]] eqn:E; [|done]. injection Hrun as ->.
    apply sign_still in E as (_ & c & l & E). by rewrite (still_holds _ _ E).
  - destruct (receive_new_commitment sigs lc) as [lc1 [[]|]] eqn:E; [|done]. injection Hrun as ->.
    apply receive_commitment_still in E as (c & E). by rewrite (still_holds _ _ E).
  - destruct (revoke_current_commitment lc) as [lc1 [r|]] eqn:E; [|done]. injection Hrun as ->.
    apply revoke_still in E as (_ & s & l & _ & E). by rewrite (still_holds _ _ E).
  - by destruct (Hop msg).
Qed.

(** What a method sends of the dance, and what the record has then. *)
Lemma run_owes op lc lc' : own_op op = true → run_op op lc = Some lc' →
  match dance (sent op lc) with
  | [] => owes lc' = owes lc ∧ revocations (sent op lc) = [] ∧ signatures (sent op lc) = []
  | [true] => owes lc' = (true, oc_commit_diff (lc_channel_state lc)) ∧ signatures (sent op lc) = [] ∧
      ∃ m, revocations (sent op lc) = [m] ∧ generate_revocation (lc_current_height lc) lc = Ok m
  | [false] => revocations (sent op lc) = [] ∧ rest (chain_of lc Remote) = [] ∧
      ∃ d, owes lc' = (false, Some d) ∧ signatures (sent op lc) = [cd_commit_sig d]
  | _ => False
  end.
Proof.
  intros Hown Hrun. destruct (dances op) eqn:Ed.
  - destruct op; try done; cbn [run_op sent] in *; unfold on_success in Hrun.
    + destruct (sign_next_commitment lc) as [lc1 [r|]] eqn:E; [|done]. injection Hrun as ->. simpl.
      apply sign_still in E as (Hr & c & l & E). split; [done|]. split; [done|]. exists (CommitDiff c r l).
      by rewrite (still_owes _ _ E).
    + destruct (revoke_current_commitment lc) as [lc1 [r|]] eqn:E; [|done]. injection Hrun as ->. simpl.
      apply revoke_still in E as (Hg & s & l & _ & E). rewrite (still_owes _ _ E). split; [done|]. split; [done|]. by exists r.1.1.
  - assert (dance (sent op lc) = [] ∧ revocations (sent op lc) = [] ∧ signatures (sent op lc) = []) as (-> & H1 & H2).
    { destruct op; try done; cbn [sent]; unfold when_ok; by case_match. }
    split; [|done]. by apply still_owes, (still_run op).
Qed.

Lemma receive_owes m lc lc' : (∀ r, m ≠ MsgRevoke r) → run_op (receive_op m) lc = Some lc' → owes lc' = owes lc.
Proof.
  intros Hm Hrun. destruct (dances (receive_op m)) eqn:Ed; [|by apply still_owes, (still_run (receive_op m))].
  destruct m as [| | | |sigs|r]; try done; cbn [run_op receive_op] in Hrun; unfold on_success in Hrun.
  - destruct (receive_new_commitment sigs lc) as [lc1 [[]|]] eqn:E; [|done]. injection Hrun as ->.
    apply receive_commitment_still in E as (c & E). by rewrite (still_owes _ _ E).
  - by destruct (Hm r).
Qed.

Lemma run_secret op lc lc' h : run_op op lc = Some lc' → secret_of lc' h = secret_of lc h.
Proof. intros E. apply run_set_up in E. unfold secret_of. by rewrite (f_equal snd E : oc_revocation_producer _ = oc_revocation_producer _). Qed.

Lemma run_revocation op lc lc' h : run_op op lc = Some lc' → generate_revocation h lc' = generate_revocation h lc.
Proof.
  intros E. apply run_set_up in E. unfold generate_revocation.
  by rewrite (f_equal snd E : oc_revocation_producer _ = oc_revocation_producer _), (f_equal fst E : lc_params _ = lc_params _).
Qed.

(** *** Steps *)

Lemma held_holder a b b' ms : held a b ms → holds b' = holds b → held a b' ms.
Proof.
  intros [H1 H2 H3 H4 H5 H6] [= E1 E2 E3 E4]. split; rewrite ?E1, ?E2, ?E3, ?E4; done.
Qed.

Lemma held_sends op a a' b ms :
  held a b ms → own_op op = true → run_op op a = Some a' →
  cm_height (tail (chain_of b Remote)) + Z.of_nat (length (revocations ms)) = lc_current_height a →
  (rest (chain_of a Remote) = [] → signatures ms = []) → held a' b (ms ++ sent op a).
Proof.
  intros [H1 H2 H3 H4 H5 H6] Hown Hrun Hh Hw. pose proof (run_owes op a a' Hown Hrun) as Ho.
  assert (∀ h, secret_of a' h = secret_of a h) as Es by (intros h; by eapply run_secret).
  assert (∀ h, generate_revocation h a' = generate_revocation h a) as Eg by (intros h; by eapply run_revocation).
  assert (revocations (ms ++ sent op a) = revocations ms ++ revocations (sent op a)) as Er by apply omap_app.
  assert (signatures (ms ++ sent op a) = signatures ms ++ signatures (sent op a)) as Esg by apply omap_app.
  assert (dance (ms ++ sent op a) = dance ms ++ dance (sent op a)) as Ed by apply omap_app.
  split.
  - destruct H1 as (s & H1 & H1'). exists s. by rewrite Es.
  - destruct H2 as (s & H2 & H2'). exists s. by rewrite Es.
  - destruct H3 as (l & Hl & Hs & Hi). exists l. split; [done|]. split; [done|]. intros i h Hih. rewrite Es. by apply Hi.
  - intros j m. rewrite Er, Eg. intros Hj. apply lookup_app_Some in Hj as [Hj|[Hj Hm]]; [by apply H4|].
    destruct (dance (sent op a)) as [|[] [|]]; try done.
    + destruct Ho as (_ & E & _). by rewrite E in Hm.
    + destruct Ho as (_ & _ & m' & E & Hg). rewrite E in Hm. apply list_lookup_singleton_Some in Hm as [Hz ->].
      replace (cm_height (tail (chain_of b Remote)) + Z.of_nat j) with (lc_current_height a) by lia. exact Hg.
    + destruct Ho as (E & _). by rewrite E in Hm.
  - intros r. rewrite Ed. destruct (dance (sent op a)) as [|[] [|]]; try done.
    + rewrite app_nil_r. intros Hr. destruct Ho as ([= -> _] & _). by apply H5.
    + rewrite last_snoc. intros [= <-]. by destruct Ho as ([= -> _] & _).
    + rewrite last_snoc. intros [= <-]. by destruct Ho as (_ & _ & d & [= -> _] & _).
  - intros sigs. rewrite Esg. destruct (dance (sent op a)) as [|[] [|]]; try done.
    + destruct Ho as ([= _ ->] & _ & ->). rewrite app_nil_r. apply H6.
    + destruct Ho as ([= _ ->] & -> & _). rewrite app_nil_r. apply H6.
    + destruct Ho as (_ & Hr & d & [= _ ->] & ->). rewrite (Hw Hr). intros ->%list_elem_of_singleton. by exists d.
Qed.

Lemma held_receives m a a' b ms :
  held a b ms → run_op (receive_op m) a = Some a' → (∀ r, m = MsgRevoke r → signatures ms = []) → held a' b ms.
Proof.
  intros [H1 H2 H3 H4 H5 H6] Hrun Hw.
  assert (∀ h, secret_of a' h = secret_of a h) as Es by (intros h; by eapply run_secret).
  assert (∀ h, generate_revocation h a' = generate_revocation h a) as Eg by (intros h; by eapply run_revocation).
  assert (oc_last_was_revoke (lc_channel_state a') = oc_last_was_revoke (lc_channel_state a) ∧
    (oc_commit_diff (lc_channel_state a') = oc_commit_diff (lc_channel_state a) ∨ signatures ms = [])) as [El Ec].
  { destruct (revocation_in m) as [r|] eqn:Em; cycle 1.
    { assert (owes a' = owes a) as [= -> ->]; [|by auto]. eapply receive_owes; [|exact Hrun]. by intros r ->. }
    destruct m; try done. injection Em as ->.
    split; [|right; by eapply Hw]. cbn [run_op receive_op] in Hrun. unfold on_success in Hrun.
    destruct (receive_revocation r a) as [a1 [x|]] eqn:E; [|done]. injection Hrun as ->.
    apply revocation_still in E as (nx & rev & st & s & st' & _ & _ & _ & _ & _ & E & _ & El & _).
    pose proof (f_equal fst (still_owes _ _ E)) as E'. unfold owes in E'. simpl in E'. by rewrite E', El. }
  split.
  - destruct H1 as (s & H1 & H1'). exists s. by rewrite Es.
  - destruct H2 as (s & H2 & H2'). exists s. by rewrite Es.
  - destruct H3 as (l & Hl & Hs & Hi). exists l. split; [done|]. split; [done|]. intros i h Hih. rewrite Es. by apply Hi.
  - intros j r. rewrite Eg. apply H4.
  - rewrite El. apply H5.
  - destruct Ec as [->| ->]; [apply H6 | by intros sigs ?%elem_of_nil].
Qed.

Context {HL : HashLaws HP}.

Lemma last_pop (r : bool) m ms : last (dance ms) = Some r → last (dance (m :: ms)) = Some r.
Proof.
  intros Hr. assert (dance (m :: ms) = dance ms ∨ ∃ q, dance (m :: ms) = q :: dance ms) as [->|[q ->]]; [|done|].
  - unfold dance. simpl. destruct (dance_in m) as [q|]; [right; by exists q | by left].
  - by rewrite last_cons, Hr.
Qed.
Lemma signed_pop sigs m ms : sigs ∈ signatures ms → sigs ∈ signatures (m :: ms).
Proof. unfold signatures. simpl. destruct (signature_in m); [by right | done]. Qed.

Lemma held_pop m a b ms : (∀ r, m ≠ MsgRevoke r) → held a b (m :: ms) → held a b ms.
Proof.
  intros Hm [H1 H2 H3 H4 H5 H6]. split; try done.
  - intros j r Hj. apply H4. unfold revocations in *. simpl. destruct m; try done. by destruct (Hm msg).
  - intros r Hr. by apply H5, last_pop.
  - intros sigs Hs. by apply H6, signed_pop.
Qed.

(** A revocation brings the next point, and its secret goes into the store. *)
Lemma held_revocation r a b b' ms :
  held a b (MsgRevoke r :: ms) → run_op (OpReceiveRevocation r) b = Some b' → chain_ok (chain_of b Remote) → held a b' ms.
Proof using HL.
  intros [H1 H2 (hashes & Hlen & Hst & Hsec) H4 H5 H6] Hrun Hc. cbn [run_op] in Hrun. unfold on_success in Hrun.
  destruct (receive_revocation r b) as [b1 [x|]] eqn:E; [|done]. injection Hrun as ->.
  apply revocation_still in E as (nx & rev & st & s & st' & En & _ & Eh & Ea & Ead & E & _).
  pose proof (advance_height _ _ Hc Ead) as Hht. pose proof (still_holds _ _ E) as Ehd. unfold holds in Ehd. simpl in Ehd.
  injection Ehd as Ec Enx Est Etl. set (k := cm_height (tail (chain_of b Remote))) in *.
  change (cm_height (tail (chain_of b' Remote)) = cm_height (tail s)) in Etl. rewrite Hht in Etl.
  pose proof (cn_range _ Hc _ (tail_elem _)) as Hk. fold k in Hk. change max_state_hint with (2 ^ 48 - 1) in Hk.
  pose proof (H4 0%nat r eq_refl) as Hg. rewrite Z.add_0_r in Hg. unfold generate_revocation in Hg.
  apply rbind_Ok in Hg as (sk & Esk & Hg). apply rbind_Ok in Hg as (sn & Esn & Hg). apply rbind_Ok in Hg as (nonces & _ & Hg). injection Hg as <-.
  cbn [ra_revocation ra_next_revocation_key] in *. destruct (producer_at_index _ k) as [sk'|] eqn:Epk; [|done]. injection Esk as ->.
  rewrite u64_small in Esn by in_range.
  destruct (producer_at_index _ (k + 2)) as [sn'|] eqn:Epn; [|done]. injection Esn as ->.
  destruct (stores_next _ _ _ _ _ Hst Eh Ea) as [-> Hst'].
  split; rewrite ?Etl, ?Ec, ?Enx, ?Est.
  - destruct H2 as (s2 & Hs2 & Hn). exists s2. rewrite En in Hn. by injection Hn as ->.
  - exists sn. by replace (k + 1 + 1) with (k + 2) by lia.
  - exists (hashes ++ [sk]). rewrite length_app. simpl. split; [lia|]. split; [done|].
    intros i h [Hi|[Hi Hh]]%lookup_app_Some; [by apply Hsec|]. apply list_lookup_singleton_Some in Hh as [Hz ->].
    replace (Z.of_nat i) with k by lia. exact Epk.
  - intros j m Hj. replace (k + 1 + Z.of_nat j) with (k + Z.of_nat (S j)) by lia. by apply H4.
  - intros q Hq. by apply H5, last_pop.
  - intros sigs Hs. by apply H6, signed_pop.
Qed.

Lemma held_takes m a b b' ms :
  held a b (m :: ms) → run_op (receive_op m) b = Some b' → chain_ok (chain_of b Remote) → held a b' ms.
Proof using HL.
  intros H Hrun Hc. destruct (revocation_in m) as [r|] eqn:Em.
  - destruct m; try done. by eapply held_revocation.
  - eapply held_holder; [eapply held_pop; [|exact H]; by intros r ->|]. eapply run_holds; [|exact Hrun].
    intros r Hr. by destruct m.
Qed.
End Held.
