(* ===== verification/ChannelReestablish.v ===== *)
(** * Two nodes that find each other again

    Both ends of a channel stop at any moment of their conversation, read their
    channels back and tell each other where they are. *)

From S2P Require Import Prelude Chainfee Shachain UpdateLog Channel ChannelToy ChannelLog ChannelView ChannelInv ChannelCommit.
From S2P Require Import ChannelAfter ChannelSteps ChannelRun ChannelStill ChannelHist ChannelPast ChannelPastSteps.
From S2P Require Import ChannelRestore ChannelKept ChannelKeptSteps ChannelReadLogs ChannelRestart ChannelRestored ChannelRestarts.
From S2P Require Import ChannelPeers ChannelSystem ChannelAgreement ChannelSync ChannelSyncToy ChannelHeld.

Section Reestablish.
Context {HP : HashPrims} {HL : HashLaws HP} {CP : ChannelPrims} {CL : ChannelLaws} (t : Z).
Hypothesis Ht : in_u64 t.

(** ** The invariant of two nodes, with their records *)

(** Each node has the other's points of its first two commitments. *)
Record fresh_points (a b : channel) : Prop := {
  fq_current : ∃ s, secret_of a 0 = Ok s ∧ oc_remote_current_revocation (lc_channel_state b) = compute_commitment_point s;
  fq_next : ∃ s, secret_of a 1 = Ok s ∧ oc_remote_next_revocation (lc_channel_state b) = Some (compute_commitment_point s);
  fq_store : stores [] (oc_revocation_store (lc_channel_state b));
}.

Record fresh_pair (s : peers) : Prop := {
  fs_peers : fresh_peers t s;
  fs_record p : fresh_record t (pe_node s p);
  fs_points p : fresh_points (pe_node s p) (pe_node s (counter_party p));
}.

Record linked (n : Z) (s0 s : peers) : Prop := {
  lk_ok : peers_ok t n s0 s;
  lk_held p : held (pe_node s p) (pe_node s (counter_party p)) (pe_link s p);
  lk_kept p : kept (pe_node s p);
  lk_secrets p h : 0 ≤ h ≤ max_state_hint → ∃ k, secret_of (pe_node s p) h = Ok k;
}.

(** Where the nodes are. *)
Record heights (s : peers) (p : channel_party) : Prop := {
  hg_tail : cm_height (tail (chain_of (pe_node s p) Local)) =
    cm_height (tail (chain_of (pe_node s (counter_party p)) Remote)) + Z.of_nat (length (revocations (pe_link s p)));
  hg_tip : cm_height (tip (chain_of (pe_node s p) Remote)) =
    cm_height (tip (chain_of (pe_node s (counter_party p)) Local)) + Z.of_nat (length (signatures (pe_link s p)));
  hg_window : cm_height (tip (chain_of (pe_node s p) Remote)) =
    cm_height (tail (chain_of (pe_node s p) Remote)) + Z.of_nat (length (rest (chain_of (pe_node s p) Remote))) ∧
    (length (rest (chain_of (pe_node s p) Remote)) ≤ 1)%nat;
  hg_local : cm_height (tail (chain_of (pe_node s p) Local)) ≤ cm_height (tip (chain_of (pe_node s p) Local));
  hg_range w : 0 ≤ cm_height (tail (chain_of (pe_node s p) w)) ≤ max_state_hint;
}.

Lemma peers_heights n s0 s p : peers_ok t n s0 s → heights s p.
Proof using HP CP.
  intros (h & es & H). destruct (H p) as ([N1 _ _] & Hl & F). destruct (carries_count _ _ Hl) as [Er Es].
  pose proof (λ w, ck_chain _ _ _ N1 w) as Hc. split.
  - by rewrite Er, (fl_tail _ _ _ _ _ F).
  - by rewrite Es, (fl_tip _ _ _ _ _ F).
  - split; [apply chain_length, Hc | apply (fl_window _ _ _ _ _ F)].
  - apply chain_height_tip; [apply Hc | apply tail_elem].
  - intros w. apply (cn_range _ (Hc w)), tail_elem.
Qed.

Lemma linked_start s : fresh_pair s → linked 0 s s.
Proof using HP CP.
  intros [H1 H2 H3]. split.
  - by apply fresh_peers_ok.
  - intros p. destruct (H3 p) as [Hc Hn Hs]. pose proof (fp_fresh _ _ H1 (counter_party p)) as F.
    assert (cm_height (tail (chain_of (pe_node s (counter_party p)) Remote)) = 0) as E0 by apply (fc_height _ _ (fr_tail _ _ F Remote)).
    rewrite (fp_links _ _ H1). split; rewrite ?E0; [done | done | | by intros j m | by intros r | by intros sigs ?%elem_of_nil].
    exists []. split; [done|]. split; [done|]. by intros i h ?.
  - intros p. eapply fresh_kept, H2.
  - intros p. apply (fd_secrets _ _ (H2 p)).
Qed.

Lemma linked_step n s0 s s' :
  fresh_peers t s0 → linked n s0 s → n + 1 < 2 ^ 64 → peers_step s s' → linked (n + 1) s0 s'.
Proof using HP HL CP CL Ht.
  intros H0 [Hok Hh Hk Hs] Hn Hst. pose proof (λ p, peers_heights n s0 s p Hok) as Hg.
  pose proof (peers_step_ok t Ht n s0 s s' H0 Hok Hn Hst) as Hok'. destruct Hok as (h & es & Hall).
  inversion Hst as [? p op lc' Hown Hop Hrun|? p m ms lc' Hlink Hacc Hrun]; subst; set (q := counter_party p).
  - split; [done|..]; cbn [pe_node pe_link].
    + intros r. destruct (party_cases p r) as [-> | ->].
      * rewrite !update_at_same, update_at_other. apply held_sends; [apply Hh | done | done | |].
        -- rewrite (kp_current _ (Hk p)), (hg_tail _ _ (Hg p)). done.
        -- intros Hr. pose proof (hg_tip _ _ (Hg p)) as E1. destruct (hg_window _ _ (Hg p)) as [E2 _].
           pose proof (hg_tail _ _ (Hg q)) as E3. unfold q in E3. rewrite counter_party_involutive in E3.
           pose proof (hg_local _ _ (Hg q)). rewrite Hr in E2. simpl in E2.
           apply length_zero_iff_nil. unfold q in *. lia.
      * rewrite !update_at_other, counter_party_involutive, update_at_same.
        apply (held_holder _ (pe_node s p)); [specialize (Hh q); unfold q in Hh; by rewrite counter_party_involutive in Hh|].
        eapply run_holds; [|exact Hrun]. by intros msg ->.
    + intros r. destruct (party_cases p r) as [-> | ->]; [|by rewrite update_at_other]. rewrite update_at_same.
      destruct (Hall p) as ([N1 _ _] & _). by apply (run_op_kept t n Ht op (pe_node s p)).
    + intros r j. destruct (party_cases p r) as [-> | ->]; [|rewrite update_at_other; apply Hs]. rewrite update_at_same.
      rewrite (run_secret _ _ _ _ Hrun). apply Hs.
  - split; [done|..]; cbn [pe_node pe_link].
    + intros r. destruct (party_cases p r) as [-> | ->].
      * unfold q. rewrite update_at_same, update_at_other, update_at_cp. apply (held_receives m (pe_node s p)); [apply Hh | done |].
        intros r ->. pose proof (hg_tip _ _ (Hg p)) as E1. destruct (hg_window _ _ (Hg p)) as [E2 E2'].
        pose proof (hg_tail _ _ (Hg q)) as E3. unfold q in E3. rewrite counter_party_involutive in E3.
        pose proof (hg_local _ _ (Hg q)). rewrite Hlink in E3. simpl in E3. apply length_zero_iff_nil. unfold q in *. lia.
      * unfold q. rewrite counter_party_involutive, !update_at_same, update_at_other.
        specialize (Hh q). unfold q in Hh. rewrite counter_party_involutive, Hlink in Hh.
        apply (held_takes m _ (pe_node s p)); [done | done |]. destruct (Hall p) as ([N1 _ _] & _). apply (ck_chain _ _ _ N1).
    + intros r. destruct (party_cases p r) as [-> | ->]; [|by rewrite update_at_other]. rewrite update_at_same.
      destruct (Hall p) as ([N1 _ _] & _). by apply (run_op_kept t n Ht (receive_op m) (pe_node s p)).
    + intros r j. destruct (party_cases p r) as [-> | ->]; [|rewrite update_at_other; apply Hs]. rewrite update_at_same.
      rewrite (run_secret _ _ _ _ Hrun). apply Hs.
Qed.

Lemma linked_steps n m s0 s s' :
  fresh_peers t s0 → linked n s0 s → nsteps peers_step m s s' → n + Z.of_nat m < 2 ^ 64 → linked (n + Z.of_nat m) s0 s'.
Proof using HP HL CP CL Ht.
  intros H0 H Hst. revert n H. induction Hst as [s|m s s1 s' Hst Hsts IH]; intros n H Hn.
  - by rewrite Z.add_0_r.
  - replace (n + Z.of_nat (S m)) with (n + 1 + Z.of_nat m) by lia. apply IH; [|lia].
    apply (linked_step n s0 s s1); [done | done | lia | done].
Qed.
End Reestablish.

(** ** What is sent again *)

(** The revocations and signatures of a link. *)
Definition is_dance (m : message) : bool := match dance_in m with Some _ => true | None => false end.
Definition dance_messages (ms : list message) : list message := List.filter is_dance ms.

Lemma revocations_cons m ms :
  revocations (m :: ms) = match m with MsgRevoke r => r :: revocations ms | _ => revocations ms end.
Proof. by destruct m. Qed.
Lemma signatures_cons m ms :
  signatures (m :: ms) = match m with MsgCommitSig s => s :: signatures ms | _ => signatures ms end.
Proof. by destruct m. Qed.
Lemma dance_cons m ms :
  dance (m :: ms) =
    match m with MsgRevoke _ => true :: dance ms | MsgCommitSig _ => false :: dance ms | _ => dance ms end.
Proof. by destruct m. Qed.
Lemma dance_messages_cons m ms :
  dance_messages (m :: ms) =
    match m with MsgRevoke _ | MsgCommitSig _ => m :: dance_messages ms | _ => dance_messages ms end.
Proof. by destruct m. Qed.

Lemma dance_signatures ms : revocations ms = [] →
  dance ms = map (λ _, false) (signatures ms) ∧ dance_messages ms = map MsgCommitSig (signatures ms).
Proof.
  induction ms as [|m ms IH]; [done|]. rewrite revocations_cons, signatures_cons, dance_cons, dance_messages_cons.
  destruct m; intros E; try done; destruct (IH E) as [-> ->]; done.
Qed.
Lemma dance_revocations ms : signatures ms = [] →
  dance ms = map (λ _, true) (revocations ms) ∧ dance_messages ms = map MsgRevoke (revocations ms).
Proof.
  induction ms as [|m ms IH]; [done|]. rewrite revocations_cons, signatures_cons, dance_cons, dance_messages_cons.
  destruct m; intros E; try done; destruct (IH E) as [-> ->]; done.
Qed.

(** At most one of each is in flight, and the last one is known. *)
Lemma dance_messages_cases ms :
  (length (revocations ms) ≤ 1)%nat → (length (signatures ms) ≤ 1)%nat →
  dance_messages ms = map MsgRevoke (revocations ms) ++ map MsgCommitSig (signatures ms) ∧
    (signatures ms ≠ [] → last (dance ms) = Some false) ∨
  dance_messages ms = map MsgCommitSig (signatures ms) ++ map MsgRevoke (revocations ms) ∧
    (revocations ms ≠ [] → last (dance ms) = Some true).
Proof.
  induction ms as [|m ms IH]; [by left|]. rewrite revocations_cons, signatures_cons, dance_cons, dance_messages_cons.
  destruct m as [| | | |sigs|r]; try done; cbn [length]; intros H1 H2.
  - right. assert (signatures ms = []) as E by (apply length_zero_iff_nil; lia).
    destruct (dance_revocations ms E) as [-> ->]. rewrite E. split; [done|]. intros Hne.
    destruct (revocations ms) as [|r [|]]; cbn [length] in *; [done | done | lia].
  - left. assert (revocations ms = []) as E by (apply length_zero_iff_nil; lia).
    destruct (dance_signatures ms E) as [-> ->]. rewrite E. split; [done|]. intros Hne.
    destruct (signatures ms) as [|s [|]]; cbn [length] in *; [done | done | lia].
Qed.

Lemma last_cons_default {A} (x : A) l d : List.last (x :: l) d = List.last l x.
Proof. revert x d. induction l as [|y l IH]; intros x d; [done|]. rewrite (IH y x). exact (IH y d). Qed.

(** A channel that was read back: the record, and where its chains are. *)
Record back (lc lc' : channel) : Prop := {
  bk_params : lc_params lc' = lc_params lc;
  bk_state : lc_channel_state lc' = lc_channel_state lc;
  bk_tail w : cm_height (tail (chain_of lc' w)) = cm_height (tail (chain_of lc w));
  bk_tip : cm_height (tip (chain_of lc' Remote)) = cm_height (tip (chain_of lc Remote));
  bk_rest : has_unacked_commitment (chain_of lc' Remote) = has_unacked_commitment (chain_of lc Remote);
}.

Lemma reread_back lc lc' : reread lc lc' → back lc lc'.
Proof.
  intros R. split; [apply (rr_params _ _ R) | apply (rr_state _ _ R) | | |].
  - intros []; [by rewrite (rr_local _ _ R) | by rewrite (rr_remote _ _ R)].
  - rewrite (rr_remote _ _ R). unfold tip. cbn [tail rest].
    generalize (tail (chain_of lc Remote)). induction (rest (chain_of lc Remote)) as [|c l IH]; intros d; [done|].
    cbn [map]. rewrite !last_cons_default. apply (IH c).
  - rewrite (rr_remote _ _ R). unfold has_unacked_commitment. cbn [rest]. by destruct (rest (chain_of lc Remote)).
Qed.

(** The heights on disk are those in memory. *)
Lemma kept_heights lc : kept lc →
  cm_height (oc_local_commitment (lc_channel_state lc)) = cm_height (tail (chain_of lc Local)) ∧
  cm_height (oc_remote_commitment (lc_channel_state lc)) = cm_height (tail (chain_of lc Remote)).
Proof.
  intros H. split; [exact (f_equal cm_height (kp_local _ H)) | exact (f_equal cm_height (kp_remote _ H))].
Qed.

Section Resend.
Context {HP : HashPrims} {HL : HashLaws HP} {CP : ChannelPrims} {MP : MusigPrims}.

(** Where the ends of the way from [a] to [b] are, and what is on it. *)
Record places (a b : channel) (ms : list message) : Prop := {
  pl_tail : cm_height (tail (chain_of a Local)) = cm_height (tail (chain_of b Remote)) + Z.of_nat (length (revocations ms));
  pl_revocations : (length (revocations ms) ≤ 1)%nat;
  pl_signatures : (length (signatures ms) ≤ 1)%nat;
  pl_signed : signatures ms ≠ [] → cm_height (tip (chain_of a Remote)) = cm_height (tail (chain_of b Local)) + 1;
  pl_tip : cm_height (tail (chain_of b Local)) ≤ cm_height (tip (chain_of a Remote)) ≤ cm_height (tail (chain_of b Local)) + 1;
  pl_remote : cm_height (tail (chain_of a Remote)) ≤ cm_height (tail (chain_of b Local)) ≤
    cm_height (tail (chain_of a Remote)) + 1;
  pl_unacked : has_unacked_commitment (chain_of a Remote) = true ↔
    cm_height (tip (chain_of a Remote)) ≠ cm_height (tail (chain_of a Remote));
  pl_range w : 0 ≤ cm_height (tail (chain_of a w)) ≤ max_state_hint ∧ 0 ≤ cm_height (tail (chain_of b w)) ≤ max_state_hint;
}.

Lemma heights_places s p : heights s p → heights s (counter_party p) →
  places (pe_node s p) (pe_node s (counter_party p)) (pe_link s p).
Proof using Type.
  intros [A1 A2 [A3 A3'] A4 A5] [B1 B2 [B3 B3'] B4 B5]. rewrite counter_party_involutive in B1, B2.
  split; try lia.
  - intros Hs. destruct (signatures (pe_link s p)); [done|]. cbn [length] in A2. lia.
  - unfold has_unacked_commitment. destruct (rest (chain_of (pe_node s p) Remote)) as [|c l]; cbn [length] in A3, A3';
      split; intros H; try done; lia.
  - by split.
Qed.

Variables (a b a' b' : channel) (ms ms' : list message) (logged : Z → result shachain_error bytes).
Hypothesis Hpl : places a b ms.
Hypothesis Hka : kept a.
Hypothesis Hkb : kept b.
Hypothesis Ba : back a a'.
Hypothesis Bb : back b b'.
Hypothesis Hab : held a b ms.
Hypothesis Hba : held b a ms'.
Hypothesis Hsecrets : ∀ h, 0 ≤ h ≤ max_state_hint → ∃ k, secret_of b h = Ok k.
Hypothesis Hpa : is_taproot (pr_chan_type (lc_params a)) = false.
Hypothesis Hpb : is_taproot (pr_chan_type (lc_params b)) = false.

(** What [b] says of itself. *)
Record says (msg : channel_reestablish) : Prop := {
  sy_next : cr_next_local_commit_height msg = cm_height (tail (chain_of b Local)) + 1;
  sy_tail : cr_remote_commit_tail_height msg = cm_height (tail (chain_of b Remote));
  sy_secret : cm_height (tail (chain_of b Remote)) ≠ 0 →
    secret_of a (cm_height (tail (chain_of b Remote)) - 1) = Ok (cr_last_remote_commit_secret msg);
  sy_point : ∃ s, secret_of b (cm_height (tail (chain_of b Local))) = Ok s ∧
    cr_local_unrevoked_commit_point msg = Some (compute_commitment_point s);
}.

Lemma sync_msg_made : ∃ msg, chan_sync_msg false logged (lc_params b') (lc_channel_state b') = Ok msg ∧ says msg.
Proof using HL Hab Hkb Bb Hpl Hsecrets Hpb.
  destruct (kept_heights b Hkb) as [El Er]. unfold chan_sync_msg. rewrite (bk_params _ _ Bb), (bk_state _ _ Bb), El, Er.
  destruct (pl_range _ _ _ Hpl Local) as [_ HrL]. destruct (pl_range _ _ _ Hpl Remote) as [_ HrR].
  change max_state_hint with (2 ^ 48 - 1) in HrL, HrR.
  destruct (Hsecrets (cm_height (tail (chain_of b Local)))) as [k Hk]; [by apply (pl_range _ _ _ Hpl)|].
  set (rh := cm_height (tail (chain_of b Remote))) in *.
  assert (∃ x, (if rh =? 0 then Ok zero_hash
    else match store_look_up (oc_revocation_store (lc_channel_state b)) (rh - 1) with
         | Err ErrSecretNotRetained => logged (rh - 1) | r => r end) = Ok x ∧ (rh ≠ 0 → secret_of a (rh - 1) = Ok x)) as (x & -> & Hx).
  { destruct (Z.eqb_spec rh 0) as [|Hne]; [by exists zero_hash|].
    destruct (hd_store _ _ _ Hab) as (hashes & Hlen & Hst & Hsec). fold rh in Hlen.
    destruct hashes as [|h hashes _] using rev_ind; [simpl in Hlen; lia|]. rewrite length_app in Hlen. simpl in Hlen.
    pose proof (stores_last hashes h _ Hst ltac:(lia)) as Hlast. replace (Z.of_nat (length hashes)) with (rh - 1) in Hlast by lia.
    rewrite Hlast. exists h. split; [done|]. intros _. specialize (Hsec (length hashes) h). rewrite list_lookup_middle in Hsec by done.
    specialize (Hsec eq_refl). by replace (Z.of_nat (length hashes)) with (rh - 1) in Hsec by lia. }
  cbn [map_err rbind]. unfold secret_of in Hk. rewrite Hk. cbn [map_err rbind andb].
  unfold sync_nonces. rewrite Hpb. cbn [rbind fst snd]. eexists. split; [done|]. split; cbn; try done.
  - rewrite u64_small by in_range. done.
  - by exists k.
Qed.

Variable msg : channel_reestablish.
Hypothesis Hsay : says msg.

Lemma last_secret_accepted : (let* _ := check_last_secret msg (lc_channel_state a') in check_nonce msg (lc_params a')) = Ok ().
Proof using Ba Hpa Hsay.
  unfold check_last_secret, check_nonce. rewrite (bk_params _ _ Ba), (bk_state _ _ Ba), Hpa, (sy_tail _ Hsay).
  destruct (sy_point _ Hsay) as (s & _ & ->). destruct (Z.eqb_spec (cm_height (tail (chain_of b Remote))) 0) as [|Hne]; [done|].
  pose proof (sy_secret _ Hsay Hne) as Hs. unfold secret_of in Hs. rewrite Hs. cbn [map_err rbind].
  by rewrite bool_decide_eq_true_2.
Qed.

(** The revocation in flight is sent again, and a signature that is owed. *)
Definition signs_again (lc : channel) (sigs : list (list bytes)) : Prop :=
  (sigs = [] ∧ still lc = still a') ∨
  ∃ s, sigs = [s] ∧ sign_next_commitment a' = (lc, Ok s) ∧ revocations ms ≠ [] ∧ owe_commitment Local a' = true.

Lemma revocation_again :
  match resend_revocation false msg a' with
  | (lc, Ok l) => ∃ sigs, l = map MsgRevoke (revocations ms) ++ map MsgCommitSig sigs ∧ signs_again lc sigs
  | (lc, Err e) => ∃ e', e = ErrSync e' ∧ sign_next_commitment a' = (lc, Err e') ∧ e' ≠ ErrNoWindow ∧
      revocations ms ≠ [] ∧ owe_commitment Local a' = true
  end.
Proof using Ba Hab Hpl Hsay.
  unfold resend_revocation. rewrite (bk_tail _ _ Ba Local), (sy_tail _ Hsay), (pl_tail _ _ _ Hpl).
  set (rb := cm_height (tail (chain_of b Remote))). destruct (pl_range _ _ _ Hpl Remote) as [_ Hr]. fold rb in Hr.
  change max_state_hint with (2 ^ 48 - 1) in Hr. pose proof (pl_revocations _ _ _ Hpl) as Hn.
  rewrite (proj2 (Z.ltb_ge _ _)) by lia. cbn [orb]. rewrite u64_small by in_range.
  rewrite (proj2 (Z.ltb_ge _ _)) by lia.
  destruct (revocations ms) as [|m [|]] eqn:Em; cbn [length] in Hn |- *; [| |lia].
  - rewrite (proj2 (Z.eqb_eq _ _)) by lia. exists []. split; [done|]. by left.
  - rewrite (proj2 (Z.eqb_neq _ _)), (proj2 (Z.eqb_eq _ _)) by lia.
    assert (generate_revocation (rb + Z.of_nat 1 - 1) a' = Ok m) as ->.
    { pose proof (hd_revoked _ _ _ Hab 0 m) as Hg. rewrite Em in Hg. specialize (Hg eq_refl). fold rb in Hg.
      replace (rb + Z.of_nat 1 - 1) with (rb + Z.of_nat 0) by lia. unfold generate_revocation in *.
      by rewrite (bk_params _ _ Ba), (bk_state _ _ Ba). }
    destruct (owe_commitment Local a') eqn:Eo; [|exists []; split; [done | by left]].
    destruct (sign_next_commitment a') as [lc [s|e]] eqn:Es.
    + exists [s]. split; [done|]. right. exists s. rewrite Em. split_and!; [done | exact Es | discriminate | exact Eo].
    + assert (∀ e', e' ≠ ErrNoWindow → ∃ x, ErrSync e' = ErrSync x ∧ (lc, Err (A := list bytes) e') = (lc, Err x) ∧ x ≠ ErrNoWindow ∧ [m] ≠ [] ∧ true = true) as He
        by (intros e' He'; by exists e').
      destruct e; try (by apply He). exists []. split; [done|]. left. split; [done|]. by apply sign_fails_still in Es.
Qed.
(** What [a] owes for what was on the way: the messages of the dance are there,
    in their order, no other revocation is, and a signature that [b] has no
    commitment for comes with its updates. *)
Record resends (l : list message) : Prop := {
  rs_dance : dance_messages ms `sublist_of` l;
  rs_revocations : revocations l = revocations ms;
  rs_signed : cm_height (tip (chain_of a Remote)) = cm_height (tail (chain_of b Local)) + 1 →
    ∃ d l1 l2, oc_commit_diff (lc_channel_state a) = Some d ∧
      l = l1 ++ map update_message (cd_log_updates d) ++ MsgCommitSig (cd_commit_sig d) :: l2;
}.

Lemma signs_again_holds lc sigs : signs_again lc sigs → lc_params lc = lc_params a ∧ holds lc = holds a' ∧
  (has_unacked_commitment (chain_of a Remote) = true → sigs = [] ∧ owes lc = owes a').
Proof using Ba HP.
  intros [[-> E]|(s & -> & E & _)].
  - rewrite (still_params _ _ E), (bk_params _ _ Ba). split; [done|]. split; [by apply still_holds|]. intros _. split; [done | by apply still_owes].
  - pose proof E as E'. apply sign_still in E as (Hr & c & l & E). rewrite (still_params _ _ E). cbn.
    split; [exact (bk_params _ _ Ba)|]. split.
    + apply (run_holds OpSignNextCommitment); [done|]. cbn. by rewrite E'.
    + rewrite <-(bk_rest _ _ Ba). unfold has_unacked_commitment. by rewrite Hr.
Qed.
Lemma updates_revocations (l : list payment_descriptor) : revocations (map update_message l) = [].
Proof. induction l as [|u l IH]; [done|]. cbn [map]. rewrite revocations_cons, IH. unfold update_message. by destruct (pd_entry_type u). Qed.

Lemma revocations_app l l' : revocations (l ++ l') = revocations l ++ revocations l'.
Proof. apply omap_app. Qed.
Lemma revocations_revoke l : revocations (map MsgRevoke l) = l.
Proof. induction l as [|r l IH]; [done|]. cbn [map]. by rewrite revocations_cons, IH. Qed.

(** The order of the last signature and revocation is the one on the way. *)
Lemma dance_resent l : map MsgCommitSig (signatures ms) `sublist_of` l →
  dance_messages ms `sublist_of`
    if oc_last_was_revoke (lc_channel_state a) then l ++ map MsgRevoke (revocations ms)
    else map MsgRevoke (revocations ms) ++ l.
Proof using Hpl Hab.
  intros Hs. pose proof (hd_last _ _ _ Hab) as Hl.
  destruct (dance_messages_cases ms (pl_revocations _ _ _ Hpl) (pl_signatures _ _ _ Hpl)) as [[-> H]|[-> H]].
  - destruct (oc_last_was_revoke _) eqn:E; [|by apply sublist_app]. destruct (signatures ms) as [|s ss].
    + rewrite app_nil_r. by apply sublist_inserts_l.
    + specialize (Hl _ (H ltac:(done))). congruence.
  - destruct (oc_last_was_revoke _) eqn:E; [by apply sublist_app|]. destruct (revocations ms) as [|r rs].
    + by rewrite app_nil_r.
    + specialize (Hl _ (H ltac:(done))). congruence.
Qed.

(** The saved signature with its updates, beside the revocation in flight. *)
Lemma signature_resent d up : oc_commit_diff (lc_channel_state a) = Some d →
  up = map update_message (cd_log_updates d) ++ [MsgCommitSig (cd_commit_sig d)] →
  resends (if oc_last_was_revoke (lc_channel_state a) then up ++ map MsgRevoke (revocations ms)
           else map MsgRevoke (revocations ms) ++ up).
Proof using Hpl Hab.
  intros Hd Eup. assert (revocations up = []) as Hrev by (rewrite Eup, revocations_app, updates_revocations; done). split.
  - apply dance_resent. rewrite Eup. apply sublist_inserts_l. pose proof (pl_signatures _ _ _ Hpl) as Hn. pose proof (hd_signed _ _ _ Hab) as Hs.
    destruct (signatures ms) as [|s [|]]; [apply sublist_nil_l | | cbn [length] in Hn; lia].
    destruct (Hs s) as (d' & Hd' & <-); [by left|]. rewrite Hd in Hd'. by injection Hd' as <-.
  - destruct (oc_last_was_revoke _); rewrite revocations_app, Hrev, revocations_revoke; by rewrite ?app_nil_r.
  - intros _. exists d. rewrite Eup. destruct (oc_last_was_revoke _).
    + exists [], (map MsgRevoke (revocations ms)). split; [done|]. by rewrite <-app_assoc.
    + by exists (map MsgRevoke (revocations ms)), [].
Qed.

(** Where nothing is signed that the peer has not got. *)
Lemma revocation_resent sigs : signatures ms = [] →
  cm_height (tip (chain_of a Remote)) ≠ cm_height (tail (chain_of b Local)) + 1 →
  resends (map MsgRevoke (revocations ms) ++ map MsgCommitSig sigs).
Proof using Type.
  intros Es Hne. destruct (dance_revocations ms Es) as [_ Ed]. split; [rewrite Ed; by apply sublist_inserts_r | | done].
  rewrite revocations_app, revocations_revoke. induction sigs as [|s sigs IH]; [by rewrite app_nil_r|].
  cbn [map]. by rewrite revocations_cons.
Qed.

Lemma commitment_again lc sigs : signs_again lc sigs →
  ∃ l, resend_commitment msg (cm_height (tail (chain_of a' Remote))) (cm_height (tip (chain_of a' Remote)))
         (map MsgRevoke (revocations ms) ++ map MsgCommitSig sigs) lc = Ok l ∧ resends l.
Proof using HP Hpl Hka Ba Hab Hpa Hsay.
  intros Hlc. destruct (signs_again_holds lc sigs Hlc) as (Ep & _ & Hun). unfold resend_commitment.
  rewrite (bk_tail _ _ Ba), (bk_tip _ _ Ba), (sy_next _ Hsay), Ep, Hpa.
  pose proof (pl_tip _ _ _ Hpl) as HT. pose proof (pl_remote _ _ _ Hpl) as HR. pose proof (pl_signed _ _ _ Hpl) as HS.
  destruct (pl_range _ _ _ Hpl Local) as [_ HrL]. change max_state_hint with (2 ^ 48 - 1) in HrL.
  set (T := cm_height (tip (chain_of a Remote))) in *. set (L := cm_height (tail (chain_of b Local))) in *.
  set (R := cm_height (tail (chain_of a Remote))) in *. rewrite u64_small by in_range.
  rewrite (proj2 (Z.ltb_ge _ _)), (proj2 (Z.leb_gt _ _)) by lia.
  destruct (decide (T = L)) as [E|E].
  - rewrite (proj2 (Z.eqb_eq _ _)) by lia. eexists. split; [done|]. apply revocation_resent; [|fold T L; lia].
    destruct (signatures ms); [done|]. specialize (HS ltac:(done)). lia.
  - rewrite (proj2 (Z.eqb_neq _ _)), (proj2 (Z.eqb_eq _ _)) by lia.
    assert (has_unacked_commitment (chain_of a Remote) = true) as Hu by (apply (pl_unacked _ _ _ Hpl); fold T R; lia).
    destruct (Hun Hu) as [-> Eo]. unfold owes in Eo. rewrite (bk_state _ _ Ba) in Eo. injection Eo as -> ->.
    pose proof (kp_pending _ Hka) as Hp. unfold has_unacked_commitment in Hu.
    destruct (oc_commit_diff (lc_channel_state a)) as [d|] eqn:Ed; [|by destruct (rest (chain_of a Remote))].
    cbn [rbind map]. rewrite app_nil_r. eexists. split; [done|]. by apply (signature_resent d).
Qed.

(** The point that [b] names is one that [a] has. *)
Lemma point_accepted lc sigs : signs_again lc sigs →
  check_commit_point msg (cm_height (tail (chain_of a' Remote))) (lc_params lc) (lc_channel_state lc) = Ok ().
Proof using HP Hpl Ba Hba Hsay.
  intros Hlc. destruct (signs_again_holds lc sigs Hlc) as (_ & Eh & _). unfold check_commit_point.
  destruct (sy_point _ Hsay) as (s & Hs & ->). rewrite (bk_tail _ _ Ba), (sy_next _ Hsay).
  unfold holds in Eh. rewrite (bk_state _ _ Ba) in Eh. injection Eh as -> -> _ _.
  pose proof (pl_remote _ _ _ Hpl) as HR. destruct (pl_range _ _ _ Hpl Remote) as [HrR _]. change max_state_hint with (2 ^ 48 - 1) in HrR.
  destruct (hd_current _ _ _ Hba) as (c & Hc & ->). destruct (hd_next _ _ _ Hba) as (d & Hd & ->).
  set (L := cm_height (tail (chain_of b Local))) in *. set (R := cm_height (tail (chain_of a Remote))) in *.
  rewrite !u64_small by in_range. destruct (decide (L = R)) as [E|E].
  - rewrite (proj2 (Z.eqb_eq _ _)) by lia. rewrite E, Hc in Hs. injection Hs as <-. rewrite bool_decide_eq_true_2 by done. by rewrite andb_false_r.
  - rewrite (proj2 (Z.eqb_neq _ _)), (proj2 (Z.eqb_eq _ _)) by lia. replace L with (R + 1) in Hs by lia. rewrite Hd in Hs. injection Hs as <-.
    rewrite bool_decide_eq_true_2 by done. by rewrite andb_false_r.
Qed.
End Resend.

(** ** After a restart of both *)

Section Reconnected.
Context {HP : HashPrims} {HL : HashLaws HP} {CP : ChannelPrims} {CL : ChannelLaws} {MP : MusigPrims} (t : Z).
Hypothesis Ht : in_u64 t.

Lemma linked_back n s0 s p : linked t n s0 s → n < 2 ^ 64 →
  ∃ lc', restart (pe_node s p) = Ok lc' ∧ back (pe_node s p) lc'.
Proof using HP CP Ht.
  intros [(h & es & H) _ Hk Hs] Hn. destruct (H p) as ([N1 _ _] & _).
  destruct (restart_reads t n (pe_node s p) N1 (Hk p)) as (lc' & E & R); [apply Hs | done|].
  - apply (cn_range _ (ck_chain _ _ _ N1 Local)), tail_elem.
  - exists lc'. split; [exact E | by apply reread_back].
Qed.

(** C35: Two nodes that run a channel with each other are cut off, for the first
    time, at any moment, with anything on its way, and both restart. Both channels are read back, each
    node can say where it is, and the other takes it for neither a liar nor one
    that lost data or is ahead: it sends again the revocation and the signature
    that were on their way, in their order, and no other revocation; and if it
    has signed a commitment that the peer has not revoked its old one for, the
    saved signature with its updates. The one thing that can fail is the signing
    of a new commitment, where one is owed besides a lost revocation. (Not of
    taproot channels, whose signatures are made anew. That the other takes what is
    sent again is not said: after changes of the fee rate it may not, see
    [restored_fees_swap].) *)
Theorem reestablish_in_sync s0 s n p logged :
  fresh_pair t s0 → nsteps peers_step n s0 s → Z.of_nat n < 2 ^ 64 →
  (∀ q, is_taproot (pr_chan_type (lc_params (pe_node s q))) = false) →
  let a := pe_node s p in let b := pe_node s (counter_party p) in
  ∃ a' b' msg, restart a = Ok a' ∧ restart b = Ok b' ∧
    chan_sync_msg false logged (lc_params b') (lc_channel_state b') = Ok msg ∧
    match process_chan_sync_msg false msg a' with
    | (_, Ok l) => resends a b (pe_link s p) l
    | (lc, Err e) => ∃ e', e = ErrSync e' ∧ sign_next_commitment a' = (lc, Err e') ∧ e' ≠ ErrNoWindow ∧
        revocations (pe_link s p) ≠ [] ∧ owe_commitment Local a' = true
    end.
Proof using HP HL CP CL Ht.
  intros H0 Hst Hn Htap a b. pose proof (linked_steps t Ht 0 n s0 s0 s (fs_peers _ _ H0) (linked_start t s0 H0) Hst Hn) as Hlk.
  destruct (linked_back _ s0 s p Hlk) as (a' & Ea & Ba); [lia|].
  destruct (linked_back _ s0 s (counter_party p) Hlk) as (b' & Eb & Bb); [lia|].
  pose proof (λ q, peers_heights t _ s0 s q (lk_ok _ _ _ _ Hlk)) as Hg.
  pose proof (heights_places s p (Hg p) (Hg (counter_party p))) as Hpl.
  pose proof (lk_held _ _ _ _ Hlk p) as Hab. pose proof (lk_held _ _ _ _ Hlk (counter_party p)) as Hba.
  rewrite counter_party_involutive in Hba.
  destruct (sync_msg_made a b b' (pe_link s p) logged Hpl (lk_kept _ _ _ _ Hlk _) Bb Hab (lk_secrets _ _ _ _ Hlk _) (Htap _)) as (msg & Em & Hsay).
  exists a', b', msg. split_and!; [done | done | done|]. unfold process_chan_sync_msg.
  rewrite (last_secret_accepted a b a' Ba (Htap p) msg Hsay).
  pose proof (revocation_again a b a' (pe_link s p) Hpl Ba Hab msg Hsay) as Hrev.
  destruct (resend_revocation false msg a') as [lc [l|e]]; [|exact Hrev]. destruct Hrev as (sigs & -> & Hs).
  destruct (commitment_again a b a' (pe_link s p) Hpl (lk_kept _ _ _ _ Hlk _) Ba Hab (Htap p) msg Hsay lc sigs Hs) as (l & -> & Hl).
  cbn [rbind].
  by rewrite (point_accepted a b a' (pe_link s p) _ Hpl Ba Hba msg Hsay lc sigs Hs).
Qed.
End Reconnected.

(** ** A run *)

#[export] Instance toy_channel_hash_laws : HashLaws toy_hash_prims.
Proof.
  split; simpl; intros.
  - change (length (take 32 (b ++ replicate 32 Byte.x00)) = 32%nat). rewrite length_take, length_app, length_replicate. lia.
  - by rewrite decide_True.
  - by rewrite decide_False.
  - done.
Qed.

Lemma toy_pair_fresh : fresh_pair 999340000 toy_peers.
Proof.
  split.
  - exact toy_peers_fresh.
  - intros []; apply toy_fresh_record.
  - assert (∀ o o', fresh_points (toy_channel o) (toy_channel o')) as H.
    { intros o o'. split; [exists (toy_secret 0) | exists (toy_secret 1) | done]; (split; [vm_compute; reflexivity | reflexivity]). }
    intros []; apply H.
Qed.

(** The acceptor's first answer is lost, and a fee update of the opener. *)
Definition toy_cut : peers := default toy_peers (act_all (take 7 toy_talk) toy_peers).

Lemma toy_cut_steps : nsteps peers_step (length (take 7 toy_talk)) toy_peers toy_cut.
Proof. apply act_all_steps; [by repeat constructor | by vm_compute]. Qed.

Lemma reestablish_in_sync_witness :
  length (revocations (pe_link toy_cut Remote)) = 1%nat ∧ length (signatures (pe_link toy_cut Remote)) = 1%nat ∧
  ∃ a' b' msg lc l, restart (pe_node toy_cut Remote) = Ok a' ∧ restart (pe_node toy_cut Local) = Ok b' ∧
    chan_sync_msg false no_log (lc_params b') (lc_channel_state b') = Ok msg ∧
    process_chan_sync_msg false msg a' = (lc, Ok l) ∧
    resends (pe_node toy_cut Remote) (pe_node toy_cut Local) (pe_link toy_cut Remote) l.
Proof.
  split_and!; [vm_compute; reflexivity..|].
  assert (match restart (pe_node toy_cut Remote), restart (pe_node toy_cut Local) with
          | Ok a', Ok b' =>
              match chan_sync_msg false no_log (lc_params b') (lc_channel_state b') with
              | Ok msg => is_ok (process_chan_sync_msg false msg a').2
              | Err _ => false
              end
          | _, _ => false
          end = true) as Hok by (vm_compute; reflexivity).
  destruct (reestablish_in_sync 999340000 toy_total toy_peers toy_cut _ Remote no_log toy_pair_fresh toy_cut_steps)
    as (a' & b' & msg & Ea & Eb & Em & H); [reflexivity | by intros [] |].
  exists a', b', msg. cbn [counter_party] in Eb. rewrite Ea, Eb, Em in Hok.
  destruct (process_chan_sync_msg false msg a') as [lc [l|e]]; [|discriminate Hok].
  exists lc, l. split; [exact Ea|]. split; [exact Eb|]. split; [exact Em|]. split; [reflexivity | exact H].
Defined.
