(* ===== verification/CircuitMap.v ===== *)
(** * The circuit map

    htlcswitch/circuit.go and circuit_map.go: the circuits of the HTLCs that the
    switch forwards, in memory and on disk, with the steps of a restart. A
    circuit is an object that both maps of the memory point to, so there is a
    heap. The buckets of the database are maps from circuit keys; a transaction
    is written as a whole or, as a flag of the operation says, fails. *)

From stdpp Require Import sorting.
From S2P Require Import Prelude.

(** ** Circuits *)

(** [CircuitKey]: a short channel id and the id of an HTLC *)
Definition circuit_key : Type := Z * Z.

(** hop.Source: the id of the channel of our own payments *)
Definition source : Z := 0.
Definition empty_circuit_key : circuit_key := (0, 0).

(** hop/error_encryptor.go; the encrypter of the tests is left out. *)
Inductive encrypter_type := EncrypterTypeSphinx | EncrypterTypeIntroduction | EncrypterTypeRelaying.
#[export] Instance encrypter_type_eq_decision : EqDecision encrypter_type.
Proof. solve_decision. Defined.

(** An encrypter: the compressed form of its ephemeral key, and the onion
    encrypter of sphinx, by its shared secret, which is not stored. *)
Record error_encrypter := ErrorEncrypter {
  ee_type : encrypter_type;
  ee_ephemeral_key : bytes;
  ee_onion_encrypter : option bytes;
}.

Record payment_circuit := PaymentCircuit {
  pc_add_ref : Z * Z;                  (* a height and an index *)
  pc_incoming : circuit_key;
  pc_outgoing : option circuit_key;
  pc_payment_hash : bytes;
  pc_incoming_amount : Z;
  pc_outgoing_amount : Z;
  pc_error_encrypter : option error_encrypter;
  pc_loaded_from_disk : bool;
}.

Definition set_outgoing (o : option circuit_key) (c : payment_circuit) : payment_circuit :=
  PaymentCircuit (pc_add_ref c) (pc_incoming c) o (pc_payment_hash c) (pc_incoming_amount c) (pc_outgoing_amount c)
    (pc_error_encrypter c) (pc_loaded_from_disk c).
Definition set_loaded_from_disk (b : bool) (c : payment_circuit) : payment_circuit :=
  PaymentCircuit (pc_add_ref c) (pc_incoming c) (pc_outgoing c) (pc_payment_hash c) (pc_incoming_amount c)
    (pc_outgoing_amount c) (pc_error_encrypter c) b.

Definition set_error_encrypter (e : option error_encrypter) (c : payment_circuit) : payment_circuit :=
  PaymentCircuit (pc_add_ref c) (pc_incoming c) (pc_outgoing c) (pc_payment_hash c) (pc_incoming_amount c)
    (pc_outgoing_amount c) e (pc_loaded_from_disk c).

Definition has_keystone (c : payment_circuit) : bool := bool_decide (is_Some (pc_outgoing c)).
Definition out_key (c : payment_circuit) : circuit_key := default empty_circuit_key (pc_outgoing c).

Inductive circuit_error :=
| ErrUnknownCircuit
| ErrCircuitClosing
| ErrDuplicateKeystone
| ErrShortRead                          (* io.ErrUnexpectedEOF *)
| ErrUnknownEncrypterType
| ErrInvalidKey                         (* of btcec.ParsePubKey *)
| ErrReextract
| ErrLookup                             (* of a check or a query of the channels *)
| ErrDatabase.
#[export] Instance circuit_error_eq_decision : EqDecision circuit_error.
Proof. solve_decision. Defined.

(** btcec's check of a compressed key, and what the onion processor rederives
    from it, none where it fails. *)
Class CircuitPrims := {
  parse_pub_key : bytes → bool;
  extract_error_encrypter : bytes → option bytes;
}.

(** ** Encoding *)

Definition encode_key (k : circuit_key) : bytes := be_encode 8 k.1 ++ be_encode 8 k.2.

Definition encrypter_byte (t : encrypter_type) : byte :=
  match t with
  | EncrypterTypeSphinx => Byte.x01
  | EncrypterTypeIntroduction => Byte.x03
  | EncrypterTypeRelaying => Byte.x04
  end.

(** [PaymentCircuit.Encode], with [AddRef.Encode] and [ErrorEncrypter.Encode] *)
Definition encode_circuit (c : payment_circuit) : bytes :=
  be_encode 8 (pc_add_ref c).1 ++ be_encode 2 (pc_add_ref c).2 ++ encode_key (pc_incoming c) ++
  pc_payment_hash c ++ be_encode 8 (pc_incoming_amount c) ++ be_encode 8 (pc_outgoing_amount c) ++
  match pc_error_encrypter c with
  | None => [Byte.x00]
  | Some e => encrypter_byte (ee_type e) :: ee_ephemeral_key e
  end.

(** [io.ReadFull]: what is read, and what is left. *)
Definition read_full (n : nat) (b : bytes) : result circuit_error (bytes * bytes) :=
  match read_n n b with Some x => Ok x | None => Err ErrShortRead end.

Section Decode.
Context {KP : CircuitPrims}.

(** [ErrorEncrypter.Decode] *)
Definition decode_encrypter (t : byte) (b : bytes) : result circuit_error (option error_encrypter) :=
  match t with
  | Byte.x00 => Ok None
  | Byte.x01 | Byte.x03 | Byte.x04 =>
      let* (key, _) := read_full 33 b in
      ensure parse_pub_key key else ErrInvalidKey;
      Ok (Some (ErrorEncrypter match t with
                               | Byte.x03 => EncrypterTypeIntroduction
                               | Byte.x04 => EncrypterTypeRelaying
                               | _ => EncrypterTypeSphinx
                               end key None))
  | _ => Err ErrUnknownEncrypterType
  end.

(** [PaymentCircuit.Decode] *)
Definition decode_fields (b : bytes) : result circuit_error payment_circuit :=
  let* (height, b) := read_full 8 b in
  let* (index, b) := read_full 2 b in
  let* (chan_id, b) := read_full 8 b in
  let* (htlc_id, b) := read_full 8 b in
  let* (hash, b) := read_full 32 b in
  let* (incoming, b) := read_full 8 b in
  let* (outgoing, b) := read_full 8 b in
  let* (t, b) := read_full 1 b in
  let* e := decode_encrypter (default Byte.x00 (head t)) b in
  Ok (PaymentCircuit (be_decode height, be_decode index) (be_decode chan_id, be_decode htlc_id) None hash
        (be_decode incoming) (be_decode outgoing) e false).

(** [Reextract], which the wrappers pass on *)
Definition reextract (e : error_encrypter) : result circuit_error error_encrypter :=
  match extract_error_encrypter (ee_ephemeral_key e) with
  | Some secret => Ok (ErrorEncrypter (ee_type e) (ee_ephemeral_key e) (Some secret))
  | None => Err ErrReextract
  end.

Definition decode_circuit (v : bytes) : result circuit_error payment_circuit :=
  let* c := decode_fields v in
  match pc_error_encrypter c with
  | None => Ok c
  | Some e => let* e := reextract e in Ok (set_error_encrypter (Some e) c)
  end.
End Decode.

(** ** State *)

(** The buckets circuit-adds and circuit-keystones. *)
Record circuit_db := CircuitDb {
  db_circuits : gmap circuit_key bytes;
  db_keystones : gmap circuit_key circuit_key;
}.

Definition addr : Type := nat.

Record circuit_map := CircuitMap {
  cm_heap : list payment_circuit;
  cm_pending : gmap circuit_key addr;
  cm_opened : gmap circuit_key addr;
  cm_closed : gset circuit_key;
  cm_hash_index : gmap bytes (gset circuit_key);
  cm_db : circuit_db;
}.

Implicit Types cm : circuit_map.

Definition set_heap (h : list payment_circuit) cm : circuit_map :=
  CircuitMap h (cm_pending cm) (cm_opened cm) (cm_closed cm) (cm_hash_index cm) (cm_db cm).
Definition set_pending (m : gmap circuit_key addr) cm : circuit_map :=
  CircuitMap (cm_heap cm) m (cm_opened cm) (cm_closed cm) (cm_hash_index cm) (cm_db cm).
Definition set_opened (m : gmap circuit_key addr) cm : circuit_map :=
  CircuitMap (cm_heap cm) (cm_pending cm) m (cm_closed cm) (cm_hash_index cm) (cm_db cm).
Definition set_closed (s : gset circuit_key) cm : circuit_map :=
  CircuitMap (cm_heap cm) (cm_pending cm) (cm_opened cm) s (cm_hash_index cm) (cm_db cm).
Definition set_hash_index (h : gmap bytes (gset circuit_key)) cm : circuit_map :=
  CircuitMap (cm_heap cm) (cm_pending cm) (cm_opened cm) (cm_closed cm) h (cm_db cm).
Definition set_db (d : circuit_db) cm : circuit_map :=
  CircuitMap (cm_heap cm) (cm_pending cm) (cm_opened cm) (cm_closed cm) (cm_hash_index cm) d.

#[export] Instance payment_circuit_inhabited : Inhabited payment_circuit :=
  populate (PaymentCircuit (0, 0) (0, 0) None [] 0 0 None false).

(** What a pointer points to; none dangles. *)
Definition deref (a : addr) cm : payment_circuit := cm_heap cm !!! a.

Definition put_circuit (k : circuit_key) (v : bytes) (d : circuit_db) : circuit_db :=
  CircuitDb (<[k := v]> (db_circuits d)) (db_keystones d).
Definition delete_circuit_of (k : circuit_key) (d : circuit_db) : circuit_db :=
  CircuitDb (delete k (db_circuits d)) (db_keystones d).
Definition put_keystone (out inc : circuit_key) (d : circuit_db) : circuit_db :=
  CircuitDb (db_circuits d) (<[out := inc]> (db_keystones d)).
Definition delete_keystone (out : circuit_key) (d : circuit_db) : circuit_db :=
  CircuitDb (db_circuits d) (delete out (db_keystones d)).

(** ** The index by payment hash *)

Definition add_circuit_to_hash_index (c : payment_circuit) cm : circuit_map :=
  let keys := default ∅ (cm_hash_index cm !! pc_payment_hash c) in
  set_hash_index (<[pc_payment_hash c := {[out_key c]} ∪ keys]> (cm_hash_index cm)) cm.

Definition remove_circuit_from_hash_index (c : payment_circuit) cm : circuit_map :=
  match cm_hash_index cm !! pc_payment_hash c with
  | None => cm
  | Some keys =>
      let keys := keys ∖ {[out_key c]} in
      set_hash_index (if decide (keys = ∅) then delete (pc_payment_hash c) (cm_hash_index cm)
                      else <[pc_payment_hash c := keys]> (cm_hash_index cm)) cm
  end.

(** ** Lookups *)

Definition lookup_circuit (k : circuit_key) cm : option payment_circuit := (λ a, deref a cm) <$> cm_pending cm !! k.
Definition lookup_open_circuit (k : circuit_key) cm : option payment_circuit := (λ a, deref a cm) <$> cm_opened cm !! k.

Definition lookup_by_payment_hash (hash : bytes) cm : list payment_circuit :=
  omap (λ k, lookup_open_circuit k cm) (elements (default ∅ (cm_hash_index cm !! hash))).

Definition num_pending cm : nat := size (cm_pending cm).
Definition num_open cm : nat := size (cm_opened cm).

(** ** Adding *)

Record fwd_actions := FwdActions { fa_adds : list addr; fa_drops : list addr; fa_fails : list addr }.

(** The loop over the circuits, with [addFails]. *)
Definition reconcile (x : circuit_map * fwd_actions * list addr) (a : addr) : circuit_map * fwd_actions * list addr :=
  let '(cm, FwdActions adds drops fails, add_fails) := x in
  let key := pc_incoming (deref a cm) in
  match cm_pending cm !! key with
  | Some found =>
      if has_keystone (deref found cm) then (cm, FwdActions adds (drops ++ [a]) fails, add_fails)
      else if negb (pc_loaded_from_disk (deref found cm)) then (cm, FwdActions adds (drops ++ [a]) fails, add_fails)
      else (cm, FwdActions adds drops (fails ++ [a]), add_fails ++ [a])
  | None => (set_pending (<[key := a]> (cm_pending cm)) cm, FwdActions (adds ++ [a]) drops fails, add_fails ++ [a])
  end.

Definition commit_circuits (db_ok : bool) (circuits : list addr) cm :
    circuit_map * (fwd_actions * result circuit_error ()) :=
  let '(cm, actions, add_fails) := foldl reconcile (cm, FwdActions [] [] [], []) circuits in
  let adds := map (λ a, deref a cm) (fa_adds actions) in
  match fa_adds actions with
  | [] => (cm, (FwdActions [] (fa_drops actions) (fa_fails actions), Ok ()))
  | _ =>
      if db_ok then
        (set_db (foldl (λ d c, put_circuit (pc_incoming c) (encode_circuit c) d) (cm_db cm) adds) cm,
         (actions, Ok ()))
      else
        (set_pending (foldl (λ m c, delete (pc_incoming c) m) (cm_pending cm) adds) cm,
         (FwdActions [] (fa_drops actions) add_fails, Err ErrDatabase))
  end.

(** ** Opening *)

Record keystone := Keystone { ks_in_key : circuit_key; ks_out_key : circuit_key }.

Definition openable cm (circuits : list addr) (ks : keystone) : result circuit_error (list addr) :=
  match cm_opened cm !! ks_out_key ks with
  | Some _ => Err ErrDuplicateKeystone
  | None => match cm_pending cm !! ks_in_key ks with
            | None => Err ErrUnknownCircuit
            | Some a => Ok (circuits ++ [a])
            end
  end.

Definition open_circuit cm (x : keystone * addr) : circuit_map :=
  let '(ks, a) := x in
  let cm := set_heap (alter (set_outgoing (Some (ks_out_key ks))) a (cm_heap cm)) cm in
  let cm := set_opened (<[ks_out_key ks := a]> (cm_opened cm)) cm in
  add_circuit_to_hash_index (deref a cm) cm.

Definition open_circuits (db_ok : bool) (keystones : list keystone) cm : circuit_map * result circuit_error () :=
  match keystones with
  | [] => (cm, Ok ())
  | _ =>
      match fold_result (openable cm) keystones [] with
      | Err e => (cm, Err e)
      | Ok circuits =>
          if db_ok then
            let db := foldl (λ d ks, put_keystone (ks_out_key ks) (ks_in_key ks) d) (cm_db cm) keystones in
            (foldl open_circuit (set_db db cm) (zip keystones circuits), Ok ())
          else (cm, Err ErrDatabase)
      end
  end.

(** ** Trimming *)

Definition trim_circuit (out : circuit_key) (a : addr) cm : circuit_map :=
  let cm := set_heap (alter (set_outgoing None) a (cm_heap cm)) cm in
  let cm := set_opened (delete out (cm_opened cm)) cm in
  remove_circuit_from_hash_index (deref a cm) cm.

(** The loop, with the keys it trimmed; each round takes an open circuit. *)
Fixpoint trim_loop (fuel : nat) (chan_id i : Z) (trimmed : list circuit_key) cm : circuit_map * list circuit_key :=
  match fuel with
  | O => (cm, trimmed)
  | S fuel =>
      match cm_opened cm !! (chan_id, i) with
      | None => (cm, trimmed)
      | Some a => trim_loop fuel chan_id (u64 (i + 1)) (trimmed ++ [(chan_id, i)]) (trim_circuit (chan_id, i) a cm)
      end
  end.

Definition trim_open_circuits (db_ok : bool) (chan_id start : Z) cm : circuit_map * result circuit_error () :=
  let '(cm, trimmed) := trim_loop (S (size (cm_opened cm))) chan_id start [] cm in
  match trimmed with
  | [] => (cm, Ok ())
  | _ => if db_ok then (set_db (foldl (λ d k, delete_keystone k d) (cm_db cm) trimmed) cm, Ok ())
         else (cm, Err ErrDatabase)
  end.

(** ** Closing *)

Definition fail_circuit (inc : circuit_key) cm : circuit_map * result circuit_error addr :=
  match cm_pending cm !! inc with
  | None => (cm, Err ErrUnknownCircuit)
  | Some a =>
      if decide (inc ∈ cm_closed cm) then (cm, Err ErrCircuitClosing)
      else (set_closed ({[inc]} ∪ cm_closed cm) cm, Ok a)
  end.

Definition close_circuit (out : circuit_key) cm : circuit_map * result circuit_error addr :=
  match cm_opened cm !! out with
  | None => (cm, Err ErrUnknownCircuit)
  | Some a =>
      let inc := pc_incoming (deref a cm) in
      if decide (inc ∈ cm_closed cm) then (cm, Err ErrCircuitClosing)
      else (set_closed ({[inc]} ∪ cm_closed cm) cm, Ok a)
  end.

(** ** Deleting *)

(** The circuits removed from memory, with what the map said of them. *)
Definition forget_circuit (x : circuit_map * list (circuit_key * addr * bool)) (inc : circuit_key) :
    circuit_map * list (circuit_key * addr * bool) :=
  let '(cm, removed) := x in
  match cm_pending cm !! inc with
  | None => (cm, removed)
  | Some a =>
      let closing := bool_decide (inc ∈ cm_closed cm) in
      let c := deref a cm in
      let cm := set_closed (cm_closed cm ∖ {[inc]}) (set_pending (delete inc (cm_pending cm)) cm) in
      let cm := if has_keystone c then remove_circuit_from_hash_index c (set_opened (delete (out_key c) (cm_opened cm)) cm)
                else cm in
      (cm, removed ++ [(inc, a, closing)])
  end.

Definition remember_circuit cm (x : circuit_key * addr * bool) : circuit_map :=
  let '(inc, a, closing) := x in
  let c := deref a cm in
  let cm := set_pending (<[inc := a]> (cm_pending cm)) cm in
  let cm := if closing : bool then set_closed ({[inc]} ∪ cm_closed cm) cm else cm in
  if has_keystone c then add_circuit_to_hash_index c (set_opened (<[out_key c := a]> (cm_opened cm)) cm) else cm.

Definition drop_circuit (d : circuit_db) (c : payment_circuit) : circuit_db :=
  delete_circuit_of (pc_incoming c) (if has_keystone c then delete_keystone (out_key c) d else d).

Definition delete_circuits (db_ok : bool) (in_keys : list circuit_key) cm : circuit_map * result circuit_error () :=
  let '(cm, removed) := foldl forget_circuit (cm, []) in_keys in
  if db_ok then (set_db (foldl drop_circuit (cm_db cm) (map (λ x, deref x.1.2 cm) removed)) cm, Ok ())
  else (foldl remember_circuit cm removed, Err ErrDatabase).

(** ** A restart *)

(** What a look into another store finds. *)
Inductive lookup_result := Found | Absent | Failed.

(** The rest of the node at a restart: the closed channels (their ids and
    whether the close is pending), the open ones (whether they are pending,
    their ids and the next indexes of their HTLCs), the stores of responses, and
    whether the transactions succeed. *)
Record restart_env := RestartEnv {
  re_closed_channels : result circuit_error (list (Z * bool));
  re_open_channels : result circuit_error (list (bool * Z * result circuit_error Z));
  re_check_resolution_msg : circuit_key → lookup_result;
  re_check_fwd_response : circuit_key → lookup_result;
  re_init_ok : bool;
  re_view_ok : bool;
  re_clean_ok : bool;
  re_restore_ok : bool;
  re_trim_ok : Z → bool;
}.

Section Restart.
Context {KP : CircuitPrims} (env : restart_env).

Definition response_pending (out : circuit_key) : result circuit_error bool :=
  match re_check_resolution_msg env out with
  | Found => Ok true
  | Failed => Err ErrLookup
  | Absent =>
      match re_check_fwd_response env out with
      | Found => Ok true
      | Failed => Err ErrLookup
      | Absent => Ok false
      end
  end.

(** bbolt visits the keys of a bucket in their order. *)
Definition key_le (k k' : circuit_key) : Prop := k.1 < k'.1 ∨ k.1 = k'.1 ∧ k.2 ≤ k'.2.
#[export] Instance key_le_decision k k' : Decision (key_le k k').
Proof using Type. unfold key_le. apply _. Defined.

Definition for_each {A} (m : gmap circuit_key A) : list (circuit_key * A) :=
  merge_sort (λ x y, key_le x.1 y.1) (map_to_list m).

Definition is_closed_channel (closed : gset Z) (chan_id : Z) : bool :=
  negb (chan_id =? 0) && bool_decide (chan_id ∈ closed).

Definition clean_circuit (closed : gset Z) (ks : gset circuit_key) (x : circuit_key * bytes) :
    result circuit_error (gset circuit_key) :=
  let* c := decode_circuit x.2 in
  Ok (if is_closed_channel closed (pc_incoming c).1 then {[pc_incoming c]} ∪ ks else ks).

Definition clean_keystone (closed : gset Z) (x : gset circuit_key * gset circuit_key) (ks : circuit_key * circuit_key) :
    result circuit_error (gset circuit_key * gset circuit_key) :=
  let '(circuits, keystones) := x in
  let '(out, inc) := ks in
  if is_closed_channel closed inc.1 then Ok ({[inc]} ∪ circuits, {[out]} ∪ keystones)
  else if is_closed_channel closed out.1 then
    let* pending := response_pending out in
    if pending : bool then Ok x else Ok ({[inc]} ∪ circuits, {[out]} ∪ keystones)
  else Ok x.

Definition clean_closed_channels (d : circuit_db) : circuit_db * result circuit_error () :=
  match re_closed_channels env with
  | Err e => (d, Err e)
  | Ok channels =>
      let closed : gset Z := list_to_set (map fst (List.filter (λ x, negb x.2) channels)) in
      if decide (closed = ∅) then (d, Ok ())
      else if negb (re_view_ok env) then (d, Err ErrDatabase)
      else
        match fold_result (clean_circuit closed) (for_each (db_circuits d)) ∅ with
        | Err e => (d, Err e)
        | Ok circuits =>
            match fold_result (clean_keystone closed) (for_each (db_keystones d)) (circuits, ∅) with
            | Err e => (d, Err e)
            | Ok (circuits, keystones) =>
                if re_clean_ok env then
                  (CircuitDb (filter (λ x, x.1 ∉ circuits) (db_circuits d))
                     (filter (λ x, x.1 ∉ keystones) (db_keystones d)), Ok ())
                else (d, Err ErrDatabase)
            end
        end
  end.

Definition restore_circuit (x : list payment_circuit * gmap circuit_key addr) (v : circuit_key * bytes) :
    result circuit_error (list payment_circuit * gmap circuit_key addr) :=
  let '(heap, pending) := x in
  let* c := decode_circuit v.2 in
  Ok (heap ++ [set_loaded_from_disk true c], <[pc_incoming c := length heap]> pending).

Definition restore_keystone (pending : gmap circuit_key addr)
    (x : list payment_circuit * gmap circuit_key addr * list keystone) (ks : circuit_key * circuit_key) :
    list payment_circuit * gmap circuit_key addr * list keystone :=
  let '(heap, opened, strays) := x in
  let '(out, inc) := ks in
  match pending !! inc with
  | Some a => (alter (set_outgoing (Some out)) a heap, <[out := a]> opened, strays)
  | None => (heap, opened, strays ++ [Keystone inc out])
  end.

Definition restore_mem_state (d : circuit_db) : result circuit_error circuit_map :=
  let* (heap, pending) := fold_result restore_circuit (for_each (db_circuits d)) ([], ∅) in
  let '(heap, opened, strays) := foldl (restore_keystone pending) (heap, ∅, []) (for_each (db_keystones d)) in
  let strays := List.filter (λ ks, (ks_out_key ks).1 =? source) strays in
  let db := foldl (λ d ks, delete_keystone (ks_out_key ks) d) d strays in
  ensure re_restore_ok env else ErrDatabase;
  let cm := CircuitMap heap pending opened ∅ ∅ db in
  Ok (foldl (λ cm x, add_circuit_to_hash_index (deref x.2 cm) cm) cm (map_to_list opened)).

Definition trim_channel cm (ch : bool * Z * result circuit_error Z) : result circuit_error circuit_map :=
  let '(pending, chan_id, next) := ch in
  if pending : bool then Ok cm
  else if chan_id =? source then Ok cm
  else
    let* start := next in
    let '(cm, r) := trim_open_circuits (re_trim_ok env chan_id) chan_id start cm in
    let* _ := r in Ok cm.

Definition trim_all_open_circuits cm : result circuit_error circuit_map :=
  let* channels := re_open_channels env in fold_result trim_channel channels cm.

(** [NewCircuitMap] on what is on disk. *)
Definition new_circuit_map (d : circuit_db) : result circuit_error circuit_map :=
  ensure re_init_ok env else ErrDatabase;
  match clean_closed_channels d with
  | (d, Err e) => Err e
  | (d, Ok _) => let* cm := restore_mem_state d in trim_all_open_circuits cm
  end.
End Restart.

(** ** The callers' part *)

(** [newPaymentCircuit]: objects that nobody else has *)
Definition new_payment_circuits (cs : list payment_circuit) cm : circuit_map * list addr :=
  (set_heap (cm_heap cm ++ cs) cm, seq (length (cm_heap cm)) (length cs)).

(** A batch of packets, as the switch commits it. *)
Definition commit_new (db_ok : bool) (cs : list payment_circuit) cm :
    circuit_map * (fwd_actions * result circuit_error ()) :=
  let '(cm, circuits) := new_payment_circuits cs cm in commit_circuits db_ok circuits cm.

Inductive circuit_op :=
| OpCommit (db_ok : bool) (cs : list payment_circuit)
| OpOpen (db_ok : bool) (keystones : list keystone)
| OpTrim (db_ok : bool) (chan_id start : Z)
| OpFail (inc : circuit_key)
| OpClose (out : circuit_key)
| OpDelete (db_ok : bool) (in_keys : list circuit_key)
| OpLookup (inc : circuit_key)
| OpLookupOpen (out : circuit_key)
| OpRestart (env : restart_env).

(** What the caller gets, with the circuits themselves for their pointers. *)
Inductive circuit_out :=
| OutActions (adds drops fails : list payment_circuit) (r : result circuit_error ())
| OutDone (r : result circuit_error ())
| OutCircuit (r : result circuit_error payment_circuit)
| OutFound (c : option payment_circuit).

(** An operation on the map. A node that cannot load its circuits does not
    start. *)
Definition run_circuit_op {KP : CircuitPrims} (op : circuit_op) cm : option (circuit_map * circuit_out) :=
  match op with
  | OpCommit db_ok cs =>
      let '(cm, (FwdActions adds drops fails, r)) := commit_new db_ok cs cm in
      let circuits := map (λ a, deref a cm) in
      Some (cm, OutActions (circuits adds) (circuits drops) (circuits fails) r)
  | OpOpen db_ok keystones => let '(cm, r) := open_circuits db_ok keystones cm in Some (cm, OutDone r)
  | OpTrim db_ok chan_id start => let '(cm, r) := trim_open_circuits db_ok chan_id start cm in Some (cm, OutDone r)
  | OpFail inc =>
      let '(cm, r) := fail_circuit inc cm in
      Some (cm, OutCircuit (let* a := r in Ok (deref a cm)))
  | OpClose out =>
      let '(cm, r) := close_circuit out cm in
      Some (cm, OutCircuit (let* a := r in Ok (deref a cm)))
  | OpDelete db_ok in_keys => let '(cm, r) := delete_circuits db_ok in_keys cm in Some (cm, OutDone r)
  | OpLookup inc => Some (cm, OutFound (lookup_circuit inc cm))
  | OpLookupOpen out => Some (cm, OutFound (lookup_open_circuit out cm))
  | OpRestart env =>
      match new_circuit_map env (cm_db cm) with
      | Ok cm => Some (cm, OutDone (Ok ()))
      | Err _ => None
      end
  end.
