(* ===== verification/CircuitSpec.v ===== *)
(** * The circuit map as one map

    What [CircuitMap] promises: circuits by their incoming keys, each with its
    keystone and whether a response has claimed it. The rest of the state - the
    objects, the map of open circuits, the index, the database - is the
    implementation's, and [CircuitRefine] shows that it implements this. *)

From S2P Require Import Prelude CircuitMap.

Abbreviation entry := (payment_circuit * bool)%type.
Abbreviation circuits := (gmap circuit_key entry).
Implicit Types m : circuits.

Definition with_keystone (out : circuit_key) (e : entry) : bool := bool_decide (pc_outgoing e.1 = Some out).

(** The circuit that a keystone opened. *)
Definition find_open (out : circuit_key) m : option (circuit_key * entry) :=
  head (List.filter (λ x, with_keystone out x.2) (map_to_list m)).

Definition spec_reconcile (x : circuits * (list payment_circuit * list payment_circuit * list payment_circuit))
    (c : payment_circuit) : circuits * (list payment_circuit * list payment_circuit * list payment_circuit) :=
  let '(m, (adds, drops, fails)) := x in
  match m !! pc_incoming c with
  | None => (<[pc_incoming c := (c, false)]> m, (adds ++ [c], drops, fails))
  | Some e =>
      if has_keystone e.1 || negb (pc_loaded_from_disk e.1) then (m, (adds, drops ++ [c], fails))
      else (m, (adds, drops, fails ++ [c]))
  end.

(** The circuits that a failed write gives back: all but the dropped ones. *)
Definition spec_undropped m (cs : list payment_circuit) : list payment_circuit :=
  (foldl (λ x c,
     let '(m', l) := x in
     match m' !! pc_incoming c with
     | None => (<[pc_incoming c := (c, false)]> m', l ++ [c])
     | Some e => (m', if has_keystone e.1 || negb (pc_loaded_from_disk e.1) then l else l ++ [c])
     end) (m, []) cs).2.

Definition spec_commit (db_ok : bool) (cs : list payment_circuit) m : circuits * circuit_out :=
  let '(m', (adds, drops, fails)) := foldl spec_reconcile (m, ([], [], [])) cs in
  match adds with
  | [] => (m, OutActions [] drops fails (Ok ()))
  | _ => if db_ok then (m', OutActions adds drops fails (Ok ()))
         else (m, OutActions [] drops (spec_undropped m cs) (Err ErrDatabase))
  end.

Definition spec_openable m (ks : keystone) : option circuit_error :=
  match find_open (ks_out_key ks) m, m !! ks_in_key ks with
  | Some _, _ => Some ErrDuplicateKeystone
  | None, None => Some ErrUnknownCircuit
  | None, Some _ => None
  end.

Definition set_keystone (out : option circuit_key) (e : entry) : entry := (set_outgoing out e.1, e.2).

Definition spec_open (db_ok : bool) (kss : list keystone) m : circuits * circuit_out :=
  match kss, omap (spec_openable m) kss with
  | [], _ => (m, OutDone (Ok ()))
  | _, e :: _ => (m, OutDone (Err e))
  | _, [] => if db_ok then (foldl (λ m ks, alter (set_keystone (Some (ks_out_key ks))) (ks_in_key ks) m) m kss, OutDone (Ok ()))
             else (m, OutDone (Err ErrDatabase))
  end.

(** The keystones of a channel from an index on, up to the first gap. *)
Definition in_run m (chan_id start : Z) (out : circuit_key) : bool :=
  (out.1 =? chan_id) && (start <=? out.2) &&
  forallb (λ i, bool_decide (is_Some (find_open (chan_id, i) m))) (seqZ start (out.2 - start)).

Definition spec_trim (chan_id start : Z) m : circuits :=
  (λ e, match pc_outgoing e.1 with
        | Some out => if in_run m chan_id start out then set_keystone None e else e
        | None => e
        end) <$> m.

Definition spec_claim (inc : circuit_key) m : circuits * circuit_out :=
  match m !! inc with
  | None => (m, OutCircuit (Err ErrUnknownCircuit))
  | Some (c, true) => (m, OutCircuit (Err ErrCircuitClosing))
  | Some (c, false) => (<[inc := (c, true)]> m, OutCircuit (Ok c))
  end.

Definition spec_close (out : circuit_key) m : circuits * circuit_out :=
  match find_open out m with
  | None => (m, OutCircuit (Err ErrUnknownCircuit))
  | Some (inc, _) => spec_claim inc m
  end.

(** At a restart: a circuit from a closed channel goes, and one into a closed
    channel too, unless a response to it is stored. *)
Definition closed_set (channels : list (Z * bool)) : gset Z := list_to_set (map fst (List.filter (λ x, negb x.2) channels)).

Definition response_stored (env : restart_env) (out : circuit_key) : bool :=
  match re_check_resolution_msg env out with
  | Found => true
  | _ => match re_check_fwd_response env out with Found => true | _ => false end
  end.

Definition survives (env : restart_env) (closed : gset Z) (c : payment_circuit) : bool :=
  negb (is_closed_channel closed (pc_incoming c).1) &&
  match pc_outgoing c with
  | None => true
  | Some out => negb (is_closed_channel closed out.1) || response_stored env out
  end.

Definition reloaded (e : entry) : entry := (set_loaded_from_disk true e.1, false).

Definition spec_trim_channel m (ch : bool * Z * result circuit_error Z) : circuits :=
  match ch with
  | (false, chan_id, Ok start) => if chan_id =? source then m else spec_trim chan_id start m
  | _ => m
  end.

Definition spec_restart (env : restart_env) m : circuits :=
  match re_closed_channels env, re_open_channels env with
  | Ok closed, Ok channels =>
      foldl spec_trim_channel (reloaded <$> filter (λ x, survives env (closed_set closed) x.2.1 = true) m) channels
  | _, _ => m
  end.

Definition spec_op (op : circuit_op) m : circuits * circuit_out :=
  match op with
  | OpCommit db_ok cs => spec_commit db_ok cs m
  | OpOpen db_ok kss => spec_open db_ok kss m
  | OpTrim _ chan_id start => (spec_trim chan_id start m, OutDone (Ok ()))
  | OpFail inc => spec_claim inc m
  | OpClose out => spec_close out m
  | OpDelete true in_keys => (foldl (λ m k, delete k m) m in_keys, OutDone (Ok ()))
  | OpDelete false _ => (m, OutDone (Err ErrDatabase))
  | OpLookup inc => (m, OutFound (fst <$> m !! inc))
  | OpLookupOpen out => (m, OutFound ((λ x, x.2.1) <$> find_open out m))
  | OpRestart env => (spec_restart env m, OutDone (Ok ()))
  end.

(** ** What callers keep to *)

(** The circuits of packets, whose numbers are machine integers. *)
Record fits (c : payment_circuit) : Prop := {
  ft_height : in_u64 (pc_add_ref c).1;
  ft_index : in_u16 (pc_add_ref c).2;
  ft_incoming : in_u64 (pc_incoming c).1 ∧ in_u64 (pc_incoming c).2;
  ft_hash : length (pc_payment_hash c) = 32%nat;
  ft_incoming_amount : in_u64 (pc_incoming_amount c);
  ft_outgoing_amount : in_u64 (pc_outgoing_amount c);
}.

Section Contract.
Context {KP : CircuitPrims}.

(** An encrypter as the onion processor made it, from its key. *)
Definition readable (e : error_encrypter) : Prop :=
  length (ee_ephemeral_key e) = 33%nat ∧ parse_pub_key (ee_ephemeral_key e) = true ∧
  is_Some (ee_onion_encrypter e) ∧ extract_error_encrypter (ee_ephemeral_key e) = ee_onion_encrypter e.

Record fresh_circuit (c : payment_circuit) : Prop := {
  fh_fits : fits c;
  fh_encrypter e : pc_error_encrypter c = Some e → readable e;
  fh_outgoing : pc_outgoing c = None;
  fh_loaded : pc_loaded_from_disk c = false;
}.

Definition keystone_range (out : circuit_key) : Prop := out.1 ≠ source ∧ 0 ≤ out.2 ∧ out.2 + 1 < 2 ^ 64.

(** A link opens circuits that are not open, with new indexes of its channel,
    which is a real one. The map does not check the first part, nor a batch
    against itself. *)
Record fresh_keystones m (kss : list keystone) : Prop := {
  fs_out : NoDup (map ks_out_key kss);
  fs_in : NoDup (map ks_in_key kss);
  fs_half ks e : ks ∈ kss → m !! ks_in_key ks = Some e → pc_outgoing e.1 = None;
  fs_range ks : ks ∈ kss → keystone_range (ks_out_key ks);
}.

(** The write of a trimming succeeds: where it fails, memory and disk are apart
    ([Circuits.failed_trim_splits]). *)
Definition op_contract (op : circuit_op) m : Prop :=
  match op with
  | OpCommit _ cs => ∀ c, c ∈ cs → fresh_circuit c
  | OpOpen _ kss => fresh_keystones m kss
  | OpTrim db_ok _ start => db_ok = true ∧ in_u64 start
  | OpRestart env =>
      (∀ channels p k start, re_open_channels env = Ok channels → (p, k, Ok start) ∈ channels → in_u64 start)
  | _ => True
  end.
End Contract.
