(* ===== verification/CircuitRefine.v ===== *)
(** * The circuit map implements its promise

    Each operation of [CircuitMap], restarts included, does to the circuits
    what [CircuitSpec] says, and keeps memory and disk consistent. *)

From stdpp Require Import sorting.
From S2P Require Import Prelude CircuitMap CircuitSpec.

Implicit Types (m : circuits) (out : circuit_key) (cm : circuit_map).

(** ** Keystones *)

Definition keystones_unique (m : circuits) : Prop :=
  ∀ k k' e e' out, m !! k = Some e → m !! k' = Some e' →
    pc_outgoing e.1 = Some out → pc_outgoing e'.1 = Some out → k = k'.

Lemma keystone_elem out m (x : circuit_key * entry) :
  x ∈ List.filter (λ x, with_keystone out x.2) (map_to_list m) ↔ m !! x.1 = Some x.2 ∧ pc_outgoing x.2.1 = Some out.
Proof.
  rewrite elem_of_bfilter. unfold with_keystone. rewrite bool_decide_eq_true. destruct x as [k e].
  by rewrite elem_of_map_to_list.
Qed.

Lemma find_open_elem out m x : find_open out m = Some x → m !! x.1 = Some x.2 ∧ pc_outgoing x.2.1 = Some out.
Proof. unfold find_open. intros Hx%head_Some_elem_of. by apply keystone_elem. Qed.

Lemma find_open_None out m : find_open out m = None ↔ ∀ k e, m !! k = Some e → pc_outgoing e.1 ≠ Some out.
Proof.
  unfold find_open. split.
  - intros H%head_None k e Hk Ho. assert ((k, e) ∈ List.filter (λ x, with_keystone out x.2) (map_to_list m)) as Hx.
    { by apply keystone_elem. }
    rewrite H in Hx. by apply elem_of_nil in Hx.
  - intros H. apply head_None. destruct (List.filter _ _) as [|x l] eqn:E; [done|]. exfalso.
    assert (x ∈ List.filter (λ x, with_keystone out x.2) (map_to_list m)) as Hx by (rewrite E; left).
    apply keystone_elem in Hx as [Hk Ho]. by eapply H.
Qed.

Lemma find_open_Some out m k e :
  keystones_unique m → find_open out m = Some (k, e) ↔ m !! k = Some e ∧ pc_outgoing e.1 = Some out.
Proof.
  intros Hu. split; [apply find_open_elem|]. intros [Hk Ho].
  destruct (find_open out m) as [[k' e']|] eqn:E; [|by eapply find_open_None in E; [|exact Hk]].
  apply find_open_elem in E as [Hk' Ho']. assert (k' = k) as -> by by eapply Hu. simpl in Hk'. congruence.
Qed.

(** ** The memory *)

Definition view (cm : circuit_map) : circuits :=
  map_imap (λ k a, Some (deref a cm, bool_decide (k ∈ cm_closed cm))) (cm_pending cm).

Lemma lookup_view cm k : view cm !! k = (λ a, (deref a cm, bool_decide (k ∈ cm_closed cm))) <$> cm_pending cm !! k.
Proof. unfold view. rewrite map_lookup_imap. by destruct (_ !! k). Qed.

Lemma lookup_view_Some cm k e :
  view cm !! k = Some e ↔ ∃ a, cm_pending cm !! k = Some a ∧ e = (deref a cm, bool_decide (k ∈ cm_closed cm)).
Proof. rewrite lookup_view, fmap_Some. done. Qed.

Record mem_ok (cm : circuit_map) : Prop := {
  mo_pending k a : cm_pending cm !! k = Some a → (a < length (cm_heap cm))%nat ∧ pc_incoming (deref a cm) = k;
  mo_opened out a :
    cm_opened cm !! out = Some a ↔ ∃ k, cm_pending cm !! k = Some a ∧ pc_outgoing (deref a cm) = Some out;
  mo_closed : cm_closed cm ⊆ dom (cm_pending cm);
  mo_hash out a :
    cm_opened cm !! out = Some a → out ∈ default ∅ (cm_hash_index cm !! pc_payment_hash (deref a cm));
}.

Lemma view_unique cm : mem_ok cm → keystones_unique (view cm).
Proof.
  intros H k k' e e' out Hk Hk' Ho Ho'.
  apply lookup_view_Some in Hk as (a & Ha & ->). apply lookup_view_Some in Hk' as (a' & Ha' & ->).
  assert (cm_opened cm !! out = Some a) as E by (apply (mo_opened _ H); by exists k).
  assert (cm_opened cm !! out = Some a') as E' by (apply (mo_opened _ H); by exists k').
  assert (a' = a) as -> by congruence.
  destruct (mo_pending _ H _ _ Ha) as [_ <-]. by destruct (mo_pending _ H _ _ Ha') as [_ <-].
Qed.

Lemma opened_view cm out a :
  mem_ok cm → cm_opened cm !! out = Some a →
  cm_pending cm !! pc_incoming (deref a cm) = Some a ∧ pc_outgoing (deref a cm) = Some out ∧
  find_open out (view cm) = Some (pc_incoming (deref a cm), (deref a cm, bool_decide (pc_incoming (deref a cm) ∈ cm_closed cm))).
Proof.
  intros H Ho. pose proof Ho as Ho'. apply (mo_opened _ H) in Ho as (k & Hk & Hout).
  destruct (mo_pending _ H _ _ Hk) as [_ E]. rewrite E. split_and!; [done | done|].
  apply find_open_Some; [by apply view_unique|]. split; [|done]. apply lookup_view_Some. by exists a.
Qed.

Lemma not_opened_view cm out : mem_ok cm → cm_opened cm !! out = None → find_open out (view cm) = None.
Proof.
  intros H Ho. apply find_open_None. intros k e Hk Hout. apply lookup_view_Some in Hk as (a & Ha & ->).
  assert (cm_opened cm !! out = Some a) as E by (apply (mo_opened _ H); by exists k). congruence.
Qed.

Lemma opened_is_open cm out :
  mem_ok cm → is_Some (cm_opened cm !! out) ↔ is_Some (find_open out (view cm)).
Proof.
  intros H. destruct (cm_opened cm !! out) as [a|] eqn:E.
  - destruct (opened_view cm out a H E) as (_ & _ & ->). by split; eexists.
  - by rewrite (not_opened_view cm out H E).
Qed.

Lemma lookup_circuit_view cm k : lookup_circuit k cm = fst <$> view cm !! k.
Proof. unfold lookup_circuit. rewrite lookup_view. by destruct (_ !! k). Qed.

Lemma lookup_open_view cm out : mem_ok cm → lookup_open_circuit out cm = (λ x, x.2.1) <$> find_open out (view cm).
Proof.
  intros H. unfold lookup_open_circuit. destruct (cm_opened cm !! out) as [a|] eqn:E; simpl.
  - by destruct (opened_view cm out a H E) as (_ & _ & ->).
  - by rewrite (not_opened_view cm out H E).
Qed.

(** ** The disk *)

Record disk_shows (d : circuit_db) (m : circuits) : Prop := {
  ds_circuits k : db_circuits d !! k = encode_circuit ∘ fst <$> m !! k;
  ds_keystones out k : db_keystones d !! out = Some k ↔ ∃ e, m !! k = Some e ∧ pc_outgoing e.1 = Some out;
}.

(** ** Adding *)

Lemma deref_app a cm cs : (a < length (cm_heap cm))%nat → deref a (set_heap (cm_heap cm ++ cs) cm) = deref a cm.
Proof. intros Ha. unfold deref. simpl. by apply lookup_total_app_l. Qed.

Lemma mem_ok_alloc cs cm : mem_ok cm → mem_ok (set_heap (cm_heap cm ++ cs) cm) ∧ view (set_heap (cm_heap cm ++ cs) cm) = view cm.
Proof.
  intros H.
  assert (∀ k a, cm_pending cm !! k = Some a → deref a (set_heap (cm_heap cm ++ cs) cm) = deref a cm) as Hd.
  { intros k a Hk. apply deref_app. by apply (mo_pending _ H _ _ Hk). }
  assert (∀ o a, cm_opened cm !! o = Some a → deref a (set_heap (cm_heap cm ++ cs) cm) = deref a cm) as Hd'.
  { intros o a Ho. apply (mo_opened _ H) in Ho as (k & Hk & _). by eapply Hd. }
  split.
  - split; cbn [cm_pending cm_opened cm_closed cm_hash_index cm_heap set_heap].
    + intros k a Hk. rewrite (Hd k a Hk), length_app. destruct (mo_pending _ H _ _ Hk). split; [lia | done].
    + intros out a. rewrite (mo_opened _ H). split; intros (k & Hk & Ho); exists k; by rewrite (Hd k a Hk) in *.
    + apply H.
    + intros out a Ho. rewrite (Hd' out a Ho). by apply H.
  - apply map_eq. intros k. rewrite !lookup_view. cbn [cm_pending set_heap].
    destruct (cm_pending cm !! k) as [a|] eqn:Hk; [|done]. simpl. by rewrite (Hd k a Hk).
Qed.

(** An object that no map has yet. *)
Definition unused cm (a : addr) : Prop :=
  (a < length (cm_heap cm))%nat ∧ pc_outgoing (deref a cm) = None ∧ ∀ k, cm_pending cm !! k ≠ Some a.

Lemma view_add cm a :
  mem_ok cm → unused cm a → cm_pending cm !! pc_incoming (deref a cm) = None →
  let cm' := set_pending (<[pc_incoming (deref a cm) := a]> (cm_pending cm)) cm in
  mem_ok cm' ∧ view cm' = <[pc_incoming (deref a cm) := (deref a cm, false)]> (view cm).
Proof.
  intros H (Ha & Ho & Hu) Hk cm'. set (key := pc_incoming (deref a cm)) in *.
  assert (∀ b, deref b cm' = deref b cm) as Hd by done.
  split.
  - split; cbn [cm_pending cm_opened cm_closed cm_hash_index cm_heap set_pending cm'].
    + intros k b. rewrite lookup_insert_Some. intros [[<- <-]|[_ Hb]]; [done|]. by apply (mo_pending _ H).
    + intros out b. rewrite (mo_opened _ H). split; intros (k & Hb & Hout); rewrite ?Hd in *.
      * exists k. rewrite lookup_insert_ne; [done|]. intros <-. congruence.
      * apply lookup_insert_Some in Hb as [[<- <-]|[_ Hb]]; [congruence | by exists k].
    + pose proof (mo_closed _ H). set_solver.
    + apply H.
  - apply map_eq. intros k. rewrite lookup_view. cbn [cm_pending set_pending cm' cm_closed].
    destruct (decide (k = key)) as [->|Hne].
    + rewrite !lookup_insert_eq. simpl. f_equal. f_equal. apply bool_decide_eq_false.
      intros Hc%(mo_closed _ H)%elem_of_dom. rewrite Hk in Hc. by destruct Hc.
    + by rewrite !lookup_insert_ne, lookup_view.
Qed.

Lemma foldl_delete_comm (k : circuit_key) (ks : list payment_circuit) (p : gmap circuit_key addr) :
  foldl (λ p c, delete (pc_incoming c) p) (delete k p) ks = delete k (foldl (λ p c, delete (pc_incoming c) p) p ks).
Proof.
  revert p. induction ks as [|c ks IH]; intros p; simpl; [done|]. by rewrite delete_delete, IH.
Qed.

Definition put_all (d : circuit_db) (cs : list payment_circuit) : circuit_db :=
  foldl (λ d c, put_circuit (pc_incoming c) (encode_circuit c) d) d cs.

Lemma disk_put d m c b :
  disk_shows d m → m !! pc_incoming c = None → pc_outgoing c = None →
  disk_shows (put_circuit (pc_incoming c) (encode_circuit c) d) (<[pc_incoming c := (c, b)]> m).
Proof.
  intros [H1 H2] Hk Ho. split.
  - intros k. cbn. destruct (decide (k = pc_incoming c)) as [->|Hne]; [by rewrite !lookup_insert_eq|].
    by rewrite !lookup_insert_ne.
  - intros out k. cbn. rewrite H2. split; intros (e & He & Hout).
    + exists e. rewrite lookup_insert_ne; [done|]. intros <-. congruence.
    + apply lookup_insert_Some in He as [[<- <-]|[_ He]]; [simpl in Hout; congruence | by exists e].
Qed.

Definition actions_of cm (x : fwd_actions) : list payment_circuit * list payment_circuit * list payment_circuit :=
  (map (λ a, deref a cm) (fa_adds x), map (λ a, deref a cm) (fa_drops x), map (λ a, deref a cm) (fa_fails x)).

Definition undropped_step (x : circuits * list payment_circuit) (c : payment_circuit) : circuits * list payment_circuit :=
  let '(m', l) := x in
  match m' !! pc_incoming c with
  | None => (<[pc_incoming c := (c, false)]> m', l ++ [c])
  | Some e => (m', if has_keystone e.1 || negb (pc_loaded_from_disk e.1) then l else l ++ [c])
  end.

(** What the loop of [CommitCircuits] leaves. *)
Record reconciled cm cm' (x x' : fwd_actions) (f f' : list addr) (cs : list payment_circuit) : Prop := {
  rc_ok : mem_ok cm';
  rc_heap : cm_heap cm' = cm_heap cm;
  rc_db : cm_db cm' = cm_db cm;
  rc_rest : set_pending (cm_pending cm) cm' = cm;
  rc_spec : foldl spec_reconcile (view cm, actions_of cm x) cs = (view cm', actions_of cm x');
  rc_undropped : foldl undropped_step (view cm, map (λ a, deref a cm) f) cs = (view cm', map (λ a, deref a cm) f');
  rc_adds : ∃ new, fa_adds x' = fa_adds x ++ new ∧
    foldl (λ p c, delete (pc_incoming c) p) (cm_pending cm') (map (λ a, deref a cm) new) = cm_pending cm ∧
    ∀ d, disk_shows d (view cm) → disk_shows (put_all d (map (λ a, deref a cm) new)) (view cm');
}.

(** One circuit that is there already. *)
Local Ltac step Ev Ek :=
  unfold spec_reconcile, undropped_step, actions_of; rewrite Ev; cbn [fst]; rewrite Ek; cbn [fa_adds fa_drops fa_fails].

Lemma reconcile_loop l cm x f :
  mem_ok cm → NoDup l → (∀ a, a ∈ l → unused cm a) →
  let '(cm', x', f') := foldl reconcile (cm, x, f) l in reconciled cm cm' x x' f f' (map (λ a, deref a cm) l).
Proof.
  revert cm x f. induction l as [|a l IH]; intros cm x f H Hnd Hu.
  { simpl. split; try done; [by destruct cm|]. exists []. by rewrite app_nil_r. }
  apply NoDup_cons in Hnd as [Hal Hnd]. cbn [foldl map].
  assert (unused cm a) as Ha by (apply Hu; left).
  assert (∀ b, b ∈ l → unused cm b) as Hl by (intros b Hb; apply Hu; by right).
  destruct x as [adds drops fails]. unfold reconcile at 2.
  assert (view cm !! pc_incoming (deref a cm) = (λ a', (deref a' cm, bool_decide (pc_incoming (deref a cm) ∈ cm_closed cm))) <$> cm_pending cm !! pc_incoming (deref a cm)) as Ev by apply lookup_view.
  destruct (cm_pending cm !! pc_incoming (deref a cm)) as [found|] eqn:E; simpl in Ev.
  - destruct (has_keystone (deref found cm) || negb (pc_loaded_from_disk (deref found cm))) eqn:Ek.
    + assert ((if has_keystone (deref found cm) then (cm, FwdActions adds (drops ++ [a]) fails, f)
               else if negb (pc_loaded_from_disk (deref found cm)) then (cm, FwdActions adds (drops ++ [a]) fails, f)
               else (cm, FwdActions adds drops (fails ++ [a]), f ++ [a])) = (cm, FwdActions adds (drops ++ [a]) fails, f)) as ->.
      { by destruct (has_keystone _); [|destruct (negb _)]. }
      pose proof (IH cm (FwdActions adds (drops ++ [a]) fails) f H Hnd Hl) as IH'.
      destruct (foldl _ _ l) as [[cm' x'] f']. destruct IH' as [R1 R2 R3 R4 R5 R6 R7]. split; try done.
      * rewrite <-R5. cbn [foldl]. f_equal. step Ev Ek. by rewrite map_app.
      * rewrite <-R6. cbn [foldl]. f_equal. by step Ev Ek.
    + assert (has_keystone (deref found cm) = false ∧ negb (pc_loaded_from_disk (deref found cm)) = false) as [E1 E2].
      { by apply orb_false_iff. }
      rewrite E1, E2. pose proof (IH cm (FwdActions adds drops (fails ++ [a])) (f ++ [a]) H Hnd Hl) as IH'.
      destruct (foldl _ _ l) as [[cm' x'] f']. destruct IH' as [R1 R2 R3 R4 R5 R6 R7]. split; try done.
      * rewrite <-R5. cbn [foldl]. f_equal. step Ev Ek. by rewrite map_app.
      * rewrite <-R6. cbn [foldl]. f_equal. step Ev Ek. by rewrite map_app.
  - destruct (view_add cm a H Ha E) as [H1 V1]. set (cm1 := set_pending _ _) in *.
    pose proof (IH cm1 (FwdActions (adds ++ [a]) drops fails) (f ++ [a]) H1 Hnd) as IH'.
    destruct (foldl _ _ l) as [[cm' x'] f']. destruct IH' as [R1 R2 R3 R4 R5 R6 (new & R7 & R8 & R9)].
    { intros b Hb. destruct (Hl b Hb) as (B1 & B2 & B3). split_and!; [done | done|]. intros k.
      cbn. rewrite lookup_insert_Some. intros [[_ ->]|[_ Hk]]; [done | by eapply B3]. }
    change (λ a, deref a cm1) with (λ a, deref a cm) in *. split; try done.
    + change (set_pending (cm_pending cm) (set_pending (cm_pending cm1) cm') = cm). rewrite R4. by destruct cm.
    + etrans; [|exact R5]. rewrite V1. cbn [foldl]. f_equal. unfold spec_reconcile, actions_of. rewrite Ev. cbn [fa_adds fa_drops fa_fails].
      by rewrite map_app.
    + etrans; [|exact R6]. rewrite V1. cbn [foldl]. f_equal. unfold undropped_step. by rewrite Ev, map_app.
    + exists (a :: new). rewrite R7. simpl. rewrite <-app_assoc. split_and!; [done| |].
      * rewrite foldl_delete_comm, R8. cbn. by rewrite delete_insert_id.
      * intros d Hd. apply R9. rewrite V1. apply disk_put; [done | done | apply Ha].
Qed.

(** ** The invariant *)

Section Refine.
Context {KP : CircuitPrims}.

Record entry_ok (e : entry) : Prop := {
  eo_fits : fits e.1;
  eo_encrypter x : pc_error_encrypter e.1 = Some x → readable x;
  eo_range out : pc_outgoing e.1 = Some out → keystone_range out;
}.

Definition entries_ok m : Prop := ∀ k e, m !! k = Some e → entry_ok e.

Record circuits_ok cm : Prop := {
  co_mem : mem_ok cm;
  co_disk : disk_shows (cm_db cm) (view cm);
  co_entries : entries_ok (view cm);
}.

Lemma entries_insert m k e : entries_ok m → entry_ok e → entries_ok (<[k := e]> m).
Proof using Type. intros H He k' e' [[<- <-]|[_ Hk]]%lookup_insert_Some; [done | by eapply H]. Qed.

Lemma fresh_entry c b : fresh_circuit c → entry_ok (c, b).
Proof using Type. intros [F1 F2 F3 F4]. split; [done | done|]. simpl. intros out. by rewrite F3. Qed.

Lemma spec_reconcile_entries cs m x :
  entries_ok m → (∀ c, c ∈ cs → fresh_circuit c) → entries_ok (foldl spec_reconcile (m, x) cs).1.
Proof using Type.
  revert m x. induction cs as [|c cs IH]; intros m x Hm Hc; simpl; [done|]. destruct x as [[adds drops] fails].
  assert (∀ c, c ∈ cs → fresh_circuit c) as Hcs by (intros; apply Hc; by right).
  destruct (m !! pc_incoming c) as [e|]; [case_match; by apply IH|]. apply IH; [|done].
  apply entries_insert; [done|]. apply fresh_entry, Hc. by left.
Qed.

Lemma view_db d cm : view (set_db d cm) = view cm.
Proof using Type. done. Qed.

Lemma mem_ok_db d cm : mem_ok cm → mem_ok (set_db d cm).
Proof using Type. intros [H1 H2 H3 H4]. by split. Qed.

Lemma alloc_unused cs cm a :
  mem_ok cm → (∀ c, c ∈ cs → fresh_circuit c) → a ∈ seq (length (cm_heap cm)) (length cs) →
  unused (set_heap (cm_heap cm ++ cs) cm) a.
Proof using Type.
  intros H Hc [H1 H2]%elem_of_seq. split_and!.
  - simpl. rewrite length_app. lia.
  - unfold deref. simpl. rewrite lookup_total_app_r by lia. apply Hc. apply list_elem_of_lookup_total_2. lia.
  - intros k Hk. simpl in Hk. destruct (mo_pending _ H _ _ Hk). lia.
Qed.

Lemma alloc_deref cs cm :
  map (λ a, deref a (set_heap (cm_heap cm ++ cs) cm)) (seq (length (cm_heap cm)) (length cs)) = cs.
Proof using Type.
  apply list_eq. intros i. change (map ?f ?l) with (f <$> l). rewrite list_lookup_fmap.
  destruct (decide (i < length cs)%nat) as [Hi|Hi].
  - rewrite lookup_seq_lt by done. simpl. unfold deref. simpl. rewrite lookup_total_app_r by lia.
    replace (length (cm_heap cm) + i - length (cm_heap cm))%nat with i by lia.
    symmetry. by apply list_lookup_lookup_total_lt.
  - rewrite lookup_seq_ge by lia. symmetry. apply lookup_ge_None. lia.
Qed.

Lemma undropped_fold m cs : (foldl undropped_step (m, []) cs).2 = spec_undropped m cs.
Proof using Type. done. Qed.

Lemma commit_refines db_ok cs cm :
  circuits_ok cm → (∀ c, c ∈ cs → fresh_circuit c) →
  let '(cm', (x, r)) := commit_new db_ok cs cm in
  circuits_ok cm' ∧
  let '(adds, drops, fails) := actions_of cm' x in
  spec_commit db_ok cs (view cm) = (view cm', OutActions adds drops fails r).
Proof using Type.
  intros [Hm Hd He] Hc. unfold commit_new, new_payment_circuits.
  destruct (mem_ok_alloc cs cm Hm) as [H1 V1]. set (cm1 := set_heap _ _) in *.
  pose proof (reconcile_loop (seq (length (cm_heap cm)) (length cs)) cm1 (FwdActions [] [] []) [] H1 (NoDup_seq _ _)) as Hl.
  unfold commit_circuits. destruct (foldl reconcile _ _) as [[cm' x'] f'].
  destruct Hl as [R1 R2 R3 R4 R5 R6 (new & R7 & R8 & R9)]; [intros a; by apply alloc_unused|].
  unfold cm1 in R5, R6. rewrite alloc_deref in R5, R6. fold cm1 in R5, R6. rewrite V1 in R5, R6.
  assert (∀ a, deref a cm' = deref a cm1) as Hdr by (intros a; unfold deref; by rewrite R2).
  assert (entries_ok (view cm')) as He'.
  { pose proof (spec_reconcile_entries cs (view cm) ([], [], []) He Hc) as Hx.
    unfold actions_of in R5. simpl in R5. by rewrite R5 in Hx. }
  assert (circuits_ok cm1) as Hcm1 by (split; [done | by rewrite V1 | by rewrite V1]).
  assert (∀ l : list addr, map (λ a, deref a cm') l = map (λ a, deref a cm1) l) as Hmap by (intros l; by apply map_ext).
  unfold spec_commit. unfold actions_of in R5. simpl in R5, R7. rewrite R5.
  destruct x' as [adds drops fails]. simpl in R7. subst adds. cbn [fa_adds fa_drops fa_fails] in *.
  destruct new as [|a new]; cbn [map].
  - cbn [foldl map] in R8. assert (cm' = cm1) as -> by (rewrite <-R4, <-R8; by destruct cm').
    split; [done|]. cbn. by rewrite V1.
  - cbn [map] in R5, R6, R8, R9. destruct db_ok.
    + split.
      * split; [by apply mem_ok_db | |done]. cbn [cm_db set_db]. rewrite view_db, R3, Hdr, Hmap.
        apply (R9 (cm_db cm1)). by rewrite V1.
      * unfold actions_of. cbn [fa_adds fa_drops fa_fails map]. rewrite view_db.
        by rewrite <-!Hmap, <-Hdr.
    + rewrite Hdr, Hmap, R8, R4. split; [done|]. unfold actions_of. cbn [fa_adds fa_drops fa_fails map].
      rewrite V1, <-(undropped_fold (view cm) cs), R6. done.
Qed.

(** ** Closing *)

Lemma disk_ext d m m' : (∀ k, fst <$> m !! k = fst <$> m' !! k) → disk_shows d m → disk_shows d m'.
Proof using Type.
  intros E [H1 H2]. split.
  - intros k. rewrite H1. specialize (E k). destruct (m !! k), (m' !! k); simpl in *; congruence.
  - intros out k. rewrite H2. specialize (E k). destruct (m !! k) as [e|], (m' !! k) as [e'|]; simpl in *; try done.
    injection E as E. split; intros (x & [= <-] & Ho); eexists; (split; [done|]); congruence.
Qed.

Lemma claim_refines inc a cm :
  circuits_ok cm → cm_pending cm !! inc = Some a →
  let cm' := set_closed ({[inc]} ∪ cm_closed cm) cm in
  circuits_ok cm' ∧
  spec_claim inc (view cm) = if decide (inc ∈ cm_closed cm) then (view cm, OutCircuit (Err ErrCircuitClosing))
                             else (view cm', OutCircuit (Ok (deref a cm'))).
Proof using Type.
  intros [Hm Hd He] Ha cm'.
  assert (view cm' = <[inc := (deref a cm, true)]> (view cm)) as V.
  { apply map_eq. intros k. rewrite lookup_view. cbn [cm_pending cm_closed set_closed cm'].
    destruct (decide (k = inc)) as [->|Hne].
    - rewrite lookup_insert_eq, Ha. simpl. f_equal. f_equal. apply bool_decide_eq_true. set_solver.
    - rewrite lookup_insert_ne, lookup_view by done. destruct (_ !! k); [|done]. simpl. do 2 f_equal.
      apply bool_decide_ext. set_solver. }
  split.
  - split.
    + destruct Hm as [M1 M2 M3 M4]. split; try done. cbn. apply union_subseteq. split; [|done].
      intros k ->%elem_of_singleton. by apply elem_of_dom.
    + rewrite V. eapply disk_ext; [|exact Hd]. intros k. destruct (decide (k = inc)) as [->|Hne].
      * by rewrite lookup_insert_eq, lookup_view, Ha.
      * by rewrite lookup_insert_ne.
    + rewrite V. apply entries_insert; [done|].
      assert (view cm !! inc = Some (deref a cm, bool_decide (inc ∈ cm_closed cm))) as E by (by rewrite lookup_view, Ha).
      destruct (He _ _ E) as [E1 E2 E3]. by split.
  - unfold spec_claim. rewrite lookup_view, Ha. cbn [fmap option_fmap option_map].
    case_decide as Hc; [by rewrite bool_decide_eq_true_2|]. by rewrite bool_decide_eq_false_2, V.
Qed.

Lemma fail_refines inc cm :
  circuits_ok cm →
  let '(cm', r) := fail_circuit inc cm in
  circuits_ok cm' ∧ spec_claim inc (view cm) = (view cm', OutCircuit (let* a := r in Ok (deref a cm'))).
Proof using Type.
  intros H. unfold fail_circuit. destruct (cm_pending cm !! inc) as [a|] eqn:E.
  - destruct (claim_refines inc a cm H E) as [H1 H2]. by case_decide.
  - split; [done|]. unfold spec_claim. by rewrite lookup_view, E.
Qed.

Lemma close_refines out cm :
  circuits_ok cm →
  let '(cm', r) := close_circuit out cm in
  circuits_ok cm' ∧ spec_close out (view cm) = (view cm', OutCircuit (let* a := r in Ok (deref a cm'))).
Proof using Type.
  intros H. unfold close_circuit, spec_close. destruct (cm_opened cm !! out) as [a|] eqn:E.
  - destruct (opened_view cm out a (co_mem _ H) E) as (Ha & _ & ->).
    destruct (claim_refines _ a cm H Ha) as [H1 H2]. by case_decide.
  - split; [done|]. by rewrite (not_opened_view cm out (co_mem _ H) E).
Qed.

(** ** The index *)

Definition hashed cm (h : bytes) : gset circuit_key := default ∅ (cm_hash_index cm !! h).

Lemma hash_add c cm :
  ∃ x, add_circuit_to_hash_index c cm = set_hash_index x cm ∧
    ∀ h, default ∅ (x !! h) = (if decide (h = pc_payment_hash c) then {[out_key c]} else ∅) ∪ hashed cm h.
Proof using Type.
  eexists. split; [done|]. intros h. case_decide as E; [subst; by rewrite lookup_insert_eq|].
  rewrite lookup_insert_ne by done. unfold hashed. set_solver.
Qed.

Lemma hash_remove c cm :
  ∃ x, remove_circuit_from_hash_index c cm = set_hash_index x cm ∧
    ∀ h, default ∅ (x !! h) = hashed cm h ∖ (if decide (h = pc_payment_hash c) then {[out_key c]} else ∅).
Proof using Type.
  unfold remove_circuit_from_hash_index, hashed. destruct (cm_hash_index cm !! pc_payment_hash c) as [keys|] eqn:E.
  - eexists. split; [done|]. intros h. destruct (decide (h = pc_payment_hash c)) as [->|Hne].
    + rewrite E. simpl. case_decide as Hk; [by rewrite lookup_delete_eq | by rewrite lookup_insert_eq].
    + case_decide; rewrite ?lookup_delete_ne, ?lookup_insert_ne by done; set_solver.
  - exists (cm_hash_index cm). split; [by destruct cm|]. intros h.
    destruct (decide (h = pc_payment_hash c)) as [->|Hne]; [rewrite E; set_solver | set_solver].
Qed.

(** ** Deleting *)

(** Part of the memory of [cm0]. *)
Record within cm0 cm : Prop := {
  wi_ok : mem_ok cm;
  wi_heap : cm_heap cm = cm_heap cm0;
  wi_db : cm_db cm = cm_db cm0;
  wi_pending : cm_pending cm ⊆ cm_pending cm0;
  wi_closed k : is_Some (cm_pending cm !! k) → k ∈ cm_closed cm ↔ k ∈ cm_closed cm0;
}.

Lemma within_deref cm0 cm a : within cm0 cm → deref a cm = deref a cm0.
Proof using Type. intros H. unfold deref. by rewrite (wi_heap _ _ H). Qed.

Lemma within_view cm0 cm k : within cm0 cm → is_Some (cm_pending cm !! k) → view cm !! k = view cm0 !! k.
Proof using Type.
  intros H [a Ha]. rewrite !lookup_view, Ha.
  assert (cm_pending cm0 !! k = Some a) as -> by by eapply lookup_weaken, wi_pending. simpl.
  rewrite (within_deref cm0 cm) by done. do 2 f_equal. apply bool_decide_ext. by apply (wi_closed _ _ H); eexists.
Qed.

Lemma within_refl cm : mem_ok cm → within cm cm.
Proof using Type. by split. Qed.

Lemma forget_within cm0 cm removed inc :
  within cm0 cm →
  let '(cm', removed') := forget_circuit (cm, removed) inc in
  within cm0 cm' ∧ cm_pending cm' = delete inc (cm_pending cm) ∧
  removed' = removed ++ match cm_pending cm !! inc with
                        | Some a => [(inc, a, bool_decide (inc ∈ cm_closed cm0))]
                        | None => []
                        end.
Proof using Type.
  intros H. pose proof (wi_ok _ _ H) as Hm. unfold forget_circuit. destruct (cm_pending cm !! inc) as [a|] eqn:Ha.
  2: { rewrite app_nil_r. split_and!; [done | by rewrite delete_id | done]. }
  cbv zeta. set (cm1 := set_closed _ _).
  assert (bool_decide (inc ∈ cm_closed cm) = bool_decide (inc ∈ cm_closed cm0)) as ->.
  { apply bool_decide_ext, (wi_closed _ _ H). by eexists. }
  assert (∀ k, is_Some (delete inc (cm_pending cm) !! k) → k ∈ cm_closed cm ∖ {[inc]} ↔ k ∈ cm_closed cm0) as Hcl.
  { intros k [b [Hk Hb]%lookup_delete_Some]. rewrite <-(wi_closed _ _ H) by by eexists. set_solver. }
  assert (delete inc (cm_pending cm) ⊆ cm_pending cm0) as Hsub.
  { etrans; [apply delete_subseteq | apply H]. }
  assert (cm_closed cm ∖ {[inc]} ⊆ dom (delete inc (cm_pending cm))) as Hdom.
  { rewrite dom_delete. pose proof (mo_closed _ Hm). set_solver. }
  assert (∀ k b, delete inc (cm_pending cm) !! k = Some b → (b < length (cm_heap cm))%nat ∧ pc_incoming (deref b cm) = k) as Hpen.
  { intros k b [_ Hb]%lookup_delete_Some. by apply (mo_pending _ Hm). }
  unfold has_keystone. destruct (pc_outgoing (deref a cm)) as [o|] eqn:Eo.
  - rewrite bool_decide_eq_true_2 by by eexists.
    destruct (hash_remove (deref a cm) (set_opened (delete (out_key (deref a cm)) (cm_opened cm1)) cm1)) as (x & -> & Hx).
    assert (out_key (deref a cm) = o) as Ek by (unfold out_key; by rewrite Eo). rewrite Ek in *.
    split; [|done]. split; [|apply H|apply H|done|done]. split; [done| |done|].
    + intros out b. cbn. rewrite lookup_delete_Some, (mo_opened _ Hm). split.
      * intros [Hne (k & Hk & Hb)]. exists k. rewrite lookup_delete_ne; [done|]. intros <-. congruence.
      * intros (k & [Hk Hb]%lookup_delete_Some & Ho). split; [|by exists k]. intros <-.
        assert (cm_opened cm !! o = Some a) as E1 by (apply (mo_opened _ Hm); by exists inc).
        assert (cm_opened cm !! o = Some b) as E2 by (apply (mo_opened _ Hm); by exists k).
        destruct (mo_pending _ Hm _ _ Ha), (mo_pending _ Hm _ _ Hb). congruence.
    + intros out b. cbn. intros [Hne Hb]%lookup_delete_Some. rewrite Hx. apply elem_of_difference.
      split; [by apply (mo_hash _ Hm)|]. case_decide; set_solver.
  - rewrite bool_decide_eq_false_2 by by intros [].
    split; [|done]. split; [|apply H|apply H|done|done]. split; [done| |done|by apply Hm].
    intros out b. cbn. rewrite (mo_opened _ Hm). split.
    + intros (k & Hk & Hb). exists k. rewrite lookup_delete_ne; [done|]. intros <-. congruence.
    + intros (k & [Hk Hb]%lookup_delete_Some & Ho). by exists k.
Qed.

Lemma remember_within cm0 cm inc a :
  mem_ok cm0 → within cm0 cm → cm_pending cm0 !! inc = Some a →
  let cm' := remember_circuit cm (inc, a, bool_decide (inc ∈ cm_closed cm0)) in
  within cm0 cm' ∧ cm_pending cm' = <[inc := a]> (cm_pending cm).
Proof using Type.
  intros H0 H Ha. pose proof (wi_ok _ _ H) as Hm. unfold remember_circuit. cbv zeta. set (cm1 := set_pending _ _).
  set (cm2 := if bool_decide (inc ∈ cm_closed cm0) then _ else cm1).
  assert (cm_pending cm2 = <[inc := a]> (cm_pending cm) ∧ cm_opened cm2 = cm_opened cm ∧ cm_heap cm2 = cm_heap cm ∧
    cm_hash_index cm2 = cm_hash_index cm ∧ cm_db cm2 = cm_db cm) as (E1 & E2 & E3 & E4 & E5).
  { unfold cm2. by destruct (bool_decide _). }
  assert (∀ k, k ∈ cm_closed cm2 ↔ k ∈ cm_closed cm ∨ k = inc ∧ inc ∈ cm_closed cm0) as Ec.
  { intros k. unfold cm2. case_bool_decide; cbn; set_solver. }
  assert (∀ b, deref b cm2 = deref b cm0) as Hd by (intros b; unfold deref; by rewrite E3, (wi_heap _ _ H)).
  assert (∀ b, deref b cm = deref b cm0) as Hd' by (intros b; unfold deref; by rewrite (wi_heap _ _ H)).
  assert (<[inc := a]> (cm_pending cm) ⊆ cm_pending cm0) as Hsub.
  { apply insert_subseteq_l; [done | apply H]. }
  assert (∀ k, is_Some (<[inc := a]> (cm_pending cm) !! k) → k ∈ cm_closed cm2 ↔ k ∈ cm_closed cm0) as Hcl.
  { intros k Hk. rewrite Ec. destruct (decide (k = inc)) as [->|Hne].
    - split; [|set_solver]. intros [Hc|?]; [|set_solver]. apply (wi_closed _ _ H); [|done].
      by apply elem_of_dom, (mo_closed _ Hm).
    - rewrite lookup_insert_ne in Hk by done. rewrite (wi_closed _ _ H) by done. set_solver. }
  assert (cm_closed cm2 ⊆ dom (<[inc := a]> (cm_pending cm))) as Hdom.
  { intros k Hk%Ec. rewrite dom_insert. pose proof (mo_closed _ Hm). set_solver. }
  assert (∀ k b, <[inc := a]> (cm_pending cm) !! k = Some b → (b < length (cm_heap cm0))%nat ∧ pc_incoming (deref b cm0) = k) as Hpen.
  { intros k b Hk. apply (mo_pending _ H0). by eapply lookup_weaken. }
  assert (∀ out b k, cm_pending cm !! k = Some b → pc_outgoing (deref b cm0) = Some out → cm_opened cm0 !! out = Some b) as Hop.
  { intros out b k Hk Ho. apply (mo_opened _ H0). exists k. split; [|done]. by eapply lookup_weaken, wi_pending. }
  unfold has_keystone. rewrite Hd'. destruct (pc_outgoing (deref a cm0)) as [o|] eqn:Eo.
  - rewrite bool_decide_eq_true_2 by by eexists.
    assert (out_key (deref a cm0) = o) as Ek by (unfold out_key; by rewrite Eo). rewrite Ek.
    destruct (hash_add (deref a cm0) (set_opened (<[o := a]> (cm_opened cm2)) cm2)) as (x & -> & Hx).
    split; [|done]. split.
    2-5: cbn; rewrite ?E1, ?E3, ?E5; try done; apply H.
    split; cbn [cm_pending cm_opened cm_heap cm_closed cm_hash_index set_hash_index set_opened].
    + intros k b. rewrite E1, E3, (wi_heap _ _ H). change (deref b (set_hash_index x _)) with (deref b cm2). rewrite Hd. apply Hpen.
    + intros out b. rewrite E1, E2. change (deref b (set_hash_index x _)) with (deref b cm2). rewrite Hd.
      rewrite lookup_insert_Some. split.
      * intros [[<- <-]|[Hne (k & Hk & Hb)%(mo_opened _ Hm)]]; [exists inc; by rewrite lookup_insert_eq|].
        rewrite Hd' in Hb. exists k. split; [|done]. destruct (decide (k = inc)) as [->|]; [|by rewrite lookup_insert_ne].
        assert (cm_pending cm0 !! inc = Some b) by by eapply lookup_weaken, wi_pending. congruence.
      * intros (k & Hk & Hb). destruct (decide (o = out)) as [->|Hne].
        { left. split; [done|]. assert (cm_opened cm0 !! out = Some a) as F1 by (apply (mo_opened _ H0); by exists inc).
          assert (cm_opened cm0 !! out = Some b) as F2.
          { apply (mo_opened _ H0). exists k. split; [|done]. by eapply lookup_weaken. } congruence. }
        right. split; [done|]. apply lookup_insert_Some in Hk as [[<- <-]|[_ Hk]]; [congruence|].
        apply (mo_opened _ Hm). exists k. by rewrite Hd'.
    + by rewrite E1.
    + intros out b. rewrite E2. change (deref b (set_hash_index x _)) with (deref b cm2). rewrite Hd, Hx.
      unfold hashed. cbn [cm_hash_index set_opened]. rewrite E4.
      intros [[<- <-]|[Hne Hb]]%lookup_insert_Some; [rewrite decide_True, Ek by done; set_solver|].
      apply (mo_hash _ Hm) in Hb. rewrite Hd' in Hb. set_solver.
  - rewrite bool_decide_eq_false_2 by by intros []. split; [|done]. split.
    2-5: rewrite ?E1, ?E3, ?E5; try done; apply H.
    split.
    + intros k b. rewrite E1, E3, (wi_heap _ _ H), Hd. by apply Hpen.
    + intros out b. rewrite E1, E2, Hd, (mo_opened _ Hm). split; intros (k & Hk & Hb); exists k; rewrite Hd' in *.
      * split; [|done]. destruct (decide (k = inc)) as [->|]; [|by rewrite lookup_insert_ne].
        assert (cm_pending cm0 !! inc = Some b) by by eapply lookup_weaken, wi_pending. congruence.
      * apply lookup_insert_Some in Hk as [[<- <-]|[_ Hk]]; [congruence | done].
    + by rewrite E1.
    + intros out b. rewrite E2, E4, Hd, <-Hd'. apply Hm.
Qed.

Lemma view_of_within cm0 cm cm' f :
  within cm0 cm → within cm0 cm' → (∀ k, cm_pending cm' !! k = if f k : bool then cm_pending cm !! k else None) →
  ∀ k, view cm' !! k = if f k then view cm !! k else None.
Proof using Type.
  intros H H' E k. specialize (E k). destruct (f k); [|by rewrite lookup_view, E].
  destruct (cm_pending cm' !! k) as [a|] eqn:Ea; [|by rewrite !lookup_view, Ea, <-E].
  rewrite (within_view cm0 cm'), (within_view cm0 cm); [done..|by eexists|done|by eexists].
Qed.

Lemma view_delete cm0 cm cm' inc :
  within cm0 cm → within cm0 cm' → cm_pending cm' = delete inc (cm_pending cm) → view cm' = delete inc (view cm).
Proof using Type.
  intros H H' E. apply map_eq. intros k.
  rewrite (view_of_within cm0 cm cm' (λ k, negb (bool_decide (k = inc)))); [|done..|].
  - case_bool_decide; subst; cbn; by rewrite ?lookup_delete_eq, ?lookup_delete_ne.
  - intros k'. rewrite E. case_bool_decide; subst; cbn; by rewrite ?lookup_delete_eq, ?lookup_delete_ne.
Qed.

Lemma disk_drop d m inc e :
  disk_shows d m → keystones_unique m → m !! inc = Some e → pc_incoming e.1 = inc →
  disk_shows (drop_circuit d e.1) (delete inc m).
Proof using Type.
  intros [H1 H2] Hu He Hi. split.
  - intros k. unfold drop_circuit. rewrite Hi. replace (db_circuits _) with (delete inc (db_circuits d)) by by case_match.
    destruct (decide (k = inc)) as [->|Hne]; [by rewrite !lookup_delete_eq | by rewrite !lookup_delete_ne].
  - intros out k. unfold drop_circuit, has_keystone, out_key. destruct (pc_outgoing e.1) as [o|] eqn:Eo.
    + rewrite bool_decide_eq_true_2 by by eexists. cbn. rewrite lookup_delete_Some, H2. split.
      * intros [Hne (x & Hx & Ho)]. exists x. rewrite lookup_delete_ne; [done|]. intros <-. congruence.
      * intros (x & [Hne Hx]%lookup_delete_Some & Ho). split; [|by exists x]. intros <-. apply Hne. by eapply Hu.
    + rewrite bool_decide_eq_false_2 by by intros []. cbn. rewrite H2. split.
      * intros (x & Hx & Ho). exists x. rewrite lookup_delete_ne; [done|]. intros <-. congruence.
      * intros (x & [Hne Hx]%lookup_delete_Some & Ho). by exists x.
Qed.

Definition noted cm0 (x : circuit_key * addr * bool) : Prop :=
  cm_pending cm0 !! x.1.1 = Some x.1.2 ∧ x.2 = bool_decide (x.1.1 ∈ cm_closed cm0).

Lemma forget_loop cm0 keys cm removed :
  within cm0 cm →
  let '(cm', removed') := foldl forget_circuit (cm, removed) keys in
  within cm0 cm' ∧ view cm' = foldl (λ m k, delete k m) (view cm) keys ∧
  ∃ new, removed' = removed ++ new ∧ Forall (noted cm0) new ∧
    (∀ k, is_Some (cm_pending cm !! k) → is_Some (cm_pending cm' !! k) ∨ k ∈ map (λ x, x.1.1) new) ∧
    ∀ d, disk_shows d (view cm) → disk_shows (foldl drop_circuit d (map (λ x, deref x.1.2 cm0) new)) (view cm').
Proof using Type.
  revert cm removed. induction keys as [|inc keys IH]; intros cm removed H; cbn [foldl].
  { split_and!; [done..|]. exists []. rewrite app_nil_r. split_and!; [done | constructor | by left | done]. }
  pose proof (forget_within cm0 cm removed inc H) as Hf.
  destruct (forget_circuit (cm, removed) inc) as [cm1 removed1]. destruct Hf as (H1 & E1 & Er).
  specialize (IH cm1 removed1 H1). destruct (foldl forget_circuit (cm1, removed1) keys) as [cm' removed'].
  destruct IH as (H' & V' & new & Hnew & Hall & Hcov & Hdisk). split_and!; [done| |].
  { rewrite V'. f_equal. by apply (view_delete cm0). }
  destruct (cm_pending cm !! inc) as [a|] eqn:Ea.
  - eexists (_ :: new). rewrite Hnew, Er, <-app_assoc. split_and!; [done| | |].
    + constructor; [|done]. split; [|done]. by eapply lookup_weaken, wi_pending.
    + intros k Hk. destruct (decide (k = inc)) as [->|Hne]; [right; left|].
      destruct (Hcov k) as [?|?]; [by rewrite E1, lookup_delete_ne | by left | right; by right].
    + intros d Hd. cbn [map foldl fst snd]. apply Hdisk. rewrite (view_delete cm0 cm cm1 inc) by done.
      assert (view cm !! inc = Some (deref a cm0, bool_decide (inc ∈ cm_closed cm))) as Ev.
      { by rewrite lookup_view, Ea, <-(within_deref cm0 cm). }
      apply (disk_drop d (view cm) inc _ Hd (view_unique _ (wi_ok _ _ H)) Ev).
      simpl. rewrite <-(within_deref cm0 cm a H). by apply (mo_pending _ (wi_ok _ _ H)).
  - exists new. rewrite Hnew, Er, app_nil_r. split_and!; [done | done | |].
    + intros k Hk. apply Hcov. rewrite E1, lookup_delete_ne; [done|]. intros ->. rewrite Ea in Hk. by destruct Hk.
    + intros d Hd. apply Hdisk. rewrite (view_delete cm0 cm cm1 inc) by done.
      by rewrite delete_id by by rewrite lookup_view, Ea.
Qed.

Lemma remember_loop cm0 new cm :
  mem_ok cm0 → within cm0 cm → Forall (noted cm0) new →
  within cm0 (foldl remember_circuit cm new) ∧
  ∀ k, is_Some (cm_pending cm !! k) ∨ k ∈ map (λ x, x.1.1) new → is_Some (cm_pending (foldl remember_circuit cm new) !! k).
Proof using Type.
  intros H0 H Hn. revert cm H. induction Hn as [|[[inc a] b] new [Hx1 Hx2] Hn IH]; intros cm H.
  { split; [done|]. intros k [Hk|Hk%elem_of_nil]; done. }
  cbn [foldl]. simpl in Hx1, Hx2. subst b. destruct (remember_within cm0 cm inc a H0 H Hx1) as [H1 E1].
  destruct (IH _ H1) as [H2 Hc]. split; [done|]. intros k Hk. apply Hc. rewrite E1.
  destruct (decide (k = inc)) as [->|Hne]; [left; by rewrite lookup_insert_eq|]. rewrite lookup_insert_ne by done.
  destruct Hk as [Hk|[->|Hk]%elem_of_cons]; [by left | done | by right].
Qed.

Lemma within_all cm0 cm :
  within cm0 cm → (∀ k, is_Some (cm_pending cm0 !! k) → is_Some (cm_pending cm !! k)) → view cm = view cm0.
Proof using Type.
  intros H Hc. apply map_eq. intros k. destruct (cm_pending cm0 !! k) as [a|] eqn:E.
  - apply (within_view cm0); [done|]. apply Hc. by eexists.
  - rewrite !lookup_view, E. destruct (cm_pending cm !! k) as [b|] eqn:Eb; [|done].
    assert (cm_pending cm0 !! k = Some b) by by eapply lookup_weaken, wi_pending. congruence.
Qed.

Lemma entries_delete keys m : entries_ok m → entries_ok (foldl (λ m k, delete k m) m keys).
Proof using Type.
  revert m. induction keys as [|k keys IH]; intros m H; simpl; [done|]. apply IH.
  intros k' e [_ He]%lookup_delete_Some. by eapply H.
Qed.

Lemma delete_refines db_ok keys cm :
  circuits_ok cm →
  let '(cm', r) := delete_circuits db_ok keys cm in
  circuits_ok cm' ∧ spec_op (OpDelete db_ok keys) (view cm) = (view cm', OutDone r).
Proof using Type.
  intros [Hm Hd He]. unfold delete_circuits. pose proof (forget_loop cm keys cm [] (within_refl cm Hm)) as Hl.
  destruct (foldl forget_circuit (cm, []) keys) as [cm' removed].
  destruct Hl as (H & V & new & -> & Hall & Hcov & Hdisk). cbn [app]. destruct db_ok.
  - split; [|rewrite view_db, V; done]. split.
    + apply mem_ok_db, H.
    + cbn [cm_db set_db]. rewrite view_db. rewrite (map_ext _ (λ x, deref x.1.2 cm)).
      * rewrite (wi_db _ _ H). by apply Hdisk.
      * intros x. by apply within_deref.
    + rewrite view_db, V. by apply entries_delete.
  - destruct (remember_loop cm new cm' Hm H Hall) as [H' Hc].
    assert (view (foldl remember_circuit cm' new) = view cm) as E.
    { apply within_all; [done|]. intros k Hk. apply Hc. by apply Hcov. }
    split; [|cbn; by rewrite E]. split; [apply H' | by rewrite E, (wi_db _ _ H') | by rewrite E].
Qed.

(** ** Opening *)

Lemma deref_alter f a b cm :
  (a < length (cm_heap cm))%nat →
  deref b (set_heap (alter f a (cm_heap cm)) cm) = if decide (b = a) then f (deref a cm) else deref b cm.
Proof using Type.
  intros Ha. unfold deref. cbn [cm_heap set_heap]. case_decide as E; [subst; by apply list_lookup_total_alter_eq|].
  by apply list_lookup_total_alter_ne.
Qed.

(** A half circuit gets a keystone that no other has. *)
Lemma open_view ks a cm :
  mem_ok cm → cm_pending cm !! ks_in_key ks = Some a → pc_outgoing (deref a cm) = None →
  cm_opened cm !! ks_out_key ks = None →
  let cm' := open_circuit cm (ks, a) in
  mem_ok cm' ∧ view cm' = alter (set_keystone (Some (ks_out_key ks))) (ks_in_key ks) (view cm) ∧
  cm_pending cm' = cm_pending cm ∧ cm_opened cm' = <[ks_out_key ks := a]> (cm_opened cm) ∧ cm_db cm' = cm_db cm ∧
  (∀ b, b ≠ a → deref b cm' = deref b cm).
Proof using Type.
  intros H Ha Ho Hout. destruct ks as [inc out]. cbn [ks_in_key ks_out_key] in *. unfold open_circuit. cbn [ks_out_key].
  set (cm1 := set_opened _ _). destruct (mo_pending _ H _ _ Ha) as [Hlen Hinc].
  assert (∀ b, deref b cm1 = if decide (b = a) then set_outgoing (Some out) (deref a cm) else deref b cm) as Hd.
  { intros b. by apply deref_alter. }
  assert (deref a cm1 = set_outgoing (Some out) (deref a cm)) as Hda by (rewrite Hd; by rewrite decide_True).
  destruct (hash_add (deref a cm1) cm1) as (x & -> & Hx). rewrite Hda in Hx.
  assert (∀ b, pc_incoming (deref b cm1) = pc_incoming (deref b cm)) as Hi by (intros b; rewrite Hd; by case_decide; subst).
  assert (∀ b, pc_payment_hash (deref b cm1) = pc_payment_hash (deref b cm)) as Hh by (intros b; rewrite Hd; by case_decide; subst).
  assert (∀ k b, cm_pending cm !! k = Some b → b = a → k = inc) as Hinj.
  { intros k b Hb ->. destruct (mo_pending _ H _ _ Hb). congruence. }
  split_and!; [| |done|done|done|intros b Hb; change (deref b cm1 = deref b cm); by rewrite Hd, decide_False].
  - split; cbn [cm_pending cm_opened cm_heap cm_closed cm_hash_index set_hash_index set_opened set_heap cm1].
    + intros k b Hb. rewrite length_alter. destruct (mo_pending _ H _ _ Hb) as [? <-]. split; [done | apply Hi].
    + intros o b. change (deref b (set_hash_index x cm1)) with (deref b cm1). rewrite lookup_insert_Some. split.
      * intros [[<- <-]|[Hne (k & Hk & Hb)%(mo_opened _ H)]]; [exists inc; by rewrite Hda|].
        exists k. split; [done|]. rewrite Hd. case_decide; [|done]. subst. congruence.
      * intros (k & Hk & Hb). rewrite Hd in Hb. case_decide as E; [subst; left; simpl in Hb; split; congruence|].
        right. assert (cm_opened cm !! o = Some b) as Hob by (apply (mo_opened _ H); by exists k).
        split; [|done]. intros <-. congruence.
    + apply H.
    + intros o b. change (deref b (set_hash_index x cm1)) with (deref b cm1). rewrite Hh, Hx.
      intros [[<- <-]|[Hne Hb]]%lookup_insert_Some; [rewrite decide_True by done; set_solver|].
      apply (mo_hash _ H) in Hb. fold (hashed cm (pc_payment_hash (deref b cm))) in Hb.
      change (hashed cm1) with (hashed cm). set_solver.
  - apply map_eq. intros k. destruct (decide (k = inc)) as [->|Hne].
    + rewrite lookup_alter_eq, !lookup_view. change (cm_pending (set_hash_index x cm1)) with (cm_pending cm). rewrite Ha.
      cbn [fmap option_fmap option_map]. unfold set_keystone. cbn [fst snd]. by rewrite <-Hda.
    + rewrite lookup_alter_ne, !lookup_view by done. change (cm_pending (set_hash_index x cm1)) with (cm_pending cm).
      destruct (cm_pending cm !! k) as [b|] eqn:Eb; [|done]. cbn [fmap option_fmap option_map].
      do 2 f_equal. change (deref b cm1 = deref b cm). rewrite Hd, decide_False; [done|]. intros ->. by apply Hne, (Hinj k a).
Qed.

Lemma disk_open d m inc out e :
  disk_shows d m → m !! inc = Some e → pc_outgoing e.1 = None → (∀ k e', m !! k = Some e' → pc_outgoing e'.1 ≠ Some out) →
  disk_shows (put_keystone out inc d) (alter (set_keystone (Some out)) inc m).
Proof using Type.
  intros [H1 H2] He Ho Hno. split.
  - intros k. cbn. rewrite H1. destruct (decide (k = inc)) as [->|Hne]; [by rewrite lookup_alter_eq, He | by rewrite lookup_alter_ne].
  - intros o k. cbn. rewrite lookup_insert_Some, H2. split.
    + intros [[<- <-]|[Hne (x & Hx & Hk)]]; [exists (set_keystone (Some out) e); by rewrite lookup_alter_eq, He|].
      exists x. rewrite lookup_alter_ne; [done|]. intros <-. congruence.
    + intros (x & Hx & Hk). apply lookup_alter_Some in Hx as [(<- & y & Hy & ->)|[Hne Hx]].
      * left. simpl in Hk. split; congruence.
      * right. split; [intros <-; by eapply Hno | by exists x].
Qed.

Definition half_open cm (ks : keystone) (a : addr) : Prop :=
  cm_pending cm !! ks_in_key ks = Some a ∧ cm_opened cm !! ks_out_key ks = None.

Lemma half_open_impl cm cm' kss circuits :
  Forall2 (half_open cm) kss circuits → (∀ ks a, ks ∈ kss → half_open cm ks a → half_open cm' ks a) →
  Forall2 (half_open cm') kss circuits.
Proof using Type.
  intros H. induction H as [|ks a kss circuits Ha H IH]; intros Hi; constructor; [apply Hi; [left | done]|].
  apply IH. intros ks' b Hk. apply Hi. by right.
Qed.

Lemma open_loop kss circuits cm :
  mem_ok cm → Forall2 (half_open cm) kss circuits → NoDup (map ks_out_key kss) → NoDup (map ks_in_key kss) →
  (∀ ks e, ks ∈ kss → view cm !! ks_in_key ks = Some e → pc_outgoing e.1 = None) →
  let cm' := foldl open_circuit cm (zip kss circuits) in
  mem_ok cm' ∧ view cm' = foldl (λ m ks, alter (set_keystone (Some (ks_out_key ks))) (ks_in_key ks) m) (view cm) kss ∧
  cm_db cm' = cm_db cm ∧
  ∀ d, disk_shows d (view cm) →
    disk_shows (foldl (λ d ks, put_keystone (ks_out_key ks) (ks_in_key ks) d) d kss) (view cm').
Proof using Type.
  intros H Hk. revert cm H Hk. revert circuits. induction kss as [|ks kss IH]; intros circuits cm H Hk Hno Hni Hhalf.
  { apply Forall2_nil_inv_l in Hk as ->. by split_and!. }
  apply Forall2_cons_inv_l in Hk as (a & cs & [Ha Hout] & Hk & ->). cbn [zip zip_with foldl].
  apply NoDup_cons in Hno as [Ho Hno]. apply NoDup_cons in Hni as [Hi Hni].
  assert (view cm !! ks_in_key ks = Some (deref a cm, bool_decide (ks_in_key ks ∈ cm_closed cm))) as Ev by by rewrite lookup_view, Ha.
  assert (pc_outgoing (deref a cm) = None) as Hn by (apply (Hhalf ks _ ltac:(left) Ev)).
  destruct (open_view ks a cm H Ha Hn Hout) as (H1 & V1 & P1 & O1 & D1 & R1). set (cm1 := open_circuit cm (ks, a)) in *.
  destruct (IH cs cm1 H1) as (H2 & V2 & D2 & F2); [| done | done | |].
  - apply (half_open_impl cm); [exact Hk|]. intros ks' b Hks' [E1 E2]. split; [by rewrite P1|].
    rewrite O1, lookup_insert_ne; [done|]. intros E. apply Ho. rewrite E. by apply list_elem_of_fmap_2.
  - intros ks' e Hks'. rewrite V1, lookup_alter_ne; [apply Hhalf; by right|].
    intros E. apply Hi. rewrite E. by apply list_elem_of_fmap_2.
  - split_and!; [done | by rewrite V2, V1 | by rewrite D2, D1 |]. intros d Hd. cbn [foldl]. apply F2. rewrite V1.
    eapply disk_open; [done | exact Ev | done|]. intros k e He Hoe.
    apply lookup_view_Some in He as (b & Hb & ->). assert (cm_opened cm !! ks_out_key ks = Some b) as E.
    { apply (mo_opened _ H). by exists k. } congruence.
Qed.

Lemma openable_loop kss cm acc :
  mem_ok cm →
  match fold_result (openable cm) kss acc with
  | Ok circuits => omap (spec_openable (view cm)) kss = [] ∧ ∃ cs, circuits = acc ++ cs ∧ Forall2 (half_open cm) kss cs
  | Err e => ∃ l, omap (spec_openable (view cm)) kss = e :: l
  end.
Proof using Type.
  intros H. revert acc. induction kss as [|ks kss IH]; intros acc; cbn [fold_result].
  { split; [done|]. exists []. by rewrite app_nil_r. }
  assert (spec_openable (view cm) ks = match openable cm acc ks with Ok _ => None | Err e => Some e end) as E.
  { unfold spec_openable, openable. rewrite lookup_view. destruct (cm_opened cm !! ks_out_key ks) as [a|] eqn:Eo.
    - by destruct (opened_view cm _ a H Eo) as (_ & _ & ->).
    - rewrite (not_opened_view cm _ H Eo). by destruct (cm_pending cm !! ks_in_key ks). }
  change (omap ?f (ks :: kss)) with (match f ks with Some y => y :: omap f kss | None => omap f kss end). rewrite E.
  unfold openable. destruct (cm_opened cm !! ks_out_key ks) as [a|] eqn:Eo; cbn [rbind]; [by eexists|].
  destruct (cm_pending cm !! ks_in_key ks) as [a|] eqn:Ea; cbn [rbind]; [|by eexists].
  specialize (IH (acc ++ [a])). destruct (fold_result _ kss _) as [circuits|e]; [|done].
  destruct IH as (E' & cs & -> & Hk). split; [done|]. exists (a :: cs). rewrite <-app_assoc. by split; [|constructor].
Qed.

Lemma entries_open kss m :
  entries_ok m → (∀ ks, ks ∈ kss → keystone_range (ks_out_key ks)) →
  entries_ok (foldl (λ m ks, alter (set_keystone (Some (ks_out_key ks))) (ks_in_key ks) m) m kss).
Proof using Type.
  revert m. induction kss as [|ks kss IH]; intros m H Hk; cbn [foldl]; [done|].
  apply IH; [|intros; apply Hk; by right]. intros k e [(<- & y & Hy & ->)|[Hne He]]%lookup_alter_Some; [|by eapply H].
  destruct (H _ _ Hy) as [E1 E2 E3]. split; [by destruct E1 | done|]. intros out [= <-]. apply Hk. by left.
Qed.

Lemma open_refines db_ok kss cm :
  circuits_ok cm → fresh_keystones (view cm) kss →
  let '(cm', r) := open_circuits db_ok kss cm in
  circuits_ok cm' ∧ spec_op (OpOpen db_ok kss) (view cm) = (view cm', OutDone r).
Proof using Type.
  intros [Hm Hd He] [Fo Fi Fh Fr]. unfold open_circuits. cbn [spec_op]. unfold spec_open.
  destruct kss as [|ks kss]; [done|]. set (l := ks :: kss) in *.
  pose proof (openable_loop l cm [] Hm) as Hl. destruct (fold_result (openable cm) l []) as [circuits|e].
  - destruct Hl as (-> & cs & -> & Hk). cbn [app]. destruct db_ok; [|by split].
    destruct (open_loop l cs (set_db (foldl (λ d ks, put_keystone (ks_out_key ks) (ks_in_key ks) d) (cm_db cm) l) cm))
      as (H' & V' & D' & F'); [by apply mem_ok_db | done | done | done | done|].
    split; [|by rewrite V']. split; [done | rewrite D'; by apply F' | rewrite V'; by apply entries_open].
  - destruct Hl as (x & ->). by split.
Qed.
(** ** Trimming *)

Definition keystones_in_range cm : Prop := ∀ out a, cm_opened cm !! out = Some a → keystone_range out.

Lemma entries_range cm : mem_ok cm → entries_ok (view cm) → keystones_in_range cm.
Proof using Type.
  intros H He out a Ho. pose proof Ho as Ho'. apply (mo_opened _ H) in Ho as (k & Hk & Hout).
  assert (view cm !! k = Some (deref a cm, bool_decide (k ∈ cm_closed cm))) as Ev by by rewrite lookup_view, Hk.
  apply (eo_range _ (He _ _ Ev)). done.
Qed.

Lemma trim_view out a cm :
  mem_ok cm → keystones_in_range cm → cm_opened cm !! out = Some a →
  let cm' := trim_circuit out a cm in
  mem_ok cm' ∧ view cm' = alter (set_keystone None) (pc_incoming (deref a cm)) (view cm) ∧
  cm_opened cm' = delete out (cm_opened cm) ∧ cm_db cm' = cm_db cm.
Proof using Type.
  intros H Hr Ho. destruct (opened_view cm out a H Ho) as (Ha & Hout & _). set (inc := pc_incoming (deref a cm)) in *.
  unfold trim_circuit. set (cm1 := set_opened _ _). destruct (mo_pending _ H _ _ Ha) as [Hlen _].
  assert (∀ b, deref b cm1 = if decide (b = a) then set_outgoing None (deref a cm) else deref b cm) as Hd.
  { intros b. by apply deref_alter. }
  assert (deref a cm1 = set_outgoing None (deref a cm)) as Hda by (rewrite Hd; by rewrite decide_True).
  destruct (hash_remove (deref a cm1) cm1) as (x & -> & Hx). rewrite Hda in Hx.
  assert (∀ b, pc_incoming (deref b cm1) = pc_incoming (deref b cm)) as Hi by (intros b; rewrite Hd; by case_decide; subst).
  assert (∀ b, pc_payment_hash (deref b cm1) = pc_payment_hash (deref b cm)) as Hh by (intros b; rewrite Hd; by case_decide; subst).
  split_and!; [| |done|done].
  - split; cbn [cm_pending cm_opened cm_heap cm_closed cm_hash_index set_hash_index set_opened set_heap cm1].
    + intros k b Hb. rewrite length_alter. destruct (mo_pending _ H _ _ Hb) as [? <-]. split; [done | apply Hi].
    + intros o b. change (deref b (set_hash_index x cm1)) with (deref b cm1). rewrite lookup_delete_Some. split.
      * intros [Hne Hb]. pose proof Hb as Hb'. apply (mo_opened _ H) in Hb as (k & Hk & Hko). exists k. split; [done|].
        rewrite Hd. case_decide; [subst; congruence | done].
      * intros (k & Hk & Hb). rewrite Hd in Hb. case_decide as E; [done|].
        assert (cm_opened cm !! o = Some b) as Hob by (apply (mo_opened _ H); by exists k).
        split; [|done]. intros <-. congruence.
    + apply H.
    + intros o b. change (deref b (set_hash_index x cm1)) with (deref b cm1). rewrite Hh, Hx.
      intros [Hne Hb]%lookup_delete_Some. apply elem_of_difference. split; [by apply (mo_hash _ H)|].
      case_decide; [|set_solver]. intros ->%elem_of_singleton. destruct (Hr _ _ Hb) as [Hs _]. by apply Hs.
  - apply map_eq. intros k. rewrite lookup_view. change (cm_pending (set_hash_index x cm1)) with (cm_pending cm).
    destruct (decide (k = inc)) as [->|Hne].
    + rewrite lookup_alter_eq, lookup_view, Ha. cbn [fmap option_fmap option_map]. unfold set_keystone. cbn [fst snd].
      by rewrite <-Hda.
    + rewrite lookup_alter_ne, lookup_view by done. destruct (cm_pending cm !! k) as [b|] eqn:Eb; [|done].
      cbn [fmap option_fmap option_map]. do 2 f_equal. change (deref b cm1 = deref b cm). rewrite Hd, decide_False; [done|].
      intros ->. destruct (mo_pending _ H _ _ Eb) as [_ <-]. by apply Hne.
Qed.

Lemma disk_trim d m inc out e :
  disk_shows d m → keystones_unique m → m !! inc = Some e → pc_outgoing e.1 = Some out →
  disk_shows (delete_keystone out d) (alter (set_keystone None) inc m).
Proof using Type.
  intros [H1 H2] Hu He Ho. split.
  - intros k. cbn. rewrite H1. destruct (decide (k = inc)) as [->|Hne]; [by rewrite lookup_alter_eq, He | by rewrite lookup_alter_ne].
  - intros o k. cbn. rewrite lookup_delete_Some, H2. split.
    + intros [Hne (x & Hx & Hk)]. exists x. rewrite lookup_alter_ne; [done|]. intros <-. congruence.
    + intros (x & Hx & Hk). apply lookup_alter_Some in Hx as [(<- & y & Hy & ->)|[Hne Hx]]; [done|].
      split; [|by exists x]. intros <-. apply Hne. by eapply Hu.
Qed.

(** Taking a keystone away closes no other. *)
Lemma open_alter m inc e out o :
  m !! inc = Some e → pc_outgoing e.1 = Some out → o ≠ out →
  is_Some (find_open o (alter (set_keystone None) inc m)) ↔ is_Some (find_open o m).
Proof using Type.
  intros He Ho Hne. rewrite <-!not_eq_None_Some, !find_open_None. apply not_iff_compat. split; intros H k x Hx Hk.
  - apply (H k x); [|done]. rewrite lookup_alter_ne; [done|]. intros <-. congruence.
  - apply lookup_alter_Some in Hx as [(<- & y & Hy & ->)|[_ Hx]]; [done | by eapply H].
Qed.

Lemma forallb_ext {A} (f g : A → bool) l : (∀ x, x ∈ l → f x = g x) → forallb f l = forallb g l.
Proof using Type.
  induction l as [|x l IH]; intros H; simpl; [done|]. rewrite (H x) by left. by rewrite IH by (intros; apply H; by right).
Qed.

Lemma spec_trim_none m chan_id i : find_open (chan_id, i) m = None → spec_trim chan_id i m = m.
Proof using Type.
  intros H. apply map_eq. intros k. unfold spec_trim. rewrite lookup_fmap. destruct (m !! k) as [e|] eqn:Ek; [|done]. simpl.
  f_equal. destruct (pc_outgoing e.1) as [[c j]|] eqn:Eo; [|done].
  replace (in_run m chan_id i (c, j)) with false; [done|]. symmetry. unfold in_run. cbn [fst snd].
  destruct (c =? chan_id) eqn:Ec; [|done]. apply Z.eqb_eq in Ec as ->. cbn [andb]. destruct (i <=? j) eqn:El; [|done]. cbn [andb].
  apply Z.leb_le in El. destruct (decide (i = j)) as [->|Hne]; [by eapply find_open_None in H|].
  rewrite seqZ_cons by lia. simpl. by rewrite H.
Qed.

Lemma spec_trim_step m chan_id i inc e :
  keystones_unique m → m !! inc = Some e → pc_outgoing e.1 = Some (chan_id, i) →
  spec_trim chan_id i m = spec_trim chan_id (i + 1) (alter (set_keystone None) inc m).
Proof using Type.
  intros Hu He Ho. apply map_eq. intros k. unfold spec_trim. rewrite !lookup_fmap.
  destruct (decide (k = inc)) as [->|Hne].
  - rewrite lookup_alter_eq, He. simpl. rewrite Ho. unfold in_run. cbn [fst snd]. rewrite Z.eqb_refl, Z.leb_refl, Z.sub_diag.
    done.
  - rewrite lookup_alter_ne by done. destruct (m !! k) as [x|] eqn:Ek; [|done]. simpl. f_equal.
    destruct (pc_outgoing x.1) as [[c j]|] eqn:Ex; [|done].
    replace (in_run m chan_id i (c, j)) with (in_run (alter (set_keystone None) inc m) chan_id (i + 1) (c, j)); [done|].
    unfold in_run. cbn [fst snd]. destruct (c =? chan_id) eqn:Ec; [|done]. apply Z.eqb_eq in Ec as ->. cbn [andb].
    destruct (decide (i = j)) as [->|Hij]; [by destruct Hne; eapply Hu|].
    destruct (i <=? j) eqn:El; cbn [andb].
    2: { apply Z.leb_gt in El. replace (i + 1 <=? j) with false by (symmetry; apply Z.leb_gt; lia). done. }
    apply Z.leb_le in El. replace (i + 1 <=? j) with true by (symmetry; apply Z.leb_le; lia). cbn [andb].
    rewrite (seqZ_cons i) by lia. cbn [forallb]. rewrite (bool_decide_eq_true_2 (is_Some (find_open (chan_id, i) m))).
    2: { exists (inc, e). by apply find_open_Some. }
    cbn [andb]. replace (Z.succ i) with (i + 1) by lia. replace (Z.pred (j - i)) with (j - (i + 1)) by lia.
    apply forallb_ext. intros l Hl%elem_of_seqZ. apply bool_decide_ext.
    apply (open_alter m inc e (chan_id, i)); [done | done|]. intros [= ->]. lia.
Qed.

Lemma trim_loop_refines fuel chan_id i trimmed cm :
  mem_ok cm → keystones_in_range cm → (size (cm_opened cm) < fuel)%nat → in_u64 i →
  let '(cm', trimmed') := trim_loop fuel chan_id i trimmed cm in
  mem_ok cm' ∧ keystones_in_range cm' ∧ view cm' = spec_trim chan_id i (view cm) ∧ cm_db cm' = cm_db cm ∧
  ∃ new, trimmed' = trimmed ++ new ∧
    ∀ d, disk_shows d (view cm) → disk_shows (foldl (λ d k, delete_keystone k d) d new) (view cm').
Proof using Type.
  revert i trimmed cm. induction fuel as [|fuel IH]; intros i trimmed cm H Hr Hs Hi; [lia|]. cbn [trim_loop].
  destruct (cm_opened cm !! (chan_id, i)) as [a|] eqn:Eo.
  2: { split_and!; [done | done | | done|]; [by rewrite spec_trim_none; [|apply not_opened_view]|].
       exists []. by rewrite app_nil_r. }
  destruct (opened_view cm _ a H Eo) as (Ha & Hout & Hf). apply find_open_elem in Hf as [Ev _]. cbn [fst snd] in Ev.
  destruct (trim_view _ a cm H Hr Eo) as (H1 & V1 & O1 & D1). set (cm1 := trim_circuit _ _ _) in *.
  destruct (Hr _ _ Eo) as (_ & R1 & R2). cbn [snd] in R1, R2.
  rewrite u64_small by in_range.
  specialize (IH (i + 1) (trimmed ++ [(chan_id, i)]) cm1 H1).
  destruct (trim_loop fuel chan_id (i + 1) _ cm1) as [cm' trimmed'].
  destruct IH as (H' & Hr' & V' & D' & new & -> & F').
  { intros o b Ho. rewrite O1 in Ho. apply lookup_delete_Some in Ho as [_ Ho]. by eapply Hr. }
  { assert (size (cm_opened cm) ≠ 0)%nat by (intros E%map_size_empty_inv; by rewrite E in Eo).
    rewrite O1, map_size_delete_Some; [lia | by eexists]. }
  { in_range. }
  split_and!; [done | done | | by rewrite D', D1 |].
  - rewrite V', V1. symmetry. by eapply spec_trim_step; [by apply view_unique | exact Ev | done].
  - exists ((chan_id, i) :: new). rewrite <-app_assoc. split; [done|]. intros d Hd. cbn [foldl]. apply F'. rewrite V1.
    eapply disk_trim; [done | by apply view_unique | exact Ev | done].
Qed.

Lemma entries_trim chan_id start m : entries_ok m → entries_ok (spec_trim chan_id start m).
Proof using Type.
  intros H k e. unfold spec_trim. rewrite lookup_fmap, fmap_Some. intros (x & Hx & ->).
  pose proof (H _ _ Hx) as Hx'. destruct (pc_outgoing x.1) as [out|] eqn:Eo; [|done].
  destruct (in_run m chan_id start out); [|done]. destruct Hx' as [E1 E2 E3]. split; [by destruct E1 | done | done].
Qed.

Lemma trim_ok db_ok chan_id start cm :
  circuits_ok cm → in_u64 start →
  let '(cm', r) := trim_open_circuits db_ok chan_id start cm in
  (r = Ok () → circuits_ok cm' ∧ view cm' = spec_trim chan_id start (view cm)) ∧ (db_ok = true → r = Ok ()).
Proof using Type.
  intros [Hm Hd He] Hs. unfold trim_open_circuits.
  pose proof (trim_loop_refines (S (size (cm_opened cm))) chan_id start [] cm Hm (entries_range cm Hm He) ltac:(lia) Hs) as Hl.
  destruct (trim_loop _ _ _ _ _) as [cm' trimmed]. destruct Hl as (H' & _ & V' & D' & new & -> & F'). cbn [app].
  assert (entries_ok (view cm')) as He' by (rewrite V'; by apply entries_trim).
  destruct new as [|k new].
  - split; [|done]. intros _. split; [|done]. split; [done | rewrite D'; by apply F' | done].
  - destruct db_ok; [|by split]. split; [|done]. intros _. split; [|by rewrite view_db]. split; [by apply mem_ok_db | | done].
    cbn [cm_db set_db]. rewrite view_db, D'. by apply F'.
Qed.

Lemma trim_refines chan_id start cm :
  circuits_ok cm → in_u64 start →
  let '(cm', r) := trim_open_circuits true chan_id start cm in
  circuits_ok cm' ∧ r = Ok () ∧ view cm' = spec_trim chan_id start (view cm).
Proof using Type.
  intros H Hs. pose proof (trim_ok true chan_id start cm H Hs) as Ht. destruct (trim_open_circuits _ _ _ _) as [cm' r].
  destruct Ht as [Ht Hr]. specialize (Hr eq_refl). by destruct (Ht Hr).
Qed.
End Refine.
