(* ===== verification/CircuitRestart.v ===== *)
(** * The circuit map over a restart

    What is on disk gives the circuits back: the encoding of a circuit, the
    cleaning, the loading and the trimming of [NewCircuitMap]. *)

From stdpp Require Import sorting.
From S2P Require Import Prelude CircuitMap CircuitSpec CircuitRefine.

Implicit Types (m : circuits) (out : circuit_key) (cm : circuit_map) (d : circuit_db).

(** ** The encoding *)

Lemma circuit_read_app n b r : length b = n → read_full n (b ++ r) = Ok (b, r).
Proof. intros H. unfold read_full. by rewrite read_n_app. Qed.

Section Restart.
Context {KP : CircuitPrims}.

Definition stored (c : payment_circuit) : payment_circuit := set_outgoing None (set_loaded_from_disk false c).

(** C17: A circuit of machine numbers, whose encrypter the onion processor made
    from a valid key, is read back from its encoding, but for its keystone and its
    origin, which have other places: its encrypter, of which the encoding has the
    key alone, is rederived with the same shared secret. *)
Theorem circuit_survives_encoding c :
  fits c → (∀ e, pc_error_encrypter c = Some e → readable e) → decode_circuit (encode_circuit c) = Ok (stored c).
Proof.
  intros [Hh Hi [Hc Hd] Hp Ha Hb] He. unfold decode_circuit, decode_fields, encode_circuit, encode_key.
  rewrite <-!app_assoc.
  rewrite circuit_read_app by apply be_encode_length. cbn [rbind].
  rewrite circuit_read_app by apply be_encode_length. cbn [rbind].
  rewrite circuit_read_app by apply be_encode_length. cbn [rbind].
  rewrite circuit_read_app by apply be_encode_length. cbn [rbind].
  rewrite circuit_read_app by done. cbn [rbind].
  rewrite circuit_read_app by apply be_encode_length. cbn [rbind].
  rewrite circuit_read_app by apply be_encode_length. cbn [rbind].
  rewrite !be_decode_encode by in_range.
  destruct c as [[h i] [ci hi] o hash ia oa [[t key s]|] l]; cbn in *.
  - destruct (He _ eq_refl) as (Hk & Hv & Hs & Hx). cbn in Hk, Hv, Hs, Hx.
    assert (read_full 33 key = Ok (key, [])) as Er by (rewrite <-(app_nil_r key) at 1; by apply circuit_read_app).
    change (encrypter_byte t :: key) with ([encrypter_byte t] ++ key). rewrite (circuit_read_app 1) by done.
    destruct s as [secret|]; [|by destruct Hs]. destruct t; cbn -[read_full]; rewrite Er; cbn; rewrite Hv; cbn; unfold reextract; cbn; by rewrite Hx.
  - done.
Qed.

Lemma decode_entry k m e :
  entries_ok m → m !! k = Some e → decode_circuit (encode_circuit e.1) = Ok (stored e.1).
Proof using Type. intros H He. destruct (H _ _ He) as [H1 H2 _]. by apply circuit_survives_encoding. Qed.

(** ** The buckets *)

Lemma for_each_permutation {A} (b : gmap circuit_key A) : for_each b ≡ₚ map_to_list b.
Proof using Type. apply merge_sort_Permutation. Qed.

Lemma elem_of_for_each {A} (b : gmap circuit_key A) k v : (k, v) ∈ for_each b ↔ b !! k = Some v.
Proof using Type. rewrite for_each_permutation. apply elem_of_map_to_list. Qed.

Lemma for_each_keys {A} (b : gmap circuit_key A) : NoDup (map fst (for_each b)).
Proof using Type.
  change (NoDup ((for_each b).*1)). rewrite (for_each_permutation b). apply NoDup_fst_map_to_list.
Qed.

Lemma disk_circuit d m k v : disk_shows d m → (k, v) ∈ for_each (db_circuits d) ↔ ∃ e, m !! k = Some e ∧ v = encode_circuit e.1.
Proof using Type. intros H. rewrite elem_of_for_each, (ds_circuits _ _ H), fmap_Some. done. Qed.

Lemma disk_keystone d m out inc :
  disk_shows d m → (out, inc) ∈ for_each (db_keystones d) ↔ ∃ e, m !! inc = Some e ∧ pc_outgoing e.1 = Some out.
Proof using Type. intros H. rewrite elem_of_for_each. apply H. Qed.

(** ** Cleaning *)

Lemma clean_circuit_loop closed l s :
  (∀ x, x ∈ l → ∃ c, decode_circuit x.2 = Ok c ∧ pc_incoming c = x.1) →
  ∃ s', fold_result (clean_circuit closed) l s = Ok s' ∧
    ∀ k, k ∈ s' ↔ k ∈ s ∨ (∃ v, (k, v) ∈ l) ∧ is_closed_channel closed k.1 = true.
Proof using Type.
  revert s. induction l as [|[k v] l IH]; intros s Hl; cbn [fold_result].
  { exists s. split; [done|]. intros k. set_solver. }
  destruct (Hl (k, v) ltac:(left)) as (c & Hc & Hk). cbn [fst snd] in Hc, Hk.
  unfold clean_circuit at 1. cbn [snd]. rewrite Hc. cbn [rbind]. rewrite Hk.
  destruct (IH (if is_closed_channel closed k.1 then {[k]} ∪ s else s)) as (s' & -> & Hs').
  { intros x Hx. apply Hl. by right. }
  exists s'. split; [done|]. intros k'. rewrite Hs'.
  setoid_rewrite elem_of_cons. destruct (is_closed_channel closed k.1) eqn:E; rewrite ?elem_of_union, ?elem_of_singleton.
  - split; [|naive_solver]. intros [[->|Hk']|[[w Hw] Hc']]; [right; split; [by exists v; left | done] | by left|].
    right. split; [by exists w; right | done].
  - split; [naive_solver|]. intros [Hk'|[[w [[= -> ->]|Hw]] Hc']]; [by left | congruence | right; split; [by exists w | done]].
Qed.

(** The keystones that go, with their circuits. *)
Definition cleaned (env : restart_env) (closed : gset Z) (out inc : circuit_key) : bool :=
  is_closed_channel closed inc.1 || is_closed_channel closed out.1 && negb (response_stored env out).

Lemma response_pending_Ok env out b : response_pending env out = Ok b → response_stored env out = b.
Proof using Type.
  unfold response_pending, response_stored. destruct (re_check_resolution_msg env out); [by intros [= <-]| |done].
  by destruct (re_check_fwd_response env out); intros [= <-].
Qed.

Lemma clean_keystone_step env closed x out inc x' :
  clean_keystone env closed x (out, inc) = Ok x' →
  x' = if cleaned env closed out inc then ({[inc]} ∪ x.1, {[out]} ∪ x.2) else x.
Proof using Type.
  unfold clean_keystone, cleaned. destruct x as [cs ks]. destruct (is_closed_channel closed inc.1); [by intros [= <-]|].
  destruct (is_closed_channel closed out.1); [|by intros [= <-]].
  intros (b & Hb & H)%rbind_Ok. apply response_pending_Ok in Hb as ->. by destruct b; injection H as <-.
Qed.

Lemma clean_keystone_loop env closed l x x' :
  fold_result (clean_keystone env closed) l x = Ok x' →
  (∀ k, k ∈ x'.1 ↔ k ∈ x.1 ∨ Exists (λ y, k = y.2 ∧ cleaned env closed y.1 y.2 = true) l) ∧
  (∀ out, out ∈ x'.2 ↔ out ∈ x.2 ∨ Exists (λ y, out = y.1 ∧ cleaned env closed y.1 y.2 = true) l).
Proof using Type.
  revert x. induction l as [|[out inc] l IH]; intros x; cbn [fold_result].
  { intros [= <-]. split; intros k; rewrite Exists_nil; tauto. }
  intros (x1 & Hx1 & [H1 H2]%IH)%rbind_Ok. apply clean_keystone_step in Hx1 as ->.
  split; intros k; rewrite ?H1, ?H2, Exists_cons; cbn [fst snd];
    destruct (cleaned env closed out inc); cbn [fst snd]; rewrite ?elem_of_union, ?elem_of_singleton; intuition congruence.
Qed.

Definition keyed m : Prop := ∀ k e, m !! k = Some e → pc_incoming e.1 = k.

Lemma view_keyed cm : mem_ok cm → keyed (view cm).
Proof using Type. intros H k e (a & Ha & ->)%lookup_view_Some. by apply (mo_pending _ H) in Ha as []. Qed.

Lemma disk_decodes d m x :
  disk_shows d m → keyed m → entries_ok m → x ∈ for_each (db_circuits d) →
  ∃ e, m !! x.1 = Some e ∧ decode_circuit x.2 = Ok (stored e.1) ∧ pc_incoming (stored e.1) = x.1.
Proof using Type.
  intros Hd Hk He Hx. destruct x as [k v]. apply (disk_circuit _ m) in Hx as (e & Hm & ->); [|done].
  exists e. split_and!; [done | by eapply decode_entry | by apply Hk].
Qed.

Lemma survives_cleaned env closed k e m :
  keyed m → m !! k = Some e →
  survives env closed e.1 = true ↔
    is_closed_channel closed k.1 = false ∧ ∀ out, pc_outgoing e.1 = Some out → cleaned env closed out k = false.
Proof using Type.
  intros Hk Hm. unfold survives, cleaned. rewrite (Hk _ _ Hm). destruct (is_closed_channel closed k.1); [split; [done | by intros []]|].
  cbn [negb andb orb]. destruct (pc_outgoing e.1) as [out|]; [|by split].
  rewrite <-(negb_involutive (negb _ || _)), negb_orb, negb_involutive, negb_true_iff. split.
  - intros Hs. split; [done|]. by intros ? [= <-].
  - intros [_ Hs]. by apply Hs.
Qed.

Lemma survives_nobody env m : filter (λ x, survives env ∅ x.2.1 = true) m = m.
Proof using Type.
  apply map_filter_id. intros k e _. unfold survives, is_closed_channel. cbn [snd].
  rewrite !(bool_decide_eq_false_2 (_ ∈ (∅ : gset Z))) by set_solver. rewrite andb_false_r. cbn [negb andb].
  destruct (pc_outgoing e.1) as [out|]; [|done].
  rewrite (bool_decide_eq_false_2 (_ ∈ (∅ : gset Z))) by set_solver. by rewrite andb_false_r.
Qed.

Lemma clean_shows env d m d' :
  disk_shows d m → keyed m → keystones_unique m → entries_ok m → clean_closed_channels env d = (d', Ok ()) →
  ∃ channels, re_closed_channels env = Ok channels ∧
    disk_shows d' (filter (λ x, survives env (closed_set channels) x.2.1 = true) m).
Proof using Type.
  intros Hd Hk Hu He. unfold clean_closed_channels. destruct (re_closed_channels env) as [channels|]; [|done].
  fold (closed_set channels). intros H. exists channels. split; [done|].
  set (closed := closed_set channels) in *.
  destruct (decide (closed = ∅)) as [E|Hne]; [injection H as <-; rewrite E; by rewrite survives_nobody|].
  destruct (re_view_ok env); [|done]. cbn [negb] in H.
  destruct (clean_circuit_loop closed (for_each (db_circuits d)) ∅) as (cs & Hcs & Hin).
  { intros x Hx. destruct (disk_decodes d m x Hd Hk He Hx) as (e & _ & H1 & H2). by exists (stored e.1). }
  rewrite Hcs in H. destruct (fold_result (clean_keystone env closed) _ (cs, ∅)) as [[cs' ks']|] eqn:Hf; [|done].
  destruct (re_clean_ok env); [|done]. injection H as <-.
  apply clean_keystone_loop in Hf as [Hcs' Hks']. cbn [fst snd] in Hcs', Hks'.
  assert (∀ out k, (out, k) ∈ for_each (db_keystones d) ↔ ∃ e, m !! k = Some e ∧ pc_outgoing e.1 = Some out) as Hdk.
  { intros out k. by apply disk_keystone. }
  assert (∀ k e, m !! k = Some e → k ∉ cs' ↔ survives env closed e.1 = true) as Hsurv.
  { intros k e Hm. rewrite (survives_cleaned env closed k e m), Hcs', Hin, Exists_exists by done. split.
    - intros Hn. split.
      + apply not_true_iff_false. intros Hc. apply Hn. left. right. split; [|done].
        exists (encode_circuit e.1). apply (disk_circuit d m); [done|]. by exists e.
      + intros out Ho. apply not_true_iff_false. intros Hc. apply Hn. right. exists (out, k). split; [|done].
        apply Hdk. by exists e.
    - intros [H1 H2] [[[]%elem_of_empty|[_ Hc]]|([out k'] & Hx & -> & Hc)]; [congruence|]. cbn [fst snd] in *.
      apply Hdk in Hx as (e' & He' & Ho). rewrite H2 in Hc; [done|]. congruence. }
  split.
  - intros k. cbn [db_circuits]. rewrite !map_lookup_filter, (ds_circuits _ _ Hd).
    destruct (m !! k) as [e|] eqn:Hm; [|done]. cbn [fmap option_fmap option_map mbind option_bind].
    destruct (decide (survives env closed e.1 = true)) as [Hs|Hs].
    + rewrite !option_guard_True by (cbn [fst snd]; by rewrite ?(Hsurv k e Hm)). done.
    + rewrite !option_guard_False by (cbn [fst snd]; by rewrite ?(Hsurv k e Hm)). done.
  - intros out k. cbn [db_keystones]. rewrite map_lookup_filter_Some, (ds_keystones _ _ Hd). cbn [fst].
    setoid_rewrite map_lookup_filter_Some. cbn [fst snd]. rewrite Hks', Exists_exists. split.
    + intros [(e & Hm & Ho) Hn]. exists e. split; [|done]. split; [done|]. apply (survives_cleaned _ _ k _ m); [done..|].
      assert (cleaned env closed out k = false) as Hc.
      { apply not_true_iff_false. intros Hc. apply Hn. right. exists (out, k). split; [|done]. apply Hdk. by exists e. }
      split; [|by intros o; rewrite Ho; intros [= <-]]. unfold cleaned in Hc. by apply orb_false_iff in Hc as [].
    + intros (e & [Hm Hs] & Ho). split; [by exists e|]. intros [[]%elem_of_empty|([o k'] & Hx & -> & Hc)]. cbn [fst snd] in *.
      apply Hdk in Hx as (e' & He' & Ho'). apply (survives_cleaned _ _ k _ m) in Hs as [_ Hs]; [|done..].
      assert (k = k') as <- by by eapply Hu. rewrite Hs in Hc; done.
Qed.

(** ** Loading the circuits *)

Definition half_loaded (e : entry) : entry := (set_loaded_from_disk true (stored e.1), false).

(** The memory in the middle of the load. *)
Definition loading (x : list payment_circuit * gmap circuit_key addr) : circuit_map :=
  CircuitMap x.1 x.2 ∅ ∅ ∅ (CircuitDb ∅ ∅).

Lemma restore_circuit_step x k v c x' :
  mem_ok (loading x) → decode_circuit v = Ok c → pc_incoming c = k → pc_outgoing c = None → x.2 !! k = None →
  restore_circuit x (k, v) = Ok x' →
  mem_ok (loading x') ∧ view (loading x') = <[k := (set_loaded_from_disk true c, false)]> (view (loading x)).
Proof using Type.
  intros H Hc Hk Ho Hx. unfold restore_circuit. destruct x as [heap pending]. cbn [snd] in *. rewrite Hc. cbn [rbind].
  intros [= <-]. set (c' := set_loaded_from_disk true c). set (cm := loading (heap, pending)) in *.
  destruct (mem_ok_alloc [c'] cm H) as [H1 V1]. set (cm1 := set_heap _ cm) in *.
  assert (deref (length heap) cm1 = c') as Hd by (unfold deref; cbn; by rewrite list_lookup_total_middle).
  destruct (view_add cm1 (length heap)) as [H2 V2].
  - done.
  - split_and!; [cbn; rewrite length_app; cbn; lia | by rewrite Hd|]. intros k' Hk'.
    apply (mo_pending _ H) in Hk' as [Hl _]. cbn in Hl. lia.
  - rewrite Hd. cbn. by rewrite Hk.
  - rewrite Hd, V1 in V2. rewrite Hd in H2. cbn in H2, V2. rewrite Hk in *. done.
Qed.

Lemma restore_circuits_loop m l x :
  mem_ok (loading x) → NoDup (map fst l) → (∀ k, k ∈ map fst l → x.2 !! k = None) →
  (∀ y, y ∈ l → ∃ e, m !! y.1 = Some e ∧ decode_circuit y.2 = Ok (stored e.1) ∧ pc_incoming (stored e.1) = y.1) →
  ∃ x', fold_result restore_circuit l x = Ok x' ∧ mem_ok (loading x') ∧
    ∀ k, view (loading x') !! k = if decide (k ∈ map fst l) then half_loaded <$> m !! k else view (loading x) !! k.
Proof using Type.
  revert x. induction l as [|[k v] l IH]; intros x H Hn Hx Hl; cbn [fold_result].
  { exists x. split_and!; [done | done|]. intros k. rewrite decide_False; [done | by apply not_elem_of_nil]. }
  destruct (Hl (k, v) ltac:(left)) as (e & He & Hd & Hk). cbn [fst snd] in He, Hd, Hk.
  cbn [map fst] in Hn, Hx. apply NoDup_cons in Hn as [Hnk Hn].
  assert (∃ x1, restore_circuit x (k, v) = Ok x1) as (x1 & Hx1).
  { unfold restore_circuit. destruct x. cbn [snd]. rewrite Hd. cbn [rbind]. eauto. }
  rewrite Hx1. cbn [rbind].
  destruct (restore_circuit_step x k v _ x1 H Hd Hk eq_refl (Hx k ltac:(left)) Hx1) as [H1 V1].
  assert (∀ k', x1.2 !! k' = None ↔ k' ≠ k ∧ x.2 !! k' = None) as Hp.
  { unfold restore_circuit in Hx1. destruct x as [heap pending]. cbn [snd] in *. rewrite Hd in Hx1. cbn [rbind] in Hx1.
    injection Hx1 as <-. cbn [snd]. intros k'. rewrite <-Hk. cbn. rewrite lookup_insert_None. naive_solver. }
  destruct (IH x1 H1 Hn) as (x' & -> & H' & V').
  - intros k' Hk'. apply Hp. split; [by intros ->|]. apply Hx. by right.
  - intros y Hy. apply Hl. by right.
  - exists x'. split_and!; [done | done|]. intros k'. rewrite V', V1. cbn [map fst].
    destruct (decide (k' = k)) as [->|Hne].
    + rewrite decide_False, decide_True, lookup_insert_eq, He by (done || left). done.
    + rewrite lookup_insert_ne by done. apply decide_ext. rewrite elem_of_cons. naive_solver.
Qed.

Lemma load_circuits d m :
  disk_shows d m → keyed m → entries_ok m →
  ∃ x, fold_result restore_circuit (for_each (db_circuits d)) ([], ∅) = Ok x ∧ mem_ok (loading x) ∧
    view (loading x) = half_loaded <$> m.
Proof using Type.
  intros Hd Hk He. destruct (restore_circuits_loop m (for_each (db_circuits d)) ([], ∅)) as (x & -> & H & V).
  - split; cbn; [by intros ? ? ?%lookup_empty_Some| |set_solver|by intros ? ? ?%lookup_empty_Some].
    intros out a. rewrite lookup_empty. split; [done | by intros (k & Hx & _)].
  - apply for_each_keys.
  - done.
  - intros y Hy. by eapply disk_decodes.
  - exists x. split_and!; [done | done|]. apply map_eq. intros k. rewrite V, lookup_fmap. case_decide as Hin; [done|].
    assert (m !! k = None) as ->; [|done]. destruct (m !! k) as [e|] eqn:E; [|done]. destruct Hin.
    change (map fst ?l) with (l.*1). apply list_elem_of_fmap. exists (k, encode_circuit e.1). split; [done|].
    apply (disk_circuit d m); [done|]. by exists e.
Qed.

(** ** Loading the keystones *)

Definition keystone_of (x : circuit_key * circuit_key) : keystone := Keystone x.2 x.1.

(** The loader opens the circuits as the map does, but for the index. *)
Lemma restore_keystones l addrs cm strays :
  Forall2 (λ x a, cm_pending cm !! x.2 = Some a) l addrs →
  let cm' := foldl open_circuit cm (zip (map keystone_of l) addrs) in
  foldl (restore_keystone (cm_pending cm)) (cm_heap cm, cm_opened cm, strays) l = (cm_heap cm', cm_opened cm', strays) ∧
  cm_pending cm' = cm_pending cm ∧ cm_closed cm' = cm_closed cm.
Proof using Type.
  intros H. revert cm H. revert addrs. induction l as [|[out inc] l IH]; intros addrs cm H.
  { by apply Forall2_nil_inv_l in H as ->. }
  apply Forall2_cons_inv_l in H as (a & addrs' & Ha & H & ->). cbn [map zip zip_with foldl]. cbn [snd] in Ha.
  unfold restore_keystone at 2. rewrite Ha. apply (IH addrs' (open_circuit cm (keystone_of (out, inc), a))), H.
Qed.

(** The index has what is open. *)
Lemma rehash l cm :
  ∃ ix, foldl (λ cm (x : circuit_key * addr), add_circuit_to_hash_index (deref x.2 cm) cm) cm l = set_hash_index ix cm ∧
    (∀ h k, k ∈ hashed cm h → k ∈ default ∅ (ix !! h)) ∧
    ∀ x, x ∈ l → out_key (deref x.2 cm) ∈ default ∅ (ix !! pc_payment_hash (deref x.2 cm)).
Proof using Type.
  revert cm. induction l as [|x l IH]; intros cm; cbn [foldl].
  { exists (cm_hash_index cm). split_and!; [by destruct cm | done | by intros ? ?%elem_of_nil]. }
  destruct (hash_add (deref x.2 cm) cm) as (ix1 & -> & H1).
  destruct (IH (set_hash_index ix1 cm)) as (ix & -> & H2 & H3).
  assert (∀ h k, k ∈ default ∅ (ix1 !! h) → k ∈ default ∅ (ix !! h)) as Hup by (intros h k; apply H2).
  exists ix. split_and!; [done| |].
  - intros h k Hk. apply Hup. rewrite H1. set_solver.
  - intros y [->|Hy]%elem_of_cons; [|by apply (H3 y)]. apply Hup. rewrite H1, decide_True by done. set_solver.
Qed.

Lemma mem_ok_rehash cm ix db :
  mem_ok cm →
  (∀ out a, cm_opened cm !! out = Some a → out ∈ default ∅ (ix !! pc_payment_hash (deref a cm))) →
  mem_ok (set_db db (set_hash_index ix cm)).
Proof using Type. intros [H1 H2 H3 H4] Hx. by split. Qed.

(** ** What the keystones do *)

Abbreviation open_all := (foldl (λ (m : circuits) ks, alter (set_keystone (Some (ks_out_key ks))) (ks_in_key ks) m)).

Lemma open_all_other kss m k : k ∉ map ks_in_key kss → open_all m kss !! k = m !! k.
Proof using Type.
  revert m. induction kss as [|ks kss IH]; intros m; cbn [foldl map]; [done|]. intros [Hk Hks]%not_elem_of_cons.
  by rewrite IH, lookup_alter_ne.
Qed.

Lemma open_all_one kss m ks :
  NoDup (map ks_in_key kss) → ks ∈ kss →
  open_all m kss !! ks_in_key ks = set_keystone (Some (ks_out_key ks)) <$> m !! ks_in_key ks.
Proof using Type.
  revert m. induction kss as [|x kss IH]; intros m; cbn [foldl map]; [by intros _ ?%elem_of_nil|].
  intros [Hx Hn]%NoDup_cons [->|Hks]%elem_of_cons; [by rewrite open_all_other, lookup_alter_eq|].
  rewrite IH, lookup_alter_ne; [done| |done|done]. intros E. apply Hx. rewrite E. by apply list_elem_of_fmap_2.
Qed.

Lemma reloaded_keystones d m :
  disk_shows d m → NoDup (map ks_in_key (map keystone_of (for_each (db_keystones d)))) →
  open_all (half_loaded <$> m) (map keystone_of (for_each (db_keystones d))) = reloaded <$> m.
Proof using Type.
  intros Hd Hn. set (kss := map keystone_of _) in *. apply map_eq. intros k. rewrite lookup_fmap.
  destruct (m !! k) as [[c b]|] eqn:Hm.
  - destruct (pc_outgoing c) as [out|] eqn:Ho.
    + assert (Keystone k out ∈ kss) as Hk.
      { change (keystone_of (out, k) ∈ kss). apply list_elem_of_fmap_2, (disk_keystone d m); [done|]. by exists (c, b). }
      rewrite (open_all_one kss _ (Keystone k out) Hn Hk). cbn [ks_in_key ks_out_key]. rewrite lookup_fmap, Hm. cbn.
      unfold set_keystone, reloaded, half_loaded, stored. cbn. rewrite <-Ho. by destruct c.
    + rewrite open_all_other; [rewrite lookup_fmap, Hm; cbn|].
      { unfold reloaded, half_loaded, stored, set_outgoing. cbn. rewrite <-Ho. by destruct c. }
      intros (ks & E & ([o k'] & -> & Hx)%list_elem_of_fmap)%list_elem_of_fmap. cbn in E. subst k'.
      apply (disk_keystone d m) in Hx as (e & He & Hoe); [|done]. rewrite Hm in He. injection He as <-. cbn in Hoe. congruence.
  - destruct (decide (k ∈ map ks_in_key kss)) as [Hk|Hk]; [|by rewrite open_all_other, lookup_fmap, Hm].
    apply list_elem_of_fmap in Hk as (ks & -> & Hks). rewrite open_all_one, lookup_fmap by done. by rewrite Hm.
Qed.

(** ** The memory at the start *)

Lemma disk_reloaded d m : disk_shows d m → disk_shows d (reloaded <$> m).
Proof using Type.
  intros [H1 H2]. split.
  - intros k. rewrite H1, lookup_fmap. by destruct (m !! k).
  - intros out k. rewrite H2. setoid_rewrite lookup_fmap. split.
    + intros (e & -> & Ho). by exists (reloaded e).
    + intros (e & (e' & -> & ->)%fmap_Some & Ho). by exists e'.
Qed.

Lemma entries_reloaded m : entries_ok m → entries_ok (reloaded <$> m).
Proof using Type.
  intros H k e (e' & <- & He)%lookup_fmap_Some. destruct (H _ _ He) as [[] H2 H3]. by split.
Qed.

Lemma disk_in_keys d m :
  disk_shows d m → NoDup (map ks_in_key (map keystone_of (for_each (db_keystones d)))).
Proof using Type.
  intros Hd. rewrite map_map. change (NoDup (snd <$> for_each (db_keystones d))).
  apply NoDup_fmap_2_strong; [|eapply NoDup_fmap_1, for_each_keys]. intros [o k] [o' k'] Hx Hy E. cbn in E. subst k'.
  apply (disk_keystone d m) in Hx as (e & He & Ho); [|done]. apply (disk_keystone d m) in Hy as (e' & He' & Ho'); [|done].
  congruence.
Qed.

Lemma Forall2_choice {A B} (P : A → B → Prop) l : (∀ x, x ∈ l → ∃ y, P x y) → ∃ k, Forall2 P l k.
Proof using Type.
  induction l as [|x l IH]; intros H; [by exists []|]. destruct (H x ltac:(left)) as [y Hy].
  destruct IH as [k Hk]; [intros; apply H; by right|]. exists (y :: k). by constructor.
Qed.

(** Nothing is left over when the keystones are of circuits. *)
Lemma load_keystones d m x :
  disk_shows d m → mem_ok (loading x) → view (loading x) = half_loaded <$> m →
  ∃ cm, foldl (restore_keystone x.2) (x.1, ∅, []) (for_each (db_keystones d)) = (cm_heap cm, cm_opened cm, []) ∧
    cm_pending cm = x.2 ∧ cm_closed cm = ∅ ∧ mem_ok cm ∧ view cm = reloaded <$> m.
Proof using Type.
  intros Hd H V. set (l := for_each (db_keystones d)).
  destruct (Forall2_choice (λ y a, x.2 !! y.2 = Some a) l) as [addrs Ha].
  { intros [out inc] Hy. apply (disk_keystone d m) in Hy as (e & He & _); [|done]. cbn [snd].
    assert (is_Some (view (loading x) !! inc)) as [? Hv] by (rewrite V, lookup_fmap, He; by eexists).
    apply lookup_view_Some in Hv as (a & Hx & _). by exists a. }
  destruct (restore_keystones l addrs (loading x) [] Ha) as (E1 & E2 & E3).
  destruct (open_loop (map keystone_of l) addrs (loading x)) as (H' & V' & _).
  - done.
  - apply Forall2_fmap_l. eapply Forall2_impl; [exact Ha|]. intros [out inc] a Hx. by split.
  - rewrite map_map. apply for_each_keys.
  - by eapply disk_in_keys.
  - intros ks e _ Hv. rewrite V, lookup_fmap in Hv. by apply fmap_Some in Hv as (? & _ & ->).
  - eexists. split_and!; [exact E1 | exact E2 | exact E3 | exact H'|]. rewrite V', V. apply reloaded_keystones; [done|].
    by eapply disk_in_keys.
Qed.

Lemma restore_refines env d m cm' :
  disk_shows d m → keyed m → entries_ok m → restore_mem_state env d = Ok cm' →
  circuits_ok cm' ∧ view cm' = reloaded <$> m.
Proof using Type.
  intros Hd Hk He. unfold restore_mem_state. destruct (load_circuits d m Hd Hk He) as ([heap pending] & -> & H0 & V0).
  cbn [rbind]. destruct (load_keystones d m _ Hd H0 V0) as (cm & E & P & C & H & V). cbn [fst snd] in E, P. rewrite E.
  cbn [List.filter foldl]. destruct (re_restore_ok env); [|done]. intros [= <-].
  replace (CircuitMap (cm_heap cm) pending (cm_opened cm) ∅ ∅ d) with (set_db d (set_hash_index ∅ cm)) by (by rewrite <-P, <-C).
  destruct (rehash (map_to_list (cm_opened cm)) (set_db d (set_hash_index ∅ cm))) as (ix & -> & _ & Hx).
  change (set_hash_index ix (set_db d (set_hash_index ∅ cm))) with (set_db d (set_hash_index ix cm)).
  assert (view (set_db d (set_hash_index ix cm)) = reloaded <$> m) as V' by done. split; [|done]. split.
  - apply mem_ok_rehash; [done|]. intros out a Ho. pose proof Ho as Ho'. apply (mo_opened _ H) in Ho' as (k & _ & Hout).
    specialize (Hx (out, a)). rewrite elem_of_map_to_list in Hx. specialize (Hx Ho). cbn [snd] in Hx.
    change (deref a (set_db d (set_hash_index ∅ cm))) with (deref a cm) in Hx. unfold out_key in Hx. by rewrite Hout in Hx.
  - rewrite V'. by apply disk_reloaded.
  - rewrite V'. by apply entries_reloaded.
Qed.

(** ** The trimming, and the whole *)

Lemma trim_channels channels cm cm' env :
  circuits_ok cm → (∀ p k start, (p, k, Ok start) ∈ channels → in_u64 start) →
  fold_result (trim_channel env) channels cm = Ok cm' →
  circuits_ok cm' ∧ view cm' = foldl spec_trim_channel (view cm) channels.
Proof using Type.
  revert cm. induction channels as [|ch channels IH]; intros cm H Hc; cbn [fold_result foldl]; [by intros [= <-]|].
  intros (cm1 & H1 & H2)%rbind_Ok.
  assert (circuits_ok cm1 ∧ view cm1 = spec_trim_channel (view cm) ch) as [Hok <-].
  { destruct ch as [[pending chan_id] next]. unfold trim_channel in H1. unfold spec_trim_channel.
    destruct pending; [injection H1 as <-; by destruct next|]. destruct (chan_id =? source); [injection H1 as <-; by destruct next|].
    destruct next as [start|]; [|done]. cbn [rbind] in H1.
    pose proof (trim_ok (re_trim_ok env chan_id) chan_id start cm H (Hc false chan_id start ltac:(left))) as Ht.
    destruct (trim_open_circuits _ _ _ _) as [cm2 [[]|]]; [|done]. injection H1 as <-. by apply Ht. }
  apply IH; [done | | done]. intros. eapply Hc. by right.
Qed.

(** A restart reads back the circuits that were there, less what it cleans and trims. *)
Lemma restart_refines env cm cm' :
  circuits_ok cm → op_contract (OpRestart env) (view cm) → new_circuit_map env (cm_db cm) = Ok cm' →
  circuits_ok cm' ∧ view cm' = spec_restart env (view cm).
Proof using Type.
  intros [Hm Hd He] Hc. unfold new_circuit_map. destruct (re_init_ok env); [|done].
  destruct (clean_closed_channels env (cm_db cm)) as [d [[]|]] eqn:Hclean; [|done].
  pose proof (view_keyed _ Hm) as Hk.
  destruct (clean_shows env _ _ _ Hd Hk (view_unique _ Hm) He Hclean) as (closed & Ecl & Hd1).
  intros (cm1 & H1 & H2)%rbind_Ok. apply (restore_refines _ _ _ _ Hd1) in H1 as [Hok1 V1].
  - unfold trim_all_open_circuits in H2. apply rbind_Ok in H2 as (channels & Ech & H2).
    unfold spec_restart. rewrite Ecl, Ech, <-V1. eapply trim_channels; [done | | done]. intros. by eapply Hc.
  - intros k e [Hx _]%map_lookup_filter_Some. by apply Hk.
  - intros k e [Hx _]%map_lookup_filter_Some. by eapply He.
Qed.
End Restart.
