(* ===== verification/Circuits.v ===== *)
(** * What the circuit map is for

    The refinement of the operations together, and what follows for runs of
    them: an HTLC is forwarded once and answered once, over restarts too. *)

From S2P Require Import Prelude CircuitMap CircuitSpec CircuitRefine CircuitRestart.

Implicit Types (m : circuits) (inc out : circuit_key) (cm : circuit_map).

Section Runs.
Context {KP : CircuitPrims}.

Lemma op_refines op cm cm' o :
  circuits_ok cm → op_contract op (view cm) → run_circuit_op op cm = Some (cm', o) →
  circuits_ok cm' ∧ spec_op op (view cm) = (view cm', o).
Proof using Type.
  intros H Hc. destruct op as [b cs|b kss|b chan start|inc|out|b keys|inc|out|env]; cbn [run_circuit_op op_contract] in *.
  - pose proof (commit_refines b cs cm H Hc) as R. destruct (commit_new b cs cm) as [cm1 [[adds drops fails] r]].
    intros [= <- <-]. apply R.
  - pose proof (open_refines b kss cm H Hc) as R. destruct (open_circuits b kss cm) as [cm1 r]. by intros [= <- <-].
  - destruct Hc as [-> Hc]. pose proof (trim_refines chan start cm H Hc) as R.
    destruct (trim_open_circuits true chan start cm) as [cm1 r].
    destruct R as (R1 & -> & R2). intros [= <- <-]. split; [done|]. cbn [spec_op]. by rewrite R2.
  - pose proof (fail_refines inc cm H) as R. destruct (fail_circuit inc cm) as [cm1 r]. by intros [= <- <-].
  - pose proof (close_refines out cm H) as R. destruct (close_circuit out cm) as [cm1 r]. by intros [= <- <-].
  - pose proof (delete_refines b keys cm H) as R. destruct (delete_circuits b keys cm) as [cm1 r]. by intros [= <- <-].
  - intros [= <- <-]. split; [done|]. cbn [spec_op]. by rewrite lookup_circuit_view.
  - intros [= <- <-]. split; [done|]. cbn [spec_op]. by rewrite lookup_open_view by apply H.
  - destruct (new_circuit_map env (cm_db cm)) as [cm1|] eqn:E; [|done]. intros [= <- <-].
    destruct (restart_refines env cm cm1 H Hc E) as [R1 R2]. split; [done|]. cbn [spec_op]. by rewrite R2.
Qed.

(** ** Runs *)

Inductive circuit_run : circuit_map → list (circuit_op * circuit_out) → circuit_map → Prop :=
| run_end cm : circuit_run cm [] cm
| run_next cm op cm1 o tr cm' :
    op_contract op (view cm) → run_circuit_op op cm = Some (cm1, o) → circuit_run cm1 tr cm' →
    circuit_run cm ((op, o) :: tr) cm'.

Lemma circuit_run_app cm tr1 tr2 cm' :
  circuit_run cm (tr1 ++ tr2) cm' → ∃ cm1, circuit_run cm tr1 cm1 ∧ circuit_run cm1 tr2 cm'.
Proof using Type.
  revert cm. induction tr1 as [|x tr1 IH]; intros cm H; [by exists cm; split; [constructor|]|].
  cbn [app] in H. inversion H as [|? op cm1 o ? ? Hc Hr Ht]; subst. apply IH in Ht as (cm2 & H1 & H2).
  exists cm2. split; [by econstructor | done].
Qed.

Lemma circuit_run_ok cm tr cm' : circuit_run cm tr cm' → circuits_ok cm → circuits_ok cm'.
Proof using Type.
  intros H. induction H as [|cm op cm1 o tr cm' Hc Hr Ht IH]; intros Hok; [done|]. apply IH. by eapply op_refines.
Qed.

Fixpoint spec_ops (ops : list circuit_op) m : circuits * list circuit_out :=
  match ops with
  | [] => (m, [])
  | op :: ops => let '(m1, o) := spec_op op m in let '(m', os) := spec_ops ops m1 in (m', o :: os)
  end.

(** What holds of the circuits until an operation of a kind, on what they are then. *)
Lemma circuit_run_until (Q : circuits → Prop) (R : circuits → circuit_op → Prop) cm tr cm' :
  (∀ op m, Q m → Q (spec_op op m).1 ∨ R m op) →
  circuit_run cm tr cm' → circuits_ok cm → Q (view cm) →
  Q (view cm') ∨ ∃ tr1 x tr2 cm1, tr = tr1 ++ x :: tr2 ∧ circuit_run cm tr1 cm1 ∧ R (view cm1) x.1.
Proof using Type.
  intros Hs H. induction H as [|cm op cm1 o tr cm' Hc Hr Ht IH]; intros Hok HQ; [by left|].
  destruct (op_refines op cm cm1 o Hok Hc Hr) as [Hok1 E].
  destruct (Hs op _ HQ) as [HQ1|HR]; [|right; exists [], (op, o), tr, cm; split_and!; [done | constructor | done]].
  rewrite E in HQ1. destruct (IH Hok1 HQ1) as [?|(tr1 & x & tr2 & cm2 & -> & Hrun & HR)]; [by left|].
  right. exists ((op, o) :: tr1), x, tr2, cm2. split_and!; [done | by econstructor | done].
Qed.

Lemma circuit_run_join cm tr1 cm1 tr2 cm' : circuit_run cm tr1 cm1 → circuit_run cm1 tr2 cm' → circuit_run cm (tr1 ++ tr2) cm'.
Proof using Type. induction 1 as [|cm op cm2 o tr1 cm1 Hc Hr Ht IH]; intros H2; [done|]. cbn [app]. econstructor; [done.. | by apply IH]. Qed.

(** C12: Whatever is done to the circuit map - commits, openings, trimmings,
    claims and deletions, lookups and restarts from the disk, in any order -
    changes the circuits, and returns, what the specification says, which is one
    map from incoming keys to circuits with their keystones and claims. Memory and
    disk stay consistent, and a lookup by payment hash finds every open circuit
    with that hash (and may find others, see [trimmed_key_stays_indexed]). A
    circuit that a restart loaded and that has no keystone is failed back, another
    that is known is dropped; a failed write of a commit, an opening or a deletion
    changes nothing; a restart keeps all circuits but those of closed channels,
    and forgets the claims. The callers keep to [op_contract]: the committed
    circuits are new ones, of machine numbers and with encrypters that the onion
    processor made; the opened ones are not open, and their keystones new indexes
    of a real channel; the write of a trimming succeeds; and the channels' next
    indexes are machine integers. *)
Theorem circuit_map_refines cm tr cm' :
  circuits_ok cm → circuit_run cm tr cm' →
  circuits_ok cm' ∧ spec_ops (map fst tr) (view cm) = (view cm', map snd tr) ∧
  ∀ inc c b out, view cm' !! inc = Some (c, b) → pc_outgoing c = Some out →
    c ∈ lookup_by_payment_hash (pc_payment_hash c) cm'.
Proof using Type.
  intros Hok H.
  assert (circuits_ok cm' ∧ spec_ops (map fst tr) (view cm) = (view cm', map snd tr)) as [Hok' E].
  { induction H as [|cm op cm1 o tr cm' Hc Hr Ht IH]; [done|].
    destruct (op_refines op cm cm1 o Hok Hc Hr) as [Hok1 E]. destruct (IH Hok1) as [Hok' E'].
    split; [done|]. cbn [map fst snd spec_ops]. by rewrite E, E'. }
  split_and!; [done | done|]. intros inc c b out (a & Ha & [= -> _])%lookup_view_Some Ho.
  pose proof (co_mem _ Hok') as Hm. assert (cm_opened cm' !! out = Some a) as Eo by (apply (mo_opened _ Hm); by exists inc).
  unfold lookup_by_payment_hash. apply list_elem_of_omap. exists out. split.
  - apply elem_of_elements. by apply (mo_hash _ Hm).
  - unfold lookup_open_circuit. by rewrite Eo.
Qed.

(** An operation that answers, another of the same kind, and what is between them. *)
Lemma circuit_run_between cm tr1 a tr2 b tr3 cm' :
  circuit_run cm (tr1 ++ a :: tr2 ++ b :: tr3) cm' → circuits_ok cm →
  ∃ cm1 cm2 cm3, circuits_ok cm1 ∧ spec_op a.1 (view cm1) = (view cm2, a.2) ∧ circuits_ok cm2 ∧
    circuit_run cm2 tr2 cm3 ∧ circuits_ok cm3 ∧ (spec_op b.1 (view cm3)).2 = b.2 ∧ circuit_run cm (tr1 ++ [a]) cm2.
Proof using Type.
  intros (cm1 & H1 & H2)%circuit_run_app Hok. assert (circuits_ok cm1) as Hok1 by by eapply circuit_run_ok.
  inversion H2 as [|? op cm2 o ? ? Hc Hr Ht]; subst. destruct (op_refines _ _ _ _ Hok1 Hc Hr) as [Hok2 E].
  apply circuit_run_app in Ht as (cm3 & H3 & H4). assert (circuits_ok cm3) as Hok3 by by eapply circuit_run_ok.
  inversion H4 as [|? op' cm4 o' ? ? Hc' Hr' Ht']; subst. destruct (op_refines _ _ _ _ Hok3 Hc' Hr') as [_ E'].
  exists cm1, cm2, cm3. split_and!; [done | done | done | done | done | by change (op', o').1 with op'; rewrite E'|].
  eapply circuit_run_join; [exact H1|]. econstructor; [done | done | constructor].
Qed.

(** ** What an operation keeps *)

(** A circuit that is there, claimed where [b] says so. *)
Definition entry_kept (b : bool) inc m : Prop :=
  ∃ e, m !! inc = Some e ∧ pc_incoming e.1 = inc ∧ (b = true → e.2 = true).

(** What ends the claim of a response: the circuit is deleted, or a restart
    forgets it. *)
Definition releases_claim inc (op : circuit_op) : Prop :=
  match op with
  | OpDelete true in_keys => inc ∈ in_keys
  | OpRestart _ => True
  | _ => False
  end.

(** What takes a circuit out of the map: it is deleted, or it is cleaned at a
    restart, because its own channel is closed, or the one that it is open to is
    and no response to it is stored. *)
Definition releases_circuit inc m (op : circuit_op) : Prop :=
  match op with
  | OpDelete true in_keys => inc ∈ in_keys
  | OpRestart env =>
      ∃ closed c b, re_closed_channels env = Ok closed ∧ m !! inc = Some (c, b) ∧
        (is_closed_channel (closed_set closed) inc.1 = true ∨
         ∃ out, pc_outgoing c = Some out ∧ is_closed_channel (closed_set closed) out.1 = true ∧ response_stored env out = false)
  | _ => False
  end.

Definition releases (b : bool) inc m (op : circuit_op) : Prop :=
  if b then releases_claim inc op else releases_circuit inc m op.

Lemma entry_kept_alter b inc m k o : entry_kept b inc m → entry_kept b inc (alter (set_keystone o) k m).
Proof using Type.
  intros (e & He & Hi & Hb). destruct (decide (k = inc)) as [->|Hne].
  - exists (set_keystone o e). by rewrite lookup_alter_eq, He.
  - exists e. by rewrite lookup_alter_ne.
Qed.

Lemma entry_kept_trim b inc m chan start : entry_kept b inc m → entry_kept b inc (spec_trim chan start m).
Proof using Type.
  intros (e & He & Hi & Hb). eexists. unfold spec_trim. rewrite lookup_fmap, He. split; [done|].
  destruct (pc_outgoing e.1) as [out|]; [|done]. by destruct (in_run m chan start out).
Qed.

Lemma entry_kept_fold {A} (b : bool) inc (f : circuits → A → circuits) l m :
  (∀ m x, entry_kept b inc m → entry_kept b inc (f m x)) → entry_kept b inc m → entry_kept b inc (foldl f m l).
Proof using Type. intros Hf. revert m. induction l as [|x l IH]; intros m H; [done|]. apply IH. by apply Hf. Qed.

Lemma reconcile_keeps cs m x k e : m !! k = Some e → (foldl spec_reconcile (m, x) cs).1 !! k = Some e.
Proof using Type.
  revert m x. induction cs as [|c cs IH]; intros m x H; [done|]. cbn [foldl]. destruct x as [[adds drops] fails].
  cbn [spec_reconcile]. destruct (m !! pc_incoming c) as [e'|] eqn:E; [destruct (_ || _); by apply IH|].
  apply IH. rewrite lookup_insert_ne; [done|]. intros Hk. congruence.
Qed.

Lemma reconcile_adds cs m adds drops fails c :
  let '(m', (adds', _, _)) := foldl spec_reconcile (m, (adds, drops, fails)) cs in
  c ∈ adds' → c ∈ adds ∨ m !! pc_incoming c = None ∧ m' !! pc_incoming c = Some (c, false).
Proof using Type.
  revert m adds drops fails. induction cs as [|x cs IH]; intros m adds drops fails; cbn [foldl]; [by left|].
  cbn [spec_reconcile]. destruct (m !! pc_incoming x) as [e|] eqn:E; [destruct (_ || _); apply IH|].
  pose proof (reconcile_keeps cs (<[pc_incoming x := (x, false)]> m) (adds ++ [x], drops, fails) (pc_incoming x) (x, false)
    (lookup_insert_eq _ _ _)) as Hk.
  specialize (IH (<[pc_incoming x := (x, false)]> m) (adds ++ [x]) drops fails).
  destruct (foldl spec_reconcile _ cs) as [m' [[adds' drops'] fails']]. cbn [fst] in Hk.
  intros [[Hc| ->%list_elem_of_singleton]%elem_of_app|[H1 H2]]%IH; [by left | by right|].
  right. split; [|done]. by apply lookup_insert_None in H1 as [].
Qed.

Lemma entry_kept_claim b inc m k : entry_kept b inc m → entry_kept b inc (spec_claim k m).1.
Proof using Type.
  intros (e & He & Hi & Hb). unfold spec_claim. destruct (m !! k) as [[c []]|] eqn:E; [by exists e| |by exists e].
  destruct (decide (k = inc)) as [->|Hne]; cbn [fst].
  - exists (c, true). rewrite lookup_insert_eq. rewrite E in He. by injection He as <-.
  - exists e. by rewrite lookup_insert_ne.
Qed.

Lemma entry_kept_delete b inc m keys : inc ∉ keys → entry_kept b inc m → entry_kept b inc (foldl (λ m k, delete k m) m keys).
Proof using Type.
  revert m. induction keys as [|k keys IH]; intros m; [done|]. intros [Hk Hks]%not_elem_of_cons (e & He & H). cbn [foldl].
  apply IH; [done|]. exists e. by rewrite lookup_delete_ne.
Qed.

Lemma entry_kept_restart inc m env : entry_kept false inc m → entry_kept false inc (spec_restart env m) ∨ releases false inc m (OpRestart env).
Proof using Type.
  intros (e & He & Hi & _). unfold spec_restart. destruct (re_closed_channels env) as [closed|] eqn:Ec; [|left; by exists e].
  destruct (re_open_channels env) as [channels|]; [|left; by exists e].
  destruct (survives env (closed_set closed) e.1) eqn:Es.
  - left. apply entry_kept_fold.
    + intros m' [[[] chan] [start|]] H; [done | done | | done]. cbn [spec_trim_channel].
      destruct (chan =? source); [done | by apply entry_kept_trim].
    + exists (reloaded e). rewrite lookup_fmap, map_lookup_filter, He. cbn. by rewrite option_guard_True.
  - right. destruct e as [c b]. exists closed, c, b. split; [done|]. split; [done|]. unfold survives in Es. cbn [fst] in *.
    rewrite Hi in Es. destruct (is_closed_channel (closed_set closed) inc.1); [by left|]. right.
    destruct (pc_outgoing c) as [out|]; [|done].
    exists out. cbn in Es. by apply orb_false_iff in Es as [->%negb_false_iff ->].
Qed.

Lemma entry_kept_op b inc op m : entry_kept b inc m → entry_kept b inc (spec_op op m).1 ∨ releases b inc m op.
Proof using Type.
  intros H. pose proof H as (e & He & Hi & Hb). destruct op as [ok cs|ok kss|ok chan start|k|out|[] keys|k|out|env]; cbn [spec_op].
  - left. unfold spec_commit. pose proof (reconcile_keeps cs m ([], [], []) inc e He) as Hk.
    destruct (foldl spec_reconcile _ cs) as [m' [[adds drops] fails]]. cbn [fst] in Hk.
    destruct adds; [done|]. destruct ok; [by exists e | done].
  - left. unfold spec_open. destruct kss; [done|]. destruct (omap _ _); [|done]. destruct ok; [|done].
    apply entry_kept_fold; [|done]. intros. by apply entry_kept_alter.
  - left. by apply entry_kept_trim.
  - left. by apply entry_kept_claim.
  - left. unfold spec_close. destruct (find_open out m) as [[k x]|]; [by apply entry_kept_claim | done].
  - destruct (decide (inc ∈ keys)) as [Hk|Hk]; [right; by destruct b | left; by apply entry_kept_delete].
  - by left.
  - by left.
  - by left.
  - destruct b; [by right|]. by apply entry_kept_restart.
Qed.

(** ** What an operation answers *)

Lemma claimed op m c : keyed m → (spec_op op m).2 = OutCircuit (Ok c) →
  m !! pc_incoming c = Some (c, false) ∧ entry_kept true (pc_incoming c) (spec_op op m).1.
Proof using Type.
  intros Hk. assert (∀ k, (spec_claim k m).2 = OutCircuit (Ok c) →
    m !! pc_incoming c = Some (c, false) ∧ entry_kept true (pc_incoming c) (spec_claim k m).1) as Hc.
  { intros k. unfold spec_claim. destruct (m !! k) as [[x []]|] eqn:E; [done| |done]. intros [= <-].
    pose proof (Hk _ _ E) as Hi. cbn [fst] in Hi. rewrite Hi. split; [done|].
    exists (x, true). cbn [fst]. by rewrite lookup_insert_eq. }
  destruct op as [ok cs|ok kss|ok chan start|k|out|[] keys|k|out|env]; cbn [spec_op]; try done.
  - unfold spec_commit. destruct (foldl _ _ cs) as [m' [[[|] drops] fails]]; [done|]. by destruct ok.
  - unfold spec_open. destruct kss; [done|]. destruct (omap _ _); [|done]. by destruct ok.
  - apply Hc.
  - unfold spec_close. destruct (find_open out m) as [[k x]|]; [|done]. apply Hc.
Qed.

Lemma added op m adds drops fails r c :
  (spec_op op m).2 = OutActions adds drops fails r → c ∈ adds →
  m !! pc_incoming c = None ∧ entry_kept false (pc_incoming c) (spec_op op m).1.
Proof using Type.
  destruct op as [ok cs|ok kss|ok chan start|k|out|[] keys|k|out|env]; cbn [spec_op]; try done.
  - unfold spec_commit. pose proof (reconcile_adds cs m [] [] [] c) as Ha.
    destruct (foldl spec_reconcile _ cs) as [m' [[adds' drops'] fails']].
    destruct adds' as [|x adds']; [by intros [= <- _ _ _] []%elem_of_nil|].
    destruct ok; intros [= <- _ _ _] Hc; [|by apply elem_of_nil in Hc]. destruct (Ha Hc) as [[]%elem_of_nil|[H1 H2]].
    split; [done|]. by exists (c, false).
  - unfold spec_open. destruct kss; [done|]. destruct (omap _ _); [|done]. by destruct ok.
  - unfold spec_claim. destruct (m !! k) as [[x []]|]; done.
  - unfold spec_close. destruct (find_open out m) as [[k x]|]; [|done]. unfold spec_claim. by destruct (m !! k) as [[y []]|].
Qed.

(** ** Once each *)

(** C13: Between two responses that the map lets through for the same incoming
    HTLC - by its incoming or its outgoing key - the circuit was deleted or the
    node restarted. *)
Theorem one_response cm tr1 a tr2 b tr3 cm' c c' :
  circuits_ok cm → circuit_run cm (tr1 ++ a :: tr2 ++ b :: tr3) cm' →
  a.2 = OutCircuit (Ok c) → b.2 = OutCircuit (Ok c') → pc_incoming c = pc_incoming c' →
  ∃ x, x ∈ tr2 ∧ releases_claim (pc_incoming c) x.1.
Proof using Type.
  intros Hok H Ha Hb E. destruct (circuit_run_between _ _ _ _ _ _ _ H Hok) as (cm1 & cm2 & cm3 & H1 & Ea & H2 & Ht & H3 & Eb & _).
  rewrite Ha in Ea. destruct (claimed a.1 (view cm1) c) as (_ & Hq); [by apply view_keyed, H1 | by rewrite Ea|].
  rewrite Ea in Hq. destruct (claimed b.1 (view cm3) c') as (Hm & _); [by apply view_keyed, H3 | by rewrite Eb|].
  destruct (circuit_run_until (entry_kept true (pc_incoming c)) (releases true (pc_incoming c)) cm2 tr2 cm3) as [Hq'|(tr4 & x & tr5 & cm4 & -> & _ & Hx)];
    [intros; by apply entry_kept_op | done | done | done | | exists x; split; [apply elem_of_app; right; left | done]].
  destruct Hq' as (e & He & _ & Hc). rewrite <-E in Hm. rewrite Hm in He. injection He as <-. by specialize (Hc eq_refl).
Qed.

(** C14: An HTLC that the map let through to be forwarded is let through again
    only when in between its circuit was deleted, or cleaned at a restart: then
    the channel that the HTLC came from was closed, or the one that its own
    circuit was open to was and no response to it was stored. Restarts alone do
    not make the node forward twice. *)
Theorem one_forward cm tr1 a tr2 b tr3 cm' adds drops fails r adds' drops' fails' r' c c' :
  circuits_ok cm → circuit_run cm (tr1 ++ a :: tr2 ++ b :: tr3) cm' →
  a.2 = OutActions adds drops fails r → b.2 = OutActions adds' drops' fails' r' →
  c ∈ adds → c' ∈ adds' → pc_incoming c = pc_incoming c' →
  ∃ tr4 x tr5 cm1, tr2 = tr4 ++ x :: tr5 ∧ circuit_run cm (tr1 ++ a :: tr4) cm1 ∧
    releases_circuit (pc_incoming c) (view cm1) x.1.
Proof using Type.
  intros Hok H Ha Hb Hc Hc' E.
  destruct (circuit_run_between _ _ _ _ _ _ _ H Hok) as (cm1 & cm2 & cm3 & _ & Ea & H2 & Ht & _ & Eb & H1).
  rewrite Ha in Ea. destruct (added a.1 (view cm1) adds drops fails r c) as [_ Hq]; [by rewrite Ea | done|].
  rewrite Ea in Hq. destruct (added b.1 (view cm3) adds' drops' fails' r' c') as [Hn _]; [by rewrite Eb | done|].
  destruct (circuit_run_until (entry_kept false (pc_incoming c)) (releases false (pc_incoming c)) cm2 tr2 cm3)
    as [Hq'|(tr4 & x & tr5 & cm4 & -> & Hrun & Hx)];
    [intros; by apply entry_kept_op | done | done | done | |].
  - destruct Hq' as (e & He & _). rewrite <-E in Hn. congruence.
  - exists tr4, x, tr5, cm4. split_and!; [done | | done]. rewrite cons_middle, app_assoc. by eapply circuit_run_join.
Qed.
End Runs.

(** ** A small node *)

#[local] Instance toy_prims : CircuitPrims := {
  parse_pub_key _ := true;
  extract_error_encrypter key := Some (rev key);
}.

Definition toy_map : circuit_map := CircuitMap [] ∅ ∅ ∅ ∅ (CircuitDb ∅ ∅).

Lemma toy_map_ok {KP : CircuitPrims} : circuits_ok toy_map.
Proof.
  assert (view toy_map = ∅) as V by done. split; rewrite ?V; [split | split |]; cbn.
  - by intros ? ? ?%lookup_empty_Some.
  - intros out a. rewrite lookup_empty. split; [done | by intros (k & Hx & _)].
  - set_solver.
  - by intros ? ? ?%lookup_empty_Some.
  - intros k. by rewrite !lookup_empty.
  - intros out k. rewrite lookup_empty. split; [done | by intros (e & Hx & _)].
  - by intros ? ? ?%lookup_empty_Some.
Qed.

Definition toy_circuit (chan id : Z) (hash : byte) : payment_circuit :=
  PaymentCircuit (100, 1) (chan, id) None (replicate 32 hash) 1000 990
    (Some (ErrorEncrypter EncrypterTypeSphinx (replicate 33 Byte.x02) (Some (replicate 33 Byte.x02)))) false.

(** A check of what callers keep to. *)
Definition below (w x : Z) : bool := (0 <=? x) && (x <? 2 ^ w).

Definition readable_check (e : error_encrypter) : bool :=
  (length (ee_ephemeral_key e) =? 33)%nat && parse_pub_key (ee_ephemeral_key e) &&
  bool_decide (is_Some (ee_onion_encrypter e)) && bool_decide (extract_error_encrypter (ee_ephemeral_key e) = ee_onion_encrypter e).

Definition fresh_check (c : payment_circuit) : bool :=
  below 64 (pc_add_ref c).1 && below 16 (pc_add_ref c).2 && below 64 (pc_incoming c).1 && below 64 (pc_incoming c).2 &&
  (length (pc_payment_hash c) =? 32)%nat && below 64 (pc_incoming_amount c) && below 64 (pc_outgoing_amount c) &&
  match pc_error_encrypter c with Some e => readable_check e | None => true end &&
  bool_decide (pc_outgoing c = None) && negb (pc_loaded_from_disk c).

Definition keystone_check m (ks : keystone) : bool :=
  match m !! ks_in_key ks with Some e => bool_decide (pc_outgoing e.1 = None) | None => true end &&
  bool_decide ((ks_out_key ks).1 ≠ source) && (0 <=? (ks_out_key ks).2) && ((ks_out_key ks).2 + 1 <? 2 ^ 64).

Definition contract_check (op : circuit_op) m : bool :=
  match op with
  | OpCommit _ cs => forallb fresh_check cs
  | OpOpen _ kss =>
      bool_decide (NoDup (map ks_out_key kss)) && bool_decide (NoDup (map ks_in_key kss)) && forallb (keystone_check m) kss
  | OpTrim db_ok _ start => db_ok && below 64 start
  | OpRestart env =>
      match re_open_channels env with
      | Ok channels => forallb (λ ch, match ch.2 with Ok start => below 64 start | Err _ => true end) channels
      | Err _ => true
      end
  | _ => true
  end.

Lemma below_range w x : below w x = true ↔ 0 ≤ x < 2 ^ w.
Proof. unfold below. rewrite andb_true_iff, Z.leb_le, Z.ltb_lt. done. Qed.

Lemma fresh_checked c : fresh_check c = true → fresh_circuit c.
Proof.
  unfold fresh_check. rewrite !andb_true_iff, !below_range, !Nat.eqb_eq, negb_true_iff, bool_decide_eq_true.
  intros [[[[[[[[[H1 H2] H3] H4] H5] H6] H7] H8] H9] H10]. split; [by split | | done | done].
  intros e E. rewrite E in H8. unfold readable_check in H8. rewrite !andb_true_iff, Nat.eqb_eq, !bool_decide_eq_true in H8.
  by destruct H8 as [[[? ?] ?] ?].
Qed.

Lemma contract_checked op m : contract_check op m = true → op_contract op m.
Proof.
  destruct op as [ok cs|ok kss|ok chan start|k|out|ok keys|k|out|env]; cbn [contract_check op_contract]; try done.
  - rewrite forallb_forall. intros H c Hc%list_elem_of_In. by apply fresh_checked, H.
  - rewrite !andb_true_iff, !bool_decide_eq_true, forallb_forall. intros [[H1 H2] H3].
    assert (∀ ks, ks ∈ kss → keystone_check m ks = true) as Hk by (intros ks Hks%list_elem_of_In; by apply H3).
    split; [done | done | |].
    + intros ks e Hks He. apply Hk in Hks. unfold keystone_check in Hks. rewrite He, !andb_true_iff, !bool_decide_eq_true in Hks.
      by destruct Hks as [[[? _] _] _].
    + intros ks Hks%Hk. unfold keystone_check in Hks. rewrite !andb_true_iff, Z.leb_le, Z.ltb_lt, !bool_decide_eq_true in Hks.
      destruct Hks as [[[_ ?] ?] ?]. done.
  - rewrite andb_true_iff, below_range. done.
  - intros H channels p k start E Hin. rewrite E, forallb_forall in H. apply list_elem_of_In, H in Hin. by apply below_range.
Qed.

(** No channel is closed; channel 7 has one HTLC. *)
Definition toy_env : restart_env :=
  RestartEnv (Ok []) (Ok [(false, 7, Ok 1)]) (λ _, Absent) (λ _, Absent) true true true true (λ _, true).

(** A run, as far as it keeps to the contract. *)
Fixpoint toy_run (ops : list circuit_op) cm : list (circuit_op * circuit_out) * circuit_map :=
  match ops with
  | [] => ([], cm)
  | op :: ops =>
      match (if contract_check op (view cm) then run_circuit_op op cm else None) with
      | Some (cm1, o) => let '(tr, cm') := toy_run ops cm1 in ((op, o) :: tr, cm')
      | None => ([], cm)
      end
  end.

Lemma toy_run_ok ops cm : circuit_run cm (toy_run ops cm).1 (toy_run ops cm).2.
Proof.
  revert cm. induction ops as [|op ops IH]; intros cm; [constructor|]. cbn [toy_run].
  destruct (contract_check op (view cm)) eqn:Hc; [|constructor]. apply contract_checked in Hc.
  destruct (run_circuit_op op cm) as [[cm1 o]|] eqn:E; [|constructor]. specialize (IH cm1).
  destruct (toy_run ops cm1) as [tr cm']. by econstructor.
Qed.

(** A payment is forwarded, answered, answered again after a restart, and
    removed; the peer sends it anew. *)
Definition toy_a : payment_circuit := toy_circuit 5 0 Byte.x0a.
Definition toy_ops : list circuit_op :=
  [OpCommit true [toy_a]; OpOpen true [Keystone (5, 0) (7, 0)]; OpClose (7, 0);
   OpRestart toy_env; OpClose (7, 0); OpDelete true [(5, 0)]; OpCommit true [toy_a]].
Definition toy_trace : list (circuit_op * circuit_out) := Eval vm_compute in (toy_run toy_ops toy_map).1.
Definition toy_end : circuit_map := (toy_run toy_ops toy_map).2.

Lemma toy_runs : circuit_run toy_map toy_trace toy_end.
Proof. replace toy_trace with (toy_run toy_ops toy_map).1 by (vm_compute; reflexivity). apply toy_run_ok. Qed.

Lemma circuit_map_refines_witness :
  length toy_trace = 7%nat ∧ circuits_ok toy_end ∧ spec_ops (map fst toy_trace) (view toy_map) = (view toy_end, map snd toy_trace).
Proof.
  split; [done|]. destruct (circuit_map_refines toy_map toy_trace toy_end toy_map_ok toy_runs) as (H1 & H2 & _). by split.
Defined.

Lemma one_response_witness :
  ∃ x, x ∈ [(OpRestart toy_env, OutDone (Ok ()))] ∧ releases_claim (5, 0) x.1.
Proof.
  apply (one_response toy_map (take 2 toy_trace) (nth 2 toy_trace (OpTrim true 0 0, OutFound None))
    [(OpRestart toy_env, OutDone (Ok ()))] (nth 4 toy_trace (OpTrim true 0 0, OutFound None)) (drop 5 toy_trace) toy_end
    (set_outgoing (Some (7, 0)) toy_a) (set_loaded_from_disk true (set_outgoing (Some (7, 0)) toy_a)));
    [apply toy_map_ok | exact toy_runs | reflexivity | reflexivity | reflexivity].
Defined.

Lemma one_forward_witness :
  ∃ tr4 x tr5 cm1, drop 1 (take 6 toy_trace) = tr4 ++ x :: tr5 ∧
    circuit_run toy_map ([] ++ nth 0 toy_trace (OpTrim true 0 0, OutFound None) :: tr4) cm1 ∧
    releases_circuit (5, 0) (view cm1) x.1.
Proof.
  apply (one_forward toy_map [] (nth 0 toy_trace (OpTrim true 0 0, OutFound None)) (drop 1 (take 6 toy_trace))
    (nth 6 toy_trace (OpTrim true 0 0, OutFound None)) [] toy_end [toy_a] [] [] (Ok ()) [toy_a] [] [] (Ok ()) toy_a toy_a);
    [apply toy_map_ok | exact toy_runs | reflexivity | reflexivity | left | left | reflexivity].
Defined.

Lemma circuit_survives_encoding_witness : decode_circuit (encode_circuit toy_a) = Ok toy_a.
Proof.
  apply (circuit_survives_encoding toy_a); [|intros e [= <-]; split_and!; [done | done | by eexists | done]].
  split; cbn; [in_range | in_range | split; in_range | reflexivity | in_range | in_range].
Defined.

(** [TrimOpenCircuits] trims the memory before its write, and does not restore it
    where the write fails: the circuit is half open in memory, so that it can be
    opened to another HTLC, and its keystone is still on disk. *)
Example failed_trim_splits :
  let cm := (toy_run [OpCommit true [toy_a]; OpOpen true [Keystone (5, 0) (7, 0)]] toy_map).2 in
  let '(cm', r) := trim_open_circuits false 7 0 cm in
  r = Err ErrDatabase ∧ lookup_open_circuit (7, 0) cm' = None ∧ db_keystones (cm_db cm') !! (7, 0) = Some (5, 0).
Proof. vm_compute. done. Qed.

(** [TrimOpenCircuits] takes the keystone off a circuit before it takes the
    circuit out of the index, which then looks for the empty key and keeps the
    trimmed one. When the index of the HTLC is given out again,
    [LookupByPaymentHash] returns a circuit with another payment hash. *)
Example trimmed_key_stays_indexed :
  let ops := [OpCommit true [toy_circuit 5 0 Byte.x0a; toy_circuit 6 0 Byte.x0b];
              OpOpen true [Keystone (5, 0) (7, 0)]; OpTrim true 7 0; OpOpen true [Keystone (6, 0) (7, 0)]] in
  map pc_payment_hash (lookup_by_payment_hash (replicate 32 Byte.x0a) (toy_run ops toy_map).2) = [replicate 32 Byte.x0b].
Proof. vm_compute. reflexivity. Qed.
