(* ===== verification/Quiescer.v ===== *)
(** * Quiescence

    The state machine of htlcswitch/quiescer.go, which stops the updates of a
    channel. The hooks that it runs on resuming are data of a type [H]: what a
    link defers. The link's [sendMsg] is the result of [send_owed_stfu]. *)

From S2P Require Import Prelude UpdateLog.

Inductive quiescer_error :=
| ErrInvalidStfu
| ErrStfuAlreadySent
| ErrStfuAlreadyRcvd
| ErrNoQuiescenceInitiator
| ErrPendingRemoteUpdates
| ErrPendingLocalUpdates
| ErrQuiescenceRequested              (* "quiescence already requested" *)
| ErrQuiescenceUnderWay               (* "quiescence under way, started by the peer" *)
| ErrShutdownReceived.
#[export] Instance quiescer_error_eq_decision : EqDecision quiescer_error.
Proof. solve_decision. Defined.

(** lnwire/stfu.go, on the channel at hand *)
Record stfu := Stfu { stfu_initiator : bool }.

(** How far the negotiation is: [localInit], [remoteInit], [sent], [received]. *)
Record progress := Progress {
  qp_local_init : bool;
  qp_remote_init : bool;
  qp_sent : bool;
  qp_received : bool;
}.

Section Quiescer.
Context {H : Type}.

Record quiescer := QuiescerLive {
  qz_channel_initiator : channel_party;
  qz_progress : progress;
  qz_active_req : option Z;           (* the request that waits, by a number *)
  qz_refuse_init : option quiescer_error;
  qz_resume_queue : list H;
  qz_timeout : bool;                  (* the timer runs *)
  (* what the requests were resolved with, the last first *)
  qz_resolved : list (Z * result quiescer_error channel_party);
}.

Definition new_quiescer (channel_initiator : channel_party) : quiescer :=
  QuiescerLive channel_initiator (Progress false false false false) None None [] false [].

Implicit Types q : quiescer.

Definition set_progress (p : progress) q : quiescer :=
  QuiescerLive (qz_channel_initiator q) p (qz_active_req q) (qz_refuse_init q) (qz_resume_queue q) (qz_timeout q)
    (qz_resolved q).
Definition set_active_req (r : option Z) q : quiescer :=
  QuiescerLive (qz_channel_initiator q) (qz_progress q) r (qz_refuse_init q) (qz_resume_queue q) (qz_timeout q)
    (qz_resolved q).
Definition set_timeout (b : bool) q : quiescer :=
  QuiescerLive (qz_channel_initiator q) (qz_progress q) (qz_active_req q) (qz_refuse_init q) (qz_resume_queue q) b
    (qz_resolved q).
Definition set_resume_queue (l : list H) q : quiescer :=
  QuiescerLive (qz_channel_initiator q) (qz_progress q) (qz_active_req q) (qz_refuse_init q) l (qz_timeout q)
    (qz_resolved q).
Definition set_refuse_init (e : option quiescer_error) q : quiescer :=
  QuiescerLive (qz_channel_initiator q) (qz_progress q) (qz_active_req q) e (qz_resume_queue q) (qz_timeout q)
    (qz_resolved q).
(** [req.Resolve] *)
Definition resolve (req : Z) (r : result quiescer_error channel_party) q : quiescer :=
  QuiescerLive (qz_channel_initiator q) (qz_progress q) (qz_active_req q) (qz_refuse_init q) (qz_resume_queue q)
    (qz_timeout q) ((req, r) :: qz_resolved q).

Definition is_quiescent q : bool := qp_sent (qz_progress q) && qp_received (qz_progress q).
Definition owe_stfu q : bool :=
  (qp_received (qz_progress q) || qp_local_init (qz_progress q)) && negb (qp_sent (qz_progress q)).
Definition need_stfu q : bool := qp_sent (qz_progress q) && negb (qp_received (qz_progress q)).
Definition can_send_updates q : bool := negb (qp_sent (qz_progress q)) && negb (qp_local_init (qz_progress q)).
Definition can_recv_updates q : bool := negb (qp_received (qz_progress q)).
Definition can_send_stfu q : bool := negb (qp_sent (qz_progress q)).
Definition can_recv_stfu q : bool := negb (qp_received (qz_progress q)).

Definition quiescence_initiator q : result quiescer_error channel_party :=
  if negb (is_quiescent q) then Err ErrNoQuiescenceInitiator
  else if qp_local_init (qz_progress q) && qp_remote_init (qz_progress q) then Ok (qz_channel_initiator q)
  else if qp_local_init (qz_progress q) then Ok Local
  else if qp_remote_init (qz_progress q) then Ok Remote
  else Err ErrNoQuiescenceInitiator.

Definition try_resolve_stfu_req q : quiescer :=
  match qz_active_req q with
  | Some req => if is_quiescent q then set_active_req None (resolve req (quiescence_initiator q) q) else q
  | None => q
  end.

(** [startTimeout] and [cancelTimeout]; a link sets [onTimeout]. *)
Definition start_timeout q : quiescer := set_timeout true q.
Definition cancel_timeout q : quiescer := set_timeout false q.

Definition start_if_quiescent q : quiescer := if is_quiescent q then start_timeout q else q.

Definition recv_stfu (msg : stfu) q : quiescer * result quiescer_error () :=
  let p := qz_progress q in
  if qp_received p then (q, Err ErrStfuAlreadyRcvd)
  else if negb (qp_sent p) && negb (stfu_initiator msg) then (q, Err ErrInvalidStfu)
  else if negb (can_recv_stfu q) then (q, Err ErrPendingRemoteUpdates)
  else (start_if_quiescent (try_resolve_stfu_req
          (set_progress (Progress (qp_local_init p) (stfu_initiator msg) (qp_sent p) true) q)), Ok ()).

Definition make_stfu q : result quiescer_error stfu :=
  if qp_sent (qz_progress q) then Err ErrStfuAlreadySent
  else if negb (can_send_stfu q) then Err ErrPendingLocalUpdates
  else Ok (Stfu (qp_local_init (qz_progress q))).

(** The message that [sendMsg] is called with, if any. *)
Definition send_owed_stfu q : quiescer * result quiescer_error (option stfu) :=
  if negb (owe_stfu q) || negb (can_send_stfu q) then (q, Ok None)
  else match make_stfu q with
       | Err e => (q, Err e)
       | Ok msg =>
           let p := qz_progress q in
           (start_if_quiescent (try_resolve_stfu_req
              (set_progress (Progress (qp_local_init p) (qp_remote_init p) true (qp_received p)) q)), Ok (Some msg))
       end.

Definition init_stfu (req : Z) q : quiescer :=
  let p := qz_progress q in
  match qz_refuse_init q with
  | Some e => resolve req (Err e) q
  | None =>
      if qp_local_init p then resolve req (Err ErrQuiescenceRequested) q
      else if qp_sent p then
        resolve req (if is_quiescent q then quiescence_initiator q else Err ErrQuiescenceUnderWay) q
      else set_active_req (Some req)
             (set_progress (Progress true (qp_remote_init p) (qp_sent p) (qp_received p)) q)
  end.

Definition refuse_init (e : quiescer_error) q : quiescer * bool :=
  let q := set_refuse_init (Some e) q in
  let p := qz_progress q in
  if negb (qp_local_init p) || qp_sent p then (q, false)
  else
    let q := set_progress (Progress false (qp_remote_init p) (qp_sent p) (qp_received p)) q in
    let q := match qz_active_req q with Some req => resolve req (Err e) q | None => q end in
    (set_active_req None q, true).

Definition on_resume (hook : H) q : quiescer := set_resume_queue (qz_resume_queue q ++ [hook]) q.

Definition assume_quiescent (initiator : channel_party) q : quiescer :=
  start_timeout (set_progress
    (Progress (bool_decide (initiator = Local)) (bool_decide (initiator = Remote)) true true) q).

(** The hooks to run, and the machine after them. *)
Definition resume q : quiescer * list H :=
  (set_resume_queue [] (set_progress (Progress false false false false) (cancel_timeout q)), qz_resume_queue q).
End Quiescer.
Arguments quiescer : clear implicits.
