(* ===== verification/Link.v ===== *)
(** * Links

    The part of htlcswitch/link.go that drives a channel: the handlers of what
    the peer, the switch, the invoice registry and the timers send, as
    functions of the link's state. What a handler does outside the link - the
    messages it sends, the packets it forwards, the circuits and preimages it
    stores - is the list of its effects, in order.

    A connection, a database or a circuit map that fails is not modelled, nor
    are the onions: what a link decides on an HTLC from its onion and the
    registry is an argument ([add_outcome]). There are no splices, and no
    debugging modes (hodl masks, unsafe replay). *)

From S2P Require Import Prelude CircuitMap Chainfee Shachain UpdateLog Channel ChannelRun Quiescer.

(** ** Data *)

(** The messages of the wire that a link sends and takes (lnwire). *)
Inductive wire :=
| UpdateAdd (htlc : update_add_htlc) (blinding_point : bool)
| UpdateFulfill (preimage : bytes) (id : Z)
| UpdateFail (id : Z)
| UpdateFailMalformed (id : Z)
| UpdateFee (fee_per_kw : Z)
| CommitSig (sigs : list bytes)
| RevokeAndAckMsg (msg : revoke_and_ack)
| StfuMsg (msg : stfu)
| Warning
| Error.

(** lnwire/message.go *)
Definition is_channel_update (w : wire) : bool :=
  match w with
  | UpdateAdd _ _ | UpdateFulfill _ _ | UpdateFail _ | UpdateFailMalformed _ | UpdateFee _ => true
  | _ => false
  end.

(** linkfailure.go *)
Inductive error_code :=
| ErrInternalError
| ErrRemoteError
| ErrRemoteUnresponsive
| ErrSyncError
| ErrInvalidUpdate
| ErrInvalidCommitment
| ErrInvalidRevocation
| ErrRecoveryError
| ErrCircuitError
| ErrStfuViolation.
#[export] Instance error_code_eq_decision : EqDecision error_code.
Proof. solve_decision. Defined.

Inductive link_failure_action := LinkFailureForceNone | LinkFailureForceClose | LinkFailureDisconnect.

Record link_failure_error := LinkFailureError {
  lf_code : error_code;
  lf_failure_action : link_failure_action;
  lf_warning : bool;
}.

Inductive down_htlc :=
| DownAdd (htlc : update_add_htlc)
| DownFulfill (preimage : bytes)
| DownFail.

(** A packet of the switch ([htlcPacket]). *)
Record htlc_packet := HtlcPacket {
  hp_in_key : circuit_key;
  hp_incoming_htlc_id : Z;
  hp_htlc : down_htlc;
  hp_obfuscator : option encrypter_type;
}.

(** The packets that a link gives to the switch. *)
Inductive switch_packet :=
| ForwardAdd (incoming_htlc_id : Z)
| ForwardSettle (outgoing_htlc_id : Z) (preimage : bytes)
| ForwardFail (outgoing_htlc_id : Z).

Inductive effect :=
| SendMessage (w : wire)
| ForwardBatch (packets : list switch_packet)
| AddPreimages (preimages : list bytes)
| OpenCircuits (keystones : list (circuit_key * Z))
| DeleteCircuits (keys : list circuit_key)
| AckPacket (key : circuit_key)
| FailAdd (key : circuit_key)
| OnChannelFailure (e : link_failure_error).

(** [invoices.HtlcResolution] *)
Inductive htlc_resolution :=
| HtlcSettleResolution (preimage : bytes)
| HtlcFailResolution.

(** What the onion, the forwarding policy and the registry make of a remote
    HTLC that is locked in. *)
Inductive add_outcome :=
| FailMalformed
| FailBack (e : encrypter_type)
| ResolveNow (r : htlc_resolution) (e : encrypter_type)
| HoldInvoice (e : encrypter_type)
| Forward
| RegistryError.

Record link_config := LinkConfig {
  lc_max_fee_exposure : Z;
  lc_batch_size : Z;
  lc_disallow_route_blinding : bool;
}.

Inductive link_direction := Incoming | Outgoing.

Record link := ChannelLink {
  lk_cfg : link_config;
  lk_channel : channel;
  lk_quiescer : quiescer fwd_pkg;
  lk_failed : bool;
  lk_incoming_add_blocked : bool;
  lk_outgoing_add_blocked : bool;
  lk_reestablished : bool;                 (* ... and its short channel id is known *)
  lk_uncommitted_preimages : list bytes;
  lk_keystone_batch : list (circuit_key * Z);
  lk_opened_circuits : list circuit_key;
  lk_closed_circuits : list circuit_key;
  lk_hodl_map : gmap Z encrypter_type;     (* the HTLCs that an invoice holds, with their obfuscators *)
  lk_effects : list effect;
  lk_calls : nat;                          (* the calls of the channel's methods so far; only counted *)
}.

(** The channel after a call of one of its methods. *)
Definition set_channel (c : channel) (l : link) : link :=
  ChannelLink (lk_cfg l) c (lk_quiescer l) (lk_failed l) (lk_incoming_add_blocked l) (lk_outgoing_add_blocked l)
    (lk_reestablished l) (lk_uncommitted_preimages l) (lk_keystone_batch l) (lk_opened_circuits l)
    (lk_closed_circuits l) (lk_hodl_map l) (lk_effects l) (S (lk_calls l)).
Definition set_quiescer (q : quiescer fwd_pkg) (l : link) : link :=
  ChannelLink (lk_cfg l) (lk_channel l) q (lk_failed l) (lk_incoming_add_blocked l) (lk_outgoing_add_blocked l)
    (lk_reestablished l) (lk_uncommitted_preimages l) (lk_keystone_batch l) (lk_opened_circuits l)
    (lk_closed_circuits l) (lk_hodl_map l) (lk_effects l) (lk_calls l).
Definition set_failed (b : bool) (l : link) : link :=
  ChannelLink (lk_cfg l) (lk_channel l) (lk_quiescer l) b (lk_incoming_add_blocked l) (lk_outgoing_add_blocked l)
    (lk_reestablished l) (lk_uncommitted_preimages l) (lk_keystone_batch l) (lk_opened_circuits l)
    (lk_closed_circuits l) (lk_hodl_map l) (lk_effects l) (lk_calls l).
Definition set_blocked (i o : bool) (l : link) : link :=
  ChannelLink (lk_cfg l) (lk_channel l) (lk_quiescer l) (lk_failed l) i o
    (lk_reestablished l) (lk_uncommitted_preimages l) (lk_keystone_batch l) (lk_opened_circuits l)
    (lk_closed_circuits l) (lk_hodl_map l) (lk_effects l) (lk_calls l).
Definition set_uncommitted_preimages (ps : list bytes) (l : link) : link :=
  ChannelLink (lk_cfg l) (lk_channel l) (lk_quiescer l) (lk_failed l) (lk_incoming_add_blocked l)
    (lk_outgoing_add_blocked l) (lk_reestablished l) ps (lk_keystone_batch l) (lk_opened_circuits l)
    (lk_closed_circuits l) (lk_hodl_map l) (lk_effects l) (lk_calls l).
(** The keystones that wait, and the circuits opened and closed since the last
    signature. *)
Definition set_circuits (ks : list (circuit_key * Z)) (opened closed : list circuit_key) (l : link) : link :=
  ChannelLink (lk_cfg l) (lk_channel l) (lk_quiescer l) (lk_failed l) (lk_incoming_add_blocked l)
    (lk_outgoing_add_blocked l) (lk_reestablished l) (lk_uncommitted_preimages l) ks opened closed
    (lk_hodl_map l) (lk_effects l) (lk_calls l).
Definition set_hodl_map (h : gmap Z encrypter_type) (l : link) : link :=
  ChannelLink (lk_cfg l) (lk_channel l) (lk_quiescer l) (lk_failed l) (lk_incoming_add_blocked l)
    (lk_outgoing_add_blocked l) (lk_reestablished l) (lk_uncommitted_preimages l) (lk_keystone_batch l)
    (lk_opened_circuits l) (lk_closed_circuits l) h (lk_effects l) (lk_calls l).
Definition set_effects (es : list effect) (l : link) : link :=
  ChannelLink (lk_cfg l) (lk_channel l) (lk_quiescer l) (lk_failed l) (lk_incoming_add_blocked l)
    (lk_outgoing_add_blocked l) (lk_reestablished l) (lk_uncommitted_preimages l) (lk_keystone_batch l)
    (lk_opened_circuits l) (lk_closed_circuits l) (lk_hodl_map l) es (lk_calls l).

Definition emit (e : effect) (l : link) : link := set_effects (lk_effects l ++ [e]) l.
Definition send (w : wire) : link → link := emit (SendMessage w).

(** The onion of the HTLC that a party added with an index, hashed: the
    model's HTLCs do not carry it. *)
Class LinkPrims := { onion_hash : channel_party → Z → bytes }.

Section Link.
Context {HP : HashPrims} {CP : ChannelPrims} {LP : LinkPrims}.
Implicit Types l : link.

Definition on_channel {A} (m : M A) l : link * result channel_error A :=
  let '(c, r) := m (lk_channel l) in (set_channel c l, r).

Definition failf (e : link_failure_error) l : link :=
  if lk_failed l then l else emit (OnChannelFailure e) (set_failed true l).

(** [failf] with only a code, and the violations of quiescence *)
Definition fail_code (c : error_code) : link → link := failf (LinkFailureError c LinkFailureForceNone false).
Definition stfu_failf : link → link := failf (LinkFailureError ErrStfuViolation LinkFailureDisconnect true).

(** ** Fee exposure *)

Definition worst_case_fee_rate (c : channel) : Z :=
  let s := lc_channel_state c in
  let local := cm_fee_per_kw (oc_local_commitment s) in
  let remote := cm_fee_per_kw (oc_remote_commitment s) in
  if remote <? local then local else remote.

Definition get_commit_fee (remote : bool) l : Z :=
  let s := lc_channel_state (lk_channel l) in
  if remote then cm_fee (oc_remote_commitment s) else cm_fee (oc_local_commitment s).

(** [getDustClosure] and [dustHelper] *)
Definition dust_closure l (fee_rate : Z) (incoming : bool) (whose : channel_party) (amt : Z) : bool :=
  let p := lc_params (lk_channel l) in
  htlc_is_dust (pr_chan_type p) incoming whose fee_rate amt (cfg_dust_limit (cfg_for p whose)).

Definition exceeds_fee_exposure_limit (fee_per_kw : Z) l : link * result channel_error bool :=
  let local_dust := get_dust_sum Local (Some fee_per_kw) (lk_channel l) in
  let remote_dust := get_dust_sum Remote (Some fee_per_kw) (lk_channel l) in
  match on_channel (commit_fee_total_at fee_per_kw) l with
  | (l, Err e) => (l, Err e)
  | (l, Ok (local_fee, remote_fee)) =>
      let limit := lc_max_fee_exposure (lk_cfg l) in
      (l, Ok ((limit <? u64 (local_dust + msat_of_sat local_fee)) ||
              (limit <? u64 (remote_dust + msat_of_sat remote_fee))))
  end.

Definition is_overexposed_with_htlc (htlc : update_add_htlc) (incoming : bool) l : bool :=
  let fee_rate := worst_case_fee_rate (lk_channel l) in
  let amount := to_satoshis (uah_amount htlc) in
  let commit_fee := if get_commit_fee false l <? get_commit_fee true l then get_commit_fee true l
                    else get_commit_fee false l in
  let additional := msat_of_sat (fee_for_weight fee_rate htlc_weight) in
  let total whose :=
    let sum := u64 (get_dust_sum whose None (lk_channel l) + msat_of_sat commit_fee) in
    u64 (sum + if dust_closure l fee_rate incoming whose amount then msat_of_sat amount else additional) in
  let limit := lc_max_fee_exposure (lk_cfg l) in
  (limit <? total Local) || (limit <? total Remote).

(** ** Signing *)

(** The circuits of a signed commitment are settled, then their packets. *)
Definition ack_down_stream_packets l : link :=
  let l := foldl (λ l k, emit (AckPacket k) l) l (lk_opened_circuits l) in
  let l := emit (DeleteCircuits (lk_closed_circuits l)) l in
  let l := foldl (λ l k, emit (AckPacket k) l) l (lk_closed_circuits l) in
  set_circuits (lk_keystone_batch l) [] [] l.

Definition is_no_window (e : channel_error) : bool := match e with ErrNoWindow => true | _ => false end.

Definition update_commit_tx l : link * result channel_error () :=
  let l := emit (OpenCircuits (lk_keystone_batch l)) l in
  let l := set_circuits [] (lk_opened_circuits l) (lk_closed_circuits l) l in
  match on_channel sign_next_commitment l with
  | (l, Err e) => (l, if is_no_window e then Ok () else Err e)
  | (l, Ok sigs) => (send (CommitSig sigs) (ack_down_stream_packets l), Ok ())
  end.

Definition update_commit_tx_or_fail l : link * bool :=
  match update_commit_tx l with
  | (l, Ok _) => (l, true)
  | (l, Err _) => (fail_code ErrInternalError l, false)
  end.

Definition try_batch_update_commit_tx l : link :=
  if num_pending_updates Local Remote (lk_channel l) <? lc_batch_size (lk_cfg l) then l
  else (update_commit_tx_or_fail l).1.

Definition no_dangling_updates (whose : channel_party) (c : channel) : bool :=
  (num_pending_updates whose Local c =? 0) && (num_pending_updates whose Remote c =? 0).

(** ** Quiescence *)

(** [SendOwedStfu] with the link's [sendMsg] *)
Definition send_owed l : link * result quiescer_error () :=
  match send_owed_stfu (lk_quiescer l) with
  | (q, Ok (Some msg)) => (send (StfuMsg msg) (set_quiescer q l), Ok ())
  | (q, Ok None) => (set_quiescer q l, Ok ())
  | (q, Err e) => (set_quiescer q l, Err e)
  end.

Definition handle_stfu (msg : stfu) l : link * result quiescer_error () :=
  if negb (no_dangling_updates Remote (lk_channel l)) then (l, Err ErrPendingRemoteUpdates)
  else match recv_stfu msg (lk_quiescer l) with
       | (q, Err e) => (set_quiescer q l, Err e)
       | (q, Ok _) =>
           let l := set_quiescer q l in
           if no_dangling_updates Local (lk_channel l) then send_owed l else (l, Ok ())
       end.

Definition handle_quiescence_req (req : Z) l : link :=
  let l := set_quiescer (init_stfu req (lk_quiescer l)) l in
  if negb (no_dangling_updates Local (lk_channel l)) then l
  else match send_owed l with
       | (l, Ok _) => l
       | (l, Err e) => let l := stfu_failf l in set_quiescer (resolve req (Err e) (lk_quiescer l)) l
       end.

(** ** Settling and failing HTLCs *)

Definition send_incoming_htlc_failure_msg (id : Z) (e : option encrypter_type) : link → link :=
  send match e with
       | Some EncrypterTypeRelaying => UpdateFailMalformed id
       | _ => UpdateFail id
       end.

Definition send_htlc_error (id : Z) (e : encrypter_type) l : link :=
  match on_channel (fail_htlc id) l with
  | (l, Err _) => l
  | (l, Ok _) => send_incoming_htlc_failure_msg id (Some e) l
  end.

Definition send_malformed_htlc_error (id : Z) l : link :=
  match on_channel (malformed_fail_htlc id) l with
  | (l, Err _) => l
  | (l, Ok _) => send (UpdateFailMalformed id) l
  end.

Definition settle_htlc_msg (preimage : bytes) (id : Z) l : link * result channel_error () :=
  match on_channel (settle_htlc preimage id) l with
  | (l, Err e) => (l, Err e)
  | (l, Ok _) => (send (UpdateFulfill preimage id) l, Ok ())
  end.

Definition process_htlc_resolution (r : htlc_resolution) (id : Z) (e : encrypter_type) l :
    link * result channel_error () :=
  match r with
  | HtlcSettleResolution preimage => settle_htlc_msg preimage id l
  | HtlcFailResolution => (send_htlc_error id e l, Ok ())
  end.

(** One HTLC of [processRemoteAdds]: the link, the packet for the switch, and
    whether the loop goes on. *)
Definition process_remote_add (pd : payment_descriptor) (o : add_outcome) l : link * list switch_packet * bool :=
  let id := pd_htlc_index pd in
  match o with
  | FailMalformed => (send_malformed_htlc_error id l, [], true)
  | FailBack e => (send_htlc_error id e l, [], true)
  | ResolveNow r e =>
      match process_htlc_resolution r id e l with
      | (l, Ok _) => (l, [], true)
      | (l, Err _) => (fail_code ErrInternalError l, [], false)
      end
  | HoldInvoice e => (set_hodl_map (<[id := e]> (lk_hodl_map l)) l, [], true)
  | Forward => (l, [ForwardAdd id], true)
  | RegistryError => (fail_code ErrInternalError l, [], false)
  end.

Fixpoint process_remote_adds_loop (decide_add : payment_descriptor → add_outcome) (adds : list payment_descriptor)
    (packets : list switch_packet) l : link :=
  match adds with
  | [] => match packets with [] => l | _ => emit (ForwardBatch packets) l end
  | pd :: adds =>
      match process_remote_add pd (decide_add pd) l with
      | (l, ps, true) => process_remote_adds_loop decide_add adds (packets ++ ps) l
      | (l, _, false) => l
      end
  end.

Definition process_remote_adds (decide_add : payment_descriptor → add_outcome) (pkg : fwd_pkg) : link → link :=
  process_remote_adds_loop decide_add (fp_adds pkg) [].

Definition process_remote_settle_fails (pkg : fwd_pkg) l : link :=
  let packet pd :=
    match pd_entry_type pd with
    | Settle => [ForwardSettle (pd_parent_index pd) (pd_rpreimage pd)]
    | Fail => [ForwardFail (pd_parent_index pd)]
    | _ => []
    end in
  match flat_map packet (fp_settle_fails pkg) with
  | [] => l
  | ps => emit (ForwardBatch ps) l
  end.

(** ** The peer's messages *)

Definition process_remote_update_add_htlc (htlc : update_add_htlc) (blinding_point : bool) l : link :=
  if lk_incoming_add_blocked l then failf (LinkFailureError ErrInvalidUpdate LinkFailureDisconnect true) l
  else if blinding_point && lc_disallow_route_blinding (lk_cfg l) then fail_code ErrInvalidUpdate l
  else if is_overexposed_with_htlc htlc true l then fail_code ErrInternalError l
  else match on_channel (receive_htlc htlc) l with
       | (l, Ok _) => l
       | (l, Err _) => fail_code ErrInvalidUpdate l
       end.

(** channeldb's [ActiveHtlcs], the outgoing ones: the indexes of our HTLCs on
    both commitments on disk, which are matched by their onions. *)
Definition active_outgoing_htlcs (c : channel) : list Z :=
  let s := lc_channel_state c in
  let onions cm := map (λ pd, onion_hash Local (pd_htlc_index pd)) (cm_outgoing cm) ++
                   map (λ pd, onion_hash Remote (pd_htlc_index pd)) (cm_incoming cm) in
  List.filter (λ i, bool_decide (onion_hash Local i ∈ onions (oc_remote_commitment s)))
    (map pd_htlc_index (cm_outgoing (oc_local_commitment s))).

Definition process_remote_update_fulfill_htlc (preimage : bytes) (id : Z) l : link :=
  if negb (bool_decide (id ∈ active_outgoing_htlcs (lk_channel l))) then fail_code ErrInvalidUpdate l
  else match on_channel (receive_htlc_settle preimage id) l with
       | (l, Err _) => failf (LinkFailureError ErrInvalidUpdate LinkFailureForceClose false) l
       | (l, Ok _) =>
           emit (ForwardBatch [ForwardSettle id preimage])
             (set_uncommitted_preimages (lk_uncommitted_preimages l ++ [preimage]) l)
       end.

(** [processRemoteUpdateFailHTLC] and [processRemoteUpdateFailMalformedHTLC],
    which differ in the reason that they record. *)
Definition process_remote_update_fail_htlc (id : Z) l : link :=
  match on_channel (receive_fail_htlc id) l with
  | (l, Ok _) => l
  | (l, Err _) => fail_code ErrInvalidUpdate l
  end.

Definition process_remote_update_fee (fee_per_kw : Z) l : link :=
  if pr_is_initiator (lc_params (lk_channel l)) then fail_code ErrInvalidUpdate l
  else match exceeds_fee_exposure_limit fee_per_kw l with
       | (l, Err _) | (l, Ok true) => fail_code ErrInternalError l
       | (l, Ok false) =>
           match on_channel (receive_update_fee fee_per_kw) l with
           | (l, Ok _) => l
           | (l, Err _) => fail_code ErrInvalidUpdate l
           end
       end.

(** The end of [processRemoteCommitSig]: an owed [Stfu] can go out when all
    our updates are committed. *)
Definition send_owed_if_clean l : link :=
  if no_dangling_updates Local (lk_channel l) then
    match send_owed l with
    | (l, Ok _) => l
    | (l, Err _) => stfu_failf l
    end
  else l.

Definition process_remote_commit_sig (sigs : list bytes) l : link :=
  let l := emit (AddPreimages (lk_uncommitted_preimages l)) l in
  let l := set_uncommitted_preimages [] l in
  match on_channel (receive_new_commitment sigs) l with
  | (l, Err _) => failf (LinkFailureError ErrInvalidCommitment LinkFailureForceClose false) l
  | (l, Ok _) =>
      match on_channel revoke_current_commitment l with
      | (l, Err _) => failf (LinkFailureError ErrInternalError LinkFailureDisconnect true) l
      | (l, Ok (next_revocation, _, _)) =>
          let l := send (RevokeAndAckMsg next_revocation) l in
          if owe_commitment Local (lk_channel l) then
            match update_commit_tx_or_fail l with
            | (l, true) => send_owed_if_clean l
            | (l, false) => l
            end
          else send_owed_if_clean l
      end
  end.

Definition process_remote_revoke_and_ack (decide_add : payment_descriptor → add_outcome) (msg : revoke_and_ack) l :
    link :=
  match on_channel (receive_revocation msg) l with
  | (l, Err _) => failf (LinkFailureError ErrInvalidRevocation LinkFailureDisconnect false) l
  | (l, Ok (pkg, _)) =>
      let l := if can_send_updates (lk_quiescer l) then process_remote_adds decide_add pkg l
               else set_quiescer (on_resume pkg (lk_quiescer l)) l in
      let l := process_remote_settle_fails pkg l in
      if lk_failed l then l
      else if owe_commitment Local (lk_channel l) then (update_commit_tx_or_fail l).1 else l
  end.

Definition process_upstream_msg (decide_add : payment_descriptor → add_outcome) (w : wire) l : link :=
  if is_channel_update w && negb (can_recv_updates (lk_quiescer l)) then stfu_failf l
  else match w with
       | UpdateAdd htlc blinding_point => process_remote_update_add_htlc htlc blinding_point l
       | UpdateFulfill preimage id => process_remote_update_fulfill_htlc preimage id l
       | UpdateFail id | UpdateFailMalformed id => process_remote_update_fail_htlc id l
       | UpdateFee rate => process_remote_update_fee rate l
       | CommitSig sigs => process_remote_commit_sig sigs l
       | RevokeAndAckMsg msg => process_remote_revoke_and_ack decide_add msg l
       | StfuMsg msg => match handle_stfu msg l with
                        | (l, Ok _) => l
                        | (l, Err _) => stfu_failf l
                        end
       | Warning => l
       | Error => fail_code ErrRemoteError l
       end.

(** ** The switch *)

Definition handle_downstream_update_add (pkt : htlc_packet) (htlc : update_add_htlc) l : link :=
  if lk_outgoing_add_blocked l || negb (can_send_updates (lk_quiescer l)) then emit (FailAdd (hp_in_key pkt)) l
  else if is_overexposed_with_htlc htlc false l then emit (FailAdd (hp_in_key pkt)) l
  else match on_channel (add_htlc htlc) l with
       | (l, Err _) => emit (FailAdd (hp_in_key pkt)) l
       | (l, Ok index) =>
           let htlc := UpdateAddHTLC index (uah_amount htlc) (uah_payment_hash htlc) (uah_expiry htlc) (uah_noop htlc) in
           let l := set_circuits (lk_keystone_batch l ++ [(hp_in_key pkt, index)])
                      (lk_opened_circuits l ++ [hp_in_key pkt]) (lk_closed_circuits l) l in
           try_batch_update_commit_tx (send (UpdateAdd htlc false) l)
       end.

Definition close_circuit (k : circuit_key) l : link :=
  set_circuits (lk_keystone_batch l) (lk_opened_circuits l) (lk_closed_circuits l ++ [k]) l.

Definition process_local_update_fulfill_htlc (pkt : htlc_packet) (preimage : bytes) l : link :=
  match on_channel (settle_htlc preimage (hp_incoming_htlc_id pkt)) l with
  | (l, Err _) => emit (AckPacket (hp_in_key pkt)) l
  | (l, Ok _) =>
      let l := close_circuit (hp_in_key pkt) l in
      (update_commit_tx_or_fail (send (UpdateFulfill preimage (hp_incoming_htlc_id pkt)) l)).1
  end.

Definition process_local_update_fail_htlc (pkt : htlc_packet) l : link :=
  match on_channel (fail_htlc (hp_incoming_htlc_id pkt)) l with
  | (l, Err _) => emit (AckPacket (hp_in_key pkt)) l
  | (l, Ok _) =>
      let l := close_circuit (hp_in_key pkt) l in
      (update_commit_tx_or_fail
         (send_incoming_htlc_failure_msg (hp_incoming_htlc_id pkt) (hp_obfuscator pkt) l)).1
  end.

(** A packet that comes while the channel is quiescent stays in the mailbox. *)
Definition handle_downstream_pkt (pkt : htlc_packet) l : link :=
  if negb (can_send_updates (lk_quiescer l)) then l
  else match hp_htlc pkt with
       | DownAdd htlc => handle_downstream_update_add pkt htlc l
       | DownFulfill preimage => process_local_update_fulfill_htlc pkt preimage l
       | DownFail => process_local_update_fail_htlc pkt l
       end.

(** ** Fees, invoices, requests *)

Definition should_adjust_commit_fee (net_fee chan_fee min_relay_fee : Z) : bool :=
  ((chan_fee <? net_fee) && (chan_fee <? min_relay_fee)) ||
  ((chan_fee <? net_fee) && (i64 (chan_fee + Z.quot (i64 (chan_fee * 10)) 100) <=? net_fee)) ||
  ((net_fee <? chan_fee) && (net_fee <=? i64 (chan_fee - Z.quot (i64 (chan_fee * 10)) 100))).

Definition eligible_to_update l : bool :=
  match oc_remote_next_revocation (lc_channel_state (lk_channel l)) with Some _ => true | None => false end &&
  lk_reestablished l && can_send_updates (lk_quiescer l).

Inductive fee_error := FeeThresholdExceeded | FeeChannel (e : channel_error) | FeeCommitment (e : channel_error).

Definition update_channel_fee (fee_per_kw : Z) l : link * result fee_error () :=
  if negb (eligible_to_update l) then (l, Ok ())
  else match exceeds_fee_exposure_limit fee_per_kw l with
       | (l, Err e) => (l, Err (FeeChannel e))
       | (l, Ok true) => (l, Err FeeThresholdExceeded)
       | (l, Ok false) =>
           match on_channel (update_fee fee_per_kw) l with
           | (l, Err e) => (l, Err (FeeChannel e))
           | (l, Ok _) =>
               let '(l, r) := update_commit_tx (send (UpdateFee (u32 fee_per_kw)) l) in
               (l, map_err FeeCommitment r)
           end
       end.

(** [handleUpdateFee], from the rate that [IdealCommitFeeRate] gives *)
Definition handle_update_fee (new_commit_fee min_relay_fee : Z) l : link * result fee_error () :=
  if negb (pr_is_initiator (lc_params (lk_channel l))) then (l, Ok ())
  else
    let commit_fee := cm_fee_per_kw (oc_local_commitment (lc_channel_state (lk_channel l))) in
    if negb (should_adjust_commit_fee new_commit_fee commit_fee min_relay_fee) then (l, Ok ())
    else update_channel_fee new_commit_fee l.

(** [processHodlQueue] over the resolutions that wait in its queue: whether
    they are processed and signed for. *)
Fixpoint process_hodl_queue (rs : list (Z * htlc_resolution)) l : link * bool :=
  match rs with
  | [] => match update_commit_tx l with
          | (l, Ok _) => (l, true)
          | (l, Err _) => (l, false)
          end
  | (id, r) :: rs =>
      match lk_hodl_map l !! id with
      | None => (l, false)
      | Some e =>
          match process_htlc_resolution r id e l with
          | (l, Err _) => (l, false)
          | (l, Ok _) => process_hodl_queue rs (set_hodl_map (delete id (lk_hodl_map l)) l)
          end
      end
  end.

Definition handle_htlc_resolution (r : Z * htlc_resolution) (rs : list (Z * htlc_resolution)) l : link :=
  match process_hodl_queue (r :: rs) l with
  | (l, true) => l
  | (l, false) => fail_code ErrInternalError l
  end.

(** [resumeQuiescence]: the deferred HTLCs first, then the machine *)
Definition resume_quiescence (decide_add : payment_descriptor → add_outcome) l : link :=
  if negb (is_quiescent (lk_quiescer l)) then l
  else
    let l := foldl (λ l pkg, process_remote_adds decide_add pkg l) l (qz_resume_queue (lk_quiescer l)) in
    let l := set_quiescer (resume (lk_quiescer l)).1 l in
    if owe_commitment Local (lk_channel l) then (update_commit_tx_or_fail l).1 else l.

(** [EnableAdds] and [DisableAdds], and whether they changed anything *)
Definition block_adds (b : bool) (d : link_direction) l : link * bool :=
  match d with
  | Incoming => (set_blocked b (lk_outgoing_add_blocked l) l, xorb b (lk_incoming_add_blocked l))
  | Outgoing => (set_blocked (lk_incoming_add_blocked l) b l, xorb b (lk_outgoing_add_blocked l))
  end.

Definition shutdown_received l : link := set_quiescer (refuse_init ErrShutdownReceived (lk_quiescer l)).1 l.

(** ** The event loop *)

(** One round of [htlcManager]. The HTLCs that a revocation or a resumption
    locks in are decided on by [decide_add]. *)
Inductive link_event :=
| Upstream (w : wire) (decide_add : payment_descriptor → add_outcome)
| Downstream (pkt : htlc_packet)
| BatchTick
| PendingCommitTick
| UpdateFeeTimer (new_commit_fee min_relay_fee : Z)
| HodlQueue (r : Z * htlc_resolution) (rs : list (Z * htlc_resolution))
| QuiescenceReq (req : Z)
| ResumeReq (decide_add : payment_descriptor → add_outcome)
| BlockAdds (b : bool) (d : link_direction)
| ShutdownReceived.

(** The link after an event, and the error that the loop only logs. *)
Definition htlc_manager (ev : link_event) l : link * result fee_error () :=
  match ev with
  | Upstream w decide_add => (process_upstream_msg decide_add w l, Ok ())
  | Downstream pkt => (handle_downstream_pkt pkt l, Ok ())
  | BatchTick => ((update_commit_tx_or_fail l).1, Ok ())
  | PendingCommitTick => (failf (LinkFailureError ErrRemoteUnresponsive LinkFailureDisconnect false) l, Ok ())
  | UpdateFeeTimer new_commit_fee min_relay_fee => handle_update_fee new_commit_fee min_relay_fee l
  | HodlQueue r rs => (handle_htlc_resolution r rs l, Ok ())
  | QuiescenceReq req => (handle_quiescence_req req l, Ok ())
  | ResumeReq decide_add => (resume_quiescence decide_add l, Ok ())
  | BlockAdds b d => ((block_adds b d l).1, Ok ())
  | ShutdownReceived => (shutdown_received l, Ok ())
  end.
End Link.
