(* ===== verification/LinkProtocol.v ===== *)
(** * The protocol of two links

    What links do to their channels and quiescers, one call at a time, and the
    messages between them. [LinkRefine] shows that the handlers of [Link] do
    nothing else. Here: a run of the protocol is a run of the channels
    ([ChannelPeers]); and where the nodes stop their updates as quiescence
    asks, no [Stfu] is refused and quiescence comes with a channel at rest. *)

From S2P Require Import Prelude Chainfee Shachain UpdateLog Channel ChannelToy ChannelLog ChannelView ChannelInv.
From S2P Require Import ChannelCommit ChannelAfter ChannelSteps ChannelRun ChannelHist ChannelPast ChannelCompact.
From S2P Require Import ChannelClosed ChannelPastSteps ChannelPeers ChannelSystem ChannelAgreement Quiescer Link.

(** ** Steps *)

Definition chan_message (w : wire) : option message :=
  match w with
  | UpdateAdd htlc _ => Some (MsgAdd htlc)
  | UpdateFulfill preimage i => Some (MsgSettle preimage i)
  | UpdateFail i | UpdateFailMalformed i => Some (MsgFail i)
  | UpdateFee rate => Some (MsgFee rate)
  | CommitSig sigs => Some (MsgCommitSig sigs)
  | RevokeAndAckMsg msg => Some (MsgRevoke msg)
  | StfuMsg _ | Warning | Error => None
  end.

Definition messages (ws : list wire) : list message := omap chan_message ws.

Definition stfu_of (w : wire) : option stfu := match w with StfuMsg s => Some s | _ => None end.
Definition stfus (ws : list wire) : list stfu := omap stfu_of ws.

Definition no_updates (ws : list wire) : Prop := Forall (λ w, is_channel_update w = false) ws.

Definition node : Type := channel * quiescer fwd_pkg.

(** How far the negotiation is stays, but for a claim to start it. *)
Definition calm (p p' : progress) : Prop :=
  qp_sent p' = qp_sent p ∧ qp_received p' = qp_received p ∧ qp_remote_init p' = qp_remote_init p ∧
  (qp_sent p = true → qp_local_init p' = qp_local_init p).

Section Steps.
Context {HP : HashPrims} {CP : ChannelPrims}.

(** What a node does by itself, with the messages it sends and the number of
    calls of its channel. A polite node stops its updates for quiescence, and
    does not end quiescence. *)
Inductive node_step (polite : bool) : nat → node → list wire → node → Prop :=
| NsOp op c q c' ws :
    own_op op = true → op_ok op → run_op op c = Some c' → messages ws = sent op c → stfus ws = [] →
    (polite = true → no_updates ws ∨ can_send_updates q = true) →
    node_step polite 1 (c, q) ws (c', q)
| NsStfu c q q' msg :
    no_dangling_updates Local c = true → send_owed_stfu q = (q', Ok (Some msg)) →
    node_step polite 0 (c, q) [StfuMsg msg] (c, q')
| NsQuiet n c q q' :
    (polite = true → calm (qz_progress q) (qz_progress q')) →
    qz_channel_initiator q' = qz_channel_initiator q → node_step polite n (c, q) [] (c, q').

(** What a node does with a message. *)
Inductive node_take (polite : bool) : wire → node → node → Prop :=
| NtChannel w m c q c' :
    chan_message w = Some m → accepted m c = true → run_op (receive_op m) c = Some c' →
    node_take polite w (c, q) (c', q)
| NtStfu c q q' msg :
    no_dangling_updates Remote c = true → recv_stfu msg q = (q', Ok ()) →
    node_take polite (StfuMsg msg) (c, q) (c, q')
| NtWarning x : node_take polite Warning x x.

(** The calls that taking a message makes. *)
Definition take_calls (w : wire) : nat := match chan_message w with Some _ => 1 | None => 0 end.

Record pair := Pair { pn_node : channel_party → node; pn_wire : channel_party → list wire }.

Inductive pair_step (polite : bool) : nat → pair → pair → Prop :=
| PsOwn k s p ws x :
    node_step polite k (pn_node s p) ws x →
    pair_step polite k s (Pair (update_at p x (pn_node s)) (update_at p (pn_wire s p ++ ws) (pn_wire s)))
| PsDeliver s p w ws x :
    pn_wire s (counter_party p) = w :: ws → node_take polite w (pn_node s p) x →
    pair_step polite (take_calls w) s (Pair (update_at p x (pn_node s)) (update_at (counter_party p) ws (pn_wire s))).

(** *** Runs of the protocol are runs of the channels *)

Definition projects (s : pair) (t : peers) : Prop :=
  ∀ p, pe_node t p = (pn_node s p).1 ∧ pe_link t p = messages (pn_wire s p).

Lemma messages_app ws ws' : messages (ws ++ ws') = messages ws ++ messages ws'.
Proof. apply omap_app. Qed.

Lemma update_proj {A B} (f : A → B) p (x : A) g q : f (update_at p x g q) = update_at p (f x) (λ q, f (g q)) q.
Proof. unfold update_at. by case_decide. Qed.
Lemma update_self {A} p (g : channel_party → A) q : update_at p (g p) g q = g q.
Proof. unfold update_at. case_decide; [by subst | done]. Qed.
Lemma update_ext {A} p (x : A) g g' q : (∀ r, g r = g' r) → update_at p x g q = update_at p x g' q.
Proof. intros E. unfold update_at. by case_decide. Qed.

Lemma pair_step_peers polite k s s' t :
  projects s t → pair_step polite k s s' → projects s' t ∨ ∃ t', peers_step t t' ∧ projects s' t' ∧ k = 1%nat.
Proof.
  intros Ht Hst. destruct Hst as [k s p ws x Hn|s p w ws x Hw Hn].
  - destruct (Ht p) as [E1 E2]. destruct (pn_node s p) as [c q] eqn:Ex. simpl in E1.
    inversion Hn as [op ? ? c' ? Hop Hok Hrun Hsent _ _|? ? q' msg _ _|? ? ? q' _ _]; subst.
    + right. eexists. split_and!; [by eapply (StepOwn t p op c') | | done].
      intros r. cbn [pe_node pe_link pn_node pn_wire]. destruct (Ht r) as [F1 F2]. unfold update_at.
      case_decide; subst; [|done]. by rewrite messages_app, Hsent, E2.
    + left. intros r. destruct (Ht r) as [F1 F2]. cbn [pn_node pn_wire]. unfold update_at.
      case_decide; subst; [|done]. rewrite messages_app. simpl. by rewrite app_nil_r.
    + left. intros r. destruct (Ht r) as [F1 F2]. cbn [pn_node pn_wire]. unfold update_at.
      case_decide; subst; [|done]. by rewrite app_nil_r.
  - destruct (Ht p) as [E1 E2]. destruct (Ht (counter_party p)) as [E3 E4]. rewrite Hw in E4.
    destruct (pn_node s p) as [c q] eqn:Ex. simpl in E1.
    inversion Hn as [? m ? ? c' Hm Hacc Hrun|? ? q' msg _ _|]; subst.
    + right. simpl in E4. rewrite Hm in E4. eexists. split_and!; [|  | unfold take_calls; by rewrite Hm].
      { by eapply (StepDeliver t p m (messages ws) c'). }
      intros r. destruct (Ht r) as [F1 F2]. cbn [pe_node pe_link pn_node pn_wire]. unfold update_at.
      split; by case_decide; subst.
    + left. intros r. destruct (Ht r) as [F1 F2]. cbn [pn_node pn_wire]. unfold update_at.
      split; case_decide; subst; done.
    + left. intros r. destruct (Ht r) as [F1 F2]. cbn [pn_node pn_wire]. unfold update_at.
      split; case_decide; subst; done.
Qed.

(** Runs, with the number of calls. *)
Inductive pair_steps (polite : bool) : nat → pair → pair → Prop :=
| PsNil s : pair_steps polite 0 s s
| PsCons k m s s1 s2 : pair_step polite k s s1 → pair_steps polite m s1 s2 → pair_steps polite (k + m) s s2.

Lemma pair_steps_app polite k m s s1 s2 :
  pair_steps polite k s s1 → pair_steps polite m s1 s2 → pair_steps polite (k + m) s s2.
Proof.
  intros H1 H2. induction H1 as [|k k' s s1 s3 Hst Hsts IH]; [done|].
  rewrite <-Nat.add_assoc. by econstructor; [|apply IH].
Qed.

Lemma pair_steps_peers polite k s s' u :
  projects s u → pair_steps polite k s s' → ∃ m u', nsteps peers_step m u u' ∧ projects s' u' ∧ (m ≤ k)%nat.
Proof.
  intros Hu H. revert u Hu. induction H as [s|k m s s1 s2 Hst Hsts IH]; intros u Hu.
  - exists 0%nat, u. split_and!; [constructor | done | lia].
  - destruct (pair_step_peers polite k s s1 u Hu Hst) as [Hu1|(u1 & Hp & Hu1 & ->)].
    + destruct (IH u Hu1) as (m' & u' & H1 & H2 & H3). exists m', u'. split_and!; [done | done | lia].
    + destruct (IH u1 Hu1) as (m' & u' & H1 & H2 & H3). exists (S m'), u'.
      split_and!; [by econstructor | done | lia].
Qed.

(** The channels of a pair, and what is on the wires for them. *)
Definition channels (s : pair) : peers := Peers (λ p, (pn_node s p).1) (λ p, messages (pn_wire s p)).

Lemma projects_channels s : projects s (channels s).
Proof. done. Qed.
End Steps.

(** ** Channels at rest *)

(** All that the node has added is on its own newest commitment, and so on
    every newest one. *)
Definition rested (who : channel_party) (c : channel) : Prop :=
  idx (tip (chain_of c who)) who = ul_log_index (log_of c who).

Definition positive (c : channel) : Prop := ∀ w x p, x ∈ chain_list (chain_of c w) → 0 ≤ idx x p.

Section Rest.
Context {HP : HashPrims} {CP : ChannelPrims}.

Lemma rested_no_dangling t n who c :
  chan_ok t n c → n < 2 ^ 64 → positive c → no_dangling_updates who c = true ↔ rested who c.
Proof.
  intros H Hn Hp. unfold no_dangling_updates, num_pending_updates, rested.
  change (get_for_party (cm_message_indices ?x) who) with (idx x who).
  pose proof (ck_own _ _ _ H) as Ho. pose proof (proj1 (ck_bound _ _ _ H who)) as Hb.
  pose proof (Hp Local _ who (tip_elem _)). pose proof (Hp Remote _ who (tip_elem _)).
  pose proof (Ho Local who). pose proof (Ho Remote who).
  rewrite !u64_small by in_range. rewrite andb_true_iff, !Z.eqb_eq.
  pose proof (ck_order _ _ _ H) as [O1 O2].
  pose proof (tail_tip t n c Local Remote H). pose proof (tail_tip t n c Remote Local H).
  destruct who; split; intros; try split; lia.
Qed.

Lemma move_positive c h i e c' h' : move c h i e c' h' → chan_hist h c → positive c → positive c'.
Proof.
  intros Hm Hh Hp w x p Hx.
  assert (∀ q y (d : dual Z), chain_of c' q = add_commitment y (chain_of c q) →
    chain_of c' (counter_party q) = chain_of c (counter_party q) → cm_message_indices y = d →
    0 ≤ dual_local d → 0 ≤ dual_remote d → 0 ≤ idx x p) as Hadd.
  { intros q y d Ec Eo Ei Hl Hr. destruct (party_cases q w) as [-> | ->]; [|by rewrite Eo in Hx; eapply Hp].
    rewrite Ec, chain_list_add in Hx. apply elem_of_app in Hx as [Hx| ->%list_elem_of_singleton]; [by eapply Hp|].
    unfold idx. rewrite Ei. by destruct p. }
  assert (∀ q, advances c c' q → 0 ≤ idx x p) as Hadv.
  { intros q (_ & Ha & Eo). destruct (party_cases q w) as [-> | ->]; [|by rewrite Eo in Hx; eapply Hp].
    apply advance_list in Ha. apply (Hp q x p). rewrite Ha. by right. }
  inversion Hm as [? [_ Hk]|? ? [_ Hk]|? ? [_ Hk]|y ? _ [_ Ec Eo _ Ei]|y ? [_ Ec Eo _ Ei]|? Ha|? Ha]; subst.
  1-3: rewrite Hk in Hx; by eapply Hp.
  - eapply Hadd; [exact Ec | exact Eo | exact Ei | simpl; lia | apply (Hp Local _ Remote), tail_elem].
  - eapply Hadd; [exact Ec | exact Eo | exact Ei | apply (Hp Remote _ Local), tail_elem | simpl; lia].
  - by eapply Hadv.
  - by eapply Hadv.
Qed.

Lemma move_rested t n c h i e c' h' :
  move c h i e c' h' → chan_ok t n c → (∀ up, i ≠ Some (EUpdate up)) →
  idx (tip (chain_of c Local)) Local = Z.of_nat (length (dual_local h)) → chan_hist h c →
  idx (tip (chain_of c' Local)) Local = Z.of_nat (length (dual_local h')).
Proof.
  intros Hm Hok Hi Hr Hh. pose proof (ck_order _ _ _ Hok) as [O1 _].
  pose proof (own_length h c Local Remote t n Hok Hh) as Hl. cbn [get_for_party] in Hl.
  pose proof (tail_tip t n c Remote Local Hok) as Htt.
  inversion Hm as [? [_ Hk]|up ? _ _|up ? [_ Hk]|y ? _ [_ Ec Eo _ Ei]|y ? [_ Ec Eo _ Ei]|? (_ & Ha & Eo)|? (_ & Ha & Eo)];
    subst; cbn [counter_party] in *.
  - by rewrite Hk.
  - by destruct (Hi up).
  - rewrite Hk. exact Hr.
  - by rewrite Eo.
  - rewrite Ec, tip_add. unfold idx at 1. rewrite Ei. cbn [get_for_party dual_local] in *. lia.
  - by rewrite (advance_tip _ _ Ha).
  - by rewrite Eo.
Qed.

(** Messages that are not updates carry no updates. *)
Lemma no_updates_events ws es up : Forall2 carries (messages ws) es → no_updates ws → EUpdate up ∉ es.
Proof.
  revert es. induction ws as [|w ws IH]; intros es Hc Hn; simpl in Hc.
  - apply Forall2_nil_inv_l in Hc as ->. by intros ?%elem_of_nil.
  - apply Forall_cons in Hn as [Hw Hn]. destruct (chan_message w) as [m|] eqn:Em; [|by apply IH].
    apply Forall2_cons_inv_l in Hc as (e & es' & Hce & Hc & ->). intros [<-|Hin]%elem_of_cons; [|by eapply IH].
    destruct w; simpl in Em, Hw; try done; injection Em as <-; inversion Hce.
Qed.
End Rest.

(** ** The negotiation *)

Lemma recv_stfu_Ok {H} msg (q q' : quiescer H) :
  recv_stfu msg q = (q', Ok ()) →
  qp_received (qz_progress q) = false ∧ (qp_sent (qz_progress q) = true ∨ stfu_initiator msg = true) ∧
  qz_progress q' = Progress (qp_local_init (qz_progress q)) (stfu_initiator msg) (qp_sent (qz_progress q)) true ∧
  qz_channel_initiator q' = qz_channel_initiator q.
Proof.
  unfold recv_stfu. destruct (qp_received _) eqn:Er; [done|].
  destruct (negb (qp_sent _) && negb _) eqn:E; [done|]. unfold can_recv_stfu. rewrite Er. cbn [negb].
  intros [= <-]. split_and!; [done | | |].
  - destruct (qp_sent _); [by left | right]. by destruct (stfu_initiator msg).
  - unfold start_if_quiescent, try_resolve_stfu_req. by repeat case_match.
  - unfold start_if_quiescent, try_resolve_stfu_req. by repeat case_match.
Qed.

Lemma send_owed_stfu_Some {H} msg (q q' : quiescer H) :
  send_owed_stfu q = (q', Ok (Some msg)) →
  qp_sent (qz_progress q) = false ∧ (qp_received (qz_progress q) = true ∨ qp_local_init (qz_progress q) = true) ∧
  msg = Stfu (qp_local_init (qz_progress q)) ∧
  qz_progress q' = Progress (qp_local_init (qz_progress q)) (qp_remote_init (qz_progress q)) true
                     (qp_received (qz_progress q)) ∧
  qz_channel_initiator q' = qz_channel_initiator q.
Proof.
  unfold send_owed_stfu. destruct (owe_stfu q) eqn:Eo; [|done].
  unfold can_send_stfu, make_stfu. destruct (qp_sent _) eqn:Es; [done|]. unfold can_send_stfu. rewrite Es. cbn.
  intros [= <- <-]. unfold owe_stfu in Eo. rewrite Es, andb_true_r, orb_true_iff in Eo. split_and!; try done.
  - unfold start_if_quiescent, try_resolve_stfu_req. by repeat case_match.
  - unfold start_if_quiescent, try_resolve_stfu_req. by repeat case_match.
Qed.

(** After an [Stfu], no updates. *)
Fixpoint clean_after (ws : list wire) : Prop :=
  match ws with
  | [] => True
  | w :: ws => match stfu_of w with Some _ => no_updates ws | None => clean_after ws end
  end.

Lemma clean_after_app ws new : clean_after ws → no_updates new → stfus new = [] → clean_after (ws ++ new).
Proof.
  intros Hc Hn Hs. induction ws as [|w ws IH]; simpl in *.
  - clear -Hs. induction new as [|w new IH]; [done|]. simpl in *. destruct (stfu_of w); [done | by apply IH].
  - destruct (stfu_of w); [by apply Forall_app | by apply IH].
Qed.
Lemma clean_after_none ws : stfus ws = [] → clean_after ws.
Proof. induction ws as [|w ws IH]; [done|]. simpl. by destruct (stfu_of w). Qed.
Lemma clean_after_last ws s : stfus ws = [] → clean_after (ws ++ [StfuMsg s]).
Proof. induction ws as [|w ws IH]; [by intros _; constructor|]. simpl. by destruct (stfu_of w). Qed.
Lemma stfus_app ws new : stfus (ws ++ new) = stfus ws ++ stfus new.
Proof. apply omap_app. Qed.

(** What a node has sent to the other, which has not all arrived. *)
Record half (a b : progress) (c : channel) (ws : list wire) : Prop := {
  hf_count : (length (stfus ws) + Nat.b2n (qp_received b) = Nat.b2n (qp_sent a))%nat;
  hf_flag i : Stfu i ∈ stfus ws → i = qp_local_init a;
  hf_init : qp_received b = true → qp_remote_init b = qp_local_init a;
  hf_clean : clean_after ws;
  hf_quiet : qp_received b = true → no_updates ws;
  hf_rest : qp_sent a = true → rested Local c;
  hf_answer : qp_sent a = true → qp_local_init a = false → qp_received a = true ∧ qp_local_init b = true;
  hf_first : qp_received b = true → qp_sent b = false → qp_remote_init b = true;
}.

Lemma half_unsent a b c ws : half a b c ws → qp_sent a = false → stfus ws = [] ∧ qp_received b = false.
Proof.
  intros H E. pose proof (hf_count _ _ _ _ H) as Hc. rewrite E in Hc. simpl in Hc.
  destruct (stfus ws); [|simpl in Hc; lia]. by destruct (qp_received b).
Qed.

Lemma half_op a b c ws c' new :
  half a b c ws → (qp_sent a = true → rested Local c → rested Local c') → stfus new = [] →
  no_updates new ∨ qp_sent a = false → half a b c' (ws ++ new).
Proof.
  intros H Hr Hs Hn. pose proof (half_unsent _ _ _ _ H) as Hu.
  destruct H as [H1 H2 H3 H4 H5 H6 H7 H8].
  assert (stfus (ws ++ new) = stfus ws) as Es by by rewrite stfus_app, Hs, app_nil_r.
  split; try done; rewrite ?Es; try done.
  - destruct Hn as [Hn|Hn]; [by apply clean_after_app|]. destruct (Hu Hn) as [E _].
    apply clean_after_none. by rewrite Es.
  - intros Hb. destruct Hn as [Hn|Hn]; [apply Forall_app; split; [by apply H5 | done]|]. destruct (Hu Hn) as [_ E]. congruence.
  - intros Ha. by apply Hr, H6.
Qed.

Lemma half_send a b c ws a' b' ws' c' :
  half a b c ws → half b a c' ws' → qp_sent a = false → qp_received a = true ∨ qp_local_init a = true →
  rested Local c → a' = Progress (qp_local_init a) (qp_remote_init a) true (qp_received a) → b' = b →
  half a' b' c (ws ++ [StfuMsg (Stfu (qp_local_init a))]).
Proof.
  intros H H' Hs Ho Hr -> ->. destruct (half_unsent _ _ _ _ H Hs) as [Es Eb]. destruct H as [H1 H2 H3 H4 H5 H6 H7 H8].
  split; cbn [qp_sent qp_received qp_local_init qp_remote_init]; rewrite ?Eb; try done.
  - rewrite stfus_app, Es. done.
  - intros i. rewrite stfus_app, Es. simpl. by intros [= ->]%list_elem_of_singleton.
  - by apply clean_after_last.
  - intros _ Hl. destruct Ho as [Ho|Ho]; [|congruence]. split; [done|].
    rewrite <-(hf_init _ _ _ _ H' Ho). exact (hf_first _ _ _ _ H' Ho Hs).
Qed.

Lemma half_calm a b c ws a' : half a b c ws → calm a a' → half a' b c ws.
Proof.
  intros H (E1 & E2 & E3 & E4). pose proof (half_unsent _ _ _ _ H) as Hu. destruct H as [H1 H2 H3 H4 H5 H6 H7 H8].
  split; rewrite ?E1, ?E2; try done.
  - intros i Hi. destruct (qp_sent a) eqn:Es; [rewrite E4 by done; by apply H2|].
    destruct (Hu eq_refl) as [E _]. rewrite E in Hi. by apply elem_of_nil in Hi.
  - intros Hb. destruct (qp_sent a) eqn:Es; [rewrite E4 by done; by apply H3|]. destruct (Hu eq_refl). congruence.
  - intros Hs Hl. rewrite E4 in Hl by done. by apply H7.
Qed.

Lemma half_calm_peer a b c ws b' c' ws' : half a b c ws → half b a c' ws' → calm b b' → half a b' c ws.
Proof.
  intros H H' (E1 & E2 & E3 & E4). destruct H as [H1 H2 H3 H4 H5 H6 H7 H8].
  split; rewrite ?E1, ?E2, ?E3; try done.
  intros Hs Hl. destruct (H7 Hs Hl) as [Hr Hi]. split; [done|].
  destruct (qp_sent b) eqn:Es; [by rewrite E4|]. destruct (half_unsent _ _ _ _ H' Es). congruence.
Qed.

(** The peer sends its own. *)
Lemma half_send_peer a b c ws b' :
  half a b c ws → b' = Progress (qp_local_init b) (qp_remote_init b) true (qp_received b) → half a b' c ws.
Proof. by intros [H1 H2 H3 H4 H5 H6 H7 H8] ->. Qed.

(** The peer takes one. *)
Lemma half_recv a b c ws b' msg :
  half a b c (StfuMsg msg :: ws) → qp_received b = false → qp_sent b = true ∨ stfu_initiator msg = true →
  b' = Progress (qp_local_init b) (stfu_initiator msg) (qp_sent b) true → half a b' c ws.
Proof.
  intros [H1 H2 H3 H4 H5 H6 H7 H8] Eb Hm ->. rewrite Eb in H1. simpl in H1.
  assert (stfu_initiator msg = qp_local_init a) as Ei.
  { destruct msg as [i]. apply (H2 i). simpl. by left. }
  split; cbn [qp_sent qp_received qp_local_init qp_remote_init]; try done; simpl.
  - lia.
  - intros i Hi. apply H2. simpl. by right.
  - destruct (qp_sent a); simpl in H1; [|lia]. apply clean_after_none. by destruct (stfus ws); [|simpl in H1; lia].
  - intros _ E. destruct Hm as [Hm|Hm]; [congruence | done].
Qed.

(** The node takes one itself. *)
Lemma half_recv_self a b c ws a' : half a b c ws →
  (∃ i, a' = Progress (qp_local_init a) i (qp_sent a) true) → half a' b c ws.
Proof. intros [H1 H2 H3 H4 H5 H6 H7 H8] [i ->]. split; try done. cbn. intros Hs Hl. by destruct (H7 Hs Hl). Qed.

Lemma half_take a b c w ws : half a b c (w :: ws) → stfu_of w = None → half a b c ws.
Proof.
  intros [H1 H2 H3 H4 H5 H6 H7 H8] E. simpl in *. rewrite E in *. split; try done.
  intros Hb. specialize (H5 Hb). by apply Forall_cons in H5 as [_ ?].
Qed.

Lemma half_channel a b c ws c' : half a b c ws → (rested Local c → rested Local c') → half a b c' ws.
Proof. intros [H1 H2 H3 H4 H5 H6 H7 H8] Hr. split; try done. intros Hs. by apply Hr, H6. Qed.

(** ** Pairs *)

Section Pairs.
Context {HP : HashPrims} {CP : ChannelPrims} {CL : ChannelLaws} (t : Z).
Hypothesis Ht : in_u64 t.

Record pair_good (n : Z) (s0 : peers) (s : pair) : Prop := {
  pg_peers : ∃ u, projects s u ∧ peers_ok t n s0 u;
  pg_positive p : positive (pn_node s p).1;
  pg_half p : half (qz_progress (pn_node s p).2) (qz_progress (pn_node s (counter_party p)).2) (pn_node s p).1 (pn_wire s p);
  pg_tie p : qz_channel_initiator (pn_node s p).2 = counter_party (qz_channel_initiator (pn_node s (counter_party p)).2);
}.

(** When a node has all that it added on its own commitment, and nothing more
    is under way, its peer has it on its own view of both commitments. *)
Lemma flow_arrived n a ha b hb es es' :
  flow a ha b hb es → flow b hb a ha es' → chan_ok t n a → chan_ok t n b → chan_hist ha a → chan_hist hb b →
  (∀ up, EUpdate up ∉ es) → rested Local a → rested Remote b.
Proof using Type.
  intros F F' Ha Hb Hha Hhb Hes Hr. unfold rested in *.
  rewrite (lh_index _ _ (ch_log _ _ Hha Local)) in Hr. rewrite (lh_index _ _ (ch_log _ _ Hhb Remote)).
  cbn [get_for_party] in *.
  assert (∀ es x, (∀ up, EUpdate up ∉ es) → (foldl apply_event x es).1 = x.1) as Hkeep.
  { intros l. induction l as [|e l IH]; intros x Hl; simpl; [done|]. rewrite IH.
    - destruct e; try done. destruct (Hl up). by left.
    - intros up Hin. apply (Hl up). by right. }
  pose proof (f_equal fst (fl_state _ _ _ _ _ F)) as Eh. rewrite Hkeep in Eh by done. cbn [fst] in Eh. rewrite Eh.
  pose proof (fl_tail _ _ _ _ _ F) as Htl. pose proof (fl_tip _ _ _ _ _ F') as Htp.
  pose proof (chain_length _ (ck_chain _ _ _ Ha Local)) as La.
  pose proof (chain_length _ (ck_chain _ _ _ Hb Remote)) as Lb.
  set (i := (count ERevoke es + length (rest (chain_of a Local)))%nat).
  destruct (lookup_lt_is_Some_2 (chain_list (chain_of b Remote)) i) as [c Hc].
  { unfold chain_list, i. simpl. lia. }
  assert (c ∈ chain_list (chain_of b Remote)) as Hin by by eapply list_elem_of_lookup_2.
  pose proof (cn_heights _ (ck_chain _ _ _ Hb Remote) _ _ Hc) as Hh.
  destruct (fl_pairs _ _ _ _ _ F' c (tip (chain_of a Local)) Hin (tip_elem _)) as [_ E]; [unfold i in Hh; lia|].
  pose proof (chain_idx _ c Remote (ck_chain _ _ _ Hb Remote) Hin).
  pose proof (own_length hb b Remote Remote t n Hb Hhb) as Ho. cbn [get_for_party] in Ho. rewrite Eh in Ho. lia.
Qed.

Definition plain_start (s0 : peers) : Prop := fresh_peers t s0.

(** The facts of a node. *)
Lemma pair_good_all n s0 s :
  pair_good n s0 s →
  ∃ u h es, projects s u ∧ all_ok t n s0 u h es ∧
    ∀ p, chan_ok t n (pn_node s p).1 ∧ chan_past (first_commitments (pe_node s0 p)) (h p) (pn_node s p).1.
Proof using Type.
  intros H. destruct (pg_peers _ _ _ H) as (u & Hu & h & es & Hall). exists u, h, es. split_and!; [done | done|].
  intros p. destruct (Hall p) as ([N1 _ N3] & _). by rewrite <-(proj1 (Hu p)).
Qed.

Lemma rested_length h c : chan_hist h c → rested Local c ↔ idx (tip (chain_of c Local)) Local = Z.of_nat (length (dual_local h)).
Proof using Type. intros H. unfold rested. by rewrite (lh_index _ _ (ch_log _ _ H Local)). Qed.

Lemma move_node n h c i e c' h' :
  chan_ok t n c → chan_hist h c → chan_hist h' c' → move c h i e c' h' → positive c →
  positive c' ∧ ((∀ up, i ≠ Some (EUpdate up)) → rested Local c → rested Local c').
Proof using Type.
  intros Hok Hh Hh' Hm Hp. split; [by eapply move_positive|].
  intros Hi. rewrite !rested_length by done. intros Hr. by eapply move_rested.
Qed.

Lemma own_node n s0 s p op c c' q ws :
  fresh_peers t s0 → pair_good n s0 s → n + 1 < 2 ^ 64 → pn_node s p = (c, q) →
  own_op op = true → op_ok op → run_op op c = Some c' → messages ws = sent op c →
  positive c' ∧ (no_updates ws → rested Local c → rested Local c').
Proof using CL Ht.
  intros H0 H Hn Ep Hop Hok Hrun Hws. destruct (pair_good_all n s0 s H) as (u & h & es & Hu & Hall & Hnode).
  destruct (Hnode p) as [Nc Np]. pose proof (proj1 (Hu p)) as Eu. rewrite Ep in Nc, Np, Eu. simpl in *.
  rewrite <-Eu in Hrun, Hws.
  destruct (own_op_move t Ht n s0 u h es p op c') as (i & h' & Hm & Hp & Hc); [done..|].
  rewrite Eu in *. rewrite <-Hws in Hc. pose proof (pg_positive _ _ _ H p) as Hpos. rewrite Ep in Hpos.
  destruct (move_node n (h p) c i None c' h') as [H1 H2]; [done | apply Np | apply Hp | done | done|].
  split; [done|]. intros Hno. apply H2. intros up ->. apply (no_updates_events _ _ up Hc Hno). by left.
Qed.

Lemma take_node n s0 s p m ms c c' q :
  fresh_peers t s0 → pair_good n s0 s → n + 1 < 2 ^ 64 → pn_node s p = (c, q) →
  messages (pn_wire s (counter_party p)) = m :: ms → accepted m c = true → run_op (receive_op m) c = Some c' →
  positive c' ∧ (rested Local c → rested Local c').
Proof using CL Ht.
  intros H0 H Hn Ep Hms Hacc Hrun. destruct (pair_good_all n s0 s H) as (u & h & es & Hu & Hall & Hnode).
  destruct (Hnode p) as [Nc Np]. pose proof (proj1 (Hu p)) as Eu. rewrite Ep in Nc, Np, Eu. simpl in *.
  rewrite <-Eu in Hrun, Hacc. rewrite <-(proj2 (Hu (counter_party p))) in Hms.
  destruct (deliver_move t Ht n s0 u h es p m ms c') as (e & es1 & _ & _ & _ & h' & Hm & Hp); [done..|].
  rewrite Eu in *. pose proof (pg_positive _ _ _ H p) as Hpos. rewrite Ep in Hpos.
  destruct (move_node n (h p) c None (Some e) c' h') as [H1 H2]; [done | apply Np | apply Hp | done | done|].
  split; [done|]. by apply H2.
Qed.

Lemma calm_refl p : calm p p.
Proof using Type. done. Qed.

Definition halves (x y : node) (ws ws' : list wire) : Prop :=
  half (qz_progress x.2) (qz_progress y.2) x.1 ws ∧ half (qz_progress y.2) (qz_progress x.2) y.1 ws'.

Lemma can_send_unsent {A} (q : quiescer A) : can_send_updates q = true → qp_sent (qz_progress q) = false.
Proof using Type. unfold can_send_updates. by destruct (qp_sent _). Qed.

(** The node's own steps. *)
Lemma own_halves n s0 s p k ws x :
  fresh_peers t s0 → pair_good n s0 s → n + 1 < 2 ^ 64 → node_step true k (pn_node s p) ws x →
  positive x.1 ∧ qz_channel_initiator x.2 = qz_channel_initiator (pn_node s p).2 ∧
  halves x (pn_node s (counter_party p)) (pn_wire s p ++ ws) (pn_wire s (counter_party p)).
Proof using CL Ht.
  intros H0 H Hn Hst. pose proof (pg_positive _ _ _ H p) as Hpos.
  pose proof (pg_half _ _ _ H p) as Hp. pose proof (pg_half _ _ _ H (counter_party p)) as Hq.
  rewrite counter_party_involutive in Hq.
  destruct (pn_node s p) as [c q] eqn:Ep.
  inversion Hst as [op ? ? c' ? Hop Hok Hrun Hsent Hstfu Hpol|? ? q' msg Hdang Hsend|? ? ? q' Hcalm Hini];
    subst; cbn [fst snd] in *.
  - destruct (own_node n s0 s p op c c' q ws) as [Hpos' Hrest]; [done..|]. split_and!; [done | done|]. split.
    + apply half_op with c; [done | | done |].
      * intros Hs. destruct (Hpol eq_refl) as [Hno|Hc]; [by apply Hrest|]. apply can_send_unsent in Hc. cbn in *. congruence.
      * destruct (Hpol eq_refl) as [Hno|Hc%can_send_unsent]; auto.
    + done.
  - destruct (send_owed_stfu_Some _ _ _ Hsend) as (Hs & Ho & -> & Eq & Ei). split_and!; [done | done|].
    destruct (pair_good_all n s0 s H) as (u & h & es & _ & _ & Hnode). destruct (Hnode p) as [Nc _]. rewrite Ep in Nc. cbn [fst] in Nc.
    split; cbn [fst snd]; rewrite Eq.
    + eapply (half_send _ _ c _ _ _ _ _ Hp Hq); [done | done | | done | done].
      apply (rested_no_dangling t n Local c); [done | lia | done | done].
    + by eapply half_send_peer.
  - split_and!; [done | done|]. rewrite app_nil_r. specialize (Hcalm eq_refl). split; cbn [fst snd].
    + by eapply half_calm.
    + by eapply half_calm_peer.
Qed.

(** ... and those with a message. *)
Lemma take_halves n s0 s p w ws x :
  fresh_peers t s0 → pair_good n s0 s → n + 1 < 2 ^ 64 → pn_wire s (counter_party p) = w :: ws →
  node_take true w (pn_node s p) x →
  positive x.1 ∧ qz_channel_initiator x.2 = qz_channel_initiator (pn_node s p).2 ∧
  halves x (pn_node s (counter_party p)) (pn_wire s p) ws.
Proof using CL Ht.
  intros H0 H Hn Ew Hst. pose proof (pg_positive _ _ _ H p) as Hpos.
  pose proof (pg_half _ _ _ H p) as Hp. pose proof (pg_half _ _ _ H (counter_party p)) as Hq.
  rewrite counter_party_involutive, Ew in Hq.
  destruct (pn_node s p) as [c q] eqn:Ep.
  inversion Hst as [? m ? ? c' Hm Hacc Hrun|? ? q' msg Hdang Hrecv|]; subst; cbn [fst snd] in *.
  - destruct (take_node n s0 s p m (messages ws) c c' q) as [Hpos' Hrest]; [done..| | done | done |].
    { rewrite Ew. simpl. by rewrite Hm. }
    split_and!; [done | done|]. split; cbn [fst snd]; [by eapply half_channel|].
    eapply half_take; [done|]. by destruct w.
  - destruct (recv_stfu_Ok _ _ _ Hrecv) as (Er & Hm & Eq & Ei). split_and!; [done | done|].
    split; cbn [fst snd]; rewrite Eq.
    + eapply half_recv_self; [done | by eexists].
    + by eapply half_recv.
  - split_and!; [done | done|]. split; [done|]. by eapply half_take.
Qed.

Lemma pair_good_step n s0 s s' k :
  fresh_peers t s0 → pair_good n s0 s → n + 1 < 2 ^ 64 → pair_step true k s s' →
  pair_good (n + Z.of_nat k) s0 s'.
Proof using CL Ht.
  intros H0 H Hn Hst. split.
  - destruct (pg_peers _ _ _ H) as (u & Hu & Hok).
    destruct (pair_step_peers true k s s' u Hu Hst) as [Hu'|(u' & Hpst & Hu' & ->)].
    + exists u. split; [done|]. apply (peers_ok_weaken t n); [done | lia].
    + exists u'. split; [done|]. by apply (peers_step_ok t Ht n s0 u u').
  - destruct Hst as [k s p ws x Hx|s p w ws x Ew Hx]; intros r; cbn [pn_node].
    + destruct (own_halves n s0 s p k ws x H0 H Hn Hx) as (Hpos & _ & _).
      destruct (party_cases p r) as [-> | ->]; rewrite ?update_at_same, ?update_at_other; [done | apply H].
    + destruct (take_halves n s0 s p w ws x H0 H Hn Ew Hx) as (Hpos & _ & _).
      destruct (party_cases p r) as [-> | ->]; rewrite ?update_at_same, ?update_at_other; [done | apply H].
  - destruct Hst as [k s p ws x Hx|s p w ws x Ew Hx]; intros r; cbn [pn_node pn_wire].
    + destruct (own_halves n s0 s p k ws x H0 H Hn Hx) as (_ & _ & Hh & Hh').
      destruct (party_cases p r) as [-> | ->]; rewrite ?counter_party_involutive, ?update_at_same, ?update_at_other; done.
    + destruct (take_halves n s0 s p w ws x H0 H Hn Ew Hx) as (_ & _ & Hh & Hh').
      destruct (party_cases p r) as [-> | ->];
        rewrite ?counter_party_involutive, ?update_at_same, ?update_at_other, ?update_at_cp, ?update_at_same; done.
  - destruct Hst as [k s p ws x Hx|s p w ws x Ew Hx]; intros r; cbn [pn_node].
    + destruct (own_halves n s0 s p k ws x H0 H Hn Hx) as (_ & Ei & _). pose proof (pg_tie _ _ _ H r) as Htie.
      destruct (party_cases p r) as [-> | ->];
        rewrite ?counter_party_involutive, ?update_at_same, ?update_at_other, ?Ei in *; done.
    + destruct (take_halves n s0 s p w ws x H0 H Hn Ew Hx) as (_ & Ei & _). pose proof (pg_tie _ _ _ H r) as Htie.
      destruct (party_cases p r) as [-> | ->];
        rewrite ?counter_party_involutive, ?update_at_same, ?update_at_other, ?Ei in *; done.
Qed.

(** *** What the invariant gives *)

Lemma no_update_event n s0 u s h es p up :
  all_ok t n s0 u h es → projects s u → no_updates (pn_wire s p) → EUpdate up ∉ es p.
Proof using Type.
  intros H Hu Hno. destruct (H p) as (_ & Hc & _). rewrite (proj2 (Hu p)) in Hc. by eapply no_updates_events.
Qed.

Lemma sent_rested n s0 s p :
  pair_good n s0 s → qp_sent (qz_progress (pn_node s p).2) = true → no_updates (pn_wire s p) →
  rested Local (pn_node s p).1 ∧ rested Remote (pn_node s (counter_party p)).1.
Proof using Type.
  intros H Hs Hno. pose proof (hf_rest _ _ _ _ (pg_half _ _ _ H p) Hs) as Hr. split; [done|].
  destruct (pair_good_all n s0 s H) as (u & h & es & Hu & Hall & Hnode).
  destruct (Hall p) as (_ & _ & F). destruct (Hall (counter_party p)) as (_ & _ & F').
  rewrite counter_party_involutive in F'. rewrite !(λ p, proj1 (Hu p)) in F, F'.
  destruct (Hnode p) as [N1 P1]. destruct (Hnode (counter_party p)) as [N2 P2].
  eapply (flow_arrived n); [exact F | exact F' | exact N1 | exact N2 | apply P1 | apply P2 | | exact Hr].
  intros up. by eapply no_update_event.
Qed.

Lemma stfu_accepted n s0 s p msg ws :
  pair_good n s0 s → n < 2 ^ 64 → pn_wire s (counter_party p) = StfuMsg msg :: ws →
  no_dangling_updates Remote (pn_node s p).1 = true ∧ ∃ q', recv_stfu msg (pn_node s p).2 = (q', Ok ()).
Proof using Type.
  intros H Hn Ew. pose proof (pg_half _ _ _ H (counter_party p)) as Hq. rewrite counter_party_involutive in Hq.
  pose proof (pg_half _ _ _ H p) as Hp. rewrite Ew in Hq.
  pose proof (hf_count _ _ _ _ Hq) as Hc. simpl in Hc.
  assert (qp_sent (qz_progress (pn_node s (counter_party p)).2) = true) as Hs.
  { destruct (qp_sent _); [done|]. simpl in Hc. lia. }
  assert (qp_received (qz_progress (pn_node s p).2) = false) as Hr.
  { rewrite Hs in Hc. simpl in Hc. destruct (qp_received _); [simpl in Hc; lia | done]. }
  split.
  - destruct (pair_good_all n s0 s H) as (u & h & es & Hu & Hall & Hnode). destruct (Hnode p) as [Np _].
    apply (rested_no_dangling t n Remote); [done | done | apply H|].
    destruct (sent_rested n s0 s (counter_party p) H Hs) as [_ Hr']; [|by rewrite counter_party_involutive in Hr'].
    rewrite Ew. constructor; [done|]. exact (hf_clean _ _ _ _ Hq).
  - unfold recv_stfu. rewrite Hr. unfold can_recv_stfu. rewrite Hr. cbn [negb].
    destruct (qp_sent (qz_progress (pn_node s p).2)) eqn:Esp; cbn [negb andb]; [by eexists|].
    destruct msg as [i]. cbn [stfu_initiator].
    assert (i = qp_local_init (qz_progress (pn_node s (counter_party p)).2)) as -> by (apply (hf_flag _ _ _ _ Hq); by left).
    destruct (qp_local_init _) eqn:El; cbn [negb]; [by eexists|].
    destruct (hf_answer _ _ _ _ Hq Hs El) as [Hrq _].
    pose proof (hf_count _ _ _ _ Hp) as Hc'. rewrite Hrq, Esp in Hc'. simpl in Hc'. lia.
Qed.

Lemma update_accepted n s0 s p w ws :
  pair_good n s0 s → pn_wire s (counter_party p) = w :: ws → is_channel_update w = true →
  can_recv_updates (pn_node s p).2 = true.
Proof using Type.
  intros H Ew Hw. pose proof (pg_half _ _ _ H (counter_party p)) as Hq. rewrite counter_party_involutive in Hq.
  unfold can_recv_updates. destruct (qp_received _) eqn:Er; [|done]. exfalso.
  pose proof (hf_quiet _ _ _ _ Hq Er) as Hno. rewrite Ew in Hno. apply Forall_cons in Hno as [Hno _]. congruence.
Qed.

Lemma quiescent_rest n s0 s :
  pair_good n s0 s → n < 2 ^ 64 → (∀ p, is_quiescent (pn_node s p).2 = true) →
  ∀ p, no_dangling_updates Local (pn_node s p).1 = true ∧ no_dangling_updates Remote (pn_node s p).1 = true ∧
       no_updates (pn_wire s p) ∧
       ∃ who, quiescence_initiator (pn_node s p).2 = Ok who ∧
              quiescence_initiator (pn_node s (counter_party p)).2 = Ok (counter_party who).
Proof using Type.
  intros H Hn Hq.
  assert (∀ p, qp_sent (qz_progress (pn_node s p).2) = true ∧ qp_received (qz_progress (pn_node s p).2) = true) as Hsr.
  { intros p. specialize (Hq p). by apply andb_true_iff in Hq. }
  assert (∀ p, no_updates (pn_wire s p)) as Hno by (intros p; apply (hf_quiet _ _ _ _ (pg_half _ _ _ H p)), Hsr).
  destruct (pair_good_all n s0 s H) as (u & h & es & Hu & Hall & Hnode).
  intros p. pose proof (pg_half _ _ _ H p) as Hp. pose proof (pg_half _ _ _ H (counter_party p)) as Hp'.
  rewrite counter_party_involutive in Hp'. destruct (Hnode p) as [Np _].
  destruct (Hsr p) as [S1 R1]. destruct (Hsr (counter_party p)) as [S2 R2]. split_and!; [| |done|].
  - apply (rested_no_dangling t n Local); [done | done | apply H|]. by destruct (sent_rested n s0 s p H S1 (Hno p)).
  - apply (rested_no_dangling t n Remote); [done | done | apply H|].
    destruct (sent_rested n s0 s (counter_party p) H S2 (Hno _)) as [_ Hr]. by rewrite counter_party_involutive in Hr.
  - pose proof (hf_init _ _ _ _ Hp R2) as I1. pose proof (hf_init _ _ _ _ Hp' R1) as I2.
    unfold quiescence_initiator. rewrite !Hq. cbn [negb]. rewrite I1, I2.
    destruct (qp_local_init (qz_progress (pn_node s p).2)) eqn:L1;
      destruct (qp_local_init (qz_progress (pn_node s (counter_party p)).2)) eqn:L2; cbn [andb].
    + eexists. split; [done|]. rewrite (pg_tie _ _ _ H p), counter_party_involutive. done.
    + by exists Local.
    + by exists Remote.
    + destruct (hf_answer _ _ _ _ Hp S1 L1). congruence.
Qed.

(** *** Runs *)

(** Two nodes with a new channel and new quiescers. *)
Record fresh_pair (s : pair) : Prop := {
  fz_channels : fresh_peers t (channels s);
  fz_wire p : pn_wire s p = [];
  fz_quiescer p : qz_progress (pn_node s p).2 = Progress false false false false;
  fz_initiator p : qz_channel_initiator (pn_node s p).2 = initiator (lc_params (pn_node s p).1);
}.

Lemma fresh_pair_good s : fresh_pair s → pair_good 0 (channels s) s.
Proof using Type.
  intros H. split.
  - exists (channels s). split; [apply projects_channels | by apply fresh_peers_ok, fz_channels].
  - intros p w x r Hx. pose proof (fp_fresh _ _ (fz_channels _ H) p) as F. simpl in F.
    unfold chain_list in Hx. rewrite (fr_chain _ _ F) in Hx. apply list_elem_of_singleton in Hx as ->.
    unfold idx. rewrite (fc_indices _ _ (fr_tail _ _ F w)). by destruct r.
  - intros p. rewrite !(fz_quiescer _ H), (fz_wire _ H). split; try done. intros i ?%elem_of_nil. done.
  - intros p. rewrite !(fz_initiator _ H).
    by apply (initiator_mirrored _ _ (fp_params _ _ (fz_channels _ H) p)).
Qed.

Lemma pair_steps_good n s0 k s s' :
  fresh_peers t s0 → pair_good n s0 s → pair_steps true k s s' → n + Z.of_nat k + 1 < 2 ^ 64 →
  pair_good (n + Z.of_nat k) s0 s'.
Proof using CL Ht.
  intros H0 H Hst. revert n H. induction Hst as [s|k m s s1 s2 Hst Hsts IH]; intros n H Hn.
  - by rewrite Z.add_0_r.
  - replace (n + Z.of_nat (k + m)) with (n + Z.of_nat k + Z.of_nat m) by lia. apply IH; [|lia].
    apply (pair_good_step n s0 s s1 k); [done | done | lia | done].
Qed.
End Pairs.
