(* ===== verification/LinkRefine.v ===== *)
(** * The handlers of a link refine the protocol

    Whatever a link does on an event is a sequence of steps of
    [LinkProtocol], so that what holds of the protocol holds of two links. *)

From S2P Require Import Prelude Chainfee Shachain UpdateLog Channel ChannelToy ChannelLog ChannelView ChannelInv.
From S2P Require Import ChannelCommit ChannelAfter ChannelSteps ChannelRun ChannelHist ChannelPast ChannelCompact.
From S2P Require Import ChannelClosed ChannelPastSteps ChannelPeers ChannelSystem ChannelAgreement Quiescer Link.
From S2P Require Import LinkProtocol.

(** ** The error that a closed window gives *)

Section Window.
Context {HP : HashPrims} {CP : ChannelPrims}.

(** Methods that never say that the window is closed. *)
Definition windowed {A} (m : M A) : Prop := ∀ lc lc' e, m lc = (lc', Err e) → is_no_window e = false.

Lemma windowed_bind {A B} (m : M A) (k : A → M B) : windowed m → (∀ a, windowed (k a)) → windowed (m ≫= k).
Proof.
  intros Hm Hk lc lc' e. unfold mbind, M_bind. destruct (m lc) as [lc1 [a|e1]] eqn:E; [by apply Hk|].
  intros [= <- <-]. by eapply Hm.
Qed.
Lemma windowed_ret {A} (a : A) : windowed (mret a).
Proof. by intros ???. Qed.
Lemma windowed_get : windowed get.
Proof. by intros ???. Qed.
Lemma windowed_modify f : windowed (modify f).
Proof. by intros ???. Qed.
Lemma windowed_check b e : is_no_window e = false → windowed (check b e).
Proof. intros He lc lc' e'. destruct b; [done|]. by intros [= _ <-]. Qed.
Lemma windowed_lift {A} (r : result channel_error A) : (∀ e, r = Err e → is_no_window e = false) → windowed (lift r).
Proof. intros Hr lc lc' e [= _ E]. by apply Hr. Qed.

Lemma resolve_view_windowed lc whose v acc e : resolve_view lc whose v = (acc, Err e) → is_no_window e = false.
Proof.
  assert (∀ party l acc acc' e, resolve_entries lc whose party acc l = (acc', Err e) → is_no_window e = false) as H.
  { intros party l. induction l as [|x l IH]; intros a a' e'; simpl; [done|].
    destruct (resolve_entry lc whose party a x) as [a1|e1] eqn:E; [apply IH|]. intros [= _ <-].
    unfold resolve_entry, fetch_parent, rbind in E. by repeat case_match; simplify_eq. }
  unfold resolve_view. destruct (resolve_entries _ _ Local _ _) as [a1 [[]|e1]] eqn:E1; [apply H|].
  intros [= _ <-]. by eapply H.
Qed.

Lemma compute_view_windowed v w b dry : windowed (compute_view v w b dry).
Proof.
  unfold compute_view, evaluate_htlc_view. apply windowed_bind; [apply windowed_get|]. intros lc. cbv zeta.
  destruct (resolve_view lc w _) as [acc r] eqn:E. apply windowed_bind; [apply windowed_modify|]. intros _.
  apply windowed_bind.
  { apply windowed_lift. intros e He. destruct r as [[]|e']; [done|]. injection He as ->. by eapply resolve_view_windowed. }
  intros ev. apply windowed_bind; [apply windowed_modify|]. intros _.
  apply windowed_bind; [by apply windowed_check|]. intros _.
  apply windowed_bind; [by apply windowed_check|]. intros _. apply windowed_ret.
Qed.

Lemma validate_updates_windowed cfg l e : validate_updates cfg l = Err e → is_no_window e = false.
Proof.
  assert (∀ acc e, fold_result (validate_update cfg) l acc = Err e → is_no_window e = false) as H.
  { induction l as [|x l IH]; intros acc e'; simpl; [done|].
    destruct (validate_update cfg acc x) as [a|e1] eqn:E; simpl; [apply IH|]. intros [= <-].
    unfold validate_update in E. by repeat case_match; simplify_eq. }
  unfold validate_updates. destruct (fold_result _ _ _) as [[num amt]|e1] eqn:E; simpl.
  - repeat case_match; by intros [= <-].
  - intros [= <-]. by eapply H.
Qed.

Lemma apply_commit_fee_windowed p b w f k e : apply_commit_fee p b w f k = Err e → is_no_window e = false.
Proof. unfold apply_commit_fee. repeat case_match; by intros [= <-]. Qed.

Lemma validate_windowed t o w b our their : windowed (validate_commitment_sanity t o w b our their).
Proof.
  unfold validate_commitment_sanity. apply windowed_bind; [apply windowed_get|]. intros lc. cbv zeta.
  apply windowed_bind; [apply compute_view_windowed|]. intros cv.
  apply windowed_bind; [by apply windowed_check|]. intros _. apply windowed_bind.
  { case_match; (apply windowed_bind; [apply windowed_lift, apply_commit_fee_windowed|]);
      intros [[]]; apply windowed_ret. }
  intros [ob tb].
  apply windowed_bind; [by apply windowed_check|]. intros _. apply windowed_bind; [by apply windowed_check|]. intros _.
  apply windowed_bind; [apply windowed_lift; intros e; apply validate_updates_windowed|]. intros _.
  apply windowed_lift. intros e. apply validate_updates_windowed.
Qed.

Lemma fetch_windowed w i j k l : windowed (fetch_commitment_view w i j k l).
Proof.
  unfold fetch_commitment_view. apply windowed_bind; [apply windowed_get|]. intros lc. cbv zeta.
  apply windowed_bind; [apply compute_view_windowed|]. intros cv.
  apply windowed_bind.
  { apply windowed_lift. intros e. unfold create_unsigned_commitment_tx. cbv zeta. repeat case_match; by intros [= <-]. }
  intros tx. apply windowed_bind; [by apply windowed_check|]. intros _.
  apply windowed_bind; [apply windowed_get|]. intros. apply windowed_ret.
Qed.

(** A closed window is found before anything is written. *)
Lemma sign_no_window lc lc' e :
  sign_next_commitment lc = (lc', Err e) → is_no_window e = true → lc' = lc.
Proof.
  unfold sign_next_commitment. unfold mbind at 1. unfold M_bind, get. cbv beta iota.
  unfold mbind at 1. unfold M_bind, check, fail at 1. destruct (negb _); [|by intros [= <- _]].
  cbv beta iota delta [mret M_ret]. destruct (oc_remote_next_revocation _) as [point|]; [|by intros [= <- _]].
  intros E He. exfalso. revert E. cbv zeta. match goal with |- ?m lc = _ → _ => assert (windowed m) as Hw end.
  { apply windowed_bind; [apply validate_windowed|]. intros _. apply windowed_bind; [apply fetch_windowed|]. intros c.
    destruct (sign_commitment point c); [|by intros ??? [= _ <-]].
    apply windowed_bind; [apply windowed_modify|]. intros _.
    apply windowed_bind; [apply windowed_modify|]. intros _. apply windowed_ret. }
  intros E. apply Hw in E. congruence.
Qed.
End Window.

(** ** What a link does between two states *)

Definition wires_of (es : list effect) : list wire :=
  omap (λ e, match e with SendMessage w => Some w | _ => None end) es.

Definition violates (e : effect) : bool :=
  match e with OnChannelFailure f => bool_decide (lf_code f = ErrStfuViolation) | _ => false end.
Definition no_violation (es : list effect) : Prop := Forall (λ e, violates e = false) es.

Definition node_of (l : link) : node := (lk_channel l, lk_quiescer l).

Section Refine.
Context {HP : HashPrims} {CP : ChannelPrims} {LP : LinkPrims} (polite : bool).
Implicit Types l : link.

Inductive node_steps : nat → node → list wire → node → Prop :=
| NsNil x : node_steps 0 x [] x
| NsCons k m x y z ws ws' :
    node_step polite k x ws y → node_steps m y ws' z → node_steps (k + m) x (ws ++ ws') z.

Lemma node_steps_app k m x y z ws ws' :
  node_steps k x ws y → node_steps m y ws' z → node_steps (k + m) x (ws ++ ws') z.
Proof using Type.
  intros H1 H2. induction H1 as [|k k' x y z' ws1 ws2 Hst Hsts IH]; [done|].
  rewrite <-Nat.add_assoc, <-app_assoc. by econstructor; [|apply IH].
Qed.

Lemma node_steps_one k x y ws : node_step polite k x ws y → node_steps k x ws y.
Proof using Type. intros H. rewrite <-(Nat.add_0_r k), <-(app_nil_r ws). econstructor; [done | constructor]. Qed.

(** More effects, none of them a violation, and more calls; the channel may
    be left in the middle of a method that failed. *)
Definition goes_on l l' (es : list effect) (k : nat) : Prop :=
  lk_effects l' = lk_effects l ++ es ∧ (polite = true → no_violation es) ∧ lk_calls l' = (k + lk_calls l)%nat.

Definition stuck l l' : Prop := ∃ es k, goes_on l l' es k.

(** ... and as long as the link has not failed, all of it is the protocol's. *)
Definition runs l l' : Prop :=
  ∃ es k, goes_on l l' es k ∧
    (lk_failed l' = false → lk_failed l = false ∧ node_steps k (node_of l) (wires_of es) (node_of l')).

Lemma wires_app es es' : wires_of (es ++ es') = wires_of es ++ wires_of es'.
Proof using Type. apply omap_app. Qed.

Lemma goes_on_trans l1 l2 l3 es k es' k' : goes_on l1 l2 es k → goes_on l2 l3 es' k' → goes_on l1 l3 (es ++ es') (k + k').
Proof using Type.
  intros (E1 & N1 & C1) (E2 & N2 & C2). split_and!; [by rewrite E2, E1, app_assoc | intros Hp; apply Forall_app; split; [by apply N1 | by apply N2] | lia].
Qed.

#[export] Instance runs_preorder : PreOrder runs.
Proof using Type.
  split.
  - intros l. exists [], 0%nat. split; [|intros ?; split; [done | constructor]].
    split_and!; [by rewrite app_nil_r | by constructor | done].
  - intros l1 l2 l3 (es & k & G & H) (es' & k' & G' & H'). exists (es ++ es'), (k + k')%nat.
    split; [by eapply goes_on_trans|]. intros Hf. destruct (H' Hf) as [Hf2 Hs2]. destruct (H Hf2) as [Hf1 Hs1].
    split; [done|]. rewrite wires_app. by eapply node_steps_app.
Qed.

Lemma stuck_trans l1 l2 l3 : stuck l1 l2 → stuck l2 l3 → stuck l1 l3.
Proof using Type. intros (es & k & G) (es' & k' & G'). exists (es ++ es'), (k + k')%nat. by eapply goes_on_trans. Qed.
Lemma runs_stuck l l' : runs l l' → stuck l l'.
Proof using Type. intros (es & k & G & _). by exists es, k. Qed.

(** *** Pieces *)

Lemma stuck_call {A} (m : M A) l : stuck l (on_channel m l).1.
Proof using Type.
  unfold on_channel. destruct (m (lk_channel l)) as [c r]. exists [], 1%nat.
  split_and!; [by rewrite app_nil_r | by constructor | done].
Qed.

Lemma goes_emit e l : (polite = true → violates e = false) → goes_on l (emit e l) [e] 0.
Proof using Type. intros He. split_and!; [done | intros; by apply Forall_singleton, He | done]. Qed.

(** A link that has failed does not matter any more. *)
Lemma runs_failf f l l' : stuck l l' → (polite = true → lf_code f ≠ ErrStfuViolation) → runs l (failf f l').
Proof using Type.
  intros (es & k & G) Hf. unfold failf. destruct (lk_failed l') eqn:E.
  - exists es, k. split; [done|]. by rewrite E.
  - exists (es ++ [OnChannelFailure f]), (k + 0)%nat. split; [|done].
    eapply goes_on_trans; [exact G|]. apply (goes_emit (OnChannelFailure f) (set_failed true l')).
    intros Hp. simpl. by apply bool_decide_eq_false, Hf.
Qed.

Lemma runs_fail_code c l l' : stuck l l' → c ≠ ErrStfuViolation → runs l (fail_code c l').
Proof using Type. intros ? Hc. apply runs_failf; [done | by intros _]. Qed.

(** Effects that are no messages, and changes outside the channel and the
    quiescer. *)
Lemma runs_silent l l' es :
  lk_effects l' = lk_effects l ++ es → wires_of es = [] → no_violation es → node_of l' = node_of l →
  lk_failed l' = lk_failed l → lk_calls l' = lk_calls l → runs l l'.
Proof using Type.
  intros E W N En Ef Ec. exists es, 0%nat. split; [done|]. rewrite Ef, W, En. intros. split; [done | constructor].
Qed.

Definition may_update (ws : list wire) l : Prop := polite = true → no_updates ws ∨ can_send_updates (lk_quiescer l) = true.

(** A call of the channel, and what is sent after it. *)
Lemma runs_op op l l' es c ws :
  run_op op (lk_channel l) = Some c → own_op op = true → op_ok op → messages ws = sent op (lk_channel l) → stfus ws = [] →
  may_update ws l →
  lk_effects l' = lk_effects l ++ es → wires_of es = ws → no_violation es →
  lk_channel l' = c → lk_quiescer l' = lk_quiescer l → lk_failed l' = lk_failed l → lk_calls l' = S (lk_calls l) →
  runs l l'.
Proof using Type.
  intros Hrun Hop Hok Hm Hs Hpol E W N Ec Eq Ef En. exists es, 1%nat. split; [done|]. rewrite Ef. intros Hf. split; [done|].
  apply node_steps_one. unfold node_of. rewrite Eq, Ec, W. by eapply NsOp.
Qed.

(** A call that sends nothing. *)
Lemma runs_call op l c :
  run_op op (lk_channel l) = Some c → own_op op = true → op_ok op → sent op (lk_channel l) = [] →
  runs l (set_channel c l).
Proof using Type.
  intros Hrun Hop Hok Hs. eapply (runs_op op l _ [] c []); try done; [intros _; left; constructor | by rewrite app_nil_r | constructor].
Qed.

(** A call that changes nothing. *)
Lemma runs_no_change l : runs l (set_channel (lk_channel l) l).
Proof using Type.
  exists [], 1%nat. split; [split_and!; [by rewrite app_nil_r | by constructor | done]|]. intros Hf. split; [done|].
  apply node_steps_one. by apply NsQuiet.
Qed.

Lemma runs_quiescer q l :
  (polite = true → calm (qz_progress (lk_quiescer l)) (qz_progress q)) →
  qz_channel_initiator q = qz_channel_initiator (lk_quiescer l) → runs l (set_quiescer q l).
Proof using Type.
  intros Hc Hi. exists [], 0%nat. split; [split_and!; [by rewrite app_nil_r | by constructor | done]|].
  intros Hf. split; [done|]. apply node_steps_one. by apply NsQuiet.
Qed.

(** *** Sequences *)

(** What is neither the channel's nor the quiescer's, and no message. *)
Definition aside l l' : Prop :=
  (∃ es, lk_effects l' = lk_effects l ++ es ∧ wires_of es = [] ∧ no_violation es) ∧
  node_of l' = node_of l ∧ lk_failed l' = lk_failed l ∧ lk_calls l' = lk_calls l.

#[export] Instance aside_preorder : PreOrder aside.
Proof using Type.
  split.
  - intros l. split; [|done]. exists []. rewrite app_nil_r. by repeat constructor.
  - intros l1 l2 l3 [(es & E & W & N) (H1 & H2 & H3)] [(es' & E' & W' & N') (H1' & H2' & H3')].
    split; [|split_and!; congruence]. exists (es ++ es'). rewrite E', E, app_assoc, wires_app, W, W'.
    split_and!; [done | done | by apply Forall_app].
Qed.

Lemma aside_emit e l :
  match e with SendMessage _ | OnChannelFailure _ => False | _ => True end → aside l (emit e l).
Proof using Type. intros He. split; [|done]. exists [e]. by destruct e; split_and!; try (by repeat constructor). Qed.

Lemma aside_runs l l' : aside l l' → runs l l'.
Proof using Type. intros [(es & E & W & N) (H1 & H2 & H3)]. by eapply runs_silent. Qed.

Lemma aside_quiescer l l' : aside l l' → lk_quiescer l' = lk_quiescer l.
Proof using Type. intros (_ & H & _). by injection H. Qed.
Lemma aside_channel l l' : aside l l' → lk_channel l' = lk_channel l.
Proof using Type. intros (_ & H & _). by injection H. Qed.

Lemma aside_acks l0 l ks : aside l0 l → aside l0 (foldl (λ l k, emit (AckPacket k) l) l ks).
Proof using Type.
  revert l. induction ks as [|k ks IH]; intros l Hl; simpl; [done|]. apply IH. etrans; [done|]. by apply aside_emit.
Qed.

Lemma aside_circuits l0 l ks o c : aside l0 l → aside l0 (set_circuits ks o c l).
Proof using Type. intros H. etrans; [exact H|]. split; [|done]. exists []. rewrite app_nil_r. by repeat constructor. Qed.

Lemma aside_ack_down_stream l : aside l (ack_down_stream_packets l).
Proof using Type.
  unfold ack_down_stream_packets. cbv zeta. apply aside_circuits, aside_acks.
  etrans; [by apply aside_acks | by apply aside_emit].
Qed.

(** A call, its record in the link, and its message. *)
Lemma runs_send op l l1 c w :
  run_op op (lk_channel l) = Some c → own_op op = true → op_ok op → messages [w] = sent op (lk_channel l) →
  stfu_of w = None → may_update [w] l → aside (set_channel c l) l1 → runs l (send w l1).
Proof using Type.
  intros Hrun Hop Hok Hm Hs Hpol [(es & E & W & N) (H1 & H2 & H3)].
  eapply (runs_op op l _ (es ++ [SendMessage w]) c [w]); try done.
  - simpl. by rewrite Hs.
  - simpl. by rewrite E, app_assoc.
  - by rewrite wires_app, W.
  - apply Forall_app. split; [done | by repeat constructor].
  - by injection H1.
  - by injection H1.
Qed.

Definition pol l : Prop := polite = true → can_send_updates (lk_quiescer l) = true.

Lemma pol_may l ws : pol l → may_update ws l.
Proof using Type. intros H Hp. right. by apply H. Qed.

(** The methods that a link goes on after: on success a message follows. *)
Lemma runs_method {A} op (m : M A) (f : A → message) l :
  (∀ c, run_op op c = Some (m c).1) → (∀ c, sent op c = when_ok (m c).2 f) → own_op op = true → op_ok op → pol l →
  ∃ l1 r, on_channel m l = (l1, r) ∧ lk_quiescer l1 = lk_quiescer l ∧
    match r with
    | Ok a => ∀ l2 w, aside l1 l2 → chan_message w = Some (f a) → runs l (send w l2) ∧ lk_quiescer (send w l2) = lk_quiescer l
    | Err _ => runs l l1
    end.
Proof using Type.
  intros Hrun Hsent Hop Hok Hpol. unfold on_channel. specialize (Hrun (lk_channel l)). specialize (Hsent (lk_channel l)).
  destruct (m (lk_channel l)) as [c [a|e]]; eexists _, _; split_and!; try done.
  - intros l2 w Hl2 Hw. split; [|exact (aside_quiescer _ _ Hl2)].
    eapply (runs_send op l l2 c w); try done.
    + simpl. by rewrite Hw, Hsent.
    + by destruct w.
    + by apply pol_may.
  - by eapply (runs_call op l c).
Qed.

(** *** Signing *)

Lemma update_commit_tx_runs l :
  ∃ l' r, update_commit_tx l = (l', r) ∧ match r with Ok _ => runs l l' | Err _ => stuck l l' end.
Proof using Type.
  unfold update_commit_tx. cbv zeta. set (l1 := set_circuits _ _ _ _).
  assert (aside l l1) as H1.
  { by apply aside_circuits, aside_emit. }
  unfold on_channel. destruct (sign_next_commitment (lk_channel l1)) as [c [sigs|e]] eqn:E; eexists _, _; (split; [done|]); cbv beta iota.
  - etrans; [by apply aside_runs|]. eapply (runs_send OpSignNextCommitment l1 _ c (CommitSig sigs)).
    + cbn [run_op]. by rewrite E.
    + done.
    + done.
    + cbn [sent]. by rewrite E.
    + done.
    + intros _. left. by repeat constructor.
    + apply aside_ack_down_stream.
  - destruct (is_no_window e) eqn:Ew.
    + cbv iota. rewrite (sign_no_window _ _ _ E Ew). etrans; [by apply aside_runs | apply runs_no_change].
    + eapply stuck_trans; [by apply runs_stuck, aside_runs|].
      exists [], 1%nat. split_and!; [by rewrite app_nil_r | by constructor | done].
Qed.

Lemma update_commit_tx_or_fail_runs l : runs l (update_commit_tx_or_fail l).1.
Proof using Type.
  unfold update_commit_tx_or_fail. destruct (update_commit_tx_runs l) as (l' & [[]|e] & -> & H); [done|].
  by apply runs_fail_code.
Qed.

Lemma try_batch_runs l : runs l (try_batch_update_commit_tx l).
Proof using Type. unfold try_batch_update_commit_tx. case_match; [done | apply update_commit_tx_or_fail_runs]. Qed.

(** *** HTLCs *)

Lemma send_htlc_error_runs id e l :
  pol l → runs l (send_htlc_error id e l) ∧ lk_quiescer (send_htlc_error id e l) = lk_quiescer l.
Proof using Type.
  intros Hpol. unfold send_htlc_error.
  destruct (runs_method (OpFailHTLC id) (fail_htlc id) (λ _, MsgFail id) l) as (l1 & [a|x] & -> & Hq & H); [done..| |done].
  apply H; [reflexivity|]. by destruct e.
Qed.

Lemma send_malformed_runs id l :
  pol l → runs l (send_malformed_htlc_error id l) ∧ lk_quiescer (send_malformed_htlc_error id l) = lk_quiescer l.
Proof using Type.
  intros Hpol. unfold send_malformed_htlc_error.
  destruct (runs_method (OpMalformedFailHTLC id) (malformed_fail_htlc id) (λ _, MsgFail id) l) as (l1 & [a|x] & -> & Hq & H);
    [done..| |done]. by apply H.
Qed.

Lemma resolution_runs r id e l :
  pol l → runs l (process_htlc_resolution r id e l).1 ∧
          lk_quiescer (process_htlc_resolution r id e l).1 = lk_quiescer l.
Proof using Type.
  intros Hpol. destruct r as [preimage|]; simpl; [|by apply send_htlc_error_runs].
  unfold settle_htlc_msg.
  destruct (runs_method (OpSettleHTLC preimage id) (settle_htlc preimage id) (λ _, MsgSettle preimage id) l)
    as (l1 & [a|x] & -> & Hq & H); [done..| |done]. by apply H.
Qed.

Lemma process_remote_adds_runs d adds packets l : pol l → runs l (process_remote_adds_loop d adds packets l).
Proof using Type.
  revert packets l. induction adds as [|pd adds IH]; intros packets l Hpol; cbn [process_remote_adds_loop].
  { destruct packets as [|p ps]; [done|]. by apply aside_runs, aside_emit. }
  assert (∀ l1, runs l l1 ∧ lk_quiescer l1 = lk_quiescer l → ∀ ps, runs l (process_remote_adds_loop d adds ps l1)) as Hgo.
  { intros l1 [Hr Hq] ps. etrans; [exact Hr|]. apply IH. unfold pol. by rewrite Hq. }
  unfold process_remote_add. destruct (d pd) as [|e|r e|e| |].
  - by apply Hgo, send_malformed_runs.
  - by apply Hgo, send_htlc_error_runs.
  - pose proof (resolution_runs r (pd_htlc_index pd) e l Hpol) as H.
    destruct (process_htlc_resolution _ _ _ _) as [l1 [[]|x]]; simpl in H; [by apply Hgo|].
    apply runs_fail_code; [apply runs_stuck, H | done].
  - apply Hgo. split; [|done]. apply aside_runs. split; [|done]. exists []. rewrite app_nil_r. by repeat constructor.
  - by apply Hgo.
  - apply runs_fail_code; [apply runs_stuck; reflexivity | done].
Qed.

Lemma aside_settle_fails pkg l : aside l (process_remote_settle_fails pkg l).
Proof using Type. unfold process_remote_settle_fails. cbv zeta. case_match; [done|]. by apply aside_emit. Qed.

(** *** Quiescence *)

Lemma send_owed_stfu_runs {A} (q : quiescer A) : ∃ q' m, send_owed_stfu q = (q', Ok m) ∧ (m = None → q' = q).
Proof using Type.
  unfold send_owed_stfu. destruct (negb (owe_stfu q) || negb (can_send_stfu q)) eqn:E; [by eexists _, _|].
  apply orb_false_iff in E as [_ E%negb_false_iff]. unfold can_send_stfu in E. apply negb_true_iff in E.
  unfold make_stfu, can_send_stfu. rewrite E. cbn. eexists _, _. by split.
Qed.

Lemma send_owed_runs l :
  no_dangling_updates Local (lk_channel l) = true → ∃ l', send_owed l = (l', Ok ()) ∧ runs l l'.
Proof using Type.
  intros Hd. unfold send_owed. destruct (send_owed_stfu_runs (lk_quiescer l)) as (q & [msg|] & E & Hq); rewrite E.
  - eexists. split; [done|]. exists [SendMessage (StfuMsg msg)], 0%nat.
    split; [split_and!; [done | intros _; by repeat constructor | done]|]. intros Hf. split; [done|].
    apply node_steps_one. by apply NsStfu.
  - rewrite (Hq eq_refl). eexists. split; [done|]. apply runs_quiescer; [intros _; apply calm_refl | done].
Qed.

Lemma calm_init {A} req (q : quiescer A) :
  calm (qz_progress q) (qz_progress (init_stfu req q)) ∧ qz_channel_initiator (init_stfu req q) = qz_channel_initiator q.
Proof using Type.
  unfold init_stfu. destruct (qz_refuse_init q); [split; [apply calm_refl | done]|].
  destruct (qp_local_init _) eqn:El; [split; [apply calm_refl | done]|].
  destruct (qp_sent _) eqn:Es; [split; [apply calm_refl | done]|]. split; [|done]. unfold calm. cbn. by rewrite Es.
Qed.

Lemma calm_refuse {A} e (q : quiescer A) :
  calm (qz_progress q) (qz_progress (refuse_init e q).1) ∧
  qz_channel_initiator (refuse_init e q).1 = qz_channel_initiator q.
Proof using Type.
  unfold refuse_init. cbn. destruct (negb _ || _) eqn:E; [split; [apply calm_refl | done]|].
  apply orb_false_iff in E as [_ E]. unfold calm. destruct (qz_active_req q); cbn; by rewrite E.
Qed.

Lemma handle_quiescence_req_runs req l : runs l (handle_quiescence_req req l).
Proof using Type.
  unfold handle_quiescence_req. cbv zeta. destruct (calm_init req (lk_quiescer l)) as [Hc Hi].
  set (l1 := set_quiescer _ _). assert (runs l l1) as H1 by by apply runs_quiescer.
  destruct (no_dangling_updates Local _) eqn:E; cbn [negb]; [|done].
  destruct (send_owed_runs l1 E) as (l2 & -> & H2). by etrans.
Qed.

(** *** The peer's messages *)

(** A message taken, after calls that send nothing, and what follows. *)
Definition takes w l l' : Prop :=
  ∃ es n, goes_on l l' es n ∧
    (lk_failed l' = false → lk_failed l = false ∧
       ∃ j y k x, n = (j + (take_calls w + k))%nat ∧ node_steps j (node_of l) [] y ∧ node_take polite w y x ∧
              node_steps k x (wires_of es) (node_of l')).

Lemma takes_runs w l l1 l2 : takes w l l1 → runs l1 l2 → takes w l l2.
Proof using Type.
  intros (es & n & G & H) (es' & k' & G' & H'). exists (es ++ es'), (n + k')%nat. split; [by eapply goes_on_trans|].
  intros Hf. destruct (H' Hf) as [Hf1 Hs1]. destruct (H Hf1) as (Hf0 & j & y & k & x & -> & Hj & Ht & Hs). split; [done|].
  exists j, y, (k + k')%nat, x. split_and!; [lia | done | done|]. rewrite wires_app. by eapply node_steps_app.
Qed.

Lemma takes_failf w f l l' : stuck l l' → (polite = true → lf_code f ≠ ErrStfuViolation) → takes w l (failf f l').
Proof using Type.
  intros H Hf. destruct (runs_failf f l l' H Hf) as (es & k & G & Hr). exists es, k. split; [done|].
  intros E. exfalso. unfold failf in E. by destruct (lk_failed l') eqn:E'; simpl in E; [congruence|].
Qed.

(** The channel's method that a message calls. *)
Lemma takes_call {A} w m (f : M A) l :
  lk_failed l = false → chan_message w = Some m →
  (∀ c, accepted m c = is_ok (f c).2) → (∀ c c' a, f c = (c', Ok a) → run_op (receive_op m) c = Some c') →
  ∃ l1 r, on_channel f l = (l1, r) ∧ match r with Ok _ => takes w l l1 | Err _ => stuck l l1 end.
Proof using Type.
  intros Hf Hm Hacc Hrun. pose proof (stuck_call f l) as Hs. unfold on_channel in *.
  specialize (Hacc (lk_channel l)). destruct (f (lk_channel l)) as [c [a|e]] eqn:E; eexists _, _; (split; [done|]);
    cbv beta iota; [|done].
  exists [], 1%nat. split; [split_and!; [by rewrite app_nil_r | by constructor | done]|]. intros _. split; [done|].
  exists 0%nat, (node_of l), 0%nat, (c, lk_quiescer l). split_and!; [unfold take_calls; by rewrite Hm | constructor | | constructor].
  eapply NtChannel; [done | by rewrite Hacc | by eapply Hrun].
Qed.

Lemma aside_takes w l l1 l2 : aside l l1 → takes w l1 l2 → takes w l l2.
Proof using Type.
  intros [(es & E & W & N) (Hn & Hf & Hc)] (es' & n & (E' & N' & C') & H). exists (es ++ es'), n. split.
  - split_and!; [by rewrite E', E, app_assoc | intros; apply Forall_app; split; [done | by apply N'] | lia].
  - rewrite <-Hn, <-Hf. intros Hf'. destruct (H Hf') as (H1 & j & y & k & x & H2 & H3 & H4 & H5). split; [done|]. exists j, y, k, x.
    by rewrite wires_app, W.
Qed.

Lemma stuck_refl l : stuck l l.
Proof using Type. exists [], 0%nat. split_and!; [by rewrite app_nil_r | by constructor | done]. Qed.

Lemma method_receive {A} op (m : M A) c c' a :
  (∀ c, run_op op c = Some (m c).1) → m c = (c', Ok a) → run_op op c = Some c'.
Proof using Type. intros H E. by rewrite H, E. Qed.

Lemma take_update_add htlc b l :
  lk_failed l = false → takes (UpdateAdd htlc b) l (process_remote_update_add_htlc htlc b l).
Proof using Type.
  intros Hf. unfold process_remote_update_add_htlc.
  destruct (lk_incoming_add_blocked l); [by apply takes_failf; [apply stuck_refl|]|].
  destruct (b && _); [by apply takes_failf; [apply stuck_refl|]|].
  destruct (is_overexposed_with_htlc _ _ _); [by apply takes_failf; [apply stuck_refl|]|].
  destruct (takes_call (UpdateAdd htlc b) (MsgAdd htlc) (receive_htlc htlc) l) as (l1 & [a|e] & -> & H); try done.
  - intros c c' a. by apply (method_receive (OpReceiveHTLC htlc)).
  - by apply takes_failf.
Qed.

Lemma take_update_fulfill preimage id l :
  lk_failed l = false → takes (UpdateFulfill preimage id) l (process_remote_update_fulfill_htlc preimage id l).
Proof using Type.
  intros Hf. unfold process_remote_update_fulfill_htlc. destruct (negb _); [by apply takes_failf; [apply stuck_refl|]|].
  destruct (takes_call (UpdateFulfill preimage id) (MsgSettle preimage id) (receive_htlc_settle preimage id) l)
    as (l1 & [a|e] & -> & H); try done.
  - intros c c' a. by apply (method_receive (OpReceiveHTLCSettle preimage id)).
  - eapply takes_runs; [exact H|]. apply aside_runs. etrans; [|by apply aside_emit].
    split; [|done]. exists []. rewrite app_nil_r. by repeat constructor.
  - by apply takes_failf.
Qed.

Lemma take_update_fail w id l :
  lk_failed l = false → chan_message w = Some (MsgFail id) → takes w l (process_remote_update_fail_htlc id l).
Proof using Type.
  intros Hf Hw. unfold process_remote_update_fail_htlc.
  destruct (takes_call w (MsgFail id) (receive_fail_htlc id) l) as (l1 & [a|e] & -> & H); try done.
  - intros c c' a. by apply (method_receive (OpReceiveFailHTLC id)).
  - by apply takes_failf.
Qed.

(** Calls that send nothing. *)
Definition quiet l l' : Prop :=
  lk_effects l' = lk_effects l ∧ lk_failed l' = lk_failed l ∧
  ∃ j, lk_calls l' = (j + lk_calls l)%nat ∧ node_steps j (node_of l) [] (node_of l').

Lemma quiet_runs l l' : quiet l l' → runs l l'.
Proof using Type.
  intros (E & Ef & j & Ec & Hs). exists [], j. split; [split_and!; [by rewrite app_nil_r | by constructor | done]|].
  by rewrite Ef.
Qed.

Lemma quiet_takes w l l1 l2 : quiet l l1 → takes w l1 l2 → takes w l l2.
Proof using Type.
  intros (E & Ef & i & Ec & Hs) (es & n & (E' & N' & C') & H). exists es, (i + n)%nat. split.
  - split_and!; [by rewrite E', E | done | lia].
  - rewrite <-Ef. intros Hf. destruct (H Hf) as (H1 & j & y & k & x & -> & H3 & H4 & H5). split; [done|].
    exists (i + j)%nat, y, k, x. split_and!; [lia | | done | done]. by apply (node_steps_app i j _ (node_of l1) _ [] []).
Qed.

Lemma exceeds_quiet rate l : ∃ l1 r, exceeds_fee_exposure_limit rate l = (l1, r) ∧ quiet l l1 ∧ lk_quiescer l1 = lk_quiescer l.
Proof using Type.
  unfold exceeds_fee_exposure_limit. cbv zeta. unfold on_channel.
  destruct (commit_fee_total_at rate (lk_channel l)) as [c r] eqn:E.
  assert (quiet l (set_channel c l)) as H.
  { split_and!; try done. exists 1%nat. split; [done|]. apply node_steps_one.
    apply (NsOp polite (OpCommitFeeTotalAt rate)); try done; [cbn [run_op]; by rewrite E | by intros _; left; constructor]. }
  destruct r as [[a b]|e]; eexists _, _; by split_and!.
Qed.

Lemma take_update_fee rate l :
  lk_failed l = false → takes (UpdateFee rate) l (process_remote_update_fee rate l).
Proof using Type.
  intros Hf. unfold process_remote_update_fee. destruct (pr_is_initiator _); [by apply takes_failf; [apply stuck_refl|]|].
  destruct (exceeds_quiet rate l) as (l1 & r & -> & Hq & _). destruct r as [[|]|e].
  1, 3: apply takes_failf; [by apply runs_stuck, quiet_runs | done].
  destruct (takes_call (UpdateFee rate) (MsgFee rate) (receive_update_fee rate) l1) as (l2 & [a|e] & -> & H); try done.
  - by rewrite (proj1 (proj2 Hq)).
  - intros c c' a. by apply (method_receive (OpReceiveUpdateFee rate)).
  - by eapply quiet_takes.
  - apply takes_failf; [|done]. eapply stuck_trans; [by apply runs_stuck, quiet_runs | exact H].
Qed.

Lemma takes_stuck w l l' : takes w l l' → stuck l l'.
Proof using Type. intros (es & n & G & _). by exists es, n. Qed.

Lemma aside_set_preimages ps l : aside l (set_uncommitted_preimages ps l).
Proof using Type. split; [|done]. exists []. rewrite app_nil_r. by repeat constructor. Qed.

Lemma send_owed_if_clean_runs l : runs l (send_owed_if_clean l).
Proof using Type.
  unfold send_owed_if_clean. destruct (no_dangling_updates Local (lk_channel l)) eqn:E; [|done].
  by destruct (send_owed_runs l E) as (l' & -> & H).
Qed.

Lemma owed_commitment_runs l : runs l (if owe_commitment Local (lk_channel l) then (update_commit_tx_or_fail l).1 else l).
Proof using Type. case_match; [apply update_commit_tx_or_fail_runs | done]. Qed.

Lemma take_commit_sig sigs l :
  lk_failed l = false → takes (CommitSig sigs) l (process_remote_commit_sig sigs l).
Proof using Type.
  intros Hf. unfold process_remote_commit_sig. cbv zeta. set (l1 := set_uncommitted_preimages _ _).
  assert (aside l l1) as H1.
  { etrans; [by apply (aside_emit (AddPreimages (lk_uncommitted_preimages l))) | apply aside_set_preimages]. }
  eapply aside_takes; [exact H1|]. clearbody l1.
  destruct (takes_call (CommitSig sigs) (MsgCommitSig sigs) (receive_new_commitment sigs) l1) as (l2 & [a|e] & -> & H);
    [by rewrite (proj1 (proj2 (proj2 H1))) | done | done | | | by apply takes_failf].
  { intros c c' a E. cbn [run_op receive_op]. by rewrite E. }
  unfold on_channel. destruct (revoke_current_commitment (lk_channel l2)) as [c [[[msg ct] fin]|e]] eqn:E; cbv beta iota.
  2: { apply takes_failf; [|done]. eapply stuck_trans; [eapply takes_stuck, H|].
       pose proof (stuck_call revoke_current_commitment l2) as Hs. unfold on_channel in Hs. by rewrite E in Hs. }
  eapply takes_runs; [exact H|]. set (l3 := send _ _). assert (runs l2 l3) as H3.
  { apply (runs_send OpRevokeCurrentCommitment l2 (set_channel c l2) c); try done.
    - cbn [run_op]. by rewrite E.
    - cbn [sent]. by rewrite E.
    - intros _. left. by repeat constructor. }
  etrans; [exact H3|]. destruct (owe_commitment Local _); [|apply send_owed_if_clean_runs].
  pose proof (update_commit_tx_or_fail_runs l3) as H4. destruct (update_commit_tx_or_fail l3) as [l4 [|]]; simpl in H4; [|done].
  etrans; [exact H4 | apply send_owed_if_clean_runs].
Qed.

Lemma take_revoke d msg l :
  lk_failed l = false → takes (RevokeAndAckMsg msg) l (process_remote_revoke_and_ack d msg l).
Proof using Type.
  intros Hf. unfold process_remote_revoke_and_ack.
  destruct (takes_call (RevokeAndAckMsg msg) (MsgRevoke msg) (receive_revocation msg) l) as (l2 & [[pkg ct]|e] & -> & H);
    try done; [| |by apply takes_failf].
  { intros c c' a E. cbn [run_op receive_op]. by rewrite E. }
  cbv zeta. eapply takes_runs; [exact H|]. set (l3 := if can_send_updates _ then _ else _).
  assert (runs l2 l3) as H3.
  { unfold l3. destruct (can_send_updates _) eqn:Ec; [by apply process_remote_adds_runs; intros _|].
    apply runs_quiescer; [intros _; apply calm_refl | done]. }
  etrans; [exact H3|]. etrans; [apply aside_runs, aside_settle_fails|]. case_match; [done | apply owed_commitment_runs].
Qed.

Lemma take_stfu msg l :
  lk_failed l = false →
  (polite = true → no_dangling_updates Remote (lk_channel l) = true ∧ ∃ q', recv_stfu msg (lk_quiescer l) = (q', Ok ())) →
  takes (StfuMsg msg) l (match handle_stfu msg l with (l, Ok _) => l | (l, Err _) => stfu_failf l end).
Proof using Type.
  intros Hf Hpol. unfold handle_stfu. destruct (no_dangling_updates Remote _) eqn:Ed; cbn [negb].
  2: { apply takes_failf; [apply stuck_refl|]. intros Hp. by destruct (Hpol Hp). }
  destruct (recv_stfu msg (lk_quiescer l)) as [q [[]|e]] eqn:E.
  2: { apply takes_failf; [|intros Hp; by destruct (Hpol Hp) as [_ [q' [=]]]].
       exists [], 0%nat. split_and!; [by rewrite app_nil_r | by constructor | done]. }
  assert (takes (StfuMsg msg) l (set_quiescer q l)) as H.
  { exists [], 0%nat. split; [split_and!; [by rewrite app_nil_r | by constructor | done]|]. intros _. split; [done|].
    exists 0%nat, (node_of l), 0%nat, (lk_channel l, q). split_and!; [done | constructor | by apply NtStfu | constructor]. }
  destruct (no_dangling_updates Local _) eqn:El; [|done].
  destruct (send_owed_runs _ El) as (l' & -> & H'). by eapply takes_runs.
Qed.

(** Whatever the peer sends is taken as the protocol says. *)
Lemma upstream_takes d w l :
  lk_failed l = false →
  (polite = true → (is_channel_update w = true → can_recv_updates (lk_quiescer l) = true) ∧
     ∀ msg, w = StfuMsg msg → no_dangling_updates Remote (lk_channel l) = true ∧
                              ∃ q', recv_stfu msg (lk_quiescer l) = (q', Ok ())) →
  takes w l (process_upstream_msg d w l).
Proof using Type.
  intros Hf Hpol. unfold process_upstream_msg. destruct (is_channel_update w && _) eqn:Eu.
  { apply takes_failf; [apply stuck_refl|]. intros Hp. destruct (Hpol Hp) as [Hu _].
    apply andb_true_iff in Eu as [Eu Er]. by rewrite (Hu Eu) in Er. }
  destruct w as [htlc b|preimage id|id|id|rate|sigs|msg|msg| |].
  - by apply take_update_add.
  - by apply take_update_fulfill.
  - by apply take_update_fail.
  - by apply take_update_fail.
  - by apply take_update_fee.
  - by apply take_commit_sig.
  - by apply take_revoke.
  - apply take_stfu; [done|]. intros Hp. by apply (Hpol Hp).
  - exists [], 0%nat. split; [split_and!; [by rewrite app_nil_r | by constructor | done]|]. intros _. split; [done|].
    exists 0%nat, (node_of l), 0%nat, (node_of l). split_and!; [done | constructor | apply NtWarning | constructor].
  - by apply takes_failf; [apply stuck_refl|].
Qed.

(** *** The link's own events *)

(** Amounts and fee rates are machine integers. *)
Definition event_ok (ev : link_event) : Prop :=
  match ev with
  | Downstream pkt => match hp_htlc pkt with DownAdd htlc => in_u64 (uah_amount htlc) | _ => True end
  | UpdateFeeTimer new_commit_fee _ => in_u32 new_commit_fee
  | _ => True
  end.

(** What quiescence asks of the link's surroundings: that no held invoice is
    resolved while the link's updates are stopped, and that no protocol on top
    of quiescence ends it. *)
Definition polite_event (ev : link_event) l : Prop :=
  match ev with
  | HodlQueue _ _ => can_send_updates (lk_quiescer l) = true
  | ResumeReq _ => False
  | _ => True
  end.

Lemma downstream_add_runs pkt htlc l :
  in_u64 (uah_amount htlc) → pol l → runs l (handle_downstream_update_add pkt htlc l).
Proof using Type.
  intros Ha Hpol. unfold handle_downstream_update_add. cbv zeta.
  assert (∀ l1, runs l l1 → runs l (emit (FailAdd (hp_in_key pkt)) l1)) as Hfail.
  { intros l1 H. etrans; [exact H | by apply aside_runs, aside_emit]. }
  destruct (_ || _); [by apply Hfail|]. destruct (is_overexposed_with_htlc _ _ _); [by apply Hfail|].
  destruct (runs_method (OpAddHTLC htlc) (add_htlc htlc) (λ i, MsgAdd (set_uah_id i htlc)) l)
    as (l1 & [i|e] & -> & Hq & H); [done..| |by apply Hfail].
  etrans; [|apply try_batch_runs]. apply H; [|done]. by apply aside_circuits.
Qed.

Lemma local_resolution_runs {A} op (m : M A) f pkt w l :
  (∀ c, run_op op c = Some (m c).1) → (∀ c, sent op c = when_ok (m c).2 (λ _, f)) → own_op op = true → op_ok op → pol l →
  chan_message w = Some f →
  runs l (match on_channel m l with
          | (l, Err _) => emit (AckPacket (hp_in_key pkt)) l
          | (l, Ok _) => (update_commit_tx_or_fail (send w (close_circuit (hp_in_key pkt) l))).1
          end).
Proof using Type.
  intros Hrun Hsent Hop Hok Hpol Hw.
  destruct (runs_method op m (λ _, f) l) as (l1 & [a|e] & -> & Hq & H); [done..| |].
  - etrans; [|apply update_commit_tx_or_fail_runs]. apply H; [|done]. by apply aside_circuits.
  - etrans; [exact H | by apply aside_runs, aside_emit].
Qed.

Lemma downstream_pkt_runs pkt l : event_ok (Downstream pkt) → runs l (handle_downstream_pkt pkt l).
Proof using Type.
  intros Hok. unfold handle_downstream_pkt. simpl in Hok. destruct (can_send_updates (lk_quiescer l)) eqn:Ec; cbn [negb]; [|done].
  assert (pol l) as Hpol by by intros _. destruct (hp_htlc pkt) as [htlc|preimage|].
  - by apply downstream_add_runs.
  - by eapply (local_resolution_runs (OpSettleHTLC preimage (hp_incoming_htlc_id pkt))).
  - unfold process_local_update_fail_htlc, send_incoming_htlc_failure_msg.
    eapply (local_resolution_runs (OpFailHTLC (hp_incoming_htlc_id pkt))); try done.
    by destruct (hp_obfuscator pkt) as [[]|].
Qed.

Lemma update_fee_runs new_commit_fee min_relay_fee l :
  in_u32 new_commit_fee → (∀ e, (handle_update_fee new_commit_fee min_relay_fee l).2 ≠ Err (FeeCommitment e)) →
  runs l (handle_update_fee new_commit_fee min_relay_fee l).1.
Proof using Type.
  intros Hu. unfold handle_update_fee. cbv zeta. destruct (negb _); [done|]. destruct (negb (should_adjust_commit_fee _ _ _)); [done|].
  unfold update_channel_fee. destruct (eligible_to_update l) eqn:Ee; cbn [negb]; [|done].
  apply andb_true_iff in Ee as [_ Ec]. destruct (exceeds_quiet new_commit_fee l) as (l1 & r & -> & Hq & Hz).
  intros He. destruct r as [[|]|e]; [by apply quiet_runs| |by apply quiet_runs].
  destruct (runs_method (OpUpdateFee new_commit_fee) (update_fee new_commit_fee) (λ _, MsgFee new_commit_fee) l1)
    as (l2 & [a|e] & Em & Hq2 & H); [done..| | |]; rewrite ?Em in *.
  - unfold pol. by rewrite Hz.
  - destruct (update_commit_tx_runs (send (UpdateFee (u32 new_commit_fee)) l2)) as (l3 & [[]|e] & Eu & H3); rewrite Eu in *.
    + etrans; [by apply quiet_runs|]. etrans; [|exact H3]. apply H; [done|]. simpl. by rewrite u32_small.
    + by destruct (He e).
  - etrans; [by apply quiet_runs | exact H].
Qed.

Lemma hodl_queue_runs rs l :
  pol l → ∃ l' b, process_hodl_queue rs l = (l', b) ∧ if b : bool then runs l l' else stuck l l'.
Proof using Type.
  revert l. induction rs as [|[id r] rs IH]; intros l Hpol; cbn [process_hodl_queue].
  { destruct (update_commit_tx_runs l) as (l' & [[]|e] & -> & H); by eexists _, _. }
  destruct (lk_hodl_map l !! id) as [e|]; [|by eexists _, _; split; [done | apply stuck_refl]].
  pose proof (resolution_runs r id e l Hpol) as [H Hq].
  destruct (process_htlc_resolution r id e l) as [l1 [[]|x]]; simpl in H, Hq;
    [|by eexists _, _; split; [done | by apply runs_stuck]].
  set (l2 := set_hodl_map _ _). assert (aside l1 l2) as H2.
  { split; [|done]. exists []. rewrite app_nil_r. by repeat constructor. }
  destruct (IH l2) as (l' & b & -> & H').
  { unfold pol. by rewrite (aside_quiescer _ _ H2), Hq. }
  eexists _, _. split; [done|]. destruct b.
  - etrans; [exact H|]. by etrans; [apply aside_runs, H2|].
  - eapply stuck_trans; [by apply runs_stuck|]. by eapply stuck_trans; [apply runs_stuck, aside_runs, H2|].
Qed.

Lemma htlc_resolution_runs r rs l : pol l → runs l (handle_htlc_resolution r rs l).
Proof using Type.
  intros Hpol. unfold handle_htlc_resolution. destruct (hodl_queue_runs (r :: rs) l Hpol) as (l' & [|] & -> & H); [done|].
  by apply runs_fail_code.
Qed.

Lemma resume_runs d l : polite = false → runs l (resume_quiescence d l).
Proof using Type.
  intros Hp. unfold resume_quiescence. destruct (negb _); [done|]. cbv zeta. set (l1 := foldl _ _ _). assert (runs l l1) as H1.
  { unfold l1. generalize (qz_resume_queue (lk_quiescer l)) as pkgs. intros pkgs. assert (runs l l) as H by done.
    revert H. generalize l at 2 4 as l2. induction pkgs as [|pkg pkgs IH]; intros l2 H2; simpl; [done|].
    apply IH. etrans; [exact H2|]. apply process_remote_adds_runs. intros. congruence. }
  etrans; [exact H1|]. etrans; [|apply owed_commitment_runs]. apply runs_quiescer; [congruence | done].
Qed.

(** Whatever a link does by itself is steps of its node. *)
Lemma event_runs ev l :
  (∀ w d, ev ≠ Upstream w d) → event_ok ev → (polite = true → polite_event ev l) →
  (∀ e, (htlc_manager ev l).2 ≠ Err (FeeCommitment e)) → runs l (htlc_manager ev l).1.
Proof using Type.
  intros Hu Hok Hpol He. destruct ev as [w d|pkg| | |new_commit_fee min_relay_fee|r rs|req|d|b d|].
  - by destruct (Hu w d).
  - by apply downstream_pkt_runs.
  - apply update_commit_tx_or_fail_runs.
  - by apply runs_failf; [apply stuck_refl|].
  - by apply update_fee_runs.
  - apply htlc_resolution_runs. intros Hp. by apply (Hpol Hp).
  - apply handle_quiescence_req_runs.
  - apply resume_runs. destruct polite; [by destruct (Hpol eq_refl) | done].
  - simpl. apply aside_runs. destruct d; (split; [|done]); exists []; rewrite app_nil_r; by repeat constructor.
  - simpl. apply runs_quiescer; [intros _|]; apply calm_refuse.
Qed.
End Refine.
