(* ===== verification/Links.v ===== *)
(** * Two links

    Two links of [Link] with the messages between them. Every run of theirs
    is a run of the two channels, so what [ChannelAgreement] shows holds of
    them; quiescence comes with a channel at rest, and with an initiator that
    the two agree on. The last section is about the held invoices, which a link
    resolves without a look at its quiescer. *)

From S2P Require Import Prelude CircuitMap Chainfee Shachain UpdateLog Channel ChannelToy ChannelLog ChannelView ChannelInv.
From S2P Require Import ChannelCommit ChannelAfter ChannelSteps ChannelRun ChannelHist ChannelPast ChannelCompact.
From S2P Require Import ChannelClosed ChannelPastSteps ChannelPeers ChannelSystem ChannelAgreement Quiescer Link.
From S2P Require Import LinkProtocol LinkRefine.

(** ** The system *)

Record links := Links { ls_link : channel_party → link; ls_wire : channel_party → list wire }.

(** What happens to a link, and the next message of the other that it gets. *)
Inductive link_action :=
| Happens (p : channel_party) (ev : link_event)
| Arrives (p : channel_party) (decide_add : payment_descriptor → add_outcome).

Definition running (s : links) : Prop := ∀ p, lk_failed (ls_link s p) = false.
#[export] Instance running_decision s : Decision (running s).
Proof.
  destruct (lk_failed (ls_link s Local)) eqn:E; [right; intros H; by rewrite H in E|].
  destruct (lk_failed (ls_link s Remote)) eqn:E'; [right; intros H; by rewrite H in E'|]. left. by intros [].
Defined.

Definition is_upstream (ev : link_event) : bool := match ev with Upstream _ _ => true | _ => false end.

(** A commitment that cannot be signed for a new fee is only logged: the
    channel may be left in the middle of the method. *)
Definition is_commitment_error (r : result fee_error ()) : bool :=
  match r with Err (FeeCommitment _) => true | _ => false end.

(** The calls of the channels. *)
Definition calls (s : links) : nat := lk_calls (ls_link s Local) + lk_calls (ls_link s Remote).

Section System.
Context {HP : HashPrims} {CP : ChannelPrims} {LP : LinkPrims}.

(** The link after an event, with the effects of that event. *)
Definition handled (ev : link_event) (l : link) : link * result fee_error () := htlc_manager ev (set_effects [] l).

(** The links run as long as none has failed. *)
Definition links_act (a : link_action) (s : links) : option links :=
  if decide (running s) then
    match a with
    | Happens p ev =>
        let '(l, r) := handled ev (ls_link s p) in
        if is_upstream ev || is_commitment_error r then None
        else Some (Links (update_at p l (ls_link s))
                     (update_at p (ls_wire s p ++ wires_of (lk_effects l)) (ls_wire s)))
    | Arrives p d =>
        match ls_wire s (counter_party p) with
        | [] => None
        | w :: ws =>
            let l := (handled (Upstream w d) (ls_link s p)).1 in
            Some (Links (update_at p l (ls_link s))
                    (update_at p (ls_wire s p ++ wires_of (lk_effects l)) (update_at (counter_party p) ws (ls_wire s))))
        end
    end
  else None.

Definition link_action_ok (a : link_action) : Prop := match a with Happens _ ev => event_ok ev | Arrives _ _ => True end.
Definition link_action_polite (a : link_action) (s : links) : Prop :=
  match a with Happens p ev => polite_event ev (ls_link s p) | Arrives _ _ => True end.

Inductive links_step (polite : bool) : links → links → Prop :=
| LinksStep a s s' :
    link_action_ok a → (polite = true → link_action_polite a s) → links_act a s = Some s' → links_step polite s s'.

(** The nodes of the links *)
Definition pair_of (s : links) : pair := Pair (λ p, node_of (ls_link s p)) (ls_wire s).

(** Two links that have just been set up, on the two ends of a new channel. *)
Record fresh_links (t : Z) (s : links) : Prop := {
  fk_channels : fresh_peers t (channels (pair_of s));
  fk_wire p : ls_wire s p = [];
  fk_quiescer p : lk_quiescer (ls_link s p) = new_quiescer (initiator (lc_params (lk_channel (ls_link s p))));
  fk_failed p : lk_failed (ls_link s p) = false;
  fk_effects p : lk_effects (ls_link s p) = [];
  fk_calls p : lk_calls (ls_link s p) = 0%nat;
}.

(** ** Steps of the links are steps of the protocol *)

Definition shows (s : links) (t : pair) : Prop :=
  ∀ p, pn_node t p = node_of (ls_link s p) ∧ pn_wire t p = ls_wire s p.

Lemma node_steps_pair polite k p x ws y t :
  node_steps polite k x ws y → pn_node t p = x →
  ∃ t', pair_steps polite k t t' ∧
    (∀ q, pn_node t' q = update_at p y (pn_node t) q) ∧
    ∀ q, pn_wire t' q = update_at p (pn_wire t p ++ ws) (pn_wire t) q.
Proof.
  intros H. revert t. induction H as [x|k m x y z ws ws' Hst Hsts IH]; intros t Hx.
  - exists t. split_and!; [constructor|..]; intros q; rewrite ?app_nil_r, <-?Hx; by rewrite update_self.
  - rewrite <-Hx in Hst. destruct (IH (Pair (update_at p y (pn_node t)) (update_at p (pn_wire t p ++ ws) (pn_wire t))))
      as (t' & Hs & Hn & Hw); [cbn; by rewrite update_at_same|]. cbn [pn_node pn_wire] in *.
    exists t'. split_and!; [econstructor; [by apply PsOwn | done]|..]; intros q; rewrite ?Hn, ?Hw;
      unfold update_at; repeat case_decide; subst; try done. by rewrite <-app_assoc.
Qed.

Lemma calls_update s p l ws :
  (calls (Links (update_at p l (ls_link s)) ws) + lk_calls (ls_link s p) = calls s + lk_calls l)%nat.
Proof. unfold calls. destruct p; cbn [ls_link]; unfold update_at; repeat case_decide; try done; lia. Qed.

Lemma running_update s p l ws : running (Links (update_at p l (ls_link s)) ws) → lk_failed l = false.
Proof. intros H. specialize (H p). cbn [ls_link] in H. by rewrite update_at_same in H. Qed.

(** A delivery needs, on a polite run, that the quiescer takes the message. *)
Definition taken (s : links) : Prop :=
  ∀ p w ws, ls_wire s (counter_party p) = w :: ws →
    (is_channel_update w = true → can_recv_updates (lk_quiescer (ls_link s p)) = true) ∧
    ∀ msg, w = StfuMsg msg → no_dangling_updates Remote (lk_channel (ls_link s p)) = true ∧
                             ∃ q', recv_stfu msg (lk_quiescer (ls_link s p)) = (q', Ok ()).

(** What a step leaves of the moved link: its effects, and the steps of its
    node if it goes on. *)
Lemma links_step_pair polite s s' t :
  links_step polite s s' → (polite = true → taken s) → shows s t →
  (calls s ≤ calls s')%nat ∧
  (polite = true → (∀ p, no_violation (lk_effects (ls_link s p))) → ∀ p, no_violation (lk_effects (ls_link s' p))) ∧
  (running s' → ∃ t' k, pair_steps polite k t t' ∧ shows s' t' ∧ calls s' = (k + calls s)%nat).
Proof.
  intros [a s1 s2 Hok Hpol Hact] Htk Hsh. unfold links_act in Hact. case_decide as Hrun; [|done].
  destruct a as [p ev|p d]; cbn [link_action_ok link_action_polite] in *.
  - destruct (handled ev (ls_link s1 p)) as [l r] eqn:El.
    destruct (is_upstream ev || is_commitment_error r) eqn:Eb; [done|]. injection Hact as <-.
    apply orb_false_iff in Eb as [Eu Er].
    destruct (event_runs polite ev (set_effects [] (ls_link s1 p))) as (es & k & (E & N & C) & H).
    { by intros w d ->. } { done. } { by destruct ev. }
    { intros e. fold (handled ev (ls_link s1 p)). rewrite El. by intros [= ->]. }
    fold (handled ev (ls_link s1 p)) in E, C, H. rewrite El in E, C, H. cbn [fst lk_effects lk_calls lk_failed set_effects] in E, C, H.
    simpl in E. pose proof (calls_update s1 p l (update_at p (ls_wire s1 p ++ wires_of (lk_effects l)) (ls_wire s1))) as Hc.
    split_and!; [lia | |].
    + intros Hp Hno q. cbn [ls_link]. unfold update_at. case_decide; [rewrite E; by apply N | apply Hno].
    + intros Hr. destruct (H (running_update _ _ _ _ Hr)) as [_ Hst].
      destruct (node_steps_pair polite k p _ _ _ t Hst (proj1 (Hsh p))) as (t' & Hs & Hn & Hw).
      exists t', k. split_and!; [done | | lia]. intros q. rewrite Hn, Hw. cbn [ls_link ls_wire]. rewrite E.
      unfold update_at. case_decide; subst; rewrite ?(proj2 (Hsh p)); [done | apply Hsh].
  - destruct (ls_wire s1 (counter_party p)) as [|w ws] eqn:Ew; [done|].
    set (l := (handled (Upstream w d) (ls_link s1 p)).1) in Hact. injection Hact as <-.
    destruct (upstream_takes polite d w (set_effects [] (ls_link s1 p))) as (es & n & (E & N & C) & H).
    { apply Hrun. } { intros Hp. by apply (Htk Hp p w ws). }
    change (process_upstream_msg d w (set_effects [] (ls_link s1 p))) with l in E, C, H.
    cbn [lk_effects lk_calls lk_failed set_effects] in E, C, H. simpl in E.
    pose proof (calls_update s1 p l (update_at p (ls_wire s1 p ++ wires_of (lk_effects l))
      (update_at (counter_party p) ws (ls_wire s1)))) as Hc.
    split_and!; [lia | |].
    + intros Hp Hno q. cbn [ls_link]. unfold update_at. case_decide; [rewrite E; by apply N | apply Hno].
    + intros Hr. destruct (H (running_update _ _ _ _ Hr)) as (_ & j & y & k & x & -> & Hj & Hx & Hst).
      destruct (node_steps_pair polite j p _ _ _ t Hj (proj1 (Hsh p))) as (t1 & Hs1 & Hn1 & Hw1).
      set (t2 := Pair (update_at p x (pn_node t1)) (update_at (counter_party p) ws (pn_wire t1))).
      assert (pair_step polite (take_calls w) t1 t2) as Hs2.
      { apply (PsDeliver polite t1 p w ws x); [|by rewrite Hn1, update_at_same].
        rewrite Hw1, app_nil_r, update_self. by rewrite (proj2 (Hsh _)). }
      destruct (node_steps_pair polite k p x _ _ t2 Hst) as (t' & Hs & Hn & Hw); [apply update_at_same|].
      exists t', (j + (take_calls w + k))%nat. split_and!; [| |lia].
      { eapply pair_steps_app; [exact Hs1|]. by econstructor. }
      intros q. rewrite Hn, Hw. cbn [ls_link ls_wire pn_node pn_wire t2]. rewrite E.
      destruct (party_cases p q) as [-> | ->].
      * rewrite !update_at_same. split; [done|]. f_equal. rewrite update_at_cp, Hw1, app_nil_r, update_self. apply Hsh.
      * rewrite !update_at_other, !update_at_same, Hn1, update_at_other. split; [apply Hsh | done].
Qed.

Lemma links_step_impolite s s' : links_step true s s' → links_step false s s'.
Proof. intros [a s1 s2 Hok _ Hact]. by eapply LinksStep. Qed.

Lemma shows_pair_of s : shows s (pair_of s).
Proof. done. Qed.

Lemma links_step_calls polite s s' : links_step polite s s' → (calls s ≤ calls s')%nat.
Proof.
  intros H. destruct (links_step_pair false s s' (pair_of s)) as (Hc & _); [|done..].
  destruct polite; [by apply links_step_impolite | done].
Qed.

Lemma links_step_running polite s s' : links_step polite s s' → running s.
Proof. intros [a s1 s2 _ _ Hact]. unfold links_act in Hact. by case_decide. Qed.

Lemma links_steps_pair s0 s :
  rtc (links_step false) s0 s → running s →
  ∃ t k, pair_steps false k (pair_of s0) t ∧ shows s t ∧ calls s = (k + calls s0)%nat.
Proof.
  revert s. refine (rtc_ind_r _ s0 _ _); [intros Hr | intros s s1 Hrtc Hst IH Hr].
  - exists (pair_of s0), 0%nat. split_and!; [constructor | done | done].
  - destruct (IH (links_step_running _ _ _ Hst)) as (t & k & Hs & Hsh & Hc).
    destruct (links_step_pair false s s1 t Hst) as (_ & _ & H); [done | done|].
    destruct (H Hr) as (t' & m & Hs' & Hsh' & Hc'). exists t', (k + m)%nat.
    split_and!; [by eapply pair_steps_app | done | lia].
Qed.

(** C8: Two links are a refinement of two channels: whatever the peer, the
    switch, the registry and the timers make of them, the calls they make and
    the messages they exchange until one of them fails are a run of the two
    channels, with no more steps than calls of the channels' methods. *)
Theorem links_refine s0 s :
  rtc (links_step false) s0 s → running s →
  ∃ n u, nsteps peers_step n (channels (pair_of s0)) u ∧ (n + calls s0 ≤ calls s)%nat ∧
    ∀ p, pe_node u p = lk_channel (ls_link s p) ∧ pe_link u p = messages (ls_wire s p).
Proof.
  intros Hs Hr. destruct (links_steps_pair s0 s Hs Hr) as (t & k & Hst & Hsh & Hc).
  destruct (pair_steps_peers false k (pair_of s0) t _ (projects_channels _) Hst) as (m & u & Hu & Hp & Hm).
  exists m, u. split_and!; [done | lia|]. intros p. rewrite (proj1 (Hp p)), (proj2 (Hp p)).
  by rewrite (proj1 (Hsh p)), (proj2 (Hsh p)).
Qed.
End System.

(** ** Links that leave their surroundings polite *)

Section Polite.
Context {HP : HashPrims} {CP : ChannelPrims} {CL : ChannelLaws} {LP : LinkPrims} (t : Z).
Hypothesis Ht : in_u64 t.

Lemma fresh_links_pair s : fresh_links t s → fresh_pair t (pair_of s).
Proof using Type.
  intros H. split; [apply H | apply H|..]; intros p; cbn; by rewrite (fk_quiescer _ _ H).
Qed.

(** The state of two links, by a run of the protocol. *)
Record links_good (s0 s : links) : Prop := {
  lg_effects p : no_violation (lk_effects (ls_link s p));
  lg_pair : running s → ∃ x, shows s x ∧ pair_good t (Z.of_nat (calls s)) (channels (pair_of s0)) x;
}.

Lemma good_taken s0 s : links_good s0 s → running s → Z.of_nat (calls s) < 2 ^ 64 → taken s.
Proof using Type.
  intros H Hr Hn p w ws Ew. destruct (lg_pair _ _ H Hr) as (x & Hsh & Hx).
  rewrite <-(proj2 (Hsh _)) in Ew. pose proof (proj1 (Hsh p)) as En. split.
  - intros Hw. pose proof (update_accepted t _ _ x p w ws Hx Ew Hw) as Hc. by rewrite En in Hc.
  - intros msg ->. pose proof (stfu_accepted t _ _ x p msg ws Hx Hn Ew) as Hc. by rewrite En in Hc.
Qed.

Lemma links_run_good s0 s :
  fresh_links t s0 → rtc (links_step true) s0 s → Z.of_nat (calls s) + 1 < 2 ^ 64 → links_good s0 s.
Proof using CL Ht.
  intros H0. revert s. refine (rtc_ind_r _ s0 _ _); [intros Hn | intros s s1 Hrtc Hst IH Hn].
  - split.
    + intros p. rewrite (fk_effects _ _ H0). constructor.
    + intros _. exists (pair_of s0). split; [apply shows_pair_of|]. unfold calls. rewrite !(fk_calls _ _ H0).
      by apply fresh_pair_good, fresh_links_pair.
  - pose proof (links_step_calls _ _ _ Hst) as Hc. pose proof (links_step_running _ _ _ Hst) as Hr.
    destruct IH as [He Hp]; [lia|].
    assert (taken s) as Htk by (apply (good_taken s0); [done | done | lia]).
    destruct (Hp Hr) as (x & Hsh & Hx).
    destruct (links_step_pair true s s1 x Hst) as (_ & He' & Hp'); [done | done|]. split; [by apply He'|].
    intros Hr1. destruct (Hp' Hr1) as (x' & k & Hs & Hsh' & E). exists x'. split; [done|].
    replace (Z.of_nat (calls s1)) with (Z.of_nat (calls s) + Z.of_nat k) by lia.
    apply (pair_steps_good t Ht _ _ k x x'); [| done | done | lia]. apply fresh_links_pair in H0. apply H0.
Qed.


(** C10: No link fails the other for a violation of quiescence, as long as no
    held invoice is resolved while a link's updates are stopped and nothing
    resumes the channel: the links stop and start their other updates, and
    answer each other's [Stfu], as the protocol asks. *)
Theorem no_stfu_violation s0 s p :
  fresh_links t s0 → rtc (links_step true) s0 s → Z.of_nat (calls s) + 1 < 2 ^ 64 →
  ∀ f, OnChannelFailure f ∈ lk_effects (ls_link s p) → lf_code f ≠ ErrStfuViolation.
Proof using CL Ht.
  intros H0 H Hn f Hin Hf. pose proof (lg_effects _ _ (links_run_good s0 s H0 H Hn) p) as He.
  unfold no_violation in He. rewrite Forall_forall in He. by apply (bool_decide_eq_false_1 _ (He _ Hin)).
Qed.
End Polite.

(** ** Runs *)

Section Actions.
Context {HP : HashPrims} {CP : ChannelPrims} {LP : LinkPrims}.

Fixpoint links_acts (acts : list link_action) (s : links) : option links :=
  match acts with
  | [] => Some s
  | a :: acts => links_act a s ≫= links_acts acts
  end.

Lemma links_acts_steps polite acts s :
  Forall link_action_ok acts → (polite = true → Forall (λ a, ∀ s, link_action_polite a s) acts) →
  is_Some (links_acts acts s) → rtc (links_step polite) s (default s (links_acts acts s)).
Proof.
  intros Hok Hpol [s' Hs]. rewrite Hs. simpl. revert s Hs.
  induction acts as [|a acts IH]; intros s Hs; simpl in Hs; [by injection Hs as ->|].
  apply bind_Some in Hs as (s1 & H1 & H2). apply Forall_cons in Hok as [Ha Hok].
  eapply rtc_l; [|apply IH; [done | | exact H2]].
  - eapply LinksStep; [done | | exact H1]. intros Hp. specialize (Hpol Hp). apply Forall_cons in Hpol as [Hp' _]. apply Hp'.
  - intros Hp. specialize (Hpol Hp). by apply Forall_cons in Hpol as [_ ?].
Qed.
End Actions.

#[local] Instance toy_link_prims : LinkPrims := {|
  onion_hash p i := (match p with Local => Byte.x00 | Remote => Byte.x01 end) :: be_encode 8 i;
|}.

Definition toy_link (p : channel_party) : link :=
  ChannelLink (LinkConfig 500000000 1 false) (pe_node toy_peers p)
    (new_quiescer (initiator (lc_params (pe_node toy_peers p)))) false false false true [] [] [] [] ∅ [] 0.
Definition toy_links : links := Links toy_link (λ _, []).

Lemma toy_links_fresh : fresh_links 999340000 toy_links.
Proof.
  split; [|done..]. destruct toy_peers_fresh as [F1 F2 F3 F4 F5].
  by split.
Qed.

Definition toy_pkt : htlc_packet := HtlcPacket (7, 0) 0 (DownAdd toy_add) None.
Definition hold (_ : payment_descriptor) : add_outcome := HoldInvoice EncrypterTypeSphinx.

(** The opener adds an HTLC while the other asks for quiescence. *)
Definition toy_quiesce : list link_action :=
  [Happens Local (Downstream toy_pkt); Happens Remote (QuiescenceReq 1);
   Arrives Remote hold; Arrives Remote hold; Arrives Local hold; Arrives Local hold; Arrives Local hold;
   Arrives Remote hold; Arrives Remote hold].
Definition toy_quiet : links := default toy_links (links_acts toy_quiesce toy_links).


(** Each action of a sample is what the theorems ask for. *)
Ltac each_action := repeat (apply Forall_cons; split; [by vm_compute|]); by apply Forall_nil.

Lemma toy_quiet_steps polite : rtc (links_step polite) toy_links toy_quiet.
Proof. apply links_acts_steps; [each_action | intros _; each_action | by vm_compute; eauto]. Qed.

Lemma links_refine_witness :
  running toy_quiet ∧ calls toy_quiet = 10%nat ∧
  ∃ n u, nsteps peers_step n (channels (pair_of toy_links)) u ∧ (n + calls toy_links ≤ calls toy_quiet)%nat ∧
    ∀ p, pe_node u p = lk_channel (ls_link toy_quiet p) ∧ pe_link u p = messages (ls_wire toy_quiet p).
Proof.
  split_and!; [intros []; by vm_compute | by vm_compute |]. apply (links_refine toy_links toy_quiet).
  - apply toy_quiet_steps.
  - intros []; by vm_compute.
Defined.


(** A revocation that does not come. *)
Definition toy_dead : links := default toy_links (links_acts (toy_quiesce ++ [Happens Local PendingCommitTick]) toy_links).

Lemma toy_dead_steps : rtc (links_step true) toy_links toy_dead.
Proof. apply links_acts_steps; [each_action | intros _; each_action | by vm_compute; eauto]. Qed.

Lemma no_stfu_violation_witness :
  let f := LinkFailureError ErrRemoteUnresponsive LinkFailureDisconnect false in
  OnChannelFailure f ∈ lk_effects (ls_link toy_dead Local) ∧ lf_code f ≠ ErrStfuViolation.
Proof.
  intros f. assert (OnChannelFailure f ∈ lk_effects (ls_link toy_dead Local)) as H by (vm_compute; left).
  split; [exact H|]. apply (no_stfu_violation 999340000 toy_total toy_links toy_dead Local); [| | |exact H].
  - apply toy_links_fresh.
  - apply toy_dead_steps.
  - by vm_compute.
Defined.

(** ** Held invoices: a run *)

(** The HTLC is locked in and held for an invoice; then the two links
    negotiate quiescence. *)
Definition toy_hold : list link_action :=
  [Happens Local (Downstream toy_pkt); Arrives Remote hold; Arrives Remote hold;
   Arrives Local hold; Arrives Local hold; Arrives Remote hold;
   Happens Remote (QuiescenceReq 1); Arrives Local hold; Arrives Remote hold].
Definition toy_held : links := default toy_links (links_acts toy_hold toy_links).

(** ** Held invoices *)

Section Held.
Context {HP : HashPrims} {CP : ChannelPrims} {LP : LinkPrims}.

(** What the channel does with a resolution. *)
Definition resolves (r : htlc_resolution) (id : Z) : M () :=
  match r with HtlcSettleResolution preimage => settle_htlc preimage id | HtlcFailResolution => fail_htlc id end.

(** The update that the peer gets. *)
Definition resolution_update (r : htlc_resolution) (id : Z) (e : encrypter_type) : wire :=
  match r, e with
  | HtlcSettleResolution preimage, _ => UpdateFulfill preimage id
  | HtlcFailResolution, EncrypterTypeRelaying => UpdateFailMalformed id
  | HtlcFailResolution, _ => UpdateFail id
  end.

Definition emits (l l' : link) : Prop := ∃ es, lk_effects l' = lk_effects l ++ es.

Lemma emits_refl l : emits l l.
Proof using Type. exists []. by rewrite app_nil_r. Qed.
Lemma emits_trans l1 l2 l3 : emits l1 l2 → emits l2 l3 → emits l1 l3.
Proof using Type. intros [es E] [es' E']. exists (es ++ es'). by rewrite E', E, app_assoc. Qed.
Lemma emits_emit e l : emits l (emit e l).
Proof using Type. by exists [e]. Qed.
Lemma emits_acks ks l : emits l (foldl (λ l k, emit (AckPacket k) l) l ks).
Proof using Type.
  revert l. induction ks as [|k ks IH]; intros l; [apply emits_refl|]. cbn [foldl]. eapply emits_trans; [apply emits_emit | apply IH].
Qed.

Lemma emits_channel {A} (m : M A) l : emits l (on_channel m l).1.
Proof using Type. unfold on_channel. destruct (m (lk_channel l)). exists []; by rewrite app_nil_r. Qed.

Lemma emits_failf e l : emits l (failf e l).
Proof using Type. unfold failf. destruct (lk_failed l); [apply emits_refl|]. by eexists. Qed.

Lemma emits_commit l : emits l (update_commit_tx l).1.
Proof using Type.
  unfold update_commit_tx. set (l1 := set_circuits _ _ _ _). assert (emits l l1) as H1 by apply emits_emit.
  pose proof (emits_channel sign_next_commitment l1) as H2. destruct (on_channel sign_next_commitment l1) as [l2 [sigs|e]]; cbn [fst] in *.
  - eapply emits_trans; [exact H1|]. eapply emits_trans; [exact H2|]. eapply emits_trans; [|apply emits_emit].
    unfold ack_down_stream_packets. set (l3 := foldl _ l2 _). assert (emits l2 l3) as H3 by apply emits_acks.
    eapply emits_trans; [exact H3|]. eapply emits_trans; [apply emits_emit|]. by apply emits_acks.
  - by eapply emits_trans.
Qed.

Lemma emits_resolution r id e l : emits l (process_htlc_resolution r id e l).1.
Proof using Type.
  destruct r as [preimage|]; cbn [process_htlc_resolution].
  - unfold settle_htlc_msg. pose proof (emits_channel (settle_htlc preimage id) l) as H.
    destruct (on_channel _ l) as [l1 [[]|]]; [eapply emits_trans; [exact H | apply emits_emit] | exact H].
  - unfold send_htlc_error. pose proof (emits_channel (fail_htlc id) l) as H.
    destruct (on_channel _ l) as [l1 [[]|]]; [eapply emits_trans; [exact H | apply emits_emit] | exact H].
Qed.

Lemma emits_hodl rs l : emits l (process_hodl_queue rs l).1.
Proof using Type.
  revert l. induction rs as [|[id r] rs IH]; intros l; cbn [process_hodl_queue].
  - pose proof (emits_commit l) as H. by destruct (update_commit_tx l) as [l1 [[]|]].
  - destruct (lk_hodl_map l !! id) as [e|]; [|apply emits_refl].
    pose proof (emits_resolution r id e l) as H. destruct (process_htlc_resolution r id e l) as [l1 [[]|]]; [|exact H].
    eapply emits_trans; [exact H|]. apply (IH (set_hodl_map _ l1)).
Qed.

Lemma resolution_sent r id e l c :
  resolves r id (lk_channel l) = (c, Ok ()) →
  process_htlc_resolution r id e l = (send (resolution_update r id e) (set_channel c l), Ok ()).
Proof using Type.
  intros H. destruct r as [preimage|]; cbn [resolves process_htlc_resolution] in *.
  - unfold settle_htlc_msg, on_channel. by rewrite H.
  - unfold send_htlc_error, on_channel. rewrite H. by destruct e.
Qed.

(** C11: The resolution of a held invoice breaks quiescence. On a channel at rest
    whose two links have sent and received their stfu, [htlcManager] takes a
    resolution from the queue of the registry whatever the quiescer says, unlike
    what comes from the switch and the HTLCs that a revocation locks in: when the
    channel can settle or fail the HTLC, the link sends the update, first of all,
    and the peer - if the link has not failed over what else was in the queue -
    fails the channel for a violation of quiescence. *)
Theorem hodl_breaks_quiescence s p id r rs e c decide_add :
  running s → (∀ q, is_quiescent (lk_quiescer (ls_link s q)) = true) → (∀ q, ls_wire s q = []) →
  lk_hodl_map (ls_link s p) !! id = Some e → resolves r id (lk_channel (ls_link s p)) = (c, Ok ()) →
  ∃ s' ws, links_act (Happens p (HodlQueue (id, r) rs)) s = Some s' ∧ ls_wire s' p = resolution_update r id e :: ws ∧
    (running s' → ∃ s'', links_act (Arrives (counter_party p) decide_add) s' = Some s'' ∧
       lk_effects (ls_link s'' (counter_party p)) =
         [OnChannelFailure (LinkFailureError ErrStfuViolation LinkFailureDisconnect true)]).
Proof using Type.
  intros Hrun Hq Hw He Hr. unfold links_act at 1. rewrite decide_True by done. unfold handled at 1. cbn [htlc_manager].
  set (l0 := set_effects [] (ls_link s p)). set (l1 := handle_htlc_resolution (id, r) rs l0).
  assert (∃ es, lk_effects l1 = SendMessage (resolution_update r id e) :: es) as [es Hes].
  { unfold l1, handle_htlc_resolution. cbn [process_hodl_queue]. change (lk_hodl_map l0) with (lk_hodl_map (ls_link s p)). rewrite He.
    rewrite (resolution_sent r id e l0 c Hr). set (l2 := set_hodl_map _ _).
    assert (lk_effects l2 = [SendMessage (resolution_update r id e)]) as E2 by done.
    pose proof (emits_hodl rs l2) as [es Hh]. destruct (process_hodl_queue rs l2) as [l3 b]. cbn [fst] in Hh. rewrite E2 in Hh.
    destruct b; [by exists es|]. destruct (emits_failf (LinkFailureError ErrInternalError LinkFailureForceNone false) l3) as [es' Hf].
    unfold fail_code. rewrite Hf, Hh. by eexists. }
  cbn [is_upstream is_commitment_error orb]. eexists _, (wires_of es). split; [done|]. cbn [ls_wire].
  split; [rewrite update_at_same, Hw, Hes; by destruct r, e|]. intros Hrun'. unfold links_act. rewrite decide_True by done. cbn [ls_wire].
  rewrite counter_party_involutive, update_at_same, Hw, Hes.
  assert (∃ ws, [] ++ wires_of (SendMessage (resolution_update r id e) :: es) = resolution_update r id e :: ws) as [ws ->].
  { by destruct r, e; eexists. }
  eexists. split; [done|]. cbn [ls_link]. rewrite update_at_same, update_at_other. unfold handled. cbn [htlc_manager fst].
  assert (is_channel_update (resolution_update r id e) = true) as Hu by by destruct r, e.
  unfold process_upstream_msg. rewrite Hu. pose proof (Hq (counter_party p)) as Hqq. unfold is_quiescent in Hqq.
  apply andb_prop in Hqq as [_ Hqq]. cbn [lk_quiescer set_effects]. unfold can_recv_updates. rewrite Hqq. cbn [negb andb].
  unfold stfu_failf, failf. cbn [lk_failed set_effects]. by rewrite (Hrun (counter_party p)).
Qed.
End Held.

(** The two links come to rest from the start. *)
Lemma toy_held_reached : fresh_links 999340000 toy_links ∧ rtc (links_step true) toy_links toy_held.
Proof. split; [apply toy_links_fresh|]. apply links_acts_steps; [each_action | intros _; each_action | by vm_compute; eauto]. Qed.

Lemma hodl_breaks_quiescence_witness :
  ∃ s'', lk_effects (ls_link s'' Local) = [OnChannelFailure (LinkFailureError ErrStfuViolation LinkFailureDisconnect true)].
Proof.
  destruct (resolves (HtlcSettleResolution toy_htlc_preimage) 0 (lk_channel (ls_link toy_held Remote))) as [c [[]|]] eqn:E;
    [|vm_compute in E; discriminate E].
  assert (∃ e, lk_hodl_map (ls_link toy_held Remote) !! 0 = Some e) as [e He] by (vm_compute; eauto).
  destruct (hodl_breaks_quiescence toy_held Remote 0 (HtlcSettleResolution toy_htlc_preimage) [] e c hold)
    as (s' & ws & Ea & _ & H); [by intros []; vm_compute | by intros []; vm_compute | by intros []; vm_compute | exact He | exact E|].
  destruct H as (s'' & _ & H); [|by exists s''].
  vm_compute in Ea. injection Ea as <-. by intros []; vm_compute.
Defined.
