(* ===== verification/Forwarding.v ===== *)
(** * What a link asks of an HTLC

    The forwarding policy of a channel and the checks of htlcswitch/link.go that
    the switch makes on a link before it gives it an HTLC: the fees of both
    directions, the bounds on the amount, the time locks and the bandwidth. *)

From S2P Require Import Prelude Tlv.

(** ** Failures *)

(** lnwire/onion_error.go: the failures of forwarding, without the channel
    update that some of them carry. *)
Inductive failure_message :=
| FailTemporaryNodeFailure
| FailTemporaryChannelFailure
| FailPermanentChannelFailure
| FailUnknownNextPeer
| FailChannelDisabled
| FailFeeInsufficient (htlc_msat : Z)
| FailIncorrectCltvExpiry (cltv_expiry : Z)
| FailExpiryTooSoon
| FailExpiryTooFar
| FailAmountBelowMinimum (htlc_msat : Z).
#[export] Instance failure_message_eq_decision : EqDecision failure_message.
Proof. solve_decision. Defined.

Inductive outgoing_failure :=
| OutgoingFailureNone
| OutgoingFailureDecodeError
| OutgoingFailureLinkNotEligible
| OutgoingFailureOnChainTimeout
| OutgoingFailureHTLCExceedsMax
| OutgoingFailureInsufficientBalance
| OutgoingFailureCircularRoute
| OutgoingFailureIncompleteForward
| OutgoingFailureDownstreamHtlcAdd
| OutgoingFailureForwardsDisabled.

Record link_error := LinkError { le_msg : failure_message; le_detail : option outgoing_failure }.

Definition new_link_error (msg : failure_message) : link_error := LinkError msg None.
Definition new_detailed_link_error (msg : failure_message) (detail : outgoing_failure) : link_error :=
  LinkError msg (Some detail).

(** ** Policies *)

Definition fee_rate_parts : Z := 1000000.
Definition max_fee_rate : Z := 10 * fee_rate_parts.

(** Two [int32] *)
Record inbound_fee := InboundFee { if_base : Z; if_rate : Z }.

(** The division of Go rounds towards zero. *)
Definition calc_fee (i : inbound_fee) (amt : Z) : Z :=
  let rate := if max_fee_rate <? if_rate i then max_fee_rate
              else if if_rate i <? - max_fee_rate then - max_fee_rate
              else if_rate i in
  i64 (if_base i + Z.quot (i64 (rate * i64 amt)) fee_rate_parts).

Record forwarding_policy := ForwardingPolicy {
  fp_min_htlc_out : Z;
  fp_max_htlc : Z;
  fp_base_fee : Z;
  fp_fee_rate : Z;
  fp_inbound_fee : inbound_fee;
  fp_time_lock_delta : Z;
}.

Definition expected_fee (f : forwarding_policy) (htlc_amt : Z) : Z :=
  u64 (fp_base_fee f + u64 (htlc_amt * fp_fee_rate f) / fee_rate_parts).

(** ** The link that is asked *)

(** CustomRecords (lnwire/custom_records.go) *)
Abbreviation custom_records := (gmap Z bytes).

Definition serialize_records {TP : TlvPrims} (c : custom_records) : result tlv_error bytes :=
  let* s := new_stream (map_to_records c) in encode s.

(** AuxTrafficShaper, an interface that no code here implements: which HTLCs it
    handles, and the bandwidth it finds for one. *)
Record aux_traffic_shaper := AuxTrafficShaper {
  as_is_custom_htlc : custom_records → bool;
  as_should_handle_traffic : option bytes → option bool;
  as_payment_bandwidth : option bytes → Z → Z → option Z;
}.

Record outgoing_link := OutgoingLink {
  ol_policy : forwarding_policy;
  ol_outgoing_cltv_reject_delta : Z;
  ol_max_outgoing_cltv_expiry : Z;
  ol_bandwidth : Z;
  ol_shaper : option aux_traffic_shaper;
  ol_channel_update : Z → bool;        (* whether an update is found for a failure that names an id *)
}.

(** [createFailureWithUpdate] on an outgoing HTLC. *)
Definition create_failure_with_update (l : outgoing_link) (scid : Z) (msg : failure_message) : failure_message :=
  if ol_channel_update l scid then msg else FailTemporaryNodeFailure.

Section Checks.
Context {TP : TlvPrims} (l : outgoing_link).

Definition validate_htlc_amount (policy : forwarding_policy) (amt scid : Z) (records : custom_records) :
    option link_error :=
  if match ol_shaper l with Some ts => as_is_custom_htlc ts records | None => false end then None
  else if amt <? fp_min_htlc_out policy then
    Some (new_link_error (create_failure_with_update l scid (FailAmountBelowMinimum amt)))
  else if negb (fp_max_htlc policy =? 0) && (fp_max_htlc policy <? amt) then
    Some (new_detailed_link_error (create_failure_with_update l scid FailTemporaryChannelFailure)
            OutgoingFailureHTLCExceedsMax)
  else None.

(** [AuxBandwidth]: [None] for an error, [Some None] when the shaper leaves the
    channel alone. *)
Definition aux_bandwidth (ts : aux_traffic_shaper) (blob : option bytes) (amt : Z) : option (option Z) :=
  match as_should_handle_traffic ts blob with
  | None => None
  | Some false => Some None
  | Some true => Some <$> as_payment_bandwidth ts blob (ol_bandwidth l) amt
  end.

(** The bandwidth that counts. *)
Definition available_bandwidth (amt : Z) (records : custom_records) : option Z :=
  match ol_shaper l with
  | None => Some (ol_bandwidth l)
  | Some ts =>
      match serialize_records records with
      | Err _ => None
      | Ok blob =>
          default (ol_bandwidth l) <$>
            aux_bandwidth ts (match blob with [] => None | _ => Some blob end) amt
      end
  end.

Definition can_send_htlc (policy : forwarding_policy) (amt timeout height_now scid : Z) (records : custom_records) :
    option link_error :=
  match validate_htlc_amount policy amt scid records with
  | Some e => Some e
  | None =>
      if timeout <=? u32 (height_now + ol_outgoing_cltv_reject_delta l) then
        Some (new_link_error (create_failure_with_update l scid FailExpiryTooSoon))
      else if u32 (ol_max_outgoing_cltv_expiry l + height_now) <? timeout then Some (new_link_error FailExpiryTooFar)
      else
        match available_bandwidth amt records with
        | None => Some (new_link_error FailTemporaryNodeFailure)
        | Some bandwidth =>
            if bandwidth <? amt then
              Some (new_detailed_link_error (create_failure_with_update l scid FailTemporaryChannelFailure)
                      OutgoingFailureInsufficientBalance)
            else None
        end
  end.

(** [None] accepts the HTLC. *)
Definition check_htlc_forward (incoming_htlc_amt amt_to_forward incoming_timeout outgoing_timeout : Z)
    (fee : inbound_fee) (height_now original_scid : Z) (records : custom_records) : option link_error :=
  let policy := ol_policy l in
  let out_fee := expected_fee policy amt_to_forward in
  let in_fee := calc_fee fee (u64 (amt_to_forward + out_fee)) in
  let expected := i64 (in_fee + i64 out_fee) in
  let actual := i64 (i64 incoming_htlc_amt - i64 amt_to_forward) in
  if (incoming_htlc_amt <? amt_to_forward) || (actual <? expected) then
    Some (new_link_error (create_failure_with_update l original_scid (FailFeeInsufficient amt_to_forward)))
  else
    match can_send_htlc policy amt_to_forward outgoing_timeout height_now original_scid records with
    | Some e => Some e
    | None =>
        let time_delta := fp_time_lock_delta policy in
        let incoming_delta := if outgoing_timeout <=? incoming_timeout then u32 (incoming_timeout - outgoing_timeout) else 0 in
        if (incoming_timeout <? outgoing_timeout) || (incoming_delta <? time_delta) then
          Some (new_link_error (create_failure_with_update l original_scid (FailIncorrectCltvExpiry incoming_timeout)))
        else if ol_max_outgoing_cltv_expiry l <? incoming_delta then Some (new_link_error FailExpiryTooFar)
        else None
    end.

(** A payment of our own; its failures name no channel. *)
Definition check_htlc_transit (amt timeout height_now : Z) (records : custom_records) : option link_error :=
  can_send_htlc (ol_policy l) amt timeout height_now 0 records.
End Checks.

(** ** Fees *)

(** The inbound fee, before it is an [int64]. *)
Definition exact_inbound_fee (i : inbound_fee) (amt : Z) : Z :=
  if_base i + Z.quot ((if_rate i `max` - max_fee_rate) `min` max_fee_rate * amt) fee_rate_parts.

Definition exact_fee (f : forwarding_policy) (amt : Z) : Z := fp_base_fee f + amt * fp_fee_rate f / fee_rate_parts.

(** Amounts and rates whose products are machine integers: the whole 9.2 BTC
    that a capped rate allows, and any fee rate that does not overflow. *)
Record fee_fits (f : forwarding_policy) (i : inbound_fee) (amt : Z) : Prop := {
  ff_amt : 0 ≤ amt;
  ff_base : 0 ≤ fp_base_fee f;
  ff_rate : 0 ≤ fp_fee_rate f;
  ff_product : amt * fp_fee_rate f < 2 ^ 64;
  ff_total : amt + exact_fee f amt ≤ 9 * 10 ^ 11;
  ff_inbound_base : - 2 ^ 31 ≤ if_base i < 2 ^ 31;
}.

Lemma expected_fee_exact f i amt : fee_fits f i amt → expected_fee f amt = exact_fee f amt.
Proof.
  intros [H1 H2 H3 H4 H5 H6]. unfold expected_fee, exact_fee in *. rewrite (u64_small (amt * _)) by in_range.
  assert (0 ≤ amt * fp_fee_rate f / fee_rate_parts) by (apply Z.div_pos; [nia | done]).
  apply u64_small. in_range.
Qed.

Lemma clamped_rate i :
  (if max_fee_rate <? if_rate i then max_fee_rate else if if_rate i <? - max_fee_rate then - max_fee_rate else if_rate i)
  = (if_rate i `max` - max_fee_rate) `min` max_fee_rate.
Proof.
  unfold max_fee_rate, fee_rate_parts. destruct (Z.ltb_spec (10 * 1000000) (if_rate i)); [lia|].
  destruct (Z.ltb_spec (if_rate i) (- (10 * 1000000))); lia.
Qed.

Lemma inbound_product_small (rate amt : Z) :
  - max_fee_rate ≤ rate ≤ max_fee_rate → 0 ≤ amt ≤ 9 * 10 ^ 11 → - (9 * 10 ^ 18) ≤ rate * amt ≤ 9 * 10 ^ 18.
Proof. unfold max_fee_rate, fee_rate_parts. intros. nia. Qed.

Lemma calc_fee_exact f i amt :
  fee_fits f i amt → calc_fee i (amt + exact_fee f amt) = exact_inbound_fee i (amt + exact_fee f amt).
Proof.
  intros [H1 H2 H3 H4 H5 H6]. unfold calc_fee, exact_inbound_fee. rewrite clamped_rate.
  set (rate := Z.min _ _). set (x := amt + exact_fee f amt) in *.
  assert (0 ≤ x) as Hx.
  { unfold x, exact_fee. assert (0 ≤ amt * fp_fee_rate f / fee_rate_parts) by (apply Z.div_pos; [nia | done]). lia. }
  assert (- max_fee_rate ≤ rate ≤ max_fee_rate) as Hr by (unfold rate, max_fee_rate, fee_rate_parts; lia).
  pose proof (inbound_product_small rate x Hr ltac:(lia)) as Hp.
  rewrite (i64_small x) by in_range. rewrite (i64_small (rate * x)) by in_range.
  assert (- (9 * 10 ^ 12) ≤ Z.quot (rate * x) fee_rate_parts ≤ 9 * 10 ^ 12).
  { unfold fee_rate_parts. split; [apply Z.quot_le_lower_bound | apply Z.quot_le_upper_bound]; lia. }
  apply i64_small. in_range.
Qed.

(** ** What an accepted HTLC brings *)

Section Terms.
Context {TP : TlvPrims} (l : outgoing_link).

(** An outgoing HTLC that the channel can take at a height. *)
Record outgoing_terms (amt timeout height : Z) (records : custom_records) : Prop := {
  ot_amount :
    (∃ ts, ol_shaper l = Some ts ∧ as_is_custom_htlc ts records = true) ∨
    fp_min_htlc_out (ol_policy l) ≤ amt ∧ (fp_max_htlc (ol_policy l) = 0 ∨ amt ≤ fp_max_htlc (ol_policy l));
  ot_not_soon : height + ol_outgoing_cltv_reject_delta l < timeout;
  ot_not_far : timeout ≤ height + ol_max_outgoing_cltv_expiry l;
  ot_bandwidth : ∃ bandwidth, available_bandwidth l amt records = Some bandwidth ∧ amt ≤ bandwidth;
}.

(** A forward that pays for itself and leaves time to claim the incoming HTLC. *)
Record forward_terms (incoming amt incoming_timeout outgoing_timeout : Z) (fee : inbound_fee) (height : Z)
    (records : custom_records) : Prop := {
  ft_no_loss : amt ≤ incoming;
  ft_fee : exact_fee (ol_policy l) amt + exact_inbound_fee fee (amt + exact_fee (ol_policy l) amt) ≤ incoming - amt;
  ft_delta : outgoing_timeout + fp_time_lock_delta (ol_policy l) ≤ incoming_timeout;
  ft_delta_max : incoming_timeout - outgoing_timeout ≤ ol_max_outgoing_cltv_expiry l;
  ft_outgoing : outgoing_terms amt outgoing_timeout height records;
}.

(** Heights and margins that a [uint32] holds. *)
Record height_fits (height : Z) : Prop := {
  hf_soon : 0 ≤ height + ol_outgoing_cltv_reject_delta l < 2 ^ 32;
  hf_far : 0 ≤ height + ol_max_outgoing_cltv_expiry l < 2 ^ 32;
}.

(** Whatever the widths, it neither pays more nor lasts longer than the incoming one. *)
Lemma check_htlc_forward_accepts incoming amt incoming_timeout outgoing_timeout fee height scid records :
  check_htlc_forward l incoming amt incoming_timeout outgoing_timeout fee height scid records = None →
  amt ≤ incoming ∧ outgoing_timeout ≤ incoming_timeout.
Proof using Type.
  unfold check_htlc_forward. destruct (Z.ltb_spec incoming amt); [done|]. cbn [orb]. destruct (_ <? _); [done|].
  destruct (can_send_htlc _ _ _ _ _ _ _); [done|]. destruct (Z.ltb_spec incoming_timeout outgoing_timeout); [done | lia].
Qed.

Lemma validate_htlc_amount_None amt scid records :
  validate_htlc_amount l (ol_policy l) amt scid records = None ↔
    (∃ ts, ol_shaper l = Some ts ∧ as_is_custom_htlc ts records = true) ∨
    fp_min_htlc_out (ol_policy l) ≤ amt ∧ (fp_max_htlc (ol_policy l) = 0 ∨ amt ≤ fp_max_htlc (ol_policy l)).
Proof using Type.
  unfold validate_htlc_amount. set (custom := match ol_shaper l with Some ts => _ | None => _ end).
  assert (custom = true ↔ ∃ ts, ol_shaper l = Some ts ∧ as_is_custom_htlc ts records = true) as Hc.
  { unfold custom. destruct (ol_shaper l) as [ts|]; naive_solver. }
  rewrite <-Hc. destruct custom; [naive_solver|].
  destruct (Z.ltb_spec amt (fp_min_htlc_out (ol_policy l))); [split; [done | intros [|[]]; [done | lia]]|].
  destruct (Z.eqb_spec (fp_max_htlc (ol_policy l)) 0); cbn [negb andb]; [split; [intros _; right; split; [lia | by left] | done]|].
  destruct (Z.ltb_spec (fp_max_htlc (ol_policy l)) amt); split; try done.
  - intros [|[_ []]]; [done | lia | lia].
  - intros _. right. split; [lia | by right].
Qed.

Lemma can_send_htlc_None amt timeout height scid records :
  height_fits height → can_send_htlc l (ol_policy l) amt timeout height scid records = None ↔ outgoing_terms amt timeout height records.
Proof using Type.
  intros [H1 H2]. unfold can_send_htlc.
  destruct (validate_htlc_amount l (ol_policy l) amt scid records) as [e|] eqn:Hv.
  { split; [done|]. intros [Ha _ _ _]. apply (validate_htlc_amount_None amt scid) in Ha. congruence. }
  apply validate_htlc_amount_None in Hv. rewrite !u32_small by in_range.
  destruct (Z.leb_spec timeout (height + ol_outgoing_cltv_reject_delta l)); [split; [done | intros [_ ? _ _]; lia]|].
  destruct (Z.ltb_spec (ol_max_outgoing_cltv_expiry l + height) timeout); [split; [done | intros [_ _ ? _]; lia]|].
  destruct (available_bandwidth l amt records) as [b|] eqn:Hb; [|split; [done | intros [_ _ _ (b & ? & _)]; congruence]].
  destruct (Z.ltb_spec b amt); [split; [done | intros [_ _ _ (b' & ? & ?)]; simplify_eq; lia]|].
  split; [|done]. intros _. split; [done | lia | lia | by exists b].
Qed.

(** C15: A link takes an HTLC to forward exactly when it loses nothing: the
    incoming HTLC carries the outgoing amount and both fees, and at least the
    amount even when the inbound fee is a discount; the incoming time lock leaves
    the delta of the policy; the amount is within the policy and the bandwidth,
    and the expiry is neither close nor far. This is so on machine integers,
    where no product overflows ([fee_fits]). *)
Theorem forwards_pay incoming amt incoming_timeout outgoing_timeout fee height scid records :
  fee_fits (ol_policy l) fee amt → height_fits height → 0 ≤ incoming < 2 ^ 63 →
  in_u32 incoming_timeout → in_u32 outgoing_timeout → 0 ≤ fp_time_lock_delta (ol_policy l) →
  check_htlc_forward l incoming amt incoming_timeout outgoing_timeout fee height scid records = None ↔
  forward_terms incoming amt incoming_timeout outgoing_timeout fee height records.
Proof using Type.
  intros Hf Hh Hi Ht1 Ht2 Hd. pose proof Hf as [F1 F2 F3 F4 F5 F6]. unfold check_htlc_forward.
  set (f := ol_policy l) in *. rewrite (expected_fee_exact f fee) by done.
  assert (0 ≤ exact_fee f amt) as He.
  { unfold exact_fee. assert (0 ≤ amt * fp_fee_rate f / fee_rate_parts) by (apply Z.div_pos; [nia | done]). lia. }
  rewrite (u64_small (amt + _)) by in_range. rewrite (calc_fee_exact f) by done.
  assert (- (10 ^ 13) ≤ exact_inbound_fee fee (amt + exact_fee f amt) ≤ 10 ^ 13) as Hin.
  { unfold exact_inbound_fee. set (rate := Z.min _ _).
    pose proof (inbound_product_small rate (amt + exact_fee f amt) ltac:(unfold rate, max_fee_rate, fee_rate_parts; lia) ltac:(lia)).
    assert (- (9 * 10 ^ 12) ≤ Z.quot (rate * (amt + exact_fee f amt)) fee_rate_parts ≤ 9 * 10 ^ 12); [|lia].
    unfold fee_rate_parts. split; [apply Z.quot_le_lower_bound | apply Z.quot_le_upper_bound]; lia. }
  rewrite !(i64_small (exact_fee f amt)), !(i64_small incoming), !(i64_small amt) by in_range.
  rewrite !(i64_small (_ + _)), !(i64_small (_ - _)) by in_range.
  destruct (Z.ltb_spec incoming amt); cbn [orb]; [split; [done | intros [? _ _ _ _]; lia]|].
  destruct (Z.ltb_spec (incoming - amt) (exact_inbound_fee fee (amt + exact_fee f amt) + exact_fee f amt));
    [split; [done | intros [_ Hx _ _ _]; fold f in Hx; lia]|].
  destruct (can_send_htlc l f amt outgoing_timeout height scid records) as [e|] eqn:Hs.
  { split; [done|]. intros [_ _ _ _ Ho]. apply (can_send_htlc_None amt outgoing_timeout height scid) in Ho; [|done].
    fold f in Ho. congruence. }
  apply can_send_htlc_None in Hs; [|done].
  destruct (Z.leb_spec outgoing_timeout incoming_timeout); destruct (Z.ltb_spec incoming_timeout outgoing_timeout);
    cbn [orb]; try lia.
  2: { split; [done|]. intros [_ _ Hx _ _]. fold f in Hx. lia. }
  rewrite u32_small by in_range.
  destruct (Z.ltb_spec (incoming_timeout - outgoing_timeout) (fp_time_lock_delta f));
    [split; [done | intros [_ _ Hx _ _]; fold f in Hx; lia]|].
  destruct (Z.ltb_spec (ol_max_outgoing_cltv_expiry l) (incoming_timeout - outgoing_timeout));
    [split; [done | intros [_ _ _ Hx _]; lia]|].
  split; [|done]. intros _. split; [lia | fold f; lia | fold f; lia | lia | done].
Qed.
End Terms.
