(* ===== verification/Packet.v ===== *)
(** * Packets

    htlcswitch/packet.go: what links, mailboxes and the switch hand each other,
    and the encryption of failures (hop/error_encryptor.go). A packet is an
    object in the code; its users change it only before they hand it on, so
    here it is a value. (The one exception: link.go, handleDownstreamUpdateAdd
    sets the outgoing key of an add that is still in its mailbox. A mailbox reads
    of it only the channel, which the switch had set, and a link that gets the
    packet again sets the key again.) *)

From S2P Require Import Prelude CircuitMap Forwarding.

(** lnwire's updates of HTLCs, with the fields that the switch looks at. *)
Inductive htlc_msg :=
| UpdateAddHTLC (payment_hash : bytes) (amount expiry : Z) (records : custom_records)
| UpdateFulfillHTLC (payment_preimage : bytes)
| UpdateFailHTLC (reason : bytes)
| OtherMsg.

(** SettleFailRef (channeldb/forwarding_package.go): source, height, index *)
Record settle_fail_ref := SettleFailRef { sf_source : Z; sf_height : Z; sf_index : Z }.
#[export] Instance settle_fail_ref_eq_decision : EqDecision settle_fail_ref.
Proof. solve_decision. Defined.

Record htlc_packet := HtlcPacket {
  p_incoming_chan_id : Z;
  p_outgoing_chan_id : Z;
  p_outgoing_hop : Z + bytes;            (* a channel or a node *)
  p_incoming_htlc_id : Z;
  p_outgoing_htlc_id : Z;
  p_source_ref : option (Z * Z);
  p_dest_ref : option settle_fail_ref;
  p_incoming_amount : Z;
  p_amount : Z;
  p_htlc : htlc_msg;
  p_obfuscator : option error_encrypter;
  p_local_failure : bool;
  p_link_failure : option link_error;
  p_converted_error : bool;
  p_has_source : bool;
  p_is_resolution : bool;
  p_circuit : option addr;
  p_incoming_timeout : Z;
  p_outgoing_timeout : Z;
  p_original_outgoing_chan_id : Z;
  p_inbound_fee : inbound_fee;
}.

(** The packet of which no field is set but its message. *)
Definition empty_packet (msg : htlc_msg) : htlc_packet :=
  HtlcPacket 0 0 (inl 0) 0 0 None None 0 0 msg None false None false false false None 0 0 0 (InboundFee 0 0).

Definition in_key (p : htlc_packet) : circuit_key := (p_incoming_chan_id p, p_incoming_htlc_id p).
Definition packet_out_key (p : htlc_packet) : circuit_key := (p_outgoing_chan_id p, p_outgoing_htlc_id p).
Definition keystone_of_packet (p : htlc_packet) : keystone := Keystone (in_key p) (packet_out_key p).

Definition is_add (m : htlc_msg) : bool := match m with UpdateAddHTLC _ _ _ _ => true | _ => false end.
Definition is_fulfill (m : htlc_msg) : bool := match m with UpdateFulfillHTLC _ => true | _ => false end.
Definition is_response (m : htlc_msg) : bool :=
  match m with UpdateFulfillHTLC _ | UpdateFailHTLC _ => true | _ => false end.

(** ** Changes *)

Definition set_source (inc : circuit_key) (p : htlc_packet) : htlc_packet :=
  HtlcPacket inc.1 (p_outgoing_chan_id p) (p_outgoing_hop p) inc.2 (p_outgoing_htlc_id p) (p_source_ref p) (p_dest_ref p)
    (p_incoming_amount p) (p_amount p) (p_htlc p) (p_obfuscator p) (p_local_failure p) (p_link_failure p)
    (p_converted_error p) (p_has_source p) (p_is_resolution p) (p_circuit p) (p_incoming_timeout p) (p_outgoing_timeout p)
    (p_original_outgoing_chan_id p) (p_inbound_fee p).
Definition set_source_ref (r : option (Z * Z)) (p : htlc_packet) : htlc_packet :=
  HtlcPacket (p_incoming_chan_id p) (p_outgoing_chan_id p) (p_outgoing_hop p) (p_incoming_htlc_id p) (p_outgoing_htlc_id p)
    r (p_dest_ref p) (p_incoming_amount p) (p_amount p) (p_htlc p) (p_obfuscator p) (p_local_failure p) (p_link_failure p)
    (p_converted_error p) (p_has_source p) (p_is_resolution p) (p_circuit p) (p_incoming_timeout p) (p_outgoing_timeout p)
    (p_original_outgoing_chan_id p) (p_inbound_fee p).
Definition set_circuit (c : option addr) (p : htlc_packet) : htlc_packet :=
  HtlcPacket (p_incoming_chan_id p) (p_outgoing_chan_id p) (p_outgoing_hop p) (p_incoming_htlc_id p) (p_outgoing_htlc_id p)
    (p_source_ref p) (p_dest_ref p) (p_incoming_amount p) (p_amount p) (p_htlc p) (p_obfuscator p) (p_local_failure p)
    (p_link_failure p) (p_converted_error p) (p_has_source p) (p_is_resolution p) c (p_incoming_timeout p)
    (p_outgoing_timeout p) (p_original_outgoing_chan_id p) (p_inbound_fee p).
Definition set_outgoing_chan_id (id : Z) (p : htlc_packet) : htlc_packet :=
  HtlcPacket (p_incoming_chan_id p) id (p_outgoing_hop p) (p_incoming_htlc_id p) (p_outgoing_htlc_id p)
    (p_source_ref p) (p_dest_ref p) (p_incoming_amount p) (p_amount p) (p_htlc p) (p_obfuscator p) (p_local_failure p)
    (p_link_failure p) (p_converted_error p) (p_has_source p) (p_is_resolution p) (p_circuit p) (p_incoming_timeout p)
    (p_outgoing_timeout p) (p_original_outgoing_chan_id p) (p_inbound_fee p).
Definition set_original_outgoing_chan_id (id : Z) (p : htlc_packet) : htlc_packet :=
  HtlcPacket (p_incoming_chan_id p) (p_outgoing_chan_id p) (p_outgoing_hop p) (p_incoming_htlc_id p) (p_outgoing_htlc_id p)
    (p_source_ref p) (p_dest_ref p) (p_incoming_amount p) (p_amount p) (p_htlc p) (p_obfuscator p) (p_local_failure p)
    (p_link_failure p) (p_converted_error p) (p_has_source p) (p_is_resolution p) (p_circuit p) (p_incoming_timeout p)
    (p_outgoing_timeout p) id (p_inbound_fee p).
Definition set_obfuscator (e : option error_encrypter) (p : htlc_packet) : htlc_packet :=
  HtlcPacket (p_incoming_chan_id p) (p_outgoing_chan_id p) (p_outgoing_hop p) (p_incoming_htlc_id p) (p_outgoing_htlc_id p)
    (p_source_ref p) (p_dest_ref p) (p_incoming_amount p) (p_amount p) (p_htlc p) e (p_local_failure p)
    (p_link_failure p) (p_converted_error p) (p_has_source p) (p_is_resolution p) (p_circuit p) (p_incoming_timeout p)
    (p_outgoing_timeout p) (p_original_outgoing_chan_id p) (p_inbound_fee p).
Definition set_htlc (m : htlc_msg) (p : htlc_packet) : htlc_packet :=
  HtlcPacket (p_incoming_chan_id p) (p_outgoing_chan_id p) (p_outgoing_hop p) (p_incoming_htlc_id p) (p_outgoing_htlc_id p)
    (p_source_ref p) (p_dest_ref p) (p_incoming_amount p) (p_amount p) m (p_obfuscator p) (p_local_failure p)
    (p_link_failure p) (p_converted_error p) (p_has_source p) (p_is_resolution p) (p_circuit p) (p_incoming_timeout p)
    (p_outgoing_timeout p) (p_original_outgoing_chan_id p) (p_inbound_fee p).

(** ** Failures on the way back *)

(** The onion library's encryption under the secret of an encrypter, with a MAC
    when the flag is set, and the encoding of a failure. *)
Class OnionPrims := {
  encrypt_error : error_encrypter → bool → bytes → bytes;
  encode_failure : failure_message → option bytes;
}.

Section Encryption.
Context {OP : OnionPrims}.

Definition encrypt_first_hop (e : error_encrypter) (failure : failure_message) : option bytes :=
  encrypt_error e true <$> encode_failure failure.
Definition encrypt_malformed_error (e : error_encrypter) (reason : bytes) : bytes := encrypt_error e true reason.
Definition intermediate_encrypt (e : error_encrypter) (reason : bytes) : bytes := encrypt_error e false reason.
End Encryption.
