(* ===== verification/Mailbox.v ===== *)
(** * Mailboxes

    htlcswitch/mailbox.go: the queues between the switch and a link, which
    outlive the link's connection, and the orchestrator that finds a link's
    mailbox. An element of Go's list is a number and its packet; the courier is a
    goroutine that looks at the heads of the queues and sends later, so it has a
    state of its own. *)

From S2P Require Import Prelude UpdateLog CircuitMap Forwarding Packet.

(** ** Messages of the peer *)

Definition max_wire_messages : nat := 1000.
Definition max_wire_bytes : Z := 4 * 1024 * 1024.

Section Wire.
Context {M : Type}.

Record wire_queue := WireQueue { wq_messages : list (M * Z); wq_bytes : Z }.

(** [AddMessage], with the size that the codec finds: [None] is an error of the
    codec. *)
Definition add_message (msg : M) (size : option Z) (q : wire_queue) : wire_queue * bool :=
  match size with
  | None => (q, false)
  | Some size =>
      if (max_wire_messages <=? length (wq_messages q))%nat || (max_wire_bytes <? u32 (wq_bytes q + size)) then (q, false)
      else (WireQueue (wq_messages q ++ [(msg, size)]) (u32 (wq_bytes q + size)), true)
  end.

(** [wireMailCourier]: the next message, and the reset. *)
Definition next_message (q : wire_queue) : option (M * wire_queue) :=
  match wq_messages q with
  | [] => None
  | (msg, size) :: l => Some (msg, WireQueue l (u32 (wq_bytes q - size)))
  end.
Definition reset_messages : wire_queue := WireQueue [] 0.
End Wire.
Arguments wire_queue : clear implicits.

(** ** Packets *)

(** A list of container/list with its index and its head: the element to
    deliver next. *)
Record queue := Queue {
  q_elems : list (nat * htlc_packet);
  q_index : gmap circuit_key nat;
  q_head : option nat;
}.

Definition empty_queue : queue := Queue [] ∅ None.

(** [Element.Next]: nil for the last element, and for one that is not in the list. *)
Fixpoint next_elem (e : nat) (l : list (nat * htlc_packet)) : option nat :=
  match l with
  | [] => None
  | (e', _) :: l => if (e =? e')%nat then fst <$> head l else next_elem e l
  end.

Definition remove_elem (e : nat) (l : list (nat * htlc_packet)) : list (nat * htlc_packet) :=
  List.filter (λ x, negb (x.1 =? e)%nat) l.

Definition elem_packet (e : nat) (l : list (nat * htlc_packet)) : option htlc_packet :=
  snd <$> List.find (λ x, (x.1 =? e)%nat) l.

Definition push (e : nat) (p : htlc_packet) (q : queue) : queue :=
  Queue (q_elems q ++ [(e, p)]) (<[in_key p := e]> (q_index q))
    (match q_head q with None => Some e | h => h end).

Definition unlink (k : circuit_key) (e : nat) (q : queue) : queue :=
  Queue (remove_elem e (q_elems q)) (delete k (q_index q))
    (if decide (q_head q = Some e) then next_elem e (q_elems q) else q_head q).

Definition rewind (q : queue) : queue := Queue (q_elems q) (q_index q) (fst <$> head (q_elems q)).

(** The head moves on when it is still the element that was sent. *)
Definition advance (e : nat) (q : queue) : queue :=
  if decide (q_head q = Some e) then Queue (q_elems q) (q_index q) (next_elem e (q_elems q)) else q.

Definition peek (q : queue) : option (nat * htlc_packet) :=
  e ← q_head q; p ← elem_packet e (q_elems q); Some (e, p).

(** What the courier looked at: a response and an add. *)
Record in_hand := InHand { ih_rep : option (nat * htlc_packet); ih_add : option (nat * htlc_packet) }.

Record mailbox := Mailbox {
  mb_short_chan_id : Z;
  mb_reps : queue;
  mb_adds : queue;
  mb_next : nat;                         (* elements are new objects *)
  mb_courier : option in_hand;
  mb_fee_rate : Z;
}.

Definition new_mailbox (sid : Z) : mailbox := Mailbox sid empty_queue empty_queue 0 None 0.

Definition set_reps (q : queue) (mb : mailbox) : mailbox :=
  Mailbox (mb_short_chan_id mb) q (mb_adds mb) (mb_next mb) (mb_courier mb) (mb_fee_rate mb).
Definition set_adds (q : queue) (mb : mailbox) : mailbox :=
  Mailbox (mb_short_chan_id mb) (mb_reps mb) q (mb_next mb) (mb_courier mb) (mb_fee_rate mb).
Definition set_next (n : nat) (mb : mailbox) : mailbox :=
  Mailbox (mb_short_chan_id mb) (mb_reps mb) (mb_adds mb) n (mb_courier mb) (mb_fee_rate mb).
Definition set_courier (c : option in_hand) (mb : mailbox) : mailbox :=
  Mailbox (mb_short_chan_id mb) (mb_reps mb) (mb_adds mb) (mb_next mb) c (mb_fee_rate mb).
Definition set_fee_rate (r : Z) (mb : mailbox) : mailbox :=
  Mailbox (mb_short_chan_id mb) (mb_reps mb) (mb_adds mb) (mb_next mb) (mb_courier mb) r.

Inductive mail_error := ErrPacketAlreadyExists | ErrUnknownHtlcType.

Definition add_packet (p : htlc_packet) (mb : mailbox) : mailbox * result mail_error () :=
  let e := mb_next mb in
  match p_htlc p with
  | UpdateFulfillHTLC _ | UpdateFailHTLC _ =>
      match q_index (mb_reps mb) !! in_key p with
      | Some _ => (mb, Err ErrPacketAlreadyExists)
      | None => (set_next (S e) (set_reps (push e p (mb_reps mb)) mb), Ok ())
      end
  | UpdateAddHTLC _ _ _ _ =>
      match q_index (mb_adds mb) !! in_key p with
      | Some _ => (mb, Err ErrPacketAlreadyExists)
      | None => (set_next (S e) (set_adds (push e p (mb_adds mb)) mb), Ok ())
      end
  | OtherMsg => (mb, Err ErrUnknownHtlcType)
  end.

Definition ack_packet (k : circuit_key) (mb : mailbox) : mailbox * bool :=
  match q_index (mb_reps mb) !! k with
  | Some e => (set_reps (unlink k e (mb_reps mb)) mb, true)
  | None =>
      match q_index (mb_adds mb) !! k with
      | Some e => (set_adds (unlink k e (mb_adds mb)) mb, true)
      | None => (mb, false)
      end
  end.

Definition has_packet (k : circuit_key) (mb : mailbox) : bool := bool_decide (is_Some (q_index (mb_reps mb) !! k)).

Definition reset_packets (mb : mailbox) : mailbox :=
  set_courier None (set_adds (rewind (mb_adds mb)) (set_reps (rewind (mb_reps mb)) mb)).

(** The courier waits, looks at both heads, and sends a response before an add. *)
Definition courier_peek (mb : mailbox) : mailbox :=
  match peek (mb_reps mb), peek (mb_adds mb) with
  | None, None => mb
  | r, a => set_courier (Some (InHand r a)) mb
  end.

Definition courier_send (mb : mailbox) : mailbox * option htlc_packet :=
  match mb_courier mb with
  | Some (InHand (Some (e, p)) _) => (set_courier None (set_reps (advance e (mb_reps mb)) mb), Some p)
  | Some (InHand None (Some (e, p))) => (set_courier None (set_adds (advance e (mb_adds mb)) mb), Some p)
  | _ => (mb, None)
  end.

Section FailAdd.
Context {OP : OnionPrims}.

(** [FailAdd]: what it sends to the switch. The flag says whether a channel
    update is found. *)
Definition mailbox_failure (update : bool) (p : htlc_packet) : failure_message :=
  match p_outgoing_hop p with
  | inr _ => FailUnknownNextPeer
  | inl _ => if update then FailTemporaryChannelFailure else FailTemporaryNodeFailure
  end.

Definition fail_add_packet_of (update : bool) (p : htlc_packet) : option htlc_packet :=
  let failure := mailbox_failure update p in
  reason ← match p_obfuscator p with
           | None => encode_failure failure
           | Some e => encrypt_first_hop e failure
           end;
  Some (HtlcPacket (p_incoming_chan_id p) (p_outgoing_chan_id p) (p_outgoing_hop p) (p_incoming_htlc_id p) 0 (p_source_ref p)
          None 0 0 (UpdateFailHTLC reason) (p_obfuscator p) (negb (bool_decide (is_Some (p_obfuscator p))))
          (Some (new_detailed_link_error failure OutgoingFailureDownstreamHtlcAdd)) false true false (p_circuit p) 0 0 0
          (InboundFee 0 0)).

Definition fail_add (update : bool) (p : htlc_packet) (mb : mailbox) : mailbox * option htlc_packet :=
  let '(mb, found) := ack_packet (in_key p) mb in
  if found : bool then (mb, fail_add_packet_of update p) else (mb, None).

(** The deadline of the add in hand *)
Definition courier_expire (update : bool) (mb : mailbox) : mailbox * option htlc_packet :=
  match mb_courier mb with
  | Some (InHand _ (Some (_, p))) => fail_add update p (set_courier None mb)
  | _ => (mb, None)
  end.
End FailAdd.

(** The sums of the adds that are dust on either commitment. *)
Definition dust_packets (is_dust : Z → bool → channel_party → Z → bool) (mb : mailbox) : Z * Z :=
  let adds := omap (λ e, elem_packet e.2 (q_elems (mb_adds mb))) (map_to_list (q_index (mb_adds mb))) in
  let sum whose := foldl (λ acc p, if is_dust (mb_fee_rate mb) false whose (p_amount p / 1000) then u64 (acc + p_amount p) else acc) 0 adds in
  (sum Local, sum Remote).

(** ** The orchestrator *)

Record mail_orchestrator := MailOrchestrator {
  mo_mailboxes : gmap Z mailbox;                 (* by channel id *)
  mo_live_index : gmap Z Z;
  mo_unclaimed_packets : gmap Z (list htlc_packet);
}.

Definition new_mail_orchestrator : mail_orchestrator := MailOrchestrator ∅ ∅ ∅.

Definition set_mailbox (cid : Z) (mb : mailbox) (mo : mail_orchestrator) : mail_orchestrator :=
  MailOrchestrator (<[cid := mb]> (mo_mailboxes mo)) (mo_live_index mo) (mo_unclaimed_packets mo).

Definition get_or_create_mailbox (cid sid : Z) (mo : mail_orchestrator) : mail_orchestrator * mailbox :=
  match mo_mailboxes mo !! cid with
  | Some mb => (mo, mb)
  | None => (set_mailbox cid (new_mailbox sid) mo, new_mailbox sid)
  end.

(** The packets that were waiting; those that the mailbox refuses are lost. *)
Definition bind_live_short_chan_id (cid sid : Z) (mo : mail_orchestrator) : mail_orchestrator :=
  let pkts := default [] (mo_unclaimed_packets mo !! sid) in
  let '(mo, mb) := get_or_create_mailbox cid sid mo in
  let mb := foldl (λ mb p, (add_packet p mb).1) mb pkts in
  set_mailbox cid mb (MailOrchestrator (mo_mailboxes mo) (<[sid := cid]> (mo_live_index mo)) (delete sid (mo_unclaimed_packets mo))).

Definition deliver (sid : Z) (p : htlc_packet) (mo : mail_orchestrator) : mail_orchestrator * result mail_error () :=
  match mo_live_index mo !! sid with
  | Some cid =>
      let '(mo, mb) := get_or_create_mailbox cid sid mo in
      let '(mb, r) := add_packet p mb in
      (set_mailbox cid mb mo, r)
  | None =>
      (MailOrchestrator (mo_mailboxes mo) (mo_live_index mo)
         (<[sid := default [] (mo_unclaimed_packets mo !! sid) ++ [p]]> (mo_unclaimed_packets mo)), Ok ())
  end.
