(* ===== verification/MailboxProps.v ===== *)
(** * What a mailbox keeps

    The queues of [Mailbox] hold what was given and not acknowledged, in order,
    and their heads divide what was sent from what was not; so a link that comes
    back gets all of it again. *)

From S2P Require Import Prelude UpdateLog CircuitMap Forwarding Packet Mailbox.

(** ** Messages of the peer *)

Section Wire.
Context {M : Type}.

Record wire_ok (q : wire_queue M) : Prop := {
  wo_bytes : wq_bytes q = zsum (map snd (wq_messages q));
  wo_sizes x : x ∈ wq_messages q → 0 ≤ x.2 ≤ 65535 + 2;
  wo_max : wq_bytes q ≤ max_wire_bytes;
  wo_number : (length (wq_messages q) ≤ max_wire_messages)%nat;
}.

Lemma sizes_nonneg (l : list (M * Z)) : (∀ x, x ∈ l → 0 ≤ x.2 ≤ 65535 + 2) → 0 ≤ zsum (map snd l).
Proof using Type.
  induction l as [|x l IH]; intros H; cbn [map zsum foldr]; [done|].
  pose proof (H x ltac:(left)). assert (0 ≤ zsum (map snd l)); [|unfold zsum in *; lia]. apply IH. intros. apply H. by right.
Qed.

(** C40: The messages that wait for a link are within the budgets, in number and
    in bytes, and the byte count is exact: it never wraps around. *)
Theorem wire_queue_bounded msg size q :
  wire_ok q → (∀ n, size = Some n → 0 ≤ n ≤ 65535 + 2) →
  wire_ok (add_message msg size q).1 ∧
  (∀ msg' q', next_message q = Some (msg', q') → wire_ok q' ∧ ∃ n, wq_messages q = (msg', n) :: wq_messages q').
Proof using Type.
  intros [H1 H2 H3 H4] Hs. pose proof (sizes_nonneg _ H2) as H0. split.
  - unfold add_message. destruct size as [n|]; [|done]. specialize (Hs n eq_refl).
    unfold max_wire_bytes in *. rewrite u32_small by in_range.
    destruct (Nat.leb_spec max_wire_messages (length (wq_messages q))); cbn [orb]; [done|].
    destruct (Z.ltb_spec (4 * 1024 * 1024) (wq_bytes q + n)); [done|]. split; cbn [fst wq_messages wq_bytes].
    + rewrite map_app, zsum_app. cbn. lia.
    + intros x [Hx|Hx%list_elem_of_singleton]%elem_of_app; [by apply H2 | by subst].
    + done.
    + rewrite length_app. cbn. lia.
  - intros msg' q'. unfold next_message. destruct (wq_messages q) as [|[m n] l] eqn:E; [done|]. intros [= <- <-].
    split; [|by exists n]. cbn [map zsum foldr snd] in H1. pose proof (H2 (m, n) ltac:(left)) as Hn. cbn [snd] in Hn.
    assert (∀ x, x ∈ l → 0 ≤ x.2 ≤ 65535 + 2) as Hl by (intros; apply H2; by right).
    pose proof (sizes_nonneg l Hl) as Hl0. cbn [length] in H4. unfold zsum in *.
    unfold max_wire_bytes in *. rewrite (u32_small (wq_bytes q - n)) by in_range.
    split; cbn [wq_messages wq_bytes]; [unfold zsum; lia | done | unfold max_wire_bytes; lia | lia].
Qed.
End Wire.

(** ** Queues *)

Implicit Types (q : queue) (p : htlc_packet) (k : circuit_key).

(** A queue that holds [s], which was sent, and then [w]. *)
Record queue_ok (n : nat) q (s w : list (nat * htlc_packet)) : Prop := {
  qo_elems : q_elems q = s ++ w;
  qo_head : q_head q = fst <$> head w;
  qo_ids : NoDup (map fst (q_elems q));
  qo_next e p : (e, p) ∈ q_elems q → (e < n)%nat;
  qo_index k e : q_index q !! k = Some e ↔ ∃ p, (e, p) ∈ q_elems q ∧ in_key p = k;
}.

Lemma elem_unique (l : list (nat * htlc_packet)) e p p' : NoDup (map fst l) → (e, p) ∈ l → (e, p') ∈ l → p = p'.
Proof.
  induction l as [|x l IH]; cbn [map]; [by intros _ []%elem_of_nil|]. intros [Hx Hn]%NoDup_cons.
  intros [H|H]%elem_of_cons [H'|H']%elem_of_cons; [congruence | | | by apply IH].
  - subst. destruct Hx. by apply (list_elem_of_fmap_2 fst _ (e, p')).
  - subst. destruct Hx. by apply (list_elem_of_fmap_2 fst _ (e, p)).
Qed.

Lemma key_unique n q s w e e' p p' :
  queue_ok n q s w → (e, p) ∈ q_elems q → (e', p') ∈ q_elems q → in_key p = in_key p' → e = e' ∧ p = p'.
Proof.
  intros [_ _ H _ Hi] Hp Hp' Hk. assert (q_index q !! in_key p = Some e) as E by (apply Hi; by exists p).
  assert (q_index q !! in_key p = Some e') as E' by (apply Hi; by exists p').
  assert (e = e') as <- by congruence. split; [done|]. by eapply elem_unique.
Qed.

Lemma empty_queue_ok n : queue_ok n empty_queue [] [].
Proof.
  split; [done | done | constructor | by intros ? ? []%elem_of_nil|].
  intros k e. cbn. rewrite lookup_empty. split; [done | by intros (? & []%elem_of_nil & _)].
Qed.

Lemma push_ok n q s w p :
  queue_ok n q s w → q_index q !! in_key p = None → queue_ok (S n) (push n p q) s (w ++ [(n, p)]).
Proof.
  intros [H1 H2 H3 H4 H5] Hp. split; cbn [q_elems q_head q_index push].
  - by rewrite H1, app_assoc.
  - rewrite H2. by destruct w.
  - rewrite map_app. apply NoDup_app. split_and!; [done| |apply NoDup_singleton].
    intros e (x & -> & Hx)%list_elem_of_fmap He%list_elem_of_singleton. destruct x as [e p']. cbn in He. subst.
    apply H4 in Hx. lia.
  - intros e p' [Hx|[= -> ->]%list_elem_of_singleton]%elem_of_app; [|lia]. apply H4 in Hx. lia.
  - intros k e. rewrite lookup_insert_Some, H5. setoid_rewrite elem_of_app. setoid_rewrite list_elem_of_singleton. split.
    + intros [[<- <-]|[_ (p' & Hp' & Hk)]]; [exists p; by split; [right|] | exists p'; by split; [left|]].
    + intros (p' & [Hp'|[= -> ->]] & Hk); [|by left]. right. split; [|by exists p']. intros <-.
      assert (q_index q !! in_key p = Some e) by (apply H5; by exists p'). congruence.
Qed.

Definition keep k (x : nat * htlc_packet) : bool := negb (bool_decide (in_key x.2 = k)).

Lemma remove_is_keep n q s w k e l :
  queue_ok n q s w → q_index q !! k = Some e → (∀ x, x ∈ l → x ∈ q_elems q) → remove_elem e l = List.filter (keep k) l.
Proof.
  intros H He Hl. unfold remove_elem. apply bfilter_ext. intros [e' p'] Hx. apply Hl in Hx. unfold keep. cbn [fst snd]. f_equal.
  apply (qo_index _ _ _ _ H) in He as (p & Hp & Hk). destruct (Nat.eqb_spec e' e) as [->|Hne].
  - symmetry. apply bool_decide_eq_true. rewrite <-Hk. f_equal. eapply elem_unique; [apply H | done | done].
  - symmetry. apply bool_decide_eq_false. cbn. intros Hk'. apply Hne.
    by destruct (key_unique _ _ _ _ _ _ _ _ H Hx Hp ltac:(congruence)).
Qed.

Lemma in_mid {A} (x : A) s w : x ∈ s ++ x :: w.
Proof. apply elem_of_app. right. left. Qed.

Lemma keep_other k x : keep k x = true ↔ in_key x.2 ≠ k.
Proof. unfold keep. by rewrite negb_true_iff, bool_decide_eq_false. Qed.

Lemma NoDup_map_filter {A B} (f : A → B) (g : A → bool) l : NoDup (map f l) → NoDup (map f (List.filter g l)).
Proof.
  induction l as [|x l IH]; cbn [map List.filter]; [done|]. intros [Hx Hn]%NoDup_cons.
  destruct (g x); [|by apply IH]. cbn [map]. apply NoDup_cons. split; [|by apply IH].
  intros (y & Hy & Hin)%list_elem_of_fmap. apply elem_of_bfilter in Hin as [Hin _]. apply Hx. rewrite Hy.
  by apply list_elem_of_fmap_2.
Qed.

Lemma next_elem_app (e : nat) p s w : e ∉ map fst s → next_elem e (s ++ (e, p) :: w) = fst <$> head w.
Proof.
  induction s as [|[e' p'] s IH]; cbn [app next_elem map fst]; [by rewrite Nat.eqb_refl|].
  intros [Hne Hs]%not_elem_of_cons. destruct (Nat.eqb_spec e e'); [done | by apply IH].
Qed.

Lemma unlink_ok n q s w k e :
  queue_ok n q s w → q_index q !! k = Some e →
  queue_ok n (unlink k e q) (List.filter (keep k) s) (List.filter (keep k) w).
Proof.
  intros H He. pose proof H as [H1 H2 H3 H4 H5]. unfold unlink.
  assert (remove_elem e (q_elems q) = List.filter (keep k) (q_elems q)) as ->.
  { by eapply remove_is_keep. }
  assert (∀ x, x ∈ List.filter (keep k) (q_elems q) ↔ x ∈ q_elems q ∧ in_key x.2 ≠ k) as Hf.
  { intros x. by rewrite elem_of_bfilter, keep_other. }
  split; cbn [q_elems q_index q_head].
  - by rewrite H1, List.filter_app.
  - rewrite H2. apply H5 in He as (p & Hp & Hk). destruct w as [|[e' p'] w]; cbn [head].
    { rewrite decide_False by done. done. }
    cbn [fmap option_fmap option_map fst List.filter]. destruct (decide (Some e' = Some e)) as [[= ->]|Hne].
    + assert (p' = p) as -> by (eapply elem_unique; [exact H3 | rewrite H1; apply in_mid | done]).
      replace (keep k (e, p)) with false by (symmetry; unfold keep; cbn; by rewrite bool_decide_eq_true_2).
      rewrite H1, next_elem_app.
      * destruct w as [|[e2 p2] w]; [done|]. cbn [head fmap option_fmap option_map fst List.filter].
        replace (keep k (e2, p2)) with true; [done|]. symmetry. apply keep_other. cbn [snd]. intros Hk2.
        assert (e2 = e) as -> by (eapply key_unique; [exact H | rewrite H1; apply elem_of_app; right; right; left | exact Hp | congruence]).
        rewrite H1, map_app in H3. apply NoDup_app in H3 as (_ & _ & H3). cbn in H3. apply NoDup_cons in H3 as [H3 _]. apply H3. left.
      * rewrite H1, map_app in H3. apply NoDup_app in H3 as (_ & H3 & _). intros Hs. apply (H3 _ Hs). left.
    + replace (keep k (e', p')) with true; [done|]. symmetry. apply keep_other. cbn [snd]. intros Hk'. apply Hne. f_equal.
      eapply key_unique; [exact H | rewrite H1; apply in_mid | exact Hp | congruence].
  - by apply NoDup_map_filter.
  - intros e' p' [Hx _]%Hf. by eapply H4.
  - intros k' e'. rewrite lookup_delete_Some, H5. setoid_rewrite Hf. cbn [snd]. naive_solver.
Qed.

Lemma rewind_ok n q s w : queue_ok n q s w → queue_ok n (rewind q) [] (s ++ w).
Proof. intros [H1 H2 H3 H4 H5]. split; cbn [rewind q_elems q_head q_index]; [done | by rewrite H1 | done..]. Qed.

Lemma peek_ok n q s w : queue_ok n q s w → peek q = head w.
Proof.
  intros [H1 H2 H3 H4 H5]. unfold peek. rewrite H2. destruct w as [|[e p] w]; cbn [head fmap option_fmap option_map fst mbind option_bind]; [done|].
  unfold elem_packet. rewrite H1. assert (e ∉ map fst s) as Hs.
  { rewrite H1, map_app in H3. apply NoDup_app in H3 as (_ & H3 & _). intros Hs. apply (H3 _ Hs). left. }
  replace (List.find (λ x, (x.1 =? e)%nat) (s ++ (e, p) :: w)) with (Some (e, p)); [done|].
  clear -Hs. induction s as [|[e' p'] s IH]; cbn; [by rewrite Nat.eqb_refl|]. cbn in Hs. apply not_elem_of_cons in Hs as [Hne Hs].
  destruct (Nat.eqb_spec e' e); [congruence | by apply IH].
Qed.

Lemma advance_ok n q s w e :
  queue_ok n q s w →
  ∃ s' w', queue_ok n (advance e q) s' w' ∧ s' ++ w' = s ++ w ∧
    (∀ p w0, w = (e, p) :: w0 → s' = s ++ [(e, p)] ∧ w' = w0) ∧ q_elems (advance e q) = q_elems q.
Proof.
  intros H. pose proof H as [H1 H2 H3 H4 H5]. unfold advance. case_decide as Hh.
  - destruct w as [|[e' p] w]; [by rewrite H2 in Hh|]. rewrite H2 in Hh. injection Hh as ->.
    exists (s ++ [(e, p)]), w. split_and!; [| by rewrite <-app_assoc | by intros ? ? [= <- <-] | done].
    split; cbn [q_elems q_index q_head]; [by rewrite H1, <-app_assoc | | done..].
    rewrite H1, next_elem_app; [done|].
    rewrite H1, map_app in H3. apply NoDup_app in H3 as (_ & H3 & _). intros Hs. apply (H3 _ Hs). left.
  - exists s, w. split_and!; [done | done | | done]. intros p w0 ->. by rewrite H2 in Hh.
Qed.

Lemma queue_ok_mono n n' q s w : (n ≤ n')%nat → queue_ok n q s w → queue_ok n' q s w.
Proof. intros Hn [H1 H2 H3 H4 H5]. split; try done. intros e p Hx. apply H4 in Hx. lia. Qed.

(** ** Mailboxes *)

Definition packets (l : list (nat * htlc_packet)) : list htlc_packet := map snd l.

Definition mailbox_ok (mb : mailbox) : Prop :=
  ∃ sr wr sa wa, queue_ok (mb_next mb) (mb_reps mb) sr wr ∧ queue_ok (mb_next mb) (mb_adds mb) sa wa.

(** What a mailbox has to deliver to a link that comes back. *)
Definition unacked (mb : mailbox) : list htlc_packet * list htlc_packet :=
  (packets (q_elems (mb_reps mb)), packets (q_elems (mb_adds mb))).

Inductive mail_op :=
| MailAdd (p : htlc_packet)
| MailAck (k : circuit_key)
| MailFail (update : bool) (p : htlc_packet)
| MailPeek
| MailSend
| MailExpire (update : bool)
| MailReset
| MailFeeRate (r : Z).

Section Mail.
Context {OP : OnionPrims}.

Definition run_mail_op (op : mail_op) (mb : mailbox) : mailbox :=
  match op with
  | MailAdd p => (add_packet p mb).1
  | MailAck k => (ack_packet k mb).1
  | MailFail update p => (fail_add update p mb).1
  | MailPeek => courier_peek mb
  | MailSend => (courier_send mb).1
  | MailExpire update => (courier_expire update mb).1
  | MailReset => reset_packets mb
  | MailFeeRate r => set_fee_rate r mb
  end.

(** The key that an operation takes out of the mailbox. *)
Definition acked_by (op : mail_op) (mb : mailbox) : option circuit_key :=
  match op with
  | MailAck k => Some k
  | MailFail _ p => Some (in_key p)
  | MailExpire _ => match mb_courier mb with Some (InHand _ (Some (_, p))) => Some (in_key p) | _ => None end
  | _ => None
  end.

(** What was given and not acknowledged: two lists. *)
Definition has_key (k : circuit_key) (l : list htlc_packet) : bool := existsb (λ p, bool_decide (in_key p = k)) l.
Definition without_key (k : circuit_key) (l : list htlc_packet) : list htlc_packet :=
  List.filter (λ p, negb (bool_decide (in_key p = k))) l.

Definition take_packet (p : htlc_packet) (u : list htlc_packet * list htlc_packet) : list htlc_packet * list htlc_packet :=
  let '(reps, adds) := u in
  if is_response (p_htlc p) then (if has_key (in_key p) reps then reps else reps ++ [p], adds)
  else if is_add (p_htlc p) then (reps, if has_key (in_key p) adds then adds else adds ++ [p])
  else u.

Definition drop_key (k : circuit_key) (u : list htlc_packet * list htlc_packet) : list htlc_packet * list htlc_packet :=
  let '(reps, adds) := u in
  if has_key k reps then (without_key k reps, adds) else (reps, without_key k adds).

Definition unacked_after (op : mail_op) (mb : mailbox) (u : list htlc_packet * list htlc_packet) :
    list htlc_packet * list htlc_packet :=
  match op with
  | MailAdd p => take_packet p u
  | _ => match acked_by op mb with Some k => drop_key k u | None => u end
  end.

Lemma has_key_elem k l : has_key k l = true ↔ ∃ p, p ∈ l ∧ in_key p = k.
Proof using Type.
  unfold has_key. rewrite existsb_exists. setoid_rewrite bool_decide_eq_true. setoid_rewrite <-list_elem_of_In. done.
Qed.

Lemma queue_has n q s w k : queue_ok n q s w → has_key k (packets (q_elems q)) = match q_index q !! k with Some _ => true | None => false end.
Proof using Type.
  intros H. apply eq_true_iff_eq. rewrite has_key_elem. split.
  - intros (p & ([e p'] & -> & Hx)%list_elem_of_fmap & Hk).
    assert (q_index q !! k = Some e) as -> by (apply (qo_index _ _ _ _ H); by exists p'). done.
  - destruct (q_index q !! k) as [e|] eqn:He; [|done]. intros _.
    apply (qo_index _ _ _ _ H) in He as (p & Hp & Hk). exists p. split; [|done].
    apply (list_elem_of_fmap_2 snd _ (e, p)), Hp.
Qed.

Lemma packets_keep k l : packets (List.filter (keep k) l) = without_key k (packets l).
Proof using Type. unfold packets, without_key. rewrite bfilter_map. done. Qed.

Lemma without_absent k l : has_key k l = false → without_key k l = l.
Proof using Type.
  intros H. apply bfilter_all. intros p Hp. apply negb_true_iff, bool_decide_eq_false. intros Hk.
  assert (has_key k l = true) by (apply has_key_elem; by exists p). congruence.
Qed.

Lemma unlink_elems n q s w k e :
  queue_ok n q s w → q_index q !! k = Some e → packets (q_elems (unlink k e q)) = without_key k (packets (q_elems q)).
Proof using Type.
  intros H He. rewrite <-packets_keep. unfold unlink. cbn [q_elems]. f_equal. by eapply remove_is_keep.
Qed.

Lemma add_packet_ok p mb :
  mailbox_ok mb → mailbox_ok (add_packet p mb).1 ∧ unacked (add_packet p mb).1 = take_packet p (unacked mb).
Proof using Type.
  intros (sr & wr & sa & wa & Hr & Ha). unfold add_packet, take_packet, unacked.
  rewrite (queue_has _ _ _ _ _ Hr), (queue_has _ _ _ _ _ Ha).
  assert (∀ n q s w, queue_ok n q s w → queue_ok (S n) q s w) as Hm by (intros n q s w; apply queue_ok_mono; lia).
  assert (mailbox_ok mb) as Hmb by by exists sr, wr, sa, wa.
  destruct (p_htlc p) eqn:Ep; cbn [is_response is_add]; [|..|done];
    destruct (q_index _ !! in_key p) eqn:E; try (by split);
    cbn [fst set_next set_reps set_adds mb_reps mb_adds mb_next]; unfold mailbox_ok;
    cbn [mb_reps mb_adds mb_next q_elems push]; unfold packets; rewrite map_app.
  - split; [|done]. exists sr, wr, sa, (wa ++ [(mb_next mb, p)]). split; [by apply Hm | by apply push_ok].
  - split; [|done]. exists sr, (wr ++ [(mb_next mb, p)]), sa, wa. split; [by apply push_ok | by apply Hm].
  - split; [|done]. exists sr, (wr ++ [(mb_next mb, p)]), sa, wa. split; [by apply push_ok | by apply Hm].
Qed.

Lemma ack_packet_ok k mb :
  mailbox_ok mb → mailbox_ok (ack_packet k mb).1 ∧ unacked (ack_packet k mb).1 = drop_key k (unacked mb).
Proof using Type.
  intros (sr & wr & sa & wa & Hr & Ha). unfold ack_packet, drop_key. unfold unacked at 2.
  rewrite (queue_has _ _ _ _ _ Hr). destruct (q_index (mb_reps mb) !! k) as [e|] eqn:Er.
  - cbn [fst]. split.
    + do 4 eexists. split; [by apply unlink_ok | exact Ha].
    + unfold unacked. cbn [set_reps mb_reps mb_adds]. f_equal. by eapply unlink_elems.
  - destruct (q_index (mb_adds mb) !! k) as [e|] eqn:Ea; cbn [fst].
    + split; [do 4 eexists; split; [exact Hr | by apply unlink_ok]|].
      unfold unacked. cbn [set_adds mb_reps mb_adds]. f_equal. by eapply unlink_elems.
    + split; [by exists sr, wr, sa, wa|]. unfold unacked. f_equal. symmetry. apply without_absent.
      by rewrite (queue_has _ _ _ _ _ Ha), Ea.
Qed.

Lemma fail_add_ack update p mb : (fail_add update p mb).1 = (ack_packet (in_key p) mb).1.
Proof using Type. unfold fail_add. destruct (ack_packet (in_key p) mb) as [mb' []]; done. Qed.

Lemma set_courier_ok c mb : mailbox_ok mb → mailbox_ok (set_courier c mb).
Proof using Type. done. Qed.

Lemma advance_elems e q : q_elems (advance e q) = q_elems q.
Proof using Type. unfold advance. by case_decide. Qed.

Lemma courier_send_ok mb : mailbox_ok mb → mailbox_ok (courier_send mb).1 ∧ unacked (courier_send mb).1 = unacked mb.
Proof using Type.
  intros H. pose proof H as (sr & wr & sa & wa & Hr & Ha). unfold courier_send.
  destruct (mb_courier mb) as [[[[e p]|] a]|]; [|destruct a as [[e p]|]|]; try done; cbn [fst].
  - destruct (advance_ok _ _ _ _ e Hr) as (s' & w' & Hr' & _). split; [by exists s', w', sa, wa|].
    unfold unacked. cbn. by rewrite advance_elems.
  - destruct (advance_ok _ _ _ _ e Ha) as (s' & w' & Ha' & _). split; [by exists sr, wr, s', w'|].
    unfold unacked. cbn. by rewrite advance_elems.
Qed.

Lemma run_mail_op_ok op mb :
  mailbox_ok mb → mailbox_ok (run_mail_op op mb) ∧ unacked (run_mail_op op mb) = unacked_after op mb (unacked mb).
Proof using Type.
  intros H. destruct op as [p|k|update p| | |update| |r]; cbn [run_mail_op]; unfold unacked_after; cbn [acked_by].
  - by apply add_packet_ok.
  - by apply ack_packet_ok.
  - rewrite fail_add_ack. by apply ack_packet_ok.
  - unfold courier_peek. destruct (peek (mb_reps mb)), (peek (mb_adds mb)); done.
  - by apply courier_send_ok.
  - unfold courier_expire. destruct (mb_courier mb) as [[r [[e p]|]]|]; [|done..]. rewrite fail_add_ack.
    by apply (ack_packet_ok (in_key p) (set_courier None mb)).
  - destruct H as (sr & wr & sa & wa & Hr & Ha). split; [|done].
    exists [], (sr ++ wr), [], (sa ++ wa). split; by apply rewind_ok.
  - done.
Qed.

(** ** What a link gets when it is back *)

(** The courier, until it has nothing left. *)
Fixpoint drain (n : nat) (mb : mailbox) : mailbox * list htlc_packet :=
  match n with
  | O => (mb, [])
  | S n =>
      let '(mb, p) := courier_send (courier_peek mb) in
      let '(mb, l) := drain n mb in
      (mb, option_list p ++ l)
  end.

Lemma drain_ok wr wa sr sa mb :
  queue_ok (mb_next mb) (mb_reps mb) sr wr → queue_ok (mb_next mb) (mb_adds mb) sa wa → mb_courier mb = None →
  let '(mb', l) := drain (length wr + length wa) mb in
  l = packets wr ++ packets wa ∧ unacked mb' = unacked mb ∧ mb_courier mb' = None.
Proof using Type.
  remember (length wr + length wa)%nat as n eqn:En. revert wr wa sr sa mb En. induction n as [|n IH]; intros wr wa sr sa mb En Hr Ha Hc.
  { destruct wr, wa; try done. }
  cbn [drain]. unfold courier_peek. rewrite (peek_ok _ _ _ _ Hr), (peek_ok _ _ _ _ Ha).
  destruct wr as [|[e p] wr]; cbn [head].
  - destruct wa as [|[e p] wa]; cbn [head]; [done|]. unfold courier_send. cbn [mb_courier set_courier].
    destruct (advance_ok _ _ _ _ e Ha) as (s' & w' & Ha' & _ & Hs & He). destruct (Hs p wa eq_refl) as [-> ->].
    set (mb1 := set_courier None _). specialize (IH [] wa sr (sa ++ [(e, p)]) mb1 ltac:(cbn in *; lia) Hr Ha' eq_refl).
    destruct (drain n mb1) as [mb' l]. destruct IH as (-> & Hu & Hc'). split_and!; [done | | done].
    rewrite Hu. unfold unacked. cbn. by rewrite He.
  - set (a := head wa). assert (courier_send (set_courier (Some (InHand (Some (e, p)) a)) mb) =
      (set_courier None (set_reps (advance e (mb_reps mb)) (set_courier (Some (InHand (Some (e, p)) a)) mb)), Some p)) as E by done.
    destruct a; rewrite E; clear E;
      (destruct (advance_ok _ _ _ _ e Hr) as (s' & w' & Hr' & _ & Hs & He); destruct (Hs p wr eq_refl) as [-> ->];
       set (mb1 := set_courier None _); specialize (IH wr wa (sr ++ [(e, p)]) sa mb1 ltac:(cbn in *; lia) Hr' Ha eq_refl);
       destruct (drain n mb1) as [mb' l]; destruct IH as (-> & Hu & Hc'); split_and!; [done | | done];
       rewrite Hu; unfold unacked; cbn; by rewrite He).
Qed.

(** A mailbox over its life, with what it has to deliver. *)
Inductive mail_run (sid : Z) : mailbox → list htlc_packet * list htlc_packet → Prop :=
| mail_start : mail_run sid (new_mailbox sid) ([], [])
| mail_next op mb u : mail_run sid mb u → mail_run sid (run_mail_op op mb) (unacked_after op mb u).

Lemma mail_run_ok sid mb u : mail_run sid mb u → mailbox_ok mb ∧ unacked mb = u.
Proof using Type.
  intros H. induction H as [|op mb u H [Hok <-]].
  - split; [|done]. exists [], [], [], []. split; apply empty_queue_ok.
  - by apply run_mail_op_ok.
Qed.

(** C16: Whatever a mailbox goes through - packets in, acknowledgements,
    deliveries, expiries, resets, in any order and with the courier in the middle
    of one - a reset makes it deliver to the link exactly the packets that it
    was given and that were not acknowledged, in the order they came, the
    responses before the adds; and a key is there at most once. *)
Theorem mailbox_redelivers sid mb reps adds :
  mail_run sid mb (reps, adds) →
  let '(mb', l) := drain (length reps + length adds) (reset_packets mb) in
  l = reps ++ adds ∧ unacked mb' = (reps, adds) ∧ NoDup (map in_key reps) ∧ NoDup (map in_key adds).
Proof using Type.
  intros H. apply mail_run_ok in H as [(sr & wr & sa & wa & Hr & Ha) Hu].
  pose proof (drain_ok _ _ _ _ (reset_packets mb) (rewind_ok _ _ _ _ Hr) (rewind_ok _ _ _ _ Ha) eq_refl) as Hd.
  rewrite <-(qo_elems _ _ _ _ Hr), <-(qo_elems _ _ _ _ Ha) in Hd. unfold unacked in Hu. injection Hu as <- <-.
  unfold packets at 1 2. rewrite !length_map. destruct (drain _ _) as [mb' l]. destruct Hd as (-> & -> & _).
  assert (∀ q s w, queue_ok (mb_next mb) q s w → NoDup (map in_key (packets (q_elems q)))) as Hn.
  { intros q s w Hq. unfold packets. rewrite map_map. apply NoDup_fmap_2_strong.
    - intros [e p] [e' p'] Hx Hy E. by destruct (key_unique _ _ _ _ _ _ _ _ Hq Hx Hy E) as [-> ->].
    - eapply NoDup_fmap_1, (qo_ids _ _ _ _ Hq). }
  split_and!; [done | done | by eapply Hn | by eapply Hn].
Qed.
End Mail.
