(* ===== verification/Switch.v ===== *)
(** * The switch

    htlcswitch/switch.go: the indexes of links, the choice of a link for an HTLC,
    the forwarding of packets through the [CircuitMap] and the mailboxes, the
    results of our own payments and the responses that are kept for a restart.
    The channel to the forwarder's goroutine is a queue, and the goroutines that
    it starts for our own payments are a set; notifications and logs are left out. *)

From S2P Require Import Prelude UpdateLog Tlv CircuitMap Forwarding Packet Mailbox.

(** ** Links *)

(** The ChannelLink interface, as far as the switch uses it. *)
Record channel_link := ChannelLink {
  cl_chan_id : Z;
  cl_short_chan_id : Z;
  cl_peer : bytes;
  cl_eligible_to_forward : bool;
  cl_unadvertised : bool;
  cl_negotiated_alias : bool;
  cl_zero_conf : bool;
  cl_confirmed_scid : option Z;          (* of a confirmed zero-conf channel *)
  cl_aliases : list Z;
  cl_outgoing : outgoing_link;
  cl_fee_rate : Z;
  cl_is_dust : Z → bool → channel_party → Z → bool;
  cl_dust_sum : channel_party → Z;
}.

Record switch_config := SwitchConfig {
  sc_reject_htlc : bool;
  sc_allow_circular_route : bool;
  sc_max_fee_exposure : Z;
  sc_is_alias : Z → bool;
  sc_channel_update : Z → bool;          (* whether an update is found for a failure *)
}.

(** networkResult *)
Record network_result := NetworkResult { nr_msg : htlc_msg; nr_unencrypted : bool; nr_is_resolution : bool }.

Record forwarding_event := ForwardingEvent {
  fe_incoming : circuit_key;
  fe_outgoing : circuit_key;
  fe_amt_in : Z;
  fe_amt_out : Z;
}.

(** A resolution of the chain: a preimage, or a failure. *)
Definition resolution : Type := option bytes.

Inductive switch_error :=
| ErrChannelLinkNotFound
| ErrNoLinksFound
| ErrLinkAlreadyActive
| ErrAliasNotNegotiated
| ErrFailure (e : link_error)
| ErrObfuscate
| ErrNilEncrypter                        (* a panic *)
| ErrNilCircuit                          (* a panic *)
| ErrDeliver (e : mail_error)
| ErrOfCircuit (e : circuit_error)
| ErrUnknownTarget
| ErrWrongUpdateType
| ErrFeeExposureExceeded
| ErrDuplicateAdd
| ErrLocalAddFailed
| ErrStore.

Record switch := Switch {
  sw_best_height : Z;
  sw_circuits : circuit_map;
  sw_mail : mail_orchestrator;
  sw_pending_link_index : gmap Z channel_link;
  sw_link_index : gmap Z channel_link;
  sw_forwarding_index : gmap Z Z;        (* to the link's channel id *)
  sw_interface_index : gmap bytes (gset Z);
  sw_alias_to_real : gmap Z Z;
  sw_base_index : gmap Z Z;
  sw_splice_index : gmap Z Z;
  sw_htlc_plex : list htlc_packet;
  sw_local : list htlc_packet;           (* goroutines of handleLocalResponse *)
  sw_network_results : gmap Z network_result;
  sw_res_msgs : gmap circuit_key resolution;
  sw_fwding_events : list forwarding_event;
  sw_pending_settle_fails : list settle_fail_ref;
  sw_acked : list settle_fail_ref;       (* acknowledged in the database *)
}.

Implicit Types (s : switch) (p : htlc_packet) (link : channel_link).

Definition set_height (h : Z) s : switch :=
  Switch h (sw_circuits s) (sw_mail s) (sw_pending_link_index s) (sw_link_index s) (sw_forwarding_index s)
    (sw_interface_index s) (sw_alias_to_real s) (sw_base_index s) (sw_splice_index s) (sw_htlc_plex s) (sw_local s)
    (sw_network_results s) (sw_res_msgs s) (sw_fwding_events s) (sw_pending_settle_fails s) (sw_acked s).
Definition set_circuits (c : circuit_map) s : switch :=
  Switch (sw_best_height s) c (sw_mail s) (sw_pending_link_index s) (sw_link_index s) (sw_forwarding_index s)
    (sw_interface_index s) (sw_alias_to_real s) (sw_base_index s) (sw_splice_index s) (sw_htlc_plex s) (sw_local s)
    (sw_network_results s) (sw_res_msgs s) (sw_fwding_events s) (sw_pending_settle_fails s) (sw_acked s).
Definition set_mail (m : mail_orchestrator) s : switch :=
  Switch (sw_best_height s) (sw_circuits s) m (sw_pending_link_index s) (sw_link_index s) (sw_forwarding_index s)
    (sw_interface_index s) (sw_alias_to_real s) (sw_base_index s) (sw_splice_index s) (sw_htlc_plex s) (sw_local s)
    (sw_network_results s) (sw_res_msgs s) (sw_fwding_events s) (sw_pending_settle_fails s) (sw_acked s).
Definition set_links (pending live : gmap Z channel_link) (fwd : gmap Z Z) (ifs : gmap bytes (gset Z)) s : switch :=
  Switch (sw_best_height s) (sw_circuits s) (sw_mail s) pending live fwd
    ifs (sw_alias_to_real s) (sw_base_index s) (sw_splice_index s) (sw_htlc_plex s) (sw_local s)
    (sw_network_results s) (sw_res_msgs s) (sw_fwding_events s) (sw_pending_settle_fails s) (sw_acked s).
Definition set_aliases (real base splice : gmap Z Z) s : switch :=
  Switch (sw_best_height s) (sw_circuits s) (sw_mail s) (sw_pending_link_index s) (sw_link_index s) (sw_forwarding_index s)
    (sw_interface_index s) real base splice (sw_htlc_plex s) (sw_local s)
    (sw_network_results s) (sw_res_msgs s) (sw_fwding_events s) (sw_pending_settle_fails s) (sw_acked s).
Definition set_plex (l : list htlc_packet) s : switch :=
  Switch (sw_best_height s) (sw_circuits s) (sw_mail s) (sw_pending_link_index s) (sw_link_index s) (sw_forwarding_index s)
    (sw_interface_index s) (sw_alias_to_real s) (sw_base_index s) (sw_splice_index s) l (sw_local s)
    (sw_network_results s) (sw_res_msgs s) (sw_fwding_events s) (sw_pending_settle_fails s) (sw_acked s).
Definition set_local (l : list htlc_packet) s : switch :=
  Switch (sw_best_height s) (sw_circuits s) (sw_mail s) (sw_pending_link_index s) (sw_link_index s) (sw_forwarding_index s)
    (sw_interface_index s) (sw_alias_to_real s) (sw_base_index s) (sw_splice_index s) (sw_htlc_plex s) l
    (sw_network_results s) (sw_res_msgs s) (sw_fwding_events s) (sw_pending_settle_fails s) (sw_acked s).
Definition set_network_results (m : gmap Z network_result) s : switch :=
  Switch (sw_best_height s) (sw_circuits s) (sw_mail s) (sw_pending_link_index s) (sw_link_index s) (sw_forwarding_index s)
    (sw_interface_index s) (sw_alias_to_real s) (sw_base_index s) (sw_splice_index s) (sw_htlc_plex s) (sw_local s)
    m (sw_res_msgs s) (sw_fwding_events s) (sw_pending_settle_fails s) (sw_acked s).
Definition set_res_msgs (m : gmap circuit_key resolution) s : switch :=
  Switch (sw_best_height s) (sw_circuits s) (sw_mail s) (sw_pending_link_index s) (sw_link_index s) (sw_forwarding_index s)
    (sw_interface_index s) (sw_alias_to_real s) (sw_base_index s) (sw_splice_index s) (sw_htlc_plex s) (sw_local s)
    (sw_network_results s) m (sw_fwding_events s) (sw_pending_settle_fails s) (sw_acked s).
Definition set_fwding_events (l : list forwarding_event) s : switch :=
  Switch (sw_best_height s) (sw_circuits s) (sw_mail s) (sw_pending_link_index s) (sw_link_index s) (sw_forwarding_index s)
    (sw_interface_index s) (sw_alias_to_real s) (sw_base_index s) (sw_splice_index s) (sw_htlc_plex s) (sw_local s)
    (sw_network_results s) (sw_res_msgs s) l (sw_pending_settle_fails s) (sw_acked s).
Definition set_settle_fails (pending acked : list settle_fail_ref) s : switch :=
  Switch (sw_best_height s) (sw_circuits s) (sw_mail s) (sw_pending_link_index s) (sw_link_index s) (sw_forwarding_index s)
    (sw_interface_index s) (sw_alias_to_real s) (sw_base_index s) (sw_splice_index s) (sw_htlc_plex s) (sw_local s)
    (sw_network_results s) (sw_res_msgs s) (sw_fwding_events s) pending acked.

(** [New], with the circuits that a restart finds. *)
Definition new_switch (height : Z) (circuits : circuit_map) : switch :=
  Switch height circuits new_mail_orchestrator ∅ ∅ ∅ ∅ ∅ ∅ ∅ [] [] ∅ ∅ [] [] [].

(** ** Finding links *)

Definition get_link (chan_id : Z) s : option channel_link :=
  match sw_link_index s !! chan_id with Some l => Some l | None => sw_pending_link_index s !! chan_id end.

(** A link of the forwarding index is a live one. *)
Definition forwarding_link (scid : Z) s : option channel_link :=
  cid ← sw_forwarding_index s !! scid; sw_link_index s !! cid.

Definition splice_link (scid : Z) s : option channel_link :=
  base ← sw_splice_index s !! scid; forwarding_link base s.

Definition splice_base (scid : Z) s : Z := default scid (sw_splice_index s !! scid).

Definition get_link_by_short_id (chan_id : Z) s : option channel_link :=
  match forwarding_link chan_id s with Some l => Some l | None => splice_link chan_id s end.

Definition get_links (peer : bytes) s : list channel_link :=
  omap (λ cid, sw_link_index s !! cid) (elements (default ∅ (sw_interface_index s !! peer))).

Section Forward.
Context {TP : TlvPrims} {OP : OnionPrims} (cfg : switch_config).

(** The packet, whose outgoing channel may become the base of an alias, and the
    link that it names. *)
Definition get_link_by_mapping p s : htlc_packet * option channel_link :=
  let chan_id := p_outgoing_chan_id p in
  let p := set_original_outgoing_chan_id chan_id p in
  if sc_is_alias cfg chan_id then
    match sw_base_index s !! chan_id with
    | None => (p, None)
    | Some base =>
        match forwarding_link base s with
        | None => (p, None)
        | Some l => (set_outgoing_chan_id base p, Some l)
        end
    end
  else
    match sw_base_index s !! chan_id with
    | None =>
        match forwarding_link chan_id s with
        | Some l => (p, Some l)
        | None =>
            match splice_link chan_id s with
            | None => (p, None)
            | Some l => if cl_unadvertised l && cl_negotiated_alias l then (p, None)
                        else (set_outgoing_chan_id (cl_short_chan_id l) p, Some l)
            end
        end
    | Some base =>
        match forwarding_link base s with
        | None => (p, None)
        | Some l => if cl_unadvertised l then (p, None) else (set_outgoing_chan_id base p, Some l)
        end
    end.

Definition circular_failure : link_error :=
  new_detailed_link_error FailTemporaryChannelFailure OutgoingFailureCircularRoute.

Definition check_circular_forward (incoming outgoing : Z) s : option link_error :=
  let incoming := splice_base incoming s in
  let outgoing := splice_base outgoing s in
  let circular := if sc_allow_circular_route cfg then None else Some circular_failure in
  if incoming =? outgoing then circular
  else
    match sw_base_index s !! incoming, sw_base_index s !! outgoing with
    | Some i, Some o => if i =? o then circular else None
    | _, _ => None
    end.

(** ** Fee exposure *)

Definition dust_exceeds_fee_threshold link (amount : Z) (incoming : bool) s : switch * bool :=
  let is_dust whose := cl_is_dust link (cl_fee_rate link) incoming whose (amount / 1000) in
  if negb (is_dust Local || is_dust Remote) then (s, false)
  else
    let '(mo, mb) := get_or_create_mailbox (cl_chan_id link) (cl_short_chan_id link) (sw_mail s) in
    let '(local_mail, remote_mail) := dust_packets (cl_is_dust link) mb in
    let exceeds whose mail :=
      is_dust whose &&
      (sc_max_fee_exposure cfg <? (let sum := u64 (cl_dust_sum link whose + mail) in if incoming then sum else u64 (sum + amount))) in
    (set_mail mo s, exceeds Local local_mail || exceeds Remote remote_mail).

(** ** Adds *)

Definition deliver_packet (sid : Z) p s : switch * result switch_error () :=
  let '(mo, r) := deliver sid p (sw_mail s) in
  (set_mail mo s, match r with Ok _ => Ok () | Err e => Err (ErrDeliver e) end).

(** [handleSwitchPacket] of a link *)
Definition handle_switch_packet link p s : switch * result switch_error () :=
  let '(mo, mb) := get_or_create_mailbox (cl_chan_id link) (cl_short_chan_id link) (sw_mail s) in
  let '(mb, r) := add_packet p mb in
  (set_mail (set_mailbox (cl_chan_id link) mb mo) s, match r with Ok _ => Ok () | Err e => Err (ErrDeliver e) end).

Definition fail_packet_of (reason : bytes) (failure : link_error) p : htlc_packet :=
  HtlcPacket (p_incoming_chan_id p) (p_outgoing_chan_id p) (p_outgoing_hop p) (p_incoming_htlc_id p) (p_outgoing_htlc_id p)
    (p_source_ref p) None (p_incoming_amount p) (p_amount p) (UpdateFailHTLC reason) (p_obfuscator p) false (Some failure)
    false false false (p_circuit p) (p_incoming_timeout p) (p_outgoing_timeout p) 0 (InboundFee 0 0).

Definition fail_add_packet p (failure : link_error) s : switch * result switch_error () :=
  match p_obfuscator p with
  | None => (s, Err ErrNilEncrypter)
  | Some e =>
      match encrypt_first_hop e (le_msg failure) with
      | None => (s, Err ErrObfuscate)
      | Some reason =>
          let '(s, r) := deliver_packet (p_incoming_chan_id p) (fail_packet_of reason failure p) s in
          (s, let* _ := r in Err (ErrFailure failure))
      end
  end.

(** The links to the next hop, or the failure. *)
Definition candidate_links p s : htlc_packet * result link_error (list channel_link) :=
  match p_outgoing_hop p with
  | inl _ =>
      match check_circular_forward (p_incoming_chan_id p) (p_outgoing_chan_id p) s with
      | Some e => (p, Err e)
      | None =>
          match get_link_by_mapping p s with
          | (p, None) => (p, Err (new_link_error FailUnknownNextPeer))
          | (p, Some target) => (p, Ok (get_links (cl_peer target) s))
          end
      end
  | inr peer =>
      let links := List.filter (λ l, match check_circular_forward (p_incoming_chan_id p) (cl_short_chan_id l) s with
                                     | None => true | Some _ => false end) (get_links peer s) in
      match links with
      | [] => (p, Err (new_link_error FailUnknownNextPeer))
      | _ => (p, Ok links)
      end
  end.

Definition check_destination p (records : custom_records) s link : option link_error :=
  if negb (cl_eligible_to_forward link) then Some (new_detailed_link_error FailUnknownNextPeer OutgoingFailureLinkNotEligible)
  else check_htlc_forward (cl_outgoing link) (p_incoming_amount p) (p_amount p) (p_incoming_timeout p) (p_outgoing_timeout p)
         (p_inbound_fee p) (sw_best_height s) (p_original_outgoing_chan_id p) records.

(** Without a destination: the failure of the link that the sender named. *)
Definition no_destination p (links : list channel_link) (records : custom_records) s : link_error :=
  match p_outgoing_hop p with
  | inr _ => new_link_error FailUnknownNextPeer
  | inl _ =>
      let errs : gmap Z link_error :=
        foldl (λ m l, match check_destination p records s l with Some e => <[cl_short_chan_id l := e]> m | None => m end) ∅ links in
      default (new_link_error FailUnknownNextPeer) (errs !! p_outgoing_chan_id p)
  end.

(** [pick] is the random number. *)
Definition handle_packet_add (pick : nat) p (records : custom_records) s : switch * result switch_error () :=
  if sc_reject_htlc cfg then
    fail_add_packet p (new_detailed_link_error FailChannelDisabled OutgoingFailureForwardsDisabled) s
  else
    match candidate_links p s with
    | (p, Err e) => fail_add_packet p e s
    | (p, Ok links) =>
        let destinations := List.filter (λ l, match check_destination p records s l with None => true | Some _ => false end) links in
        match destinations !! (pick mod length destinations)%nat with
        | None => fail_add_packet p (no_destination p links records s) s
        | Some destination =>
            match get_link_by_short_id (p_incoming_chan_id p) s with
            | None => fail_add_packet p (new_link_error FailTemporaryChannelFailure) s
            | Some incoming =>
                let '(s, exceeds) := dust_exceeds_fee_threshold incoming (p_incoming_amount p) true s in
                if exceeds : bool then fail_add_packet p (new_link_error FailTemporaryChannelFailure) s
                else
                  let '(s, exceeds) := dust_exceeds_fee_threshold destination (p_amount p) false s in
                  if exceeds : bool then fail_add_packet p (new_link_error FailTemporaryChannelFailure) s
                  else handle_switch_packet destination (set_outgoing_chan_id (cl_short_chan_id destination) p) s
            end
        end
    end.

(** ** Responses *)

(** [closeCircuit]: the packet with its source, and the circuit; none for a
    settle of a circuit that is gone. *)
Definition close_packet_circuit p s : switch * htlc_packet * result switch_error (option addr) :=
  if p_has_source p then
    let '(cm, r) := fail_circuit (in_key p) (sw_circuits s) in
    (set_circuits cm s, p, match r with Ok a => Ok (Some a) | Err e => Err (ErrOfCircuit e) end)
  else
    let '(cm, r) := close_circuit (packet_out_key p) (sw_circuits s) in
    let s := set_circuits cm s in
    match r with
    | Ok a =>
        let c := deref a cm in
        (s, set_source_ref (Some (pc_add_ref c)) (set_circuit (Some a) (set_source (pc_incoming c) p)), Ok (Some a))
    | Err ErrUnknownCircuit =>
        let s := match p_dest_ref p with
                 | Some ref => set_settle_fails (sw_pending_settle_fails s ++ [ref]) (sw_acked s) s
                 | None => s
                 end in
        (s, p, if is_fulfill (p_htlc p) then Ok None else Err ErrUnknownTarget)
    | Err e => (s, p, Err (ErrOfCircuit e))
    end.

(** [teardownCircuit] *)
Definition teardown_circuit (db_ok : bool) p s : switch * result switch_error () :=
  if is_response (p_htlc p) then
    let '(cm, r) := delete_circuits db_ok [in_key p] (sw_circuits s) in
    match r with
    | Ok _ => (set_circuits cm s, Ok ())
    | Err e =>
        (* the log line of a failure reads the circuit of the packet *)
        (set_circuits cm s, Err (match p_circuit p with Some _ => ErrOfCircuit e | None => ErrNilCircuit end))
    end
  else (s, Err ErrWrongUpdateType).

(** [handleLocalResponse], by whether the store, the acknowledgement and the
    deletion succeed. *)
Definition handle_local_response (store_ok ack_ok db_ok : bool) p s : switch * result switch_error () :=
  let n := NetworkResult (p_htlc p) (p_local_failure p || p_converted_error p) (p_is_resolution p) in
  if negb store_ok then (s, Err ErrStore) else
  let s := set_network_results (<[p_incoming_htlc_id p := n]> (sw_network_results s)) s in
  match p_dest_ref p with
  | Some ref => if negb ack_ok then (s, Err ErrStore) else
                teardown_circuit db_ok p (set_settle_fails (sw_pending_settle_fails s) (sw_acked s ++ [ref]) s)
  | None => teardown_circuit db_ok p s
  end.

(** The goroutine of the response to a payment of our own. *)
Definition respond_locally p s : switch := set_local (sw_local s ++ [p]) s.

Definition handle_packet_settle p s : switch * result switch_error () :=
  match close_packet_circuit p s with
  | (s, _, Err (ErrOfCircuit ErrCircuitClosing)) => (s, Ok ())
  | (s, _, Err e) => (s, Err e)
  | (s, _, Ok None) => (s, Ok ())
  | (s, p, Ok (Some a)) =>
      if p_incoming_chan_id p =? source then (respond_locally p s, Ok ())
      else
        let c := deref a (sw_circuits s) in
        let s := match pc_outgoing c with
                 | Some out => set_fwding_events (sw_fwding_events s ++
                     [ForwardingEvent (pc_incoming c) out (pc_incoming_amount c) (pc_outgoing_amount c)]) s
                 | None => s
                 end in
        deliver_packet (p_incoming_chan_id p) p s
  end.

(** The reason that goes back, encrypted once more. An error of the first
    encryption is only logged. *)
Definition wrap_reason p (e : error_encrypter) (reason : bytes) : bytes :=
  if p_is_resolution p then default [] (encrypt_first_hop e FailPermanentChannelFailure)
  else if p_converted_error p then encrypt_malformed_error e reason
  else intermediate_encrypt e reason.

Definition handle_packet_fail (reason : bytes) p s : switch * result switch_error () :=
  match close_packet_circuit p s with
  | (s, _, Err (ErrOfCircuit ErrCircuitClosing)) => (s, Ok ())
  | (s, _, Err e) => (s, Err e)
  | (s, p, Ok a) =>
      if p_incoming_chan_id p =? source then (respond_locally p s, Ok ())
      else if p_has_source p then deliver_packet (p_incoming_chan_id p) p s
      else
        match a with
        | None => (s, Err ErrNilCircuit)
        | Some a =>
            let e := pc_error_encrypter (deref a (sw_circuits s)) in
            let p := set_obfuscator e p in
            let p := match e with None => p | Some e => set_htlc (UpdateFailHTLC (wrap_reason p e reason)) p end in
            deliver_packet (p_incoming_chan_id p) p s
        end
  end.

Definition handle_packet_forward (pick : nat) p s : switch * result switch_error () :=
  match p_htlc p with
  | UpdateAddHTLC _ _ _ records => handle_packet_add pick p records s
  | UpdateFulfillHTLC _ => handle_packet_settle p s
  | UpdateFailHTLC reason => handle_packet_fail reason p s
  | OtherMsg => (s, Err ErrWrongUpdateType)
  end.

(** The forwarder takes the next packet from its channel. *)
Definition htlc_forwarder (pick : nat) s : switch :=
  match sw_htlc_plex s with
  | [] => s
  | p :: l => (handle_packet_forward pick p (set_plex l s)).1
  end.

(** ** Batches *)

Definition route_async p s : switch := set_plex (sw_htlc_plex s ++ [p]) s.

Definition new_payment_circuit (hash : bytes) p : payment_circuit :=
  PaymentCircuit (default (0, 0) (p_source_ref p)) (in_key p) None hash (p_incoming_amount p) (p_amount p) (p_obfuscator p) false.

(** A circuit on the heap *)
Definition alloc_circuit (c : payment_circuit) s : switch * addr :=
  (set_circuits (set_heap (cm_heap (sw_circuits s) ++ [c]) (sw_circuits s)) s, length (cm_heap (sw_circuits s))).

(** The first pass. *)
Definition first_pass (x : switch * list addr * list htlc_packet) p : switch * list addr * list htlc_packet :=
  let '(s, circuits, adds) := x in
  match p_htlc p with
  | UpdateAddHTLC hash _ _ _ =>
      let '(s, a) := alloc_circuit (new_payment_circuit hash p) s in
      (s, circuits ++ [a], adds ++ [set_circuit (Some a) p])
  | _ => (route_async p s, circuits, adds)
  end.

Definition is_next (l : list addr) p : bool := match l with [] => false | a :: _ => bool_decide (p_circuit p = Some a) end.

(** The in-order seek to the heads of the three lists. *)
Fixpoint split_packets (batch : list htlc_packet) (actions : fwd_actions) : list htlc_packet * list htlc_packet :=
  match batch with
  | [] => ([], [])
  | p :: batch =>
      let '(FwdActions adds drops fails) := actions in
      if is_next adds p then
        let '(added, failed) := split_packets batch (FwdActions (tail adds) drops fails) in (p :: added, failed)
      else if is_next drops p then split_packets batch (FwdActions adds (tail drops) fails)
      else if is_next fails p then
        let '(added, failed) := split_packets batch (FwdActions adds drops (tail fails)) in (added, p :: failed)
      else split_packets batch actions
  end.

Definition incomplete_forward (failed : list htlc_packet) : link_error :=
  let incoming := default 0 (p_incoming_chan_id <$> head failed) in
  new_detailed_link_error (if sc_channel_update cfg incoming then FailTemporaryChannelFailure else FailTemporaryNodeFailure)
    OutgoingFailureIncompleteForward.

Definition forward_packets (db_ok : bool) (packets : list htlc_packet) s : switch :=
  let '(s, circuits, batch) := foldl first_pass (s, [], []) packets in
  match circuits with
  | [] => s
  | _ =>
      let '(cm, (actions, _)) := commit_circuits db_ok circuits (sw_circuits s) in
      let '(added, failed) := split_packets batch actions in
      let s := foldl (λ s p, route_async p s) (set_circuits cm s) added in
      foldl (λ s p, (fail_add_packet p (incomplete_forward failed) s).1) s failed
  end.

(** ** Our own payments *)

Definition get_local_link p (amount expiry : Z) (records : custom_records) s : result link_error channel_link :=
  let found := match get_link_by_short_id (p_outgoing_chan_id p) s with
               | Some l => Some l
               | None => base ← sw_base_index s !! p_outgoing_chan_id p; get_link_by_short_id base s
               end in
  match found with
  | None => Err (new_link_error FailUnknownNextPeer)
  | Some l =>
      if negb (cl_eligible_to_forward l) then
        Err (new_detailed_link_error FailTemporaryChannelFailure OutgoingFailureLinkNotEligible)
      else match check_htlc_transit (cl_outgoing l) amount expiry (sw_best_height s) records with
           | Some e => Err e
           | None => Ok l
           end
  end.

Definition set_amount (amount : Z) p : htlc_packet :=
  HtlcPacket (p_incoming_chan_id p) (p_outgoing_chan_id p) (p_outgoing_hop p) (p_incoming_htlc_id p) (p_outgoing_htlc_id p)
    (p_source_ref p) (p_dest_ref p) (p_incoming_amount p) amount (p_htlc p) (p_obfuscator p) (p_local_failure p)
    (p_link_failure p) (p_converted_error p) (p_has_source p) (p_is_resolution p) (p_circuit p) (p_incoming_timeout p)
    (p_outgoing_timeout p) (p_original_outgoing_chan_id p) (p_inbound_fee p).

Definition send_htlc (db_ok : bool) (first_hop attempt_id : Z) (hash : bytes) (amount expiry : Z) (records : custom_records) s :
    switch * result switch_error () :=
  let p := set_amount amount (set_outgoing_chan_id first_hop
             (set_source (source, attempt_id) (empty_packet (UpdateAddHTLC hash amount expiry records)))) in
  match get_local_link p amount expiry records s with
  | Err e => (s, Err (ErrFailure e))
  | Ok link =>
      let '(s, exceeds) := dust_exceeds_fee_threshold link amount false s in
      if exceeds : bool then (s, Err ErrFeeExposureExceeded)
      else
        let '(s, a) := alloc_circuit (new_payment_circuit hash p) s in
        let '(cm, (actions, r)) := commit_circuits db_ok [a] (sw_circuits s) in
        let s := set_circuits cm s in
        match r with
        | Err e => (s, Err (ErrOfCircuit e))
        | Ok _ =>
            if (length (fa_drops actions) =? 1)%nat then (s, Err ErrDuplicateAdd)
            else if (length (fa_fails actions) =? 1)%nat then (s, Err ErrLocalAddFailed)
            else handle_switch_packet link (set_circuit (Some a) p) s
        end
  end.

(** ** Responses of the chain, and a restart *)

(** The packet of a resolution. *)
Definition resolution_packet (out : circuit_key) (r : resolution) : htlc_packet :=
  let msg := match r with None => UpdateFailHTLC [] | Some preimage => UpdateFulfillHTLC preimage end in
  HtlcPacket 0 out.1 (inl 0) 0 out.2 None None 0 0 msg None false None false false true None 0 0 0 (InboundFee 0 0).

(** A message of the contract court: it is stored, and handled at once. *)
Definition process_contract_resolution (db_ok : bool) (out : circuit_key) (r : resolution) s : switch * result switch_error () :=
  if negb db_ok then (s, Err ErrStore) else
  let s := set_res_msgs (<[out := r]> (sw_res_msgs s)) s in
  ((handle_packet_forward 0 (resolution_packet out r) s).1, Ok ()).

Definition is_open (out : circuit_key) s : bool := bool_decide (is_Some (lookup_open_circuit out (sw_circuits s))).

Definition reforward_resolutions s : switch :=
  let msgs := map_to_list (sw_res_msgs s) in
  let packets := map (λ x, resolution_packet x.1 x.2) (List.filter (λ x, is_open x.1 s) msgs) in
  forward_packets true packets (set_res_msgs (filter (λ x, is_open x.1 s = true) (sw_res_msgs s)) s).

(** fwdResponsePacket: the responses that outlive their channel. *)
Definition fwd_response_packet (x : circuit_key * htlc_msg) : htlc_packet :=
  HtlcPacket 0 x.1.1 (inl 0) 0 x.1.2 None None 0 0 x.2 None false None false false false None 0 0 0 (InboundFee 0 0).

(** The stored responses, and those that are reaped. *)
Definition reforward_fwd_responses (responses : list (circuit_key * htlc_msg)) s : switch * list circuit_key :=
  let open := List.filter (λ x, is_open x.1 s) responses in
  (forward_packets true (map fwd_response_packet open) s, map fst (List.filter (λ x, negb (is_open x.1 s)) responses)).

(** The settles and fails of a forwarding package that no link has acknowledged:
    the source, the height, and each update with its index and its HTLC. *)
Record fwd_pkg := FwdPkg { fw_source : Z; fw_height : Z; fw_settle_fails : list (Z * htlc_msg); fw_filter : Z → bool }.

Definition settle_fail_packet (pkg : fwd_pkg) (x : nat * (Z * htlc_msg)) : option htlc_packet :=
  let '(i, (id, msg)) := x in
  if fw_filter pkg (u16 (Z.of_nat i)) then None
  else if is_response msg then
    Some (HtlcPacket 0 (fw_source pkg) (inl 0) 0 id None (Some (SettleFailRef (fw_source pkg) (fw_height pkg) (u16 (Z.of_nat i))))
            0 0 msg None false None false false false None 0 0 0 (InboundFee 0 0))
  else None.

Definition reforward_settle_fails (pkgs : list fwd_pkg) s : switch :=
  foldl (λ s pkg, forward_packets true (omap (settle_fail_packet pkg) (imap pair (fw_settle_fails pkg))) s) s pkgs.

(** The tick of the acknowledgements *)
Definition ack_pending (ack_ok : bool) s : switch :=
  match sw_pending_settle_fails s with
  | [] => s
  | l => if ack_ok then set_settle_fails [] (sw_acked s ++ l) s else s
  end.
End Forward.

(** ** Results *)

Definition has_attempt_result (attempt_id : Z) s : bool := bool_decide (is_Some (sw_network_results s !! attempt_id)).
Definition clean_store (keep : gset Z) s : switch :=
  set_network_results (filter (λ x, x.1 ∈ keep) (sw_network_results s)) s.

Definition is_forwarded_htlc (chan_id htlc_index : Z) s : bool :=
  match lookup_open_circuit (chan_id, htlc_index) (sw_circuits s) with
  | Some c => negb ((pc_incoming c).1 =? source)
  | None => false
  end.

(** ** The indexes *)

Definition put_all (keys : list Z) (v : Z) (m : gmap Z Z) : gmap Z Z := foldl (λ m k, <[k := v]> m) m keys.

Definition update_link_aliases link s : switch :=
  let scid := cl_short_chan_id link in
  if cl_zero_conf link then
    let '(real, base) := match cl_confirmed_scid link with
                         | Some confirmed => (put_all (cl_aliases link) confirmed (sw_alias_to_real s),
                                              <[confirmed := scid]> (sw_base_index s))
                         | None => (sw_alias_to_real s, sw_base_index s)
                         end in
    set_aliases real (put_all (cl_aliases link) scid base) (sw_splice_index s) s
  else if cl_negotiated_alias link then
    set_aliases (put_all (cl_aliases link) scid (filter (λ x, x.2 ≠ scid) (sw_alias_to_real s)))
      (<[scid := scid]> (put_all (cl_aliases link) scid (filter (λ x, x.2 ≠ scid) (sw_base_index s)))) (sw_splice_index s) s
  else s.

Definition add_live_link link s : switch :=
  let cid := cl_chan_id link in
  update_link_aliases link
    (set_links (sw_pending_link_index s) (<[cid := link]> (sw_link_index s)) (<[cl_short_chan_id link := cid]> (sw_forwarding_index s))
       (<[cl_peer link := {[cid]} ∪ default ∅ (sw_interface_index s !! cl_peer link)]> (sw_interface_index s)) s).

Definition remove_link (chan_id : Z) s : switch :=
  match get_link chan_id s with
  | None => s
  | Some link =>
      let scid := cl_short_chan_id link in
      let peers := default ∅ (sw_interface_index s !! cl_peer link) ∖ {[chan_id]} in
      let s := set_links (delete chan_id (sw_pending_link_index s)) (delete chan_id (sw_link_index s))
                 (delete scid (sw_forwarding_index s))
                 (if decide (peers = ∅) then delete (cl_peer link) (sw_interface_index s)
                  else <[cl_peer link := peers]> (sw_interface_index s)) s in
      set_aliases (sw_alias_to_real s) (sw_base_index s) (filter (λ x, x.2 ≠ scid) (sw_splice_index s)) s
  end.

(** [AddLink]: [start_ok] says whether the link starts. *)
Definition add_link (start_ok : bool) link s : switch * result switch_error () :=
  let cid := cl_chan_id link in
  match get_link cid s with
  | Some _ => (s, Err ErrLinkAlreadyActive)
  | None =>
      let s := set_mail (get_or_create_mailbox cid (cl_short_chan_id link) (sw_mail s)).1 s in
      if negb start_ok then (remove_link cid s, Err ErrStore)
      else if cl_short_chan_id link =? source then
        (set_links (<[cid := link]> (sw_pending_link_index s)) (sw_link_index s) (sw_forwarding_index s) (sw_interface_index s) s,
         Ok ())
      else
        let s := add_live_link link s in
        (set_mail (bind_live_short_chan_id cid (cl_short_chan_id link) (sw_mail s)) s, Ok ())
  end.

Definition add_splice_scids (chan_id : Z) (scids : list Z) s : switch * result switch_error () :=
  match get_link chan_id s with
  | None => (s, Err ErrChannelLinkNotFound)
  | Some link =>
      let base := cl_short_chan_id link in
      let scids := List.filter (λ i, negb (i =? base) && negb (i =? 0)) scids in
      (set_aliases (sw_alias_to_real s) (sw_base_index s) (put_all scids base (sw_splice_index s)) s, Ok ())
  end.

Definition add_alias_for_link (chan_id alias : Z) s : switch * result switch_error () :=
  match get_link chan_id s with
  | None => (s, Err ErrChannelLinkNotFound)
  | Some link =>
      let scid := cl_short_chan_id link in
      if negb (cl_negotiated_alias link) then (s, Err ErrAliasNotNegotiated)
      else if cl_zero_conf link then
        let real := match cl_confirmed_scid link with Some c => <[alias := c]> (sw_alias_to_real s) | None => sw_alias_to_real s end in
        (set_aliases real (<[alias := scid]> (sw_base_index s)) (sw_splice_index s) s, Ok ())
      else
        (set_aliases (<[alias := scid]> (sw_alias_to_real s)) (<[alias := scid]> (sw_base_index s)) (sw_splice_index s) s, Ok ())
  end.

(** [UpdateShortChanID] of a zero-conf channel that is confirmed; [link] is the
    channel's new state. *)
Definition update_short_chan_id link s : switch * result switch_error () :=
  match sw_link_index s !! cl_chan_id link, cl_confirmed_scid link with
  | Some _, Some confirmed =>
      let s := set_links (sw_pending_link_index s) (<[cl_chan_id link := link]> (sw_link_index s)) (sw_forwarding_index s)
                 (sw_interface_index s) s in
      (set_aliases (put_all (cl_aliases link) confirmed (sw_alias_to_real s))
         (<[confirmed := cl_short_chan_id link]> (sw_base_index s)) (sw_splice_index s) s, Ok ())
  | _, _ => (s, Err ErrChannelLinkNotFound)
  end.
