(* ===== verification/SwitchMail.v ===== *)
(** * The mail of the switch

    What the mailboxes and the orchestrator hold, in the terms of the node: for
    each channel the adds that its link took and those that wait, and of the
    responses a property that all of them have. *)

From S2P Require Import Prelude UpdateLog CircuitMap Forwarding Packet Mailbox MailboxProps.

Implicit Types (p : htlc_packet) (k : circuit_key) (mo : mail_orchestrator) (mb : mailbox).

(** The adds of each channel: sent to its link, and waiting. *)
Definition adds : Type := Z → list htlc_packet * list htlc_packet.

Definition set_at (cid : Z) (x : list htlc_packet * list htlc_packet) (A : adds) : adds :=
  λ c, if decide (c = cid) then x else A c.

Section Shows.
Context (R : htlc_packet → Prop).

Record box_shows mb (x : list htlc_packet * list htlc_packet) : Prop := {
  bs_reps : ∃ s w, queue_ok (mb_next mb) (mb_reps mb) s w;
  bs_adds : ∃ s w, queue_ok (mb_next mb) (mb_adds mb) s w ∧ packets s = x.1 ∧ packets w = x.2;
  bs_courier : mb_courier mb = None;
  bs_good p : p ∈ packets (q_elems (mb_reps mb)) → R p;
}.

Record mail_shows mo (A : adds) : Prop := {
  ms_box cid mb : mo_mailboxes mo !! cid = Some mb → box_shows mb (A cid);
  ms_none cid : mo_mailboxes mo !! cid = None → A cid = ([], []);
  ms_unclaimed sid l p : mo_unclaimed_packets mo !! sid = Some l → p ∈ l → R p ∧ is_response (p_htlc p) = true;
}.

Lemma new_box_shows sid : box_shows (new_mailbox sid) ([], []).
Proof using Type.
  split; [exists [], []; apply empty_queue_ok | exists [], []; split; [apply empty_queue_ok | done] | done|].
  by intros p []%elem_of_nil.
Qed.

Lemma new_mail_shows : mail_shows new_mail_orchestrator (λ _, ([], [])).
Proof using Type.
  split; cbn; [by intros ? ? ?%lookup_empty_Some | done | by intros ? ? ? ?%lookup_empty_Some].
Qed.

Lemma get_or_create_shows cid sid mo A :
  mail_shows mo A →
  let '(mo', mb) := get_or_create_mailbox cid sid mo in
  mail_shows mo' A ∧ mo_mailboxes mo' !! cid = Some mb ∧ box_shows mb (A cid).
Proof using Type.
  intros [H1 H2 H3]. unfold get_or_create_mailbox. destruct (mo_mailboxes mo !! cid) as [mb|] eqn:E.
  - split_and!; [by split | done | by apply H1].
  - split_and!; [| cbn; by rewrite lookup_insert_eq | rewrite (H2 _ E); apply new_box_shows]. split; cbn [set_mailbox mo_mailboxes mo_unclaimed_packets].
    + intros c mb [[<- <-]|[_ Hc]]%lookup_insert_Some; [rewrite (H2 _ E); apply new_box_shows | by apply H1].
    + intros c [Hc _]%lookup_insert_None. by apply H2.
    + done.
Qed.

Lemma set_mailbox_shows cid mb x mo A :
  mail_shows mo A → box_shows mb x → mail_shows (set_mailbox cid mb mo) (set_at cid x A).
Proof using Type.
  intros [H1 H2 H3] Hb. unfold set_at. split; cbn [set_mailbox mo_mailboxes mo_unclaimed_packets].
  - intros c mb' [[<- <-]|[Hne Hc]]%lookup_insert_Some; [by rewrite decide_True|].
    rewrite decide_False by congruence. by apply H1.
  - intros c [Hc Hne]%lookup_insert_None. rewrite decide_False by congruence. by apply H2.
  - done.
Qed.

Lemma mail_shows_ext mo A A' : (∀ cid, A cid = A' cid) → mail_shows mo A → mail_shows mo A'.
Proof using Type.
  intros E [H1 H2 H3]. split; [intros; rewrite <-E; by apply H1 | intros; rewrite <-E; by apply H2 | done].
Qed.

Lemma set_at_same cid A c : set_at cid (A cid) A c = A c.
Proof using Type. unfold set_at. case_decide; congruence. Qed.

(** A response comes in. *)
Lemma add_response_shows p mb x :
  box_shows mb x → is_response (p_htlc p) = true → R p → box_shows (add_packet p mb).1 x.
Proof using Type.
  intros [(sr & wr & Hr) (sa & wa & Ha & E1 & E2) Hc Hg] Hp HR. unfold add_packet.
  destruct (p_htlc p); try done;
    (destruct (q_index (mb_reps mb) !! in_key p) eqn:E;
      [split; [by exists sr, wr | by exists sa, wa | done | done]|]; cbn [fst]; split; cbn;
      [exists sr, (wr ++ [(mb_next mb, p)]); by apply push_ok
      |exists sa, wa; split; [eapply queue_ok_mono; [|exact Ha]; lia | done]
      |done
      |intros q; unfold packets; rewrite map_app; intros [Hq| ->%list_elem_of_singleton]%elem_of_app; [by apply Hg | done]]).
Qed.

Lemma deliver_shows sid p mo A :
  mail_shows mo A → is_response (p_htlc p) = true → R p → mail_shows (deliver sid p mo).1 A.
Proof using Type.
  intros H Hp HR. unfold deliver. destruct (mo_live_index mo !! sid) as [cid|].
  - pose proof (get_or_create_shows cid sid mo A H) as Hg. destruct (get_or_create_mailbox cid sid mo) as [mo' mb].
    destruct Hg as (H' & _ & Hb). pose proof (add_response_shows p mb _ Hb Hp HR) as Hb'.
    destruct (add_packet p mb) as [mb' r]. cbn [fst] in *. eapply mail_shows_ext; [apply set_at_same|].
    by apply set_mailbox_shows.
  - destruct H as [H1 H2 H3]. split; [done | done|]. cbn [fst mo_unclaimed_packets].
    intros sid' l q [[<- <-]|[_ Hl]]%lookup_insert_Some; [|by apply (H3 sid')].
    intros [Hq| ->%list_elem_of_singleton]%elem_of_app; [|done].
    destruct (mo_unclaimed_packets mo !! sid) as [l|] eqn:E; [by apply (H3 sid l) | by apply elem_of_nil in Hq].
Qed.

Lemma bind_shows cid sid mo A : mail_shows mo A → mail_shows (bind_live_short_chan_id cid sid mo) A.
Proof using Type.
  intros H. unfold bind_live_short_chan_id.
  assert (∀ p, p ∈ default [] (mo_unclaimed_packets mo !! sid) → R p ∧ is_response (p_htlc p) = true) as Hl.
  { intros p. destruct (mo_unclaimed_packets mo !! sid) as [l|] eqn:E; [by apply (ms_unclaimed _ _ H _ _ _ E) | by intros ?%elem_of_nil]. }
  pose proof (get_or_create_shows cid sid mo A H) as Hg. destruct (get_or_create_mailbox cid sid mo) as [mo' mb] eqn:Eg.
  destruct Hg as (H' & _ & Hb).
  assert (box_shows (foldl (λ mb p, (add_packet p mb).1) mb (default [] (mo_unclaimed_packets mo !! sid))) (A cid)) as Hb'.
  { revert Hl Hb. generalize (default [] (mo_unclaimed_packets mo !! sid)). clear -R. intros l. revert mb.
    induction l as [|p l IH]; intros mb Hl Hb; [done|]. cbn [foldl]. apply IH; [intros; apply Hl; by right|].
    destruct (Hl p ltac:(left)) as [HR Hp]. by apply add_response_shows. }
  eapply mail_shows_ext; [apply set_at_same|]. apply set_mailbox_shows; [|done].
  destruct H' as [H1 H2 H3]. split; [done | done|]. cbn. intros s l p [_ Hs]%lookup_delete_Some. by apply (H3 s).
Qed.

(** An add comes in. *)
Lemma add_add_shows p mb s w :
  box_shows mb (s, w) → is_add (p_htlc p) = true → (∀ q, q ∈ s ++ w → in_key q ≠ in_key p) →
  box_shows (add_packet p mb).1 (s, w ++ [p]) ∧ (add_packet p mb).2 = Ok ().
Proof using Type.
  intros [(sr & wr & Hr) (sa & wa & Ha & E1 & E2) Hc Hg] Hp Hk. cbn in E1, E2. unfold add_packet.
  destruct (p_htlc p); try done.
  assert (q_index (mb_adds mb) !! in_key p = None) as E.
  { destruct (q_index (mb_adds mb) !! in_key p) as [e|] eqn:E; [|done]. apply (qo_index _ _ _ _ Ha) in E as (q & Hq & Hkq).
    exfalso. apply (Hk q); [|done]. rewrite <-E1, <-E2. unfold packets. rewrite <-map_app.
    rewrite (qo_elems _ _ _ _ Ha) in Hq. apply (list_elem_of_fmap_2 snd _ (e, q)), Hq. }
  rewrite E. split; [|done]. cbn [fst]. split; cbn.
  - exists sr, wr. eapply queue_ok_mono; [|exact Hr]. lia.
  - exists sa, (wa ++ [(mb_next mb, p)]). split; [by apply push_ok|]. split; [done|]. unfold packets in *. by rewrite map_app, E2.
  - done.
  - done.
Qed.

(** The courier looks and sends. *)
Lemma courier_shows mb x :
  box_shows mb x →
  let '(mb', o) := courier_send (courier_peek mb) in
  match o with
  | None => mb' = mb
  | Some p =>
      (box_shows mb' x ∧ p ∈ packets (q_elems (mb_reps mb))) ∨
      (∃ s w, x = (s, p :: w) ∧ box_shows mb' (s ++ [p], w))
  end.
Proof using Type.
  intros [(sr & wr & Hr) (sa & wa & Ha & E1 & E2) Hc Hg]. destruct x as [s w]. cbn in E1, E2.
  unfold courier_peek. rewrite (peek_ok _ _ _ _ Hr), (peek_ok _ _ _ _ Ha).
  destruct wr as [|[e p] wr]; cbn [head].
  - destruct wa as [|[e p] wa]; cbn [head]; [unfold courier_send; by rewrite Hc|]. unfold courier_send. cbn [mb_courier set_courier].
    right. destruct w as [|q w]; [done|]. cbn in E2. injection E2 as <- <-. exists s, (packets wa). split; [done|].
    destruct (advance_ok _ _ _ _ e Ha) as (s' & w' & Ha' & _ & Hs & He). destruct (Hs p wa eq_refl) as [-> ->].
    split; cbn; [by exists sr, [] | | done | done].
    exists (sa ++ [(e, p)]), wa. split; [done|]. split; [|done]. unfold packets in *. by rewrite map_app, E1.
  - assert (∀ a, box_shows (courier_send (set_courier (Some (InHand (Some (e, p)) a)) mb)).1 (s, w) ∧
      p ∈ packets (q_elems (mb_reps mb))) as Hs.
    { intros a. split.
      - destruct (advance_ok _ _ _ _ e Hr) as (s' & w' & Hr' & _ & _ & He).
        split; cbn; [by exists s', w' | by exists sa, wa | done | by rewrite He].
      - apply (list_elem_of_fmap_2 snd _ (e, p)). rewrite (qo_elems _ _ _ _ Hr). apply in_mid. }
    destruct (head wa); left; apply Hs.
Qed.

(** An acknowledgement takes the response, or else the add. *)
Lemma ack_shows k mb s w :
  box_shows mb (s, w) →
  let '(mb', found) := ack_packet k mb in
  (∃ p, p ∈ packets (q_elems (mb_reps mb)) ∧ in_key p = k ∧ found = true ∧ box_shows mb' (s, w) ∧
     (∀ q, q ∈ packets (q_elems (mb_reps mb')) → in_key q ≠ k)) ∨
  ((∀ p, p ∈ packets (q_elems (mb_reps mb)) → in_key p ≠ k) ∧ box_shows mb' (without_key k s, without_key k w) ∧
     found = has_key k (s ++ w) ∧ mb_reps mb' = mb_reps mb).
Proof using Type.
  intros [(sr & wr & Hr) (sa & wa & Ha & E1 & E2) Hc Hg]. cbn in E1, E2. unfold ack_packet.
  destruct (q_index (mb_reps mb) !! k) as [e|] eqn:Er.
  - left. pose proof Er as Er'. apply (qo_index _ _ _ _ Hr) in Er' as (p & Hp & Hk). exists p.
    pose proof (unlink_elems _ _ _ _ _ _ Hr Er) as Eu.
    split_and!; [by apply (list_elem_of_fmap_2 snd _ (e, p)) | done | done | |].
    + split; cbn [set_reps mb_reps mb_adds mb_next mb_courier]; [do 2 eexists; by apply unlink_ok | by exists sa, wa | done|].
      rewrite Eu. intros q [Hq _]%elem_of_bfilter. by apply Hg.
    + cbn [set_reps mb_reps]. rewrite Eu. intros q [_ Hq]%elem_of_bfilter. by apply negb_true_iff, bool_decide_eq_false in Hq.
  - assert (∀ p, p ∈ packets (q_elems (mb_reps mb)) → in_key p ≠ k) as Hno.
    { intros p Hp Hk. pose proof (queue_has _ _ _ _ k Hr) as Hh. rewrite Er in Hh.
      assert (has_key k (packets (q_elems (mb_reps mb))) = true) by (apply has_key_elem; by exists p). congruence. }
    assert (packets (q_elems (mb_adds mb)) = s ++ w) as Ep.
    { rewrite (qo_elems _ _ _ _ Ha). unfold packets in *. rewrite map_app. by f_equal. }
    pose proof (queue_has _ _ _ _ k Ha) as Hh. rewrite Ep in Hh.
    destruct (q_index (mb_adds mb) !! k) as [e|] eqn:Ea; right.
    + split_and!; [done | | by rewrite Hh | done]. split; cbn [set_adds mb_reps mb_adds mb_next mb_courier]; [by exists sr, wr | | done | done].
      do 2 eexists. split; [by apply unlink_ok|]. cbn. by rewrite !packets_keep, E1, E2.
    + split_and!; [done | | by rewrite Hh | done]. split; [by exists sr, wr | | done | done].
      exists sa, wa. split; [done|]. cbn.
      assert (∀ l, (∀ q, q ∈ l → q ∈ s ++ w) → without_key k l = l) as Hw.
      { intros l Hl. apply without_absent. destruct (has_key k l) eqn:Ek; [|done]. apply has_key_elem in Ek as (q & Hq & Hkq).
        assert (has_key k (s ++ w) = true) by (apply has_key_elem; exists q; split; [by apply Hl | done]). congruence. }
      rewrite !Hw; [done | |]; intros q Hq; apply elem_of_app; (by left) || (by right).
Qed.

Lemma reset_shows mb s w : box_shows mb (s, w) → box_shows (reset_packets mb) ([], s ++ w).
Proof using Type.
  intros [(sr & wr & Hr) (sa & wa & Ha & E1 & E2) Hc Hg]. cbn in E1, E2.
  split; cbn; [exists [], (sr ++ wr); by apply rewind_ok | | done | done].
  exists [], (sa ++ wa). split; [by apply rewind_ok|]. split; [done|]. unfold packets in *. rewrite map_app. by f_equal.
Qed.
End Shows.

Lemma box_shows_mono (R R' : htlc_packet → Prop) mb x : (∀ p, R p → R' p) → box_shows R mb x → box_shows R' mb x.
Proof. intros Hi [H1 H2 H3 H4]. split; [done | done | done|]. intros p Hp. by apply Hi, H4. Qed.

Lemma mail_shows_mono (R R' : htlc_packet → Prop) mo A : (∀ p, R p → R' p) → mail_shows R mo A → mail_shows R' mo A.
Proof.
  intros Hi [H1 H2 H3]. split; [intros; eapply box_shows_mono; [exact Hi | by eapply H1] | done|].
  intros sid l p Hl Hp. destruct (H3 sid l p Hl Hp). split; [by apply Hi | done].
Qed.
