(* ===== verification/Node.v ===== *)
(** * The node: the switch, its circuits and its links

    The steps of the switch of [Switch], with the part of a link
    (htlcswitch/link.go) that circuits and mailboxes depend on: an add that the
    link takes from its mailbox is logged, its circuit is opened, and with the
    next signature it is an HTLC of the channel, which the peer resolves; a
    response is taken, and with a signature the incoming HTLC is done. What a
    channel has signed stays over restarts of links and of the node. *)

From S2P Require Import Prelude UpdateLog Tlv CircuitMap CircuitSpec CircuitRefine Forwarding Packet Mailbox Switch.

Implicit Types (p : htlc_packet) (k : circuit_key) (cid : Z).

(** ** State *)

(** A link: the index of the next HTLC of the commitment, the adds that are
    logged behind it, and how many of these have their circuits opened. *)
Record link_state := LinkState { ls_committed : Z; ls_log : list htlc_packet; ls_opened : nat }.

Definition new_link : link_state := LinkState 0 [] 0.

(** What a response says: a preimage, or a failure. *)
Definition answer : Type := option bytes.
Definition answer_of (m : htlc_msg) : answer := match m with UpdateFulfillHTLC r => Some r | _ => None end.

Inductive htlc_status := InFlight | Settled (preimage : bytes) | FailedBack.
Definition status_of (a : answer) : htlc_status := match a with Some r => Settled r | None => FailedBack end.

Record node := Node {
  nd_switch : switch;
  nd_links : gmap Z link_state;                            (* by channel id *)
  nd_sent : gmap circuit_key (htlc_packet * htlc_status);  (* the outgoing HTLCs *)
  nd_done : gmap circuit_key answer;                       (* the incoming HTLCs that are answered *)
}.
Implicit Types n : node.

Definition link_of cid n : link_state := default new_link (nd_links n !! cid).
Definition set_switch s n : node := Node s (nd_links n) (nd_sent n) (nd_done n).
Definition set_link cid l n : node := Node (nd_switch n) (<[cid := l]> (nd_links n)) (nd_sent n) (nd_done n).
Definition set_sent x n : node := Node (nd_switch n) (nd_links n) x (nd_done n).
Definition set_done x n : node := Node (nd_switch n) (nd_links n) (nd_sent n) x.

(** Mailboxes *)
Definition mailbox_of cid n : option mailbox := mo_mailboxes (sw_mail (nd_switch n)) !! cid.
Definition put_mailbox cid (mb : mailbox) n : node :=
  set_switch (set_mail (set_mailbox cid mb (sw_mail (nd_switch n))) (nd_switch n)) n.
Definition ack_in cid k n : node :=
  match mailbox_of cid n with Some mb => put_mailbox cid (ack_packet k mb).1 n | None => n end.

(** An outgoing HTLC of the peer is answered. *)
Definition answer_htlc (out : circuit_key) (a : answer) n : node :=
  match nd_sent n !! out with
  | Some (p, InFlight) => set_sent (<[out := (p, status_of a)]> (nd_sent n)) n
  | _ => n
  end.

(** An incoming HTLC is answered, once. *)
Definition note_done k (a : answer) n : node :=
  match nd_done n !! k with Some _ => n | None => set_done (<[k := a]> (nd_done n)) n end.

Section Node.
Context {KP : CircuitPrims} {TP : TlvPrims} {OP : OnionPrims}.
Context (cfg : switch_config).
Context (sid_of : Z → Z).                (* the short id of a channel *)

(** ** Links *)

Definition link_out cid (l : link_state) (i : nat) : circuit_key := (sid_of cid, ls_committed l + Z.of_nat i).

(** What a mailbox sends to the switch when it fails an add. *)
Definition refused (r : mailbox * option htlc_packet) cid n : node :=
  let n := put_mailbox cid r.1 n in
  match r.2 with
  | Some p => set_switch (forward_packets cfg true [p] (nd_switch n)) n
  | None => n
  end.

(** [handleDownstreamUpdateAdd] on what the courier sends: the channel takes the
    add, or the mailbox fails it. A response waits for [link_complete]. *)
Definition link_receive cid (accepted update : bool) n : node :=
  match mailbox_of cid n with
  | None => n
  | Some mb =>
      match courier_send (courier_peek mb) with
      | (_, None) => n
      | (mb, Some p) =>
          if is_add (p_htlc p) then
            if accepted then
              let l := link_of cid n in
              set_link cid (LinkState (ls_committed l) (ls_log l ++ [p]) (ls_opened l)) (put_mailbox cid mb n)
            else refused (fail_add update p mb) cid n
          else put_mailbox cid mb n
      end
  end.

(** The deadline of the next add. *)
Definition mailbox_expire cid (update : bool) n : node :=
  match mailbox_of cid n with
  | None => n
  | Some mb =>
      let mb := courier_peek mb in
      match mb_courier mb with
      | Some (InHand _ (Some _)) => refused (courier_expire update mb) cid n
      | _ => n
      end
  end.

(** [updateCommitTx]: the keystones of the batch... *)
Definition keystone_batch cid (l : link_state) : list keystone :=
  drop (ls_opened l) (imap (λ i p, Keystone (in_key p) (link_out cid l i)) (ls_log l)).

Definition link_open (db_ok : bool) cid n : node :=
  let l := link_of cid n in
  let '(cm, r) := open_circuits db_ok (keystone_batch cid l) (sw_circuits (nd_switch n)) in
  let n := set_switch (set_circuits cm (nd_switch n)) n in
  match r with
  | Ok _ => set_link cid (LinkState (ls_committed l) (ls_log l) (length (ls_log l))) n
  | Err _ => n
  end.

(** ... and the signature, with [ackDownStreamPackets]. *)
Definition link_sign cid n : node :=
  let l := link_of cid n in
  if (ls_opened l <? length (ls_log l))%nat then n
  else
    let sent := foldl (λ m x, <[link_out cid l x.1 := (x.2, InFlight)]> m) (nd_sent n) (imap pair (ls_log l)) in
    let n := set_link cid (LinkState (ls_committed l + Z.of_nat (length (ls_log l))) [] 0) (set_sent sent n) in
    foldl (λ n p, ack_in cid (in_key p) n) n (ls_log l).

(** The response to [k] that the link took, which a signature has removed from
    the channel. *)
Definition response_to k (mb : mailbox) : option htlc_packet :=
  e ← q_index (mb_reps mb) !! k; elem_packet e (q_elems (mb_reps mb)).

Definition link_complete (db_ok : bool) cid k n : node :=
  match mailbox_of cid n ≫= response_to k with
  | None => n
  | Some p =>
      let n := note_done k (answer_of (p_htlc p)) n in
      let '(cm, r) := delete_circuits db_ok [k] (sw_circuits (nd_switch n)) in
      let n := set_switch (set_circuits cm (nd_switch n)) n in
      match r with Ok _ => ack_in cid k n | Err _ => n end
  end.

(** [Stop], and [Start] once more; a link that cannot write what it trims does
    not come up. *)
Definition link_restart (db_ok : bool) cid n : node :=
  let l := link_of cid n in
  let n := match mailbox_of cid n with Some mb => put_mailbox cid (reset_packets mb) n | None => n end in
  let '(cm, _) := trim_open_circuits db_ok (sid_of cid) (ls_committed l) (sw_circuits (nd_switch n)) in
  set_link cid (LinkState (ls_committed l) [] 0) (set_switch (set_circuits cm (nd_switch n)) n).

(** ** Our own payments *)

(** A goroutine of a response runs; the payment has its result when it is stored. *)
Definition local_response (i : nat) (store_ok ack_ok db_ok : bool) n : node :=
  match sw_local (nd_switch n) !! i with
  | None => n
  | Some p =>
      let s := set_local (delete i (sw_local (nd_switch n))) (nd_switch n) in
      let n := set_switch (handle_local_response store_ok ack_ok db_ok p s).1 n in
      if store_ok then note_done (in_key p) (answer_of (p_htlc p)) n else n
  end.

(** ** A restart *)

(** What is lost is what [new_switch] does not have. *)
Definition restart_node (env : restart_env) (height : Z) n : node :=
  let s := nd_switch n in
  match new_circuit_map env (cm_db (sw_circuits s)) with
  | Err _ => n
  | Ok cm =>
      Node (set_settle_fails [] (sw_acked s) (set_res_msgs (sw_res_msgs s) (set_network_results (sw_network_results s)
              (new_switch height cm))))
        ((λ l, LinkState (ls_committed l) [] 0) <$> nd_links n) (nd_sent n) (nd_done n)
  end.

(** ** Steps *)

Inductive node_op :=
| NForward (db_ok : bool) (packets : list htlc_packet)
| NHandle (pick : nat)
| NLocal (i : nat) (store_ok ack_ok db_ok : bool)
| NSend (db_ok : bool) (first_hop attempt_id : Z) (hash : bytes) (amount expiry : Z) (records : custom_records)
| NReceive cid (accepted update : bool)
| NExpire cid (update : bool)
| NOpen (db_ok : bool) cid
| NSign cid
| NAnswer (out : circuit_key) (a : answer)
| NComplete (db_ok : bool) cid k
| NLinkRestart (db_ok : bool) cid
| NContract (db_ok : bool) (out : circuit_key) (r : resolution)
| NResolutions
| NResponses (responses : list (circuit_key * htlc_msg))
| NSettleFails (pkgs : list fwd_pkg)
| NAckPending (ack_ok : bool)
| NAddLink (start_ok : bool) (link : channel_link)
| NRemoveLink cid
| NSpliceScids cid (scids : list Z)
| NAlias cid (alias : Z)
| NShortChanId (link : channel_link)
| NHeight (height : Z)
| NCleanStore (keep : gset Z)
| NRestart (env : restart_env) (height : Z).

Definition node_do (op : node_op) n : node :=
  let s := nd_switch n in
  let sw x := set_switch x n in
  match op with
  | NForward db_ok packets => sw (forward_packets cfg db_ok packets s)
  | NHandle pick => sw (htlc_forwarder cfg pick s)
  | NLocal i store_ok ack_ok db_ok => local_response i store_ok ack_ok db_ok n
  | NSend db_ok first_hop id hash amount expiry records => sw (send_htlc cfg db_ok first_hop id hash amount expiry records s).1
  | NReceive cid accepted update => link_receive cid accepted update n
  | NExpire cid update => mailbox_expire cid update n
  | NOpen db_ok cid => link_open db_ok cid n
  | NSign cid => link_sign cid n
  | NAnswer out a => answer_htlc out a n
  | NComplete db_ok cid k => link_complete db_ok cid k n
  | NLinkRestart db_ok cid => link_restart db_ok cid n
  | NContract db_ok out r => sw (process_contract_resolution cfg db_ok out r s).1
  | NResolutions => sw (reforward_resolutions cfg s)
  | NResponses l => sw (reforward_fwd_responses cfg l s).1
  | NSettleFails pkgs => sw (reforward_settle_fails cfg pkgs s)
  | NAckPending ok => sw (ack_pending ok s)
  | NAddLink ok link => sw (add_link ok link s).1
  | NRemoveLink cid => sw (remove_link cid s)
  | NSpliceScids cid scids => sw (add_splice_scids cid scids s).1
  | NAlias cid alias => sw (add_alias_for_link cid alias s).1
  | NShortChanId link => sw (update_short_chan_id link s).1
  | NHeight h => sw (set_height h s)
  | NCleanStore keep => sw (clean_store keep s)
  | NRestart env h => restart_node env h n
  end.

(** ** What the rest of the node keeps to *)

(** The answer of an outgoing HTLC, as its channel or the chain has it. *)
Definition answered n (out : circuit_key) (a : answer) : Prop := ∃ p, nd_sent n !! out = Some (p, status_of a).

(** A link forwards an HTLC that it has not answered, of a channel that is not
    the id of our own payments; a response says what the outgoing HTLC came to. *)
Definition forwardable n p : Prop :=
  p_has_source p = false ∧
  match p_htlc p with
  | UpdateAddHTLC hash amount expiry _ =>
      p_incoming_chan_id p ≠ source ∧ amount = p_amount p ∧ expiry = p_outgoing_timeout p ∧
      nd_done n !! in_key p = None ∧ fresh_circuit (new_payment_circuit hash p)
  | OtherMsg => True
  | m => answered n (packet_out_key p) (answer_of m)
  end.

(** The node's channels, at a restart: none is closed; each that has opened
    circuits behind its commitment is among them, with its next index. *)
Record restarts n (env : restart_env) : Prop := {
  rs_closed channels : re_closed_channels env = Ok channels → closed_set channels = ∅;
  rs_next channels b sid start : re_open_channels env = Ok channels → (b, sid, Ok start) ∈ channels →
    ∃ cid, sid = sid_of cid ∧ start = ls_committed (link_of cid n);
  rs_all channels cid : re_open_channels env = Ok channels → (0 < ls_opened (link_of cid n))%nat →
    (false, sid_of cid, Ok (ls_committed (link_of cid n))) ∈ channels;
}.

(** The contract: the writes of a forwarded batch and of a link's trimming
    succeed (where the first fails, [NodeToy.failed_write_loses]); a packet to
    forward is [forwardable]; an attempt of ours is a new one; indexes do not run
    out; responses of the chain, of the packages and of the peer are the answers
    of the outgoing HTLCs; at a restart no channel is closed. *)
Definition op_keeps (op : node_op) n : Prop :=
  match op with
  | NForward db_ok packets => db_ok = true ∧ ∀ p, p ∈ packets → forwardable n p
  | NSend _ first_hop id hash amount expiry records =>
      nd_done n !! (source, id) = None ∧
      fresh_circuit (new_payment_circuit hash (set_amount amount (set_outgoing_chan_id first_hop
        (set_source (source, id) (empty_packet (UpdateAddHTLC hash amount expiry records))))))
  | NOpen _ cid => ls_committed (link_of cid n) + Z.of_nat (length (ls_log (link_of cid n))) < 2 ^ 64
  | NLinkRestart db_ok _ => db_ok = true
  | NContract _ out r => answered n out r
  | NResponses l => ∀ x, x ∈ l → is_response x.2 = true ∧ answered n x.1 (answer_of x.2)
  | NSettleFails pkgs => ∀ pkg id m, pkg ∈ pkgs → (id, m) ∈ fw_settle_fails pkg → is_response m = true →
      answered n (fw_source pkg, id) (answer_of m)
  | NRestart env _ => restarts n env
  | _ => True
  end.

Inductive node_run : node → list node_op → node → Prop :=
| node_end n : node_run n [] n
| node_next n op ops n' : op_keeps op n → node_run (node_do op n) ops n' → node_run n (op :: ops) n'.
End Node.

Definition new_node (height : Z) : node := Node (new_switch height (CircuitMap [] ∅ ∅ ∅ ∅ (CircuitDb ∅ ∅))) ∅ ∅ ∅.
