(* ===== verification/NodeInv.v ===== *)
(** * What the node keeps

    The invariant of [Node]. An HTLC that the switch forwards has its add in one
    place - the channel to the forwarder, or a mailbox - until a signature makes
    it an HTLC of the outgoing channel; all responses that wait anywhere say what
    became of it. *)

From S2P Require Import Prelude UpdateLog Tlv CircuitMap CircuitSpec CircuitRefine Forwarding Packet Mailbox MailboxProps Switch SwitchMail Node.

Implicit Types (p q : htlc_packet) (k o : circuit_key) (cid : Z) (a : answer).

Abbreviation links := (gmap Z link_state).
Abbreviation htlcs := (gmap circuit_key (htlc_packet * htlc_status)).

(** Where an add is: with the forwarder, or in the mailbox of a channel. *)
Abbreviation places := (gmap circuit_key (option Z)).

Record world := World {
  w_view : circuits;
  w_place : places;
  w_sent : htlcs;
  w_done : gmap circuit_key answer;
}.
Implicit Types W : world.

(** A response to [k] may say [a]: the HTLC is answered already; or else no add
    is on its way, and its circuit is not open, or open to an HTLC of this answer. *)
Definition answer_ok W k a : Prop :=
  is_Some (w_done W !! k) ∨
  w_place W !! k = None ∧
  ∃ e, w_view W !! k = Some e ∧
    match pc_outgoing e.1 with
    | None => a = None
    | Some o => ∃ q, w_sent W !! o = Some (q, status_of a)
    end.

(** What may happen while responses wait. *)
Record advance W W' : Prop := {
  av_entry k e : w_view W !! k = Some e → w_place W !! k = None → w_done W' !! k = None →
    w_place W' !! k = None ∧ ∃ e', w_view W' !! k = Some e' ∧ pc_outgoing e'.1 = pc_outgoing e.1;
  av_sent o q a : w_sent W !! o = Some (q, status_of a) → w_sent W' !! o = Some (q, status_of a);
  av_done k : is_Some (w_done W !! k) → is_Some (w_done W' !! k);
}.

Lemma answer_advance W W' k a : advance W W' → answer_ok W k a → answer_ok W' k a.
Proof.
  intros [H1 H2 H3] [Hd|(Hp & e & He & Hm)]; [left; by apply H3|].
  destruct (w_done W' !! k) eqn:Ed; [left; by rewrite Ed|]. right.
  destruct (H1 k e He Hp Ed) as (Hp' & e' & He' & Eo). split; [done|]. exists e'. split; [done|]. rewrite Eo.
  destruct (pc_outgoing e.1) as [o|]; [|done]. destruct Hm as (q & Hq). exists q. by apply H2.
Qed.

Definition truthful W p : Prop := is_response (p_htlc p) = true ∧ answer_ok W (in_key p) (answer_of (p_htlc p)).

Lemma truthful_advance W W' p : advance W W' → truthful W p → truthful W' p.
Proof. intros Ha [H1 H2]. split; [done | by eapply answer_advance]. Qed.

(** ** Packets with the forwarder *)

(** An add, or the failure of one that a mailbox gave up. *)
Definition token p : bool := is_add (p_htlc p) || p_has_source p.

Definition keys (l : list htlc_packet) : list circuit_key := map in_key l.

Definition packet_ok (S : htlcs) p : Prop :=
  match p_htlc p with
  | UpdateAddHTLC _ amount expiry _ => p_has_source p = false ∧ amount = p_amount p ∧ expiry = p_outgoing_timeout p
  | UpdateFulfillHTLC r => p_has_source p = false ∧ ∃ q, S !! packet_out_key p = Some (q, Settled r)
  | UpdateFailHTLC _ => p_has_source p = true ∨ ∃ q, S !! packet_out_key p = Some (q, FailedBack)
  | OtherMsg => p_has_source p = false
  end.

(** An add of a forward neither pays more nor lasts longer than the HTLC that it is for. *)
Definition pays p : Prop :=
  match p_htlc p with
  | UpdateAddHTLC _ amount expiry _ =>
      p_incoming_chan_id p ≠ source → amount ≤ p_incoming_amount p ∧ expiry ≤ p_incoming_timeout p
  | _ => True
  end.

Definition link_at cid (ls : links) : link_state := default new_link (ls !! cid).

Record tokens_ok (ls : links) (plex : list htlc_packet) (A : adds) (pl : places) : Prop := {
  tk_plex_nodup : NoDup (keys (List.filter token plex));
  tk_plex k : k ∈ keys (List.filter token plex) ↔ pl !! k = Some None;
  tk_mail_nodup cid : NoDup (keys ((A cid).1 ++ (A cid).2));
  tk_mail cid k : k ∈ keys ((A cid).1 ++ (A cid).2) ↔ pl !! k = Some (Some cid);
  tk_adds cid p : p ∈ (A cid).1 ++ (A cid).2 → is_add (p_htlc p) = true ∧ pays p;
  tk_log cid : (A cid).1 = ls_log (link_at cid ls);
}.

Section Books.
Context {KP : CircuitPrims} (sid_of : Z → Z).

(** ** Circuits and HTLCs *)

(** A circuit that is open to an HTLC that is logged, but not signed. *)
Definition unsigned (ls : links) o k : Prop :=
  ∃ cid i p, ls_log (link_at cid ls) !! i = Some p ∧ (i < ls_opened (link_at cid ls))%nat ∧
    o = link_out sid_of cid (link_at cid ls) i ∧ in_key p = k.

Record books_ok (ls : links) W : Prop := {
  bk_held k x : w_place W !! k = Some x → w_done W !! k = None ∧
    ∃ e, w_view W !! k = Some e ∧ pc_loaded_from_disk e.1 = false ∧ ∀ o, pc_outgoing e.1 = Some o ↔ unsigned ls o k;
  bk_log cid p : p ∈ ls_log (link_at cid ls) → w_place W !! in_key p = Some (Some cid);
  bk_keystone k e o : w_view W !! k = Some e → pc_outgoing e.1 = Some o →
    unsigned ls o k ∨ ∃ q st, w_sent W !! o = Some (q, st) ∧ in_key q = k;
  bk_sent o q st : w_sent W !! o = Some (q, st) →
    (∃ cid, o.1 = sid_of cid ∧ 0 ≤ o.2 < ls_committed (link_at cid ls)) ∧ pays q ∧
    (w_done W !! in_key q = None → ∃ e, w_view W !! in_key q = Some e ∧ pc_outgoing e.1 = Some o);
  bk_one o o' q q' st st' : w_sent W !! o = Some (q, st) → w_sent W !! o' = Some (q', st') → in_key q = in_key q' → o = o';
  bk_failed o q st : w_sent W !! o = Some (q, st) → w_done W !! in_key q = Some None → st = FailedBack;
  bk_settled k r : w_done W !! k = Some (Some r) → ∃ o q, w_sent W !! o = Some (q, Settled r) ∧ in_key q = k;
  bk_bounds cid : 0 ≤ ls_committed (link_at cid ls) ∧ (ls_opened (link_at cid ls) ≤ length (ls_log (link_at cid ls)))%nat ∧
    ls_committed (link_at cid ls) + Z.of_nat (ls_opened (link_at cid ls)) < 2 ^ 64;
}.

(** ** The state *)

Definition world_of (s : switch) (S : htlcs) (D : gmap circuit_key answer) (pl : places) : world :=
  World (view (sw_circuits s)) pl S D.

Record state_ok (ls : links) (S : htlcs) (D : gmap circuit_key answer) (s : switch) (A : adds) (pl : places) : Prop := {
  so_circuits : circuits_ok (sw_circuits s);
  so_mail : mail_shows (truthful (world_of s S D pl)) (sw_mail s) A;
  so_tokens : tokens_ok ls (sw_htlc_plex s) A pl;
  so_books : books_ok ls (world_of s S D pl);
  so_plex p : p ∈ sw_htlc_plex s → packet_ok S p;
  so_local p : p ∈ sw_local s → truthful (world_of s S D pl) p;
  so_res o a : sw_res_msgs s !! o = Some a → ∃ q, S !! o = Some (q, status_of a);
}.

Definition node_ok (n : node) : Prop := ∃ A pl, state_ok (nd_links n) (nd_sent n) (nd_done n) (nd_switch n) A pl.

End Books.

(** ** Worlds *)

Section Worlds.
Context {KP : CircuitPrims} (sid_of : Z → Z) (ls : links).
Implicit Types (V : circuits) (pl : places) (S : htlcs) (D : gmap circuit_key answer).
Abbreviation books := (books_ok sid_of ls).

Lemma held_view W k x : books W → w_place W !! k = Some x → is_Some (w_view W !! k).
Proof using Type. intros H Hx. destruct (bk_held _ _ _ H _ _ Hx) as (_ & e & He & _). by exists e. Qed.

Lemma unsigned_held W o k : books W → unsigned sid_of ls o k → ∃ cid, w_place W !! k = Some (Some cid).
Proof using Type.
  intros H (cid & i & p & Hi & _ & _ & <-). exists cid. apply (bk_log _ _ _ H). by apply list_elem_of_lookup_2 with i.
Qed.

(** The circuits change by their claims only. *)
Definition same_circuits V V' : Prop := ∀ k, fst <$> V' !! k = fst <$> V !! k.

Lemma same_circuits_lookup V V' k e : same_circuits V V' → V !! k = Some e → ∃ e', V' !! k = Some e' ∧ e'.1 = e.1.
Proof using Type.
  intros H He. specialize (H k). rewrite He in H. destruct (V' !! k) as [e'|]; [|done]. exists e'. by injection H.
Qed.

Lemma same_circuits_sym V V' : same_circuits V V' → same_circuits V' V.
Proof using Type. intros H k. by rewrite H. Qed.

Lemma claims_advance V V' pl S D : same_circuits V V' → advance (World V pl S D) (World V' pl S D).
Proof using Type.
  intros H. split; cbn; try done. intros k e He Hp _. split; [done|].
  destruct (same_circuits_lookup _ _ _ _ H He) as (e' & He' & E). exists e'. by rewrite E.
Qed.

Lemma books_claims V V' pl S D : same_circuits V V' → books (World V pl S D) → books (World V' pl S D).
Proof using Type.
  intros H [B1 B2 B3 B4 B5 B6 B7 B8]. cbn in *. split; cbn; try done.
  - intros k x Hx. destruct (B1 k x Hx) as (Hd & e & He & Hm). split; [done|].
    destruct (same_circuits_lookup _ _ _ _ H He) as (e' & He' & E). exists e'. by rewrite E.
  - intros k e o He Ho. destruct (same_circuits_lookup _ _ _ _ (same_circuits_sym _ _ H) He) as (e' & He' & E).
    apply (B3 k e'); [done | by rewrite E].
  - intros o q st Hs. destruct (B4 o q st Hs) as (Hc & Hy & Hm). split_and!; [done | done|]. intros Hd.
    destruct (Hm Hd) as (e & He & Ho). destruct (same_circuits_lookup _ _ _ _ H He) as (e' & He' & E). exists e'. by rewrite E.
Qed.

(** The forwarder's add is dropped, or moves to a mailbox. *)
Lemma drop_advance V pl S D k : advance (World V pl S D) (World V (delete k pl) S D).
Proof using Type.
  split; cbn; try done. intros k' e He Hp _. split; [by apply lookup_delete_None; right | by exists e].
Qed.

Lemma books_drop V pl S D k cid x :
  books (World V pl S D) → pl !! k = Some x → (∀ p, p ∈ ls_log (link_at cid ls) → in_key p ≠ k) →
  x = None ∨ x = Some cid → books (World V (delete k pl) S D).
Proof using Type.
  intros [B1 B2 B3 B4 B5 B6 B7 B8] Hk Hl Hx. cbn in *. split; cbn; try done.
  - intros k' x' [_ Hx']%lookup_delete_Some. by apply B1 with x'.
  - intros c p Hp. rewrite lookup_delete_Some. split; [|by apply B2]. intros E. pose proof (B2 c p Hp) as Hc. rewrite <-E in Hc.
    destruct Hx as [-> | ->]; [congruence|]. assert (c = cid) as -> by congruence. by apply (Hl p).
Qed.

Lemma move_advance V pl S D k x : is_Some (pl !! k) → advance (World V pl S D) (World V (<[k := x]> pl) S D).
Proof using Type.
  intros [y Hy]. split; cbn; try done. intros k' e He Hp _. split; [|by exists e].
  rewrite lookup_insert_ne; [done|]. intros <-. congruence.
Qed.

Lemma books_replace V pl S D k cid x y :
  books (World V pl S D) → pl !! k = Some x → (∀ p, p ∈ ls_log (link_at cid ls) → in_key p ≠ k) →
  x = None ∨ x = Some cid → books (World V (<[k := y]> pl) S D).
Proof using Type.
  intros [B1 B2 B3 B4 B5 B6 B7 B8] Hk Hl Hx. cbn in *. split; cbn; try done.
  - intros k' x' [[<- <-]|[_ Hx']]%lookup_insert_Some; [by apply B1 with x | by apply B1 with x'].
  - intros c p Hp. pose proof (B2 c p Hp) as Hc. rewrite lookup_insert_ne; [done|]. intros E. rewrite <-E in Hc.
    destruct Hx as [-> | ->]; [congruence|]. assert (c = cid) as -> by congruence. by apply (Hl p).
Qed.

Lemma books_move V pl S D k x : books (World V pl S D) → pl !! k = Some None → books (World V (<[k := x]> pl) S D).
Proof using Type.
  intros B Hk. eapply books_replace with (cid := 0); [done | done | | by left].
  intros p Hp E. pose proof (bk_log _ _ _ B 0 p Hp) as Hx. cbn in Hx. congruence.
Qed.

(** New circuits, with their adds. *)
Record adds_circuits V V' (new : list circuit_key) : Prop := {
  ac_new k : k ∈ new → V !! k = None ∧
    ∃ e, V' !! k = Some e ∧ pc_outgoing e.1 = None ∧ pc_loaded_from_disk e.1 = false;
  ac_old k : k ∉ new → V' !! k = V !! k;
}.

Definition place_all (x : option Z) (new : list circuit_key) pl : places := foldr (λ k pl, <[k := x]> pl) pl new.

Lemma lookup_place_all x new pl k : place_all x new pl !! k = if decide (k ∈ new) then Some x else pl !! k.
Proof using Type.
  induction new as [|k' new IH]; cbn [place_all foldr]; [by rewrite decide_False by apply not_elem_of_nil|].
  destruct (decide (k = k')) as [->|Hne].
  - rewrite lookup_insert_eq, decide_True; [done | left].
  - rewrite lookup_insert_ne by done. fold (place_all x new pl). rewrite IH. do 2 case_decide; set_solver.
Qed.

Lemma new_unplaced V V' pl S D new k : adds_circuits V V' new → books (World V pl S D) → k ∈ new → pl !! k = None.
Proof using Type.
  intros H B Hk. destruct (pl !! k) eqn:E; [|done]. destruct (held_view _ k _ B E) as [e He]. cbn in He.
  by destruct (ac_new _ _ _ H k Hk) as [? _]; congruence.
Qed.

Lemma new_advance V V' pl S D new x :
  adds_circuits V V' new → advance (World V pl S D) (World V' (place_all x new pl) S D).
Proof using Type.
  intros H. split; cbn; try done. intros k e He Hp _. rewrite lookup_place_all.
  assert (k ∉ new) as Hk. { intros Hk. destruct (ac_new _ _ _ H k Hk) as [? _]. congruence. }
  rewrite decide_False by done. split; [done|]. exists e. by rewrite (ac_old _ _ _ H).
Qed.

Lemma books_new V V' pl S D new x :
  adds_circuits V V' new → (∀ k, k ∈ new → D !! k = None) → books (World V pl S D) →
  books (World V' (place_all x new pl) S D).
Proof using Type.
  intros H Hd B. pose proof (new_unplaced V V' pl S D new) as Hu. pose proof B as [B1 B2 B3 B4 B5 B6 B7 B8]. cbn in *.
  assert (∀ k e, V !! k = Some e → k ∉ new) as Hold.
  { intros k e He Hk. destruct (ac_new _ _ _ H k Hk) as [? _]. congruence. }
  split; cbn; try done.
  - intros k y. rewrite lookup_place_all. case_decide as Hk.
    + intros _. split; [by apply Hd|]. destruct (ac_new _ _ _ H k Hk) as (_ & e & He & Ho & Hl). exists e. split_and!; [done | done|].
      rewrite Ho. intros o. split; [done|]. intros Hn. destruct (unsigned_held _ _ _ B Hn) as [c Hc]. cbn in Hc.
      rewrite (Hu k H B Hk) in Hc. done.
    + intros Hy. rewrite (ac_old _ _ _ H) by done. by apply B1 with y.
  - intros c p Hp. rewrite lookup_place_all, decide_False; [by apply B2|]. intros Hk. pose proof (B2 c p Hp).
    rewrite (Hu _ H B Hk) in *. done.
  - intros k e o He Ho. destruct (decide (k ∈ new)) as [Hk|Hk].
    + destruct (ac_new _ _ _ H k Hk) as (_ & e' & He' & Ho' & _). congruence.
    + rewrite (ac_old _ _ _ H) in He by done. by apply B3 with e.
  - intros o q st Hs. destruct (B4 o q st Hs) as (Hc & Hy & Hm). split_and!; [done | done|]. intros Hq.
    destruct (Hm Hq) as (e & He & Ho). exists e. by rewrite (ac_old _ _ _ H) by by eapply Hold.
Qed.
End Worlds.

(** ** Steps of the state *)

Section Steps.
Context {KP : CircuitPrims} (sid_of : Z → Z) (ls : links) (S : htlcs) (D : gmap circuit_key answer).
Context {Hsid : Inj (=) (=) sid_of}.
Abbreviation ok := (state_ok sid_of ls S D).
Abbreviation world_at s pl := (world_of s S D pl).
Implicit Types (s : switch) (A : adds) (pl : places).

(** What the indexes do does not matter. *)
Lemma ok_same s s' A pl :
  ok s A pl → sw_circuits s' = sw_circuits s → sw_mail s' = sw_mail s → sw_htlc_plex s' = sw_htlc_plex s →
  sw_local s' = sw_local s → sw_res_msgs s' = sw_res_msgs s → ok s' A pl.
Proof using Type.
  intros [H1 H2 H3 H4 H5 H6 H7] E1 E2 E3 E4 E5.
  assert (world_at s' pl = world_at s pl) as EW by (unfold world_of; by rewrite E1).
  split; rewrite ?EW, ?E1, ?E2, ?E3, ?E4, ?E5; done.
Qed.

Lemma ok_mail s mo A pl : ok s A pl → mail_shows (truthful (world_at s pl)) mo A → ok (set_mail mo s) A pl.
Proof using Type. intros [H1 H2 H3 H4 H5 H6 H7] H. by split. Qed.

Lemma ok_deliver sid p s A pl : ok s A pl → truthful (world_at s pl) p → ok (deliver_packet sid p s).1 A pl.
Proof using Type.
  intros H Hp. unfold deliver_packet. pose proof (deliver_shows _ sid p _ _ (so_mail _ _ _ _ _ _ _ H) (proj1 Hp) Hp) as Hd.
  destruct (deliver sid p (sw_mail s)) as [mo r]. by apply ok_mail.
Qed.

Lemma ok_local s l A pl : ok s A pl → (∀ p, p ∈ l → truthful (world_at s pl) p) → ok (set_local l s) A pl.
Proof using Type. intros [H1 H2 H3 H4 H5 H6 H7] H. by split. Qed.

Lemma ok_respond p s A pl : ok s A pl → truthful (world_at s pl) p → ok (respond_locally p s) A pl.
Proof using Type.
  intros H Hp. apply ok_local; [done|]. intros q [Hq| ->%list_elem_of_singleton]%elem_of_app; [|done].
  by apply (so_local _ _ _ _ _ _ _ H).
Qed.

Lemma ok_res s m A pl : ok s A pl → (∀ o a, m !! o = Some a → ∃ q, S !! o = Some (q, status_of a)) → ok (set_res_msgs m s) A pl.
Proof using Type. intros [H1 H2 H3 H4 H5 H6 H7] H. by split. Qed.

(** A response comes to the forwarder. *)
Lemma ok_route p s A pl : ok s A pl → token p = false → packet_ok S p → ok (route_async p s) A pl.
Proof using Type.
  intros [H1 H2 [T1 T2 T3 T4 T5 T6] H4 H5 H6 H7] Ht Hp. unfold route_async.
  split; cbn [set_plex sw_htlc_plex sw_circuits sw_mail sw_local sw_res_msgs]; try done.
  - assert (List.filter token (sw_htlc_plex s ++ [p]) = List.filter token (sw_htlc_plex s)) as E.
    { rewrite List.filter_app. cbn [List.filter]. by rewrite Ht, app_nil_r. }
    split; rewrite ?E; done.
  - intros q [Hq| ->%list_elem_of_singleton]%elem_of_app; [by apply H5 | done].
Qed.

Lemma ok_unroute p l s A pl : ok s A pl → sw_htlc_plex s = p :: l → token p = false → ok (set_plex l s) A pl.
Proof using Type.
  intros [H1 H2 [T1 T2 T3 T4 T5 T6] H4 H5 H6 H7] E Ht.
  split; cbn [set_plex sw_htlc_plex sw_circuits sw_mail sw_local sw_res_msgs]; try done.
  - rewrite E in T1, T2. cbn [List.filter] in T1, T2. rewrite Ht in T1, T2. by split.
  - intros q Hq. apply H5. rewrite E. by right.
Qed.

(** The circuits' claims change. *)
Lemma ok_claims s cm A pl :
  ok s A pl → circuits_ok cm → same_circuits (view (sw_circuits s)) (view cm) → ok (set_circuits cm s) A pl.
Proof using Type.
  intros [H1 H2 H3 H4 H5 H6 H7] Hc Hv. pose proof (claims_advance _ _ pl S D Hv) as Ha.
  split; cbn [set_circuits sw_circuits sw_mail sw_htlc_plex sw_local sw_res_msgs]; try done.
  - eapply mail_shows_mono; [intros p; by apply truthful_advance | done].
  - by apply books_claims with (view (sw_circuits s)).
  - intros p Hp. eapply truthful_advance; [exact Ha | by apply H6].
Qed.

(** The forwarder takes an add: it may be failed, ... *)
Lemma tokens_drop p l A pl :
  tokens_ok ls (p :: l) A pl → token p = true → tokens_ok ls l A (delete (in_key p) pl) ∧ pl !! in_key p = Some None.
Proof using Type.
  intros [T1 T2 T3 T4 T5 T6] Ht. cbn [List.filter] in T1, T2. rewrite Ht in T1, T2. cbn [keys map] in T1, T2.
  fold (keys (List.filter token l)) in T1, T2. apply NoDup_cons in T1 as [Hn T1].
  assert (pl !! in_key p = Some None) as Hp by (apply T2; left). split; [|done]. split; try done.
  - intros k. rewrite lookup_delete_Some, <-T2, elem_of_cons. naive_solver.
  - intros cid k. rewrite lookup_delete_Some, <-T4. split; [|by intros []]. intros Hk. split; [|done]. intros <-.
    apply T4 in Hk. congruence.
Qed.

Lemma ok_drop s p l A pl :
  ok s A pl → sw_htlc_plex s = p :: l → token p = true →
  ok (set_plex l s) A (delete (in_key p) pl) ∧
  answer_ok (world_at (set_plex l s) (delete (in_key p) pl)) (in_key p) None.
Proof using Type.
  intros [H1 H2 H3 H4 H5 H6 H7] E Ht. rewrite E in H3. destruct (tokens_drop p l A pl H3 Ht) as [T Hp].
  pose proof (drop_advance (view (sw_circuits s)) pl S D (in_key p)) as Ha.
  assert (∀ q cid, q ∈ ls_log (link_at cid ls) → in_key q ≠ in_key p) as Hl.
  { intros q cid Hq Hk. pose proof (bk_log _ _ _ H4 cid q Hq) as Hx. cbn in Hx. congruence. }
  split.
  - split; cbn [set_plex sw_circuits sw_mail sw_htlc_plex sw_local sw_res_msgs]; try done.
    + eapply mail_shows_mono; [intros q; by apply truthful_advance | done].
    + eapply books_drop with (cid := 0); [done | done | by intros q; apply Hl | by left].
    + intros q Hq. apply H5. rewrite E. by right.
    + intros q Hq. eapply truthful_advance; [exact Ha | by apply H6].
  - right. cbn. split; [by rewrite lookup_delete_eq|]. destruct (bk_held _ _ _ H4 _ _ Hp) as (_ & e & He & _ & Ho).
    exists e. split; [done|]. destruct (pc_outgoing e.1) as [o|]; [|done].
    destruct (proj1 (Ho o) eq_refl) as (cid & i & q & Hi & _ & _ & Hk). exfalso. apply (Hl q cid); [|done].
    by apply list_elem_of_lookup_2 with i.
Qed.

(** ... or go to a mailbox. *)
Lemma tokens_move p p' l A pl cid :
  tokens_ok ls (p :: l) A pl → token p = true → in_key p' = in_key p → is_add (p_htlc p') = true → pays p' →
  tokens_ok ls l (set_at cid ((A cid).1, (A cid).2 ++ [p']) A) (<[in_key p := Some cid]> pl).
Proof using Type.
  intros T Ht Hk Ha Hp. destruct (tokens_drop p l A pl T Ht) as [[T1 T2 T3 T4 T5 T6] Hpl].
  assert (∀ c, in_key p ∉ keys ((A c).1 ++ (A c).2)) as Hn.
  { intros c Hc%T4%lookup_delete_Some. by destruct Hc. }
  split.
  - done.
  - intros k. rewrite T2, lookup_insert_Some, lookup_delete_Some. naive_solver.
  - intros c. unfold set_at. case_decide as Hc; cbn [fst snd]; [|apply T3]. subst c. unfold keys in *. rewrite app_assoc, map_app.
    apply NoDup_app. split_and!; [apply T3 | | apply NoDup_singleton].
    intros k Hin ->%list_elem_of_singleton. rewrite Hk in Hin. by apply (Hn cid).
  - intros c k. unfold set_at. case_decide as Hc; cbn [fst snd].
    + subst c. unfold keys in *. rewrite app_assoc, map_app, elem_of_app, T4, lookup_insert_Some, lookup_delete_Some. cbn [map].
      rewrite list_elem_of_singleton, Hk. naive_solver.
    + rewrite T4, lookup_insert_Some, lookup_delete_Some. naive_solver.
  - intros c q. unfold set_at. case_decide as Hc; cbn [fst snd]; [|by apply T5]. subst c. rewrite app_assoc.
    intros [Hq| ->%list_elem_of_singleton]%elem_of_app; [by apply (T5 cid) | done].
  - intros c. unfold set_at. case_decide as Hc; cbn [fst snd]; [|by apply T6]. subst c. apply T6.
Qed.

Lemma ok_move s p p' l mo A pl cid :
  ok s A pl → sw_htlc_plex s = p :: l → token p = true → in_key p' = in_key p → is_add (p_htlc p') = true → pays p' →
  (∀ R, mail_shows R (sw_mail s) A → mail_shows R mo (set_at cid ((A cid).1, (A cid).2 ++ [p']) A)) →
  ok (set_mail mo (set_plex l s)) (set_at cid ((A cid).1, (A cid).2 ++ [p']) A) (<[in_key p := Some cid]> pl).
Proof using Type.
  intros [H1 H2 H3 H4 H5 H6 H7] E Ht Hk Had Hp Hm. rewrite E in H3.
  destruct (tokens_drop p l A pl H3 Ht) as [_ Hpl].
  pose proof (move_advance (view (sw_circuits s)) pl S D (in_key p) (Some cid) ltac:(by eexists)) as Ha.
  split; cbn [set_mail set_plex sw_circuits sw_mail sw_htlc_plex sw_local sw_res_msgs]; try done.
  - apply Hm. eapply mail_shows_mono; [intros q; by apply truthful_advance | done].
  - by apply tokens_move.
  - by apply books_move.
  - intros q Hq. apply H5. rewrite E. by right.
  - intros q Hq. eapply truthful_advance; [exact Ha | by apply H6].
Qed.

(** New circuits, and their adds with the forwarder or in a mailbox. *)
Lemma ok_new s cm new A pl :
  ok s A pl → circuits_ok cm → adds_circuits (view (sw_circuits s)) (view cm) (keys new) → NoDup (keys new) →
  (∀ p, p ∈ new → D !! in_key p = None ∧ is_add (p_htlc p) = true ∧ packet_ok S p) →
  ok (set_plex (sw_htlc_plex s ++ new) (set_circuits cm s)) A (place_all None (keys new) pl).
Proof using Type.
  intros [H1 H2 [T1 T2 T3 T4 T5 T6] H4 H5 H6 H7] Hc Hn Hnd Hp.
  pose proof (new_advance _ _ pl S D _ None Hn) as Ha.
  assert (∀ k, k ∈ keys new → D !! k = None) as Hd.
  { intros k (p & -> & Hin)%list_elem_of_fmap. by apply Hp. }
  assert (∀ k, k ∈ keys new → pl !! k = None) as Hu by (intros k Hk; by eapply new_unplaced).
  assert (List.filter token new = new) as Ef.
  { apply bfilter_all. intros p Hin. unfold token. by destruct (Hp p Hin) as (_ & -> & _). }
  split; cbn [set_circuits set_plex sw_circuits sw_mail sw_htlc_plex sw_local sw_res_msgs]; try done.
  - eapply mail_shows_mono; [intros q; by apply truthful_advance | done].
  - split; try done.
    + unfold keys in *. rewrite List.filter_app, Ef, map_app. apply NoDup_app. split_and!; [done | | done].
      intros k Hk Hk'. apply T2 in Hk. rewrite Hu in Hk by done. done.
    + intros k. unfold keys in *. rewrite List.filter_app, Ef, map_app, elem_of_app, T2, lookup_place_all.
      case_decide; [naive_solver|]. naive_solver.
    + intros c k. rewrite T4, lookup_place_all. case_decide as Hk; [|done]. rewrite Hu by done. naive_solver.
  - by apply books_new with (view (sw_circuits s)).
  - intros p [Hin|Hin]%elem_of_app; [by apply H5 | by apply Hp].
  - intros p Hin. eapply truthful_advance; [exact Ha | by apply H6].
Qed.

Lemma ok_new_mail s cm p mo cid A pl :
  ok s A pl → circuits_ok cm → adds_circuits (view (sw_circuits s)) (view cm) [in_key p] →
  D !! in_key p = None → is_add (p_htlc p) = true → pays p →
  (∀ R, mail_shows R (sw_mail s) A → mail_shows R mo (set_at cid ((A cid).1, (A cid).2 ++ [p]) A)) →
  ok (set_mail mo (set_circuits cm s)) (set_at cid ((A cid).1, (A cid).2 ++ [p]) A) (place_all (Some cid) [in_key p] pl).
Proof using Type.
  intros [H1 H2 [T1 T2 T3 T4 T5 T6] H4 H5 H6 H7] Hc Hn Hd Had Hp Hm.
  pose proof (new_advance _ _ pl S D _ (Some cid) Hn) as Ha.
  assert (pl !! in_key p = None) as Hu by (eapply new_unplaced; [done | exact H4 | left]).
  split; cbn [set_circuits set_mail sw_circuits sw_mail sw_htlc_plex sw_local sw_res_msgs]; try done.
  - apply Hm. eapply mail_shows_mono; [intros q; by apply truthful_advance | done].
  - cbn [place_all foldr]. split; try done.
    + intros k. rewrite T2, lookup_insert_Some. naive_solver.
    + intros c. unfold set_at. case_decide as Hx; cbn [fst snd]; [|apply T3]. subst c. unfold keys in *. rewrite app_assoc, map_app.
      apply NoDup_app. split_and!; [apply T3 | | apply NoDup_singleton].
      intros k Hin ->%list_elem_of_singleton. apply T4 in Hin. congruence.
    + intros c k. unfold set_at. case_decide as Hx; cbn [fst snd].
      * subst c. unfold keys in *. rewrite app_assoc, map_app, elem_of_app, T4, lookup_insert_Some. cbn [map].
        rewrite list_elem_of_singleton. naive_solver.
      * rewrite T4, lookup_insert_Some. naive_solver.
    + intros c q. unfold set_at. case_decide as Hx; cbn [fst snd]; [|by apply T5]. subst c. rewrite app_assoc.
      intros [Hq| ->%list_elem_of_singleton]%elem_of_app; [by apply (T5 cid) | done].
    + intros c. unfold set_at. case_decide as Hx; cbn [fst snd]; [|by apply T6]. subst c. apply T6.
  - apply books_new with (view (sw_circuits s)); [done | | done]. by intros k ->%list_elem_of_singleton.
  - intros q Hin. eapply truthful_advance; [exact Ha | by apply H6].
Qed.
End Steps.
