(* ===== verification/NodeSwitch.v ===== *)
(** * The switch keeps what the node keeps

    The operations of [Switch] preserve the invariant of [NodeInv]. *)

From S2P Require Import Prelude UpdateLog Tlv CircuitMap CircuitSpec CircuitRefine CircuitRestart Circuits Forwarding Packet Mailbox MailboxProps Switch SwitchMail Node NodeInv.

Implicit Types (p q : htlc_packet) (k o : circuit_key) (cid : Z).

(** ** Circuits *)

Lemma claim_same k m : same_circuits m (spec_claim k m).1.
Proof.
  intros k'. unfold spec_claim. destruct (m !! k) as [[c []]|] eqn:E; [done| |done]. cbn [fst].
  destruct (decide (k' = k)) as [->|Hne]; [by rewrite lookup_insert_eq, E | by rewrite lookup_insert_ne].
Qed.

Lemma claim_Ok k m m' c : spec_claim k m = (m', OutCircuit (Ok c)) → ∃ e, m !! k = Some e ∧ e.1 = c.
Proof.
  unfold spec_claim. destruct (m !! k) as [[c' []]|] eqn:E; try done. intros [= _ ->]. by eexists.
Qed.

Lemma close_same out m : same_circuits m (spec_close out m).1.
Proof. unfold spec_close. destruct (find_open out m) as [[k e]|]; [apply claim_same | by intros k]. Qed.

Lemma close_Ok out m m' c :
  spec_close out m = (m', OutCircuit (Ok c)) → keyed m → ∃ e, m !! pc_incoming c = Some e ∧ e.1 = c ∧ pc_outgoing c = Some out.
Proof.
  unfold spec_close. destruct (find_open out m) as [[k e]|] eqn:E; [|done]. intros (e' & He & <-)%claim_Ok Hk.
  apply find_open_elem in E as [E Ho]. cbn in E, Ho. assert (e' = e) as -> by congruence.
  exists e. rewrite (Hk _ _ E). done.
Qed.

(** What a batch of circuits adds, and which it fails. *)
Lemma reconcile_all cs m adds drops fails :
  let '(m', (adds', _, fails')) := foldl spec_reconcile (m, (adds, drops, fails)) cs in
  (∃ new, adds' = adds ++ new ∧ NoDup (map pc_incoming new) ∧
     (∀ c, c ∈ new → c ∈ cs ∧ m !! pc_incoming c = None ∧ m' !! pc_incoming c = Some (c, false)) ∧
     (∀ k, k ∉ map pc_incoming new → m' !! k = m !! k)) ∧
  (∃ half, fails' = fails ++ half ∧
     ∀ c, c ∈ half → ∃ e, m' !! pc_incoming c = Some e ∧ pc_outgoing e.1 = None ∧ pc_loaded_from_disk e.1 = true).
Proof.
  revert m adds drops fails. induction cs as [|c cs IH]; intros m adds drops fails; cbn [foldl].
  { split; [exists [] | exists []]; rewrite app_nil_r; split_and!; try done; [constructor | by intros ? ?%elem_of_nil | by intros ? ?%elem_of_nil]. }
  unfold spec_reconcile at 2. destruct (m !! pc_incoming c) as [e|] eqn:E.
  - destruct (has_keystone e.1 || negb (pc_loaded_from_disk e.1)) eqn:Ek.
    + specialize (IH m adds (drops ++ [c]) fails). destruct (foldl _ _ cs) as [m' [[adds' drops'] fails']].
      destruct IH as [(new & H1 & H2 & H3 & H4) (half & H5 & H6)]. split; [exists new | exists half]; split_and!; try done.
      * intros c' Hc. destruct (H3 c' Hc) as (? & ? & ?). split_and!; [by right | done | done].
    + pose proof (reconcile_keeps cs m (adds, drops, fails ++ [c]) _ _ E) as Hk.
      specialize (IH m adds drops (fails ++ [c])). destruct (foldl _ _ cs) as [m' [[adds' drops'] fails']]. cbn [fst] in Hk.
      destruct IH as [(new & H1 & H2 & H3 & H4) (half & H5 & H6)]. split; [exists new | exists (c :: half)]; split_and!; try done.
      * intros c' Hc. destruct (H3 c' Hc) as (? & ? & ?). split_and!; [by right | done | done].
      * by rewrite H5, <-app_assoc.
      * apply orb_false_iff in Ek as [Ek El%negb_false_iff]. unfold has_keystone in Ek. apply bool_decide_eq_false in Ek.
        intros c' [-> |Hc]%elem_of_cons.
        { exists e. split_and!; [done | | done]. by destruct (pc_outgoing e.1) as [o|]; [destruct Ek; exists o|]. }
        by apply H6.
  - pose proof (reconcile_keeps cs (<[pc_incoming c := (c, false)]> m) (adds ++ [c], drops, fails) (pc_incoming c) (c, false)
      (lookup_insert_eq _ _ _)) as Hk.
    specialize (IH (<[pc_incoming c := (c, false)]> m) (adds ++ [c]) drops fails).
    destruct (foldl _ _ cs) as [m' [[adds' drops'] fails']]. cbn [fst] in Hk.
    destruct IH as [(new & H1 & H2 & H3 & H4) (half & H5 & H6)]. split; [exists (c :: new) | exists half]; split_and!; try done.
    + by rewrite H1, <-app_assoc.
    + cbn [map]. apply NoDup_cons. split; [|done]. intros (c' & Ec & Hc)%list_elem_of_fmap. destruct (H3 c' Hc) as (_ & Hn & _).
      rewrite <-Ec, lookup_insert_eq in Hn. done.
    + intros c' [-> |Hc]%elem_of_cons; [split_and!; [left | done | done]|]. destruct (H3 c' Hc) as (Hx & Hn & Hm).
      apply lookup_insert_None in Hn as [Hn _]. split_and!; [by right | done | done].
    + cbn [map]. intros k [Hne Hkn]%not_elem_of_cons. rewrite H4 by done. by rewrite lookup_insert_ne.
Qed.

(** ** Batches *)

(** Three lists that a list divides into, each in its order. *)
Inductive parted : list addr → list addr → list addr → list addr → Prop :=
| parted_nil : parted [] [] [] []
| parted_add x l a d f : parted l a d f → parted (x :: l) (x :: a) d f
| parted_drop x l a d f : parted l a d f → parted (x :: l) a (x :: d) f
| parted_fail x l a d f : parted l a d f → parted (x :: l) a d (x :: f).

Lemma parted_elem l a d f x : parted l a d f → x ∈ a ∨ x ∈ d ∨ x ∈ f → x ∈ l.
Proof.
  induction 1 as [|y l a d f H IH|y l a d f H IH|y l a d f H IH]; rewrite ?elem_of_cons; [|naive_solver..].
  rewrite !elem_of_nil. naive_solver.
Qed.

Lemma reconcile_parted l cm adds drops fails f :
  let '(_, FwdActions adds' drops' fails', _) := foldl reconcile (cm, FwdActions adds drops fails, f) l in
  ∃ a d x, adds' = adds ++ a ∧ drops' = drops ++ d ∧ fails' = fails ++ x ∧ parted l a d x.
Proof.
  revert cm adds drops fails f. induction l as [|y l IH]; intros cm adds drops fails f; cbn [foldl].
  { exists [], [], []. rewrite !app_nil_r. split_and!; [done | done | done | constructor]. }
  assert (∀ cm' f', let '(_, FwdActions adds' drops' fails', _) := foldl reconcile (cm', FwdActions adds (drops ++ [y]) fails, f') l in
    ∃ a d x, adds' = adds ++ a ∧ drops' = drops ++ d ∧ fails' = fails ++ x ∧ parted (y :: l) a d x) as Hd.
  { intros cm' f'. specialize (IH cm' adds (drops ++ [y]) fails f'). destruct (foldl _ _ l) as [[? []] ?].
    destruct IH as (a & d & x & -> & -> & -> & Hp). exists a, (y :: d), x. rewrite <-app_assoc. split_and!; [done | done | done | by constructor]. }
  unfold reconcile at 2. destruct (cm_pending cm !! _) as [found|].
  - destruct (has_keystone _); [apply Hd|]. destruct (negb _); [apply Hd|].
    specialize (IH cm adds drops (fails ++ [y]) (f ++ [y])). destruct (foldl _ _ l) as [[? []] ?].
    destruct IH as (a & d & x & -> & -> & -> & Hp). exists a, d, (y :: x). rewrite <-app_assoc. split_and!; [done | done | done | by constructor].
  - set (cm' := set_pending _ _). specialize (IH cm' (adds ++ [y]) drops fails (f ++ [y])). destruct (foldl _ _ l) as [[? []] ?].
    destruct IH as (a & d & x & -> & -> & -> & Hp). exists (y :: a), d, x. rewrite <-app_assoc. split_and!; [done | done | done | by constructor].
Qed.

Lemma is_next_head (y : addr) l p : p_circuit p = Some y → is_next l p = bool_decide (head l = Some y).
Proof. intros E. destruct l; cbn [is_next head]; [by rewrite bool_decide_eq_false_2|]. rewrite E. apply bool_decide_ext. split; congruence. Qed.

Lemma not_next (y : addr) l p : p_circuit p = Some y → y ∉ l → is_next l p = false.
Proof. intros E Hn. rewrite (is_next_head y) by done. apply bool_decide_eq_false. destruct l; [done|]. intros [= ->]. apply Hn. left. Qed.

(** The seek finds for each list its packets. *)
Lemma split_parted l a d f batch :
  parted l a d f → NoDup l → map p_circuit batch = map Some l →
  let '(added, failed) := split_packets batch (FwdActions a d f) in
  map p_circuit added = map Some a ∧ map p_circuit failed = map Some f ∧
  (∀ p, p ∈ added → p ∈ batch) ∧ (∀ p, p ∈ failed → p ∈ batch).
Proof.
  intros H. revert batch. induction H as [|y l a d f H IH|y l a d f H IH|y l a d f H IH]; intros batch Hnd Hb.
  { destruct batch; [|done]. cbn. split_and!; [done | done | by intros ? ?%elem_of_nil..]. }
  all: apply NoDup_cons in Hnd as [Hy Hnd]; destruct batch as [|p batch]; [done|]; cbn [map] in Hb; injection Hb as Hp Hb;
    specialize (IH batch Hnd Hb); cbn [split_packets].
  - rewrite (is_next_head y), bool_decide_eq_true_2 by done. cbn [tail].
    destruct (split_packets batch _) as [added failed]. destruct IH as (H1 & H2 & H3 & H4). cbn [map]. rewrite H1, Hp. split_and!; [done | done | |].
    + intros q [-> |Hq]%elem_of_cons; [left | right; by apply H3].
    + intros q Hq. right. by apply H4.
  - rewrite (not_next y a) by (done || (intros Ha; apply Hy; eapply parted_elem; [done | by left])).
    rewrite (is_next_head y), bool_decide_eq_true_2 by done. cbn [tail].
    destruct (split_packets batch _) as [added failed]. destruct IH as (H1 & H2 & H3 & H4). split_and!; [done | done | |];
      intros q Hq; right; [by apply H3 | by apply H4].
  - rewrite (not_next y a) by (done || (intros Ha; apply Hy; eapply parted_elem; [done | by left])).
    rewrite (not_next y d) by (done || (intros Ha; apply Hy; eapply parted_elem; [done | right; by left])).
    rewrite (is_next_head y), bool_decide_eq_true_2 by done. cbn [tail].
    destruct (split_packets batch _) as [added failed]. destruct IH as (H1 & H2 & H3 & H4). cbn [map]. rewrite H2, Hp. split_and!; [done | done | |].
    + intros q Hq. right. by apply H3.
    + intros q [-> |Hq]%elem_of_cons; [left | right; by apply H4].
Qed.

(** The circuits of a batch, and its adds with them. *)
Definition circuit_of p : option payment_circuit :=
  match p_htlc p with UpdateAddHTLC hash _ _ _ => Some (new_payment_circuit hash p) | _ => None end.

Definition with_circuits (a : addr) (packets : list htlc_packet) : list htlc_packet :=
  imap (λ i p, set_circuit (Some (a + i)%nat) p) (List.filter (λ p, is_add (p_htlc p)) packets).

Definition grow (cs : list payment_circuit) (cm : circuit_map) : circuit_map := set_heap (cm_heap cm ++ cs) cm.

Lemma with_circuits_add a p packets :
  is_add (p_htlc p) = true → with_circuits a (p :: packets) = set_circuit (Some a) p :: with_circuits (S a) packets.
Proof.
  intros Hp. unfold with_circuits. cbn [List.filter]. rewrite Hp. cbn [imap]. rewrite Nat.add_0_r. f_equal.
  apply imap_ext. intros i q Hq. cbn. do 2 f_equal. lia.
Qed.

Lemma first_pass_all packets s l batch :
  foldl first_pass (s, l, batch) packets =
  (set_circuits (grow (omap circuit_of packets) (sw_circuits s))
     (set_plex (sw_htlc_plex s ++ List.filter (λ p, negb (is_add (p_htlc p))) packets) s),
   l ++ seq (length (cm_heap (sw_circuits s))) (length (omap circuit_of packets)),
   batch ++ with_circuits (length (cm_heap (sw_circuits s))) packets).
Proof.
  revert s l batch. induction packets as [|p packets IH]; intros s l batch; cbn [foldl omap list_omap].
  { unfold with_circuits, grow. cbn [List.filter imap seq length]. rewrite !app_nil_r. by destruct s as [? []]. }
  assert (is_add (p_htlc p) = false → circuit_of p = None →
    first_pass (s, l, batch) p = (route_async p s, l, batch) →
    foldl first_pass (first_pass (s, l, batch) p) packets =
    (set_circuits (grow (match circuit_of p with Some c => c :: omap circuit_of packets | None => omap circuit_of packets end) (sw_circuits s))
       (set_plex (sw_htlc_plex s ++ List.filter (λ p, negb (is_add (p_htlc p))) (p :: packets)) s),
     l ++ seq (length (cm_heap (sw_circuits s)))
       (length (match circuit_of p with Some c => c :: omap circuit_of packets | None => omap circuit_of packets end)),
     batch ++ with_circuits (length (cm_heap (sw_circuits s))) (p :: packets))) as Hr.
  { intros Ha Hc ->. rewrite IH, Hc. unfold with_circuits. cbn [List.filter]. rewrite Ha. cbn [negb].
    unfold route_async. cbn [set_plex sw_circuits sw_htlc_plex]. rewrite <-app_assoc. done. }
  destruct (p_htlc p) as [hash amt exp rec|r|r|] eqn:Ep;
    try (apply Hr; [done | unfold circuit_of; by rewrite Ep | unfold first_pass; by rewrite Ep]).
  clear Hr. unfold first_pass at 2. rewrite Ep. unfold alloc_circuit. rewrite IH.
  assert (circuit_of p = Some (new_payment_circuit hash p)) as -> by (unfold circuit_of; by rewrite Ep).
  rewrite with_circuits_add by (by rewrite Ep). cbn [set_circuits sw_circuits sw_htlc_plex cm_heap set_heap].
  rewrite length_app. cbn [length List.filter]. rewrite Ep. cbn [is_add negb].
  rewrite <-!app_assoc. unfold grow. cbn [seq app set_heap cm_heap]. rewrite Nat.add_1_r, <-app_assoc. done.
Qed.

Lemma elem_of_with_circuits a packets p :
  p ∈ with_circuits a packets →
  ∃ i p0 hash amount expiry records, p = set_circuit (Some (a + i)%nat) p0 ∧ p0 ∈ packets ∧
    p_htlc p0 = UpdateAddHTLC hash amount expiry records ∧ omap circuit_of packets !! i = Some (new_payment_circuit hash p0).
Proof.
  revert a. induction packets as [|q packets IH]; intros a; [by intros ?%elem_of_nil|].
  destruct (p_htlc q) as [hash amount expiry records|r|r|] eqn:Eq.
  2-4: unfold with_circuits; cbn [List.filter omap list_omap]; unfold circuit_of at 1; rewrite Eq; cbn [is_add];
    intros (i & p0 & hash & amount & expiry & records & H1 & H2 & H3 & H4)%IH;
    exists i, p0, hash, amount, expiry, records; split_and!; [done | by right | done | done].
  rewrite with_circuits_add by (by rewrite Eq). cbn [omap list_omap]. unfold circuit_of at 1. rewrite Eq.
  intros [-> |Hp]%elem_of_cons.
  - exists 0%nat, q, hash, amount, expiry, records. rewrite Nat.add_0_r. split_and!; [done | left | done | done].
  - apply IH in Hp as (i & p0 & hash' & amount' & expiry' & records' & H1 & H2 & H3 & H4).
    exists (S i), p0, hash', amount', expiry', records'. rewrite Nat.add_succ_r. split_and!; [done | by right | done | done].
Qed.

Lemma with_circuits_addrs a packets :
  map p_circuit (with_circuits a packets) = map Some (seq a (length (omap circuit_of packets))).
Proof.
  revert a. induction packets as [|q packets IH]; intros a; [done|].
  destruct (p_htlc q) as [hash amount expiry records|r|r|] eqn:Eq.
  2-4: unfold with_circuits; cbn [List.filter omap list_omap]; unfold circuit_of at 1; rewrite Eq; cbn [is_add]; apply IH.
  rewrite with_circuits_add by (by rewrite Eq). cbn [omap list_omap]. unfold circuit_of at 1. rewrite Eq.
  cbn [map length seq]. by rewrite IH.
Qed.

(** [CommitCircuits], whose write succeeds. *)
Lemma commit_parted l cm :
  let '(_, (FwdActions a d f, _)) := commit_circuits true l cm in parted l a d f.
Proof.
  unfold commit_circuits. pose proof (reconcile_parted l cm [] [] [] []) as H.
  destruct (foldl _ _ l) as [[cm' [adds drops fails]] x]. destruct H as (a & d & f & -> & -> & -> & H). cbn [app fa_adds fa_drops fa_fails] in *.
  by destruct a.
Qed.

Lemma commit_heap b l cm : cm_heap (commit_circuits b l cm).1 = cm_heap cm.
Proof.
  unfold commit_circuits. assert (∀ cm x y, cm_heap (foldl reconcile (cm, x, y) l).1.1 = cm_heap cm) as H.
  { induction l as [|z l IH]; intros cm' x y; [done|]. cbn [foldl]. unfold reconcile at 2. destruct x as [adds drops fails].
    repeat case_match; rewrite IH; done. }
  specialize (H cm (FwdActions [] [] []) []). destruct (foldl _ _ l) as [[cm' x] y]. cbn [fst] in H.
  by destruct (fa_adds x), b.
Qed.

Lemma spec_commit_true cs m m' adds drops fails r :
  spec_commit true cs m = (m', OutActions adds drops fails r) →
  NoDup (map pc_incoming adds) ∧
  (∀ c, c ∈ adds → m !! pc_incoming c = None ∧ m' !! pc_incoming c = Some (c, false)) ∧
  (∀ k, k ∉ map pc_incoming adds → m' !! k = m !! k) ∧
  (∀ c, c ∈ fails → ∃ e, m' !! pc_incoming c = Some e ∧ pc_outgoing e.1 = None ∧ pc_loaded_from_disk e.1 = true).
Proof.
  unfold spec_commit. pose proof (reconcile_all cs m [] [] []) as H. destruct (foldl _ _ cs) as [m1 [[adds' drops'] fails']].
  destruct H as [(new & -> & H1 & H2 & H3) (half & -> & H4)]. cbn [app].
  assert (new = [] → m1 = m) as E by (intros ->; apply map_eq; intros k; by apply H3, not_elem_of_nil).
  destruct new as [|c new]; intros [= <- <- <- <- <-]; [rewrite E in H4 by done|]; split_and!; try done; [by intros ? ?%elem_of_nil|].
  intros c' Hc. by destruct (H2 c' Hc) as (_ & ? & ?).
Qed.

Lemma commit_keys (l : list addr) (added : list htlc_packet) cm :
  map p_circuit added = map Some l → (∀ p a, p ∈ added → p_circuit p = Some a → pc_incoming (deref a cm) = in_key p) →
  keys added = map pc_incoming (map (λ a, deref a cm) l).
Proof.
  revert l. induction added as [|p added IH]; intros [|a l]; try done. cbn [map keys]. intros [= Hp Hl] H. f_equal.
  - symmetry. apply H; [left | done].
  - apply IH; [done|]. intros q b Hq. apply H. by right.
Qed.

Lemma route_all l s : foldl (λ s p, route_async p s) s l = set_plex (sw_htlc_plex s ++ l) s.
Proof.
  revert s. induction l as [|p l IH]; intros s; cbn [foldl]; [rewrite app_nil_r; by destruct s|].
  rewrite IH. unfold route_async. cbn [sw_htlc_plex set_plex]. by rewrite <-app_assoc.
Qed.

(** ** Responses *)

Section Steps.
Context {KP : CircuitPrims} {TP : TlvPrims} {OP : OnionPrims} (cfg : switch_config).
Context (sid_of : Z → Z) (ls : links) (S : htlcs) (D : gmap circuit_key answer).
Context {Hsid : Inj (=) (=) sid_of}.
Abbreviation ok := (state_ok sid_of ls S D).
Abbreviation world_at s pl := (world_of s S D pl).
Implicit Types (s : switch) (A : adds) (pl : places).

Lemma signed_not_unsigned W o x k : books_ok sid_of ls W → w_sent W !! o = Some x → ¬ unsigned sid_of ls o k.
Proof using Hsid.
  intros B Ho (cid & i & p & Hi & Hlt & -> & _). destruct x as [q st].
  destruct (bk_sent _ _ _ B _ _ _ Ho) as ((cid' & H1 & H2) & _). unfold link_out in *. cbn in H1, H2.
  apply Hsid in H1 as <-. lia.
Qed.

Lemma signed_truth W o q a k e :
  books_ok sid_of ls W → w_sent W !! o = Some (q, status_of a) → w_view W !! k = Some e → pc_outgoing e.1 = Some o →
  answer_ok W k a.
Proof using Hsid.
  intros B Ho He Eo. right. split; [|exists e; split; [done|]; rewrite Eo; by exists q].
  destruct (w_place W !! k) as [x|] eqn:E; [|done]. destruct (bk_held _ _ _ B _ _ E) as (_ & e' & He' & _ & Hu).
  assert (e' = e) as -> by congruence. apply Hu in Eo. by destruct (signed_not_unsigned _ _ _ _ B Ho Eo).
Qed.

(** What a response needs to be sent back. *)
Definition response_ok s pl p : Prop :=
  is_response (p_htlc p) = true ∧
  if p_has_source p then answer_ok (world_at s pl) (in_key p) (answer_of (p_htlc p))
  else ∃ q, S !! packet_out_key p = Some (q, status_of (answer_of (p_htlc p))).

Lemma answer_claims s cm pl k a :
  same_circuits (view (sw_circuits s)) (view cm) → answer_ok (world_at s pl) k a → answer_ok (world_at (set_circuits cm s) pl) k a.
Proof using Type. intros Hv. apply answer_advance. by apply claims_advance. Qed.

Lemma ok_settle_fails s l x A pl : ok s A pl → ok (set_settle_fails l x s) A pl.
Proof using Type. intros H. by eapply ok_same. Qed.

Lemma ok_close p s A pl :
  ok s A pl → response_ok s pl p →
  let '(s', p', r) := close_packet_circuit p s in
  ok s' A pl ∧ p_htlc p' = p_htlc p ∧
  (∀ x, r = Ok (Some x) → answer_ok (world_at s' pl) (in_key p') (answer_of (p_htlc p))) ∧
  (r = Ok None → is_fulfill (p_htlc p) = true).
Proof using Hsid.
  intros H [Hr Hp]. pose proof (so_circuits _ _ _ _ _ _ _ H) as Hc. unfold close_packet_circuit. destruct (p_has_source p).
  - pose proof (fail_refines (in_key p) (sw_circuits s) Hc) as Hf. destruct (fail_circuit (in_key p) (sw_circuits s)) as [cm r].
    destruct Hf as [Hc' Hf]. pose proof (claim_same (in_key p) (view (sw_circuits s))) as Hv. rewrite Hf in Hv. cbn [fst] in Hv.
    split_and!; [by apply ok_claims | done | | by destruct r]. intros x _. by apply answer_claims.
  - pose proof (close_refines (packet_out_key p) (sw_circuits s) Hc) as Hf.
    destruct (close_circuit (packet_out_key p) (sw_circuits s)) as [cm r]. destruct Hf as [Hc' Hf].
    pose proof (close_same (packet_out_key p) (view (sw_circuits s))) as Hv. rewrite Hf in Hv. cbn [fst] in Hv.
    pose proof (ok_claims _ _ _ _ s cm A pl H Hc' Hv) as H'. destruct r as [a|e].
    + split_and!; [done | done | | done]. intros x _. cbn [rbind] in Hf.
      apply close_Ok in Hf as (e & He & Ee & Eo); [|by apply view_keyed, co_mem].
      destruct Hp as (q & Hq). apply answer_claims; [done|]. cbn [in_key set_source_ref set_circuit set_source].
      unfold in_key. cbn. rewrite <-surjective_pairing.
      eapply signed_truth; [apply (so_books _ _ _ _ _ _ _ H) | exact Hq | exact He | by rewrite Ee].
    + destruct e; cbn; try (split_and!; [done | done | done | done]).
      split_and!; [by destruct (p_dest_ref p); [apply ok_settle_fails|] | done | |]; destruct (is_fulfill (p_htlc p)); done.
Qed.

Lemma ok_settle p s A pl : ok s A pl → response_ok s pl p → ok (handle_packet_settle p s).1 A pl.
Proof using Hsid.
  intros H Hp. pose proof (ok_close p s A pl H Hp) as Hc. destruct Hp as [Hr _]. unfold handle_packet_settle.
  destruct (close_packet_circuit p s) as [[s' p'] [[x|]|e]].
  - destruct Hc as (H' & Eh & Ha & _). specialize (Ha x eq_refl). rewrite <-Eh in Ha, Hr.
    destruct (p_incoming_chan_id p' =? source); [by apply ok_respond|]. apply ok_deliver.
    + destruct (pc_outgoing _); [by eapply ok_same | done].
    + by destruct (pc_outgoing _).
  - by destruct Hc.
  - destruct Hc as (H' & _). by destruct e as [| | | | | | | | |[]| | | | | |].
Qed.

Lemma ok_fail reason p s A pl :
  ok s A pl → p_htlc p = UpdateFailHTLC reason → response_ok s pl p → ok (handle_packet_fail reason p s).1 A pl.
Proof using Hsid.
  intros H Em Hp. pose proof (ok_close p s A pl H Hp) as Hc. unfold handle_packet_fail. rewrite Em in Hc.
  destruct (close_packet_circuit p s) as [[s' p'] [[x|]|e]]; destruct Hc as (H' & Eh & Ha & Hf); cbn in Ha.
  - specialize (Ha x eq_refl). destruct (p_incoming_chan_id p' =? source); [apply ok_respond; [done | by split; rewrite Eh]|].
    destruct (p_has_source p'); [by apply ok_deliver; [|split; rewrite Eh]|].
    apply ok_deliver; [done|]. destruct (pc_error_encrypter _); split; cbn [set_htlc set_obfuscator p_htlc]; rewrite ?Eh; done.
  - by specialize (Hf eq_refl).
  - by destruct e as [| | | | | | | | |[]| | | | | |].
Qed.

(** ** Adds *)

Lemma ok_fail_add p failure s A pl :
  ok s A pl → answer_ok (world_at s pl) (in_key p) None → ok (fail_add_packet p failure s).1 A pl.
Proof using Type.
  intros H Ha. unfold fail_add_packet. destruct (p_obfuscator p) as [e|]; [|done].
  destruct (encrypt_first_hop e (le_msg failure)) as [reason|]; [|done].
  pose proof (ok_deliver sid_of ls S D (p_incoming_chan_id p) (fail_packet_of reason failure p) s A pl H) as Hd.
  destruct (deliver_packet _ _ s) as [s' r]. apply Hd. by split.
Qed.

Lemma fail_add_world p failure s pl : world_at (fail_add_packet p failure s).1 pl = world_at s pl.
Proof using Type.
  unfold fail_add_packet. destruct (p_obfuscator p) as [e|]; [|done].
  destruct (encrypt_first_hop e (le_msg failure)) as [reason|]; [|done].
  unfold deliver_packet. by destruct (deliver _ _ _) as [mo r].
Qed.

(** Its mail changes, but not what the mailboxes hold. *)
Definition same_mail s s' : Prop :=
  ∃ mo, s' = set_mail mo s ∧ ∀ R A, mail_shows R (sw_mail s) A → mail_shows R mo A.

Lemma same_mail_refl s : same_mail s s.
Proof using Type. exists (sw_mail s). split; [by destruct s | done]. Qed.

Lemma same_mail_trans s s1 s2 : same_mail s s1 → same_mail s1 s2 → same_mail s s2.
Proof using Type.
  intros (mo & -> & H) (mo' & -> & H'). exists mo'. split; [done|]. intros R A Hm. by apply H', H.
Qed.

Lemma ok_same_mail s s' A pl : same_mail s s' → ok s A pl → ok s' A pl.
Proof using Type. intros (mo & -> & H) Hs. apply ok_mail; [done|]. apply H, Hs. Qed.

Lemma dust_same_mail link amount incoming s : same_mail s (dust_exceeds_fee_threshold cfg link amount incoming s).1.
Proof using Type.
  unfold dust_exceeds_fee_threshold. destruct (negb _); [apply same_mail_refl|].
  destruct (get_or_create_mailbox _ _ (sw_mail s)) as [mo mb] eqn:E. destruct (dust_packets _ mb) as [lm rm]. cbn [fst].
  exists mo. split; [done|]. intros R A HA. pose proof (get_or_create_shows R (cl_chan_id link) (cl_short_chan_id link) _ _ HA) as Hg.
  rewrite E in Hg. apply Hg.
Qed.

(** The packet of an add, whose outgoing channel is chosen. *)
Definition same_add p p' : Prop :=
  in_key p' = in_key p ∧ p_htlc p' = p_htlc p ∧ p_amount p' = p_amount p ∧ p_incoming_amount p' = p_incoming_amount p ∧
  p_incoming_timeout p' = p_incoming_timeout p ∧ p_outgoing_timeout p' = p_outgoing_timeout p.

Lemma same_add_refl p : same_add p p.
Proof using Type. done. Qed.

Lemma candidate_same p s : same_add p (candidate_links cfg p s).1.
Proof using Type.
  unfold candidate_links. destruct (p_outgoing_hop p) as [x|peer].
  - destruct (check_circular_forward _ _ _ _); [done|]. unfold get_link_by_mapping.
    repeat case_match; simplify_eq; done.
  - by destruct (List.filter _ _).
Qed.

(** The adds that a mailbox takes. *)
Lemma switch_packet_mail link p s A pl x :
  tokens_ok ls x A pl → pl !! in_key p ≠ Some (Some (cl_chan_id link)) → is_add (p_htlc p) = true →
  ∃ mo, (handle_switch_packet link p s).1 = set_mail mo s ∧
    ∀ R, mail_shows R (sw_mail s) A →
      mail_shows R mo (set_at (cl_chan_id link) ((A (cl_chan_id link)).1, (A (cl_chan_id link)).2 ++ [p]) A).
Proof using Type.
  intros T Hk Ha. unfold handle_switch_packet.
  destruct (get_or_create_mailbox _ _ (sw_mail s)) as [mo mb] eqn:E. destruct (add_packet p mb) as [mb' r] eqn:Ep. cbn [fst].
  eexists. split; [done|]. intros R HA. pose proof (get_or_create_shows R (cl_chan_id link) (cl_short_chan_id link) _ _ HA) as Hg.
  rewrite E in Hg. destruct Hg as (Hmo & _ & Hb). destruct (A (cl_chan_id link)) as [sent wait] eqn:EA. cbn [fst snd].
  apply set_mailbox_shows; [done|]. destruct (add_add_shows R p mb sent wait Hb Ha) as [Hb' _]; [|by rewrite Ep in Hb'].
  intros q Hq Ek. apply Hk. apply (tk_mail _ _ _ _ T). rewrite EA. cbn [fst snd]. rewrite <-Ek. by apply list_elem_of_fmap_2.
Qed.

Lemma ok_add pick p hash amount expiry records l s A pl :
  ok s A pl → sw_htlc_plex s = p :: l → p_htlc p = UpdateAddHTLC hash amount expiry records →
  ∃ A' pl', ok (handle_packet_add cfg pick p records (set_plex l s)).1 A' pl'.
Proof using Type.
  intros H El Ep. assert (token p = true) as Ht by (unfold token; by rewrite Ep).
  destruct (ok_drop sid_of ls S D s p l A pl H El Ht) as [Hd Ha].
  assert (∀ p' failure s', same_add p p' → same_mail (set_plex l s) s' → ∃ A' pl', ok (fail_add_packet p' failure s').1 A' pl') as Hf.
  { intros p' failure s' (Ek & _) Hm. exists A, (delete (in_key p) pl). apply ok_fail_add; [by eapply ok_same_mail|].
    rewrite Ek. by destruct Hm as (mo & -> & _). }
  unfold handle_packet_add. destruct (sc_reject_htlc cfg); [apply Hf; [done | apply same_mail_refl]|].
  pose proof (candidate_same p (set_plex l s)) as Hc. destruct (candidate_links cfg p (set_plex l s)) as [p' [dests|e]]; cbn [fst] in Hc.
  2: { apply Hf; [done | apply same_mail_refl]. }
  destruct (_ !! _) as [dest|] eqn:Edest; [|apply Hf; [done | apply same_mail_refl]].
  apply list_elem_of_lookup_2, elem_of_bfilter in Edest as [_ Hdest].
  destruct (get_link_by_short_id _ _) as [incoming|]; [|apply Hf; [done | apply same_mail_refl]].
  pose proof (dust_same_mail incoming (p_incoming_amount p') true (set_plex l s)) as Hm.
  destruct (dust_exceeds_fee_threshold cfg incoming _ true _) as [s1 b]. cbn [fst] in Hm. destruct b; [by apply Hf|].
  pose proof (same_mail_trans _ _ _ Hm (dust_same_mail dest (p_amount p') false s1)) as Hm'.
  destruct (dust_exceeds_fee_threshold cfg dest _ false s1) as [s2 b]. cbn [fst] in Hm'. destruct b; [by apply Hf|].
  destruct Hm' as (mo & -> & Hmo). destruct Hc as (Ek & Eh & Ea & Ei & Eit & Eot).
  assert (packet_ok S p) as Hpk by (apply (so_plex _ _ _ _ _ _ _ H); rewrite El; left).
  unfold packet_ok in Hpk. rewrite Ep in Hpk. destruct Hpk as (_ & -> & ->).
  set (p2 := set_outgoing_chan_id (cl_short_chan_id dest) p').
  assert (in_key p2 = in_key p) as Ek2 by exact Ek.
  assert (p_htlc p2 = p_htlc p) as Eh2 by exact Eh.
  assert (pays p2) as Hpays.
  { unfold pays. rewrite Eh2, Ep. intros _. unfold check_destination in Hdest. destruct (negb _); [done|].
    destruct (check_htlc_forward _ _ _ _ _ _ _ _ _) eqn:Ec; [done|]. apply check_htlc_forward_accepts in Ec.
    cbn. rewrite <-Ea, <-Eot. exact Ec. }
  pose proof (so_tokens _ _ _ _ _ _ _ H) as T. rewrite El in T. destruct (tokens_drop ls p l A pl T Ht) as [T' Hpl].
  destruct (switch_packet_mail dest p2 (set_mail mo (set_plex l s)) A pl _ T) as (mo' & -> & Hmo').
  { rewrite Ek2, Hpl. done. }
  { by rewrite Eh2, Ep. }
  do 2 eexists. eapply (ok_move sid_of ls S D s p p2 l mo' A pl (cl_chan_id dest)); try done; [by rewrite Eh2, Ep|].
  intros R HR. apply Hmo', Hmo, HR.
Qed.

Lemma ok_forwarder pick s A pl : ok s A pl → ∃ A' pl', ok (htlc_forwarder cfg pick s) A' pl'.
Proof using Hsid.
  intros H. unfold htlc_forwarder. destruct (sw_htlc_plex s) as [|p l] eqn:El; [by exists A, pl|].
  assert (packet_ok S p) as Hp by (apply (so_plex _ _ _ _ _ _ _ H); rewrite El; left). unfold handle_packet_forward.
  unfold packet_ok in Hp. destruct (p_htlc p) as [hash amt exp rec|r|reason|] eqn:Ep; [by eapply ok_add | | |].
  - destruct Hp as [Hs Hp]. exists A, pl. assert (token p = false) as Ht by (unfold token; by rewrite Ep, Hs).
    apply ok_settle; [by eapply ok_unroute|]. split; rewrite Ep; [done|]. by rewrite Hs.
  - destruct (p_has_source p) eqn:Hs.
    + assert (token p = true) as Ht by (unfold token; by rewrite Ep, Hs).
      destruct (ok_drop sid_of ls S D s p l A pl H El Ht) as [Hd Ha]. exists A, (delete (in_key p) pl).
      apply ok_fail; [done | done|]. split; rewrite Ep; [done|]. by rewrite Hs.
    + exists A, pl. assert (token p = false) as Ht by (unfold token; by rewrite Ep, Hs).
      destruct Hp as [|Hp]; [done|]. apply ok_fail; [by eapply ok_unroute | done|]. split; rewrite Ep; [done|]. by rewrite Hs.
  - exists A, pl. assert (token p = false) as Ht by (unfold token; by rewrite Ep, Hp). cbn [fst]. by eapply ok_unroute.
Qed.

(** ** Batches *)

Lemma ok_routes l s A pl :
  ok s A pl → (∀ p, p ∈ l → token p = false ∧ packet_ok S p) → ok (set_plex (sw_htlc_plex s ++ l) s) A pl.
Proof using Type.
  rewrite <-route_all. revert s. induction l as [|p l IH]; intros s H Hl; cbn [foldl]; [done|].
  destruct (Hl p ltac:(left)) as [Ht Hp]. apply IH; [by apply ok_route|]. intros q Hq. apply Hl. by right.
Qed.

Lemma ok_grow cs s A pl :
  ok s A pl → ok (set_circuits (grow cs (sw_circuits s)) s) A pl ∧ view (grow cs (sw_circuits s)) = view (sw_circuits s).
Proof using Type.
  intros H. destruct (so_circuits _ _ _ _ _ _ _ H) as [Hm Hd He].
  destruct (mem_ok_alloc cs (sw_circuits s) Hm) as [Hm' Hv]. split; [|done]. apply ok_claims; [done | |].
  - unfold grow. split; [done | by rewrite Hv | by rewrite Hv].
  - intros k. unfold grow. by rewrite Hv.
Qed.

(** Packets that a link may forward. *)
Definition forward_ok p : Prop :=
  packet_ok S p ∧
  match p_htlc p with
  | UpdateAddHTLC hash _ _ _ => D !! in_key p = None ∧ fresh_circuit (new_payment_circuit hash p)
  | _ => p_has_source p = false
  end.

Lemma ok_fail_adds failure l s A pl :
  ok s A pl → (∀ p, p ∈ l → answer_ok (world_at s pl) (in_key p) None) →
  ok (foldl (λ s p, (fail_add_packet p failure s).1) s l) A pl.
Proof using Type.
  revert s. induction l as [|p l IH]; intros s H Hl; cbn [foldl]; [done|].
  apply IH; [apply ok_fail_add; [done | apply Hl; left]|]. intros q Hq. rewrite fail_add_world. apply Hl. by right.
Qed.

Lemma ok_forward packets s A pl :
  ok s A pl → (∀ p, p ∈ packets → forward_ok p) → ∃ A' pl', ok (forward_packets cfg true packets s) A' pl'.
Proof using Type.
  intros H Hp. unfold forward_packets. rewrite first_pass_all. cbn [app].
  set (cs := omap circuit_of packets). set (resp := List.filter _ packets).
  set (base := length (cm_heap (sw_circuits s))).
  assert (ok (set_plex (sw_htlc_plex s ++ resp) s) A pl) as H1.
  { apply ok_routes; [done|]. intros p [Hin Hn]%elem_of_bfilter. destruct (Hp p Hin) as [Hpk Hs]. split; [|done].
    unfold token. apply negb_true_iff in Hn. rewrite Hn. by destruct (p_htlc p). }
  destruct (ok_grow cs _ _ _ H1) as [H2 V2]. cbn [set_plex sw_circuits] in H2, V2.
  set (s2 := set_circuits _ _) in *. destruct (seq base (length cs)) as [|x l] eqn:El; [by exists A, pl|]. rewrite <-El. clear x l El.
  change (sw_circuits s2) with (grow cs (sw_circuits s)).
  pose proof (commit_refines true cs (sw_circuits s) (so_circuits _ _ _ _ _ _ _ H)) as Hc.
  unfold commit_new, new_payment_circuits in Hc. fold base in Hc. change (set_heap _ _) with (grow cs (sw_circuits s)) in Hc.
  pose proof (commit_parted (seq base (length cs)) (grow cs (sw_circuits s))) as Hpart.
  pose proof (commit_heap true (seq base (length cs)) (grow cs (sw_circuits s))) as Hheap.
  destruct (commit_circuits true _ _) as [cm [[adds drops fails] r]]. cbn [fst] in Hheap.
  destruct Hc as [Hcm Hspec].
  { intros c (p & Hin & Hcp)%list_elem_of_omap. destruct (Hp p Hin) as [_ Hx]. unfold circuit_of in Hcp. destruct (p_htlc p); try done.
    injection Hcp as <-. apply Hx. }
  unfold actions_of in Hspec. cbn [fa_adds fa_drops fa_fails] in Hspec.
  apply spec_commit_true in Hspec as (N1 & N2 & N3 & N4).
  pose proof (split_parted _ _ _ _ (with_circuits base packets) Hpart (NoDup_seq _ _) (with_circuits_addrs _ _)) as Hsplit.
  destruct (split_packets _ _) as [added failed]. destruct Hsplit as (E1 & E2 & I1 & I2).
  assert (∀ p, p ∈ with_circuits base packets → is_add (p_htlc p) = true ∧ forward_ok p ∧
    ∀ a, p_circuit p = Some a → pc_incoming (deref a cm) = in_key p) as Hb.
  { intros p (i & p0 & hash & amount & expiry & records & -> & Hin & Eh & Hi)%elem_of_with_circuits.
    split_and!; [cbn; by rewrite Eh | apply (Hp p0 Hin)|]. intros a [= <-]. unfold deref. rewrite Hheap. unfold grow. cbn [cm_heap set_heap].
    rewrite list_lookup_total_alt, lookup_app_r by (unfold base; lia). unfold base. rewrite Nat.add_comm, Nat.add_sub.
    fold cs in Hi. by rewrite Hi. }
  assert (keys added = map pc_incoming (map (λ a, deref a cm) adds)) as K1.
  { apply commit_keys; [done|]. intros p a Hin. by apply Hb, I1. }
  assert (keys failed = map pc_incoming (map (λ a, deref a cm) fails)) as K2.
  { apply commit_keys; [done|]. intros p a Hin. by apply Hb, I2. }
  rewrite route_all.
  assert (ok (set_plex (sw_htlc_plex s2 ++ added) (set_circuits cm s2)) A (place_all None (keys added) pl)) as H3.
  { apply ok_new; [done | done | | by rewrite K1|].
    - change (sw_circuits s2) with (grow cs (sw_circuits s)). rewrite V2, K1. split; [|done].
      intros k (c & -> & Hc)%list_elem_of_fmap. destruct (N2 c Hc) as [? Hy]. split; [done|]. exists (c, false). split; [done|].
      assert (fresh_circuit c) as [_ _ ? ?]; [|done].
      apply list_elem_of_fmap in Hc as (a & -> & Ha).
      assert (Some a ∈ map p_circuit added) as Hx by (rewrite E1; by apply list_elem_of_fmap_2).
      apply list_elem_of_fmap in Hx as (p & Hpa & Hin). apply I1 in Hin. 
      apply elem_of_with_circuits in Hin as (i & p0 & hash & amount & expiry & records & -> & Hin & Eh & Hi).
      injection Hpa as ->. destruct (Hp p0 Hin) as [_ Hf]. rewrite Eh in Hf. unfold deref. rewrite Hheap. unfold grow. cbn [cm_heap set_heap].
      rewrite list_lookup_total_alt, lookup_app_r by (unfold base; lia). unfold base. rewrite Nat.add_comm, Nat.add_sub.
      fold cs in Hi. rewrite Hi. apply Hf.
    - intros p Hin. destruct (Hb p (I1 p Hin)) as (Ha & [Hpk Hf] & _). split; [|by split]. destruct (p_htlc p); [apply Hf | done..]. }
  exists A, (place_all None (keys added) pl). apply ok_fail_adds; [exact H3|]. intros p Hin.
  assert (in_key p ∈ keys failed) as Hk by (by apply list_elem_of_fmap_2). rewrite K2 in Hk.
  apply list_elem_of_fmap in Hk as (c & Ek & Hc). destruct (N4 c Hc) as (e & He & Ho & Hl). right. rewrite Ek. split.
  - destruct (w_place _ !! pc_incoming c) as [x|] eqn:Ex; [|done].
    destruct (bk_held _ _ _ (so_books _ _ _ _ _ _ _ H3) _ _ Ex) as (_ & e' & He' & Hl' & _). cbn in He'. congruence.
  - exists e. split; [done|]. by rewrite Ho.
Qed.

(** ** Our own payments *)

Lemma spec_commit_one db_ok c m :
  spec_commit db_ok [c] m =
  match m !! pc_incoming c with
  | None => if db_ok then (<[pc_incoming c := (c, false)]> m, OutActions [c] [] [] (Ok ()))
            else (m, OutActions [] [] [c] (Err ErrDatabase))
  | Some e => if has_keystone e.1 || negb (pc_loaded_from_disk e.1) then (m, OutActions [] [c] [] (Ok ()))
              else (m, OutActions [] [] [c] (Ok ()))
  end.
Proof using Type.
  unfold spec_commit, spec_undropped. cbn [foldl]. unfold spec_reconcile. rewrite lookup_empty || idtac.
  destruct (m !! pc_incoming c) as [e|]; [by destruct (_ || _)|]. by destruct db_ok.
Qed.

Lemma ok_send db_ok first_hop id hash amount expiry records s A pl :
  ok s A pl → D !! (source, id) = None →
  fresh_circuit (new_payment_circuit hash (set_amount amount (set_outgoing_chan_id first_hop
    (set_source (source, id) (empty_packet (UpdateAddHTLC hash amount expiry records)))))) →
  ∃ A' pl', ok (send_htlc cfg db_ok first_hop id hash amount expiry records s).1 A' pl'.
Proof using Type.
  intros H Hd Hf. unfold send_htlc. set (p := set_amount _ _) in *.
  destruct (get_local_link p amount expiry records s) as [link|e]; [|by exists A, pl].
  pose proof (dust_same_mail link amount false s) as Hm. destruct (dust_exceeds_fee_threshold cfg link amount false s) as [s1 b].
  cbn [fst] in Hm. assert (ok s1 A pl) as H1 by by eapply ok_same_mail. destruct b; [by exists A, pl|].
  unfold alloc_circuit. set (c := new_payment_circuit hash p) in *.
  destruct (ok_grow [c] s1 A pl H1) as [H2 V2]. unfold grow in H2, V2.
  set (s2 := set_circuits _ s1) in *. set (base := length _).
  pose proof (commit_refines db_ok [c] (sw_circuits s1) (so_circuits _ _ _ _ _ _ _ H1)) as Hc.
  unfold commit_new, new_payment_circuits in Hc. cbn [length seq] in Hc. fold base in Hc.
  change (@cons nat base (@nil nat)) with (@cons addr base (@nil addr)) in Hc.
  change (sw_circuits s2) with (set_heap (cm_heap (sw_circuits s1) ++ [c]) (sw_circuits s1)).
  match goal with |- context [commit_circuits ?b ?l ?x] => destruct (commit_circuits b l x) as [cm [[adds drops fails] r]] end.
  destruct Hc as [Hcm Hs]; [by intros ? ->%list_elem_of_singleton|]. unfold actions_of in Hs. cbn [fa_adds fa_drops fa_fails] in *.
  rewrite spec_commit_one in Hs.
  assert (view cm = view (sw_circuits s1) → ok (set_circuits cm s2) A pl) as Hsame.
  { intros E. apply ok_claims; [done | done|]. intros k. by rewrite E, <-V2. }
  destruct (view (sw_circuits s1) !! pc_incoming c) as [e|] eqn:Ev; [destruct (_ || _)|destruct db_ok].
  - injection Hs as Hv Ha Hdr Hfa <-. destruct drops as [|? []]; try done. exists A, pl. apply Hsame. congruence.
  - injection Hs as Hv Ha Hdr Hfa <-. destruct drops; [|done]. destruct fails as [|? []]; try done. exists A, pl. apply Hsame. congruence.
  - injection Hs as Hv Ha Hdr Hfa <-. destruct drops; [|done]. destruct fails; [|done]. cbn [fa_drops fa_fails length Nat.eqb].
    match goal with |- context [handle_switch_packet link ?q] => set (p' := q) end.
    destruct (switch_packet_mail link p' (set_circuits cm s2) A pl _ (so_tokens _ _ _ _ _ _ _ H2)) as (mo & -> & Hmo); [|done|].
    { change (in_key p') with (pc_incoming c). destruct (pl !! pc_incoming c) eqn:Ep; [|done].
      destruct (held_view _ _ _ _ _ (so_books _ _ _ _ _ _ _ H1) Ep) as [e He].
      change (view (sw_circuits s1) !! pc_incoming c = Some e) in He. congruence. }
    do 2 eexists. apply (ok_new_mail sid_of ls S D s2 cm p' mo (cl_chan_id link) A pl); try done.
    + change (in_key p') with (pc_incoming c). change (sw_circuits s2) with (set_heap (cm_heap (sw_circuits s1) ++ [c]) (sw_circuits s1)).
      rewrite V2, <-Hv. split.
      * intros k ->%list_elem_of_singleton. split; [done|]. exists (c, false). by rewrite lookup_insert_eq.
      * intros k Hk. rewrite lookup_insert_ne; [done|]. intros <-. apply Hk. left.
  - injection Hs as Hv Ha Hdr Hfa <-. exists A, pl. apply Hsame. congruence.
Qed.

(** ** Responses of the chain, and a restart *)

Lemma response_forward_ok p :
  is_response (p_htlc p) = true → p_has_source p = false →
  (∃ q, S !! packet_out_key p = Some (q, status_of (answer_of (p_htlc p)))) → forward_ok p.
Proof using Type.
  intros Hr Hs Hp. unfold forward_ok, packet_ok. destruct (p_htlc p); try done. split; [by right | done].
Qed.

Lemma resolution_ok o r : (∃ q, S !! o = Some (q, status_of r)) → forward_ok (resolution_packet o r).
Proof using Type.
  intros (q & Hq). apply response_forward_ok; destruct r as [r|]; try done; exists q;
    unfold packet_out_key; cbn; by rewrite <-surjective_pairing.
Qed.

Lemma ok_contract db_ok o r s A pl :
  ok s A pl → (∃ q, S !! o = Some (q, status_of r)) → ok (process_contract_resolution cfg db_ok o r s).1 A pl.
Proof using Hsid.
  intros H Ho. unfold process_contract_resolution. destruct db_ok; [|done]. cbn [negb fst].
  assert (ok (set_res_msgs (<[o := r]> (sw_res_msgs s)) s) A pl) as H'.
  { apply ok_res; [done|]. intros o' a [[<- <-]|[_ Hx]]%lookup_insert_Some; [done | by apply (so_res _ _ _ _ _ _ _ H)]. }
  assert (∀ s', response_ok s' pl (resolution_packet o r)) as Hr.
  { intros s'. destruct Ho as (q & Hq). split; [by destruct r|]. cbn. exists q. unfold packet_out_key. cbn.
    rewrite <-surjective_pairing. by destruct r. }
  unfold handle_packet_forward. destruct r as [r|]; cbn [resolution_packet p_htlc]; [by apply ok_settle | by apply ok_fail].
Qed.

Lemma ok_resolutions s A pl : ok s A pl → ∃ A' pl', ok (reforward_resolutions cfg s) A' pl'.
Proof using Type.
  intros H. unfold reforward_resolutions. eapply (ok_forward _ _ A pl).
  - apply ok_res; [done|]. intros o a [Hx _]%map_lookup_filter_Some. by apply (so_res _ _ _ _ _ _ _ H).
  - intros p ([o r] & -> & [Hin _]%elem_of_bfilter)%list_elem_of_fmap. apply resolution_ok.
    apply elem_of_map_to_list in Hin. by apply (so_res _ _ _ _ _ _ _ H).
Qed.

Lemma ok_responses l s A pl :
  ok s A pl → (∀ x, x ∈ l → is_response x.2 = true ∧ ∃ q, S !! x.1 = Some (q, status_of (answer_of x.2))) →
  ∃ A' pl', ok (reforward_fwd_responses cfg l s).1 A' pl'.
Proof using Type.
  intros H Hl. unfold reforward_fwd_responses. cbn [fst]. apply (ok_forward _ _ A pl); [done|].
  intros p ([o m] & -> & [Hin _]%elem_of_bfilter)%list_elem_of_fmap. destruct (Hl _ Hin) as [Hr (q & Hq)].
  apply response_forward_ok; [done | done|]. exists q. unfold packet_out_key. cbn. by rewrite <-surjective_pairing.
Qed.

Lemma ok_settle_fails_again pkgs s A pl :
  ok s A pl →
  (∀ pkg id m, pkg ∈ pkgs → (id, m) ∈ fw_settle_fails pkg → is_response m = true →
     ∃ q, S !! (fw_source pkg, id) = Some (q, status_of (answer_of m))) →
  ∃ A' pl', ok (reforward_settle_fails cfg pkgs s) A' pl'.
Proof using Type.
  unfold reforward_settle_fails. revert s A pl. induction pkgs as [|pkg pkgs IH]; intros s A pl H Hp; cbn [foldl]; [by exists A, pl|].
  destruct (ok_forward (omap (settle_fail_packet pkg) (imap pair (fw_settle_fails pkg))) s A pl H) as (A' & pl' & H').
  - intros p (x & Hx & E)%list_elem_of_omap. apply elem_of_lookup_imap in Hx as (i & [id m] & -> & Hx%list_elem_of_lookup_2).
    unfold settle_fail_packet in E. destruct (fw_filter _ _); [done|]. destruct (is_response m) eqn:Em; [|done]. injection E as <-.
    apply response_forward_ok; [done | done|]. eapply Hp; [left | exact Hx | done].
  - eapply IH; [done|]. intros pkg' id m Hin. apply Hp. by right.
Qed.

(** ** Indexes *)

Lemma ok_remove cid s A pl : ok s A pl → ok (remove_link cid s) A pl.
Proof using Type. intros H. unfold remove_link. destruct (get_link cid s); [by eapply ok_same | done]. Qed.

Lemma update_aliases_same link s :
  sw_circuits (update_link_aliases link s) = sw_circuits s ∧ sw_mail (update_link_aliases link s) = sw_mail s ∧
  sw_htlc_plex (update_link_aliases link s) = sw_htlc_plex s ∧ sw_local (update_link_aliases link s) = sw_local s ∧
  sw_res_msgs (update_link_aliases link s) = sw_res_msgs s.
Proof using Type.
  unfold update_link_aliases. destruct (cl_zero_conf link); [by destruct (cl_confirmed_scid link)|].
  by destruct (cl_negotiated_alias link).
Qed.

Lemma ok_add_link b link s A pl : ok s A pl → ok (add_link b link s).1 A pl.
Proof using Type.
  intros H. unfold add_link. destruct (get_link _ s); [done|].
  set (s1 := set_mail _ s). assert (ok s1 A pl) as H1.
  { apply ok_mail; [done|]. pose proof (get_or_create_shows _ (cl_chan_id link) (cl_short_chan_id link) _ _ (so_mail _ _ _ _ _ _ _ H)) as Hg.
    destruct (get_or_create_mailbox _ _ _) as [mo mb]. apply Hg. }
  destruct b; cbn [negb]; [|by apply ok_remove]. destruct (_ =? source); [by eapply ok_same|].
  cbn [fst]. set (s2 := add_live_link link s1). destruct (update_aliases_same link
    (set_links (sw_pending_link_index s1) (<[cl_chan_id link := link]> (sw_link_index s1))
       (<[cl_short_chan_id link := cl_chan_id link]> (sw_forwarding_index s1))
       (<[cl_peer link := {[cl_chan_id link]} ∪ default ∅ (sw_interface_index s1 !! cl_peer link)]> (sw_interface_index s1)) s1))
    as (E1 & E2 & E3 & E4 & E5).
  assert (ok s2 A pl) as H2 by by eapply ok_same. apply ok_mail; [done|]. apply bind_shows, H2.
Qed.

Lemma ok_scids cid scids s A pl : ok s A pl → ok (add_splice_scids cid scids s).1 A pl.
Proof using Type. intros H. unfold add_splice_scids. destruct (get_link cid s); [by eapply ok_same | done]. Qed.

Lemma ok_alias cid alias s A pl : ok s A pl → ok (add_alias_for_link cid alias s).1 A pl.
Proof using Type.
  intros H. unfold add_alias_for_link. destruct (get_link cid s) as [link|]; [|done]. destruct (negb _); [done|].
  destruct (cl_zero_conf link); by eapply ok_same.
Qed.

Lemma ok_short_chan_id link s A pl : ok s A pl → ok (update_short_chan_id link s).1 A pl.
Proof using Type.
  intros H. unfold update_short_chan_id. destruct (_ !! _); [|done]. destruct (cl_confirmed_scid link); [by eapply ok_same | done].
Qed.
End Steps.
