(* ===== verification/NodeLinks.v ===== *)
(** * Links keep what the node keeps

    What a link does to circuits and mailboxes - it takes an add or refuses it,
   opens circuits, signs, and removes an incoming HTLC - preserves the invariant of
    [NodeInv], and so do the answers of outgoing HTLCs and of our own payments. *)

From S2P Require Import Prelude UpdateLog Tlv CircuitMap CircuitSpec CircuitRefine CircuitRestart Circuits Forwarding Packet Mailbox MailboxProps Switch SwitchMail Node NodeInv NodeSwitch.

Implicit Types (p q : htlc_packet) (k o : circuit_key) (cid : Z) (n : node) (a : answer).

Abbreviation open_all := (foldl (λ (m : circuits) ks, alter (set_keystone (Some (ks_out_key ks))) (ks_in_key ks) m)).

Lemma link_at_insert cid l (ls : links) c : link_at c (<[cid := l]> ls) = if decide (c = cid) then l else link_at c ls.
Proof. unfold link_at. case_decide as E; [subst; by rewrite lookup_insert_eq | by rewrite lookup_insert_ne]. Qed.

Lemma without_key_id k l : k ∉ keys l → without_key k l = l.
Proof.
  intros Hk. apply without_absent. destruct (has_key k l) eqn:E; [|done]. apply has_key_elem in E as (p & Hp & <-).
  destruct Hk. by apply list_elem_of_fmap_2.
Qed.

Lemma without_key_app k l l' : without_key k (l ++ l') = without_key k l ++ without_key k l'.
Proof. apply List.filter_app. Qed.

(** ** Tokens *)

Lemma tokens_unmail ls plex A pl cid p s w :
  tokens_ok ls plex A pl → A cid = (s, p :: w) →
  tokens_ok ls plex (set_at cid (s, w) A) (delete (in_key p) pl) ∧ pl !! in_key p = Some (Some cid) ∧
  in_key p ∉ keys s ∧ in_key p ∉ keys w.
Proof.
  intros [T1 T2 T3 T4 T5 T6] EA. pose proof (T3 cid) as Hn. pose proof (T4 cid) as Hk. pose proof (T5 cid) as Ha.
  rewrite EA in Hn, Hk, Ha. cbn [fst snd] in Hn, Hk, Ha. unfold keys in *. rewrite map_app in Hn. cbn [map] in Hn.
  apply NoDup_app in Hn as (N1 & N2 & [N3 N4]%NoDup_cons).
  assert (in_key p ∉ map in_key s) as N5 by (intros Hx; apply (N2 _ Hx); left).
  assert (pl !! in_key p = Some (Some cid)) as Hp.
  { apply Hk. rewrite map_app. apply elem_of_app. right. left. }
  split; [|done]. split.
  - done.
  - intros k. unfold keys. rewrite T2, lookup_delete_Some. split; [|by intros []]. intros Hx. split; [|done]. congruence.
  - intros c. unfold set_at, keys. case_decide; cbn [fst snd]; [|apply T3]. rewrite map_app. apply NoDup_app. split_and!; [done | | done].
    intros k Hs Hw. apply (N2 k Hs). by right.
  - intros c k. unfold set_at, keys. rewrite lookup_delete_Some. case_decide as Hc; cbn [fst snd].
    + subst c. rewrite <-Hk, !map_app. cbn [map]. rewrite !elem_of_app, elem_of_cons. split; [|naive_solver].
      intros Hx. split; [|naive_solver]. intros <-. destruct Hx; done.
    + rewrite T4. split; [|by intros []]. intros Hx. split; [|done]. congruence.
  - intros c q. unfold set_at. case_decide as Hc; cbn [fst snd]; [|by apply T5]. intros [Hq|Hq]%elem_of_app; apply Ha, elem_of_app;
      [by left | right; by right].
  - intros c. unfold set_at. case_decide as Hc; cbn [fst snd]; [|apply T6]. subst c. by rewrite <-T6, EA.
Qed.

Lemma tokens_push ls plex A pl q :
  tokens_ok ls plex A pl → pl !! in_key q = None → token q = true → tokens_ok ls (plex ++ [q]) A (<[in_key q := None]> pl).
Proof.
  intros [T1 T2 T3 T4 T5 T6] Hn Ht.
  assert (List.filter token (plex ++ [q]) = List.filter token plex ++ [q]) as Ef.
  { rewrite List.filter_app. cbn [List.filter]. by rewrite Ht. }
  split; rewrite ?Ef; try done; unfold keys in *.
  - rewrite map_app. apply NoDup_app. split_and!; [done | | apply NoDup_singleton].
    intros k Hk ->%list_elem_of_singleton. apply T2 in Hk. congruence.
  - intros k. rewrite map_app, elem_of_app, T2, lookup_insert_Some. cbn [map]. rewrite list_elem_of_singleton.
    destruct (decide (in_key q = k)) as [<-|]; [naive_solver | naive_solver].
  - intros c k. rewrite T4, lookup_insert_Some. destruct (decide (in_key q = k)) as [<-|]; [rewrite Hn; naive_solver | naive_solver].
Qed.

(** What is in a mailbox moves up, and is logged. *)
Lemma tokens_take ls plex A pl cid p s w l :
  tokens_ok ls plex A pl → A cid = (s, p :: w) → ls_log l = s ++ [p] →
  tokens_ok (<[cid := l]> ls) plex (set_at cid (s ++ [p], w) A) pl.
Proof.
  intros [T1 T2 T3 T4 T5 T6] EA El.
  assert (∀ c, (set_at cid (s ++ [p], w) A c).1 ++ (set_at cid (s ++ [p], w) A c).2 = (A c).1 ++ (A c).2) as E.
  { intros c. unfold set_at. case_decide as Hc; [|done]. subst c. rewrite EA. cbn [fst snd]. by rewrite <-app_assoc. }
  split; try done.
  - intros c. by rewrite E.
  - intros c k. by rewrite E.
  - intros c q. rewrite E. apply T5.
  - intros c. unfold set_at. rewrite link_at_insert. case_decide; [done | apply T6].
Qed.

Section Links.
Context {KP : CircuitPrims} {TP : TlvPrims} {OP : OnionPrims} (cfg : switch_config).
Context (sid_of : Z → Z) {Hsid : Inj (=) (=) sid_of}.
Abbreviation nok n A pl := (state_ok sid_of (nd_links n) (nd_sent n) (nd_done n) (nd_switch n) A pl).
Abbreviation world n pl := (world_of (nd_switch n) (nd_sent n) (nd_done n) pl).

Lemma held_no_answer ls W k a : books_ok sid_of ls W → is_Some (w_place W !! k) → ¬ answer_ok W k a.
Proof using Type.
  intros B [x Hx] [[y Hy]|[Hn _]]; [|congruence]. destruct (bk_held _ _ _ B _ _ Hx) as [Hd _]. congruence.
Qed.

Lemma box_of n A pl cid mb : nok n A pl → mailbox_of cid n = Some mb → box_shows (truthful (world n pl)) mb (A cid).
Proof using Type. intros H Hm. by apply (ms_box _ _ _ (so_mail _ _ _ _ _ _ _ H)). Qed.

Lemma in_mail_held ls plex A pl cid p : tokens_ok ls plex A pl → p ∈ (A cid).1 ++ (A cid).2 → pl !! in_key p = Some (Some cid).
Proof using Type. intros T Hp. apply (tk_mail _ _ _ _ T). by apply list_elem_of_fmap_2. Qed.

(** No response waits for an add that is on its way. *)
Lemma held_no_response n A pl mb k x q :
  nok n A pl → box_shows (truthful (world n pl)) mb x → is_Some (pl !! k) → q ∈ packets (q_elems (mb_reps mb)) → in_key q ≠ k.
Proof using Type.
  intros H Hb Hk Hq <-. destruct (bs_good _ _ _ Hb q Hq) as [_ Ha]. by eapply held_no_answer; [apply H | | exact Ha].
Qed.

(** An add that is given up. *)
Lemma node_refuse update n A pl cid mb s p w :
  nok n A pl → A cid = (s, p :: w) →
  box_shows (truthful (world n pl)) mb (s ++ [p], w) ∨ box_shows (truthful (world n pl)) mb (s, p :: w) →
  node_ok sid_of (refused cfg (fail_add update p mb) cid n).
Proof using Type.
  intros H EA Hb. pose proof (so_tokens _ _ _ _ _ _ _ H) as T. pose proof (so_books _ _ _ _ _ _ _ H) as B.
  destruct (tokens_unmail _ _ _ _ _ _ _ _ T EA) as (T' & Hpl & Ns & Nw).
  assert (box_shows (truthful (world n pl)) (ack_packet (in_key p) mb).1 (s, w) ∧ (ack_packet (in_key p) mb).2 = true) as [Hb' Hf].
  { assert (∀ x, box_shows (truthful (world n pl)) mb x → ∀ q, q ∈ packets (q_elems (mb_reps mb)) → in_key q ≠ in_key p) as Hno.
    { intros x Hx q. by eapply held_no_response. }
    assert (without_key (in_key p) [p] = []) as Ep by (unfold without_key; cbn; by rewrite bool_decide_eq_true_2).
    destruct Hb as [Hb|Hb]; pose proof (Hno _ Hb) as Hn; apply (ack_shows _ (in_key p)) in Hb;
      destruct (ack_packet (in_key p) mb) as [mb' found]; cbn [fst snd];
      (destruct Hb as [(q & Hq & Hk & _)|(_ & Hb & -> & _)]; [by destruct (Hn q Hq)|]).
    - rewrite without_key_app, Ep, app_nil_r, !without_key_id in Hb by done. split; [done|]. apply has_key_elem. exists p. split; [|done].
      apply elem_of_app. left. apply elem_of_app. right. left.
    - change (p :: w) with ([p] ++ w) in Hb. rewrite without_key_app, Ep, !without_key_id in Hb by done. split; [done|]. apply has_key_elem. exists p. split; [|done].
      apply elem_of_app. right. left. }
  unfold refused, fail_add. destruct (ack_packet (in_key p) mb) as [mb' found]. cbn [fst snd] in Hb', Hf. subst found. cbn [fst snd].
  assert (∀ q, q ∈ ls_log (link_at cid (nd_links n)) → in_key q ≠ in_key p) as Hlog.
  { intros q Hq E. rewrite <-(tk_log _ _ _ _ T), EA in Hq. cbn in Hq. apply Ns. rewrite <-E. by apply list_elem_of_fmap_2. }
  destruct H as [H1 H2 H3 H4 H5 H6 H7].
  destruct (fail_add_packet_of update p) as [q|] eqn:Eq.
  - assert (in_key q = in_key p ∧ token q = true ∧ is_add (p_htlc q) = false ∧ packet_ok (nd_sent n) q) as (Ek & Ht & Ha & Hq).
    { unfold fail_add_packet_of in Eq. destruct (match p_obfuscator p with Some e => _ | None => _ end); [|done]. cbn in Eq.
      injection Eq as <-. split_and!; [done | done | done|]. by left. }
    assert (∀ s, forward_packets cfg true [q] s = route_async q s) as ->.
    { intros s'. unfold forward_packets. cbn [foldl]. unfold first_pass. by destruct (p_htlc q). }
    pose proof (move_advance (view (sw_circuits (nd_switch n))) pl (nd_sent n) (nd_done n) (in_key p) None ltac:(by eexists)) as Ha'.
    exists (set_at cid (s, w) A), (<[in_key p := None]> pl). split; cbn; try done.
    + apply set_mailbox_shows; [eapply mail_shows_mono; [intros x; by apply truthful_advance | done]|].
      eapply box_shows_mono; [intros x; by apply truthful_advance | done].
    + rewrite <-insert_delete_eq, <-Ek. apply tokens_push; [by rewrite Ek | rewrite Ek; by rewrite lookup_delete_eq | done].
    + eapply books_replace with (cid := cid); [done | done | done | by right].
    + intros x [Hx| ->%list_elem_of_singleton]%elem_of_app; [by apply H5 | done].
    + intros x Hx. eapply truthful_advance; [exact Ha' | by apply H6].
  - pose proof (drop_advance (view (sw_circuits (nd_switch n))) pl (nd_sent n) (nd_done n) (in_key p)) as Ha'.
    exists (set_at cid (s, w) A), (delete (in_key p) pl). split; cbn; try done.
    + apply set_mailbox_shows; [eapply mail_shows_mono; [intros x; by apply truthful_advance | done]|].
      eapply box_shows_mono; [intros x; by apply truthful_advance | done].
    + eapply books_drop with (cid := cid); [done | done | done | by right].
    + intros x Hx. eapply truthful_advance; [exact Ha' | by apply H6].
Qed.

(** The mailbox changes, but not what it holds. *)
Lemma node_mailbox n A pl cid mb :
  nok n A pl → box_shows (truthful (world n pl)) mb (A cid) → nok (put_mailbox cid mb n) A pl.
Proof using Type.
  intros H Hb. apply ok_mail; [done|]. eapply mail_shows_ext; [apply set_at_same|]. by apply set_mailbox_shows; [apply H|].
Qed.

(** A link with more adds in its log. *)
Lemma unsigned_log ls cid l o k :
  ls_committed l = ls_committed (link_at cid ls) → ls_opened l = ls_opened (link_at cid ls) →
  (∀ i, (i < ls_opened l)%nat → ls_log l !! i = ls_log (link_at cid ls) !! i) →
  unsigned sid_of (<[cid := l]> ls) o k ↔ unsigned sid_of ls o k.
Proof using Type.
  intros Hc Ho Hl. unfold unsigned, link_out.
  split; intros (c & i & p & H1 & H2 & H3 & H4); exists c, i, p; rewrite ?link_at_insert in *; case_decide; subst;
    rewrite ?Hc, ?Ho, ?Hl in * by lia; done.
Qed.

Lemma books_log ls W cid l :
  books_ok sid_of ls W → ls_committed l = ls_committed (link_at cid ls) → ls_opened l = ls_opened (link_at cid ls) →
  (∀ i, (i < ls_opened l)%nat → ls_log l !! i = ls_log (link_at cid ls) !! i) →
  (ls_opened l ≤ length (ls_log l))%nat → (∀ p, p ∈ ls_log l → w_place W !! in_key p = Some (Some cid)) →
  books_ok sid_of (<[cid := l]> ls) W.
Proof using Type.
  intros [B1 B2 B3 B4 B5 B6 B7 B8] Hc Ho Hl Hle Hp. pose proof (unsigned_log ls cid l) as Hu. split; try done.
  - intros k x Hx. destruct (B1 k x Hx) as (? & e & ? & ? & Hm). split; [done|]. exists e. split_and!; [done | done|].
    intros o. by rewrite Hm, Hu.
  - intros c p. rewrite link_at_insert. case_decide; [subst; apply Hp | apply B2].
  - intros k e o He Hk. rewrite Hu by done. by eapply B3.
  - intros o q st Hs. destruct (B4 o q st Hs) as ((c & ? & ?) & ? & ?). split_and!; [|done | done].
    exists c. rewrite link_at_insert. case_decide; subst; by rewrite ?Hc.
  - intros c. rewrite link_at_insert. case_decide; [subst; rewrite Hc, Ho; destruct (B8 cid) as (? & ? & ?); by rewrite <-Ho at 1 | apply B8].
Qed.

Lemma node_receive cid accepted update n : node_ok sid_of n → node_ok sid_of (link_receive cfg cid accepted update n).
Proof using Type.
  intros (A & pl & H). unfold link_receive. destruct (mailbox_of cid n) as [mb|] eqn:Em; [|by exists A, pl].
  pose proof (box_of _ _ _ _ _ H Em) as Hb. pose proof (courier_shows _ _ _ Hb) as Hc.
  destruct (courier_send (courier_peek mb)) as [mb' [p|]]; [|by exists A, pl].
  destruct Hc as [[Hb' Hp]|(s & w & EA & Hb')].
  - destruct (bs_good _ _ _ Hb p Hp) as [Hr _]. destruct (p_htlc p); try done; exists A, pl; by apply node_mailbox.
  - pose proof (so_tokens _ _ _ _ _ _ _ H) as T.
    assert (p ∈ (A cid).1 ++ (A cid).2) as Hin by (rewrite EA; apply in_mid).
    destruct (tk_adds _ _ _ _ T _ _ Hin) as [-> _]. destruct accepted; [|eapply node_refuse; [done | done | by left]].
    pose proof (tk_log _ _ _ _ T cid) as El. rewrite EA in El. cbn in El.
    change (link_of cid n) with (link_at cid (nd_links n)). set (l := LinkState _ _ _).
    destruct H as [H1 H2 H3 H4 H5 H6 H7]. exists (set_at cid (s ++ [p], w) A), pl. split; cbn; try done.
    + by apply set_mailbox_shows.
    + eapply tokens_take; [done | exact EA|]. cbn. by rewrite <-El.
    + destruct (bk_bounds _ _ _ H4 cid) as (_ & Hle & _). apply books_log; cbn; try done.
      * intros i Hi. apply lookup_app_l. lia.
      * rewrite length_app. lia.
      * intros q Hq. apply (in_mail_held _ _ _ _ cid q T). rewrite EA. cbn. rewrite <-El in Hq.
        apply elem_of_app in Hq as [Hq| ->%list_elem_of_singleton]; apply elem_of_app; [by left | right; left].
Qed.

Lemma node_expire cid update n : node_ok sid_of n → node_ok sid_of (mailbox_expire cfg cid update n).
Proof using Type.
  intros (A & pl & H). unfold mailbox_expire. destruct (mailbox_of cid n) as [mb|] eqn:Em; [|by exists A, pl].
  pose proof (box_of _ _ _ _ _ H Em) as Hb. destruct Hb as [Hbr (sa & wa & Ha & E1 & E2) Hbc Hbg].
  assert (∀ e p, peek (mb_adds mb) = Some (e, p) → ∃ w, A cid = ((A cid).1, p :: w)) as Hw.
  { intros e p. rewrite (peek_ok _ _ _ _ Ha). destruct wa as [|[e' p'] wa]; [done|]. intros [= -> ->]. exists (packets wa).
    destruct (A cid) as [s w]. cbn in E2 |- *. by subst w. }
  assert (∀ r e p, node_ok sid_of (match peek (mb_adds mb) with Some x => n | None => n end) →
    peek (mb_adds mb) = Some (e, p) →
    node_ok sid_of (refused cfg (courier_expire update (set_courier (Some (InHand r (Some (e, p)))) mb)) cid n)) as Hr.
  { intros r e p _ Hp. destruct (Hw e p Hp) as [w EA]. unfold courier_expire. cbn [mb_courier set_courier].
    assert (set_courier None (set_courier (Some (InHand r (Some (e, p)))) mb) = mb) as -> by (destruct mb; cbn in *; by subst).
    eapply node_refuse; [done | done|]. right. rewrite <-EA. split; [done | by exists sa, wa | done | done]. }
  unfold courier_peek. destruct (peek (mb_reps mb)) as [x|], (peek (mb_adds mb)) as [[e p]|]; cbn [mb_courier set_courier];
    rewrite ?Hbc; try (by exists A, pl); apply Hr; try done; by exists A, pl.
Qed.

(** ** Opening *)

Lemma log_nodup ls plex A pl cid : tokens_ok ls plex A pl → NoDup (keys (ls_log (link_at cid ls))).
Proof using Type.
  intros T. pose proof (tk_mail_nodup _ _ _ _ T cid) as Hn. unfold keys in *. rewrite map_app, (tk_log _ _ _ _ T) in Hn.
  by apply NoDup_app in Hn as (? & _).
Qed.

Lemma log_unique ls plex A pl W c c' i j p q :
  tokens_ok ls plex A pl → books_ok sid_of ls W → ls_log (link_at c ls) !! i = Some p → ls_log (link_at c' ls) !! j = Some q →
  in_key p = in_key q → c = c' ∧ i = j ∧ p = q.
Proof using Type.
  intros T B Hp Hq E. pose proof (bk_log _ _ _ B c p (list_elem_of_lookup_2 _ _ _ Hp)) as H1.
  pose proof (bk_log _ _ _ B c' q (list_elem_of_lookup_2 _ _ _ Hq)) as H2. rewrite E in H1. assert (c = c') as <- by congruence.
  pose proof (log_nodup _ _ _ _ c T) as Hn. unfold keys in Hn.
  assert (i = j) as <-; [|split_and!; [done | done | congruence]].
  eapply (NoDup_lookup (map in_key (ls_log (link_at c ls)))); [done | by rewrite list_lookup_fmap, Hp | by rewrite list_lookup_fmap, Hq, E].
Qed.

Definition opening cid (l : link_state) k o : Prop :=
  ∃ i p, ls_log l !! i = Some p ∧ (ls_opened l ≤ i)%nat ∧ in_key p = k ∧ o = link_out sid_of cid l i.

Lemma batch_lookup cid l j ks :
  keystone_batch sid_of cid l !! j = Some ks ↔
  ∃ p, ls_log l !! (ls_opened l + j)%nat = Some p ∧ ks = Keystone (in_key p) (link_out sid_of cid l (ls_opened l + j)).
Proof using Type.
  unfold keystone_batch. rewrite lookup_drop, list_lookup_imap, fmap_Some. done.
Qed.

Lemma elem_of_batch cid l ks :
  ks ∈ keystone_batch sid_of cid l ↔ opening cid l (ks_in_key ks) (ks_out_key ks).
Proof using Type.
  rewrite list_elem_of_lookup. setoid_rewrite batch_lookup. split.
  - intros (j & p & Hp & ->). exists (ls_opened l + j)%nat, p. split_and!; [done | lia | done | done].
  - intros (i & p & Hp & Hi & Ek & Eo). exists (i - ls_opened l)%nat, p.
    replace (ls_opened l + (i - ls_opened l))%nat with i by lia. split; [done|]. destruct ks. cbn in *. by subst.
Qed.

Lemma fresh_batch n A pl cid :
  nok n A pl → ls_committed (link_of cid n) + Z.of_nat (length (ls_log (link_of cid n))) < 2 ^ 64 → sid_of cid ≠ source →
  fresh_keystones (view (sw_circuits (nd_switch n))) (keystone_batch sid_of cid (link_of cid n)).
Proof using Type.
  intros H Hr Hs. change (link_of cid n) with (link_at cid (nd_links n)) in *. set (l := link_at cid (nd_links n)) in *.
  pose proof (so_tokens _ _ _ _ _ _ _ H) as T. pose proof (so_books _ _ _ _ _ _ _ H) as B.
  assert (∀ i j p q, ls_log l !! i = Some p → ls_log l !! j = Some q → in_key p = in_key q → i = j) as Hu.
  { intros i j p q Hp Hq E. by destruct (log_unique _ _ _ _ _ _ _ _ _ _ _ T B Hp Hq E) as (_ & ? & _). }
  split.
  - apply NoDup_alt. intros i j x. rewrite !list_lookup_fmap, !fmap_Some. intros (y & Hy & ->) (z & Hz & E).
    apply batch_lookup in Hy as (p & _ & ->), Hz as (q & _ & ->). unfold link_out in E. cbn in E. injection E as E. lia.
  - apply NoDup_alt. intros i j x. rewrite !list_lookup_fmap, !fmap_Some. intros (y & Hy & ->) (z & Hz & E).
    apply batch_lookup in Hy as (p & Hp & ->), Hz as (q & Hq & ->). pose proof (Hu _ _ _ _ Hp Hq E). lia.
  - intros ks e (i & p & Hp & Hi & Ek & _)%elem_of_batch He. rewrite <-Ek in He.
    destruct (bk_held _ _ _ B _ _ (bk_log _ _ _ B cid p (list_elem_of_lookup_2 _ _ _ Hp))) as (_ & e' & He' & _ & Ho).
    cbn in He'. assert (e' = e) as -> by congruence. destruct (pc_outgoing e.1) as [o|]; [|done].
    destruct (proj1 (Ho o) eq_refl) as (c & j & q & Hq & Hj & _ & Eq).
    destruct (log_unique _ _ _ _ _ _ _ _ _ _ _ T B Hp Hq (eq_sym Eq)) as (<- & <- & _). fold l in Hj. lia.
  - intros ks (i & p & Hp & Hi & _ & Eo)%elem_of_batch. destruct (bk_bounds _ _ _ B cid) as (Hb & _).
    pose proof (lookup_lt_Some _ _ _ Hp). unfold keystone_range. rewrite Eo. unfold link_out. cbn. fold l in Hb. split_and!; [done | lia | lia].
Qed.

Lemma spec_open_view db_ok kss m m' r :
  spec_open db_ok kss m = (m', OutDone r) → m' = match r with Ok _ => open_all m kss | Err _ => m end.
Proof using Type.
  unfold spec_open. destruct kss as [|ks kss]; [by intros [= <- <-]|].
  destruct (omap (spec_openable m) (ks :: kss)); [|by intros [= <- <-]]. destruct db_ok; by intros [= <- <-].
Qed.

Lemma opened_log ls cid o k :
  let l := link_at cid ls in (ls_opened l ≤ length (ls_log l))%nat →
  unsigned sid_of (<[cid := LinkState (ls_committed l) (ls_log l) (length (ls_log l))]> ls) o k ↔
  unsigned sid_of ls o k ∨ opening cid l k o.
Proof using Type.
  intros l Hle. unfold unsigned, opening. split.
  - intros (c & i & p & H1 & H2 & H3 & H4). rewrite link_at_insert in *. case_decide; [|left; by exists c, i, p]. subst c. cbn in *.
    destruct (decide (i < ls_opened l)%nat); [left; exists cid, i, p | right; exists i, p]; split_and!; try done; lia.
  - intros [(c & i & p & H1 & H2 & H3 & H4)|(i & p & H1 & H2 & H3 & H4)].
    + exists c, i, p. rewrite link_at_insert. case_decide; [|done]. subst c. cbn. split_and!; try done. fold l in H2. lia.
    + exists cid, i, p. rewrite link_at_insert, decide_True by done. cbn. split_and!; try done. by eapply lookup_lt_Some.
Qed.

Lemma books_open ls plex A pl V V' S D cid :
  let l := link_at cid ls in let W := World V pl S D in
  tokens_ok ls plex A pl → books_ok sid_of ls W →
  ls_committed l + Z.of_nat (length (ls_log l)) < 2 ^ 64 →
  (∀ k, (∀ o, ¬ opening cid l k o) → V' !! k = V !! k) →
  (∀ k o, opening cid l k o → V' !! k = set_keystone (Some o) <$> V !! k) →
  books_ok sid_of (<[cid := LinkState (ls_committed l) (ls_log l) (length (ls_log l))]> ls) (World V' pl S D) ∧
  advance W (World V' pl S D).
Proof using Hsid.
  intros l W T B Hr Hold Hnew. pose proof B as [B1 B2 B3 B4 B5 B6 B7 B8]. cbn in *.
  destruct (B8 cid) as (Hc0 & Hle & Hc1). fold l in Hc0, Hle, Hc1.
  assert (∀ o k, unsigned sid_of (<[cid := LinkState (ls_committed l) (ls_log l) (length (ls_log l))]> ls) o k ↔
    unsigned sid_of ls o k ∨ opening cid l k o) as Hu by (intros o k; by apply opened_log).
  assert (∀ k o, opening cid l k o → pl !! k = Some (Some cid)) as Hpl.
  { intros k o (i & p & Hp & _ & <- & _). by apply B2, list_elem_of_lookup_2 with i. }
  assert (∀ k o o', opening cid l k o → opening cid l k o' → o = o') as Hun.
  { intros k o o' (i & p & Hp & _ & Ek & ->) (j & q & Hq & _ & Eq & ->).
    destruct (log_unique _ _ _ _ _ _ _ _ _ _ _ T B Hp Hq ltac:(congruence)) as (_ & -> & _). done. }
  assert (∀ k o o', opening cid l k o → ¬ unsigned sid_of ls o' k) as Hno.
  { intros k o o' (i & p & Hp & Hi & Ek & _) (c & j & q & Hq & Hj & _ & Eq).
    destruct (log_unique _ _ _ _ _ _ _ _ _ _ _ T B Hp Hq ltac:(congruence)) as (<- & -> & _). fold l in Hj. lia. }
  assert (∀ k, (∃ o, opening cid l k o) ∨ ∀ o, ¬ opening cid l k o) as Hdec.
  { intros k. destruct (list_find (λ x : nat * htlc_packet, (ls_opened l ≤ x.1)%nat ∧ in_key x.2 = k) (imap pair (ls_log l))) as [[j [i p]]|] eqn:E.
    - apply list_find_Some in E as (E & [Hi Hk] & _). apply list_lookup_imap_Some in E as (q & Hq & [= -> ->]).
      left. exists (link_out sid_of cid l j), j, q. done.
    - right. intros o (i & p & Hp & Hi & Hk & _). apply list_find_None in E. rewrite Forall_forall in E.
      apply (E (i, p)); [|done]. apply list_elem_of_lookup. exists i. by rewrite list_lookup_imap, Hp. }
  split.
  - split; cbn; try done.
    + intros k x Hx. destruct (B1 k x Hx) as (Hd & e & He & Hl & Ho). split; [done|]. destruct (Hdec k) as [[o Hk]|Hk].
      * exists (set_keystone (Some o) e). rewrite (Hnew _ _ Hk), He. split_and!; [done | done|]. intros o'. cbn. rewrite Hu. split.
        -- intros [= ->]. by right.
        -- intros [Hx'|Hx']; [by destruct (Hno _ _ _ Hk Hx')|]. f_equal. by eapply Hun.
      * exists e. rewrite Hold by done. split_and!; [done | done|]. intros o. rewrite Hu, Ho. naive_solver.
    + intros c p. rewrite link_at_insert. case_decide; [subst; cbn; apply B2 | apply B2].
    + intros k e o He Ho. rewrite Hu. destruct (Hdec k) as [[o' Hk]|Hk].
      * rewrite (Hnew _ _ Hk) in He. destruct (V !! k) as [e'|]; [|done]. injection He as <-. cbn in Ho. injection Ho as <-.
        left. by right.
      * rewrite Hold in He by done. destruct (B3 k e o He Ho); [left; by left | by right].
    + intros o q st Hs. destruct (B4 o q st Hs) as ((c & H1 & H2) & Hy & Hm). split_and!; [|done|].
      * exists c. rewrite link_at_insert. by case_decide; subst.
      * intros Hd. destruct (Hm Hd) as (e & He & Ho). exists e. rewrite Hold; [done|]. intros o' Hk.
        destruct (B1 _ _ (Hpl _ _ Hk)) as (_ & e' & He' & _ & Hu'). assert (e' = e) as -> by congruence. apply Hu' in Ho.
        by apply (Hno _ _ _ Hk Ho).
    + intros c. rewrite link_at_insert. case_decide; [subst; cbn; split_and!; [done | lia | lia] | apply B8].
  - split; cbn; try done. intros k e He Hp _. split; [done|]. exists e. rewrite Hold; [done|]. intros o Hk.
    pose proof (Hpl _ _ Hk). congruence.
Qed.

Lemma node_open db_ok cid n :
  node_ok sid_of n → ls_committed (link_of cid n) + Z.of_nat (length (ls_log (link_of cid n))) < 2 ^ 64 → sid_of cid ≠ source →
  node_ok sid_of (link_open sid_of db_ok cid n).
Proof using Hsid.
  intros (A & pl & H) Hr Hs. unfold link_open. pose proof (fresh_batch n A pl cid H Hr Hs) as Hf.
  pose proof (open_refines db_ok _ _ (so_circuits _ _ _ _ _ _ _ H) Hf) as Ho.
  destruct (open_circuits db_ok _ _) as [cm r]. destruct Ho as [Hc Ho]. cbn [spec_op] in Ho. apply spec_open_view in Ho.
  exists A, pl. destruct r as [u|e]; [|apply ok_claims; [done | done | intros k; by rewrite Ho]].
  pose proof H as [H1 H2 H3 H4 H5 H6 H7]. change (link_of cid n) with (link_at cid (nd_links n)) in *.
  destruct (books_open (nd_links n) _ A pl (view (sw_circuits (nd_switch n))) (view cm) (nd_sent n) (nd_done n) cid H3 H4 Hr) as [B Ha].
  { intros k Hk. rewrite Ho. apply open_all_other. intros (ks & -> & Hks)%list_elem_of_fmap. apply elem_of_batch in Hks. by apply (Hk _ Hks). }
  { intros k o Hk. rewrite Ho. change k with (ks_in_key (Keystone k o)). change o with (ks_out_key (Keystone k o)) at 2.
    apply open_all_one; [apply Hf | by apply elem_of_batch]. }
  split; cbn; try done.
  - eapply mail_shows_mono; [intros x; by apply truthful_advance | done].
  - destruct H3 as [T1 T2 T3 T4 T5 T6]. split; try done. intros c. rewrite link_at_insert. case_decide; [subst; apply T6 | apply T6].
  - intros p Hp. eapply truthful_advance; [exact Ha | by apply H6].
Qed.

(** ** Signing *)

Lemma packet_ok_sent (S S' : htlcs) p :
  (∀ o q a, S !! o = Some (q, status_of a) → S' !! o = Some (q, status_of a)) → packet_ok S p → packet_ok S' p.
Proof using Type.
  intros H. unfold packet_ok. destruct (p_htlc p) as [| r | |]; [done | | |done].
  - intros [Hs (q & Hq)]. split; [done|]. exists q. by apply (H o q (Some r)) || apply (H _ q (Some r)).
  - intros [Hs|(q & Hq)]; [by left|]. right. exists q. by apply (H _ q None).
Qed.

Definition signs (sid c : Z) (l : list htlc_packet) (S : htlcs) : htlcs :=
  foldl (λ m x, <[(sid, c + Z.of_nat x.1) := (x.2, InFlight)]> m) S (imap pair l).

Lemma signs_lookup sid c l S o x :
  signs sid c l S !! o = Some x ↔
  (∃ i p, l !! i = Some p ∧ o = (sid, c + Z.of_nat i) ∧ x = (p, InFlight)) ∨
  ((∀ i p, l !! i = Some p → o ≠ (sid, c + Z.of_nat i)) ∧ S !! o = Some x).
Proof using Type.
  unfold signs. revert x. induction l as [|p l IH] using rev_ind; intros x; cbn [imap foldl].
  { split; [intros Hx; by right | intros [(i & p & Hi & _)|[_ Hx]]; done]. }
  rewrite imap_app, foldl_app. cbn [imap foldl fst snd]. rewrite Nat.add_0_r, lookup_insert_Some, IH. split.
  - intros [[<- <-]|[Hne [(i & q & Hi & -> & ->)|[Hn Hx]]]].
    + left. exists (length l), p. by rewrite list_lookup_middle.
    + left. exists i, q. split; [|done]. by apply lookup_app_l_Some.
    + right. split; [|done]. intros i q [Hi|[Hi Hq]]%lookup_app_Some; [by eapply Hn|].
      apply list_lookup_singleton_Some in Hq as [Hq _]. by replace i with (length l) by lia.
  - intros [(i & q & [Hi|[Hi Hq]]%lookup_app_Some & -> & ->)|[Hn Hx]].
    + right. split; [|left; by exists i, q]. intros E. injection E as E. apply lookup_lt_Some in Hi. lia.
    + left. apply list_lookup_singleton_Some in Hq as [Hq ->]. by replace (length l) with i by lia.
    + right. split; [|right; split; [|done]].
      * intros E. apply (Hn (length l) p); [by rewrite list_lookup_middle | done].
      * intros i q Hi. eapply Hn. by apply lookup_app_l_Some.
Qed.

(** The acknowledgements of what is signed. *)
Lemma ack_all (R : htlc_packet → Prop) l cid n A w :
  mail_shows R (sw_mail (nd_switch n)) A → A cid = (l, w) → NoDup (keys (l ++ w)) →
  (∀ q p, R q → p ∈ l → in_key q ≠ in_key p) →
  let n' := foldl (λ n p, ack_in cid (in_key p) n) n l in
  ∃ mo, n' = set_switch (set_mail mo (nd_switch n)) n ∧ mail_shows R mo (set_at cid ([], w) A).
Proof using Type.
  revert n A. induction l as [|p l IH]; intros n A Hm EA Hn HR; cbn [foldl].
  { exists (sw_mail (nd_switch n)). split; [by destruct n as [[]]|]. eapply mail_shows_ext; [|done]. intros c.
    rewrite <-EA. symmetry. apply set_at_same. }
  cbn [app keys map] in Hn. apply NoDup_cons in Hn as [Hp Hn]. fold (keys (l ++ w)) in Hp, Hn.
  unfold ack_in at 2. unfold mailbox_of.
  destruct (mo_mailboxes (sw_mail (nd_switch n)) !! cid) as [mb|] eqn:Em.
  2: { rewrite (ms_none _ _ _ Hm cid Em) in EA. done. }
  pose proof (ms_box _ _ _ Hm cid mb Em) as Hb. rewrite EA in Hb.
  assert (box_shows R (ack_packet (in_key p) mb).1 (l, w)) as Hb'.
  { pose proof (ack_shows _ (in_key p) mb _ _ Hb) as Hk. destruct (ack_packet (in_key p) mb) as [mb' found]. cbn [fst].
    destruct Hk as [(q & Hq & Hk & _)|(_ & Hk & _ & _)]; [by destruct (HR q p (bs_good _ _ _ Hb q Hq) ltac:(left))|].
    change (p :: l) with ([p] ++ l) in Hk. rewrite without_key_app in Hk.
    assert (without_key (in_key p) [p] = []) as Ep by (unfold without_key; cbn; by rewrite bool_decide_eq_true_2).
    unfold keys in Hp. rewrite map_app in Hp. rewrite Ep, !without_key_id in Hk by (intros Hx; apply Hp, elem_of_app; (by left) || (by right)).
    done. }
  pose proof (set_mailbox_shows R cid _ _ _ _ Hm Hb') as Hm'.
  destruct (IH (put_mailbox cid (ack_packet (in_key p) mb).1 n) (set_at cid (l, w) A)) as (mo & E & Hmo).
  - done.
  - unfold set_at. by rewrite decide_True.
  - done.
  - intros q q' Hq Hin. apply HR; [done | by right].
  - exists mo. split; [by rewrite E|]. eapply mail_shows_ext; [|exact Hmo]. intros c. unfold set_at. by case_decide.
Qed.

(** The adds that are not on their way any more. *)
Definition unplace (l : list circuit_key) (pl : places) : places := filter (λ x, x.1 ∉ l) pl.

Lemma lookup_unplace l pl k x : unplace l pl !! k = Some x ↔ k ∉ l ∧ pl !! k = Some x.
Proof using Type. unfold unplace. rewrite map_lookup_filter_Some. naive_solver. Qed.

Lemma unplace_None l pl k : pl !! k = None ∨ k ∈ l → unplace l pl !! k = None.
Proof using Type.
  intros H. destruct (unplace l pl !! k) as [x|] eqn:E; [|done]. apply lookup_unplace in E as [H1 H2]. destruct H; [congruence | done].
Qed.

Lemma tokens_sign ls plex A pl cid l' w :
  tokens_ok ls plex A pl → A cid = (ls_log (link_at cid ls), w) → ls_log l' = [] →
  tokens_ok (<[cid := l']> ls) plex (set_at cid ([], w) A) (unplace (keys (ls_log (link_at cid ls))) pl).
Proof using Type.
  intros [T1 T2 T3 T4 T5 T6] EA El. set (log := ls_log (link_at cid ls)) in *.
  pose proof (T3 cid) as Hn. pose proof (T4 cid) as Hk. pose proof (T5 cid) as Ha. rewrite EA in Hn, Hk, Ha. cbn [fst snd] in Hn, Hk, Ha.
  assert (∀ k, k ∈ keys log → pl !! k = Some (Some cid)) as Hlog.
  { intros k Hx. apply Hk. unfold keys in *. rewrite map_app. apply elem_of_app. by left. }
  unfold keys in Hn. rewrite map_app in Hn. apply NoDup_app in Hn as (N1 & N2 & N3).
  split; try done.
  - intros k. rewrite T2, lookup_unplace. split; [|by intros []]. intros Hx. split; [|done]. intros Hin%Hlog. congruence.
  - intros c. unfold set_at. case_decide; [done | apply T3].
  - intros c k. unfold set_at. rewrite lookup_unplace. case_decide as Hc; cbn [fst snd app].
    + subst c. rewrite <-Hk. unfold keys. rewrite map_app, elem_of_app. split; [|naive_solver].
      intros Hx. split; [|by right]. intros Hy. by apply (N2 k).
    + rewrite T4. split; [|by intros []]. intros Hx. split; [|done]. intros Hin%Hlog. congruence.
  - intros c q. unfold set_at. case_decide as Hc; cbn [fst snd app]; [|by apply T5]. intros Hq. apply Ha, elem_of_app. by right.
  - intros c. unfold set_at. rewrite link_at_insert. by case_decide.
Qed.

Lemma books_sign ls plex A pl V S D cid :
  let l := link_at cid ls in let W := World V pl S D in
  let W' := World V (unplace (keys (ls_log l)) pl) (signs (sid_of cid) (ls_committed l) (ls_log l) S) D in
  tokens_ok ls plex A pl → books_ok sid_of ls W → ls_opened l = length (ls_log l) →
  books_ok sid_of (<[cid := LinkState (ls_committed l + Z.of_nat (length (ls_log l))) [] 0]> ls) W' ∧ advance W W'.
Proof using Hsid.
  intros l W W' T B El. pose proof B as [B1 B2 B3 B4 B5 B6 B7 B8]. unfold W, W' in *. clear W W'. cbn in *.
  set (S' := signs _ _ _ S). set (ls' := <[cid := _]> ls).
  assert (∀ i p, ls_log l !! i = Some p → unsigned sid_of ls (link_out sid_of cid l i) (in_key p)) as Hnew.
  { intros i p Hp. exists cid, i, p. split_and!; [done | | done | done]. fold l. rewrite El. by eapply lookup_lt_Some. }
  assert (∀ o x, S !! o = Some x → S' !! o = Some x) as Hold.
  { intros o x Hx. apply signs_lookup. right. split; [|done]. intros i p Hp ->.
    by apply (signed_not_unsigned sid_of ls _ _ _ _ B Hx (Hnew i p Hp)). }
  assert (∀ o q st, S' !! o = Some (q, st) → S !! o = Some (q, st) ∨
    ∃ i, ls_log l !! i = Some q ∧ o = link_out sid_of cid l i ∧ st = InFlight) as Hinv.
  { intros o q st [(i & p & Hp & -> & [= -> ->])|[_ Hx]]%signs_lookup; [|by left]. right. by exists i. }
  assert (∀ i p, ls_log l !! i = Some p → D !! in_key p = None ∧
    ∃ e, V !! in_key p = Some e ∧ pc_outgoing e.1 = Some (link_out sid_of cid l i)) as Hheld.
  { intros i p Hp. destruct (B1 _ _ (B2 cid p (list_elem_of_lookup_2 _ _ _ Hp))) as (Hd & e & He & _ & Ho).
    split; [done|]. exists e. split; [done|]. by apply Ho, Hnew. }
  assert (∀ o k, unsigned sid_of ls' o k ↔ unsigned sid_of ls o k ∧ k ∉ keys (ls_log l)) as Hu.
  { intros o k. split.
    - intros (c & i & p & H1 & H2 & H3 & H4). unfold ls' in *. rewrite link_at_insert in *. case_decide as Hc; [done|].
      split; [by exists c, i, p|]. intros (q & Eq & (j & Hq)%list_elem_of_lookup)%list_elem_of_fmap.
      by destruct (log_unique _ _ _ _ _ _ _ _ _ _ _ T B H1 Hq ltac:(congruence)).
    - intros [(c & i & p & H1 & H2 & H3 & H4) Hk]. exists c, i, p. unfold ls'. rewrite link_at_insert, decide_False; [done|].
      intros ->. apply Hk. rewrite <-H4. apply list_elem_of_fmap_2. by apply list_elem_of_lookup_2 with i. }
  split.
  - split; cbn.
    + intros k x [Hk Hx]%lookup_unplace. destruct (B1 k x Hx) as (Hd & e & He & Hl & Ho). split; [done|]. exists e.
      split_and!; [done | done|]. intros o. rewrite Hu, Ho. naive_solver.
    + intros c p. unfold ls'. rewrite link_at_insert. case_decide as Hc; [by intros ?%elem_of_nil|]. intros Hp. apply lookup_unplace.
      split; [|by apply B2]. intros (q & Eq & Hq)%list_elem_of_fmap. apply list_elem_of_lookup in Hp as (i & Hi), Hq as (j & Hj).
      by destruct (log_unique _ _ _ _ _ _ _ _ _ _ _ T B Hi Hj Eq).
    + intros k e o He Ho. destruct (B3 k e o He Ho) as [Hx|(q & st & Hs & Hk)]; [|right; exists q, st; split; [by apply Hold | done]].
      destruct (decide (k ∈ keys (ls_log l))) as [Hin|Hin]; [|left; by rewrite Hu]. right.
      apply list_elem_of_fmap in Hin as (p & -> & (i & Hi)%list_elem_of_lookup). destruct (Hheld i p Hi) as (_ & e' & He' & Ho').
      exists p, InFlight. split; [|done]. apply signs_lookup. left. exists i, p. split_and!; [done | | done].
      change (o = link_out sid_of cid l i). congruence.
    + intros o q st [Hs|(i & Hi & -> & ->)]%Hinv.
      * destruct (B4 o q st Hs) as ((c & H1 & H2) & Hy & Hm). split_and!; [|done | done]. exists c. unfold ls'. rewrite link_at_insert.
        case_decide; [subst; cbn; split; [done|]; fold l in H2; lia | done].
      * split_and!; [| |intros _; apply (Hheld i q Hi)].
        -- exists cid. unfold ls'. rewrite link_at_insert, decide_True by done. split; [done|]. cbn.
           apply lookup_lt_Some in Hi. destruct (B8 cid) as (Hc & _). fold l in Hc. lia.
        -- apply (tk_adds _ _ _ _ T cid). apply elem_of_app. left. rewrite (tk_log _ _ _ _ T). by apply list_elem_of_lookup_2 with i.
    + assert (∀ o o' q q' st i, S !! o' = Some (q', st) → ls_log l !! i = Some q → o = link_out sid_of cid l i → in_key q = in_key q' → o = o') as Hx.
      { intros o o' q q' st i Hs Hi -> E. destruct (Hheld i q Hi) as (Hd & e & He & Ho). rewrite E in Hd, He.
        destruct (B4 o' q' st Hs) as (_ & _ & Hm). destruct (Hm Hd) as (e' & He' & Ho'). congruence. }
      intros o o' q q' st st' [Hs|(i & Hi & Eo & _)]%Hinv [Hs'|(j & Hj & Eo' & _)]%Hinv E.
      * by eapply B5.
      * symmetry. by eapply Hx.
      * by eapply Hx.
      * destruct (log_unique _ _ _ _ _ _ _ _ _ _ _ T B Hi Hj E) as (_ & <- & _). congruence.
    + intros o q st [Hs|(i & Hi & _ & _)]%Hinv Hd; [by eapply B6|]. destruct (Hheld i q Hi) as [Hn _]. pose proof (eq_trans (eq_sym Hd) Hn). done.
    + intros k r Hd. destruct (B7 k r Hd) as (o & q & Hs & Hk). exists o, q. split; [by apply Hold | done].
    + intros c. unfold ls'. rewrite link_at_insert. case_decide; [|apply B8]. subst. cbn. destruct (B8 cid) as (X1 & X2 & X3). fold l in X1, X2, X3. lia.
  - split; cbn; try done; [|by intros o q a; apply Hold]. intros k e He Hp _. split; [apply unplace_None; by left | by exists e].
Qed.

Lemma node_sign cid n : node_ok sid_of n → node_ok sid_of (link_sign sid_of cid n).
Proof using Hsid.
  intros (A & pl & H). unfold link_sign. change (link_of cid n) with (link_at cid (nd_links n)). set (l := link_at cid (nd_links n)).
  destruct (Nat.ltb_spec (ls_opened l) (length (ls_log l))) as [|Hle]; [by exists A, pl|].
  destruct H as [H1 H2 H3 H4 H5 H6 H7]. destruct (bk_bounds _ _ _ H4 cid) as (_ & Hle' & _). fold l in Hle'.
  destruct (books_sign (nd_links n) _ A pl _ _ _ cid H3 H4 ltac:(fold l; lia)) as [B Ha]. fold l in B, Ha.
  pose proof (tk_log _ _ _ _ H3 cid) as El. fold l in El. destruct (A cid) as [sent w] eqn:EA. cbn in El. subst sent.
  set (W' := World _ _ _ _) in B, Ha.
  set (n1 := set_link _ _ _).
  destruct (ack_all (truthful (world n pl)) (ls_log l) cid n1 A w H2 EA) as (mo & E & Hmo).
  { pose proof (tk_mail_nodup _ _ _ _ H3 cid) as Hn. by rewrite EA in Hn. }
  { intros q p [_ Hq] Hp Ek. eapply held_no_answer; [exact H4 | | exact Hq]. rewrite Ek. eexists. by apply (bk_log _ _ _ H4 cid). }
  cbn zeta in E. rewrite E. exists (set_at cid ([], w) A), (unplace (keys (ls_log l)) pl). split; cbn; try done.
  - eapply mail_shows_mono; [intros x Hx; eapply truthful_advance; [exact Ha | exact Hx] | done].
  - by apply tokens_sign.
  - intros p Hp. eapply packet_ok_sent; [exact (av_sent _ _ Ha) | by apply H5].
  - intros p Hp. eapply truthful_advance; [exact Ha | by apply H6].
  - intros o a Ho. destruct (H7 o a Ho) as (q & Hq). exists q. by apply (av_sent _ _ Ha).
Qed.

(** ** Answers *)

Lemma books_answer ls V pl S D out p a :
  let W := World V pl S D in let W' := World V pl (<[out := (p, status_of a)]> S) D in
  books_ok sid_of ls W → S !! out = Some (p, InFlight) → books_ok sid_of ls W' ∧ advance W W'.
Proof using Type.
  intros W W' [B1 B2 B3 B4 B5 B6 B7 B8] Ho. unfold W, W' in *. clear W W'. cbn in *. set (S' := <[out := _]> S).
  assert (∀ o q st, S' !! o = Some (q, st) → ∃ st', S !! o = Some (q, st') ∧ (o = out ∨ st' = st)) as Hinv.
  { intros o q st [[<- [= -> <-]]|[_ Hx]]%lookup_insert_Some; [exists InFlight; split; [done | by left] | exists st; split; [done | by right]]. }
  assert (∀ o q st, S !! o = Some (q, st) → ∃ st', S' !! o = Some (q, st')) as Hfor.
  { intros o q st Hs. destruct (decide (o = out)) as [->|Hne].
    - exists (status_of a). unfold S'. rewrite lookup_insert_eq. congruence.
    - exists st. unfold S'. by rewrite lookup_insert_ne. }
  split; [split; cbn; try done|split; cbn; try done].
  - intros k e o He Hk. destruct (B3 k e o He Hk) as [Hx|(q & st & Hs & Eq)]; [by left|]. right.
    destruct (Hfor _ _ _ Hs) as [st' Hs']. by exists q, st'.
  - intros o q st (st' & Hs & _)%Hinv. by apply (B4 o q st').
  - intros o o' q q' st st' (x & Hs & _)%Hinv (y & Hs' & _)%Hinv. by eapply B5.
  - intros o q st (x & Hs & Hx)%Hinv Hd. pose proof (B6 o q x Hs Hd) as E. destruct Hx as [-> | <-]; [|done]. congruence.
  - intros k r Hd. destruct (B7 k r Hd) as (o & q & Hs & Hk). exists o, q. split; [|done]. unfold S'. rewrite lookup_insert_ne; [done|].
    intros <-. congruence.
  - intros k e He Hp _. split; [done | by exists e].
  - intros o q x Hx. unfold S'. rewrite lookup_insert_ne; [done|]. intros <-. rewrite Hx in Ho. by destruct x.
Qed.

Lemma node_answer out a n : node_ok sid_of n → node_ok sid_of (answer_htlc out a n).
Proof using Type.
  intros (A & pl & H). unfold answer_htlc. destruct (nd_sent n !! out) as [[p []]|] eqn:Ho; [|by exists A, pl..].
  destruct H as [H1 H2 H3 H4 H5 H6 H7]. destruct (books_answer _ _ _ _ _ _ _ a H4 Ho) as [B Ha].
  exists A, pl. split; cbn; try done.
  - eapply mail_shows_mono; [intros x Hx; eapply truthful_advance; [exact Ha | exact Hx] | done].
  - intros q Hq. eapply packet_ok_sent; [exact (av_sent _ _ Ha) | by apply H5].
  - intros q Hq. eapply truthful_advance; [exact Ha | by apply H6].
  - intros o x Hx. destruct (H7 o x Hx) as (q & Hq). exists q. by apply (av_sent _ _ Ha).
Qed.

(** An incoming HTLC is done; its circuit may stay or go. *)
Definition with_done k a (D : gmap circuit_key answer) : gmap circuit_key answer :=
  match D !! k with Some _ => D | None => <[k := a]> D end.

Lemma with_done_Some k a D k' x : with_done k a D !! k' = Some x → D !! k' = Some x ∨ D !! k' = None ∧ k' = k ∧ x = a.
Proof using Type.
  unfold with_done. destruct (D !! k) as [y|] eqn:E; [by left|].
  intros [[<- <-]|[Hne Hx]]%lookup_insert_Some; [by right | by left].
Qed.

Lemma with_done_None k a D k' : with_done k a D !! k' = None → D !! k' = None ∧ k' ≠ k.
Proof using Type.
  unfold with_done. destruct (D !! k) as [y|] eqn:E; [|by intros [? ?]%lookup_insert_None].
  intros Hx. split; [done|]. intros ->. congruence.
Qed.

Lemma with_done_mono k a D k' x : D !! k' = Some x → with_done k a D !! k' = Some x.
Proof using Type.
  unfold with_done. destruct (D !! k) as [y|] eqn:E; [done|]. intros Hx. rewrite lookup_insert_ne; [done|]. intros <-. congruence.
Qed.

Lemma books_done ls V V' pl S D k a :
  let W := World V pl S D in let W' := World V' pl S (with_done k a D) in
  books_ok sid_of ls W → answer_ok W k a → (∀ k', k' ≠ k → V' !! k' = V !! k') → V' !! k = None ∨ V' !! k = V !! k →
  books_ok sid_of ls W' ∧ advance W W'.
Proof using Hsid.
  intros W W' B Hans Hv Hk. pose proof B as [B1 B2 B3 B4 B5 B6 B7 B8]. unfold W, W' in *. clear W W'. cbn in *.
  assert (pl !! k = None) as Hnot.
  { destruct (pl !! k) as [x|] eqn:E; [|done]. exfalso. eapply held_no_answer; [exact B | by exists x | exact Hans]. }
  assert (D !! k = None → ∃ e, V !! k = Some e ∧ match pc_outgoing e.1 with None => a = None | Some o => ∃ q, S !! o = Some (q, status_of a) end) as Hopen.
  { intros Hd. destruct Hans as [[x Hx]|[_ He]]; [cbn in Hx; congruence | done]. }
  split; [split; cbn; try done|split; cbn; try done].
  - intros k' x Hx. destruct (B1 k' x Hx) as (Hd & e & He & Hm). assert (k' ≠ k) as Hne by congruence. split.
    + destruct (with_done k a D !! k') as [y|] eqn:E; [|done]. apply with_done_Some in E as [E|(_ & ? & _)]; [congruence | done].
    + exists e. by rewrite Hv.
  - intros k' e o He Ho. apply (B3 k' e); [|done]. destruct (decide (k' = k)) as [->|Hne]; [destruct Hk; congruence | by rewrite <-Hv].
  - intros o q st Hs. destruct (B4 o q st Hs) as (Hc & Hy & Hm). split_and!; [done | done|]. intros [Hd Hne]%with_done_None.
    destruct (Hm Hd) as (e & He & Ho). exists e. by rewrite Hv.
  - intros o q st Hs [Hd|(Hd & Ek & Ea)]%with_done_Some; [by eapply B6|]. destruct (B4 o q st Hs) as (_ & _ & Hm).
    destruct (Hm Hd) as (e & He & Ho). rewrite Ek in Hd, He. destruct (Hopen Hd) as (e' & He' & Hx).
    assert (e' = e) as -> by congruence. rewrite Ho in Hx. destruct Hx as (q' & Hq'). rewrite <-Ea in Hq'. cbn in Hq'. congruence.
  - intros k' r [Hd|(Hd & -> & Ea)]%with_done_Some; [by apply B7|]. destruct (Hopen Hd) as (e & He & Hx). rewrite <-Ea in Hx.
    destruct (pc_outgoing e.1) as [o|] eqn:Ho; [|done]. destruct Hx as (q & Hq). cbn in Hq. exists o, q. split; [done|].
    destruct (B3 k e o He Ho) as [Hu|(q' & st & Hs & Eq)]; [|congruence]. by destruct (signed_not_unsigned sid_of ls _ _ _ _ B Hq Hu).
  - intros k' e He Hp [Hd Hne]%with_done_None. split; [done|]. exists e. by rewrite Hv.
  - intros k' [x Hx]. exists x. by apply with_done_mono.
Qed.

Lemma delete_view db_ok k cm :
  circuits_ok cm →
  let '(cm', r) := delete_circuits db_ok [k] cm in
  circuits_ok cm' ∧ (∀ k', k' ≠ k → view cm' !! k' = view cm !! k') ∧ (view cm' !! k = None ∨ view cm' !! k = view cm !! k).
Proof using Type.
  intros H. pose proof (delete_refines db_ok [k] cm H) as Hd. destruct (delete_circuits db_ok [k] cm) as [cm' r].
  destruct Hd as [Hc Hd]. split; [done|]. destruct db_ok; cbn in Hd; injection Hd as <- _.
  - split; [intros k' Hne; by rewrite lookup_delete_ne | left; by rewrite lookup_delete_eq].
  - split; [done | by right].
Qed.

Lemma done_node k a n : nd_done (note_done k a n) = with_done k a (nd_done n) ∧ nd_switch (note_done k a n) = nd_switch n ∧
  nd_links (note_done k a n) = nd_links n ∧ nd_sent (note_done k a n) = nd_sent n.
Proof using Type. unfold note_done, with_done. by destruct (nd_done n !! k). Qed.

(** The HTLC to which a response was taken is done. *)
Lemma state_done n A pl k a s cm :
  nok n A pl → answer_ok (world n pl) k a → circuits_ok cm →
  (∀ k', k' ≠ k → view cm !! k' = view (sw_circuits (nd_switch n)) !! k') →
  view cm !! k = None ∨ view cm !! k = view (sw_circuits (nd_switch n)) !! k →
  sw_circuits s = cm → sw_mail s = sw_mail (nd_switch n) → sw_htlc_plex s = sw_htlc_plex (nd_switch n) →
  (∀ p, p ∈ sw_local s → p ∈ sw_local (nd_switch n)) → sw_res_msgs s = sw_res_msgs (nd_switch n) →
  state_ok sid_of (nd_links n) (nd_sent n) (with_done k a (nd_done n)) s A pl.
Proof using Hsid.
  intros [H1 H2 H3 H4 H5 H6 H7] Ha Hc Hv Hk <- E2 E3 E4 E5.
  destruct (books_done _ _ _ _ _ _ k a H4 Ha Hv Hk) as [B Hadv]. split; rewrite ?E2, ?E3, ?E5; try done.
  - eapply mail_shows_mono; [intros x Hx; eapply truthful_advance; [exact Hadv | exact Hx] | done].
  - intros p Hp%E4. eapply truthful_advance; [exact Hadv | by apply H6].
Qed.

Lemma response_to_elem R k mb x p :
  box_shows R mb x → response_to k mb = Some p → p ∈ packets (q_elems (mb_reps mb)) ∧ in_key p = k.
Proof using Type.
  intros [(s & w & Hq) _ _ _]. unfold response_to. destruct (q_index (mb_reps mb) !! k) as [e|] eqn:E; [|done]. cbn.
  unfold elem_packet. destruct (List.find _ (q_elems (mb_reps mb))) as [[e' p']|] eqn:Ef; [|done]. intros [= ->].
  apply List.find_some in Ef as [Hin Ee]. apply list_elem_of_In in Hin. apply Nat.eqb_eq in Ee. cbn in Ee. subst e'.
  apply (qo_index _ _ _ _ Hq) in E as (p' & Hp' & Hk). assert (p = p') as -> by (eapply elem_unique; [apply Hq | done | done]).
  split; [|done]. by apply (list_elem_of_fmap_2 snd _ (e, p')).
Qed.

Lemma node_complete db_ok cid k n : node_ok sid_of n → node_ok sid_of (link_complete db_ok cid k n).
Proof using Hsid.
  intros (A & pl & H). unfold link_complete. destruct (mailbox_of cid n) as [mb|] eqn:Em; [|by exists A, pl]. cbn [mbind option_bind].
  destruct (response_to k mb) as [p|] eqn:Ep; [|by exists A, pl].
  pose proof (box_of _ _ _ _ _ H Em) as Hb. destruct (response_to_elem _ _ _ _ _ Hb Ep) as [Hin <-].
  destruct (bs_good _ _ _ Hb p Hin) as [_ Ha].
  destruct (done_node (in_key p) (answer_of (p_htlc p)) n) as (E1 & E2 & E3 & E4).
  set (n1 := note_done _ _ n) in *. rewrite E2.
  pose proof (delete_view db_ok (in_key p) _ (so_circuits _ _ _ _ _ _ _ H)) as Hd.
  destruct (delete_circuits db_ok _ _) as [cm r]. destruct Hd as (Hc & Hv & Hk).
  set (n2 := set_switch _ n1).
  assert (nok n2 A pl) as H2.
  { unfold n2. cbn. rewrite E1, E3, E4. by eapply state_done. }
  destruct r as [u|e]; [|by exists A, pl]. exists A, pl. unfold ack_in. 
  assert (mailbox_of cid n2 = Some mb) as Em2 by exact Em. rewrite Em2.
  apply node_mailbox; [done|]. pose proof (box_of _ _ _ _ _ H2 Em2) as Hb2.
  destruct (A cid) as [s w]. pose proof (ack_shows _ (in_key p) mb s w Hb2) as Hack.
  destruct (ack_packet (in_key p) mb) as [mb' found]. cbn [fst].
  destruct Hack as [(q & _ & _ & _ & Hx & _)|(Hn & _)]; [done|]. by destruct (Hn p Hin).
Qed.

Lemma node_local i store_ok ack_ok db_ok n : node_ok sid_of n → node_ok sid_of (local_response i store_ok ack_ok db_ok n).
Proof using Hsid.
  intros (A & pl & H). unfold local_response. destruct (sw_local (nd_switch n) !! i) as [p|] eqn:Ei; [|by exists A, pl].
  assert (∀ q, q ∈ delete i (sw_local (nd_switch n)) → q ∈ sw_local (nd_switch n)) as Hdel.
  { intros q (j & Hj)%list_elem_of_lookup. rewrite list_lookup_delete in Hj. case_decide; by eapply list_elem_of_lookup_2. }
  destruct (so_local _ _ _ _ _ _ _ H p (list_elem_of_lookup_2 _ _ _ Ei)) as [Hr Ha]. exists A, pl.
  set (s := set_local _ _). set (n1 := set_switch _ n). destruct store_ok.
  2: { apply ok_local; [done|]. intros q Hq. by apply (so_local _ _ _ _ _ _ _ H), Hdel. }
  destruct (done_node (in_key p) (answer_of (p_htlc p)) n1) as (E1 & E2 & E3 & E4). rewrite E1, E2, E3, E4.
  unfold n1. cbn [set_switch nd_switch nd_links nd_sent nd_done]. unfold handle_local_response. cbn [negb].
  set (s1 := set_network_results _ s).
  assert (∀ s2, sw_circuits s2 = sw_circuits s1 → sw_mail s2 = sw_mail s1 → sw_htlc_plex s2 = sw_htlc_plex s1 → sw_local s2 = sw_local s1 →
    sw_res_msgs s2 = sw_res_msgs s1 →
    state_ok sid_of (nd_links n) (nd_sent n) (with_done (in_key p) (answer_of (p_htlc p)) (nd_done n)) (teardown_circuit db_ok p s2).1 A pl) as Ht.
  { intros s2 F1 F2 F3 F4 F5. unfold teardown_circuit. rewrite Hr, F1.
    pose proof (delete_view db_ok (in_key p) _ (so_circuits _ _ _ _ _ _ _ H)) as Hd. change (sw_circuits s1) with (sw_circuits (nd_switch n)).
    destruct (delete_circuits db_ok _ _) as [cm r]. destruct Hd as (Hc & Hv & Hk).
    destruct r as [u|e]; cbn [fst]; (eapply state_done; [done | done | exact Hc | done | done | done | exact F2 | exact F3 | | exact F5]);
      cbn; rewrite F4; apply Hdel. }
  destruct (p_dest_ref p) as [ref|]; [destruct ack_ok; cbn [negb]; [by apply Ht|] | by apply Ht].
  eapply state_done; [done | done | apply H | done | by right | done | done | done | done | done].
Qed.
End Links.
