(* ===== verification/NodeRestart.v ===== *)
(** * Restarts keep what the node keeps

    A link that restarts, and a node that restarts, trim the circuits that are
    open behind the commitments of the channels; all that was signed stays. *)

From S2P Require Import Prelude UpdateLog Tlv CircuitMap CircuitSpec CircuitRefine CircuitRestart Circuits Forwarding Packet Mailbox MailboxProps Switch SwitchMail Node NodeInv NodeSwitch NodeLinks.

Implicit Types (p q : htlc_packet) (k o : circuit_key) (cid : Z) (n : node) (a : answer).

Section Restarts.
Context {KP : CircuitPrims} (sid_of : Z → Z) {Hsid : Inj (=) (=) sid_of}.
Abbreviation nok n A pl := (state_ok sid_of (nd_links n) (nd_sent n) (nd_done n) (nd_switch n) A pl).
Abbreviation world n pl := (world_of (nd_switch n) (nd_sent n) (nd_done n) pl).

(** ** Trimming *)

Section Trim.
Context (ls : links) (m0 : circuits).
Context (Hkey : ∀ k e o, m0 !! k = Some e → pc_outgoing e.1 = Some o →
  unsigned sid_of ls o k ∨ ∃ c, o.1 = sid_of c ∧ o.2 < ls_committed (link_at c ls)).
Context (Hopen : ∀ o k, unsigned sid_of ls o k → ∃ e, m0 !! k = Some e ∧ pc_outgoing e.1 = Some o).
Context (Hle : ∀ c, (ls_opened (link_at c ls) ≤ length (ls_log (link_at c ls)))%nat).

Definition behind (o : circuit_key) (c : Z) : Prop := o.1 = sid_of c ∧ ls_committed (link_at c ls) ≤ o.2.

(** The circuits, when the channels [C] are trimmed. *)
Record trimmed (C : list Z) (m : circuits) : Prop := {
  tr_none k : m0 !! k = None → m !! k = None;
  tr_some k e : m0 !! k = Some e → ∃ e', m !! k = Some e' ∧ pc_loaded_from_disk e'.1 = pc_loaded_from_disk e.1 ∧
    ∀ o, pc_outgoing e'.1 = Some o ↔ pc_outgoing e.1 = Some o ∧ ∀ c, c ∈ C → ¬ behind o c;
}.

Lemma trimmed_nil : trimmed [] m0.
Proof using Type.
  split; [done|]. intros k e He. exists e. split_and!; [done | done|]. intros o. split; [|by intros []].
  intros Ho. split; [done|]. by intros c ?%elem_of_nil.
Qed.

Lemma trimmed_cons C m cid : trimmed C m → trimmed (cid :: C) (spec_trim (sid_of cid) (ls_committed (link_at cid ls)) m).
Proof using Hsid Hkey Hopen Hle.
  intros [H1 H2]. split.
  - intros k Hk. unfold spec_trim. by rewrite lookup_fmap, H1.
  - intros k e He. destruct (H2 k e He) as (e' & He' & Hl & Ho). unfold spec_trim. rewrite lookup_fmap, He'. cbn.
    set (x := match pc_outgoing e'.1 with Some out => _ | None => e' end). exists x. split; [done|].
    assert (∀ o, (∀ c, c ∈ cid :: C → ¬ behind o c) ↔ ¬ behind o cid ∧ ∀ c, c ∈ C → ¬ behind o c) as Hcons.
    { intros o. setoid_rewrite elem_of_cons. naive_solver. }
    unfold x. destruct (pc_outgoing e'.1) as [o'|] eqn:Eo.
    2: { split; [done|]. intros o. rewrite Eo, Hcons. split; [done|]. intros (Hx & _ & Hc). by apply Ho. }
    assert (pc_outgoing e.1 = Some o' ∧ ∀ c, c ∈ C → ¬ behind o' c) as [Eo' Hc] by by apply Ho.
    destruct (in_run m (sid_of cid) _ o') eqn:Er.
    + split; [done|]. intros o. cbn. rewrite Hcons. split; [done|]. intros (Hx & Hn & _). exfalso. apply Hn.
      assert (o = o') as -> by congruence. unfold in_run in Er. rewrite !andb_true_iff, Z.eqb_eq, Z.leb_le in Er. by destruct Er as [[? ?] _].
    + split; [done|]. intros o. rewrite Eo, Hcons, Eo'. split; [|by intros (? & _)]. intros [= <-]. split_and!; [done | | done].
      intros [Hb1 Hb2]. destruct (Hkey k e o' He Eo') as [(c & i & p & Hi & Hlt & Hol & Hk)|(c & Hc1 & Hc2)].
      2: { assert (c = cid) as -> by (apply Hsid; congruence). lia. }
      rewrite Hol in Hb1. unfold link_out in Hb1. cbn in Hb1. apply Hsid in Hb1 as ->.
      enough (in_run m (sid_of cid) (ls_committed (link_at cid ls)) o' = true) by congruence.
      unfold in_run. rewrite !andb_true_iff, Z.eqb_eq, Z.leb_le. split_and!; [by rewrite Hol | done|].
      apply forallb_forall. intros y Hy%list_elem_of_In. apply elem_of_seqZ in Hy. rewrite Hol in Hy. cbn in Hy.
      apply bool_decide_eq_true. destruct (find_open (sid_of cid, y) m) as [z|] eqn:Ef; [by exists z|]. exfalso.
      set (j := Z.to_nat (y - ls_committed (link_at cid ls))). assert (j < i)%nat as Hj by lia.
      destruct (lookup_lt_is_Some_2 (ls_log (link_at cid ls)) j) as [q Hq]; [specialize (Hle cid); lia|].
      assert (link_out sid_of cid (link_at cid ls) j = (sid_of cid, y)) as Ey by (unfold link_out; f_equal; lia).
      assert (unsigned sid_of ls (sid_of cid, y) (in_key q)) as Hu by (exists cid, j, q; split_and!; [done | lia | done | done]).
      destruct (Hopen _ _ Hu) as (eq & Heq & Hoq). destruct (H2 _ _ Heq) as (eq' & Heq' & _ & Hoq').
      rewrite find_open_None in Ef. apply (Ef _ _ Heq'). apply Hoq'. split; [done|]. intros c Hin [Hx1 Hx2]. cbn in Hx1.
      apply Hsid in Hx1 as <-. apply (Hc cid Hin). split; [by rewrite Hol | done].
Qed.
End Trim.

Lemma books_key ls W k e o :
  books_ok sid_of ls W → w_view W !! k = Some e → pc_outgoing e.1 = Some o →
  unsigned sid_of ls o k ∨ ∃ c, o.1 = sid_of c ∧ o.2 < ls_committed (link_at c ls).
Proof using Type.
  intros B He Ho. destruct (bk_keystone _ _ _ B _ _ _ He Ho) as [Hu|(q & st & Hs & _)]; [by left|].
  destruct (bk_sent _ _ _ B _ _ _ Hs) as ((c & H1 & H2) & _). right. exists c. split; [done | lia].
Qed.

Lemma books_unsigned ls W k o :
  books_ok sid_of ls W → unsigned sid_of ls o k → ∃ e, w_view W !! k = Some e ∧ pc_outgoing e.1 = Some o.
Proof using Type.
  intros B Hu. destruct (unsigned_held sid_of ls W o k B Hu) as [c Hc]. destruct (bk_held _ _ _ B _ _ Hc) as (_ & e & He & _ & Ho).
  exists e. split; [done | by apply Ho].
Qed.

Lemma unsigned_behind ls o k : unsigned sid_of ls o k → ∃ c, behind ls o c ∧ (0 < ls_opened (link_at c ls))%nat.
Proof using Type. intros (c & i & p & _ & Hi & -> & _). exists c. unfold behind, link_out. cbn. split; [split; [done | lia] | lia]. Qed.

Lemma signed_not_behind ls W o q st c : books_ok sid_of ls W → w_sent W !! o = Some (q, st) → ¬ behind ls o c.
Proof using Hsid.
  intros B Hs [H1 H2]. destruct (bk_sent _ _ _ B _ _ _ Hs) as ((c' & H3 & H4) & _).
  assert (c' = c) as -> by (apply Hsid; congruence). lia.
Qed.

(** ** A link *)

Lemma unsigned_reset ls cid o k :
  unsigned sid_of (<[cid := LinkState (ls_committed (link_at cid ls)) [] 0]> ls) o k ↔ unsigned sid_of ls o k ∧ ¬ behind ls o cid.
Proof using Hsid.
  unfold unsigned, behind, link_out. split.
  - intros (c & i & p & H1 & H2 & H3 & H4). rewrite link_at_insert in *. case_decide as Hc; [done|]. split; [by exists c, i, p|].
    intros [Hs _]. rewrite H3 in Hs. cbn in Hs. by apply Hsid in Hs.
  - intros [(c & i & p & H1 & H2 & H3 & H4) Hn]. exists c, i, p. rewrite link_at_insert, decide_False; [done|].
    intros ->. apply Hn. rewrite H3. cbn. split; [done | lia].
Qed.

Lemma books_reset ls V V' pl S D cid :
  let W := World V pl S D in let W' := World V' pl S D in
  books_ok sid_of ls W → trimmed ls V [cid] V' →
  books_ok sid_of (<[cid := LinkState (ls_committed (link_at cid ls)) [] 0]> ls) W' ∧ advance W W'.
Proof using Hsid.
  intros W W' B [T1 T2]. pose proof B as [B1 B2 B3 B4 B5 B6 B7 B8]. unfold W, W' in *. clear W W'. cbn in *.
  set (ls' := <[cid := _]> ls).
  assert (∀ o k, unsigned sid_of ls' o k ↔ unsigned sid_of ls o k ∧ ¬ behind ls o cid) as Hu by (intros; apply unsigned_reset).
  assert (∀ P : Z → Prop, (∀ c, c ∈ [cid] → P c) ↔ P cid) as H1.
  { intros P. setoid_rewrite list_elem_of_singleton. naive_solver. }
  split; [split; cbn; try done|split; cbn; try done].
  - intros k x Hx. destruct (B1 k x Hx) as (Hd & e & He & Hl & Ho). split; [done|].
    destruct (T2 k e He) as (e' & He' & Hl' & Ho'). exists e'. split_and!; [done | congruence|]. intros o. by rewrite Ho', Hu, Ho, H1.
  - intros c p. unfold ls'. rewrite link_at_insert. case_decide; [by intros ?%elem_of_nil | apply B2].
  - intros k e' o He' Ho'. destruct (V !! k) as [e|] eqn:He; [|rewrite T1 in He' by done; done].
    destruct (T2 k e He) as (e'' & He'' & _ & Ho). assert (e'' = e') as -> by congruence. destruct (proj1 (Ho o) Ho') as [Hx Hn].
    rewrite Hu, H1 in *. destruct (B3 k e o He Hx); [by left | by right].
  - intros o q st Hs. destruct (B4 o q st Hs) as ((c & ? & ?) & Hy & Hm). split_and!; [|done|].
    + exists c. unfold ls'. rewrite link_at_insert. by case_decide; subst.
    + intros Hd. destruct (Hm Hd) as (e & He & Ho). destruct (T2 _ e He) as (e' & He' & _ & Ho'). exists e'. split; [done|].
      apply Ho'. split; [done|]. apply H1. by apply (signed_not_behind _ _ _ _ _ _ B Hs).
  - intros c. unfold ls'. rewrite link_at_insert. case_decide; [|apply B8]. subst. cbn. destruct (B8 cid). lia.
  - intros k e He Hp _. split; [done|]. destruct (T2 k e He) as (e' & He' & _ & Ho'). exists e'. split; [done|].
    destruct (pc_outgoing e.1) as [o|] eqn:Eo.
    + apply Ho'. split; [done|]. apply H1. destruct (B3 k e o He Eo) as [Hx|(q & st & Hs & _)]; [|by apply (signed_not_behind _ _ _ _ _ _ B Hs)].
      destruct (unsigned_held sid_of ls _ o k B Hx) as [c Hc]. cbn in Hc. congruence.
    + destruct (pc_outgoing e'.1) as [o|]; [|done]. by destruct (proj1 (Ho' o) eq_refl).
Qed.

Lemma node_link_restart cid n : node_ok sid_of n → node_ok sid_of (link_restart sid_of true cid n).
Proof using Hsid.
  intros (A & pl & H). unfold link_restart. change (link_of cid n) with (link_at cid (nd_links n)).
  set (l := link_at cid (nd_links n)). set (n1 := match mailbox_of cid n with Some _ => _ | None => n end).
  assert (∃ mo, n1 = set_switch (set_mail mo (nd_switch n)) n ∧
    mail_shows (truthful (world n pl)) mo (set_at cid ([], (A cid).1 ++ (A cid).2) A)) as (mo & E & Hmo).
  { unfold n1, mailbox_of. destruct (mo_mailboxes _ !! cid) as [mb|] eqn:Em.
    - eexists. split; [done|]. apply set_mailbox_shows; [apply H|]. apply reset_shows.
      rewrite <-surjective_pairing. by apply (ms_box _ _ _ (so_mail _ _ _ _ _ _ _ H)).
    - exists (sw_mail (nd_switch n)). split; [by destruct n as [[]]|]. pose proof (ms_none _ _ _ (so_mail _ _ _ _ _ _ _ H) cid Em) as EA.
      eapply mail_shows_ext; [|apply H]. intros c. unfold set_at. case_decide as Hc; [|done]. subst c. by rewrite EA. }
  rewrite E. clear E n1. cbn [nd_switch set_switch sw_circuits set_mail].
  destruct H as [H1 H2 H3 H4 H5 H6 H7]. destruct (bk_bounds _ _ _ H4 cid) as (Hb1 & Hb2 & Hb3). fold l in Hb1, Hb2, Hb3.
  pose proof (trim_refines (sid_of cid) (ls_committed l) _ H1 ltac:(in_range)) as Ht.
  destruct (trim_open_circuits true _ _ _) as [cm r]. destruct Ht as (Hc & _ & Hv).
  assert (trimmed (nd_links n) (view (sw_circuits (nd_switch n))) [cid] (view cm)) as Htr.
  { rewrite Hv. apply trimmed_cons; [intros k e o; by apply (books_key _ _ _ _ _ H4) | intros o k; by apply (books_unsigned _ _ _ _ H4)
      | intros c; by destruct (bk_bounds _ _ _ H4 c) as (_ & ? & _) | apply trimmed_nil]. }
  destruct (books_reset _ _ _ _ _ _ cid H4 Htr) as [B Ha]. fold l in B.
  exists (set_at cid ([], (A cid).1 ++ (A cid).2) A), pl. split; cbn; try done.
  - eapply mail_shows_mono; [intros x Hx; eapply truthful_advance; [exact Ha | exact Hx] | done].
  - assert (∀ c, (set_at cid ([], (A cid).1 ++ (A cid).2) A c).1 ++ (set_at cid ([], (A cid).1 ++ (A cid).2) A c).2 = (A c).1 ++ (A c).2) as EA.
    { intros c. unfold set_at. case_decide as Hx; [by subst c | done]. }
    destruct H3 as [T1 T2 T3 T4 T5 T6]. split; try done.
    + intros c. by rewrite EA.
    + intros c k. by rewrite EA.
    + intros c p. rewrite EA. apply T5.
    + intros c. unfold set_at. rewrite link_at_insert. case_decide; [done | apply T6].
  - intros p Hp. eapply truthful_advance; [exact Ha | by apply H6].
Qed.

(** ** The node *)

Lemma trim_channels_all ls m0 (channels : list (bool * Z * result circuit_error Z)) C m :
  (∀ k e o, m0 !! k = Some e → pc_outgoing e.1 = Some o →
    unsigned sid_of ls o k ∨ ∃ c, o.1 = sid_of c ∧ o.2 < ls_committed (link_at c ls)) →
  (∀ o k, unsigned sid_of ls o k → ∃ e, m0 !! k = Some e ∧ pc_outgoing e.1 = Some o) →
  (∀ c, (ls_opened (link_at c ls) ≤ length (ls_log (link_at c ls)))%nat) →
  (∀ b sid start, (b, sid, Ok start) ∈ channels → ∃ cid, sid = sid_of cid ∧ start = ls_committed (link_at cid ls)) →
  (∀ c, sid_of c ≠ source) → trimmed ls m0 C m →
  ∃ C', trimmed ls m0 C' (foldl spec_trim_channel m channels) ∧ (∀ c, c ∈ C → c ∈ C') ∧
    ∀ c, (false, sid_of c, Ok (ls_committed (link_at c ls))) ∈ channels → c ∈ C'.
Proof using Hsid.
  intros K1 K2 K3 Hn Hs. revert C m. induction channels as [|[[b sid] r] channels IH]; intros C m Ht; cbn [foldl].
  { exists C. split_and!; [done | done | by intros ? ?%elem_of_nil]. }
  assert (∀ b sid start, (b, sid, Ok start) ∈ channels → ∃ cid, sid = sid_of cid ∧ start = ls_committed (link_at cid ls)) as Hn'.
  { intros b' sid' start Hin. apply (Hn b'). by right. }
  assert ((∀ c, (b, sid, r) ≠ (false, sid_of c, Ok (ls_committed (link_at c ls)))) → spec_trim_channel m (b, sid, r) = m →
    ∃ C', trimmed ls m0 C' (foldl spec_trim_channel (spec_trim_channel m (b, sid, r)) channels) ∧ (∀ c, c ∈ C → c ∈ C') ∧
    ∀ c, (false, sid_of c, Ok (ls_committed (link_at c ls))) ∈ (b, sid, r) :: channels → c ∈ C') as Hskip.
  { intros Hne ->. destruct (IH Hn' C m Ht) as (C' & H1 & H2 & H3). exists C'. split_and!; [done | done|].
    intros c [E|Hin]%elem_of_cons; [by destruct (Hne c) | by apply H3]. }
  destruct b; [by apply Hskip|]. destruct r as [start|e]; [|by apply Hskip].
  destruct (Hn false sid start ltac:(left)) as (cid & -> & ->). cbn [spec_trim_channel].
  destruct (Z.eqb_spec (sid_of cid) source) as [E|_]; [by destruct (Hs cid)|].
  destruct (IH Hn' (cid :: C) (spec_trim (sid_of cid) (ls_committed (link_at cid ls)) m)) as (C' & H1 & H2 & H3); [by apply trimmed_cons|].
  exists C'. split_and!; [done | intros c Hc; apply H2; by right|]. intros c [E|Hin]%elem_of_cons; [|by apply H3].
  injection E as E _. apply Hsid in E as ->. apply H2. left.
Qed.

Lemma survives_open (env : restart_env) (m : circuits) : filter (λ x : circuit_key * entry, survives env ∅ x.2.1 = true) m = m.
Proof using Type. apply survives_nobody. Qed.

Lemma link_at_fmap (f : link_state → link_state) cid ls : f new_link = new_link → link_at cid (f <$> ls) = f (link_at cid ls).
Proof using Type. intros E. unfold link_at. rewrite lookup_fmap. by destruct (ls !! cid). Qed.

Lemma node_restart (env : restart_env) (height : Z) n :
  (∀ c, sid_of c ≠ source) → node_ok sid_of n → restarts sid_of n env → node_ok sid_of (restart_node env height n).
Proof using Hsid.
  intros Hs (A & pl & H) [R1 R2 R3]. unfold restart_node. destruct (new_circuit_map env _) as [cm|] eqn:Ecm; [|by exists A, pl].
  destruct H as [H1 H2 H3 H4 H5 H6 H7]. pose proof H4 as [B1 B2 B3 B4 B5 B6 B7 B8]. cbn in B1, B2, B3, B4, B5, B6, B7.
  destruct (restart_refines env _ cm H1) as [Hc Hv]; [|done|].
  { intros channels b k start Ech Hin. destruct (R2 channels b k start Ech Hin) as (c & _ & ->).
    destruct (B8 c) as (? & ? & ?). change (link_of c n) with (link_at c (nd_links n)). in_range. }
  set (V := view (sw_circuits (nd_switch n))) in *.
  assert (∃ C, trimmed (nd_links n) (reloaded <$> V) C (view cm) ∧ ∀ c, (0 < ls_opened (link_at c (nd_links n)))%nat → c ∈ C) as (C & HC & Hall).
  { unfold new_circuit_map in Ecm. destruct (re_init_ok env); [|done].
    destruct (clean_closed_channels env _) as [d [[]|]] eqn:Ecl; [|done]. apply rbind_Ok in Ecm as (cm1 & _ & Ecm).
    unfold trim_all_open_circuits in Ecm. apply rbind_Ok in Ecm as (channels & Ech & _).
    assert (∃ closed, re_closed_channels env = Ok closed) as (closed & Eclosed).
    { unfold clean_closed_channels in Ecl. destruct (re_closed_channels env) as [closed|]; [by exists closed | done]. }
    rewrite Hv. unfold spec_restart. rewrite Eclosed, Ech, (R1 _ Eclosed), survives_open.
    destruct (trim_channels_all (nd_links n) (reloaded <$> V) channels [] (reloaded <$> V)) as (C & HC & _ & Hin).
    - intros k e o. rewrite lookup_fmap, fmap_Some. intros (e0 & He & ->) Ho. by apply (books_key _ _ k e0 _ H4).
    - intros o k Hu. destruct (books_unsigned _ _ k o H4 Hu) as (e & He & Ho). exists (reloaded e). cbn in He. fold V in He. by rewrite lookup_fmap, He.
    - intros c. by destruct (B8 c) as (_ & ? & _).
    - intros b sid start Hin. by apply (R2 channels b).
    - done.
    - apply trimmed_nil.
    - exists C. split; [done|]. intros c Hop. apply Hin. by apply (R3 channels c Ech). }
  destruct HC as [T1 T2]. set (f := λ l, LinkState (ls_committed l) [] 0).
  assert (∀ c, link_at c (f <$> nd_links n) = f (link_at c (nd_links n))) as Hf by (intros c; by apply link_at_fmap).
  assert (∀ o k, ¬ unsigned sid_of (f <$> nd_links n) o k) as Hno.
  { intros o k (c & i & p & Hi & _). by rewrite Hf in Hi. }
  exists (λ _, ([], [])), ∅. split; cbn; try done.
  - split; cbn; try done.
    + constructor.
    + intros k. unfold keys. cbn. rewrite lookup_empty. split; [by intros ?%elem_of_nil | done].
    + intros _. constructor.
    + intros c k. rewrite lookup_empty. split; [by intros ?%elem_of_nil | done].
    + by intros _ p ?%elem_of_nil.
    + intros c. by rewrite Hf.
  - split; cbn; try done.
    + by intros c p ?; rewrite Hf in *; apply elem_of_nil in H as [].
    + intros k e' o He' Ho'. destruct ((reloaded <$> V) !! k) as [e1|] eqn:He1; [|rewrite T1 in He' by done; done].
      destruct (T2 k e1 He1) as (e2 & He2 & _ & Ho). assert (e2 = e') as -> by congruence. destruct (proj1 (Ho o) Ho') as [Hx Hn].
      rewrite lookup_fmap, fmap_Some in He1. destruct He1 as (e & He & ->). right.
      destruct (B3 k e o He Hx) as [Hu|?]; [|done]. destruct (unsigned_behind _ _ _ Hu) as (c & Hb & Hop). by destruct (Hn c (Hall c Hop)).
    + intros o q st Hst. destruct (B4 o q st Hst) as ((c & ? & ?) & Hy & Hm). split_and!; [|done|].
      * exists c. rewrite Hf. done.
      * intros Hd. destruct (Hm Hd) as (e & He & Ho).
        destruct (T2 (in_key q) (reloaded e)) as (e' & He' & _ & Ho'); [by rewrite lookup_fmap; fold V in He; rewrite He|].
        exists e'. split; [done|]. apply Ho'. split; [done|]. intros c' _. by apply (signed_not_behind _ _ _ _ _ _ H4 Hst).
    + intros c. rewrite Hf. cbn. destruct (B8 c) as (? & ? & ?). lia.
  - by intros p ?%elem_of_nil.
  - by intros p ?%elem_of_nil.
Qed.
End Restarts.
