(* ===== verification/NodeSafe.v ===== *)
(** * What forwarding keeps

    The runs of [Node] keep its invariant, and what follows for the money of the
    node: no HTLC is given back while what it pays for may still be taken. *)

From S2P Require Import Prelude UpdateLog Tlv TlvStreams CircuitMap CircuitSpec CircuitRefine CircuitRestart Circuits Forwarding Packet Mailbox MailboxProps Switch SwitchMail Node NodeInv NodeSwitch NodeLinks NodeRestart.

Implicit Types (p q : htlc_packet) (k o : circuit_key) (cid : Z) (n : node) (a : answer).

Section Runs.
Context {KP : CircuitPrims} {TP : TlvPrims} {OP : OnionPrims} (cfg : switch_config).
Context (sid_of : Z → Z) {Hsid : Inj (=) (=) sid_of} (Hsource : ∀ cid, sid_of cid ≠ source).

Lemma forwardable_ok n p : forwardable n p → forward_ok (nd_sent n) (nd_done n) p.
Proof using Type.
  intros [Hs Hp]. unfold forward_ok, packet_ok. destruct (p_htlc p); [|done|split; [by right | done] |done].
  destruct Hp as (_ & ? & ? & ? & ?). done.
Qed.

Lemma node_step op n : node_ok sid_of n → op_keeps sid_of op n → node_ok sid_of (node_do cfg sid_of op n).
Proof using Hsid Hsource.
  intros H. pose proof H as (A & pl & Hs). destruct op; cbn [node_do op_keeps].
  - intros [-> Hp]. eapply ok_forward; [exact Hs|]. intros p Hin. by apply forwardable_ok, Hp.
  - intros _. by eapply ok_forwarder.
  - intros _. by apply node_local.
  - intros [Hd Hf]. by eapply ok_send.
  - intros _. by apply node_receive.
  - intros _. by apply node_expire.
  - intros Hr. by apply node_open.
  - intros _. by apply node_sign.
  - intros _. by apply node_answer.
  - intros _. by apply node_complete.
  - intros ->. by apply node_link_restart.
  - intros Ho. exists A, pl. by apply ok_contract.
  - intros _. by eapply ok_resolutions.
  - intros Hl. by eapply ok_responses.
  - intros Hp. by eapply ok_settle_fails_again.
  - intros _. exists A, pl. cbn. unfold ack_pending. destruct (sw_pending_settle_fails _); [done|]. destruct ack_ok; [by apply ok_settle_fails | done].
  - intros _. exists A, pl. by apply ok_add_link.
  - intros _. exists A, pl. by apply ok_remove.
  - intros _. exists A, pl. by apply ok_scids.
  - intros _. exists A, pl. by apply ok_alias.
  - intros _. exists A, pl. by apply ok_short_chan_id.
  - intros _. exists A, pl. by eapply ok_same.
  - intros _. exists A, pl. by eapply ok_same.
  - intros Hr. by apply node_restart.
Qed.

Lemma node_run_ok n ops n' : node_run cfg sid_of n ops n' → node_ok sid_of n → node_ok sid_of n'.
Proof using Hsid Hsource. induction 1 as [|n op ops n' Hk Hr IH]; intros H; [done|]. by apply IH, node_step. Qed.

Lemma new_node_ok height : node_ok sid_of (new_node height).
Proof using Type.
  assert (∀ o k, ¬ unsigned sid_of ∅ o k) as Hno by (intros o k (c & i & p & Hi & _); done).
  exists (λ _, ([], [])), ∅. split; cbn.
  - apply toy_map_ok.
  - apply new_mail_shows.
  - split; cbn; try done.
    + constructor.
    + intros k. unfold keys. cbn. rewrite lookup_empty. split; [by intros ?%elem_of_nil | done].
    + intros _. constructor.
    + intros c k. rewrite lookup_empty. split; [by intros ?%elem_of_nil | done].
    + by intros _ p ?%elem_of_nil.
  - split; cbn; try done.
    by intros c p ?%elem_of_nil.
  - by intros p ?%elem_of_nil.
  - by intros p ?%elem_of_nil.
  - intros o a. by rewrite lookup_empty.
Qed.

(** C6: Whatever a node goes through - batches from its links, the forwarder at
    work, expiries, signatures that fail, links and the node itself restarting,
    resolutions of the chain, in any order - of each incoming HTLC it has at most
    one outgoing HTLC, which neither pays more nor lasts longer. An incoming HTLC
    is failed back only when its outgoing HTLC is failed, or was never signed and
    never will be; it is settled only with the preimage of its outgoing HTLC. An
    outgoing HTLC whose incoming one is not answered yet has its circuit, open to
    it, so that its answer will find the way back. This holds of the runs that
    keep to [op_keeps]: no write of the circuits of a forwarded batch fails (where
    one does, the incoming HTLC can be failed while the outgoing one is in flight,
    see [NodeToy.failed_write_loses]), nor the write of a link's trimming; no
    channel is closed at a restart; links forward HTLCs that they have not
    answered, as new circuits; and what the links, the packages and the chain say
    of an outgoing HTLC is its answer. *)
Theorem forwarding_safe height ops n :
  node_run cfg sid_of (new_node height) ops n →
  (∀ o p st, nd_sent n !! o = Some (p, st) → pays p ∧
     (∀ o' p' st', nd_sent n !! o' = Some (p', st') → in_key p' = in_key p → o' = o) ∧
     match nd_done n !! in_key p with
     | None => ∃ c, lookup_circuit (in_key p) (sw_circuits (nd_switch n)) = Some c ∧
                    lookup_open_circuit o (sw_circuits (nd_switch n)) = Some c ∧ pc_outgoing c = Some o
     | Some a => st = status_of a
     end) ∧
  (∀ k r, nd_done n !! k = Some (Some r) → ∃ o p, nd_sent n !! o = Some (p, Settled r) ∧ in_key p = k).
Proof using Hsid Hsource.
  intros Hr. pose proof (node_run_ok _ _ _ Hr (new_node_ok height)) as (A & pl & H).
  pose proof (so_books _ _ _ _ _ _ _ H) as [_ _ _ B4 B5 B6 B7 _]. cbn in B4, B5, B6, B7.
  split; [|exact B7]. intros o p st Hs. destruct (B4 o p st Hs) as (_ & Hp & Hc). split_and!; [done | |].
  - intros o' p' st' Hs' E. by eapply B5.
  - destruct (nd_done n !! in_key p) as [[r|]|] eqn:Ed.
    + destruct (B7 _ _ Ed) as (o' & q & Hq & E). assert (o' = o) as -> by by eapply B5. by simplify_eq.
    + by eapply B6.
    + destruct (Hc eq_refl) as (e & He & Ho). pose proof (co_mem _ (so_circuits _ _ _ _ _ _ _ H)) as Hm.
      exists e.1. rewrite lookup_circuit_view, lookup_open_view by done. cbn in He. rewrite He. split_and!; [done | | done].
      by rewrite (proj2 (find_open_Some o _ (in_key p) e (view_unique _ Hm)) (conj He Ho)).
Qed.
End Runs.

(** ** The way back *)

(** A response that a link will get: it waits in the mailbox of its channel, or
    for the channel to come up. *)
Definition waits (mo : mail_orchestrator) (sid : Z) p : Prop :=
  match mo_live_index mo !! sid with
  | Some cid => ∃ mb, mo_mailboxes mo !! cid = Some mb ∧ p ∈ packets (q_elems (mb_reps mb))
  | None => ∃ l, mo_unclaimed_packets mo !! sid = Some l ∧ p ∈ l
  end.

Lemma deliver_waits R mo A sid p :
  mail_shows R mo A → is_response (p_htlc p) = true →
  ∃ q, in_key q = in_key p ∧ (q = p ∨ R q) ∧ waits (deliver sid p mo).1 sid q.
Proof.
  intros H Hp. unfold deliver, waits. destruct (mo_live_index mo !! sid) as [cid|] eqn:El.
  - pose proof (get_or_create_shows R cid sid mo A H) as Hg.
    assert (mo_live_index (get_or_create_mailbox cid sid mo).1 = mo_live_index mo) as Ei.
    { unfold get_or_create_mailbox. by destruct (mo_mailboxes mo !! cid). }
    destruct (get_or_create_mailbox cid sid mo) as [mo' mb]. cbn [fst] in Ei. destruct Hg as (H' & _ & Hb).
    assert (∃ q, in_key q = in_key p ∧ (q = p ∨ R q) ∧ q ∈ packets (q_elems (mb_reps (add_packet p mb).1))) as (q & H1 & H2 & H3).
    { destruct Hb as [(s & w & Hq) _ _ Hgood]. unfold add_packet.
      destruct (p_htlc p); try done; (destruct (q_index (mb_reps mb) !! in_key p) as [e|] eqn:E;
        [apply (qo_index _ _ _ _ Hq) in E as (q & Hin & Hk); apply (list_elem_of_fmap_2 snd) in Hin; exists q;
           split_and!; [done | right; by apply Hgood | done]
        |exists p; split_and!; [done | by left | cbn; unfold packets; rewrite map_app; apply elem_of_app; right; left]]). }
    exists q. destruct (add_packet p mb) as [mb' r]. cbn. rewrite Ei, El. split_and!; [done | done|].
    exists mb'. by rewrite lookup_insert_eq.
  - exists p. cbn. rewrite El. split_and!; [done | by left|]. eexists. rewrite lookup_insert_eq. split; [done|].
    apply elem_of_app. right. left.
Qed.

Section Back.
Context {KP : CircuitPrims} {TP : TlvPrims} {OP : OnionPrims} (cfg : switch_config).
Context (sid_of : Z → Z) {Hsid : Inj (=) (=) sid_of} (Hsource : ∀ cid, sid_of cid ≠ source).

(** A response that the forwarder takes, of a circuit that none has claimed. *)
Lemma close_found out k c p s :
  circuits_ok (sw_circuits s) → view (sw_circuits s) !! k = Some (c, false) → pc_outgoing c = Some out →
  p_has_source p = false → packet_out_key p = out →
  ∃ (a : addr) cm, close_packet_circuit p s = (set_circuits cm s, set_source_ref (Some (pc_add_ref c)) (set_circuit (Some a) (set_source k p)), Ok (Some a)) ∧
    deref a cm = c.
Proof using Type.
  intros H Hv Ho Hs Hp. unfold close_packet_circuit. rewrite Hs, Hp. pose proof (close_refines out _ H) as Hc.
  destruct (close_circuit out (sw_circuits s)) as [cm r]. destruct Hc as [_ Hc]. unfold spec_close in Hc.
  rewrite (proj2 (find_open_Some out _ k (c, false) (view_unique _ (co_mem _ H))) (conj Hv Ho)) in Hc.
  unfold spec_claim in Hc. rewrite Hv in Hc. injection Hc as _ Hr. destruct r as [a|e]; [|done]. injection Hr as Hr.
  exists a, cm. rewrite <-Hr. assert (pc_incoming c = k) as ->; [|done].
  apply (view_keyed _ (co_mem _ H) _ _ Hv).
Qed.

Lemma status_inj a a' : status_of a = status_of a' → a = a'.
Proof using Type. destruct a, a'; cbn; congruence. Qed.

(** All that waits for a circuit says the same. *)
Lemma truthful_agrees n A pl k c o p a q :
  state_ok sid_of (nd_links n) (nd_sent n) (nd_done n) (nd_switch n) A pl →
  nd_sent n !! o = Some (p, status_of a) → nd_done n !! k = None →
  view (sw_circuits (nd_switch n)) !! k = Some (c, false) → pc_outgoing c = Some o →
  truthful (world_of (nd_switch n) (nd_sent n) (nd_done n) pl) q → in_key q = k →
  is_response (p_htlc q) = true ∧ answer_of (p_htlc q) = a.
Proof using Type.
  intros H Ho Hd Hv Hc [Hr [[x Hx]|(_ & e & He & Hm)]] <-; [cbn in Hx; congruence|]. split; [done|]. cbn in He, Hm.
  assert (e = (c, false)) as -> by congruence. cbn in Hm. rewrite Hc in Hm. destruct Hm as (q' & Hq'). apply status_inj. congruence.
Qed.

(** C7: When the forwarder handles the answer of an outgoing HTLC, whose incoming
    HTLC is not answered and whose circuit no response has claimed since the node
    started, then a response with that same answer - the preimage, or a failure -
    waits for the link of the incoming HTLC, or for our own payment: in the mailbox
    of its channel, or, while the channel is not up, until it is. The run is one
    that keeps to [op_keeps], as in [forwarding_safe]. (A response to our own
    payment that could not be stored leaves its circuit claimed; the answer is
    then taken again after a restart, which forgets the claims.) *)
Theorem response_returns height ops n pick r l p c :
  node_run cfg sid_of (new_node height) ops n →
  sw_htlc_plex (nd_switch n) = r :: l → p_has_source r = false → is_response (p_htlc r) = true →
  nd_sent n !! packet_out_key r = Some (p, status_of (answer_of (p_htlc r))) → nd_done n !! in_key p = None →
  view (sw_circuits (nd_switch n)) !! in_key p = Some (c, false) →
  let s := htlc_forwarder cfg pick (nd_switch n) in
  ∃ q, in_key q = in_key p ∧ is_response (p_htlc q) = true ∧ answer_of (p_htlc q) = answer_of (p_htlc r) ∧
    if p_incoming_chan_id p =? source then q ∈ sw_local s else waits (sw_mail s) (p_incoming_chan_id p) q.
Proof using Hsid Hsource.
  intros Hr El Hs Hresp Ho Hd Hv s. pose proof (node_run_ok cfg sid_of Hsource _ _ _ Hr (new_node_ok sid_of height)) as (A & pl & H).
  pose proof (so_books _ _ _ _ _ _ _ H) as B. destruct (bk_sent _ _ _ B _ _ _ Ho) as (_ & _ & Hc). destruct (Hc Hd) as (e & He & Hout).
  cbn in He. assert (e = (c, false)) as -> by congruence. cbn in Hout. clear Hc He.
  destruct (close_found _ _ _ r (set_plex l (nd_switch n)) (so_circuits _ _ _ _ _ _ _ H) Hv Hout Hs eq_refl) as (a & cm & Ec & Ed).
  assert (∀ q, in_key q = in_key p → is_response (p_htlc q) = true → answer_of (p_htlc q) = answer_of (p_htlc r) →
    ∃ q', in_key q' = in_key p ∧ is_response (p_htlc q') = true ∧ answer_of (p_htlc q') = answer_of (p_htlc r) ∧
      waits (deliver (p_incoming_chan_id p) q (sw_mail (nd_switch n))).1 (p_incoming_chan_id p) q') as Hdel.
  { intros q Ek Hq Ea. destruct (deliver_waits _ _ _ (p_incoming_chan_id p) q (so_mail _ _ _ _ _ _ _ H) Hq) as (q' & Ek' & [-> |Ht] & Hw).
    - by exists q.
    - destruct (truthful_agrees _ _ _ _ _ _ _ _ _ H Ho Hd Hv Hout Ht) as [? ?]; [congruence|]. exists q'. split_and!; congruence. }
  unfold s, htlc_forwarder. rewrite El. unfold handle_packet_forward.
  destruct (p_htlc r) as [| preimage | reason |] eqn:Em; try done.
  - unfold handle_packet_settle. rewrite Ec. cbn [p_incoming_chan_id set_source_ref set_circuit set_source in_key fst].
    destruct (p_incoming_chan_id p =? source).
    + eexists. split; [|split; [|split; [|cbn; apply elem_of_app; right; left]]]; [done | by cbn; rewrite Em | by cbn; rewrite Em].
    + cbn [sw_circuits set_circuits]. rewrite Ed, Hout. unfold deliver_packet. cbn [sw_mail set_fwding_events set_circuits set_plex].
      match goal with |- context [deliver _ ?q _] => destruct (Hdel q) as (q' & H1 & H2 & H3 & H4) end; [done | cbn; by rewrite Em | cbn; by rewrite Em|].
      exists q'. split_and!; [done | done | done|]. by destruct (deliver _ _ _).
  - unfold handle_packet_fail. rewrite Ec. cbn [p_incoming_chan_id set_source_ref set_circuit set_source in_key fst].
    destruct (p_incoming_chan_id p =? source).
    + eexists. split; [|split; [|split; [|cbn; apply elem_of_app; right; left]]]; [done | by cbn; rewrite Em | by cbn; rewrite Em].
    + cbn [p_has_source sw_circuits set_circuits set_source_ref set_circuit set_source]. rewrite Hs, Ed. destruct (pc_error_encrypter c); unfold deliver_packet;
        cbn [p_incoming_chan_id set_htlc set_obfuscator sw_mail set_circuits set_plex];
        match goal with |- context [deliver _ ?q _] => destruct (Hdel q) as (q' & H1 & H2 & H3 & H4) end;
        try done; try (cbn; by rewrite Em); exists q'; (split_and!; [done | done | done|]); by destruct (deliver _ _ _).
Qed.
End Back.
