(* ===== verification/NodeToy.v ===== *)
(** * A small node

    Two channels, a payment from one to the other, and a restart before its
    preimage comes back; and what a failed write of the circuits does. *)

From S2P Require Import Prelude UpdateLog Tlv TlvStreams CircuitMap CircuitSpec CircuitRefine CircuitRestart Circuits Forwarding Packet Mailbox MailboxProps Switch SwitchMail Node NodeInv NodeSwitch NodeLinks NodeRestart NodeSafe.

#[local] Existing Instance toy_prims.
#[local] Instance toy_onion : OnionPrims := {| encrypt_error _ _ b := b; encode_failure _ := Some [] |}.

Definition toy_config : switch_config := SwitchConfig false false 1000000000 (λ _, false) (λ _, true).

Definition toy_sid (cid : Z) : Z := 2 * cid + 3.
#[local] Instance toy_sid_inj : Inj (=) (=) toy_sid.
Proof. intros a b. unfold toy_sid. lia. Qed.
Lemma toy_sid_source cid : toy_sid cid ≠ source.
Proof. unfold toy_sid, source. lia. Qed.

(** ** Runs that keep to the contract *)

#[local] Instance htlc_status_eq_decision : EqDecision htlc_status.
Proof. solve_decision. Defined.

Definition answered_check (n : node) (o : circuit_key) (a : answer) : bool :=
  match nd_sent n !! o with Some (_, st) => bool_decide (st = status_of a) | None => false end.

Definition forwardable_check (n : node) (p : htlc_packet) : bool :=
  negb (p_has_source p) &&
  match p_htlc p with
  | UpdateAddHTLC hash amount expiry _ =>
      negb (p_incoming_chan_id p =? source) && (amount =? p_amount p) && (expiry =? p_outgoing_timeout p) &&
      bool_decide (nd_done n !! in_key p = None) && fresh_check (new_payment_circuit hash p)
  | OtherMsg => true
  | m => answered_check n (packet_out_key p) (answer_of m)
  end.

Definition restarts_check (cids : list Z) (n : node) (env : restart_env) : bool :=
  match re_closed_channels env with Ok channels => bool_decide (closed_set channels = ∅) | Err _ => true end &&
  match re_open_channels env with
  | Ok channels =>
      forallb (λ ch, match ch.2 with
                     | Ok start => existsb (λ cid, (ch.1.2 =? toy_sid cid) && (start =? ls_committed (link_of cid n))) cids
                     | Err _ => true
                     end) channels &&
      forallb (λ x, (ls_opened x.2 =? 0)%nat ||
                    existsb (λ ch, negb ch.1.1 && (ch.1.2 =? toy_sid x.1) &&
                                   match ch.2 with Ok start => start =? ls_committed x.2 | Err _ => false end) channels)
        (map_to_list (nd_links n))
  | Err _ => true
  end.

Definition keeps_check (cids : list Z) (op : node_op) (n : node) : bool :=
  match op with
  | NForward db_ok packets => db_ok && forallb (forwardable_check n) packets
  | NOpen _ cid => ls_committed (link_of cid n) + Z.of_nat (length (ls_log (link_of cid n))) <? 2 ^ 64
  | NContract _ out r => answered_check n out r
  | NRestart env _ => restarts_check cids n env
  | NLinkRestart db_ok _ => db_ok
  | NSend _ _ _ _ _ _ _ | NResponses _ | NSettleFails _ => false
  | _ => true
  end.

Lemma answered_checked n o a : answered_check n o a = true → answered n o a.
Proof.
  unfold answered_check, answered. destruct (nd_sent n !! o) as [[p st]|]; [|done]. intros ->%bool_decide_eq_true. by exists p.
Qed.

Lemma forwardable_checked n p : forwardable_check n p = true → forwardable n p.
Proof.
  unfold forwardable_check, forwardable. rewrite andb_true_iff, negb_true_iff. intros [Hs H]. split; [done|].
  destruct (p_htlc p); [|by apply answered_checked..|done].
  rewrite !andb_true_iff, negb_true_iff, Z.eqb_neq, !Z.eqb_eq, bool_decide_eq_true in H. destruct H as [[[[? ?] ?] ?] ?%fresh_checked]. done.
Qed.

Lemma restarts_checked cids n env : restarts_check cids n env = true → restarts toy_sid n env.
Proof.
  unfold restarts_check. rewrite andb_true_iff. intros [H1 H2]. split.
  - intros channels E. rewrite E in H1. by apply bool_decide_eq_true in H1.
  - intros channels b sid start E Hin. rewrite E, andb_true_iff, !forallb_forall in H2. destruct H2 as [H2 _].
    apply list_elem_of_In, H2, existsb_exists in Hin as (cid & _ & Hc). cbn in Hc. rewrite andb_true_iff, !Z.eqb_eq in Hc.
    by exists cid.
  - intros channels cid E Hop. rewrite E, andb_true_iff, !forallb_forall in H2. destruct H2 as [_ H2]. unfold link_of in *.
    destruct (nd_links n !! cid) as [l|] eqn:El; [|cbn in Hop; lia]. cbn [default] in *.
    assert (In (cid, l) (map_to_list (nd_links n))) as Hin by (by apply list_elem_of_In, elem_of_map_to_list).
    apply H2 in Hin. cbn in Hin. rewrite orb_true_iff, Nat.eqb_eq in Hin. destruct Hin as [|Hin]; [cbn in Hop; lia|].
    apply existsb_exists in Hin as ([[b sid] r] & Hch & Hx). cbn in Hx. rewrite !andb_true_iff, negb_true_iff, Z.eqb_eq in Hx.
    destruct Hx as [[-> ->] Hr]. destruct r as [start|]; [|done]. apply Z.eqb_eq in Hr as ->. by apply list_elem_of_In.
Qed.

Lemma keeps_checked cids op n : keeps_check cids op n = true → op_keeps toy_sid op n.
Proof.
  destruct op; cbn [keeps_check op_keeps]; try done.
  - rewrite andb_true_iff, forallb_forall. intros [? H]. split; [done|]. intros p Hp%list_elem_of_In. by apply forwardable_checked, H.
  - apply Z.ltb_lt.
  - apply answered_checked.
  - apply restarts_checked.
Qed.

Fixpoint run_node (cids : list Z) (ops : list node_op) (n : node) : option node :=
  match ops with
  | [] => Some n
  | op :: ops => if keeps_check cids op n then run_node cids ops (node_do toy_config toy_sid op n) else None
  end.

Lemma run_node_ok cids ops n n' : run_node cids ops n = Some n' → node_run toy_config toy_sid n ops n'.
Proof.
  revert n. induction ops as [|op ops IH]; intros n; cbn [run_node]; [intros [= ->]; constructor|].
  destruct (keeps_check cids op n) eqn:E; [|done]. intros H. econstructor; [by eapply keeps_checked | by apply IH].
Qed.

(** ** A payment *)

Definition toy_policy : forwarding_policy := ForwardingPolicy 1 0 500 10 (InboundFee 0 0) 40.
Definition toy_link (cid : Z) (peer : byte) : channel_link :=
  ChannelLink cid (toy_sid cid) [peer] true false false false None [] (OutgoingLink toy_policy 10 2000 1000000 None (λ _, true))
    250 (λ _ _ _ _, false) (λ _, 0).

Definition toy_hash : bytes := replicate 32 Byte.x0a.
Definition toy_preimage : bytes := replicate 32 Byte.x0b.
Definition toy_encrypter : error_encrypter := ErrorEncrypter EncrypterTypeSphinx (replicate 33 Byte.x02) (Some (replicate 33 Byte.x02)).

(** HTLC 0 of channel 1, on to channel 2. *)
Definition toy_add : htlc_packet :=
  HtlcPacket 5 7 (inl 7) 0 0 (Some (100, 1)) None 2000 1000 (UpdateAddHTLC toy_hash 1000 500 ∅) (Some toy_encrypter) false None
    false false false None 600 500 0 (InboundFee 0 0).
Definition toy_response : htlc_packet :=
  HtlcPacket 0 7 (inl 0) 0 0 None (Some (SettleFailRef 7 3 0)) 0 0 (UpdateFulfillHTLC toy_preimage) None false None
    false false false None 0 0 0 (InboundFee 0 0).

Definition toy_start : list node_op := [NHeight 400; NAddLink true (toy_link 1 Byte.x01); NAddLink true (toy_link 2 Byte.x02)].
Definition toy_forward : list node_op := [NForward true [toy_add]; NHandle 0; NReceive 2 true true; NOpen true 2; NSign 2].
Definition toy_settle : list node_op :=
  [NAnswer (7, 0) (Some toy_preimage);
   NRestart (RestartEnv (Ok []) (Ok [(false, 5, Ok 0); (false, 7, Ok 1)]) (λ _, Absent) (λ _, Absent) true true true true (λ _, true)) 401] ++
  toy_start ++ [NForward true [toy_response]; NHandle 0; NReceive 1 true true; NComplete true 1 (5, 0)].

Definition toy_node : option node := Eval vm_compute in run_node [1; 2] (toy_start ++ toy_forward ++ toy_settle) (new_node 0).

Example toy_node_paid :
  (λ n, (nd_done n !! (5, 0), snd <$> nd_sent n !! (7, 0))) <$> toy_node =
  Some (Some (Some toy_preimage), Some (Settled toy_preimage)).
Proof. vm_compute. reflexivity. Qed.

Definition toy_end : node := default (new_node 0) toy_node.

Lemma toy_end_run : node_run toy_config toy_sid (new_node 0) (toy_start ++ toy_forward ++ toy_settle) toy_end.
Proof. apply run_node_ok with [1; 2]. vm_compute. reflexivity. Qed.

Lemma forwarding_safe_witness :
  nd_done toy_end !! (5, 0) = Some (Some toy_preimage) ∧
  ∃ o p, nd_sent toy_end !! o = Some (p, Settled toy_preimage) ∧ in_key p = (5, 0).
Proof.
  assert (nd_done toy_end !! (5, 0) = Some (Some toy_preimage)) as H by (vm_compute; reflexivity).
  split; [exact H|].
  exact (proj2 (forwarding_safe toy_config toy_sid toy_sid_source 0 _ toy_end toy_end_run) (5, 0) toy_preimage H).
Defined.

(** The peer's preimage is with the forwarder. *)
Definition toy_answered_ops : list node_op :=
  toy_start ++ toy_forward ++ [NAnswer (7, 0) (Some toy_preimage); NForward true [toy_response]].
Definition toy_answered_node : option node := Eval vm_compute in run_node [1; 2] toy_answered_ops (new_node 0).
Definition toy_answered : node := default (new_node 0) toy_answered_node.

Lemma toy_answered_run : node_run toy_config toy_sid (new_node 0) toy_answered_ops toy_answered.
Proof. apply run_node_ok with [1; 2]. vm_compute. reflexivity. Qed.

Definition toy_circuit_open : payment_circuit := set_outgoing (Some (7, 0)) (new_payment_circuit toy_hash toy_add).

Lemma response_returns_witness :
  sw_htlc_plex (nd_switch toy_answered) = [toy_response] ∧
  ∃ q, in_key q = (5, 0) ∧ is_response (p_htlc q) = true ∧ answer_of (p_htlc q) = Some toy_preimage ∧
    waits (sw_mail (htlc_forwarder toy_config 0 (nd_switch toy_answered))) 5 q.
Proof.
  split; [vm_compute; reflexivity|].
  exact (response_returns toy_config toy_sid toy_sid_source 0 toy_answered_ops toy_answered 0 toy_response []
    (set_outgoing_chan_id 7 (set_original_outgoing_chan_id 7 (set_circuit (Some 0%nat) toy_add))) toy_circuit_open toy_answered_run
    ltac:(vm_compute; reflexivity) eq_refl eq_refl ltac:(vm_compute; reflexivity) ltac:(vm_compute; reflexivity) ltac:(vm_compute; reflexivity)).
Defined.

(** ** A write that fails *)

(** When the write of new circuits fails, [ForwardPackets] fails their HTLCs back,
    but no circuit remembers that. The failure waits in the mailbox; when the
    incoming link restarts before it has taken it, the link forwards the HTLC
    again, and now the circuit is stored: the HTLC goes out, and is failed back. *)
Definition toy_failed_write : list node_op :=
  toy_start ++ [NForward false [toy_add]; NLinkRestart true 1] ++ toy_forward ++ [NReceive 1 true true; NComplete true 1 (5, 0)].

Example failed_write_loses :
  (λ n, (nd_done n !! (5, 0), snd <$> nd_sent n !! (7, 0)))
    (foldl (λ n op, node_do toy_config toy_sid op n) (new_node 0) toy_failed_write) = (Some None, Some InFlight).
Proof. vm_compute. reflexivity. Qed.

(** ** Links and mailboxes *)

Lemma forwards_pay_witness :
  forward_terms (cl_outgoing (toy_link 2 Byte.x02)) 2000 1000 600 500 (InboundFee 0 0) 400 ∅.
Proof.
  refine (proj1 (forwards_pay (cl_outgoing (toy_link 2 Byte.x02)) 2000 1000 600 500 (InboundFee 0 0) 400 7 ∅ _ _ _ _ _ _) _);
    [split; vm_compute; done | split; vm_compute; done | done | done | done | done | vm_compute; reflexivity].
Defined.

Lemma wire_queue_bounded_witness :
  wq_messages (add_message 7%nat (Some 32) (reset_messages (M := nat))).1 = [(7%nat, 32)] ∧
  wire_ok (add_message 7%nat (Some 32) (reset_messages (M := nat))).1.
Proof.
  split; [vm_compute; reflexivity|].
  refine (proj1 (wire_queue_bounded 7%nat (Some 32) (reset_messages (M := nat)) _ _)).
  - split; [done | intros x []%elem_of_nil | done | cbn; lia].
  - intros x [= <-]. lia.
Defined.

(** A response and two adds; an add is sent, and one acknowledged. *)
Definition toy_mail : list mail_op :=
  [MailAdd toy_response; MailAdd toy_add; MailAdd (set_source (5, 1) toy_add); MailPeek; MailSend; MailPeek; MailSend; MailAck (5, 0)].

Fixpoint mail_after (ops : list mail_op) (x : mailbox * (list htlc_packet * list htlc_packet)) : mailbox * (list htlc_packet * list htlc_packet) :=
  match ops with
  | [] => x
  | op :: ops => mail_after ops (run_mail_op op x.1, unacked_after op x.1 x.2)
  end.

Lemma mail_after_run ops sid x : mail_run sid x.1 x.2 → mail_run sid (mail_after ops x).1 (mail_after ops x).2.
Proof. revert x. induction ops as [|op ops IH]; intros x H; [done|]. apply IH. by apply (mail_next sid op). Qed.

Lemma mailbox_redelivers_witness :
  let x := mail_after toy_mail (new_mailbox 5, ([], [])) in
  x.2 = ([toy_response], [set_source (5, 1) toy_add]) ∧
  (drain 2 (reset_packets x.1)).2 = [toy_response; set_source (5, 1) toy_add].
Proof.
  intros x. split; [vm_compute; reflexivity|].
  pose proof (mailbox_redelivers 5 x.1 [toy_response] [set_source (5, 1) toy_add]) as H.
  assert (mail_run 5 x.1 ([toy_response], [set_source (5, 1) toy_add])) as Hr.
  { replace ([toy_response], [set_source (5, 1) toy_add]) with x.2 by (vm_compute; reflexivity).
    apply mail_after_run. constructor. }
  specialize (H Hr). cbn [length Nat.add] in H. destruct (drain 2 (reset_packets x.1)) as [mb l]. exact (proj1 H).
Defined.
